(* ===== verification/_CoqProject ===== *)
-Q . S2P
Prelude.v
LongLong.v
Limbs.v
Bignum.v
Integers.v
Division.v
Numbers.v
Bits.v
Heap.v
Ast.v
Codegen.v
Vm.v
Semantics.v
VmSteps.v
Instructions.v
Calls.v
Code.v
Simulation.v
Compiler.v
Scope.v
Toplevel.v
Frame.v
Source.v
Simplify.v
SimplifySim.v
SimplifyLaws.v
Arithmetic.v
Control.v
Gc.v
GcMark.v
GcHeap.v
GcMemory.v
Collector.v
Sort.v
Ordering.v
Sorting.v
Threads.v
Signals.v
ThreadSpec.v
ThreadQueues.v
ThreadRefine.v
Scheduler.v
Turns.v
Utf8.v
StringOps.v
StringLaws.v
HashTable.v
Equal.v
HashTables.v
HashMaps.v
Text.v
Symbols.v
Decimal.v
Printer.v
Reader.v
ReadNumber.v
ReadTokens.v
ReadBack.v
ReadEnds.v
Sha2.v
Syntax.v
Identifiers.v
Analyze.v
Analysis.v
Scoping.v
Internal.v
Frontend.v
AnalyzeFaults.v
