(* ===== verification/Prelude.v ===== *)
(** * A verification of Chibi-Scheme

    Chibi-Scheme is a Scheme system written in C: a reader and an analyzer turn
    text into syntax trees, a simplifier and a code generator turn the trees into
    bytecode, a virtual machine runs the bytecode on a stack, and a mark and
    sweep collector manages the objects, with arithmetic on integers of any size
    below all of it.  This library models the parts of that pipeline that
    compute, from the sources under [src/], and proves what makes them correct.
    A build for 64-bit words with the default features of
    [include/chibi/features.h] is meant throughout.

    ** Files and sources

    - [Prelude] (this file): machine integers and their wrap-around, bits of
      words, congruences, and tactics for them.
    - [LongLong] ([include/chibi/bignum.h]): the double-word integers, in the
      implementation with structs ([Portable]) and the one with the integers of
      the compiler ([Native]), behind the class [LongUInt].
    - [Limbs], [Bignum] ([bignum.c]): arrays of limbs and the operations on
      them, written against [LongUInt]; Karatsuba multiplication.
    - [Division] ([bignum.c]): [sexp_bignum_quot_rem].
    - [Integers], [Numbers] ([bignum.c], [sexp.c]): fixnums and bignums, the
      exact rows of the generic operations, Euclid, ratios and rounding.
    - [Bits] ([lib/srfi/151/bit.c]): the bitwise operations on exact integers.
    - [Heap] ([include/chibi/sexp.h], [sexp.c]): tagged words, objects, and the
      list utilities over chains of pairs that may be shared or circular.
    - [Ast] ([eval.c], [simplify.c]): syntax trees and the free-variable pass;
      [Scope]: its correctness.
    - [Codegen] ([vm.c], [eval.c]): [sexp_generate] and the buffer of bytecode.
    - [Vm] ([vm.c]): the stack, [sexp_apply] and its instructions;
      [VmSteps], [Instructions], [Calls]: how each instruction, call and return
      moves the machine; [Arithmetic], [Control]: the arithmetic instructions,
      continuations and errors.
    - [Semantics]: a big-step semantics of trees, the specification of the
      compiler; [Code]: generated code as a relation on it; [Simulation],
      [Compiler], [Toplevel]: the machine follows the semantics; [Frame]: code
      and exceptions in the heap are never changed by it.
    - [Simplify] ([simplify.c]): the pass in front of the code generator, which
      runs the machine on constants; [Source]: the semantics of trees that it
      keeps, with environments and without a layout of memory; [SimplifySim],
      [SimplifyLaws]: the proof.
    - [Gc] ([gc.c]): marking, weak references, finalizers, sweeping, allocation;
      [GcMark], [GcHeap], [GcMemory], [Collector]: their correctness, with heaps
      as lists of blocks.
    - [Sort] ([lib/srfi/95/qsort.c]): the order on objects, and [sort!] with its
      two merge sorts on an array and a scratch array; [Ordering], [Sorting]:
      what they promise.  The sorts do not look into the elements but through
      the comparison, so they are polymorphic; the procedures they call change a
      world of their own and raise exceptions, and do not assign to the vector
      that is being sorted.
    - [Threads] ([lib/srfi/18/threads.c], [vm.c]): threads, mutexes, condition
      variables, timeouts, signals and the scheduler, on the chains of pairs
      that the code updates in place; [ThreadSpec]: the same on lists;
      [ThreadQueues], [ThreadRefine]: the pairs implement the lists;
      [Scheduler], [Turns]: no thread is lost, the invariant of reachable
      states, who runs and when, locks; [Signals]: the next pending signal.
    - [Utf8] ([sexp.c], [lib/chibi/io/port.c]): bytes of strings, the UTF-8
      coding of a character and the scans over it; [StringOps] ([sexp.c],
      [eval.c], [vm.c], [lib/chibi/ast.c]): strings in byte buffers that
      substrings share, cursors, and the operations on them in the default
      configuration, where an index is found by a scan; [StringLaws]: what
      they do to the sequence of characters.
    - [HashTable] ([lib/srfi/69/hash.c], [interface.scm], [sexp.c]): hashes,
      [equal?], tables of buckets and the operations of the interface; [Equal]:
      [equal?] is equality of trees; [HashTables], [HashMaps]: tables are maps.
      The hash and equivalence procedures of users return a value or raise an
      exception, and do not use the table; addresses are an argument.
    - [Text], [Symbols] ([sexp.c], [include/chibi/sexp-huff.h],
      [sexp-unhuff.h]): classes of characters; symbols packed into words by a
      prefix code, and the table of the others.  [Decimal] ([bignum.c]):
      numerals.
    - [Printer] ([sexp.c]): the text of a tree of data.  [Reader] ([sexp.c],
      [bignum.c]): a monad over the characters of a port, and the tokens, data,
      comments and labels on it; [ReadNumber], [ReadTokens], [ReadBack]: what is
      written is read back; [ReadEnds]: reading ends.
    - [Syntax] ([eval.c]): source forms with syntactic closures, environments as
      chains of frames of cells, renamed bindings, identifiers; [Identifiers]:
      what closures mean and how data lose them.  [Analyze] ([eval.c]): [analyze]
      and all of its forms, in a monad over cells, frames and the lambdas under
      construction; [Analysis], [Scoping]: the invariant of these and of the
      trees; [Internal]: internal definitions; [Frontend]: the trees are programs
      of the compiler; [AnalyzeFaults]: what goes wrong.
    - [Sha2] ([lib/chibi/crypto/sha2.c]): the digests SHA-224 and SHA-256 of
      data that is added in pieces.

    Names are those of the C code.  A C function that updates an object in place
    returns the updated object or heap; a loop is a [Fixpoint], with fuel where
    it is not structural; [goto] is recursion.  Where the code shares or mutates
    objects that others can see, in [Heap], [Codegen], [Vm] and [Threads], there
    is one store of addresses and the aliasing is that of the code; the bignum
    functions, which return fresh objects, are functions on values, with the two
    places where they write into an operand made explicit.

    ** What the theorems show

    - The analyzer: for forms without syntactic closures, in a state without
      macros, analysis ends and gives an exception or a tree in which a reference
      goes past no lambda around it that has the name as a parameter, or had it
      as an internal definition when the form was begun, and assigned variables
      are known to be; internal definitions in front of a body are in scope in
      all of it and in each other, while a reference in front of a definition goes
      outside.  At the toplevel such a tree meets, after the pass over free
      variables, the conditions of the next theorem, its size and the numbers of
      arguments of operators apart.  The keywords that bind syntax are allowed as
      long as no procedure becomes a macro.  With any environments and macros a
      closed identifier means what it meant where it was closed, unless the
      closure or the context lists it as free.
    - The compiler: a program compiled by [sexp_generate] and run by
      [sexp_apply] computes the value that its semantics gives, or ends with
      the out-of-stack error, and the computed stack depth is enough for the
      frames it makes; closures capture exactly the free variables.  Where this
      fails (operands that are global, rest parameters that are only assigned,
      requests for a large stack) a theorem shows the failure.
    - The simplifier: a simplified program has the value of the program, where
      values are compared by what their procedures return; constants are folded
      to what the machine computes.  Operands of an application are at most 55.
    - The machine: arithmetic instructions are exact and promote; errors reach
      the current handler; a continuation restores what was captured, on a stack
      that has room for it, and otherwise runs into undefined behaviour or the
      out-of-stack error.
    - Numbers: every operation on integers and ratios computes the mathematical
      result in normal form, for both implementations of double words, but for
      inputs that are stated in the theorem or proved to fail, as conjunctions
      with a negative operand of bignums whose sign bits are not free.
    - Lists: termination and results on proper, improper and circular lists, in
      place or copied.
    - The collector: marking ends and marks what is reachable; a collection
      keeps that and nothing else, leaves heaps well formed and free chunks
      merged, and no strong or weak field dangling; the fields behind the weak
      ones, as the value of an ephemeron, may dangle, and dynamic libraries are
      not finalized, which have theorems; allocation returns fresh memory and succeeds while [malloc] does.
    - Sorting: for a strict weak order the elements are sorted in place and
      stable, and returned but for short vectors; for any
      procedures the elements are kept and no access is out of bounds.  Those
      short vectors, and the lists, circular lists and distant
      fixnums on which the order on objects is none, have theorems of their own.
    - Threads: every operation and the scheduler run on the pairs as the
      specification does on the lists.  A turn loses no thread and makes none
      up; mutexes exclude, and are handed over; for programs that start a thread
      once and do not wait for descriptors or signals, at turns that come before
      the own deadline of the current thread, the lists stay disjoint and ordered
      by deadline, a thread whose deadline has passed can run, and a thread that
      can run does if none in front of it waits and none wakes another.  What
      those programs are kept from, as a timeout that is lost, has a theorem.
    - Hash tables: [equal?] decides whether two objects are the same tree, and
      what it takes for equal has one hash; every sequence of operations on a
      table does what it does on an association list, and the buckets stay
      sparse.  Keys for which that fails have a theorem.
    - Strings: a string of characters is their sequence.  Indices and cursors
      are two names of a position; length, references, slices and joining are
      those of the sequence; replacing a character changes that one even where
      the lengths of the codes differ; the order of the bytes is that of the
      characters.  The inputs on which the code does something else, as counts
      and steps that leave the string, have a theorem.
    - Text: symbols are the same when their names are; what the printer writes
      of a tree is read as that tree, with numbers of the same value, in front
      of anything that ends a token; numerals in every base are taken back to
      their numbers, and the buffer they are written into is large enough;
      reading ends on every text and makes progress.  Texts that are read as
      something they do not say, and data whose text is that of other data, are
      stated.
    - Digests: what the contexts compute of the pieces is the digest of the
      padded message by the standard, but for a piece that begins in the middle
      of a block and ends in the middle of a later one; its loss is shown.

    ** Fuel

    Loops over limbs, lists of C structures and free lists are structural or
    bounded by lengths.  Where fuel is a number of steps, the theorems give
    enough of it: Karatsuba by the length of the operands, division by the
    number of bits of the dividend, Euclid by twice the bits of the divisor, marking by
    the number of objects plus two (each step marks one, each range on the stack
    has marked one), the scans of a heap by its size, the merge sort by the
    length of the vector, the loops over threads by the number of pairs, the
    chain of children by the number of contexts, [equal?] by the depth of the
    trees, and the simplifier by the number of nodes of the tree; that of its
    folding may be any.  The analyzer needs twice the number of pairs and ends of
    the form, since a definition that waits for the end of its body is a part of
    the form that is analyzed at the level of the body; [Crash] and
    [Out_of_fuel] are outcomes of their own.  The reader needs two more than there are characters; its
    number routines keep the fuel of [Numbers].  The comparison of pairs has fuel for its loop only,
    whose end cannot be promised.  [run] takes the number of
    instructions, and the theorems state that some number reaches the result
    and every larger one does as well.

    ** Not modelled

    - Flonums, arithmetic on complex numbers, and conversions between flonums and
      decimal text: IEEE arithmetic and [snprintf] are not part of the sources.
      The reader and the printer, which do have complex numbers of exact parts,
      stop at flonums.
    - Object literals in braces, uniform vectors but bytevectors, and the cycles
      that reader labels close in an object: the data of the reader and the
      printer are trees.
    - The buffers, files and descriptors of ports, and the library modules that
      use them ([json.c], the rest of [io/port.c], [filesystem]): their core is
      the C library.  A port is the characters that it holds.
    - What macros do: their procedures and the evaluation of what syntax is bound
      to are arguments of [Analyze], and may change environments; the theorems on
      analysis are for states without macros.  Imports and the loading of modules
      and files; positions in the source, circular source, and the exit after a
      warning when warnings are errors.
    - The scheduler as a hook of the machine: [Vm] runs one thread, and in
      [Threads] a thread is a context without its stack and registers.  The
      clock and [poll] are arguments.
    - Types, records and the fields of objects: the collector reads the layout
      of an object off its type, which is data of the object in [Gc]; that
      layouts are right is not shown.
    - Pointers in C: an address is a number, and memory is what the component
      keeps of it, so that errors of C outside of the modelled accesses cannot
      be expressed.  The stack, vectors and bytevectors are arrays with bounds
      and an access outside is an outcome. *)

From Stdlib Require Export ZArith Lia Bool.
From stdpp Require Export base tactics numbers list option.

Declare Scope cint_scope.
Delimit Scope cint_scope with cint.
#[global] Open Scope Z_scope.

(** ** Machine integers *)

(** Unsigned wrap-around at [w] bits and two's complement wrap-around at [w]
    bits, both on [Z]. *)
Definition uwrap (w z : Z) : Z := z mod 2 ^ w.
Definition swrap (w z : Z) : Z := (z + 2 ^ (w - 1)) mod 2 ^ w - 2 ^ (w - 1).

Abbreviation u8 := (uwrap 8).
Abbreviation u32 := (uwrap 32).
Abbreviation u64 := (uwrap 64).
Abbreviation u128 := (uwrap 128).
Abbreviation s64 := (swrap 64).
Abbreviation s128 := (swrap 128).

(** [SEXP_UINT_T_MAX] on a 64-bit build. *)
Definition UINT_MAX : Z := 2 ^ 64 - 1.

Definition is_u (w z : Z) : Prop := 0 <= z < 2 ^ w.
Abbreviation is_u64 := (is_u 64).
Abbreviation is_u128 := (is_u 128).

Lemma uwrap_range w z : 0 <= w -> is_u w (uwrap w z).
Proof. intros Hw. unfold is_u, uwrap. apply Z.mod_pos_bound. lia. Qed.

Lemma uwrap_id w z : is_u w z -> uwrap w z = z.
Proof. apply Z.mod_small. Qed.

Lemma swrap_range w z : 0 < w -> - 2 ^ (w - 1) <= swrap w z < 2 ^ (w - 1).
Proof.
  intros Hw. unfold swrap.
  pose proof (Z.mod_pos_bound (z + 2 ^ (w - 1)) (2 ^ w) ltac:(lia)).
  assert (2 ^ w = 2 * 2 ^ (w - 1)) by (rewrite <- Z.pow_succ_r; [f_equal|]; lia).
  lia.
Qed.

Lemma swrap_id w z : 0 < w -> - 2 ^ (w - 1) <= z < 2 ^ (w - 1) -> swrap w z = z.
Proof.
  intros Hw Hz. unfold swrap.
  assert (2 ^ w = 2 * 2 ^ (w - 1)) by (rewrite <- Z.pow_succ_r; [f_equal|]; lia).
  rewrite Z.mod_small; lia.
Qed.

(** ** Bit operations of C on unsigned words *)

(** [a << s], [a >> s] and [~a] on a [w]-bit unsigned operand. *)
Definition ushl (w a s : Z) : Z := uwrap w (Z.shiftl a s).
Definition ushr (a s : Z) : Z := Z.shiftr a s.
Definition unot (w a : Z) : Z := uwrap w (Z.lnot a).

Lemma ushr_div a s : 0 <= s -> ushr a s = a / 2 ^ s.
Proof. apply Z.shiftr_div_pow2. Qed.

Lemma ushl_mul w a s : 0 <= s -> ushl w a s = (a * 2 ^ s) mod 2 ^ w.
Proof. intros. unfold ushl, uwrap. by rewrite Z.shiftl_mul_pow2. Qed.

Lemma unot_sub w a : 0 <= w -> is_u w a -> unot w a = 2 ^ w - 1 - a.
Proof.
  intros Hw [Ha Hb]. unfold unot, uwrap, Z.lnot, is_u in *.
  replace (Z.pred (- a)) with ((2 ^ w - 1 - a) + (-1) * 2 ^ w) by lia.
  rewrite Z.mod_add by lia. apply Z.mod_small. lia.
Qed.

Lemma land_low k a : 0 <= k -> Z.land a (2 ^ k - 1) = a mod 2 ^ k.
Proof.
  intros Hk. rewrite <- Z.land_ones by done. f_equal.
  rewrite Z.ones_equiv. lia.
Qed.

(** Disjoint halves: [(hi << k) | lo] is [hi * 2^k + lo]. *)
Lemma lor_low_high k a b : 0 <= k -> is_u k b -> Z.lor (a * 2 ^ k) b = a * 2 ^ k + b.
Proof.
  intros Hk [Hb1 Hb2]. assert (Z.land (a * 2 ^ k) b = 0) as Hd.
  { apply Z.bits_inj'. intros n Hn. rewrite Z.land_spec, Z.bits_0.
    destruct (decide (n < k)) as [Hlt|Hge].
    - by rewrite Z.mul_pow2_bits_low.
    - destruct (decide (b = 0)) as [->|Hb]; [by rewrite Z.bits_0, andb_false_r|].
      rewrite (Z.bits_above_log2 b n), andb_false_r; [done|lia|].
      apply Z.lt_le_trans with k; [apply Z.log2_lt_pow2; lia | lia]. }
  by rewrite Z.add_nocarry_lxor, Z.lxor_lor by done.
Qed.

(** [(a * 2^s) mod 2^w] keeps the low [w - s] bits of [a]. *)
Lemma mul_pow2_mod a s w : 0 <= s <= w -> (a * 2 ^ s) mod 2 ^ w = (a mod 2 ^ (w - s)) * 2 ^ s.
Proof.
  intros Hs. replace (2 ^ w) with (2 ^ (w - s) * 2 ^ s) by (rewrite <- Z.pow_add_r; [f_equal|..]; lia).
  apply Z.mul_mod_distr_r; lia.
Qed.

Lemma div_le_self x d : 0 <= x -> 0 < d -> x / d <= x.
Proof. intros. apply Z.div_le_upper_bound; nia. Qed.

(** ** Congruence modulo [m], as a setoid *)

Definition eqm (m a b : Z) : Prop := a mod m = b mod m.

#[global] Instance eqm_equiv m : Equivalence (eqm m).
Proof. split; unfold eqm; red; intros; congruence. Qed.

#[global] Instance eqm_add m : Proper (eqm m ==> eqm m ==> eqm m) Z.add.
Proof. intros a a' Ha b b' Hb. unfold eqm in *. by rewrite Zplus_mod, Ha, Hb, <- Zplus_mod. Qed.
#[global] Instance eqm_sub m : Proper (eqm m ==> eqm m ==> eqm m) Z.sub.
Proof. intros a a' Ha b b' Hb. unfold eqm in *. by rewrite Zminus_mod, Ha, Hb, <- Zminus_mod. Qed.
#[global] Instance eqm_mul m : Proper (eqm m ==> eqm m ==> eqm m) Z.mul.
Proof. intros a a' Ha b b' Hb. unfold eqm in *. by rewrite Zmult_mod, Ha, Hb, <- Zmult_mod. Qed.
#[global] Instance eqm_opp m : Proper (eqm m ==> eqm m) Z.opp.
Proof. intros a a' Ha. rewrite <- !Z.sub_0_l. by rewrite Ha. Qed.

Lemma eqm_mod m a : eqm m (a mod m) a.
Proof. unfold eqm. apply Zmod_mod. Qed.

Lemma eqm_mult m a b k : a = b + k * m -> eqm m a b.
Proof. intros ->. unfold eqm. by rewrite Z_mod_plus_full. Qed.

Lemma eqm_small m a b : eqm m a b -> 0 <= a < m -> 0 <= b < m -> a = b.
Proof. unfold eqm. intros H Ha Hb. by rewrite !Z.mod_small in H. Qed.

Lemma mod_by_eqm m a b : eqm m a b -> 0 <= a < m -> a = b mod m.
Proof. unfold eqm. intros <- Ha. by rewrite Z.mod_small. Qed.

(** Case analysis on a boolean comparison of the code. *)
Ltac zcase :=
  match goal with
  | |- context [?a =? ?b] => destruct (Z.eqb_spec a b)
  | |- context [?a <? ?b] => destruct (Z.ltb_spec a b)
  | |- context [?a <=? ?b] => destruct (Z.leb_spec a b)
  | |- context [?a >? ?b] => rewrite (Z.gtb_ltb a b); destruct (Z.ltb_spec b a)
  | |- context [?a >=? ?b] => rewrite (Z.geb_leb a b); destruct (Z.leb_spec b a)
  end.
Ltac zcases := repeat (zcase; try lia).

Lemma uwrap_eqm w z : eqm (2 ^ w) (uwrap w z) z.
Proof. apply eqm_mod. Qed.

Lemma swrap_eqm w z : eqm (2 ^ w) (swrap w z) z.
Proof. unfold swrap. rewrite eqm_mod. apply eqm_mult with 0. lia. Qed.

(** The signed wrap is the only congruent value in the signed range. *)
Lemma swrap_unique w z z' : 0 < w -> - 2 ^ (w - 1) <= z' < 2 ^ (w - 1) ->
  eqm (2 ^ w) z' z -> z' = swrap w z.
Proof.
  intros Hw Hz' He. rewrite <- (swrap_id w z') by done. unfold swrap. f_equal.
  change (eqm (2 ^ w) (z' + 2 ^ (w - 1)) (z + 2 ^ (w - 1))). by rewrite He.
Qed.
