(* ===== verification/LongLong.v ===== *)
(** * Double-word integers (include/chibi/bignum.h) *)
From S2P Require Import Prelude.

(** ** The interface the bignum code is written against

    [bignum.c] only uses the names below; a build selects the implementation
    with [SEXP_USE_CUSTOM_LONG_LONGS]. *)
Class LongUInt (T : Type) := {
  luint_from_uint : Z -> T;
  luint_to_uint : T -> Z;
  luint_eq : T -> T -> bool;
  luint_lt : T -> T -> bool;
  luint_shl : T -> Z -> T;
  luint_shr : T -> Z -> T;
  luint_add : T -> T -> T;
  luint_add_uint : T -> Z -> T;
  luint_sub : T -> T -> T;
  luint_mul_uint : T -> Z -> T;
  luint_div : T -> T -> T;
  luint_div_uint : T -> Z -> T;
  luint_and : T -> T -> T;
}.

(** What an implementation promises: every operation computes modulo [2^128]
    on the value of its operands. *)
Class LongUIntOk (T : Type) `{LongUInt T} := {
  lok : T -> Prop;
  lval : T -> Z;
  lval_range a : lok a -> is_u128 (lval a);
  from_uint_ok v : is_u64 v -> lok (luint_from_uint v) /\ lval (luint_from_uint v) = v;
  to_uint_spec a : lok a -> luint_to_uint a = lval a mod 2 ^ 64;
  luint_eq_spec a b : lok a -> lok b -> luint_eq a b = (lval a =? lval b);
  luint_lt_spec a b : lok a -> lok b -> luint_lt a b = (lval a <? lval b);
  luint_shl_spec a s : lok a -> 0 <= s < 128 ->
    lok (luint_shl a s) /\ lval (luint_shl a s) = (lval a * 2 ^ s) mod 2 ^ 128;
  luint_shr_spec a s : lok a -> 0 <= s < 128 ->
    lok (luint_shr a s) /\ lval (luint_shr a s) = lval a / 2 ^ s;
  luint_add_spec a b : lok a -> lok b ->
    lok (luint_add a b) /\ lval (luint_add a b) = (lval a + lval b) mod 2 ^ 128;
  luint_add_uint_spec a b : lok a -> is_u64 b ->
    lok (luint_add_uint a b) /\ lval (luint_add_uint a b) = (lval a + b) mod 2 ^ 128;
  luint_sub_spec a b : lok a -> lok b ->
    lok (luint_sub a b) /\ lval (luint_sub a b) = (lval a - lval b) mod 2 ^ 128;
  luint_mul_uint_spec a b : lok a -> is_u64 b ->
    lok (luint_mul_uint a b) /\ lval (luint_mul_uint a b) = (lval a * b) mod 2 ^ 128;
  luint_div_spec a b : lok a -> lok b -> lval b <> 0 ->
    lok (luint_div a b) /\ lval (luint_div a b) = lval a / lval b;
  luint_div_uint_spec a b : lok a -> is_u64 b -> b <> 0 ->
    lok (luint_div_uint a b) /\ lval (luint_div_uint a b) = lval a / b;
  luint_and_spec a b : lok a -> lok b ->
    lok (luint_and a b) /\ lval (luint_and a b) = Z.land (lval a) (lval b);
}.

(** ** The portable implementation: a pair of 64-bit words *)
Module Portable.

Record sexp_luint_t := Luint { hi : Z; lo : Z }.
(** The signed pair has a signed [hi] and an unsigned [lo]. *)
Record sexp_lsint_t := Lsint { shi : Z; slo : Z }.

Definition M32 : Z := 0xFFFFFFFF.

Definition lsint_lt_0 (a : sexp_lsint_t) : bool := shi a <? 0.

Definition sexp_lsint_fits_sint (x : sexp_lsint_t) : bool :=
  (shi x =? Z.shiftr (s64 (slo x)) 63).
Definition sexp_luint_fits_uint (x : sexp_luint_t) : bool := hi x =? 0.

Definition luint_from_lsint (v : sexp_lsint_t) : sexp_luint_t := Luint (u64 (shi v)) (slo v).
Definition lsint_from_luint (v : sexp_luint_t) : sexp_lsint_t := Lsint (s64 (hi v)) (lo v).
Definition lsint_from_sint (v : Z) : sexp_lsint_t := Lsint (Z.shiftr v 63) (u64 v).
Definition luint_from_uint (v : Z) : sexp_luint_t := Luint 0 v.
Definition lsint_to_sint (v : sexp_lsint_t) : Z := s64 (slo v).
Definition luint_to_uint (v : sexp_luint_t) : Z := lo v.
Definition lsint_to_sint_hi (v : sexp_lsint_t) : Z := shi v.
Definition luint_to_uint_hi (v : sexp_luint_t) : Z := hi v.

Definition lsint_negate (v : sexp_lsint_t) : sexp_lsint_t :=
  let ahi := unot 64 (u64 (shi v)) in
  let alo := unot 64 (slo v) in
  let aLoLo := Z.land alo M32 in
  let aLoHi := ushr alo 32 in
  let aHiLo := Z.land ahi M32 in
  let aHiHi := ushr ahi 32 in
  let sumLoLo := u64 (aLoLo + 1) in
  let carry := ushr sumLoLo 32 in
  let resultLoLo := Z.land sumLoLo M32 in
  let sumLoHi := u64 (aLoHi + carry) in
  let resultLoHi := Z.land sumLoHi M32 in
  let carry := ushr sumLoHi 32 in
  let sumHiLo := u64 (aHiLo + carry) in
  let resultHiLo := Z.land sumHiLo M32 in
  let carry := ushr sumHiLo 32 in
  let sumHiHi := u64 (aHiHi + carry) in
  let resultHiHi := Z.land sumHiHi M32 in
  Lsint (s64 (Z.lor (ushl 64 resultHiHi 32) resultHiLo))
        (Z.lor (ushl 64 resultLoHi 32) resultLoLo).

Definition luint_eq (a b : sexp_luint_t) : bool := (hi a =? hi b) && (lo a =? lo b).

Definition luint_lt (a b : sexp_luint_t) : bool :=
  if hi a <? hi b then true
  else if hi a >? hi b then false
  else lo a <? lo b.

Definition luint_shl (v : sexp_luint_t) (shift : Z) : sexp_luint_t :=
  if shift =? 0 then v
  else if shift >=? 64 then Luint (ushl 64 (lo v) (shift - 64)) 0
  else Luint (Z.lor (ushl 64 (hi v) shift) (ushr (lo v) (64 - shift))) (ushl 64 (lo v) shift).

Definition luint_shr (v : sexp_luint_t) (shift : Z) : sexp_luint_t :=
  if shift =? 0 then v
  else if shift >=? 64 then Luint 0 (ushr (hi v) (shift - 64))
  else Luint (ushr (hi v) shift) (Z.lor (ushr (lo v) shift) (ushl 64 (hi v) (64 - shift))).

Definition luint_add (a b : sexp_luint_t) : sexp_luint_t :=
  let aLoLo := Z.land (lo a) M32 in
  let aLoHi := ushr (lo a) 32 in
  let aHiLo := Z.land (hi a) M32 in
  let aHiHi := ushr (hi a) 32 in
  let bLoLo := Z.land (lo b) M32 in
  let bLoHi := ushr (lo b) 32 in
  let bHiLo := Z.land (hi b) M32 in
  let bHiHi := ushr (hi b) 32 in
  let sumLoLo := u64 (aLoLo + bLoLo) in
  let carry := ushr sumLoLo 32 in
  let resultLoLo := Z.land sumLoLo M32 in
  let sumLoHi := u64 (u64 (aLoHi + bLoHi) + carry) in
  let resultLoHi := Z.land sumLoHi M32 in
  let carry := ushr sumLoHi 32 in
  let sumHiLo := u64 (u64 (aHiLo + bHiLo) + carry) in
  let resultHiLo := Z.land sumHiLo M32 in
  let carry := ushr sumHiLo 32 in
  let sumHiHi := u64 (u64 (aHiHi + bHiHi) + carry) in
  let resultHiHi := Z.land sumHiHi M32 in
  Luint (Z.lor (ushl 64 resultHiHi 32) resultHiLo)
        (Z.lor (ushl 64 resultLoHi 32) resultLoLo).

Definition luint_add_uint (a : sexp_luint_t) (b : Z) : sexp_luint_t :=
  let aLoLo := Z.land (lo a) M32 in
  let aLoHi := ushr (lo a) 32 in
  let aHiLo := Z.land (hi a) M32 in
  let aHiHi := ushr (hi a) 32 in
  let bLoLo := Z.land b M32 in
  let bLoHi := ushr b 32 in
  let sumLoLo := u64 (aLoLo + bLoLo) in
  let carry := ushr sumLoLo 32 in
  let resultLoLo := Z.land sumLoLo M32 in
  let sumLoHi := u64 (u64 (aLoHi + bLoHi) + carry) in
  let resultLoHi := Z.land sumLoHi M32 in
  let carry := ushr sumLoHi 32 in
  let sumHiLo := u64 (aHiLo + carry) in
  let resultHiLo := Z.land sumHiLo M32 in
  let carry := ushr sumHiLo 32 in
  let sumHiHi := u64 (aHiHi + carry) in
  let resultHiHi := Z.land sumHiHi M32 in
  Luint (Z.lor (ushl 64 resultHiHi 32) resultHiLo)
        (Z.lor (ushl 64 resultLoHi 32) resultLoLo).

Definition luint_sub (a b : sexp_luint_t) : sexp_luint_t :=
  let negB := Luint (unot 64 (hi b)) (unot 64 (lo b)) in
  luint_add a (luint_add_uint negB 1).

(** One of the two blocks of [luint_mul_uint]: [a] times a 32-bit half. *)
Definition luint_mul_half (a : sexp_luint_t) (bHalf : Z) : sexp_luint_t :=
  let aLoLo := Z.land (lo a) M32 in
  let aLoHi := ushr (lo a) 32 in
  let aHiLo := Z.land (hi a) M32 in
  let aHiHi := ushr (hi a) 32 in
  let prodLoLo := Luint 0 (u64 (aLoLo * bHalf)) in
  let prodLoHi := Luint (ushr (u64 (aLoHi * bHalf)) 32) (ushl 64 (u64 (aLoHi * bHalf)) 32) in
  let prodHiLo := Luint (u64 (aHiLo * bHalf)) 0 in
  let prodHiHi := Luint (ushl 64 (u64 (aHiHi * bHalf)) 32) 0 in
  luint_add (luint_add (luint_add prodLoLo prodLoHi) prodHiLo) prodHiHi.

Definition luint_mul_uint (a : sexp_luint_t) (b : Z) : sexp_luint_t :=
  let bLo := Z.land b M32 in
  let bHi := ushr b 32 in
  let resultBLo := luint_mul_half a bLo in
  let resultBHi := luint_mul_half a bHi in
  luint_add resultBLo (luint_shl resultBHi 32).

Definition lsint_mul_sint (a : sexp_lsint_t) (b : Z) : sexp_lsint_t :=
  if lsint_lt_0 a then
    let minusA := luint_from_lsint (lsint_negate a) in
    if b <? 0 then lsint_from_luint (luint_mul_uint minusA (u64 (- b)))
    else lsint_negate (lsint_from_luint (luint_mul_uint minusA (u64 b)))
  else
    if b <? 0 then lsint_negate (lsint_from_luint (luint_mul_uint (luint_from_lsint a) (u64 (- b))))
    else lsint_from_luint (luint_mul_uint (luint_from_lsint a) (u64 b)).

(** The body of the 128-step loop of [luint_div]. *)
Definition luint_div_step (b : sexp_luint_t) (st : sexp_luint_t * sexp_luint_t * sexp_luint_t)
    : sexp_luint_t * sexp_luint_t * sexp_luint_t :=
  let '(quotient, remainder, a) := st in
  let quotient := luint_shl quotient 1 in
  let remainder := luint_shl remainder 1 in
  let remainder := Luint (hi remainder) (Z.lor (lo remainder) (Z.land (ushr (hi a) 63) 1)) in
  let a := luint_shl a 1 in
  if negb (luint_lt remainder b)
  then (Luint (hi quotient) (Z.lor (lo quotient) 1), luint_sub remainder b, a)
  else (quotient, remainder, a).

Definition luint_div (a b : sexp_luint_t) : sexp_luint_t :=
  if luint_lt a b then luint_from_uint 0
  else if luint_eq a b then luint_from_uint 1
  else
    let '(quotient, _, _) :=
      Nat.iter 128 (luint_div_step b) (luint_from_uint 0, luint_from_uint 0, a) in
    quotient.

Definition luint_div_uint (a : sexp_luint_t) (b : Z) : sexp_luint_t :=
  luint_div a (luint_from_uint b).

Definition luint_and (a b : sexp_luint_t) : sexp_luint_t :=
  Luint (Z.land (hi a) (hi b)) (Z.land (lo a) (lo b)).

(** [SEXP_MAX_FIXNUM] and [SEXP_MIN_FIXNUM] on a 64-bit build; the second
    comparison of [lsint_is_fixnum] is between unsigned words. *)
Definition luint_is_fixnum (x : sexp_luint_t) : bool :=
  (hi x =? 0) && (lo x <=? 2 ^ 62 - 1).

Definition lsint_is_fixnum (x : sexp_lsint_t) : bool :=
  if shi x >? 0 then false
  else if shi x =? 0 then slo x <=? 2 ^ 62 - 1
  else if shi x =? -1 then u64 (- 2 ^ 62) <=? slo x
  else false.

(** The instance of the interface. *)
#[global] Instance luint_portable : LongUInt sexp_luint_t := {
  LongLong.luint_from_uint := luint_from_uint;
  LongLong.luint_to_uint := luint_to_uint;
  LongLong.luint_eq := luint_eq;
  LongLong.luint_lt := luint_lt;
  LongLong.luint_shl := luint_shl;
  LongLong.luint_shr := luint_shr;
  LongLong.luint_add := luint_add;
  LongLong.luint_add_uint := luint_add_uint;
  LongLong.luint_sub := luint_sub;
  LongLong.luint_mul_uint := luint_mul_uint;
  LongLong.luint_div := luint_div;
  LongLong.luint_div_uint := luint_div_uint;
  LongLong.luint_and := luint_and;
}.

(** *** Values *)

Definition ok (a : sexp_luint_t) : Prop := is_u64 (hi a) /\ is_u64 (lo a).
Definition val (a : sexp_luint_t) : Z := hi a * 2 ^ 64 + lo a.

Definition sok (a : sexp_lsint_t) : Prop := - 2 ^ 63 <= shi a < 2 ^ 63 /\ is_u64 (slo a).
Definition sval (a : sexp_lsint_t) : Z := shi a * 2 ^ 64 + slo a.

Lemma val_range a : ok a -> is_u128 (val a).
Proof. unfold ok, val, is_u. lia. Qed.

Lemma split32 x : is_u64 x ->
  Z.land x M32 = x mod 2 ^ 32 /\ ushr x 32 = x / 2 ^ 32 /\
  is_u 32 (x mod 2 ^ 32) /\ is_u 32 (x / 2 ^ 32) /\ x = x / 2 ^ 32 * 2 ^ 32 + x mod 2 ^ 32.
Proof.
  intros Hx. change M32 with (2 ^ 32 - 1). rewrite land_low, ushr_div by lia.
  unfold is_u in *. repeat split; try lia; Z.to_euclidean_division_equations; lia.
Qed.

Lemma join32 h l : is_u 32 h -> is_u 32 l -> Z.lor (ushl 64 h 32) l = h * 2 ^ 32 + l.
Proof.
  intros Hh Hl. rewrite ushl_mul by lia. unfold is_u in *.
  rewrite Z.mod_small by lia. by apply lor_low_high.
Qed.

(** Sum of two 32-bit pieces and a carry bit. *)
Lemma sum32 s : 0 <= s < 2 ^ 33 ->
  u64 s = s /\ Z.land (u64 s) M32 = s mod 2 ^ 32 /\ ushr (u64 s) 32 = s / 2 ^ 32 /\
  is_u 32 (s mod 2 ^ 32) /\ 0 <= s / 2 ^ 32 <= 1 /\ s = s / 2 ^ 32 * 2 ^ 32 + s mod 2 ^ 32.
Proof.
  intros Hs. rewrite uwrap_id by (unfold is_u; lia).
  destruct (split32 s) as (-> & -> & ? & ? & ?); [unfold is_u; lia|].
  repeat split; try done; unfold is_u in *; Z.to_euclidean_division_equations; lia.
Qed.

(** The ripple of four 32-bit sums shared by [luint_add], [luint_add_uint]
    and [lsint_negate]. *)
Lemma ripple_val s0 s1 s2 s3 (c0 := s0 / 2 ^ 32) (c1 := (s1 + c0) / 2 ^ 32)
    (c2 := (s2 + c1) / 2 ^ 32) (r := Luint ((s3 + c2) mod 2 ^ 32 * 2 ^ 32 + (s2 + c1) mod 2 ^ 32)
                                           ((s1 + c0) mod 2 ^ 32 * 2 ^ 32 + s0 mod 2 ^ 32)) :
  ok r /\ val r = (s0 + s1 * 2 ^ 32 + s2 * 2 ^ 64 + s3 * 2 ^ 96) mod 2 ^ 128.
Proof.
  assert (ok r) as Hr.
  { unfold ok, is_u, r; cbn. Z.to_euclidean_division_equations; lia. }
  split; [done|]. apply mod_by_eqm; [|by apply val_range].
  apply eqm_mult with (- ((s3 + c2) / 2 ^ 32)).
  pose proof (Z.div_mod s0 (2 ^ 32) ltac:(lia)).
  pose proof (Z.div_mod (s1 + c0) (2 ^ 32) ltac:(lia)).
  pose proof (Z.div_mod (s2 + c1) (2 ^ 32) ltac:(lia)).
  pose proof (Z.div_mod (s3 + c2) (2 ^ 32) ltac:(lia)).
  unfold val, r, c2, c1, c0 in *; cbn. lia.
Qed.

Ltac split32 x :=
  let H := fresh "Hs" in
  destruct (split32 x) as (-> & -> & ? & ? & H); [done|].
Ltac sum32 s :=
  let H := fresh "Hs" in
  let E1 := fresh in let E2 := fresh in
  destruct (sum32 s) as (_ & E1 & E2 & ? & ? & H); [unfold is_u in *; lia|];
  rewrite ?E1, ?E2; clear E1 E2.

Lemma luint_add_ok a b : ok a -> ok b ->
  ok (luint_add a b) /\ val (luint_add a b) = (val a + val b) mod 2 ^ 128.
Proof.
  intros [Ha1 Ha2] [Hb1 Hb2]. unfold luint_add; cbv zeta.
  split32 (lo a). split32 (hi a). split32 (lo b). split32 (hi b).
  rewrite (uwrap_id 64 (lo a / 2 ^ 32 + _)), (uwrap_id 64 (hi a mod 2 ^ 32 + _)),
    (uwrap_id 64 (hi a / 2 ^ 32 + _)) by (unfold is_u in *; lia).
  sum32 (lo a mod 2 ^ 32 + lo b mod 2 ^ 32).
  sum32 (lo a / 2 ^ 32 + lo b / 2 ^ 32 + (lo a mod 2 ^ 32 + lo b mod 2 ^ 32) / 2 ^ 32).
  set (c1 := (_ + _ + _ / 2 ^ 32) / 2 ^ 32) in *.
  sum32 (hi a mod 2 ^ 32 + hi b mod 2 ^ 32 + c1).
  set (c2 := (hi a mod 2 ^ 32 + hi b mod 2 ^ 32 + c1) / 2 ^ 32) in *.
  sum32 (hi a / 2 ^ 32 + hi b / 2 ^ 32 + c2).
  rewrite !join32 by done. subst c1 c2.
  edestruct ripple_val as [Hok Hv]. split; [exact Hok|]. rewrite Hv. f_equal.
  unfold val. lia.
Qed.

Lemma luint_add_uint_ok a b : ok a -> is_u64 b ->
  ok (luint_add_uint a b) /\ val (luint_add_uint a b) = (val a + b) mod 2 ^ 128.
Proof.
  intros Ha Hb.
  assert (ok (luint_from_uint b)) as Hb' by (split; [unfold is_u; cbn; lia | done]).
  replace (luint_add_uint a b) with (luint_add a (luint_from_uint b)).
  - replace b with (val (luint_from_uint b)) at 3 by (unfold val; cbn; lia). by apply luint_add_ok.
  - destruct Ha as [Ha1 Ha2]. unfold luint_add, luint_add_uint; cbn [luint_from_uint hi lo].
    destruct (split32 (hi a)) as (_ & _ & ? & ? & _); [done|].
    change (Z.land 0 M32) with 0. change (ushr 0 32) with 0. rewrite !Z.add_0_r.
    destruct (split32 (hi a)) as (E1 & E2 & _); [done|].
    by rewrite !E1, !E2, !(uwrap_id 64 (hi a mod _)), !(uwrap_id 64 (hi a / _)) by (unfold is_u in *; lia).
Qed.

Lemma luint_sub_ok a b : ok a -> ok b ->
  ok (luint_sub a b) /\ val (luint_sub a b) = (val a - val b) mod 2 ^ 128.
Proof.
  intros Ha Hb. unfold luint_sub.
  set (nb := Luint (unot 64 (hi b)) (unot 64 (lo b))).
  assert (ok nb /\ val nb = 2 ^ 128 - 1 - val b) as [Hnb Vnb].
  { destruct Hb. unfold ok, val, nb; cbn [hi lo]. rewrite !unot_sub by (done || lia).
    unfold is_u in *. lia. }
  destruct (luint_add_uint_ok nb 1) as [Hc Vc]; [done | unfold is_u; lia |].
  destruct (luint_add_ok a (luint_add_uint nb 1)) as [Hd Vd]; [done..|].
  split; [done|]. rewrite Vd, Vc, Vnb, Zplus_mod_idemp_r.
  replace (val a + (2 ^ 128 - 1 - val b + 1)) with (val a - val b + 1 * 2 ^ 128) by lia.
  by rewrite Z_mod_plus_full.
Qed.

Lemma is_u_div w s x : 0 <= w -> 0 <= s -> is_u w x -> is_u w (x / 2 ^ s).
Proof.
  intros Hw Hs [H1 H2]. split; [by apply Z.div_pos; lia|].
  apply Z.le_lt_trans with x; [apply Z.div_le_upper_bound; nia | done].
Qed.

Lemma is_u_div_small w s x : 0 <= s <= w -> is_u w x -> is_u (w - s) (x / 2 ^ s).
Proof.
  intros Hs [H1 H2]. split; [by apply Z.div_pos; lia|].
  apply Z.div_lt_upper_bound; [lia|]. rewrite <- Z.pow_add_r by lia.
  by replace (s + (w - s)) with w by lia.
Qed.

Lemma shl_split P Q h qh rh l ql rl :
  2 ^ 64 = P * Q -> h = P * qh + rh -> l = P * ql + rl ->
  (rh * Q + ql) * 2 ^ 64 + rl * Q = (h * 2 ^ 64 + l) * Q + - qh * 2 ^ 128.
Proof.
  intros HPQ -> ->. change (2 ^ 128) with (2 ^ 64 * 2 ^ 64). rewrite HPQ. ring.
Qed.

Lemma luint_shl_ok a s : ok a -> 0 <= s < 128 ->
  ok (luint_shl a s) /\ val (luint_shl a s) = (val a * 2 ^ s) mod 2 ^ 128.
Proof.
  intros Ha Hs. pose proof (val_range a Ha) as Hv. destruct Ha as [Ha1 Ha2].
  unfold luint_shl. zcases.
  - subst s. rewrite Z.mul_1_r, Z.mod_small by done. split; [by split|done].
  - rewrite ushl_mul by lia. assert (is_u64 ((lo a * 2 ^ (s - 64)) mod 2 ^ 64)) by (apply uwrap_range; lia).
    split; [by split; [|unfold is_u; cbn; lia]|].
    unfold val; cbn [hi lo]. rewrite Z.add_0_r, <- Z.mul_mod_distr_r by lia.
    replace (2 ^ 64 * 2 ^ 64) with (2 ^ 128) by lia.
    replace (2 ^ s) with (2 ^ (s - 64) * 2 ^ 64) by (rewrite <- Z.pow_add_r by lia; f_equal; lia).
    replace ((hi a * 2 ^ 64 + lo a) * (2 ^ (s - 64) * 2 ^ 64))
      with (lo a * 2 ^ (s - 64) * 2 ^ 64 + hi a * 2 ^ (s - 64) * 2 ^ 128) by lia.
    by rewrite Z_mod_plus_full.
  - rewrite !ushl_mul, ushr_div, (mul_pow2_mod (hi a)) by lia.
    pose proof (is_u_div_small 64 (64 - s) (lo a) ltac:(lia) Ha2) as Hq.
    replace (64 - (64 - s)) with s in Hq by lia.
    rewrite lor_low_high by (done || lia). rewrite mul_pow2_mod by lia.
    pose proof (Z.mod_pos_bound (hi a) (2 ^ (64 - s)) ltac:(lia)).
    pose proof (Z.mod_pos_bound (lo a) (2 ^ (64 - s)) ltac:(lia)).
    assert (2 ^ 64 = 2 ^ (64 - s) * 2 ^ s) as E64 by (rewrite <- Z.pow_add_r by lia; f_equal; lia).
    pose proof (Z.div_mod (hi a) (2 ^ (64 - s)) ltac:(lia)) as Dh.
    pose proof (Z.div_mod (lo a) (2 ^ (64 - s)) ltac:(lia)) as Dl.
    match goal with |- ok ?x /\ _ => assert (ok x) as Hok end.
    { unfold ok, is_u in *; cbn [hi lo]. rewrite E64. nia. }
    split; [done|]. apply mod_by_eqm; [|by apply val_range].
    apply eqm_mult with (- (hi a / 2 ^ (64 - s))). unfold val; cbn [hi lo].
    by apply (shl_split (2 ^ (64 - s)) (2 ^ s)).
Qed.

Lemma mix_bound P Q r q : 0 <= r < Q -> 0 <= q < P -> 0 <= r * P + q < P * Q.
Proof. nia. Qed.

Lemma luint_shr_ok a s : ok a -> 0 <= s < 128 ->
  ok (luint_shr a s) /\ val (luint_shr a s) = val a / 2 ^ s.
Proof.
  intros Ha Hs. pose proof (val_range a Ha) as Hv. destruct Ha as [Ha1 Ha2].
  unfold luint_shr. zcases.
  - subst s. rewrite Z.div_1_r. split; [by split|done].
  - rewrite ushr_div by lia. split; [split; [unfold is_u; cbn; lia | apply is_u_div; (done || lia)]|].
    unfold val; cbn [hi lo].
    replace (2 ^ s) with (2 ^ 64 * 2 ^ (s - 64)) by (rewrite <- Z.pow_add_r by lia; f_equal; lia).
    rewrite <- Z.div_div, Z.div_add_l, (Z.div_small (lo a)) by (unfold is_u in *; lia).
    by rewrite Z.add_0_r.
  - rewrite !ushr_div, ushl_mul, mul_pow2_mod by lia. replace (64 - (64 - s)) with s by lia.
    pose proof (is_u_div_small 64 s (lo a) ltac:(lia) Ha2) as Hq.
    rewrite Z.lor_comm, lor_low_high by (done || lia).
    assert (2 ^ 64 = 2 ^ (64 - s) * 2 ^ s) as E64 by (rewrite <- Z.pow_add_r by lia; f_equal; lia).
    pose proof (Z.mod_pos_bound (hi a) (2 ^ s) ltac:(lia)).
    pose proof (is_u_div 64 s (hi a) ltac:(lia) ltac:(lia) Ha1).
    pose proof (Z.div_mod (hi a) (2 ^ s) ltac:(lia)) as Dh.
    split; [split; [done|]; cbn [lo]; unfold is_u; rewrite E64; by apply mix_bound|].
    unfold val; cbn [hi lo]. rewrite Dh at 3.
    replace ((2 ^ s * (hi a / 2 ^ s) + hi a mod 2 ^ s) * 2 ^ 64 + lo a)
      with ((hi a / 2 ^ s * 2 ^ 64 + hi a mod 2 ^ s * 2 ^ (64 - s)) * 2 ^ s + lo a) by (rewrite E64; ring).
    rewrite Z.div_add_l by lia. ring.
Qed.

Lemma luint_mul_half_ok a b : ok a -> is_u 32 b ->
  ok (luint_mul_half a b) /\ val (luint_mul_half a b) = (val a * b) mod 2 ^ 128.
Proof.
  intros [Ha1 Ha2] Hb. unfold luint_mul_half; cbv zeta.
  split32 (lo a). split32 (hi a).
  rewrite !ushl_mul, ushr_div by lia.
  rewrite !(uwrap_id 64 (_ * b)) by (unfold is_u in *; nia).
  rewrite !mul_pow2_mod by lia. change (64 - 32) with 32.
  set (P := lo a / 2 ^ 32 * b). set (Q := hi a / 2 ^ 32 * b).
  assert (is_u64 P /\ is_u64 Q) as [HP HQ] by (unfold is_u, P, Q in *; nia).
  pose proof (Z.div_mod P (2 ^ 32) ltac:(lia)). pose proof (Z.mod_pos_bound P (2 ^ 32) ltac:(lia)).
  pose proof (Z.div_mod Q (2 ^ 32) ltac:(lia)). pose proof (Z.mod_pos_bound Q (2 ^ 32) ltac:(lia)).
  pose proof (is_u_div 64 32 P ltac:(lia) ltac:(lia) HP).
  destruct (luint_add_ok (Luint 0 (lo a mod 2 ^ 32 * b)) (Luint (P / 2 ^ 32) (P mod 2 ^ 32 * 2 ^ 32)))
    as [O1 V1]; [unfold ok, is_u in *; cbn [hi lo]; nia..|].
  destruct (luint_add_ok _ (Luint (hi a mod 2 ^ 32 * b) 0) O1) as [O2 V2];
    [unfold ok, is_u in *; cbn [hi lo]; nia|].
  destruct (luint_add_ok _ (Luint (Q mod 2 ^ 32 * 2 ^ 32) 0) O2) as [O3 V3];
    [unfold ok, is_u in *; cbn [hi lo]; nia|].
  split; [done|]. rewrite V3, V2, V1. apply mod_by_eqm; [|apply Z.mod_pos_bound; lia].
  rewrite !(eqm_mod (2 ^ 128)). apply eqm_mult with (- (Q / 2 ^ 32)).
  unfold val; cbn [hi lo]. subst P Q. nia.
Qed.

Lemma luint_mul_uint_ok a b : ok a -> is_u64 b ->
  ok (luint_mul_uint a b) /\ val (luint_mul_uint a b) = (val a * b) mod 2 ^ 128.
Proof.
  intros Ha Hb. unfold luint_mul_uint; cbv zeta. split32 b.
  destruct (luint_mul_half_ok a (b mod 2 ^ 32)) as [O1 V1]; [done..|].
  destruct (luint_mul_half_ok a (b / 2 ^ 32)) as [O2 V2]; [done..|].
  destruct (luint_shl_ok _ 32 O2) as [O3 V3]; [lia|].
  destruct (luint_add_ok _ _ O1 O3) as [O4 V4]. split; [done|].
  rewrite V4, V3, V2, V1. apply mod_by_eqm; [|apply Z.mod_pos_bound; lia].
  rewrite !(eqm_mod (2 ^ 128)). apply eqm_mult with 0.
  transitivity (val a * (b / 2 ^ 32 * 2 ^ 32 + b mod 2 ^ 32)); [ring|].
  rewrite <- Hs. ring.
Qed.

Lemma luint_eq_ok a b : ok a -> ok b -> luint_eq a b = (val a =? val b).
Proof. intros [??] [??]. unfold luint_eq, val, is_u in *. zcases; cbn; lia. Qed.

Lemma luint_lt_ok a b : ok a -> ok b -> luint_lt a b = (val a <? val b).
Proof. intros [??] [??]. unfold luint_lt, val, is_u in *. zcases; lia. Qed.

Lemma luint_from_uint_ok v : is_u64 v -> ok (luint_from_uint v) /\ val (luint_from_uint v) = v.
Proof. intros. unfold ok, val, is_u in *; cbn [luint_from_uint hi lo]. lia. Qed.

Lemma luint_and_ok a b : ok a -> ok b ->
  ok (luint_and a b) /\ val (luint_and a b) = Z.land (val a) (val b).
Proof.
  intros [Ha1 Ha2] [Hb1 Hb2].
  assert (forall x y, is_u64 x -> is_u64 y -> is_u64 (Z.land x y)) as Hl.
  { intros x y [? ?] [? ?]. split; [apply Z.land_nonneg; lia|].
    destruct (decide (Z.land x y = 0)) as [->|]; [lia|].
    apply Z.log2_lt_pow2; [pose proof (Z.land_nonneg x y); lia|].
    apply Z.le_lt_trans with (Z.min (Z.log2 x) (Z.log2 y)); [apply Z.log2_land; lia|].
    destruct (decide (x = 0)) as [->|]; [cbn; lia|].
    assert (Z.log2 x < 64) by (apply Z.log2_lt_pow2; lia). lia. }
  split; [split; cbn; auto|].
  unfold val; cbn [luint_and hi lo].
  rewrite <- !lor_low_high by (try apply Hl; done). apply Z.bits_inj'. intros n Hn.
  rewrite Z.land_spec, !Z.lor_spec, Z.land_spec.
  destruct (decide (n < 64)).
  - rewrite !Z.mul_pow2_bits_low by done. done.
  - rewrite !Z.mul_pow2_bits, Z.land_spec by lia.
    assert (forall x, is_u64 x -> Z.testbit x n = false) as Hx.
    { intros x [? ?]. destruct (decide (x = 0)) as [->|]; [apply Z.bits_0|].
      apply Z.bits_above_log2; [lia|]. apply Z.lt_le_trans with 64; [apply Z.log2_lt_pow2; lia|lia]. }
    by rewrite (Hx (lo a)), (Hx (lo b)), !orb_false_r by done.
Qed.

(** *** The shift-and-subtract division *)

Lemma luint_shl1_or v bit : ok v -> 0 <= bit <= 1 ->
  let r := luint_shl v 1 in
  ok (Luint (hi r) (Z.lor (lo r) bit)) /\
  val (Luint (hi r) (Z.lor (lo r) bit)) = (val v * 2) mod 2 ^ 128 + bit.
Proof.
  intros Hv Hbit r. destruct (luint_shl_ok v 1 Hv) as [Hr Vr]; [lia|]. fold r in Hr, Vr.
  assert (lo r = lo v mod 2 ^ 63 * 2 ^ 1) as El.
  { unfold r, luint_shl. cbn [Z.eqb Z.geb Z.compare Pos.compare Pos.compare_cont lo].
    rewrite ushl_mul, mul_pow2_mod by lia. done. }
  rewrite El, lor_low_high by (unfold is_u; lia). rewrite <- El.
  change (2 ^ 1) with 2 in Vr. rewrite <- Vr.
  unfold ok, val, is_u in *; cbn [hi lo] in *.
  pose proof (Z.mod_pos_bound (lo v) (2 ^ 63) ltac:(lia)). lia.
Qed.

(** Bit [127] of [A * 2^i mod 2^128] is bit [127 - i] of [A]. *)
Lemma top_bit A i : is_u128 A -> 0 <= i < 128 ->
  (A * 2 ^ i) mod 2 ^ 128 / 2 ^ 127 = A / 2 ^ (127 - i) - 2 * (A / 2 ^ (128 - i)).
Proof.
  intros HA Hi. rewrite mul_pow2_mod by lia.
  replace (2 ^ 127) with (2 ^ (127 - i) * 2 ^ i) by (rewrite <- Z.pow_add_r by lia; f_equal; lia).
  rewrite Z.div_mul_cancel_r by lia.
  replace (2 ^ (128 - i)) with (2 ^ (127 - i) * 2)
    by (rewrite <- (Z.pow_add_r 2 _ 1) by lia; f_equal; lia).
  rewrite Z.rem_mul_r by lia. rewrite <- Z.div_div by lia.
  rewrite (Z.mul_comm (2 ^ (127 - i)) (_ mod 2)), Z.div_add by lia.
  rewrite (Z.div_small (A mod _)) by (apply Z.mod_pos_bound; lia).
  pose proof (Z.div_mod (A / 2 ^ (127 - i)) 2 ltac:(lia)). lia.
Qed.

Section div.
  Context (a b : sexp_luint_t) (Ha : ok a) (Hb : ok b) (Hb0 : val b <> 0).

  (** After [i] steps: quotient and remainder of the top [i] bits of [a]. *)
Definition div_inv (i : Z) (st : sexp_luint_t * sexp_luint_t * sexp_luint_t) : Prop :=
    let '(q, r, a') := st in
    let p := val a / 2 ^ (128 - i) in
    (ok q /\ ok r /\ ok a') /\
    val q = p / val b /\ val r = p mod val b /\ val a' = (val a * 2 ^ i) mod 2 ^ 128.

Lemma div_step i st : 0 <= i < 128 -> div_inv i st -> div_inv (i + 1) (luint_div_step b st).
  Proof using Ha Hb Hb0.
    intros Hi. destruct st as [[q r] a']. intros [(Oq & Or & Oa) (Vq & Vr & Va)].
    pose proof (val_range a Ha) as HA. pose proof (val_range b Hb) as HB.
    set (p := val a / 2 ^ (128 - i)) in *.
    set (bit := Z.land (ushr (hi a') 63) 1).
    assert (bit = val a / 2 ^ (127 - i) - 2 * p /\ 0 <= bit <= 1) as [Ebit Hbit].
    { unfold bit. destruct Oa as [Oa1 Oa2]. 
      pose proof (is_u_div_small 64 63 _ ltac:(lia) Oa1) as Hd. change (64 - 63) with 1 in Hd.
      rewrite (land_low 1), ushr_div, (Z.mod_small (hi a' / 2 ^ 63)) by (done || lia).
      split; [|unfold is_u in Hd; lia].
      unfold p. rewrite <- (top_bit (val a) i), <- Va by done. unfold val.
      change (2 ^ 127) with (2 ^ 64 * 2 ^ 63). rewrite <- Z.div_div, Z.div_add_l by lia.
      rewrite (Z.div_small (lo a')) by done. f_equal; lia. }
    assert (0 <= p /\ 2 * p + bit < 2 ^ 128) as [Hp0 Hp].
    { split; [apply Z.div_pos; unfold is_u in *; lia|]. rewrite Ebit.
      apply Z.le_lt_trans with (val a); [|unfold is_u in *; lia].
      replace (2 * p + (val a / 2 ^ (127 - i) - 2 * p)) with (val a / 2 ^ (127 - i)) by lia.
      apply div_le_self; unfold is_u in *; lia. }
    assert (val q <= p /\ val r <= p) as [Hq Hr].
    { rewrite Vq, Vr. split; [apply div_le_self; unfold is_u in *; lia|].
      apply Z.mod_le; unfold is_u in *; lia. }
    pose proof (val_range q Oq) as Rq. pose proof (val_range r Or) as Rr.
    unfold luint_div_step. fold bit.
    destruct (luint_shl1_or r bit Or Hbit) as [Or' Vr'].
    destruct (luint_shl_ok q 1 Oq) as [Oq0 Vq0]; [lia|].
    destruct (luint_shl1_or q 1 Oq) as [Oq1 Vq1]; [lia|].
    destruct (luint_shl_ok a' 1 Oa) as [Oa' Va']; [lia|].
    set (r' := Luint _ (Z.lor _ bit)) in *.
    rewrite Z.mod_small in Vr', Vq0, Vq1 by (unfold is_u in *; lia).
    assert (val a / 2 ^ (128 - (i + 1)) = 2 * p + bit) as Ep.
    { replace (128 - (i + 1)) with (127 - i) by lia. lia. }
    assert (2 * p + bit = val b * (2 * val q) + val r') as Ed.
    { rewrite Vr', Vq, Vr. pose proof (Z.div_mod p (val b) Hb0). lia. }
    assert (val r' < 2 * val b /\ 0 <= val r') as [Hr2 Hr0].
    { pose proof (Z.mod_pos_bound p (val b) ltac:(unfold is_u in *; lia)). lia. }
    assert (val (luint_shl a' 1) = (val a * 2 ^ (i + 1)) mod 2 ^ 128) as Va2.
    { rewrite Va', Va, Zmult_mod_idemp_l, Z.pow_add_r by lia. f_equal; lia. }
    rewrite (luint_lt_ok r' b Or' Hb). destruct (Z.ltb_spec (val r') (val b)); cbn [negb].
    - split; [done|]. rewrite Ep. split_and!; [|..|done].
      + rewrite Vq0. apply Z.div_unique_pos with (val r'); lia.
      + apply Z.mod_unique_pos with (2 * val q); lia.
    - destruct (luint_sub_ok r' b Or' Hb) as [Os Vs].
      rewrite Z.mod_small in Vs by (unfold is_u in *; lia).
      split; [done|]. rewrite Ep. split_and!; [|..|done].
      + rewrite Vq1. apply Z.div_unique_pos with (val r' - val b); lia.
      + rewrite Vs. apply Z.mod_unique_pos with (2 * val q + 1); lia.
  Qed.

Lemma luint_div_ok : ok (luint_div a b) /\ val (luint_div a b) = val a / val b.
  Proof using Ha Hb Hb0.
    pose proof (val_range a Ha) as HA. pose proof (val_range b Hb) as HB.
    assert (forall n, (n <= 128)%nat ->
      div_inv (Z.of_nat n) (Nat.iter n (luint_div_step b) (luint_from_uint 0, luint_from_uint 0, a))) as Hn.
    { induction n as [|n IH]; intros Hle.
      - cbn -[Z.pow]. unfold ok, is_u; cbn -[Z.pow]. unfold is_u in HA.
        rewrite (Z.div_small (val a)), Z.div_0_l, Z.mod_0_l, Z.mul_1_r, Z.mod_small by lia.
        destruct Ha. unfold is_u in *. split; [lia|done].
      - rewrite Nat.iter_succ, Nat2Z.inj_succ, <- Z.add_1_r.
        apply div_step; [lia | apply IH; lia]. }
    unfold luint_div. rewrite luint_lt_ok, luint_eq_ok by done.
    destruct (Z.ltb_spec (val a) (val b)); [|destruct (Z.eqb_spec (val a) (val b)) as [E|]].
    - rewrite Z.div_small by (unfold is_u in *; lia). by apply luint_from_uint_ok.
    - rewrite E, Z.div_same by lia. by apply luint_from_uint_ok.
    - specialize (Hn 128%nat ltac:(lia)).
      destruct (Nat.iter 128 _ _) as [[q r] a']. destruct Hn as [[Oq _] [Vq _]].
      split; [done|]. rewrite Vq. cbn [Z.of_nat]. by rewrite Z.div_1_r.
  Qed.
End div.

(** *** Signed operations *)

Lemma from_lsint_ok v : sok v ->
  ok (luint_from_lsint v) /\ eqm (2 ^ 128) (val (luint_from_lsint v)) (sval v).
Proof.
  intros [Hs Hl]. split; [split; cbn; [apply uwrap_range; lia | done]|].
  unfold val, sval; cbn [luint_from_lsint hi lo]. unfold uwrap.
  apply eqm_mult with (- (shi v / 2 ^ 64)).
  pose proof (Z.div_mod (shi v) (2 ^ 64) ltac:(lia)). lia.
Qed.

Lemma from_luint_ok v : ok v ->
  sok (lsint_from_luint v) /\ eqm (2 ^ 128) (sval (lsint_from_luint v)) (val v).
Proof.
  intros [Hh Hl]. split; [split; cbn; [apply (swrap_range 64); lia | done]|].
  unfold val, sval; cbn [lsint_from_luint shi slo].
  destruct (decide (hi v < 2 ^ 63)) as [|].
  - rewrite swrap_id by (unfold is_u in *; lia). reflexivity.
  - rewrite <- (swrap_unique 64 (hi v) (hi v - 2 ^ 64)).
    + apply eqm_mult with (-1). lia.
    + lia.
    + unfold is_u in *; lia.
    + apply eqm_mult with (-1). lia.
Qed.

Lemma sval_unique v z : sok v -> eqm (2 ^ 128) (sval v) z -> sval v = s128 z.
Proof. intros [? ?] He. apply swrap_unique; [lia | unfold sval, is_u in *; lia | done]. Qed.

Lemma lsint_negate_ok v : sok v ->
  sok (lsint_negate v) /\ eqm (2 ^ 128) (sval (lsint_negate v)) (- sval v).
Proof.
  intros Hv. destruct (from_lsint_ok v Hv) as [Ou Eu]. pose proof Ou as [Oh Ol]. cbn in Oh, Ol.
  set (n := Luint (unot 64 (u64 (shi v))) (unot 64 (slo v))).
  assert (ok n /\ val n = 2 ^ 128 - 1 - val (luint_from_lsint v)) as [On Vn].
  { unfold ok, val, n; cbn [hi lo luint_from_lsint]. rewrite !unot_sub by (done || lia).
    unfold is_u in *; lia. }
  assert (lsint_negate v = lsint_from_luint (luint_add_uint n 1)) as ->.
  { unfold lsint_negate, luint_add_uint, lsint_from_luint, n; cbn [hi lo]; cbv zeta.
    destruct On as [_ On]. destruct (split32 (lo n)) as (_ & E2 & _ & ? & _); [done|].
    cbn [lo n] in *. change (Z.land 1 M32) with 1. change (ushr 1 32) with 0. rewrite !Z.add_0_r.
    destruct On as [? ?]. destruct (split32 (unot 64 (u64 (shi v)))) as (_ & E3 & _ & ? & _);
      [rewrite unot_sub by (done || lia); unfold is_u in *; lia|].
    by rewrite (uwrap_id 64 (ushr (unot 64 (slo v)) 32)) by (rewrite ?E2, ?E3; unfold is_u in *; lia). }
  destruct (luint_add_uint_ok n 1 On) as [Oa Va]; [unfold is_u; lia|].
  destruct (from_luint_ok _ Oa) as [Os Es]. split; [done|].
  rewrite Es, Va, (eqm_mod (2 ^ 128)), Vn, <- Eu. apply eqm_mult with 1. lia.
Qed.

Lemma lsint_mul_sint_ok a b : sok a -> - 2 ^ 63 <= b < 2 ^ 63 ->
  sok (lsint_mul_sint a b) /\ sval (lsint_mul_sint a b) = s128 (sval a * b).
Proof.
  intros Ha Hb.
  assert (sok (lsint_mul_sint a b) /\ eqm (2 ^ 128) (sval (lsint_mul_sint a b)) (sval a * b))
    as [Hs He]; [|by split; [|apply sval_unique]].
  destruct (lsint_negate_ok a Ha) as [On En].
  destruct (from_lsint_ok _ Ha) as [Oa Ea]. destruct (from_lsint_ok _ On) as [Om Em].
  unfold lsint_mul_sint. destruct (lsint_lt_0 a), (Z.ltb_spec b 0);
    rewrite uwrap_id by (unfold is_u; lia);
    match goal with |- context [luint_mul_uint ?x ?y] =>
      destruct (luint_mul_uint_ok x y) as [O1 V1]; [done | unfold is_u; lia |] end;
    destruct (from_luint_ok _ O1) as [O2 E2]; rewrite V1, (eqm_mod (2 ^ 128)) in E2.
  - split; [done|]. rewrite E2, Em, En. apply eqm_mult with 0. lia.
  - destruct (lsint_negate_ok _ O2) as [O3 E3]. split; [done|].
    rewrite E3, E2, Em, En. apply eqm_mult with 0. lia.
  - destruct (lsint_negate_ok _ O2) as [O3 E3]. split; [done|].
    rewrite E3, E2, Ea. apply eqm_mult with 0. lia.
  - split; [done|]. by rewrite E2, Ea.
Qed.

Lemma lsint_from_sint_ok v : - 2 ^ 63 <= v < 2 ^ 63 ->
  sok (lsint_from_sint v) /\ sval (lsint_from_sint v) = v.
Proof.
  intros Hv. unfold lsint_from_sint, sok, sval; cbn [shi slo].
  rewrite Z.shiftr_div_pow2 by lia. unfold is_u, uwrap.
  pose proof (Z.mod_pos_bound v (2 ^ 64) ltac:(lia)).
  destruct (decide (v < 0)).
  - rewrite <- (Z.mod_unique v (2 ^ 64) (-1) (v + 2 ^ 64)), <- (Z.div_unique v (2 ^ 63) (-1) (v + 2 ^ 63)) by lia.
    lia.
  - rewrite Z.mod_small, Z.div_small by lia. lia.
Qed.

Lemma lsint_is_fixnum_ok x : sok x ->
  lsint_is_fixnum x = (- 2 ^ 62 <=? sval x) && (sval x <=? 2 ^ 62 - 1).
Proof.
  intros [Hs Hl]. unfold lsint_is_fixnum, sval, is_u in *.
  rewrite (uwrap_id 64 (2 ^ 64 - 2 ^ 62)) || replace (u64 (- 2 ^ 62)) with (2 ^ 64 - 2 ^ 62) by done.
  zcases; cbn; lia.
Qed.

#[global] Program Instance luint_portable_ok : LongUIntOk sexp_luint_t := {
  lok := ok;
  lval := val;
}.
Next Obligation. by apply val_range. Qed.
Next Obligation. by apply luint_from_uint_ok. Qed.
Next Obligation.
  intros a [Ha1 Ha2]. cbn. unfold val. rewrite Z.add_comm, Z_mod_plus_full.
  by rewrite Z.mod_small.
Qed.
Next Obligation. by apply luint_eq_ok. Qed.
Next Obligation. by apply luint_lt_ok. Qed.
Next Obligation. by apply luint_shl_ok. Qed.
Next Obligation. by apply luint_shr_ok. Qed.
Next Obligation. by apply luint_add_ok. Qed.
Next Obligation. by apply luint_add_uint_ok. Qed.
Next Obligation. by apply luint_sub_ok. Qed.
Next Obligation. by apply luint_mul_uint_ok. Qed.
Next Obligation. by apply luint_div_ok. Qed.
Next Obligation.
  intros a b Ha Hb Hb0. destruct (luint_from_uint_ok b Hb) as [Ob Vb].
  destruct (luint_div_ok a (luint_from_uint b) Ha Ob) as [Od Vd]; [lia|].
  split; [done|]. cbn. unfold luint_div_uint. by rewrite Vd, Vb.
Qed.
Next Obligation. by apply luint_and_ok. Qed.
End Portable.

(** ** The native implementation: [uint128_t] and [sint128_t] *)
Module Native.

Abbreviation uint128 := Z.

Definition luint_from_uint (v : Z) : uint128 := u64 v.
Definition luint_to_uint (v : uint128) : Z := u64 v.
Definition luint_to_uint_hi (v : uint128) : Z := u64 (ushr v 64).
Definition luint_eq (a b : uint128) : bool := a =? b.
Definition luint_lt (a b : uint128) : bool := a <? b.
Definition luint_shl (a : uint128) (shift : Z) : uint128 := ushl 128 a shift.
Definition luint_shr (a : uint128) (shift : Z) : uint128 := ushr a shift.
Definition luint_add (a b : uint128) : uint128 := u128 (a + b).
Definition luint_add_uint (a : uint128) (b : Z) : uint128 := u128 (a + u64 b).
Definition luint_sub (a b : uint128) : uint128 := u128 (a - b).
Definition luint_mul_uint (a : uint128) (b : Z) : uint128 := u128 (a * u64 b).
Definition luint_div (a b : uint128) : uint128 := a / b.
Definition luint_div_uint (a : uint128) (b : Z) : uint128 := a / b.
Definition luint_and (a b : uint128) : uint128 := Z.land a b.

Definition lsint_from_sint (v : Z) : Z := v.
Definition lsint_to_sint (v : Z) : Z := s64 v.
Definition lsint_to_sint_hi (v : Z) : Z := s64 (Z.shiftr v 64).
Definition lsint_negate (v : Z) : Z := s128 (- v).
Definition lsint_lt_0 (a : Z) : bool := a <? 0.
Definition lsint_mul_sint (a b : Z) : Z := s128 (a * b).
Definition sexp_lsint_fits_sint (x : Z) : bool := s64 x =? x.
Definition sexp_luint_fits_uint (x : Z) : bool := u64 x =? x.
Definition luint_is_fixnum (x : Z) : bool := x <=? 2 ^ 62 - 1.
Definition lsint_is_fixnum (x : Z) : bool := (- 2 ^ 62 <=? x) && (x <=? 2 ^ 62 - 1).

#[global] Instance luint_native : LongUInt uint128 := {
  LongLong.luint_from_uint := luint_from_uint;
  LongLong.luint_to_uint := luint_to_uint;
  LongLong.luint_eq := luint_eq;
  LongLong.luint_lt := luint_lt;
  LongLong.luint_shl := luint_shl;
  LongLong.luint_shr := luint_shr;
  LongLong.luint_add := luint_add;
  LongLong.luint_add_uint := luint_add_uint;
  LongLong.luint_sub := luint_sub;
  LongLong.luint_mul_uint := luint_mul_uint;
  LongLong.luint_div := luint_div;
  LongLong.luint_div_uint := luint_div_uint;
  LongLong.luint_and := luint_and;
}.

Lemma native_mod z : is_u128 (u128 z) /\ u128 z = z mod 2 ^ 128.
Proof. split; [apply uwrap_range; lia | done]. Qed.

Lemma native_div a b : is_u128 a -> 0 < b -> is_u128 (a / b) /\ a / b = a / b.
Proof.
  intros [? ?] ?. split; [|done]. split; [by apply Z.div_pos|].
  apply Z.le_lt_trans with a; [by apply div_le_self|done].
Qed.

#[global] Program Instance luint_native_ok : LongUIntOk uint128 := {
  lok := is_u128;
  lval := id;
}.
Next Obligation. done. Qed.
Next Obligation. intros v Hv. cbn. unfold luint_from_uint. rewrite uwrap_id by done. unfold is_u in *; lia. Qed.
Next Obligation. done. Qed.
Next Obligation. done. Qed.
Next Obligation. done. Qed.
Next Obligation. intros. cbn. unfold luint_shl. rewrite ushl_mul by lia. apply native_mod. Qed.
Next Obligation. intros. cbn. unfold luint_shr. rewrite ushr_div by lia. apply native_div; [done|lia]. Qed.
Next Obligation. intros. apply native_mod. Qed.
Next Obligation. intros a b ??. cbn. unfold luint_add_uint. rewrite (uwrap_id 64 b) by done. apply native_mod. Qed.
Next Obligation. intros. apply native_mod. Qed.
Next Obligation. intros a b ??. cbn. unfold luint_mul_uint. rewrite (uwrap_id 64 b) by done. apply native_mod. Qed.
Next Obligation. intros a b ? Hb ?. cbn in *. apply native_div; [done|unfold is_u, id in *; lia]. Qed.
Next Obligation. intros a b ? Hb ?. cbn in *. apply native_div; [done|unfold is_u, id in *; lia]. Qed.
Next Obligation.
  intros a b [? ?] [? ?]. split; [|done]. cbn. unfold luint_and. split; [apply Z.land_nonneg; lia|].
  destruct (decide (Z.land a b = 0)) as [->|]; [lia|].
  apply Z.log2_lt_pow2; [pose proof (Z.land_nonneg a b); lia|].
  apply Z.le_lt_trans with (Z.min (Z.log2 a) (Z.log2 b)); [apply Z.log2_land; lia|].
  destruct (decide (a = 0)) as [->|]; [cbn; lia|].
  assert (Z.log2 a < 128) by (apply Z.log2_lt_pow2; lia). lia.
Qed.
End Native.

(** ** Properties *)

(** C10 (equivalence).  The portable double words of bignum.h (pairs of 64-bit
    words, with carries, 32-bit partial products and a division by 128 rounds
    of shift-and-subtract) compute the same values as the native 128-bit
    integers, for every operation of the interface: the comparisons, the
    shifts by less than 128, the sums, the difference, the products and the
    quotients modulo 2^128, and the bitwise conjunction. *)
Theorem luint_portable_native (a b : Portable.sexp_luint_t) (v s : Z) :
  Portable.ok a -> Portable.ok b -> is_u64 v -> 0 <= s < 128 ->
  Portable.luint_eq a b = Native.luint_eq (Portable.val a) (Portable.val b) /\
  Portable.luint_lt a b = Native.luint_lt (Portable.val a) (Portable.val b) /\
  Portable.val (Portable.luint_shl a s) = Native.luint_shl (Portable.val a) s /\
  Portable.val (Portable.luint_shr a s) = Native.luint_shr (Portable.val a) s /\
  Portable.val (Portable.luint_add a b) = Native.luint_add (Portable.val a) (Portable.val b) /\
  Portable.val (Portable.luint_add_uint a v) = Native.luint_add_uint (Portable.val a) v /\
  Portable.val (Portable.luint_sub a b) = Native.luint_sub (Portable.val a) (Portable.val b) /\
  Portable.val (Portable.luint_mul_uint a v) = Native.luint_mul_uint (Portable.val a) v /\
  Portable.val (Portable.luint_and a b) = Native.luint_and (Portable.val a) (Portable.val b) /\
  (Portable.val b <> 0 ->
   Portable.val (Portable.luint_div a b) = Native.luint_div (Portable.val a) (Portable.val b)).
Proof.
  intros Ha Hb Hv Hs.
  assert (lok (T:=Z) (Portable.val a)) as Ra by (by apply Portable.val_range).
  assert (lok (T:=Z) (Portable.val b)) as Rb by (by apply Portable.val_range).
  split; [by apply Portable.luint_eq_ok|]. split; [by apply Portable.luint_lt_ok|].
  split_and!; [..|intros Hb0].
  - rewrite (proj2 (Portable.luint_shl_ok a s Ha Hs)). symmetry.
    exact (proj2 (luint_shl_spec (T:=Z) _ _ Ra Hs)).
  - rewrite (proj2 (Portable.luint_shr_ok a s Ha Hs)). symmetry.
    exact (proj2 (luint_shr_spec (T:=Z) _ _ Ra Hs)).
  - rewrite (proj2 (Portable.luint_add_ok a b Ha Hb)). symmetry.
    exact (proj2 (luint_add_spec (T:=Z) _ _ Ra Rb)).
  - rewrite (proj2 (Portable.luint_add_uint_ok a v Ha Hv)). symmetry.
    exact (proj2 (luint_add_uint_spec (T:=Z) _ _ Ra Hv)).
  - rewrite (proj2 (Portable.luint_sub_ok a b Ha Hb)). symmetry.
    exact (proj2 (luint_sub_spec (T:=Z) _ _ Ra Rb)).
  - rewrite (proj2 (Portable.luint_mul_uint_ok a v Ha Hv)). symmetry.
    exact (proj2 (luint_mul_uint_spec (T:=Z) _ _ Ra Hv)).
  - by apply Portable.luint_and_ok.
  - by apply Portable.luint_div_ok.
Qed.

Lemma luint_portable_native_witness :
  let a := Portable.Luint 5 (2 ^ 64 - 1) in
  let b := Portable.Luint 0 3 in
  Portable.val (Portable.luint_div a b) = Native.luint_div (Portable.val a) (Portable.val b).
Proof.
  apply (luint_portable_native (Portable.Luint 5 (2 ^ 64 - 1)) (Portable.Luint 0 3) 7 64);
    unfold Portable.ok, is_u; cbn -[Z.pow]; try lia. vm_compute; discriminate.
Defined.

(** Both implementations of the signed product
    [lsint_mul_sint] (by unsigned magnitudes and two negations in the portable
    one) give the two's complement product at 128 bits, and the fixnum test
    on the pair of words decides the fixnum range of that product. *)
Theorem lsint_mul_sint_portable_native (x y : Z) :
  - 2 ^ 63 <= x < 2 ^ 63 -> - 2 ^ 63 <= y < 2 ^ 63 ->
  let p := Portable.lsint_mul_sint (Portable.lsint_from_sint x) y in
  let q := Native.lsint_mul_sint (Native.lsint_from_sint x) y in
  Portable.sval p = q /\ q = x * y /\
  Portable.lsint_is_fixnum p = Native.lsint_is_fixnum q.
Proof.
  intros Hx Hy p q. destruct (Portable.lsint_from_sint_ok x Hx) as [Ox Vx].
  destruct (Portable.lsint_mul_sint_ok _ y Ox Hy) as [Op Vp]. rewrite Vx in Vp.
  fold p in Op, Vp. unfold q, Native.lsint_mul_sint, Native.lsint_from_sint.
  rewrite <- Vp, (Portable.lsint_is_fixnum_ok p Op). split_and!; [done| |done].
  rewrite Vp. apply swrap_id; nia.
Qed.

Lemma lsint_mul_sint_portable_native_witness :
  let p := Portable.lsint_mul_sint (Portable.lsint_from_sint (- 2 ^ 62)) 3 in
  let q := Native.lsint_mul_sint (Native.lsint_from_sint (- 2 ^ 62)) 3 in
  Portable.sval p = q /\ q = - 2 ^ 62 * 3 /\
  Portable.lsint_is_fixnum p = Native.lsint_is_fixnum q.
Proof. apply (lsint_mul_sint_portable_native (- 2 ^ 62) 3); lia. Defined.
