(* ===== verification/Limbs.v ===== *)
(** * Limb lists

    Values of little-endian lists of 64-bit limbs, the representation shared
    by the bignum components. *)
From S2P Require Import Prelude.

(** [2^(64 n)] *)
Definition Bp (n : nat) : Z := 2 ^ (64 * Z.of_nat n).

Fixpoint dval (ds : list Z) : Z :=
  match ds with
  | [] => 0
  | d :: ds => d + 2 ^ 64 * dval ds
  end.

(** [data[i]], for an index inside of the array. *)
Definition rd (ds : list Z) (i : nat) : Z := nth i ds 0.

(** [data[i] = v]; an index past the end would append the missing limbs, and
    the lemmas below ask for an index inside. *)
Definition wr (ds : list Z) (i : nat) (v : Z) : list Z := take i ds ++ v :: drop (S i) ds.

Abbreviation limbs := (Forall is_u64).

Lemma Bp_0 : Bp 0 = 1. Proof. done. Qed.
Lemma Bp_1 : Bp 1 = 2 ^ 64. Proof. done. Qed.
Lemma Bp_pos n : 0 < Bp n. Proof. unfold Bp. lia. Qed.
Lemma Bp_add m n : Bp (m + n) = Bp m * Bp n.
Proof. unfold Bp. rewrite <- Z.pow_add_r by lia. f_equal. lia. Qed.
Lemma Bp_S n : Bp (S n) = 2 ^ 64 * Bp n.
Proof. rewrite <- Bp_1, <- Bp_add. done. Qed.
Lemma Bp_mono m n : (m <= n)%nat -> Bp m <= Bp n.
Proof. intros. apply Z.pow_le_mono_r; lia. Qed.
Lemma Bp_pow n : 2 ^ Z.of_nat (64 * n) = Bp n.
Proof. unfold Bp. by rewrite Nat2Z.inj_mul. Qed.
Lemma Bp_ge n : (1 <= n)%nat -> 2 ^ 64 <= Bp n.
Proof. intros. rewrite <- Bp_1. by apply Bp_mono. Qed.

#[global] Opaque Bp.

Lemma dval_app l1 l2 : dval (l1 ++ l2) = dval l1 + Bp (length l1) * dval l2.
Proof.
  induction l1 as [|d l1 IH]; cbn [app dval length]; [rewrite Bp_0; lia|].
  rewrite IH, Bp_S. ring.
Qed.

Lemma dval_range ds : limbs ds -> 0 <= dval ds < Bp (length ds).
Proof.
  induction 1 as [|d ds Hd _ IH]; cbn [dval length]; [by rewrite Bp_0|].
  rewrite Bp_S. unfold is_u in Hd. nia.
Qed.

Lemma dval_zeros n : dval (replicate n 0) = 0.
Proof. induction n as [|n IH]; cbn [replicate dval]; lia. Qed.

Lemma limbs_zeros n : limbs (replicate n 0).
Proof. apply Forall_replicate. unfold is_u. lia. Qed.

Lemma rd_lookup ds i : (i < length ds)%nat -> ds !! i = Some (rd ds i).
Proof. intros Hi. destruct (nth_lookup_or_length ds i 0) as [E|]; [done|lia]. Qed.

Lemma limbs_rd ds i : limbs ds -> is_u64 (rd ds i).
Proof.
  intros Hds. revert i. unfold rd. induction Hds; intros [|i]; cbn; auto; unfold is_u; lia.
Qed.

Lemma dval_take_drop n ds : dval ds = dval (take n ds) + Bp (length (take n ds)) * dval (drop n ds).
Proof. rewrite <- dval_app. by rewrite take_drop. Qed.

Lemma dval_split n ds : (n <= length ds)%nat ->
  dval ds = dval (take n ds) + Bp n * dval (drop n ds).
Proof. intros. rewrite (dval_take_drop n) at 1. by rewrite length_take_le. Qed.

Lemma dval_nonneg ds : limbs ds -> 0 <= dval ds.
Proof. intros. by apply dval_range. Qed.

Lemma dval_cons d ds : dval (d :: ds) = d + 2 ^ 64 * dval ds.
Proof. done. Qed.

Lemma dval_zero_all ds : limbs ds -> dval ds = 0 <-> ds = replicate (length ds) 0.
Proof.
  intros Hds. split; [|intros ->; apply dval_zeros].
  induction Hds as [|d ds [Hd1 Hd2] Hds IH]; cbn [dval length replicate]; [done|].
  pose proof (dval_nonneg ds Hds). intros E. assert (d = 0) as -> by lia.
  f_equal. apply IH. lia.
Qed.

(** The value determines the limbs. *)
Lemma dval_inj l1 l2 : limbs l1 -> limbs l2 -> length l1 = length l2 -> dval l1 = dval l2 -> l1 = l2.
Proof.
  intros H1. revert l2. induction H1 as [|x l1 [? ?] H1 IH]; intros [|y l2] H2 Hl Hv; try done.
  apply Forall_cons_1 in H2. destruct H2 as [[? ?] H2]. cbn [dval] in Hv.
  assert (x = y) as -> by lia. f_equal. apply IH; [done|by injection Hl|lia].
Qed.

Lemma rd_app_r l1 l2 i : (length l1 <= i)%nat -> rd (l1 ++ l2) i = rd l2 (i - length l1).
Proof. intros. unfold rd. by apply app_nth2. Qed.
Lemma rd_app_l l1 l2 i : (i < length l1)%nat -> rd (l1 ++ l2) i = rd l1 i.
Proof. intros. unfold rd. by apply app_nth1. Qed.

Lemma dval_take_S ds i : (i < length ds)%nat ->
  dval (take (S i) ds) = dval (take i ds) + Bp i * rd ds i.
Proof.
  intros Hi. rewrite (take_S_r _ _ _ (rd_lookup ds i Hi)), dval_app, length_take_le by lia.
  cbn [dval]. lia.
Qed.

Lemma dval_take_lt ds i : limbs ds -> 0 <= dval (take i ds) < Bp i.
Proof.
  intros Hds. pose proof (dval_range (take i ds) ltac:(by apply Forall_take)).
  pose proof (Bp_mono (length (take i ds)) i ltac:(rewrite length_take; lia)). lia.
Qed.

(** Prefixes of a limb list are quotients of its value. *)
Lemma dval_div ds k : limbs ds -> dval ds / Bp k = dval (drop k ds).
Proof.
  intros Hds. pose proof (Bp_pos k). destruct (decide (k <= length ds)%nat).
  - rewrite (dval_split k ds), Z.mul_comm, Z.div_add, Z.div_small by (done || lia || by apply dval_take_lt).
    done.
  - rewrite drop_ge by lia. pose proof (dval_range ds Hds). apply Z.div_small.
    pose proof (Bp_mono (length ds) k ltac:(lia)). cbn. lia.
Qed.

Lemma dval_drop_S ds k : dval (drop k ds) = rd ds k + 2 ^ 64 * dval (drop (S k) ds).
Proof.
  revert k. induction ds as [|d ds IH]; intros [|k]; cbn -[dval Z.mul]; try done; apply IH.
Qed.

(** Writing the limb just past the digits: the new top limb. *)
Lemma wr_app ds z v : wr (ds ++ [z]) (length ds) v = ds ++ [v].
Proof.
  unfold wr. rewrite take_app_length. f_equal. rewrite drop_ge; [done|].
  rewrite length_app. cbn. lia.
Qed.

Lemma wr_mid l1 x l2 v : wr (l1 ++ x :: l2) (length l1) v = l1 ++ v :: l2.
Proof.
  unfold wr. rewrite take_app_length. replace (S (length l1)) with (length l1 + 1)%nat by lia.
  by rewrite drop_app_add.
Qed.

Create HintDb limbs.
#[global] Hint Resolve limbs_zeros Forall_take Forall_drop dval_nonneg : limbs.

Ltac limbs := auto with limbs.
