(* ===== verification/Bignum.v ===== *)
(** * Bignums (bignum.c, the limb arithmetic)

    A bignum is a sign and an array of 64-bit limbs, least significant first.
    The functions below follow [bignum.c]; their double-word arithmetic goes
    through the [LongUInt] interface, so every result holds for both
    implementations of [bignum.h].  Functions that update an operand in place
    return the updated object. *)
From S2P Require Import Prelude LongLong Limbs.

Record bignum := Bignum { sign : Z; data : list Z }.

(** Exact integers: the results of [sexp_bignum_normalize]. *)
Inductive exint := Fix (z : Z) | Big (b : bignum).

Definition SEXP_MAX_FIXNUM : Z := 2 ^ 62 - 1.
Definition SEXP_MIN_FIXNUM : Z := - SEXP_MAX_FIXNUM - 1.

(** [sexp_unbox_fixnum(sexp_make_fixnum(n))]: one tag bit is shifted in and
    out, so the result wraps at 63 bits. *)
Definition sexp_make_fixnum (n : Z) : exint := Fix (swrap 63 n).

Definition sexp_fx_sign (a : Z) : Z := if a <? 0 then -1 else 1.
Definition sexp_unbox_fx_abs (a : Z) : Z := if a <? 0 then - a else a.

(** ** Reading and allocating *)

Definition sexp_make_bignum (len : nat) : bignum := Bignum 1 (replicate len 0).

Definition sexp_fixnum_to_bignum (a : Z) : bignum :=
  Bignum (sexp_fx_sign a) [sexp_unbox_fx_abs a].

(** [dst] is [NULL] or a bignum distinct from [a]; [len0 = 0] means the length
    of [a]. *)
Definition sexp_copy_bignum (dst : option bignum) (a : bignum) (len0 : nat) : bignum :=
  let len := if (0 <? len0)%nat then len0 else length (data a) in
  let dlen := match dst with
              | None => len
              | Some d => if (length (data d) <? len)%nat then len else length (data d)
              end in
  let len := if (length (data a) <? len)%nat then length (data a) else len in
  Bignum (sign a) (take len (data a) ++ replicate (dlen - len) 0).

Definition sexp_bignum_zerop (a : bignum) : bool := forallb (fun d => d =? 0) (data a).

(** [while ((i>0) && ! data[i]) i--;] *)
Fixpoint hi_scan (ds : list Z) (i : nat) : nat :=
  match i with
  | O => O
  | S i' => if rd ds i =? 0 then hi_scan ds i' else i
  end.

Definition sexp_bignum_hi (a : bignum) : nat := S (hi_scan (data a) (length (data a) - 1)).

(** ** Comparison and normalisation *)

Fixpoint compare_digits (ad bd : list Z) (n : nat) : Z :=
  match n with
  | O => 0
  | S i => if rd ad i >? rd bd i then 1
           else if rd ad i <? rd bd i then -1
           else compare_digits ad bd i
  end.

Definition sexp_bignum_compare_abs (a b : bignum) : Z :=
  let ai := sexp_bignum_hi a in
  let bi := sexp_bignum_hi b in
  if negb (ai =? bi)%nat then Z.of_nat ai - Z.of_nat bi
  else compare_digits (data a) (data b) ai.

Definition sexp_bignum_compare (a b : bignum) : Z :=
  if negb (sign a =? sign b) then sign a
  else let cmp := sexp_bignum_compare_abs a b in
       if sign a <? 0 then - cmp else cmp.

Definition sexp_bignum_normalize (a : exint) : exint :=
  match a with
  | Fix _ => a
  | Big b =>
      if (1 <? sexp_bignum_hi b)%nat then a
      else if (rd (data b) 0 >? SEXP_MAX_FIXNUM)
              && negb ((sign b =? -1) && (rd (data b) 0 =? SEXP_MAX_FIXNUM + 1))
      then a
      else sexp_make_fixnum (s64 (rd (data b) 0) * sign b)
  end.

(** ** Operations with a single word *)

(** The carry loop of [sexp_bignum_fxadd]: [n > UINT_MAX - carry] tests the
    overflow of [n + carry].  It returns the updated limbs and the last carry. *)
Fixpoint fxadd_loop (ds : list Z) (carry : Z) : list Z * Z :=
  match ds with
  | [] => ([], carry)
  | n :: ds' =>
      let d := u64 (n + carry) in
      let carry := if n >? UINT_MAX - carry then 1 else 0 in
      if carry =? 0 then (d :: ds', 0)
      else let '(r, c) := fxadd_loop ds' carry in (d :: r, c)
  end.

Definition sexp_bignum_fxadd (a : bignum) (b : Z) : bignum :=
  let len := sexp_bignum_hi a in
  let '(lo, carry) := fxadd_loop (take len (data a)) b in
  let a := Bignum (sign a) (lo ++ drop len (data a)) in
  if carry =? 0 then a
  else let c := sexp_copy_bignum None a (len + 1) in
       Bignum (sign c) (wr (data c) len 1).

(** [for (borrow=b; borrow; i++)]: the loop runs past [hi] only while it
    borrows; reading past the array is the [None] case. *)
Fixpoint fxsub_loop (ds : list Z) (borrow : Z) : option (list Z) :=
  if borrow =? 0 then Some ds
  else match ds with
       | [] => None
       | n :: ds' =>
           let d := u64 (n - borrow) in
           let borrow := if n <? borrow then 1 else 0 in
           r ← fxsub_loop ds' borrow; Some (d :: r)
       end.

Definition sexp_bignum_fxsub (a : bignum) (b : Z) : option bignum :=
  let len := sexp_bignum_hi a in
  if (len =? 1)%nat && (b >? rd (data a) 0) then
    Some (Bignum (- sign a) (wr (data a) 0 (b - rd (data a) 0)))
  else r ← fxsub_loop (data a) b; Some (Bignum (sign a) r).

Section double_word.
Context {T : Type} `{LongUInt T}.

(** [n = adata[i] * b + carry; data[i+offset] = n; carry = n >> 64] *)
Fixpoint fxmul_loop (ad : list Z) (b carry : Z) : list Z * Z :=
  match ad with
  | [] => ([], carry)
  | x :: ad' =>
      let n := luint_add (luint_mul_uint (luint_from_uint x) b) (luint_from_uint carry) in
      let carry := luint_to_uint (luint_shr n 64) in
      let '(r, c) := fxmul_loop ad' b carry in
      (luint_to_uint n :: r, c)
  end.

(** The destination [d] is [NULL] or the operand [a] itself. *)
Inductive fxmul_dst := FxNull | FxSelf.

Definition sexp_bignum_fxmul (d : fxmul_dst) (a : bignum) (b : Z) (offset : nat) : bignum :=
  let len := length (data a) in
  let d := match d with
           | FxSelf => if (length (data a) <? len + offset)%nat
                       then sexp_make_bignum (len + offset) else a
           | FxNull => sexp_make_bignum (len + offset)
           end in
  let '(digits, carry) := fxmul_loop (data a) b 0 in
  let d := Bignum (sign d)
             (take offset (data d) ++ digits ++ drop (len + offset) (data d)) in
  if carry =? 0 then d
  else
    let d := if (length (data d) <=? len + offset)%nat
             then sexp_copy_bignum None d (len + offset + 1) else d in
    Bignum (sign d) (wr (data d) (len + offset) carry).

(** The loop of [sexp_bignum_fxdiv] from the limb [len-1] down to [offset]:
    [ds] holds the limbs from [offset] up; the remainder of the higher limbs
    is divided first. *)
Fixpoint fxdiv_loop (ds : list Z) (b : Z) : list Z * T :=
  match ds with
  | [] => ([], luint_from_uint 0)
  | x :: ds' =>
      let '(r, n) := fxdiv_loop ds' b in
      let n := luint_add (luint_shl n 64) (luint_from_uint x) in
      let q := luint_to_uint (luint_div_uint n b) in
      let rem := luint_to_uint (luint_sub n (luint_mul_uint (luint_from_uint q) b)) in
      (q :: r, luint_from_uint rem)
  end.

Definition sexp_bignum_fxdiv (a : bignum) (b : Z) (offset : nat) : bignum * Z :=
  let len := sexp_bignum_hi a in
  let '(qs, n) := fxdiv_loop (drop offset (take len (data a))) b in
  (Bignum (sign a) (take offset (data a) ++ qs ++ drop (Nat.max offset len) (data a)),
   luint_to_uint n).

Inductive fxrem_result := RemInt (r : exint) | RemDivideByZero.

Fixpoint fxrem_loop (ds : list Z) (b0 : Z) : T :=
  match ds with
  | [] => luint_from_uint 0
  | x :: ds' =>
      let n := luint_add (luint_shl (fxrem_loop ds' b0) 64) (luint_from_uint x) in
      let q := luint_to_uint (luint_div_uint n b0) in
      luint_sub n (luint_mul_uint (luint_from_uint q) b0)
  end.

(** A positive power of two takes the mask path. *)
Definition sexp_bignum_fxrem (a : bignum) (b : Z) : fxrem_result :=
  if (b >? 0) && (Z.land b (b - 1) =? 0) then
    RemInt (sexp_make_fixnum (s64 (sign a * Z.land (rd (data a) 0) (b - 1))))
  else
    let b0 := if b >=? 0 then b else u64 (- b) in
    if b0 =? 0 then RemDivideByZero
    else RemInt (sexp_make_fixnum
                   (sign a * s64 (luint_to_uint (fxrem_loop (take (sexp_bignum_hi a) (data a)) b0)))).
End double_word.

(** ** Addition and subtraction *)

(** The [dst] argument of the digit loops: [NULL], or one of the operands
    (the callers pass no other object). *)
Inductive dst_arg := DstNull | DstA | DstB.

Definition swap_dst (d : dst_arg) : dst_arg :=
  match d with DstNull => DstNull | DstA => DstB | DstB => DstA end.

(** [for (i=0; i<blen; i++)] of [sexp_bignum_sub_digits]. *)
Fixpoint sub_loop (ad bd : list Z) (borrow : Z) : list Z * Z :=
  match ad, bd with
  | x :: ad', y :: bd' =>
      let '(c, borrow) :=
        if (x >? y) || ((x =? y) && (borrow =? 0))
        then (u64 (x - y - borrow), 0)
        else (u64 (u64 (u64 (UINT_MAX - y + 1) - borrow) + x), 1) in
      let '(cs, k) := sub_loop ad' bd' borrow in (c :: cs, k)
  | _, _ => ([], borrow)
  end.

(** [for ( ; borrow && (i<alen); i++)] *)
Fixpoint borrow_loop (cd : list Z) (borrow : Z) : list Z :=
  match cd with
  | [] => []
  | c :: cd' => if borrow =? 0 then cd
                else u64 (c - 1) :: borrow_loop cd' (if c =? 0 then 1 else 0)
  end.

(** The digits of [c] before the loops: those of [a], whether [c] is a fresh
    copy or [a] itself.  ([dst] is [NULL] at every call of
    [sexp_bignum_sub], so the operand [b] is never overwritten here.) *)
Definition sub_digits_ordered (a b : bignum) : bignum :=
  let alen := sexp_bignum_hi a in
  let blen := sexp_bignum_hi b in
  let '(lo, borrow) := sub_loop (take alen (data a)) (take blen (data b)) 0 in
  Bignum (sign a)
    (lo ++ borrow_loop (take (alen - blen) (drop blen (data a))) borrow
        ++ drop alen (data a)).

(** Without a destination, as all callers in the files modelled have it: the C
    function writes into an operand that is the destination as well. *)
Definition sexp_bignum_sub_digits (a b : bignum) : bignum :=
  let alen := sexp_bignum_hi a in
  let blen := sexp_bignum_hi b in
  if (alen <? blen)%nat || ((alen =? blen)%nat && (sexp_bignum_compare_abs a b <? 0))
  then sub_digits_ordered b a
  else sub_digits_ordered a b.

(** [for (i=0; i<blen; i++)] of [sexp_bignum_add_digits].  [old_a] and [p_sum]
    are read before [cdata[i]] is written and [bdata[i]] again after it, so
    when [c] is [b] itself the carry test reads the new digit. *)
Fixpoint add_loop (c_is_b : bool) (ad bd : list Z) (carry : Z) : list Z * Z :=
  match ad, bd with
  | old_a :: ad', y :: bd' =>
      let p_sum := u64 (old_a + y) in
      let c := u64 (p_sum + carry) in
      let y := if c_is_b then c else y in
      let carry := (if old_a >? UINT_MAX - y then 1 else 0)
                   + (if p_sum >? UINT_MAX - carry then 1 else 0) in
      let '(cs, k) := add_loop c_is_b ad' bd' carry in (c :: cs, k)
  | _, _ => ([], carry)
  end.

(** [for ( ; carry && (i<alen); i++)] *)
Fixpoint carry_loop (cd : list Z) (carry : Z) : list Z * Z :=
  match cd with
  | [] => ([], carry)
  | c :: cd' => if carry =? 0 then (cd, carry)
                else let '(r, k) := carry_loop cd' (if c =? UINT_MAX then 1 else 0) in
                     (u64 (c + 1) :: r, k)
  end.

Definition add_digits_ordered (dst : dst_arg) (a b : bignum) : bignum :=
  let alen := sexp_bignum_hi a in
  let blen := sexp_bignum_hi b in
  (* c = ((dst && sexp_bignum_hi(dst) >= alen) ? dst : copy of a) *)
  let c_is_b := match dst with DstB => (alen <=? blen)%nat | _ => false end in
  let c := if c_is_b then b else a in
  let '(lo, carry) := add_loop c_is_b (take alen (data a)) (take blen (data b)) 0 in
  let '(mid, carry) := carry_loop (take (alen - blen) (drop blen (data c))) carry in
  let c := Bignum (sign c) (lo ++ mid ++ drop alen (data c)) in
  if carry =? 0 then c
  else let c := sexp_copy_bignum None c (alen + 1) in
       Bignum (sign c) (wr (data c) alen 1).

Definition sexp_bignum_add_digits (dst : dst_arg) (a b : bignum) : bignum :=
  if (sexp_bignum_hi a <? sexp_bignum_hi b)%nat
  then add_digits_ordered (swap_dst dst) b a
  else add_digits_ordered dst a b.

(** The destination matters for operands of one sign only.  Callers that hand an
    operand as the destination hand one that has the sign of the other. *)
Definition sexp_bignum_add (dst : dst_arg) (a b : bignum) : bignum :=
  if sign a =? sign b then
    let res := sexp_bignum_add_digits dst a b in
    Bignum (sign a) (data res)
  else
    let res := sexp_bignum_sub_digits a b in
    Bignum (if sexp_bignum_compare_abs a b >=? 0 then sign a else sign b) (data res).

Definition sexp_bignum_sub (dst : dst_arg) (a b : bignum) : bignum :=
  if sign a =? sign b then
    let sgn := if sexp_bignum_compare_abs a b >=? 0 then sign a else - sign a in
    let res := sexp_bignum_sub_digits a b in
    Bignum sgn (data res)
  else
    let sgn := sign a in
    let res := sexp_bignum_add_digits dst a b in
    Bignum sgn (data res).

Definition sexp_bignum_add_fixnum (a : bignum) (b : Z) : option bignum :=
  let c := sexp_copy_bignum None a 0 in
  if sign c =? sexp_fx_sign b
  then Some (sexp_bignum_fxadd c (sexp_unbox_fx_abs b))
  else sexp_bignum_fxsub c (sexp_unbox_fx_abs b).

(** ** Multiplication *)

(** [a[0..k-1]] and [a[k..]]. *)
Definition sexp_bignum_split (a : bignum) (k : nat) : bignum * bignum :=
  let alen := sexp_bignum_hi a in
  (Bignum 1 (take k (data a) ++ replicate (k - length (take k (data a))) 0),
   Bignum 1 (take (alen - k) (drop k (data a)) ++ replicate 1 0)).

Definition sexp_bignum_shift (a : bignum) (k : nat) : bignum :=
  let alen := sexp_bignum_hi a in
  Bignum 1 (replicate k 0 ++ take alen (data a) ++ replicate 1 0).

Section mul.
Context {T : Type} `{LongUInt T}.

(** The body of [sexp_bignum_mul] for [alen >= blen]; [mul] is the recursive
    call.  Karatsuba: [z2 B^2k + z1 B^k + z0] with
    [z1 = (a1 + a0)(b1 + b0) - z2 - z0]. *)
Definition bignum_mul_ordered (mul : bignum -> bignum -> option bignum) (a b : bignum)
  : option bignum :=
  let blen := sexp_bignum_hi b in
  z1 ← (if (blen =? 1)%nat then Some (sexp_bignum_fxmul FxNull a (rd (data b) 0) 0)
        else
          let k := (blen / 2)%nat in
          let '(a0, a1) := sexp_bignum_split a k in
          let '(b0, b1) := sexp_bignum_split b k in
          let z0 := sexp_bignum_add DstNull a1 a0 in
          let z1 := sexp_bignum_add DstNull b1 b0 in
          z1 ← mul z1 z0;
          z0 ← mul a0 b0;
          z2 ← mul a1 b1;
          let z1 := sexp_bignum_sub DstNull z1 z0 in
          let z1 := sexp_bignum_sub DstNull z1 z2 in
          let z2 := sexp_bignum_shift z2 (2 * k) in
          let z1 := sexp_bignum_shift z1 k in
          let z1 := sexp_bignum_add DstA z1 z0 in
          let z1 := sexp_bignum_add DstA z1 z2 in
          Some z1);
  Some (Bignum (sign a * sign b) (data z1)).

(** The fuel bounds the depth of the recursion; [None] is out of fuel. *)
Fixpoint sexp_bignum_mul_fuel (fuel : nat) (a b : bignum) : option bignum :=
  match fuel with
  | O => None
  | S fuel =>
      if (sexp_bignum_hi a <? sexp_bignum_hi b)%nat
      then bignum_mul_ordered (sexp_bignum_mul_fuel fuel) b a
      else bignum_mul_ordered (sexp_bignum_mul_fuel fuel) a b
  end.

(** One level of recursion at least halves the operands, so their size in bits
    bounds the depth. *)
Definition sexp_bignum_mul (a b : bignum) : option bignum :=
  sexp_bignum_mul_fuel (S (64 * (length (data a) + length (data b)))) a b.

(** [for (; abs_e; abs_e>>=1, acc=acc*acc) if (abs_e & 1) res = res*acc;] *)
Fixpoint expt_loop (fuel : nat) (abs_e : Z) (res acc : bignum) : option bignum :=
  match fuel with
  | O => None
  | S fuel =>
      if abs_e =? 0 then Some res
      else
        res ← (if Z.land abs_e 1 =? 0 then Some res else sexp_bignum_mul res acc);
        acc ← sexp_bignum_mul acc acc;
        expt_loop fuel (Z.shiftr abs_e 1) res acc
  end.
End mul.

(** ** Values and well-formedness *)

Definition wf (a : bignum) : Prop :=
  (sign a = 1 \/ sign a = -1) /\ data a <> [] /\ limbs (data a).

Definition mag (a : bignum) : Z := dval (data a).
Definition bval (a : bignum) : Z := sign a * mag a.

Definition ival (x : exint) : Z := match x with Fix z => z | Big b => bval b end.
(** Fixnums in range; bignums well-formed. *)
Definition iwf (x : exint) : Prop :=
  match x with Fix z => SEXP_MIN_FIXNUM <= z <= SEXP_MAX_FIXNUM | Big b => wf b end.
(** A normalised integer uses a bignum only outside of the fixnum range. *)
Definition inormal (x : exint) : Prop :=
  match x with
  | Fix z => SEXP_MIN_FIXNUM <= z <= SEXP_MAX_FIXNUM
  | Big b => wf b /\ ~ (SEXP_MIN_FIXNUM <= bval b <= SEXP_MAX_FIXNUM)
  end.

Lemma wf_mag a : wf a -> 0 <= mag a < Bp (length (data a)).
Proof. intros (_ & _ & H). by apply dval_range. Qed.

Lemma wf_sign a : wf a -> sign a * sign a = 1.
Proof. intros ([-> | ->] & _); done. Qed.

(** *** [sexp_bignum_hi] *)

Lemma hi_scan_le ds n : (hi_scan ds n <= n)%nat.
Proof. induction n as [|n IH]; cbn -[rd]; [done|]. case_match; lia. Qed.

Lemma hi_scan_zeros ds n : dval (take (S n) ds) = dval (take (S (hi_scan ds n)) ds).
Proof.
  induction n as [|n IH]; [done|]. cbn -[rd take dval].
  destruct (Z.eqb_spec (rd ds (S n)) 0) as [E|]; [|done]. rewrite <- IH.
  destruct (decide (S n < length ds)%nat) as [Hn|].
  - rewrite (take_S_r ds (S n) 0), dval_app; [cbn [dval]; lia|].
    rewrite <- E. by apply rd_lookup.
  - by rewrite !take_ge by lia.
Qed.

Lemma hi_scan_top ds n : (hi_scan ds n = 0)%nat \/ rd ds (hi_scan ds n) <> 0.
Proof.
  induction n as [|n IH]; cbn -[rd]; [by left|].
  destruct (Z.eqb_spec (rd ds (S n)) 0); [done|by right].
Qed.

Lemma rd_top_ge ds n : limbs ds -> rd ds n <> 0 -> Bp n <= dval (take (S n) ds).
Proof.
  intros Hds Hn. assert (n < length ds)%nat as Hl.
  { destruct (decide (n < length ds)%nat); [done|].
    exfalso. apply Hn. unfold rd. apply nth_overflow. lia. }
  rewrite (take_S_r _ _ _ (rd_lookup ds n Hl)), dval_app, length_take_le by lia. cbn [dval].
  destruct (limbs_rd ds n Hds).
  pose proof (Bp_pos n). pose proof (dval_nonneg (take n ds) ltac:(limbs)). nia.
Qed.

(** What every user of [hi] needs: the limbs below it carry the whole
    magnitude, the limbs above are zero and the top one is not (unless the
    number has a single limb). *)
Lemma hi_spec a : wf a ->
  let n := sexp_bignum_hi a in
  (1 <= n <= length (data a))%nat /\ mag a = dval (take n (data a)) /\
  drop n (data a) = replicate (length (data a) - n) 0 /\
  mag a < Bp n /\ (n = 1%nat \/ Bp (n - 1) <= mag a).
Proof.
  intros (_ & Hne & Hl) n. unfold n, sexp_bignum_hi. set (i := hi_scan _ _).
  assert (length (data a) <> 0)%nat by (by destruct (data a)).
  pose proof (hi_scan_le (data a) (length (data a) - 1)).
  assert (mag a = dval (take (S i) (data a))) as E.
  { unfold i. rewrite <- hi_scan_zeros. rewrite take_ge by lia. done. }
  split_and!; [lia|lia|done|..].
  - rewrite <- length_drop. apply dval_zero_all; [by apply Forall_drop|].
    unfold mag in E. rewrite (dval_split (S i)) in E by lia. pose proof (Bp_pos (S i)). nia.
  - rewrite E. apply Z.lt_le_trans with (Bp (length (take (S i) (data a)))).
    + by apply dval_range, Forall_take.
    + apply Bp_mono. rewrite length_take. lia.
  - replace (S i - 1)%nat with i by lia. rewrite E.
    destruct (hi_scan_top (data a) (length (data a) - 1)) as [Ht|Ht]; [left; unfold i; lia|].
    right. by apply rd_top_ge.
Qed.

Lemma hi_range a : wf a -> (1 <= sexp_bignum_hi a <= length (data a))%nat.
Proof. intros Ha. by destruct (hi_spec a Ha). Qed.

Lemma mag_hi a : wf a -> dval (take (sexp_bignum_hi a) (data a)) = mag a.
Proof. intros Ha. by destruct (hi_spec a Ha) as (_ & ? & _). Qed.

Lemma drop_hi a : wf a ->
  drop (sexp_bignum_hi a) (data a) = replicate (length (data a) - sexp_bignum_hi a) 0.
Proof. intros Ha. by destruct (hi_spec a Ha) as (_ & _ & ? & _). Qed.

(** [hi] is monotone in the magnitude. *)
Lemma hi_le_mag a b : wf a -> wf b -> mag a <= mag b -> (sexp_bignum_hi a <= sexp_bignum_hi b)%nat.
Proof.
  intros Ha Hb Hm. destruct (hi_spec a Ha) as (? & _ & _ & ? & [->|]); [by apply hi_range|].
  destruct (hi_spec b Hb) as (? & _ & _ & ? & _).
  destruct (decide (sexp_bignum_hi b < sexp_bignum_hi a)%nat); [|lia].
  pose proof (Bp_mono (sexp_bignum_hi b) (sexp_bignum_hi a - 1) ltac:(lia)). lia.
Qed.

(** *** Comparison and normalisation *)

Lemma compare_digits_spec ad bd n : limbs ad -> limbs bd ->
  (n <= length ad)%nat -> (n <= length bd)%nat ->
  Z.sgn (compare_digits ad bd n) = Z.sgn (dval (take n ad) - dval (take n bd)).
Proof.
  intros Ha Hb. induction n as [|i IH]; intros Hna Hnb; [done|].
  rewrite !dval_take_S by lia. pose proof (dval_take_lt ad i Ha). pose proof (dval_take_lt bd i Hb).
  cbn -[rd]. zcases.
  - symmetry. apply Z.sgn_neg. nia.
  - symmetry. apply Z.sgn_pos. nia.
  - replace (rd bd i) with (rd ad i) by lia. rewrite IH by lia. f_equal. lia.
Qed.

Lemma compare_abs_spec a b : wf a -> wf b ->
  Z.sgn (sexp_bignum_compare_abs a b) = Z.sgn (mag a - mag b).
Proof.
  intros Ha Hb. unfold sexp_bignum_compare_abs.
  destruct (Nat.eqb_spec (sexp_bignum_hi a) (sexp_bignum_hi b)) as [E|Hne]; cbn [negb].
  - pose proof (hi_range a Ha). pose proof (hi_range b Hb).
    destruct Ha as (? & ? & La), Hb as (? & ? & Lb).
    rewrite compare_digits_spec by (done || lia). rewrite mag_hi by done.
    rewrite E, mag_hi by done. done.
  - destruct (decide (mag a <= mag b)) as [Hm|Hm].
    + pose proof (hi_le_mag a b Ha Hb Hm).
      destruct (decide (mag b <= mag a)) as [Hm'|]; [pose proof (hi_le_mag b a Hb Ha Hm'); lia|].
      transitivity (-1); [|symmetry]; apply Z.sgn_neg; lia.
    + pose proof (hi_le_mag b a Hb Ha ltac:(lia)).
      transitivity 1; [|symmetry]; apply Z.sgn_pos; lia.
Qed.

(** The sign of the comparison, in the form the callers test it. *)
Lemma compare_abs_ge a b : wf a -> wf b ->
  (sexp_bignum_compare_abs a b >=? 0) = (mag b <=? mag a).
Proof.
  intros Ha Hb. pose proof (compare_abs_spec a b Ha Hb).
  destruct (sexp_bignum_compare_abs a b), (mag a - mag b) eqn:?; cbn in *; zcases; lia.
Qed.

Lemma compare_abs_lt a b : wf a -> wf b ->
  (sexp_bignum_compare_abs a b <? 0) = (mag a <? mag b).
Proof.
  intros Ha Hb. pose proof (compare_abs_spec a b Ha Hb).
  destruct (sexp_bignum_compare_abs a b), (mag a - mag b) eqn:?; cbn in *; zcases; lia.
Qed.

Lemma hi_one a : wf a -> sexp_bignum_hi a = 1%nat -> mag a = rd (data a) 0.
Proof.
  intros Ha E. rewrite <- (mag_hi a Ha), E. pose proof (hi_range a Ha).
  rewrite dval_take_S, Bp_0 by lia. rewrite take_0. cbn [dval]. lia.
Qed.

Lemma hi_many a : wf a -> (1 < sexp_bignum_hi a)%nat -> 2 ^ 64 <= mag a.
Proof.
  intros Ha Hn. destruct (hi_spec a Ha) as (_ & _ & _ & _ & [?|?]); [lia|].
  pose proof (Bp_ge (sexp_bignum_hi a - 1) ltac:(lia)). lia.
Qed.

Lemma normalize_spec x : iwf x ->
  inormal (sexp_bignum_normalize x) /\ ival (sexp_bignum_normalize x) = ival x.
Proof.
  destruct x as [z|b]; [done|]. intros Hb. cbn in Hb. pose proof Hb as (Hs & _ & Hl).
  pose proof (wf_mag b Hb). cbn -[Nat.ltb Z.pow].
  unfold SEXP_MIN_FIXNUM, SEXP_MAX_FIXNUM in *.
  destruct (Nat.ltb_spec 1 (sexp_bignum_hi b)) as [Hn|Hn].
  { pose proof (hi_many b Hb Hn). split; [|done]. split; [done|].
    unfold bval, SEXP_MIN_FIXNUM, SEXP_MAX_FIXNUM. destruct Hs as [-> | ->]; lia. }
  pose proof (hi_range b Hb). pose proof (hi_one b Hb ltac:(lia)) as E.
  pose proof (limbs_rd (data b) 0 Hl) as [? ?]. rewrite <- E in *.
  destruct ((mag b >? 2 ^ 62 - 1) && negb ((sign b =? -1) && (mag b =? 2 ^ 62 - 1 + 1))) eqn:C.
  - split; [|done]. split; [done|].
    unfold bval, SEXP_MIN_FIXNUM, SEXP_MAX_FIXNUM. destruct Hs as [Hs|Hs]; rewrite Hs in *; lia.
  - assert (s64 (mag b) = mag b) as -> by (apply swrap_id; lia).
    assert (- 2 ^ 62 <= mag b * sign b < 2 ^ 62) by (destruct Hs as [Hs|Hs]; rewrite Hs in *; lia).
    cbn -[Z.pow]. rewrite swrap_id by lia. unfold bval, SEXP_MIN_FIXNUM, SEXP_MAX_FIXNUM. lia.
Qed.

(** *** Operations with a single word *)

Lemma fxadd_loop_spec ds b r c : limbs ds -> is_u64 b -> fxadd_loop ds b = (r, c) ->
  limbs r /\ length r = length ds /\ dval r + c * Bp (length ds) = dval ds + b /\
  (ds = [] \/ 0 <= c <= 1).
Proof.
  intros Hds. revert b r c. induction Hds as [|n ds [? ?] Hds IH]; intros b r c [? ?] E; cbn in E.
  - injection E as <- <-. cbn [length dval]. rewrite Bp_0. split_and!; auto. lia.
  - unfold UINT_MAX in E. set (d := u64 (n + b)) in E.
    assert (is_u64 d) as Hd by (apply uwrap_range; lia).
    assert (d = n + b \/ d = n + b - 2 ^ 64) as Ed.
    { unfold d, uwrap. destruct (decide (n + b < 2 ^ 64)).
      - left. apply Z.mod_small. lia.
      - right. symmetry. apply Z.mod_unique with 1; lia. }
    destruct Hd as [? ?]. cbn [length dval]. rewrite Bp_S.
    destruct (n >? 2 ^ 64 - 1 - b) eqn:C; cbn in E.
    + destruct (fxadd_loop ds 1) as [r' c'] eqn:E'. injection E as <- <-.
      destruct (IH 1 r' c') as (? & ? & Hv & Hc); [unfold is_u; lia | done |].
      cbn [length dval]. assert (d = n + b - 2 ^ 64) as -> by lia.
      split_and!; [constructor; unfold is_u in *; done || lia | lia | nia |].
      right. destruct Hc as [->|]; [|done]. cbn in E'. injection E' as <- <-. lia.
    + injection E as <- <-. cbn [length dval]. assert (d = n + b) as -> by lia.
      split_and!; [constructor; unfold is_u; done || lia | done | lia | lia].
Qed.

(** Writing one limb above the significant ones of a fresh copy. *)
Lemma copy_push c n v : (n <= length (data c))%nat ->
  wr (data (sexp_copy_bignum None c (n + 1))) n v = take n (data c) ++ [v].
Proof.
  intros Hn. unfold sexp_copy_bignum; cbn [data].
  destruct (Nat.ltb_spec 0 (n + 1)); [|lia].
  destruct (Nat.ltb_spec (length (data c)) (n + 1)).
  - assert (n = length (data c)) as -> by lia.
    replace (length (data c) + 1 - length (data c))%nat with 1%nat by lia.
    cbn [replicate]. by rewrite !take_ge, wr_app by lia.
  - rewrite Nat.sub_diag, app_nil_r. unfold wr.
    rewrite take_take, (drop_ge (take _ _)) by (rewrite length_take; lia).
    by rewrite Nat.min_l by lia.
Qed.

Lemma fxadd_spec a b : wf a -> is_u64 b ->
  wf (sexp_bignum_fxadd a b) /\ sign (sexp_bignum_fxadd a b) = sign a /\
  mag (sexp_bignum_fxadd a b) = mag a + b.
Proof.
  intros Ha Hb. pose proof (hi_spec a Ha) as (Hh & Hm & Hd & _). pose proof Ha as (Hs & Hne & Hl).
  unfold sexp_bignum_fxadd. set (n := sexp_bignum_hi a) in *.
  destruct (fxadd_loop (take n (data a)) b) as [lo c] eqn:E.
  destruct (fxadd_loop_spec _ _ _ _ (Forall_take _ n _ Hl) Hb E) as (Hlo & Hlen & Hv & Hc).
  rewrite length_take_le in Hlen, Hv by lia.
  assert (c = 0 \/ c = 1) as Hc'.
  { destruct Hc as [Hc|Hc]; [|lia]. apply (f_equal length) in Hc. rewrite length_take_le in Hc by lia.
    cbn in Hc. lia. }
  rewrite Hd, Hm. destruct Hc' as [-> | ->]; cbn [Z.eqb].
  - unfold wf, mag; cbn [sign data]. rewrite dval_app, dval_zeros. split_and!; [done| |..|done|lia].
    + destruct lo; [cbn in Hlen; lia|done].
    + by apply Forall_app; split; limbs.
  - unfold mag; cbn [data sign]. rewrite copy_push by (cbn [data]; rewrite length_app; lia).
    cbn [data]. rewrite <- Hlen, take_app_length, dval_app. cbn [dval].
    split; [|split; [done|rewrite Hlen; lia]].
    split_and!; [done|by destruct lo|]. apply Forall_app; split; [done|].
    repeat constructor; unfold is_u; lia.
Qed.

Lemma fxsub_loop_spec ds b : limbs ds -> is_u64 b -> b <= dval ds ->
  exists r, fxsub_loop ds b = Some r /\ limbs r /\ length r = length ds /\ dval r = dval ds - b.
Proof.
  intros Hds. revert b. induction Hds as [|n ds [? ?] Hds IH]; intros b [? ?] Hle; cbn -[dval] in *.
  - cbn in Hle. assert (b = 0) as -> by lia. exists []. split_and!; done.
  - destruct (Z.eqb_spec b 0) as [->|].
    { exists (n :: ds). rewrite Z.sub_0_r. split_and!; try done. constructor; [|done]. unfold is_u; lia. }
    rewrite dval_cons in *. pose proof (dval_nonneg ds Hds).
    destruct (Z.ltb_spec n b).
    + destruct (IH 1) as (r & -> & ? & ? & Hr); [unfold is_u; lia | lia |].
      exists (u64 (n - b) :: r). assert (u64 (n - b) = n - b + 2 ^ 64) as Ew.
      { unfold uwrap. symmetry. apply Z.mod_unique with (-1); lia. }
      split_and!; [done| |by cbn; f_equal|rewrite dval_cons, Ew; lia].
      constructor; [|done]. unfold is_u. lia.
    + destruct (IH 0) as (r & -> & ? & ? & Hr); [unfold is_u; lia | lia |].
      exists (u64 (n - b) :: r). rewrite uwrap_id by (unfold is_u; lia).
      split_and!; [done| |by cbn; f_equal|rewrite dval_cons; lia].
      constructor; [|done]. unfold is_u. lia.
Qed.

(** [fxsub] subtracts a word from the magnitude; the sign flips when a
    single-limb operand is the smaller one. *)
Lemma fxsub_spec a b : wf a -> is_u64 b ->
  exists r, sexp_bignum_fxsub a b = Some r /\ wf r /\ bval r = bval a - sign a * b.
Proof.
  intros Ha Hb. pose proof Ha as (Hs & Hne & Hl). pose proof Hb as [? ?].
  pose proof (hi_range a Ha). unfold sexp_bignum_fxsub.
  destruct ((sexp_bignum_hi a =? 1)%nat && (b >? rd (data a) 0)) eqn:C.
  - apply andb_true_iff in C as [Hn%Nat.eqb_eq Hgt]. apply Z.gtb_lt in Hgt.
    pose proof (hi_one a Ha Hn) as Em. pose proof (limbs_rd (data a) 0 Hl) as [? ?].
    pose proof (drop_hi a Ha) as Hd. rewrite Hn in Hd.
    eexists; split; [done|]. unfold wf, bval, mag, wr; cbn [sign data].
    rewrite take_0, Hd. cbn [app dval]. rewrite dval_zeros. unfold mag in Em. rewrite Em.
    split; [|ring]. split_and!; [destruct Hs as [-> | ->]; auto|done|].
    constructor; [unfold is_u; lia|limbs].
  - assert (b <= dval (data a)) as Hle.
    { change (dval (data a)) with (mag a). destruct (Nat.eqb_spec (sexp_bignum_hi a) 1) as [Hn|Hn].
      - rewrite (hi_one a Ha Hn). cbn in C. lia.
      - pose proof (hi_many a Ha ltac:(lia)). lia. }
    destruct (fxsub_loop_spec (data a) b Hl Hb Hle) as (r & -> & Hr & Hlen & Hv).
    eexists; split; [done|]. unfold wf, bval, mag; cbn [sign data]. rewrite Hv.
    split; [|ring]. split_and!; [done| |done]. destruct r, (data a); done.
Qed.

Section double_word_facts.
Context {T : Type} `{LongUIntOk T}.

Lemma fxmul_loop_spec ad b carry r c : limbs ad -> is_u64 b -> is_u64 carry ->
  fxmul_loop ad b carry = (r, c) ->
  limbs r /\ length r = length ad /\ is_u64 c /\
  dval r + c * Bp (length ad) = dval ad * b + carry.
Proof.
  intros Had Hb. revert carry r c. induction Had as [|x ad Hx Had IH]; intros carry r c Hc E; cbn in E.
  - injection E as <- <-. cbn [length dval]. rewrite Bp_0. split_and!; auto. lia.
  - destruct (from_uint_ok x Hx) as [O1 V1]. destruct (luint_mul_uint_spec _ b O1 Hb) as [O2 V2].
    destruct (from_uint_ok carry Hc) as [O3 V3]. destruct (luint_add_spec _ _ O2 O3) as [O4 V4].
    rewrite V2, V3, V1, Zplus_mod_idemp_l in V4. rewrite (Z.mod_small (x * b + carry)) in V4
      by (unfold is_u in *; nia).
    destruct (luint_shr_spec _ 64 O4) as [O5 V5]; [lia|].
    set (n := luint_add _ _) in *. pose proof (lval_range n O4) as Hn.
    pose proof (Z.div_mod (lval n) (2 ^ 64) ltac:(lia)) as Dn.
    assert (luint_to_uint (luint_shr n 64) = lval n / 2 ^ 64 /\ is_u64 (lval n / 2 ^ 64)) as [Ec Hc'].
    { assert (is_u64 (lval n / 2 ^ 64)).
      { unfold is_u in *. split; [apply Z.div_pos; lia|apply Z.div_lt_upper_bound; lia]. }
      split; [|done]. rewrite to_uint_spec, V5, Z.mod_small by done. done. }
    rewrite Ec in E. destruct (fxmul_loop ad b (lval n / 2 ^ 64)) as [r' c'] eqn:E'.
    injection E as <- <-. destruct (IH _ _ _ Hc' E') as (Hr & Hlen & Hc1 & Hv).
    rewrite to_uint_spec by done. cbn [length dval]. rewrite Bp_S. split_and!; [|by f_equal|done|nia].
    constructor; [apply Z.mod_pos_bound; lia|done].
Qed.

Lemma fxmul_spec d a b offset : wf a -> is_u64 b -> (d = FxSelf -> offset = 0%nat) ->
  let r := sexp_bignum_fxmul d a b offset in
  wf r /\ sign r = (match d with FxNull => 1 | FxSelf => sign a end) /\
  mag r = mag a * b * Bp offset.
Proof.
  intros Ha Hb Hd. pose proof Ha as (Hs & Hne & Hl).
  assert (length (data a) <> 0)%nat as Hlen0 by (by destruct (data a)).
  unfold sexp_bignum_fxmul.
  destruct (fxmul_loop (data a) b 0) as [ds c] eqn:E.
  destruct (fxmul_loop_spec _ b 0 _ _ Hl Hb ltac:(unfold is_u; lia) E) as (Hds & Hlen & Hc & Hv).
  set (d' := match d with FxNull => _ | FxSelf => _ end).
  assert (take offset (data d') = replicate offset 0 /\ drop (length (data a) + offset) (data d') = [] /\
    sign d' = match d with FxNull => 1 | FxSelf => sign a end) as (E1 & E2 & E3).
  { unfold d'. destruct d; cbn -[take drop Nat.ltb].
    - rewrite take_replicate, Nat.min_l, drop_replicate by lia.
      replace (length (data a) + offset - (length (data a) + offset))%nat with 0%nat by lia. done.
    - rewrite (Hd eq_refl), Nat.add_0_r, Nat.ltb_irrefl, take_0, drop_all. done. }
  clearbody d'. rewrite E1, E2, E3, app_nil_r. rewrite Z.add_0_r in Hv.
  set (sg := match d with FxNull => 1 | FxSelf => sign a end) in *.
  assert (sg = 1 \/ sg = -1) as Hsg by (unfold sg; destruct d; auto).
  destruct (Z.eqb_spec c 0) as [->|Hc0].
  - unfold wf, mag in *; cbn [sign data]. rewrite dval_app, dval_zeros, length_replicate, <- Hv.
    split_and!; [done| | |done|lia].
    + destruct ds; [cbn in Hlen; lia|]. by destruct offset.
    + apply Forall_app; split; limbs.
  - cbn [data sign]. rewrite length_app, length_replicate, Hlen.
    destruct (Nat.leb_spec (offset + length (data a)) (length (data a) + offset)); [|lia].
    rewrite (Nat.add_comm (length (data a)) offset), copy_push
      by (cbn [data]; rewrite length_app, length_replicate; lia).
    unfold wf, mag in *; cbn [sign data].
    rewrite take_ge, !dval_app, dval_zeros, length_app, length_replicate, Hlen, Bp_add
      by (rewrite length_app, length_replicate; lia). cbn [dval].
    split_and!; [done| | |done|rewrite <- Hv; ring].
    + destruct ds; [cbn in Hlen; lia|]. by destruct offset.
    + repeat apply Forall_app_2; limbs.
Qed.

(** One step of the long division by a word. *)
Lemma divstep_spec n x b : lok n -> lval n < b -> is_u64 x -> is_u64 b ->
  let n' := luint_add (luint_shl n 64) (luint_from_uint x) in
  let q := luint_to_uint (luint_div_uint n' b) in
  let r := luint_sub n' (luint_mul_uint (luint_from_uint q) b) in
  is_u64 q /\ lok r /\ 0 <= lval r < b /\ q * b + lval r = lval n * 2 ^ 64 + x.
Proof.
  intros On Hn Hx Hb. pose proof (lval_range n On) as Rn.
  assert (0 < b) as Hb0 by (unfold is_u in *; lia).
  destruct (luint_shl_spec n 64 On) as [O1 V1]; [lia|].
  destruct (from_uint_ok x Hx) as [O2 V2]. destruct (luint_add_spec _ _ O1 O2) as [O3 V3].
  rewrite V1, V2, Zplus_mod_idemp_l, (Z.mod_small (lval n * 2 ^ 64 + x)) in V3 by (unfold is_u in *; nia).
  intros n' q r. fold n' in O3, V3.
  destruct (luint_div_uint_spec n' b O3 Hb) as [O4 V4]; [lia|].
  pose proof (Z.div_mod (lval n') b ltac:(lia)) as D.
  pose proof (Z.mod_pos_bound (lval n') b Hb0).
  assert (q = lval n' / b /\ is_u64 q) as [Eq Hq].
  { assert (is_u64 (lval n' / b)).
    { unfold is_u in *. split; [apply Z.div_pos; lia|apply Z.div_lt_upper_bound; nia]. }
    assert (q = lval n' / b) as -> by (unfold q; by rewrite to_uint_spec, V4, Z.mod_small). done. }
  destruct (from_uint_ok q Hq) as [O5 V5]. destruct (luint_mul_uint_spec _ b O5 Hb) as [O6 V6].
  rewrite V5, Z.mod_small in V6 by (unfold is_u in *; nia).
  destruct (luint_sub_spec _ _ O3 O6) as [O7 V7]. fold r in O7, V7.
  rewrite V6, (Z.mod_small (lval n' - q * b)) in V7 by (unfold is_u in *; nia).
  split_and!; [done|done|nia|nia|nia].
Qed.

Lemma fxdiv_loop_spec ds b qs n : limbs ds -> is_u64 b -> 0 < b -> fxdiv_loop ds b = (qs, n) ->
  limbs qs /\ length qs = length ds /\ lok n /\ 0 <= lval n < b /\ dval qs * b + lval n = dval ds.
Proof.
  intros Hds Hb Hb0. revert qs n. induction Hds as [|x ds Hx Hds IH]; intros qs n E; cbn in E.
  - injection E as <- <-. destruct (from_uint_ok (T:=T) 0) as [O V]; [unfold is_u; lia|].
    rewrite V. cbn. split_and!; auto; lia.
  - destruct (fxdiv_loop ds b) as [r m] eqn:E'. injection E as <- <-.
    destruct (IH _ _ eq_refl) as (Hr & Hlen & Om & Hm & Hv).
    destruct (divstep_spec m x b Om ltac:(lia) Hx Hb) as (Hq & Or & Rr & Hqr).
    set (q := luint_to_uint _) in *. set (r' := luint_sub _ _) in *.
    assert (is_u64 (luint_to_uint r') /\ luint_to_uint r' = lval r') as [Ru Er].
    { rewrite to_uint_spec, Z.mod_small by (done || unfold is_u in *; lia). unfold is_u in *. lia. }
    destruct (from_uint_ok _ Ru) as [On Vn].
    rewrite Er in On. rewrite Vn, Er, !dval_cons. split_and!; [by constructor|cbn; by f_equal|done|lia|lia|nia].
Qed.

(** In-place division by a word: quotient in the object, remainder returned. *)
Lemma fxdiv_spec a b : wf a -> is_u64 b -> 0 < b ->
  let '(q, r) := sexp_bignum_fxdiv a b 0 in
  wf q /\ sign q = sign a /\ length (data q) = length (data a) /\
  mag q = mag a / b /\ r = mag a mod b.
Proof.
  intros Ha Hb Hb0. pose proof (hi_spec a Ha) as (Hh & Hm & Hd & _). pose proof Ha as (Hs & Hne & Hl).
  unfold sexp_bignum_fxdiv. rewrite drop_0, take_0. set (k := sexp_bignum_hi a) in *.
  destruct (fxdiv_loop (take k (data a)) b) as [qs n] eqn:E.
  destruct (fxdiv_loop_spec _ _ _ _ (Forall_take _ k _ Hl) Hb Hb0 E) as (Hq & Hlen & On & Rn & Hv).
  rewrite length_take_le in Hlen by lia. rewrite Nat.max_r, Hd by lia.
  rewrite to_uint_spec, Z.mod_small by (done || unfold is_u in *; lia).
  unfold wf; rewrite Hm; unfold mag; cbn [sign data app]. rewrite dval_app, dval_zeros, length_app, length_replicate.
  split_and!; [done| |apply Forall_app_2; limbs|done|lia|..].
  - destruct qs; [cbn in Hlen; lia|done].
  - apply Z.div_unique_pos with (lval n); lia.
  - apply Z.mod_unique_pos with (dval qs); lia.
Qed.

Lemma fxrem_loop_spec ds b : limbs ds -> is_u64 b -> 0 < b ->
  lok (fxrem_loop ds b) /\ lval (fxrem_loop ds b) = dval ds mod b.
Proof.
  intros Hds Hb Hb0. induction Hds as [|x ds Hx Hds [Om Vm]]; cbn [fxrem_loop].
  - destruct (from_uint_ok (T:=T) 0) as [O V]; [unfold is_u; lia|]. by rewrite V, Z.mod_0_l by lia.
  - pose proof (Z.mod_pos_bound (dval ds) b Hb0).
    destruct (divstep_spec _ x b Om ltac:(lia) Hx Hb) as (Hq & Or & Rr & Hqr). split; [done|].
    set (q := luint_to_uint _) in *. rewrite dval_cons.
    apply Z.mod_unique_pos with (2 ^ 64 * (dval ds / b) + q); [done|].
    pose proof (Z.div_mod (dval ds) b ltac:(lia)). nia.
Qed.
End double_word_facts.

(** *** Digit-wise subtraction and addition *)

Lemma sub_loop_spec ad bd bw r k : limbs ad -> limbs bd -> (length bd <= length ad)%nat ->
  0 <= bw <= 1 -> sub_loop ad bd bw = (r, k) ->
  limbs r /\ length r = length bd /\ 0 <= k <= 1 /\
  dval r - k * Bp (length bd) = dval (take (length bd) ad) - dval bd - bw.
Proof.
  intros Ha Hb. revert ad Ha bw r k. induction Hb as [|y bd [? ?] Hb IH];
    intros ad Ha bw r k Hlen Hbw E; destruct Ha as [|x ad [? ?] Ha]; cbn [length] in Hlen; try lia.
  1, 2: cbn in E; injection E as <- <-; cbn [length take dval]; rewrite Bp_0; split_and!; auto; lia.
  cbn in E. set (t := if _ : bool then _ else _) in E.
  assert (exists c k', t = (c, k') /\ is_u64 c /\ 0 <= k' <= 1 /\ c - k' * 2 ^ 64 = x - y - bw)
    as (c & k' & Et & Hc & Hk' & Hv).
  { unfold t. destruct ((x >? y) || ((x =? y) && (bw =? 0))) eqn:C.
    - exists (x - y - bw), 0. rewrite uwrap_id by (unfold is_u; lia). unfold is_u. split_and!; done || lia.
    - exists (x - y - bw + 2 ^ 64), 1. unfold is_u. split_and!; [f_equal|lia..].
      unfold uwrap, UINT_MAX. rewrite Zminus_mod_idemp_l, Zplus_mod_idemp_l.
      rewrite Z.mod_small by lia. lia. }
  rewrite Et in E. destruct (sub_loop ad bd k') as [r' k''] eqn:E'. injection E as <- <-.
  destruct (IH ad Ha k' r' k'' ltac:(lia) Hk' E') as (Hr & Hlen' & Hk & Hv').
  cbn [length take]. rewrite !dval_cons, Bp_S. split_and!; [by constructor|cbn; lia|lia|lia|nia].
Qed.

Lemma borrow_loop_spec cd bw : limbs cd -> 0 <= bw <= 1 -> bw <= dval cd ->
  limbs (borrow_loop cd bw) /\ length (borrow_loop cd bw) = length cd /\
  dval (borrow_loop cd bw) = dval cd - bw.
Proof.
  intros Hc. revert bw. induction Hc as [|c cd [? ?] Hc IH]; intros bw Hbw Hle; cbn -[dval] in *.
  - cbn in *. split_and!; auto; lia.
  - destruct (Z.eqb_spec bw 0) as [->|].
    { split_and!; [constructor; [unfold is_u; lia|done]|done|lia]. }
    assert (bw = 1) as -> by lia. rewrite dval_cons in *. pose proof (dval_nonneg cd Hc).
    destruct (Z.eqb_spec c 0) as [->|].
    + destruct (IH 1) as (? & ? & Hv); [lia..|].
      rewrite dval_cons, Hv. split_and!; [constructor; [|done]|cbn; lia|].
      * apply uwrap_range; lia.
      * change (u64 (0 - 1)) with (2 ^ 64 - 1). lia.
    + destruct (IH 0) as (? & ? & Hv); [lia..|].
      rewrite dval_cons, Hv, uwrap_id by (unfold is_u; lia).
      split_and!; [constructor; [unfold is_u; lia|done]|cbn; lia|lia].
Qed.

Lemma sub_digits_ordered_spec a b : wf a -> wf b -> mag b <= mag a ->
  wf (sub_digits_ordered a b) /\ sign (sub_digits_ordered a b) = sign a /\
  mag (sub_digits_ordered a b) = mag a - mag b.
Proof.
  intros Ha Hb Hle. pose proof (hi_le_mag b a Hb Ha Hle).
  pose proof (hi_range a Ha). pose proof (hi_range b Hb).
  pose proof (mag_hi a Ha) as Ma. pose proof (mag_hi b Hb) as Mb. pose proof (drop_hi a Ha) as Da.
  pose proof Ha as (Hs & Hne & La). pose proof Hb as (_ & _ & Lb).
  unfold sub_digits_ordered. set (m := sexp_bignum_hi a) in *. set (n := sexp_bignum_hi b) in *.
  assert (length (take n (data b)) <= length (take m (data a)))%nat as Hle'
    by (rewrite !length_take; lia).
  destruct (sub_loop (take m (data a)) (take n (data b)) 0) as [lo k] eqn:E.
  destruct (sub_loop_spec _ _ 0 _ _ (Forall_take _ m _ La) (Forall_take _ n _ Lb)
    Hle' ltac:(lia) E) as (Hlo & Hlen & Hk & Hv).
  rewrite length_take_le in Hlen, Hv by lia. rewrite take_take, Nat.min_l in Hv by lia.
  rewrite Mb in Hv. rewrite take_drop_commute. replace (n + (m - n))%nat with m by lia.
  assert (dval (take m (data a)) = dval (take n (data a)) + Bp n * dval (drop n (take m (data a)))) as Sp.
  { rewrite (dval_split n (take m (data a))), take_take, Nat.min_l
      by (rewrite ?length_take_le; lia). done. }
  rewrite Ma in Sp. pose proof (dval_range lo Hlo) as Rlo. rewrite Hlen in Rlo.
  pose proof (Bp_pos n).
  destruct (borrow_loop_spec (drop n (take m (data a))) k) as (Hmid & Lmid & Vmid);
    [by apply Forall_drop, Forall_take|done|nia|].
  unfold wf, mag in *; cbn [sign data]. rewrite !dval_app, Vmid, Da, dval_zeros, Hlen.
  split_and!; [done| | |done|nia].
  - destruct lo; [cbn in Hlen; lia|done].
  - repeat apply Forall_app_2; limbs.
Qed.

Lemma sub_digits_spec a b : wf a -> wf b ->
  wf (sexp_bignum_sub_digits a b) /\ mag (sexp_bignum_sub_digits a b) = Z.abs (mag a - mag b).
Proof.
  intros Ha Hb. unfold sexp_bignum_sub_digits. rewrite compare_abs_lt by done.
  destruct (_ || _) eqn:C.
  - assert (mag a <= mag b) as Hle.
    { destruct (decide (mag b <= mag a)) as [Hm|]; [|lia].
      pose proof (hi_le_mag b a Hb Ha Hm).
      apply orb_true_iff in C as [C%Nat.ltb_lt|C]; [lia|].
      apply andb_true_iff in C as [_ C]. lia. }
    destruct (sub_digits_ordered_spec b a Hb Ha Hle) as (? & _ & ->). split; [done|lia].
  - assert (mag b <= mag a) as Hle.
    { destruct (decide (mag a <= mag b)) as [Hm|]; [|lia].
      pose proof (hi_le_mag a b Ha Hb Hm).
      apply orb_false_iff in C as [C1%Nat.ltb_ge C2].
      replace (sexp_bignum_hi a) with (sexp_bignum_hi b) in C2 by lia.
      rewrite Nat.eqb_refl in C2. cbn in C2. lia. }
    destruct (sub_digits_ordered_spec a b Ha Hb Hle) as (? & _ & ->). split; [done|lia].
Qed.

Lemma add_loop_spec ad bd cy r k : limbs ad -> limbs bd -> (length bd <= length ad)%nat ->
  0 <= cy <= 1 -> add_loop false ad bd cy = (r, k) ->
  limbs r /\ length r = length bd /\ 0 <= k <= 1 /\
  dval r + k * Bp (length bd) = dval (take (length bd) ad) + dval bd + cy.
Proof.
  intros Ha Hb. revert ad Ha cy r k. induction Hb as [|y bd [? ?] Hb IH];
    intros ad Ha cy r k Hlen Hcy E; destruct Ha as [|x ad [? ?] Ha]; cbn [length] in Hlen; try lia.
  1, 2: cbn in E; injection E as <- <-; cbn [length take dval]; rewrite Bp_0; split_and!; auto; lia.
  cbn in E. set (c := u64 (u64 (x + y) + cy)) in E. set (k' := _ + _) in E.
  assert (is_u64 c /\ 0 <= k' <= 1 /\ c + k' * 2 ^ 64 = x + y + cy) as (Hc & Hk' & Hv).
  { unfold c, k', uwrap, UINT_MAX. unfold is_u. clear -H H0 H1 H2 Hcy.
    pose proof (Z.div_mod (x + y) (2 ^ 64) ltac:(lia)).
    pose proof (Z.mod_pos_bound (x + y) (2 ^ 64) ltac:(lia)).
    pose proof (Z.div_mod ((x + y) mod 2 ^ 64 + cy) (2 ^ 64) ltac:(lia)).
    pose proof (Z.mod_pos_bound ((x + y) mod 2 ^ 64 + cy) (2 ^ 64) ltac:(lia)).
    zcases; lia. }
  destruct (add_loop false ad bd k') as [r' k''] eqn:E'. injection E as <- <-.
  destruct (IH ad Ha k' r' k'' ltac:(lia) Hk' E') as (Hr & Hlen' & Hk & Hv').
  cbn [length take]. rewrite !dval_cons, Bp_S. split_and!; [by constructor|cbn; lia|lia|lia|nia].
Qed.

Lemma carry_loop_spec cd cy r k : limbs cd -> 0 <= cy <= 1 -> carry_loop cd cy = (r, k) ->
  limbs r /\ length r = length cd /\ 0 <= k <= 1 /\ dval r + k * Bp (length cd) = dval cd + cy.
Proof.
  intros Hc. revert cy r k. induction Hc as [|c cd [? ?] Hc IH]; intros cy r k Hcy E; cbn in E.
  - injection E as <- <-. cbn [length dval]. rewrite Bp_0. split_and!; auto; lia.
  - destruct (Z.eqb_spec cy 0) as [->|].
    { injection E as <- <-. split_and!; [constructor; [unfold is_u; lia|done]|done|lia..]. }
    assert (cy = 1) as -> by lia. unfold UINT_MAX in E.
    destruct (carry_loop cd _) as [r' k'] eqn:E'. injection E as <- <-.
    assert (0 <= (if c =? 2 ^ 64 - 1 then 1 else 0) <= 1) as Hc1 by (case_match; lia).
    destruct (IH _ _ _ Hc1 E') as (Hr & Hlen & Hk & Hv).
    cbn [length]. rewrite !dval_cons, Bp_S.
    split_and!; [constructor; [apply uwrap_range; lia|done]|cbn; lia|lia|lia|].
    destruct (Z.eqb_spec c (2 ^ 64 - 1)) as [->|].
    + change (u64 (2 ^ 64 - 1 + 1)) with 0. nia.
    + rewrite uwrap_id by (unfold is_u; lia). nia.
Qed.

(** The digit-wise sum, for a destination that is not the second operand. *)
Lemma add_digits_ordered_spec dst a b : wf a -> wf b -> (sexp_bignum_hi b <= sexp_bignum_hi a)%nat ->
  (dst = DstB -> (sexp_bignum_hi b < sexp_bignum_hi a)%nat) ->
  wf (add_digits_ordered dst a b) /\ mag (add_digits_ordered dst a b) = mag a + mag b.
Proof.
  intros Ha Hb Hhi Hdst.
  pose proof (hi_range a Ha). pose proof (hi_range b Hb).
  pose proof (mag_hi a Ha) as Ma. pose proof (mag_hi b Hb) as Mb. pose proof (drop_hi a Ha) as Da.
  pose proof Ha as (Hs & Hne & La). pose proof Hb as (_ & _ & Lb).
  unfold add_digits_ordered. set (m := sexp_bignum_hi a) in *. set (n := sexp_bignum_hi b) in *.
  replace (match dst with DstB => (m <=? n)%nat | _ => false end) with false by
    (destruct dst; try done; specialize (Hdst eq_refl); symmetry; apply Nat.leb_gt; lia).
  assert (length (take n (data b)) <= length (take m (data a)))%nat as Hle'
    by (rewrite !length_take; lia).
  destruct (add_loop false (take m (data a)) (take n (data b)) 0) as [lo k] eqn:E.
  destruct (add_loop_spec _ _ 0 _ _ (Forall_take _ m _ La) (Forall_take _ n _ Lb)
    Hle' ltac:(lia) E) as (Hlo & Hlen & Hk & Hv).
  rewrite length_take_le in Hlen, Hv by lia. rewrite take_take, Nat.min_l in Hv by lia.
  rewrite Mb in Hv. rewrite take_drop_commute. replace (n + (m - n))%nat with m by lia.
  assert (dval (take m (data a)) = dval (take n (data a)) + Bp n * dval (drop n (take m (data a)))) as Sp.
  { rewrite (dval_split n (take m (data a))), take_take, Nat.min_l
      by (rewrite ?length_take_le; lia). done. }
  rewrite Ma in Sp.
  destruct (carry_loop (drop n (take m (data a))) k) as [mid k'] eqn:E'.
  destruct (carry_loop_spec _ _ _ _ (Forall_drop _ n _ (Forall_take _ m _ La)) Hk E')
    as (Hmid & Lmid & Hk' & Vmid).
  rewrite length_drop, length_take_le in Lmid, Vmid by lia.
  assert (Bp m = Bp n * Bp (m - n)) as EB by (rewrite <- Bp_add; f_equal; lia).
  rewrite Da. destruct (Z.eqb_spec k' 0) as [->|Hne'].
  - unfold wf, mag in *; cbn [sign data]. rewrite !dval_app, dval_zeros, Hlen.
    split_and!; [done| | |nia].
    + destruct lo; [cbn in Hlen; lia|done].
    + repeat apply Forall_app_2; limbs.
  - assert (k' = 1) as -> by lia.
    unfold wf, mag in *. cbn [sign data].
    rewrite copy_push by (cbn [data]; rewrite !length_app; lia). cbn [data].
    rewrite app_assoc, take_app_le, take_ge by (rewrite length_app; lia).
    rewrite !dval_app, length_app, Hlen, Lmid. replace (n + (m - n))%nat with m by lia. cbn [dval].
    split_and!; [done| | |nia].
    + destruct lo; [cbn in Hlen; lia|done].
    + repeat apply Forall_app_2; auto. repeat constructor; unfold is_u; lia.
Qed.

Lemma add_digits_spec dst a b : wf a -> wf b -> dst <> DstB ->
  wf (sexp_bignum_add_digits dst a b) /\ mag (sexp_bignum_add_digits dst a b) = mag a + mag b.
Proof.
  intros Ha Hb Hd. unfold sexp_bignum_add_digits.
  destruct (Nat.ltb_spec (sexp_bignum_hi a) (sexp_bignum_hi b)).
  - destruct (add_digits_ordered_spec (swap_dst dst) b a) as [? ->]; [done|done|lia|lia|].
    split; [done|lia].
  - by apply add_digits_ordered_spec.
Qed.

(** *** Signed addition and subtraction *)

Lemma bignum_add_spec dst a b : wf a -> wf b -> dst <> DstB ->
  wf (sexp_bignum_add dst a b) /\ bval (sexp_bignum_add dst a b) = bval a + bval b.
Proof.
  intros Ha Hb Hd. unfold sexp_bignum_add. rewrite compare_abs_ge by done.
  pose proof Ha as (Sa & _). pose proof Hb as (Sb & _).
  destruct (Z.eqb_spec (sign a) (sign b)) as [E|Hne].
  - destruct (add_digits_spec dst a b Ha Hb Hd) as [(_ & ? & ?) Hm].
    split; [done|]. unfold bval, mag in *; cbn [sign data]. rewrite Hm, E. ring.
  - destruct (sub_digits_spec a b Ha Hb) as [(_ & ? & ?) Hm].
    split; [split_and!; cbn; [case_match; done|done|done]|].
    unfold bval, mag in *; cbn [sign data]. rewrite Hm.
    destruct Sa as [Ea | Ea], Sb as [Eb | Eb]; rewrite Ea, Eb in *; try done; zcases.
Qed.

Lemma bignum_sub_spec dst a b : wf a -> wf b -> dst <> DstB ->
  wf (sexp_bignum_sub dst a b) /\ bval (sexp_bignum_sub dst a b) = bval a - bval b.
Proof.
  intros Ha Hb Hd. unfold sexp_bignum_sub. rewrite compare_abs_ge by done.
  pose proof Ha as (Sa & _). pose proof Hb as (Sb & _).
  destruct (Z.eqb_spec (sign a) (sign b)) as [E|Hne].
  - destruct (sub_digits_spec a b Ha Hb) as [(_ & ? & ?) Hm].
    split; [split_and!; cbn; [destruct Sa as [-> | ->]; case_match; auto|done|done]|].
    unfold bval, mag in *; cbn [sign data]. rewrite Hm, <- E.
    destruct Sa as [-> | ->]; zcases; lia.
  - destruct (add_digits_spec dst a b Ha Hb Hd) as [(_ & ? & ?) Hm].
    split; [done|]. unfold bval, mag in *; cbn [sign data]. rewrite Hm.
    destruct Sa as [Ea | Ea], Sb as [Eb | Eb]; rewrite Ea, Eb in *; try done; lia.
Qed.

(** *** Multiplication *)

Lemma mag_nonneg a : wf a -> 0 <= mag a.
Proof. intros Ha. by destruct (wf_mag a Ha). Qed.

Lemma bval_pos a : sign a = 1 -> bval a = mag a.
Proof. unfold bval. intros ->. lia. Qed.

Lemma bval_abs a : wf a -> Z.abs (bval a) = mag a.
Proof.
  intros Ha. pose proof (mag_nonneg a Ha). destruct Ha as ([E|E] & _); unfold bval; rewrite E; lia.
Qed.

(** Splitting at [k] limbs, and the bound that makes the recursion on the sum
    of the halves terminate. *)
Lemma split_spec a k : wf a -> (1 <= k)%nat -> (2 * k <= sexp_bignum_hi a)%nat ->
  let '(lo, hi) := sexp_bignum_split a k in
  wf lo /\ sign lo = 1 /\ wf hi /\ sign hi = 1 /\ mag a = mag hi * Bp k + mag lo /\
  2 * (mag hi + mag lo) <= mag a + 1.
Proof.
  intros Ha Hk Hhi. unfold sexp_bignum_split. set (n := sexp_bignum_hi a) in *.
  pose proof Ha as (Hs & Hne & Hl). pose proof (hi_spec a Ha) as (Hn & Hm & Hd & _ & Htop).
  fold n in Hn, Hm, Hd, Htop.
  rewrite length_take_le, Nat.sub_diag by lia. cbn [replicate]. rewrite app_nil_r.
  rewrite take_drop_commute. replace (k + (n - k))%nat with n by lia.
  set (x1 := drop k (take n (data a))). pose proof (dval_take_lt (data a) k Hl) as R0.
  assert (limbs x1) as Hx1 by (unfold x1; limbs). pose proof (dval_nonneg x1 Hx1).
  assert (mag a = dval x1 * Bp k + dval (take k (data a))) as Em.
  { rewrite Hm, (dval_split k (take n (data a))), take_take, Nat.min_l
      by (rewrite ?length_take_le; lia). fold x1. lia. }
  cbn [replicate]. assert (dval (x1 ++ [0]) = dval x1) as E1 by (rewrite dval_app; cbn [dval]; lia).
  change (mag (Bignum 1 (x1 ++ [0]))) with (dval (x1 ++ [0])).
  change (mag (Bignum 1 (take k (data a)))) with (dval (take k (data a))). unfold wf. cbn [sign data]. rewrite E1.
  split_and!; auto; [destruct k; [lia|by destruct (data a)]|limbs|by destruct x1| |].
  { apply Forall_app; split; [done|]. repeat constructor; unfold is_u; lia. }
  pose proof (Bp_ge k Hk). assert (Bp k <= mag a).
  { destruct Htop as [|Htop]; [lia|]. pose proof (Bp_mono k (n - 1) ltac:(lia)). lia. }
  assert (1 <= dval x1) by nia. rewrite Em.
  assert (2 ^ 64 * 1 <= 2 ^ 64) by lia. clear -H0 H1 H2 R0.
  assert (0 <= (dval x1 - 1) * (Bp k - 2)) by (apply Z.mul_nonneg_nonneg; lia). lia.
Qed.

Lemma shift_spec a k : wf a ->
  wf (sexp_bignum_shift a k) /\ sign (sexp_bignum_shift a k) = 1 /\
  mag (sexp_bignum_shift a k) = mag a * Bp k.
Proof.
  intros Ha. pose proof (mag_hi a Ha) as Hm. destruct Ha as (_ & Hne & Hl).
  unfold sexp_bignum_shift, wf, mag. cbn [sign data].
  rewrite !dval_app, !dval_zeros, length_replicate, Hm. unfold mag.
  split_and!; auto; [|repeat apply Forall_app_2; limbs|lia].
  destruct k; [|done]. by destruct (take _ _).
Qed.

Section mul_facts.
Context {T : Type} `{LongUIntOk T}.

(** The combination [z2 B^2k + z1 B^k + z0] of the three partial products. *)
Lemma karatsuba_combine z0 z1 z2 k r0 r1 :
  wf z0 -> wf z1 -> wf z2 -> sign z0 = 1 -> sign z2 = 1 ->
  r0 = sexp_bignum_sub DstNull (sexp_bignum_sub DstNull z1 z0) z2 ->
  r1 = sexp_bignum_add DstA (sexp_bignum_add DstA (sexp_bignum_shift r0 k) z0)
         (sexp_bignum_shift z2 (2 * k)) ->
  bval z0 + bval z2 <= bval z1 ->
  wf r1 /\ mag r1 = bval z2 * (Bp k * Bp k) + (bval z1 - bval z0 - bval z2) * Bp k + bval z0.
Proof.
  intros W0 W1 W2 S0 S2 -> -> Hle.
  destruct (bignum_sub_spec DstNull z1 z0 W1 W0 ltac:(done)) as [W3 V3].
  destruct (bignum_sub_spec DstNull _ z2 W3 W2 ltac:(done)) as [W4 V4].
  destruct (shift_spec _ k W4) as (W5 & S5 & M5). destruct (shift_spec z2 (2 * k) W2) as (W6 & S6 & M6).
  destruct (bignum_add_spec DstA _ z0 W5 W0 ltac:(done)) as [W7 V7].
  destruct (bignum_add_spec DstA _ _ W7 W6 ltac:(done)) as [W8 V8].
  split; [done|]. rewrite <- bval_abs, V8, V7 by done.
  rewrite (bval_pos _ S5), (bval_pos _ S6), M5, M6, <- (bval_abs _ W4), V4, V3.
  rewrite <- (bval_pos _ S2), (Z.abs_eq (bval z1 - _ - _)) by lia.
  replace (2 * k)%nat with (k + k)%nat by lia. rewrite Bp_add. pose proof (Bp_pos k).
  pose proof (mag_nonneg z0 W0). pose proof (mag_nonneg z2 W2).
  rewrite (bval_pos z0 S0), (bval_pos z2 S2) in *. rewrite Z.abs_eq; [ring|].
  assert (0 <= (bval z1 - mag z0 - mag z2) * Bp k) by (apply Z.mul_nonneg_nonneg; lia).
  assert (0 <= mag z2 * (Bp k * Bp k)) by (apply Z.mul_nonneg_nonneg; nia). lia.
Qed.

(** One level: [mul] need only be right on operands of half the size. *)
Lemma mul_ordered_spec mul a b n : wf a -> wf b -> (sexp_bignum_hi b <= sexp_bignum_hi a)%nat ->
  mag a <= 2 * n -> mag b <= 2 * n ->
  (forall x y, 2 ^ 64 <= 2 * n -> wf x -> wf y -> mag x <= n -> mag y <= n ->
     exists c, mul x y = Some c /\ wf c /\ bval c = bval x * bval y /\ sign c = sign x * sign y) ->
  exists c, bignum_mul_ordered mul a b = Some c /\ wf c /\ bval c = bval a * bval b /\
            sign c = sign a * sign b.
Proof.
  intros Wa Wb Hhi Ma Mb Hmul. pose proof (hi_range b Wb). unfold bignum_mul_ordered.
  cut (forall z, wf z -> mag z = mag a * mag b ->
    exists c, (Some z ≫= fun z1 => Some (Bignum (sign a * sign b) (data z1))) = Some c /\
      wf c /\ bval c = bval a * bval b /\ sign c = sign a * sign b).
  2:{ intros z (_ & Hne & Hl) Mz. cbn [mbind option_bind]. eexists; split; [done|].
      unfold wf, bval, mag in *; cbn [sign data]. rewrite Mz. split_and!; try done; [|ring].
      destruct Wa as ([-> | ->] & _), Wb as ([-> | ->] & _); auto. }
  intros Hfin. destruct (Nat.eqb_spec (sexp_bignum_hi b) 1) as [E|].
  - destruct (fxmul_spec (T:=T) FxNull a (rd (data b) 0) 0) as (Wz & Sz & Mz);
      [done|apply limbs_rd; by destruct Wb as (_ & _ & ?)|done|].
    apply Hfin; [done|]. rewrite Mz, (hi_one b Wb E), Bp_0. ring.
  - set (k := (sexp_bignum_hi b / 2)%nat).
    assert (1 <= k /\ 2 * k <= sexp_bignum_hi b)%nat as [Hk1 Hk2].
    { unfold k. pose proof (Nat.div_mod (sexp_bignum_hi b) 2 ltac:(lia)).
      pose proof (Nat.mod_upper_bound (sexp_bignum_hi b) 2 ltac:(lia)). lia. }
    pose proof (hi_many b Wb ltac:(lia)) as Hbig.
    pose proof (split_spec a k Wa Hk1 ltac:(lia)) as Sa.
    pose proof (split_spec b k Wb Hk1 Hk2) as Sb.
    destruct (sexp_bignum_split a k) as [a0 a1], (sexp_bignum_split b k) as [b0 b1].
    destruct Sa as (Wa0 & Sa0 & Wa1 & Sa1 & Ea & La), Sb as (Wb0 & Sb0 & Wb1 & Sb1 & Eb & Lb).
    pose proof (mag_nonneg _ Wa0). pose proof (mag_nonneg _ Wa1).
    pose proof (mag_nonneg _ Wb0). pose proof (mag_nonneg _ Wb1).
    destruct (bignum_add_spec DstNull a1 a0 Wa1 Wa0 ltac:(done)) as [Wz0 Vz0].
    destruct (bignum_add_spec DstNull b1 b0 Wb1 Wb0 ltac:(done)) as [Wz1 Vz1].
    rewrite (bval_pos _ Sa0), (bval_pos _ Sa1) in Vz0. rewrite (bval_pos _ Sb0), (bval_pos _ Sb1) in Vz1.
    pose proof (bval_abs _ Wz0) as Mz0. pose proof (bval_abs _ Wz1) as Mz1.
    destruct (Hmul _ _ ltac:(lia) Wz1 Wz0 ltac:(lia) ltac:(lia)) as (p1 & -> & Wp1 & Vp1 & _).
    destruct (Hmul a0 b0 ltac:(lia) Wa0 Wb0 ltac:(lia) ltac:(lia)) as (p0 & -> & Wp0 & Vp0 & Sp0).
    destruct (Hmul a1 b1 ltac:(lia) Wa1 Wb1 ltac:(lia) ltac:(lia)) as (p2 & -> & Wp2 & Vp2 & Sp2).
    cbn [mbind option_bind]. rewrite Vz0, Vz1 in Vp1.
    rewrite (bval_pos _ Sa0), (bval_pos _ Sb0) in Vp0. rewrite (bval_pos _ Sa1), (bval_pos _ Sb1) in Vp2.
    rewrite Sa0, Sb0 in Sp0. rewrite Sa1, Sb1 in Sp2.
    destruct (karatsuba_combine p0 p1 p2 k _ _ Wp0 Wp1 Wp2 Sp0 Sp2 eq_refl eq_refl) as [Wr Mr].
    { rewrite Vp0, Vp1, Vp2. nia. }
    apply (Hfin _ Wr). rewrite Mr, Vp0, Vp1, Vp2, Ea, Eb. ring.
Qed.

(** With the operands in either order. *)
Lemma mul_either_spec mul a b n : wf a -> wf b -> mag a <= 2 * n -> mag b <= 2 * n ->
  (forall x y, 2 ^ 64 <= 2 * n -> wf x -> wf y -> mag x <= n -> mag y <= n ->
     exists c, mul x y = Some c /\ wf c /\ bval c = bval x * bval y /\ sign c = sign x * sign y) ->
  exists c, (if (sexp_bignum_hi a <? sexp_bignum_hi b)%nat then bignum_mul_ordered mul b a
             else bignum_mul_ordered mul a b) = Some c /\
    wf c /\ bval c = bval a * bval b /\ sign c = sign a * sign b.
Proof.
  intros Wa Wb Ma Mb Hmul. destruct (Nat.ltb_spec (sexp_bignum_hi a) (sexp_bignum_hi b)).
  - rewrite (Z.mul_comm (bval a)), (Z.mul_comm (sign a)). apply mul_ordered_spec with n; done || lia.
  - by apply mul_ordered_spec with n.
Qed.

(** The recursion terminates within [f] levels on operands of at most [f]
    bits, and computes the product. *)
Lemma mul_fuel_spec f a b : wf a -> wf b -> mag a <= 2 ^ Z.of_nat f -> mag b <= 2 ^ Z.of_nat f ->
  exists c, sexp_bignum_mul_fuel (S f) a b = Some c /\ wf c /\ bval c = bval a * bval b /\
            sign c = sign a * sign b.
Proof.
  revert a b. induction f as [|f IH]; intros a b Wa Wb Ma Mb.
  - apply mul_either_spec with 1; done || lia.
  - rewrite Nat2Z.inj_succ, Z.pow_succ_r in Ma, Mb by lia. apply mul_either_spec with (2 ^ Z.of_nat f);
      [done..|lia|]. intros. by apply IH.
Qed.

Lemma mul_spec a b : wf a -> wf b ->
  exists c, sexp_bignum_mul a b = Some c /\ wf c /\ bval c = bval a * bval b /\
            sign c = sign a * sign b.
Proof.
  intros Wa Wb. pose proof (wf_mag a Wa) as Ma. pose proof (wf_mag b Wb) as Mb.
  assert (forall n m, (n <= m)%nat -> Bp n <= 2 ^ Z.of_nat (64 * m)) as Hpow.
  { intros n m Hnm. rewrite Bp_pow. by apply Bp_mono. }
  apply mul_fuel_spec; try done.
  - pose proof (Hpow (length (data a)) (length (data a) + length (data b))%nat ltac:(lia)). lia.
  - pose proof (Hpow (length (data b)) (length (data a) + length (data b))%nat ltac:(lia)). lia.
Qed.

(** Repeated squaring terminates after one step per bit of the exponent. *)
Lemma expt_loop_spec n e res acc : wf res -> wf acc -> 0 <= e < 2 ^ Z.of_nat n ->
  exists c, expt_loop (S n) e res acc = Some c /\ wf c /\ bval c = bval res * bval acc ^ e.
Proof.
  revert e res acc. induction n as [|n IH]; intros e res acc Wr Wa He.
  - assert (e = 0) as -> by (cbn in He; lia). exists res. split_and!; [done|done|].
    rewrite Z.pow_0_r. lia.
  - remember (S n) as n'. cbn [expt_loop].
    destruct (Z.eqb_spec e 0) as [->|]; [exists res; rewrite Z.pow_0_r; split_and!; done || lia|].
    destruct (mul_spec acc acc Wa Wa) as (acc' & Eacc & Wacc & Vacc & _).
    pose proof (Z.mod_pos_bound e 2 ltac:(lia)).
    assert (exists res', (if Z.land e 1 =? 0 then Some res else sexp_bignum_mul res acc) = Some res' /\
      wf res' /\ bval res' = bval res * bval acc ^ (e mod 2)) as (res' & Eres & Wres & Vres).
    { change 1 with (Z.ones 1). rewrite Z.land_ones by lia. change (2 ^ 1) with 2.
      destruct (Z.eqb_spec (e mod 2) 0) as [-> |].
      - exists res. rewrite Z.pow_0_r. split_and!; done || lia.
      - destruct (mul_spec res acc Wr Wa) as (c & -> & Wc & Vc & _).
        exists c. replace (e mod 2) with 1 by lia. rewrite Z.pow_1_r. done. }
    rewrite Eres, Eacc. cbn [mbind option_bind].
    assert (0 <= e / 2 < 2 ^ Z.of_nat n) as He2.
    { rewrite Heqn', Nat2Z.inj_succ, Z.pow_succ_r in He by lia.
      split; [apply Z.div_pos; lia|apply Z.div_lt_upper_bound; lia]. }
    rewrite Z.shiftr_div_pow2 by lia. change (2 ^ 1) with 2.
    destruct (IH (e / 2) res' acc' Wres Wacc He2) as (c & -> & Wc & Vc).
    exists c. split_and!; [done|done|]. rewrite Vc, Vres, Vacc, <- Z.pow_2_r, <- Z.pow_mul_r by lia.
    rewrite <- Z.mul_assoc, <- Z.pow_add_r by lia.
    rewrite (Z.add_comm (e mod 2)), <- Z.div_mod by lia. done.
Qed.
End mul_facts.

(** ** Properties *)

(** Well-formedness of a concrete bignum. *)
Ltac concrete_wf :=
  split; [cbn [sign]; auto|split; [discriminate|]]; cbn [data];
  repeat (constructor; [vm_compute; split; [discriminate|reflexivity]|]); constructor.

(** C8 (functional, termination).  Karatsuba multiplication terminates within
    the fuel and returns the product, on every pair of well-formed bignums and
    with either implementation of the double words; the result is well-formed
    and carries the product of the signs. *)
Theorem bignum_mul_correct {T : Type} `{LongUIntOk T} (a b : bignum) : wf a -> wf b ->
  exists c, sexp_bignum_mul a b = Some c /\ wf c /\ bval c = bval a * bval b /\
            sign c = sign a * sign b.
Proof. apply mul_spec. Qed.

Lemma bignum_mul_correct_witness :
  exists c, sexp_bignum_mul (T:=Portable.sexp_luint_t)
              (Bignum 1 [1; 2; 3]) (Bignum (-1) [UINT_MAX; 5; 0]) = Some c /\ wf c /\
    bval c = bval (Bignum 1 [1; 2; 3]) * bval (Bignum (-1) [UINT_MAX; 5; 0]) /\ sign c = -1.
Proof.
  apply (bignum_mul_correct (Bignum 1 [1; 2; 3]) (Bignum (-1) [UINT_MAX; 5; 0]));
    concrete_wf.
Defined.

(** Signed addition and subtraction of bignums, whatever the
    signs and lengths, including the reuse of the first operand as the
    destination: well-formed, and the sum and difference of the values. *)
Theorem bignum_add_sub_correct (dst : dst_arg) (a b : bignum) : wf a -> wf b -> dst <> DstB ->
  wf (sexp_bignum_add dst a b) /\ bval (sexp_bignum_add dst a b) = bval a + bval b /\
  wf (sexp_bignum_sub dst a b) /\ bval (sexp_bignum_sub dst a b) = bval a - bval b.
Proof.
  intros Ha Hb Hd. destruct (bignum_add_spec dst a b Ha Hb Hd), (bignum_sub_spec dst a b Ha Hb Hd). done.
Qed.

Lemma bignum_add_sub_correct_witness :
  let a := Bignum 1 [UINT_MAX; UINT_MAX] in
  let b := Bignum (-1) [1] in
  wf (sexp_bignum_add DstA a b) /\ bval (sexp_bignum_add DstA a b) = bval a + bval b /\
  wf (sexp_bignum_sub DstA a b) /\ bval (sexp_bignum_sub DstA a b) = bval a - bval b.
Proof.
  apply (bignum_add_sub_correct DstA (Bignum 1 [UINT_MAX; UINT_MAX]) (Bignum (-1) [1]));
    [concrete_wf..|done].
Defined.

(** The operations of a bignum and a machine word: adding to
    and subtracting from the magnitude (the sign flips when the word is the
    larger one), multiplying at a limb offset, and dividing in place with the
    remainder returned.  No carry, borrow or top limb is lost and no limb past
    the array is touched. *)
Theorem bignum_word_correct {T : Type} `{LongUIntOk T} (a : bignum) (w : Z) (offset : nat) :
  wf a -> is_u64 w ->
  bval (sexp_bignum_fxadd a w) = bval a + sign a * w /\
  (exists r, sexp_bignum_fxsub a w = Some r /\ wf r /\ bval r = bval a - sign a * w) /\
  mag (sexp_bignum_fxmul FxNull a w offset) = mag a * w * Bp offset /\
  bval (sexp_bignum_fxmul FxSelf a w 0) = bval a * w /\
  (0 < w -> mag (sexp_bignum_fxdiv a w 0).1 = mag a / w /\ (sexp_bignum_fxdiv a w 0).2 = mag a mod w).
Proof.
  intros Ha Hw. destruct (fxadd_spec a w Ha Hw) as (_ & Sa & Ma).
  destruct (fxmul_spec FxNull a w offset Ha Hw ltac:(done)) as (_ & _ & Mm).
  destruct (fxmul_spec FxSelf a w 0 Ha Hw ltac:(done)) as (_ & Ss & Ms).
  split_and!; [unfold bval; rewrite Sa, Ma; ring|by apply fxsub_spec|by rewrite Mm| |].
  - unfold bval. rewrite Ss, Ms, Bp_0. ring.
  - intros Hw0. pose proof (fxdiv_spec a w Ha Hw Hw0) as Hd. destruct (sexp_bignum_fxdiv a w 0).
    destruct Hd as (_ & _ & _ & ? & ?). done.
Qed.

Lemma bignum_word_correct_witness :
  mag (sexp_bignum_fxdiv (T:=Portable.sexp_luint_t) (Bignum (-1) [7; 0; 5]) 10 0).1
  = mag (Bignum (-1) [7; 0; 5]) / 10.
Proof.
  destruct (bignum_word_correct (T:=Portable.sexp_luint_t) (Bignum (-1) [7; 0; 5]) 10 0)
    as (_ & _ & _ & _ & Hd); [concrete_wf|unfold is_u; lia|].
  apply Hd. lia.
Defined.

(** Normalisation keeps the value and is canonical: the result is a
    fixnum exactly when the value fits one, so equal values have the same
    kind, and equal fixnum representations. *)
Theorem normalize_canonical (x y : exint) : iwf x -> iwf y ->
  let nx := sexp_bignum_normalize x in
  let ny := sexp_bignum_normalize y in
  inormal nx /\ ival nx = ival x /\
  ((exists z, nx = Fix z) <-> SEXP_MIN_FIXNUM <= ival x <= SEXP_MAX_FIXNUM) /\
  (ival x = ival y -> forall z, nx = Fix z <-> ny = Fix z).
Proof.
  intros Hx Hy nx ny. destruct (normalize_spec x Hx) as [Nx Vx], (normalize_spec y Hy) as [Ny Vy].
  fold nx in Nx, Vx. fold ny in Ny, Vy.
  assert (forall n, inormal n -> forall z, n = Fix z <-> SEXP_MIN_FIXNUM <= ival n <= SEXP_MAX_FIXNUM /\ z = ival n) as Hn.
  { intros [u|b] Nn z; cbn in *; [|by split; [|intros [? _]; destruct Nn]].
    split; [by intros [= ->]|by intros [_ ->]]. }
  split_and!; [done|done| |].
  - rewrite <- Vx. split; [intros [z Hz%Hn]; [apply Hz|done]|]. intros. exists (ival nx). by apply Hn.
  - intros E z. rewrite !Hn by done. by rewrite Vx, Vy, E.
Qed.

Lemma normalize_canonical_witness :
  inormal (sexp_bignum_normalize (Big (Bignum (-1) [2 ^ 62; 0]))).
Proof.
  refine (proj1 (normalize_canonical (Big (Bignum (-1) [2 ^ 62; 0])) (Fix (- 2 ^ 62)) _ _)).
  - concrete_wf.
  - vm_compute. split; discriminate.
Defined.
