(* ===== verification/Integers.v ===== *)
(** * Exact integers

    The fixnum and bignum rows of the generic arithmetic of [bignum.c]:
    [sexp_add], [sexp_sub], [sexp_mul] and [sexp_compare], with the promotion
    of fixnums that overflow and the normalisation of bignums that fit. *)
From S2P Require Import Prelude LongLong Limbs Bignum.

(** ** Operations *)

(** The tagged subtraction of [sexp_fx_sub] and [sexp_fx_neg]. *)
Definition sexp_fx_sub (a b : Z) : exint := sexp_make_fixnum (a - b).
Definition sexp_fx_neg (a : Z) : exint := sexp_make_fixnum (- a).

Definition sexp_negate_exact (x : exint) : exint :=
  match x with
  | Big b => Big (Bignum (- sign b) (data b))
  | Fix a => sexp_fx_neg a
  end.

(** The row [SEXP_NUM_FIX_BIG] of [sexp_add]. *)
Definition add_fix_big (a : Z) (b : bignum) : option exint :=
  c ← sexp_bignum_add_fixnum b a; Some (sexp_bignum_normalize (Big c)).

Definition sexp_add (a b : exint) : option exint :=
  match a, b with
  | Fix x, Fix y =>
      let sum := x + y in
      if (sum <? SEXP_MIN_FIXNUM) || (sum >? SEXP_MAX_FIXNUM)
      then add_fix_big y (sexp_fixnum_to_bignum x)
      else Some (sexp_make_fixnum sum)
  | Fix x, Big y => add_fix_big x y
  | Big x, Fix y => add_fix_big y x
  | Big x, Big y => Some (sexp_bignum_normalize (Big (sexp_bignum_add DstNull y x)))
  end.

Definition sexp_sub (a b : exint) : exint :=
  match a, b with
  | Fix x, Fix y => sexp_fx_sub x y
  | Fix x, Big y =>
      let r := sexp_bignum_sub DstNull y (sexp_fixnum_to_bignum x) in
      sexp_bignum_normalize (sexp_negate_exact (Big r))
  | Big x, Fix y =>
      sexp_bignum_normalize (Big (sexp_bignum_sub DstNull x (sexp_fixnum_to_bignum y)))
  | Big x, Big y => sexp_bignum_normalize (Big (sexp_bignum_sub DstNull x y))
  end.

Section mul.
Context {T : Type} `{LongUInt T}.

(** The row [SEXP_NUM_FIX_BIG] of [sexp_mul]. *)
Definition mul_fix_big (a : Z) (b : bignum) : exint :=
  let r := sexp_bignum_fxmul FxNull b (sexp_unbox_fx_abs a) 0 in
  sexp_bignum_normalize (Big (Bignum (sexp_fx_sign a * sign b) (data r))).

Definition sexp_mul (a b : exint) : option exint :=
  match a, b with
  | Fix x, Fix y =>
      let prod := Native.lsint_mul_sint (Native.lsint_from_sint x) y in
      if negb (Native.lsint_is_fixnum prod)
      then Some (mul_fix_big y (sexp_fixnum_to_bignum x))
      else Some (sexp_make_fixnum (Native.lsint_to_sint prod))
  | Fix x, Big y => Some (mul_fix_big x y)
  | Big x, Fix y => Some (mul_fix_big y x)
  | Big x, Big y => c ← sexp_bignum_mul x y; Some (sexp_bignum_normalize (Big c))
  end.
End mul.

(** The row [SEXP_NUM_FIX_BIG] of [sexp_compare]. *)
Definition compare_fix_big (a : Z) (b : bignum) : exint :=
  if (1 <? sexp_bignum_hi b)%nat || (rd (data b) 0 >? SEXP_MAX_FIXNUM)
  then sexp_make_fixnum (if sign b <? 0 then 1 else -1)
  else sexp_make_fixnum (a - s64 (rd (data b) 0)).

Definition sexp_compare (a b : exint) : exint :=
  match a, b with
  | Fix x, Fix y => sexp_make_fixnum (x - y)
  | Fix x, Big y => compare_fix_big x y
  | Big x, Fix y => sexp_negate_exact (compare_fix_big y x)
  | Big x, Big y => sexp_make_fixnum (sexp_bignum_compare x y)
  end.

Definition sexp_exact_negativep (x : exint) : bool :=
  match x with Fix a => a <? 0 | Big b => sign b <? 0 end.
Definition sexp_exact_positivep (x : exint) : bool :=
  match x with Fix a => 0 <? a | Big b => 0 <? sign b end.

(** ** Facts *)

Lemma inormal_iwf x : inormal x -> iwf x.
Proof. destruct x; [done|by intros [? _]]. Qed.
#[global] Hint Resolve inormal_iwf : core.

(** A normal integer is determined by its value up to the limbs of bignums;
    the small ones are fixnums. *)
Lemma inormal_fix x : inormal x -> SEXP_MIN_FIXNUM <= ival x <= SEXP_MAX_FIXNUM -> x = Fix (ival x).
Proof. destruct x; [done|by intros [_ ?] ?]. Qed.

Lemma make_fixnum_id z : SEXP_MIN_FIXNUM <= z <= SEXP_MAX_FIXNUM -> sexp_make_fixnum z = Fix z.
Proof.
  unfold SEXP_MIN_FIXNUM, SEXP_MAX_FIXNUM, sexp_make_fixnum. intros. by rewrite swrap_id by lia.
Qed.

Lemma fixnum_to_bignum_spec x : SEXP_MIN_FIXNUM <= x <= SEXP_MAX_FIXNUM ->
  wf (sexp_fixnum_to_bignum x) /\ bval (sexp_fixnum_to_bignum x) = x /\
  mag (sexp_fixnum_to_bignum x) = Z.abs x.
Proof.
  unfold SEXP_MIN_FIXNUM, SEXP_MAX_FIXNUM. intros Hx.
  unfold sexp_fixnum_to_bignum, sexp_unbox_fx_abs, sexp_fx_sign, wf, bval, mag; cbn [sign data].
  destruct (Z.ltb_spec x 0).
  all: rewrite dval_cons; cbn [dval]; split_and!; auto; try lia.
  all: repeat constructor; unfold is_u; lia.
Qed.

Lemma copy_same a : sexp_copy_bignum None a 0 = a.
Proof.
  unfold sexp_copy_bignum. rewrite !Nat.ltb_irrefl, Nat.sub_diag, app_nil_r, take_ge by lia. by destruct a.
Qed.

Lemma add_fixnum_spec a b : wf a -> SEXP_MIN_FIXNUM <= b <= SEXP_MAX_FIXNUM ->
  exists c, sexp_bignum_add_fixnum a b = Some c /\ wf c /\ bval c = bval a + b.
Proof.
  unfold SEXP_MIN_FIXNUM, SEXP_MAX_FIXNUM. intros Ha Hb. unfold sexp_bignum_add_fixnum.
  rewrite copy_same.
  assert (is_u64 (sexp_unbox_fx_abs b)) as Hu.
  { unfold sexp_unbox_fx_abs, is_u. zcases. }
  pose proof (wf_sign a Ha).
  assert (b = sexp_fx_sign b * sexp_unbox_fx_abs b /\ (sexp_fx_sign b = 1 \/ sexp_fx_sign b = -1)) as [Eb Sb].
  { unfold sexp_unbox_fx_abs, sexp_fx_sign. zcases. }
  set (s := sexp_fx_sign b) in *. set (u := sexp_unbox_fx_abs b) in *. clearbody s u. subst b.
  destruct (Z.eqb_spec (sign a) s) as [E|E].
  - destruct (fxadd_spec a _ Ha Hu) as (W & S & M). eexists; split; [done|]. split; [done|].
    unfold bval. rewrite S, M, E. ring.
  - destruct (fxsub_spec a _ Ha Hu) as (c & -> & W & V). exists c. split_and!; [done..|].
    rewrite V. destruct Ha as (Sa & _).
    assert (sign a = - s) as -> by lia. ring.
Qed.

Lemma add_fix_big_spec a b : SEXP_MIN_FIXNUM <= a <= SEXP_MAX_FIXNUM -> wf b ->
  exists c, add_fix_big a b = Some c /\ inormal c /\ ival c = a + bval b.
Proof.
  intros Ha Hb. unfold add_fix_big. destruct (add_fixnum_spec b a Hb Ha) as (c & -> & W & V).
  cbn [mbind option_bind]. destruct (normalize_spec (Big c) W) as [N E].
  eexists; split_and!; [done..|]. rewrite E. cbn [ival]. lia.
Qed.

(** The sum of two exact integers is a value in normal form. *)
Lemma add_spec a b : iwf a -> iwf b ->
  exists c, sexp_add a b = Some c /\ inormal c /\ ival c = ival a + ival b.
Proof.
  intros Ha Hb. destruct a as [x|x], b as [y|y]; cbn [sexp_add iwf ival] in *.
  - destruct (_ || _) eqn:C.
    + destruct (fixnum_to_bignum_spec x Ha) as (W & V & _).
      destruct (add_fix_big_spec y _ Hb W) as (c & -> & N & E). exists c. split_and!; [done..|lia].
    + assert (SEXP_MIN_FIXNUM <= x + y <= SEXP_MAX_FIXNUM) by lia.
      rewrite make_fixnum_id by done. by eexists.
  - by apply add_fix_big_spec.
  - destruct (add_fix_big_spec y x Hb Ha) as (c & -> & N & E). exists c. split_and!; [done..|lia].
  - destruct (bignum_add_spec DstNull y x Hb Ha ltac:(done)) as [W V].
    destruct (normalize_spec (Big _) W) as [N E]. eexists; split_and!; [done..|].
    rewrite E. cbn [ival]. lia.
Qed.

Lemma negate_big b : wf b ->
  iwf (sexp_negate_exact (Big b)) /\ ival (sexp_negate_exact (Big b)) = - bval b.
Proof.
  intros (S & ? & ?). split; [|cbn; unfold bval, mag; cbn; lia].
  split_and!; cbn [sign data]; [destruct S as [-> | ->]; auto|done|done].
Qed.

Lemma negate_exact_spec x : iwf x -> ival x <> SEXP_MIN_FIXNUM ->
  iwf (sexp_negate_exact x) /\ ival (sexp_negate_exact x) = - ival x.
Proof.
  destruct x as [x|b]; intros Hx Hm; [|by apply negate_big].
  unfold iwf, ival, SEXP_MIN_FIXNUM, SEXP_MAX_FIXNUM, sexp_negate_exact, sexp_fx_neg, sexp_make_fixnum in *.
  rewrite swrap_id by lia. lia.
Qed.

(** Subtraction, for fixnums whose difference is one. *)
Lemma sub_spec a b : iwf a -> iwf b ->
  (forall x y, a = Fix x -> b = Fix y -> SEXP_MIN_FIXNUM <= x - y <= SEXP_MAX_FIXNUM) ->
  inormal (sexp_sub a b) /\ ival (sexp_sub a b) = ival a - ival b.
Proof.
  intros Ha Hb Hf. destruct a as [x|x], b as [y|y]; cbn [sexp_sub iwf ival] in *.
  - unfold sexp_fx_sub. rewrite make_fixnum_id by auto. split; [by apply Hf|done].
  - destruct (fixnum_to_bignum_spec x Ha) as (W & V & _).
    destruct (bignum_sub_spec DstNull y _ Hb W ltac:(done)) as [W' V'].
    destruct (negate_big _ W') as [W'' V'']. destruct (normalize_spec _ W'') as [N E].
    split; [done|]. rewrite E, V''. lia.
  - destruct (fixnum_to_bignum_spec y Hb) as (W & V & _).
    destruct (bignum_sub_spec DstNull x _ Ha W ltac:(done)) as [W' V'].
    destruct (normalize_spec (Big _) W') as [N E]. split; [done|]. rewrite E. cbn [ival]. lia.
  - destruct (bignum_sub_spec DstNull x y Ha Hb ltac:(done)) as [W V].
    destruct (normalize_spec (Big _) W) as [N E]. split; [done|]. by rewrite E.
Qed.

Section mul_facts.
Context {T : Type} `{LongUIntOk T}.

Lemma mul_fix_big_spec a b : SEXP_MIN_FIXNUM <= a <= SEXP_MAX_FIXNUM -> wf b ->
  inormal (mul_fix_big a b) /\ ival (mul_fix_big a b) = a * bval b.
Proof.
  intros Ha Hb. unfold mul_fix_big.
  assert (is_u64 (sexp_unbox_fx_abs a)) as Hu.
  { unfold sexp_unbox_fx_abs, is_u, SEXP_MIN_FIXNUM, SEXP_MAX_FIXNUM in *. zcases. }
  destruct (fxmul_spec (T:=T) FxNull b (sexp_unbox_fx_abs a) 0 Hb Hu ltac:(done)) as ((_ & Hne & Hl) & _ & M).
  set (r := sexp_bignum_fxmul _ _ _ _) in *.
  destruct (normalize_spec (Big (Bignum (sexp_fx_sign a * sign b) (data r)))) as [N E].
  - split_and!; cbn [sign data]; [|done|done]. destruct Hb as ([-> | ->] & _); unfold sexp_fx_sign; zcases.
  - split; [done|]. rewrite E. cbn [ival]. unfold bval, mag in *. cbn [sign data]. rewrite M, Bp_0.
    unfold sexp_fx_sign, sexp_unbox_fx_abs. zcases.
Qed.

Lemma int_mul_spec a b : iwf a -> iwf b ->
  exists c, sexp_mul a b = Some c /\ inormal c /\ ival c = ival a * ival b.
Proof.
  intros Ha Hb. destruct a as [x|x], b as [y|y]; cbn [sexp_mul iwf ival] in *.
  - unfold Native.lsint_mul_sint, Native.lsint_from_sint, Native.lsint_is_fixnum, Native.lsint_to_sint.
    unfold SEXP_MIN_FIXNUM, SEXP_MAX_FIXNUM in *.
    rewrite (swrap_id 128 (x * y)) by nia.
    destruct (_ && _) eqn:C; cbn [negb].
    + rewrite swrap_id by lia. rewrite make_fixnum_id by (unfold SEXP_MIN_FIXNUM, SEXP_MAX_FIXNUM; lia).
      eexists; split_and!; [done| |done]. cbn. unfold SEXP_MIN_FIXNUM, SEXP_MAX_FIXNUM. lia.
    + destruct (fixnum_to_bignum_spec x Ha) as (W & V & _).
      destruct (mul_fix_big_spec y _ Hb W) as [N E]. eexists; split_and!; [done..|]. rewrite E, V. ring.
  - destruct (mul_fix_big_spec x y Ha Hb) as [N E]. by eexists.
  - destruct (mul_fix_big_spec y x Hb Ha) as [N E]. eexists; split_and!; [done..|]. rewrite E. ring.
  - destruct (mul_spec (T:=T) x y Ha Hb) as (c & -> & W & V & _). cbn [mbind option_bind].
    destruct (normalize_spec (Big c) W) as [N E]. eexists; split_and!; [done..|]. by rewrite E.
Qed.
End mul_facts.

(** *** Comparison *)

(** The magnitude of the comparison, whose two operands the code measures with
    an [int]. *)
Lemma compare_abs_bound a b : wf a -> wf b ->
  Z.abs (sexp_bignum_compare_abs a b) <=
  Z.max (Z.of_nat (sexp_bignum_hi a)) (Z.of_nat (sexp_bignum_hi b)).
Proof.
  intros Ha Hb. pose proof (hi_range a Ha). pose proof (hi_range b Hb). unfold sexp_bignum_compare_abs.
  destruct (negb _); [lia|].
  assert (forall n, -1 <= compare_digits (data a) (data b) n <= 1) as Hd.
  { induction n as [|n IH]; cbn -[rd Z.le]; [lia|]. zcases. }
  specialize (Hd (sexp_bignum_hi a)). lia.
Qed.

Lemma bignum_compare_spec a b : wf a -> wf b -> (bval a <> 0 \/ sign a = sign b) ->
  Z.sgn (sexp_bignum_compare a b) = Z.sgn (bval a - bval b) /\
  Z.abs (sexp_bignum_compare a b) <=
    Z.max (Z.of_nat (sexp_bignum_hi a)) (Z.of_nat (sexp_bignum_hi b)).
Proof.
  intros Ha Hb Hz. unfold sexp_bignum_compare. pose proof (hi_range a Ha).
  pose proof (compare_abs_spec a b Ha Hb) as Hs. pose proof (compare_abs_bound a b Ha Hb) as Hbd.
  pose proof (mag_nonneg a Ha). pose proof (mag_nonneg b Hb).
  pose proof Ha as (Sa & _). pose proof Hb as (Sb & _). unfold bval in *.
  destruct (Z.eqb_spec (sign a) (sign b)) as [E|E]; cbn [negb].
  - rewrite <- E. destruct Sa as [Es|Es]; rewrite Es in *; cbn [Z.ltb Z.compare].
    + split; [|done]. rewrite Hs. f_equal. lia.
    + split; [|lia]. rewrite Z.sgn_opp, Hs, <- Z.sgn_opp. f_equal. lia.
  - destruct Hz as [Hz|]; [|done]. split; [|lia].
    destruct Sa as [Es|Es], Sb as [Es'|Es']; rewrite Es, Es' in *; try done.
    + symmetry. apply Z.sgn_pos. lia.
    + symmetry. apply Z.sgn_neg. lia.
Qed.

(** Fixnums whose difference does not overflow, bignums whose length fits the
    [int] of the code. *)
Definition comparable (a b : exint) : Prop :=
  match a, b with
  | Fix x, Fix y => SEXP_MIN_FIXNUM <= x - y <= SEXP_MAX_FIXNUM
  | Big x, Big y => Z.of_nat (sexp_bignum_hi x) < 2 ^ 31 /\ Z.of_nat (sexp_bignum_hi y) < 2 ^ 31
  | _, _ => True
  end.

Lemma compare_fix_big_spec a b : SEXP_MIN_FIXNUM <= a <= SEXP_MAX_FIXNUM -> inormal (Big b) ->
  compare_fix_big a b = Fix (Z.sgn (a - bval b)).
Proof.
  unfold SEXP_MIN_FIXNUM, SEXP_MAX_FIXNUM. intros Ha [Hb Hn].
  unfold SEXP_MIN_FIXNUM, SEXP_MAX_FIXNUM in Hn. cbn [ival] in *. pose proof (mag_nonneg b Hb).
  pose proof Hb as (Sb & _). unfold compare_fix_big.
  assert ((1 <? sexp_bignum_hi b)%nat || (rd (data b) 0 >? SEXP_MAX_FIXNUM) = true) as ->.
  { destruct (Nat.ltb_spec 1 (sexp_bignum_hi b)); [done|]. cbn [orb].
    pose proof (hi_range b Hb). rewrite <- (hi_one b Hb) by lia. unfold SEXP_MAX_FIXNUM, bval in *.
    destruct Sb as [E|E]; rewrite E in *; lia. }
  unfold bval in *. destruct Sb as [E|E]; rewrite E in *; cbn [Z.ltb Z.compare].
  - rewrite Z.sgn_neg by lia. done.
  - rewrite Z.sgn_pos by lia. done.
Qed.

Lemma compare_spec a b : inormal a -> inormal b -> comparable a b ->
  exists c, sexp_compare a b = Fix c /\ Z.sgn c = Z.sgn (ival a - ival b).
Proof.
  intros Ha Hb Hc. destruct a as [x|x], b as [y|y]; cbn [sexp_compare ival comparable inormal] in *.
  - rewrite make_fixnum_id by done. by eexists.
  - rewrite compare_fix_big_spec by done. eexists; split; [done|]. by rewrite Z.sgn_sgn.
  - rewrite compare_fix_big_spec by done. unfold sexp_negate_exact, sexp_fx_neg.
    pose proof (Z.sgn_spec (y - bval x)). rewrite make_fixnum_id by (unfold SEXP_MIN_FIXNUM, SEXP_MAX_FIXNUM; lia).
    eexists; split; [done|]. rewrite Z.sgn_opp, Z.sgn_sgn, <- Z.sgn_opp. f_equal. lia.
  - destruct Ha as [Ha Na], Hb as [Hb Nb].
    destruct (bignum_compare_spec x y Ha Hb) as [Hs Hbd].
    { left. intros E. rewrite E in Na. apply Na. done. }
    rewrite make_fixnum_id by (unfold SEXP_MIN_FIXNUM, SEXP_MAX_FIXNUM; lia). by eexists.
Qed.

(** ** Properties *)

(** Addition and multiplication of exact integers are exact:
    for fixnums in range and well-formed bignums in any combination, with the
    overflow of fixnums promoted to bignums, the result is the integer sum and
    product in normal form.  They never read outside of a limb array. *)
Theorem exact_integer_add_mul {T : Type} `{LongUIntOk T} (a b : exint) : iwf a -> iwf b ->
  (exists c, sexp_add a b = Some c /\ inormal c /\ ival c = ival a + ival b) /\
  (exists c, sexp_mul a b = Some c /\ inormal c /\ ival c = ival a * ival b).
Proof. intros Ha Hb. split; [by apply add_spec|by apply int_mul_spec]. Qed.

Lemma exact_integer_add_mul_witness :
  (exists c, sexp_add (Fix SEXP_MAX_FIXNUM) (Fix SEXP_MAX_FIXNUM) = Some c /\ inormal c /\
     ival c = SEXP_MAX_FIXNUM + SEXP_MAX_FIXNUM) /\
  (exists c, sexp_mul (T:=Z) (Fix SEXP_MAX_FIXNUM) (Fix SEXP_MAX_FIXNUM) = Some c /\ inormal c /\
     ival c = SEXP_MAX_FIXNUM * SEXP_MAX_FIXNUM).
Proof.
  apply (exact_integer_add_mul (T:=Z) (Fix SEXP_MAX_FIXNUM) (Fix SEXP_MAX_FIXNUM));
    vm_compute; split; discriminate.
Defined.

(** Subtraction and comparison of exact integers.  The
    difference is exact in every row but that of two fixnums, where the code
    relies on the virtual machine to have caught the overflow: there it is the
    difference wrapped to a fixnum.  The comparison of normal integers has the
    sign of the difference, but for two fixnums whose difference overflows,
    where it has the sign of the wrapped difference. *)
Theorem exact_integer_sub_compare (a b : exint) : inormal a -> inormal b ->
  (forall x y, a = Big x -> b = Big y ->
     Z.of_nat (sexp_bignum_hi x) < 2 ^ 31 /\ Z.of_nat (sexp_bignum_hi y) < 2 ^ 31) ->
  let diff := match a, b with Fix _, Fix _ => swrap 63 (ival a - ival b) | _, _ => ival a - ival b end in
  inormal (sexp_sub a b) /\ ival (sexp_sub a b) = diff /\
  exists c, sexp_compare a b = Fix c /\ Z.sgn c = Z.sgn diff.
Proof.
  intros Ha Hb Hlen diff. destruct a as [x|x], b as [y|y].
  1: { unfold diff. cbn [sexp_sub sexp_compare sexp_fx_sub sexp_make_fixnum ival].
    split_and!; [|done|by eexists]. cbn [inormal sexp_fx_sub sexp_make_fixnum].
    unfold SEXP_MIN_FIXNUM, SEXP_MAX_FIXNUM. pose proof (swrap_range 63 (x - y) ltac:(lia)). lia. }
  all: match goal with |- context [sexp_compare ?a ?b] =>
         destruct (sub_spec a b ltac:(auto) ltac:(auto) ltac:(done)) as [Ns Vs];
         destruct (compare_spec a b Ha Hb ltac:(cbn; auto)) as (c & Ec & Sc) end;
       split_and!; [exact Ns|exact Vs|by exists c].
Qed.

Lemma exact_integer_sub_compare_witness :
  let a := Fix SEXP_MIN_FIXNUM in
  let b := Big (Bignum 1 [2 ^ 62]) in
  inormal (sexp_sub a b) /\ ival (sexp_sub a b) = ival a - ival b /\
  exists c, sexp_compare a b = Fix c /\ Z.sgn c = Z.sgn (ival a - ival b).
Proof.
  refine (exact_integer_sub_compare (Fix SEXP_MIN_FIXNUM) (Big (Bignum 1 [2 ^ 62])) _ _ _).
  - vm_compute. split; discriminate.
  - split; [concrete_wf|]. vm_compute. intros [_ H]. by apply H.
  - discriminate.
Defined.
