(* ===== verification/Division.v ===== *)
(** * Long division

    [sexp_bignum_quot_rem] of [bignum.c]: the quotient is accumulated from
    double-word estimates that may overshoot, in which case the remainder
    changes sign and the next estimate is subtracted. *)
From S2P Require Import Prelude LongLong Limbs Bignum Integers.

Section quot_rem.
Context {T : Type} `{LongUInt T}.

(** ** Operations *)

(** The two top limbs as a double word. *)
Definition top2 (ds : list Z) (n : nat) : T :=
  luint_add_uint (luint_shl (luint_from_uint (rd ds (n - 1))) 64) (rd ds (n - 2)).

(** Whether a limb leaves room for half a word more. *)
Definition half_limb (v : Z) : bool :=
  luint_lt (luint_from_uint v) (luint_shl (luint_from_uint 1) 32).

(** The double word shifted by half a word, with the top half of [w]. *)
Definition shift_in (v : T) (w : Z) : T := luint_add_uint (luint_shl v 32) (ushr w 32).

(** "guess divisor x": the offset and the double word of the estimate.
    [None] is a read of [data[alen-3]] below the array. *)
Definition qr_estimate (ad bd : list Z) (alen blen : nat) : option (nat * T) :=
  let off := (alen - blen + 1)%nat in
  let halves := half_limb (rd ad (alen - 1)) && half_limb (rd bd (blen - 1)) in
  let dn := top2 ad alen in
  let dd := top2 bd blen in
  let '(dn, dd) :=
    if (2 <? alen)%nat && (2 <? blen)%nat && halves
    then (shift_in dn (rd ad (alen - 3)), shift_in dd (rd bd (blen - 3)))
    else (dn, dd) in
  let d := luint_div dn dd in
  if luint_eq d (luint_from_uint 0) then
    let dn := top2 ad alen in
    let dd := luint_from_uint (rd bd (blen - 1)) in
    if halves then
      if (alen <? 3)%nat then None
      else Some ((off - 1)%nat,
                 luint_div (shift_in dn (rd ad (alen - 3))) (shift_in dd (rd bd (blen - 2))))
    else Some ((off - 1)%nat, luint_div dn dd)
  else Some (off, d).

(** The estimate [x], updated in place: the limbs of the previous estimate are
    cleared and those of [d] written at [off]. *)
Definition qr_clear (x : list Z) (off : nat) : list Z :=
  let x := wr x off 0 in if (0 <? off)%nat then wr x (off - 1) 0 else x.

Definition qr_write (x : list Z) (off : nat) (d : T) : list Z :=
  let dhi := luint_to_uint (luint_shr d 64) in
  let dlo := luint_to_uint (luint_and d (luint_sub (luint_shl (luint_from_uint 1) 64)
                                           (luint_from_uint 1))) in
  let x := wr x off dhi in if (0 <? off)%nat then wr x (off - 1) dlo else x.

Record qr_state := QR { qr_q : exint; qr_a1 : bignum; qr_x : list Z; qr_off : nat; qr_sign : Z }.

(** The body of the loop. *)
Definition qr_step (b1 : bignum) (st : qr_state) : option qr_state :=
  let '(QR q a1 x off sgn) := st in
  let x := qr_clear x off in
  '(off, d) ← qr_estimate (data a1) (data b1) (sexp_bignum_hi a1) (sexp_bignum_hi b1);
  let x := qr_write x off d in
  y ← sexp_bignum_mul b1 (Bignum 1 x);
  '(a1, q) ← (if sgn <? 0
              then Some (sexp_bignum_add DstNull a1 y, sexp_sub q (Big (Bignum 1 x)))
              else q ← sexp_add q (Big (Bignum 1 x)); Some (sexp_bignum_sub DstNull a1 y, q));
  (* flip the sign if we overshot in our estimate *)
  Some (if negb (sign a1 =? sgn)
        then QR q (Bignum (- sgn) (data a1)) x off (- sgn)
        else QR q a1 x off sgn).

Fixpoint qr_loop (fuel : nat) (b1 : bignum) (st : qr_state) : option qr_state :=
  match fuel with
  | O => None
  | S fuel =>
      if sexp_bignum_compare_abs (qr_a1 st) b1 >=? 0
      then st ← qr_step b1 st; qr_loop fuel b1 st
      else Some st
  end.

Inductive quot_rem_result := QuotRem (q rem : exint) | QuotRemDivideByZero.

(** Each iteration at least halves the remainder, so one per bit of [a] is
    enough fuel. *)
Definition sexp_bignum_quot_rem (a b : bignum) : option quot_rem_result :=
  let blen := sexp_bignum_hi b in
  if (blen =? 1)%nat && (rd (data b) 0 =? 0) then Some QuotRemDivideByZero
  else
    let a1 := Bignum 1 (data (sexp_copy_bignum None a 0)) in
    let signs (q rem : exint) :=
      QuotRem (if sign a * sign b <? 0 then sexp_negate_exact q else q)
              (if sign a <? 0 then sexp_negate_exact rem else rem) in
    if (blen =? 1)%nat then
      let '(a1, r) := sexp_bignum_fxdiv a1 (rd (data b) 0) 0 in
      Some (signs (Big a1) (sexp_bignum_normalize (Big (Bignum 1 [r]))))
    else
      let b1 := Bignum 1 (data (sexp_copy_bignum None b 0)) in
      st ← qr_loop (S (64 * length (data a))) b1
             (QR (Fix 0) a1 (replicate (length (data a)) 0) 0 1);
      let rem := sexp_bignum_normalize (Big (qr_a1 st)) in
      if (qr_sign st <? 0) && negb (match rem with Fix 0 => true | _ => false end)
      then rem ← sexp_add rem (Big b1);
           Some (signs (sexp_sub (qr_q st) (Fix 1)) rem)
      else Some (signs (qr_q st) rem).

Definition sexp_bignum_quotient (a b : bignum) : option (option exint) :=
  r ← sexp_bignum_quot_rem a b;
  Some (match r with QuotRem q _ => Some q | QuotRemDivideByZero => None end).

Definition sexp_bignum_remainder (a b : bignum) : option (option exint) :=
  r ← sexp_bignum_quot_rem a b;
  Some (match r with QuotRem _ rem => Some rem | QuotRemDivideByZero => None end).
End quot_rem.

(** ** The estimate *)

(** A quotient of prefixes is within a factor that halves the remainder. *)
Lemma estimate_bound A b ua ub P : 0 < ua -> 0 < ub -> ua = ub * P -> 0 < P -> 0 <= A ->
  2 <= b / ub -> 1 <= (A / ua) / (b / ub) ->
  2 * Z.abs (A - b * ((A / ua) / (b / ub) * P)) <= A.
Proof.
  intros Hua Hub Eu HP HA Hdd Hd.
  pose proof (Z.div_mod A ua ltac:(lia)) as EA. pose proof (Z.mod_pos_bound A ua Hua).
  pose proof (Z.div_mod b ub ltac:(lia)) as Eb. pose proof (Z.mod_pos_bound b ub Hub).
  set (dn := A / ua) in *. set (dd := b / ub) in *.
  pose proof (Z.div_mod dn dd ltac:(lia)) as Ed. pose proof (Z.mod_pos_bound dn dd ltac:(lia)).
  set (d := dn / dd) in *. set (ra := A mod ua) in *. set (rb := b mod ub) in *.
  set (rd := dn mod dd) in *. clearbody ra rb rd d dn dd.
  assert (b * (d * P) = dd * d * ua + rb * d * P) as E by (rewrite Eb, Eu; ring).
  assert (0 <= rb * d * P) by (repeat apply Z.mul_nonneg_nonneg; lia).
  assert (rb * d * P <= d * ua).
  { rewrite Eu. replace (rb * d * P) with (d * P * rb) by ring.
    replace (d * (ub * P)) with (d * P * ub) by ring. apply Z.mul_le_mono_nonneg_l; [|lia].
    apply Z.mul_nonneg_nonneg; lia. }
  rewrite E. clear E Eb Eu.
  assert (2 * (d * ua) <= dn * ua) by nia.
  assert (dn * ua = dd * d * ua + rd * ua) by nia.
  assert ((rd + 1) * ua <= dd * ua) by (apply Z.mul_le_mono_nonneg_r; lia).
  assert (dd * ua <= dd * d * ua) by (apply Z.mul_le_mono_nonneg_r; nia).
  nia.
Qed.

(** The prefix with half a limb more. *)
Lemma dval_div_half ds k : limbs ds ->
  dval ds / (Bp k * 2 ^ 32) = dval (drop (S k) ds) * 2 ^ 32 + rd ds k / 2 ^ 32.
Proof.
  intros Hds. pose proof (Bp_pos k). rewrite <- Z.div_div, dval_div, dval_drop_S by (done || lia).
  replace (rd ds k + 2 ^ 64 * dval (drop (S k) ds))
    with (rd ds k + (dval (drop (S k) ds) * 2 ^ 32) * 2 ^ 32) by ring.
  rewrite Z.div_add by lia. lia.
Qed.

Section quot_rem_facts.
Context {T : Type} `{LongUIntOk T}.

Lemma top2_spec ds n : limbs ds -> (2 <= n)%nat -> drop n ds = replicate (length ds - n) 0 ->
  lok (top2 ds n) /\ lval (top2 ds n) = dval ds / Bp (n - 2) /\ rd ds (n - 1) = dval ds / Bp (n - 1).
Proof.
  intros Hds Hn Hd. pose proof (limbs_rd ds (n - 1) Hds) as H1. pose proof (limbs_rd ds (n - 2) Hds) as H2.
  assert (rd ds (n - 1) = dval (drop (n - 1) ds)) as E1.
  { rewrite dval_drop_S. replace (S (n - 1)) with n by lia. rewrite Hd, dval_zeros. lia. }
  destruct (from_uint_ok _ H1) as [O V]. destruct (luint_shl_spec _ 64 O ltac:(lia)) as [O' V'].
  destruct (luint_add_uint_spec _ _ O' H2) as [O'' V'']. split; [done|].
  rewrite !dval_div by done. split; [|done].
  unfold top2. rewrite V'', V', V, (dval_drop_S ds (n - 2)). replace (S (n - 2)) with (n - 1)%nat by lia.
  rewrite <- E1, Zplus_mod_idemp_l, Z.mod_small; unfold is_u in *; lia.
Qed.

Lemma half_limb_spec v : is_u64 v -> half_limb (T:=T) v = (v <? 2 ^ 32).
Proof.
  intros Hv. unfold half_limb. destruct (from_uint_ok _ Hv) as [O V].
  destruct (from_uint_ok (T:=T) 1) as [O1 V1]; [unfold is_u; lia|].
  destruct (luint_shl_spec _ 32 O1 ltac:(lia)) as [O' V'].
  rewrite luint_lt_spec, V, V', V1 by done. done.
Qed.

Lemma shift_in_spec v w : lok v -> is_u64 w -> lval v < 2 ^ 96 ->
  lok (shift_in v w) /\ lval (shift_in v w) = lval v * 2 ^ 32 + w / 2 ^ 32.
Proof.
  intros O Hw Hv. pose proof (lval_range v O) as [? _]. destruct (luint_shl_spec v 32 O ltac:(lia)) as [O' V'].
  assert (is_u64 (ushr w 32) /\ ushr w 32 = w / 2 ^ 32 /\ w / 2 ^ 32 < 2 ^ 32) as (Hu & Eu & Hs).
  { rewrite ushr_div by lia. unfold is_u in *.
    split_and!; [apply Z.div_pos; lia|apply Z.div_lt_upper_bound; lia|done|apply Z.div_lt_upper_bound; lia]. }
  destruct (luint_add_uint_spec _ _ O' Hu) as [O'' V'']. split; [done|].
  unfold shift_in. rewrite V'', V', Eu, Zplus_mod_idemp_l, Z.mod_small; unfold is_u in *; lia.
Qed.

(** [v] is the quotient of [A] by [u]. *)
Definition prefix (v : T) (A u : Z) : Prop := lok v /\ lval v = A / u.

(** A list whose [n]th limb from below is the top one. *)
Definition top_at (ds : list Z) (n : nat) : Prop :=
  limbs ds /\ (2 <= n)%nat /\ drop n ds = replicate (length ds - n) 0 /\ Bp (n - 1) <= dval ds < Bp n.

Lemma top_at_hi a : wf a -> (2 <= sexp_bignum_hi a)%nat -> top_at (data a) (sexp_bignum_hi a).
Proof.
  intros Ha Hh. destruct (hi_spec a Ha) as (? & ? & ? & ? & [?|?]); [lia|].
  split_and!; try done. by destruct Ha as (_ & _ & ?).
Qed.

Lemma prefix_top2 ds n : top_at ds n -> prefix (top2 ds n) (dval ds) (Bp (n - 2)).
Proof. intros (Hl & Hn & Hd & _). destruct (top2_spec ds n Hl Hn Hd) as (? & ? & _). done. Qed.

Lemma top_limb ds n : top_at ds n -> rd ds (n - 1) = dval ds / Bp (n - 1).
Proof. intros (Hl & Hn & Hd & _). by destruct (top2_spec ds n Hl Hn Hd) as (_ & _ & ?). Qed.

Lemma prefix_top1 ds n : top_at ds n -> prefix (luint_from_uint (rd ds (n - 1))) (dval ds) (Bp (n - 1)).
Proof.
  intros Ht. pose proof (top_limb ds n Ht) as E. destruct Ht as (Hl & _).
  destruct (from_uint_ok _ (limbs_rd ds (n - 1) Hl)) as [O V]. split; [done|]. by rewrite V.
Qed.

Lemma prefix_half v ds k : limbs ds -> prefix v (dval ds) (Bp (S k)) -> lval v < 2 ^ 96 ->
  prefix (shift_in v (rd ds k)) (dval ds) (Bp k * 2 ^ 32).
Proof.
  intros Hl [O V] Hv. destruct (shift_in_spec v _ O (limbs_rd ds k Hl) Hv) as [O' V'].
  split; [done|]. rewrite V', dval_div_half, V, dval_div by done. done.
Qed.

Lemma prefix_top2_half ds n : top_at ds n -> (3 <= n)%nat -> rd ds (n - 1) < 2 ^ 32 ->
  prefix (shift_in (top2 ds n) (rd ds (n - 3))) (dval ds) (Bp (n - 3) * 2 ^ 32).
Proof.
  intros Ht Hn Hs. pose proof (prefix_top2 ds n Ht) as [O V]. rewrite (top_limb ds n Ht) in Hs.
  destruct Ht as (Hl & _). apply prefix_half; [done| |].
  - split; [done|]. by replace (S (n - 3)) with (n - 2)%nat by lia.
  - rewrite V. apply Z.div_lt_upper_bound; [apply Bp_pos|].
    replace (n - 1)%nat with (S (n - 2)) in Hs by lia. rewrite Bp_S in Hs. pose proof (Bp_pos (n - 2)).
    rewrite (Z.mul_comm (2 ^ 64)), <- Z.div_div in Hs by lia.
    pose proof (Z.div_mod (dval ds / Bp (n - 2)) (2 ^ 64) ltac:(lia)).
    pose proof (Z.mod_pos_bound (dval ds / Bp (n - 2)) (2 ^ 64) ltac:(lia)).
    pose proof (Z.div_mod (dval ds) (Bp (n - 2)) ltac:(lia)).
    pose proof (Z.mod_pos_bound (dval ds) (Bp (n - 2)) ltac:(lia)). nia.
Qed.

Lemma prefix_top1_half ds n : top_at ds n -> rd ds (n - 1) < 2 ^ 32 ->
  prefix (shift_in (luint_from_uint (rd ds (n - 1))) (rd ds (n - 2))) (dval ds) (Bp (n - 2) * 2 ^ 32).
Proof.
  intros Ht Hs. pose proof (prefix_top1 ds n Ht) as [O V]. pose proof (top_limb ds n Ht) as E.
  destruct Ht as (Hl & ? & _). apply prefix_half; [done| |lia].
  split; [done|]. by replace (S (n - 2)) with (n - 1)%nat by lia.
Qed.

(** The division of two prefixes is an estimate that halves the remainder. *)
Lemma estimate_div (dn dd : T) A b ua ub P : prefix dn A ua -> prefix dd b ub ->
  0 < ub -> ua = ub * P -> 0 < P -> 0 <= A -> 2 <= b / ub ->
  lok (luint_div dn dd) /\
  (1 <= lval (luint_div dn dd) -> 2 * Z.abs (A - b * (lval (luint_div dn dd) * P)) <= A) /\
  lval (luint_div dn dd) = (A / ua) / (b / ub).
Proof.
  intros [On Vn] [Od Vd] Hub Eu HP HA Hdd.
  destruct (luint_div_spec dn dd On Od) as [O V]; [lia|]. split; [done|]. rewrite V, Vn, Vd.
  split; [|done]. intros. eapply estimate_bound; eauto. rewrite Eu. lia.
Qed.
Lemma Bp_shift n m : (m <= n)%nat -> Bp n = Bp m * Bp (n - m).
Proof. intros. rewrite <- Bp_add. f_equal. lia. Qed.

Lemma Bp_pred n : (1 <= n)%nat -> Bp n = 2 ^ 64 * Bp (n - 1).
Proof. intros. rewrite <- Bp_S. f_equal. lia. Qed.

(** The first guess: both operands cut at the same place. *)
Lemma first_guess ad bd n m : top_at ad n -> top_at bd m -> (m <= n)%nat ->
  let halves := half_limb (T:=T) (rd ad (n - 1)) && half_limb (T:=T) (rd bd (m - 1)) in
  exists dn dd ua ub,
    (if (2 <? n)%nat && (2 <? m)%nat && halves
     then (shift_in (top2 ad n) (rd ad (n - 3)), shift_in (top2 bd m) (rd bd (m - 3)))
     else (top2 ad n, top2 bd m)) = (dn, dd) /\
    prefix dn (dval ad) ua /\ prefix dd (dval bd) ub /\ 0 < ub /\ ua = ub * Bp (n - m) /\
    2 <= dval bd / ub /\
    ((2 < m)%nat /\ halves = true \/ ua = Bp (n - 2) /\ ub = Bp (m - 2)).
Proof.
  intros Ha Hb Hmn halves. pose proof Ha as (La & Hn & _ & Ra). pose proof Hb as (Lb & Hm & _ & Rb).
  pose proof (Bp_pos (m - 2)). pose proof (Bp_pos (m - 3)).
  pose proof (Bp_pred (m - 1) ltac:(lia)) as E1. replace (m - 1 - 1)%nat with (m - 2)%nat in E1 by lia.
  destruct ((2 <? n)%nat && (2 <? m)%nat && halves) eqn:C.
  - apply andb_true_iff in C as [C Hh]. apply andb_true_iff in C as [C1%Nat.ltb_lt C2%Nat.ltb_lt].
    pose proof Hh as Hh'. apply andb_true_iff in Hh as [H1' H2'].
    rewrite half_limb_spec in H1', H2' by (by apply limbs_rd).
    do 4 eexists; split; [done|].
    split; [apply prefix_top2_half; done || lia|]. split; [apply prefix_top2_half; done || lia|].
    pose proof (Bp_pred (m - 2) ltac:(lia)) as E2. replace (m - 2 - 1)%nat with (m - 3)%nat in E2 by lia.
    split_and!; [lia| | |by left].
    + rewrite (Bp_shift (n - 3) (m - 3)) by lia. replace (n - 3 - (m - 3))%nat with (n - m)%nat by lia. ring.
    + apply Z.div_le_lower_bound; lia.
  - do 4 eexists; split; [done|].
    split; [by apply prefix_top2|]. split; [by apply prefix_top2|].
    split_and!; [lia| | |by right].
    + rewrite (Bp_shift (n - 2) (m - 2)) by lia. do 2 f_equal. lia.
    + apply Z.div_le_lower_bound; lia.
Qed.

(** The second guess, one limb lower, when the first one is zero. *)
Lemma second_guess ad bd n m : top_at ad n -> top_at bd m -> (m < n)%nat ->
  let halves := half_limb (T:=T) (rd ad (n - 1)) && half_limb (T:=T) (rd bd (m - 1)) in
  (halves = false -> dval ad / Bp (n - 2) < dval bd / Bp (m - 2)) ->
  exists d, (if halves
             then luint_div (shift_in (top2 ad n) (rd ad (n - 3)))
                    (shift_in (luint_from_uint (rd bd (m - 1))) (rd bd (m - 2)))
             else luint_div (top2 ad n) (luint_from_uint (rd bd (m - 1)))) = d /\ lok d /\
    2 * Z.abs (dval ad - dval bd * (lval d * Bp (n - m - 1))) <= dval ad.
Proof.
  intros Ha Hb Hmn halves Hfirst. eexists; split; [done|].
  pose proof Ha as (La & Hn & _ & Ra). pose proof Hb as (Lb & Hm & _ & Rb).
  pose proof (top_limb _ _ Ha) as Ta. pose proof (top_limb _ _ Hb) as Tb.
  pose proof (Bp_pos (m - 2)). pose proof (Bp_pos (n - m - 1)). pose proof (Bp_pos (n - 3)).
  pose proof (Bp_pred (m - 1) ltac:(lia)) as E1. replace (m - 1 - 1)%nat with (m - 2)%nat in E1 by lia.
  pose proof (Bp_pred (n - 1) ltac:(lia)) as E2. replace (n - 1 - 1)%nat with (n - 2)%nat in E2 by lia.
  pose proof (Bp_pred (n - 2) ltac:(lia)) as E3. replace (n - 2 - 1)%nat with (n - 3)%nat in E3 by lia.
  pose proof (Bp_pred m ltac:(lia)) as E4. pose proof (Bp_pred n ltac:(lia)) as E5.
  pose proof (dval_nonneg ad La). unfold halves in *. clear halves.
  rewrite !half_limb_spec in Hfirst by (by apply limbs_rd).
  rewrite !half_limb_spec by (by apply limbs_rd).
  destruct (_ && _) eqn:C.
  - destruct (estimate_div _ _ _ _ _ _ (Bp (n - m - 1)) (prefix_top2_half _ _ Ha ltac:(lia) ltac:(lia))
      (prefix_top1_half _ _ Hb ltac:(lia))) as (O & Hest & V); try done; try lia.
    + rewrite (Bp_shift (n - 3) (m - 2)) by lia. replace (n - 3 - (m - 2))%nat with (n - m - 1)%nat by lia. ring.
    + apply Z.div_le_lower_bound; lia.
    + split; [done|]. apply Hest. rewrite V.
      pose proof (Z.mul_succ_div_gt (dval bd) (Bp (m - 1)) ltac:(lia)) as Hb'. rewrite <- Tb in Hb'.
      apply Z.div_le_lower_bound.
      * apply Z.lt_le_trans with (2 ^ 32); [lia|]. apply Z.div_le_lower_bound; lia.
      * transitivity (2 ^ 64); [|apply Z.div_le_lower_bound; lia].
        rewrite Z.mul_1_r. apply Z.lt_le_incl, Z.div_lt_upper_bound; nia.
  - assert (2 ^ 32 <= dval bd / Bp (m - 1)) as Htb.
    { specialize (Hfirst eq_refl). apply (Z.lt_le_incl), (Z.div_le_mono _ _ (2 ^ 64)) in Hfirst; [|lia].
      rewrite !Z.div_div, !(Z.mul_comm _ (2 ^ 64)), <- E1, <- E2, <- Ta, <- Tb in Hfirst by (lia || apply Bp_pos).
      lia. }
    destruct (estimate_div _ _ _ _ _ _ (Bp (n - m - 1)) (prefix_top2 _ _ Ha) (prefix_top1 _ _ Hb))
      as (O & Hest & V); try done; try lia.
    + rewrite (Bp_shift (n - 2) (m - 1)) by lia. do 2 f_equal. lia.
    + split; [done|]. apply Hest. rewrite V. apply Z.div_le_lower_bound; [lia|].
      transitivity (2 ^ 64); [|apply Z.div_le_lower_bound; lia].
      rewrite Z.mul_1_r. apply Z.lt_le_incl, Z.div_lt_upper_bound; lia.
Qed.

Lemma estimate_spec ad bd n m : top_at ad n -> top_at bd m -> (m <= n)%nat -> dval bd <= dval ad ->
  exists off d, qr_estimate ad bd n m = Some (off, d) /\ lok d /\ (1 <= off <= n - m + 1)%nat /\
    2 * Z.abs (dval ad - dval bd * (lval d * Bp (off - 1))) <= dval ad.
Proof.
  intros Ha Hb Hmn Hle. unfold qr_estimate.
  destruct (first_guess ad bd n m Ha Hb Hmn) as (dn & dd & ua & ub & -> & Pn & Pd & Hub & Eu & Hdd & Hcase).
  pose proof (Bp_pos (n - m)). pose proof Ha as (La & Hn & _). pose proof Hb as (_ & Hm & _).
  pose proof (dval_nonneg ad La).
  destruct (estimate_div _ _ _ _ _ _ _ Pn Pd Hub Eu) as (O & Hest & V); try done.
  destruct (from_uint_ok (T:=T) 0) as [O0 V0]; [unfold is_u; lia|].
  rewrite luint_eq_spec, V0 by done. destruct (Z.eqb_spec (lval (luint_div dn dd)) 0) as [E|E].
  - assert (dval ad / ua < dval bd / ub) as Hlt.
    { destruct (decide (dval bd / ub <= dval ad / ua)) as [Hge|]; [|lia].
      pose proof (Z.div_le_lower_bound (dval ad / ua) (dval bd / ub) 1 ltac:(lia) ltac:(lia)). lia. }
    assert (m < n)%nat as Hmn'.
    { destruct (decide (n = m)) as [->|]; [|lia]. rewrite Nat.sub_diag, Bp_0, Z.mul_1_r in Eu. subst ua.
      pose proof (Z.div_le_mono _ _ ub Hub Hle). lia. }
    destruct (second_guess ad bd n m Ha Hb Hmn') as (d & Ed & Od & Hd).
    { intros Hh. destruct Hcase as [[_ Ht]|[-> ->]]; [congruence|done]. }
    exists (n - m)%nat, d. destruct (_ && _).
    + destruct (Nat.ltb_spec n 3); [lia|]. rewrite Ed. split_and!; try done; try lia. do 2 f_equal. lia.
    + rewrite Ed. split_and!; try done; try lia. do 2 f_equal. lia.
  - pose proof (lval_range _ O) as [? _]. exists (n - m + 1)%nat, (luint_div dn dd).
    split_and!; [done..|lia|lia|]. replace (n - m + 1 - 1)%nat with (n - m)%nat by lia. apply Hest. lia.
Qed.

(** *** The estimate object *)

Lemma low_word d : lok d ->
  luint_to_uint (luint_and d (luint_sub (luint_shl (luint_from_uint 1) 64) (luint_from_uint 1)))
  = lval d mod 2 ^ 64 /\
  luint_to_uint (luint_shr d 64) = lval d / 2 ^ 64 /\ is_u64 (lval d / 2 ^ 64).
Proof.
  intros O. pose proof (lval_range d O) as [? ?].
  destruct (from_uint_ok (T:=T) 1) as [O1 V1]; [unfold is_u; lia|].
  destruct (luint_shl_spec _ 64 O1 ltac:(lia)) as [O2 V2].
  destruct (luint_sub_spec _ _ O2 O1) as [O3 V3]. destruct (luint_and_spec _ _ O O3) as [O4 V4].
  destruct (luint_shr_spec d 64 O ltac:(lia)) as [O5 V5].
  assert (is_u64 (lval d / 2 ^ 64)) as Hu.
  { split; [apply Z.div_pos; lia|apply Z.div_lt_upper_bound; lia]. }
  rewrite !to_uint_spec, V4, V5, V3, V2, V1 by done. split; [|split; [|done]].
  - change ((1 * 2 ^ 64) mod 2 ^ 128 - 1) with (Z.ones 64). rewrite (Z.mod_small (Z.ones 64)) by done.
    by rewrite Z.land_ones, Z.mod_mod by lia.
  - by apply Z.mod_small.
Qed.

(** The zeroed estimate, with two limbs written. *)
Lemma write_spec L off d : lok d -> (1 <= off < L)%nat ->
  let x := qr_write (replicate L 0) off d in
  wf (Bignum 1 x) /\ dval x = lval d * Bp (off - 1) /\ length x = L /\ qr_clear x off = replicate L 0.
Proof.
  intros O Hoff x. destruct (low_word d O) as (Elo & Ehi & Hhi).
  set (k := (off - 1)%nat). set (r := (L - off - 1)%nat).
  assert (replicate L 0 = replicate k 0 ++ 0 :: 0 :: replicate r 0) as Ez.
  { replace L with (k + (2 + r))%nat by lia. by rewrite replicate_add. }
  assert (forall a b v, wr (replicate k 0 ++ a :: b :: replicate r 0) off v
                        = replicate k 0 ++ a :: v :: replicate r 0) as Wo.
  { intros. replace off with (length (replicate k 0 ++ [a])) by (rewrite length_app, length_replicate; cbn; lia).
    rewrite (cons_middle a), app_assoc, wr_mid, <- app_assoc. done. }
  assert (forall a b v, wr (replicate k 0 ++ a :: b :: replicate r 0) (off - 1) v
                        = replicate k 0 ++ v :: b :: replicate r 0) as Wk.
  { intros. change (off - 1)%nat with k. rewrite <- (length_replicate k (0 : Z)) at 2. apply wr_mid. }
  assert (x = replicate k 0 ++ lval d mod 2 ^ 64 :: lval d / 2 ^ 64 :: replicate r 0) as Ex.
  { unfold x, qr_write. rewrite Elo, Ehi, Ez, Wo. destruct (Nat.ltb_spec 0 off); [|lia]. apply Wk. }
  unfold qr_clear. rewrite Ex, Wo, Ez, Wk. destruct (Nat.ltb_spec 0 off); [|lia].
  pose proof (Z.mod_pos_bound (lval d) (2 ^ 64) ltac:(lia)).
  split_and!; [..|done].
  - split_and!; cbn [sign data]; [by left|by destruct k|].
    apply Forall_app; split; [limbs|]. repeat (constructor; [done|]). limbs.
  - rewrite dval_app, !dval_cons, !dval_zeros, length_replicate.
    pose proof (Z.div_mod (lval d) (2 ^ 64) ltac:(lia)). nia.
  - rewrite length_app, length_replicate. cbn. rewrite length_replicate. lia.
Qed.

(** *** The loop *)

Record qr_inv (a b1 : bignum) (st : qr_state) : Prop := {
  inv_q : inormal (qr_q st);
  inv_a1 : wf (qr_a1 st);
  inv_sign : sign (qr_a1 st) = qr_sign st;
  inv_value : ival (qr_q st) * mag b1 + bval (qr_a1 st) = mag a;
  inv_bound : mag (qr_a1 st) <= mag a;
  inv_x : qr_clear (qr_x st) (qr_off st) = replicate (length (data a)) 0;
}.

(** An iteration keeps the invariant and halves the remainder. *)
Lemma step_spec a b1 st : wf a -> wf b1 -> sign b1 = 1 -> (2 <= sexp_bignum_hi b1)%nat ->
  qr_inv a b1 st -> mag b1 <= mag (qr_a1 st) ->
  exists st', qr_step b1 st = Some st' /\ qr_inv a b1 st' /\ 2 * mag (qr_a1 st') <= mag (qr_a1 st).
Proof.
  intros Ha Hb Sb Hhi [Iq Ia Is Iv Ib Ix] Hle. destruct st as [q a1 x off sgn]. cbn [qr_q qr_a1 qr_x qr_off qr_sign] in *.
  pose proof (hi_le_mag _ _ Hb Ia Hle) as Hhi1. pose proof (hi_le_mag _ _ Ia Ha Ib) as Hhi2.
  pose proof (hi_range a Ha) as Hhi3.
  destruct (estimate_spec _ _ _ _ (top_at_hi a1 Ia ltac:(lia)) (top_at_hi b1 Hb Hhi) Hhi1 Hle)
    as (off' & d & Eest & Od & Hoff & Hest).
  destruct (write_spec (length (data a)) off' d Od ltac:(lia)) as (Wx & Vx & Lx & Cx).
  unfold qr_step. rewrite Ix, Eest. cbn [mbind option_bind].
  set (X := qr_write _ off' d) in *. change (bval (Bignum 1 X)) with (1 * dval X) in *.
  destruct (mul_spec (T:=T) b1 (Bignum 1 X) Hb Wx) as (y & -> & Wy & Vy & _). cbn [mbind option_bind].
  change (mag a1) with (dval (data a1)) in *. rewrite <- Vx in Hest.
  unfold bval at 2 in Vy. rewrite Sb in Vy. change (bval (Bignum 1 X)) with (1 * dval X) in Vy.
  assert (exists a1' q', (if sgn <? 0
      then Some (sexp_bignum_add DstNull a1 y, sexp_sub q (Big (Bignum 1 X)))
      else q ← sexp_add q (Big (Bignum 1 X)); Some (sexp_bignum_sub DstNull a1 y, q)) = Some (a1', q') /\
    wf a1' /\ inormal q' /\ ival q' * mag b1 + bval a1' = mag a /\ 2 * mag a1' <= dval (data a1))
    as (a1' & q' & -> & Wa1 & Nq & Eq & Hhalf).
  { pose proof Ia as (Sa & _). unfold bval in Iv. rewrite Is in Iv, Sa.
    destruct Sa as [-> | ->]; cbn [Z.ltb Z.compare].
    - destruct (add_spec q (Big (Bignum 1 X)) ltac:(auto) Wx) as (q' & -> & Nq & Eq).
      destruct (bignum_sub_spec DstNull a1 y Ia Wy ltac:(done)) as [Wa1 Va1].
      do 2 eexists; split; [done|]. split_and!; [done|done| |].
      + rewrite Eq, Va1. cbn [ival]. unfold bval at 2. rewrite Is, Vy. change (bval (Bignum 1 X)) with (1 * dval X). lia.
      + rewrite <- bval_abs, Va1 by done. unfold bval at 1. rewrite Is, Vy. unfold mag in *. lia.
    - destruct (sub_spec q (Big (Bignum 1 X)) ltac:(auto) Wx ltac:(done)) as [Nq Eq].
      destruct (bignum_add_spec DstNull a1 y Ia Wy ltac:(done)) as [Wa1 Va1].
      do 2 eexists; split; [done|]. split_and!; [done|done| |].
      + rewrite Eq, Va1. cbn [ival]. unfold bval at 2. rewrite Is, Vy. change (bval (Bignum 1 X)) with (1 * dval X). lia.
      + rewrite <- bval_abs, Va1 by done. unfold bval at 1. rewrite Is, Vy. unfold mag in *. lia. }
  eexists; split; [done|].
  assert (Bignum (sign a1') (data a1') = a1') as Eta by (by destruct a1').
  destruct (Z.eqb_spec (sign a1') sgn) as [Es|Es]; cbn [negb].
  - split; [|done]. split; cbn [qr_q qr_a1 qr_x qr_off qr_sign]; try done. unfold mag in *. lia.
  - assert (- sgn = sign a1') as ->.
    { destruct Ia as (Sa & _), Wa1 as (Sa' & _). lia. }
    rewrite Eta. split; [|done]. split; cbn [qr_q qr_a1 qr_x qr_off qr_sign]; try done. unfold mag in *. lia.
Qed.

Lemma loop_spec a b1 f st : wf a -> wf b1 -> sign b1 = 1 -> (2 <= sexp_bignum_hi b1)%nat ->
  qr_inv a b1 st -> mag (qr_a1 st) < 2 ^ Z.of_nat f ->
  exists st', qr_loop (S f) b1 st = Some st' /\ qr_inv a b1 st' /\ mag (qr_a1 st') < mag b1.
Proof.
  intros Ha Hb Sb Hhi. revert st. induction f as [|f IH]; intros st Hinv Hm.
  all: pose proof (mag_nonneg _ (inv_a1 _ _ _ Hinv)); pose proof (hi_many b1 Hb ltac:(lia)).
  - cbn [qr_loop]. rewrite compare_abs_ge by (done || apply Hinv).
    destruct (Z.leb_spec (mag b1) (mag (qr_a1 st))); [lia|]. by exists st.
  - remember (S f) as f'. cbn [qr_loop]. subst f'. rewrite compare_abs_ge by (done || apply Hinv).
    destruct (Z.leb_spec (mag b1) (mag (qr_a1 st))) as [Hle|]; [|by exists st].
    destruct (step_spec a b1 st Ha Hb Sb Hhi Hinv Hle) as (st' & -> & Hinv' & Hhalf).
    cbn [mbind option_bind]. apply IH; [done|]. rewrite Nat2Z.inj_succ, Z.pow_succ_r in Hm by lia. lia.
Qed.

(** *** The whole division *)

(** The general case, on the magnitudes. *)
Lemma quot_rem_mag a b1 : wf a -> wf b1 -> sign b1 = 1 -> (2 <= sexp_bignum_hi b1)%nat ->
  exists st, qr_loop (S (64 * length (data a))) b1
      (QR (Fix 0) (Bignum 1 (data a)) (replicate (length (data a)) 0) 0 1) = Some st /\
    qr_inv a b1 st /\ mag (qr_a1 st) < mag b1.
Proof.
  intros Ha Hb Sb Hhi. pose proof (wf_mag a Ha) as Hm. apply loop_spec; try done.
  - split; cbn [qr_q qr_a1 qr_x qr_off qr_sign].
    + cbn. unfold SEXP_MIN_FIXNUM, SEXP_MAX_FIXNUM. lia.
    + destruct Ha as (_ & ? & ?). split_and!; [by left|done..].
    + done.
    + unfold bval, mag. cbn [sign data ival]. lia.
    + done.
    + unfold qr_clear. pose proof (hi_range a Ha).
      destruct (length (data a)) as [|n]; [lia|]. done.
  - cbn [qr_a1]. rewrite Bp_pow. apply Hm.
Qed.

(** The signs of the results of a truncated division. *)
Lemma quot_rem_signs sa sb q r ma mb : (sa = 1 \/ sa = -1) -> (sb = 1 \/ sb = -1) ->
  0 <= r < mb -> ma = q * mb + r -> 0 <= ma ->
  Z.quot (sa * ma) (sb * mb) = (if sa * sb <? 0 then - q else q) /\
  Z.rem (sa * ma) (sb * mb) = (if sa <? 0 then - r else r).
Proof.
  intros Hsa Hsb Hr Hq Hma.
  assert (Z.quot ma mb = q /\ Z.rem ma mb = r) as [<- <-].
  { rewrite Z.quot_div_nonneg, Z.rem_mod_nonneg by lia. symmetry in Hq.
    split; symmetry; [apply Z.div_unique_pos with r|apply Z.mod_unique_pos with q]; lia. }
  assert (mb <> 0) by lia.
  destruct Hsa as [-> | ->], Hsb as [-> | ->]; rewrite ?Z.mul_1_l, <- ?Z.opp_eq_mul_m1.
  all: replace (-1 * ma) with (- ma) by lia; replace (-1 * mb) with (- mb) by lia.
  all: rewrite ?Z.quot_opp_opp, ?Z.quot_opp_l, ?Z.quot_opp_r, ?Z.rem_opp_opp, ?Z.rem_opp_l, ?Z.rem_opp_r by done.
  all: split; reflexivity.
Qed.

Lemma signs_spec a b q r : wf a -> wf b -> iwf q -> iwf r -> 0 <= ival q -> 0 <= ival r < mag b ->
  mag a = ival q * mag b + ival r ->
  let q' := if sign a * sign b <? 0 then sexp_negate_exact q else q in
  let r' := if sign a <? 0 then sexp_negate_exact r else r in
  iwf q' /\ iwf r' /\ ival q' = Z.quot (bval a) (bval b) /\ ival r' = Z.rem (bval a) (bval b).
Proof.
  intros Ha Hb Wq Wr Hq Hr Hval q' r'.
  destruct (quot_rem_signs (sign a) (sign b) (ival q) (ival r) (mag a) (mag b)) as [E1 E2];
    [apply Ha|apply Hb|done|done|by apply mag_nonneg|].
  unfold bval. rewrite E1, E2. unfold q', r', SEXP_MIN_FIXNUM, SEXP_MAX_FIXNUM in *.
  assert (iwf (sexp_negate_exact q) /\ ival (sexp_negate_exact q) = - ival q) as [].
  { apply negate_exact_spec; [done|]. unfold SEXP_MIN_FIXNUM, SEXP_MAX_FIXNUM. lia. }
  assert (iwf (sexp_negate_exact r) /\ ival (sexp_negate_exact r) = - ival r) as [].
  { apply negate_exact_spec; [done|]. unfold SEXP_MIN_FIXNUM, SEXP_MAX_FIXNUM. lia. }
  destruct (_ <? 0), (_ <? 0); auto.
Qed.

Lemma quot_rem_spec a b : wf a -> wf b -> bval b <> 0 ->
  exists q r, sexp_bignum_quot_rem a b = Some (QuotRem q r) /\ iwf q /\ iwf r /\
    ival q = Z.quot (bval a) (bval b) /\ ival r = Z.rem (bval a) (bval b).
Proof.
  intros Ha Hb Hnz. pose proof (mag_nonneg b Hb). unfold sexp_bignum_quot_rem. rewrite !copy_same.
  assert (mag b <> 0) as Hm0 by (unfold bval in Hnz; nia).
  assert (forall c, wf c -> wf (Bignum 1 (data c))) as Wabs.
  { intros c (_ & ? & ?). split_and!; [by left|done..]. }
  destruct (Nat.eqb_spec (sexp_bignum_hi b) 1) as [E|E]; cbn [andb].
  - pose proof (hi_one b Hb E) as Em. rewrite <- Em. pose proof Hb as (_ & _ & Lb).
    destruct (Z.eqb_spec (mag b) 0); [done|].
    assert (is_u64 (mag b)) as Hu by (rewrite Em; by apply limbs_rd).
    pose proof (fxdiv_spec (T:=T) (Bignum 1 (data a)) (mag b) (Wabs a Ha) Hu ltac:(lia)) as Hdiv.
    destruct (sexp_bignum_fxdiv _ _ _) as [q r]. destruct Hdiv as (Wq & Sq & _ & Mq & Er).
    change (mag (Bignum 1 (data a))) with (mag a) in *.
    pose proof (Z.mod_pos_bound (mag a) (mag b) ltac:(lia)).
    assert (is_u64 r) by (unfold is_u in *; lia).
    destruct (normalize_spec (Big (Bignum 1 [r]))) as [Nr Vr].
    { split_and!; [by left|done|]. cbn [data]. by repeat (constructor; [done|]). }
    replace (ival (Big (Bignum 1 [r]))) with r in Vr by (cbn [ival]; unfold bval, mag; cbn [sign data dval]; lia).
    do 2 eexists; split; [done|].
    pose proof (mag_nonneg q Wq). cbn in Sq.
    apply signs_spec; auto; rewrite ?Vr; cbn [ival]; rewrite ?(bval_pos q Sq); [lia|lia|].
    rewrite Mq, Er. pose proof (Z.div_mod (mag a) (mag b) ltac:(lia)). lia.
  - set (b1 := Bignum 1 (data b)). change (mag b) with (mag b1) in *.
    assert (2 <= sexp_bignum_hi b)%nat as Hhi by (pose proof (hi_range b Hb); lia).
    destruct (quot_rem_mag a b1 Ha (Wabs b Hb) eq_refl Hhi) as (st & -> & Hinv & Hlt).
    cbn [mbind option_bind]. destruct Hinv as [Iq Ia Is Iv _ _].
    destruct (normalize_spec (Big (qr_a1 st)) Ia) as [Nr Vr]. cbn [ival] in Vr.
    set (rem := sexp_bignum_normalize _) in *. pose proof (mag_nonneg _ Ia). pose proof (mag_nonneg a Ha).
    assert (match rem with Fix 0 => true | _ => false end = (ival rem =? 0)) as ->.
    { destruct rem as [[]|c]; try done. destruct Nr as [_ Nr]. cbn in *.
      unfold SEXP_MIN_FIXNUM, SEXP_MAX_FIXNUM in Nr. destruct (Z.eqb_spec (bval c) 0); lia. }
    pose proof Ia as (Sa & _). rewrite Is in Sa. unfold bval in Iv, Vr. rewrite Is in Iv, Vr. rewrite Vr.
    destruct ((qr_sign st <? 0) && negb _) eqn:C.
    + assert (qr_sign st = -1) as Es by lia. rewrite Es in *.
      destruct (add_spec rem (Big b1) ltac:(auto) (Wabs b Hb)) as (r & -> & Nr' & Er).
      cbn [mbind option_bind]. cbn [ival] in Er. rewrite (bval_pos b1 eq_refl) in Er.
      assert (1 <= ival (qr_q st)) by nia.
      destruct (sub_spec (qr_q st) (Fix 1)) as [Nq Eq]; [auto|cbn; unfold SEXP_MIN_FIXNUM, SEXP_MAX_FIXNUM; lia| |].
      { intros x y Ex [= <-]. rewrite Ex in *. cbn in Iq, H4. unfold SEXP_MIN_FIXNUM, SEXP_MAX_FIXNUM in *. lia. }
      do 2 eexists; split; [done|]. cbn [ival] in Eq. change (bval b) with (bval b).
      apply signs_spec; auto; change (mag b) with (mag b1); rewrite ?Eq, ?Er, ?Vr; [lia|lia|].
      rewrite <- Iv. ring.
    + do 2 eexists; split; [done|].
      assert (0 <= qr_sign st * mag (qr_a1 st)).
      { destruct Sa as [Es|Es]; rewrite Es in *; cbn [Z.ltb Z.compare andb] in C; lia. }
      assert (0 <= ival (qr_q st)) by (destruct Sa as [Es|Es]; rewrite Es in *; nia).
      assert (ival rem < mag b1) by (destruct Sa as [Es|Es]; rewrite Es in *; lia).
      apply signs_spec; auto; change (mag b) with (mag b1); rewrite ?Vr; lia.
Qed.
End quot_rem_facts.

(** ** Properties *)

(** C7 (functional, termination, safety).  The long division terminates (its
    remainder halves in every iteration, so the fuel of one iteration per bit
    is enough), never reads below the arrays, and returns the truncated
    quotient and remainder of the values with their signs; a zero divisor, of
    any length, is the only exception. *)
Theorem quot_rem_correct {T : Type} `{LongUIntOk T} (a b : bignum) : wf a -> wf b ->
  if bval b =? 0 then sexp_bignum_quot_rem a b = Some QuotRemDivideByZero
  else exists q r, sexp_bignum_quot_rem a b = Some (QuotRem q r) /\ iwf q /\ iwf r /\
         ival q = Z.quot (bval a) (bval b) /\ ival r = Z.rem (bval a) (bval b).
Proof.
  intros Ha Hb. destruct (Z.eqb_spec (bval b) 0) as [E|]; [|by apply quot_rem_spec].
  assert (mag b = 0) as Em by (rewrite <- bval_abs, E by done; done).
  assert (sexp_bignum_hi b = 1)%nat as Eh.
  { pose proof (hi_range b Hb). destruct (decide (1 < sexp_bignum_hi b)%nat); [|lia].
    pose proof (hi_many b Hb ltac:(lia)). lia. }
  unfold sexp_bignum_quot_rem. rewrite Eh, <- (hi_one b Hb Eh), Em. done.
Qed.

Lemma quot_rem_correct_witness :
  let a := Bignum (-1) [0; 0; 0; 1] in
  let b := Bignum 1 [UINT_MAX; 2 ^ 31; 0] in
  if bval b =? 0 then sexp_bignum_quot_rem (T:=Z) a b = Some QuotRemDivideByZero
  else exists q r, sexp_bignum_quot_rem (T:=Z) a b = Some (QuotRem q r) /\ iwf q /\ iwf r /\
         ival q = Z.quot (bval a) (bval b) /\ ival r = Z.rem (bval a) (bval b).
Proof.
  apply (quot_rem_correct (T:=Z) (Bignum (-1) [0; 0; 0; 1]) (Bignum 1 [UINT_MAX; 2 ^ 31; 0]));
    concrete_wf.
Defined.
