(* ===== verification/Numbers.v ===== *)
(** * Quotients and ratios

    [sexp_quotient] and [sexp_remainder] on exact integers, the ratio
    operations of [bignum.c] and [sexp_ratio_normalize] of [sexp.c], and the
    integer and ratio rows of the generic operations. *)
From S2P Require Import Prelude LongLong Limbs Bignum Integers Division.

(** ** Outcomes *)

Inductive exn := DivideByZero | ZeroDenominator.

(** A value, a Scheme exception, a hardware trap (a C division by zero), or a
    model that ran out of fuel. *)
Inductive outcome (A : Type) := Ok (a : A) | Raise (e : exn) | Trap | NoFuel.
Arguments Ok {A} a.
Arguments Raise {A} e.
Arguments Trap {A}.
Arguments NoFuel {A}.

#[global] Instance outcome_ret : MRet outcome := @Ok.
#[global] Instance outcome_bind : MBind outcome := fun A B f m =>
  match m with Ok a => f a | Raise e => Raise e | Trap => Trap | NoFuel => NoFuel end.

Definition lift {A} (m : option A) : outcome A := match m with Some a => Ok a | None => NoFuel end.

Section numbers.
Context {T : Type} `{LongUInt T}.

(** ** Integer division *)

(** The row [SEXP_NUM_BIG_BIG] of [sexp_quotient]. *)
Definition quotient_big_big (a b : bignum) : outcome exint :=
  r ← lift (sexp_bignum_quotient a b);
  match r with Some q => Ok (sexp_bignum_normalize q) | None => Raise DivideByZero end.

Definition is_fix (x : exint) (z : Z) : bool := match x with Fix y => y =? z | Big _ => false end.

Definition sexp_quotient (a b : exint) : outcome exint :=
  if is_fix b 1 then Ok a
  else match a, b with
  | Fix x, Fix y =>
      if y =? 0 then Trap
      else match sexp_make_fixnum (Z.quot x y) with
           | Fix r => if (x <? 0) && (y <? 0) && (r <? 0)
                      then quotient_big_big (sexp_fixnum_to_bignum x) (sexp_fixnum_to_bignum y)
                      else Ok (Fix r)
           | r => Ok r
           end
  | Fix _, Big _ => Ok (Fix 0)
  | Big x, Fix y => quotient_big_big x (sexp_fixnum_to_bignum y)
  | Big x, Big y => quotient_big_big x y
  end.

Definition sexp_remainder (a b : exint) : outcome exint :=
  if is_fix b 1 then Ok (Fix 0)
  else match a, b with
  | Fix x, Fix y => if y =? 0 then Trap else Ok (sexp_make_fixnum (Z.rem x y))
  | Fix _, Big _ => Ok a
  | Big x, Fix y => match sexp_bignum_fxrem x y with
                    | RemInt r => Ok r
                    | RemDivideByZero => Raise DivideByZero
                    end
  | Big x, Big y =>
      r ← lift (sexp_bignum_remainder x y);
      match r with Some r => Ok (sexp_bignum_normalize r) | None => Raise DivideByZero end
  end.

(** ** Ratios *)

Inductive number := Int (x : exint) | Rat (num den : exint).

(** [while (den != SEXP_ZERO) { tmp = remainder(num, den); num = den; den = tmp; }] *)
Fixpoint gcd_loop (fuel : nat) (num den : exint) : outcome exint :=
  match fuel with
  | O => NoFuel
  | S fuel =>
      if is_fix den 0 then Ok num
      else tmp ← sexp_remainder num den; gcd_loop fuel den tmp
  end.

Definition int_bits (x : exint) : nat :=
  match x with Fix _ => 64 | Big b => (64 * length (data b))%nat end.

(** The negation of a numerator and denominator whose sign is on the
    denominator.  [sexp_negate] is in place on a bignum: the numerator and
    denominator are the objects the ratio was made of. *)
Definition ratio_fix_sign (num den : exint) : exint * exint :=
  if sexp_exact_negativep den then
    let num := match num with
               | Fix z => if z =? SEXP_MIN_FIXNUM then Big (sexp_fixnum_to_bignum z) else num
               | _ => num
               end in
    (sexp_negate_exact num, sexp_negate_exact den)
  else (num, den).

(** Two steps of Euclid's algorithm halve the denominator. *)
Definition sexp_ratio_normalize (num den : exint) : outcome number :=
  let '(num, den) := ratio_fix_sign num den in
  if is_fix den 0 then Raise ZeroDenominator
  else if is_fix num 0 then Ok (Int (Fix 0))
  else
    g ← gcd_loop (2 * int_bits den + 3) num den;
    den ← sexp_quotient den g;
    num ← sexp_quotient num g;
    let '(num, den) := ratio_fix_sign num den in
    let num := sexp_bignum_normalize num in
    let den := sexp_bignum_normalize den in
    Ok (if is_fix den 1 then Int num else Rat num den).

(** What [sexp_ratio_normalize] leaves in the objects of its two operands:
    [sexp_negate] is in place on a bignum, and [sexp_quotient] by 1 returns its
    argument, so that the second negation hits the same objects. *)
Definition ratio_normalize_operands (num den : exint) : outcome (exint * exint) :=
  let object (x x' : exint) := match x with Big _ => x' | Fix _ => x end in
  let '(num1, den1) := ratio_fix_sign num den in
  if is_fix den1 0 || is_fix num1 0 then Ok (object num num1, object den den1)
  else
    g ← gcd_loop (2 * int_bits den1 + 3) num1 den1;
    let '(num2, den2) := if is_fix g 1 then ratio_fix_sign num1 den1 else (num1, den1) in
    Ok (object num num2, object den den2).

Definition sexp_ratio_add (an ad bn bd : exint) : outcome number :=
  num ← lift (Integers.sexp_mul an bd);
  den ← lift (Integers.sexp_mul bn ad);
  num ← lift (Integers.sexp_add num den);
  den ← lift (Integers.sexp_mul ad bd);
  sexp_ratio_normalize num den.

Definition sexp_ratio_mul (an ad bn bd : exint) : outcome number :=
  num ← lift (Integers.sexp_mul an bn);
  den ← lift (Integers.sexp_mul ad bd);
  sexp_ratio_normalize num den.

Definition sexp_ratio_div (an ad bn bd : exint) : outcome number :=
  num ← lift (Integers.sexp_mul an bd);
  den ← lift (Integers.sexp_mul ad bn);
  sexp_ratio_normalize num den.

Definition sexp_ratio_compare (an ad bn bd : exint) : outcome exint :=
  a2 ← lift (Integers.sexp_mul an bd);
  b2 ← lift (Integers.sexp_mul bn ad);
  Ok (Integers.sexp_compare a2 b2).

Definition sexp_oddp (x : exint) : bool :=
  match x with Fix z => Z.odd z | Big b => Z.odd (rd (data b) 0) end.

Definition sexp_ratio_round (an ad : exint) : outcome exint :=
  q ← sexp_quotient an ad;
  if is_fix ad 2 && sexp_oddp q then
    lift (Integers.sexp_add q (if sexp_exact_positivep q then Fix 1 else Fix (-1)))
  else
    r ← sexp_remainder an ad;
    r ← lift (Integers.sexp_mul r (Fix 2));
    let r := if sexp_exact_negativep r then sexp_negate_exact r else r in
    match Integers.sexp_compare r ad with
    | Fix c => if c >? 0
               then lift (Integers.sexp_add q (if sexp_exact_negativep an then Fix (-1) else Fix 1))
               else Ok q
    | Big _ => Ok q
    end.

Definition sexp_ratio_trunc (an ad : exint) : outcome exint := sexp_quotient an ad.

Definition sexp_ratio_floor (an ad : exint) : outcome exint :=
  q ← sexp_quotient an ad;
  if sexp_exact_negativep an then lift (Integers.sexp_add q (Fix (-1))) else Ok q.

Definition sexp_ratio_ceiling (an ad : exint) : outcome exint :=
  q ← sexp_quotient an ad;
  if sexp_exact_positivep an then lift (Integers.sexp_add q (Fix 1)) else Ok q.

(** ** The generic operations on exact numbers *)

(** [sexp_make_ratio(ctx, a, SEXP_ONE)] for an integer operand. *)
Definition as_ratio (x : number) : exint * exint :=
  match x with Int n => (n, Fix 1) | Rat n d => (n, d) end.

Definition sexp_add (a b : number) : outcome number :=
  match a, b with
  | Int x, Int y => r ← lift (Integers.sexp_add x y); Ok (Int r)
  | Rat n d, Int y => sexp_ratio_add y (Fix 1) n d
  | _, Rat n d => let '(an, ad) := as_ratio a in sexp_ratio_add an ad n d
  end.

(** The negation of [sexp_negate_maybe_ratio]. *)
Definition negate_maybe_ratio (x : number) : number :=
  match x with Int n => Int (sexp_negate_exact n) | Rat n d => Rat (sexp_negate_exact n) d end.

Definition sexp_sub (a b : number) : outcome number :=
  match a, b with
  | Int x, Int y => Ok (Int (Integers.sexp_sub x y))
  | Rat n d, Int y =>
      r ← sexp_ratio_add y (Fix 1) (sexp_negate_exact n) d;
      Ok (negate_maybe_ratio r)
  | _, Rat n d =>
      let '(an, ad) := as_ratio a in sexp_ratio_add an ad (sexp_negate_exact n) d
  end.

Definition sexp_mul (a b : number) : outcome number :=
  match a, b with
  | Int x, Int y => r ← lift (Integers.sexp_mul x y); Ok (Int r)
  | Rat n d, Int y => sexp_ratio_mul y (Fix 1) n d
  | _, Rat n d => let '(an, ad) := as_ratio a in sexp_ratio_mul an ad n d
  end.

Definition sexp_div (a b : number) : outcome number :=
  match a, b with
  | Int x, Int y => sexp_ratio_normalize x y
  | _, _ => let '(an, ad) := as_ratio a in
            let '(bn, bd) := as_ratio b in sexp_ratio_div an ad bn bd
  end.

(** [sexp_compare] of a ratio and an integer is the negated comparison of the
    integer and the ratio. *)
Definition sexp_compare (a b : number) : outcome exint :=
  match a, b with
  | Int x, Int y => Ok (Integers.sexp_compare x y)
  | Rat n d, Int y => r ← sexp_ratio_compare y (Fix 1) n d; Ok (sexp_negate_exact r)
  | _, Rat n d => let '(an, ad) := as_ratio a in sexp_ratio_compare an ad n d
  end.

(** [sexp_bignum_expt]: repeated squaring of the absolute exponent, and the
    reciprocal for a negative one. *)
Definition sexp_bignum_expt (a : bignum) (e : Z) : outcome number :=
  let abs_e := Z.abs e in
  res ← lift (expt_loop 64 abs_e (sexp_fixnum_to_bignum 1) a);
  if e <? 0 then sexp_div (Int (Big (sexp_fixnum_to_bignum 1))) (Int (Big res))
  else Ok (Int (sexp_bignum_normalize (Big res))).
End numbers.

(** ** Facts *)

Section number_facts.
Context {T : Type} `{LongUIntOk T}.

(** The mask test of [sexp_bignum_fxrem] recognises the powers of two. *)
Lemma pow2_mask b : 0 < b -> Z.land b (b - 1) = 0 -> exists k, 0 <= k /\ b = 2 ^ k.
Proof.
  intros Hb E. exists (Z.log2 b). split; [apply Z.log2_nonneg|].
  pose proof (Z.log2_spec b Hb) as [H1 H2]. set (k := Z.log2 b) in *.
  assert (0 <= k) by apply Z.log2_nonneg.
  destruct (decide (b = 2 ^ k)) as [|Hne]; [done|exfalso].
  assert (Z.testbit (b - 1) k = true) as Hbit.
  { replace k with (Z.log2 (b - 1)); [apply Z.bit_log2; lia|]. apply Z.log2_unique; lia. }
  assert (Z.testbit (Z.land b (b - 1)) k = true) as Hland.
  { rewrite Z.land_spec, Hbit. unfold k. by rewrite Z.bit_log2 by done. }
  rewrite E, Z.bits_0 in Hland. done.
Qed.

Lemma mask_mod x b : 0 < b < 2 ^ 64 -> Z.land b (b - 1) = 0 ->
  Z.land (x mod 2 ^ 64) (b - 1) = x mod b.
Proof.
  intros [Hb Hlt] E. destruct (pow2_mask b Hb E) as (k & Hk & ->).
  replace (2 ^ k - 1) with (Z.ones k) by (rewrite Z.ones_equiv; lia).
  assert (k < 64) by (apply (Z.pow_lt_mono_r_iff 2); lia).
  rewrite Z.land_ones by done. apply Z.mod_mod_divide.
  exists (2 ^ (64 - k)). rewrite <- Z.pow_add_r by lia. f_equal. lia.
Qed.

Lemma rd0_mod a : wf a -> rd (data a) 0 = mag a mod 2 ^ 64.
Proof.
  intros (_ & Hne & Hl). unfold mag. destruct (data a) as [|x ds]; [done|].
  apply Forall_cons_1 in Hl. destruct Hl as [[? ?] Hl]. rewrite dval_cons. cbn [rd nth].
  rewrite Z.mul_comm, Z.mod_add, Z.mod_small by lia. done.
Qed.

Lemma rem_sign s m b : (s = 1 \/ s = -1) -> 0 <= m -> b <> 0 -> Z.rem (s * m) b = s * (m mod Z.abs b).
Proof.
  intros [-> | ->] Hm Hb.
  - rewrite !Z.mul_1_l, <- Z.rem_mod_nonneg, Z.rem_abs_r by lia. done.
  - replace (-1 * m) with (- m) by lia. rewrite Z.rem_opp_l by done.
    rewrite <- Z.rem_mod_nonneg, Z.rem_abs_r by lia. lia.
Qed.

(** The remainder by a fixnum. *)
Lemma fxrem_spec a b : wf a -> SEXP_MIN_FIXNUM <= b <= SEXP_MAX_FIXNUM -> b <> 0 ->
  exists r, sexp_bignum_fxrem a b = RemInt (Fix r) /\ SEXP_MIN_FIXNUM <= r <= SEXP_MAX_FIXNUM /\
            r = Z.rem (bval a) b.
Proof.
  unfold SEXP_MIN_FIXNUM, SEXP_MAX_FIXNUM. intros Ha Hb Hnz. pose proof Ha as (Sa & _ & La).
  pose proof (mag_nonneg a Ha). unfold bval. rewrite rem_sign by done.
  pose proof (Z.mod_pos_bound (mag a) (Z.abs b) ltac:(lia)) as Hr.
  unfold sexp_bignum_fxrem, sexp_make_fixnum.
  destruct ((b >? 0) && _) eqn:C.
  - apply andb_true_iff in C as [C1 C2%Z.eqb_eq]. rewrite rd0_mod, mask_mod by (done || lia).
    rewrite (Z.abs_eq b) in * by lia. exists (sign a * (mag a mod b)).
    destruct Sa as [-> | ->]; rewrite (swrap_id 64), swrap_id by lia; (split; [done|lia]).
  - assert ((if b >=? 0 then b else u64 (- b)) = Z.abs b) as ->.
    { destruct (Z.geb_spec b 0); [lia|]. rewrite uwrap_id by (unfold is_u; lia). lia. }
    destruct (Z.eqb_spec (Z.abs b) 0); [lia|].
    destruct (fxrem_loop_spec (T:=T) (take (sexp_bignum_hi a) (data a)) (Z.abs b)) as [O V];
      [limbs|unfold is_u; lia|lia|].
    rewrite mag_hi in V by done.
    rewrite to_uint_spec, V by done. rewrite (Z.mod_small (mag a mod _)) by lia.
    rewrite (swrap_id 64) by lia. exists (sign a * (mag a mod Z.abs b)).
    destruct Sa as [-> | ->]; rewrite swrap_id by lia; (split; [done|lia]).
Qed.

(** What the [SEXP_NUM_FIX_BIG] rows of the divisions assume of a bignum. *)
Definition fix_below (a b : exint) : Prop :=
  match a, b with Fix x, Big y => Z.abs x < Z.abs (bval y) | _, _ => True end.

Lemma is_fix_true x z : is_fix x z = true -> x = Fix z.
Proof. destruct x; cbn; [intros ->%Z.eqb_eq|]; done. Qed.

Lemma remainder_spec a b : iwf a -> iwf b -> ival b <> 0 -> fix_below a b ->
  exists r, sexp_remainder a b = Ok r /\ inormal r /\ ival r = Z.rem (ival a) (ival b).
Proof.
  intros Ha Hb Hnz Hfb. unfold sexp_remainder. destruct (is_fix b 1) eqn:E1.
  { apply is_fix_true in E1. subst b. exists (Fix 0). cbn [ival]. rewrite Z.rem_1_r.
    split_and!; [done| |done]. cbn. unfold SEXP_MIN_FIXNUM, SEXP_MAX_FIXNUM. lia. }
  destruct a as [x|x], b as [y|y]; cbn [iwf ival fix_below] in *.
  - destruct (Z.eqb_spec y 0); [done|]. eexists; split; [done|].
    pose proof (Z.rem_bound_abs x y ltac:(done)). unfold SEXP_MIN_FIXNUM, SEXP_MAX_FIXNUM in *.
    assert (Z.abs (Z.rem x y) <= Z.abs x).
    { rewrite <- Z.rem_abs by done. rewrite Z.rem_mod_nonneg by lia. apply Z.mod_le; lia. }
    unfold sexp_make_fixnum. rewrite swrap_id by lia. cbn. unfold SEXP_MIN_FIXNUM, SEXP_MAX_FIXNUM. lia.
  - exists (Fix x). split_and!; [done..|]. cbn [ival].
    symmetry. apply Z.rem_small_iff; done || lia.
  - destruct (fxrem_spec x y Ha Hb Hnz) as (r & -> & Hr & Er). by exists (Fix r).
  - destruct (quot_rem_spec (T:=T) x y Ha Hb Hnz) as (q & r & E & _ & Wr & _ & Er).
    unfold sexp_bignum_remainder. rewrite E. cbn [mbind option_bind lift outcome_bind].
    destruct (normalize_spec r Wr) as [N V]. eexists; split_and!; [done..|]. by rewrite V.
Qed.

Lemma quotient_big_big_spec x y : wf x -> wf y -> bval y <> 0 ->
  exists q, quotient_big_big x y = Ok q /\ inormal q /\ ival q = Z.quot (bval x) (bval y).
Proof.
  intros Hx Hy Hnz. destruct (quot_rem_spec (T:=T) x y Hx Hy Hnz) as (q & r & E & Wq & _ & Eq & _).
  unfold quotient_big_big, sexp_bignum_quotient. rewrite E. cbn [mbind option_bind lift outcome_bind].
  destruct (normalize_spec q Wq) as [N V]. eexists; split_and!; [done..|]. by rewrite V.
Qed.

(** The quotient by 1 returns its argument as it is. *)
Lemma quotient_spec a b : iwf a -> iwf b -> ival b <> 0 -> fix_below a b ->
  exists q, sexp_quotient a b = Ok q /\ iwf q /\ ival q = Z.quot (ival a) (ival b).
Proof.
  intros Ha Hb Hnz Hfb. unfold sexp_quotient. destruct (is_fix b 1) eqn:E1.
  { apply is_fix_true in E1. subst b. exists a. cbn [ival]. by rewrite Z.quot_1_r. }
  destruct a as [x|x], b as [y|y]; cbn [iwf ival fix_below] in *.
  - destruct (Z.eqb_spec y 0); [done|]. unfold sexp_make_fixnum.
    pose proof (Z.quot_abs x y ltac:(done)) as Eabs.
    assert (0 <= Z.quot (Z.abs x) (Z.abs y) <= Z.abs x).
    { rewrite Z.quot_div_nonneg by lia. split; [apply Z.div_pos; lia|apply div_le_self; lia]. }
    destruct ((x <? 0) && (y <? 0) && (swrap 63 (Z.quot x y) <? 0)) eqn:C.
    + destruct (fixnum_to_bignum_spec x Ha) as (Wx & Vx & _), (fixnum_to_bignum_spec y Hb) as (Wy & Vy & _).
      destruct (quotient_big_big_spec _ _ Wx Wy ltac:(by rewrite Vy)) as (q & -> & N & E).
      exists q. rewrite E, Vx, Vy. split_and!; auto.
    + eexists; split; [done|].
      assert (swrap 63 (Z.quot x y) = Z.quot x y) as E.
      { unfold SEXP_MIN_FIXNUM, SEXP_MAX_FIXNUM in *. destruct (decide (Z.quot x y = 2 ^ 62)) as [Eq|].
        - rewrite Eq in C. change (swrap 63 (2 ^ 62)) with (- 2 ^ 62) in C.
          assert (0 <= x \/ 0 <= y) as Hpos by lia.
          assert (x < 0 /\ y < 0) as []; [|lia]. split.
          + destruct (decide (0 <= x)); [|lia]. lia.
          + destruct (decide (0 <= y)); [|lia].
            assert (x < 0) by lia. pose proof (Z.quot_pos (- x) y ltac:(lia) ltac:(lia)).
            rewrite Z.quot_opp_l in * by done. lia.
        - apply swrap_id; lia. }
      rewrite E in *. cbn [iwf ival]. split; [|done]. unfold SEXP_MIN_FIXNUM, SEXP_MAX_FIXNUM in *.
      rewrite <- E. pose proof (swrap_range 63 (Z.quot x y) ltac:(lia)). lia.
  - exists (Fix 0). split_and!; [done| |].
    + cbn. unfold SEXP_MIN_FIXNUM, SEXP_MAX_FIXNUM. lia.
    + cbn [ival]. symmetry. apply Z.quot_small_iff; done || lia.
  - destruct (fixnum_to_bignum_spec y Hb) as (Wy & Vy & _).
    destruct (quotient_big_big_spec x _ Ha Wy ltac:(by rewrite Vy)) as (q & -> & N & E).
    exists q. rewrite E, Vy. split_and!; auto.
  - destruct (quotient_big_big_spec x y Ha Hb Hnz) as (q & -> & N & E). exists q. auto.
Qed.

(** *** The greatest common divisor *)

Lemma rem_halves a b : b <> 0 -> Z.rem a b <> 0 -> 2 * Z.abs (Z.rem b (Z.rem a b)) < Z.abs b.
Proof.
  intros Hb Hr. pose proof (Z.rem_bound_abs a b Hb). set (r := Z.rem a b) in *.
  rewrite <- Z.rem_abs, Z.rem_mod_nonneg by lia.
  pose proof (Z.mod_pos_bound (Z.abs b) (Z.abs r) ltac:(lia)).
  pose proof (Z.div_mod (Z.abs b) (Z.abs r) ltac:(lia)).
  assert (1 <= Z.abs b / Z.abs r) by (apply Z.div_le_lower_bound; lia). nia.
Qed.

Lemma gcd_rem a b : b <> 0 -> Z.gcd b (Z.rem a b) = Z.gcd a b.
Proof.
  intros Hb. pose proof (Z.quot_rem' a b) as E.
  rewrite E at 2. rewrite (Z.gcd_comm (b * _ + _)), Z.add_comm, Z.mul_comm, Z.gcd_add_mult_diag_r. done.
Qed.

(** A remainder is small enough to be divided by in the next step. *)
Lemma fix_below_next a b : inormal b -> Z.abs (ival b) < Z.abs (ival a) -> iwf a -> fix_below a b.
Proof.
  intros Hb Hlt Ha. destruct a as [x|x], b as [y|y]; cbn in *; try done.
  destruct Hb as [_ Hb]. unfold SEXP_MIN_FIXNUM, SEXP_MAX_FIXNUM in *. lia.
Qed.

(** The loop test sees every zero. *)
Definition zero_fix (x : exint) : Prop := ival x = 0 -> x = Fix 0.

Lemma inormal_zero_fix x : inormal x -> zero_fix x.
Proof. intros Hx E. rewrite (inormal_fix x Hx); [by rewrite E|by rewrite E]. Qed.

Lemma is_fix_0 x : zero_fix x -> is_fix x 0 = (ival x =? 0).
Proof.
  intros Hz. destruct x as [z|b]; [done|]. cbn. destruct (Z.eqb_spec (bval b) 0) as [E|]; [|done].
  by specialize (Hz E).
Qed.

Lemma gcd_loop_spec f fuel num den : iwf num -> iwf den -> zero_fix den -> fix_below num den ->
  Z.abs (ival den) < 2 ^ Z.of_nat f -> (2 * f + 1 <= fuel)%nat ->
  exists g, gcd_loop fuel num den = Ok g /\ iwf g /\ Z.abs (ival g) = Z.gcd (ival num) (ival den).
Proof.
  revert fuel num den. induction f as [|f IH]; intros fuel num den Hn Hd Hz Hfb Hlt Hfuel.
  - assert (ival den = 0) as E by (cbn in Hlt; lia). destruct fuel as [|fuel]; [lia|].
    cbn [gcd_loop]. rewrite is_fix_0, E by done. exists num. by rewrite Z.gcd_0_r.
  - destruct fuel as [|[|fuel]]; [lia..|]. cbn [gcd_loop]. rewrite is_fix_0 by done.
    destruct (Z.eqb_spec (ival den) 0) as [E|Hnz]; [exists num; by rewrite E, Z.gcd_0_r|].
    destruct (remainder_spec num den Hn Hd Hnz Hfb) as (r & -> & Nr & Er). cbn [mbind outcome_bind].
    rewrite <- (gcd_rem (ival num)), <- Er by done. rewrite is_fix_0 by (by apply inormal_zero_fix).
    destruct (Z.eqb_spec (ival r) 0) as [E|Hrnz]; [exists den; by rewrite E, Z.gcd_0_r|].
    pose proof (Z.rem_bound_abs (ival num) (ival den) Hnz) as Hb. rewrite <- Er in Hb.
    destruct (remainder_spec den r Hd ltac:(auto) Hrnz) as (r' & -> & Nr' & Er');
      [by apply fix_below_next|]. cbn [mbind outcome_bind].
    rewrite <- (gcd_rem (ival den)), <- Er' by done.
    pose proof (Z.rem_bound_abs (ival den) (ival r) Hrnz) as Hb'. rewrite <- Er' in Hb'.
    pose proof (rem_halves (ival num) (ival den) Hnz) as Hhalf. rewrite <- Er, <- Er' in Hhalf.
    rewrite Nat2Z.inj_succ, Z.pow_succ_r in Hlt by lia.
    apply IH; [auto|auto|by apply inormal_zero_fix|apply fix_below_next; auto|specialize (Hhalf Hrnz); lia|lia].
Qed.

(** The divisor is a fixnum when an argument that is reached is one. *)
Lemma rem_fix num z r : sexp_remainder num (Fix z) = Ok r -> exists y, r = Fix y.
Proof.
  unfold sexp_remainder. destruct (is_fix _ _); [intros [= <-]; eauto|].
  destruct num as [x|x]; [case_match; [done|intros [= <-]; unfold sexp_make_fixnum; eauto]|].
  unfold sexp_bignum_fxrem. repeat case_match; simplify_eq; unfold sexp_make_fixnum; intros; simplify_eq; eauto.
Qed.

Lemma gcd_fix_fix fuel x y g : gcd_loop fuel (Fix x) (Fix y) = Ok g -> exists z, g = Fix z.
Proof.
  revert x y. induction fuel as [|fuel IH]; intros x y E; [done|]. cbn [gcd_loop] in E.
  destruct (is_fix _ _); [simplify_eq; eauto|].
  destruct (sexp_remainder (Fix x) (Fix y)) as [r| | |] eqn:Er; cbn [mbind outcome_bind] in E; try done.
  destruct (rem_fix _ _ _ Er) as [z ->]. eauto.
Qed.

Lemma gcd_den_fix fuel num y g : y <> 0 -> gcd_loop fuel num (Fix y) = Ok g -> exists z, g = Fix z.
Proof.
  intros Hy E. destruct fuel as [|fuel]; [done|]. cbn [gcd_loop] in E. cbn [is_fix] in E.
  destruct (Z.eqb_spec y 0); [done|].
  destruct (sexp_remainder num (Fix y)) as [r| | |] eqn:Er; cbn [mbind outcome_bind] in E; try done.
  destruct (rem_fix _ _ _ Er) as [z ->]. by eapply gcd_fix_fix.
Qed.

Lemma gcd_num_fix fuel x den g : x <> 0 -> gcd_loop fuel (Fix x) den = Ok g -> exists z, g = Fix z.
Proof.
  intros Hx E. destruct den as [y|b]; [by eapply gcd_fix_fix|].
  destruct fuel as [|fuel]; [done|]. cbn in E. by eapply gcd_den_fix.
Qed.

Lemma int_bits_spec x : iwf x -> Z.abs (ival x) < 2 ^ Z.of_nat (int_bits x) /\ (64 <= int_bits x)%nat.
Proof.
  destruct x as [z|b]; cbn [int_bits ival iwf].
  - unfold SEXP_MIN_FIXNUM, SEXP_MAX_FIXNUM. change (Z.of_nat 64) with 64. lia.
  - intros Hb. rewrite bval_abs, Bp_pow by done. split; [apply wf_mag; done|].
    pose proof (hi_range b Hb). lia.
Qed.

(** A fixnum over a bignum that is in normal form: the row
    [SEXP_NUM_FIX_BIG] is right but for [SEXP_MIN_FIXNUM] over its negation,
    which takes one more step. *)
Definition fix_over_normal (a b : exint) : Prop :=
  match a, b with Fix _, Big _ => inormal b | _, _ => True end.

Lemma gcd_spec num den : iwf num -> iwf den -> zero_fix den -> fix_over_normal num den ->
  num <> Fix 0 -> ival den <> 0 ->
  exists g, gcd_loop (2 * int_bits den + 3) num den = Ok g /\ iwf g /\
    Z.abs (ival g) = Z.gcd (ival num) (ival den) /\ fix_below num g /\ fix_below den g.
Proof.
  intros Hn Hd Hz Hfn Hn0 Hd0.
  assert (exists g, gcd_loop (2 * int_bits den + 3) num den = Ok g /\ iwf g /\
    Z.abs (ival g) = Z.gcd (ival num) (ival den)) as (g & E & Wg & Vg).
  { destruct (int_bits_spec den Hd) as [Hb Hb64].
    assert (fix_below num den \/ exists x b, num = Fix x /\ den = Big b /\ ~ (Z.abs x < Z.abs (bval b)))
      as [Hfb|(x & b & -> & -> & Hxb)].
    { destruct num as [x|nb], den as [y|b]; try (by left). cbn.
      destruct (decide (Z.abs x < Z.abs (bval b))); [by left|right; eauto]. }
    - by apply gcd_loop_spec with (int_bits den); try lia.
    - set (k := int_bits (Big b)) in *. replace (2 * k + 3)%nat with (S (2 * k + 2)) by lia.
      cbn [gcd_loop is_fix]. unfold sexp_remainder at 1. cbn [is_fix mbind outcome_bind].
      pose proof (Z.pow_le_mono_r 2 64 (Z.of_nat k) ltac:(lia) ltac:(lia)).
      cbn [iwf] in Hn. unfold SEXP_MIN_FIXNUM, SEXP_MAX_FIXNUM in Hn.
      rewrite Z.gcd_comm. apply gcd_loop_spec with k; try done; [|cbn [ival] in *; lia|lia].
      intros Ez. cbn in Ez. by rewrite Ez. }
  exists g. split_and!; [done..| |].
  - destruct num as [x|]; [|done]. destruct (gcd_num_fix _ x _ _ ltac:(congruence) E) as [z ->]. done.
  - destruct den as [y|]; [|done]. destruct (gcd_den_fix _ _ y _ Hd0 E) as [z ->]. done.
Qed.

(** *** Normalised ratios *)

Definition numer (x : number) : Z := match x with Int n => ival n | Rat n _ => ival n end.
Definition denom (x : number) : Z := match x with Int _ => 1 | Rat _ d => ival d end.

(** An exact rational in normal form. *)
Definition nwf (x : number) : Prop :=
  match x with
  | Int n => inormal n
  | Rat n d => inormal n /\ inormal d /\ 1 < ival d /\ Z.gcd (ival n) (ival d) = 1
  end.

Lemma exact_negative_spec x : iwf x -> ival x <> 0 -> sexp_exact_negativep x = (ival x <? 0).
Proof.
  destruct x as [z|b]; [done|]. cbn. intros Hb Hnz. pose proof (mag_nonneg b Hb).
  unfold bval in *. destruct Hb as ([E|E] & _); rewrite E in *; zcases.
Qed.

Lemma fix_sign_spec num den : iwf num -> iwf den -> ival den <> 0 -> den <> Fix SEXP_MIN_FIXNUM ->
  exists n d, ratio_fix_sign num den = (n, d) /\ iwf n /\ iwf d /\ 0 < ival d /\
    ival d = Z.abs (ival den) /\ ival n = Z.sgn (ival den) * ival num /\
    (num = Fix 0 -> n = Fix 0) /\ (zero_fix num -> zero_fix n) /\
    (fix_over_normal num den -> ival num <> 0 \/ num = Fix 0 -> fix_over_normal n d).
Proof.
  intros Hn Hd Hnz Hmin. unfold ratio_fix_sign. rewrite exact_negative_spec by done.
  destruct (Z.ltb_spec (ival den) 0) as [Hneg|Hpos].
  - set (n1 := match num with Fix _ => _ | Big _ => _ end).
    assert (iwf n1 /\ ival n1 = ival num /\ ival n1 <> SEXP_MIN_FIXNUM \/
            exists b, n1 = Big b /\ wf b /\ bval b = ival num) as Hn1.
    { destruct num as [z|b]; [|right; by exists b]. unfold n1.
      destruct (Z.eqb_spec z SEXP_MIN_FIXNUM) as [->|]; [right|by left].
      destruct (fixnum_to_bignum_spec SEXP_MIN_FIXNUM Hn) as (? & ? & _). eexists; split_and!; done. }
    assert (iwf (sexp_negate_exact n1) /\ ival (sexp_negate_exact n1) = - ival num) as [Wn Vn].
    { destruct Hn1 as [(W & <- & ?)|(b & -> & W & <-)]; [by apply negate_exact_spec|by apply negate_big]. }
    assert (iwf (sexp_negate_exact den) /\ ival (sexp_negate_exact den) = - ival den) as [Wd Vd].
    { destruct den as [z|b]; [|by apply negate_big]. apply negate_exact_spec; [done|]. cbn. congruence. }
    do 2 eexists; split; [done|]. rewrite Vn, Vd, Z.sgn_neg by done.
    split_and!; try done; try lia.
    + intros ->. done.
    + intros Hz E. rewrite Vn in E. pose proof (Hz ltac:(lia)) as ->. done.
    + intros Hfn Hz. destruct den as [y|b]; [by destruct (sexp_negate_exact n1)|].
      destruct num as [z|nb]; [|done].
      assert (inormal (sexp_negate_exact (Big b))) as Nb.
      { destruct Hfn as [Wb Hb]. split; [apply Wd|]. cbn [ival sexp_negate_exact] in Hneg, Vd. rewrite Vd.
        unfold SEXP_MIN_FIXNUM, SEXP_MAX_FIXNUM in *. lia. }
      by destruct (sexp_negate_exact n1).
  - do 2 eexists; split; [done|]. rewrite Z.sgn_pos by lia. split_and!; try done; try lia.
Qed.

(** The quotients by the divisor. *)
Lemma quot_exact g x : g <> 0 -> (g | x) -> exists y, Z.quot x g = y /\ x = y * g.
Proof. intros Hg [y ->]. exists y. rewrite Z.quot_mul by done. done. Qed.

Lemma lowest_terms num den g : 0 < den -> Z.abs g = Z.gcd num den ->
  g <> 0 /\ (g | num) /\ (g | den) /\
  forall n d, num = n * g -> den = d * g -> Z.gcd n d = 1 /\ d <> 0 /\ Z.abs d = den / Z.gcd num den.
Proof.
  intros Hd Hg. assert (g <> 0) as Hg0.
  { intros ->. symmetry in Hg. apply Z.gcd_eq_0 in Hg. lia. }
  split_and!; [done|apply Z.divide_abs_l; rewrite Hg; apply Z.gcd_divide_l
    |apply Z.divide_abs_l; rewrite Hg; apply Z.gcd_divide_r|].
  intros n d En Ed.
  assert (Z.gcd n d * Z.abs g = Z.abs g * 1) as E.
  { rewrite <- Z.gcd_mul_mono_r, <- En, <- Ed. lia. }
  split_and!; [nia|nia|]. rewrite <- Hg. rewrite <- (Z.abs_eq den), Ed, Z.abs_mul, Z.div_mul by lia. done.
Qed.

Lemma ratio_normalize_spec num den : iwf num -> iwf den -> ival den <> 0 -> zero_fix num ->
  fix_over_normal num den -> den <> Fix SEXP_MIN_FIXNUM ->
  Z.abs (ival den) / Z.gcd (ival num) (ival den) <> 2 ^ 62 ->
  exists r, sexp_ratio_normalize num den = Ok r /\ nwf r /\ numer r * ival den = ival num * denom r.
Proof.
  intros Hn Hd Hnz Hzn Hfn Hmin Hden. unfold sexp_ratio_normalize.
  destruct (fix_sign_spec num den Hn Hd Hnz Hmin)
    as (n & d & -> & Wn & Wd & Hpos & Vd & Vn & Hn0 & Hzn' & Hfn').
  assert (fix_over_normal n d) as Hfn1.
  { apply Hfn'; [done|]. destruct (decide (ival num = 0)); [right; auto|by left]. }
  rewrite is_fix_0 by (intros E; lia). destruct (Z.eqb_spec (ival d) 0); [lia|].
  rewrite is_fix_0 by auto. destruct (Z.eqb_spec (ival n) 0) as [E0|Hn1].
  { eexists; split_and!; [done| |]; cbn; unfold SEXP_MIN_FIXNUM, SEXP_MAX_FIXNUM; [lia|].
    rewrite Vn in E0. lia. }
  destruct (gcd_spec n d Wn Wd ltac:(intros E; lia) Hfn1 ltac:(by intros ->) ltac:(lia))
    as (g & -> & Wg & Vg & Hbn & Hbd). cbn [mbind outcome_bind].
  destruct (lowest_terms _ _ _ Hpos Vg) as (Hg0 & Dn & Dd & Hlow).
  destruct (quotient_spec d g Wd Wg Hg0 Hbd) as (d2 & -> & Wd2 & Ed2).
  destruct (quotient_spec n g Wn Wg Hg0 Hbn) as (n2 & -> & Wn2 & En2). cbn [mbind outcome_bind].
  destruct (quot_exact _ _ Hg0 Dd) as (y & Ey & Vy), (quot_exact _ _ Hg0 Dn) as (x & Ex & Vx).
  rewrite Ey in Ed2. rewrite Ex in En2. subst x y. destruct (Hlow _ _ Vx Vy) as (Hgcd & Hd2 & Habs).
  assert (Z.gcd (ival n) (ival d) = Z.gcd (ival num) (ival den)) as Eg.
  { rewrite Vn, Vd, Z.gcd_abs_r. destruct (Z.sgn_spec (ival den)) as [[? ->]|[[? _]|[? ->]]]; [|lia|].
    - by rewrite Z.mul_1_l.
    - replace (-1 * ival num) with (- ival num) by lia. by rewrite Z.gcd_opp_l. }
  rewrite Eg, Vd in Habs.
  assert (d2 <> Fix SEXP_MIN_FIXNUM) as Hmin2.
  { intros ->. cbn in Habs. unfold SEXP_MIN_FIXNUM, SEXP_MAX_FIXNUM in Habs. lia. }
  destruct (fix_sign_spec n2 d2 Wn2 Wd2 Hd2 Hmin2)
    as (n3 & d3 & -> & Wn3 & Wd3 & Hpos3 & Vd3 & Vn3 & _).
  destruct (normalize_spec n3 Wn3) as [Nn En]. destruct (normalize_spec d3 Wd3) as [Nd Ed].
  set (n4 := sexp_bignum_normalize n3) in *. set (d4 := sexp_bignum_normalize d3) in *.
  assert (ival n4 * ival den = ival num * ival d4) as Hval.
  { rewrite En, Ed, Vn3, Vd3. rewrite <- (Z.abs_sgn (ival den)), <- Vd, Vy.
    assert (ival num = Z.sgn (ival den) * (ival n2 * ival g)) as ->.
    { rewrite <- Vx, Vn. destruct (Z.sgn_spec (ival den)) as [[? ->]|[[? _]|[? ->]]]; lia. }
    rewrite <- (Z.sgn_abs (ival d2)). ring. }
  destruct (is_fix d4 1) eqn:E1.
  - apply is_fix_true in E1. eexists; split_and!; [done..|]. cbn [numer denom]. rewrite Hval, E1. done.
  - eexists; split_and!; [done| |done]. cbn [nwf]. split_and!; [done..| |].
    + assert (ival d4 <> 1); [|lia]. intros E. rewrite (inormal_fix d4 Nd), E in E1; [done|].
      rewrite E. done.
    + rewrite En, Ed, Vn3, Vd3, Z.gcd_abs_r.
      destruct (Z.sgn_spec (ival d2)) as [[? ->]|[[? _]|[? ->]]]; [|lia|].
      * by rewrite Z.mul_1_l.
      * replace (-1 * ival n2) with (- ival n2) by lia. by rewrite Z.gcd_opp_l.
Qed.

(** *** Ratio arithmetic *)

(** The denominators the normalisation gets right: it negates
    [SEXP_MIN_FIXNUM] to itself. *)
Definition den_ok (num den : Z) : Prop :=
  den <> SEXP_MIN_FIXNUM /\ Z.abs den / Z.gcd num den <> 2 ^ 62.

Definition rwf (n d : exint) : Prop := inormal n /\ inormal d /\ 0 < ival d.

Lemma as_ratio_spec x : nwf x ->
  let '(n, d) := as_ratio x in rwf n d /\ ival n = numer x /\ ival d = denom x.
Proof.
  destruct x as [n|n d]; cbn [as_ratio nwf].
  - intros Hn. split; [|done]. split_and!; [done| |done].
    cbn. unfold SEXP_MIN_FIXNUM, SEXP_MAX_FIXNUM. lia.
  - intros (? & ? & ? & _). split; [|done]. split_and!; [done..|lia].
Qed.

Lemma normalize_normal num den N D : inormal num -> inormal den -> ival num = N -> ival den = D ->
  D <> 0 -> den_ok N D ->
  exists r, sexp_ratio_normalize num den = Ok r /\ nwf r /\ numer r * D = N * denom r.
Proof.
  intros Hn Hd <- <- Hnz [Hmin Hden].
  apply ratio_normalize_spec; auto.
  - by apply inormal_zero_fix.
  - by destruct num, den.
  - intros ->. done.
Qed.

Lemma ratio_add_spec an ad bn bd : rwf an ad -> rwf bn bd ->
  let N := ival an * ival bd + ival bn * ival ad in
  den_ok N (ival ad * ival bd) ->
  exists r, sexp_ratio_add an ad bn bd = Ok r /\ nwf r /\ numer r * (ival ad * ival bd) = N * denom r.
Proof.
  intros (Han & Had & Hpa) (Hbn & Hbd & Hpb) N Hden. unfold sexp_ratio_add.
  destruct (int_mul_spec (T:=T) an bd) as (x & -> & Nx & Vx); auto.
  destruct (int_mul_spec (T:=T) bn ad) as (y & -> & Ny & Vy); auto. cbn [lift mbind outcome_bind].
  destruct (add_spec x y) as (z & -> & Nz & Vz); auto. cbn [lift mbind outcome_bind].
  destruct (int_mul_spec (T:=T) ad bd) as (w & -> & Nw & Vw); auto. cbn [lift mbind outcome_bind].
  apply normalize_normal; try done; [by rewrite Vz, Vx, Vy|nia].
Qed.

Lemma ratio_mul_spec an ad bn bd : rwf an ad -> rwf bn bd ->
  den_ok (ival an * ival bn) (ival ad * ival bd) ->
  exists r, sexp_ratio_mul an ad bn bd = Ok r /\ nwf r /\
    numer r * (ival ad * ival bd) = ival an * ival bn * denom r.
Proof.
  intros (Han & Had & Hpa) (Hbn & Hbd & Hpb) Hden. unfold sexp_ratio_mul.
  destruct (int_mul_spec (T:=T) an bn) as (x & -> & Nx & Vx); auto. cbn [lift mbind outcome_bind].
  destruct (int_mul_spec (T:=T) ad bd) as (w & -> & Nw & Vw); auto. cbn [lift mbind outcome_bind].
  apply normalize_normal; try done. nia.
Qed.

Lemma ratio_div_spec an ad bn bd : rwf an ad -> rwf bn bd -> ival bn <> 0 ->
  den_ok (ival an * ival bd) (ival ad * ival bn) ->
  exists r, sexp_ratio_div an ad bn bd = Ok r /\ nwf r /\
    numer r * (ival ad * ival bn) = ival an * ival bd * denom r.
Proof.
  intros (Han & Had & Hpa) (Hbn & Hbd & Hpb) Hnz Hden. unfold sexp_ratio_div.
  destruct (int_mul_spec (T:=T) an bd) as (x & -> & Nx & Vx); auto. cbn [lift mbind outcome_bind].
  destruct (int_mul_spec (T:=T) ad bn) as (w & -> & Nw & Vw); auto. cbn [lift mbind outcome_bind].
  apply normalize_normal; try done. nia.
Qed.

(** *** Rounding *)

Lemma fix_below_ratio n d : rwf n d -> 1 < ival d -> Z.gcd (ival n) (ival d) = 1 -> fix_below n d.
Proof.
  intros (Hn & Hd & _) Hd1 Hg.
  destruct n as [x|nb], d as [y|b]; try done. cbn in *. unfold SEXP_MIN_FIXNUM, SEXP_MAX_FIXNUM in *.
  destruct Hd as [_ Hd]. destruct (decide (x = - 2 ^ 62 /\ bval b = 2 ^ 62)) as [[-> E]|]; [|lia].
  rewrite E in Hg. done.
Qed.

Lemma quotient_ratio n d : rwf n d -> 1 < ival d ->
  Z.gcd (ival n) (ival d) = 1 -> exists q, sexp_quotient n d = Ok q /\ iwf q /\ ival q = Z.quot (ival n) (ival d).
Proof.
  intros Hr Hd1 Hg. pose proof Hr as (Hn & Hd & _). apply quotient_spec; auto; [lia|].
  by apply fix_below_ratio.
Qed.

Lemma iwf_add a k : iwf a -> -1 <= k <= 1 ->
  exists c, Integers.sexp_add a (Fix k) = Some c /\ inormal c /\ ival c = ival a + k.
Proof. intros Ha Hk. apply add_spec; [done|]. cbn. unfold SEXP_MIN_FIXNUM, SEXP_MAX_FIXNUM. lia. Qed.

(** A number in lowest terms is not an integer multiple of its denominator. *)
Lemma quot_floor n d : 1 < d -> Z.gcd n d = 1 ->
  Z.div n d = Z.quot n d + (if n <? 0 then -1 else 0) /\ n mod d <> 0.
Proof.
  intros Hd Hg. assert (n mod d <> 0) as Hm.
  { intros E. apply Z.mod_divide in E; [|lia]. apply Z.divide_gcd_iff in E; [|lia].
    rewrite Z.gcd_comm in E. lia. }
  split; [|done]. pose proof (Z.div_mod n d ltac:(lia)). pose proof (Z.mod_pos_bound n d ltac:(lia)).
  destruct (Z.ltb_spec n 0).
  - replace n with (- - n) at 2 by lia. rewrite Z.quot_opp_l, Z.quot_div_nonneg by lia.
    assert (- n / d = - (n / d) - 1); [|lia]. symmetry. apply Z.div_unique_pos with (d - n mod d); lia.
  - rewrite Z.quot_div_nonneg by lia. lia.
Qed.

Lemma floor_spec n d : rwf n d -> 1 < ival d -> Z.gcd (ival n) (ival d) = 1 ->
  exists z, sexp_ratio_floor n d = Ok z /\ iwf z /\ ival z = ival n / ival d.
Proof.
  intros Hr Hd Hg. destruct (quot_floor _ _ Hd Hg) as [Ef Hm]. unfold sexp_ratio_floor.
  destruct (quotient_ratio n d Hr Hd Hg) as (q & -> & Wq & Vq). cbn [mbind outcome_bind].
  destruct Hr as (Hn & _). rewrite exact_negative_spec; [|auto|].
  - destruct (ival n <? 0).
    + destruct (iwf_add q (-1)) as (c & -> & Nc & Vc); [done|lia|]. exists c. cbn. split_and!; auto. lia.
    + exists q. split_and!; auto. lia.
  - intros E. rewrite E, Z.mod_0_l in Hm by lia. done.
Qed.

Lemma exact_positive_spec x : iwf x -> ival x <> 0 -> sexp_exact_positivep x = (0 <? ival x).
Proof.
  destruct x as [z|b]; [done|]. cbn. intros Hb Hnz. pose proof (mag_nonneg b Hb).
  unfold bval in *. destruct Hb as ([E|E] & _); rewrite E in *; zcases.
Qed.

Lemma ceiling_spec n d : rwf n d -> 1 < ival d -> Z.gcd (ival n) (ival d) = 1 ->
  exists z, sexp_ratio_ceiling n d = Ok z /\ iwf z /\ ival z = - (- ival n / ival d).
Proof.
  intros Hr Hd Hg.
  destruct (quot_floor (- ival n) _ Hd ltac:(by rewrite Z.gcd_opp_l)) as [Ef Hm]. unfold sexp_ratio_ceiling.
  destruct (quotient_ratio n d Hr Hd Hg) as (q & -> & Wq & Vq). cbn [mbind outcome_bind].
  rewrite Z.quot_opp_l in Ef by lia.
  destruct Hr as (Hn & _). rewrite exact_positive_spec; [|auto|].
  - assert ((0 <? ival n) = (- ival n <? 0)) as -> by zcases. destruct (- ival n <? 0).
    + destruct (iwf_add q 1) as (c & -> & Nc & Vc); [done|lia|]. exists c. cbn. split_and!; auto. lia.
    + exists q. split_and!; auto. lia.
  - intros E. rewrite E in Hm. by rewrite Z.mod_0_l in Hm by lia.
Qed.

Lemma oddp_spec x : iwf x -> sexp_oddp x = Z.odd (ival x).
Proof.
  destruct x as [z|b]; [done|]. cbn. intros Hb. rewrite rd0_mod by done. unfold bval.
  assert (Z.odd (mag b mod 2 ^ 64) = Z.odd (mag b)) as ->.
  { rewrite <- !Z.bit0_odd, Z.mod_pow2_bits_low by lia. done. }
  destruct Hb as ([-> | ->] & _); [by rewrite Z.mul_1_l|].
  replace (-1 * mag b) with (- mag b) by lia. by rewrite Z.odd_opp.
Qed.

(** The comparison of twice a remainder with the denominator. *)
Lemma compare_half r d : inormal r -> inormal d -> 1 < ival d -> Z.abs (ival r) < 2 * ival d ->
  (forall b, d = Big b -> Z.of_nat (sexp_bignum_hi b) < 2 ^ 30) ->
  exists c, Integers.sexp_compare (if sexp_exact_negativep r then sexp_negate_exact r else r) d = Fix c /\
    (ival r <> - 2 ^ 62 -> Z.sgn c = Z.sgn (Z.abs (ival r) - ival d)) /\
    (ival r = - 2 ^ 62 -> ival d <> 2 ^ 62 -> (c >? 0) = (2 ^ 62 >? ival d)).
Proof.
  intros Hr Hd Hd1 Hlt Hhi.
  assert (exists r', (if sexp_exact_negativep r then sexp_negate_exact r else r) = r' /\ iwf r' /\
    (ival r <> - 2 ^ 62 -> inormal r' /\ ival r' = Z.abs (ival r)) /\
    (ival r = - 2 ^ 62 -> r' = Fix (- 2 ^ 62))) as (r' & -> & Wr' & Hr' & Hmin).
  { destruct (decide (ival r = - 2 ^ 62)) as [E|E].
    - pose proof (inormal_fix r Hr ltac:(rewrite E; unfold SEXP_MIN_FIXNUM, SEXP_MAX_FIXNUM; lia)) as ->.
      rewrite E. exists (Fix (- 2 ^ 62)). split; [done|]. split; [|done].
      cbn -[Z.pow]. unfold SEXP_MIN_FIXNUM, SEXP_MAX_FIXNUM. lia.
    - eexists; split; [done|]. destruct (decide (ival r = 0)) as [E0|E0].
      + rewrite (inormal_fix r Hr) by (rewrite E0; done). rewrite E0. cbn.
        unfold SEXP_MIN_FIXNUM, SEXP_MAX_FIXNUM. split_and!; [lia|lia| |done]. intros _. split; [lia|done].
      + rewrite exact_negative_spec by auto. destruct (Z.ltb_spec (ival r) 0).
        * destruct (negate_exact_spec r ltac:(auto)) as [W V]; [done|]. split_and!; [done| |done].
          intros _. split; [|lia]. destruct r as [z|b]; [done|]. split; [done|].
          destruct Hr as [_ Hr]. cbn [ival] in *. unfold SEXP_MIN_FIXNUM, SEXP_MAX_FIXNUM in *.
          cbn [sexp_negate_exact ival] in V. lia.
        * split_and!; auto; [|done]. intros _. split; [done|lia]. }
  destruct (decide (ival r = - 2 ^ 62)) as [E|E].
  - rewrite (Hmin E). destruct d as [y|b]; cbn [Integers.sexp_compare].
    + eexists; split; [done|]. split; [done|]. intros _ Hne. cbn in *. unfold SEXP_MIN_FIXNUM, SEXP_MAX_FIXNUM in *.
      unfold swrap. assert ((- 2 ^ 62 - y + 2 ^ (63 - 1)) mod 2 ^ 63 - 2 ^ (63 - 1) = 2 ^ 62 - y) as ->.
      { change (2 ^ (63 - 1)) with (2 ^ 62). rewrite <- (Z.mod_unique _ (2 ^ 63) (-1) (2 ^ 63 - y)); lia. }
      zcases.
    + destruct Hd as [Hb Hd]. rewrite compare_fix_big_spec; [|unfold SEXP_MIN_FIXNUM, SEXP_MAX_FIXNUM; lia|done].
      eexists; split; [done|]. split; [done|]. intros _ Hne. cbn in *.
      unfold SEXP_MIN_FIXNUM, SEXP_MAX_FIXNUM in *. rewrite Z.sgn_neg by lia. zcases.
  - destruct (Hr' E) as [Nr Vr]. destruct (compare_spec r' d Nr Hd) as (c & -> & Hc).
    + destruct r' as [x|x], d as [y|b]; try done; cbn in *; unfold SEXP_MIN_FIXNUM, SEXP_MAX_FIXNUM in *; [lia|].
      specialize (Hhi b eq_refl). destruct Nr as [Wx _], Hd as [Wb _]. split; [|lia].
      destruct (hi_spec x Wx) as (_ & _ & _ & _ & [?|Hx]); [lia|].
      destruct (hi_spec b Wb) as (_ & _ & _ & Hbm & _). pose proof (Bp_S (sexp_bignum_hi b)).
      pose proof (bval_abs x Wx). pose proof (bval_abs b Wb).
      destruct (decide (sexp_bignum_hi x - 1 <= S (sexp_bignum_hi b))%nat); [lia|].
      pose proof (Bp_mono (S (sexp_bignum_hi b)) (sexp_bignum_hi x - 1) ltac:(lia)). lia.
    + exists c. split_and!; [done| |done]. by rewrite Hc, Vr.
Qed.

(** A tie only with the denominator 2. *)
Lemma tie_two n d q r : 0 < d -> Z.gcd n d = 1 -> n = d * q + r -> 2 * Z.abs r = d -> d = 2.
Proof.
  intros Hd Hg En Ht. assert (Z.abs r = 1); [|lia].
  assert (Z.abs r | 1) as Hk; [|apply Z.divide_1_r_abs in Hk; lia]. rewrite <- Hg. apply Z.gcd_greatest.
  - apply Z.divide_abs_l. rewrite En. apply Z.divide_add_r; [|apply Z.divide_refl].
    apply Z.divide_mul_l. rewrite <- Ht. apply Z.divide_mul_r, Z.divide_abs_r, Z.divide_refl.
  - rewrite <- Ht. apply Z.divide_mul_r, Z.divide_refl.
Qed.

(** [sexp_ratio_round] returns a nearest integer, the even one of a tie. *)
Lemma round_spec n d : rwf n d -> 1 < ival d -> Z.gcd (ival n) (ival d) = 1 ->
  (forall b, d = Big b -> Z.of_nat (sexp_bignum_hi b) < 2 ^ 30) ->
  exists z, sexp_ratio_round n d = Ok z /\ iwf z /\
    2 * Z.abs (ival n - ival z * ival d) <= ival d /\
    (2 * Z.abs (ival n - ival z * ival d) = ival d -> Z.even (ival z) = true).
Proof.
  intros Hr Hd Hg Hhi. pose proof Hr as (Nn & Nd & _). unfold sexp_ratio_round.
  destruct (quotient_ratio n d Hr Hd Hg) as (q & -> & Wq & Vq). cbn [mbind outcome_bind].
  destruct (remainder_spec n d) as (r & Er & Nr & Vr); [auto|auto|lia|by apply fix_below_ratio|].
  pose proof (Z.quot_rem' (ival n) (ival d)) as En. rewrite <- Vq, <- Vr in En.
  pose proof (Z.rem_bound_abs (ival n) (ival d) ltac:(lia)) as Hb. rewrite <- Vr in Hb.
  pose proof (Z.rem_sign_mul (ival n) (ival d) ltac:(lia)) as Hs. rewrite <- Vr in Hs.
  pose proof (tie_two (ival n) (ival d) (ival q) (ival r) ltac:(lia) Hg En) as Htie.
  assert (ival r <> 0) as Hr0.
  { intros E. destruct (quot_floor _ _ Hd Hg) as [_ Hm]. apply Hm. rewrite En, E, Z.add_0_r, Z.mul_comm.
    apply Z.mod_mul. lia. }
  assert (ival n <> 0) as Hn0 by (intros E; rewrite E in Hg; rewrite Z.gcd_0_l in Hg; lia).
  rewrite oddp_spec by done. destruct (is_fix d 2 && Z.odd (ival q)) eqn:C.
  - apply andb_true_iff in C as [C1%is_fix_true C2]. subst d. cbn [ival] in *.
    assert (ival q <> 0) as Hq0 by (intros E; rewrite E in C2; done).
    rewrite exact_positive_spec by done.
    destruct (Z.ltb_spec 0 (ival q)).
    + destruct (iwf_add q 1 Wq ltac:(lia)) as (z & -> & Nz & Vz). exists z. cbn [lift]. rewrite Vz.
      split_and!; [done|auto|nia|]. intros _. by rewrite Z.even_add, <- Z.negb_odd, C2.
    + destruct (iwf_add q (-1) Wq ltac:(lia)) as (z & -> & Nz & Vz). exists z. cbn [lift]. rewrite Vz.
      split_and!; [done|auto|nia|]. intros _. by rewrite Z.even_add, <- Z.negb_odd, C2.
  - rewrite Er. cbn [mbind outcome_bind].
    destruct (int_mul_spec (T:=T) r (Fix 2)) as (r2 & -> & Nr2 & Vr2);
      [auto|cbn; unfold SEXP_MIN_FIXNUM, SEXP_MAX_FIXNUM; lia|]. cbn [lift mbind outcome_bind ival] in *.
    destruct (compare_half r2 d Nr2 Nd Hd ltac:(lia) Hhi) as (c & -> & Hc1 & Hc2).
    assert (2 * Z.abs (ival r) = ival d -> Z.even (ival q) = true) as Heven.
    { intros Ht. specialize (Htie Ht). rewrite (inormal_fix d Nd), Htie in C by
        (rewrite Htie; unfold SEXP_MIN_FIXNUM, SEXP_MAX_FIXNUM; lia).
      cbn in C. by rewrite <- Z.negb_odd, C. }
    assert ((c >? 0) = (2 * Z.abs (ival r) >? ival d)) as ->.
    { destruct (decide (ival r2 = - 2 ^ 62)) as [E|E].
      - rewrite Hc2; [f_equal; lia|done|]. intros E'. specialize (Htie ltac:(lia)). lia.
      - specialize (Hc1 E). rewrite Vr2 in Hc1. destruct c; zcases. }
    assert (ival n = ival d * ival q + ival r) as En' by lia. clear En.
    destruct (Z.gtb_spec (2 * Z.abs (ival r)) (ival d)).
    + rewrite exact_negative_spec by auto. destruct (Z.ltb_spec (ival n) 0).
      * destruct (iwf_add q (-1) Wq ltac:(lia)) as (z & -> & Nz & Vz). exists z. cbn [lift]. rewrite Vz, En'.
        replace (ival d * ival q + ival r - (ival q + -1) * ival d) with (ival r + ival d) by ring.
        assert (ival r < 0) by nia. split_and!; [done|auto|lia|lia].
      * destruct (iwf_add q 1 Wq ltac:(lia)) as (z & -> & Nz & Vz). exists z. cbn [lift]. rewrite Vz, En'.
        replace (ival d * ival q + ival r - (ival q + 1) * ival d) with (ival r - ival d) by ring.
        assert (0 < ival r) by nia. split_and!; [done|auto|lia|lia].
    + exists q. rewrite En'. replace (ival d * ival q + ival r - ival q * ival d) with (ival r) by ring.
      split_and!; [done|done|lia|done].
Qed.
End number_facts.

(** ** Properties *)

Section properties.
Context {T : Type} `{LongUIntOk T}.

(** Truncated division of exact integers: [sexp_quotient] and
    [sexp_remainder] of normal integers return the quotient rounded towards
    zero and the remainder with the sign of the dividend, for every pair but
    [SEXP_MIN_FIXNUM] over its negation. *)
Theorem quotient_remainder_correct (a b : exint) : inormal a -> inormal b -> ival b <> 0 ->
  ~ (ival a = SEXP_MIN_FIXNUM /\ ival b = - SEXP_MIN_FIXNUM) ->
  exists q r, sexp_quotient a b = Ok q /\ sexp_remainder a b = Ok r /\ iwf q /\ inormal r /\
    ival q = Z.quot (ival a) (ival b) /\ ival r = Z.rem (ival a) (ival b).
Proof.
  intros Ha Hb Hnz Hmin.
  assert (fix_below a b) as Hfb.
  { destruct a as [x|x], b as [y|y]; try done. destruct Hb as [_ Hb]. cbn [inormal ival fix_below] in *.
    unfold SEXP_MIN_FIXNUM, SEXP_MAX_FIXNUM in *. lia. }
  destruct (quotient_spec a b) as (q & Eq & Wq & Vq); auto.
  destruct (remainder_spec a b) as (r & Er & Nr & Vr); auto. exists q, r. by split_and!.
Qed.

(** C9 (functional).  Exact rational arithmetic: the sum, the product and the
    quotient of numbers in normal form (integers, or ratios in lowest terms
    with a denominator above 1) are the rational results in normal form,
    whenever the denominators involved are ones the normalisation can negate
    ([den_ok]). *)
Theorem exact_rational_correct (a b : number) : nwf a -> nwf b ->
  let na := numer a in let da := denom a in let nb := numer b in let db := denom b in
  (den_ok (na * db + nb * da) (da * db) ->
   exists r, sexp_add a b = Ok r /\ nwf r /\ numer r * (da * db) = (na * db + nb * da) * denom r) /\
  (den_ok (na * nb) (da * db) ->
   exists r, sexp_mul a b = Ok r /\ nwf r /\ numer r * (da * db) = na * nb * denom r) /\
  (nb <> 0 -> den_ok (na * db) (da * nb) ->
   exists r, sexp_div a b = Ok r /\ nwf r /\ numer r * (da * nb) = na * db * denom r).
Proof.
  intros Wa Wb na da nb db. pose proof (as_ratio_spec a Wa) as Ra. pose proof (as_ratio_spec b Wb) as Rb.
  destruct a as [x|an ad], b as [y|bn bd]; cbn [as_ratio] in Ra, Rb; cbn [numer denom nwf] in *;
    destruct Ra as (Ra & _), Rb as (Rb & _); unfold na, da, nb, db in *; clear na da nb db; split_and!.
  - intros _. destruct (add_spec x y) as (r & E & N & V); auto. exists (Int r).
    cbn [sexp_add numer denom]. rewrite E. cbn. split_and!; [done..|]. lia.
  - intros _. destruct (int_mul_spec (T:=T) x y) as (r & E & N & V); auto. exists (Int r).
    cbn [sexp_mul numer denom]. rewrite E. cbn. split_and!; [done..|]. lia.
  - intros Hnz Hd. apply normalize_normal; try done; lia.
  - intros Hd. apply (ratio_add_spec x (Fix 1) bn bd); done.
  - intros Hd. apply (ratio_mul_spec x (Fix 1) bn bd); done.
  - intros Hnz Hd. apply (ratio_div_spec x (Fix 1) bn bd); done.
  - intros Hd. destruct (ratio_add_spec y (Fix 1) an ad) as (r & E & N & V); try done.
    + cbn [ival]. by rewrite (Z.add_comm (ival y * _)), (Z.mul_comm 1).
    + exists r. split_and!; [done..|]. cbn [ival] in V.
      rewrite (Z.add_comm (ival an * _)), (Z.mul_comm (ival ad)). done.
  - intros Hd. destruct (ratio_mul_spec y (Fix 1) an ad) as (r & E & N & V); try done.
    + cbn [ival]. by rewrite (Z.mul_comm (ival y)), (Z.mul_comm 1).
    + exists r. split_and!; [done..|]. cbn [ival] in V.
      rewrite (Z.mul_comm (ival an)), (Z.mul_comm (ival ad)). done.
  - intros Hnz Hd. apply (ratio_div_spec an ad y (Fix 1)); done.
  - intros Hd. by apply (ratio_add_spec an ad bn bd).
  - intros Hd. by apply (ratio_mul_spec an ad bn bd).
  - intros Hnz Hd. by apply (ratio_div_spec an ad bn bd).
Qed.

(** Rounding a ratio: [floor], [ceiling], [truncate] and
    [round] of a number in lowest terms, the last one to a nearest integer and
    to the even one of a tie. *)
Theorem ratio_rounding_correct (n d : exint) : nwf (Rat n d) ->
  (forall b, d = Big b -> Z.of_nat (sexp_bignum_hi b) < 2 ^ 30) ->
  exists f c t r, sexp_ratio_floor n d = Ok f /\ sexp_ratio_ceiling n d = Ok c /\
    sexp_ratio_trunc n d = Ok t /\ sexp_ratio_round n d = Ok r /\
    ival f = ival n / ival d /\ ival c = ival f + 1 /\ ival t = Z.quot (ival n) (ival d) /\
    2 * Z.abs (ival n - ival r * ival d) <= ival d /\
    (2 * Z.abs (ival n - ival r * ival d) = ival d -> Z.even (ival r) = true).
Proof.
  intros (Nn & Nd & Hd & Hg) Hhi. assert (rwf n d) as Hr by (split_and!; done || lia).
  destruct (floor_spec n d Hr Hd Hg) as (f & -> & _ & Vf), (ceiling_spec n d Hr Hd Hg) as (c & -> & _ & Vc).
  destruct (quotient_ratio n d Hr Hd Hg) as (t & Et & _ & Vt).
  destruct (round_spec n d Hr Hd Hg Hhi) as (r & -> & _ & V1 & V2).
  exists f, c, t, r. split_and!; try done. rewrite Vf, Vc.
  destruct (quot_floor _ _ Hd Hg) as [_ Hm]. rewrite Z.div_opp_l_nz by lia. lia.
Qed.
End properties.

Lemma quotient_remainder_correct_witness :
  exists q r, sexp_quotient (T:=Z) (Big (Bignum (-1) [0; 1])) (Fix 10) = Ok q /\
    sexp_remainder (T:=Z) (Big (Bignum (-1) [0; 1])) (Fix 10) = Ok r /\ iwf q /\ inormal r /\
    ival q = Z.quot (- 2 ^ 64) 10 /\ ival r = Z.rem (- 2 ^ 64) 10.
Proof.
  refine (quotient_remainder_correct (T:=Z) (Big (Bignum (-1) [0; 1])) (Fix 10) _ _ _ _).
  - split; [concrete_wf|]. vm_compute. intros [H _]. by apply H.
  - vm_compute. split; discriminate.
  - discriminate.
  - intros [_ H]. discriminate.
Defined.

Lemma exact_rational_correct_witness :
  exists r, sexp_add (T:=Z) (Rat (Fix 1) (Fix 6)) (Rat (Fix 3) (Fix 10)) = Ok r /\ nwf r /\
    numer r * (6 * 10) = (1 * 10 + 3 * 6) * denom r.
Proof.
  refine (proj1 (exact_rational_correct (T:=Z) (Rat (Fix 1) (Fix 6)) (Rat (Fix 3) (Fix 10)) _ _) _).
  - split_and!; vm_compute; try (split; discriminate); reflexivity.
  - split_and!; vm_compute; try (split; discriminate); reflexivity.
  - split; vm_compute; discriminate.
Defined.

Lemma ratio_rounding_correct_witness :
  exists f c t r, sexp_ratio_floor (T:=Z) (Fix (-7)) (Fix 2) = Ok f /\
    sexp_ratio_ceiling (T:=Z) (Fix (-7)) (Fix 2) = Ok c /\
    sexp_ratio_trunc (T:=Z) (Fix (-7)) (Fix 2) = Ok t /\ sexp_ratio_round (T:=Z) (Fix (-7)) (Fix 2) = Ok r /\
    ival f = -7 / 2 /\ ival c = ival f + 1 /\ ival t = Z.quot (-7) 2 /\
    2 * Z.abs (-7 - ival r * 2) <= 2 /\ (2 * Z.abs (-7 - ival r * 2) = 2 -> Z.even (ival r) = true).
Proof.
  refine (ratio_rounding_correct (T:=Z) (Fix (-7)) (Fix 2) _ _).
  - split_and!; vm_compute; try (split; discriminate); reflexivity.
  - discriminate.
Defined.

(** [sexp_bignum_expt] with a non-negative fixnum exponent is
    the power, in normal form; the loop ends within the 64 bits of the
    exponent. *)
Theorem bignum_expt_correct {T : Type} `{LongUIntOk T} (a : bignum) (e : Z) :
  wf a -> 0 <= e <= SEXP_MAX_FIXNUM ->
  exists r, sexp_bignum_expt a e = Ok (Int r) /\ inormal r /\ ival r = bval a ^ e.
Proof.
  unfold SEXP_MAX_FIXNUM. intros Ha He. unfold sexp_bignum_expt. rewrite Z.abs_eq by lia.
  destruct (fixnum_to_bignum_spec 1) as (W1 & V1 & _); [unfold SEXP_MIN_FIXNUM, SEXP_MAX_FIXNUM; lia|].
  destruct (expt_loop_spec (T:=T) 63 e (sexp_fixnum_to_bignum 1) a W1 Ha) as (c & -> & Wc & Vc).
  { change (Z.of_nat 63) with 63. lia. }
  cbn [lift mbind outcome_bind]. destruct (Z.ltb_spec e 0); [lia|].
  destruct (normalize_spec (Big c) Wc) as [N V]. eexists; split_and!; [done..|].
  rewrite V. cbn [ival]. rewrite Vc, V1. lia.
Qed.

Lemma bignum_expt_correct_witness :
  exists r, sexp_bignum_expt (T:=Z) (Bignum (-1) [10]) 41 = Ok (Int r) /\ inormal r /\
    ival r = bval (Bignum (-1) [10]) ^ 41.
Proof.
  apply (bignum_expt_correct (T:=Z) (Bignum (-1) [10]) 41); [concrete_wf|].
  vm_compute. split; discriminate.
Defined.

(** The denominators excluded by [den_ok] give wrong signs:
    [(/ 1 (- (expt 2 62)))] and the quotient of 1/2^31 by -2^31/3 are positive,
    because [sexp_negate] of [SEXP_MIN_FIXNUM] is the identity, and
    [(/ -5 (expt 2 62))] is a ratio with a negative denominator, whose value is
    positive. *)
Theorem ratio_min_fixnum_sign :
  sexp_div (T:=Z) (Int (Fix 1)) (Int (Fix SEXP_MIN_FIXNUM)) = Ok (Rat (Fix 1) (Big (Bignum 1 [2 ^ 62]))) /\
  sexp_div (T:=Z) (Rat (Fix 1) (Fix (2 ^ 31))) (Rat (Fix (- 2 ^ 31)) (Fix 3)) =
    Ok (Rat (Fix 3) (Big (Bignum 1 [2 ^ 62]))) /\
  sexp_div (T:=Z) (Int (Fix (-5))) (Int (Big (Bignum 1 [2 ^ 62]))) = Ok (Rat (Fix (-5)) (Fix SEXP_MIN_FIXNUM)) /\
  ~ nwf (Rat (Fix (-5)) (Fix SEXP_MIN_FIXNUM)).
Proof. split_and!; [vm_compute; reflexivity..|]. intros (_ & _ & H & _). vm_compute in H. discriminate. Qed.

(** [sexp_div] of a bignum by a negative fixnum flips the sign of
    the dividend object itself: [sexp_ratio_normalize] negates the numerator of
    the ratio in place, and that numerator is the caller's bignum.  It does so
    for every bignum dividend and every negative fixnum divisor but
    [SEXP_MIN_FIXNUM]. *)
Theorem div_negates_operand {T : Type} `{LongUIntOk T} (a : bignum) (d : Z) :
  inormal (Big a) -> SEXP_MIN_FIXNUM < d < 0 ->
  ratio_normalize_operands (Big a) (Fix d) = Ok (Big (Bignum (- sign a) (data a)), Fix d).
Proof.
  intros Ha Hd. unfold ratio_normalize_operands, ratio_fix_sign. cbn [sexp_exact_negativep].
  destruct (Z.ltb_spec d 0); [|lia]. cbn [sexp_negate_exact].
  unfold sexp_fx_neg. rewrite make_fixnum_id by (unfold SEXP_MIN_FIXNUM, SEXP_MAX_FIXNUM in *; lia).
  cbn [is_fix orb]. destruct (Z.eqb_spec (- d) 0); [lia|].
  destruct Ha as [Wa Na]. destruct (negate_big a Wa) as [Wn Vn]. cbn [sexp_negate_exact iwf ival] in Wn, Vn.
  destruct (gcd_spec (T:=T) (Big (Bignum (- sign a) (data a))) (Fix (- d))) as (g & -> & _ & _ & _ & _);
    [done|cbn; unfold SEXP_MIN_FIXNUM, SEXP_MAX_FIXNUM in *; lia|intros E; cbn in E; lia|done|done
    |cbn; lia|].
  cbn [mbind outcome_bind]. destruct (is_fix g 1); [|done].
  cbn [sexp_exact_negativep]. destruct (Z.ltb_spec (- d) 0); [lia|done].
Qed.

Lemma div_negates_operand_witness :
  ratio_normalize_operands (T:=Z) (Big (Bignum 1 [0; 1])) (Fix (-3))
  = Ok (Big (Bignum (-1) [0; 1]), Fix (-3)).
Proof.
  apply (div_negates_operand (T:=Z) (Bignum 1 [0; 1]) (-3)); [|vm_compute; split; reflexivity].
  split; [concrete_wf|]. vm_compute. intros [_ H]. by apply H.
Defined.
