(* ===== verification/Bits.v ===== *)
(** * Bitwise operations on exact integers

    [lib/srfi/151/bit.c]: conjunction, disjunction, exclusive or, shifts, bit
    counts, lengths and tests, on fixnums and on bignums in sign-magnitude form
    through their two's complements. *)
From S2P Require Import Prelude Limbs Bignum Integers.

(** ** Operations *)

(** The carry loop of [sexp_set_twos_complement]: no final carry. *)
Fixpoint add_carry (ds : list Z) (carry : Z) : list Z :=
  match ds with
  | [] => []
  | n :: ds' =>
      let carry' := if n >? UINT_MAX - carry then 1 else 0 in
      u64 (n + carry) :: (if carry' =? 0 then ds' else add_carry ds' carry')
  end.

Definition sexp_set_twos_complement (a : bignum) : bignum :=
  Bignum (sign a) (add_carry (map (unot 64) (data a)) 1).

Definition sexp_twos_complement (x : bignum) : bignum :=
  if sign x <? 0 then sexp_set_twos_complement (sexp_copy_bignum None x 0) else x.

Definition sexp_fixnum_to_twos_complement (x : Z) (len : nat) : bignum :=
  let fill := if x <? 0 then UINT_MAX else 0 in
  let res := Bignum 1 (u64 (unot 64 (u64 (- x))) :: replicate (len - 1) fill) in
  let res := sexp_bignum_fxadd res 1 in
  let res := if (length (data res) =? len + 1)%nat && (rd (data res) len =? 1)
             then Bignum (sign res) (wr (data res) len UINT_MAX) else res in
  if x <? 0 then Bignum (-1) (data res) else res.

(** [i<len ? data[i] : sign < 0 ? -1 : 0] *)
Definition ext_limb (x : bignum) (i : nat) : Z :=
  if (i <? length (data x))%nat then rd (data x) i else if sign x <? 0 then UINT_MAX else 0.

(** The signed test of the top limb. *)
Definition top_negative (ds : list Z) : bool := s64 (rd ds (length ds - 1)) <? 0.

Definition negate_big_exact (b : bignum) : bignum := Bignum (- sign b) (data b).

(** The bignum branch of [sexp_bit_and], on two complemented operands. *)
Definition bit_and_big (x2 y2 : bignum) : exint :=
  let res := if (length (data y2) <? length (data x2))%nat
             then sexp_copy_bignum None x2 0 else sexp_copy_bignum None y2 0 in
  let res := Bignum (sign res)
               (map (fun i => Z.land (ext_limb x2 i) (ext_limb y2 i)) (seq 0 (length (data res)))) in
  let res :=
    if ((sign x2 <? 0) || (sign y2 <? 0)) && top_negative (data res) then
      let res := sexp_set_twos_complement res in
      if sign res >? 0 then negate_big_exact res else res
    else if sign res <? 0 then negate_big_exact res else res in
  sexp_bignum_normalize (Big res).

Definition bit_and_big_fix (x : bignum) (y : Z) : exint :=
  let x2 := sexp_twos_complement x in
  if y <? 0 then bit_and_big x2 (sexp_fixnum_to_twos_complement y (length (data x2)))
  else sexp_bignum_normalize (sexp_make_fixnum (s64 (Z.land (u64 y) (rd (data x2) 0)))).

Definition sexp_bit_and (x y : exint) : exint :=
  match x, y with
  | Fix x, Fix y => Fix (Z.land x y)
  | Fix x, Big y => bit_and_big_fix y x
  | Big x, Fix y => bit_and_big_fix x y
  | Big x, Big y => bit_and_big (sexp_twos_complement x) (sexp_twos_complement y)
  end.

(** The disjunction of a bignum and a non-negative fixnum, and the exclusive
    or, with [op] the word operation: only the low limb changes. *)
Definition low_limb_op (op : Z -> Z -> Z) (x : bignum) (y : Z) : bignum :=
  let res := sexp_copy_bignum None x 0 in
  let res := if sign res <? 0 then sexp_set_twos_complement res else res in
  let res := Bignum (sign res) (wr (data res) 0 (op (rd (data res) 0) (u64 y))) in
  if sign res <? 0 then sexp_set_twos_complement res else res.

(** The general branch of [sexp_bit_ior]: [res] is the operand that is at least
    as long, [tmp] the complement of the other one. *)
Definition bit_ior_general (res tmp : bignum) : bignum :=
  let res := if sign res <? 0 then sexp_set_twos_complement res else res in
  let res := Bignum (sign res)
               (map (fun i => Z.lor (rd (data res) i) (ext_limb tmp i)) (seq 0 (length (data res)))) in
  if ((sign res <? 0) || (sign tmp <? 0)) && top_negative (data res) then
    let res := sexp_set_twos_complement res in
    if sign res >? 0 then negate_big_exact res else res
  else res.

Definition bit_ior_big_fix (x : bignum) (y : Z) : bignum :=
  if y >=? 0 then low_limb_op Z.lor x y
  else let res := sexp_copy_bignum None x 0 in
       bit_ior_general res (sexp_fixnum_to_twos_complement y (length (data res))).

Definition sexp_bit_ior (x y : exint) : exint :=
  match x, y with
  | Fix x, Fix y => Fix (Z.lor x y)
  | Fix x, Big y => sexp_bignum_normalize (Big (bit_ior_big_fix y x))
  | Big x, Fix y => sexp_bignum_normalize (Big (bit_ior_big_fix x y))
  | Big x, Big y =>
      sexp_bignum_normalize (Big
        (if (length (data y) <=? length (data x))%nat
         then bit_ior_general (sexp_copy_bignum None x 0) (sexp_twos_complement y)
         else bit_ior_general (sexp_copy_bignum None y 0) (sexp_twos_complement x)))
  end.

(** The general branch of [sexp_bit_xor] after the choice of [res] and [tmp]:
    the loop runs over the length of [tmp]; [x_neg] and [y_neg] are the sign
    tests on the operands. *)
Definition bit_xor_general (res tmp : bignum) (x_neg y_neg : bool) : bignum :=
  let res := if sign res <? 0 then sexp_set_twos_complement res else res in
  let len := length (data tmp) in
  let res := Bignum (sign res)
               (map (fun i => Z.lxor (rd (data res) i) (ext_limb tmp i)) (seq 0 len)
                ++ drop len (data res)) in
  let res := if xorb x_neg y_neg then sexp_set_twos_complement res else res in
  if y_neg then negate_big_exact res else res.

Definition bit_xor_big_fix (x : bignum) (y : Z) : bignum :=
  if y >=? 0 then low_limb_op Z.lxor x y
  else bit_xor_general (sexp_copy_bignum None x 0)
         (sexp_fixnum_to_twos_complement y (length (data x))) (sign x <? 0) true.

Definition sexp_bit_xor (x y : exint) : exint :=
  match x, y with
  | Fix x, Fix y => sexp_bignum_normalize (sexp_make_fixnum (Z.lxor x y))
  | Fix x, Big y => sexp_bignum_normalize (Big (bit_xor_big_fix y x))
  | Big x, Fix y => sexp_bignum_normalize (Big (bit_xor_big_fix x y))
  | Big x, Big y =>
      sexp_bignum_normalize (Big
        (if (length (data y) <=? length (data x))%nat
         then bit_xor_general (sexp_copy_bignum None x 0) (sexp_twos_complement y)
                (sign x <? 0) (sign y <? 0)
         else bit_xor_general (sexp_copy_bignum None y 0) (sexp_twos_complement y)
                (sign x <? 0) (sign y <? 0)))
  end.

(** ** Shifts *)

(** [for (i = 0; i < 64; i++) if ((1<<(i+1)) > v) break;]: the last shift
    count is 64, out of range in C; the model takes the count modulo 64, as
    x86 does.  Either way the result is at least 63 there. *)
Fixpoint log2i_loop (fuel : nat) (i v : Z) : Z :=
  match fuel with
  | O => i
  | S fuel => if ushl 64 1 ((i + 1) mod 64) >? v then i else log2i_loop fuel (i + 1) v
  end.

Definition log2i (v : Z) : Z := log2i_loop 64 0 v.

(** The loops over the limbs: from the top down for a right shift, from the
    bottom up for a left one; [tmp] holds the bits that move between limbs. *)
Fixpoint shr_limbs (ds : list Z) (bit_shift : Z) : list Z * Z :=
  match ds with
  | [] => ([], 0)
  | d :: ds' =>
      let '(r, tmp) := shr_limbs ds' bit_shift in
      (u64 (ushr d bit_shift + tmp) :: r, if bit_shift =? 0 then tmp else ushl 64 d (64 - bit_shift))
  end.

Fixpoint shl_limbs (ds : list Z) (bit_shift tmp : Z) : list Z * Z :=
  match ds with
  | [] => ([], tmp)
  | d :: ds' =>
      let '(r, t) := shl_limbs ds' bit_shift (if bit_shift =? 0 then tmp else ushr d (64 - bit_shift)) in
      (u64 (ushl 64 d bit_shift + tmp) :: r, t)
  end.

Definition big_shift (i : bignum) (c : Z) : exint :=
  let len := sexp_bignum_hi i in
  sexp_bignum_normalize
    (if c <? 0 then
       let c := - c in
       let offset := c / 64 in
       let bit_shift := c - offset * 64 in
       if Z.of_nat len <? offset then sexp_make_fixnum (if sign i >? 0 then 0 else -1)
       else
         let off := Z.to_nat offset in
         let res := Bignum (sign i)
                      ((shr_limbs (drop off (take len (data i))) bit_shift).1 ++ [0]) in
         Big (if sign res <? 0 then sexp_bignum_fxadd res 1 else res)
     else
       let offset := c / 64 in
       let bit_shift := c - offset * 64 in
       let '(r, tmp) := shl_limbs (take len (data i)) bit_shift 0 in
       Big (Bignum (sign i)
              (replicate (Z.to_nat offset) 0 ++ r ++ [if bit_shift =? 0 then 0 else tmp]))).

Definition sexp_arithmetic_shift (i : exint) (c : Z) : exint :=
  if c =? 0 then i
  else match i with
  | Fix i =>
      if c <? 0 then
        sexp_bignum_normalize (sexp_make_fixnum (if c >? -64 then Z.shiftr i (- c) else 0))
      else if log2i (u64 i) + c + 1 <? 64 - 1 then
        sexp_bignum_normalize (sexp_make_fixnum (s64 (u64 (ushl 64 (u64 i) c * sexp_fx_sign i))))
      else sexp_bignum_normalize (big_shift (sexp_fixnum_to_bignum i) c)
  | Big b => big_shift b c
  end.

(** ** Counts, lengths and tests *)

(** The parallel population count. *)
Definition bit_count (i : Z) : Z :=
  let i := u64 (i - Z.land (ushr i 1) (UINT_MAX / 3)) in
  let i := u64 (Z.land i (UINT_MAX / 15 * 3) + Z.land (ushr i 2) (UINT_MAX / 15 * 3)) in
  let i := Z.land (u64 (i + ushr i 4)) (UINT_MAX / 255 * 15) in
  ushr (u64 (i * (UINT_MAX / 255))) 56.

Definition sexp_bit_count (x : exint) : Z :=
  match x with
  | Fix i => bit_count (u64 (if i <? 0 then Z.lnot i else i))
  | Big b => fold_left (fun count d => u64 (count + bit_count d)) (data b) 0
  end.

Definition log_table_256 (i : Z) : Z :=
  let lt (n : Z) := replicate 16 n in
  nth (Z.to_nat i)
    ([0; 1; 2; 2; 3; 3; 3; 3; 4; 4; 4; 4; 4; 4; 4; 4]
     ++ lt 5 ++ lt 6 ++ lt 6 ++ lt 7 ++ lt 7 ++ lt 7 ++ lt 7
     ++ lt 8 ++ lt 8 ++ lt 8 ++ lt 8 ++ lt 8 ++ lt 8 ++ lt 8 ++ lt 8) 0.

(** The recursion of [integer_log2] on the high word is one level deep. *)
Definition integer_log2_32 (x : Z) : Z :=
  let tt := ushr x 16 in
  if negb (tt =? 0) then
    let t := ushr tt 8 in
    if negb (t =? 0) then 24 + log_table_256 t else 16 + log_table_256 tt
  else
    let t := ushr x 8 in
    if negb (t =? 0) then 8 + log_table_256 t else log_table_256 x.

Definition integer_log2 (x : Z) : Z :=
  let tt := ushr x 32 in
  if negb (tt =? 0) then integer_log2_32 tt + 32 else integer_log2_32 x.

Definition sexp_integer_length (x : exint) : Z :=
  match x with
  | Fix i => integer_log2 (u64 (if i <? 0 then - i - 1 else i))
  | Big b => let hi := sexp_bignum_hi b in
             integer_log2 (rd (data b) (hi - 1)) + Z.of_nat (hi - 1) * 64
  end.

Inductive bit_set_result := BitSet (b : bool) | BitNegativeIndex.

Definition sexp_bit_set_p (i : Z) (x : exint) : bit_set_result :=
  if i <? 0 then BitNegativeIndex
  else match x with
  | Fix x => BitSet (if i <? 64 then negb (Z.land (u64 x) (ushl 64 1 i) =? 0) else x <? 0)
  | Big b =>
      let pos := i / 64 in
      let rem := i - pos * 64 in
      BitSet (if pos <? Z.of_nat (length (data b))
              then negb (Z.land (rd (data b) (Z.to_nat pos)) (ushl 64 1 rem) =? 0)
              else sign b <? 0)
  end.

(** ** Two's complement values *)

(** The value of a list of limbs extended with ones or zeros. *)
Fixpoint sv (neg : bool) (ds : list Z) : Z :=
  match ds with [] => if neg then -1 else 0 | d :: ds => d + 2 ^ 64 * sv neg ds end.

Lemma sv_dval neg ds : sv neg ds = dval ds - (if neg then Bp (length ds) else 0).
Proof.
  induction ds as [|d ds IH]; cbn [sv dval length]; [rewrite Bp_0; by destruct neg|].
  rewrite IH, Bp_S. destruct neg; ring.
Qed.

Lemma sv_neg neg ds : limbs ds -> (sv neg ds <? 0) = neg.
Proof.
  intros Hds. pose proof (dval_range ds Hds). rewrite sv_dval. destruct neg; zcases.
Qed.

Lemma sv_pad neg ds k :
  sv neg (ds ++ replicate k (if neg then UINT_MAX else 0)) = sv neg ds.
Proof.
  induction ds as [|d ds IH]; cbn [app sv]; [|by rewrite IH].
  induction k as [|k IH]; cbn [replicate sv]; [done|]. rewrite IH. by destruct neg.
Qed.

(** The word operations and their effect on the extension. *)
Class BitOp (op : Z -> Z -> Z) (bop : bool -> bool -> bool) := {
  op_testbit a b i : 0 <= i -> Z.testbit (op a b) i = bop (Z.testbit a i) (Z.testbit b i);
  op_ext a b : op (if a : bool then -1 else 0) (if b : bool then -1 else 0) = if bop a b then -1 else 0;
  bop_ff : bop false false = false;
}.

#[global] Instance land_op : BitOp Z.land andb.
Proof. split; [by intros; rewrite Z.land_spec|by intros [] []|done]. Qed.
#[global] Instance lor_op : BitOp Z.lor orb.
Proof. split; [by intros; rewrite Z.lor_spec|by intros [] []|done]. Qed.
#[global] Instance lxor_op : BitOp Z.lxor xorb.
Proof. split; [by intros; rewrite Z.lxor_spec|by intros [] []|done]. Qed.

Section bit_op.
Context {op : Z -> Z -> Z} {bop : bool -> bool -> bool} `{BitOp op bop}.

Lemma testbit_split x X w i : is_u w x -> 0 <= w -> 0 <= i ->
  Z.testbit (x + 2 ^ w * X) i = if i <? w then Z.testbit x i else Z.testbit X (i - w).
Proof.
  intros Hx Hw Hi. destruct (Z.ltb_spec i w).
  - rewrite <- (Z.mod_pow2_bits_low (x + 2 ^ w * X) w i) by lia.
    by rewrite Z.mul_comm, Z.mod_add, Z.mod_small by (done || lia).
  - replace i with (i - w + w) at 1 by lia. rewrite <- Z.div_pow2_bits by lia.
    by rewrite Z.mul_comm, Z.div_add, Z.div_small, Z.add_0_l by (done || lia).
Qed.

Lemma op_range w a b : 0 <= w -> is_u w a -> is_u w b -> is_u w (op a b).
Proof.
  intros Hw Ha Hb. assert (op a b = op a b mod 2 ^ w) as ->; [|split; apply Z.mod_pos_bound; lia].
  apply Z.bits_inj'. intros i Hi. destruct (decide (i < w)).
  - by rewrite Z.mod_pow2_bits_low.
  - rewrite Z.mod_pow2_bits_high, op_testbit by lia.
    rewrite <- (Z.mod_small a (2 ^ w)), <- (Z.mod_small b (2 ^ w)) by done.
    rewrite !Z.mod_pow2_bits_high by lia. apply bop_ff.
Qed.

Lemma op_split w x X y Y : 0 <= w -> is_u w x -> is_u w y ->
  op (x + 2 ^ w * X) (y + 2 ^ w * Y) = op x y + 2 ^ w * op X Y.
Proof.
  intros Hw Hx Hy. apply Z.bits_inj'. intros i Hi.
  rewrite op_testbit, !testbit_split by (done || by apply op_range).
  destruct (Z.ltb_spec i w); rewrite op_testbit by lia; done.
Qed.

(** Limb-wise operations on complements of the same length. *)
Lemma sv_op n1 n2 l1 l2 : limbs l1 -> limbs l2 -> length l1 = length l2 ->
  limbs (zip_with op l1 l2) /\ sv (bop n1 n2) (zip_with op l1 l2) = op (sv n1 l1) (sv n2 l2).
Proof.
  intros H1. revert l2. induction H1 as [|x l1 Hx H1 IH]; intros [|y l2] H2 Hl; try done; cbn [zip_with sv].
  - split; [done|]. by rewrite op_ext.
  - apply Forall_cons_1 in H2. destruct H2 as [Hy H2]. destruct (IH l2 H2 ltac:(by injection Hl)) as [Hr Er].
    rewrite Er, op_split by (done || lia). split; [|done]. constructor; [apply op_range; done || lia|done].
Qed.

(** A result stays within the bits of the operands. *)
Definition within (k z : Z) : Prop := - 2 ^ k <= z < 2 ^ k.

Lemma within_shiftr k z : 0 <= k -> within k z <-> exists n : bool, Z.shiftr z k = if n then -1 else 0.
Proof.
  intros Hk. rewrite Z.shiftr_div_pow2 by done. unfold within. split.
  - intros Hz. destruct (decide (z < 0)); [exists true|exists false].
    + symmetry. apply Z.div_unique_pos with (z + 2 ^ k); lia.
    + apply Z.div_small. lia.
  - intros [n E]. pose proof (Z.div_mod z (2 ^ k) ltac:(lia)). pose proof (Z.mod_pos_bound z (2 ^ k) ltac:(lia)).
    destruct n; rewrite E in *; lia.
Qed.

Lemma op_shiftr a b k : 0 <= k -> Z.shiftr (op a b) k = op (Z.shiftr a k) (Z.shiftr b k).
Proof.
  intros Hk. apply Z.bits_inj'. intros i Hi. rewrite (op_testbit (op:=op)), !Z.shiftr_spec, (op_testbit (op:=op)) by lia. done.
Qed.

Lemma op_within k a b : 0 <= k -> within k a -> within k b -> within k (op a b).
Proof.
  intros Hk. rewrite !within_shiftr by done. intros [n1 E1] [n2 E2].
  exists (bop n1 n2). by rewrite op_shiftr, E1, E2, op_ext.
Qed.
End bit_op.

(** *** Complements *)

Lemma mod_limb d V B : 0 < B -> is_u64 d -> (d + 2 ^ 64 * V) mod (2 ^ 64 * B) = d + 2 ^ 64 * (V mod B).
Proof.
  intros HB Hd. pose proof (Z.mod_pos_bound V B HB). pose proof (Z.div_mod V B ltac:(lia)).
  symmetry. apply Z.mod_unique_pos with (V / B); unfold is_u in *; nia.
Qed.

Lemma add_carry_spec ds c : limbs ds -> 0 <= c <= 1 ->
  limbs (add_carry ds c) /\ length (add_carry ds c) = length ds /\
  dval (add_carry ds c) = (dval ds + c) mod Bp (length ds).
Proof.
  intros Hds. revert c. induction Hds as [|n ds Hn Hds IH]; intros c Hc; cbn [add_carry].
  - cbn [length]. rewrite Bp_0, Z.mod_1_r. done.
  - unfold UINT_MAX. unfold is_u in Hn. pose proof (dval_range ds Hds). pose proof (Bp_pos (length ds)).
    cbn [length]. rewrite Bp_S.
    assert (is_u64 (u64 (n + c))) as Hu by (apply uwrap_range; lia).
    destruct (Z.gtb_spec n (2 ^ 64 - 1 - c)); cbn [Z.eqb].
    + destruct (IH 1 ltac:(lia)) as (Hl & Hlen & Hv). split_and!; [by constructor|cbn; by f_equal|].
      assert (u64 (n + c) = n + c - 2 ^ 64) as E.
      { unfold uwrap. symmetry. apply Z.mod_unique_pos with 1; lia. }
      rewrite !dval_cons, Hv. replace (n + 2 ^ 64 * dval ds + c) with (u64 (n + c) + 2 ^ 64 * (dval ds + 1)) by lia.
      by rewrite mod_limb.
    + split_and!; [by constructor|done|].
      assert (u64 (n + c) = n + c) as E by (apply uwrap_id; unfold is_u; lia).
      rewrite !dval_cons, E, Z.mod_small by nia. lia.
Qed.

Lemma unot_spec ds : limbs ds ->
  limbs (map (unot 64) ds) /\ dval (map (unot 64) ds) = Bp (length ds) - 1 - dval ds.
Proof.
  induction 1 as [|d ds Hd Hds [IH1 IH2]]; cbn [map length]; [done|].
  rewrite unot_sub by done. unfold is_u in *.
  split; [constructor; [unfold is_u; lia|done]|]. rewrite !dval_cons, IH2, Bp_S. lia.
Qed.

(** The complement of a non-zero magnitude. *)
Lemma set_twos_spec b : wf b ->
  let t := sexp_set_twos_complement b in
  wf t /\ sign t = sign b /\ length (data t) = length (data b) /\
  (mag b <> 0 -> mag t = Bp (length (data b)) - mag b).
Proof.
  intros (Hs & Hne & Hl) t. unfold t, sexp_set_twos_complement, wf, mag; cbn [sign data].
  destruct (unot_spec _ Hl) as [Hn Vn]. destruct (add_carry_spec _ 1 Hn ltac:(lia)) as (Ha & Hlen & Va).
  rewrite length_map in *. pose proof (dval_range _ Hl).
  split_and!; try done.
  - destruct (add_carry _ 1); [destruct (data b); done|done].
  - intros Hnz. rewrite Va, Vn, Z.mod_small by lia. lia.
Qed.

Lemma set_twos_zero b : wf b -> mag b = 0 -> mag (sexp_set_twos_complement b) = 0.
Proof.
  intros (_ & _ & Hl) Hm. unfold sexp_set_twos_complement, mag in *; cbn [data].
  destruct (unot_spec _ Hl) as [Hn Vn]. destruct (add_carry_spec _ 1 Hn ltac:(lia)) as (_ & _ & ->).
  rewrite length_map, Vn, Hm. replace (Bp (length (data b)) - 1 - 0 + 1) with (Bp (length (data b))) by lia.
  apply Z_mod_same_full.
Qed.

(** A complement [t] of the integer [v]; and one with a sign bit to spare. *)
Definition width (n : nat) : Z := 64 * Z.of_nat n - 1.

Definition svrep (t : bignum) (v : Z) : Prop := wf t /\ sv (sign t <? 0) (data t) = v.

Definition tcrep (t : bignum) (v : Z) : Prop :=
  wf t /\ sv (sign t <? 0) (data t) = v /\ within (width (length (data t))) v.

Lemma tcrep_svrep t v : tcrep t v -> svrep t v.
Proof. intros (? & ? & _). by split. Qed.

Lemma svrep_neg t v : svrep t v -> (sign t <? 0) = (v <? 0).
Proof. intros ((_ & _ & Hl) & <-). by rewrite sv_neg. Qed.

Lemma width_Bp n : (1 <= n)%nat ->
  2 * 2 ^ width n = Bp n /\ 2 ^ width n = 2 ^ 63 * Bp (n - 1) /\ 63 <= width n.
Proof.
  intros Hn. unfold width. assert (2 * 2 ^ (64 * Z.of_nat n - 1) = Bp n) as E.
  { rewrite <- Z.pow_succ_r, <- Bp_pow by lia. f_equal. lia. }
  split_and!; [done| |lia]. assert (Bp n = 2 ^ 64 * Bp (n - 1)); [|lia].
  rewrite <- Bp_S. f_equal. lia.
Qed.

Lemma wf_length b : wf b -> (1 <= length (data b))%nat.
Proof. intros (_ & ? & _). destruct (data b); [done|cbn; lia]. Qed.

(** The operands the operations below are exact on: a bignum whose sign bit is
    free. *)
Definition headroom (x : exint) : Prop :=
  match x with
  | Fix _ => iwf x
  | Big b => wf b /\ bval b <> 0 /\ within (width (length (data b))) (bval b)
  end.

Lemma twos_complement_sv b : wf b -> bval b <> 0 ->
  svrep (sexp_twos_complement b) (bval b) /\ sign (sexp_twos_complement b) = sign b /\
  length (data (sexp_twos_complement b)) = length (data b).
Proof.
  intros Wb Hnz. unfold sexp_twos_complement. rewrite copy_same.
  pose proof Wb as (Sb & _ & _). unfold bval in *.
  destruct (Z.ltb_spec (sign b) 0).
  - destruct (set_twos_spec b Wb) as (Wt & St & Lt & Vt). split; [|done]. split; [done|].
    rewrite St, sv_dval, Lt.
    destruct (Z.ltb_spec (sign b) 0); [|lia]. assert (sign b = -1) as -> by lia.
    change (dval (data (sexp_set_twos_complement b))) with (mag (sexp_set_twos_complement b)).
    rewrite Vt by lia. lia.
  - split; [|done]. split; [done|]. rewrite sv_dval.
    destruct (Z.ltb_spec (sign b) 0); [lia|]. assert (sign b = 1) as -> by lia. unfold mag. lia.
Qed.

Lemma twos_complement_spec b : headroom (Big b) ->
  tcrep (sexp_twos_complement b) (bval b) /\ sign (sexp_twos_complement b) = sign b /\
  length (data (sexp_twos_complement b)) = length (data b).
Proof.
  intros (Wb & Hnz & Hw). destruct (twos_complement_sv b Wb Hnz) as ((Wt & Vt) & St & Lt).
  split; [|done]. split; [done|]. split; [done|]. by rewrite Lt.
Qed.

Lemma ext_limbs t n : wf t -> (length (data t) <= n)%nat ->
  map (ext_limb t) (seq 0 n) = data t ++ replicate (n - length (data t)) (if sign t <? 0 then UINT_MAX else 0).
Proof.
  intros Ht Hn. apply list_eq. intros i.
  destruct (decide (i < n)%nat) as [Hi|Hi].
  - change (map (ext_limb t) (seq 0 n)) with (ext_limb t <$> seq 0 n).
    rewrite list_lookup_fmap, lookup_seq_lt by done. cbn [fmap option_fmap option_map].
    unfold ext_limb. cbn [Nat.add]. destruct (Nat.ltb_spec i (length (data t))).
    + rewrite lookup_app_l by done. by rewrite rd_lookup.
    + rewrite lookup_app_r, lookup_replicate_2 by lia. done.
  - rewrite !lookup_ge_None_2; [done|rewrite length_app, length_replicate; lia|].
    rewrite length_map, length_seq. lia.
Qed.

Lemma zip_map {A B C D} (f : B -> C -> D) (g : A -> B) (h : A -> C) l :
  map (fun i => f (g i) (h i)) l = zip_with f (map g l) (map h l).
Proof. induction l as [|x l IH]; cbn; [done|]. by rewrite IH. Qed.

(** The limb-wise operation of two complements extended to [n] limbs. *)
Lemma limbwise_sv op bop `{BitOp op bop} x y vx vy n : svrep x vx -> svrep y vy ->
  (length (data x) <= n)%nat -> (length (data y) <= n)%nat ->
  let r := map (fun i => op (ext_limb x i) (ext_limb y i)) (seq 0 n) in
  limbs r /\ length r = n /\ sv (bop (sign x <? 0) (sign y <? 0)) r = op vx vy.
Proof.
  intros (Wx & Vx) (Wy & Vy) Hx Hy r. unfold r. rewrite zip_map, !ext_limbs by done.
  assert (forall z : bignum, wf z -> limbs (data z ++ replicate (n - length (data z)) (if sign z <? 0 then UINT_MAX else 0))) as Hl.
  { intros z (_ & _ & Hz). apply Forall_app. split; [done|]. apply Forall_replicate.
    destruct (sign z <? 0); unfold is_u, UINT_MAX; lia. }
  destruct (sv_op (sign x <? 0) (sign y <? 0) _ _ (Hl x Wx) (Hl y Wy)) as [Hr Er].
  { rewrite !length_app, !length_replicate. lia. }
  rewrite !sv_pad, Vx, Vy in Er. split_and!; [done| |done].
  rewrite length_zip_with, !length_app, !length_replicate. lia.
Qed.

Lemma within_mono j k v : 0 <= j <= k -> within j v -> within k v.
Proof. intros Hjk [? ?]. assert (2 ^ j <= 2 ^ k) by (apply Z.pow_le_mono_r; lia). split; lia. Qed.

Lemma limbwise_within op bop `{BitOp op bop} m1 m2 vx vy n : (1 <= m1 <= n)%nat -> (1 <= m2 <= n)%nat ->
  within (width m1) vx -> within (width m2) vy -> within (width n) (op vx vy).
Proof.
  intros H1 H2 Bx By. apply op_within; [unfold width; lia|..].
  - apply (within_mono (width m1)); [unfold width; lia|done].
  - apply (within_mono (width m2)); [unfold width; lia|done].
Qed.

Lemma limbwise_spec op bop `{BitOp op bop} x y vx vy n : tcrep x vx -> tcrep y vy ->
  (length (data x) <= n)%nat -> (length (data y) <= n)%nat ->
  let r := map (fun i => op (ext_limb x i) (ext_limb y i)) (seq 0 n) in
  limbs r /\ length r = n /\ sv (bop (sign x <? 0) (sign y <? 0)) r = op vx vy /\
  within (width n) (op vx vy).
Proof.
  intros (Wx & Vx & Bx) (Wy & Vy & By) Hx Hy r.
  destruct (limbwise_sv op bop x y vx vy n) as (Hr & Hl & Hv); [by split|by split|done|done|].
  split_and!; [done|done|done|].
  pose proof (wf_length x Wx). pose proof (wf_length y Wy).
  by apply (limbwise_within op bop (length (data x)) (length (data y))).
Qed.

(** The sign test of the top limb, and when it reads the sign of the value. *)
Lemma top_negative_dval r n : limbs r -> length r = n -> (1 <= n)%nat ->
  top_negative r = (2 ^ width n <=? dval r).
Proof.
  intros Hr Hlen Hn. destruct (width_Bp n Hn) as (_ & E2 & _).
  unfold top_negative. rewrite Hlen. pose proof (limbs_rd r (n - 1) Hr) as [? ?].
  pose proof (dval_take_S r (n - 1) ltac:(lia)) as Ed. replace (S (n - 1)) with n in Ed by lia.
  rewrite take_ge in Ed by lia. pose proof (dval_take_lt r (n - 1) Hr).
  pose proof (dval_range (take (n - 1) r) ltac:(limbs)) as [? _]. pose proof (Bp_pos (n - 1)).
  set (t := rd r (n - 1)) in *. unfold swrap. change (2 ^ (64 - 1)) with (2 ^ 63). rewrite E2, Ed.
  destruct (Z.leb_spec (2 ^ 63) t).
  - rewrite <- (Z.mod_unique_pos (t + 2 ^ 63) (2 ^ 64) 1 (t - 2 ^ 63)) by lia.
    destruct (Z.leb_spec (2 ^ 63 * Bp (n - 1)) (dval (take (n - 1) r) + Bp (n - 1) * t)); zcases; nia.
  - rewrite Z.mod_small by lia.
    destruct (Z.leb_spec (2 ^ 63 * Bp (n - 1)) (dval (take (n - 1) r) + Bp (n - 1) * t)); zcases; nia.
Qed.

Lemma top_negative_spec neg r n : limbs r -> length r = n -> (1 <= n)%nat ->
  within (width n) (sv neg r) -> top_negative r = neg.
Proof.
  intros Hr Hlen Hn [H1 H2]. destruct (width_Bp n Hn) as (E1 & _). rewrite sv_dval, Hlen in *.
  rewrite (top_negative_dval r n) by done. pose proof (dval_range r Hr). destruct neg; zcases.
Qed.

(** The value of a result, complemented back when it is negative. *)
Lemma result_pos s r v n : (s = 1 \/ s = -1) -> limbs r -> length r = n -> (1 <= n)%nat ->
  sv false r = v -> wf (Bignum s r) /\ mag (Bignum s r) = v.
Proof.
  intros Hs Hr Hlen Hn Hv. rewrite sv_dval in Hv. split; [|unfold mag; cbn [data]; lia].
  split_and!; cbn [sign data]; try done. by destruct r; [cbn in *; lia|].
Qed.

Lemma result_neg s r v n : (s = 1 \/ s = -1) -> limbs r -> length r = n -> (1 <= n)%nat ->
  sv true r = v -> - Bp n < v ->
  let t := sexp_set_twos_complement (Bignum s r) in wf t /\ sign t = s /\ mag t = - v.
Proof.
  intros Hs Hr Hlen Hn Hv Hw t. rewrite sv_dval, Hlen in Hv.
  assert (wf (Bignum s r)) as Wr.
  { split_and!; cbn [sign data]; try done. by destruct r; [cbn in *; lia|]. }
  destruct (set_twos_spec _ Wr) as (Wt & St & Lt & Vt). fold t in Wt, St, Lt, Vt.
  unfold mag at 1 3 in Vt. cbn [data] in Vt. rewrite Hlen in Vt. split_and!; [done|done|].
  rewrite Vt; lia.
Qed.

Lemma within_above n v : (1 <= n)%nat -> within (width n) v -> - Bp n < v.
Proof. intros Hn [Hv _]. destruct (width_Bp n Hn) as (E1 & _). pose proof (Bp_pos n). lia. Qed.

Lemma bval_flip t : sign t = 1 -> wf t -> wf (negate_big_exact t) /\ bval (negate_big_exact t) = - mag t.
Proof. intros St (_ & ? & ?). unfold negate_big_exact, wf, bval, mag. cbn [sign data]. rewrite St. split; [split_and!; auto|lia]. Qed.

(** A result whose top limb is taken for its sign. *)
Lemma signed_result s r neg v n : (s = 1 \/ s = -1) -> limbs r -> length r = n -> (1 <= n)%nat -> sv neg r = v ->
  let t := if top_negative r
           then let u := sexp_set_twos_complement (Bignum s r) in if sign u >? 0 then negate_big_exact u else u
           else if s <? 0 then negate_big_exact (Bignum s r) else Bignum s r in
  wf t /\ bval t = swrap (64 * Z.of_nat n) v.
Proof.
  intros Hs Hr Hlen Hn Hv t. destruct (width_Bp n Hn) as (E1 & _). pose proof (Bp_pos n).
  pose proof (dval_range r Hr) as Hd. rewrite Hlen in Hd.
  assert (swrap (64 * Z.of_nat n) v = if 2 ^ width n <=? dval r then dval r - Bp n else dval r) as ->.
  { symmetry. apply swrap_unique; [lia| |]; change (64 * Z.of_nat n - 1) with (width n).
    - destruct (Z.leb_spec (2 ^ width n) (dval r)); lia.
    - rewrite <- Hv, sv_dval, Hlen, <- Bp_pow, Nat2Z.inj_mul. apply eqm_mult with
        ((if neg then 1 else 0) - (if 2 ^ width n <=? dval r then 1 else 0)).
      destruct (_ <=? _), neg; lia. }
  unfold t. rewrite (top_negative_dval r n) by done. destruct (result_pos s r _ n Hs Hr Hlen Hn eq_refl) as [Wr Mr].
  rewrite sv_dval, Z.sub_0_r in Mr. destruct (Z.leb_spec (2 ^ width n) (dval r)).
  - destruct (set_twos_spec _ Wr) as (Wt & St & Lt & Vt). cbv zeta. cbn [data] in Vt. rewrite Hlen in Vt.
    assert (0 < 2 ^ width n) by (apply Z.pow_pos_nonneg; unfold width; lia).
    set (u := sexp_set_twos_complement _) in *. cbn [sign] in St. destruct (Z.gtb_spec (sign u) 0).
    + destruct (bval_flip u ltac:(lia) Wt) as [? ->]. split; [done|]. lia.
    + split; [done|]. unfold bval. assert (sign u = -1) as -> by lia. lia.
  - destruct (Z.ltb_spec s 0).
    + unfold negate_big_exact. cbn [sign data]. destruct Wr as (_ & ? & ?).
      split; [split_and!; cbn [sign data]; auto; lia|]. unfold bval, mag in *. cbn [sign data] in *.
      assert (s = -1) as -> by lia. lia.
    + split; [done|]. unfold bval. cbn [sign]. rewrite Mr. assert (s = 1) as -> by lia. lia.
Qed.

Lemma fxadd_head s d ds : 0 <= d < 2 ^ 64 - 1 ->
  sexp_bignum_fxadd (Bignum s (d :: ds)) 1 = Bignum s (d + 1 :: ds).
Proof.
  intros Hd. unfold sexp_bignum_fxadd, sexp_bignum_hi. cbn [data sign].
  set (k := hi_scan _ _). change (S k) with (1 + k)%nat. cbn [take drop Nat.add fxadd_loop].
  rewrite uwrap_id by (unfold is_u; lia).
  destruct (Z.gtb_spec d (UINT_MAX - 1)); [unfold UINT_MAX in *; lia|].
  cbn [Z.eqb app]. by rewrite take_drop.
Qed.

(** A negative fixnum as a complement of a given length. *)
Lemma fixnum_tc_spec y n : SEXP_MIN_FIXNUM <= y < 0 -> (1 <= n)%nat ->
  tcrep (sexp_fixnum_to_twos_complement y n) y /\ sign (sexp_fixnum_to_twos_complement y n) = -1 /\
  length (data (sexp_fixnum_to_twos_complement y n)) = n.
Proof.
  unfold SEXP_MIN_FIXNUM, SEXP_MAX_FIXNUM. intros Hy Hn. destruct (width_Bp n Hn) as (_ & _ & Hw).
  assert (sexp_fixnum_to_twos_complement y n = Bignum (-1) (u64 y :: replicate (n - 1) UINT_MAX)) as ->.
  { unfold sexp_fixnum_to_twos_complement. destruct (Z.ltb_spec y 0); [|lia].
    assert (u64 (- y) = - y) as -> by (apply uwrap_id; unfold is_u; lia).
    rewrite unot_sub by (unfold is_u; lia).
    assert (u64 y = y + 2 ^ 64) as E by (unfold uwrap; symmetry; apply Z.mod_unique_pos with (-1); lia).
    rewrite uwrap_id, fxadd_head by (unfold is_u; lia). cbn [data sign length].
    rewrite length_replicate. replace (S (n - 1)) with n by lia.
    destruct (Nat.eqb_spec n (n + 1)); [lia|]. cbn [andb data]. rewrite E.
    by replace (2 ^ 64 - 1 - - y + 1) with (y + 2 ^ 64) by lia. }
  assert (is_u64 (u64 y)) by (apply uwrap_range; lia).
  split; [|cbn; rewrite length_replicate; split; [done|lia]].
  assert (length (u64 y :: replicate (n - 1) UINT_MAX) = n) as El by (cbn; rewrite length_replicate; lia).
  split; [|split].
  - split_and!; cbn [sign data]; [auto|done|]. constructor; [done|]. apply Forall_replicate. unfold is_u, UINT_MAX; lia.
  - cbn [sign data Z.ltb Z.compare]. pose proof (sv_pad true [u64 y] (n - 1)) as E. cbn [app] in E. rewrite E.
    cbn [sv]. unfold uwrap. rewrite <- (Z.mod_unique_pos y (2 ^ 64) (-1) (y + 2 ^ 64)) by lia. lia.
  - cbn [data]. rewrite El. assert (2 ^ 63 <= 2 ^ width n) by (apply Z.pow_le_mono_r; lia). unfold within. lia.
Qed.

(** The conjunction on any two complements: where one of them is negative the
    top limb of the result is taken for its sign. *)
Definition and_value (n : nat) (vx vy : Z) : Z :=
  if (vx <? 0) || (vy <? 0) then swrap (64 * Z.of_nat n) (Z.land vx vy) else Z.land vx vy.

Lemma bit_and_big_value x y vx vy : svrep x vx -> svrep y vy ->
  inormal (bit_and_big x y) /\
  ival (bit_and_big x y) = and_value (max (length (data x)) (length (data y))) vx vy.
Proof.
  intros Hx Hy. pose proof Hx as (Wx & _). pose proof Hy as (Wy & _).
  unfold bit_and_big. rewrite !copy_same.
  set (res := if (length (data y) <? length (data x))%nat then x else y).
  assert (wf res /\ length (data res) = max (length (data x)) (length (data y))) as (Wr & Lr)
    by (unfold res; destruct (Nat.ltb_spec (length (data y)) (length (data x))); split; done || lia).
  pose proof (wf_length res Wr) as Hn. rewrite <- Lr. set (n := length (data res)) in *.
  destruct (limbwise_sv Z.land andb x y vx vy n Hx Hy ltac:(lia) ltac:(lia)) as (Hr & Hlen & Vr).
  set (r := map _ _) in *. cbn [sign data]. pose proof Wr as (Sr & _). unfold and_value.
  rewrite <- (svrep_neg x vx), <- (svrep_neg y vy) by done.
  match goal with |- inormal (sexp_bignum_normalize (Big ?t)) /\ _ = ?v => assert (wf t /\ bval t = v) as [Wt Vt] end.
  2: { destruct (normalize_spec (Big _) Wt) as [N E]. split; [done|]. by rewrite E. }
  destruct ((sign x <? 0) || (sign y <? 0)) eqn:C; cbn [andb].
  - by apply (signed_result (sign res) r _ _ n Sr Hr Hlen Hn Vr).
  - apply orb_false_iff in C as [C1 C2]. rewrite C1, C2 in Vr. cbn [andb] in Vr.
    destruct (result_pos (sign res) r _ n Sr Hr Hlen Hn Vr) as [Wt Mt].
    assert (sign res = 1) as S1 by (unfold res; destruct Wx as (? & _), Wy as (? & _); destruct (_ <? _)%nat; lia).
    rewrite S1 in *. cbn [sign]. change (1 <? 0) with false. split; [done|]. unfold bval. cbn [sign]. lia.
Qed.

Lemma and_value_within n vx vy : (1 <= n)%nat -> within (width n) (Z.land vx vy) -> and_value n vx vy = Z.land vx vy.
Proof. intros Hn Hw. unfold and_value. destruct ((vx <? 0) || (vy <? 0)); [|done]. apply swrap_id; [lia|exact Hw]. Qed.

(** The low limb of a complement and a small non-negative integer. *)
Lemma sv_low neg ds : ds <> [] -> exists rest, sv neg ds = rd ds 0 + 2 ^ 64 * rest /\ ds = rd ds 0 :: drop 1 ds /\ rest = sv neg (drop 1 ds).
Proof. destruct ds as [|d ds]; [done|]. intros _. exists (sv neg ds). done. Qed.

Lemma fix_op_spec op bop `{BitOp op bop} x y : iwf (Fix x) -> iwf (Fix y) -> inormal (Fix (op x y)).
Proof.
  cbn. unfold SEXP_MIN_FIXNUM, SEXP_MAX_FIXNUM. intros Hx Hy.
  destruct (op_within 62 x y ltac:(lia)); unfold within; lia.
Qed.

Lemma land_fix_range x y : 0 <= y < 2 ^ 62 -> 0 <= Z.land y x < 2 ^ 62.
Proof.
  intros Hy. rewrite <- (Z.mod_small y (2 ^ 62)) by lia. rewrite <- Z.land_ones, <- Z.land_assoc by lia.
  rewrite (Z.land_comm (Z.ones 62)), Z.land_assoc, Z.land_ones by lia. apply Z.mod_pos_bound. lia.
Qed.

(** The number of limbs of an operand. *)
Definition limb_count (x : exint) : nat := match x with Fix _ => 1 | Big b => length (data b) end.

Lemma bit_and_big_fix_value x y : wf x -> bval x <> 0 -> iwf (Fix y) ->
  inormal (bit_and_big_fix x y) /\ ival (bit_and_big_fix x y) = and_value (length (data x)) (bval x) y.
Proof.
  intros Wb Hnz Hy. pose proof (wf_length x Wb) as Hn. destruct (twos_complement_sv x Wb Hnz) as (Tx & Sx & Lx).
  unfold bit_and_big_fix. set (x2 := sexp_twos_complement x) in *. pose proof Tx as (Wx & Vx).
  cbn [iwf] in Hy. destruct (Z.ltb_spec y 0).
  - destruct (fixnum_tc_spec y (length (data x2))) as (Ty & _ & Ly); [lia|by apply wf_length|].
    rewrite <- Lx. destruct (bit_and_big_value x2 _ _ y Tx (tcrep_svrep _ _ Ty)) as [? ->].
    rewrite Ly, Nat.max_id. done.
  - unfold SEXP_MIN_FIXNUM, SEXP_MAX_FIXNUM in Hy. pose proof Wx as (_ & Hne & Hl).
    destruct (sv_low (sign x2 <? 0) (data x2) Hne) as (rest & E & _). rewrite E in Vx.
    pose proof (limbs_rd (data x2) 0 Hl).
    assert (Z.land (bval x) y = Z.land y (rd (data x2) 0)) as E0.
    { rewrite <- Vx, Z.land_comm. replace y with (y + 2 ^ 64 * 0) at 1 by lia.
      rewrite (op_split (op:=Z.land)), Z.land_0_l by (done || unfold is_u in *; lia). lia. }
    pose proof (land_fix_range (rd (data x2) 0) y ltac:(lia)).
    assert (62 <= width (length (data x))) by (unfold width; lia).
    rewrite and_value_within, E0; [|done|].
    2: { rewrite E0. apply (within_mono 62); [done || lia|unfold within; lia]. }
    rewrite uwrap_id by (unfold is_u; lia).
    rewrite swrap_id by lia. rewrite make_fixnum_id by (unfold SEXP_MIN_FIXNUM, SEXP_MAX_FIXNUM; lia).
    cbn. unfold SEXP_MIN_FIXNUM, SEXP_MAX_FIXNUM. lia.
Qed.

(** Operands that are not a bignum of value zero. *)
Definition regular (x : exint) : Prop := match x with Fix _ => iwf x | Big b => wf b /\ bval b <> 0 end.

Lemma inormal_regular x : inormal x -> regular x.
Proof.
  destruct x as [z|b]; [done|]. intros [W N]. split; [done|]. intros E. apply N. rewrite E. by vm_compute.
Qed.

Lemma headroom_within x : headroom x -> within (width (limb_count x)) (ival x) /\ (1 <= limb_count x)%nat.
Proof.
  destruct x as [z|b]; cbn [headroom limb_count ival].
  - cbn. unfold SEXP_MIN_FIXNUM, SEXP_MAX_FIXNUM, width, within. intros. split; [|lia]. cbn. lia.
  - intros (W & _ & H). split; [done|by apply wf_length].
Qed.

Lemma bit_and_value x y : regular x -> regular y ->
  inormal (sexp_bit_and x y) /\
  ival (sexp_bit_and x y) = and_value (max (limb_count x) (limb_count y)) (ival x) (ival y).
Proof.
  intros Hx Hy. destruct x as [x|x], y as [y|y]; cbn [sexp_bit_and ival limb_count regular] in *.
  - pose proof (fix_op_spec Z.land andb x y Hx Hy) as Hn. split; [done|]. rewrite and_value_within; [done|lia|].
    cbn in Hn. unfold SEXP_MIN_FIXNUM, SEXP_MAX_FIXNUM in Hn. cbn. unfold width, within. cbn. lia.
  - destruct Hy as [Wy Ny]. pose proof (wf_length y Wy). rewrite Nat.max_r by lia.
    destruct (bit_and_big_fix_value y x Wy Ny Hx) as [? ->]. split; [done|].
    unfold and_value. by rewrite Z.land_comm, orb_comm.
  - destruct Hx as [Wx Nx]. pose proof (wf_length x Wx). rewrite Nat.max_l by lia. by apply bit_and_big_fix_value.
  - destruct Hx as [Wx Nx], Hy as [Wy Ny].
    destruct (twos_complement_sv x Wx Nx) as (Tx & _ & <-), (twos_complement_sv y Wy Ny) as (Ty & _ & <-).
    by apply bit_and_big_value.
Qed.

Lemma and_value_headroom x y : headroom x -> headroom y ->
  and_value (max (limb_count x) (limb_count y)) (ival x) (ival y) = Z.land (ival x) (ival y).
Proof.
  intros Hx Hy. destruct (headroom_within x Hx), (headroom_within y Hy). apply and_value_within; [lia|].
  apply (limbwise_within Z.land andb (limb_count x) (limb_count y)); (done || lia).
Qed.

(** *** Disjunction and exclusive or *)

Lemma twos_inline x : sexp_twos_complement x =
  if sign x <? 0 then sexp_set_twos_complement x else x.
Proof. unfold sexp_twos_complement. by rewrite copy_same. Qed.

Lemma low_limb_op_value op bop `{BitOp op bop} x y : (forall z, op z 0 = z) -> (forall b, bop b false = b) ->
  wf x -> bval x <> 0 -> 0 <= y < 2 ^ 62 -> - Bp (length (data x)) < op (bval x) y ->
  wf (low_limb_op op x y) /\ bval (low_limb_op op x y) = op (bval x) y.
Proof.
  intros Hop0 Hbop0 Wb Hnz Hy Br. destruct (twos_complement_sv x Wb Hnz) as (Tx & Sx & Lx).
  unfold low_limb_op. rewrite copy_same, <- (twos_inline x). set (x2 := sexp_twos_complement x) in *.
  pose proof Tx as (Wx & Vx). pose proof Wx as (Ss & Hne & Hl). pose proof (wf_length x2 Wx) as Hn.
  destruct (sv_low (sign x2 <? 0) (data x2) Hne) as (rest & E & Ed & Erest).
  rewrite (uwrap_id 64 y) by (unfold is_u; lia). cbn [sign data].
  set (d0 := rd (data x2) 0) in *. pose proof (limbs_rd (data x2) 0 Hl) as Hd0. fold d0 in Hd0.
  assert (wr (data x2) 0 (op d0 y) = op d0 y :: drop 1 (data x2)) as -> by done.
  assert (is_u64 (op d0 y)) as Hu by (apply op_range; (done || unfold is_u; lia)).
  assert (limbs (op d0 y :: drop 1 (data x2))) as Hr by (constructor; [done|limbs]).
  assert (length (op d0 y :: drop 1 (data x2)) = length (data x2)) as Hlen by (cbn; rewrite length_drop; lia).
  assert (sv (sign x2 <? 0) (op d0 y :: drop 1 (data x2)) = op (bval x) y) as Vr.
  { cbn [sv]. rewrite <- Erest, <- Vx, E. replace y with (y + 2 ^ 64 * 0) at 2 by lia.
    rewrite (op_split (op:=op)), Hop0 by (done || unfold is_u; lia). done. }
  rewrite <- Lx in Br. destruct (Z.ltb_spec (sign x2) 0).
  - destruct (result_neg (sign x2) _ _ _ Ss Hr Hlen Hn Vr Br) as (Wt & St & Mt). split; [done|].
    unfold bval at 1. rewrite St, Mt. assert (sign x2 = -1) as -> by lia. lia.
  - destruct (result_pos (sign x2) _ _ _ Ss Hr Hlen Hn Vr) as (Wt & Mt). split; [done|].
    unfold bval at 1. rewrite Mt. cbn [sign]. assert (sign x2 = 1) as -> by lia. lia.
Qed.

Lemma low_limb_op_spec op bop `{BitOp op bop} x y : (forall z, op z 0 = z) -> (forall b, bop b false = b) ->
  headroom (Big x) -> 0 <= y < 2 ^ 62 ->
  wf (low_limb_op op x y) /\ bval (low_limb_op op x y) = op (bval x) y.
Proof.
  intros Hop0 Hbop0 (W & Hnz & Hw) Hy. pose proof (wf_length x W).
  apply (low_limb_op_value op bop); try done. apply within_above; [done|].
  assert (62 <= width (length (data x))) by (unfold width; lia).
  apply op_within; [lia|done|]. apply (within_mono 62); [lia|]. unfold within. lia.
Qed.

Lemma lor_above x y : 0 <= y -> x <= Z.lor x y.
Proof.
  intros Hy. pose proof (Z.add_lor_land x y). pose proof (Z.add_lor_land (Z.ldiff y x) (Z.land y x)) as E.
  rewrite Z.lor_ldiff_and in E. rewrite (Z.land_comm y x), Z.land_assoc, Z.land_ldiff, Z.land_0_l in E.
  pose proof (proj2 (Z.ldiff_nonneg y x) (or_introl Hy)). lia.
Qed.

Lemma map_ext_limb op (x t : bignum) n : length (data x) = n ->
  map (fun i => op (rd (data x) i) (ext_limb t i) : Z) (seq 0 n) =
  map (fun i => op (ext_limb x i) (ext_limb t i)) (seq 0 n).
Proof.
  intros Hn. apply map_ext_in. intros i Hi%in_seq. unfold ext_limb at 2.
  destruct (Nat.ltb_spec i (length (data x))); [done|lia].
Qed.

(** The disjunction on any two complements: a negative result whose top limb
    does not look negative is left as it is, with the sign of the longer operand. *)
Definition or_value (n : nat) (s v : Z) : Z :=
  if v <? - 2 ^ width n then s * (v + 2 ^ (64 * Z.of_nat n)) else v.

Lemma or_value_within n s v : within (width n) v -> or_value n s v = v.
Proof. intros [? _]. unfold or_value. destruct (Z.ltb_spec v (- 2 ^ width n)); [lia|done]. Qed.

Lemma bit_ior_general_value res tmp vt : wf res -> bval res <> 0 -> svrep tmp vt ->
  (length (data tmp) <= length (data res))%nat ->
  wf (bit_ior_general res tmp)
  /\ bval (bit_ior_general res tmp) = or_value (length (data res)) (sign res) (Z.lor (bval res) vt).
Proof.
  intros Wb Hnz Ht Hlt. destruct (twos_complement_sv res Wb Hnz) as (Tx & Sx & Lx).
  unfold bit_ior_general. rewrite <- (twos_inline res). set (x2 := sexp_twos_complement res) in *.
  pose proof Tx as (Wx & _). pose proof (wf_length x2 Wx) as Hn. rewrite <- Lx, <- Sx.
  set (n := length (data x2)) in *. rewrite (map_ext_limb Z.lor x2 tmp n) by done.
  destruct (limbwise_sv Z.lor orb x2 tmp _ _ n Tx Ht ltac:(lia) ltac:(lia)) as (Hr & Hlen & Vr).
  set (r := map _ _) in *. cbn [sign data]. pose proof Wx as (Sr & _).
  destruct (width_Bp n Hn) as (E1 & _). pose proof (Bp_pos n). pose proof (dval_range r Hr) as Hd.
  rewrite Hlen in Hd. rewrite (top_negative_dval r n) by done. unfold or_value.
  assert (2 ^ (64 * Z.of_nat n) = Bp n) as -> by (rewrite <- Bp_pow; f_equal; lia).
  pose proof Vr as Vd. rewrite sv_dval, Hlen in Vd. set (v := Z.lor _ _) in *.
  destruct (result_pos (sign x2) r _ n Sr Hr Hlen Hn eq_refl) as [Wr Mr]. rewrite sv_dval, Z.sub_0_r in Mr.
  destruct ((sign x2 <? 0) || (sign tmp <? 0)) eqn:C; cbn [andb].
  - assert (0 < 2 ^ width n) by (apply Z.pow_pos_nonneg; unfold width; lia).
    destruct (Z.leb_spec (2 ^ width n) (dval r)), (Z.ltb_spec v (- 2 ^ width n)); try lia.
    + destruct (result_neg (sign x2) r _ n Sr Hr Hlen Hn Vr ltac:(lia)) as (Wt & St & Mt).
      cbv zeta. set (t := sexp_set_twos_complement _) in *. destruct (Z.gtb_spec (sign t) 0).
      * assert (sign t = 1) as S1 by lia. destruct (bval_flip t S1 Wt) as [? ->]. split; [done|lia].
      * split; [done|]. unfold bval at 1. rewrite Mt. assert (sign t = -1) as -> by lia. lia.
    + split; [done|]. unfold bval at 1. rewrite Mr. cbn [sign]. f_equal. lia.
  - split; [done|]. apply orb_false_iff in C as [C1 _]. unfold bval at 1. rewrite Mr. cbn [sign].
    assert (sign x2 = 1) as -> by lia. destruct (Z.ltb_spec v (- 2 ^ width n)); lia.
Qed.

Lemma bit_ior_big_fix_value x y : wf x -> bval x <> 0 -> iwf (Fix y) ->
  wf (bit_ior_big_fix x y) /\ bval (bit_ior_big_fix x y) = Z.lor (bval x) y.
Proof.
  intros W Hnz Hy. cbn in Hy. unfold SEXP_MIN_FIXNUM, SEXP_MAX_FIXNUM in Hy. unfold bit_ior_big_fix.
  pose proof (wf_length x W). rewrite copy_same. destruct (Z.geb_spec y 0).
  - apply (low_limb_op_value Z.lor orb); [apply Z.lor_0_r|apply orb_false_r|done|done|lia|].
    pose proof (lor_above (bval x) y ltac:(lia)). pose proof W as (S & _ & Hl). pose proof (dval_range _ Hl).
    unfold bval, mag in *. destruct S as [S|S]; rewrite S in *; lia.
  - destruct (fixnum_tc_spec y (length (data x))) as (Ty & _ & Ly);
      [unfold SEXP_MIN_FIXNUM, SEXP_MAX_FIXNUM; lia|done|].
    destruct (bit_ior_general_value x _ y W Hnz (tcrep_svrep _ _ Ty) ltac:(lia)) as [? ->]. split; [done|].
    apply or_value_within. apply (within_mono 62); [unfold width; lia|]. apply within_shiftr; [lia|].
    exists true. rewrite (op_shiftr (op:=Z.lor)) by lia.
    assert (Z.shiftr y 62 = -1) as ->; [|by rewrite Z.lor_m1_r].
    rewrite Z.shiftr_div_pow2 by lia. symmetry. apply Z.div_unique_pos with (y + 2 ^ 62); lia.
Qed.

Lemma normalize_zero b : wf b -> mag b = 0 -> sexp_bignum_normalize (Big b) = Fix 0.
Proof.
  intros W M. destruct (normalize_spec (Big b) W) as [N V]. cbn [ival] in V. unfold bval in V.
  rewrite M, Z.mul_0_r in V. destruct (sexp_bignum_normalize (Big b)); [by f_equal|].
  destruct N as [_ N]. cbn [ival] in V. rewrite V in N. by destruct N.
Qed.

Lemma normalize_big b v : wf b /\ bval b = v ->
  inormal (sexp_bignum_normalize (Big b)) /\ ival (sexp_bignum_normalize (Big b)) = v.
Proof. intros [W <-]. by apply (normalize_spec (Big b)). Qed.

(** The sign of the operand that [sexp_bit_ior] works on: that of the longer one. *)
Definition ior_sign (x y : exint) : Z :=
  match x, y with
  | Big b, Big c => if (length (data c) <=? length (data b))%nat then sign b else sign c
  | _, _ => 1
  end.

Definition ior_value (x y : exint) : Z :=
  match x, y with
  | Big _, Big _ => or_value (max (limb_count x) (limb_count y)) (ior_sign x y) (Z.lor (ival x) (ival y))
  | _, _ => Z.lor (ival x) (ival y)
  end.

Lemma bit_ior_value x y : regular x -> regular y ->
  inormal (sexp_bit_ior x y) /\ ival (sexp_bit_ior x y) = ior_value x y.
Proof.
  intros Hx Hy. destruct x as [x|x], y as [y|y]; cbn [sexp_bit_ior ival ior_value regular] in *.
  - split; [by apply (fix_op_spec Z.lor orb)|done].
  - apply normalize_big. rewrite Z.lor_comm. by apply bit_ior_big_fix_value; try apply Hy.
  - apply normalize_big. by apply bit_ior_big_fix_value; try apply Hx.
  - apply normalize_big. rewrite !copy_same. destruct Hx as [Wx Nx], Hy as [Wy Ny].
    destruct (twos_complement_sv x Wx Nx) as (Tx & _ & Lx), (twos_complement_sv y Wy Ny) as (Ty & _ & Ly).
    cbn [limb_count ior_sign]. destruct (Nat.leb_spec (length (data y)) (length (data x))).
    + rewrite Nat.max_l by lia. apply bit_ior_general_value; [done|done|done|lia].
    + rewrite Nat.max_r by lia. rewrite Z.lor_comm. apply bit_ior_general_value; [done|done|done|lia].
Qed.

Lemma ior_value_headroom x y : headroom x -> headroom y -> ior_value x y = Z.lor (ival x) (ival y).
Proof.
  intros Hx Hy. destruct (headroom_within x Hx), (headroom_within y Hy). destruct x, y; try done.
  apply or_value_within. apply (limbwise_within Z.lor orb (limb_count (Big b)) (limb_count (Big b0))); (done || lia).
Qed.

(** The exclusive or is exact when the complement [tmp] is as long as [res],
    or shorter and extended with zeros. *)
Lemma bit_xor_general_spec res tmp vt : headroom (Big res) -> tcrep tmp vt ->
  (length (data tmp) = length (data res) \/ (length (data tmp) < length (data res))%nat /\ sign tmp = 1) ->
  let r := bit_xor_general res tmp (sign res <? 0) (sign tmp <? 0) in
  wf r /\ bval r = Z.lxor (bval res) vt.
Proof.
  intros Hx Ht Hlt. destruct (twos_complement_spec res Hx) as (Tx & Sx & Lx).
  unfold bit_xor_general. rewrite <- (twos_inline res), <- Sx. set (x2 := sexp_twos_complement res) in *.
  pose proof Tx as (Wx & _). pose proof Ht as (Wt & _). pose proof (wf_length x2 Wx) as Hn.
  set (n := length (data x2)) in *.
  assert (map (fun i => Z.lxor (rd (data x2) i) (ext_limb tmp i)) (seq 0 (length (data tmp)))
            ++ drop (length (data tmp)) (data x2) =
          map (fun i => Z.lxor (ext_limb x2 i) (ext_limb tmp i)) (seq 0 n)) as ->.
  { rewrite <- (map_ext_limb Z.lxor x2 tmp n) by done. destruct Hlt as [El|[El Es]].
    - rewrite El, <- Lx. fold n. rewrite drop_ge, app_nil_r by done. done.
    - replace n with (length (data tmp) + (n - length (data tmp)))%nat by lia.
      rewrite seq_app, map_app. f_equal. cbn [Nat.add].
      apply list_eq. intros i. rewrite lookup_drop.
      change (map ?f (seq ?a ?b)) with (f <$> seq a b). rewrite list_lookup_fmap.
      destruct (decide (i < n - length (data tmp))%nat).
      + rewrite lookup_seq_lt by done. cbn [fmap option_fmap option_map]. rewrite rd_lookup by (fold n; lia).
        unfold ext_limb. destruct (Nat.ltb_spec (length (data tmp) + i) (length (data tmp))); [lia|].
        rewrite Es. cbn [Z.ltb Z.compare]. by rewrite Z.lxor_0_r.
      + rewrite lookup_seq_ge by lia. cbn. apply lookup_ge_None_2. fold n. lia. }
  destruct (limbwise_spec Z.lxor xorb x2 tmp _ _ n Tx Ht ltac:(lia) ltac:(lia)) as (Hr & Hlen & Vr & Br).
  set (r := map _ _) in *. pose proof Wx as (Sr & _).
  destruct (xorb (sign x2 <? 0) (sign tmp <? 0)) eqn:C.
  - destruct (result_neg (sign x2) r _ n Sr Hr Hlen Hn Vr (within_above n _ Hn Br)) as (Wr & St & Mt).
    set (t := sexp_set_twos_complement _) in *. destruct (sign tmp <? 0).
    + assert (sign t = 1) as S1 by (destruct (Z.ltb_spec (sign x2) 0); [done|lia]).
      destruct (bval_flip t S1 Wr) as [? ->]. split; [done|lia].
    + split; [done|]. unfold bval at 1. rewrite Mt.
      assert (sign t = -1) as -> by (destruct (Z.ltb_spec (sign x2) 0); [lia|done]). lia.
  - destruct (result_pos (sign x2) r _ n Sr Hr Hlen Hn Vr) as [Wr Mt]. destruct (sign tmp <? 0).
    + unfold negate_big_exact. cbn [sign data]. destruct Wr as (_ & ? & ?).
      split; [split_and!; cbn [sign data]; auto; lia|].
      unfold bval at 1. change (mag (Bignum (- sign x2) r)) with (mag (Bignum (sign x2) r)). rewrite Mt.
      cbn [sign]. assert (sign x2 = -1) as -> by (destruct (Z.ltb_spec (sign x2) 0); [lia|done]). lia.
    + split; [done|]. unfold bval at 1. rewrite Mt. cbn [sign].
      assert (sign x2 = 1) as -> by (destruct (Z.ltb_spec (sign x2) 0); [done|lia]). lia.
Qed.

Lemma bit_xor_big_fix_spec x y : headroom (Big x) -> iwf (Fix y) ->
  wf (bit_xor_big_fix x y) /\ bval (bit_xor_big_fix x y) = Z.lxor (bval x) y.
Proof.
  intros Hx Hy. cbn in Hy. unfold SEXP_MIN_FIXNUM, SEXP_MAX_FIXNUM in Hy. unfold bit_xor_big_fix.
  rewrite copy_same. destruct (Z.geb_spec y 0).
  - apply (low_limb_op_spec Z.lxor xorb); [apply Z.lxor_0_r|apply xorb_false_r|done|lia].
  - destruct (fixnum_tc_spec y (length (data x))) as (Ty & Sy & Ly);
      [unfold SEXP_MIN_FIXNUM, SEXP_MAX_FIXNUM; lia|apply wf_length, Hx|].
    pose proof (bit_xor_general_spec x _ y Hx Ty ltac:(by left)) as E. rewrite Sy in E. exact E.
Qed.

(** *** Shifts *)

Lemma ushl_split d s : is_u64 d -> 0 <= s < 64 ->
  ushl 64 d s = d * 2 ^ s - 2 ^ 64 * (d / 2 ^ (64 - s)) /\
  0 <= ushl 64 d s <= 2 ^ 64 - 2 ^ s /\ 0 <= d / 2 ^ (64 - s) < 2 ^ s.
Proof.
  intros [Hd1 Hd2] Hs. rewrite ushl_mul by lia.
  assert (2 ^ 64 = 2 ^ (64 - s) * 2 ^ s) as E by (rewrite <- Z.pow_add_r by lia; f_equal; lia).
  pose proof (Z.div_mod d (2 ^ (64 - s)) ltac:(lia)) as Ed.
  pose proof (Z.mod_pos_bound d (2 ^ (64 - s)) ltac:(lia)).
  assert ((d * 2 ^ s) mod 2 ^ 64 = (d mod 2 ^ (64 - s)) * 2 ^ s) as ->.
  { rewrite E, (Z.mul_mod_distr_r d (2 ^ (64 - s)) (2 ^ s)) by lia. done. }
  assert (0 < 2 ^ s) by lia. split_and!.
  - rewrite Ed at 2. rewrite E. ring.
  - nia.
  - rewrite E. nia.
  - apply Z.div_pos; lia.
  - apply Z.div_lt_upper_bound; lia.
Qed.

Lemma shl_limbs_spec ds s tmp r t : limbs ds -> 0 <= s < 64 -> 0 <= tmp < 2 ^ s ->
  shl_limbs ds s tmp = (r, t) ->
  limbs r /\ length r = length ds /\ 0 <= t < 2 ^ s /\ dval r + Bp (length ds) * t = dval ds * 2 ^ s + tmp.
Proof.
  intros Hds Hs. revert tmp r t. induction Hds as [|d ds Hd Hds IH]; intros tmp r t Ht E; cbn in E.
  - injection E as <- <-. cbn [length dval]. rewrite Bp_0. split_and!; auto; lia.
  - destruct (ushl_split d s Hd Hs) as (E1 & R1 & R2).
    assert ((if s =? 0 then tmp else ushr d (64 - s)) = d / 2 ^ (64 - s)) as Et.
    { destruct (Z.eqb_spec s 0) as [->|]; [|apply ushr_div; lia].
      change (2 ^ 0) with 1 in *. change (64 - 0) with 64. unfold is_u in Hd. rewrite Z.div_small by lia. lia. }
    rewrite Et in E. destruct (shl_limbs ds s (d / 2 ^ (64 - s))) as [r' t'] eqn:E'. injection E as <- <-.
    destruct (IH _ _ _ R2 E') as (Hr & Hlen & Ht' & Hv).
    assert (is_u64 (ushl 64 d s + tmp)) as Hu by (unfold is_u; lia).
    rewrite uwrap_id by done. cbn [length]. rewrite !dval_cons, Bp_S.
    split_and!; [by constructor|by f_equal|lia|lia|]. rewrite E1. nia.
Qed.

Lemma shr_limbs_spec ds s r t : limbs ds -> 0 <= s < 64 -> shr_limbs ds s = (r, t) ->
  limbs r /\ length r = length ds /\ dval r = dval ds / 2 ^ s /\ t = (dval ds mod 2 ^ s) * 2 ^ (64 - s).
Proof.
  intros Hds Hs. revert r t. induction Hds as [|d ds Hd Hds IH]; intros r t E; cbn in E.
  - injection E as <- <-. cbn [dval]. rewrite Z.div_0_l, Z.mod_0_l by lia. done.
  - destruct (shr_limbs ds s) as [r' t'] eqn:E'. injection E as <- <-.
    destruct (IH _ _ eq_refl) as (Hr & Hlen & Hv & Ht).
    assert (2 ^ 64 = 2 ^ s * 2 ^ (64 - s)) as E64 by (rewrite <- Z.pow_add_r by lia; f_equal; lia).
    assert (0 < 2 ^ s /\ 0 < 2 ^ (64 - s)) as [Hp1 Hp2] by lia.
    pose proof (Z.mod_pos_bound (dval ds) (2 ^ s) Hp1). pose proof (Z.div_mod (dval ds) (2 ^ s) ltac:(lia)) as Ed.
    unfold is_u in Hd. rewrite ushr_div by lia.
    assert (0 <= d / 2 ^ s < 2 ^ (64 - s)) by (split; [apply Z.div_pos; lia|apply Z.div_lt_upper_bound; lia]).
    assert (is_u64 (d / 2 ^ s + t')) as Hu by (unfold is_u; rewrite Ht; nia).
    rewrite uwrap_id by done. rewrite !dval_cons.
    split_and!; [by constructor|cbn; by f_equal| |].
    + rewrite Hv, Ht. replace (d + 2 ^ 64 * dval ds) with (d + (2 ^ (64 - s) * dval ds) * 2 ^ s) by (rewrite E64; ring).
      rewrite Z.div_add by lia. rewrite Ed at 3. rewrite E64. ring.
    + assert ((d + 2 ^ 64 * dval ds) mod 2 ^ s = d mod 2 ^ s) as ->.
      { replace (d + 2 ^ 64 * dval ds) with (d + (2 ^ (64 - s) * dval ds) * 2 ^ s) by (rewrite E64; ring).
        by rewrite Z.mod_add by lia. }
      destruct (Z.eqb_spec s 0) as [->|].
      * rewrite Ht. change (2 ^ 0) with 1. rewrite !Z.mod_1_r. done.
      * rewrite ushl_mul by lia. rewrite E64 at 1. rewrite Z.mul_mod_distr_r by lia. done.
Qed.

(** The value of a shifted bignum; a right shift of a negative one adds one to
    the magnitude whether or not bits are lost. *)
Definition shifted (v c : Z) : Z :=
  if 0 <=? c then v * 2 ^ c
  else if v <? 0 then - (- v / 2 ^ (- c)) - 1 else v / 2 ^ (- c).

Lemma Bp_add_bits c : 0 <= c -> 2 ^ c = Bp (Z.to_nat (c / 64)) * 2 ^ (c - c / 64 * 64) /\ 0 <= c - c / 64 * 64 < 64.
Proof.
  intros Hc. pose proof (Z.div_mod c 64 ltac:(lia)). pose proof (Z.mod_pos_bound c 64 ltac:(lia)).
  pose proof (Z.div_pos c 64 Hc ltac:(lia)). split; [|lia].
  rewrite <- Bp_pow, <- Z.pow_add_r by lia. f_equal. lia.
Qed.

Lemma big_shift_spec b c : wf b -> (sign b = 1 \/ bval b <> 0) -> inormal (big_shift b c) /\ ival (big_shift b c) = shifted (bval b) c.
Proof.
  intros Wb Hnz. pose proof (hi_spec b Wb) as (Hh & Hm & Hd & Htop & _). pose proof Wb as (Sb & Hne & Hl).
  pose proof (mag_nonneg b Wb). unfold big_shift, shifted. set (n := sexp_bignum_hi b) in *.
  assert (limbs (take n (data b))) as Ht by limbs.
  assert (forall x v, iwf x -> ival x = v -> inormal (sexp_bignum_normalize x) /\ ival (sexp_bignum_normalize x) = v) as Hfin.
  { intros x v Wx <-. by apply normalize_spec. }
  destruct (Z.ltb_spec c 0) as [Hc|Hc]; destruct (Z.leb_spec 0 c) as [|]; try lia.
  - destruct (Bp_add_bits (- c) ltac:(lia)) as [Ec Hbs]. set (off := Z.to_nat (- c / 64)) in *.
    pose proof (Z.div_pos (- c) 64 ltac:(lia) ltac:(lia)). pose proof (Bp_pos off).
    set (bs := - c - _) in *.
    assert ((if bval b <? 0 then - (- bval b / 2 ^ (- c)) - 1 else bval b / 2 ^ (- c)) =
            if sign b <? 0 then - (mag b / 2 ^ (- c)) - 1 else mag b / 2 ^ (- c)) as ->.
    { unfold bval in *. destruct Sb as [E|E]; rewrite E in *; cbn [Z.ltb Z.compare].
      - destruct (Z.ltb_spec (1 * mag b) 0); [lia|]. by rewrite Z.mul_1_l.
      - destruct (Z.ltb_spec (-1 * mag b) 0); [|lia]. by replace (- (-1 * mag b)) with (mag b) by lia. }
    destruct (Z.ltb_spec (Z.of_nat n) (- c / 64)).
    + assert (mag b / 2 ^ (- c) = 0) as ->.
      { apply Z.div_small. split; [done|]. pose proof (Bp_mono n off ltac:(lia)). rewrite Ec. nia. }
      destruct Sb as [E|E]; rewrite E; (apply Hfin; [vm_compute; split; discriminate|done]).
    + destruct (shr_limbs (drop off (take n (data b))) bs) as [r t] eqn:E.
      destruct (shr_limbs_spec _ _ _ _ (Forall_drop _ off _ Ht) Hbs E) as (Hr & _ & Hv & _). cbn [fst].
      rewrite <- dval_div, <- Hm, Z.div_div, <- Ec in Hv by (done || lia).
      assert (wf (Bignum (sign b) (r ++ [0])) /\ mag (Bignum (sign b) (r ++ [0])) = mag b / 2 ^ (- c)) as [Wr Mr].
      { unfold wf, mag at 1; cbn [sign data]. rewrite dval_app. cbn [dval]. split; [|lia].
        split_and!; [done|by destruct r|]. apply Forall_app; split; [done|]. repeat constructor; unfold is_u; lia. }
      cbn [sign]. destruct (Z.ltb_spec (sign b) 0).
      * destruct (fxadd_spec _ 1 Wr ltac:(unfold is_u; lia)) as (Wf & Sf & Mf). apply Hfin; [done|].
        cbn [ival]. unfold bval. rewrite Sf, Mf, Mr. cbn [sign]. assert (sign b = -1) as -> by lia. lia.
      * apply Hfin; [done|]. cbn [ival]. unfold bval. rewrite Mr. cbn [sign]. assert (sign b = 1) as -> by lia. lia.
  - destruct (Bp_add_bits c Hc) as [Ec Hbs]. set (off := Z.to_nat (c / 64)) in *. set (bs := c - _) in *.
    destruct (shl_limbs (take n (data b)) bs 0) as [r t] eqn:E.
    destruct (shl_limbs_spec (take n (data b)) bs 0 r t Ht Hbs ltac:(lia) E) as (Hr & Hlen & Rt & Hv).
    rewrite length_take_le in Hlen, Hv by lia. rewrite <- Hm, Z.add_0_r in Hv.
    assert (is_u64 t) by (assert (2 ^ bs <= 2 ^ 64) by (apply Z.pow_le_mono_r; lia); unfold is_u; lia).
    assert ((if bs =? 0 then 0 else t) = t) as ->.
    { destruct (Z.eqb_spec bs 0) as [E0|]; [|done]. rewrite E0 in Rt. change (2 ^ 0) with 1 in Rt. lia. }
    apply Hfin.
    + split_and!; cbn [sign data]; [done|by destruct (replicate off 0), r|].
      apply Forall_app; split; [limbs|]. apply Forall_app; split; [done|]. by constructor.
    + cbn [ival]. unfold bval, mag at 1. cbn [sign data].
      rewrite !dval_app, dval_zeros, length_replicate, Hlen. cbn [dval]. rewrite Ec.
      transitivity (sign b * (Bp off * (dval r + Bp n * t))); [ring|]. rewrite Hv. ring.
Qed.

(** The bound that keeps a shifted fixnum a fixnum. *)
Lemma log2i_bound fuel i v : 0 <= i -> i + Z.of_nat fuel = 64 -> log2i_loop fuel i v < 63 ->
  v < 2 ^ (log2i_loop fuel i v + 1) /\ i <= log2i_loop fuel i v.
Proof.
  revert i. induction fuel as [|fuel IH]; intros i Hi Hf Hlt; cbn [log2i_loop] in *; [lia|].
  destruct (Z.gtb_spec (ushl 64 1 ((i + 1) mod 64)) v).
  - rewrite (Z.mod_small (i + 1)), ushl_mul, Z.mul_1_l in * by lia.
    rewrite Z.mod_small in * by (split; [lia|apply Z.pow_lt_mono_r; lia]). lia.
  - destruct (IH (i + 1)); lia.
Qed.

Lemma arithmetic_shift_spec x c : inormal x -> c <> 0 ->
  inormal (sexp_arithmetic_shift x c) /\
  ival (sexp_arithmetic_shift x c) =
    match x with
    | Fix z => if c <? 0 then (if c >? -64 then z / 2 ^ (- c) else 0) else z * 2 ^ c
    | Big b => shifted (bval b) c
    end.
Proof.
  intros Hx Hc. unfold sexp_arithmetic_shift. destruct (Z.eqb_spec c 0); [done|].
  destruct x as [z|b]; [cbn [inormal ival] in *|].
  2: { destruct Hx as [? Hx]. apply big_shift_spec; [done|]. right. unfold SEXP_MIN_FIXNUM, SEXP_MAX_FIXNUM in Hx. lia. }
  assert (forall v, SEXP_MIN_FIXNUM <= v <= SEXP_MAX_FIXNUM ->
    inormal (sexp_bignum_normalize (sexp_make_fixnum v)) /\ ival (sexp_bignum_normalize (sexp_make_fixnum v)) = v) as Hfin.
  { intros v Hv. rewrite make_fixnum_id by done. by apply normalize_spec. }
  unfold SEXP_MIN_FIXNUM, SEXP_MAX_FIXNUM in *. destruct (Z.ltb_spec c 0).
  - destruct (Z.gtb_spec c (-64)); [|apply Hfin; lia]. rewrite Z.shiftr_div_pow2 by lia. apply Hfin.
    assert (2 <= 2 ^ (- c)) by (change 2 with (2 ^ 1) at 1; apply Z.pow_le_mono_r; lia).
    pose proof (Z.div_mod z (2 ^ (- c)) ltac:(lia)). pose proof (Z.mod_pos_bound z (2 ^ (- c)) ltac:(lia)). nia.
  - destruct (Z.ltb_spec (log2i (u64 z) + c + 1) (64 - 1)) as [Hlt|Hge].
    + destruct (log2i_bound 64 0 (u64 z)) as [Hv Hi]; [lia|lia|unfold log2i in *; lia|]. fold (log2i (u64 z)) in *.
      assert (0 <= z) as Hz.
      { destruct (decide (0 <= z)); [done|]. exfalso.
        assert (u64 z = z + 2 ^ 64) as E by (unfold uwrap; symmetry; apply Z.mod_unique_pos with (-1); lia).
        assert (2 ^ (log2i (u64 z) + 1) <= 2 ^ 62) by (apply Z.pow_le_mono_r; lia). lia. }
      rewrite (uwrap_id 64 z) in * by (unfold is_u; lia).
      assert (z * 2 ^ c < 2 ^ 62).
      { apply Z.lt_le_trans with (2 ^ (log2i z + 1) * 2 ^ c); [apply Z.mul_lt_mono_pos_r; lia|].
        rewrite <- Z.pow_add_r by lia. apply Z.pow_le_mono_r; lia. }
      assert (0 <= z * 2 ^ c) by (apply Z.mul_nonneg_nonneg; lia).
      rewrite ushl_mul, (Z.mod_small (z * 2 ^ c)) by lia.
      unfold sexp_fx_sign. destruct (Z.ltb_spec z 0); [lia|]. rewrite Z.mul_1_r.
      rewrite uwrap_id, swrap_id by (unfold is_u; lia). apply Hfin. lia.
    + destruct (fixnum_to_bignum_spec z) as (W & V & _); [done|].
      assert (sign (sexp_fixnum_to_bignum z) = 1 \/ bval (sexp_fixnum_to_bignum z) <> 0) as Hs.
      { rewrite V. destruct (decide (z = 0)) as [->|]; [by left|by right]. }
      destruct (big_shift_spec _ c W Hs) as [N E].
      destruct (normalize_spec _ (inormal_iwf _ N)) as [N' E']. split; [done|].
      rewrite E', E, V. unfold shifted. destruct (Z.leb_spec 0 c); [done|lia].
Qed.

(** *** The parallel population count *)

(** The number of one bits among the [n] low ones. *)
Fixpoint popcount (n : nat) (x : Z) : Z :=
  match n with O => 0 | S n => x mod 2 + popcount n (x / 2) end.

Lemma popcount_add a n x : popcount (a + n) x = popcount a (x mod 2 ^ Z.of_nat a) + popcount n (x / 2 ^ Z.of_nat a).
Proof.
  revert x. induction a as [|a IH]; intros x; [cbn; by rewrite Z.div_1_r|].
  cbn [Nat.add popcount]. rewrite IH, Nat2Z.inj_succ, Z.pow_succ_r by lia.
  rewrite Z.div_div by lia.
  assert ((x mod (2 * 2 ^ Z.of_nat a)) mod 2 = x mod 2) as ->.
  { apply Z.mod_mod_divide. exists (2 ^ Z.of_nat a). ring. }
  assert ((x mod (2 * 2 ^ Z.of_nat a)) / 2 = (x / 2) mod 2 ^ Z.of_nat a) as ->.
  { pose proof (Z.div_mod x 2 ltac:(lia)). pose proof (Z.mod_pos_bound x 2 ltac:(lia)).
    pose proof (Z.div_mod (x / 2) (2 ^ Z.of_nat a) ltac:(lia)).
    pose proof (Z.mod_pos_bound (x / 2) (2 ^ Z.of_nat a) ltac:(lia)).
    assert (x mod (2 * 2 ^ Z.of_nat a) = 2 * ((x / 2) mod 2 ^ Z.of_nat a) + x mod 2) as ->.
    { symmetry. apply Z.mod_unique_pos with (x / 2 / 2 ^ Z.of_nat a); lia. }
    symmetry. apply Z.div_unique_pos with (x mod 2); lia. }
  ring.
Qed.

(** Byte lanes. *)
Fixpoint lanes (bs : list Z) : Z := match bs with [] => 0 | b :: bs => b + 2 ^ 8 * lanes bs end.
Fixpoint bytes (n : nat) (x : Z) : list Z :=
  match n with O => [] | S n => x mod 2 ^ 8 :: bytes n (x / 2 ^ 8) end.

Lemma lanes_bytes n x : 0 <= x < 2 ^ (8 * Z.of_nat n) ->
  lanes (bytes n x) = x /\ Forall (is_u 8) (bytes n x) /\ length (bytes n x) = n /\
  popcount (8 * n) x = fold_right (fun b s => popcount 8 b + s) 0 (bytes n x).
Proof.
  revert x. induction n as [|n IH]; intros x Hx.
  - cbn in *. assert (x = 0) as -> by lia. done.
  - pose proof (Z.div_mod x (2 ^ 8) ltac:(lia)). pose proof (Z.mod_pos_bound x (2 ^ 8) ltac:(lia)).
    assert (2 ^ (8 * Z.of_nat (S n)) = 2 ^ 8 * 2 ^ (8 * Z.of_nat n)) as E.
    { rewrite <- Z.pow_add_r by lia. f_equal. lia. }
    destruct (IH (x / 2 ^ 8)) as (El & Hb & Hlen & Hp).
    { split; [apply Z.div_pos; lia|apply Z.div_lt_upper_bound; lia]. }
    cbn [bytes lanes length fold_right]. rewrite El. split_and!; [lia|by constructor|by f_equal|].
    replace (8 * S n)%nat with (8 + 8 * n)%nat by lia. rewrite popcount_add.
    change (Z.of_nat 8) with 8. by rewrite Hp.
Qed.

Lemma lanes_range bs n : Forall (is_u 8) bs -> length bs = n -> 0 <= lanes bs < 2 ^ (8 * Z.of_nat n).
Proof.
  intros Hbs. revert n. induction Hbs as [|b bs Hb Hbs IH]; intros n <-; cbn [lanes length]; [lia|].
  specialize (IH _ eq_refl). unfold is_u in Hb.
  assert (2 ^ (8 * Z.of_nat (S (length bs))) = 2 ^ 8 * 2 ^ (8 * Z.of_nat (length bs))) as ->.
  { rewrite <- Z.pow_add_r by lia. f_equal. lia. }
  lia.
Qed.

(** Statements about every byte, by evaluation. *)
Lemma all_bytes (P : Z -> bool) : forallb P (map Z.of_nat (seq 0 256)) = true ->
  forall b, is_u 8 b -> P b = true.
Proof.
  intros HP b Hb. rewrite forallb_forall in HP. apply HP. rewrite in_map_iff.
  exists (Z.to_nat b). unfold is_u in Hb. rewrite in_seq. lia.
Qed.

Definition mask (m : Z) (n : nat) : Z := lanes (replicate n m).

(** A shift of lanes by [s] bits, under a mask that hides the bits that come
    from the next lane. *)
Lemma lane_shift s m b X M : (s = 1 /\ m = 85 \/ s = 2 /\ m = 51) -> is_u 8 b ->
  Z.land ((b + 2 ^ 8 * X) / 2 ^ s) (m + 2 ^ 8 * M) = Z.land (b / 2 ^ s) m + 2 ^ 8 * Z.land (X / 2 ^ s) M.
Proof.
  intros Hs Hb.
  assert (0 <= s <= 2 /\ is_u 8 m) as [Hs2 Hm] by (unfold is_u; destruct Hs as [[-> ->]|[-> ->]]; lia).
  assert (2 ^ 8 = 2 ^ (8 - s) * 2 ^ s) as E8 by (rewrite <- Z.pow_add_r by lia; f_equal; lia).
  pose proof (Z.div_mod X (2 ^ s) ltac:(lia)) as EX. pose proof (Z.mod_pos_bound X (2 ^ s) ltac:(lia)).
  assert ((b + 2 ^ 8 * X) / 2 ^ s = (b / 2 ^ s + 2 ^ (8 - s) * (X mod 2 ^ s)) + 2 ^ 8 * (X / 2 ^ s)) as ->.
  { replace (b + 2 ^ 8 * X) with (b + (2 ^ (8 - s) * X) * 2 ^ s) by (rewrite E8; ring).
    rewrite Z.div_add by lia. rewrite EX at 1. rewrite E8. ring. }
  unfold is_u in Hb. assert (0 <= b / 2 ^ s < 2 ^ (8 - s)).
  { split; [apply Z.div_pos; lia|apply Z.div_lt_upper_bound; lia]. }
  assert (is_u 8 (b / 2 ^ s + 2 ^ (8 - s) * (X mod 2 ^ s))) as Hu by (unfold is_u; rewrite E8; nia).
  rewrite (op_split (op:=Z.land)) by (done || lia). f_equal.
  set (x := X mod 2 ^ s) in *. set (y := b / 2 ^ s) in *. clearbody x y.
  assert (is_u 8 y) as Hy by (unfold is_u; rewrite E8; nia).
  destruct Hs as [[-> ->]|[-> ->]].
  - assert (x = 0 \/ x = 1) as [-> | ->] by lia; [f_equal; lia|].
    apply Z.eqb_eq. revert y Hy H0 Hu. intros y Hy H0 _.
    assert ((128 <=? y) || (Z.land (y + 2 ^ 7 * 1) 85 =? Z.land y 85) = true) as Hc
      by (apply (all_bytes (fun y => (128 <=? y) || (Z.land (y + 2 ^ 7 * 1) 85 =? Z.land y 85))); [by vm_compute|done]).
    change (2 ^ (8 - 1)) with (2 ^ 7) in *. destruct (Z.leb_spec 128 y); [lia|done].
  - assert (0 <= x < 4) as Hx by lia. apply Z.eqb_eq.
    assert ((64 <=? y) || forallb (fun x => Z.land (y + 2 ^ 6 * x) 51 =? Z.land y 51) [0; 1; 2; 3] = true) as Hc
      by (apply (all_bytes (fun y => (64 <=? y) || forallb (fun x => Z.land (y + 2 ^ 6 * x) 51 =? Z.land y 51) [0; 1; 2; 3]));
          [by vm_compute|done]).
    change (2 ^ (8 - 2)) with (2 ^ 6) in *. destruct (Z.leb_spec 64 y); [lia|].
    cbn [orb] in Hc. rewrite forallb_forall in Hc. apply Hc. cbn. lia.
Qed.

Definition lane1 (b : Z) : Z := b - Z.land (b / 2 ^ 1) 85.
Definition lane2 (b : Z) : Z := Z.land b 51 + Z.land (b / 2 ^ 2) 51.
Definition lane3 (b : Z) : Z := Z.land (b + b / 2 ^ 4) 15.

Lemma stage1 bs : Forall (is_u 8) bs ->
  lanes bs - Z.land (lanes bs / 2 ^ 1) (mask 85 (length bs)) = lanes (map lane1 bs).
Proof.
  induction 1 as [|b bs Hb Hbs IH]; [done|]. unfold mask in *. cbn [lanes length replicate map].
  rewrite lane_shift by (done || auto). rewrite <- IH. unfold lane1. ring.
Qed.

Lemma stage2 bs : Forall (is_u 8) bs ->
  Z.land (lanes bs) (mask 51 (length bs)) + Z.land (lanes bs / 2 ^ 2) (mask 51 (length bs)) = lanes (map lane2 bs).
Proof.
  induction 1 as [|b bs Hb Hbs IH]; [done|]. unfold mask in *. cbn [lanes length replicate map].
  rewrite lane_shift by (done || auto). rewrite (op_split (op:=Z.land)) by (done || unfold is_u; lia).
  rewrite <- IH. unfold lane2. ring.
Qed.

(** Both nibbles at most 4, as after the second stage. *)
Definition nibbles (b : Z) : bool := (b mod 16 <=? 4) && (b / 16 <=? 4).

Lemma stage3 bs : Forall (fun b => is_u 8 b /\ nibbles b = true) bs ->
  Z.land (lanes bs + lanes bs / 2 ^ 4) (mask 15 (length bs)) = lanes (map lane3 bs).
Proof.
  assert (forall bs, Forall (fun b => is_u 8 b /\ nibbles b = true) bs -> lanes bs mod 16 <= 4) as Hlow.
  { intros l [|b l' [Hb Hn] _]; cbn [lanes]; [done|].
    replace (b + 2 ^ 8 * lanes l') with (b + (16 * lanes l') * 16) by ring. rewrite Z.mod_add by lia.
    unfold nibbles in Hn. lia. }
  induction 1 as [|b bs [Hb Hn] Hbs IH]; [done|]. unfold mask in *. cbn [lanes length replicate map].
  specialize (Hlow bs Hbs). set (X := lanes bs) in *.
  assert (b + 2 ^ 8 * X + (b + 2 ^ 8 * X) / 2 ^ 4 = (b + b / 2 ^ 4 + 16 * (X mod 16)) + 2 ^ 8 * (X + X / 2 ^ 4)) as ->.
  { replace (b + 2 ^ 8 * X) with (b + (16 * X) * 2 ^ 4) at 2 by ring. rewrite Z.div_add by lia.
    change (2 ^ 4) with 16. pose proof (Z.div_mod X 16 ltac:(lia)). lia. }
  pose proof (Z.mod_pos_bound X 16 ltac:(lia)). unfold nibbles in Hn. unfold is_u in Hb.
  pose proof (Z.div_mod b 16 ltac:(lia)). change (2 ^ 4) with 16 in *.
  rewrite (op_split (op:=Z.land)), IH by (unfold is_u; lia). f_equal. unfold lane3.
  change 15 with (Z.ones 4). rewrite !Z.land_ones by lia. change (2 ^ 4) with 16.
  rewrite Z.mul_comm, Z.mod_add by lia. done.
Qed.

(** The product with [0x0101...] sums the lanes in the top one. *)
Lemma lane_sum bs : length bs = 8%nat -> Forall (fun b => 0 <= b <= 8) bs ->
  ushr (u64 (lanes bs * mask 1 8)) 56 = fold_right Z.add 0 bs.
Proof.
  intros Hlen Hbs. destruct bs as [|b [|b0 [|b1 [|b2 [|b3 [|b4 [|b5 [|b6 [|]]]]]]]]]; try done.
  repeat match goal with H : Forall _ (_ :: _) |- _ => apply Forall_cons_1 in H; destruct H as [? H] end.
  change (mask 1 8) with 72340172838076673. cbn [lanes fold_right]. rewrite ushr_div by lia. unfold uwrap.
  set (low := b + (b + b0) * 2 ^ 8 + (b + b0 + b1) * 2 ^ 16 + (b + b0 + b1 + b2) * 2 ^ 24
              + (b + b0 + b1 + b2 + b3) * 2 ^ 32 + (b + b0 + b1 + b2 + b3 + b4) * 2 ^ 40
              + (b + b0 + b1 + b2 + b3 + b4 + b5) * 2 ^ 48).
  set (top := b + b0 + b1 + b2 + b3 + b4 + b5 + b6).
  set (over := (b0 + b1 + b2 + b3 + b4 + b5 + b6) + (b1 + b2 + b3 + b4 + b5 + b6) * 2 ^ 8
               + (b2 + b3 + b4 + b5 + b6) * 2 ^ 16 + (b3 + b4 + b5 + b6) * 2 ^ 24
               + (b4 + b5 + b6) * 2 ^ 32 + (b5 + b6) * 2 ^ 40 + b6 * 2 ^ 48).
  rewrite <- (Z.mod_unique_pos _ (2 ^ 64) over (low + top * 2 ^ 56)) by (unfold low, top, over; lia).
  symmetry. apply Z.div_unique_pos with low; unfold low, top; lia.
Qed.

Lemma bit_count_spec x : is_u64 x -> bit_count x = popcount 64 x.
Proof.
  intros Hx. destruct (lanes_bytes 8 x Hx) as (Ex & Hb & Hlen & Hp). change (8 * 8)%nat with 64%nat in Hp.
  rewrite Hp. set (bs := bytes 8 x) in *. clearbody bs.
  assert (forall b, is_u 8 b -> is_u 8 (lane1 b) /\ is_u 8 (lane2 (lane1 b)) /\
    nibbles (lane2 (lane1 b)) = true /\ 0 <= lane3 (lane2 (lane1 b)) <= 8 /\
    lane3 (lane2 (lane1 b)) = popcount 8 b) as Hlane.
  { intros b Hu.
    pose proof (all_bytes (fun b => (0 <=? lane1 b) && (lane1 b <? 256) && (0 <=? lane2 (lane1 b))
      && (lane2 (lane1 b) <? 256) && nibbles (lane2 (lane1 b)) && (0 <=? lane3 (lane2 (lane1 b)))
      && (lane3 (lane2 (lane1 b)) <=? 8) && (lane3 (lane2 (lane1 b)) =? popcount 8 b))
      ltac:(by vm_compute) b Hu) as E. cbn beta in E.
    rewrite !andb_true_iff, !Z.leb_le, !Z.ltb_lt, Z.eqb_eq in E. unfold is_u. change (2 ^ 8) with 256. tauto. }
  assert (Forall (is_u 8) (map lane1 bs)) as H1.
  { apply Forall_fmap. eapply Forall_impl; [|exact Hb]. intros b Hu. by destruct (Hlane b Hu). }
  assert (Forall (fun b => is_u 8 b /\ nibbles b = true) (map lane2 (map lane1 bs))) as H2.
  { rewrite map_map. apply Forall_fmap. eapply Forall_impl; [|exact Hb].
    intros b Hu. by destruct (Hlane b Hu) as (_ & ? & ? & _). }
  assert (Forall (is_u 8) (map lane2 (map lane1 bs))) as H2'.
  { eapply Forall_impl; [|exact H2]. by intros b [? _]. }
  assert (Forall (fun b => 0 <= b <= 8) (map lane3 (map lane2 (map lane1 bs)))) as H3.
  { rewrite !map_map. apply Forall_fmap. eapply Forall_impl; [|exact Hb].
    intros b Hu. by destruct (Hlane b Hu) as (_ & _ & _ & ? & _). }
  assert (forall f : Z -> Z, forall l, length l = 8%nat -> length (map f l) = 8%nat) as Hl by (intros; by rewrite length_map).
  pose proof (stage1 bs Hb) as S1. pose proof (stage2 _ H1) as S2. pose proof (stage3 _ H2) as S3.
  rewrite Hlen, Ex in S1. rewrite (Hl _ bs Hlen) in S2. rewrite (Hl _ _ (Hl _ bs Hlen)) in S3.
  pose proof (lanes_range _ 8 H1 ltac:(auto)). pose proof (lanes_range _ 8 H2' ltac:(auto)).
  assert (2 ^ (8 * Z.of_nat 8) = 2 ^ 64) as E64 by done. rewrite E64 in *.
  unfold bit_count. rewrite !ushr_div by lia.
  change (UINT_MAX / 3) with (mask 85 8). change (UINT_MAX / 15 * 3) with (mask 51 8).
  change (UINT_MAX / 255 * 15) with (mask 15 8). change (UINT_MAX / 255) with (mask 1 8).
  rewrite S1, (uwrap_id 64 (lanes (map lane1 bs))), S2, (uwrap_id 64 (lanes (map lane2 _))) by done.
  assert (Forall (fun b => 0 <= b < 120) (map lane2 (map lane1 bs))) as H4.
  { eapply Forall_impl; [|exact H2]. intros b [Hu Hn]. unfold nibbles, is_u in *.
    pose proof (Z.div_mod b 16 ltac:(lia)). lia. }
  rewrite (uwrap_id 64 (lanes (map lane2 _) + _)), S3.
  - rewrite <- ushr_div, lane_sum by (auto || lia). clear -Hb Hlane.
    induction Hb as [|b bs Hu Hb IH]; [done|]. cbn [map fold_right]. rewrite IH.
    destruct (Hlane b Hu) as (_ & _ & _ & _ & ->). done.
  - assert (forall l, Forall (fun b => 0 <= b < 120) l -> 0 <= lanes l * 2 <= 240 * mask 1 (length l)) as Hsum.
    { induction 1 as [|b l Hbb _ IH]; [done|]. unfold mask in *. cbn [lanes length replicate]. lia. }
    specialize (Hsum _ H4). rewrite !length_map, Hlen in Hsum. change (mask 1 8) with 72340172838076673 in Hsum.
    unfold is_u. set (l := lanes (map lane2 _)) in *. pose proof (Z.div_mod l (2 ^ 4) ltac:(lia)).
    pose proof (Z.mod_pos_bound l (2 ^ 4) ltac:(lia)). lia.
Qed.

(** *** Lengths, counts and tests *)

Lemma bit_xor_spec x y : headroom x -> headroom y ->
  match x, y with
  | Big a, Big b => length (data b) = length (data a) \/ (length (data b) < length (data a))%nat /\ sign b = 1
  | _, _ => True
  end ->
  inormal (sexp_bit_xor x y) /\ ival (sexp_bit_xor x y) = Z.lxor (ival x) (ival y).
Proof.
  intros Hx Hy Hl. destruct x as [x|x], y as [y|y]; cbn [sexp_bit_xor ival].
  - pose proof (fix_op_spec Z.lxor xorb x y Hx Hy) as Hn. rewrite make_fixnum_id by done. apply (normalize_spec (Fix (Z.lxor x y))). done.
  - apply normalize_big. rewrite Z.lxor_comm. by apply bit_xor_big_fix_spec.
  - apply normalize_big. by apply bit_xor_big_fix_spec.
  - apply normalize_big. rewrite !copy_same.
    destruct (twos_complement_spec y Hy) as (Ty & Sy & Ly).
    destruct (Nat.leb_spec (length (data y)) (length (data x))); [|lia].
    rewrite <- Sy. apply bit_xor_general_spec; [done..|]. rewrite Ly, Sy. done.
Qed.

(** The number of bits of a non-negative integer. *)
Definition bitlen (x : Z) : Z := if x =? 0 then 0 else Z.log2 x + 1.

Lemma bitlen_high x k : 0 <= k -> 0 < x / 2 ^ k -> bitlen x = bitlen (x / 2 ^ k) + k.
Proof.
  intros Hk Hq. pose proof (Z.log2_spec _ Hq) as [Hlo Hhi]. pose proof (Z.log2_nonneg (x / 2 ^ k)).
  assert (Hp : 0 < 2 ^ k) by lia. pose proof (Z.div_mod x (2 ^ k) ltac:(lia)).
  pose proof (Z.mod_pos_bound x (2 ^ k) Hp). unfold bitlen.
  destruct (Z.eqb_spec x 0); [subst; by rewrite Z.div_0_l in Hq by lia|].
  destruct (Z.eqb_spec (x / 2 ^ k) 0); [lia|].
  rewrite (Z.log2_unique x (Z.log2 (x / 2 ^ k) + k)); [lia|lia|].
  replace (Z.succ (Z.log2 (x / 2 ^ k) + k)) with (Z.succ (Z.log2 (x / 2 ^ k)) + k) by lia.
  rewrite !Z.pow_add_r by lia. nia.
Qed.

Lemma log_table_spec t : is_u 8 t -> log_table_256 t = bitlen t.
Proof.
  intros Ht. apply Z.eqb_eq. apply (all_bytes (fun t => log_table_256 t =? bitlen t)); [by vm_compute|done].
Qed.

Lemma ushr_range w k x : 0 <= k -> 0 <= w -> is_u (w + k) x -> is_u w (ushr x k).
Proof.
  unfold is_u. intros Hk Hw [? ?]. rewrite ushr_div by done. rewrite Z.pow_add_r in * by lia.
  split; [apply Z.div_pos; lia|apply Z.div_lt_upper_bound; lia].
Qed.

Lemma bitlen_shift w k x n : 0 <= k -> 0 <= w -> is_u (w + k) x ->
  (ushr x k <> 0 -> n = bitlen (ushr x k) + k) -> ushr x k <> 0 -> n = bitlen x.
Proof.
  intros Hk Hw Hx E Hnz. rewrite E by done. pose proof (ushr_range w k x Hk Hw Hx) as Hr.
  unfold is_u in Hr. rewrite ushr_div in * by done. rewrite (bitlen_high x k); lia.
Qed.

Lemma ushr_zero w k x : 0 <= k -> is_u (w + k) x -> ushr x k = 0 -> is_u k x.
Proof.
  unfold is_u. intros Hk Hx E. rewrite ushr_div in E by done. split; [lia|].
  pose proof (Z.div_mod x (2 ^ k) ltac:(lia)). pose proof (Z.mod_pos_bound x (2 ^ k) ltac:(lia)). lia.
Qed.

Lemma integer_log2_32_spec x : is_u 32 x -> integer_log2_32 x = bitlen x.
Proof.
  intros Hx. unfold integer_log2_32.
  destruct (Z.eqb_spec (ushr x 16) 0) as [E|E]; cbn [negb].
  - apply (ushr_zero 16) in E; [|lia|done]. destruct (Z.eqb_spec (ushr x 8) 0) as [E'|E']; cbn [negb].
    + apply (ushr_zero 8) in E'; [|lia|done]. by apply log_table_spec.
    + apply (bitlen_shift 8 8); try done. intros _.
      rewrite log_table_spec by (by apply (ushr_range 8 8)). lia.
  - apply (bitlen_shift 16 16); try done. intros _.
    assert (is_u 16 (ushr x 16)) as Hr by (by apply (ushr_range 16 16)). set (tt := ushr x 16) in *. clearbody tt.
    destruct (Z.eqb_spec (ushr tt 8) 0) as [E'|E']; cbn [negb].
    + apply (ushr_zero 8) in E'; [|lia|done]. rewrite log_table_spec by done. lia.
    + rewrite <- (bitlen_shift 8 8 tt (8 + log_table_256 (ushr tt 8))); try done; [lia|].
      intros _. rewrite log_table_spec by (by apply (ushr_range 8 8)). lia.
Qed.

Lemma integer_log2_spec x : is_u64 x -> integer_log2 x = bitlen x.
Proof.
  intros Hx. unfold integer_log2. destruct (Z.eqb_spec (ushr x 32) 0) as [E|E]; cbn [negb].
  - apply (ushr_zero 32) in E; [|lia|done]. by apply integer_log2_32_spec.
  - apply (bitlen_shift 32 32); try done. intros _.
    rewrite integer_log2_32_spec by (by apply (ushr_range 32 32)). done.
Qed.

Lemma integer_length_big b : wf b -> bval b <> 0 -> sexp_integer_length (Big b) = bitlen (mag b).
Proof.
  intros Wb Hnz. cbn [sexp_integer_length]. destruct (hi_spec b Wb) as (Hh & Hm & _ & Hlt & Htop).
  set (n := sexp_bignum_hi b) in *. pose proof Wb as (_ & _ & Hl).
  assert (is_u64 (rd (data b) (n - 1))) as Hr by (by apply limbs_rd). rewrite integer_log2_spec by done.
  assert (mag b = dval (take (n - 1) (data b)) + Bp (n - 1) * rd (data b) (n - 1)) as Em.
  { rewrite Hm. replace n with (S (n - 1)) at 1 by lia. rewrite dval_take_S by lia. ring. }
  pose proof (dval_range (take (n - 1) (data b)) ltac:(limbs)) as Hlow. rewrite length_take_le in Hlow by lia.
  assert (mag b / Bp (n - 1) = rd (data b) (n - 1)) as Eq.
  { symmetry. apply Z.div_unique_pos with (dval (take (n - 1) (data b))); [lia|]. rewrite Em. ring. }
  assert (Bp (n - 1) = 2 ^ (64 * Z.of_nat (n - 1))) as EB by (rewrite <- Bp_pow; f_equal; lia).
  rewrite (bitlen_high (mag b) (64 * Z.of_nat (n - 1))); rewrite <- ?EB, ?Eq; [lia|lia|].
  pose proof (Bp_pos (n - 1)). clear EB. destruct Htop as [E1|Htop].
  - assert (mag b <> 0) by (intros E0; apply Hnz; unfold bval; lia). rewrite E1 in Em at 1 2. rewrite take_0 in Em.
    cbn [Nat.sub dval] in Em. rewrite Bp_0 in Em. unfold is_u in Hr. lia.
  - unfold is_u in Hr. nia.
Qed.

Lemma popcount_range n x : 0 <= popcount n x <= Z.of_nat n.
Proof.
  revert x. induction n as [|n IH]; intros x; cbn [popcount]; [lia|].
  specialize (IH (x / 2)). pose proof (Z.mod_pos_bound x 2 ltac:(lia)). lia.
Qed.

(** The number of one bits of a limb array. *)
Definition popcount_limbs (ds : list Z) : Z := popcount (64 * length ds) (dval ds).

Lemma popcount_cons d ds : is_u64 d -> popcount_limbs (d :: ds) = popcount 64 d + popcount_limbs ds.
Proof.
  intros Hd. unfold popcount_limbs. cbn [length dval].
  replace (64 * S (length ds))%nat with (64 + 64 * length ds)%nat by lia. rewrite popcount_add.
  change (Z.of_nat 64) with 64. rewrite (Z.mul_comm (2 ^ 64)), Z.mod_add, Z.div_add, Z.mod_small, Z.div_small by (done || lia).
  done.
Qed.

Lemma bit_count_fold ds c : limbs ds -> 0 <= c -> c + 64 * Z.of_nat (length ds) < 2 ^ 64 ->
  fold_left (fun count d => u64 (count + bit_count d)) ds c = c + popcount_limbs ds.
Proof.
  intros Hds. revert c. induction Hds as [|d ds Hd Hds IH]; intros c Hc Hb; cbn [fold_left].
  - unfold popcount_limbs. cbn. lia.
  - rewrite bit_count_spec by done. rewrite popcount_cons by done.
    pose proof (popcount_range 64 d). cbn [length] in Hb.
    rewrite uwrap_id by (unfold is_u; lia). rewrite IH by lia. lia.
Qed.

Lemma land_bit x i : 0 <= i -> negb (Z.land x (2 ^ i) =? 0) = Z.testbit x i.
Proof.
  intros Hi. destruct (Z.testbit x i) eqn:E.
  - destruct (Z.eqb_spec (Z.land x (2 ^ i)) 0) as [E0|]; [|done]. exfalso.
    assert (Z.testbit (Z.land x (2 ^ i)) i = true) as E1 by (by rewrite Z.land_spec, E, Z.pow2_bits_true).
    by rewrite E0, Z.bits_0 in E1.
  - apply negb_false_iff, Z.eqb_eq, Z.bits_inj'. intros j Hj. rewrite Z.land_spec, Z.bits_0.
    destruct (decide (j = i)) as [->|]; [by rewrite E|]. rewrite Z.pow2_bits_false by lia. apply andb_false_r.
Qed.

Lemma testbit_dval ds i : limbs ds -> 0 <= i ->
  Z.testbit (dval ds) i =
    if i / 64 <? Z.of_nat (length ds) then Z.testbit (rd ds (Z.to_nat (i / 64))) (i mod 64) else false.
Proof.
  intros Hds. revert i. induction Hds as [|d ds Hd Hds IH]; intros i Hi.
  - cbn [dval length]. rewrite Z.bits_0. pose proof (Z.div_pos i 64 Hi ltac:(lia)).
    destruct (Z.ltb_spec (i / 64) (Z.of_nat 0)); [lia|done].
  - cbn [dval length]. rewrite testbit_split by (done || lia).
    pose proof (Z.div_mod i 64 ltac:(lia)). pose proof (Z.mod_pos_bound i 64 ltac:(lia)).
    pose proof (Z.div_pos i 64 Hi ltac:(lia)). destruct (Z.ltb_spec i 64).
    + rewrite Z.div_small, Z.mod_small by lia. done.
    + rewrite IH by lia. assert ((i - 64) / 64 = i / 64 - 1) as -> by (symmetry; apply Z.div_unique_pos with (i mod 64); lia).
      assert ((i - 64) mod 64 = i mod 64) as -> by (symmetry; apply Z.mod_unique_pos with (i / 64 - 1); lia).
      replace (Z.to_nat (i / 64)) with (S (Z.to_nat (i / 64 - 1))) by lia.
      destruct (Z.ltb_spec (i / 64 - 1) (Z.of_nat (length ds))), (Z.ltb_spec (i / 64) (Z.of_nat (S (length ds)))); (done || lia).
Qed.

Lemma bit_set_p_spec x i : iwf x -> 0 <= i ->
  match x with Big b => sign b = 1 | Fix _ => True end ->
  sexp_bit_set_p i x = BitSet (Z.testbit (ival x) i).
Proof.
  intros Hx Hi Hs. unfold sexp_bit_set_p. destruct (Z.ltb_spec i 0); [lia|]. destruct x as [x|b]; f_equal.
  - cbn [ival]. destruct (Z.ltb_spec i 64).
    + rewrite ushl_mul, Z.mul_1_l, Z.mod_small by (lia || (split; [lia|apply Z.pow_lt_mono_r; lia])).
      rewrite land_bit by done. unfold uwrap. by rewrite Z.mod_pow2_bits_low.
    + cbn in Hx. unfold SEXP_MIN_FIXNUM, SEXP_MAX_FIXNUM in Hx.
      assert (within 62 x) as Hw by (unfold within; lia). apply within_shiftr in Hw as [n Hn]; [|lia].
      replace i with (i - 62 + 62) by lia. rewrite <- Z.shiftr_spec, Hn by lia.
      assert (n = (x <? 0)) as <-.
      { rewrite Z.shiftr_div_pow2 in Hn by lia. pose proof (Z.div_mod x (2 ^ 62) ltac:(lia)). pose proof (Z.mod_pos_bound x (2 ^ 62) ltac:(lia)).
        destruct n; cbv iota in Hn; destruct (Z.ltb_spec x 0); try done; lia. }
      destruct n; [by rewrite Z.bits_m1 by lia|by rewrite Z.bits_0].
  - cbn [ival]. cbn [iwf] in Hx. destruct Hx as (_ & _ & Hl). unfold bval, mag. rewrite Hs, Z.mul_1_l. cbn [Z.ltb Z.compare].
    rewrite testbit_dval by done. pose proof (Z.div_mod i 64 ltac:(lia)).
    pose proof (Z.mod_pos_bound i 64 ltac:(lia)). destruct (i / 64 <? _); [|done].
    replace (i - i / 64 * 64) with (i mod 64) by lia.
    rewrite ushl_mul, Z.mul_1_l, Z.mod_small by (lia || (split; [lia|apply Z.pow_lt_mono_r; lia])).
    apply land_bit; lia.
Qed.

(** ** Theorems *)

(** C12 (functional).  [sexp_bit_and] and [sexp_bit_ior] on normalised
    fixnums and bignums.  The results are normalised.  They are the infinite
    two's complement operations when both operands are non-negative, and when
    each bignum leaves the sign bit of its top limb free ([headroom]).  They are
    not in general: where an operand is negative, the conjunction is that of the
    two's complement reduced to as many limbs as the longer operand has, so that
    a set top bit turns a positive result into a negative one; and a disjunction
    of two bignums that needs one bit more than these limbs loses it and has the
    sign of the longer operand. *)
Theorem bit_and_ior_correct x y : inormal x -> inormal y ->
  let n := max (limb_count x) (limb_count y) in
  let conj := Z.land (ival x) (ival y) in
  let disj := Z.lor (ival x) (ival y) in
  inormal (sexp_bit_and x y) /\ inormal (sexp_bit_ior x y)
  /\ (0 <= ival x -> 0 <= ival y -> ival (sexp_bit_and x y) = conj /\ ival (sexp_bit_ior x y) = disj)
  /\ (headroom x -> headroom y -> ival (sexp_bit_and x y) = conj /\ ival (sexp_bit_ior x y) = disj)
  /\ (ival x < 0 \/ ival y < 0 -> ival (sexp_bit_and x y) = swrap (64 * Z.of_nat n) conj)
  /\ match x, y with
     | Big _, Big _ =>
         ival (sexp_bit_ior x y) =
           if disj <? - 2 ^ (64 * Z.of_nat n - 1) then ior_sign x y * (disj + 2 ^ (64 * Z.of_nat n)) else disj
     | _, _ => ival (sexp_bit_ior x y) = disj
     end.
Proof.
  intros Hx%inormal_regular Hy%inormal_regular n conj disj.
  destruct (bit_and_value x y Hx Hy) as [Na ->], (bit_ior_value x y Hx Hy) as [Ni ->]. split_and!; [done|done|..].
  - intros Px Py. unfold and_value. destruct (Z.ltb_spec (ival x) 0), (Z.ltb_spec (ival y) 0); try lia. split; [done|].
    destruct x, y; try done. unfold ior_value, or_value. pose proof (proj2 (Z.lor_nonneg _ _) (Logic.conj Px Py)).
    assert (0 <= 2 ^ width (max (limb_count (Big b)) (limb_count (Big b0)))) by (apply Z.pow_nonneg; lia).
    destruct (Z.ltb_spec (Z.lor (ival (Big b)) (ival (Big b0))) (- 2 ^ width (max (limb_count (Big b)) (limb_count (Big b0)))));
      [lia|done].
  - intros Ux Uy. by rewrite and_value_headroom, ior_value_headroom.
  - intros Hneg. unfold and_value. destruct (Z.ltb_spec (ival x) 0), (Z.ltb_spec (ival y) 0); (done || lia).
  - by destruct x, y.
Qed.

Ltac concrete_headroom :=
  cbn [headroom]; split; [concrete_wf|split; [by vm_compute|split; by vm_compute]].

Ltac concrete_normal := split; [concrete_wf|vm_compute; intros [? ?]; auto].

(** Operands of either sign with a free sign bit, and [2^63 AND -1], which is [-2^63]. *)
Lemma bit_and_ior_correct_witness :
  ival (sexp_bit_and (Big (Bignum (-1) [5; 2 ^ 40])) (Big (Bignum 1 [2 ^ 64 - 1; 7; 3]))) =
    Z.land (- (5 + 2 ^ 104)) (2 ^ 64 - 1 + 2 ^ 64 * 7 + 2 ^ 128 * 3) /\
  ival (sexp_bit_and (Big (Bignum 1 [2 ^ 63])) (Fix (-1))) = swrap 64 (2 ^ 63).
Proof.
  split.
  - refine (proj1 (proj1 (proj2 (proj2 (proj2 (bit_and_ior_correct (Big (Bignum (-1) [5; 2 ^ 40]))
      (Big (Bignum 1 [2 ^ 64 - 1; 7; 3])) _ _)))) _ _)); [concrete_normal..|concrete_headroom|concrete_headroom].
  - refine (proj1 (proj2 (proj2 (proj2 (proj2 (bit_and_ior_correct (Big (Bignum 1 [2 ^ 63])) (Fix (-1)) _ _))))) _).
    + concrete_normal.
    + by vm_compute.
    + right. by vm_compute.
Defined.

(** [sexp_bit_xor] is the two's complement exclusive or when
    at most one operand is a bignum, and for two bignums when they have the same
    number of limbs or the first has more and the second is positive.  When the
    second bignum has more limbs the function combines it with itself: the
    result is always 0, whatever the operands. *)
Theorem bit_xor_correct :
  (forall x y, headroom x -> headroom y ->
    match x, y with
    | Big a, Big b => length (data b) = length (data a) \/ (length (data b) < length (data a))%nat /\ sign b = 1
    | _, _ => True
    end ->
    inormal (sexp_bit_xor x y) /\ ival (sexp_bit_xor x y) = Z.lxor (ival x) (ival y)) /\
  (forall a b, wf a -> wf b -> (length (data a) < length (data b))%nat ->
    sexp_bit_xor (Big a) (Big b) = Fix 0).
Proof.
  split; [exact bit_xor_spec|]. intros a b Wa Wb Hlt. cbn [sexp_bit_xor].
  destruct (Nat.leb_spec (length (data b)) (length (data a))); [lia|]. rewrite !copy_same.
  unfold bit_xor_general. rewrite <- (twos_inline b).
  assert (wf (sexp_twos_complement b)) as Wt.
  { rewrite twos_inline. destruct (sign b <? 0); [by apply set_twos_spec|done]. }
  set (t := sexp_twos_complement b) in *. rewrite drop_ge, app_nil_r by done.
  set (z := Bignum (sign t) (map _ _)).
  assert (wf z /\ mag z = 0) as [Wz Mz].
  { assert (data z = replicate (length (data t)) 0) as Ez.
    { unfold z. cbn [data]. apply list_eq. intros i. change (map ?f ?l) with (f <$> l).
      rewrite list_lookup_fmap. destruct (decide (i < length (data t))%nat).
      - rewrite lookup_seq_lt, lookup_replicate_2 by done. cbn. f_equal. unfold ext_limb.
        destruct (Nat.ltb_spec i (length (data t))); [|lia]. apply Z.lxor_nilpotent.
      - rewrite lookup_seq_ge by lia. cbn. symmetry. apply lookup_replicate_None. lia. }
    destruct Wt as (Ht & Hne & _). unfold wf, mag. rewrite Ez, dval_zeros. split; [|done].
    split_and!; [done| |apply limbs_zeros]. by destruct (data t). }
  clearbody z. destruct (set_twos_spec z Wz) as (Ws & _). pose proof (set_twos_zero z Wz Mz) as Ms.
  assert (forall u, wf u -> mag u = 0 -> sexp_bignum_normalize (Big (negate_big_exact u)) = Fix 0) as Hneg.
  { intros u (Hs & Hne & Hl) Mu. apply normalize_zero; [|done]. unfold negate_big_exact. split_and!; cbn [sign data]; auto; lia. }
  destruct (xorb _ _), (sign b <? 0); auto using normalize_zero.
Qed.

Lemma bit_xor_correct_witness :
  ival (sexp_bit_xor (Big (Bignum (-1) [5; 2 ^ 40])) (Fix (-77))) = Z.lxor (- (5 + 2 ^ 104)) (-77).
Proof.
  refine (proj2 (proj1 bit_xor_correct (Big (Bignum (-1) [5; 2 ^ 40])) (Fix (-77)) _ _ I));
    [concrete_headroom|by vm_compute].
Defined.

(** Without the free sign bit the conjunction takes the top limb of
    a positive number for a sign: [2^63 AND -1] is [-2^63], and
    [-(2^64-1) AND -(2^64-1)] is [1]. *)
Theorem bit_and_sign_limb :
  let a := Bignum 1 [2 ^ 63] in
  let b := Bignum (-1) [2 ^ 64 - 1] in
  inormal (Big a) /\ inormal (Big b) /\
  ival (sexp_bit_and (Big a) (Fix (-1))) = - 2 ^ 63 /\
  sexp_bit_and (Big b) (Big b) = Fix 1.
Proof.
  split_and!; [|  |by vm_compute|by vm_compute];
    (split; [concrete_wf|vm_compute; intros [? ?]; auto]).
Qed.

(** The operands a right shift rounds towards minus infinity. *)
Definition shift_exact (x : exint) (c : Z) : Prop :=
  match x with
  | Fix z => 0 <= z \/ -64 < c
  | Big b => 0 <= bval b \/ 0 <= c \/ bval b mod 2 ^ (- c) <> 0
  end.

(** C11 (functional).  [sexp_arithmetic_shift] of a normalised integer by any
    count is [Z.shiftl], a left shift or a right shift rounding towards minus
    infinity, and the result is normalised; except that a right shift of a
    negative bignum by bits that are all zero is one less, and that a negative
    fixnum shifted by 64 bits or more is 0 instead of -1. *)
Theorem arithmetic_shift_correct x c : inormal x ->
  let r := sexp_arithmetic_shift x c in
  inormal r /\
  (shift_exact x c -> ival r = Z.shiftl (ival x) c) /\
  (~ shift_exact x c -> ival r = match x with Fix _ => 0 | Big _ => Z.shiftl (ival x) c - 1 end).
Proof.
  intros Hx r. unfold r. destruct (decide (c = 0)) as [->|Hc].
  { split; [done|]. change (sexp_arithmetic_shift x 0) with x. rewrite Z.shiftl_0_r. split; [done|].
    destruct x; cbn; intros H; exfalso; apply H; lia. }
  destruct (arithmetic_shift_spec x c Hx Hc) as [Hn ->]. split; [done|].
  assert (Z.shiftl (ival x) c = if c <? 0 then ival x / 2 ^ (- c) else ival x * 2 ^ c) as ->.
  { destruct (Z.ltb_spec c 0); [|apply Z.shiftl_mul_pow2; lia].
    replace c with (- - c) at 1 by lia. rewrite Z.shiftl_opp_r. apply Z.shiftr_div_pow2. lia. }
  destruct x as [z|b]; cbn [ival shift_exact inormal] in *.
  - destruct (Z.ltb_spec c 0); [|split; [done|intros H'; exfalso; apply H'; lia]].
    destruct (Z.gtb_spec c (-64)); [split; [done|intros H'; exfalso; apply H'; lia]|].
    split; [|done]. intros [Hz|]; [|lia]. symmetry. apply Z.div_small. split; [done|].
    unfold SEXP_MAX_FIXNUM in Hx. apply Z.le_lt_trans with (2 ^ 62); [lia|apply Z.pow_lt_mono_r; lia].
  - unfold shifted. destruct (Z.leb_spec 0 c), (Z.ltb_spec c 0); [lia| |  |lia].
    { split; [done|intros H'; exfalso; apply H'; auto]. }
    destruct (Z.ltb_spec (bval b) 0) as [Hb|]; [|split; [done|intros H'; exfalso; apply H'; auto]].
    assert (2 ^ (- c) <> 0) as Hp by (apply Z.pow_nonzero; lia). split; intros He.
    + rewrite Z.div_opp_l_nz by first [done|destruct He as [|[|]]; [lia|lia|done]]. lia.
    + rewrite Z.div_opp_l_z by first [done|destruct (decide (bval b mod 2 ^ (- c) = 0)); [done|exfalso; apply He; auto]]. lia.
Qed.

Lemma arithmetic_shift_correct_witness :
  ival (sexp_arithmetic_shift (Big (Bignum (-1) [0; 8])) (-66)) = Z.shiftl (- (8 * 2 ^ 64)) (-66) - 1.
Proof.
  refine (proj2 (proj2 (arithmetic_shift_correct (Big (Bignum (-1) [0; 8])) (-66) _)) _).
  - split; [concrete_wf|vm_compute; intros [? ?]; auto].
  - vm_compute. intros [H|[H|H]]; auto.
Defined.

(** The population count of a non-negative integer, the bit
    length of a non-negative integer (and of the complement of a negative
    fixnum) and the test of a bit at a non-negative index.  On a negative
    bignum all three work on the magnitude. *)
Theorem bit_queries_correct :
  (forall z, iwf (Fix z) ->
     sexp_bit_count (Fix z) = popcount 64 (if z <? 0 then Z.lnot z else z) /\
     sexp_integer_length (Fix z) = bitlen (if z <? 0 then Z.lnot z else z) /\
     (forall i, 0 <= i -> sexp_bit_set_p i (Fix z) = BitSet (Z.testbit z i))) /\
  (forall b, wf b -> bval b <> 0 -> 64 * Z.of_nat (length (data b)) < 2 ^ 64 ->
     sexp_bit_count (Big b) = popcount (64 * length (data b)) (Z.abs (bval b)) /\
     sexp_integer_length (Big b) = bitlen (Z.abs (bval b)) /\
     (forall i, 0 <= i -> sexp_bit_set_p i (Big (Bignum 1 (data b))) = BitSet (Z.testbit (Z.abs (bval b)) i))) /\
  (forall i x, i < 0 -> sexp_bit_set_p i x = BitNegativeIndex).
Proof.
  split_and!.
  - intros z Hz. assert (is_u64 (if z <? 0 then Z.lnot z else z)) as Hu.
    { cbn in Hz. unfold SEXP_MIN_FIXNUM, SEXP_MAX_FIXNUM, is_u in *. zcases; unfold Z.lnot; lia. }
    split_and!.
    + cbn [sexp_bit_count]. rewrite uwrap_id by done. by apply bit_count_spec.
    + cbn [sexp_integer_length]. replace (- z - 1) with (Z.lnot z) by (unfold Z.lnot; lia).
      rewrite uwrap_id by done. by apply integer_log2_spec.
    + intros i Hi. by apply (bit_set_p_spec (Fix z)).
  - intros b Wb Hnz Hlen. pose proof (mag_nonneg b Wb) as Hm. pose proof Wb as (Hs & Hne & Hl).
    assert (Z.abs (bval b) = mag b) as -> by (unfold bval; destruct Hs as [-> | ->]; lia). split_and!.
    + cbn [sexp_bit_count]. by rewrite bit_count_fold by (done || lia).
    + by apply integer_length_big.
    + intros i Hi. rewrite (bit_set_p_spec (Big (Bignum 1 (data b)))); [|by split_and!; cbn; auto|done|done].
      cbn [ival]. unfold bval. cbn [sign]. rewrite Z.mul_1_l. done.
  - intros i x Hi. unfold sexp_bit_set_p. by destruct (Z.ltb_spec i 0); [|lia].
Qed.

Lemma bit_queries_correct_witness : sexp_bit_count (Big (Bignum 1 [255; 2 ^ 60 + 1])) = 10.
Proof.
  refine (proj1 (proj1 (proj2 bit_queries_correct) (Bignum 1 [255; 2 ^ 60 + 1]) _ _ _));
    [concrete_wf|by vm_compute|by vm_compute].
Defined.
