(* ===== verification/Heap.v ===== *)
(** * Objects and lists

    The tagged words and heap objects of [include/chibi/sexp.h] that the
    compiler and the virtual machine work on, and the list utilities of
    [sexp.c], which walk and mutate chains of pairs in the heap. *)
From S2P Require Import Prelude Bignum.
From stdpp Require Export base tactics numbers list option gmap strings.

(** ** Objects *)

Abbreviation loc := positive.

(** A tagged word: an immediate or a pointer to a heap object.  Symbols are
    interned, so they are compared by name. *)
Inductive sexp :=
| Fixnum (z : Z)
| Char (c : Z)
| StringCursor (z : Z)
| Symbol (name : string)
| SEXP_FALSE | SEXP_TRUE | SEXP_NULL | SEXP_EOF | SEXP_VOID | SEXP_UNDEF
| SEXP_TRAMPOLINE | SEXP_UNCAUGHT
| Ptr (l : loc).

#[global] Instance sexp_eq_dec : EqDecision sexp.
Proof. solve_decision. Defined.

(** [enum sexp_opcode_names] *)
Inductive op_name :=
| OP_NOOP | OP_RAISE | OP_RESUMECC | OP_CALLCC | OP_APPLY1 | OP_TAIL_CALL | OP_CALL
| OP_FCALL0 | OP_FCALL1 | OP_FCALL2 | OP_FCALL3 | OP_FCALL4 | OP_FCALLN
| OP_JUMP_UNLESS | OP_JUMP | OP_PUSH | OP_RESERVE | OP_DROP
| OP_GLOBAL_REF | OP_GLOBAL_KNOWN_REF | OP_PARAMETER_REF | OP_STACK_REF
| OP_LOCAL_REF | OP_LOCAL_SET | OP_CLOSURE_REF | OP_CLOSURE_VARS
| OP_VECTOR_REF | OP_VECTOR_SET | OP_VECTOR_LENGTH
| OP_BYTES_REF | OP_BYTES_SET | OP_BYTES_LENGTH
| OP_STRING_REF | OP_STRING_SET | OP_STRING_LENGTH
| OP_STRING_CURSOR_NEXT | OP_STRING_CURSOR_PREV | OP_STRING_CURSOR_END
| OP_MAKE_PROCEDURE | OP_MAKE_VECTOR | OP_MAKE_EXCEPTION | OP_AND
| OP_NULLP | OP_FIXNUMP | OP_SYMBOLP | OP_CHARP | OP_EOFP
| OP_TYPEP | OP_MAKE | OP_SLOT_REF | OP_SLOT_SET | OP_ISA | OP_SLOTN_REF | OP_SLOTN_SET
| OP_CAR | OP_CDR | OP_SET_CAR | OP_SET_CDR | OP_CONS
| OP_ADD | OP_SUB | OP_MUL | OP_DIV | OP_QUOTIENT | OP_REMAINDER
| OP_LT | OP_LE | OP_EQN | OP_EQ
| OP_CHAR2INT | OP_INT2CHAR | OP_CHAR_UPCASE | OP_CHAR_DOWNCASE
| OP_WRITE_CHAR | OP_WRITE_STRING | OP_READ_CHAR | OP_PEEK_CHAR
| OP_YIELD | OP_FORCE | OP_RET | OP_DONE | OP_SCP | OP_SC_LT | OP_SC_LE.

#[global] Instance op_name_eq_dec : EqDecision op_name.
Proof. solve_decision. Defined.

(** [enum sexp_opcode_classes] *)
Inductive op_class :=
| OPC_GENERIC | OPC_TYPE_PREDICATE | OPC_PREDICATE | OPC_ARITHMETIC | OPC_ARITHMETIC_CMP
| OPC_IO | OPC_CONSTRUCTOR | OPC_GETTER | OPC_SETTER | OPC_PARAMETER | OPC_FOREIGN.

#[global] Instance op_class_eq_dec : EqDecision op_class.
Proof. solve_decision. Defined.

(** [struct sexp_opcode_struct].  [NULL] fields are [None]; [returns_void] is
    the test [ret_type == SEXP_VOID]; the function pointer is a name, resolved
    by the machine's table of foreign functions. *)
Record opcode := Opcode {
  op_data : option sexp;
  op_data2 : option sexp;
  op_proc : option sexp;
  returns_void : bool;
  op_class_of : op_class;
  op_code : op_name;
  op_num_args : Z;
  op_flags : Z;
  op_inverse : bool;
  op_func : option string;
}.

(** A byte of code.  An opcode takes one byte; a word takes
    [sizeof(sexp)] bytes, the seven after the first are [CTail]. *)
Inductive word := WObj (v : sexp) | WInt (z : Z).
Inductive cell := COp (o : op_name) | CWord (w : word) | CTail.

Definition sizeof_sexp : Z := 8.

Inductive obj :=
| Pair (car cdr : sexp) (immutable : bool)
| Vector (data : list sexp) (immutable : bool)
| Bytes (data : list Z) (immutable : bool)
| String (data : string)
| BignumObj (b : bignum)
| RatioObj (num den : sexp)
| Procedure (flags num_args : Z) (code vars : sexp)
| Bytecode (data : list cell) (max_depth : Z) (literals : list sexp)
| OpcodeObj (o : opcode)
| Exception (kind message irritants procedure source : sexp).

Abbreviation heap := (gmap loc obj).

Definition alloc (h : heap) (o : obj) : sexp * heap :=
  let l := fresh (dom h) in (Ptr l, <[l := o]> h).

Definition deref (h : heap) (v : sexp) : option obj :=
  match v with Ptr l => h !! l | _ => None end.

Definition sexp_pointerp (v : sexp) : bool := match v with Ptr _ | Symbol _ => true | _ => false end.
Definition sexp_symbolp (v : sexp) : bool := match v with Symbol _ => true | _ => false end.
Definition sexp_fixnump (v : sexp) : bool := match v with Fixnum _ => true | _ => false end.
Definition sexp_make_boolean (b : bool) : sexp := if b then SEXP_TRUE else SEXP_FALSE.
Definition sexp_not (v : sexp) : bool := bool_decide (v = SEXP_FALSE).
Definition sexp_truep (v : sexp) : bool := negb (sexp_not v).

Definition sexp_pairp (h : heap) (v : sexp) : bool :=
  match deref h v with Some (Pair _ _ _) => true | _ => false end.
Definition sexp_car (h : heap) (v : sexp) : option sexp :=
  match deref h v with Some (Pair a _ _) => Some a | _ => None end.
Definition sexp_cdr (h : heap) (v : sexp) : option sexp :=
  match deref h v with Some (Pair _ d _) => Some d | _ => None end.

(** Assignments to a field; the tests for immutability are the caller's. *)
Definition sexp_set_car (h : heap) (v x : sexp) : option heap :=
  match v, deref h v with Ptr l, Some (Pair _ d m) => Some (<[l := Pair x d m]> h) | _, _ => None end.
Definition sexp_set_cdr (h : heap) (v x : sexp) : option heap :=
  match v, deref h v with Ptr l, Some (Pair a _ m) => Some (<[l := Pair a x m]> h) | _, _ => None end.

Definition sexp_cons (h : heap) (a d : sexp) : sexp * heap := alloc h (Pair a d false).

(** ** List utilities

    The loops of the C code over chains of pairs take fuel where the chain may
    be circular; running out of fuel is [None]. *)

Definition sexp_list2 (h : heap) (a b : sexp) : sexp * heap :=
  let '(res, h) := sexp_cons h b SEXP_NULL in sexp_cons h a res.

Fixpoint listp_loop (fuel : nat) (h : heap) (turtle hare : sexp) : option sexp :=
  match fuel with
  | O => None
  | S fuel =>
      if sexp_pairp h hare then
        if bool_decide (hare = turtle) then Some SEXP_FALSE
        else
          hare ← sexp_cdr h hare;
          hare ← (if sexp_pairp h hare then sexp_cdr h hare else Some hare);
          turtle ← sexp_cdr h turtle;
          listp_loop fuel h turtle hare
      else Some (sexp_make_boolean (bool_decide (hare = SEXP_NULL)))
  end.

Definition sexp_listp (h : heap) (hare : sexp) : option sexp :=
  if negb (sexp_pairp h hare) then Some (sexp_make_boolean (bool_decide (hare = SEXP_NULL)))
  else let turtle := hare in hare ← sexp_cdr h hare; listp_loop (S (size h)) h turtle hare.

Fixpoint sexp_memq (fuel : nat) (h : heap) (x ls : sexp) : option sexp :=
  match fuel with
  | O => None
  | S fuel =>
      if sexp_pairp h ls then
        a ← sexp_car h ls;
        if bool_decide (x = a) then Some ls else d ← sexp_cdr h ls; sexp_memq fuel h x d
      else Some SEXP_FALSE
  end.

Fixpoint sexp_assq (fuel : nat) (h : heap) (x ls : sexp) : option sexp :=
  match fuel with
  | O => None
  | S fuel =>
      if sexp_pairp h ls then
        a ← sexp_car h ls;
        if bool_decide (Some x = sexp_car h a) then Some a
        else d ← sexp_cdr h ls; sexp_assq fuel h x d
      else Some SEXP_FALSE
  end.

Fixpoint reverse_loop (fuel : nat) (h : heap) (ls res : sexp) : option (sexp * heap) :=
  match fuel with
  | O => None
  | S fuel =>
      if sexp_pairp h ls then
        a ← sexp_car h ls; d ← sexp_cdr h ls;
        let '(res, h) := sexp_cons h a res in reverse_loop fuel h d res
      else Some (res, h)
  end.

Definition sexp_reverse (fuel : nat) (h : heap) (ls : sexp) : option (sexp * heap) :=
  reverse_loop fuel h ls SEXP_NULL.

(** [None] also stands for the type exception on a non-list argument. *)
Fixpoint nreverse_loop (fuel : nat) (h : heap) (b a : sexp) : option (sexp * heap) :=
  match fuel with
  | O => None
  | S fuel =>
      if sexp_pairp h a then
        tmp ← sexp_cdr h a; h ← sexp_set_cdr h a b; nreverse_loop fuel h a tmp
      else Some (b, h)
  end.

Definition sexp_nreverse (fuel : nat) (h : heap) (ls : sexp) : option (sexp * heap) :=
  if bool_decide (ls = SEXP_NULL) then Some (ls, h)
  else
    let b := ls in
    a ← sexp_cdr h ls;
    h ← sexp_set_cdr h b SEXP_NULL;
    nreverse_loop fuel h b a.

Fixpoint copy_loop (fuel : nat) (h : heap) (ls tmp : sexp) : option heap :=
  match fuel with
  | O => None
  | S fuel =>
      if sexp_pairp h ls then
        a ← sexp_car h ls; d ← sexp_cdr h ls;
        let '(p, h) := sexp_cons h a d in
        h ← sexp_set_cdr h tmp p;
        copy_loop fuel h d p
      else Some h
  end.

Definition sexp_copy_list (fuel : nat) (h : heap) (ls : sexp) : option (sexp * heap) :=
  if negb (sexp_pairp h ls) then Some (ls, h)
  else
    a ← sexp_car h ls; d ← sexp_cdr h ls;
    let '(res, h) := sexp_cons h a d in
    h ← copy_loop fuel h d res;
    Some (res, h).

Fixpoint append_loop (fuel : nat) (h : heap) (a1 b1 : sexp) : option (sexp * heap) :=
  match fuel with
  | O => None
  | S fuel =>
      if sexp_pairp h a1 then
        a ← sexp_car h a1; d ← sexp_cdr h a1;
        let '(b1, h) := sexp_cons h a b1 in append_loop fuel h d b1
      else Some (b1, h)
  end.

Definition sexp_append2 (fuel : nat) (h : heap) (a b : sexp) : option (sexp * heap) :=
  '(a1, h) ← sexp_reverse fuel h a; append_loop fuel h a1 b.

(** Counts the pairs two at a time and compares the two walkers to notice a
    circular list. *)
Fixpoint length_loop (fuel : nat) (h : heap) (ls1 ls2 : sexp) (res : Z) : option sexp :=
  match fuel with
  | O => None
  | S fuel =>
      let d2 := sexp_cdr h ls2 in
      if sexp_pairp h ls2 && (match d2 with Some d => sexp_pairp h d | None => false end) then
        if bool_decide (ls1 = ls2) then Some SEXP_FALSE
        else
          ls1 ← sexp_cdr h ls1;
          d ← d2; ls2 ← sexp_cdr h d;
          length_loop fuel h ls1 ls2 (res + 2)
      else Some (Fixnum (res + (if sexp_pairp h ls2 then 1 else 0)))
  end.

Definition sexp_length (h : heap) (ls1 : sexp) : option sexp :=
  if negb (sexp_pairp h ls1) then Some (Fixnum 0)
  else ls2 ← sexp_cdr h ls1; length_loop (S (size h)) h ls1 ls2 1.

(** ** Chains of pairs *)

Lemma pairp_spec h v : sexp_pairp h v = true <-> exists l a d m, v = Ptr l /\ h !! l = Some (Pair a d m).
Proof.
  unfold sexp_pairp, deref. split.
  - destruct v as [| | | | | | | | | | | |l]; try done. destruct (h !! l) as [[]|] eqn:E; try done. eauto 6.
  - by intros (l & a & d & m & -> & ->).
Qed.

Lemma cdr_pairp h v : sexp_pairp h v = true <-> exists d, sexp_cdr h v = Some d.
Proof.
  unfold sexp_pairp, sexp_cdr. split.
  - destruct (deref h v) as [[]|]; try done. eauto.
  - intros [d E]. by destruct (deref h v) as [[]|].
Qed.

Lemma not_pairp_cdr h v : sexp_pairp h v = false -> sexp_cdr h v = None.
Proof. unfold sexp_pairp, sexp_cdr. by destruct (deref h v) as [[]|]. Qed.

(** [chain h v cells tl]: from [v] the pairs at [cells] lead to [tl]. *)
Inductive chain (h : heap) (tl : sexp) : sexp -> list (loc * sexp) -> Prop :=
| chain_nil : chain h tl tl []
| chain_cons l a d m cells : h !! l = Some (Pair a d m) -> chain h tl d cells ->
    chain h tl (Ptr l) ((l, a) :: cells).
#[export] Hint Constructors chain : core.

Lemma chain_app h v c1 c2 tl : chain h tl v (c1 ++ c2) <-> exists mid, chain h mid v c1 /\ chain h tl mid c2.
Proof.
  revert v. induction c1 as [|[l a] c1 IH]; intros v; cbn [app].
  - split; [eauto|]. intros (mid & H1 & H2). by inversion H1; subst.
  - split.
    + inversion 1; subst. match goal with H : chain _ _ _ (_ ++ _) |- _ => apply IH in H as (mid & ? & ?) end. eauto.
    + intros (mid & H1 & H2). inversion H1; subst. econstructor; [done|]. apply IH. eauto.
Qed.

(** Updates and allocations outside of a chain leave it alone. *)
Lemma chain_insert h tl v cells l o : l ∉ cells.*1 -> chain h tl v cells -> chain (<[l:=o]> h) tl v cells.
Proof.
  intros Hl. induction 1 as [|l' a d m cells E _ IH]; [done|]. cbn in Hl. apply not_elem_of_cons in Hl as [Hne Hl].
  econstructor; [by rewrite lookup_insert_ne|]. auto.
Qed.

Lemma chain_locs h tl v cells l : chain h tl v cells -> l ∈ cells.*1 -> exists o, h !! l = Some o.
Proof.
  induction 1 as [|l' a d m cells E _ IH]; cbn; [by intros ?%elem_of_nil|].
  intros [->|?]%elem_of_cons; [eauto|auto].
Qed.

(** [cdr]s from [v]. *)
Fixpoint walk (h : heap) (v : sexp) (n : nat) : option sexp :=
  match n with O => Some v | S n => d ← sexp_cdr h v; walk h d n end.

Lemma walk_add h v m n : walk h v (m + n) = (d ← walk h v m; walk h d n).
Proof. revert v. induction m as [|m IH]; intros v; cbn; [done|]. destruct (sexp_cdr h v); cbn; auto. Qed.

Lemma chain_walk h tl v cells k : chain h tl v cells -> (k <= length cells)%nat ->
  exists x, walk h v k = Some x /\ chain h tl x (drop k cells).
Proof.
  intros Hc. revert k. induction Hc as [|l a d m cells E Hc IH]; intros [|k] Hk; cbn in *; eauto; [lia|].
  destruct (IH k ltac:(lia)) as (x & Hw & Hx). exists x. unfold sexp_cdr. cbn. by rewrite E.
Qed.

(** A chain to a non-pair visits no pair twice. *)
Lemma chain_length_walk h tl v cells k x : chain h tl v cells -> sexp_pairp h tl = false ->
  walk h v k = Some x -> (k <= length cells)%nat.
Proof.
  intros Hc Ht. revert k. induction Hc as [|l a d m cells E _ IH]; intros [|k]; cbn; try lia.
  - by rewrite not_pairp_cdr.
  - unfold sexp_cdr. cbn. rewrite E. cbn. intros Hw. specialize (IH k Hw). lia.
Qed.

Lemma chain_nodup h tl v cells : chain h tl v cells -> sexp_pairp h tl = false -> NoDup cells.*1.
Proof.
  intros Hc Ht. induction Hc as [|l a d m cells E Hc IH]; cbn; constructor; [|auto]. intros Hin.
  apply list_elem_of_fmap in Hin as ([l' a'] & -> & Hin). apply list_elem_of_lookup in Hin as [k Hk]. cbn in *.
  pose proof (lookup_lt_Some _ _ _ Hk) as Hlt.
  destruct (chain_walk h tl d cells k Hc ltac:(lia)) as (x & Hw & Hx).
  rewrite (drop_S _ _ _ Hk) in Hx. inversion Hx; subst.
  (* from [d] the walk of [k] steps reaches the first pair again *)
  assert (forall n, exists y, walk h (Ptr l') n = Some y) as Hinf.
  { intros n. induction n as [n IHn] using lt_wf_ind. destruct (decide (n <= k)%nat) as [Hle|].
    - destruct n as [|n]; [cbn; eauto|]. cbn. unfold sexp_cdr at 1. cbn. rewrite E. cbn.
      destruct (chain_walk h tl d cells n Hc ltac:(lia)) as (y & ? & _). eauto.
    - replace n with (S k + (n - S k))%nat by lia. rewrite walk_add. cbn [walk]. unfold sexp_cdr at 1. cbn [deref].
      rewrite E. cbn. rewrite Hw. cbn. apply IHn. lia. }
  destruct (Hinf (S (S (length cells)))) as [y Hy].
  pose proof (chain_length_walk h tl (Ptr l') ((l', a) :: cells) _ y (chain_cons _ _ _ _ _ _ _ E Hc) Ht Hy).
  cbn in *. lia.
Qed.

Lemma chain_size h tl v cells : chain h tl v cells -> sexp_pairp h tl = false -> (length cells <= size h)%nat.
Proof.
  intros Hc Ht. pose proof (chain_nodup _ _ _ _ Hc Ht) as Hn.
  rewrite <- (length_fmap fst cells), <- (size_list_to_set (C:=gset loc)), <- (size_dom h) by done.
  apply subseteq_size. intros l Hl. apply elem_of_list_to_set in Hl.
  destruct (chain_locs _ _ _ _ _ Hc Hl) as [o Ho]. apply elem_of_dom. eauto.
Qed.

(** ** [sexp_length] *)

Lemma length_loop_finite h tl fuel : sexp_pairp h tl = false -> forall ls1 ls2 pre c2 res,
  chain h ls2 ls1 pre -> chain h tl ls2 c2 -> pre <> [] -> (length c2 < 2 * fuel)%nat ->
  length_loop fuel h ls1 ls2 res = Some (Fixnum (res + Z.of_nat (length c2))).
Proof.
  intros Ht. induction fuel as [|fuel IH]; intros ls1 ls2 pre c2 res H1 H2 Hpre Hf; [lia|]. cbn [length_loop].
  assert (chain h tl ls1 (pre ++ c2)) as Hall by (apply chain_app; eauto).
  pose proof (chain_nodup _ _ _ _ Hall Ht) as Hnd. rewrite fmap_app in Hnd.
  destruct H2 as [|l2 a2 d2 m2 c2 E2 H2].
  { by rewrite Ht. }
  assert (sexp_pairp h (Ptr l2) = true) as P2 by (apply pairp_spec; eauto 6).
  assert (sexp_cdr h (Ptr l2) = Some d2) as D2 by (unfold sexp_cdr; cbn; by rewrite E2).
  rewrite P2, D2. cbn [andb]. destruct H2 as [|l3 a3 d3 m3 c3 E3 H3]; [by rewrite Ht|].
  assert (sexp_pairp h (Ptr l3) = true) as -> by (apply pairp_spec; eauto 6).
  destruct H1 as [|l1 a1 d1 m1 pre E1 H1]; [done|]. cbn [fmap list_fmap app fst] in Hnd.
  inversion_clear Hnd as [|? ? Hni _].
  assert (bool_decide (Ptr l1 = Ptr l2) = false) as ->.
  { apply bool_decide_eq_false. intros [= ->]. apply Hni. apply elem_of_app. right. cbn. left. }
  assert (sexp_cdr h (Ptr l1) = Some d1) as -> by (unfold sexp_cdr; cbn; by rewrite E1).
  assert (sexp_cdr h (Ptr l3) = Some d3) as D3 by (unfold sexp_cdr; cbn; by rewrite E3). cbn. rewrite D3. cbn.
  rewrite (IH d1 d3 (pre ++ [(l2, a2); (l3, a3)]) c3).
  - f_equal. f_equal. cbn [length]. lia.
  - apply chain_app. exists (Ptr l2). split; [done|]. eauto.
  - done.
  - by destruct pre.
  - cbn in Hf. lia.
Qed.

(** A circular list: every [cdr] is a pair. *)
Definition circular (h : heap) (v : sexp) : Prop :=
  forall n, exists x, walk h v n = Some x /\ sexp_pairp h x = true.

Lemma circular_repeats h v : circular h v ->
  exists i j x, (i < j <= size h)%nat /\ walk h v i = Some x /\ walk h v j = Some x.
Proof.
  intros Hc.
  assert (forall n, exists ls : list loc, length ls = n /\ (forall k, (k < n)%nat -> exists l, ls !! k = Some l /\ walk h v k = Some (Ptr l)) /\
    Forall (fun l => l ∈ dom h) ls) as Hls.
  { induction n as [|n (ls & Hlen & Hw & Hd)]; [exists []; split_and!; [done|intros; lia|constructor]|].
    destruct (Hc n) as (x & Hx & Hp). apply pairp_spec in Hp as (l & a & d & m & -> & E).
    exists (ls ++ [l]). split_and!.
    - rewrite length_app. cbn. lia.
    - intros k Hk. destruct (decide (k < n)%nat) as [Hkn|].
      + destruct (Hw k Hkn) as (l' & Hl' & ?). exists l'. rewrite lookup_app_l by lia. done.
      + assert (k = n) as -> by lia. exists l. rewrite lookup_app_r, Hlen, Nat.sub_diag by lia. done.
    - apply Forall_app. split; [done|]. constructor; [|constructor]. apply elem_of_dom. eauto. }
  destruct (Hls (S (size h))) as (ls & Hlen & Hw & Hd).
  destruct (decide (NoDup ls)) as [Hn|Hn].
  - exfalso. assert (S (size h) <= size h)%nat; [|lia]. rewrite <- Hlen at 1.
    rewrite <- (size_list_to_set (C:=gset loc) ls), <- (size_dom h) by done. apply subseteq_size.
    intros l Hl. apply elem_of_list_to_set in Hl.
    by apply (proj1 (Forall_forall (fun l => l ∈ dom h) ls)).
  - assert (exists i j l, (i < j)%nat /\ ls !! i = Some l /\ ls !! j = Some l) as (i & j & l & Hij & Hi & Hj).
    { clear -Hn. induction ls as [|x ls IH]; [destruct Hn; constructor|].
      destruct (decide (x ∈ ls)) as [Hx|Hx].
      - apply list_elem_of_lookup in Hx as [j Hj]. exists 0%nat, (S j), x. split_and!; [lia|done|done].
      - destruct IH as (i & j & l & Hij & ? & ?); [by intros H; apply Hn; constructor|].
        exists (S i), (S j), l. split_and!; [lia|done|done]. }
    pose proof (lookup_lt_Some _ _ _ Hi). pose proof (lookup_lt_Some _ _ _ Hj).
    destruct (Hw i ltac:(lia)) as (l1 & E1 & W1), (Hw j ltac:(lia)) as (l2 & E2 & W2). simplify_eq.
    exists i, j, (Ptr l). split; [lia|]. done.
Qed.

Lemma length_loop_circular h v fuel : circular h v -> forall k ls1 ls2 res,
  walk h v k = Some ls1 -> walk h v (2 * k + 1) = Some ls2 ->
  (exists n, (k <= n < k + fuel)%nat /\ walk h v n = walk h v (2 * n + 1)) ->
  length_loop fuel h ls1 ls2 res = Some SEXP_FALSE.
Proof.
  intros Hc. induction fuel as [|fuel IH]; intros k ls1 ls2 res H1 H2 (n & Hn & E); [lia|]. cbn [length_loop].
  destruct (Hc (2 * k + 1)%nat) as (x2 & E2 & P2). rewrite H2 in E2. injection E2 as <-. rewrite P2.
  destruct (Hc (2 * k + 2)%nat) as (x3 & E3 & P3). replace (2 * k + 2)%nat with (2 * k + 1 + 1)%nat in E3 by lia.
  rewrite walk_add, H2 in E3. cbn in E3. destruct (sexp_cdr h ls2) as [d2|] eqn:D2; [|done]. injection E3 as <-.
  rewrite P3. cbn [andb]. destruct (bool_decide_reflect (ls1 = ls2)) as [|Hne]; [done|].
  destruct (Hc k) as (y & Ey & Py). rewrite H1 in Ey. injection Ey as <-. apply cdr_pairp in Py as [d1 D1].
  rewrite D1. cbn. apply cdr_pairp in P3 as [d3 D3]. rewrite D3. cbn. apply (IH (S k)).
  - replace (S k) with (k + 1)%nat by lia. rewrite walk_add, H1. cbn. by rewrite D1.
  - replace (2 * S k + 1)%nat with (2 * k + 1 + 2)%nat by lia. rewrite walk_add, H2. cbn. rewrite D2. cbn. by rewrite D3.
  - exists n. split; [|done]. destruct (decide (n = k)) as [->|]; [|lia]. congruence.
Qed.

(** The two walkers meet within the number of objects of the heap. *)
Lemma circular_meets h v : circular h v -> exists n, (n < size h)%nat /\ walk h v n = walk h v (2 * n + 1).
Proof.
  intros Hc. destruct (circular_repeats h v Hc) as (i & j & x & Hij & Wi & Wj).
  set (p := (j - i)%nat). assert (forall m n, (i <= n)%nat -> walk h v (n + m * p) = walk h v n) as Hper.
  { induction m as [|m IH]; intros n Hn; [f_equal; lia|].
    replace (n + S m * p)%nat with (j + (n - i + m * p))%nat by lia. rewrite walk_add, Wj. cbn.
    replace (walk h x (n - i + m * p)) with (walk h v (n + m * p)); [auto|].
    replace (n + m * p)%nat with (i + (n - i + m * p))%nat by lia. by rewrite walk_add, Wi. }
  (* the first multiple of the period after [i] *)
  exists (p * (i / p + 1) - 1)%nat. pose proof (Nat.div_mod i p ltac:(lia)). pose proof (Nat.mod_upper_bound i p ltac:(lia)).
  split; [nia|]. symmetry.
  replace (2 * (p * (i / p + 1) - 1) + 1)%nat with (p * (i / p + 1) - 1 + (i / p + 1) * p)%nat by nia.
  apply Hper. nia.
Qed.

Lemma cdr_lookup h l a d m : h !! l = Some (Pair a d m) -> sexp_cdr h (Ptr l) = Some d /\
  sexp_car h (Ptr l) = Some a /\ sexp_pairp h (Ptr l) = true.
Proof. intros E. unfold sexp_cdr, sexp_car, sexp_pairp. cbn. by rewrite E. Qed.

Lemma listp_loop_finite h tl fuel : sexp_pairp h tl = false -> forall turtle hare pre c2,
  chain h hare turtle pre -> chain h tl hare c2 -> pre <> [] -> (S (length c2) < 2 * fuel)%nat ->
  listp_loop fuel h turtle hare = Some (sexp_make_boolean (bool_decide (tl = SEXP_NULL))).
Proof.
  intros Ht. induction fuel as [|fuel IH]; intros ls1 ls2 pre c2 H1 H2 Hpre Hf; [lia|]. cbn [listp_loop].
  assert (chain h tl ls1 (pre ++ c2)) as Hall by (apply chain_app; eauto).
  pose proof (chain_nodup _ _ _ _ Hall Ht) as Hnd. rewrite fmap_app in Hnd.
  destruct H2 as [|l2 a2 d2 m2 c2 E2 H2]; [by rewrite Ht|].
  destruct (cdr_lookup _ _ _ _ _ E2) as (D2 & _ & P2). rewrite P2, D2.
  destruct H1 as [|l1 a1 d1 m1 pre E1 H1]; [done|]. cbn [fmap list_fmap app fst] in Hnd.
  inversion_clear Hnd as [|? ? Hni _].
  assert (bool_decide (Ptr l2 = Ptr l1) = false) as ->.
  { apply bool_decide_eq_false. intros [= ->]. apply Hni. apply elem_of_app. right. cbn. left. }
  destruct (cdr_lookup _ _ _ _ _ E1) as (D1 & _ & _). cbn [mbind option_bind]. cbn in Hf.
  assert (chain h d2 d1 (pre ++ [(l2, a2)])) as H1'.
  { apply chain_app. exists (Ptr l2). split; [done|]. eauto. }
  destruct H2 as [|l3 a3 d3 m3 c3 E3 H3].
  - rewrite Ht. cbn. rewrite D1. cbn. apply (IH _ _ (pre ++ [(l2, a2)]) []); [done|auto|by destruct pre|cbn; lia].
  - destruct (cdr_lookup _ _ _ _ _ E3) as (D3 & _ & P3). rewrite P3, D3. cbn. rewrite D1. cbn.
    apply (IH _ _ (pre ++ [(l2, a2); (l3, a3)]) c3); [|done|by destruct pre|cbn in *; lia].
    apply chain_app. exists (Ptr l2). split; [done|]. eauto.
Qed.

Lemma listp_loop_circular h v fuel : circular h v -> forall k turtle hare,
  walk h v k = Some turtle -> walk h v (2 * k + 1) = Some hare ->
  (exists n, (k <= n < k + fuel)%nat /\ walk h v n = walk h v (2 * n + 1)) ->
  listp_loop fuel h turtle hare = Some SEXP_FALSE.
Proof.
  intros Hc. induction fuel as [|fuel IH]; intros k ls1 ls2 H1 H2 (n & Hn & E); [lia|]. cbn [listp_loop].
  destruct (Hc (2 * k + 1)%nat) as (x2 & E2 & P2). rewrite H2 in E2. injection E2 as <-. rewrite P2.
  destruct (Hc (2 * k + 2)%nat) as (x3 & E3 & P3). replace (2 * k + 2)%nat with (2 * k + 1 + 1)%nat in E3 by lia.
  rewrite walk_add, H2 in E3. cbn in E3. destruct (sexp_cdr h ls2) as [d2|] eqn:D2; [|done]. injection E3 as <-.
  destruct (bool_decide_reflect (ls2 = ls1)) as [|Hne]; [done|].
  destruct (Hc k) as (y & Ey & Py). rewrite H1 in Ey. injection Ey as <-. apply cdr_pairp in Py as [d1 D1].
  cbn [mbind option_bind]. rewrite P3. apply cdr_pairp in P3 as [d3 D3]. rewrite D3. cbn. rewrite D1. cbn. apply (IH (S k)).
  - replace (S k) with (k + 1)%nat by lia. rewrite walk_add, H1. cbn. by rewrite D1.
  - replace (2 * S k + 1)%nat with (2 * k + 1 + 2)%nat by lia. rewrite walk_add, H2. cbn. rewrite D2. cbn. by rewrite D3.
  - exists n. split; [|done]. destruct (decide (n = k)) as [->|]; [|lia]. congruence.
Qed.

(** Every value is a finite chain to a non-pair or a circular list. *)
Lemma sexp_length_finite h tl v cells : chain h tl v cells -> sexp_pairp h tl = false ->
  sexp_length h v = Some (Fixnum (Z.of_nat (length cells))).
Proof.
  intros Hc Ht. pose proof (chain_size _ _ _ _ Hc Ht) as Hs. unfold sexp_length.
  destruct Hc as [|l a d m cells E Hc]; [by rewrite Ht|].
  destruct (cdr_lookup _ _ _ _ _ E) as (D & _ & P). rewrite P. cbn [negb]. rewrite D. cbn [mbind option_bind].
  rewrite (length_loop_finite h tl _ Ht _ d [(l, a)] cells); [|eauto|done|done|cbn in Hs; lia].
  f_equal. f_equal. cbn [length]. lia.
Qed.

Lemma sexp_length_circular h v : circular h v -> sexp_length h v = Some SEXP_FALSE.
Proof.
  intros Hc. unfold sexp_length. destruct (Hc 0%nat) as (x & [= <-] & P). rewrite P. cbn [negb].
  apply cdr_pairp in P as [d D]. rewrite D. cbn [mbind option_bind].
  apply (length_loop_circular h v _ Hc 0); [done|cbn; by rewrite D|].
  destruct (circular_meets h v Hc) as (n & Hn & E). exists n. split; [lia|done].
Qed.

Lemma sexp_listp_finite h tl v cells : chain h tl v cells -> sexp_pairp h tl = false ->
  sexp_listp h v = Some (sexp_make_boolean (bool_decide (tl = SEXP_NULL))).
Proof.
  intros Hc Ht. pose proof (chain_size _ _ _ _ Hc Ht) as Hs. unfold sexp_listp.
  destruct Hc as [|l a d m cells E Hc]; [by rewrite Ht|].
  destruct (cdr_lookup _ _ _ _ _ E) as (D & _ & P). rewrite P. cbn [negb]. rewrite D. cbn [mbind option_bind].
  apply (listp_loop_finite h tl _ Ht _ d [(l, a)] cells); [eauto|done|done|cbn in Hs; lia].
Qed.

Lemma sexp_listp_circular h v : circular h v -> sexp_listp h v = Some SEXP_FALSE.
Proof.
  intros Hc. unfold sexp_listp. destruct (Hc 0%nat) as (x & [= <-] & P). rewrite P. cbn [negb].
  apply cdr_pairp in P as [d D]. rewrite D. cbn [mbind option_bind].
  apply (listp_loop_circular h v _ Hc 0); [done|cbn; by rewrite D|].
  destruct (circular_meets h v Hc) as (n & Hn & E). exists n. split; [lia|done].
Qed.

(** ** In-place reversal *)

Lemma set_cdr_lookup h l a d m x : h !! l = Some (Pair a d m) ->
  sexp_set_cdr h (Ptr l) x = Some (<[l := Pair a x m]> h).
Proof. intros E. unfold sexp_set_cdr. cbn. by rewrite E. Qed.

Lemma nreverse_loop_spec tl fuel : forall h b done_ a rest,
  sexp_pairp h tl = false -> chain h SEXP_NULL b done_ -> chain h tl a rest ->
  NoDup (done_.*1 ++ rest.*1) -> (length rest < fuel)%nat ->
  exists v h', nreverse_loop fuel h b a = Some (v, h') /\ chain h' SEXP_NULL v (reverse rest ++ done_) /\
    (forall l, l ∉ rest.*1 -> h' !! l = h !! l).
Proof.
  induction fuel as [|fuel IH]; intros h b dn a rest Ht Hd Hr Hn Hf; [lia|]. cbn [nreverse_loop].
  destruct Hr as [|l x d m rest E Hr].
  { rewrite Ht. exists b, h. by rewrite reverse_nil. }
  destruct (cdr_lookup _ _ _ _ _ E) as (D & _ & P). rewrite P, D. cbn [mbind option_bind].
  rewrite (set_cdr_lookup _ _ _ _ _ _ E). cbn [mbind option_bind]. cbn in Hn, Hf.
  pose proof Hn as (Hn1 & Hdis & Hn2)%NoDup_app. inversion_clear Hn2 as [|? ? Hl Hn3].
  assert (l ∉ dn.*1) as Hl' by (intros Hin; apply (Hdis l Hin); left).
  destruct (IH (<[l:=Pair x b m]> h) (Ptr l) ((l, x) :: dn) d rest) as (v & h' & Hv & Hc & Hx).
  - destruct (decide (tl = Ptr l)) as [->|Hne]; [congruence|]. unfold sexp_pairp, deref in *.
    destruct tl; try done. rewrite lookup_insert_ne by congruence. done.
  - econstructor; [apply lookup_insert_eq|]. by apply chain_insert.
  - by apply chain_insert.
  - cbn. constructor; [rewrite not_elem_of_app; auto|]. apply NoDup_app. split_and!; [done| |done].
    intros y Hy Hy'. apply (Hdis y Hy). by right.
  - lia.
  - exists v, h'. split_and!; [done| |].
    + rewrite reverse_cons, <- app_assoc. done.
    + intros y Hy. cbn in Hy. apply not_elem_of_cons in Hy as [Hne Hy]. rewrite Hx by done. by rewrite lookup_insert_ne.
Qed.

Lemma sexp_nreverse_spec h tl v cells : chain h tl v cells -> sexp_pairp h tl = false -> cells <> [] ->
  exists v' h', sexp_nreverse (S (size h)) h v = Some (v', h') /\ chain h' SEXP_NULL v' (reverse cells) /\
    (forall l, l ∉ cells.*1 -> h' !! l = h !! l).
Proof.
  intros Hc Ht Hne. pose proof (chain_size _ _ _ _ Hc Ht) as Hs. pose proof (chain_nodup _ _ _ _ Hc Ht) as Hn.
  destruct Hc as [|l a d m cells E Hc]; [done|]. unfold sexp_nreverse.
  destruct (bool_decide_reflect (Ptr l = SEXP_NULL)); [done|].
  destruct (cdr_lookup _ _ _ _ _ E) as (D & _ & _). rewrite D. cbn [mbind option_bind].
  rewrite (set_cdr_lookup _ _ _ _ _ _ E). cbn [mbind option_bind]. cbn in Hn, Hs.
  pose proof Hn as Hn'. inversion_clear Hn' as [|? ? Hl _].
  destruct (nreverse_loop_spec tl (S (size h)) (<[l:=Pair a SEXP_NULL m]> h) (Ptr l) [(l, a)] d cells) as (v & h' & -> & Hv & Hx).
  - destruct (decide (tl = Ptr l)) as [->|]; [|unfold sexp_pairp, deref in *; destruct tl; try done; by rewrite lookup_insert_ne by congruence].
    destruct (cdr_lookup _ _ _ _ _ E) as (_ & _ & P). congruence.
  - econstructor; [apply lookup_insert_eq|done].
  - by apply chain_insert.
  - done.
  - lia.
  - exists v, h'. split_and!; [done|by rewrite reverse_cons|].
    intros y Hy. cbn in Hy. apply not_elem_of_cons in Hy as [Hne' Hy]. rewrite Hx by done. by rewrite lookup_insert_ne.
Qed.

(** ** Copying: reversal and append *)

Lemma alloc_fresh h o v h' : alloc h o = (v, h') ->
  exists l, v = Ptr l /\ h !! l = None /\ h' = <[l := o]> h /\ h ⊆ h'.
Proof.
  unfold alloc. intros [= <- <-]. exists (fresh (dom h)).
  assert (h !! fresh (dom h) = None) as E by (apply not_elem_of_dom, is_fresh).
  split_and!; [done|done|done|by apply insert_subseteq].
Qed.

Lemma chain_mono h h' tl v cells : h ⊆ h' -> chain h tl v cells -> chain h' tl v cells.
Proof. intros Hs. induction 1; [done|]. econstructor; [by eapply lookup_weaken|done]. Qed.

Lemma reverse_loop_spec tl fuel : forall h v cells acc,
  chain h tl v cells -> (forall l, tl <> Ptr l) -> (length cells < fuel)%nat ->
  exists v' h' cells', reverse_loop fuel h v acc = Some (v', h') /\ chain h' acc v' cells' /\
    cells'.*2 = reverse (cells.*2) /\ h ⊆ h'.
Proof.
  induction fuel as [|fuel IH]; intros h v cells acc Hc Ht Hf; [lia|]. cbn [reverse_loop].
  destruct Hc as [|l a d m cells E Hc].
  { assert (sexp_pairp h tl = false) as -> by (unfold sexp_pairp; destruct tl; try done; by edestruct Ht).
    exists acc, h, []. split_and!; [done|constructor|done|done]. }
  destruct (cdr_lookup _ _ _ _ _ E) as (D & A & P). rewrite P, D, A. cbn [mbind option_bind].
  destruct (sexp_cons h a acc) as [p h1] eqn:Ea. destruct (alloc_fresh _ _ _ _ Ea) as (lp & -> & Hn & -> & Hsub).
  destruct (IH (<[lp := Pair a acc false]> h) d cells (Ptr lp)) as (v' & h' & cells' & Hr & Hc' & Hv & Hsub').
  - eapply chain_mono; done.
  - done.
  - cbn in Hf. lia.
  - exists v', h', (cells' ++ [(lp, a)]). split_and!; [done| | |by etrans].
    + apply chain_app. exists (Ptr lp). split; [done|]. econstructor; [|done].
      eapply lookup_weaken; [apply lookup_insert_eq|done].
    + change (((l, a) :: cells).*2) with (a :: cells.*2). rewrite fmap_app, Hv, reverse_cons. done.
Qed.

Lemma append_loop_spec tl fuel : forall h v cells b1,
  chain h tl v cells -> (forall l, tl <> Ptr l) -> (length cells < fuel)%nat ->
  append_loop fuel h v b1 = reverse_loop fuel h v b1.
Proof.
  induction fuel as [|fuel IH]; intros h v cells b1 Hc Ht Hf; [done|]. cbn [reverse_loop append_loop].
  destruct Hc as [|l a d m cells E Hc].
  { by assert (sexp_pairp h tl = false) as -> by (unfold sexp_pairp; destruct tl; try done; by edestruct Ht). }
  destruct (cdr_lookup _ _ _ _ _ E) as (D & A & P). rewrite P, D, A. cbn [mbind option_bind].
  destruct (sexp_cons h a b1) as [p h1] eqn:Ea. destruct (alloc_fresh _ _ _ _ Ea) as (lp & -> & _ & -> & Hsub).
  apply (IH _ d cells); [by eapply chain_mono|done|cbn in Hf; lia].
Qed.

Lemma sexp_append2_spec h tl a cells b fuel : chain h tl a cells -> (forall l, tl <> Ptr l) -> (length cells < fuel)%nat ->
  exists v h' cells', sexp_append2 fuel h a b = Some (v, h') /\ chain h' b v cells' /\
    cells'.*2 = cells.*2 /\ h ⊆ h'.
Proof.
  intros Hc Ht Hf. unfold sexp_append2, sexp_reverse.
  destruct (reverse_loop_spec tl fuel h a cells SEXP_NULL Hc Ht Hf) as (v1 & h1 & c1 & -> & Hc1 & E1 & S1).
  cbn [mbind option_bind].
  assert (length c1 = length cells) as Hl by (rewrite <- (length_fmap snd c1), E1, length_reverse, length_fmap; done).
  rewrite (append_loop_spec SEXP_NULL fuel h1 v1 c1) by (done || lia).
  destruct (reverse_loop_spec SEXP_NULL fuel h1 v1 c1 b Hc1 ltac:(done) ltac:(lia)) as (v2 & h2 & c2 & -> & Hc2 & E2 & S2).
  exists v2, h2, c2. split_and!; [done|done| |by etrans]. by rewrite E2, E1, reverse_involutive.
Qed.

Lemma sexp_memq_spec h tl x : forall cells v fuel, chain h tl v cells -> (forall l, tl <> Ptr l) -> (length cells < fuel)%nat ->
  exists r, sexp_memq fuel h x v = Some r /\ (sexp_truep r = true <-> x ∈ cells.*2).
Proof.
  intros cells v fuel Hc Ht. revert fuel. induction Hc as [|l a d m cells E Hc IH]; intros [|fuel] Hf; cbn in Hf; try lia; cbn [sexp_memq].
  - assert (sexp_pairp h tl = false) as -> by (unfold sexp_pairp; destruct tl; try done; by edestruct Ht).
    exists SEXP_FALSE. split; [done|]. cbn. split; [done|by intros ?%elem_of_nil].
  - destruct (cdr_lookup _ _ _ _ _ E) as (D & A & P). rewrite P, A. cbn [mbind option_bind].
    destruct (bool_decide_reflect (x = a)) as [->|Hne].
    + exists (Ptr l). split; [done|]. cbn. split; [left|done].
    + rewrite D. cbn [mbind option_bind]. destruct (IH fuel ltac:(lia)) as (r & -> & Hr). exists r. split; [done|].
      rewrite Hr. cbn. rewrite elem_of_cons. tauto.
Qed.

(** ** Theorems *)

(** [length*] and [list?] terminate on every value: a list
    ending in anything but a pair has its number of pairs and is proper exactly
    when it ends in the empty list, and a circular list is noticed by the two
    walkers, for both procedures, within the number of objects of the heap. *)
Theorem length_listp_correct h v :
  (forall tl cells, chain h tl v cells -> sexp_pairp h tl = false ->
     sexp_length h v = Some (Fixnum (Z.of_nat (length cells))) /\
     sexp_listp h v = Some (sexp_make_boolean (bool_decide (tl = SEXP_NULL)))) /\
  (circular h v -> sexp_length h v = Some SEXP_FALSE /\ sexp_listp h v = Some SEXP_FALSE).
Proof.
  split.
  - intros tl cells Hc Ht. split; [by eapply sexp_length_finite|by eapply sexp_listp_finite].
  - intros Hc. split; [by apply sexp_length_circular|by apply sexp_listp_circular].
Qed.

Definition ring : heap := {[ 1%positive := Pair (Fixnum 7) (Ptr 2) false; 2%positive := Pair (Fixnum 8) (Ptr 1) false ]}.
Definition two_list : heap := {[ 1%positive := Pair (Fixnum 7) (Ptr 2) false; 2%positive := Pair (Fixnum 8) SEXP_NULL false ]}.

Lemma two_list_chain : chain two_list SEXP_NULL (Ptr 1) [(1%positive, Fixnum 7); (2%positive, Fixnum 8)].
Proof. repeat econstructor. Qed.

Lemma length_listp_correct_witness :
  sexp_length two_list (Ptr 1) = Some (Fixnum 2) /\ sexp_listp ring (Ptr 1) = Some SEXP_FALSE.
Proof.
  split.
  - refine (proj1 (proj1 (length_listp_correct two_list (Ptr 1)) SEXP_NULL _ two_list_chain _)). reflexivity.
  - refine (proj2 (proj2 (length_listp_correct ring (Ptr 1)) _)).
    assert (forall n, walk ring (Ptr 1) n = Some (Ptr 1) /\ walk ring (Ptr 2) n = Some (Ptr 2) \/
      walk ring (Ptr 1) n = Some (Ptr 2) /\ walk ring (Ptr 2) n = Some (Ptr 1)) as Hw.
    { induction n as [|n IH]; [by left|]. cbn [walk].
      change (sexp_cdr ring (Ptr 1)) with (Some (Ptr 2)). change (sexp_cdr ring (Ptr 2)) with (Some (Ptr 1)).
      cbn [mbind option_bind]. tauto. }
    intros n. destruct (Hw n) as [[-> _]|[-> _]]; eexists; split; reflexivity.
Defined.

(** [reverse!] on a list of pairs returns the list with the
    same pairs in the opposite order, ended by the empty list whatever ended the
    original, and touches no other object; [append2] returns fresh pairs with
    the elements of the first list that share the second one, and changes no
    existing object. *)
Theorem nreverse_append_correct h tl v cells :
  chain h tl v cells -> sexp_pairp h tl = false ->
  (cells <> [] -> exists v' h', sexp_nreverse (S (size h)) h v = Some (v', h') /\
     chain h' SEXP_NULL v' (reverse cells) /\ (forall l, l ∉ cells.*1 -> h' !! l = h !! l)) /\
  (forall b fuel, tl = SEXP_NULL -> (length cells < fuel)%nat ->
     exists v' h' cells', sexp_append2 fuel h v b = Some (v', h') /\ chain h' b v' cells' /\
       cells'.*2 = cells.*2 /\ h ⊆ h').
Proof.
  intros Hc Ht. split; [by apply sexp_nreverse_spec with tl|].
  intros b fuel -> Hf. by apply (sexp_append2_spec h SEXP_NULL).
Qed.

Lemma nreverse_append_correct_witness :
  exists v' h', sexp_nreverse 3 two_list (Ptr 1) = Some (v', h') /\
    chain h' SEXP_NULL v' [(2%positive, Fixnum 8); (1%positive, Fixnum 7)].
Proof.
  destruct (proj1 (nreverse_append_correct two_list SEXP_NULL (Ptr 1) _ two_list_chain eq_refl) ltac:(discriminate))
    as (v' & h' & E & Hc & _). exists v', h'. split; [exact E|exact Hc].
Defined.
