(* ===== verification/Ast.v ===== *)
(** * The abstract syntax of the compiler

    The trees that [analyze] builds (the AST types of [include/chibi/sexp.h]),
    the free-variable analysis of [eval.c] and the search for unused rest
    parameters of [simplify.c]. *)
From S2P Require Import Prelude Heap.
From stdpp Require Import base list option.
#[local] Open Scope Z_scope.

(** ** Trees

    An identifier is a word compared with [==]: a symbol, or the fixnums that
    name the parameters of opcode procedures.  A lambda is an object with an
    identity, compared by [lam_id]; [lam_info] is what references to its
    parameters and locals need of it. *)
Abbreviation ident := sexp.

Record lam_info := LamInfo {
  lam_id : positive;
  lam_params : list ident;
  lam_rest : option ident;     (** the last [cdr] of an improper parameter list *)
  lam_locals : list ident;
  lam_sv : list ident;         (** assigned parameters and locals *)
}.

(** The [cdr] of a reference's cell: the lambda that binds it, or anything else
    for a global variable, which is known by its cell. *)
Inductive ref_loc := Global (cell : sexp) | Within (i : lam_info).

Record ref := Ref { ref_name : ident; ref_where : ref_loc }.

#[warnings="-register-all"]
Inductive ast :=
| Lit (v : sexp)                     (** an immediate or a literal object *)
| Self (v : sexp)                    (** any other object standing for itself *)
| RefE (r : ref)
| SetE (r : ref) (v : ast)
| Cnd (test pass fail : ast)
| Seq (ls : list ast)
| Lambda (i : lam_info) (fv : list ref) (body : ast)
| App (f : ast) (args : list ast)
| OpApp (l : sexp) (op : opcode) (args : list ast).

Definition same_loc (a b : ref_loc) : bool :=
  match a, b with
  | Within i, Within j => bool_decide (lam_id i = lam_id j)
  | Global c, Global d => bool_decide (c = d)
  | _, _ => false
  end.

Definition same_ref (name : ident) (loc : ref_loc) (r : ref) : bool :=
  bool_decide (name = ref_name r) && same_loc loc (ref_where r).

Definition memq (x : ident) (ls : list ident) : bool := bool_decide (x ∈ ls).

(** ** Induction over trees *)

Section ast_ind.
Variable P : ast -> Prop.
Hypothesis HLit : forall v, P (Lit v).
Hypothesis HSelf : forall v, P (Self v).
Hypothesis HRef : forall r, P (RefE r).
Hypothesis HSet : forall r v, P v -> P (SetE r v).
Hypothesis HCnd : forall t p f, P t -> P p -> P f -> P (Cnd t p f).
Hypothesis HSeq : forall ls, Forall P ls -> P (Seq ls).
Hypothesis HLambda : forall i fv body, P body -> P (Lambda i fv body).
Hypothesis HApp : forall f args, P f -> Forall P args -> P (App f args).
Hypothesis HOpApp : forall l op args, Forall P args -> P (OpApp l op args).

Fixpoint ast_ind' (x : ast) : P x :=
  let all := fix all (ls : list ast) : Forall P ls :=
    match ls with [] => Forall_nil_2 P | y :: ls => Forall_cons_2 P y ls (ast_ind' y) (all ls) end in
  match x with
  | Lit v => HLit v
  | Self v => HSelf v
  | RefE r => HRef r
  | SetE r v => HSet r v (ast_ind' v)
  | Cnd t p f => HCnd t p f (ast_ind' t) (ast_ind' p) (ast_ind' f)
  | Seq ls => HSeq ls (all ls)
  | Lambda i fv b => HLambda i fv b (ast_ind' b)
  | App f args => HApp f args (ast_ind' f) (all args)
  | OpApp l op args => HOpApp l op args (all args)
  end.
End ast_ind.

(** ** Unused rest parameters *)

(** [usedp]: references to [var] of the lambda [id].  A [set!] is searched for
    uses in its value only. *)
Fixpoint usedp (id : positive) (var : ident) (x : ast) : bool :=
  match x with
  | RefE r => bool_decide (ref_name r = var) &&
              match ref_where r with Within i => bool_decide (lam_id i = id) | _ => false end
  | SetE _ v => usedp id var v
  | Lambda _ _ b => usedp id var b
  | Cnd t p f => usedp id var t || usedp id var p || usedp id var f
  | Seq ls => existsb (usedp id var) ls
  | App f args => usedp id var f || existsb (usedp id var) args
  | OpApp _ _ args => existsb (usedp id var) args
  | Lit _ | Self _ => false
  end.

Definition sexp_rest_unused_p (i : lam_info) (body : ast) : bool :=
  match lam_rest i with None => false | Some var => negb (usedp (lam_id i) var body) end.

(** ** Free variables *)

Definition insert_free_var (x : ref) (fv : list ref) : list ref :=
  if existsb (same_ref (ref_name x) (ref_where x)) fv then fv else x :: fv.

Definition union_free_vars (fv1 fv2 : list ref) : list ref :=
  match fv2 with
  | [] => fv1
  | _ => fold_left (fun res x => insert_free_var x res) fv1 fv2
  end.

(** The kept references come out in the opposite order. *)
Definition diff_free_vars (id : positive) (fv : list ref) (params : list ident) : list ref :=
  fold_left (fun res x =>
    if negb (match ref_where x with Within i => bool_decide (lam_id i = id) | _ => false end)
       || negb (memq (ref_name x) params)
    then x :: res else res) fv [].

(** [sexp_flatten_dot] *)
Definition flatten_dot (i : lam_info) : list ident := lam_params i ++ option_list (lam_rest i).

(** [sexp_free_vars] returns the free references added to [fv], and stores
    those of each lambda in its [fv] field: here it returns the new tree. *)
Fixpoint sexp_free_vars (x : ast) (fv : list ref) : ast * list ref :=
  let free_list := fix free_list (ls : list ast) (fv : list ref) : list ast * list ref :=
    match ls with
    | [] => ([], fv)
    | y :: ls => let '(y, fv) := sexp_free_vars y fv in
                 let '(ls, fv) := free_list ls fv in (y :: ls, fv)
    end in
  match x with
  | Lambda i _ b =>
      let '(b, fv1) := sexp_free_vars b [] in
      let fv2 := diff_free_vars (lam_id i) fv1 (lam_locals i ++ flatten_dot i) in
      (Lambda i fv2 b, union_free_vars fv2 fv)
  | App f args =>
      let '(f, fv) := sexp_free_vars f fv in
      let '(args, fv) := free_list args fv in (App f args, fv)
  | OpApp l op args => let '(args, fv) := free_list args fv in (OpApp l op args, fv)
  | Cnd t p f =>
      let '(t, fv) := sexp_free_vars t fv in
      let '(p, fv) := sexp_free_vars p fv in
      let '(f, fv) := sexp_free_vars f fv in (Cnd t p f, fv)
  | Seq ls => let '(ls, fv) := free_list ls fv in (Seq ls, fv)
  | SetE r v =>
      let '(v, fv) := sexp_free_vars v fv in
      (SetE r v, match ref_where r with Within _ => insert_free_var r fv | _ => fv end)
  | RefE r => (x, match ref_where r with Within _ => insert_free_var r fv | _ => fv end)
  | Lit _ | Self _ => (x, fv)
  end.

(** ** Positions of parameters and locals *)

Fixpoint index_of (x : ident) (ls : list ident) : option Z :=
  match ls with
  | [] => None
  | y :: ls => if bool_decide (y = x) then Some 0 else i ← index_of x ls; Some (i + 1)
  end.

(** [sexp_param_index]: parameters from 0, the rest parameter after them, and
    the local number [i] at [-5 - i]; [-10000] is the "can't happen" answer. *)
Definition sexp_param_index (i : lam_info) (name : ident) : Z :=
  match index_of name (lam_params i) with
  | Some k => k
  | None =>
      if bool_decide (lam_rest i = Some name) then Z.of_nat (length (lam_params i))
      else match index_of name (lam_locals i) with
           | Some k => - 1 - k - 4
           | None => -10000
           end
  end.
