(* ===== verification/Codegen.v ===== *)
(** * Code generation

    The first half of [vm.c]: [sexp_generate] turns a tree into bytecode in a
    compilation context, keeping track of the stack depth and of the literals
    the collector must keep.  The features compiled out by default (aligned
    bytecode, tail jumps, unboxed locals, automatic forcing) are left out, and
    so are names and source positions. *)
From S2P Require Import Prelude Heap Ast.
From stdpp Require Import base list option.
#[local] Open Scope Z_scope.

(** ** Contexts *)

(** The fields of a compilation context; the position is the length of the
    code emitted so far. *)
Record cctx := Cctx {
  code : list cell;
  depth : Z;
  max_depth : Z;
  tailp : bool;
  clambda : option (lam_info * list ref);   (** the lambda and its free variables *)
  literals : list sexp;
}.

Definition new_cctx (lam : option (lam_info * list ref)) : cctx := Cctx [] 0 0 true lam [].

Record gen := Gen { gheap : heap; gctx : cctx }.

(** Every function below takes the state last and returns the new one. *)
Definition on_ctx (f : cctx -> cctx) (g : gen) : gen := Gen (gheap g) (f (gctx g)).

Definition set_code (c : list cell) (x : cctx) : cctx :=
  Cctx c (depth x) (max_depth x) (tailp x) (clambda x) (literals x).
Definition set_tailp (b : bool) : gen -> gen :=
  on_ctx (fun x => Cctx (code x) (depth x) (max_depth x) b (clambda x) (literals x)).

Definition pos (g : gen) : nat := length (code (gctx g)).

(** Objects at fixed places: the empty vector that [sexp_make_vector] shares,
    the code of continuations, and the procedure that ends a run. *)
Definition G_EMPTY_VECTOR : loc := 1%positive.
Definition G_RESUMECC_BYTECODE : loc := 2%positive.
Definition G_FINAL_RESUMER : loc := 3%positive.
Definition G_FINAL_BYTECODE : loc := 4%positive.

Definition sexp_make_vector (h : heap) (len : Z) (dflt : sexp) : sexp * heap :=
  if len =? 0 then (Ptr G_EMPTY_VECTOR, h)
  else alloc h (Vector (replicate (Z.to_nat len) dflt) false).

Definition sexp_make_procedure (h : heap) (flags num_args : Z) (bc vars : sexp) : sexp * heap :=
  alloc h (Procedure flags num_args bc vars).

(** ** Emission *)

Definition sexp_emit (o : op_name) : gen -> gen := on_ctx (fun x => set_code (code x ++ [COp o]) x).

Definition word_cells (w : word) : list cell := CWord w :: replicate 7 CTail.

Definition sexp_emit_word (w : word) : gen -> gen :=
  on_ctx (fun x => set_code (code x ++ word_cells w) x).

(** Stepping back over emitted bytes; the code after the position is dead. *)
Definition step_back (n : nat) : gen -> gen :=
  on_ctx (fun x => set_code (take (length (code x) - n) (code x)) x).

Definition sexp_inc_context_depth (off : Z) : gen -> gen :=
  on_ctx (fun x => let d := depth x + off in
    Cctx (code x) d (if d >? max_depth x then d else max_depth x) (tailp x) (clambda x) (literals x)).

Definition bytecode_preserve (v : sexp) : gen -> gen :=
  on_ctx (fun x =>
    if sexp_pointerp v && negb (sexp_symbolp v) && negb (bool_decide (v ∈ literals x))
    then Cctx (code x) (depth x) (max_depth x) (tailp x) (clambda x) (v :: literals x)
    else x).

Definition sexp_emit_push (v : sexp) (g : gen) : gen :=
  let g := sexp_emit OP_PUSH g in
  let g := sexp_emit_word (WObj v) g in
  let g := sexp_inc_context_depth 1 g in
  bytecode_preserve v g.

(** A label is a word to be patched with the distance to a later position. *)
Definition sexp_context_make_label (g : gen) : nat * gen := (pos g, sexp_emit_word (WInt 0) g).

Definition sexp_context_patch_label (label : nat) (g : gen) : gen :=
  on_ctx (fun x => set_code (<[label := CWord (WInt (Z.of_nat (pos g) - Z.of_nat label))]> (code x)) x) g.

Definition generate_lit (v : sexp) : gen -> gen := sexp_emit_push v.

Definition generate_drop_prev (prev : ast) (g : gen) : gen :=
  match prev with
  | SetE _ _ | Lit _ => step_back 9 g
  | OpApp _ op _ => if bool_decide (op_code op = OP_PUSH) then step_back 9 g else sexp_emit OP_DROP g
  | _ => sexp_emit OP_DROP g
  end.

(** ** Variables *)

Fixpoint fv_index (name : ident) (loc : ref_loc) (fv : list ref) : nat :=
  match fv with
  | [] => 0%nat
  | r :: fv => if same_ref name loc r then 0%nat else S (fv_index name loc fv)
  end.

(** [loc] is the lambda that binds [name], [lambda] the one being compiled. *)
Definition generate_non_global_ref (name : ident) (loc : lam_info)
    (lambda : option lam_info) (fv : list ref) (unboxp : bool) (g : gen) : gen :=
  let g :=
    match lambda with
    | Some l =>
        if bool_decide (lam_id loc = lam_id l) then
          let g := sexp_emit OP_LOCAL_REF g in
          sexp_emit_word (WInt (sexp_param_index l name)) g
        else
          let g := sexp_emit OP_CLOSURE_REF g in
          sexp_emit_word (WInt (Z.of_nat (fv_index name (Within loc) fv))) g
    | None =>
        let g := sexp_emit OP_CLOSURE_REF g in
        sexp_emit_word (WInt (Z.of_nat (fv_index name (Within loc) fv))) g
    end in
  let g := if unboxp && memq name (lam_sv loc) then sexp_emit OP_CDR g else g in
  sexp_inc_context_depth 1 g.

Definition generate_ref (r : ref) (unboxp : bool) (g : gen) : gen :=
  match ref_where r with
  | Global cell =>
      if unboxp then
        let g := sexp_emit (if bool_decide (sexp_cdr (gheap g) cell = Some SEXP_UNDEF)
                            then OP_GLOBAL_REF else OP_GLOBAL_KNOWN_REF) g in
        let g := sexp_emit_word (WObj cell) g in
        bytecode_preserve cell g
      else sexp_emit_push cell g
  | Within loc =>
      match clambda (gctx g) with
      | None => sexp_emit_push SEXP_VOID g
      | Some (lam, fv) => generate_non_global_ref (ref_name r) loc (Some lam) fv unboxp g
      end
  end.

(** The part of [generate_set] after the value. *)
Definition generate_set_var (r : ref) (g : gen) : gen :=
  let g :=
    match ref_where r with
    | Global cell =>
        let g := if bool_decide (sexp_cdr (gheap g) cell = Some SEXP_UNDEF) then
                   let g := generate_ref r true g in sexp_emit OP_DROP g
                 else g in
        let g := sexp_emit_push cell g in
        sexp_emit OP_SET_CDR g
    | Within lambda =>
        if memq (ref_name r) (lam_sv lambda) then
          let g := generate_ref r false g in sexp_emit OP_SET_CDR g
        else
          let g := sexp_emit OP_LOCAL_SET g in
          sexp_emit_word (WInt (sexp_param_index lambda (ref_name r))) g
    end in
  let g := sexp_emit_push SEXP_VOID g in
  sexp_inc_context_depth 1 g.

(** ** Opcode applications *)

Definition op_variadic_p (op : opcode) : bool := Z.testbit (op_flags op) 0.
Definition op_opt_param_p (op : opcode) : bool := Z.testbit (op_flags op) 1.
Definition op_static_param_p (op : opcode) : bool := Z.testbit (op_flags op) 3.
Definition op_tail_call_p (op : opcode) : bool := Z.testbit (op_flags op) 4.

Fixpoint emit_times (n : nat) (o : op_name) (g : gen) : gen :=
  match n with O => g | S n => emit_times n o (sexp_emit o g) end.

Definition emit_stack_ref (k : Z) (g : gen) : gen :=
  let g := sexp_emit OP_STACK_REF g in sexp_emit_word (WInt k) g.

(** One turn of the loop that chains comparisons. *)
Fixpoint emit_cmp_chain (n : nat) (o : op_name) (g : gen) : gen :=
  match n with
  | O => g
  | S n =>
      let g := emit_stack_ref 3 g in
      let g := emit_stack_ref 3 g in
      let g := sexp_emit o g in
      let g := sexp_emit OP_AND g in
      let g := sexp_emit OP_AND g in
      emit_cmp_chain n o g
  end.

Definition emit_comparison (num_args : Z) (o : op_name) (g : gen) : gen :=
  if num_args >? 2 then
    let g := emit_stack_ref 2 g in
    let g := emit_stack_ref 2 g in
    let g := sexp_emit o g in
    let g := sexp_emit OP_AND g in
    let g := emit_cmp_chain (Z.to_nat (num_args - 2)) o g in
    sexp_emit OP_AND g
  else sexp_emit o g.

Definition emit_fixnum_word (v : option sexp) (g : gen) : gen :=
  match v with Some (Fixnum z) => sexp_emit_word (WInt z) g | _ => g end.

(** The operator call, for all classes but parameters. *)
Definition emit_operator (l : sexp) (op : opcode) (num_args : Z) (g : gen) : gen :=
  match op_class_of op with
  | OPC_ARITHMETIC => emit_times (Z.to_nat (num_args - 1)) (op_code op) g
  | OPC_ARITHMETIC_CMP => emit_comparison num_args (op_code op) g
  | OPC_FOREIGN =>
      let g := sexp_emit (op_code op) g in
      let g := sexp_emit_word (WObj l) g in
      bytecode_preserve l g
  | OPC_TYPE_PREDICATE | OPC_GETTER | OPC_SETTER | OPC_CONSTRUCTOR =>
      let g := sexp_emit (op_code op) g in
      if negb (bool_decide (op_class_of op = OPC_CONSTRUCTOR)) || bool_decide (op_code op = OP_MAKE) then
        let g := emit_fixnum_word (op_data op) g in
        let g := emit_fixnum_word (op_data2 op) g in
        match op_data op, op_data2 op with None, None => g | _, _ => bytecode_preserve l g end
      else g
  | _ => sexp_emit (op_code op) g
  end.

Definition is_opcode (h : heap) (v : sexp) : bool :=
  match deref h v with Some (OpcodeObj _) => true | _ => false end.
Definition sexp_procedurep (h : heap) (v : sexp) : bool :=
  match deref h v with Some (Procedure _ _ _ _) => true | _ => false end.

(** The default of a missing optional argument, pushed before the arguments;
    the flag says that it is to be pushed after them. *)
Definition push_default (op : opcode) (num_args : Z) (g : gen) : Z * bool * gen :=
  match op_data op with
  | Some data =>
      if (num_args =? op_num_args op) && op_variadic_p op then
        if op_inverse op then (num_args, true, g)
        else
          let g :=
            if op_opt_param_p op && is_opcode (gheap g) data then
              let g := sexp_emit OP_PARAMETER_REF g in
              let g := sexp_emit_word (WObj data) g in
              let g := bytecode_preserve data g in
              sexp_emit OP_CDR g
            else sexp_emit_push data g in
          (num_args + 1, false, sexp_inc_context_depth 1 g)
      else (num_args, false, g)
  | None => (num_args, false, g)
  end.

Definition push_inverse_default (op : opcode) (num_args : Z) (inv_default : bool) (g : gen) : Z * gen :=
  match op_data op with
  | Some data =>
      if inv_default then
        let g := sexp_emit_push data g in
        let g := if op_opt_param_p op then sexp_emit OP_CDR g else g in
        (num_args + 1, sexp_inc_context_depth 1 g)
      else (num_args, g)
  | None => (num_args, g)
  end.

(** Arguments are compiled last to first, unless the opcode swaps them. *)
Definition in_order (gs : list (gen -> gen)) (g : gen) : gen := fold_left (fun g f => f g) gs g.
Definition in_reverse (gs : list (gen -> gen)) (g : gen) : gen := fold_right (fun f g => f g) g gs.

Definition static_word (x : ast) (g : gen) : gen :=
  match x with Lit (Fixnum z) => sexp_emit_word (WInt z) g | _ => g end.

Definition finish_opcode_app (op : opcode) (args : list ast) (num_args : Z) (g : gen) : gen :=
  let g := if op_static_param_p op then fold_left (fun g x => static_word x g) args g else g in
  let g := if returns_void op && negb (bool_decide (op_class_of op = OPC_FOREIGN))
           then sexp_emit_push SEXP_VOID g else g in
  sexp_inc_context_depth (- (num_args - 1)) g.

(** [generate_opcode_app] for every class but parameters; [gs] compile the
    arguments [args]. *)
Definition generate_inline_app (l : sexp) (op : opcode) (args : list ast) (gs : list (gen -> gen)) (g : gen) : gen :=
  let g := set_tailp false g in
  let '(num_args, inv_default, g) := push_default op (Z.of_nat (length args)) g in
  let g := if op_static_param_p op then g
           else if op_inverse op && negb (bool_decide (op_class_of op = OPC_ARITHMETIC))
           then in_order gs g else in_reverse gs g in
  let '(num_args, g) := push_inverse_default op num_args inv_default g in
  let g := emit_operator l op num_args g in
  finish_opcode_app op args num_args g.

(** [generate_general_app]: the operands last to first, then the operator. *)
Definition generate_general_app (f : gen -> gen) (gs : list (gen -> gen)) (g : gen) : gen :=
  let len := Z.of_nat (length gs) in
  let tail := tailp (gctx g) in
  let g := set_tailp false g in
  let g := in_reverse gs g in
  let g := f g in
  let g := sexp_emit (if tail then OP_TAIL_CALL else OP_CALL) g in
  let g := sexp_emit_word (WObj (Fixnum len)) g in
  let g := set_tailp tail g in
  sexp_inc_context_depth (- len) g.

(** A parameter: with an argument, the value goes through the converter
    [op_data2] first when that is a procedure or an opcode. *)
Definition generate_parameter_app (l : sexp) (op : opcode) (args : list ast) (gs : list (gen -> gen)) (g : gen) : gen :=
  let num_args := Z.of_nat (length args) in
  let g := set_tailp false g in
  let g :=
    match args, gs with
    | x :: _, f :: _ =>
        match op_data2 op with
        | Some conv =>
            match deref (gheap g) conv with
            | Some (OpcodeObj op2) => generate_inline_app conv op2 [x] [f] g
            | Some (Procedure _ _ _ _) => generate_general_app (generate_lit conv) [f] g
            | _ => f g
            end
        | None => f g
        end
    | _, _ => g
    end in
  let g := sexp_emit OP_PARAMETER_REF g in
  let g := sexp_emit_word (WObj l) g in
  let g := bytecode_preserve l g in
  let g := sexp_emit (if num_args =? 0 then OP_CDR else OP_SET_CDR) g in
  let g := if num_args >? 0 then sexp_emit_push SEXP_VOID g else g in
  finish_opcode_app op args num_args g.

Definition generate_opcode_app (l : sexp) (op : opcode) (args : list ast) (gs : list (gen -> gen)) (g : gen) : gen :=
  if op_tail_call_p op && negb (tailp (gctx g)) then generate_lit SEXP_VOID g
  else if bool_decide (op_class_of op = OPC_PARAMETER) then generate_parameter_app l op args gs g
  else generate_inline_app l op args gs g.

(** ** Lambdas *)

Definition SEXP_PROC_NONE : Z := 0.
Definition SEXP_PROC_VARIADIC : Z := 1.
Definition SEXP_PROC_UNUSED_REST : Z := 2.

(** [sexp_complete_bytecode] *)
Definition sexp_complete_bytecode (g : gen) : sexp * heap :=
  let g := sexp_emit OP_RET g in
  alloc (gheap g) (Bytecode (code (gctx g)) (max_depth (gctx g)) (literals (gctx g))).

Fixpoint push_undefs (k : nat) (g : gen) : gen :=
  match k with O => g | S k => push_undefs k (sexp_emit_push SEXP_UNDEF g) end.

(** Boxes an assigned variable in a pair under its name. *)
Definition generate_box (i : lam_info) (name : ident) (g : gen) : gen :=
  let k := sexp_param_index i name in
  let g := sexp_emit OP_LOCAL_REF g in
  let g := sexp_emit_word (WInt k) g in
  let g := sexp_emit_push name g in
  let g := sexp_emit OP_CONS g in
  let g := sexp_emit OP_LOCAL_SET g in
  sexp_emit_word (WInt k) g.

Definition lambda_flags (i : lam_info) (body : ast) : Z :=
  match lam_rest i with
  | None => SEXP_PROC_NONE
  | Some _ => SEXP_PROC_VARIADIC + (if sexp_rest_unused_p i body then SEXP_PROC_UNUSED_REST else 0)
  end.

(** One captured variable: fetched still boxed and stored in the vector. *)
Definition capture_var (k : nat) (r : ref) (prev : option (lam_info * list ref)) (g : gen) : gen :=
  let g := match ref_where r with
           | Within loc => generate_non_global_ref (ref_name r) loc (fst <$> prev)
                             (match prev with Some (_, fv) => fv | None => [] end) false g
           | Global _ => g
           end in
  let g := sexp_emit_push (Fixnum (Z.of_nat k)) g in
  let g := sexp_emit OP_STACK_REF g in
  let g := sexp_emit_word (WInt 3) g in
  let g := sexp_emit OP_VECTOR_SET g in
  sexp_inc_context_depth (-1) g.

Fixpoint capture_vars (k : nat) (fv : list ref) (prev : option (lam_info * list ref)) (g : gen) : gen :=
  match fv with [] => g | r :: fv => capture_vars (S k) fv prev (capture_var k r prev g) end.

(** [generate_lambda]; [gen_body] compiles the body in the new context. *)
Definition generate_lambda (i : lam_info) (fv : list ref) (body : ast) (gen_body : gen -> gen) (g : gen) : gen :=
  let prev := clambda (gctx g) in
  let g2 := Gen (gheap g) (new_cctx (Some (i, fv))) in
  let g2 := push_undefs (length (lam_locals i)) g2 in
  let g2 := fold_left (fun g name => generate_box i name g) (lam_sv i) g2 in
  let g2 := set_tailp true g2 in
  let g2 := gen_body g2 in
  let flags := lambda_flags i body in
  let len := Z.of_nat (length (lam_params i)) in
  let '(bc, h) := sexp_complete_bytecode g2 in
  let g := Gen h (gctx g) in
  match fv with
  | [] =>
      let '(vars, h) := sexp_make_vector (gheap g) 0 SEXP_VOID in
      let '(proc, h) := sexp_make_procedure h flags len bc vars in
      let g := bytecode_preserve proc (Gen h (gctx g)) in
      generate_lit proc g
  | _ =>
      let g := sexp_emit_push SEXP_VOID g in
      let g := sexp_emit_push (Fixnum (Z.of_nat (length fv))) g in
      let g := sexp_emit OP_MAKE_VECTOR g in
      let g := sexp_inc_context_depth (-1) g in
      let g := capture_vars 0 fv prev g in
      let g := sexp_emit OP_MAKE_PROCEDURE g in
      let g := sexp_emit_word (WObj (Fixnum flags)) g in
      let g := sexp_emit_word (WObj (Fixnum len)) g in
      let g := sexp_emit_word (WObj bc) g in
      bytecode_preserve bc g
  end.

(** ** [sexp_generate] *)

(** [generate_seq]: all but the last drop their value, and literals are not
    even compiled. *)
Fixpoint seq_loop (tail : bool) (ls : list ast) (gs : list (gen -> gen)) (g : gen) : gen :=
  match ls, gs with
  | [_], f :: _ => f (set_tailp tail g)
  | x :: ls, f :: gs =>
      let g := match x with
               | Lit _ => g
               | _ => let g := f g in
                      let g := generate_drop_prev x g in
                      sexp_inc_context_depth (-1) g
               end in
      seq_loop tail ls gs g
  | _, _ => g
  end.

Definition generate_seq (ls : list ast) (gs : list (gen -> gen)) (g : gen) : gen :=
  let tail := tailp (gctx g) in
  let g := set_tailp false g in
  seq_loop tail ls gs g.

Definition generate_cnd (test pass fail : gen -> gen) (g : gen) : gen :=
  let tail := tailp (gctx g) in
  let g := set_tailp false g in
  let g := test g in
  let g := set_tailp tail g in
  let g := sexp_emit OP_JUMP_UNLESS g in
  let g := sexp_inc_context_depth (-1) g in
  let '(label1, g) := sexp_context_make_label g in
  let g := pass g in
  let g := set_tailp tail g in
  let g := sexp_emit OP_JUMP g in
  let g := sexp_inc_context_depth (-1) g in
  let '(label2, g) := sexp_context_make_label g in
  let g := sexp_context_patch_label label1 g in
  let g := fail g in
  sexp_context_patch_label label2 g.

Definition generate_set (r : ref) (value : gen -> gen) (g : gen) : gen :=
  let g := set_tailp false g in
  let g := value g in
  generate_set_var r g.

Fixpoint sexp_generate (x : ast) (g : gen) : gen :=
  match x with
  | Lit v | Self v => generate_lit v g
  | RefE r => generate_ref r true g
  | SetE r v => generate_set r (sexp_generate v) g
  | Cnd test pass fail => generate_cnd (sexp_generate test) (sexp_generate pass) (sexp_generate fail) g
  | Seq ls => generate_seq ls (map sexp_generate ls) g
  | Lambda i fv body => generate_lambda i fv body (sexp_generate body) g
  | App f args => generate_general_app (sexp_generate f) (map sexp_generate args) g
  | OpApp l op args => generate_opcode_app l op args (map sexp_generate args) g
  end.

(** ** Procedures of opcodes *)

Definition param_list (n : nat) : list ident := map (fun k => Fixnum (Z.of_nat k)) (seq 1 n).

Inductive opcode_procedure_result :=
| OpProc (proc : sexp) (h : heap)
| NotEnoughArgs
| TooManyArgs.

(** [make_opcode_procedure]: compiles the application of an opcode to [i]
    parameters, and remembers the procedure for the exact arity. *)
Definition make_opcode_procedure (h : heap) (l : sexp) (op : opcode) (i flags : Z) : opcode_procedure_result :=
  let j := i + (if Z.testbit flags 0 then 1 else 0) in
  if j <? op_num_args op then NotEnoughArgs
  else if (j >? op_num_args op) && negb (op_variadic_p op) then TooManyArgs
  else match (if j =? op_num_args op then op_proc op else None) with
  | Some p => OpProc p h
  | None =>
      let params := param_list (Z.to_nat j) in
      let lam := LamInfo 1 params None [] [] in
      let refs := map (fun p => RefE (Ref p (Within lam))) params in
      let g := Gen h (new_cctx (Some (lam, []))) in
      let g := generate_opcode_app l op refs (map sexp_generate refs) g in
      let '(bc, h) := sexp_complete_bytecode g in
      let '(proc, h) := sexp_make_procedure h flags i bc SEXP_VOID in
      let h := match l with
               | Ptr a => if j =? op_num_args op
                          then <[a := OpcodeObj (Opcode (op_data op) (op_data2 op) (Some proc) (returns_void op)
                                    (op_class_of op) (op_code op) (op_num_args op) (op_flags op)
                                    (op_inverse op) (op_func op))]> h
                          else h
               | _ => h
               end in
      OpProc proc h
  end.

(** [sexp_generate_op]: the procedure without arguments that runs a tree. *)
Definition sexp_generate_op (h : heap) (x : ast) : sexp * heap :=
  let '(x, _) := sexp_free_vars x [] in
  let g := sexp_generate x (Gen h (new_cctx None)) in
  let '(bc, h) := sexp_complete_bytecode g in
  let '(vec, h) := sexp_make_vector h 0 SEXP_VOID in
  sexp_make_procedure h 0 0 bc vec.

(** [sexp_init_eval_context_bytecodes]: the code of continuations and the
    procedure below the first frame. *)
Definition sexp_init_eval_context_bytecodes (h : heap) : heap :=
  let done_code o := code (gctx (sexp_emit OP_RET (sexp_emit o (Gen h (new_cctx None))))) in
  <[G_RESUMECC_BYTECODE := Bytecode (done_code OP_RESUMECC) 0 []]>
  (<[G_FINAL_BYTECODE := Bytecode (done_code OP_DONE) 0 []]>
  (<[G_FINAL_RESUMER := Procedure 0 0 (Ptr G_FINAL_BYTECODE) (Ptr G_EMPTY_VECTOR)]> h)).
