(* ===== verification/Vm.v ===== *)
(** * The virtual machine

    The second half of [vm.c]: [sexp_apply] as a state transformer over the heap
    and the registers [top], [fp], [ip] and [self].  [bc] and [cp] are always
    the code and the variables of [self].  The stack is the C array: reads and
    writes outside of it, and uses of a word as an object it is not, are the
    outcome [Bad].  Instructions on ports, strings and typed records, and flonum
    and complex arithmetic, are the outcome [Skip]; no thread scheduler is
    installed, and the C functions behind foreign opcodes are a parameter. *)
From S2P Require Import Prelude LongLong Bignum Integers Numbers Heap Ast Codegen.
From stdpp Require Import base list option.
#[local] Open Scope Z_scope.

(** ** State *)

Record vm := Vm {
  v_heap : heap;
  v_stack : list sexp;
  v_top : Z;
  v_fp : Z;
  v_ip : Z;
  v_self : sexp;
  v_params : sexp;        (** [sexp_context_params] *)
  v_handler : sexp;       (** [SEXP_G_ERR_HANDLER] *)
}.

(** [Exc]: [goto call_error_handler]; [End]: [goto end_loop]. *)
Inductive res (A : Type) := Val (a : A) (s : vm) | Exc (s : vm) | End (s : vm) | Bad | Skip.
Arguments Val {A} a s.
Arguments Exc {A} s.
Arguments End {A} s.
Arguments Bad {A}.
Arguments Skip {A}.

Definition M (A : Type) : Type := vm -> res A.

#[global] Instance M_ret : MRet M := fun A a s => Val a s.
#[global] Instance M_bind : MBind M := fun A B f m s =>
  match m s with Val a s => f a s | Exc s => Exc s | End s => End s | Bad => Bad | Skip => Skip end.

Definition bad {A} : M A := fun _ => Bad.
Definition skip {A} : M A := fun _ => Skip.
Definition call_error_handler {A} : M A := fun s => Exc s.
Definition end_loop {A} : M A := fun s => End s.
Definition must {A} (o : option A) : M A := match o with Some a => mret a | None => bad end.

Definition get_heap : M heap := fun s => Val (v_heap s) s.
Definition get_top : M Z := fun s => Val (v_top s) s.
Definition get_fp : M Z := fun s => Val (v_fp s) s.
Definition get_ip : M Z := fun s => Val (v_ip s) s.
Definition get_self : M sexp := fun s => Val (v_self s) s.
Definition get_params : M sexp := fun s => Val (v_params s) s.
Definition get_handler : M sexp := fun s => Val (v_handler s) s.

Definition set_heap (h : heap) : M unit := fun s =>
  Val tt (Vm h (v_stack s) (v_top s) (v_fp s) (v_ip s) (v_self s) (v_params s) (v_handler s)).
Definition set_stack (st : list sexp) : M unit := fun s =>
  Val tt (Vm (v_heap s) st (v_top s) (v_fp s) (v_ip s) (v_self s) (v_params s) (v_handler s)).
Definition set_top (t : Z) : M unit := fun s =>
  Val tt (Vm (v_heap s) (v_stack s) t (v_fp s) (v_ip s) (v_self s) (v_params s) (v_handler s)).
Definition set_fp (f : Z) : M unit := fun s =>
  Val tt (Vm (v_heap s) (v_stack s) (v_top s) f (v_ip s) (v_self s) (v_params s) (v_handler s)).
Definition set_ip (i : Z) : M unit := fun s =>
  Val tt (Vm (v_heap s) (v_stack s) (v_top s) (v_fp s) i (v_self s) (v_params s) (v_handler s)).
Definition set_self (p : sexp) : M unit := fun s =>
  Val tt (Vm (v_heap s) (v_stack s) (v_top s) (v_fp s) (v_ip s) p (v_params s) (v_handler s)).

(** ** The stack *)

Definition stack_get (i : Z) : M sexp := fun s =>
  if 0 <=? i then match v_stack s !! Z.to_nat i with Some v => Val v s | None => Bad end else Bad.

Definition stack_set (i : Z) (v : sexp) : M unit := fun s =>
  if (0 <=? i) && (i <? Z.of_nat (length (v_stack s)))
  then set_stack (<[Z.to_nat i := v]> (v_stack s)) s else Bad.

Definition get_stack : M (list sexp) := fun s => Val (v_stack s) s.
Definition stack_length : M Z := fun s => Val (Z.of_nat (length (v_stack s))) s.

(** [_ARGk], [_PUSH] *)
Definition arg (k : Z) : M sexp := t ← get_top; stack_get (t - k).
Definition set_arg (k : Z) (v : sexp) : M unit := t ← get_top; stack_set (t - k) v.
Definition push (v : sexp) : M unit := t ← get_top; stack_set t v;; set_top (t + 1).
Definition drop_top (n : Z) : M unit := t ← get_top; set_top (t - n).

Definition unbox (v : sexp) : M Z := match v with Fixnum z => mret z | _ => bad end.

Definition allocate (o : obj) : M sexp := h ← get_heap; let '(v, h) := alloc h o in set_heap h;; mret v.

(** [sexp_cdr] and [sexp_car] without a check. *)
Definition get_cdr (v : sexp) : M sexp := h ← get_heap; must (sexp_cdr h v).
Definition get_car (v : sexp) : M sexp := h ← get_heap; must (sexp_car h v).
Definition pairp (v : sexp) : M bool := h ← get_heap; mret (sexp_pairp h v).

(** ** Exceptions *)

Fixpoint make_list (ls : list sexp) : M sexp :=
  match ls with
  | [] => mret SEXP_NULL
  | x :: ls => d ← make_list ls; allocate (Pair x d false)
  end.

Definition sexp_exceptionp (h : heap) (v : sexp) : bool :=
  match deref h v with Some (Exception _ _ _ _ _) => true | _ => false end.

(** [sexp_raise]: the exception is pushed. *)
Definition raise {A} (msg : string) (irritants : list sexp) : M A :=
  t ← get_top;
  ir ← make_list irritants;
  stack_set t ir;;
  self ← get_self;
  m ← allocate (String msg);
  e ← allocate (Exception (Symbol "user") m ir self SEXP_FALSE);
  stack_set t e;;
  set_top (t + 1);;
  call_error_handler.

(** An exception returned by an arithmetic function, in place of the result.  These
    have no procedure: the C code stores a null pointer. *)
Definition fail_with (kind msg : string) (irritants : list sexp) : M unit :=
  ir ← make_list irritants;
  m ← allocate (String msg);
  e ← allocate (Exception (Symbol kind) m ir SEXP_FALSE SEXP_FALSE);
  set_arg 1 e;;
  call_error_handler.

(** ** Growing the stack *)

Definition SEXP_INIT_STACK_SIZE : Z := 1024.
Definition SEXP_MAX_STACK_SIZE : Z := 1024 * 1000.

(** [sexp_grow_stack]: the copy runs from [top + 1] down to 0; the words of the
    new array that are not copied are unspecified, [SEXP_VOID] here. *)
Definition sexp_grow_stack (min_size : Z) : M bool := fun s =>
  let size := Z.of_nat (length (v_stack s)) in
  let new_size := 2 * size in
  let new_size := if new_size <? min_size then min_size else new_size in
  if (new_size >? SEXP_MAX_STACK_SIZE) && (size =? SEXP_MAX_STACK_SIZE) then Val false s
  else
    let new_size := if new_size >? SEXP_MAX_STACK_SIZE then SEXP_MAX_STACK_SIZE else new_size in
    let copied := v_top s + 2 in
    if (copied <=? size) && (copied <=? new_size)
    then (set_stack (take (Z.to_nat copied) (v_stack s)
                     ++ replicate (Z.to_nat (new_size - copied)) SEXP_VOID);; mret true) s
    else Bad.

Definition G_OOS_ERROR : loc := 5%positive.

Definition sexp_ensure_stack (n : Z) : M unit := fun s =>
  if v_top s + n >=? Z.of_nat (length (v_stack s)) then
    (grown ← sexp_grow_stack n;
     if grown : bool then mret tt
     else set_arg 1 (Ptr G_OOS_ERROR);; end_loop) s
  else Val tt s.

(** ** Code *)

Definition procedure_of (v : sexp) : M (Z * Z * sexp * sexp) :=
  h ← get_heap;
  match deref h v with Some (Procedure f n c vs) => mret (f, n, c, vs) | _ => bad end.

Definition bytecode_of (c : sexp) : M (list cell * Z) :=
  h ← get_heap;
  match deref h c with Some (Bytecode d m _) => mret (d, m) | _ => bad end.

Definition bc_data : M (list cell) :=
  self ← get_self;
  '(_, _, c, _) ← procedure_of self;
  '(d, _) ← bytecode_of c;
  mret d.

(** [ip] at an opcode; the [k]th word from [ip]. *)
Definition fetch_op : M op_name :=
  d ← bc_data; ip ← get_ip;
  if 0 <=? ip then match d !! Z.to_nat ip with
                   | Some (COp o) => set_ip (ip + 1);; mret o
                   | _ => bad
                   end
  else bad.

Definition fetch_word (k : Z) : M word :=
  d ← bc_data; ip ← get_ip;
  if 0 <=? ip then match d !! Z.to_nat (ip + sizeof_sexp * k) with
                   | Some (CWord w) => mret w
                   | _ => bad
                   end
  else bad.

Definition fetch_obj (k : Z) : M sexp := w ← fetch_word k; match w with WObj v => mret v | WInt _ => bad end.
Definition fetch_int (k : Z) : M Z := w ← fetch_word k; match w with WInt z => mret z | WObj _ => bad end.
Definition skip_words (k : Z) : M unit := ip ← get_ip; set_ip (ip + sizeof_sexp * k).

(** ** Calls *)

Definition procedure_variadic_p (flags : Z) : bool := Z.testbit flags 0.
Definition procedure_unused_rest_p (flags : Z) : bool := Z.testbit flags 1.

Definition count_up (f : Z -> M unit) : nat -> Z -> M unit :=
  fix go n k := match n with O => mret tt | S n => f k;; go n (k + 1) end.
Definition count_down (f : Z -> M unit) : nat -> Z -> M unit :=
  fix go n k := match n with O => mret tt | S n => f k;; go n (k - 1) end.

(** The extra arguments of a variadic procedure are consed into a list in the
    slot of the last one and the rest moves down over them: [i] arguments below
    the procedure at the top, [j] more than the parameters. *)
Definition collect_rest (i j : Z) : M unit :=
  top ← get_top;
  let slot := top - i - 1 in
  v ← stack_get slot;
  l ← allocate (Pair v SEXP_NULL false);
  stack_set slot l;;
  count_up (fun k =>
    v ← stack_get k; l ← stack_get slot;
    l ← allocate (Pair v l false);
    stack_set slot l) (Z.to_nat (j - 1)) (top - i);;
  count_up (fun k => v ← stack_get k; stack_set (k - j + 1) v) (Z.to_nat (i - j + 1)) (top - (i - j) - 1);;
  set_top (top - (j - 1)).

(** No extra argument: everything moves up to make room for an empty list. *)
Definition insert_null (i : Z) : M unit :=
  top ← get_top;
  count_down (fun k => v ← stack_get (k - 1); stack_set k v) (Z.to_nat (i + 1)) top;;
  stack_set (top - i - 1) SEXP_NULL;;
  set_top (top + 1).

(** The label [make_call]: [i] arguments below the operator [tmp1]. *)
Definition make_call (i : Z) (tmp1 : sexp) : M unit :=
  h ← get_heap;
  tmp1 ← match tmp1, deref h tmp1 with
         | l, Some (OpcodeObj op) =>
             match make_opcode_procedure h l op i SEXP_PROC_NONE with
             | OpProc p h => set_heap h;; mret p
             | NotEnoughArgs => m ← allocate (String "not enough args for opcode");
                 ir ← make_list [l];
                 e ← allocate (Exception (Symbol "compile") m ir SEXP_FALSE SEXP_FALSE);
                 set_arg 1 e;; call_error_handler
             | TooManyArgs => m ← allocate (String "too many args for opcode");
                 ir ← make_list [l];
                 e ← allocate (Exception (Symbol "compile") m ir SEXP_FALSE SEXP_FALSE);
                 set_arg 1 e;; call_error_handler
             end
         | v, _ => mret v
         end;
  h ← get_heap;
  (if negb (sexp_procedurep h tmp1) then raise "non procedure application" [tmp1] else mret tt);;
  '(flags, num_args, code, _) ← procedure_of tmp1;
  let j := i - num_args in
  (if j <? 0 then raise "not enough args" [tmp1; Fixnum i] else mret tt);;
  '(_, max_depth) ← bytecode_of code;
  sexp_ensure_stack (max_depth + 64);;
  i ← (if j >? 0 then
         if procedure_variadic_p flags then
           if negb (procedure_unused_rest_p flags) then collect_rest i j;; mret (i - (j - 1))
           else mret i
         else raise "too many args" [tmp1; Fixnum i]
       else if procedure_variadic_p flags && negb (procedure_unused_rest_p flags)
       then insert_null i;; mret (i + 1)
       else mret i);
  set_arg 1 (Fixnum i);;
  top ← get_top; ip ← get_ip; self ← get_self; fp ← get_fp;
  stack_set top (Fixnum (ip + sizeof_sexp));;
  stack_set (top + 1) self;;
  stack_set (top + 2) (Fixnum fp);;
  set_top (top + 3);;
  set_self tmp1;;
  set_ip 0;;
  set_fp (top + 3 - 4).

Definition op_call : M unit :=
  i ← fetch_obj 0; i ← unbox i;
  tmp1 ← arg 1;
  make_call i tmp1.

(** Registers of the frame being left: its argument count and caller. *)
Definition leave_frame : M (Z * sexp) :=
  fp ← get_fp;
  tmp2 ← stack_get (fp + 3);
  j ← stack_get fp; j ← unbox j;
  self ← stack_get (fp + 2);
  ret ← stack_get (fp + 1); ret ← unbox ret;
  set_self self;;
  set_ip (ret - sizeof_sexp);;
  mret (j, tmp2).

Definition op_tail_call : M unit :=
  i ← fetch_obj 0; i ← unbox i;
  tmp1 ← arg 1;
  fp ← get_fp; top ← get_top;
  '(j, tmp2) ← leave_frame;
  count_up (fun k => v ← stack_get (top - 1 - i + k); stack_set (fp - j + k) v) (Z.to_nat i) 0;;
  set_top (fp + i - j);;
  push tmp1;;
  prev ← unbox tmp2;
  set_fp prev;;
  make_call i tmp1.

Definition op_ret : M unit :=
  fp ← get_fp;
  i ← stack_get fp; i ← unbox i;
  v ← arg 1;
  stack_set (fp - i) v;;
  set_top (fp - i + 1);;
  self ← stack_get (fp + 2);
  ret ← stack_get (fp + 1); ret ← unbox ret;
  prev ← stack_get (fp + 3); prev ← unbox prev;
  set_self self;;
  set_ip ret;;
  set_fp prev.

(** The label [apply1]: the frame is replaced by a call of [tmp1] on the
    elements of the list [tmp2]. *)
Fixpoint spread_args (n : nat) (ls : sexp) : M sexp :=
  match n with
  | O => mret ls
  | S n =>
      a ← get_car ls; d ← get_cdr ls;
      top ← get_top;
      stack_set top a;;
      set_top (top - 1);;
      spread_args n d
  end.

Definition apply1 (tmp1 tmp2 : sexp) : M unit :=
  h ← get_heap;
  tmp ← must (sexp_length h tmp2);
  (if sexp_not tmp then raise "apply: circular list" [tmp2] else mret tt);;
  i ← unbox tmp;
  max ← match deref h tmp1 with
        | Some (Procedure _ _ c _) => '(_, m) ← bytecode_of c; mret m
        | _ => mret 0
        end;
  sexp_ensure_stack (i + 64 + max);;
  fp ← get_fp;
  k ← stack_get (fp + 3); k ← unbox k;
  j ← stack_get fp; j ← unbox j;
  self ← stack_get (fp + 2);
  ret ← stack_get (fp + 1); ret ← unbox ret;
  set_self self;;
  set_ip (ret - sizeof_sexp);;
  prev_top ← get_top;
  set_top (fp - j + i - 1);;
  rest ← spread_args (Z.to_nat i) tmp2;
  set_top (fp + i - j);;
  push tmp1;;
  set_fp k;;
  (if negb (bool_decide (rest = SEXP_NULL)) then
     set_top prev_top;;
     x ← stack_get (prev_top - 2);
     raise "apply: improper args list" [x]
   else mret tt);;
  make_call i tmp1.

Definition op_apply1 : M unit := tmp1 ← arg 1; tmp2 ← arg 2; apply1 tmp1 tmp2.

(** ** Continuations *)

Definition sexp_save_stack (to : Z) : M sexp := fun s =>
  if (0 <=? to) && (to <=? Z.of_nat (length (v_stack s)))
  then allocate (Vector (take (Z.to_nat to) (v_stack s)) false) s else Bad.

Definition op_callcc : M unit :=
  top ← get_top; ip ← get_ip; self ← get_self; fp ← get_fp;
  stack_set top (Fixnum 1);;
  stack_set (top + 1) (Fixnum ip);;
  stack_set (top + 2) self;;
  stack_set (top + 3) (Fixnum fp);;
  tmp1 ← arg 1;
  saved ← sexp_save_stack (top + 4);
  vec ← allocate (Vector [saved] false);
  k ← allocate (Procedure 0 1 (Ptr G_RESUMECC_BYTECODE) vec);
  set_arg 1 k;;
  set_top (top + 1);;
  set_ip (ip - sizeof_sexp);;
  make_call 1 tmp1.

(** [sexp_restore_stack]: false for the stack error. *)
Definition sexp_restore_stack (saved : list sexp) : M bool :=
  let len := Z.of_nat (length saved) in
  size ← stack_length;
  ok ← (if len + 64 >=? size then sexp_grow_stack (len + 64) else mret true);
  if ok : bool then
    size ← stack_length;
    st ← get_stack;
    if len <=? size then set_stack (saved ++ drop (length saved) st);; set_top len;; mret true
    else bad
  else mret false.

(** When the stack was replaced by a larger one, the code goes on with the
    address of the old array. *)
Definition op_resumecc : M unit :=
  fp ← get_fp;
  tmp1 ← stack_get (fp - 1);
  self ← get_self;
  '(_, _, _, cp) ← procedure_of self;
  h ← get_heap;
  saved ← match deref h cp with
          | Some (Vector (v :: _) _) => match deref h v with Some (Vector d _) => mret d | _ => bad end
          | _ => bad
          end;
  size ← stack_length;
  ok ← sexp_restore_stack saved;
  size' ← stack_length;
  if negb (ok : bool) then set_arg 1 (Ptr G_OOS_ERROR);; call_error_handler
  else if negb (size =? size') then bad
  else
    fp ← arg 1; fp ← unbox fp;
    self ← arg 2;
    ret ← arg 3; ret ← unbox ret;
    set_fp fp;;
    set_self self;;
    set_ip ret;;
    drop_top 4;;
    set_arg 1 tmp1.

(** ** Raising *)

(** [sexp_parameter_ref] *)
Fixpoint find_param (fuel : nat) (h : heap) (ls param : sexp) : option (option sexp) :=
  match fuel with
  | O => None
  | S fuel =>
      if sexp_pairp h ls then
        a ← sexp_car h ls;
        if bool_decide (sexp_car h a = Some param) then Some (Some a)
        else d ← sexp_cdr h ls; find_param fuel h d param
      else Some None
  end.

Definition sexp_parameter_ref (h : heap) (params param : sexp) : option sexp :=
  found ← find_param (S (size h)) h params param;
  match found with
  | Some a => sexp_cdr h a
  | None =>
      Some match deref h param with
           | Some (OpcodeObj op) =>
               match op_data op with
               | Some d => match sexp_cdr h d with Some v => v | None => SEXP_FALSE end
               | None => SEXP_FALSE
               end
           | _ => SEXP_FALSE
           end
  end.

(** [SEXP_OP_RAISE], also reached from every error. *)
Definition op_raise : M unit :=
  x ← arg 1;
  h ← get_heap;
  match deref h x with
  | Some (Exception SEXP_TRAMPOLINE msg tmp2 tmp1 _) =>
      if bool_decide (msg = SEXP_TRAMPOLINE) then set_arg 1 tmp2;; end_loop
      else
        drop_top 1;;
        if sexp_not tmp1 && sexp_pairp h tmp2 then a ← get_car tmp2; push a
        else apply1 tmp1 tmp2
  | _ =>
      params ← get_params; handler ← get_handler;
      tmp1 ← must (sexp_parameter_ref h params handler);
      if negb (sexp_procedurep h tmp1) then
        self ← get_self;
        (if sexp_exceptionp h x then mret tt
         else e ← allocate (Exception SEXP_UNCAUGHT SEXP_FALSE x self SEXP_FALSE); set_arg 1 e);;
        end_loop
      else
        top ← get_top; ip ← get_ip; self ← get_self; fp ← get_fp;
        stack_set top (Fixnum 1);;
        stack_set (top + 1) (Fixnum ip);;
        stack_set (top + 2) self;;
        stack_set (top + 3) (Fixnum fp);;
        set_top (top + 4);;
        set_self tmp1;;
        set_ip 0;;
        set_fp top
  end.

(** ** Data instructions *)

Definition check_index (i len : Z) : bool := (0 <=? i) && (i <? len).

Definition op_vector_ref : M unit :=
  v ← arg 1; x ← arg 2; h ← get_heap;
  match deref h v with
  | Some (Vector data _) =>
      match x with
      | Fixnum i =>
          if check_index i (Z.of_nat (length data)) then
            r ← must (data !! Z.to_nat i); set_arg 2 r;; drop_top 1
          else raise "vector-ref: index out of range" [v; x]
      | _ => raise "vector-ref: not an integer" [x]
      end
  | _ => raise "vector-ref: not a vector" [v]
  end.

Definition op_vector_set : M unit :=
  v ← arg 1; x ← arg 2; h ← get_heap;
  match v, deref h v with
  | Ptr l, Some (Vector data immutable) =>
      if immutable : bool then raise "vector-set!: immutable vector" [v]
      else match x with
      | Fixnum i =>
          if check_index i (Z.of_nat (length data)) then
            y ← arg 3;
            set_heap (<[l := Vector (<[Z.to_nat i := y]> data) immutable]> h);;
            drop_top 3
          else raise "vector-set!: index out of range" [v; x]
      | _ => raise "vector-set!: not an integer" [x]
      end
  | _, _ => raise "vector-set!: not a vector" [v]
  end.

Definition op_vector_length : M unit :=
  v ← arg 1; h ← get_heap;
  match deref h v with
  | Some (Vector data _) => set_arg 1 (Fixnum (Z.of_nat (length data)))
  | _ => raise "vector-length: not a vector" [v]
  end.

Definition op_bytes_ref : M unit :=
  v ← arg 1; x ← arg 2; h ← get_heap;
  match deref h v with
  | Some (Bytes data _) =>
      match x with
      | Fixnum i =>
          if check_index i (Z.of_nat (length data)) then
            r ← must (data !! Z.to_nat i); set_arg 2 (Fixnum r);; drop_top 1
          else raise "byte-vector-ref: index out of range" [v; x]
      | _ => raise "byte-vector-ref: not an integer" [x]
      end
  | _ => raise "byte-vector-ref: not a byte-vector" [v]
  end.

Definition op_bytes_set : M unit :=
  v ← arg 1; x ← arg 2; y ← arg 3; h ← get_heap;
  match v, deref h v with
  | Ptr l, Some (Bytes data immutable) =>
      if immutable : bool then raise "byte-vector-set!: immutable byte-vector" [v]
      else match x, y with
      | Fixnum i, Fixnum b =>
          if (0 <=? b) && (b <? 256) then
            if check_index i (Z.of_nat (length data)) then
              set_heap (<[l := Bytes (<[Z.to_nat i := b]> data) immutable]> h);; drop_top 3
            else raise "byte-vector-set!: index out of range" [v; x]
          else raise "byte-vector-set!: not an octet" [y]
      | Fixnum _, _ => raise "byte-vector-set!: not an octet" [y]
      | _, _ => raise "byte-vector-set!: not an integer" [x]
      end
  | _, _ => raise "byte-vector-set!: not a byte-vector" [v]
  end.

Definition op_bytes_length : M unit :=
  v ← arg 1; h ← get_heap;
  match deref h v with
  | Some (Bytes data _) => set_arg 1 (Fixnum (Z.of_nat (length data)))
  | _ => raise "bytes-length: not a byte-vector" [v]
  end.

Definition op_make_procedure : M unit :=
  flags ← fetch_obj 0; flags ← unbox flags;
  len ← fetch_obj 1; len ← unbox len;
  bc ← fetch_obj 2;
  vars ← arg 1;
  p ← allocate (Procedure flags len bc vars);
  set_arg 1 p;;
  skip_words 3.

Definition SEXP_MAX_VECTOR_LENGTH : Z := Z.shiftr SEXP_MAX_FIXNUM 1.

Definition op_make_vector : M unit :=
  n ← arg 1;
  match n with
  | Fixnum len =>
      if len <? 0 then raise "make-vector: length must be non-negative" [n]
      else if len >? SEXP_MAX_VECTOR_LENGTH then
        m ← allocate (String "vector length out of range");
        ir ← make_list [n];
        e ← allocate (Exception (Symbol "type") m ir SEXP_FALSE SEXP_FALSE);
        set_arg 2 e;; drop_top 1
      else
        dflt ← arg 2; h ← get_heap;
        let '(v, h) := sexp_make_vector h len dflt in
        set_heap h;; set_arg 2 v;; drop_top 1
  | _ => raise "make-vector: not an integer" [n]
  end.

Definition op_make_exception : M unit :=
  a ← arg 1; b ← arg 2; c ← arg 3; d ← arg 4; e ← arg 5;
  x ← allocate (Exception a b c d e);
  set_arg 5 x;; drop_top 4.

Definition op_and : M unit :=
  a ← arg 1; b ← arg 2;
  set_arg 2 (sexp_make_boolean (sexp_truep a && sexp_truep b));;
  drop_top 1.

Definition op_predicate (p : sexp -> bool) : M unit := a ← arg 1; set_arg 1 (sexp_make_boolean (p a)).

(** The tag of an object, in [enum sexp_types]. *)
Definition sexp_pointer_tag (o : obj) : Z :=
  match o with
  | Pair _ _ _ => 6 | Bytes _ _ => 8 | String _ => 9 | Vector _ _ => 10
  | BignumObj _ => 12 | RatioObj _ _ => 13 | Exception _ _ _ _ _ => 19
  | Procedure _ _ _ _ => 20 | Bytecode _ _ _ => 24 | OpcodeObj _ => 27
  end.

(** The objects modelled are of the basic types, none of which inherits from
    another. *)
Definition op_typep : M unit :=
  tag ← fetch_int 0;
  a ← arg 1; h ← get_heap;
  skip_words 1;;
  set_arg 1 (sexp_make_boolean
    match deref h a with Some o => sexp_pointer_tag o =? tag | None => sexp_symbolp a && (tag =? 7) end).

Definition op_car : M unit :=
  a ← arg 1; p ← pairp a;
  if p : bool then v ← get_car a; set_arg 1 v else raise "car: not a pair" [a].

Definition op_cdr : M unit :=
  a ← arg 1; p ← pairp a;
  if p : bool then v ← get_cdr a; set_arg 1 v else raise "cdr: not a pair" [a].

Definition op_set_car : M unit :=
  a ← arg 1; h ← get_heap;
  match a, deref h a with
  | Ptr l, Some (Pair _ d immutable) =>
      if immutable : bool then raise "set-car!: immutable pair" [a]
      else x ← arg 2; set_heap (<[l := Pair x d immutable]> h);; drop_top 2
  | _, _ => raise "set-car!: not a pair" [a]
  end.

Definition op_set_cdr : M unit :=
  a ← arg 1; h ← get_heap;
  match a, deref h a with
  | Ptr l, Some (Pair c _ immutable) =>
      if immutable : bool then raise "set-cdr!: immutable pair" [a]
      else x ← arg 2; set_heap (<[l := Pair c x immutable]> h);; drop_top 2
  | _, _ => raise "set-cdr!: not a pair" [a]
  end.

Definition op_cons : M unit :=
  a ← arg 1; b ← arg 2;
  p ← allocate (Pair a b false);
  set_arg 2 p;; drop_top 1.

Definition op_eq : M unit :=
  a ← arg 1; b ← arg 2; set_arg 2 (sexp_make_boolean (bool_decide (a = b)));; drop_top 1.

(** ** Arithmetic *)

Definition load_int (h : heap) (v : sexp) : option exint :=
  match v with
  | Fixnum z => Some (Fix z)
  | _ => match deref h v with Some (BignumObj b) => Some (Big b) | _ => None end
  end.

Definition load_number (h : heap) (v : sexp) : option number :=
  match load_int h v with
  | Some x => Some (Int x)
  | None => match deref h v with
            | Some (RatioObj n d) => n ← load_int h n; d ← load_int h d; Some (Rat n d)
            | _ => None
            end
  end.

Definition store_int (x : exint) : M sexp :=
  match x with Fix z => mret (Fixnum z) | Big b => allocate (BignumObj b) end.

Definition store_number (x : number) : M sexp :=
  match x with
  | Int x => store_int x
  | Rat n d => n ← store_int n; d ← store_int d; allocate (RatioObj n d)
  end.

(** The result of a function on numbers replaces [_ARG1]. *)
Definition finish {A} (store : A -> M sexp) (a : sexp) (o : outcome A) : M unit :=
  match o with
  | Ok x => v ← store x; set_arg 1 v
  | Raise _ => fail_with "type" "divide by zero" [a]
  | Trap => bad
  | NoFuel => skip
  end.

(** A generic function on two words, with its type error, which names the type
    that is expected. *)
Definition invalid_type (expected : string) (a : sexp) : M unit :=
  fail_with "type" (String.append "invalid type, expected " expected) [a].

Definition generic2 {A B} (expected : string) (load : heap -> sexp -> option A) (store : B -> M sexp)
    (f : A -> A -> outcome B) (a b : sexp) : M unit :=
  h ← get_heap;
  match load h a, load h b with
  | Some x, Some y => finish store a (f x y)
  | None, _ => invalid_type expected a
  | _, None => invalid_type expected b
  end.

Definition in_fixnum_range (j : Z) : bool := negb ((j <? SEXP_MIN_FIXNUM) || (j >? SEXP_MAX_FIXNUM)).

(** Fixnums take the fast path; when it overflows, the first operand is made a
    bignum for the generic function. *)
Definition op_arith (fast : Z -> Z -> Z) (generic : number -> number -> outcome number) : M unit :=
  a ← arg 1; b ← arg 2;
  drop_top 1;;
  match a, b with
  | Fixnum x, Fixnum y =>
      if in_fixnum_range (fast x y) then set_arg 1 (Fixnum (fast x y))
      else finish store_number a (generic (Int (Big (sexp_fixnum_to_bignum x))) (Int (Fix y)))
  | _, _ => generic2 "Number" load_number store_number generic a b
  end.

Definition op_div : M unit :=
  a ← arg 1; b ← arg 2;
  drop_top 1;;
  if bool_decide (b = Fixnum 0) then raise "divide by zero" []
  else match a, b with
       | Fixnum x, Fixnum y => finish store_number a (sexp_ratio_normalize (Fix x) (Fix y))
       | _, _ => skip
       end.

Definition op_quotient : M unit :=
  a ← arg 1; b ← arg 2;
  drop_top 1;;
  match a, b with
  | Fixnum x, Fixnum y =>
      if y =? 0 then raise "divide by zero" []
      else if (x =? SEXP_MIN_FIXNUM) && (y =? -1) then
        v ← store_int (sexp_negate_exact (Big (sexp_fixnum_to_bignum x))); set_arg 1 v
      else set_arg 1 (Fixnum (Z.quot x y))
  | _, _ => generic2 "Integer" load_int store_int sexp_quotient a b
  end.

Definition op_remainder : M unit :=
  a ← arg 1; b ← arg 2;
  drop_top 1;;
  match a, b with
  | Fixnum x, Fixnum y =>
      if y =? 0 then raise "divide by zero" [] else set_arg 1 (Fixnum (Z.rem x y))
  | _, _ => generic2 "Integer" load_int store_int sexp_remainder a b
  end.

(** Comparisons: [test] of the sign that [sexp_compare] returns. *)
Definition store_test (test : Z -> bool) (c : exint) : M sexp :=
  match c with Fix z => mret (sexp_make_boolean (test z)) | Big _ => bad end.

Definition op_compare (fast : Z -> Z -> bool) (test : Z -> bool) : M unit :=
  a ← arg 1; b ← arg 2;
  drop_top 1;;
  match a, b with
  | Fixnum x, Fixnum y => set_arg 1 (sexp_make_boolean (fast x y))
  | _, _ => generic2 "Number" load_number (store_test test) sexp_compare a b
  end.

(** String cursors are compared as words. *)
Definition op_cursor_compare (test : Z -> Z -> bool) : M unit :=
  a ← arg 1; b ← arg 2;
  drop_top 1;;
  match a, b with
  | StringCursor x, StringCursor y => set_arg 1 (sexp_make_boolean (test x y))
  | _, _ => skip
  end.

(** ** Variables *)

Definition op_global_known_ref : M unit :=
  cell ← fetch_obj 0; v ← get_cdr cell; push v;; skip_words 1.

Definition op_global_ref : M unit :=
  cell ← fetch_obj 0;
  v ← get_cdr cell;
  (if bool_decide (v = SEXP_UNDEF) then name ← get_car cell; raise "undefined variable" [name] else mret tt);;
  op_global_known_ref.

Definition op_parameter_ref : M unit :=
  tmp2 ← fetch_obj 0;
  skip_words 1;;
  h ← get_heap; params ← get_params;
  found ← must (find_param (S (size h)) h params tmp2);
  match found with
  | Some p => push p
  | None => match deref h tmp2 with
            | Some (OpcodeObj op) => d ← must (op_data op); push d
            | _ => bad
            end
  end.

Definition op_stack_ref : M unit :=
  k ← fetch_int 0; top ← get_top;
  v ← stack_get (top - k);
  stack_set top v;;
  skip_words 1;;
  set_top (top + 1).

Definition op_local_ref : M unit :=
  k ← fetch_int 0; fp ← get_fp; top ← get_top;
  v ← stack_get (fp - 1 - k);
  stack_set top v;;
  skip_words 1;;
  set_top (top + 1).

Definition op_local_set : M unit :=
  k ← fetch_int 0; fp ← get_fp;
  v ← arg 1;
  drop_top 1;;
  stack_set (fp - 1 - k) v;;
  skip_words 1.

Definition op_closure_ref : M unit :=
  k ← fetch_int 0; self ← get_self;
  '(_, _, _, cp) ← procedure_of self;
  h ← get_heap;
  match deref h cp with
  | Some (Vector data _) =>
      if 0 <=? k then v ← must (data !! Z.to_nat k); push v;; skip_words 1 else bad
  | _ => bad
  end.

Definition op_closure_vars : M unit :=
  a ← arg 1; '(_, _, _, vars) ← procedure_of a; set_arg 1 vars.

(** ** Jumps and foreign calls *)

Definition op_jump : M unit := d ← fetch_int 0; ip ← get_ip; set_ip (ip + d).

Definition op_jump_unless : M unit :=
  d ← fetch_int 0;
  v ← arg 1;
  drop_top 1;;
  if sexp_not v then ip ← get_ip; set_ip (ip + d) else skip_words 1.

Section machine.
(** The C functions of foreign opcodes. *)
Variable foreign : string -> heap -> list sexp -> sexp * heap.

Fixpoint get_args (n : nat) (k : Z) : M (list sexp) :=
  match n with O => mret [] | S n => a ← arg k; r ← get_args n (k + 1); mret (a :: r) end.

(** [SEXP_OP_FCALLn] with [sexp_fcall_return]. *)
Definition op_fcall (n : option nat) : M unit :=
  w ← fetch_obj 0;
  h ← get_heap;
  match deref h w with
  | Some (OpcodeObj op) =>
      let n := match n with
               | Some n => n
               | None => Z.to_nat (op_num_args op + (if op_variadic_p op then 1 else 0))
               end in
      args ← get_args n 1;
      name ← must (op_func op);
      let '(x, h) := foreign name h args in
      set_heap h;;
      drop_top (Z.of_nat n - 1);;
      set_arg 1 x;;
      skip_words 1;;
      if sexp_exceptionp h x then call_error_handler else mret tt
  | _ => bad
  end.

Definition exec_op (o : op_name) : M unit :=
  match o with
  | OP_NOOP | OP_YIELD | OP_FORCE => mret tt
  | OP_RAISE => op_raise
  | OP_RESUMECC => op_resumecc
  | OP_CALLCC => op_callcc
  | OP_APPLY1 => op_apply1
  | OP_TAIL_CALL => op_tail_call
  | OP_CALL => op_call
  | OP_FCALL0 => op_fcall (Some 0%nat)
  | OP_FCALL1 => op_fcall (Some 1%nat)
  | OP_FCALL2 => op_fcall (Some 2%nat)
  | OP_FCALL3 => op_fcall (Some 3%nat)
  | OP_FCALL4 => op_fcall (Some 4%nat)
  | OP_FCALLN => op_fcall None
  | OP_JUMP_UNLESS => op_jump_unless
  | OP_JUMP => op_jump
  | OP_PUSH => v ← fetch_obj 0; push v;; skip_words 1
  | OP_DROP => drop_top 1
  | OP_GLOBAL_REF => op_global_ref
  | OP_GLOBAL_KNOWN_REF => op_global_known_ref
  | OP_PARAMETER_REF => op_parameter_ref
  | OP_STACK_REF => op_stack_ref
  | OP_LOCAL_REF => op_local_ref
  | OP_LOCAL_SET => op_local_set
  | OP_CLOSURE_REF => op_closure_ref
  | OP_CLOSURE_VARS => op_closure_vars
  | OP_VECTOR_REF => op_vector_ref
  | OP_VECTOR_SET => op_vector_set
  | OP_VECTOR_LENGTH => op_vector_length
  | OP_BYTES_REF => op_bytes_ref
  | OP_BYTES_SET => op_bytes_set
  | OP_BYTES_LENGTH => op_bytes_length
  | OP_MAKE_PROCEDURE => op_make_procedure
  | OP_MAKE_VECTOR => op_make_vector
  | OP_MAKE_EXCEPTION => op_make_exception
  | OP_AND => op_and
  | OP_EOFP => op_predicate (fun v => bool_decide (v = SEXP_EOF))
  | OP_NULLP => op_predicate (fun v => bool_decide (v = SEXP_NULL))
  | OP_FIXNUMP => op_predicate sexp_fixnump
  | OP_SYMBOLP => op_predicate sexp_symbolp
  | OP_CHARP => op_predicate (fun v => match v with Char _ => true | _ => false end)
  | OP_SCP => op_predicate (fun v => match v with StringCursor _ => true | _ => false end)
  | OP_TYPEP => op_typep
  | OP_CAR => op_car
  | OP_CDR => op_cdr
  | OP_SET_CAR => op_set_car
  | OP_SET_CDR => op_set_cdr
  | OP_CONS => op_cons
  | OP_ADD => op_arith Z.add sexp_add
  | OP_SUB => op_arith Z.sub sexp_sub
  | OP_MUL => op_arith Z.mul sexp_mul
  | OP_DIV => op_div
  | OP_QUOTIENT => op_quotient
  | OP_REMAINDER => op_remainder
  | OP_LT => op_compare Z.ltb (fun c => c <? 0)
  | OP_LE => op_compare Z.leb (fun c => c <=? 0)
  | OP_EQN => op_compare Z.eqb (fun c => c =? 0)
  | OP_EQ => op_eq
  | OP_SC_LT => op_cursor_compare Z.ltb
  | OP_SC_LE => op_cursor_compare Z.leb
  | OP_CHAR2INT =>
      a ← arg 1;
      match a with
      | Char c => set_arg 1 (Fixnum c)
      | _ => raise "char->integer: not a character" [a]
      end
  | OP_INT2CHAR =>
      a ← arg 1;
      match a with
      | Fixnum c => set_arg 1 (Char c)
      | _ => raise "integer->char: not an integer" [a]
      end
  | OP_RET => op_ret
  | OP_DONE => end_loop
  | OP_RESERVE => raise "unknown opcode" [Fixnum 16]
  | OP_STRING_REF | OP_STRING_SET | OP_STRING_LENGTH
  | OP_STRING_CURSOR_NEXT | OP_STRING_CURSOR_PREV | OP_STRING_CURSOR_END
  | OP_MAKE | OP_SLOT_REF | OP_SLOT_SET | OP_ISA | OP_SLOTN_REF | OP_SLOTN_SET
  | OP_CHAR_UPCASE | OP_CHAR_DOWNCASE
  | OP_WRITE_CHAR | OP_WRITE_STRING | OP_READ_CHAR | OP_PEEK_CHAR => skip
  end.

(** ** The loop *)

Inductive config := Run (s : vm) | Raising (s : vm).

Inductive step_result := Goes (c : config) | Stops (s : vm) | Breaks | Outside.

Definition after (r : res unit) : step_result :=
  match r with
  | Val _ s => Goes (Run s)
  | Exc s => Goes (Raising s)
  | End s => Stops s
  | Bad => Breaks
  | Skip => Outside
  end.

(** One instruction, or the error handler. *)
Definition step (c : config) : step_result :=
  match c with
  | Run s => after ((o ← fetch_op; exec_op o) s)
  | Raising s => after (op_raise s)
  end.

Inductive run_result := Returned (v : sexp) (s : vm) | Crashed | Unmodelled | OutOfFuel.

(** [end_loop]: the result is popped. *)
Definition result_of (s : vm) : run_result :=
  match (v ← arg 1; drop_top 1;; mret v) s with
  | Val v s => Returned v s
  | _ => Crashed
  end.

Fixpoint run (fuel : nat) (c : config) : run_result :=
  match fuel with
  | O => OutOfFuel
  | S fuel =>
      match step c with
      | Goes c => run fuel c
      | Stops s => result_of s
      | Breaks => Crashed
      | Outside => Unmodelled
      end
  end.

(** The entry of [sexp_apply]: the arguments, last at the bottom, and a call
    that returns to the final resumer. *)
Fixpoint place_args (args : list sexp) : M unit :=
  match args with
  | [] => mret tt
  | a :: args => set_arg 1 a;; drop_top 1;; place_args args
  end.

Definition apply_entry (proc : sexp) (args : list sexp) : M unit :=
  top ← get_top;
  set_fp (top - 4);;
  set_self (Ptr G_FINAL_RESUMER);;
  set_ip (- sizeof_sexp);;
  h ← get_heap;
  let i := Z.of_nat (length args) in
  max ← match deref h proc with
        | Some (Procedure _ _ c _) => '(_, m) ← bytecode_of c; mret m
        | _ => mret 0
        end;
  sexp_ensure_stack (i + 64 + max);;
  set_top (top + i);;
  place_args args;;
  set_top (top + i);;
  push proc;;
  make_call i proc.

Definition sexp_apply (fuel : nat) (proc : sexp) (args : list sexp) (s : vm) : run_result :=
  match after (apply_entry proc args s) with
  | Goes c => run fuel c
  | Stops s => result_of s
  | Breaks => Crashed
  | Outside => Unmodelled
  end.

End machine.
