(* ===== verification/Semantics.v ===== *)
(** * The meaning of trees

    A big-step semantics of the trees of [Ast], independent of bytecode: flat
    closures, boxes for assigned variables, operands evaluated last to first.
    The addresses the compiler chose for the code of each lambda, and for the
    procedures of closed ones, are a table the semantics takes as given. *)
From S2P Require Import Prelude Bignum Numbers Heap Ast Codegen.
From stdpp Require Import base list option.
#[local] Open Scope Z_scope.

(** ** Tables *)

Record table := Table {
  code_of : gmap positive loc;                            (** lambda to bytecode *)
  closed_of : gmap positive loc;                          (** closed lambda to procedure *)
  lambda_of : gmap loc (lam_info * list ref * ast);       (** bytecode to lambda *)
}.

(** ** Environments *)

(** An activation: the lambda and its free variables, the slots of the
    arguments and of the locals, and the vector of captured variables. *)
Record env := Env {
  e_lam : option (lam_info * list ref);
  e_args : list sexp;
  e_locals : list sexp;
  e_vars : sexp;
}.

Definition slot (E : env) (k : Z) : option sexp :=
  if 0 <=? k then e_args E !! Z.to_nat k
  else if k <=? -5 then e_locals E !! Z.to_nat (-5 - k) else None.

Definition vector_ref (h : heap) (v : sexp) (k : nat) : option sexp :=
  match deref h v with Some (Vector data _) => data !! k | _ => None end.

(** The slot or captured word of a variable, a box when it is assigned. *)
Definition variable (E : env) (h : heap) (name : ident) (loc : lam_info) : option sexp :=
  match e_lam E with
  | None => None
  | Some (l, fv) =>
      if bool_decide (lam_id loc = lam_id l) then slot E (sexp_param_index l name)
      else vector_ref h (e_vars E) (fv_index name (Within loc) fv)
  end.

Definition value_of (h : heap) (name : ident) (loc : lam_info) (w : sexp) : option sexp :=
  if memq name (lam_sv loc) then sexp_cdr h w else Some w.

(** Assignment to a mutable pair. *)
Definition assign (h : heap) (box v : sexp) : option heap :=
  match box, deref h box with
  | Ptr l, Some (Pair a _ false) => Some (<[l := Pair a v false]> h)
  | _, _ => None
  end.

(** ** Primitives *)

(** The opcodes without operands in the code: the arguments in order, the
    result, or nothing for a setter. *)
Definition prim (o : op_name) (h : heap) (vs : list sexp) : option (option sexp * heap) :=
  match o, vs with
  | OP_CAR, [a] => x ← sexp_car h a; Some (Some x, h)
  | OP_CDR, [a] => x ← sexp_cdr h a; Some (Some x, h)
  | OP_CONS, [a; b] => let '(p, h) := alloc h (Pair a b false) in Some (Some p, h)
  | OP_SET_CDR, [a; x] => h ← assign h a x; Some (None, h)
  | OP_SET_CAR, [a; x] =>
      match a, deref h a with
      | Ptr l, Some (Pair _ d false) => Some (None, <[l := Pair x d false]> h)
      | _, _ => None
      end
  | OP_EQ, [a; b] => Some (Some (sexp_make_boolean (bool_decide (a = b))), h)
  | OP_NULLP, [a] => Some (Some (sexp_make_boolean (bool_decide (a = SEXP_NULL))), h)
  | OP_FIXNUMP, [a] => Some (Some (sexp_make_boolean (sexp_fixnump a)), h)
  | OP_SYMBOLP, [a] => Some (Some (sexp_make_boolean (sexp_symbolp a)), h)
  | OP_VECTOR_LENGTH, [v] =>
      match deref h v with
      | Some (Vector data _) => Some (Some (Fixnum (Z.of_nat (length data))), h)
      | _ => None
      end
  | OP_VECTOR_REF, [v; Fixnum i] => if 0 <=? i then x ← vector_ref h v (Z.to_nat i); Some (Some x, h) else None
  | OP_VECTOR_SET, [v; Fixnum i; x] =>
      match v, deref h v with
      | Ptr l, Some (Vector data false) =>
          if (0 <=? i) && (i <? Z.of_nat (length data))
          then Some (None, <[l := Vector (<[Z.to_nat i := x]> data) false]> h) else None
      | _, _ => None
      end
  | _, _ => None
  end.

(** Arithmetic on fixnums whose result is a fixnum, and comparisons. *)
Definition fixnum_op (o : op_name) (x y : Z) : option Z :=
  r ← match o with
      | OP_ADD => Some (x + y)
      | OP_SUB => Some (x - y)
      | OP_MUL => Some (x * y)
      | _ => None
      end;
  if (SEXP_MIN_FIXNUM <=? r) && (r <=? SEXP_MAX_FIXNUM) then Some r else None.

Fixpoint arith_fold (o : op_name) (acc : Z) (vs : list sexp) : option Z :=
  match vs with
  | [] => Some acc
  | Fixnum y :: vs => acc ← fixnum_op o acc y; arith_fold o acc vs
  | _ => None
  end.

Definition fixnum_test (o : op_name) : option (Z -> Z -> bool) :=
  match o with OP_LT => Some Z.ltb | OP_LE => Some Z.leb | OP_EQN => Some Z.eqb | _ => None end.

Definition fixnums (vs : list sexp) : option (list Z) :=
  mapM (fun v => match v with Fixnum z => Some z | _ => None end) vs.

(** Every number is related to the next one. *)
Fixpoint chain_test (t : Z -> Z -> bool) (zs : list Z) : bool :=
  match zs with
  | x :: ((y :: _) as rest) => t x y && chain_test t rest
  | _ => true
  end.

(** Opcodes compiled to one instruction and nothing else. *)
Definition plain_op (op : opcode) : bool :=
  match op_data op, op_data2 op with None, None => true | _, _ => false end
  && negb (op_static_param_p op) && negb (op_tail_call_p op)
  && match op_class_of op with
     | OPC_TYPE_PREDICATE | OPC_GETTER | OPC_SETTER | OPC_PREDICATE => true
     | OPC_CONSTRUCTOR => negb (bool_decide (op_code op = OP_MAKE))
     | _ => false
     end.

(** ** Evaluation *)

(** The slots of a call: surplus arguments in a list, an empty list, or the
    arguments as they are. *)
Fixpoint cons_list (h : heap) (vs : list sexp) : sexp * heap :=
  match vs with
  | [] => (SEXP_NULL, h)
  | v :: vs => let '(d, h) := cons_list h vs in alloc h (Pair v d false)
  end.

Definition bind_args (flags n : Z) (h : heap) (vs : list sexp) : option (list sexp * heap) :=
  let k := Z.to_nat n in
  if Z.of_nat (length vs) <? n then None
  else if Z.testbit flags 0 then
    if Z.testbit flags 1 then Some (vs, h)
    else let '(rest, h) := cons_list h (drop k vs) in Some (take k vs ++ [rest], h)
  else if Z.of_nat (length vs) =? n then Some (vs, h) else None.

(** Boxes for the assigned variables, in the order of the list. *)
Definition set_slot (k : Z) (v : sexp) (al : list sexp * list sexp) : list sexp * list sexp :=
  if 0 <=? k then (<[Z.to_nat k := v]> al.1, al.2) else (al.1, <[Z.to_nat (-5 - k) := v]> al.2).

Fixpoint box_slots (i : lam_info) (sv : list ident) (h : heap) (al : list sexp * list sexp)
    : option ((list sexp * list sexp) * heap) :=
  match sv with
  | [] => Some (al, h)
  | name :: sv =>
      let k := sexp_param_index i name in
      v ← slot (Env None al.1 al.2 SEXP_VOID) k;
      let '(b, h) := alloc h (Pair name v false) in
      box_slots i sv h (set_slot k b al)
  end.

Section semantics.
Variable T : table.

Inductive eval : env -> heap -> ast -> sexp -> heap -> Prop :=
| eval_lit E h v : eval E h (Lit v) v h
| eval_self E h v : eval E h (Self v) v h
| eval_global E h name cell v :
    sexp_cdr h cell = Some v -> v <> SEXP_UNDEF -> eval E h (RefE (Ref name (Global cell))) v h
| eval_variable E h name loc w v :
    variable E h name loc = Some w -> value_of h name loc w = Some v ->
    eval E h (RefE (Ref name (Within loc))) v h
| eval_set_global E h name cell x v old h1 h2 :
    eval E h x v h1 -> sexp_cdr h1 cell = Some old -> old <> SEXP_UNDEF -> assign h1 cell v = Some h2 ->
    eval E h (SetE (Ref name (Global cell)) x) SEXP_VOID h2
| eval_set_variable E h name loc x v h1 box h2 :
    eval E h x v h1 -> name ∈ lam_sv loc -> variable E h1 name loc = Some box -> assign h1 box v = Some h2 ->
    eval E h (SetE (Ref name (Within loc)) x) SEXP_VOID h2
| eval_cnd E h t p f vt h1 v h2 :
    eval E h t vt h1 -> eval E h1 (if sexp_not vt then f else p) v h2 -> eval E h (Cnd t p f) v h2
| eval_seq E h ls v h' : eval_seq_list E h ls v h' -> eval E h (Seq ls) v h'
| eval_lambda_closed E h i body p :
    closed_of T !! lam_id i = Some p -> eval E h (Lambda i [] body) (Ptr p) h
| eval_lambda_open E h i fv body ws b vec h1 v h2 :
    fv <> [] ->
    Forall2 (fun r w => exists loc, ref_where r = Within loc /\ variable E h (ref_name r) loc = Some w) fv ws ->
    code_of T !! lam_id i = Some b ->
    alloc h (Vector ws false) = (vec, h1) ->
    alloc h1 (Procedure (lambda_flags i body) (Z.of_nat (length (lam_params i))) (Ptr b) vec) = (v, h2) ->
    eval E h (Lambda i fv body) v h2
| eval_app E h f args vs h1 p h2 v h3 :
    eval_args E h args vs h1 -> eval E h1 f p h2 -> apply_proc h2 p vs v h3 ->
    eval E h (App f args) v h3
| eval_prim E h l op args vs h1 (r : option sexp) h2 :
    plain_op op = true -> op_inverse op = false -> returns_void op = (match r with Some _ => false | None => true end) ->
    eval_args E h args vs h1 -> prim (op_code op) h1 vs = Some (r, h2) ->
    eval E h (OpApp l op args) (default SEXP_VOID r) h2
| eval_arith E h l op args z vs h1 r :
    op_class_of op = OPC_ARITHMETIC -> op_static_param_p op = false -> op_tail_call_p op = false ->
    returns_void op = false -> op_num_args op < Z.of_nat (length args) ->
    eval_args E h args (Fixnum z :: vs) h1 -> arith_fold (op_code op) z vs = Some r ->
    eval E h (OpApp l op args) (Fixnum r) h1
| eval_compare E h l op args vs h1 t zs :
    op_class_of op = OPC_ARITHMETIC_CMP -> op_static_param_p op = false -> op_tail_call_p op = false ->
    returns_void op = false -> op_data op = None -> op_inverse op = false ->
    eval_args E h args vs h1 -> fixnum_test (op_code op) = Some t -> fixnums vs = Some zs -> (2 <= length zs)%nat ->
    eval E h (OpApp l op args) (sexp_make_boolean (chain_test t zs)) h1
with eval_seq_list : env -> heap -> list ast -> sexp -> heap -> Prop :=
| eval_seq_last E h x v h' : eval E h x v h' -> eval_seq_list E h [x] v h'
| eval_seq_cons E h x y ls w h1 v h2 :
    eval E h x w h1 -> eval_seq_list E h1 (y :: ls) v h2 -> eval_seq_list E h (x :: y :: ls) v h2
(** Operands, last to first. *)
with eval_args : env -> heap -> list ast -> list sexp -> heap -> Prop :=
| eval_args_nil E h : eval_args E h [] [] h
| eval_args_cons E h x ls vs h1 v h2 :
    eval_args E h ls vs h1 -> eval E h1 x v h2 -> eval_args E h (x :: ls) (v :: vs) h2
with apply_proc : heap -> sexp -> list sexp -> sexp -> heap -> Prop :=
| apply_closure h p flags n b vars vs i fv body args h1 args' locals' h2 v h3 :
    h !! p = Some (Procedure flags n (Ptr b) vars) ->
    lambda_of T !! b = Some (i, fv, body) -> 0 <= n ->
    bind_args flags n h vs = Some (args, h1) ->
    box_slots i (lam_sv i) h1 (args, replicate (length (lam_locals i)) SEXP_UNDEF) = Some ((args', locals'), h2) ->
    eval (Env (Some (i, fv)) args' locals' vars) h2 body v h3 ->
    apply_proc h (Ptr p) vs v h3.

End semantics.

Scheme eval_mut := Induction for eval Sort Prop
  with eval_seq_mut := Induction for eval_seq_list Sort Prop
  with eval_args_mut := Induction for eval_args Sort Prop
  with apply_mut := Induction for apply_proc Sort Prop.
