(* ===== verification/VmSteps.v ===== *)
(** * Executing instructions

    Weakest-precondition lemmas for the machine: [from] says that every run from
    a described state reaches a goal or ends with the out-of-stack error.  Each
    instruction has one lemma; a proof about code applies them in turn. *)
From S2P Require Import Prelude LongLong Bignum Integers Numbers Heap Ast Codegen Vm Semantics.
From stdpp Require Import base list option gmap.
#[local] Open Scope Z_scope.

(** ** Stack sizes *)

(** The sizes the stack takes: doublings of the initial one up to the maximum. *)
Definition good_size (n : Z) : Prop :=
  n = SEXP_MAX_STACK_SIZE \/ exists k : nat, (k <= 9)%nat /\ n = SEXP_INIT_STACK_SIZE * 2 ^ Z.of_nat k.

Lemma good_size_bounds n : good_size n -> 1024 <= n <= SEXP_MAX_STACK_SIZE.
Proof.
  unfold good_size, SEXP_MAX_STACK_SIZE, SEXP_INIT_STACK_SIZE. intros [->|(k & Hk & ->)]; [lia|].
  assert (2 ^ 0 <= 2 ^ Z.of_nat k <= 2 ^ 9) by (split; apply Z.pow_le_mono_r; lia). lia.
Qed.

Section steps.
Variable foreign : string -> heap -> list sexp -> sexp * heap.
(** The dynamic parameters and the error handler, which no instruction here changes. *)
Variables pr hd : sexp.

Abbreviation step := (step foreign).
Abbreviation exec_op := (exec_op foreign).

(** ** Reaching a goal *)

Inductive reach (Q : config -> Prop) : config -> Prop :=
| reach_here c : Q c -> reach Q c
| reach_step c c' : step c = Goes c' -> reach Q c' -> reach Q c
| reach_oos c s : step c = Stops s -> result_of s = Returned (Ptr G_OOS_ERROR)
    (Vm (v_heap s) (v_stack s) (v_top s - 1) (v_fp s) (v_ip s) (v_self s) (v_params s) (v_handler s)) -> reach Q c.

Lemma reach_bind Q R c : reach Q c -> (forall c, Q c -> reach R c) -> reach R c.
Proof. induction 1; intros HQ; [auto|eapply reach_step; eauto|eapply reach_oos; eauto]. Qed.

(** A machine whose live stack is [l]. *)
Definition mk (h : heap) (l j : list sexp) (fp ip : Z) (self : sexp) : vm :=
  Vm h (l ++ j) (Z.of_nat (length l)) fp ip self pr hd.

(** [m] is a lower bound of the size of the stack. *)
Definition live (h : heap) (l : list sexp) (fp ip : Z) (self : sexp) (m : Z) (c : config) : Prop :=
  exists j, c = Run (mk h l j fp ip self) /\ m <= Z.of_nat (length (l ++ j)) /\ good_size (Z.of_nat (length (l ++ j))).

Definition from h l fp ip self m (Q : config -> Prop) : Prop :=
  forall c, live h l fp ip self m c -> reach Q c.

Lemma from_weaken h l fp ip self m m' Q : m <= m' -> from h l fp ip self m Q -> from h l fp ip self m' Q.
Proof. intros Hm Hf c (j & -> & Hj & Hg). apply Hf. exists j. split_and!; [done|lia|done]. Qed.

Lemma from_goal h l fp ip self m : from h l fp ip self m (live h l fp ip self m).
Proof. intros c Hc. by apply reach_here. Qed.

(** ** Code in memory *)

Definition code_at (h : heap) (self : sexp) (data : list cell) : Prop :=
  exists l fl n b vars md lits,
    self = Ptr l /\ h !! l = Some (Procedure fl n (Ptr b) vars) /\ h !! b = Some (Bytecode data md lits).

Definition bytes_at (h : heap) (self : sexp) (p : Z) (c : list cell) : Prop :=
  exists pre post, code_at h self (pre ++ c ++ post) /\ p = Z.of_nat (length pre).

Lemma bytes_at_app h self p c1 c2 :
  bytes_at h self p (c1 ++ c2) -> bytes_at h self p c1 /\ bytes_at h self (p + Z.of_nat (length c1)) c2.
Proof.
  intros (pre & post & Hc & ->). rewrite <- app_assoc in Hc. split.
  - by exists pre, (c2 ++ post).
  - exists (pre ++ c1), post. rewrite <- app_assoc. split; [done|]. rewrite length_app. lia.
Qed.

Lemma bytes_at_cons h self p x c : bytes_at h self p (x :: c) -> bytes_at h self (p + 1) c.
Proof. intros H. by apply (bytes_at_app _ _ _ [x] c) in H as [_ H]. Qed.

Lemma bytes_at_nonneg h self p c : bytes_at h self p c -> 0 <= p.
Proof. intros (pre & post & _ & ->). lia. Qed.

(** ** Monadic steps *)

Lemma bind_val {A B} (m : M A) (f : A -> M B) s a s' : m s = Val a s' -> (m ≫= f) s = f a s'.
Proof. unfold mbind, M_bind. by intros ->. Qed.

Lemma bc_data_spec h l j fp p self data : code_at h self data ->
  bc_data (mk h l j fp p self) = Val data (mk h l j fp p self).
Proof.
  intros (lp & fl & n & b & vars & md & lits & -> & Hl & Hb).
  unfold bc_data, get_self, procedure_of, bytecode_of, get_heap, mbind, M_bind, mret, M_ret, deref, mk. cbn.
  rewrite Hl. cbn. by rewrite Hb.
Qed.

Lemma fetch_op_spec h l j fp p self o c : bytes_at h self p (COp o :: c) ->
  fetch_op (mk h l j fp p self) = Val o (mk h l j fp (p + 1) self).
Proof.
  intros (pre & post & Hd & ->). unfold fetch_op.
  rewrite (bind_val _ _ _ _ _ (bc_data_spec h l j fp _ self _ Hd)). erewrite bind_val by reflexivity. cbn [v_ip mk].
  destruct (Z.leb_spec 0 (Z.of_nat (length pre))); [|lia].
  by rewrite Nat2Z.id, lookup_app_r, Nat.sub_diag by lia.
Qed.

Lemma fetch_word_spec h l j fp p self k w c : bytes_at h self (p + 8 * k) (CWord w :: c) -> 0 <= p ->
  fetch_word k (mk h l j fp p self) = Val w (mk h l j fp p self).
Proof.
  intros (pre & post & Hd & Hk) Hp. unfold fetch_word.
  rewrite (bind_val _ _ _ _ _ (bc_data_spec h l j fp _ self _ Hd)). erewrite bind_val by reflexivity. cbn [v_ip mk].
  destruct (Z.leb_spec 0 p); [|lia]. unfold sizeof_sexp.
  rewrite Hk, Nat2Z.id, lookup_app_r, Nat.sub_diag by lia. done.
Qed.

Lemma fetch_obj_spec h l j fp p self k v c : bytes_at h self (p + 8 * k) (CWord (WObj v) :: c) -> 0 <= p ->
  fetch_obj k (mk h l j fp p self) = Val v (mk h l j fp p self).
Proof.
  intros Hb Hp. unfold fetch_obj. by rewrite (bind_val _ _ _ _ _ (fetch_word_spec _ _ _ _ _ _ _ _ _ Hb Hp)).
Qed.

Lemma fetch_obj0_spec h l j fp p self v c : bytes_at h self p (CWord (WObj v) :: c) ->
  fetch_obj 0 (mk h l j fp p self) = Val v (mk h l j fp p self).
Proof.
  intros Hb. eapply fetch_obj_spec; [|by eapply bytes_at_nonneg]. by replace (p + 8 * 0) with p by lia.
Qed.

Lemma fetch_int_spec h l j fp p self z c : bytes_at h self p (CWord (WInt z) :: c) ->
  fetch_int 0 (mk h l j fp p self) = Val z (mk h l j fp p self).
Proof.
  intros Hb. pose proof (bytes_at_nonneg _ _ _ _ Hb) as Hp. unfold fetch_int. replace p with (p + 8 * 0) in Hb by lia.
  by rewrite (bind_val _ _ _ _ _ (fetch_word_spec _ _ _ _ _ _ _ _ _ Hb Hp)).
Qed.

Lemma skip_words_spec h l j fp p self k : skip_words k (mk h l j fp p self) = Val tt (mk h l j fp (p + 8 * k) self).
Proof. done. Qed.

Lemma set_ip_spec h l j fp p self q : set_ip q (mk h l j fp p self) = Val tt (mk h l j fp q self).
Proof. done. Qed.

Lemma set_heap_spec h l j fp p self h' : set_heap h' (mk h l j fp p self) = Val tt (mk h' l j fp p self).
Proof. done. Qed.

Lemma get_ip_spec h l j fp p self : get_ip (mk h l j fp p self) = Val p (mk h l j fp p self).
Proof. done. Qed.

Lemma get_fp_spec h l j fp p self : get_fp (mk h l j fp p self) = Val fp (mk h l j fp p self).
Proof. done. Qed.

Lemma get_self_spec h l j fp p self : get_self (mk h l j fp p self) = Val self (mk h l j fp p self).
Proof. done. Qed.

Lemma get_heap_spec h l j fp p self : get_heap (mk h l j fp p self) = Val h (mk h l j fp p self).
Proof. done. Qed.

Lemma get_top_spec h l j fp p self : get_top (mk h l j fp p self) = Val (Z.of_nat (length l)) (mk h l j fp p self).
Proof. done. Qed.

(** Reads and writes inside the live part, and moves of its end. *)
Lemma stack_get_at h a v b j fp p self i : i = Z.of_nat (length a) ->
  stack_get i (mk h (a ++ v :: b) j fp p self) = Val v (mk h (a ++ v :: b) j fp p self).
Proof.
  intros ->. unfold stack_get, mk. cbn. destruct (Z.leb_spec 0 (Z.of_nat (length a))); [|lia].
  by rewrite Nat2Z.id, <- app_assoc, lookup_app_r, Nat.sub_diag by lia.
Qed.

Lemma insert_at (a b : list sexp) (x v : sexp) : <[length a := v]> (a ++ x :: b) = a ++ v :: b.
Proof. replace (length a) with (length a + 0)%nat by lia. by rewrite insert_app_r. Qed.

Lemma stack_set_at h a x b j fp p self i v : i = Z.of_nat (length a) ->
  stack_set i v (mk h (a ++ x :: b) j fp p self) = Val tt (mk h (a ++ v :: b) j fp p self).
Proof.
  intros ->. unfold stack_set, set_stack, mk. cbn.
  rewrite (proj2 (Z.leb_le _ _)), (proj2 (Z.ltb_lt _ _)) by (rewrite ?length_app; cbn [length]; lia). cbn [andb].
  rewrite Nat2Z.id, <- !app_assoc, <- !app_comm_cons, insert_at, !length_app. done.
Qed.

(** One past the top. *)
Lemma stack_set_above h l x j fp p self i v : i = Z.of_nat (length l) ->
  stack_set i v (mk h l (x :: j) fp p self) = Val tt (mk h l (v :: j) fp p self).
Proof.
  intros ->. unfold stack_set, set_stack, mk. cbn. rewrite length_app. cbn [length].
  destruct (Z.leb_spec 0 (Z.of_nat (length l))); [|lia].
  destruct (Z.ltb_spec (Z.of_nat (length l)) (Z.of_nat (length l + S (length j)))); [|lia]. cbn [andb].
  by rewrite Nat2Z.id, insert_at.
Qed.

Lemma set_top_down h a b j fp p self i : i = Z.of_nat (length a) ->
  set_top i (mk h (a ++ b) j fp p self) = Val tt (mk h a (b ++ j) fp p self).
Proof. intros ->. unfold set_top, mk. cbn. by rewrite <- app_assoc. Qed.

Lemma set_top_up h a b j fp p self i : i = Z.of_nat (length (a ++ b)) ->
  set_top i (mk h a (b ++ j) fp p self) = Val tt (mk h (a ++ b) j fp p self).
Proof. intros ->. unfold set_top, mk. cbn. by rewrite <- app_assoc. Qed.

Lemma stack_get_spec h l j fp p self i v : 0 <= i -> l !! Z.to_nat i = Some v ->
  stack_get i (mk h l j fp p self) = Val v (mk h l j fp p self).
Proof.
  intros Hi Hl. unfold stack_get, mk. cbn. destruct (Z.leb_spec 0 i); [|lia].
  by rewrite (lookup_app_l_Some _ _ _ _ Hl).
Qed.

Lemma stack_set_spec h l j fp p self i v : 0 <= i < Z.of_nat (length l) ->
  stack_set i v (mk h l j fp p self) = Val tt (mk h (<[Z.to_nat i := v]> l) j fp p self).
Proof.
  intros Hi. unfold stack_set, set_stack, mk. cbn. rewrite length_app.
  destruct (Z.leb_spec 0 i); [|lia]. destruct (Z.ltb_spec i (Z.of_nat (length l + length j))); [|lia]. cbn [andb].
  rewrite insert_app_l, length_insert by lia. done.
Qed.

Lemma arg_at h l a b j fp p self k : k = Z.of_nat (S (length b)) ->
  arg k (mk h (l ++ a :: b) j fp p self) = Val a (mk h (l ++ a :: b) j fp p self).
Proof.
  intros ->. unfold arg. rewrite (bind_val _ _ _ _ _ (get_top_spec _ _ _ _ _ _)).
  apply stack_get_at. rewrite length_app. cbn [length]. lia.
Qed.

Lemma set_arg_at h l a b j fp p self k v : k = Z.of_nat (S (length b)) ->
  set_arg k v (mk h (l ++ a :: b) j fp p self) = Val tt (mk h (l ++ v :: b) j fp p self).
Proof.
  intros ->. unfold set_arg. rewrite (bind_val _ _ _ _ _ (get_top_spec _ _ _ _ _ _)).
  apply stack_set_at. rewrite length_app. cbn [length]. lia.
Qed.

Lemma drop_top_spec h l b j fp p self k : k = Z.of_nat (length b) ->
  drop_top k (mk h (l ++ b) j fp p self) = Val tt (mk h l (b ++ j) fp p self).
Proof.
  intros ->. unfold drop_top. rewrite (bind_val _ _ _ _ _ (get_top_spec _ _ _ _ _ _)).
  apply set_top_down. rewrite length_app. lia.
Qed.

Lemma push_spec h l x j fp p self v : push v (mk h l (x :: j) fp p self) = Val tt (mk h (l ++ [v]) j fp p self).
Proof.
  unfold push. rewrite (bind_val _ _ _ _ _ (get_top_spec _ _ _ _ _ _)).
  rewrite (bind_val _ _ _ _ _ (stack_set_above _ _ _ _ _ _ _ _ v eq_refl)).
  change (v :: j) with ([v] ++ j). apply set_top_up. rewrite length_app. cbn [length]. lia.
Qed.

Lemma allocate_spec h l j fp p self o v h' : alloc h o = (v, h') ->
  allocate o (mk h l j fp p self) = Val v (mk h' l j fp p self).
Proof. intros E. unfold allocate. erewrite bind_val by reflexivity. cbn [v_heap mk]. rewrite E. done. Qed.

(** With a known top part of the stack these compute. *)
Lemma arg_top h l t j fp p self k v : (1 <= Z.to_nat k <= length t)%nat -> t !! (length t - Z.to_nat k)%nat = Some v ->
  arg k (mk h (l ++ t) j fp p self) = Val v (mk h (l ++ t) j fp p self).
Proof.
  intros Hk Ht. rewrite <- (take_drop_middle t _ _ Ht). rewrite app_assoc.
  apply arg_at. rewrite length_drop. lia.
Qed.

Lemma set_arg_top h l t j fp p self k v : (1 <= Z.to_nat k <= length t)%nat ->
  set_arg k v (mk h (l ++ t) j fp p self) = Val tt (mk h (l ++ <[(length t - Z.to_nat k)%nat := v]> t) j fp p self).
Proof.
  intros Hk. destruct (lookup_lt_is_Some_2 t (length t - Z.to_nat k)) as [x Hx]; [lia|].
  rewrite insert_take_drop by lia. rewrite <- (take_drop_middle t _ _ Hx) at 1. rewrite !app_assoc.
  apply set_arg_at. rewrite length_drop. lia.
Qed.

Lemma drop_top_top h l t j fp p self k : 0 <= k -> (Z.to_nat k <= length t)%nat ->
  drop_top k (mk h (l ++ t) j fp p self) =
  Val tt (mk h (l ++ take (length t - Z.to_nat k) t) (drop (length t - Z.to_nat k) t ++ j) fp p self).
Proof.
  intros H0 Hk. rewrite <- (take_drop (length t - Z.to_nat k) t) at 1. rewrite app_assoc.
  apply drop_top_spec. rewrite length_drop. lia.
Qed.

(** ** Instructions *)

Lemma from_step h l fp p self m o c h2 l2 fp2 p2 self2 Q :
  bytes_at h self p (COp o :: c) ->
  (forall j, m <= Z.of_nat (length (l ++ j)) -> exists j2,
     exec_op o (mk h l j fp (p + 1) self) = Val tt (mk h2 l2 j2 fp2 p2 self2) /\
     length (l2 ++ j2) = length (l ++ j)) ->
  from h2 l2 fp2 p2 self2 m Q -> from h l fp p self m Q.
Proof.
  intros Hb Hx HQ c0 (j & -> & Hm & Hg). destruct (Hx j Hm) as (j2 & Hop & Hlen).
  eapply reach_step.
  - cbn [Vm.step]. rewrite (bind_val _ _ _ _ _ (fetch_op_spec _ _ _ _ _ _ _ _ Hb)). rewrite Hop. reflexivity.
  - apply HQ. exists j2. by rewrite Hlen.
Qed.

End steps.

(** Executes what the lemmas above compute. *)
Ltac mspec :=
  lazymatch goal with
  | |- get_heap _ = _ => apply get_heap_spec
  | |- get_top _ = _ => apply get_top_spec
  | |- get_fp _ = _ => apply get_fp_spec
  | |- get_ip _ = _ => apply get_ip_spec
  | |- get_self _ = _ => apply get_self_spec
  | |- set_heap _ _ = _ => apply set_heap_spec
  | |- set_ip _ _ = _ => apply set_ip_spec
  | |- skip_words _ _ = _ => apply skip_words_spec
  | |- arg _ _ = _ => apply arg_top; [cbn; lia|reflexivity]
  | |- set_arg _ _ _ = _ => apply set_arg_top; cbn; lia
  | |- drop_top _ _ = _ => apply drop_top_top; cbn; lia
  | |- push _ _ = _ => apply push_spec
  | |- fetch_obj 0 _ = _ => eapply fetch_obj0_spec; eassumption
  | |- fetch_int 0 _ = _ => eapply fetch_int_spec; eassumption
  | |- allocate _ _ = _ => apply allocate_spec; eassumption
  | |- _ => first [eassumption|reflexivity]
  end.
Ltac msimpl :=
  try change (Z.to_nat 1) with 1%nat; try change (Z.to_nat 2) with 2%nat; try change (Z.to_nat 3) with 3%nat;
  cbn [length Nat.add Nat.sub list_insert insert take drop app list_lookup lookup].
Ltac mstep := erewrite bind_val; [|solve [mspec]]; msimpl.
Ltac mlast := etransitivity; [solve [mspec]|]; msimpl.
(** Arithmetic on the lengths of lists. *)
Lemma length_nil' {A} : length (@nil A) = 0%nat.
Proof. done. Qed.

Lemma length_cons' {A} (x : A) l : length (x :: l) = S (length l).
Proof. done. Qed.

Create Rewrite HintDb lens.
#[export] Hint Rewrite @length_nil' @length_cons' @length_app @length_insert @length_rev @length_replicate @length_drop @length_take @length_map : lens.
Ltac llia := msimpl; autorewrite with lens in *; lia.
