(* ===== verification/Instructions.v ===== *)
(** * Instructions

    One lemma for each instruction the compiler emits, in the form used by the
    simulation: to reach a goal from before the instruction it is enough to reach
    it from after. *)
From S2P Require Import Prelude LongLong Bignum Integers Numbers Heap Ast Codegen Vm Semantics VmSteps.
From stdpp Require Import base list option gmap.
#[local] Open Scope Z_scope.

Section instructions.
Variable foreign : string -> heap -> list sexp -> sexp * heap.
Variables pr hd : sexp.

#[local] Abbreviation from := (from foreign pr hd).
#[local] Abbreviation mk := (mk pr hd).

(** An opcode with one word after it. *)
Definition opw (o : op_name) (w : word) : list cell := COp o :: word_cells w.

Lemma room_push (l j : list sexp) m : Z.of_nat (length l) + 1 <= m -> m <= Z.of_nat (length (l ++ j)) ->
  exists x j', j = x :: j'.
Proof. rewrite length_app. destruct j as [|x j']; cbn; [lia|eauto]. Qed.

(** The first opcode of [c] and what follows it. *)
Ltac instr Hb := eapply from_step; [exact Hb|]; let j := fresh "j" in let Hj := fresh "Hj" in
  intros j Hj; apply bytes_at_cons in Hb; unfold word_cells in Hb; cbn [app] in Hb; cbn [Vm.exec_op].
Ltac pushes Hm Hj := match type of Hj with _ <= Z.of_nat (length (?l ++ ?j)) =>
  let x := fresh "x" in let j' := fresh "j" in destruct (room_push l j _ Hm Hj) as (x & j' & ->) end.
Ltac done_state :=
  match goal with |- Val tt (VmSteps.mk _ _ _ _ _ _ ?p _) = Val tt (VmSteps.mk _ _ _ _ _ _ ?q _) =>
    replace p with q by lia; reflexivity end.
Ltac running tac := eexists; split; [tac; done_state|llia].

Lemma from_push h l fp p self m v c Q :
  bytes_at h self p (opw OP_PUSH (WObj v) ++ c) -> Z.of_nat (length l) + 1 <= m ->
  from h (l ++ [v]) fp (p + 9) self m Q -> from h l fp p self m Q.
Proof. intros Hb Hm. instr Hb. pushes Hm Hj. running ltac:(do 2 mstep; mlast). Qed.

Lemma from_drop h l v fp p self m c Q :
  bytes_at h self p (COp OP_DROP :: c) ->
  from h l fp (p + 1) self m Q -> from h (l ++ [v]) fp p self m Q.
Proof. intros Hb. instr Hb. eexists. split. mlast. rewrite app_nil_r. done_state.  llia. Qed.

(** Pushing without [push]. *)
Ltac raise_top := rewrite (bind_val _ _ _ _ _ (stack_set_above _ _ _ _ _ _ _ _ _ _ _ eq_refl)).
Ltac one_up := match goal with |- set_top _ (VmSteps.mk _ _ ?h ?l (?v :: ?j) ?fp ?p ?self) = _ =>
  etransitivity; [apply (set_top_up _ _ h l [v] j fp p self); llia|] end.

Lemma from_local_ref h l fp p self m k v c Q :
  bytes_at h self p (opw OP_LOCAL_REF (WInt k) ++ c) -> Z.of_nat (length l) + 1 <= m ->
  0 <= fp - 1 - k -> l !! Z.to_nat (fp - 1 - k) = Some v ->
  from h (l ++ [v]) fp (p + 9) self m Q -> from h l fp p self m Q.
Proof.
  intros Hb Hm H0 Hl. instr Hb. pushes Hm Hj. running ltac:(unfold op_local_ref; do 3 mstep;
    rewrite (bind_val _ _ _ _ _ (stack_get_spec _ _ _ _ _ _ _ _ _ _ H0 Hl)); raise_top; mstep; one_up).
Qed.

Lemma from_stack_ref h l t fp p self m k v c Q :
  bytes_at h self p (opw OP_STACK_REF (WInt k) ++ c) -> Z.of_nat (length (l ++ t)) + 1 <= m ->
  (1 <= Z.to_nat k <= length t)%nat -> t !! (length t - Z.to_nat k)%nat = Some v ->
  from h (l ++ t ++ [v]) fp (p + 9) self m Q -> from h (l ++ t) fp p self m Q.
Proof.
  rewrite (app_assoc l t [v]). intros Hb Hm Hk Hl. instr Hb. pushes Hm Hj.
  assert ((l ++ t) !! Z.to_nat (Z.of_nat (length (l ++ t)) - k) = Some v) as Hget.
  { rewrite lookup_app_r by llia. rewrite <- Hl. f_equal. llia. }
  assert (0 <= Z.of_nat (length (l ++ t)) - k) as H0 by llia.
  running ltac:(unfold op_stack_ref; do 2 mstep;
    rewrite (bind_val _ _ _ _ _ (stack_get_spec _ _ _ _ _ _ _ _ _ _ H0 Hget)); raise_top; mstep; one_up).
Qed.

Lemma from_local_set h l fp p self m k v c Q :
  bytes_at h self p (opw OP_LOCAL_SET (WInt k) ++ c) -> 0 <= fp - 1 - k < Z.of_nat (length l) ->
  from h (<[Z.to_nat (fp - 1 - k) := v]> l) fp (p + 9) self m Q -> from h (l ++ [v]) fp p self m Q.
Proof.
  intros Hb H0. instr Hb. eexists. split; [unfold op_local_set; do 4 mstep; rewrite app_nil_r;
    rewrite (bind_val _ _ _ _ _ (stack_set_spec _ _ _ _ _ _ _ _ _ v H0)); mlast; done_state|llia].
Qed.

(** The captured variables of the procedure that runs. *)
Definition self_vars (h : heap) (self vars : sexp) : Prop :=
  exists l fl n c, self = Ptr l /\ h !! l = Some (Procedure fl n c vars).

Lemma procedure_of_spec h l j fp p self v fl n c vars : deref h v = Some (Procedure fl n c vars) ->
  procedure_of v (mk h l j fp p self) = Val (fl, n, c, vars) (mk h l j fp p self).
Proof. intros E. unfold procedure_of. mstep. by rewrite E. Qed.

Lemma get_cdr_spec h l j fp p self v d : sexp_cdr h v = Some d -> get_cdr v (mk h l j fp p self) = Val d (mk h l j fp p self).
Proof. intros E. unfold get_cdr. mstep. by rewrite E. Qed.

Lemma from_closure_ref h l fp p self m k vars v c Q :
  bytes_at h self p (opw OP_CLOSURE_REF (WInt (Z.of_nat k)) ++ c) -> Z.of_nat (length l) + 1 <= m ->
  self_vars h self vars -> vector_ref h vars k = Some v ->
  from h (l ++ [v]) fp (p + 9) self m Q -> from h l fp p self m Q.
Proof.
  intros Hb Hm (lp & fl & n & bc & -> & Hp) Hv. unfold vector_ref in Hv.
  destruct (deref h vars) as [[|data imm| | | | | | | |]|] eqn:Ev; try done.
  instr Hb. pushes Hm Hj. running ltac:(unfold op_closure_ref; do 2 mstep;
    rewrite (bind_val _ _ _ _ _ (procedure_of_spec _ _ _ _ _ _ (Ptr lp) _ _ _ _ Hp)); mstep;
    rewrite Ev; rewrite (proj2 (Z.leb_le _ _)) by lia; rewrite Nat2Z.id, Hv; do 2 mstep; mlast).
Qed.

Lemma from_global h l fp p self m o cell v c Q :
  o = OP_GLOBAL_REF \/ o = OP_GLOBAL_KNOWN_REF ->
  bytes_at h self p (opw o (WObj cell) ++ c) -> Z.of_nat (length l) + 1 <= m ->
  sexp_cdr h cell = Some v -> v <> SEXP_UNDEF ->
  from h (l ++ [v]) fp (p + 9) self m Q -> from h l fp p self m Q.
Proof.
  intros Ho Hb Hm Hv Hu.
  assert (forall j s', op_global_known_ref (mk h l j fp (p + 1) self) = s' -> exec_op foreign o (mk h l j fp (p + 1) self) = s') as Ek.
  { intros j s' <-. destruct Ho as [-> | ->]; [|done]. cbn [Vm.exec_op]. unfold op_global_ref.
    apply bytes_at_cons in Hb. unfold word_cells in Hb. cbn [app] in Hb.
    mstep. rewrite (bind_val _ _ _ _ _ (get_cdr_spec _ _ _ _ _ _ _ _ Hv)). by rewrite bool_decide_eq_false_2. }
  instr Hb. pushes Hm Hj. eexists. split; [apply Ek; unfold op_global_known_ref; mstep;
    rewrite (bind_val _ _ _ _ _ (get_cdr_spec _ _ _ _ _ _ _ _ Hv)); mstep; mlast; done_state|llia].
Qed.

Lemma from_jump h l fp p self m d c Q :
  bytes_at h self p (opw OP_JUMP (WInt d) ++ c) ->
  from h l fp (p + 1 + d) self m Q -> from h l fp p self m Q.
Proof. intros Hb. instr Hb. running ltac:(unfold op_jump; do 2 mstep; mlast). Qed.

Lemma from_jump_unless h l v fp p self m d c Q :
  bytes_at h self p (opw OP_JUMP_UNLESS (WInt d) ++ c) ->
  from h l fp (if sexp_not v then p + 1 + d else p + 9) self m Q -> from h (l ++ [v]) fp p self m Q.
Proof.
  intros Hb. instr Hb. exists ([v] ++ j). split; [|llia]. unfold op_jump_unless. do 3 mstep. rewrite app_nil_r.
  destruct (sexp_not v); [mstep|]; mlast; done_state.
Qed.

(** ** Primitives *)

Ltac finish_prim := eexists; split; [mlast; rewrite ?app_nil_r; reflexivity|reflexivity].

Lemma exec_vector_ref h v i x l j fp p self : 0 <= i -> vector_ref h v (Z.to_nat i) = Some x ->
  op_vector_ref (mk h (l ++ [Fixnum i; v]) j fp p self) = Val tt (mk h (l ++ [x]) (v :: j) fp p self).
Proof.
  intros Hi Hx. unfold vector_ref in Hx. destruct (deref h v) as [[|data im| | | | | | | |]|] eqn:Ev; try done.
  pose proof (lookup_lt_Some _ _ _ Hx) as Hlt.
  unfold op_vector_ref. do 3 mstep. rewrite Ev. unfold check_index.
  rewrite (proj2 (Z.leb_le _ _)), (proj2 (Z.ltb_lt _ _)) by lia. cbn [andb]. rewrite Hx. do 2 mstep. mlast. done.
Qed.

Lemma exec_vector_set h lv i x data l j fp p self : h !! lv = Some (Vector data false) ->
  0 <= i < Z.of_nat (length data) ->
  op_vector_set (mk h (l ++ [x; Fixnum i; Ptr lv]) j fp p self) =
  Val tt (mk (<[lv := Vector (<[Z.to_nat i := x]> data) false]> h) l (x :: Fixnum i :: Ptr lv :: j) fp p self).
Proof.
  intros Ev Hi. unfold op_vector_set. do 3 mstep. cbn [deref]. rewrite Ev. unfold check_index.
  rewrite (proj2 (Z.leb_le _ _)), (proj2 (Z.ltb_lt _ _)) by lia. cbn [andb]. do 2 mstep. mlast.
  by rewrite app_nil_r.
Qed.

Lemma exec_pairp h v l j fp p self :
  pairp v (mk h l j fp p self) = Val (sexp_pairp h v) (mk h l j fp p self).
Proof. done. Qed.

Lemma sexp_car_deref h v x : sexp_car h v = Some x -> sexp_pairp h v = true.
Proof. unfold sexp_car, sexp_pairp. by destruct (deref h v) as [[]|]. Qed.

Lemma get_car_spec h l j fp p self v d : sexp_car h v = Some d -> get_car v (mk h l j fp p self) = Val d (mk h l j fp p self).
Proof. intros E. unfold get_car. mstep. by rewrite E. Qed.

Lemma assign_spec h a x h2 : assign h a x = Some h2 ->
  exists la c d, a = Ptr la /\ h !! la = Some (Pair c d false) /\ h2 = <[la := Pair c x false]> h.
Proof.
  unfold assign. destruct a as [| | | | | | | | | | | |la]; try done. cbn.
  destruct (h !! la) as [[c d []| | | | | | | | |]|] eqn:E; try done. intros [= <-]. eauto 6.
Qed.

Lemma exec_set_cdr h a x h2 l j fp p self : assign h a x = Some h2 ->
  op_set_cdr (mk h (l ++ [x; a]) j fp p self) = Val tt (mk h2 l (x :: a :: j) fp p self).
Proof.
  intros (la & c & d & -> & E & ->)%assign_spec. unfold op_set_cdr. do 2 mstep. cbn [deref]. rewrite E.
  do 2 mstep. mlast. by rewrite app_nil_r.
Qed.

Lemma exec_prim o h vs r h2 l j fp p self :
  prim o h vs = Some (r, h2) ->
  exists j2, exec_op foreign o (mk h (l ++ rev vs) j fp p self) = Val tt (mk h2 (l ++ option_list r) j2 fp p self) /\
             length (option_list r ++ j2) = length (rev vs ++ j).
Proof.
  intros H.
  destruct o; try done; destruct vs as [|a [|b [|c [|]]]]; try done; cbn [rev app] in *; cbn [prim] in H; cbn [exec_op].
  all: try (destruct b; done).
  - destruct b as [i| | | | | | | | | | | |]; try done. destruct (Z.leb_spec 0 i); [|done].
    destruct (vector_ref h a (Z.to_nat i)) as [x|] eqn:E; [|done]. injection H as <- <-.
    rewrite (exec_vector_ref _ _ _ _ _ _ _ _ _ H0 E). by eexists.
  - destruct b as [i| | | | | | | | | | | |]; try done.
    destruct a as [| | | | | | | | | | | |lv]; try done. cbn [deref] in H.
    destruct (h !! lv) as [[|data []| | | | | | | |]|] eqn:E; try done.
    destruct (Z.leb_spec 0 i), (Z.ltb_spec i (Z.of_nat (length data))); try done. injection H as <- <-.
    rewrite (exec_vector_set _ _ _ _ _ _ _ _ _ _ E) by done. rewrite app_nil_r. by eexists.
  - destruct (deref h a) as [[|data im| | | | | | | |]|] eqn:E; try done. injection H as <- <-.
    unfold op_vector_length. do 2 mstep. rewrite E. finish_prim.
  - injection H as <- <-. unfold op_predicate. mstep. finish_prim.
  - injection H as <- <-. unfold op_predicate. mstep. finish_prim.
  - injection H as <- <-. unfold op_predicate. mstep. finish_prim.
  - destruct (sexp_car h a) as [x|] eqn:E; [|done]. injection H as <- <-. unfold op_car. mstep.
    rewrite (bind_val _ _ _ _ _ (exec_pairp _ _ _ _ _ _ _)), (sexp_car_deref _ _ _ E).
    rewrite (bind_val _ _ _ _ _ (get_car_spec _ _ _ _ _ _ _ _ E)). finish_prim.
  - destruct (sexp_cdr h a) as [x|] eqn:E; [|done]. injection H as <- <-. unfold op_cdr. mstep.
    rewrite (bind_val _ _ _ _ _ (exec_pairp _ _ _ _ _ _ _)), (proj2 (cdr_pairp _ _) (ex_intro _ _ E)).
    rewrite (bind_val _ _ _ _ _ (get_cdr_spec _ _ _ _ _ _ _ _ E)). finish_prim.
  - destruct a as [| | | | | | | | | | | |la]; try done. cbn [deref] in H.
    destruct (h !! la) as [[c d []| | | | | | | | |]|] eqn:E; try done. injection H as <- <-.
    unfold op_set_car. do 2 mstep. cbn [deref]. rewrite E. do 2 mstep. finish_prim.
  - destruct (assign h a b) as [h'|] eqn:E; [|done]. injection H as <- <-.
    rewrite (exec_set_cdr _ _ _ _ _ _ _ _ _ E), app_nil_r. by eexists.
  - destruct (alloc h (Pair a b false)) as [q h'] eqn:E. injection H as <- <-.
    unfold op_cons. do 4 mstep. finish_prim.
  - injection H as <- <-. unfold op_eq. do 3 mstep. finish_prim.
Qed.

Lemma from_prim o h vs r h2 l fp p self m c Q :
  bytes_at h self p (COp o :: c) -> prim o h vs = Some (r, h2) ->
  from h2 (l ++ option_list r) fp (p + 1) self m Q -> from h (l ++ rev vs) fp p self m Q.
Proof.
  intros Hb Hp. eapply from_step; [exact Hb|]. intros j Hj.
  destruct (exec_prim o h vs r h2 l j fp (p + 1) self Hp) as (j2 & Hx & Hlen).
  exists j2. split; [exact Hx|]. rewrite <- !app_assoc, !(length_app l). lia.
Qed.

(** ** Arithmetic, comparison and closures *)

Lemma fixnum_op_spec o x y r : fixnum_op o x y = Some r ->
  exists f g, exec_op foreign o = op_arith f g /\ f x y = r /\ in_fixnum_range r = true.
Proof.
  intros Hf. assert (forall a, (if (SEXP_MIN_FIXNUM <=? a) && (a <=? SEXP_MAX_FIXNUM) then Some a else None) = Some r ->
    a = r /\ in_fixnum_range r = true) as Hr.
  { intros a. unfold in_fixnum_range. destruct (Z.leb_spec SEXP_MIN_FIXNUM a), (Z.leb_spec a SEXP_MAX_FIXNUM); try done.
    intros [= <-]. rewrite Z.gtb_ltb, !(proj2 (Z.ltb_ge _ _)) by lia. done. }
  unfold fixnum_op in Hf. destruct o; try done; cbn in Hf; apply Hr in Hf as [<- Hf];
    [exists Z.add, sexp_add | exists Z.sub, sexp_sub | exists Z.mul, sexp_mul]; done.
Qed.

Lemma from_fixnum h l x y r o fp p self m c Q :
  bytes_at h self p (COp o :: c) -> fixnum_op o x y = Some r ->
  from h (l ++ [Fixnum r]) fp (p + 1) self m Q -> from h (l ++ [Fixnum y; Fixnum x]) fp p self m Q.
Proof.
  intros Hb (f & g & Hx & <- & Hr)%fixnum_op_spec. instr Hb. exists (Fixnum x :: j). split; [|llia].
  rewrite Hx. unfold op_arith. do 3 mstep. rewrite Hr. mlast. done.
Qed.

Lemma from_compare h l x y t o fp p self m c Q :
  bytes_at h self p (COp o :: c) -> fixnum_test o = Some t ->
  from h (l ++ [sexp_make_boolean (t x y)]) fp (p + 1) self m Q -> from h (l ++ [Fixnum y; Fixnum x]) fp p self m Q.
Proof.
  intros Hb Ht. instr Hb. exists (Fixnum x :: j). split; [|llia].
  destruct o; try done; injection Ht as <-; cbn [exec_op]; unfold op_compare; do 3 mstep; mlast; done.
Qed.

Lemma from_and h l a b fp p self m c Q :
  bytes_at h self p (COp OP_AND :: c) ->
  from h (l ++ [sexp_make_boolean (sexp_truep a && sexp_truep b)]) fp (p + 1) self m Q -> from h (l ++ [b; a]) fp p self m Q.
Proof.
  intros Hb. instr Hb. exists (a :: j). split; [|llia]. unfold op_and. do 3 mstep. mlast. done.
Qed.

Lemma from_make_vector h l n dflt v h2 fp p self m c Q :
  bytes_at h self p (COp OP_MAKE_VECTOR :: c) -> 0 < n <= SEXP_MAX_VECTOR_LENGTH ->
  alloc h (Vector (replicate (Z.to_nat n) dflt) false) = (v, h2) ->
  from h2 (l ++ [v]) fp (p + 1) self m Q -> from h (l ++ [dflt; Fixnum n]) fp p self m Q.
Proof.
  intros Hb Hn Ha. instr Hb. exists (Fixnum n :: j). split; [|llia]. unfold op_make_vector. mstep.
  rewrite (proj2 (Z.ltb_ge _ _)), Z.gtb_ltb, (proj2 (Z.ltb_ge _ _)) by lia. do 2 mstep.
  unfold sexp_make_vector. rewrite (proj2 (Z.eqb_neq _ _)) by lia. rewrite Ha. do 2 mstep. mlast. done.
Qed.

Lemma from_make_procedure h l vars flags n bc v h2 fp p self m c Q :
  bytes_at h self p (COp OP_MAKE_PROCEDURE :: word_cells (WObj (Fixnum flags)) ++ word_cells (WObj (Fixnum n)) ++
                     word_cells (WObj bc) ++ c) ->
  alloc h (Procedure flags n bc vars) = (v, h2) ->
  from h2 (l ++ [v]) fp (p + 25) self m Q -> from h (l ++ [vars]) fp p self m Q.
Proof.
  intros Hb Ha. pose proof Hb as Hb1. pose proof Hb as Hb2. pose proof (bytes_at_nonneg _ _ _ _ Hb) as Hp.
  apply (bytes_at_app _ _ _ (COp OP_MAKE_PROCEDURE :: word_cells (WObj (Fixnum flags)))) in Hb1 as [_ Hb1].
  apply (bytes_at_app _ _ _ (COp OP_MAKE_PROCEDURE :: word_cells (WObj (Fixnum flags)) ++ word_cells (WObj (Fixnum n)))) in Hb2 as [_ Hb2].
  instr Hb. exists j. split; [|llia]. unfold op_make_procedure.
  mstep. cbn [unbox]. mstep.
  erewrite bind_val; [|eapply fetch_obj_spec; [|lia]]; [|match type of Hb1 with bytes_at _ _ ?q _ => replace (p + 1 + 8 * 1) with q by (cbn; lia) end; exact Hb1].
  cbn [unbox]. mstep.
  erewrite bind_val; [|eapply fetch_obj_spec; [|lia]]; [|match type of Hb2 with bytes_at _ _ ?q _ => replace (p + 1 + 8 * 2) with q by (cbn; lia) end; exact Hb2].
  do 3 mstep. mlast. done_state.
Qed.

End instructions.
