(* ===== verification/Calls.v ===== *)
(** * Calls

    The calling convention of the machine: a call binds the arguments as
    [bind_args] says, makes room and pushes a frame; a return leaves the value
    in place of the arguments; a tail call replaces the frame. *)
From S2P Require Import Prelude LongLong Bignum Integers Numbers Heap Ast Codegen Vm Semantics VmSteps Instructions.
From stdpp Require Import base list option gmap.
#[local] Open Scope Z_scope.

Section calls.
Variable foreign : string -> heap -> list sexp -> sexp * heap.
Variables pr hd : sexp.

#[local] Abbreviation from := (from foreign pr hd).
#[local] Abbreviation mk := (mk pr hd).
#[local] Abbreviation reach := (reach foreign).

(** ** The array under the registers *)

Definition raw (h : heap) (st : list sexp) (t fp ip : Z) (self : sexp) : vm := Vm h st t fp ip self pr hd.

Lemma raw_get h a v b t fp p self i : i = Z.of_nat (length a) ->
  stack_get i (raw h (a ++ v :: b) t fp p self) = Val v (raw h (a ++ v :: b) t fp p self).
Proof.
  intros ->. unfold stack_get, raw. cbn. rewrite (proj2 (Z.leb_le _ _)) by lia.
  by rewrite Nat2Z.id, lookup_app_r, Nat.sub_diag by lia.
Qed.

Lemma raw_set h a x b t fp p self i v : i = Z.of_nat (length a) ->
  stack_set i v (raw h (a ++ x :: b) t fp p self) = Val tt (raw h (a ++ v :: b) t fp p self).
Proof.
  intros ->. unfold stack_set, set_stack, raw. cbn.
  rewrite (proj2 (Z.leb_le _ _)), (proj2 (Z.ltb_lt _ _)) by (rewrite ?length_app; cbn [length]; lia). cbn [andb].
  by rewrite Nat2Z.id, insert_at.
Qed.

Lemma count_up_ext f g n : (forall k, f k = g k) -> forall k s, count_up f n k s = count_up g n k s.
Proof.
  intros E. induction n as [|n IH]; intros k s; cbn; [done|]. rewrite E. unfold mbind, M_bind.
  by destruct (g k s).
Qed.

(** Copying a block of words downwards, lowest first, by a fixed distance. *)
Lemma move_down h t fp p self a b xs : forall pre gap k tail,
  a + k = Z.of_nat (length pre + length gap) -> b + k = Z.of_nat (length pre) ->
  exists gap', length gap' = length gap /\
  count_up (fun k => v ← stack_get (a + k); stack_set (b + k) v) (length xs) k
    (raw h (pre ++ gap ++ xs ++ tail) t fp p self) = Val tt (raw h (pre ++ xs ++ gap' ++ tail) t fp p self).
Proof.
  induction xs as [|x xs IH]; intros pre gap k tail Ha Hb; cbn [length count_up].
  - exists gap. split; [done|]. done.
  - assert (exists g gap1, gap ++ [x] = g :: gap1 /\ length gap1 = length gap) as (g & gap1 & Hg & Hlen).
    { destruct gap as [|g gap]; cbn; [by exists x, []|]. exists g, (gap ++ [x]). split; [done|]. rewrite length_app. cbn. lia. }
    destruct (IH (pre ++ [x]) gap1 (k + 1) tail) as (gap' & Hl' & Hrun); [llia|llia|].
    exists gap'. split; [lia|].
    replace (pre ++ gap ++ (x :: xs) ++ tail) with (pre ++ g :: gap1 ++ xs ++ tail) at 1
      by (rewrite (app_comm_cons gap1), <- Hg, <- !app_assoc; done).
    erewrite bind_val.
    2: { replace (pre ++ g :: gap1 ++ xs ++ tail) with ((pre ++ gap) ++ x :: xs ++ tail)
           by (rewrite (app_comm_cons gap1), <- Hg, <- !app_assoc; done).
         erewrite bind_val; [|apply raw_get; llia].
         replace ((pre ++ gap) ++ x :: xs ++ tail) with (pre ++ g :: gap1 ++ xs ++ tail)
           by (rewrite (app_comm_cons gap1), <- Hg, <- !app_assoc; done).
         apply raw_set. lia. }
    rewrite <- !app_assoc in Hrun. exact Hrun.
Qed.

(** Moving a block up by one word, highest first. *)
Lemma move_up h t fp p self pre xs : forall y tail k,
  k = Z.of_nat (length pre + length xs) ->
  exists z, count_down (fun k => v ← stack_get (k - 1); stack_set k v) (length xs) k
    (raw h (pre ++ xs ++ y :: tail) t fp p self) = Val tt (raw h (pre ++ z :: xs ++ tail) t fp p self).
Proof.
  induction xs as [|x xs IH] using rev_ind; intros y tail k Hk; [by exists y|].
  rewrite length_app, Nat.add_comm. cbn [length Nat.add count_down].
  destruct (IH x (x :: tail) (k - 1)) as [z Hz]; [llia|]. exists z.
  erewrite bind_val.
  2: { rewrite <- (app_assoc xs). rewrite (app_assoc pre). erewrite bind_val; [|apply raw_get; llia].
       cbn [app]. rewrite <- (app_assoc pre). rewrite (app_assoc pre), (cons_middle x), (app_assoc _ [x]).
       apply raw_set. llia. }
  rewrite <- !app_assoc in *. cbn [app] in *. exact Hz.
Qed.

(** Equality of two machine states, once the end of the stack is set. *)
Ltac same_state := unfold set_top, raw, VmSteps.mk; cbn; f_equal; f_equal; [by list_simplifier|llia].

(** ** Rest arguments *)

Definition push_pair (acc : sexp * heap) (v : sexp) : sexp * heap := alloc acc.2 (Pair v acc.1 false).

Lemma cons_list_rev h xs : cons_list h (rev xs) = fold_left push_pair xs (SEXP_NULL, h).
Proof.
  rewrite <- fold_left_rev_right. induction (rev xs) as [|x ys IH]; cbn; [done|].
  rewrite IH. unfold push_pair at 2. by destruct (fold_right _ _ _) as [d h'].
Qed.

Lemma allocate_raw h st t fp p self o v h' : alloc h o = (v, h') ->
  allocate o (raw h st t fp p self) = Val v (raw h' st t fp p self).
Proof. intros E. unfold allocate. erewrite bind_val by reflexivity. cbn [v_heap raw]. rewrite E. done. Qed.

Lemma collect_loop t fp p self slot base xs : forall mid lst tail k h,
  slot = Z.of_nat (length base) -> k = Z.of_nat (length base + 1 + length mid) ->
  count_up (fun k =>
    v ← stack_get k; l ← stack_get slot;
    l ← allocate (Pair v l false);
    stack_set slot l) (length xs) k (raw h (base ++ lst :: mid ++ xs ++ tail) t fp p self) =
  Val tt (raw (fold_left push_pair xs (lst, h)).2 (base ++ (fold_left push_pair xs (lst, h)).1 :: mid ++ xs ++ tail) t fp p self).
Proof.
  induction xs as [|x xs IH]; intros mid lst tail k h Hs Hk; cbn [length count_up fold_left]; [done|].
  unfold push_pair at 2 4. cbn [fst snd].
  destruct (alloc h (Pair x lst false)) as [l' h'] eqn:Ea. erewrite bind_val.
  2: { rewrite (app_comm_cons mid _ lst), (app_assoc base). cbn [app]. erewrite bind_val; [|apply raw_get; llia].
       rewrite <- app_assoc. cbn [app]. erewrite bind_val; [|by apply raw_get].
       erewrite bind_val; [|by apply allocate_raw].
       by apply raw_set. }
  specialize (IH (mid ++ [x]) l' tail (k + 1) h' Hs ltac:(llia)). rewrite <- !app_assoc in IH. exact IH.
Qed.

Lemma raw_mk h l j fp p self t : t = Z.of_nat (length l) -> raw h (l ++ j) t fp p self = mk h l j fp p self.
Proof. by intros ->. Qed.

(** [i] arguments [ks ++ extra] with at least one extra. *)
Lemma collect_rest_spec h base ks extra proc j fp p self : (1 <= length extra)%nat ->
  exists j', collect_rest (Z.of_nat (length (ks ++ extra))) (Z.of_nat (length extra))
      (mk h (base ++ rev (ks ++ extra) ++ [proc]) j fp p self) =
    Val tt (mk (cons_list h extra).2 (base ++ rev (ks ++ [(cons_list h extra).1]) ++ [proc]) j' fp p self) /\
    length (base ++ rev (ks ++ [(cons_list h extra).1]) ++ [proc] ++ j') = length (base ++ rev (ks ++ extra) ++ [proc] ++ j).
Proof.
  intros He. destruct (rev extra) as [|x0 xs] eqn:Ee.
  { apply (f_equal length) in Ee. rewrite length_rev in Ee. cbn in Ee. lia. }
  assert (extra = rev (x0 :: xs)) as -> by (by rewrite <- Ee, rev_involutive). clear Ee He.
  rewrite cons_list_rev. cbn [fold_left]. unfold push_pair at 2 4 6. cbn [fst snd].
  destruct (alloc h (Pair x0 SEXP_NULL false)) as [l1 h1] eqn:Ea1.
  destruct (fold_left push_pair xs (l1, h1)) as [lst h'] eqn:Ef. cbn [fst snd].
  assert (length (rev (x0 :: xs)) = S (length xs)) as Hlx by (by rewrite length_rev).
  assert (length (ks ++ rev (x0 :: xs)) = length ks + S (length xs))%nat as Hlk by (by rewrite length_app, Hlx).
  remember (Z.of_nat (length (base ++ rev (ks ++ rev (x0 :: xs)) ++ [proc]))) as top eqn:Et.
  assert (top = Z.of_nat (length base + length ks + length xs + 2)) as Ht
    by (rewrite Et, !length_app, length_rev, Hlk; cbn; lia).
  rewrite Hlk, Hlx.
  destruct (move_down h' top fp p self 0 (1 - Z.of_nat (S (length xs))) (rev ks ++ [proc]) (base ++ [lst]) xs
              (top - Z.of_nat (length ks) - 1) j) as (gap' & Hg & Hmv); [llia|llia|].
  exists (gap' ++ j). split.
  2: { rewrite !rev_app_distr, rev_involutive. cbn [rev app]. llia. }
  unfold collect_rest. mstep. rewrite <- Et.
  rewrite !rev_app_distr, rev_involutive. change (rev [lst]) with [lst].
  erewrite bind_val; [|rewrite <- (raw_mk _ _ _ _ _ _ top) by (by rewrite Et, !rev_app_distr, rev_involutive);
    rewrite <- !app_assoc; apply raw_get; lia].
  erewrite bind_val; [|by apply allocate_raw].
  erewrite bind_val; [|apply raw_set; lia].
  erewrite bind_val.
  2: { replace (Z.to_nat (Z.of_nat (S (length xs)) - 1)) with (length xs) by lia.
       apply (collect_loop _ _ _ _ _ _ xs []); cbn; lia. }
  rewrite Ef. cbn [fst snd app].
  erewrite bind_val.
  2: { replace (Z.to_nat (Z.of_nat (length ks + S (length xs)) - Z.of_nat (S (length xs)) + 1)) with (length (rev ks ++ [proc])) by llia.
       replace (top - (Z.of_nat (length ks + S (length xs)) - Z.of_nat (S (length xs))) - 1) with (top - Z.of_nat (length ks) - 1) by lia.
       rewrite <- !app_assoc in Hmv. cbn [app] in Hmv. rewrite <- Hmv. apply count_up_ext. intros k.
       by replace (k - Z.of_nat (S (length xs)) + 1) with (1 - Z.of_nat (S (length xs)) + k) by lia. }
  same_state.
Qed.

(** No extra argument. *)
Lemma insert_null_spec h base vs proc x j fp p self :
  insert_null (Z.of_nat (length vs)) (mk h (base ++ rev vs ++ [proc]) (x :: j) fp p self) =
  Val tt (mk h (base ++ rev (vs ++ [SEXP_NULL]) ++ [proc]) j fp p self).
Proof.
  set (top := Z.of_nat (length (base ++ rev vs ++ [proc]))).
  destruct (move_up h top fp p self base (rev vs ++ [proc]) x j top) as [z Hz]; [subst top; llia|].
  unfold insert_null. mstep. fold top.
  erewrite bind_val.
  2: { replace (Z.to_nat (Z.of_nat (length vs) + 1)) with (length (rev vs ++ [proc])) by llia.
       rewrite <- !app_assoc in Hz. rewrite <- (raw_mk _ _ _ _ _ _ top eq_refl), <- !app_assoc. exact Hz. }
  erewrite bind_val; [|apply raw_set; subst top; llia].
  rewrite rev_app_distr. subst top. same_state.
Qed.

(** ** Room *)

Definition oos (s : vm) : Prop :=
  result_of s = Returned (Ptr G_OOS_ERROR)
    (Vm (v_heap s) (v_stack s) (v_top s - 1) (v_fp s) (v_ip s) (v_self s) (v_params s) (v_handler s)).

Lemma good_size_double n : good_size n -> n <> SEXP_MAX_STACK_SIZE ->
  good_size (Z.min (2 * n) SEXP_MAX_STACK_SIZE) /\ n < Z.min (2 * n) SEXP_MAX_STACK_SIZE /\
  n + 1024 < 2 * n + 1 /\ n + 1024 < SEXP_MAX_STACK_SIZE.
Proof.
  unfold good_size, SEXP_MAX_STACK_SIZE, SEXP_INIT_STACK_SIZE. intros [->|(k & Hk & ->)] Hn; [lia|].
  assert (2 ^ 0 <= 2 ^ Z.of_nat k <= 2 ^ 9) by (split; apply Z.pow_le_mono_r; lia).
  split_and!; [|lia..]. destruct (decide (k = 9%nat)) as [->|Hk9]; [left; cbn; lia|].
  assert (2 ^ Z.of_nat k <= 2 ^ 8) by (apply Z.pow_le_mono_r; lia).
  right. exists (S k). split; [lia|]. rewrite Nat2Z.inj_succ, Z.pow_succ_r by lia. lia.
Qed.

(** Room for [n] more words, found or made. *)
Lemma ensure_stack_room h l j fp p self n :
  let size := Z.of_nat (length (l ++ j)) in
  good_size size -> 0 <= n <= 1024 -> Z.of_nat (length l) + 2 <= size ->
  size <> SEXP_MAX_STACK_SIZE \/ Z.of_nat (length l) + n < size ->
  exists j', sexp_ensure_stack n (mk h l j fp p self) = Val tt (mk h l j' fp p self) /\
    let size' := Z.of_nat (length (l ++ j')) in
    good_size size' /\ size <= size' /\ Z.of_nat (length l) + n < size'.
Proof.
  intros size Hg Hn Hl Hmax. unfold sexp_ensure_stack. cbn [v_top v_stack VmSteps.mk]. fold size.
  destruct (Z.geb_spec (Z.of_nat (length l) + n) size) as [Hge|Hlt].
  2: { exists j. split; [done|]. fold size. split_and!; [done|lia|lia]. }
  assert (size <> SEXP_MAX_STACK_SIZE) as Hmax' by (destruct Hmax; [done|lia]).
  unfold mbind at 1, M_bind at 1, sexp_grow_stack. cbn [v_top v_stack VmSteps.mk]. fold size.
  pose proof (good_size_bounds _ Hg) as Hb. destruct (good_size_double size Hg Hmax') as (Hg2 & H1 & H2 & H3).
  set (new := Z.min (2 * size) SEXP_MAX_STACK_SIZE) in *.
  assert ((2 * size <? n) = false) as -> by lia. rewrite (proj2 (Z.eqb_neq _ _) Hmax'), andb_false_r.
  replace (if 2 * size >? SEXP_MAX_STACK_SIZE then SEXP_MAX_STACK_SIZE else 2 * size) with new
    by (subst new; destruct (Z.gtb_spec (2 * size) SEXP_MAX_STACK_SIZE); lia).
  rewrite !(proj2 (Z.leb_le _ _)) by lia. cbn [andb].
  set (st' := take _ _ ++ _). exists (drop (length l) st').
  assert (take (length l) st' = l) as Ht.
  { subst st'. rewrite take_app_le by (rewrite length_take; llia). rewrite take_take.
    rewrite Nat.min_l by lia. apply take_app_length. }
  assert (length st' = Z.to_nat new) as Hlen by (subst st'; rewrite length_app, length_take, length_replicate; lia).
  assert (l ++ drop (length l) st' = st') as Hst by (rewrite <- Ht at 1; apply take_drop).
  rewrite Hst. split; [|rewrite Hlen; split_and!; [by rewrite Z2Nat.id by lia|lia|lia]].
  unfold VmSteps.mk. rewrite Hst. done.
Qed.

Lemma ensure_stack_spec h l x j fp p self n :
  let size := Z.of_nat (length ((l ++ [x]) ++ j)) in
  good_size size -> 0 <= n <= 1024 -> Z.of_nat (length l) + 3 <= size ->
  (exists j', sexp_ensure_stack n (mk h (l ++ [x]) j fp p self) = Val tt (mk h (l ++ [x]) j' fp p self) /\
     let size' := Z.of_nat (length ((l ++ [x]) ++ j')) in
     good_size size' /\ size <= size' /\ Z.of_nat (length l) + 1 + n < size') \/
  (exists s, sexp_ensure_stack n (mk h (l ++ [x]) j fp p self) = End s /\ oos s).
Proof.
  intros size Hg Hn Hl. assert (Z.of_nat (length (l ++ [x])) = Z.of_nat (length l) + 1) as Hl1 by llia.
  destruct (decide (size <> SEXP_MAX_STACK_SIZE \/ Z.of_nat (length l) + 1 + n < size)) as [Hr|Hr].
  { left. rewrite <- Hl1. apply ensure_stack_room; rewrite ?Hl1; fold size; [done|done|lia|done]. }
  right. unfold sexp_ensure_stack. cbn [v_top v_stack VmSteps.mk]. fold size. rewrite Hl1.
  destruct (Z.geb_spec (Z.of_nat (length l) + 1 + n) size) as [Hge|Hlt]; [|lia].
  assert (size = SEXP_MAX_STACK_SIZE) as Hmax by lia.
  unfold mbind at 1, M_bind at 1, sexp_grow_stack. cbn [v_top v_stack VmSteps.mk]. fold size. rewrite Hl1.
  rewrite (proj2 (Z.ltb_ge _ _)), (proj2 (Z.eqb_eq _ _)), (proj2 (Z.gtb_lt _ _)) by (unfold SEXP_MAX_STACK_SIZE in *; lia).
  cbn [andb]. eexists. split.
  - rewrite (bind_val _ _ _ _ _ (set_arg_at _ _ h l x [] j fp p self 1 (Ptr G_OOS_ERROR) eq_refl)). reflexivity.
  - unfold oos, result_of. do 2 mstep. rewrite app_nil_r. unfold mret, M_ret, VmSteps.mk. cbn. rewrite <- app_assoc. cbn.
    do 2 f_equal. llia.
Qed.

(** ** Entering a procedure *)

Lemma bind_end {A B} (m : M A) (f : A -> M B) s s' : m s = End s' -> (m ≫= f) s = End s'.
Proof. unfold mbind, M_bind. by intros ->. Qed.

(** The rearrangement of the arguments in [make_call]. *)
Lemma bind_args_spec h base vs proc flags n args h1 j fp p self :
  0 <= n -> bind_args flags n h vs = Some (args, h1) -> (1 <= length j)%nat ->
  exists j',
    (let i := Z.of_nat (length vs) in let j := i - n in
     if j >? 0 then
       if procedure_variadic_p flags then
         if negb (procedure_unused_rest_p flags) then collect_rest i j;; mret (i - (j - 1))
         else mret i
       else raise "too many args" [proc; Fixnum i]
     else if procedure_variadic_p flags && negb (procedure_unused_rest_p flags)
     then insert_null i;; mret (i + 1)
     else mret i) (mk h (base ++ rev vs ++ [proc]) j fp p self) =
    Val (Z.of_nat (length args)) (mk h1 (base ++ rev args ++ [proc]) j' fp p self) /\
    length ((base ++ rev args ++ [proc]) ++ j') = length ((base ++ rev vs ++ [proc]) ++ j) /\
    (length args <= length vs + 1)%nat.
Proof.
  intros Hn Hb Hj. unfold bind_args in Hb. unfold procedure_variadic_p, procedure_unused_rest_p.
  destruct (Z.ltb_spec (Z.of_nat (length vs)) n) as [|Hle]; [done|]. cbn zeta.
  destruct (Z.testbit flags 0) eqn:Ev; cycle 1.
  { destruct (Z.eqb_spec (Z.of_nat (length vs)) n); [|done]. injection Hb as <- <-. exists j.
    assert ((Z.of_nat (length vs) - n >? 0) = false) as -> by lia. split; [done|split; [done|lia]]. }
  destruct (Z.testbit flags 1) eqn:Eu; cbn [andb negb].
  { injection Hb as <- <-. exists j. destruct (_ >? 0); (split; [done|split; [done|lia]]). }
  destruct (cons_list h (drop (Z.to_nat n) vs)) as [rest h2] eqn:Ec. injection Hb as <- <-.
  destruct (Z.gtb_spec (Z.of_nat (length vs) - n) 0) as [Hgt|Hz].
  - pose proof (collect_rest_spec h base (take (Z.to_nat n) vs) (drop (Z.to_nat n) vs) proc j fp p self) as Hc.
    rewrite Ec in Hc. cbn [fst snd] in Hc. destruct Hc as (j' & Hc & Hlen); [rewrite length_drop; lia|].
    rewrite take_drop in Hc, Hlen. exists j'.
    replace (Z.of_nat (length (drop (Z.to_nat n) vs))) with (Z.of_nat (length vs) - n) in Hc by (rewrite length_drop; lia).
    rewrite (bind_val _ _ _ _ _ Hc). split; [|split].
    + unfold mret, M_ret. f_equal. rewrite length_app, length_take. cbn. lia.
    + rewrite <- !app_assoc. exact Hlen.
    + rewrite length_app, length_take. cbn. lia.
  - assert (drop (Z.to_nat n) vs = []) as Hd by (apply drop_ge; lia). rewrite Hd in Ec. injection Ec as <- <-.
    assert (take (Z.to_nat n) vs = vs) as Htk by (apply take_ge; lia). rewrite Htk.
    destruct j as [|x j]; [cbn in Hj; lia|]. exists j. rewrite (bind_val _ _ _ _ _ (insert_null_spec _ _ _ _ _ _ _ _ _)).
    split; [|split; llia]. unfold mret, M_ret. f_equal. llia.
Qed.

(** The words a call leaves between the arguments and the locals. *)
Definition frame (n : nat) (ret : Z) (self : sexp) (fp : Z) : list sexp :=
  [Fixnum (Z.of_nat n); Fixnum ret; self; Fixnum fp].

Definition callee (h : heap) (proc : sexp) (flags n : Z) (b : loc) (vars : sexp) (data : list cell) (md : Z) : Prop :=
  exists lp lits, proc = Ptr lp /\ h !! lp = Some (Procedure flags n (Ptr b) vars) /\
    h !! b = Some (Bytecode data md lits) /\ 0 <= n /\ 0 <= md <= 960.

Lemma stack_set_free h l js x j fp p self i v : i = Z.of_nat (length l + length js) ->
  stack_set i v (mk h l (js ++ x :: j) fp p self) = Val tt (mk h l (js ++ v :: j) fp p self).
Proof.
  intros Hi. rewrite <- !(raw_mk _ _ _ _ _ _ _ eq_refl), !(app_assoc l). apply raw_set. llia.
Qed.

Lemma push_frame_spec h base args proc j fp ip self : (3 <= length j)%nat ->
  exists j', (set_arg 1 (Fixnum (Z.of_nat (length args)));;
     top ← get_top; ip ← get_ip; self ← get_self; fp ← get_fp;
     stack_set top (Fixnum (ip + sizeof_sexp));;
     stack_set (top + 1) self;;
     stack_set (top + 2) (Fixnum fp);;
     set_top (top + 3);;
     set_self proc;;
     set_ip 0;;
     set_fp (top + 3 - 4)) (mk h (base ++ rev args ++ [proc]) j fp ip self) =
   Val tt (mk h (base ++ rev args ++ frame (length args) (ip + 8) self fp) j' (Z.of_nat (length base + length args)) 0 proc) /\
   length ((base ++ rev args ++ frame (length args) (ip + 8) self fp) ++ j') = length ((base ++ rev args ++ [proc]) ++ j).
Proof.
  intros Hj. destruct j as [|x [|y [|z j]]]; try (cbn in Hj; lia). exists j.
  rewrite (app_assoc base). mstep. do 4 mstep.
  erewrite bind_val; [|apply stack_set_above; reflexivity].
  set (l := (base ++ rev args) ++ [Fixnum (Z.of_nat (length args))]).
  set (top := Z.of_nat (length ((base ++ rev args) ++ [proc]))). assert (top = Z.of_nat (length l)) as -> by (subst top l; llia).
  erewrite bind_val; [|apply (stack_set_free _ l [Fixnum (ip + sizeof_sexp)] y (z :: j)); llia].
  erewrite bind_val; [|apply (stack_set_free _ l [Fixnum (ip + sizeof_sexp); self] z j); llia].
  split; [|unfold frame; llia].
  unfold set_top, set_self, set_ip, set_fp, mbind, M_bind, VmSteps.mk, frame. cbn. f_equal. f_equal.
  - subst l. by list_simplifier.
  - subst l. llia.
  - subst l. llia.
Qed.

(** A call enters the procedure with its frame on the stack, or runs out of
    stack. *)
Lemma make_call_spec h base vs proc flags n b vars data md args h1 j fp ip self m :
  callee h proc flags n b vars data md -> bind_args flags n h vs = Some (args, h1) ->
  live pr hd h (base ++ rev vs ++ [proc]) fp ip self m (Run (mk h (base ++ rev vs ++ [proc]) j fp ip self)) ->
  Z.of_nat (length base + length vs) + 3 <= m ->
  (exists c, make_call (Z.of_nat (length vs)) proc (mk h (base ++ rev vs ++ [proc]) j fp ip self) = Val tt c /\
     live pr hd h1 (base ++ rev args ++ frame (length args) (ip + 8) self fp)
       (Z.of_nat (length base + length args)) 0 proc
       (Z.max m (Z.of_nat (length base + length args) + 65 + md)) (Run c)) \/
  (exists s, make_call (Z.of_nat (length vs)) proc (mk h (base ++ rev vs ++ [proc]) j fp ip self) = End s /\ oos s).
Proof.
  intros (lp & lits & -> & Hp & Hb & Hn & Hmd) Hba (j0 & [= Hj] & Hm & Hg) Hroom.
  apply app_inv_head in Hj as <-.
  unfold make_call. mstep. cbn [deref]. rewrite Hp. do 2 mstep.
  unfold sexp_procedurep. cbn [deref]. rewrite Hp. cbn [negb]. mstep.
  rewrite (bind_val _ _ _ _ _ (procedure_of_spec pr hd h _ _ _ _ _ (Ptr lp) _ _ _ _ Hp)).
  assert (n <= Z.of_nat (length vs)) as Hle.
  { unfold bind_args in Hba. by destruct (Z.ltb_spec (Z.of_nat (length vs)) n). }
  rewrite (proj2 (Z.ltb_ge _ _)) by lia. mstep.
  erewrite bind_val; [|unfold bytecode_of; mstep; cbn [deref]; rewrite Hb; reflexivity].
  rewrite (app_assoc base) in Hm, Hg |- *.
  destruct (ensure_stack_spec h (base ++ rev vs) (Ptr lp) j fp ip self (md + 64)) as
    [(j' & He & Hg' & Hs & Hr)|(s & He & Ho)]; [exact Hg|lia|llia| |].
  2: { right. exists s. split; [|done]. by rewrite (bind_end _ _ _ _ He). }
  left. rewrite (bind_val _ _ _ _ _ He). rewrite <- (app_assoc base) in Hg', Hs, Hr |- *.
  destruct (bind_args_spec h base vs (Ptr lp) flags n args h1 j' fp ip self Hn Hba) as (j2 & Hbind & Hlen & Hla); [llia|].
  cbn zeta in Hbind. rewrite (bind_val _ _ _ _ _ Hbind).
  destruct (push_frame_spec h1 base args (Ptr lp) j2 fp ip self) as (j3 & Hpf & Hlen3); [llia|].
  eexists. split; [exact Hpf|].
  exists j3. rewrite Hlen3, Hlen. split_and!; [done| |done]. llia.
Qed.

Lemma raw_get_lookup h st t fp p self i v : 0 <= i -> st !! Z.to_nat i = Some v ->
  stack_get i (raw h st t fp p self) = Val v (raw h st t fp p self).
Proof. intros Hi Hl. unfold stack_get, raw. cbn. rewrite (proj2 (Z.leb_le _ _)) by lia. by rewrite Hl. Qed.

Lemma raw_insert h st t fp p self i v : 0 <= i < Z.of_nat (length st) ->
  stack_set i v (raw h st t fp p self) = Val tt (raw h (<[Z.to_nat i := v]> st) t fp p self).
Proof.
  intros Hi. unfold stack_set, set_stack, raw. cbn.
  by rewrite (proj2 (Z.leb_le _ _)), (proj2 (Z.ltb_lt _ _)) by lia.
Qed.

Lemma frame_lookup base args n ret self0 fp0 more k v :
  frame n ret self0 fp0 !! k = Some v ->
  (base ++ rev args ++ frame n ret self0 fp0 ++ more) !! (length base + length args + k)%nat = Some v.
Proof.
  intros Hk. rewrite lookup_app_r, lookup_app_r by llia.
  replace (length base + length args + k - length base - length (rev args))%nat with k by (rewrite length_rev; lia).
  by apply lookup_app_l_Some.
Qed.

(** The return leaves the value where the arguments began. *)
Lemma op_ret_spec h base args ret self0 fp0 rest v j ip self :
  exists j', op_ret (mk h (base ++ rev args ++ frame (length args) ret self0 fp0 ++ rest ++ [v]) j
                      (Z.of_nat (length base + length args)) ip self) =
    Val tt (mk h (base ++ [v]) j' fp0 ret self0) /\
    length ((base ++ [v]) ++ j') = length ((base ++ rev args ++ frame (length args) ret self0 fp0 ++ rest ++ [v]) ++ j).
Proof.
  set (fp := Z.of_nat (length base + length args)). set (b := length base).
  set (l := base ++ rev args ++ frame (length args) ret self0 fp0 ++ rest ++ [v]).
  assert (length base < length (l ++ j))%nat as Hlt by (subst l; llia).
  assert (forall z k x, z = fp + Z.of_nat k -> frame (length args) ret self0 fp0 !! k = Some x ->
    (l ++ j) !! Z.to_nat z = Some x) as Hfr.
  { intros z k x -> Hk. subst l. rewrite <- !app_assoc.
    replace (Z.to_nat (fp + Z.of_nat k)) with (length base + length args + k)%nat by lia. by apply frame_lookup. }
  assert (take (S b) (<[b := v]> (l ++ j)) = base ++ [v]) as Htake.
  { erewrite take_S_r by (apply list_lookup_insert_eq; lia). f_equal. rewrite take_insert, decide_False by lia.
    subst l. rewrite <- app_assoc. apply take_app_length. }
  exists (drop (S b) (<[b := v]> (l ++ j))).
  assert ((base ++ [v]) ++ drop (S b) (<[b := v]> (l ++ j)) = <[b := v]> (l ++ j)) as Hj by (rewrite <- Htake; apply take_drop).
  rewrite Hj, length_insert. split; [|done].
  assert (forall z k x, z = fp + Z.of_nat k -> (0 < k)%nat -> frame (length args) ret self0 fp0 !! k = Some x ->
    <[b := v]> (l ++ j) !! Z.to_nat z = Some x) as Hfr'.
  { intros z k x Hz Hk Hx. rewrite list_lookup_insert_ne by lia. by eapply Hfr. }
  assert (arg 1 (mk h l j fp ip self) = Val v (mk h l j fp ip self)) as Harg.
  { subst l. rewrite !app_assoc. by apply arg_at. }
  unfold op_ret. mstep.
  erewrite bind_val; [|apply (raw_get_lookup h (l ++ j)); [lia|]; apply (Hfr _ 0%nat); [lia|reflexivity]].
  cbn [unbox]. mstep. rewrite (raw_mk _ _ _ _ _ _ _ eq_refl), (bind_val _ _ _ _ _ Harg).
  erewrite bind_val; [|apply (raw_insert h (l ++ j)); lia].
  replace (Z.to_nat (fp - Z.of_nat (length args))) with b by lia. mstep.
  erewrite bind_val; [|apply (raw_get_lookup h (<[b:=v]> (l ++ j))); [lia|]; apply (Hfr' _ 2%nat); [lia|lia|reflexivity]].
  erewrite bind_val; [|apply (raw_get_lookup h (<[b:=v]> (l ++ j))); [lia|]; apply (Hfr' _ 1%nat); [lia|lia|reflexivity]].
  cbn [unbox]. mstep.
  erewrite bind_val; [|apply (raw_get_lookup h (<[b:=v]> (l ++ j))); [lia|]; apply (Hfr' _ 3%nat); [lia|lia|reflexivity]].
  cbn [unbox]. mstep.
  unfold set_self, set_ip, set_fp, raw, mbind, M_bind, VmSteps.mk. cbn. rewrite Hj. do 2 f_equal. llia.
Qed.

(** A tail call is a call from the caller's frame. *)
Lemma op_tail_call_spec h base args ret self0 fp0 rest vs proc j ip self c :
  bytes_at h self ip (CWord (WObj (Fixnum (Z.of_nat (length vs)))) :: c) ->
  exists j', op_tail_call (mk h (base ++ rev args ++ frame (length args) ret self0 fp0 ++ rest ++ rev vs ++ [proc]) j
                            (Z.of_nat (length base + length args)) ip self) =
    make_call (Z.of_nat (length vs)) proc (mk h (base ++ rev vs ++ [proc]) j' fp0 (ret - 8) self0) /\
    length ((base ++ rev vs ++ [proc]) ++ j') =
    length ((base ++ rev args ++ frame (length args) ret self0 fp0 ++ rest ++ rev vs ++ [proc]) ++ j).
Proof.
  intros Hb. set (fp := Z.of_nat (length base + length args)).
  set (l := base ++ rev args ++ frame (length args) ret self0 fp0 ++ rest ++ rev vs ++ [proc]).
  set (gap := rev args ++ frame (length args) ret self0 fp0 ++ rest).
  assert (l ++ j = base ++ gap ++ rev vs ++ [proc] ++ j) as Hl by (subst l gap; by list_simplifier).
  assert (length gap = length args + 4 + length rest)%nat as Hgap by (subst gap; unfold frame; llia).
  assert (length l = length base + length gap + length vs + 1)%nat as Hll by (subst l gap; llia).
  assert (forall z k x, z = fp + Z.of_nat k -> frame (length args) ret self0 fp0 !! k = Some x ->
    (l ++ j) !! Z.to_nat z = Some x) as Hfr.
  { intros z k x -> Hk. subst l. rewrite <- !app_assoc.
    replace (Z.to_nat (fp + Z.of_nat k)) with (length base + length args + k)%nat by lia. by apply frame_lookup. }
  assert (arg 1 (mk h l j fp ip self) = Val proc (mk h l j fp ip self)) as Harg.
  { subst l. rewrite !app_assoc. by apply arg_at. }
  destruct (move_down h (Z.of_nat (length l)) fp (ret - 8) self0 (Z.of_nat (length l) - 1 - Z.of_nat (length vs))
              (fp - Z.of_nat (length args)) (rev vs) base gap 0 ([proc] ++ j)) as (gap' & Hg' & Hmv); [lia|lia|].
  rewrite length_rev in Hmv.
  destruct gap' as [|g gap']; [cbn in Hg'; lia|]. exists (gap' ++ [proc] ++ j).
  split; [|rewrite Hl; cbn in Hg'; llia].
  unfold op_tail_call. erewrite bind_val; [|by eapply fetch_obj0_spec]. cbn [unbox]. mstep.
  rewrite (bind_val _ _ _ _ _ Harg). do 2 mstep.
  erewrite bind_val.
  2: { unfold leave_frame. mstep. change (mk h l j fp ip self) with (raw h (l ++ j) (Z.of_nat (length l)) fp ip self).
    erewrite bind_val; [|apply (raw_get_lookup h (l ++ j)); [lia|]; apply (Hfr _ 3%nat); [lia|reflexivity]].
    erewrite bind_val; [|apply (raw_get_lookup h (l ++ j)); [lia|]; apply (Hfr _ 0%nat); [lia|reflexivity]].
    cbn [unbox]. mstep.
    erewrite bind_val; [|apply (raw_get_lookup h (l ++ j)); [lia|]; apply (Hfr _ 2%nat); [lia|reflexivity]].
    erewrite bind_val; [|apply (raw_get_lookup h (l ++ j)); [lia|]; apply (Hfr _ 1%nat); [lia|reflexivity]].
    cbn [unbox]. mstep. reflexivity. }
  rewrite Nat2Z.id. unfold sizeof_sexp. cbn [v_stack v_top v_fp v_heap raw VmSteps.mk v_params v_handler].
  rewrite Hl.
  erewrite bind_val; [|exact Hmv].
  erewrite bind_val; [|reflexivity].
  assert (fp + Z.of_nat (length vs) - Z.of_nat (length args) = Z.of_nat (length (base ++ rev vs))) as -> by llia.
  erewrite bind_val.
  2: { unfold raw, set_top. cbn. rewrite (app_assoc base). apply (push_spec pr hd h (base ++ rev vs) g (gap' ++ proc :: j)). }
  cbn [unbox]. mstep. unfold set_fp, VmSteps.mk. cbn. unfold mbind at 1, M_bind at 1.
  by rewrite <- (app_assoc base).
Qed.

End calls.
