(* ===== verification/Code.v ===== *)
(** * Generated code

    The code of a tree, as a relation: what [sexp_generate] emits, with the
    jump distances and the drops already resolved, over the table of the
    addresses of the lambdas.  Both halves of the proof of the compiler meet
    here. *)
From S2P Require Import Prelude Bignum Numbers Heap Ast Codegen Vm Semantics VmSteps Instructions.
From stdpp Require Import base list option gmap.
#[local] Open Scope Z_scope.

Abbreviation push_code v := (opw OP_PUSH (WObj v)).

(** ** Pieces *)

(** Fetching a variable without unboxing. *)
Definition var_code (lf : lam_info * list ref) (name : ident) (loc : lam_info) : list cell :=
  if bool_decide (lam_id loc = lam_id lf.1)
  then opw OP_LOCAL_REF (WInt (sexp_param_index lf.1 name))
  else opw OP_CLOSURE_REF (WInt (Z.of_nat (fv_index name (Within loc) lf.2))).

Definition ref_code (lf : lam_info * list ref) (r : ref) : list cell :=
  match ref_where r with Within loc => var_code lf (ref_name r) loc | Global _ => [] end.

Definition capture_code (lf : lam_info * list ref) (k : nat) (r : ref) : list cell :=
  ref_code lf r ++ push_code (Fixnum (Z.of_nat k)) ++ opw OP_STACK_REF (WInt 3) ++ [COp OP_VECTOR_SET].

Fixpoint captures_code (lf : lam_info * list ref) (k : nat) (fv : list ref) : list cell :=
  match fv with [] => [] | r :: fv => capture_code lf k r ++ captures_code lf (S k) fv end.

Definition stack_ref_code (k : Z) : list cell := opw OP_STACK_REF (WInt k).

Fixpoint chain_code (o : op_name) (n : nat) : list cell :=
  match n with
  | O => []
  | S n => stack_ref_code 3 ++ stack_ref_code 3 ++ [COp o; COp OP_AND; COp OP_AND] ++ chain_code o n
  end.

Definition compare_code (o : op_name) (n : nat) : list cell :=
  if (2 <? n)%nat
  then stack_ref_code 2 ++ stack_ref_code 2 ++ [COp o; COp OP_AND] ++ chain_code o (n - 2) ++ [COp OP_AND]
  else [COp o].

Definition box_code (i : lam_info) (name : ident) : list cell :=
  opw OP_LOCAL_REF (WInt (sexp_param_index i name)) ++ push_code name ++ [COp OP_CONS] ++
  opw OP_LOCAL_SET (WInt (sexp_param_index i name)).

Fixpoint undefs_code (n : nat) : list cell :=
  match n with O => [] | S n => push_code SEXP_UNDEF ++ undefs_code n end.

Fixpoint boxes_code (i : lam_info) (sv : list ident) : list cell :=
  match sv with [] => [] | name :: sv => box_code i name ++ boxes_code i sv end.

Definition prologue (i : lam_info) : list cell :=
  undefs_code (length (lam_locals i)) ++ boxes_code i (lam_sv i).

(** ** Operators in the fragment *)

Definition prim_op (op : opcode) : bool :=
  plain_op op && negb (op_inverse op) && negb (bool_decide (op_code op = OP_PUSH)).

Definition arith_op (op : opcode) (n : nat) : bool :=
  bool_decide (op_class_of op = OPC_ARITHMETIC) && negb (op_static_param_p op) && negb (op_tail_call_p op) &&
  negb (returns_void op) && (op_num_args op <? Z.of_nat n) && negb (bool_decide (op_code op = OP_PUSH)).

Definition compare_op (op : opcode) (n : nat) : bool :=
  bool_decide (op_class_of op = OPC_ARITHMETIC_CMP) && negb (op_static_param_p op) && negb (op_tail_call_p op) &&
  negb (returns_void op) && match op_data op with None => true | _ => false end && negb (op_inverse op) &&
  negb (bool_decide (op_code op = OP_PUSH)).

Definition operator_code (op : opcode) (n : nat) : option (list cell) :=
  if prim_op op then Some (COp (op_code op) :: if returns_void op then push_code SEXP_VOID else [])
  else if arith_op op n then Some (replicate (n - 1) (COp (op_code op)))
  else if compare_op op n then Some (compare_code (op_code op) n)
  else None.

(** ** The relation *)

Section code.
Variable T : table.

Inductive gc : option (lam_info * list ref) -> bool -> ast -> list cell -> Prop :=
| gc_lit lam t v : gc lam t (Lit v) (push_code v)
| gc_self lam t v : gc lam t (Self v) (push_code v)
| gc_global lam t o name cell : o = OP_GLOBAL_REF \/ o = OP_GLOBAL_KNOWN_REF ->
    gc lam t (RefE (Ref name (Global cell))) (opw o (WObj cell))
| gc_variable lf t name loc :
    gc (Some lf) t (RefE (Ref name (Within loc)))
       (var_code lf name loc ++ if memq name (lam_sv loc) then [COp OP_CDR] else [])
| gc_assign lam t r x c : gc_set lam r x c -> gc lam t (SetE r x) (c ++ push_code SEXP_VOID)
| gc_cnd lam t test pass fail ct cp cf :
    gc lam false test ct -> gc lam t pass cp -> gc lam t fail cf ->
    gc lam t (Cnd test pass fail)
       (ct ++ opw OP_JUMP_UNLESS (WInt (17 + Z.of_nat (length cp))) ++ cp ++
        opw OP_JUMP (WInt (8 + Z.of_nat (length cf))) ++ cf)
| gc_sequence lam t ls c : gc_seq lam t ls c -> gc lam t (Seq ls) c
| gc_closed lam t i body p : closed_of T !! lam_id i = Some p -> gc lam t (Lambda i [] body) (push_code (Ptr p))
| gc_open lf t i fv body b : fv <> [] -> code_of T !! lam_id i = Some b -> Z.of_nat (length fv) <= SEXP_MAX_VECTOR_LENGTH ->
    gc (Some lf) t (Lambda i fv body)
       (push_code SEXP_VOID ++ push_code (Fixnum (Z.of_nat (length fv))) ++ [COp OP_MAKE_VECTOR] ++
        captures_code lf 0 fv ++
        COp OP_MAKE_PROCEDURE :: word_cells (WObj (Fixnum (lambda_flags i body))) ++
        word_cells (WObj (Fixnum (Z.of_nat (length (lam_params i))))) ++ word_cells (WObj (Ptr b)))
| gc_app lam t f args cs cf :
    gc_args lam args cs -> gc lam false f cf ->
    gc lam t (App f args)
       (cs ++ cf ++ opw (if t then OP_TAIL_CALL else OP_CALL) (WObj (Fixnum (Z.of_nat (length args)))))
| gc_opapp lam t l op args cs co :
    gc_args lam args cs -> operator_code op (length args) = Some co -> gc lam t (OpApp l op args) (cs ++ co)
(** An assignment without its result. *)
with gc_set : option (lam_info * list ref) -> ref -> ast -> list cell -> Prop :=
| gc_set_global lam name cell x cx pre :
    gc lam false x cx -> pre = [] \/ pre = opw OP_GLOBAL_REF (WObj cell) ++ [COp OP_DROP] ->
    gc_set lam (Ref name (Global cell)) x (cx ++ pre ++ push_code cell ++ [COp OP_SET_CDR])
| gc_set_variable lf name loc x cx :
    gc (Some lf) false x cx -> memq name (lam_sv loc) = true ->
    gc_set (Some lf) (Ref name (Within loc)) x (cx ++ var_code lf name loc ++ [COp OP_SET_CDR])
with gc_seq : option (lam_info * list ref) -> bool -> list ast -> list cell -> Prop :=
| gc_seq_last lam t x c : gc lam t x c -> gc_seq lam t [x] c
| gc_seq_lit lam t v y ls c : gc_seq lam t (y :: ls) c -> gc_seq lam t (Lit v :: y :: ls) c
| gc_seq_set lam t r x y ls cx c : gc_set lam r x cx -> gc_seq lam t (y :: ls) c ->
    gc_seq lam t (SetE r x :: y :: ls) (cx ++ c)
| gc_seq_drop lam t x y ls cx c :
    gc lam false x cx -> gc_seq lam t (y :: ls) c -> gc_seq lam t (x :: y :: ls) (cx ++ COp OP_DROP :: c)
(** Operands, last to first. *)
with gc_args : option (lam_info * list ref) -> list ast -> list cell -> Prop :=
| gc_args_nil lam : gc_args lam [] []
| gc_args_cons lam x ls cx c : gc_args lam ls c -> gc lam false x cx -> gc_args lam (x :: ls) (c ++ cx).

(** ** Room *)

(** The stack words an expression needs above its frame. *)
Fixpoint need (x : ast) : Z :=
  match x with
  | Lit _ | Self _ | RefE _ => 1
  | SetE _ v => Z.max (need v) 2
  | Cnd t p f => Z.max (need t) (Z.max (need p) (need f))
  | Seq ls => fold_right (fun x m => Z.max (need x) m) 1 ls
  | Lambda _ _ _ => 4
  | App f args =>
      let n := Z.of_nat (length args) in
      Z.max (fold_right (fun x a => (Z.max (need x + a.2) a.1, a.2 + 1)) (0, 0) args).1 (Z.max (n + need f) (n + 3))
  | OpApp _ _ args =>
      Z.max (fold_right (fun x a => (Z.max (need x + a.2) a.1, a.2 + 1)) (0, 0) args).1 (Z.of_nat (length args) + 3)
  end.

(** The bytecode of every lambda of the table is in the heap. *)
Definition wf (h : heap) : Prop :=
  forall b i fv body, lambda_of T !! b = Some (i, fv, body) ->
  exists c md lits, h !! b = Some (Bytecode (prologue i ++ c ++ [COp OP_RET]) md lits) /\
    gc (Some (i, fv)) true body c /\ 0 <= md <= 960 /\ Z.of_nat (length (lam_locals i)) + need body + 2 <= 60 + md.

End code.

Scheme gc_mut := Induction for gc Sort Prop
  with gc_set_mut := Induction for gc_set Sort Prop
  with gc_seq_mut := Induction for gc_seq Sort Prop
  with gc_args_mut := Induction for gc_args Sort Prop.
