(* ===== verification/Simulation.v ===== *)
(** * Simulation

    Running generated code does what the semantics of the tree says: by
    induction on the evaluation, one lemma for each form.  The heaps of the two
    sides are equal, address by address. *)
From S2P Require Import Prelude Bignum Numbers Heap Ast Codegen Vm Semantics VmSteps Instructions Calls Code.
From stdpp Require Import base list option gmap.
#[local] Open Scope Z_scope.

(** ** Code and procedures never change *)

#[local] Arguments alloc : simpl never.

Definition static (o : obj) : bool :=
  match o with Procedure _ _ _ _ | Bytecode _ _ _ => true | _ => false end.

Definition ext (h h' : heap) : Prop := forall l o, h !! l = Some o -> static o = true -> h' !! l = Some o.

#[global] Instance ext_preorder : PreOrder ext.
Proof. split; [by intros h l o ?|]. intros h1 h2 h3 H12 H23 l o Hl Ho. auto. Qed.

Lemma ext_alloc h o v h' : alloc h o = (v, h') -> ext h h'.
Proof.
  unfold alloc. intros [= <- <-] l o' Hl _. rewrite lookup_insert_ne; [done|]. intros <-.
  apply (is_fresh (dom h)), elem_of_dom. eauto.
Qed.

Lemma ext_insert h l o o' : h !! l = Some o -> static o = false -> ext h (<[l := o']> h).
Proof. intros Hl Ho l2 o2 Hl2 Ho2. rewrite lookup_insert_ne; [done|]. intros <-. congruence. Qed.

Lemma ext_assign h a x h' : assign h a x = Some h' -> ext h h'.
Proof. intros (la & c & d & -> & E & ->)%assign_spec. by eapply ext_insert. Qed.

Lemma ext_prim o h vs r h' : prim o h vs = Some (r, h') -> ext h h'.
Proof.
  intros H. assert (forall v h2, alloc h v = (match r with Some x => x | None => SEXP_VOID end, h2) -> ext h h2) as Ha
    by (intros; by eapply ext_alloc).
  destruct o; try done; destruct vs as [|a [|b [|c [|]]]]; try done; cbn [prim] in H;
    repeat (first [done | case_match | progress simplify_option_eq]); simplify_eq; try done;
    first [by eapply ext_assign | by eapply ext_alloc | by eapply ext_insert].
Qed.

Lemma ext_cons_list h vs d h' : cons_list h vs = (d, h') -> ext h h'.
Proof.
  revert d h'. induction vs as [|v vs IH]; intros d h'; cbn [cons_list]; [by intros [= <- <-]|].
  destruct (cons_list h vs) as [d1 h1]. intros Ha. etransitivity; [by eapply IH|by eapply ext_alloc].
Qed.

Lemma ext_bind_args flags n h vs args h' : bind_args flags n h vs = Some (args, h') -> ext h h'.
Proof.
  unfold bind_args. intros H. repeat case_match; simplify_eq; try done. by eapply ext_cons_list.
Qed.

Lemma ext_box_slots i sv : forall h al al' h', box_slots i sv h al = Some (al', h') -> ext h h'.
Proof.
  induction sv as [|x sv IH]; intros h al al' h'; cbn [box_slots]; [by intros [= <- <-]|].
  destruct (slot _ _) as [v|]; [|done]. cbn. destruct (alloc h (Pair x v false)) as [b h1] eqn:Ea. intros Hb.
  etransitivity; [by eapply ext_alloc|by eapply IH].
Qed.

Section simulation.
Variable T : table.

Lemma eval_ext E h x v h' : eval T E h x v h' -> ext h h'.
Proof.
  intros H. induction H using eval_mut with
    (P0 := fun _ h _ _ h' _ => ext h h') (P1 := fun _ h _ _ h' _ => ext h h') (P2 := fun h _ _ _ h' _ => ext h h');
    try done; repeat (etransitivity; [eassumption|]); try done;
    eauto using ext_assign, ext_prim, ext_alloc.
  - etransitivity; [by eapply ext_alloc|by eapply ext_alloc].
  - etransitivity; [by eapply ext_bind_args|]. etransitivity; [by eapply ext_box_slots|]. done.
Qed.

Lemma apply_ext h p vs v h' : apply_proc T h p vs v h' -> ext h h'.
Proof.
  destruct 1. etransitivity; [by eapply ext_bind_args|]. etransitivity; [by eapply ext_box_slots|]. by eapply eval_ext.
Qed.

Lemma wf_ext h h' : ext h h' -> wf T h -> wf T h'.
Proof.
  intros He Hw b i fv body Hb. destruct (Hw _ _ _ _ Hb) as (c & md & lits & Hl & Hr). exists c, md, lits. auto.
Qed.

Lemma self_vars_ext h h' self vars : ext h h' -> self_vars h self vars -> self_vars h' self vars.
Proof. intros He (l & fl & n & c & -> & Hl). exists l, fl, n, c. auto. Qed.

Lemma bytes_at_ext h h' self p c : ext h h' -> bytes_at h self p c -> bytes_at h' self p c.
Proof.
  intros He (pre & post & (l & fl & n & b & vars & md & lits & -> & Hl & Hb) & ->). exists pre, post. split; [|done].
  exists l, fl, n, b, vars, md, lits. auto.
Qed.

(** ** Activations *)

(** What lies below the locals: the caller's stack and registers. *)
Record caller := Caller { a_base : list sexp; a_ret : Z; a_self : sexp; a_fp : Z }.

Definition layout (E : env) (A : caller) (temps : list sexp) : list sexp :=
  a_base A ++ rev (e_args E) ++ frame (length (e_args E)) (a_ret A) (a_self A) (a_fp A) ++ e_locals E ++ temps.

Definition fp_of (E : env) (A : caller) : Z := Z.of_nat (length (a_base A) + length (e_args E)).

Lemma layout_app E A temps k : layout E A (temps ++ k) = layout E A temps ++ k.
Proof. unfold layout. by list_simplifier. Qed.

Lemma length_layout E A temps :
  length (layout E A temps) = (length (a_base A) + length (e_args E) + 4 + length (e_locals E) + length temps)%nat.
Proof. unfold layout, frame. llia. Qed.

Lemma rev_lookup {A} (l : list A) i : (i < length l)%nat -> rev l !! i = l !! (length l - S i)%nat.
Proof. intros Hi. rewrite rev_alt. by apply (reverse_lookup l i). Qed.

Lemma rev_insert {A} (l : list A) i x : (i < length l)%nat -> <[(length l - S i)%nat := x]> (rev l) = rev (<[i := x]> l).
Proof.
  intros Hi. apply list_eq. intros j. destruct (decide (j < length l)%nat) as [Hj|Hj].
  - rewrite (rev_lookup (<[i:=x]> l)) by (by rewrite length_insert). rewrite length_insert.
    destruct (decide (j = length l - S i)%nat) as [->|Hne].
    + rewrite list_lookup_insert_eq by llia. replace (length l - S (length l - S i))%nat with i by lia.
      by rewrite list_lookup_insert_eq by lia.
    + rewrite !list_lookup_insert_ne by lia. by apply rev_lookup.
  - rewrite !lookup_ge_None_2; [done|llia|llia].
Qed.

(** ** Slots *)

Lemma slot_lookup E A temps k v : slot E k = Some v ->
  0 <= fp_of E A - 1 - k < Z.of_nat (length (layout E A temps)) /\
  layout E A temps !! Z.to_nat (fp_of E A - 1 - k) = Some v.
Proof.
  unfold slot, fp_of. destruct (Z.leb_spec 0 k) as [Hk|Hk]; [|destruct (Z.leb_spec k (-5)) as [Hk5|]; [|done]]; intros Hv;
    pose proof (lookup_lt_Some _ _ _ Hv) as Hlt; rewrite length_layout; (split; [lia|]); unfold layout, frame.
  - rewrite lookup_app_r, lookup_app_l by llia. rewrite rev_lookup by lia. rewrite <- Hv. f_equal. lia.
  - rewrite lookup_app_r, lookup_app_r, lookup_app_r, lookup_app_l by llia. rewrite <- Hv. f_equal. llia.
Qed.

Lemma slot_insert lf args locals vars A temps k v w : slot (Env lf args locals vars) k = Some v ->
  <[Z.to_nat (fp_of (Env lf args locals vars) A - 1 - k) := w]> (layout (Env lf args locals vars) A temps) =
  layout (Env lf (set_slot k w (args, locals)).1 (set_slot k w (args, locals)).2 vars) A temps.
Proof.
  unfold slot, set_slot, fp_of, layout, frame. cbn [e_args e_locals fst snd].
  destruct (Z.leb_spec 0 k) as [Hk|Hk]; [|destruct (Z.leb_spec k (-5)) as [Hk5|]; [|done]]; intros Hv;
    pose proof (lookup_lt_Some _ _ _ Hv) as Hlt; cbn [fst snd].
  - rewrite insert_app_r_alt, insert_app_l by llia. rewrite length_insert, <- rev_insert by lia.
    by replace (length args - S (Z.to_nat k))%nat
      with (Z.to_nat (Z.of_nat (length (a_base A) + length args) - 1 - k) - length (a_base A))%nat by lia.
  - do 3 rewrite insert_app_r_alt by llia. rewrite insert_app_l by llia. do 5 f_equal. llia.
Qed.

Lemma set_slot_lengths k v al : length (set_slot k v al).1 = length al.1 /\ length (set_slot k v al).2 = length al.2.
Proof. unfold set_slot. destruct (0 <=? k); cbn; by rewrite length_insert. Qed.

(** ** What is to be shown *)

Variable foreign : string -> heap -> list sexp -> sexp * heap.
Variables pr hd : sexp.

#[local] Abbreviation from := (from foreign pr hd).
#[local] Abbreviation mk := (mk pr hd).
#[local] Abbreviation reach := (reach foreign).
#[local] Abbreviation live := (live pr hd).

(** Code of an expression pushes its value, or, in a tail position, returns it
    to the caller. *)
Definition sim_eval (E : env) (h : heap) (x : ast) (v : sexp) (h' : heap) : Prop :=
  forall A temps self m Q tail c p,
    wf T h -> self_vars h self (e_vars E) -> gc T (e_lam E) tail x c -> bytes_at h self p c ->
    Z.of_nat (length (layout E A temps)) + need x <= m ->
    from h' (layout E A temps ++ [v]) (fp_of E A) (p + Z.of_nat (length c)) self m Q ->
    (tail = true -> from h' (a_base A ++ [v]) (a_fp A) (a_ret A) (a_self A) m Q) ->
    from h (layout E A temps) (fp_of E A) p self m Q.

Definition sim_set (E : env) (h : heap) (r : ref) (x : ast) (h' : heap) : Prop :=
  forall A temps self m Q c p,
    wf T h -> self_vars h self (e_vars E) -> gc_set T (e_lam E) r x c -> bytes_at h self p c ->
    Z.of_nat (length (layout E A temps)) + Z.max (need x) 2 <= m ->
    from h' (layout E A temps) (fp_of E A) (p + Z.of_nat (length c)) self m Q ->
    from h (layout E A temps) (fp_of E A) p self m Q.

(** Both, since the code of an assignment whose value is dropped is shorter. *)
Definition sim_expr (E : env) (h : heap) (x : ast) (v : sexp) (h' : heap) : Prop :=
  sim_eval E h x v h' /\ match x with SetE r y => sim_set E h r y h' | _ => True end.

Definition need_seq (ls : list ast) : Z := fold_right (fun x m => Z.max (need x) m) 1 ls.

Definition sim_seq (E : env) (h : heap) (ls : list ast) (v : sexp) (h' : heap) : Prop :=
  forall A temps self m Q tail c p,
    wf T h -> self_vars h self (e_vars E) -> gc_seq T (e_lam E) tail ls c -> bytes_at h self p c ->
    Z.of_nat (length (layout E A temps)) + need_seq ls <= m ->
    from h' (layout E A temps ++ [v]) (fp_of E A) (p + Z.of_nat (length c)) self m Q ->
    (tail = true -> from h' (a_base A ++ [v]) (a_fp A) (a_ret A) (a_self A) m Q) ->
    from h (layout E A temps) (fp_of E A) p self m Q.

Definition need_args (args : list ast) : Z :=
  (fold_right (fun x a => (Z.max (need x + a.2) a.1, a.2 + 1)) (0, 0) args).1.

Definition sim_args (E : env) (h : heap) (args : list ast) (vs : list sexp) (h' : heap) : Prop :=
  forall A temps self m Q c p,
    wf T h -> self_vars h self (e_vars E) -> gc_args T (e_lam E) args c -> bytes_at h self p c ->
    Z.of_nat (length (layout E A temps)) + need_args args <= m ->
    from h' (layout E A temps ++ rev vs) (fp_of E A) (p + Z.of_nat (length c)) self m Q ->
    from h (layout E A temps) (fp_of E A) p self m Q.

(** The outcome of a call that leaves the machine running or out of stack. *)
Definition reaches (r : res unit) (Q : config -> Prop) : Prop :=
  match r with Val _ s => reach Q (Run s) | End s => oos s | _ => False end.

Definition sim_apply (h : heap) (proc : sexp) (vs : list sexp) (v : sexp) (h' : heap) : Prop :=
  forall A m Q j,
    wf T h ->
    live h (a_base A ++ rev vs ++ [proc]) (a_fp A) (a_ret A - 8) (a_self A) m
      (Run (mk h (a_base A ++ rev vs ++ [proc]) j (a_fp A) (a_ret A - 8) (a_self A))) ->
    Z.of_nat (length (a_base A) + length vs) + 3 <= m ->
    from h' (a_base A ++ [v]) (a_fp A) (a_ret A) (a_self A) m Q ->
    reaches (make_call (Z.of_nat (length vs)) proc
               (mk h (a_base A ++ rev vs ++ [proc]) j (a_fp A) (a_ret A - 8) (a_self A))) Q.

(** ** Expressions without subexpressions *)

Lemma bytes_at_0 h self p c : bytes_at h self p c -> bytes_at h self p (c ++ []).
Proof. by rewrite app_nil_r. Qed.

Lemma length_opw o w : length (opw o w) = 9%nat.
Proof. done. Qed.

Lemma length_word_cells w : length (word_cells w) = 8%nat.
Proof. done. Qed.

#[local] Hint Rewrite length_opw length_word_cells : lens.

Lemma sim_lit E h v : sim_expr E h (Lit v) v h.
Proof.
  split; [|done]. intros A temps self m Q tail c p _ _ Hg Hb Hm HQ _. inversion Hg; subst.
  eapply from_push; [by apply bytes_at_0|cbn in Hm; lia|]. exact HQ.
Qed.

Lemma sim_self E h v : sim_expr E h (Self v) v h.
Proof.
  split; [|done]. intros A temps self m Q tail c p _ _ Hg Hb Hm HQ _. inversion Hg; subst.
  eapply from_push; [by apply bytes_at_0|cbn in Hm; lia|]. exact HQ.
Qed.

Lemma sim_global E h name cell v : sexp_cdr h cell = Some v -> v <> SEXP_UNDEF ->
  sim_expr E h (RefE (Ref name (Global cell))) v h.
Proof.
  intros Hv Hu. split; [|done]. intros A temps self m Q tail c p _ _ Hg Hb Hm HQ _. inversion Hg; subst.
  eapply from_global; [eassumption|by apply bytes_at_0|cbn in Hm; lia|done|done|]. exact HQ.
Qed.

Lemma from_var E A temps h self m Q lf name loc w p c :
  self_vars h self (e_vars E) -> e_lam E = Some lf -> variable E h name loc = Some w ->
  bytes_at h self p (var_code lf name loc ++ c) -> Z.of_nat (length (layout E A temps)) + 1 <= m ->
  from h (layout E A temps ++ [w]) (fp_of E A) (p + 9) self m Q ->
  from h (layout E A temps) (fp_of E A) p self m Q.
Proof.
  intros Hs Hl Hw Hb Hm HQ. unfold variable in Hw. rewrite Hl in Hw. destruct lf as [l fv]. unfold var_code in Hb. cbn in Hb.
  destruct (bool_decide (lam_id loc = lam_id l)).
  - destruct (slot_lookup E A temps _ _ Hw) as [H0 Hget]. eapply from_local_ref; [exact Hb|lia|lia|exact Hget|exact HQ].
  - eapply from_closure_ref; [exact Hb|lia|exact Hs|exact Hw|exact HQ].
Qed.

Lemma length_var_code lf name loc : length (var_code lf name loc) = 9%nat.
Proof. unfold var_code. by destruct (bool_decide _). Qed.

#[local] Hint Rewrite length_var_code : lens.

Lemma sim_variable E h name loc w v : variable E h name loc = Some w -> value_of h name loc w = Some v ->
  sim_expr E h (RefE (Ref name (Within loc))) v h.
Proof.
  intros Hw Hv. split; [|done]. intros A temps self m Q tail c p Hwf Hs Hg Hb Hm HQ _. inversion Hg; subst.
  eapply from_var; [done|done|exact Hw|exact Hb|cbn in Hm; lia|]. unfold value_of in Hv.
  apply bytes_at_app in Hb as [_ Hb]. rewrite length_var_code in Hb.
  destruct (memq name (lam_sv loc)); [|injection Hv as ->; by rewrite app_nil_r, length_var_code in HQ].
  eapply (from_prim _ _ _ OP_CDR _ [w] (Some v)); [exact Hb|cbn; by rewrite Hv|]. cbn.
  rewrite length_app, length_var_code in HQ. cbn in HQ. by replace (p + 9 + 1) with (p + 10) by lia.
Qed.

(** ** Assignments *)

(** Advances to the code after [c1]. *)
Ltac split_code Hb Hb' := apply bytes_at_app in Hb as [Hb Hb'].

(** The machine's position, up to arithmetic. *)
Lemma from_pos h l fp p p' self m Q : p = p' -> from h l fp p' self m Q -> from h l fp p self m Q.
Proof. by intros ->. Qed.

Ltac code_here Hb := match type of Hb with bytes_at _ _ ?q _ => match goal with |- bytes_at _ _ ?p _ =>
  replace p with q by lia; exact Hb end end.
Ltac at_pos HQ := eapply from_pos; [|exact HQ]; llia.

Lemma sim_assign E h r x h' : ext h h' -> sim_set E h r x h' -> sim_expr E h (SetE r x) SEXP_VOID h'.
Proof.
  intros He Hs. split; [|exact Hs]. intros A temps self m Q tail c p Hwf Hv Hg Hb Hm HQ _. inversion Hg; subst.
  split_code Hb Hb'. eapply Hs; [done..|exact Hm|].
  eapply from_push; [by apply bytes_at_0; eapply bytes_at_ext|cbn in Hm; lia|at_pos HQ].
Qed.

Lemma need_pos x : 1 <= need x.
Proof.
  induction x as [| | | | |ls H| | |] using ast_ind'; cbn; try lia.
  induction H as [|x ls Hx _ IH]; cbn; lia.
Qed.

Lemma sim_set_global E h h1 h2 name cell x v old :
  sim_eval E h x v h1 -> ext h h1 -> sexp_cdr h1 cell = Some old -> old <> SEXP_UNDEF -> assign h1 cell v = Some h2 ->
  sim_set E h (Ref name (Global cell)) x h2.
Proof.
  intros Hx He Ho Hu Ha A temps self m Q c p Hwf Hv Hg Hb Hm HQ. inversion Hg; subst.
  split_code Hb Hb'. eapply Hx; [done..|lia| |done].
  apply (bytes_at_ext _ _ _ _ _ He) in Hb'. split_code Hb' Hb2.
  assert (from h1 (layout E A temps ++ [v]) (fp_of E A) (p + Z.of_nat (length cx) + Z.of_nat (length pre)) self m Q) as Hpush.
  { eapply from_push; [exact Hb2|llia|]. split_code Hb2 Hb3. rewrite <- app_assoc. cbn [app].
    eapply (from_prim _ _ _ OP_SET_CDR _ [cell; v] None); [exact Hb3|cbn; by rewrite Ha|].
    rewrite app_nil_r. at_pos HQ. }
  match goal with Hp : pre = [] \/ _ |- _ => destruct Hp as [-> | ->]; [at_pos Hpush|] end.
  eapply from_global; [by left|exact Hb'|llia|done|done|].
  split_code Hb' Hb3. eapply from_drop; [exact Hb3|]. at_pos Hpush.
Qed.

(** The context of the code, in terms of the activation. *)
Ltac lam_eq := repeat match goal with H : Some _ = e_lam _, H2 : gc _ (Some _) _ _ _ |- _ => rewrite H in H2 end.

Lemma sim_set_variable E h h1 h2 name loc x v box :
  sim_eval E h x v h1 -> ext h h1 -> variable E h1 name loc = Some box -> assign h1 box v = Some h2 ->
  sim_set E h (Ref name (Within loc)) x h2.
Proof.
  intros Hx He Hbox Ha A temps self m Q c p Hwf Hv Hg Hb Hm HQ. inversion Hg; subst. lam_eq.
  split_code Hb Hb'. eapply Hx; [done..|lia| |done].
  apply (bytes_at_ext _ _ _ _ _ He) in Hb'. rewrite <- layout_app.
  eapply from_var; [by eapply self_vars_ext|done|exact Hbox|exact Hb'|rewrite layout_app; llia|].
  split_code Hb' Hb2. rewrite length_var_code in Hb2. rewrite layout_app, <- app_assoc. cbn [app].
  eapply (from_prim _ _ _ OP_SET_CDR _ [box; v] None); [exact Hb2|cbn; by rewrite Ha|].
  rewrite app_nil_r. at_pos HQ.
Qed.

(** ** Control *)

Lemma sim_cnd E h h1 h2 t p f vt v :
  sim_eval E h t vt h1 -> ext h h1 -> sim_eval E h1 (if sexp_not vt then f else p) v h2 -> ext h1 h2 ->
  sim_expr E h (Cnd t p f) v h2.
Proof.
  intros Ht He Hpf He2. split; [|done]. intros A temps self m Q tail c q Hwf Hv Hg Hb Hm HQ Htail. inversion Hg; subst.
  cbn [need] in Hm. split_code Hb Hb'. eapply Ht; [done..|lia| |done].
  apply (bytes_at_ext _ _ _ _ _ He) in Hb'. eapply from_jump_unless; [exact Hb'|].
  split_code Hb' Hp. split_code Hp Hj. pose proof Hj as Hf. apply bytes_at_app in Hf as [_ Hf]. autorewrite with lens in Hp, Hj, Hf.
  pose proof (wf_ext _ _ He Hwf) as Hwf1. pose proof (self_vars_ext _ _ _ _ He Hv) as Hv1.
  destruct (sexp_not vt).
  - eapply from_pos; [|eapply (Hpf _ _ _ _ _ _ _ _ Hwf1 Hv1); [done|exact Hf|lia|at_pos HQ|done]]. llia.
  - eapply from_pos; [|eapply (Hpf _ _ _ _ _ _ _ _ Hwf1 Hv1); [done|exact Hp|lia| |done]]; [llia|].
    eapply from_jump; [by eapply bytes_at_ext|]. at_pos HQ.
Qed.

Lemma sim_seq_last E h x v h' : sim_eval E h x v h' -> sim_seq E h [x] v h'.
Proof.
  intros Hx A temps self m Q tail c p Hwf Hv Hg Hb Hm HQ Htail. inversion Hg; subst. cbn in Hm.
  eapply Hx; [done..|lia|done|done].
Qed.

Lemma sim_seq_cons E h h1 h2 x y ls w v : eval T E h x w h1 ->
  sim_expr E h x w h1 -> ext h h1 -> sim_seq E h1 (y :: ls) v h2 -> sim_seq E h (x :: y :: ls) v h2.
Proof.
  intros Hev [Hx Hset] He Hls A temps self m Q tail c p Hwf Hv Hg Hb Hm HQ Htail.
  pose proof (wf_ext _ _ He Hwf) as Hwf1. pose proof (self_vars_ext _ _ _ _ He Hv) as Hv1.
  change (need_seq (x :: y :: ls)) with (Z.max (need x) (need_seq (y :: ls))) in Hm. inversion Hg; subst.
  - inversion Hev; subst. eapply Hls; [done..|lia|done|done].
  - split_code Hb Hb'. apply (bytes_at_ext _ _ _ _ _ He) in Hb'. cbn [need] in Hm.
    eapply Hset; [done..|lia|]. eapply (Hls _ _ _ _ _ _ _ _ Hwf1 Hv1); [done|exact Hb'|lia|at_pos HQ|done].
  - split_code Hb Hb'. apply (bytes_at_ext _ _ _ _ _ He) in Hb'.
    eapply Hx; [done..|lia| |done]. eapply from_drop; [exact Hb'|]. apply bytes_at_cons in Hb'.
    eapply (Hls _ _ _ _ _ _ _ _ Hwf1 Hv1); [done|exact Hb'|lia|at_pos HQ|done].
Qed.

Lemma sim_sequence E h ls v h' : sim_seq E h ls v h' -> sim_expr E h (Seq ls) v h'.
Proof.
  intros Hls. split; [|done]. intros A temps self m Q tail c p Hwf Hv Hg Hb Hm HQ Htail. inversion Hg; subst.
  eapply Hls; [done..|exact Hm|done|done].
Qed.

Lemma need_args_cons x ls : need_args (x :: ls) = Z.max (need x + Z.of_nat (length ls)) (need_args ls).
Proof.
  assert (forall ls, (fold_right (fun x a => (Z.max (need x + a.2) a.1, a.2 + 1)) (0, 0) ls).2 = Z.of_nat (length ls)) as Hn.
  { induction ls0 as [|y ls0 IH]; cbn [fold_right snd length]; [done|]. rewrite IH. lia. }
  unfold need_args. cbn [fold_right fst]. by rewrite Hn.
Qed.

Lemma sim_args_nil E h : sim_args E h [] [] h.
Proof.
  intros A temps self m Q c p _ _ Hg Hb Hm HQ. inversion Hg; subst. rewrite app_nil_r in HQ. cbn in HQ. by rewrite Z.add_0_r in HQ.
Qed.

Lemma eval_args_length E h args vs h' : eval_args T E h args vs h' -> length args = length vs.
Proof. induction 1; cbn; congruence. Qed.

Lemma sim_args_cons E h h1 h2 x ls vs v : length ls = length vs ->
  sim_args E h ls vs h1 -> ext h h1 -> sim_eval E h1 x v h2 -> sim_args E h (x :: ls) (v :: vs) h2.
Proof.
  intros Hlen Hls He Hx A temps self m Q c p Hwf Hv Hg Hb Hm HQ.
  pose proof (wf_ext _ _ He Hwf) as Hwf1. pose proof (self_vars_ext _ _ _ _ He Hv) as Hv1.
  rewrite need_args_cons in Hm. inversion Hg; subst. split_code Hb Hb'. apply (bytes_at_ext _ _ _ _ _ He) in Hb'.
  eapply Hls; [done..|lia|]. rewrite <- layout_app.
  eapply (Hx _ _ _ _ _ _ _ _ Hwf1 Hv1); [done|exact Hb'|rewrite layout_app; llia| |done].
  rewrite layout_app, <- app_assoc. at_pos HQ.
Qed.

(** ** Closures *)

Lemma sim_lambda_closed E h i body p : closed_of T !! lam_id i = Some p -> sim_expr E h (Lambda i [] body) (Ptr p) h.
Proof.
  intros Hp. split; [|done]. intros A temps self m Q tail c q _ _ Hg Hb Hm HQ _. inversion Hg; subst; [|done].
  simplify_eq. eapply from_push; [by apply bytes_at_0|cbn in Hm; lia|exact HQ].
Qed.

Lemma ext_fresh h l o : h !! l = None -> ext h (<[l := o]> h).
Proof. intros Hl l2 o2 Hl2 _. rewrite lookup_insert_ne; [done|]. intros <-. congruence. Qed.

Lemma variable_fresh E h l o name loc w : h !! l = None -> variable E h name loc = Some w ->
  variable E (<[l := o]> h) name loc = Some w.
Proof.
  intros Hl. unfold variable, vector_ref. destruct (e_lam E) as [[lam fv]|]; [|done].
  destruct (bool_decide _); [done|]. destruct (e_vars E) as [| | | | | | | | | | | |lv]; try done. cbn.
  destruct (decide (lv = l)) as [->|Hne]; [by rewrite Hl|by rewrite lookup_insert_ne].
Qed.

Definition captured (E : env) (h : heap) (r : ref) (w : sexp) : Prop :=
  exists loc, ref_where r = Within loc /\ variable E h (ref_name r) loc = Some w.

Lemma length_capture_code lf k r loc : ref_where r = Within loc -> length (capture_code lf k r) = 28%nat.
Proof. intros Hr. unfold capture_code, ref_code. rewrite Hr. llia. Qed.

Lemma from_capture E A temps h self m Q lf r k l data w p c :
  h !! l = None -> self_vars h self (e_vars E) -> e_lam E = Some lf -> captured E h r w -> (k < length data)%nat ->
  bytes_at h self p (capture_code lf k r ++ c) -> Z.of_nat (length (layout E A temps)) + 4 <= m ->
  from (<[l := Vector (<[k := w]> data) false]> h) (layout E A temps ++ [Ptr l]) (fp_of E A) (p + 28) self m Q ->
  from (<[l := Vector data false]> h) (layout E A temps ++ [Ptr l]) (fp_of E A) p self m Q.
Proof.
  intros Hl Hv Hlf (loc & Hr & Hw) Hk Hb Hm HQ. set (hv := <[l := Vector data false]> h).
  assert (ext h hv) as He by by apply ext_fresh. unfold capture_code, ref_code in Hb. rewrite Hr, <- !app_assoc in Hb.
  apply (bytes_at_ext _ _ _ _ _ He) in Hb. rewrite <- layout_app.
  eapply from_var; [by eapply self_vars_ext|exact Hlf|by apply variable_fresh|exact Hb|rewrite layout_app; llia|].
  apply bytes_at_app in Hb as [_ Hb]. rewrite length_var_code in Hb. rewrite layout_app.
  eapply from_push; [exact Hb|llia|]. apply bytes_at_app in Hb as [_ Hb]. rewrite <- !app_assoc. cbn [app].
  eapply (from_stack_ref _ _ _ _ _ [Ptr l; w; Fixnum (Z.of_nat k)]); [exact Hb|llia|cbn; lia|reflexivity|].
  apply bytes_at_app in Hb as [_ Hb]. cbn [app].
  rewrite (cons_middle (Ptr l)). rewrite app_assoc.
  eapply (from_prim _ _ _ OP_VECTOR_SET _ [Ptr l; Fixnum (Z.of_nat k); w] None); [exact Hb| |].
  - cbn. unfold hv. rewrite lookup_insert_eq. rewrite (proj2 (Z.leb_le _ _)), (proj2 (Z.ltb_lt _ _)) by lia. cbn.
    rewrite Nat2Z.id. by rewrite insert_insert_eq.
  - rewrite app_nil_r. at_pos HQ.
Qed.

Lemma from_captures E A temps self m Q lf h l : h !! l = None -> self_vars h self (e_vars E) -> e_lam E = Some lf ->
  Z.of_nat (length (layout E A temps)) + 4 <= m -> forall fv ws, Forall2 (captured E h) fv ws -> forall ws1 p c,
  bytes_at h self p (captures_code lf (length ws1) fv ++ c) ->
  from (<[l := Vector (ws1 ++ ws) false]> h) (layout E A temps ++ [Ptr l]) (fp_of E A)
    (p + Z.of_nat (length (captures_code lf (length ws1) fv))) self m Q ->
  from (<[l := Vector (ws1 ++ replicate (length fv) SEXP_VOID) false]> h) (layout E A temps ++ [Ptr l]) (fp_of E A) p self m Q.
Proof.
  intros Hl Hv Hlf Hm fv ws. induction 1 as [|r w fv ws Hw _ IH]; intros ws1 p c Hb HQ; cbn [captures_code length replicate] in *.
  - by rewrite Z.add_0_r in HQ.
  - rewrite <- app_assoc in Hb. pose proof Hw as (loc & Hr & _).
    eapply from_capture; [done..|exact Hw| |exact Hb|done|].
    { rewrite length_app. cbn [length]. lia. }
    apply bytes_at_app in Hb as [_ Hb]. rewrite (length_capture_code _ _ _ _ Hr) in Hb.
    rewrite insert_at, cons_middle, app_assoc.
    replace (S (length ws1)) with (length (ws1 ++ [w])) in * by llia.
    eapply IH; [exact Hb|]. rewrite <- app_assoc. cbn [app]. rewrite length_app, (length_capture_code _ _ _ _ Hr) in HQ.
    at_pos HQ.
Qed.

Lemma alloc_at h o o' v h' : alloc h o = (v, h') -> exists l, v = Ptr l /\ h !! l = None /\ h' = <[l := o]> h /\
  alloc h o' = (Ptr l, <[l := o']> h).
Proof.
  unfold alloc. intros [= <- <-]. eexists. split_and!; [done| |done|done].
  apply not_elem_of_dom, is_fresh.
Qed.

Lemma sim_lambda_open E h i fv body ws b vec h1 v h2 :
  fv <> [] -> Forall2 (captured E h) fv ws -> code_of T !! lam_id i = Some b ->
  alloc h (Vector ws false) = (vec, h1) ->
  alloc h1 (Procedure (lambda_flags i body) (Z.of_nat (length (lam_params i))) (Ptr b) vec) = (v, h2) ->
  sim_expr E h (Lambda i fv body) v h2.
Proof.
  intros Hfv Hws Hc Ha1 Ha2. split; [|done]. intros A temps self m Q tail c p Hwf Hv Hg Hb Hm HQ _.
  inversion Hg; subst; [done|]. simplify_eq. cbn [need] in Hm. pose proof (Forall2_length _ _ _ Hws) as Hlen.
  destruct (alloc_at _ _ (Vector (replicate (length fv) SEXP_VOID) false) _ _ Ha1) as (l & -> & Hl & -> & Ha0).
  pose proof (ext_fresh h l (Vector (replicate (length fv) SEXP_VOID) false) Hl) as He.
  assert (0 < length fv)%nat as Hn by (destruct fv; [done|cbn; lia]).
  eapply from_push; [exact Hb|lia|]. apply bytes_at_app in Hb as [_ Hb].
  eapply from_push; [exact Hb|llia|]. apply bytes_at_app in Hb as [_ Hb].
  rewrite <- (app_assoc _ [SEXP_VOID]). cbn [app].
  eapply from_make_vector; [exact Hb|lia|rewrite Nat2Z.id; exact Ha0|]. apply bytes_at_cons in Hb.
  match goal with Hlf : Some ?lf = e_lam E |- _ =>
    apply (from_captures E A temps self m Q lf h l Hl Hv (eq_sym Hlf) Hm fv ws Hws [] _ _ Hb) end.
  apply bytes_at_app in Hb as [_ Hb]. cbn [app].
  apply (bytes_at_ext _ _ _ _ _ (ext_fresh h l (Vector ws false) Hl)) in Hb.
  rewrite <- (app_nil_r (word_cells (WObj (Ptr b)))) in Hb.
  eapply from_make_procedure; [exact Hb|exact Ha2|].
  at_pos HQ.
Qed.

(** ** Operators *)

Lemma from_arith h fp self m Q o r : forall vs l z p c,
  bytes_at h self p (replicate (length vs) (COp o) ++ c) -> arith_fold o z vs = Some r ->
  from h (l ++ [Fixnum r]) fp (p + Z.of_nat (length vs)) self m Q ->
  from h (l ++ rev vs ++ [Fixnum z]) fp p self m Q.
Proof.
  induction vs as [|v vs IH]; intros l z p c Hb Hf HQ; cbn [arith_fold length replicate rev app] in *.
  - injection Hf as ->. by rewrite Z.add_0_r in HQ.
  - destruct v as [y| | | | | | | | | | | |]; try done. destruct (fixnum_op o z y) as [acc|] eqn:Eo; [|done]. cbn in Hf.
    rewrite <- app_assoc, app_assoc. cbn [app]. eapply from_fixnum; [exact Hb|exact Eo|]. apply bytes_at_cons in Hb.
    rewrite <- app_assoc. eapply IH; [exact Hb|exact Hf|at_pos HQ].
Qed.

Lemma from_stack_refs h l u v s k fp p self m Q c :
  bytes_at h self p (stack_ref_code k ++ stack_ref_code k ++ c) ->
  Z.of_nat (length (l ++ u :: v :: s)) + 2 <= m -> k = Z.of_nat (length (u :: v :: s)) ->
  from h (l ++ u :: v :: s ++ [u; v]) fp (p + 18) self m Q ->
  from h (l ++ u :: v :: s) fp p self m Q.
Proof.
  intros Hb Hm -> HQ. unfold stack_ref_code in Hb.
  eapply from_stack_ref; [exact Hb|llia|llia|rewrite Nat2Z.id, Nat.sub_diag; reflexivity|]. apply bytes_at_app in Hb as [_ Hb].
  cbn [app]. eapply from_stack_ref; [exact Hb|llia|llia| |].
  - replace (length (u :: v :: s ++ [u]) - Z.to_nat (Z.of_nat (length (u :: v :: s))))%nat with 1%nat by llia. reflexivity.
  - cbn [app]. rewrite <- app_assoc. cbn [app]. at_pos HQ.
Qed.

Lemma truep_boolean b : sexp_truep (sexp_make_boolean b) = b.
Proof. by destruct b. Qed.

Lemma chain_test_cons t y z zs : chain_test t (y :: z :: zs) = t y z && chain_test t (z :: zs).
Proof. done. Qed.

Lemma length_chain_code o n : length (chain_code o n) = (21 * n)%nat.
Proof. induction n as [|n IH]; [done|]. cbn [chain_code]. unfold stack_ref_code. llia. Qed.

#[local] Hint Rewrite length_chain_code : lens.

Lemma from_chain h fp self m Q o t : fixnum_test o = Some t -> forall zs l y b p c,
  bytes_at h self p (chain_code o (length zs) ++ c) -> Z.of_nat (length l + length zs) + 4 <= m ->
  (forall z, from h (l ++ [Fixnum z; sexp_make_boolean (b && chain_test t (y :: zs))]) fp (p + 21 * Z.of_nat (length zs)) self m Q) ->
  from h (l ++ rev (map Fixnum zs) ++ [Fixnum y; sexp_make_boolean b]) fp p self m Q.
Proof.
  intros Ht. induction zs as [|z zs IH]; intros l y b p c Hb Hm HQ; cbn [chain_code length map rev app] in *.
  - specialize (HQ y). cbn in HQ. rewrite andb_true_r, Z.add_0_r in HQ. exact HQ.
  - rewrite <- !app_assoc in *. cbn [app] in *. rewrite (app_assoc l).
    eapply from_stack_refs; [exact Hb|llia|done|]. do 2 apply bytes_at_app in Hb as [_ Hb]. unfold stack_ref_code in Hb.
    autorewrite with lens in Hb. cbn [app].
    replace ((l ++ rev (map Fixnum zs)) ++ Fixnum z :: Fixnum y :: sexp_make_boolean b :: [Fixnum z; Fixnum y])
      with (((l ++ rev (map Fixnum zs)) ++ [Fixnum z; Fixnum y; sexp_make_boolean b]) ++ [Fixnum z; Fixnum y]) by by list_simplifier.
    eapply from_compare; [code_here Hb|exact Ht|]. apply bytes_at_cons in Hb.
    rewrite <- app_assoc. cbn [app]. rewrite (app_assoc _ [Fixnum z; Fixnum y]) || idtac.
    replace ((l ++ rev (map Fixnum zs)) ++ [Fixnum z; Fixnum y; sexp_make_boolean b; sexp_make_boolean (t y z)])
      with (((l ++ rev (map Fixnum zs)) ++ [Fixnum z; Fixnum y]) ++ [sexp_make_boolean b; sexp_make_boolean (t y z)]) by by list_simplifier.
    eapply from_and; [code_here Hb|]. apply bytes_at_cons in Hb. rewrite !truep_boolean, <- app_assoc. cbn [app].
    rewrite (cons_middle (Fixnum z)), app_assoc.
    eapply from_and; [code_here Hb|]. apply bytes_at_cons in Hb. rewrite !truep_boolean, andb_true_r, <- !app_assoc. cbn [app].
    eapply IH; [code_here Hb|llia|]. intros z'. specialize (HQ z'). rewrite chain_test_cons, andb_assoc, (andb_comm b) in HQ.
    at_pos HQ.
Qed.

Lemma fixnums_map vs zs : fixnums vs = Some zs -> vs = map Fixnum zs.
Proof.
  revert zs. induction vs as [|v vs IH]; intros zs; cbn; [by intros [= <-]|].
  destruct v; try done. cbn. destruct (fixnums vs) as [zs'|] eqn:E; unfold fixnums in E; rewrite E; [|done].
  intros [= <-]. cbn. f_equal. by apply IH.
Qed.

(** The code of a comparison of at least two numbers. *)
Lemma from_comparison h l fp self m Q o t zs p c :
  fixnum_test o = Some t -> (2 <= length zs)%nat -> bytes_at h self p (compare_code o (length zs) ++ c) ->
  Z.of_nat (length l + length zs) + 3 <= m ->
  from h (l ++ [sexp_make_boolean (chain_test t zs)]) fp (p + Z.of_nat (length (compare_code o (length zs)))) self m Q ->
  from h (l ++ rev (map Fixnum zs)) fp p self m Q.
Proof.
  intros Ht Hn Hb Hm HQ. destruct zs as [|x [|y zs]]; [cbn in Hn; lia..|]. clear Hn. unfold compare_code in *.
  destruct zs as [|z zs]; cbn [length Nat.ltb Nat.leb map rev app] in *.
  - eapply from_compare; [exact Hb|exact Ht|]. cbn in HQ. rewrite andb_true_r in HQ. exact HQ.
  - set (zs' := z :: zs) in *. change (S (length zs)) with (length zs') in *. replace (S (S (length zs')) - 2)%nat with (length zs') in * by lia.
    change ((rev (map Fixnum zs) ++ [Fixnum z])) with (rev (map Fixnum zs')).
    rewrite <- !app_assoc in Hb. rewrite <- !app_assoc. cbn [app]. rewrite (app_assoc l).
    eapply from_stack_refs; [exact Hb|llia|done|]. do 2 apply bytes_at_app in Hb as [_ Hb]. unfold stack_ref_code in Hb, HQ.
    autorewrite with lens in Hb. rewrite <- !app_comm_cons, <- (app_assoc (chain_code _ _)) in Hb. cbn [app]. set (l' := l ++ rev (map Fixnum zs')).
    replace (l' ++ [Fixnum y; Fixnum x; Fixnum y; Fixnum x]) with ((l' ++ [Fixnum y; Fixnum x]) ++ [Fixnum y; Fixnum x])
      by by list_simplifier.
    eapply from_compare; [code_here Hb|exact Ht|]. apply bytes_at_cons in Hb.
    replace ((l' ++ [Fixnum y; Fixnum x]) ++ [sexp_make_boolean (t x y)])
      with ((l' ++ [Fixnum y]) ++ [Fixnum x; sexp_make_boolean (t x y)]) by by list_simplifier.
    eapply from_and; [code_here Hb|]. apply bytes_at_cons in Hb. rewrite !truep_boolean, andb_true_r.
    subst l'. rewrite <- !app_assoc. cbn [app].
    eapply from_chain; [exact Ht|code_here Hb|llia|]. intros z'. apply bytes_at_app in Hb as [_ Hb].
    rewrite length_chain_code in Hb. eapply from_and; [code_here Hb|]. rewrite !truep_boolean, andb_true_r.
    rewrite <- chain_test_cons. at_pos HQ.
Qed.

Lemma plain_op_class op : plain_op op = true ->
  op_class_of op <> OPC_ARITHMETIC /\ op_class_of op <> OPC_ARITHMETIC_CMP.
Proof. unfold plain_op. destruct (op_class_of op); intros H; rewrite ?andb_false_r in H; done. Qed.

(** What remains of an operator application once its operands are pushed. *)
Lemma sim_operator E h l op args vs h1 v h2 : length args = length vs -> ext h h1 -> sim_args E h args vs h1 ->
  (forall A temps self m Q co p, operator_code op (length args) = Some co -> bytes_at h1 self p co ->
     Z.of_nat (length (layout E A temps)) + Z.of_nat (length args) + 3 <= m ->
     from h2 (layout E A temps ++ [v]) (fp_of E A) (p + Z.of_nat (length co)) self m Q ->
     from h1 (layout E A temps ++ rev vs) (fp_of E A) p self m Q) ->
  sim_expr E h (OpApp l op args) v h2.
Proof.
  intros Hlen He Ha Hop. split; [|done]. intros A temps self m Q tail c p Hwf Hv Hg Hb Hm HQ _. inversion Hg; subst.
  change (need (OpApp l op args)) with (Z.max (need_args args) (Z.of_nat (length args) + 3)) in Hm.
  split_code Hb Hb'. apply (bytes_at_ext _ _ _ _ _ He) in Hb'.
  eapply Ha; [done..|lia|]. eapply Hop; [done|exact Hb'|lia|at_pos HQ].
Qed.

Lemma sim_prim E h l op args vs h1 (r : option sexp) h2 :
  plain_op op = true -> op_inverse op = false -> returns_void op = (match r with Some _ => false | None => true end) ->
  length args = length vs -> ext h h1 -> sim_args E h args vs h1 -> prim (op_code op) h1 vs = Some (r, h2) ->
  sim_expr E h (OpApp l op args) (default SEXP_VOID r) h2.
Proof.
  intros Hp Hi Hr Hlen He Ha Hprim. eapply sim_operator; [done..|]. intros A temps self m Q co p Hco Hb Hm HQ.
  pose proof (plain_op_class _ Hp) as [Hc1 Hc2]. unfold operator_code, prim_op, arith_op, compare_op in Hco.
  rewrite Hp, Hi, !bool_decide_eq_false_2 in Hco by (done || by intros Ho; rewrite Ho in Hprim). cbn in Hco. injection Hco as <-.
  eapply from_prim; [exact Hb|exact Hprim|]. apply bytes_at_cons in Hb. rewrite Hr in Hb, HQ.
  destruct r as [x|]; cbn [option_list default] in *; [cbn in HQ; exact HQ|]. rewrite app_nil_r.
  apply (bytes_at_ext _ _ _ _ _ (ext_prim _ _ _ _ _ Hprim)) in Hb.
  eapply from_push; [by apply bytes_at_0|lia|at_pos HQ].
Qed.

Lemma operator_code_arith op n co : op_class_of op = OPC_ARITHMETIC -> operator_code op n = Some co ->
  co = replicate (n - 1) (COp (op_code op)).
Proof.
  intros Hc. unfold operator_code. destruct (prim_op op) eqn:E1.
  { unfold prim_op, plain_op in E1. by rewrite Hc, andb_false_r in E1. }
  destruct (arith_op op n); [by intros [= <-]|]. destruct (compare_op op n) eqn:E2; [|done].
  unfold compare_op in E2. by rewrite Hc in E2.
Qed.

Lemma operator_code_compare op n co : op_class_of op = OPC_ARITHMETIC_CMP -> operator_code op n = Some co ->
  co = compare_code (op_code op) n.
Proof.
  intros Hc. unfold operator_code. destruct (prim_op op) eqn:E1.
  { unfold prim_op, plain_op in E1. by rewrite Hc, andb_false_r in E1. }
  destruct (arith_op op n) eqn:E2; [unfold arith_op in E2; by rewrite Hc in E2|].
  by destruct (compare_op op n); intros [= <-].
Qed.

Lemma sim_arith E h l op args z vs h1 r :
  op_class_of op = OPC_ARITHMETIC -> length args = length (Fixnum z :: vs) -> ext h h1 ->
  sim_args E h args (Fixnum z :: vs) h1 -> arith_fold (op_code op) z vs = Some r ->
  sim_expr E h (OpApp l op args) (Fixnum r) h1.
Proof.
  intros Hc Hlen He Ha Hf. eapply sim_operator; [done..|]. intros A temps self m Q co p Hco Hb Hm HQ.
  apply (operator_code_arith _ _ _ Hc) in Hco as ->. rewrite Hlen in *. cbn [length Nat.sub] in *. rewrite Nat.sub_0_r in *.
  cbn [rev]. eapply from_arith; [by apply bytes_at_0|exact Hf|at_pos HQ].
Qed.

Lemma sim_compare E h l op args vs h1 t zs :
  op_class_of op = OPC_ARITHMETIC_CMP -> length args = length vs -> ext h h1 -> sim_args E h args vs h1 ->
  fixnum_test (op_code op) = Some t -> fixnums vs = Some zs -> (2 <= length zs)%nat ->
  sim_expr E h (OpApp l op args) (sexp_make_boolean (chain_test t zs)) h1.
Proof.
  intros Hc Hlen He Ha Ht Hz Hn. eapply sim_operator; [done..|]. intros A temps self m Q co p Hco Hb Hm HQ.
  apply (operator_code_compare _ _ _ Hc) in Hco as ->. apply fixnums_map in Hz as ->. rewrite length_map in Hlen.
  rewrite Hlen in *. eapply from_comparison; [exact Ht|exact Hn|by apply bytes_at_0|llia|exact HQ].
Qed.

(** ** Calls *)

(** The instruction of a call ends with [make_call]. *)
Lemma reach_call h l j fp p self o c Q : bytes_at h self p (COp o :: c) ->
  reaches (exec_op foreign o (mk h l j fp (p + 1) self)) Q -> reach Q (Run (mk h l j fp p self)).
Proof.
  intros Hb Hr. assert (step foreign (Run (mk h l j fp p self)) = after (exec_op foreign o (mk h l j fp (p + 1) self))) as Hs.
  { cbn [step]. by rewrite (bind_val _ _ _ _ _ (fetch_op_spec _ _ _ _ _ _ _ _ _ _ Hb)). }
  destruct (exec_op foreign o (mk h l j fp (p + 1) self)) as [[] s| |s| |]; try done.
  - by eapply reach_step.
  - by eapply reach_oos.
Qed.

Lemma from_call h base vs proc v h' fp p self m c Q :
  sim_apply h proc vs v h' -> wf T h -> bytes_at h self p (opw OP_CALL (WObj (Fixnum (Z.of_nat (length vs)))) ++ c) ->
  Z.of_nat (length base + length vs) + 3 <= m ->
  from h' (base ++ [v]) fp (p + 9) self m Q -> from h (base ++ rev vs ++ [proc]) fp p self m Q.
Proof.
  intros Ha Hwf Hb Hm HQ c0 (j & -> & Hj & Hg). eapply reach_call; [exact Hb|]. cbn [exec_op].
  apply bytes_at_cons in Hb. unfold word_cells in Hb. cbn [app] in Hb. unfold op_call. do 2 mstep.
  rewrite (app_assoc base). mstep. rewrite <- (app_assoc base).
  pose proof (Ha (Caller base (p + 9) self fp) m Q j Hwf) as Hs. cbn [a_base a_ret a_self a_fp] in Hs.
  replace (p + 9 - 8) with (p + 1) in Hs by lia. apply Hs; [by exists j|done|done].
Qed.

Lemma from_tail_call h E A temps vs proc v h' p self m c Q :
  sim_apply h proc vs v h' -> wf T h -> bytes_at h self p (opw OP_TAIL_CALL (WObj (Fixnum (Z.of_nat (length vs)))) ++ c) ->
  Z.of_nat (length (layout E A temps) + length vs) + 3 <= m ->
  from h' (a_base A ++ [v]) (a_fp A) (a_ret A) (a_self A) m Q ->
  from h (layout E A temps ++ rev vs ++ [proc]) (fp_of E A) p self m Q.
Proof.
  intros Ha Hwf Hb Hm HQ c0 (j & -> & Hj & Hg). eapply reach_call; [exact Hb|]. cbn [exec_op].
  apply bytes_at_cons in Hb. unfold word_cells in Hb. cbn [app] in Hb. rewrite length_layout in Hm.
  destruct (op_tail_call_spec pr hd h (a_base A) (e_args E) (a_ret A) (a_self A) (a_fp A) (e_locals E ++ temps) vs proc j
              (p + 1) self _ Hb) as (j' & Htc & Hlen).
  assert (layout E A temps ++ rev vs ++ [proc] = a_base A ++ rev (e_args E) ++
    frame (length (e_args E)) (a_ret A) (a_self A) (a_fp A) ++ (e_locals E ++ temps) ++ rev vs ++ [proc]) as El
    by (unfold layout; by list_simplifier).
  rewrite El in Hj, Hg |- *. unfold fp_of. rewrite Htc. rewrite <- Hlen in Hj, Hg.
  apply (Ha A m Q j' Hwf); [by exists j'|lia|done].
Qed.

Lemma sim_app E h h1 h2 h3 f args vs proc v : length args = length vs ->
  sim_args E h args vs h1 -> ext h h1 -> sim_eval E h1 f proc h2 -> ext h1 h2 -> sim_apply h2 proc vs v h3 ->
  sim_expr E h (App f args) v h3.
Proof.
  intros Hlen Hargs He1 Hf He2 Ha. split; [|done]. intros A temps self m Q tail c p Hwf Hv Hg Hb Hm HQ Htail. inversion Hg; subst.
  change (need (App f args)) with
    (Z.max (need_args args) (Z.max (Z.of_nat (length args) + need f) (Z.of_nat (length args) + 3))) in Hm.
  pose proof (wf_ext _ _ He1 Hwf) as Hwf1. pose proof (self_vars_ext _ _ _ _ He1 Hv) as Hv1.
  split_code Hb Hb'. apply (bytes_at_ext _ _ _ _ _ He1) in Hb'. split_code Hb' Hc.
  eapply Hargs; [done..|lia|]. rewrite <- layout_app.
  eapply (Hf _ _ _ _ _ _ _ _ Hwf1 Hv1); [done|exact Hb'|rewrite layout_app; llia| |done].
  apply (bytes_at_ext _ _ _ _ _ He2), bytes_at_0 in Hc. rewrite layout_app, <- app_assoc.
  destruct tail; rewrite Hlen in Hc.
  - eapply from_tail_call; [exact Ha|by eapply wf_ext|exact Hc|lia|by apply Htail].
  - eapply from_call; [exact Ha|by eapply wf_ext|exact Hc|lia|at_pos HQ].
Qed.

(** ** Procedures *)

Lemma from_undefs h E A temps self m Q : forall n p c,
  bytes_at h self p (undefs_code n ++ c) -> Z.of_nat (length (layout E A temps) + n) <= m ->
  from h (layout E A temps ++ replicate n SEXP_UNDEF) (fp_of E A) (p + Z.of_nat (length (undefs_code n))) self m Q ->
  from h (layout E A temps) (fp_of E A) p self m Q.
Proof.
  intros n. revert temps. induction n as [|n IH]; intros temps p c Hb Hm HQ; cbn [undefs_code replicate app] in *.
  - rewrite app_nil_r in HQ. by rewrite Z.add_0_r in HQ.
  - rewrite <- app_assoc in Hb. eapply from_push; [exact Hb|lia|]. apply bytes_at_app in Hb as [_ Hb].
    rewrite <- layout_app. eapply IH; [exact Hb|rewrite layout_app; llia|]. rewrite layout_app, <- app_assoc. cbn [app]. at_pos HQ.
Qed.

Lemma from_boxes i lf vars A self m Q : forall sv h args locals h' args' locals' p c,
  box_slots i sv h (args, locals) = Some ((args', locals'), h') ->
  bytes_at h self p (boxes_code i sv ++ c) ->
  Z.of_nat (length (layout (Env lf args locals vars) A [])) + 2 <= m ->
  from h' (layout (Env lf args' locals' vars) A []) (fp_of (Env lf args' locals' vars) A)
    (p + Z.of_nat (length (boxes_code i sv))) self m Q ->
  from h (layout (Env lf args locals vars) A []) (fp_of (Env lf args locals vars) A) p self m Q.
Proof.
  induction sv as [|x sv IH]; intros h args locals h' args' locals' p c Hbox Hb Hm HQ; cbn [box_slots boxes_code] in *.
  - injection Hbox as -> -> ->. by rewrite Z.add_0_r in HQ.
  - cbn [fst snd] in Hbox.
    destruct (slot (Env None args locals SEXP_VOID) (sexp_param_index i x)) as [w|] eqn:Es; cbn in Hbox; [|done].
    destruct (alloc h (Pair x w false)) as [b h1] eqn:Ea.
    set (k := sexp_param_index i x) in *. unfold box_code in Hb, HQ. fold k in Hb, HQ. rewrite <- !app_assoc in Hb.
    set (E := Env lf args locals vars) in *.
    assert (slot E k = Some w) as Es' by exact Es.
    destruct (slot_lookup E A [] _ _ Es') as [H0 Hget].
    eapply from_local_ref; [exact Hb|lia|lia|exact Hget|]. apply bytes_at_app in Hb as [_ Hb].
    eapply from_push; [exact Hb|llia|]. apply bytes_at_app in Hb as [_ Hb]. rewrite <- app_assoc. cbn [app].
    eapply (from_prim _ _ _ OP_CONS _ [x; w] (Some b)); [exact Hb|cbn; by rewrite Ea|]. apply bytes_at_cons in Hb. cbn [option_list].
    apply (bytes_at_ext _ _ _ _ _ (ext_alloc _ _ _ _ Ea)) in Hb.
    eapply from_local_set; [exact Hb|exact H0|]. apply bytes_at_app in Hb as [_ Hb].
    subst E. rewrite (slot_insert lf args locals vars A [] k w b Es').
    destruct (set_slot_lengths k b (args, locals)) as [Hl1 Hl2]. destruct (set_slot k b (args, locals)) as [args1 locals1].
    cbn [fst snd] in *.
    replace (fp_of (Env lf args locals vars) A) with (fp_of (Env lf args1 locals1 vars) A) by (unfold fp_of; cbn [e_args]; by rewrite Hl1).
    eapply IH; [exact Hbox|exact Hb| |at_pos HQ].
    rewrite length_layout in Hm |- *. cbn [e_args e_locals] in *. lia.
Qed.

Lemma from_ret h E A v p self m c Q : bytes_at h self p (COp OP_RET :: c) ->
  from h (a_base A ++ [v]) (a_fp A) (a_ret A) (a_self A) m Q ->
  from h (layout E A [] ++ [v]) (fp_of E A) p self m Q.
Proof.
  intros Hb. eapply from_step; [exact Hb|]. intros j Hj. cbn [exec_op].
  destruct (op_ret_spec pr hd h (a_base A) (e_args E) (a_ret A) (a_self A) (a_fp A) (e_locals E) v j (p + 1) self) as (j' & Hr & Hlen).
  assert (layout E A [] ++ [v] = a_base A ++ rev (e_args E) ++
    frame (length (e_args E)) (a_ret A) (a_self A) (a_fp A) ++ e_locals E ++ [v]) as -> by (unfold layout; by list_simplifier).
  by exists j'.
Qed.

Lemma length_boxes i sv : forall h al al' h', box_slots i sv h al = Some (al', h') ->
  length al'.1 = length al.1 /\ length al'.2 = length al.2.
Proof.
  induction sv as [|x sv IH]; intros h al al' h'; cbn [box_slots]; [by intros [= <- <-]|].
  destruct (slot _ _) as [w|]; cbn; [|done]. destruct (alloc h (Pair x w false)) as [b h1].
  intros [H1 H2]%IH. destruct (set_slot_lengths (sexp_param_index i x) b al) as [H3 H4]. by rewrite H1, H2.
Qed.

(** Running the body of a procedure once the frame is there. *)
Lemma from_body i fv body vars A self m Q md h1 args args' locals' h2 v h3 c :
  box_slots i (lam_sv i) h1 (args, replicate (length (lam_locals i)) SEXP_UNDEF) = Some ((args', locals'), h2) ->
  sim_eval (Env (Some (i, fv)) args' locals' vars) h2 body v h3 -> ext h2 h3 -> wf T h1 -> self_vars h1 self vars ->
  gc T (Some (i, fv)) true body c -> bytes_at h1 self 0 (prologue i ++ c ++ [COp OP_RET]) ->
  Z.of_nat (length (lam_locals i)) + need body + 2 <= 60 + md -> Z.of_nat (length (a_base A) + length args) + 65 + md <= m ->
  from h3 (a_base A ++ [v]) (a_fp A) (a_ret A) (a_self A) m Q ->
  from h1 (layout (Env (Some (i, fv)) args [] vars) A []) (fp_of (Env (Some (i, fv)) args [] vars) A) 0 self m Q.
Proof.
  intros Hbox Hbody He Hwf Hv Hg Hb Hneed Hm HQ. pose proof (ext_box_slots _ _ _ _ _ _ Hbox) as He1.
  destruct (length_boxes _ _ _ _ _ _ Hbox) as [Hl1 Hl2]. cbn [fst snd] in Hl1, Hl2. rewrite length_replicate in Hl2.
  pose proof (need_pos body) as Hnp. unfold prologue in Hb. rewrite <- !app_assoc in Hb.
  eapply from_undefs; [exact Hb|rewrite length_layout; cbn [e_args e_locals length]; lia|].
  apply bytes_at_app in Hb as [_ Hb].
  replace (layout (Env (Some (i, fv)) args [] vars) A [] ++ replicate (length (lam_locals i)) SEXP_UNDEF)
    with (layout (Env (Some (i, fv)) args (replicate (length (lam_locals i)) SEXP_UNDEF) vars) A [])
    by (unfold layout; cbn; by list_simplifier).
  change (fp_of (Env (Some (i, fv)) args [] vars) A) with
    (fp_of (Env (Some (i, fv)) args (replicate (length (lam_locals i)) SEXP_UNDEF) vars) A).
  eapply from_boxes; [exact Hbox|exact Hb|rewrite length_layout; cbn [e_args e_locals length]; rewrite length_replicate; lia|].
  apply bytes_at_app in Hb as [_ Hb]. apply (bytes_at_ext _ _ _ _ _ He1) in Hb. pose proof Hb as Hret.
  apply bytes_at_app in Hret as [_ Hret]. apply (bytes_at_ext _ _ _ _ _ He) in Hret. apply bytes_at_app in Hb as [Hb _].
  eapply Hbody; [by eapply wf_ext|by eapply self_vars_ext|exact Hg|exact Hb| | |done].
  - rewrite length_layout. cbn [e_args e_locals length]. lia.
  - eapply from_ret; [exact Hret|done].
Qed.

Lemma sim_closure h p flags n b vars vs i fv body args h1 args' locals' h2 v h3 :
  h !! p = Some (Procedure flags n (Ptr b) vars) -> lambda_of T !! b = Some (i, fv, body) -> 0 <= n ->
  bind_args flags n h vs = Some (args, h1) ->
  box_slots i (lam_sv i) h1 (args, replicate (length (lam_locals i)) SEXP_UNDEF) = Some ((args', locals'), h2) ->
  sim_eval (Env (Some (i, fv)) args' locals' vars) h2 body v h3 -> ext h2 h3 ->
  sim_apply h (Ptr p) vs v h3.
Proof.
  intros Hp HT Hn Hbind Hbox Hbody He A m Q j Hwf Hlive Hroom HQ.
  destruct (Hwf _ _ _ _ HT) as (c & md & lits & Hbc & Hg & Hmd & Hneed).
  pose proof (ext_bind_args _ _ _ _ _ _ Hbind) as He1.
  destruct (make_call_spec pr hd h (a_base A) vs (Ptr p) flags n b vars (prologue i ++ c ++ [COp OP_RET]) md args h1 j (a_fp A) (a_ret A - 8) (a_self A) m) as
    [(c0 & -> & Hl)|(s & -> & Ho)]; [by exists p, lits|done|done|done| |done].
  cbn [reaches]. replace (a_ret A - 8 + 8) with (a_ret A) in Hl by lia.
  assert (live h1 (layout (Env (Some (i, fv)) args [] vars) A []) (fp_of (Env (Some (i, fv)) args [] vars) A) 0 (Ptr p)
            (Z.max m (Z.of_nat (length (a_base A) + length args) + 65 + md)) (Run c0)) as Hl'
    by (unfold layout; cbn [e_args e_locals app]; by rewrite !app_nil_r).
  revert c0 Hl Hl'. enough (from h1 (layout (Env (Some (i, fv)) args [] vars) A []) (fp_of (Env (Some (i, fv)) args [] vars) A) 0
    (Ptr p) (Z.max m (Z.of_nat (length (a_base A) + length args) + 65 + md)) Q) as Hf by (intros c0 _ Hl; by apply Hf).
  eapply from_body; [exact Hbox|exact Hbody|done|by eapply wf_ext| |exact Hg| |exact Hneed|lia|].
  - exists p, flags, n, (Ptr b). auto.
  - exists [], []. split; [|done]. rewrite app_nil_r. exists p, flags, n, b, vars, md, lits. auto.
  - eapply from_weaken; [|exact HQ]. lia.
Qed.

(** ** The simulation *)

Lemma args_ext E h args vs h' : eval_args T E h args vs h' -> ext h h'.
Proof. induction 1; [done|]. etransitivity; [done|by eapply eval_ext]. Qed.

Lemma sim_expr_eval E h x v h' : sim_expr E h x v h' -> sim_eval E h x v h'.
Proof. by intros []. Qed.

Lemma simulation E h x v h' : eval T E h x v h' -> sim_expr E h x v h'.
Proof.
  intros H. induction H using eval_mut with
    (P0 := fun E h ls v h' _ => sim_seq E h ls v h') (P1 := fun E h args vs h' _ => sim_args E h args vs h')
    (P2 := fun h p vs v h' _ => sim_apply h p vs v h').
  - apply sim_lit.
  - apply sim_self.
  - by apply sim_global.
  - by eapply sim_variable.
  - apply sim_assign; [etransitivity; [by eapply eval_ext|by eapply ext_assign]|].
    eapply sim_set_global; [by apply sim_expr_eval|by eapply eval_ext|done..].
  - apply sim_assign; [etransitivity; [by eapply eval_ext|by eapply ext_assign]|].
    eapply sim_set_variable; [by apply sim_expr_eval|by eapply eval_ext|done..].
  - eapply sim_cnd; [by apply sim_expr_eval|by eapply eval_ext|by apply sim_expr_eval|by eapply eval_ext].
  - by apply sim_sequence.
  - by apply sim_lambda_closed.
  - by eapply sim_lambda_open.
  - eapply sim_app; [by eapply eval_args_length|done|by eapply args_ext|by apply sim_expr_eval|by eapply eval_ext|done].
  - eapply sim_prim; [done..|by eapply eval_args_length|by eapply args_ext|done|done].
  - eapply sim_arith; [done|by eapply eval_args_length|by eapply args_ext|done|done].
  - eapply sim_compare; [done|by eapply eval_args_length|by eapply args_ext|done..].
  - by apply sim_seq_last, sim_expr_eval.
  - eapply sim_seq_cons; [done|done|by eapply eval_ext|done].
  - apply sim_args_nil.
  - eapply sim_args_cons; [by eapply eval_args_length|done|by eapply args_ext|by apply sim_expr_eval].
  - eapply sim_closure; [done..|by apply sim_expr_eval|by eapply eval_ext].
Qed.

Lemma apply_simulation h p vs v h' : apply_proc T h p vs v h' -> sim_apply h p vs v h'.
Proof. destruct 1. eapply sim_closure; [done..|by apply simulation|by eapply eval_ext]. Qed.

End simulation.
