(* ===== verification/Compiler.v ===== *)
(** * The compiler is correct

    [sexp_generate] emits code that satisfies the relation of [Code], for
    programs in the fragment [supported], and allocates the bytecode of every
    lambda; with the simulation, running a compiled program gives its value. *)
From S2P Require Import Prelude Bignum Numbers Heap Ast Codegen Vm Semantics VmSteps Instructions Calls Code Simulation.
From stdpp Require Import base list option gmap.
#[local] Open Scope Z_scope.
#[local] Arguments alloc : simpl never.

(** ** The fragment *)

(** How far an expression can move the depth counter. *)
Fixpoint weight (x : ast) : Z :=
  match x with
  | Lit _ | Self _ | RefE _ => 1
  | SetE _ v => weight v + 4
  | Cnd t p f => weight t + weight p + weight f
  | Seq ls => fold_right (fun x w => weight x + w) 0 ls
  | Lambda _ fv _ => 2 * Z.of_nat (length fv) + 3
  | App f args => fold_right (fun x w => weight x + w) 0 args + weight f
  | OpApp _ _ args => fold_right (fun x w => weight x + w) 0 args + 2
  end.

Definition within (r : ref) : bool := match ref_where r with Within _ => true | Global _ => false end.

Definition lambda_fits (i : lam_info) (fv : list ref) (body : ast) : bool :=
  (Z.of_nat (length (lam_locals i)) + need body + 2 <=? 60) &&
  (Z.of_nat (length (lam_locals i)) + Z.of_nat (length (lam_sv i)) + weight body <=? 960) &&
  (Z.of_nat (length fv) <=? 960).

(** The programs the theorem is about: variables are bound by lambdas,
    assigned ones are boxed, operators are in the fragment, and each procedure
    is small enough for the room a call makes. [inside]: within a lambda. *)
Fixpoint supported (inside : bool) (x : ast) : bool :=
  match x with
  | Lit _ | Self _ => true
  | RefE r => negb (within r) || inside
  | SetE r v => supported inside v &&
      match ref_where r with Global _ => true | Within loc => inside && memq (ref_name r) (lam_sv loc) end
  | Cnd t p f => supported inside t && supported inside p && supported inside f
  | Seq ls => negb (bool_decide (ls = [])) && forallb (supported inside) ls
  | Lambda i fv body =>
      (bool_decide (fv = []) || inside) && forallb within fv && lambda_fits i fv body && supported true body
  | App f args => supported inside f && forallb (supported inside) args
  | OpApp _ op args => bool_decide (is_Some (operator_code op (length args))) && forallb (supported inside) args
  end.

Fixpoint lambda_ids (x : ast) : list positive :=
  match x with
  | Lit _ | Self _ | RefE _ => []
  | SetE _ v => lambda_ids v
  | Cnd t p f => lambda_ids t ++ lambda_ids p ++ lambda_ids f
  | Seq ls => flat_map lambda_ids ls
  | Lambda i _ body => lam_id i :: lambda_ids body
  | App f args => flat_map lambda_ids args ++ lambda_ids f
  | OpApp _ _ args => flat_map lambda_ids args
  end.

(** The lambdas of an expression, with their free variables and bodies. *)
Fixpoint lambdas (x : ast) : list (lam_info * list ref * ast) :=
  match x with
  | Lit _ | Self _ | RefE _ => []
  | SetE _ v => lambdas v
  | Cnd t p f => lambdas t ++ lambdas p ++ lambdas f
  | Seq ls => flat_map lambdas ls
  | Lambda i fv body => (i, fv, body) :: lambdas body
  | App f args => flat_map lambdas args ++ lambdas f
  | OpApp _ _ args => flat_map lambdas args
  end.

(** The table knows the addresses of a lambda: its code, and for a closed one
    the procedure. *)
Definition covered (T : table) (h : heap) (l : lam_info * list ref * ast) : Prop :=
  let '(i, fv, body) := l in
  exists b, code_of T !! lam_id i = Some b /\ lambda_of T !! b = Some l /\
    (fv = [] -> exists p, closed_of T !! lam_id i = Some p /\
       h !! p = Some (Procedure (lambda_flags i body) (Z.of_nat (length (lam_params i))) (Ptr b) (Ptr G_EMPTY_VECTOR))).

Definition covers (T : table) (h : heap) (ls : list (lam_info * list ref * ast)) : Prop := Forall (covered T h) ls.

(** ** Tables grow *)

Record extends (T T' : table) (ids : list positive) : Prop := {
  ext_code : forall id b, code_of T !! id = Some b -> code_of T' !! id = Some b;
  ext_closed : forall id p, closed_of T !! id = Some p -> closed_of T' !! id = Some p;
  ext_lambda : forall b i, lambda_of T !! b = Some i -> lambda_of T' !! b = Some i;
  ext_other : forall id, id ∉ ids -> code_of T' !! id = code_of T !! id /\ closed_of T' !! id = closed_of T !! id;
}.

Definition fresh_ids (T : table) (ids : list positive) : Prop :=
  NoDup ids /\ forall id, id ∈ ids -> code_of T !! id = None /\ closed_of T !! id = None.

Lemma extends_refl T : extends T T [].
Proof. by split. Qed.

Lemma extends_trans T T1 T2 ids1 ids2 : extends T T1 ids1 -> extends T1 T2 ids2 -> extends T T2 (ids1 ++ ids2).
Proof.
  intros [a1 b1 c1 d1] [a2 b2 c2 d2]. split; [eauto..|]. intros id [H1 H2]%not_elem_of_app.
  destruct (d1 _ H1) as [<- <-]. by apply d2.
Qed.

Lemma fresh_ids_app T T1 ids1 ids2 : fresh_ids T (ids1 ++ ids2) -> extends T T1 ids1 ->
  fresh_ids T ids1 /\ fresh_ids T1 ids2.
Proof.
  intros [Hn Hf] He. apply NoDup_app in Hn as (Hn1 & Hd & Hn2). split; split; [done| |done|].
  - intros id Hid. apply Hf, elem_of_app. by left.
  - intros id Hid. destruct (ext_other _ _ _ He id) as [-> ->]; [intros H1; by eapply Hd|].
    apply Hf, elem_of_app. by right.
Qed.

Lemma covers_extends T T' h h' ids ls : extends T T' ids -> ext h h' -> covers T h ls -> covers T' h' ls.
Proof.
  intros [a b c _] He Hc. apply (Forall_impl _ _ _ Hc). intros [[i fv] body] (x & Hx & Hl & Hp). exists x. split_and!; [eauto..|].
  intros Hfv. destruct (Hp Hfv) as (p & H1 & H2). exists p. split; [eauto|by apply (He _ _ H2)].
Qed.

Lemma gc_extends T T' ids lam t x c : extends T T' ids -> gc T lam t x c -> gc T' lam t x c.
Proof.
  intros [a b _ _] H. induction H using gc_mut with
    (P0 := fun lam r x c _ => gc_set T' lam r x c) (P1 := fun lam t ls c _ => gc_seq T' lam t ls c)
    (P2 := fun lam ls c _ => gc_args T' lam ls c); econstructor; eauto.
Qed.

Lemma gc_args_extends T T' ids lam ls c : extends T T' ids -> gc_args T lam ls c -> gc_args T' lam ls c.
Proof. intros He. induction 1; econstructor; eauto using gc_extends. Qed.

Lemma gc_set_extends T T' ids lam r x c : extends T T' ids -> gc_set T lam r x c -> gc_set T' lam r x c.
Proof. intros He. destruct 1; econstructor; eauto using gc_extends. Qed.

Lemma gc_seq_extends T T' ids lam t ls c : extends T T' ids -> gc_seq T lam t ls c -> gc_seq T' lam t ls c.
Proof. intros He. induction 1; econstructor; eauto using gc_extends, gc_set_extends. Qed.

(** ** Emission *)

(** From [g] to [g'] the code grows by [c], the depth counter by at most [w],
    and the heap only gets new objects. *)
Record emits (g g' : gen) (c : list cell) (w : Z) : Prop := {
  em_code : code (gctx g') = code (gctx g) ++ c;
  em_lambda : clambda (gctx g') = clambda (gctx g);
  em_heap : ext (gheap g) (gheap g');
  em_depth : depth (gctx g') <= depth (gctx g) + w;
  em_max : max_depth (gctx g) <= max_depth (gctx g') <= Z.max (max_depth (gctx g)) (depth (gctx g) + w);
  em_weight : 0 <= w;
}.

Lemma emits_refl g : emits g g [] 0.
Proof. split; rewrite ?app_nil_r; done || lia. Qed.

Lemma emits_trans g1 g2 g3 c1 c2 w1 w2 : emits g1 g2 c1 w1 -> emits g2 g3 c2 w2 -> emits g1 g3 (c1 ++ c2) (w1 + w2).
Proof.
  intros [] []. split; [by rewrite app_assoc; congruence|congruence|by etransitivity|lia|lia|lia].
Qed.

Lemma emits_eq g g' c c' w w' : emits g g' c w -> c = c' -> w <= w' -> emits g g' c' w'.
Proof. intros [] -> Hw. split; try done; lia. Qed.

Lemma emits_emit o g : emits g (sexp_emit o g) [COp o] 0.
Proof. split; cbn; done || lia. Qed.

Lemma emits_word w g : emits g (sexp_emit_word w g) (word_cells w) 0.
Proof. split; cbn; done || lia. Qed.

Lemma emits_opw o w g : emits g (sexp_emit_word w (sexp_emit o g)) (opw o w) 0.
Proof. exact (emits_trans _ _ _ _ _ _ _ (emits_emit o g) (emits_word w _)). Qed.

Lemma emits_inc off g : emits g (sexp_inc_context_depth off g) [] (Z.max 0 off).
Proof.
  split; cbn; rewrite ?app_nil_r; try done; try lia.
  destruct (Z.gtb_spec (depth (gctx g) + off) (max_depth (gctx g))); lia.
Qed.

Lemma emits_preserve v g : emits g (bytecode_preserve v g) [] 0.
Proof.
  unfold bytecode_preserve, on_ctx. destruct (sexp_pointerp v && _ && _); split; cbn; rewrite ?app_nil_r; done || lia.
Qed.

Lemma emits_tailp b g : emits g (set_tailp b g) [] 0.
Proof. split; cbn; rewrite ?app_nil_r; done || lia. Qed.

Lemma emits_push v g : emits g (sexp_emit_push v g) (push_code v) 1.
Proof.
  unfold sexp_emit_push. eapply emits_eq.
  - eapply emits_trans; [|apply emits_preserve]. eapply emits_trans; [|apply emits_inc]. apply emits_opw.
  - by rewrite !app_nil_r.
  - lia.
Qed.

Lemma emits_heap g h : ext (gheap g) h -> emits g (Gen h (gctx g)) [] 0.
Proof. split; cbn; rewrite ?app_nil_r; done || lia. Qed.

(** Composes the lemmas above along a chain of emissions. *)
Ltac emits_chain :=
  lazymatch goal with
  | |- emits ?g ?g _ _ => apply emits_refl
  | |- emits _ (sexp_emit_push _ _) _ _ => eapply emits_trans; [|apply emits_push]; emits_chain
  | |- emits _ (sexp_emit _ _) _ _ => eapply emits_trans; [|apply emits_emit]; emits_chain
  | |- emits _ (sexp_emit_word _ _) _ _ => eapply emits_trans; [|apply emits_word]; emits_chain
  | |- emits _ (sexp_inc_context_depth _ _) _ _ => eapply emits_trans; [|apply emits_inc]; emits_chain
  | |- emits _ (bytecode_preserve _ _) _ _ => eapply emits_trans; [|apply emits_preserve]; emits_chain
  | |- emits _ (set_tailp _ _) _ _ => eapply emits_trans; [|apply emits_tailp]; emits_chain
  | |- emits _ ?g1 _ _ => first [eassumption | eapply emits_trans; [|eassumption]; emits_chain]
  end.
Ltac emitting := cbv zeta; eapply emits_eq; [emits_chain|list_simplifier; done|lia].

Lemma emits_var name loc l fv unboxp g :
  emits g (generate_non_global_ref name loc (Some l) fv unboxp g)
    (var_code (l, fv) name loc ++ if unboxp && memq name (lam_sv loc) then [COp OP_CDR] else []) 1.
Proof.
  unfold generate_non_global_ref, var_code. cbn [fst snd].
  destruct (bool_decide _), (unboxp && memq name (lam_sv loc)); emitting.
Qed.

Definition inside (g : gen) : bool := match clambda (gctx g) with Some _ => true | None => false end.

Lemma gen_ref T t r g : negb (within r) || inside g = true ->
  exists c, emits g (generate_ref r true g) c 1 /\ gc T (clambda (gctx g)) t (RefE r) c.
Proof.
  destruct r as [name [cell|loc]]; unfold within, generate_ref, inside; cbn [ref_where ref_name negb orb].
  - intros _. set (o := if bool_decide (sexp_cdr (gheap g) cell = Some SEXP_UNDEF) then OP_GLOBAL_REF else OP_GLOBAL_KNOWN_REF). exists (opw o (WObj cell)). split; [emitting|].
    constructor. subst o. case_bool_decide; auto.
  - destruct (clambda (gctx g)) as [[l fv]|]; [|done]. intros _. eexists. split; [apply emits_var|]. constructor.
Qed.

(** The code of an assignment after the value. *)
Lemma gen_set_var r x g cx T g0 : emits g0 g cx (weight x) -> gc T (clambda (gctx g0)) false x cx ->
  (match ref_where r with Global _ => true | Within loc => inside g0 && memq (ref_name r) (lam_sv loc) end) = true ->
  exists c, emits g0 (generate_set_var r g) (c ++ push_code SEXP_VOID) (weight x + 4) /\ gc_set T (clambda (gctx g0)) r x c.
Proof.
  intros He Hg Hr. destruct r as [name [cell|loc]]; unfold generate_set_var; cbn [ref_where ref_name] in *.
  - set (b := bool_decide (sexp_cdr (gheap g) cell = Some SEXP_UNDEF)). destruct (gen_ref T false (Ref name (Global cell)) g eq_refl) as (cr & Hcr & Hgr).
    destruct b eqn:Eb; subst b.
    + exists (cx ++ (opw OP_GLOBAL_REF (WObj cell) ++ [COp OP_DROP]) ++ push_code cell ++ [COp OP_SET_CDR]).
      split; [|constructor; [done|by right]].
      assert (cr = opw OP_GLOBAL_REF (WObj cell)) as ->.
      { unfold generate_ref in Hcr. cbn [ref_where] in Hcr. rewrite Eb in Hcr. apply em_code in Hcr.
        unfold bytecode_preserve in Hcr. cbn in Hcr. case_match; cbn in Hcr; rewrite <- app_assoc in Hcr; by apply app_inv_head in Hcr. }
      emitting.
    + exists (cx ++ [] ++ push_code cell ++ [COp OP_SET_CDR]). split; [emitting|]. constructor; [done|by left].
  - unfold inside in Hr. destruct (clambda (gctx g0)) as [[l fv]|] eqn:El; [|done]. cbn in Hr. rewrite Hr.
    exists (cx ++ var_code (l, fv) name loc ++ [COp OP_SET_CDR]). split; [|by constructor].
    unfold generate_ref. cbn [ref_where ref_name]. rewrite (em_lambda _ _ _ _ He), El.
    pose proof (emits_var name loc l fv false g) as Hv. emitting.
Qed.

(** ** Expressions *)

Lemma emits_inside g g' c w : emits g g' c w -> inside g' = inside g.
Proof. unfold inside. by intros [_ -> _ _ _ _]. Qed.

(** The table after an expression has been compiled. *)
Record grown (T T' : table) (g' : gen) (ids : list positive) (ls : list (lam_info * list ref * ast)) : Prop := {
  gr_extends : extends T T' ids;
  gr_wf : wf T' (gheap g');
  gr_covers : covers T' (gheap g') ls;
}.

Lemma fresh_ids_l T ids1 ids2 : fresh_ids T (ids1 ++ ids2) -> fresh_ids T ids1.
Proof.
  intros [Hn Hf]. apply NoDup_app in Hn as (Hn & _ & _). split; [done|]. intros id Hid. apply Hf, elem_of_app. by left.
Qed.

Lemma extends_incl T T' ids ids' : extends T T' ids -> (forall id, id ∈ ids -> id ∈ ids') -> extends T T' ids'.
Proof. intros [] Hi. split; auto. Qed.

Lemma fresh_ids_swap T ids1 ids2 : fresh_ids T (ids1 ++ ids2) -> fresh_ids T (ids2 ++ ids1).
Proof. intros [Hn Hf]. split; [by rewrite Permutation_app_comm|]. intros id Hid. apply Hf. by rewrite Permutation_app_comm. Qed.

Lemma grown_refl T g : wf T (gheap g) -> grown T T g [] [].
Proof. split; [apply extends_refl|done|constructor]. Qed.

Lemma grown_trans T T1 T2 g1 g2 id1 id2 ls1 ls2 : ext (gheap g1) (gheap g2) ->
  grown T T1 g1 id1 ls1 -> grown T1 T2 g2 id2 ls2 -> grown T T2 g2 (id1 ++ id2) (ls1 ++ ls2).
Proof.
  intros He [] []. split; [by eapply extends_trans|done|]. apply Forall_app. split; [by eapply covers_extends|done].
Qed.

Lemma grown_heap T T' g g' ids ls : grown T T' g ids ls -> ext (gheap g) (gheap g') -> grown T T' g' ids ls.
Proof.
  intros [H1 Hw Hc] He. split; [done|by eapply wf_ext|]. eapply covers_extends; [apply extends_refl|done|done].
Qed.

Lemma grown_swap T T' g id1 id2 ls1 ls2 : grown T T' g (id1 ++ id2) (ls1 ++ ls2) -> grown T T' g (id2 ++ id1) (ls2 ++ ls1).
Proof.
  intros [He Hw H1]. split; [|done|].
  - eapply extends_incl; [done|]. intros id. by rewrite Permutation_app_comm.
  - unfold covers in *. by rewrite Permutation_app_comm.
Qed.

Definition gen_spec (x : ast) : Prop := forall g T,
  wf T (gheap g) -> supported (inside g) x = true -> fresh_ids T (lambda_ids x) ->
  exists T' c, emits g (sexp_generate x g) c (weight x) /\
    gc T' (clambda (gctx g)) (tailp (gctx g)) x c /\
    grown T T' (sexp_generate x g) (lambda_ids x) (lambdas x) /\
    (tailp (gctx g) = false -> tailp (gctx (sexp_generate x g)) = false).

Definition weights (ls : list ast) : Z := fold_right (fun x w => weight x + w) 0 ls.

Lemma gen_args args : Forall gen_spec args -> forall g T,
  wf T (gheap g) -> forallb (supported (inside g)) args = true -> fresh_ids T (flat_map lambda_ids args) ->
  tailp (gctx g) = false ->
  exists T' c, emits g (in_reverse (map sexp_generate args) g) c (weights args) /\
    gc_args T' (clambda (gctx g)) args c /\
    grown T T' (in_reverse (map sexp_generate args) g) (flat_map lambda_ids args) (flat_map lambdas args) /\
    tailp (gctx (in_reverse (map sexp_generate args) g)) = false.
Proof.
  induction 1 as [|x xs Hx _ IH]; intros g T Hw Hs Hf Ht; cbn [map in_reverse fold_right flat_map forallb] in *.
  { exists T, []. split; [apply emits_refl|]. split; [constructor|]. split; [by apply grown_refl|done]. }
  apply andb_prop in Hs as [Hsx Hsxs].
  apply fresh_ids_swap in Hf. 
  pose proof (fresh_ids_l _ _ _ Hf) as Hf1.
  destruct (IH g T Hw Hsxs Hf1 Ht) as (T1 & c1 & He1 & Hg1 & Hgr1 & Ht1).
  destruct (fresh_ids_app _ _ _ _ Hf (gr_extends _ _ _ _ _ Hgr1)) as [_ Hf2].
  change (fold_right (fun f g => f g) g (map sexp_generate xs)) with (in_reverse (map sexp_generate xs) g).
  set (g1 := in_reverse (map sexp_generate xs) g) in *.
  destruct (Hx g1 T1 (gr_wf _ _ _ _ _ Hgr1)) as (T2 & c2 & He2 & Hg2 & Hgr2 & Ht2).
  { by rewrite (emits_inside _ _ _ _ He1). }
  { done. }
  rewrite Ht1, (em_lambda _ _ _ _ He1) in Hg2.
  exists T2, (c1 ++ c2). split; [|split; [|split]].
  - eapply emits_eq; [by eapply emits_trans|done|].
    change (weights (x :: xs)) with (weight x + weights xs). lia.
  - constructor; [|done]. eapply gc_args_extends; [|done]. apply Hgr2.
  - apply grown_swap. eapply grown_trans; [apply He2|done|done].
  - by apply Ht2.
Qed.

(** Expressions that compile to no lambda. *)
Lemma gen_leaf x : lambda_ids x = [] -> lambdas x = [] ->
  (forall g T, supported (inside g) x = true ->
    exists c, emits g (sexp_generate x g) c (weight x) /\ gc T (clambda (gctx g)) (tailp (gctx g)) x c) ->
  (forall g, tailp (gctx g) = false -> tailp (gctx (sexp_generate x g)) = false) ->
  gen_spec x.
Proof.
  intros Hl Hc Hx Ht g T Hw Hs Hf. destruct (Hx g T Hs) as (c & He & Hg). exists T, c. rewrite Hl, Hc.
  split; [done|]. split; [done|]. split; [|auto]. eapply grown_heap; [by apply grown_refl|apply He].
Qed.

Lemma tailp_emit o g : tailp (gctx (sexp_emit o g)) = tailp (gctx g).
Proof. done. Qed.

Lemma tailp_word w g : tailp (gctx (sexp_emit_word w g)) = tailp (gctx g).
Proof. done. Qed.

Lemma tailp_inc k g : tailp (gctx (sexp_inc_context_depth k g)) = tailp (gctx g).
Proof. done. Qed.

Lemma tailp_preserve v g : tailp (gctx (bytecode_preserve v g)) = tailp (gctx g).
Proof. unfold bytecode_preserve, on_ctx. cbn. by case_match. Qed.

Lemma tailp_push v g : tailp (gctx (sexp_emit_push v g)) = tailp (gctx g).
Proof. unfold sexp_emit_push. by rewrite tailp_preserve. Qed.

Lemma tailp_var name loc lam fv b g : tailp (gctx (generate_non_global_ref name loc lam fv b g)) = tailp (gctx g).
Proof. unfold generate_non_global_ref. repeat case_match; done. Qed.

Create Rewrite HintDb tailp.
#[local] Hint Rewrite tailp_emit tailp_word tailp_inc tailp_preserve tailp_push tailp_var : tailp.

Lemma tailp_ref r b g : tailp (gctx (generate_ref r b g)) = tailp (gctx g).
Proof. unfold generate_ref. cbv zeta. repeat case_match; by autorewrite with tailp. Qed.

#[local] Hint Rewrite tailp_ref : tailp.

Lemma tailp_set_var r g : tailp (gctx (generate_set_var r g)) = tailp (gctx g).
Proof. unfold generate_set_var. cbv zeta. autorewrite with tailp. repeat case_match; by autorewrite with tailp. Qed.

(** Emission leaves the heap alone. *)
Lemma heap_ref r b g : gheap (generate_ref r b g) = gheap g.
Proof. unfold generate_ref, generate_non_global_ref. cbv zeta. by repeat case_match. Qed.

Lemma heap_set_var r g : gheap (generate_set_var r g) = gheap g.
Proof. unfold generate_set_var. cbn. repeat case_match; cbn; by rewrite ?heap_ref. Qed.

Lemma gen_lit v : gen_spec (Lit v).
Proof.
  apply gen_leaf; try done; intros g; [intros T _|].
  - exists (push_code v). split; [apply emits_push|constructor].
  - intros <-. apply tailp_push.
Qed.

Lemma gen_self v : gen_spec (Self v).
Proof.
  apply gen_leaf; try done; intros g; [intros T _|].
  - exists (push_code v). split; [apply emits_push|constructor].
  - intros <-. apply tailp_push.
Qed.

Lemma gen_refE r : gen_spec (RefE r).
Proof.
  apply gen_leaf; try done; intros g; [intros T Hs; by apply gen_ref|]. intros <-. apply tailp_ref.
Qed.

Lemma gen_set r x : gen_spec x -> forall g T,
  wf T (gheap g) -> supported (inside g) (SetE r x) = true -> fresh_ids T (lambda_ids x) ->
  exists T' c, emits g (sexp_generate (SetE r x) g) (c ++ push_code SEXP_VOID) (weight x + 4) /\
    gc_set T' (clambda (gctx g)) r x c /\
    grown T T' (sexp_generate (SetE r x) g) (lambda_ids x) (lambdas x) /\
    tailp (gctx (sexp_generate (SetE r x) g)) = false.
Proof.
  intros Hx g T Hw Hs Hf. cbn [supported] in Hs. apply andb_prop in Hs as [Hsx Hsr].
  change (sexp_generate (SetE r x) g) with (generate_set_var r (sexp_generate x (set_tailp false g))).
  destruct (Hx (set_tailp false g) T Hw Hsx Hf) as (T' & cx & He & Hg & Hgr & Ht).
  destruct (gen_set_var r x _ cx T' _ He Hg) as (c & Hec & Hgc).
  { exact Hsr. }
  exists T', c. split; [|split; [exact Hgc|split]].
  - pose proof (emits_trans _ _ _ _ _ _ _ (emits_tailp false g) Hec) as H. eapply emits_eq; [exact H|done|lia].
  - eapply grown_heap; [exact Hgr|]. by rewrite heap_set_var.
  - rewrite tailp_set_var. by apply Ht.
Qed.

Lemma patch_code a w b v : <[length a := CWord v]> (a ++ word_cells w ++ b) = a ++ word_cells v ++ b.
Proof. replace (length a) with (length a + 0)%nat by lia. by rewrite insert_app_r. Qed.

(** A label ahead of the code since [g] gets its distance. *)
Lemma emits_patch g g' a w b n label : emits g g' (a ++ word_cells w ++ b) n -> label = length (code (gctx g) ++ a) ->
  emits g (sexp_context_patch_label label g') (a ++ word_cells (WInt (8 + Z.of_nat (length b))) ++ b) n.
Proof.
  intros [Hc ? ? ? ? ?] ->. unfold sexp_context_patch_label, on_ctx, pos. split; cbn; try done.
  rewrite Hc, (app_assoc (code (gctx g)) a), patch_code, (app_assoc (code (gctx g)) a). rewrite <- !app_assoc. do 3 f_equal.
  unfold word_cells. cbn [app]. do 3 f_equal. llia.
Qed.

Lemma emits_pos g g' c w : emits g g' c w -> pos g' = length (code (gctx g) ++ c).
Proof. intros He. unfold pos. by rewrite (em_code _ _ _ _ He). Qed.

Lemma gen_cnd t p f : gen_spec t -> gen_spec p -> gen_spec f -> gen_spec (Cnd t p f).
Proof.
  intros Hx1 Hx2 Hx3 g T Hw Hs Hf. cbn [supported lambda_ids] in *. apply andb_prop in Hs as [[Hs1 Hs2]%andb_prop Hs3].
  change (sexp_generate (Cnd t p f) g) with (generate_cnd (sexp_generate t) (sexp_generate p) (sexp_generate f) g).
  unfold generate_cnd, sexp_context_make_label. cbv zeta. set (tail := tailp (gctx g)).
  destruct (Hx1 (set_tailp false g) T Hw Hs1 (fresh_ids_l _ _ _ Hf)) as (T1 & ct & He1 & Hg1 & Hgr1 & _).
  destruct (fresh_ids_app _ _ _ _ Hf (gr_extends _ _ _ _ _ Hgr1)) as [_ Hf1].
  apply (emits_trans _ _ _ _ _ _ _ (emits_tailp false g)) in He1.
  set (gt := sexp_generate t (set_tailp false g)) in *. fold gt.
  set (g1 := sexp_inc_context_depth (-1) (sexp_emit OP_JUMP_UNLESS (set_tailp tail gt))).
  assert (emits g g1 (ct ++ [COp OP_JUMP_UNLESS]) (weight t)) as E1 by (subst g1; emitting).
  set (g2 := sexp_emit_word (WInt 0) g1). assert (emits g g2 (ct ++ opw OP_JUMP_UNLESS (WInt 0)) (weight t)) as E2 by (subst g2; emitting).
  destruct (Hx2 g2 T1 (gr_wf _ _ _ _ _ Hgr1)) as (T2 & cp & He2 & Hg2 & Hgr2 & _).
  { by rewrite (emits_inside _ _ _ _ E2). }
  { by eapply fresh_ids_l. }
  destruct (fresh_ids_app _ _ _ _ Hf1 (gr_extends _ _ _ _ _ Hgr2)) as [_ Hf2].
  set (gp := sexp_generate p g2) in *. fold gp.
  set (g3 := sexp_inc_context_depth (-1) (sexp_emit OP_JUMP (set_tailp tail gp))).
  set (g4 := sexp_emit_word (WInt 0) g3).
  assert (emits g g3 (ct ++ opw OP_JUMP_UNLESS (WInt 0) ++ cp ++ [COp OP_JUMP]) (weight t + weight p)) as E3 by (subst g3; emitting).
  assert (emits g g4 ((ct ++ [COp OP_JUMP_UNLESS]) ++ word_cells (WInt 0) ++ cp ++ opw OP_JUMP (WInt 0)) (weight t + weight p))
    as E4 by (subst g4; emitting).
  apply (emits_patch _ _ _ _ _ _ (pos g1)) in E4; [|by apply (emits_pos _ _ _ _ E1)].
  set (g5 := sexp_context_patch_label (pos g1) g4) in *.
  assert (gheap g5 = gheap gp) as Hh5 by done. assert (tailp (gctx g5) = tail) as Ht5 by done.
  destruct (Hx3 g5 T2) as (T3 & cf & He3 & Hg3 & Hgr3 & Ht3).
  { rewrite Hh5. apply Hgr2. }
  { by rewrite (emits_inside _ _ _ _ E4). }
  { done. }
  set (g6 := sexp_generate f g5) in *. fold g6.
  pose proof (emits_trans _ _ _ _ _ _ _ E4 He3) as E6. rewrite length_app, length_opw in E6.
  set (JU := opw OP_JUMP_UNLESS (WInt (17 + Z.of_nat (length cp)))).
  eapply (emits_eq _ _ _ ((ct ++ JU ++ cp ++ [COp OP_JUMP]) ++ word_cells (WInt 0) ++ cf) _ (weight (Cnd t p f))) in E6;
    [|subst JU; unfold opw; replace (8 + Z.of_nat (length cp + 9)) with (17 + Z.of_nat (length cp)) by lia; by list_simplifier|cbn; lia].
  apply (emits_patch _ _ _ _ _ _ (pos g3)) in E6.
  2: { rewrite (emits_pos _ _ _ _ E3). subst JU. by rewrite !length_app. }
  exists T3, (ct ++ JU ++ cp ++ opw OP_JUMP (WInt (8 + Z.of_nat (length cf))) ++ cf). split; [|split; [|split]].
  - eapply emits_eq; [exact E6|by list_simplifier|done].
  - rewrite (em_lambda _ _ _ _ E2) in Hg2. rewrite (em_lambda _ _ _ _ E4), Ht5 in Hg3. constructor; [| |exact Hg3].
    + eapply gc_extends; [apply Hgr3|]. eapply gc_extends; [apply Hgr2|]. exact Hg1.
    + eapply gc_extends; [apply Hgr3|]. exact Hg2.
  - pose proof (em_heap _ _ _ _ He2) as X2. pose proof (em_heap _ _ _ _ He3) as X3.
    assert (grown T1 T3 g6 (lambda_ids p ++ lambda_ids f) (lambdas p ++ lambdas f)) as Hgr.
    { eapply (grown_trans _ _ _ gp); [exact X3|exact Hgr2|exact Hgr3]. }
    apply (grown_heap _ _ g6); [|done]. apply (grown_trans T T1 T3 gt g6 (lambda_ids t) _ (lambdas t) (lambdas p ++ lambdas f)); [|exact Hgr1|exact Hgr].
    etransitivity; [exact X2|exact X3].
  - intros Htail. apply Ht3. by rewrite Ht5.
Qed.

(** ** Sequences *)

Lemma emits_step_back g g' c v w : emits g g' (c ++ push_code v) w -> emits g (step_back 9 g') c w.
Proof.
  intros [Hc ? ? ? ? ?]. split; cbn; try done. rewrite Hc, app_assoc, length_app.
  replace (length (code (gctx g) ++ c) + length (push_code v) - 9)%nat with (length (code (gctx g) ++ c)) by (cbn; lia).
  apply take_app_length.
Qed.

Lemma operator_code_push op n : is_Some (operator_code op n) -> op_code op <> OP_PUSH.
Proof.
  unfold operator_code, prim_op, arith_op, compare_op. intros Hs Ho. rewrite Ho, bool_decide_eq_true_2, !andb_false_r in Hs by done.
  by destruct Hs.
Qed.

(** An expression whose value is dropped. *)
Lemma gen_statement x : gen_spec x -> (forall v, x <> Lit v) -> forall g T,
  wf T (gheap g) -> supported (inside g) x = true -> fresh_ids T (lambda_ids x) -> tailp (gctx g) = false ->
  let g' := sexp_inc_context_depth (-1) (generate_drop_prev x (sexp_generate x g)) in
  exists T' cx, emits g g' cx (weight x) /\ grown T T' g' (lambda_ids x) (lambdas x) /\ tailp (gctx g') = false /\
    forall T2 ids t y ls c, extends T' T2 ids -> gc_seq T2 (clambda (gctx g)) t (y :: ls) c ->
      gc_seq T2 (clambda (gctx g)) t (x :: y :: ls) (cx ++ c).
Proof.
  intros Hx Hlit g T Hw Hs Hf Ht.
  destruct (Hx g T Hw Hs Hf) as (T1 & c1 & He1 & Hg1 & Hgr1 & Ht1). rewrite Ht in Hg1.
  assert (generate_drop_prev x (sexp_generate x g) = sexp_emit OP_DROP (sexp_generate x g) ->
    exists T' cx, emits g (sexp_inc_context_depth (-1) (generate_drop_prev x (sexp_generate x g))) cx (weight x) /\
      grown T T' (sexp_inc_context_depth (-1) (generate_drop_prev x (sexp_generate x g))) (lambda_ids x) (lambdas x) /\
      tailp (gctx (sexp_inc_context_depth (-1) (generate_drop_prev x (sexp_generate x g)))) = false /\
      forall T2 ids t y ls c, extends T' T2 ids -> gc_seq T2 (clambda (gctx g)) t (y :: ls) c ->
      gc_seq T2 (clambda (gctx g)) t (x :: y :: ls) (cx ++ c)) as Hdrop.
  { intros ->. exists T1, (c1 ++ [COp OP_DROP]). split; [emitting|]. split; [by eapply grown_heap|]. split; [by apply Ht1|].
    intros T2 ids t y ls c He Hc. rewrite <- app_assoc. constructor; [by eapply gc_extends|done]. }
  destruct x; try (by apply Hdrop); [by edestruct Hlit| |].
  - clear Hdrop. inversion Hg1; subst. exists T1, c. split; [|split; [by eapply grown_heap|split; [by apply Ht1|]]].
    + eapply emits_eq; [eapply emits_trans; [by eapply emits_step_back|apply emits_inc]|by rewrite app_nil_r|lia].
    + intros T2 ids t y ls c' He Hc. constructor; [by eapply gc_set_extends|done].
  - apply Hdrop. cbn [supported] in Hs. apply andb_prop in Hs as [Hop%bool_decide_eq_true _].
    cbn. by rewrite bool_decide_eq_false_2 by by eapply operator_code_push.
Qed.

Lemma gen_seq_loop tail ls : Forall gen_spec ls -> ls <> [] -> forall g T,
  wf T (gheap g) -> forallb (supported (inside g)) ls = true -> fresh_ids T (flat_map lambda_ids ls) ->
  tailp (gctx g) = false ->
  exists T' c, emits g (seq_loop tail ls (map sexp_generate ls) g) c (weights ls) /\
    gc_seq T' (clambda (gctx g)) tail ls c /\
    grown T T' (seq_loop tail ls (map sexp_generate ls) g) (flat_map lambda_ids ls) (flat_map lambdas ls) /\
    (tail = false -> tailp (gctx (seq_loop tail ls (map sexp_generate ls) g)) = false).
Proof.
  induction 1 as [|x ls Hx Hls IH]; [done|]. intros _ g T Hw Hs Hf Ht. cbn [forallb flat_map] in *.
  apply andb_prop in Hs as [Hsx Hsls]. change (weights (x :: ls)) with (weight x + weights ls).
  destruct ls as [|y ls].
  - cbn [map seq_loop flat_map] in *. rewrite !app_nil_r in *.
    destruct (Hx (set_tailp tail g) T Hw Hsx Hf) as (T1 & c1 & He1 & Hg1 & Hgr1 & Ht1). exists T1, c1.
    split; [|split; [by constructor|done]].
    apply (emits_trans _ _ _ _ _ _ _ (emits_tailp tail g)) in He1. eapply emits_eq; [exact He1|done|cbn; lia].
  - specialize (IH ltac:(done)). change (seq_loop tail (x :: y :: ls) (map sexp_generate (x :: y :: ls)) g) with
      (seq_loop tail (y :: ls) (map sexp_generate (y :: ls))
         match x with
         | Lit _ => g
         | _ => sexp_inc_context_depth (-1) (generate_drop_prev x (sexp_generate x g))
         end).
    assert ((exists v, x = Lit v) \/ ~ exists v, x = Lit v) as [[v ->]|Hlit] by (destruct x; (left; by eexists) || (right; by intros [? ?])).
    + destruct (IH g T Hw Hsls Hf Ht) as (T1 & c1 & He1 & Hg1 & Hgr1 & Ht1). exists T1, c1.
      split; [eapply emits_eq; [exact He1|done|cbn [weight]; lia]|]. split; [by constructor|done].
    + destruct (gen_statement x Hx ltac:(by intros v ->; eauto) g T Hw Hsx (fresh_ids_l _ _ _ Hf) Ht)
        as (T1 & cx & He1 & Hgr1 & Ht1 & Hseq).
      replace (match x with Lit _ => g | _ => sexp_inc_context_depth (-1) (generate_drop_prev x (sexp_generate x g)) end)
        with (sexp_inc_context_depth (-1) (generate_drop_prev x (sexp_generate x g))) by (destruct x; try done; by destruct Hlit; eauto).
      set (g1 := sexp_inc_context_depth (-1) (generate_drop_prev x (sexp_generate x g))) in *.
      destruct (fresh_ids_app _ _ _ _ Hf (gr_extends _ _ _ _ _ Hgr1)) as [_ Hf1].
      destruct (IH g1 T1 (gr_wf _ _ _ _ _ Hgr1)) as (T2 & c2 & He2 & Hg2 & Hgr2 & Ht2).
      { by rewrite (emits_inside _ _ _ _ He1). }
      { done. }
      { done. }
      rewrite (em_lambda _ _ _ _ He1) in Hg2.
      exists T2, (cx ++ c2). split; [by eapply emits_trans|]. split; [eapply Hseq; [apply Hgr2|done]|]. split; [eapply grown_trans; [apply He2|done|done]|done].
Qed.

Lemma gen_sequence ls : Forall gen_spec ls -> gen_spec (Seq ls).
Proof.
  intros Hls g T Hw Hs Hf. cbn [supported] in Hs. apply andb_prop in Hs as [Hne%negb_true_iff Hs].
  apply bool_decide_eq_false in Hne.
  change (sexp_generate (Seq ls) g) with (seq_loop (tailp (gctx g)) ls (map sexp_generate ls) (set_tailp false g)).
  destruct (gen_seq_loop (tailp (gctx g)) ls Hls Hne (set_tailp false g) T Hw Hs Hf eq_refl) as (T' & c & He & Hg & Hgr & Ht).
  exists T', c. split; [|split; [by constructor|done]].
  apply (emits_trans _ _ _ _ _ _ _ (emits_tailp false g)) in He. eapply emits_eq; [exact He|done|cbn; unfold weights; lia].
Qed.

(** ** Applications *)

Lemma gen_app f args : gen_spec f -> Forall gen_spec args -> gen_spec (App f args).
Proof.
  intros Hf Hargs g T Hw Hs Hfr. cbn [supported lambda_ids lambdas] in *. apply andb_prop in Hs as [Hsf Hsargs].
  destruct (gen_args args Hargs (set_tailp false g) T Hw Hsargs (fresh_ids_l _ _ _ Hfr) eq_refl) as (T1 & c1 & He1 & Hg1 & Hgr1 & Ht1).
  destruct (fresh_ids_app _ _ _ _ Hfr (gr_extends _ _ _ _ _ Hgr1)) as [_ Hfr1].
  set (g1 := in_reverse (map sexp_generate args) (set_tailp false g)) in *.
  destruct (Hf g1 T1 (gr_wf _ _ _ _ _ Hgr1)) as (T2 & c2 & He2 & Hg2 & Hgr2 & Ht2).
  { by rewrite (emits_inside _ _ _ _ He1). }
  { done. }
  rewrite Ht1, (em_lambda _ _ _ _ He1) in Hg2.
  change (sexp_generate (App f args) g) with (generate_general_app (sexp_generate f) (map sexp_generate args) g).
  unfold generate_general_app. fold g1. rewrite length_map. set (tail := tailp (gctx g)). set (g2 := sexp_generate f g1) in *.
  exists T2, (c1 ++ c2 ++ opw (if tail then OP_TAIL_CALL else OP_CALL) (WObj (Fixnum (Z.of_nat (length args))))).
  split; [|split; [|split]].
  - apply (emits_trans _ _ _ _ _ _ _ (emits_tailp false g)) in He1.
    pose proof (emits_trans _ _ _ _ _ _ _ He1 He2) as He. fold g1 in He. cbv zeta.
    change (weight (App f args)) with (weights args + weight f). emitting.
  - constructor; [|done]. eapply gc_args_extends; [apply Hgr2|done].
  - eapply grown_heap; [eapply grown_trans; [apply He2|done|done]|done].
  - done.
Qed.

Lemma emits_times n o g : emits g (emit_times n o g) (replicate n (COp o)) 0.
Proof.
  revert g. induction n as [|n IH]; intros g; cbn [emit_times replicate]; [apply emits_refl|].
  exact (emits_trans _ _ _ [COp o] _ 0 0 (emits_emit o g) (IH _)).
Qed.

Lemma emits_chain_code n o g : emits g (emit_cmp_chain n o g) (chain_code o n) 0.
Proof.
  revert g. induction n as [|n IH]; intros g; cbn [emit_cmp_chain chain_code]; [apply emits_refl|].
  unfold emit_stack_ref, stack_ref_code. cbv zeta. set (g1 := sexp_emit OP_AND _).
  assert (emits g g1 (opw OP_STACK_REF (WInt 3) ++ opw OP_STACK_REF (WInt 3) ++ [COp o; COp OP_AND; COp OP_AND]) 0) as E1
    by (subst g1; emitting).
  eapply emits_eq; [exact (emits_trans _ _ _ _ _ _ _ E1 (IH g1))|by list_simplifier|lia].
Qed.

Lemma emits_comparison n o g : emits g (emit_comparison (Z.of_nat n) o g) (compare_code o n) 0.
Proof.
  unfold emit_comparison, compare_code. destruct (Nat.ltb_spec 2 n), (Z.gtb_spec (Z.of_nat n) 2); try lia; [|apply emits_emit].
  unfold emit_stack_ref, stack_ref_code. cbv zeta. replace (Z.to_nat (Z.of_nat n - 2)) with (n - 2)%nat by lia.
  set (g1 := sexp_emit OP_AND (sexp_emit o _)). pose proof (emits_chain_code (n - 2) o g1) as Hc.
  assert (emits g g1 (opw OP_STACK_REF (WInt 2) ++ opw OP_STACK_REF (WInt 2) ++ [COp o; COp OP_AND]) 0) as E1
    by (subst g1; emitting).
  pose proof (emits_trans _ _ _ _ _ _ _ E1 Hc) as E2. emitting.
Qed.

Lemma finish_no_void op args n g : op_static_param_p op = false -> returns_void op = false -> 0 <= n ->
  emits g (finish_opcode_app op args n g) [] 1.
Proof.
  intros Hs Hv Hn. unfold finish_opcode_app. rewrite Hs, Hv. cbn [andb]. eapply emits_eq; [apply emits_inc|done|lia].
Qed.

(** What the conditions of the fragment say about an operator. *)
Lemma operator_facts op n co : operator_code op n = Some co ->
  op_tail_call_p op = false /\ op_static_param_p op = false /\ op_class_of op <> OPC_PARAMETER /\
  op_class_of op <> OPC_FOREIGN /\ (op_inverse op && negb (bool_decide (op_class_of op = OPC_ARITHMETIC))) = false /\
  (op_data op = None \/ (Z.of_nat n =? op_num_args op) = false).
Proof.
  unfold operator_code. destruct (prim_op op) eqn:E1; [|destruct (arith_op op n) eqn:E2; [|destruct (compare_op op n) eqn:E3; [|done]]];
    intros _.
  - unfold prim_op, plain_op in E1. destruct (op_data op), (op_data2 op), (op_class_of op), (op_tail_call_p op), (op_static_param_p op),
      (op_inverse op); rewrite ?andb_false_r in E1; try done; split_and!; try done; by left.
  - unfold arith_op in E2. repeat apply andb_prop in E2 as [E2 ?]. apply bool_decide_eq_true in E2. rewrite E2.
    rewrite bool_decide_eq_true_2, andb_false_r by done.
    split_and!; try done; try (by apply negb_true_iff); []. right. lia.
  - unfold compare_op in E3. repeat apply andb_prop in E3 as [E3 ?]. apply bool_decide_eq_true in E3. rewrite E3.
    destruct (op_data op), (op_inverse op), (op_tail_call_p op), (op_static_param_p op); try done. split_and!; try done. by left.
Qed.

Lemma emits_operator l op args n co g : operator_code op n = Some co ->
  emits g (finish_opcode_app op args (Z.of_nat n) (emit_operator l op (Z.of_nat n) g)) co 2.
Proof.
  intros Hco. destruct (operator_facts _ _ _ Hco) as (_ & Hst & _ & Hfor & _ & _).
  unfold operator_code in Hco. destruct (prim_op op) eqn:E1; [|destruct (arith_op op n) eqn:E2; [|destruct (compare_op op n) eqn:E3; [|done]]].
  - injection Hco as <-. unfold prim_op, plain_op in E1. unfold finish_opcode_app, emit_operator. rewrite Hst.
    rewrite (bool_decide_eq_false_2 (op_class_of op = OPC_FOREIGN)), andb_true_r by done.
    assert (emits g (emit_operator l op (Z.of_nat n) g) [COp (op_code op)] 0) as E.
    { unfold emit_operator. destruct (op_data op), (op_data2 op), (op_class_of op) eqn:Ec; rewrite ?andb_false_r in E1; try done; cbn [emit_fixnum_word];
        cbv zeta; repeat case_match; try done; apply emits_emit. }
    unfold emit_operator in E. destruct (returns_void op); emitting.
  - injection Hco as <-. unfold arith_op in E2. repeat apply andb_prop in E2 as [E2 ?]. apply bool_decide_eq_true in E2.
    unfold emit_operator. rewrite E2. replace (Z.to_nat (Z.of_nat n - 1)) with (n - 1)%nat by lia.
    eapply emits_eq; [eapply emits_trans; [apply emits_times|apply finish_no_void; [done|by apply negb_true_iff|lia]]|by rewrite app_nil_r|lia].
  - injection Hco as <-. unfold compare_op in E3. repeat apply andb_prop in E3 as [E3 ?]. apply bool_decide_eq_true in E3.
    unfold emit_operator. rewrite E3.
    eapply emits_eq; [eapply emits_trans; [apply emits_comparison|apply finish_no_void; [done|by apply negb_true_iff|lia]]|by rewrite app_nil_r|lia].
Qed.

Lemma tailp_times n o g : tailp (gctx (emit_times n o g)) = tailp (gctx g).
Proof. revert g. induction n as [|n IH]; intros g; cbn [emit_times]; [done|]. by rewrite IH. Qed.

Lemma tailp_chain n o g : tailp (gctx (emit_cmp_chain n o g)) = tailp (gctx g).
Proof. revert g. induction n as [|n IH]; intros g; cbn [emit_cmp_chain]; [done|]. by rewrite IH. Qed.

Lemma tailp_fixnum_word v g : tailp (gctx (emit_fixnum_word v g)) = tailp (gctx g).
Proof. destruct v as [[]|]; done. Qed.

#[local] Hint Rewrite tailp_times tailp_chain tailp_fixnum_word : tailp.

Lemma tailp_operator l op n g : tailp (gctx (emit_operator l op n g)) = tailp (gctx g).
Proof.
  unfold emit_operator, emit_comparison, emit_stack_ref. cbv zeta. repeat case_match; by autorewrite with tailp.
Qed.

Lemma tailp_finish op args n g : op_static_param_p op = false -> tailp (gctx (finish_opcode_app op args n g)) = tailp (gctx g).
Proof. intros Hs. unfold finish_opcode_app. rewrite Hs. case_match; by autorewrite with tailp. Qed.

Lemma gen_opapp l op args : Forall gen_spec args -> gen_spec (OpApp l op args).
Proof.
  intros Hargs g T Hw Hs Hf. cbn [supported] in Hs. apply andb_prop in Hs as [[co Hco]%bool_decide_eq_true Hs].
  destruct (operator_facts _ _ _ Hco) as (Htc & Hst & Hpar & Hfor & Hinv & Hdata).
  destruct (gen_args args Hargs (set_tailp false g) T Hw Hs Hf eq_refl) as (T1 & c1 & He1 & Hg1 & Hgr1 & Ht1).
  set (g1 := in_reverse (map sexp_generate args) (set_tailp false g)) in *.
  assert (sexp_generate (OpApp l op args) g =
    finish_opcode_app op args (Z.of_nat (length args)) (emit_operator l op (Z.of_nat (length args)) g1)) as Eg.
  { change (sexp_generate (OpApp l op args) g) with (generate_opcode_app l op args (map sexp_generate args) g).
    unfold generate_opcode_app. rewrite Htc, bool_decide_eq_false_2 by done. cbn [andb].
    unfold generate_inline_app, push_default, push_inverse_default. rewrite Hst, Hinv. fold g1.
    destruct (op_data op); [|done]. destruct Hdata as [ | -> ]; done. }
  rewrite Eg. pose proof (emits_operator l op args (length args) co g1 Hco) as He2.
  exists T1, (c1 ++ co). split; [|split; [|split]].
  - apply (emits_trans _ _ _ _ _ _ _ (emits_tailp false g)) in He1. pose proof (emits_trans _ _ _ _ _ _ _ He1 He2) as He.
    change (weight (OpApp l op args)) with (weights args + 2). eapply emits_eq; [exact He|done|lia].
  - by constructor.
  - eapply grown_heap; [done|apply He2].
  - intros _. rewrite tailp_finish, tailp_operator; done.
Qed.

(** ** Lambdas *)

Lemma emits_undefs n g : emits g (push_undefs n g) (undefs_code n) (Z.of_nat n).
Proof.
  revert g. induction n as [|n IH]; intros g; cbn [push_undefs undefs_code]; [apply emits_refl|].
  eapply emits_eq; [eapply emits_trans; [apply emits_push|apply IH]|done|lia].
Qed.

Lemma emits_box i name g : emits g (generate_box i name g) (box_code i name) 1.
Proof. unfold generate_box, box_code. emitting. Qed.

Lemma emits_boxes i sv g : emits g (fold_left (fun g name => generate_box i name g) sv g) (boxes_code i sv) (Z.of_nat (length sv)).
Proof.
  revert g. induction sv as [|x sv IH]; intros g; cbn [fold_left boxes_code length]; [apply emits_refl|].
  eapply emits_eq; [eapply emits_trans; [apply emits_box|apply IH]|done|lia].
Qed.

Lemma emits_capture lf k r g : within r = true -> emits g (capture_var k r (Some lf) g) (capture_code lf k r) 2.
Proof.
  destruct lf as [l fv]. unfold within, capture_var, capture_code, ref_code. destruct (ref_where r) as [|loc]; [done|]. intros _.
  pose proof (emits_var (ref_name r) loc l fv false g) as Hv. cbn [fmap option_fmap option_map fst andb] in *. emitting.
Qed.

Lemma emits_captures lf fv k g : forallb within fv = true ->
  emits g (capture_vars k fv (Some lf) g) (captures_code lf k fv) (2 * Z.of_nat (length fv)).
Proof.
  revert k g. induction fv as [|r fv IH]; intros k g; cbn [forallb capture_vars captures_code length]; [by intros _; apply emits_refl|].
  intros [Hr Hfv]%andb_prop. eapply emits_eq; [eapply emits_trans; [by apply emits_capture|by apply IH]|done|lia].
Qed.

Lemma heap_captures lf fv : forall k g, gheap (capture_vars k fv (Some lf) g) = gheap g.
Proof.
  induction fv as [|r fv IH]; intros k g; cbn [capture_vars]; [done|]. rewrite IH. destruct lf as [l fv'].
  unfold capture_var, generate_non_global_ref. cbn. repeat case_match; done.
Qed.

Lemma tailp_captures lf fv : forall k g, tailp (gctx (capture_vars k fv (Some lf) g)) = tailp (gctx g).
Proof.
  induction fv as [|r fv IH]; intros k g; cbn [capture_vars]; [done|]. rewrite IH. destruct lf as [l fv'].
  unfold capture_var. cbv zeta. case_match; by autorewrite with tailp.
Qed.

(** A lambda enters the table with its bytecode, and its procedure if closed. *)
Definition add_lambda (T : table) (i : lam_info) (fv : list ref) (body : ast) (b : loc) (p : option loc) : table :=
  Table (<[lam_id i := b]> (code_of T))
        (match p with Some p => <[lam_id i := p]> (closed_of T) | None => closed_of T end)
        (<[b := (i, fv, body)]> (lambda_of T)).

Lemma add_lambda_grown T T1 g1 g' i fv body c md lits b h2 p ids ls :
  grown T T1 g1 ids ls -> fresh_ids T (lam_id i :: ids) ->
  alloc (gheap g1) (Bytecode (prologue i ++ c ++ [COp OP_RET]) md lits) = (Ptr b, h2) -> ext h2 (gheap g') ->
  gc T1 (Some (i, fv)) true body c -> 0 <= md <= 960 -> Z.of_nat (length (lam_locals i)) + need body + 2 <= 60 + md ->
  (fv = [] -> exists q, p = Some q /\ gheap g' !! q =
     Some (Procedure (lambda_flags i body) (Z.of_nat (length (lam_params i))) (Ptr b) (Ptr G_EMPTY_VECTOR))) ->
  grown T (add_lambda T1 i fv body b p) g' (lam_id i :: ids) ((i, fv, body) :: ls).
Proof.
  intros [He Hw Hc] [Hn Hf] Ha Hext Hg Hmd Hneed Hproc. apply NoDup_cons in Hn as [Hnin _].
  destruct (alloc_at _ _ (Vector [] false) _ _ Ha) as (l & [= <-] & Hb & -> & _).
  assert (code_of T1 !! lam_id i = None /\ closed_of T1 !! lam_id i = None) as [Hn1 Hn2].
  { destruct (ext_other _ _ _ He (lam_id i) Hnin) as [-> ->]. apply Hf. by left. }
  assert (lambda_of T1 !! b = None) as Hn3.
  { destruct (lambda_of T1 !! b) as [[[i' fv'] body']|] eqn:E; [|done]. destruct (Hw _ _ _ _ E) as (? & ? & ? & Hl & _). congruence. }
  assert (extends T1 (add_lambda T1 i fv body b p) [lam_id i]) as He1.
  { split; cbn.
    - intros id x Hx. rewrite lookup_insert_ne; [done|]. intros <-. congruence.
    - intros id x Hx. destruct p; [|done]. rewrite lookup_insert_ne; [done|]. intros <-. congruence.
    - intros x y Hx. rewrite lookup_insert_ne; [done|]. intros <-. congruence.
    - intros id Hid%not_elem_of_cons. destruct Hid as [Hid _]. split; [by rewrite lookup_insert_ne|].
      destruct p; [by rewrite lookup_insert_ne|done]. }
  split.
  - eapply extends_incl; [by eapply extends_trans|]. intros id [H|H]%elem_of_app; [by right|].
    apply list_elem_of_singleton in H as ->. by left.
  - intros b' i' fv' body' Hb'. cbn in Hb'. apply lookup_insert_Some in Hb' as [[<- [= <- <- <-]]|[Hne Hb']].
    + exists c, md, lits. split; [|split; [by eapply gc_extends|done]]. apply Hext; [|done]. by rewrite lookup_insert_eq.
    + destruct (Hw _ _ _ _ Hb') as (c' & md' & lits' & Hl & Hg' & Hr). exists c', md', lits'.
      split; [|split; [by eapply gc_extends|done]]. apply Hext; [|done]. by rewrite lookup_insert_ne.
  - constructor.
    + exists b. cbn. rewrite !lookup_insert_eq. split_and!; [done..|]. intros Hfv. destruct (Hproc Hfv) as (q & -> & Hq).
      exists q. by rewrite lookup_insert_eq.
    + eapply covers_extends; [exact He1| |exact Hc]. etransitivity; [by eapply ext_fresh|done].
Qed.

(** The new context of a lambda, compiled to its bytecode. *)
Lemma gen_body i fv body h T : gen_spec body -> wf T h -> lambda_fits i fv body = true -> supported true body = true ->
  fresh_ids T (lambda_ids body) ->
  let g0 := Gen h (new_cctx (Some (i, fv))) in
  let g1 := set_tailp true (fold_left (fun g name => generate_box i name g) (lam_sv i) (push_undefs (length (lam_locals i)) g0)) in
  let g2 := sexp_generate body g1 in
  exists T' c, grown T T' g2 (lambda_ids body) (lambdas body) /\ ext h (gheap g2) /\
    code (gctx g2) ++ [COp OP_RET] = prologue i ++ c ++ [COp OP_RET] /\ gc T' (Some (i, fv)) true body c /\
    0 <= max_depth (gctx g2) <= 960 /\ Z.of_nat (length (lam_locals i)) + need body + 2 <= 60 + max_depth (gctx g2).
Proof.
  intros Hb Hw Hfit Hs Hf g0 g1 g2. unfold lambda_fits in Hfit. apply andb_prop in Hfit as [[Hneed%Z.leb_le Hwt%Z.leb_le]%andb_prop _].
  assert (emits g0 g1 (prologue i) (Z.of_nat (length (lam_locals i)) + Z.of_nat (length (lam_sv i)))) as E1.
  { subst g1. eapply emits_eq; [eapply emits_trans; [eapply emits_trans; [apply emits_undefs|apply emits_boxes]|apply emits_tailp]| |lia].
    by rewrite app_nil_r. }
  destruct (Hb g1 T) as (T' & c & E2 & Hg & Hgr & _).
  { eapply wf_ext; [apply E1|done]. }
  { by rewrite (emits_inside _ _ _ _ E1). }
  { done. }
  fold g2 in E2, Hgr. pose proof (emits_trans _ _ _ _ _ _ _ E1 E2) as [Hcode Hlam Hext _ Hmd _].
  exists T', c. split; [done|]. split; [exact Hext|]. split; [rewrite Hcode; cbn; by rewrite <- app_assoc|].
  split; [by rewrite (em_lambda _ _ _ _ E1) in Hg|]. cbn in Hmd. split; lia.
Qed.

Lemma alloc_ptr h o v h' : alloc h o = (v, h') -> exists l, v = Ptr l.
Proof. unfold alloc. intros [= <- <-]. eauto. Qed.

Lemma gen_lambda i fv body : gen_spec body -> gen_spec (Lambda i fv body).
Proof.
  intros Hbody g T Hw Hs Hf. cbn [supported lambda_ids] in *. apply andb_prop in Hs as [[[Hin Hfv]%andb_prop Hfit]%andb_prop Hs].
  assert (fresh_ids T (lambda_ids body)) as Hf1 by (by apply (fresh_ids_l _ _ [lam_id i]), (fresh_ids_swap _ [lam_id i])).
  destruct (gen_body i fv body (gheap g) T Hbody Hw Hfit Hs Hf1) as (T1 & c & Hgr & Hext & Hcode & Hg & Hmd & Hneed).
  cbn zeta in *. set (g2 := sexp_generate body _) in *.
  change (sexp_generate (Lambda i fv body) g) with (generate_lambda i fv body (sexp_generate body) g).
  unfold generate_lambda. cbv zeta. fold g2. unfold sexp_complete_bytecode. cbn [gctx sexp_emit on_ctx code set_code gheap max_depth literals].
  rewrite Hcode. destruct (alloc (gheap g2) _) as [bc h2] eqn:Ea. destruct (alloc_ptr _ _ _ _ Ea) as [b ->].
  pose proof (ext_alloc _ _ _ _ Ea) as Hext2.
  destruct fv as [|r fv].
  - cbn [sexp_make_vector Z.eqb]. unfold sexp_make_procedure. cbn [gheap gctx].
    destruct (alloc h2 _) as [proc h3] eqn:Ep. destruct (alloc_ptr _ _ _ _ Ep) as [p ->]. pose proof (ext_alloc _ _ _ _ Ep) as Hext3.
    unfold generate_lit. set (g3 := bytecode_preserve (Ptr p) (Gen h3 (gctx g))).
    assert (emits g g3 [] 0) as E3.
    { eapply (emits_trans _ _ _ [] [] 0 0); [apply (emits_heap g h3)|apply emits_preserve]. etransitivity; [exact Hext|by etransitivity]. }
    assert (gheap (sexp_emit_push (Ptr p) g3) = h3) as Hh by (subst g3; unfold sexp_emit_push, bytecode_preserve; done).
    exists (add_lambda T1 i [] body b (Some p)), (push_code (Ptr p)). split; [|split; [|split]].
    + cbn [weight length]. emitting.
    + constructor. cbn. by rewrite lookup_insert_eq.
    + eapply add_lambda_grown; [done|done|exact Ea|by rewrite Hh|done|done|done|].
      intros _. exists p. split; [done|]. rewrite Hh. destruct (alloc_at _ _ (Vector [] false) _ _ Ep) as (q & [= <-] & _ & -> & _).
      by rewrite lookup_insert_eq.
    + intros Ht. rewrite tailp_push. subst g3. by rewrite tailp_preserve.
  - unfold inside in Hin. destruct (clambda (gctx g)) as [lf|] eqn:El; [|done]. cbn [gctx].
    assert (emits g (Gen h2 (gctx g)) [] 0) as E0 by (apply emits_heap; by etransitivity).
    set (n := Z.of_nat (length (r :: fv))).
    set (g3 := sexp_inc_context_depth (-1) (sexp_emit OP_MAKE_VECTOR
                 (sexp_emit_push (Fixnum n) (sexp_emit_push SEXP_VOID (Gen h2 (gctx g)))))).
    assert (emits g g3 (push_code SEXP_VOID ++ push_code (Fixnum n) ++ [COp OP_MAKE_VECTOR]) 2) as E3 by (subst g3; emitting).
    pose proof (emits_trans _ _ _ _ _ _ _ E3 (emits_captures lf (r :: fv) 0 g3 Hfv)) as E4. fold n in E4.
    set (g4 := capture_vars 0 (r :: fv) (Some lf) g3) in *.
    exists (add_lambda T1 i (r :: fv) body b None). eexists. split; [|split; [|split]].
    + change (weight (Lambda i (r :: fv) body)) with (2 * n + 3). eapply emits_eq; [emits_chain|reflexivity|lia].
    + rewrite !app_nil_r, <- !app_assoc. apply gc_open; [done|by cbn; rewrite lookup_insert_eq|].
      unfold lambda_fits in Hfit. apply andb_prop in Hfit as [_ Hfit%Z.leb_le].
      assert (960 <= SEXP_MAX_VECTOR_LENGTH) by (by vm_compute). lia.
    + eapply add_lambda_grown; [done|done|exact Ea| |done|done|done|done].
      assert (gheap g4 = h2) as Hh4 by (by subst g4; rewrite heap_captures). by rewrite <- Hh4.
    + intros Ht. rewrite !tailp_preserve. autorewrite with tailp. subst g4. by rewrite tailp_captures.
Qed.

Lemma generates x : gen_spec x.
Proof.
  induction x using ast_ind'.
  - apply gen_lit.
  - apply gen_self.
  - apply gen_refE.
  - intros g T Hw Hs Hf. destruct (gen_set r x IHx g T Hw Hs Hf) as (T' & c & He & Hg & Hgr & Ht).
    exists T', (c ++ push_code SEXP_VOID). split; [done|]. split; [by constructor|]. done.
  - by apply gen_cnd.
  - by apply gen_sequence.
  - by apply gen_lambda.
  - by apply gen_app.
  - by apply gen_opapp.
Qed.
