(* ===== verification/Scope.v ===== *)
(** * Free variables

    [sexp_free_vars] computes, for every lambda, the variables its closure has
    to capture: exactly those that occur free in it, each once. *)
From S2P Require Import Prelude Heap Ast Codegen Compiler.
From stdpp Require Import base list option.
#[local] Open Scope Z_scope.

(** ** Occurrences *)

(** [r] refers to the variable [n] of the lambda [id]. *)
Definition hit (n : ident) (id : positive) (r : ref) : bool :=
  bool_decide (ref_name r = n) && match ref_where r with Within i => bool_decide (lam_id i = id) | Global _ => false end.

Definition binds (i : lam_info) (n : ident) (id : positive) : bool :=
  bool_decide (lam_id i = id) && memq n (lam_locals i ++ flatten_dot i).

Fixpoint occurs (n : ident) (id : positive) (x : ast) : bool :=
  match x with
  | Lit _ | Self _ => false
  | RefE r => hit n id r
  | SetE r v => hit n id r || occurs n id v
  | Cnd t p f => occurs n id t || occurs n id p || occurs n id f
  | Seq ls => existsb (occurs n id) ls
  | Lambda i _ b => occurs n id b && negb (binds i n id)
  | App f args => occurs n id f || existsb (occurs n id) args
  | OpApp _ _ args => existsb (occurs n id) args
  end.

(** What identifies a variable. *)
Definition key (r : ref) : ident * option positive :=
  (ref_name r, match ref_where r with Within i => Some (lam_id i) | Global _ => None end).

(** A list of free variables: local ones, each once. *)
Definition fv_list (fv : list ref) : Prop := Forall (fun r => within r = true) fv /\ NoDup (map key fv).

Definition captures (fv : list ref) (n : ident) (id : positive) : bool := existsb (hit n id) fv.

Lemma hit_key n id r : hit n id r = bool_decide (key r = (n, Some id)).
Proof.
  unfold hit, key. destruct (ref_where r) as [c|i].
  - rewrite andb_false_r. by rewrite bool_decide_false.
  - rewrite <- bool_decide_and. apply bool_decide_ext. split; [by intros [-> ->]|by intros [= -> ->]].
Qed.

Lemma same_ref_key x r : within x = true -> same_ref (ref_name x) (ref_where x) r = bool_decide (key r = key x).
Proof.
  unfold within, same_ref, same_loc, key. destruct (ref_where x) as [|i]; [done|]. intros _. destruct (ref_where r) as [c|k].
  - rewrite andb_false_r. by rewrite bool_decide_false.
  - rewrite <- bool_decide_and. apply bool_decide_ext. split; [by intros [-> ->]|by intros [= -> ->]].
Qed.

Lemma captures_spec fv n id : captures fv n id = bool_decide ((n, Some id) ∈ map key fv).
Proof.
  unfold captures. apply eq_bool_prop_intro. rewrite bool_decide_spec. split.
  - intros (y & Hy & Hh)%Is_true_true%existsb_exists. rewrite hit_key in Hh. apply bool_decide_eq_true in Hh.
    rewrite <- Hh. apply list_elem_of_fmap_2. by apply list_elem_of_In.
  - intros (y & Hk & Hy)%list_elem_of_fmap. apply Is_true_true, existsb_exists. exists y. split; [by apply list_elem_of_In|].
    rewrite hit_key. by rewrite bool_decide_true.
Qed.

Lemma fv_list_nil : fv_list [].
Proof. split; constructor. Qed.

Lemma insert_spec x fv : within x = true -> fv_list fv -> fv_list (insert_free_var x fv) /\
  forall n id, captures (insert_free_var x fv) n id = hit n id x || captures fv n id.
Proof.
  intros Hx [Hw Hd]. unfold insert_free_var. destruct (existsb _ fv) eqn:E.
  - split; [done|]. intros n id. destruct (hit n id x) eqn:Eh; [|done]. cbn.
    apply existsb_exists in E as (y & Hy & Hs). rewrite same_ref_key in Hs by done. rewrite hit_key in Eh.
    apply bool_decide_eq_true in Hs, Eh. rewrite captures_spec. apply bool_decide_true. rewrite <- Eh, <- Hs.
    apply list_elem_of_fmap_2. by apply list_elem_of_In.
  - split; [|done]. split; [by constructor|]. cbn [map]. constructor; [|done].
    intros (y & Hk & Hy)%list_elem_of_fmap. apply not_true_iff_false in E. destruct E.
    apply existsb_exists. exists y. split; [by apply list_elem_of_In|]. rewrite same_ref_key by done. by rewrite bool_decide_true.
Qed.

Lemma union_spec fv1 fv2 : fv_list fv1 -> fv_list fv2 -> fv_list (union_free_vars fv1 fv2) /\
  forall n id, captures (union_free_vars fv1 fv2) n id = captures fv1 n id || captures fv2 n id.
Proof.
  intros H1 H2. unfold union_free_vars.
  assert (fv_list (fold_left (fun res x => insert_free_var x res) fv1 fv2) /\ forall n id,
    captures (fold_left (fun res x => insert_free_var x res) fv1 fv2) n id = captures fv1 n id || captures fv2 n id) as H.
  { destruct H1 as [Hw _]. revert fv2 H2. induction fv1 as [|x fv1 IH]; intros fv2 H2; cbn [fold_left]; [done|].
    apply Forall_cons_1 in Hw as [Hx Hw]. destruct (insert_spec x fv2 Hx H2) as [Hi Hc].
    destruct (IH Hw _ Hi) as [Hf Hfc]. split; [done|]. intros n id. rewrite Hfc, Hc.
    change (captures (x :: fv1) n id) with (hit n id x || captures fv1 n id).
    by destruct (hit n id x), (captures fv1 n id), (captures fv2 n id). }
  destruct fv2; [|exact H]. split; [done|]. intros n id. by rewrite orb_false_r.
Qed.

(** The references that [diff_free_vars] keeps. *)
Definition kept (id : positive) (params : list ident) (x : ref) : bool :=
  negb (match ref_where x with Within i => bool_decide (lam_id i = id) | _ => false end) || negb (memq (ref_name x) params).

Lemma diff_rev id params fv : diff_free_vars id fv params = rev (filter (fun x => kept id params x = true) fv).
Proof.
  unfold diff_free_vars. enough (forall acc, fold_left (fun res x => if kept id params x then x :: res else res) fv acc =
    rev (filter (fun x => kept id params x = true) fv) ++ acc) as H by (rewrite H; by rewrite app_nil_r).
  induction fv as [|x fv IH]; intros acc; cbn [fold_left]; [done|]. rewrite IH, filter_cons. case_decide as E.
  - rewrite E. cbn [rev]. by rewrite <- app_assoc.
  - by destruct (kept id params x).
Qed.

Lemma diff_spec i fv : fv_list fv ->
  fv_list (diff_free_vars (lam_id i) fv (lam_locals i ++ flatten_dot i)) /\
  forall n id, captures (diff_free_vars (lam_id i) fv (lam_locals i ++ flatten_dot i)) n id =
    captures fv n id && negb (binds i n id).
Proof.
  intros [Hw Hd]. rewrite diff_rev. set (ps := lam_locals i ++ flatten_dot i).
  set (fv' := filter (fun x => kept (lam_id i) ps x = true) fv).
  split; [split|].
  - apply Forall_rev. apply List.Forall_forall. intros x [_ Hx]%list_elem_of_In%list_elem_of_filter.
    by apply (proj1 (List.Forall_forall _ _) Hw), list_elem_of_In.
  - rewrite map_rev, <- Permutation_rev. eapply sublist_NoDup; [exact Hd|]. apply (fmap_sublist key).
    subst fv'. apply sublist_filter.
  - intros n id. rewrite !captures_spec, map_rev. apply eq_bool_prop_intro.
    rewrite bool_decide_spec, andb_True, bool_decide_spec, negb_True, <- Permutation_rev. unfold fv'. split.
    + intros (y & Hk & [Hkept Hy]%list_elem_of_filter)%list_elem_of_fmap. split; [rewrite Hk; by apply list_elem_of_fmap_2|].
      injection Hk as -> Hid. unfold binds. unfold kept in Hkept. destruct (ref_where y) as [|k]; [done|]. injection Hid as ->.
      intros [Hb Hm]%andb_True. rewrite bool_decide_spec in Hb. rewrite bool_decide_true in Hkept by done.
      fold ps in Hm. destruct (memq _ ps); done.
    + intros [(y & Hk & Hy)%list_elem_of_fmap Hb]. rewrite Hk. apply list_elem_of_fmap_2, list_elem_of_filter. split; [|done].
      injection Hk as -> Hid. unfold binds in Hb. unfold kept. destruct (ref_where y) as [|k]; [done|]. injection Hid as ->.
      fold ps in Hb.
      destruct (memq (ref_name y) ps); [|by rewrite orb_true_r].
      destruct (decide (lam_id k = lam_id i)) as [E1|E1]; [|by rewrite bool_decide_false].
      destruct Hb. by rewrite bool_decide_true.
Qed.

(** ** The pass *)

Fixpoint free_list (ls : list ast) (fv : list ref) : list ast * list ref :=
  match ls with
  | [] => ([], fv)
  | y :: ls => let '(y, fv) := sexp_free_vars y fv in let '(ls, fv) := free_list ls fv in (y :: ls, fv)
  end.

Lemma free_vars_seq ls fv : sexp_free_vars (Seq ls) fv = let '(ls, fv) := free_list ls fv in (Seq ls, fv).
Proof. done. Qed.
Lemma free_vars_app f args fv : sexp_free_vars (App f args) fv =
  let '(f, fv) := sexp_free_vars f fv in let '(args, fv) := free_list args fv in (App f args, fv).
Proof. done. Qed.
Lemma free_vars_opapp l op args fv : sexp_free_vars (OpApp l op args) fv =
  let '(args, fv) := free_list args fv in (OpApp l op args, fv).
Proof. done. Qed.

(** The list stored in a lambda is the list of its free variables. *)
Definition closure_ok (l : lam_info * list ref * ast) : Prop :=
  let '(i, fv, b) := l in fv_list fv /\ forall n id, captures fv n id = occurs n id (Lambda i fv b).

(** From [fv] to [fv'], the variables that [occ] says occur were added; the new
    closures are right, and nothing else about the trees changed. *)
Record collected (fv fv' : list ref) (occ occ' : ident -> positive -> bool) (new : list (lam_info * list ref * ast))
    (ids ids' : list positive) : Prop := {
  co_list : fv_list fv';
  co_captures : forall n id, captures fv' n id = captures fv n id || occ n id;
  co_closures : Forall closure_ok new;
  co_occurs : forall n id, occ' n id = occ n id;
  co_ids : ids' = ids;
}.

Definition analyzed (x : ast) : Prop := forall fv, fv_list fv ->
  collected fv (sexp_free_vars x fv).2 (fun n id => occurs n id x) (fun n id => occurs n id (sexp_free_vars x fv).1)
    (lambdas (sexp_free_vars x fv).1) (lambda_ids x) (lambda_ids (sexp_free_vars x fv).1).

Lemma collected_none fv : fv_list fv -> collected fv fv (fun _ _ => false) (fun _ _ => false) [] [] [].
Proof. split; [done| |constructor|done|done]. intros. by rewrite orb_false_r. Qed.

Lemma collected_trans fv fv1 fv2 o1 o1' o2 o2' l1 l2 i1 i1' i2 i2' :
  collected fv fv1 o1 o1' l1 i1 i1' -> collected fv1 fv2 o2 o2' l2 i2 i2' ->
  collected fv fv2 (fun n id => o1 n id || o2 n id) (fun n id => o1' n id || o2' n id) (l1 ++ l2) (i1 ++ i2) (i1' ++ i2').
Proof.
  intros [L1 C1 W1 O1 ->] [L2 C2 W2 O2 ->]. split; [done| |by apply Forall_app| |done].
  - intros n id. by rewrite C2, C1, orb_assoc.
  - intros n id. by rewrite O1, O2.
Qed.

Lemma analyzed_list ls : Forall analyzed ls -> forall fv, fv_list fv ->
  collected fv (free_list ls fv).2 (fun n id => existsb (occurs n id) ls) (fun n id => existsb (occurs n id) (free_list ls fv).1)
    (flat_map lambdas (free_list ls fv).1) (flat_map lambda_ids ls) (flat_map lambda_ids (free_list ls fv).1).
Proof.
  induction 1 as [|x ls Hx _ IH]; intros fv Hfv; cbn [free_list]; [by apply collected_none|].
  specialize (Hx fv Hfv). destruct (sexp_free_vars x fv) as [x' fv1]. cbn [fst snd] in Hx.
  specialize (IH fv1 (co_list _ _ _ _ _ _ _ Hx)). destruct (free_list ls fv1) as [ls' fv2]. cbn [fst snd] in *.
  exact (collected_trans _ _ _ _ _ _ _ _ _ _ _ _ _ Hx IH).
Qed.

Lemma analyzed_ref r fv : fv_list fv -> forall fv', fv' = (match ref_where r with Within _ => insert_free_var r fv | _ => fv end) ->
  collected fv fv' (fun n id => hit n id r) (fun n id => hit n id r) [] [] [].
Proof.
  intros Hfv fv' ->. destruct (ref_where r) as [c|i] eqn:E.
  - split; [done| |constructor|done|done]. intros n id. unfold hit. rewrite E, andb_false_r. by rewrite orb_false_r.
  - assert (within r = true) as Hw by (unfold within; by rewrite E). destruct (insert_spec r fv Hw Hfv) as [Hl Hc].
    split; [done| |constructor|done|done]. intros n id. rewrite Hc. apply orb_comm.
Qed.

(** A step may be stated for any equal description of the occurrences. *)
Lemma collected_eq fv fv' o1 o1' o2 o2' l l2 i1 i1' i2 i2' : collected fv fv' o1 o1' l i1 i1' ->
  (forall n id, o2 n id = o1 n id) -> (forall n id, o2' n id = o1' n id) -> l2 ≡ₚ l -> i2' = i2 ->
  collected fv fv' o2 o2' l2 i2 i2'.
Proof.
  intros [L C W O I] H1 H2 Hl Hi. split; [done| |by rewrite Hl| |done]; intros n id; [by rewrite H1|by rewrite H1, H2].
Qed.

Lemma analyzed_lambda i fv0 b : analyzed b -> analyzed (Lambda i fv0 b).
Proof.
  intros Hb fv Hfv. cbn [sexp_free_vars]. specialize (Hb [] fv_list_nil). destruct (sexp_free_vars b []) as [b' fv1].
  destruct Hb as [L C W O I]. cbn [fst snd] in *. destruct (diff_spec i fv1 L) as [Ld Cd].
  set (fvl := diff_free_vars (lam_id i) fv1 (lam_locals i ++ flatten_dot i)) in *.
  destruct (union_spec fvl fv Ld Hfv) as [Lu Cu].
  assert (forall n id, captures fvl n id = occurs n id b && negb (binds i n id)) as Hcap
    by (intros n id; rewrite Cd, C; done).
  split; cbn [fst snd lambdas occurs lambda_ids].
  - exact Lu.
  - intros n id. rewrite Cu, Hcap. apply orb_comm.
  - constructor; [|done]. split; [done|]. intros n id. cbn [occurs]. by rewrite Hcap, O.
  - intros n id. by rewrite O.
  - by rewrite I.
Qed.

Lemma all_analyzed x : analyzed x.
Proof.
  induction x as [v|v|r|r v IH|t p f IHt IHp IHf|ls IH|i fv0 b IH|f args IHf IHargs|l op args IH] using ast_ind'; intros fv Hfv.
  - by apply collected_none.
  - by apply collected_none.
  - by apply (analyzed_ref r fv Hfv).
  - cbn [sexp_free_vars]. specialize (IH fv Hfv). destruct (sexp_free_vars v fv) as [v' fv1]. cbn [fst snd] in *.
    pose proof (collected_trans _ _ _ _ _ _ _ _ _ _ _ _ _ IH (analyzed_ref r fv1 (co_list _ _ _ _ _ _ _ IH) _ eq_refl)) as H.
    rewrite !app_nil_r in H. eapply collected_eq; [exact H|intros n id; apply orb_comm|intros n id; apply orb_comm|done|by apply IH].
  - cbn [sexp_free_vars]. specialize (IHt fv Hfv). destruct (sexp_free_vars t fv) as [t' fv1]. cbn [fst snd] in *.
    specialize (IHp fv1 (co_list _ _ _ _ _ _ _ IHt)). destruct (sexp_free_vars p fv1) as [p' fv2]. cbn [fst snd] in *.
    specialize (IHf fv2 (co_list _ _ _ _ _ _ _ IHp)). destruct (sexp_free_vars f fv2) as [f' fv3]. cbn [fst snd] in *.
    pose proof (collected_trans _ _ _ _ _ _ _ _ _ _ _ _ _ IHt (collected_trans _ _ _ _ _ _ _ _ _ _ _ _ _ IHp IHf)) as H.
    eapply collected_eq; [exact H|intros n id; cbn; by rewrite orb_assoc|intros n id; cbn; by rewrite orb_assoc|done|].
    cbn. by rewrite (co_ids _ _ _ _ _ _ _ IHt), (co_ids _ _ _ _ _ _ _ IHp), (co_ids _ _ _ _ _ _ _ IHf).
  - rewrite free_vars_seq. pose proof (analyzed_list ls IH fv Hfv) as H. by destruct (free_list ls fv) as [ls' fv'].
  - by apply analyzed_lambda.
  - rewrite free_vars_app. specialize (IHf fv Hfv). destruct (sexp_free_vars f fv) as [f' fv1]. cbn [fst snd] in *.
    pose proof (analyzed_list args IHargs fv1 (co_list _ _ _ _ _ _ _ IHf)) as H.
    destruct (free_list args fv1) as [args' fv2]. cbn [fst snd] in *.
    eapply collected_eq; [exact (collected_trans _ _ _ _ _ _ _ _ _ _ _ _ _ IHf H)|done|done|apply Permutation_app_comm|].
    cbn. by rewrite (co_ids _ _ _ _ _ _ _ IHf), (co_ids _ _ _ _ _ _ _ H).
  - rewrite free_vars_opapp. pose proof (analyzed_list args IH fv Hfv) as H. by destruct (free_list args fv) as [args' fv'].
Qed.

(** C25 (functional).  [sexp_free_vars] computes free variables.  It returns the
    list it was given with the variables that occur free in the tree added,
    local ones only and each once; the list it stores in each lambda is exactly
    the variables that occur free in that lambda, so a closure captures what it
    needs and nothing else.  It changes neither the occurrences nor the lambdas
    of the tree.  For a tree without free variables the result is the empty
    list, as the comment at its call in [sexp_generate_op] says it should be. *)
Theorem free_vars_correct x fv : fv_list fv ->
  let '(x', fv') := sexp_free_vars x fv in
  fv_list fv' /\
  (forall n id, captures fv' n id = captures fv n id || occurs n id x) /\
  Forall (fun '(i, fvl, b) => fv_list fvl /\ forall n id, captures fvl n id = occurs n id (Lambda i fvl b)) (lambdas x') /\
  (forall n id, occurs n id x' = occurs n id x) /\ lambda_ids x' = lambda_ids x /\
  (fv = [] -> (forall n id, occurs n id x = false) -> fv' = []).
Proof.
  intros Hfv. destruct (all_analyzed x fv Hfv) as [L C W O I]. destruct (sexp_free_vars x fv) as [x' fv']. cbn [fst snd] in *.
  split_and!; [done|done|exact W|done|done|]. intros -> Hx. destruct fv' as [|r fv']; [done|]. exfalso.
  destruct L as [Lw _]. apply Forall_cons_1 in Lw as [Hw _]. unfold within in Hw. destruct (ref_where r) as [|i] eqn:E; [done|].
  specialize (C (ref_name r) (lam_id i)). rewrite Hx in C. cbn in C. unfold hit in C. rewrite E in C.
  by rewrite !bool_decide_true in C.
Qed.

Definition outer : lam_info := LamInfo 1 [Symbol "x"; Symbol "y"] None [] [].
Definition inner : lam_info := LamInfo 2 [Symbol "z"] None [] [].

(** [(lambda (x y) (lambda (z) (x z)))] *)
Definition nested : ast :=
  Lambda outer [] (Lambda inner [] (App (RefE (Ref (Symbol "x") (Within outer))) [RefE (Ref (Symbol "z") (Within inner))])).

Lemma free_vars_correct_witness :
  fv_list [] /\ (sexp_free_vars nested []).2 = [] /\
  Forall (fun '(i, fvl, b) => forall n id, captures fvl n id = occurs n id (Lambda i fvl b)) (lambdas (sexp_free_vars nested []).1) /\
  map (fun '(_, fvl, _) => fvl) (lambdas (sexp_free_vars nested []).1) = [[]; [Ref (Symbol "x") (Within outer)]].
Proof.
  split; [exact fv_list_nil|]. pose proof (free_vars_correct nested [] fv_list_nil) as H.
  destruct (sexp_free_vars nested []) as [x' fv'] eqn:E. destruct H as (_ & _ & Hl & _ & _ & Hnil).
  split; [|split].
  - revert E. vm_compute. congruence.
  - apply (Forall_impl (P := _)) with (2 := Hl). by intros [[i fvl] b] [_ H].
  - revert E. vm_compute. by intros [= <- <-].
Defined.
