(* ===== verification/Toplevel.v ===== *)
(** * Running compiled programs

    From the compiler and the simulation to the entry points: [sexp_generate_op]
    gives a procedure whose [sexp_apply] returns the value of the tree, or the
    error of a full stack; it never crashes and never runs forever when the
    tree has a value. *)
From S2P Require Import Prelude Bignum Numbers Heap Ast Codegen Vm Semantics VmSteps Instructions Calls Code Simulation Compiler.
From stdpp Require Import base list option gmap.
#[local] Open Scope Z_scope.
#[local] Arguments alloc : simpl never.

Section toplevel.
Variable foreign : string -> heap -> list sexp -> sexp * heap.
Variables pr hd : sexp.

#[local] Abbreviation mk := (mk pr hd).
#[local] Abbreviation reach := (reach foreign).
#[local] Abbreviation live := (live pr hd).
#[local] Abbreviation from := (from foreign pr hd).

(** ** Runs *)

(** Every long enough run ends with [v] and the heap [h], the stack below [l]
    as it was, or with the error of a full stack. *)
Definition gives (h : heap) (l : list sexp) (v : sexp) (r : nat -> run_result) : Prop :=
  exists n, forall fuel, (n <= fuel)%nat ->
    (exists s, r fuel = Returned v s /\ v_heap s = h /\ v_top s = Z.of_nat (length l) /\ l `prefix_of` v_stack s) \/
    (exists s, r fuel = Returned (Ptr G_OOS_ERROR) s).

Lemma gives_step h l v c c' : step foreign c = Goes c' -> gives h l v (fun n => run foreign n c') -> gives h l v (fun n => run foreign n c).
Proof.
  intros Hs (n & Hn). exists (S n). intros [|fuel] Hf; [lia|]. cbn. rewrite Hs. apply Hn. lia.
Qed.

Lemma reach_gives Q h l v c : reach Q c -> (forall c, Q c -> gives h l v (fun n => run foreign n c)) ->
  gives h l v (fun n => run foreign n c).
Proof.
  induction 1 as [|c c' Hs _ IH|c s Hs Ho]; intros HQ; [auto| |].
  - eapply gives_step; eauto.
  - exists 1%nat. intros [|fuel] Hf; [lia|]. right. cbn. rewrite Hs, Ho. eauto.
Qed.

(** The final resumer is in place. *)
Definition resumer (h : heap) : Prop :=
  exists code, code_at h (Ptr G_FINAL_RESUMER) (COp OP_DONE :: code).

Lemma resumer_ext h h' : ext h h' -> resumer h -> resumer h'.
Proof.
  intros He (code & l & fl & n & b & vars & md & lits & Hl & H1 & H2). exists code, l, fl, n, b, vars, md, lits.
  split; [done|]. split; [by apply (He _ _ H1)|by apply (He _ _ H2)].
Qed.

Lemma done_gives h l v fp m c : resumer h -> live h (l ++ [v]) fp 0 (Ptr G_FINAL_RESUMER) m c ->
  gives h l v (fun n => run foreign n c).
Proof.
  intros (code & Hc) (j & -> & _ & _). exists 1%nat. intros [|fuel] Hf; [lia|]. left. cbn.
  assert (bytes_at h (Ptr G_FINAL_RESUMER) 0 (COp OP_DONE :: code)) as Hb
    by (exists [], []; rewrite app_nil_r; by split).
  rewrite (bind_val _ _ _ _ _ (fetch_op_spec _ _ _ _ _ _ _ _ _ _ Hb)). cbn.
  unfold result_of. erewrite bind_val by (by apply arg_at).
  eexists. split; [reflexivity|]. cbn. split_and!; [done|llia|]. rewrite <- app_assoc. by apply prefix_app_r.
Qed.

(** ** The entry *)

#[local] Abbreviation raw := (raw pr hd).

Lemma place_args_spec h l fp ip self args : forall js rest, length js = length args ->
  place_args args (raw h (l ++ js ++ rest) (Z.of_nat (length l + length js)) fp ip self) =
  Val tt (raw h (l ++ rev args ++ rest) (Z.of_nat (length l)) fp ip self).
Proof.
  induction args as [|a args IH]; intros js rest Hlen.
  - destruct js; [|done]. cbn. by rewrite Nat.add_0_r.
  - destruct js as [|x js _] using rev_ind; [done|]. rewrite length_app in Hlen. cbn [length] in Hlen.
    cbn [place_args rev]. rewrite <- !app_assoc. unfold set_arg. cbn [app].
    erewrite bind_val; [|erewrite bind_val by reflexivity; rewrite (app_assoc l); apply (raw_set pr hd); cbn [v_top Calls.raw]; llia].
    erewrite bind_val by reflexivity. rewrite <- app_assoc.
    etransitivity; [|apply (IH js (a :: rest)); lia].
    unfold Calls.raw. cbn. do 2 f_equal. llia.
Qed.

(** The start of [sexp_apply]: the arguments on the stack and a call from the
    final resumer, or no room. *)
Lemma apply_entry_spec h l j fp ip self lp flags n b vars data md lits args :
  h !! lp = Some (Procedure flags n (Ptr b) vars) -> h !! b = Some (Bytecode data md lits) ->
  0 <= md -> Z.of_nat (length args) + md <= 960 ->
  good_size (Z.of_nat (length (l ++ j))) -> Z.of_nat (length l) + 2 <= Z.of_nat (length (l ++ j)) ->
  (exists j', apply_entry (Ptr lp) args (mk h l j fp ip self) =
     make_call (Z.of_nat (length args)) (Ptr lp)
       (mk h (l ++ rev args ++ [Ptr lp]) j' (Z.of_nat (length l) - 4) (-8) (Ptr G_FINAL_RESUMER)) /\
     let size := Z.of_nat (length ((l ++ rev args ++ [Ptr lp]) ++ j')) in
     good_size size /\ Z.of_nat (length l + length args) + 4 <= size) \/
  (exists s, apply_entry (Ptr lp) args (mk h l j fp ip self) = End s /\ oos s).
Proof.
  intros Hp Hb Hmd Hroom Hg Hl. unfold apply_entry.
  assert (forall R, (top ← get_top; set_fp (top - 4);; set_self (Ptr G_FINAL_RESUMER);; set_ip (- sizeof_sexp);;
     h ← get_heap; let i := Z.of_nat (length args) in
     max ← match deref h (Ptr lp) with
           | Some (Procedure _ _ c _) => '(_, m) ← bytecode_of c; mret m
           | _ => mret 0
           end; sexp_ensure_stack (i + 64 + max);; R i top) (mk h l j fp ip self) =
   (sexp_ensure_stack (Z.of_nat (length args) + 64 + md);; R (Z.of_nat (length args)) (Z.of_nat (length l)) : M unit)
     (mk h l j (Z.of_nat (length l) - 4) (-8) (Ptr G_FINAL_RESUMER))) as Hstart.
  { intros R. unfold bytecode_of, get_top, get_heap, set_fp, set_self, set_ip, mbind, M_bind, mret, M_ret, VmSteps.mk, deref.
    cbn. rewrite Hp. cbn. rewrite Hb. done. }
  rewrite (Hstart (fun i top => set_top (top + i);; place_args args;; set_top (top + i);; push (Ptr lp);; make_call i (Ptr lp))).
  clear Hstart.
  assert ((exists j', sexp_ensure_stack (Z.of_nat (length args) + 64 + md) (mk h l j (Z.of_nat (length l) - 4) (-8) (Ptr G_FINAL_RESUMER)) =
            Val tt (mk h l j' (Z.of_nat (length l) - 4) (-8) (Ptr G_FINAL_RESUMER)) /\
            let size' := Z.of_nat (length (l ++ j')) in
            good_size size' /\ Z.of_nat (length l) + (Z.of_nat (length args) + 64 + md) < size') \/
          (exists s, sexp_ensure_stack (Z.of_nat (length args) + 64 + md) (mk h l j (Z.of_nat (length l) - 4) (-8) (Ptr G_FINAL_RESUMER)) = End s /\ oos s))
    as [(j' & He & Hg' & Hl')|(s & He & Ho)].
  { destruct l as [|x l _] using rev_ind.
    - left. edestruct (ensure_stack_room pr hd h [] j (-4) (-8) (Ptr G_FINAL_RESUMER)) as (j' & He & Hg' & _ & Hl');
        [exact Hg| |exact Hl| |exists j'; split; [exact He|by split]]; [lia|].
      destruct (decide (Z.of_nat (length ([] ++ j)) = SEXP_MAX_STACK_SIZE)) as [->|]; [right|by left].
      cbn [length]. unfold SEXP_MAX_STACK_SIZE. lia.
    - edestruct (ensure_stack_spec pr hd h l x j) as [(j' & He & Hg' & _ & Hl')|Ho]; [exact Hg| |revert Hl; llia| |right; exact Ho]; [lia|].
      left. exists j'. split; [exact He|]. split; [exact Hg'|]. revert Hl'. llia. }
  2: { right. exists s. split; [|done]. by apply bind_end. }
  rewrite (bind_val _ _ _ _ _ He). clear He.
  left. cbn zeta in *. assert (exists js x rest, j' = js ++ x :: rest /\ length js = length args) as (js & x & rest & -> & Hjs).
  { exists (take (length args) j'). destruct (drop (length args) j') as [|x rest] eqn:Ed.
    - apply (f_equal length) in Ed. rewrite length_drop in Ed. cbn in Ed. revert Hl'. llia.
    - exists x, rest. rewrite <- Ed, take_drop, length_take. split; [done|]. revert Hl'. llia. }
  exists rest. split.
  2: { assert (length ((l ++ rev args ++ [Ptr lp]) ++ rest) = length (l ++ js ++ x :: rest)) as -> by llia.
       split; [exact Hg'|lia]. }
  erewrite bind_val by reflexivity.
  erewrite bind_val.
  2: { etransitivity; [|apply (place_args_spec h l (Z.of_nat (length l) - 4) (-8) (Ptr G_FINAL_RESUMER) args js (x :: rest) Hjs)].
       unfold Calls.raw, VmSteps.mk. cbn. do 2 f_equal. llia. }
  erewrite bind_val by reflexivity.
  erewrite bind_val; [|etransitivity; [|apply (push_spec pr hd h (l ++ rev args) x rest)]].
  - by rewrite <- !app_assoc.
  - unfold Calls.raw, VmSteps.mk. cbn. do 2 f_equal; [by rewrite <- app_assoc|llia].
Qed.

(** A call from the entry that simulates an application. *)
Lemma apply_gives T h lp flags n b vars data md lits vs v h' l j fp ip self :
  sim_apply T foreign pr hd h (Ptr lp) vs v h' -> ext h h' -> wf T h -> resumer h ->
  h !! lp = Some (Procedure flags n (Ptr b) vars) -> h !! b = Some (Bytecode data md lits) ->
  0 <= md -> Z.of_nat (length vs) + md <= 960 ->
  good_size (Z.of_nat (length (l ++ j))) -> Z.of_nat (length l) + 2 <= Z.of_nat (length (l ++ j)) ->
  gives h' l v (fun fuel => sexp_apply foreign fuel (Ptr lp) vs (mk h l j fp ip self)).
Proof.
  intros Hsim He Hw Hr Hp Hb Hmd Hroom Hg Hl.
  destruct (apply_entry_spec h l j fp ip self lp flags n b vars data md lits vs) as [(j' & Ha & Hg' & Hl')|(s & Ha & Ho)];
    [done..| |].
  2: { exists 0%nat. intros fuel _. right. unfold sexp_apply. rewrite Ha. cbn. rewrite Ho. eauto. }
  set (A := Caller l 0 (Ptr G_FINAL_RESUMER) (Z.of_nat (length l) - 4)).
  set (m := Z.of_nat (length ((l ++ rev vs ++ [Ptr lp]) ++ j'))).
  assert (reaches foreign (make_call (Z.of_nat (length vs)) (Ptr lp)
       (mk h (l ++ rev vs ++ [Ptr lp]) j' (Z.of_nat (length l) - 4) (-8) (Ptr G_FINAL_RESUMER)))
       (live h' (l ++ [v]) (a_fp A) 0 (Ptr G_FINAL_RESUMER) m)) as Hre.
  { apply (Hsim A m); [done|by exists j'|cbn; lia|apply from_goal]. }
  unfold sexp_apply. rewrite Ha. clear Ha Hsim. unfold reaches in Hre. case_match; [|done| |done|done].
  - cbn [after]. eapply reach_gives; [exact Hre|]. intros c Hc. eapply done_gives; [by eapply resumer_ext|exact Hc].
  - exists 0%nat. intros fuel _. right. cbn. rewrite Hre. eauto.
Qed.

(** ** Programs *)

Definition program_env : env := Env None [] [] (Ptr G_EMPTY_VECTOR).

(** The procedure of a program runs its code as the body of a lambda without
    parameters. *)
Lemma sim_program T h p b c md lits x v h' :
  h !! p = Some (Procedure 0 0 (Ptr b) (Ptr G_EMPTY_VECTOR)) -> h !! b = Some (Bytecode (c ++ [COp OP_RET]) md lits) ->
  gc T None true x c -> 0 <= md <= 960 -> need x + 2 <= 60 + md ->
  eval T program_env h x v h' -> sim_apply T foreign pr hd h (Ptr p) [] v h'.
Proof.
  intros Hp Hb Hg Hmd Hneed Hev A m Q j Hwf Hlive Hroom HQ.
  destruct (make_call_spec pr hd h (a_base A) [] (Ptr p) 0 0 b (Ptr G_EMPTY_VECTOR) (c ++ [COp OP_RET]) md [] h j
    (a_fp A) (a_ret A - 8) (a_self A) m) as [(c0 & Hc & Hl)|(s & Hc & Ho)]; [by exists p, lits|done|exact Hlive|exact Hroom| |].
  2: { by rewrite Hc. }
  rewrite Hc. clear Hc. cbn [reaches]. replace (a_ret A - 8 + 8) with (a_ret A) in Hl by lia.
  assert (bytes_at h (Ptr p) 0 (c ++ [COp OP_RET])) as Hbytes.
  { exists [], []. split; [|done]. rewrite app_nil_r. exists p, 0, 0, b, (Ptr G_EMPTY_VECTOR), md, lits. auto. }
  apply bytes_at_app in Hbytes as [Hc Hret].
  assert (sim_eval T foreign pr hd program_env h x v h') as Hsim by (by apply sim_expr_eval, simulation).
  assert (layout program_env A [] = a_base A ++ rev [] ++ frame (length (@nil sexp)) (a_ret A) (a_self A) (a_fp A)) as Hlay
    by (unfold layout; by list_simplifier).
  eapply (Hsim A [] (Ptr p)); [done|by exists p, 0, 0, (Ptr b)|exact Hg|exact Hc| | | |by rewrite Hlay].
  - rewrite length_layout. cbn [program_env e_args e_locals length]. pose proof (need_pos x). lia.
  - eapply from_ret; [by eapply bytes_at_ext, Hret; eapply eval_ext|]. eapply from_weaken; [|exact HQ]. lia.
  - intros _. eapply from_weaken; [|exact HQ]. lia.
Qed.

(** Programs in the fragment that fit a bytecode of their own. *)
Definition supported_program (x : ast) : bool :=
  (need x + 2 <=? 60) && (weight x <=? 960) && supported false x.

Lemma generate_op_spec h0 x proc h1 :
  let x' := (sexp_free_vars x []).1 in
  supported_program x' = true -> NoDup (lambda_ids x') -> sexp_generate_op h0 x = (proc, h1) ->
  exists T p b c md lits, covers T h1 (lambdas x') /\ wf T h1 /\ ext h0 h1 /\ proc = Ptr p /\
    h1 !! p = Some (Procedure 0 0 (Ptr b) (Ptr G_EMPTY_VECTOR)) /\ h1 !! b = Some (Bytecode (c ++ [COp OP_RET]) md lits) /\
    gc T None true x' c /\ 0 <= md <= 960 /\ need x' + 2 <= 60 + md.
Proof.
  unfold sexp_generate_op. destruct (sexp_free_vars x []) as [x' fv]. cbn [fst].
  intros [[Hneed%Z.leb_le Hwt%Z.leb_le]%andb_prop Hs]%andb_prop Hnd Hgen.
  destruct (generates x' (Gen h0 (new_cctx None)) (Table ∅ ∅ ∅)) as (T & c & He & Hg & [_ Hw Hc] & _).
  { intros b i fv' body. cbn. by rewrite lookup_empty. }
  { done. }
  { split; [done|]. intros id _. cbn. by rewrite !lookup_empty. }
  set (g := sexp_generate x' _) in *. destruct He as [Hcode _ Hext _ Hmd Hw0]. cbn in Hcode, Hmd.
  unfold sexp_complete_bytecode in Hgen. cbn [gctx sexp_emit on_ctx code set_code gheap max_depth literals] in Hgen.
  destruct (alloc (gheap g) _) as [bc h2] eqn:Ea. cbn [sexp_make_vector Z.eqb] in Hgen. unfold sexp_make_procedure in Hgen.
  pose proof (ext_alloc _ _ _ _ Ea) as He1. pose proof (ext_alloc _ _ _ _ Hgen) as He2.
  destruct (alloc_at _ _ (Vector [] false) _ _ Ea) as (b & -> & _ & -> & _).
  destruct (alloc_at _ _ (Vector [] false) _ _ Hgen) as (p & -> & Hpb & -> & _).
  exists T, p, b, c, (max_depth (gctx g)), (literals (gctx g)).
  split_and!; [| | |done|by rewrite lookup_insert_eq| |done|lia..].
  - eapply covers_extends; [apply extends_refl| |exact Hc]. by etransitivity.
  - eapply wf_ext; [|exact Hw]. by etransitivity.
  - etransitivity; [exact Hext|by etransitivity].
  - rewrite Hcode in He2 |- *. apply He2; [|done]. by rewrite lookup_insert_eq.
Qed.

(** The entry of [sexp_apply] makes room for the arguments and the body. *)
Definition entry_room (h : heap) (p : sexp) (vs : list sexp) : Prop :=
  exists lp flags n b vars data md lits, p = Ptr lp /\ h !! lp = Some (Procedure flags n (Ptr b) vars) /\
    h !! b = Some (Bytecode data md lits) /\ 0 <= md /\ Z.of_nat (length vs) + md <= 960.

(** A stack of a size the machine can have, with [l] on it. *)
Definition stack_ok (l j : list sexp) : Prop :=
  good_size (Z.of_nat (length (l ++ j))) /\ Z.of_nat (length l) + 2 <= Z.of_nat (length (l ++ j)).

(** C1 (refinement).  Compiling and running a program has the meaning of the
    program.  A tree of the fragment whose lambdas have distinct identities is
    compiled by [sexp_generate_op], after the analysis of its free variables;
    the table [T] has the code and the procedures the compiler put in the heap
    for its lambdas.  If the big-step semantics gives the program the value [v]
    and the heap [h2], then [sexp_apply] on the compiled procedure terminates
    with that value and that heap, the stack below it as it was, whatever was
    on the stack before; the only other outcome is the error of a full stack.
    It never reads a wrong word or crashes.  The procedures it returns or
    leaves in the heap can be applied from outside with the same guarantee. *)
Theorem compile_correct h0 x proc h1 :
  let x' := (sexp_free_vars x []).1 in
  supported_program x' = true -> NoDup (lambda_ids x') -> resumer h0 -> sexp_generate_op h0 x = (proc, h1) ->
  exists T, covers T h1 (lambdas x') /\
    forall v h2, eval T program_env h1 x' v h2 ->
      (forall l j fp ip self, stack_ok l j ->
         gives h2 l v (fun fuel => sexp_apply foreign fuel proc [] (mk h1 l j fp ip self))) /\
      (forall p vs w h3 l j fp ip self, apply_proc T h2 p vs w h3 -> entry_room h2 p vs -> stack_ok l j ->
         gives h3 l w (fun fuel => sexp_apply foreign fuel p vs (mk h2 l j fp ip self))).
Proof.
  cbn zeta. intros Hs Hn Hr Hg.
  destruct (generate_op_spec _ _ _ _ Hs Hn Hg) as (T & p & b & c & md & lits & Hc & Hw & He & -> & Hp & Hb & Hgc & Hmd & Hneed).
  exists T. split; [done|]. intros v h2 Hev. pose proof (eval_ext _ _ _ _ _ _ Hev) as He2.
  assert (resumer h1) as Hr1 by (by eapply resumer_ext). split.
  - intros l j fp ip self [Hsz Hl]. eapply apply_gives; [|exact He2|done|done|exact Hp|exact Hb|lia|cbn; lia|done|done].
    by eapply sim_program.
  - intros q vs w h3 l j fp ip self Ha (lp & flags & n & b' & vars & data & md' & lits' & -> & Hq & Hb' & Hmd' & Hroom) [Hsz Hl].
    eapply apply_gives; [|by eapply apply_ext|by eapply wf_ext|by eapply resumer_ext|exact Hq|exact Hb'|lia|lia|done|done].
    by apply apply_simulation.
Qed.

End toplevel.

(** ** A fresh context *)

(** No C function is called by the programs below. *)
Definition no_foreign : string -> heap -> list sexp -> sexp * heap := fun _ h _ => (SEXP_VOID, h).

Definition initial_heap : heap :=
  sexp_init_eval_context_bytecodes
    (<[G_EMPTY_VECTOR := Vector [] false]>
    (<[G_OOS_ERROR := Exception (Symbol "out-of-stack") SEXP_FALSE SEXP_NULL SEXP_FALSE SEXP_FALSE]> ∅)).

Definition fresh_stack (n : nat) (l : list sexp) : list sexp := replicate (n - length l) SEXP_VOID.

(** A machine with the words [l] on a stack of the initial size. *)
Definition machine (h : heap) (l : list sexp) : vm :=
  VmSteps.mk SEXP_NULL SEXP_FALSE h l (fresh_stack 1024 l) 0 0 SEXP_VOID.

(** [sexp_generate_op] and [sexp_apply] on the result, as [sexp_eval_op] does. *)
Definition run_program (fuel : nat) (h : heap) (x : ast) : run_result :=
  let '(proc, h) := sexp_generate_op h x in sexp_apply no_foreign fuel proc [] (machine h []).

Definition car_cdr (r : run_result) : option (sexp * sexp) :=
  match r with Returned v s => match deref (v_heap s) v with Some (Pair a d _) => Some (a, d) | _ => None end | _ => None end.

(** ** A program *)

Definition cons_op : opcode := Opcode None None None false OPC_CONSTRUCTOR OP_CONS 2 0 false None.
Definition add_op : opcode := Opcode (Some (Fixnum 0)) None None false OPC_ARITHMETIC OP_ADD 0 1 false None.

(** [(((lambda (x) (lambda (y) (+ y x))) 40) 2)] *)
Definition outer_lam : lam_info := LamInfo 1 [Symbol "x"] None [] [].
Definition inner_lam : lam_info := LamInfo 2 [Symbol "y"] None [] [].
Definition x_ref : ref := Ref (Symbol "x") (Within outer_lam).
Definition adder_body : ast := OpApp (Ptr 90) add_op [RefE (Ref (Symbol "y") (Within inner_lam)); RefE x_ref].
Definition adder (fv : list ref) : ast := Lambda outer_lam [] (Lambda inner_lam fv adder_body).
Definition adder_program (fv : list ref) : ast := App (App (adder fv) [Lit (Fixnum 40)]) [Lit (Fixnum 2)].

Lemma adder_program_eval T h : covers T h (lambdas (adder_program [x_ref])) ->
  exists h2, eval T program_env h (adder_program [x_ref]) (Fixnum 42) h2.
Proof.
  intros Hc. apply Forall_cons in Hc as [(b1 & Hc1 & Hl1 & Hp1) Hc]. apply Forall_cons in Hc as [(b2 & Hc2 & Hl2 & _) _].
  destruct (Hp1 eq_refl) as (p & Hp & Hproc).
  destruct (alloc h (Vector [Fixnum 40] false)) as [vec h1] eqn:Ev.
  destruct (alloc h1 (Procedure 0 1 (Ptr b2) vec)) as [k h2] eqn:Ek.
  destruct (alloc_at _ _ (Vector [] false) _ _ Ev) as (lv & -> & _ & -> & _).
  destruct (alloc_at _ _ (Vector [] false) _ _ Ek) as (lk & -> & Hlk & -> & _).
  assert (lv <> lk) as Hne by (intros ->; by rewrite lookup_insert_eq in Hlk).
  eexists. eapply eval_app.
  - eapply eval_args_cons; [apply eval_args_nil|apply eval_lit].
  - eapply eval_app.
    + eapply eval_args_cons; [apply eval_args_nil|apply eval_lit].
    + apply eval_lambda_closed. exact Hp.
    + eapply apply_closure; [exact Hproc|exact Hl1|done|reflexivity|reflexivity|].
      eapply eval_lambda_open; [done| |exact Hc2|exact Ev|exact Ek].
      apply Forall2_cons_2; [|apply Forall2_nil_2]. exists outer_lam. split; reflexivity.
  - eapply apply_closure; [by rewrite lookup_insert_eq|exact Hl2|done|reflexivity|reflexivity|].
    eapply (eval_arith _ _ _ _ add_op _ 2 [Fixnum 40]); [done..| |reflexivity].
    eapply eval_args_cons; [eapply eval_args_cons; [apply eval_args_nil|]|].
    + eapply eval_variable; [|reflexivity].
      unfold variable. cbn. unfold vector_ref. cbn. by rewrite lookup_insert_ne, lookup_insert_eq by congruence.
    + eapply eval_variable; reflexivity.
Qed.

Lemma initial_resumer : resumer initial_heap.
Proof.
  exists [COp OP_RET]. exists G_FINAL_RESUMER, 0, 0, G_FINAL_BYTECODE, (Ptr G_EMPTY_VECTOR), 0, []. by split_and!.
Qed.

Lemma compile_correct_witness :
  supported_program (adder_program [x_ref]) = true /\
  (exists s, run_program 100 initial_heap (adder_program []) = Returned (Fixnum 42) s) /\
  exists proc h1 h2, sexp_generate_op initial_heap (adder_program []) = (proc, h1) /\
    gives h2 [] (Fixnum 42) (fun fuel => sexp_apply no_foreign fuel proc [] (machine h1 [])).
Proof.
  split; [by vm_compute|]. split; [vm_compute; eauto|].
  destruct (sexp_generate_op initial_heap (adder_program [])) as [proc h1] eqn:Eg.
  destruct (compile_correct no_foreign SEXP_NULL SEXP_FALSE initial_heap (adder_program []) proc h1) as (T & Hc & Hrun).
  - by vm_compute.
  - apply (bool_decide_unpack _). by vm_compute.
  - exact initial_resumer.
  - exact Eg.
  - destruct (adder_program_eval T h1 Hc) as (h2 & Hev). exists proc, h1, h2. split; [done|].
    destruct (Hrun _ _ Hev) as [Hgo _]. apply (Hgo [] (fresh_stack 1024 []) 0 0 SEXP_VOID).
    split; [|by vm_compute]. right. exists 0%nat. split; [lia|by vm_compute].
Defined.

(** ** Room on the stack *)

(** C13 (bounds).  [sexp_ensure_stack] makes room.  From a stack of a size the
    machine can have, with a word to spare, asking for at most 1024 more words
    leaves the live words as they are on a stack of such a size where the words
    asked for fit, or, when the largest stack is too small, ends the run with
    the out-of-stack error.  A call asks for 64 words and the depth of the
    code, so it is served when the depth is at most 960. *)
Theorem ensure_stack_makes_room pr hd h l x j fp ip self n :
  stack_ok (l ++ [x]) j -> 0 <= n <= 1024 ->
  (exists j', sexp_ensure_stack n (VmSteps.mk pr hd h (l ++ [x]) j fp ip self) =
       Val tt (VmSteps.mk pr hd h (l ++ [x]) j' fp ip self) /\
     good_size (Z.of_nat (length ((l ++ [x]) ++ j'))) /\
     Z.of_nat (length (l ++ [x])) + n < Z.of_nat (length ((l ++ [x]) ++ j'))) \/
  (exists s, sexp_ensure_stack n (VmSteps.mk pr hd h (l ++ [x]) j fp ip self) = End s /\ exists s', result_of s = Returned (Ptr G_OOS_ERROR) s').
Proof.
  intros [Hg Hl] Hn. rewrite (length_app l) in Hl. cbn [length] in Hl.
  destruct (ensure_stack_spec pr hd h l x j fp ip self n Hg Hn ltac:(lia)) as [(j' & He & Hg' & Hs & Hr)|(s & He & Ho)].
  - left. exists j'. split_and!; [done|done|]. rewrite (length_app l). cbn [length]. lia.
  - right. exists s. split; [done|]. by eexists.
Qed.

Definition busy : list sexp := replicate 900 SEXP_VOID.

Lemma ensure_stack_makes_room_witness :
  stack_ok (busy ++ [Fixnum 1]) (replicate 123 SEXP_VOID) /\
  ((exists j', sexp_ensure_stack 200 (VmSteps.mk SEXP_NULL SEXP_FALSE ∅ (busy ++ [Fixnum 1]) (replicate 123 SEXP_VOID) 0 0 SEXP_VOID) =
       Val tt (VmSteps.mk SEXP_NULL SEXP_FALSE ∅ (busy ++ [Fixnum 1]) j' 0 0 SEXP_VOID) /\
     good_size (Z.of_nat (length ((busy ++ [Fixnum 1]) ++ j'))) /\
     Z.of_nat (length (busy ++ [Fixnum 1])) + 200 < Z.of_nat (length ((busy ++ [Fixnum 1]) ++ j'))) \/
   (exists s, sexp_ensure_stack 200 (VmSteps.mk SEXP_NULL SEXP_FALSE ∅ (busy ++ [Fixnum 1]) (replicate 123 SEXP_VOID) 0 0 SEXP_VOID) = End s /\
     exists s', result_of s = Returned (Ptr G_OOS_ERROR) s')).
Proof.
  assert (stack_ok (busy ++ [Fixnum 1]) (replicate 123 SEXP_VOID)) as Hs.
  { split; [|vm_compute; discriminate]. right. exists 0%nat. split; [lia|by vm_compute]. }
  split; [exact Hs|]. apply ensure_stack_makes_room; [exact Hs|lia].
Defined.

Definition args_sym : sexp := Symbol "args".
Definition rest_lam (sv : list ident) : lam_info := LamInfo 1 [] (Some args_sym) [] sv.

(** [(lambda args 2)] *)
Definition take_any : ast := Lambda (rest_lam []) [] (Lit (Fixnum 2)).

(** Applies the value of a program to [n] arguments above [k] words. *)
Definition apply_value (fuel : nat) (x : ast) (n k : nat) : run_result :=
  match run_program fuel initial_heap x with
  | Returned p s => sexp_apply no_foreign fuel p (replicate n (Fixnum 1)) (machine (v_heap s) (replicate k SEXP_VOID))
  | r => r
  end.

(** A larger request is not always served.  [sexp_grow_stack] is
    given the number of words wanted and not the size needed, the words in use
    included: from a stack of 1024 words with 900 in use, asking for 3064 words
    succeeds with a stack of 3064 words.  [sexp_apply] with 3000 arguments then
    writes past the end of the stack, though the same call is fine on an empty
    stack, and with 900 arguments. *)
Theorem grow_stack_ignores_top :
  (exists st, sexp_ensure_stack 3064 (machine ∅ (replicate 900 SEXP_VOID)) =
     Val tt (Vm ∅ st 900 0 0 SEXP_VOID SEXP_NULL SEXP_FALSE) /\ length st = 3064%nat) /\
  apply_value 100 take_any 3000 900 = Crashed /\
  (exists s, apply_value 100 take_any 3000 0 = Returned (Fixnum 2) s) /\
  (exists s, apply_value 100 take_any 900 900 = Returned (Fixnum 2) s).
Proof.
  split; [|split; [|split]].
  - eexists. split; [vm_compute; reflexivity|by vm_compute].
  - by vm_compute.
  - eexists. vm_compute. reflexivity.
  - eexists. vm_compute. reflexivity.
Qed.

(** [(0 x x ... x)] with [n] references to a global variable. *)
Definition global_heap : heap := <[90%positive := Pair (Symbol "x") (Fixnum 7) false]> initial_heap.
Definition global_operand : ast := RefE (Ref (Symbol "x") (Global (Ptr 90))).
Definition global_operands (n : nat) : ast := App (Lit (Fixnum 0)) (replicate n global_operand).

Lemma global_operand_depth g :
  depth (gctx (sexp_generate global_operand g)) = depth (gctx g) /\ max_depth (gctx (sexp_generate global_operand g)) = max_depth (gctx g).
Proof. cbn. by case_match. Qed.

Lemma global_operands_depth n g :
  depth (gctx (in_reverse (map sexp_generate (replicate n global_operand)) g)) = depth (gctx g) /\
  max_depth (gctx (in_reverse (map sexp_generate (replicate n global_operand)) g)) = max_depth (gctx g).
Proof.
  induction n as [|n [IHd IHm]]; [done|]. cbn [replicate map in_reverse fold_right].
  change (fold_right (fun f g => f g) g (map sexp_generate (replicate n global_operand)))
    with (in_reverse (map sexp_generate (replicate n global_operand)) g).
  destruct (global_operand_depth (in_reverse (map sexp_generate (replicate n global_operand)) g)) as (-> & ->). done.
Qed.

(** The stack depth that the compiler computes for a call does not
    count operands that are global variables, so the room that calls and
    [sexp_apply] reserve is too small: any number of such operands is given the
    depth of one word, and a call with 1022 of them, from an empty stack of the
    initial size, writes past the end of the stack. *)
Theorem global_operands_overflow :
  (forall n, max_depth (gctx (sexp_generate (global_operands n) (Gen global_heap (new_cctx None)))) <= 1) /\
  run_program 1100 global_heap (global_operands 1022) = Crashed /\
  (exists v s, run_program 1100 global_heap (global_operands 1000) = Returned v s).
Proof.
  split; [|split].
  - intros n. change (sexp_generate (global_operands n) (Gen global_heap (new_cctx None))) with
      (generate_general_app (sexp_generate (Lit (Fixnum 0))) (map sexp_generate (replicate n global_operand)) (Gen global_heap (new_cctx None))).
    destruct (global_operands_depth n (set_tailp false (Gen global_heap (new_cctx None)))) as [Hd Hm].
    unfold generate_general_app. cbv zeta. rewrite length_map, length_replicate.
    set (gi := in_reverse _ _) in *. cbn in Hd, Hm. cbn. rewrite Hd, Hm. cbn.
    repeat case_match; lia.
  - by vm_compute.
  - eexists _, _. vm_compute. reflexivity.
Qed.

(** [(cons ((lambda args (set! args 1) 2)) 'x)] *)
Definition assigned_rest : ast :=
  OpApp (Ptr 91) cons_op
    [App (Lambda (rest_lam [args_sym]) [] (Seq [SetE (Ref args_sym (Within (rest_lam [args_sym]))) (Lit (Fixnum 1)); Lit (Fixnum 2)])) [];
     Lit (Symbol "x")].

(** A rest parameter that is assigned but never read counts as
    unused, so a call leaves no slot for it; with no arguments the assignment
    then writes into the caller's part of the stack.  The program above should
    give [(2 . x)]; the [x] the caller had already evaluated is overwritten by
    the box of the parameter. *)
Theorem assigned_rest_overwrites_caller :
  sexp_rest_unused_p (rest_lam [args_sym]) (Seq [SetE (Ref args_sym (Within (rest_lam [args_sym]))) (Lit (Fixnum 1)); Lit (Fixnum 2)]) = true /\
  exists v s l, run_program 100 initial_heap assigned_rest = Returned v s /\
    deref (v_heap s) v = Some (Pair (Fixnum 2) (Ptr l) false) /\
    deref (v_heap s) (Ptr l) = Some (Pair args_sym (Fixnum 1) false).
Proof. split; [by vm_compute|]. eexists _, _, _. split; [vm_compute; reflexivity|]. split; vm_compute; reflexivity. Qed.
