(* ===== verification/Frame.v ===== *)
(** * What the machine never changes

    No instruction changes a procedure, the code of a procedure or an exception
    that is in the heap, and a run that has ended ends the same with more fuel. *)
From S2P Require Import Prelude Bignum Numbers Heap Ast Codegen Vm.
From stdpp Require Import base list option gmap.
#[local] Open Scope Z_scope.

Definition fixed (o : obj) : bool :=
  match o with Procedure _ _ _ _ | Bytecode _ _ _ | Exception _ _ _ _ _ => true | _ => false end.

Definition kept (h h' : heap) : Prop := forall l o, h !! l = Some o -> fixed o = true -> h' !! l = Some o.

#[export] Instance kept_preorder : PreOrder kept.
Proof. split; [by intros h l o ?|]. intros h1 h2 h3 H12 H23 l o Hl Ho. auto. Qed.

Lemma alloc_other h o l o' : h !! l = Some o' -> (alloc h o).2 !! l = Some o'.
Proof.
  intros Hl. cbn. rewrite lookup_insert_ne; [done|]. intros <-. apply elem_of_dom_2 in Hl. by apply is_fresh in Hl.
Qed.

Lemma kept_alloc h o : kept h (alloc h o).2.
Proof. intros l o' Hl _. by apply alloc_other. Qed.

Lemma kept_update h l o o' : h !! l = Some o -> fixed o = false -> kept h (<[l := o']> h).
Proof. intros Hl Ho k ok Hk Hf. rewrite lookup_insert_ne; [done|congruence]. Qed.

(** ** Steps of the machine *)

Definition leaves (R : heap -> heap -> Prop) {A} (h : heap) (m : M A) : Prop :=
  forall s, v_heap s = h -> match m s with Val _ s' | Exc s' | End s' => R h (v_heap s') | _ => True end.

Abbreviation same h m := (leaves eq h m).
Abbreviation keeps h m := (leaves kept h m).

Lemma same_keeps {A} h (m : M A) : same h m -> keeps h m.
Proof. intros H s Hs. specialize (H s Hs). destruct (m s); try done; by rewrite H. Qed.

Lemma same_bind {A B} h (m : M A) (f : A -> M B) : same h m -> (forall a, same h (f a)) -> same h (m ≫= f).
Proof.
  intros Hm Hf s Hs. specialize (Hm s Hs). unfold mbind, M_bind. destruct (m s) as [a s'| | | |]; try done.
  by apply Hf.
Qed.

Lemma keeps_bind_same {A B} h (m : M A) (f : A -> M B) : same h m -> (forall a, keeps h (f a)) -> keeps h (m ≫= f).
Proof.
  intros Hm Hf s Hs. specialize (Hm s Hs). unfold mbind, M_bind. destruct (m s) as [a s'|s'|s'| |]; try done; try (by rewrite Hm).
  by apply Hf.
Qed.

Lemma keeps_bind {A B} h (m : M A) (f : A -> M B) : keeps h m -> (forall a h', keeps h' (f a)) -> keeps h (m ≫= f).
Proof.
  intros Hm Hf s Hs. specialize (Hm s Hs). unfold mbind, M_bind. destruct (m s) as [a s'| | | |]; try done.
  specialize (Hf a (v_heap s') s' eq_refl). destruct (f a s'); try done; by etransitivity.
Qed.

Lemma leaves_get R h {B} (f : heap -> M B) : leaves R h (f h) -> leaves R h (get_heap ≫= f).
Proof. intros Hf s Hs. unfold mbind, M_bind, get_heap. rewrite Hs. by apply Hf. Qed.

Lemma keeps_set h h' : kept h h' -> keeps h (set_heap h').
Proof. by intros Hk s _. Qed.

Lemma same_ret {A} h (a : A) : same h (mret a).
Proof. by intros s <-. Qed.

Lemma keeps_allocate h o : keeps h (allocate o).
Proof.
  unfold allocate. apply leaves_get. pose proof (kept_alloc h o) as H. destruct (alloc h o) as [v h'].
  apply keeps_bind; [by apply keeps_set|]. intros _ h1. apply same_keeps, same_ret.
Qed.

Lemma same_end h {A} : same h (@end_loop A).
Proof. by intros s <-. Qed.
Lemma same_exc h {A} : same h (@call_error_handler A).
Proof. by intros s <-. Qed.
Lemma same_bad h {A} : same h (@bad A).
Proof. by intros s <-. Qed.
Lemma same_skip h {A} : same h (@skip A).
Proof. by intros s <-. Qed.
Lemma same_must h {A} (o : option A) : same h (must o).
Proof. destruct o; by intros s <-. Qed.
Lemma same_unbox h v : same h (unbox v).
Proof. destruct v; by intros s <-. Qed.
Lemma same_set h f : (forall s, exists s', f s = Val tt s' /\ v_heap s' = v_heap s) -> same h f.
Proof. intros H s <-. destruct (H s) as (s' & -> & ->). done. Qed.
Lemma same_read h {A} (f : vm -> A) : same h (fun s => Val (f s) s).
Proof. by intros s <-. Qed.
Lemma same_stack_get h i : same h (stack_get i).
Proof. intros s <-. unfold stack_get. destruct (0 <=? i); [|done]. by destruct (v_stack s !! _). Qed.
Lemma same_stack_set h i v : same h (stack_set i v).
Proof. intros s <-. unfold stack_set. by destruct ((0 <=? i) && _). Qed.
Lemma same_grow h n : same h (sexp_grow_stack n).
Proof. intros s <-. unfold sexp_grow_stack. cbv zeta. destruct (_ && _); [done|]. by destruct (_ && _). Qed.

Create HintDb frame.
#[export] Hint Resolve same_ret same_end same_exc same_bad same_skip same_must same_unbox same_read same_stack_get same_stack_set same_grow : frame.

(** Registers are set and read without the heap. *)
Ltac same_register := apply same_set; intros ?; eexists; split; reflexivity.

Ltac same_tac :=
  repeat (cbv beta zeta;
    lazymatch goal with
    | |- leaves _ _ (get_heap ≫= _) => apply leaves_get
    | |- leaves _ _ (_ ≫= _) => apply same_bind; [|intros ?]
    | |- leaves _ _ (match ?x with _ => _ end) => destruct x
    | |- leaves _ _ _ => first [solve [eauto with frame] | same_register]
    end).

Lemma same_get_top h : same h get_top. Proof. apply same_read. Qed.
Lemma same_get_fp h : same h get_fp. Proof. apply same_read. Qed.
Lemma same_get_ip h : same h get_ip. Proof. apply same_read. Qed.
Lemma same_get_self h : same h get_self. Proof. apply same_read. Qed.
Lemma same_get_params h : same h get_params. Proof. apply same_read. Qed.
Lemma same_get_handler h : same h get_handler. Proof. apply same_read. Qed.
Lemma same_get_stack h : same h get_stack. Proof. apply same_read. Qed.
Lemma same_stack_length h : same h stack_length. Proof. apply same_read. Qed.
#[export] Hint Resolve same_get_top same_get_fp same_get_ip same_get_self same_get_params same_get_handler same_get_stack same_stack_length : frame.

Lemma same_arg h k : same h (arg k). Proof. unfold arg. same_tac. Qed.
Lemma same_set_arg h k v : same h (set_arg k v). Proof. unfold set_arg. same_tac. Qed.
Lemma same_push h v : same h (push v). Proof. unfold push. same_tac. Qed.
Lemma same_drop_top h n : same h (drop_top n). Proof. unfold drop_top. same_tac. Qed.
Lemma same_get_car h v : same h (get_car v). Proof. unfold get_car. same_tac. Qed.
Lemma same_get_cdr h v : same h (get_cdr v). Proof. unfold get_cdr. same_tac. Qed.
Lemma same_pairp h v : same h (pairp v). Proof. unfold pairp. same_tac. Qed.
Lemma same_procedure_of h v : same h (procedure_of v). Proof. unfold procedure_of. same_tac. Qed.
Lemma same_bytecode_of h v : same h (bytecode_of v). Proof. unfold bytecode_of. same_tac. Qed.
#[export] Hint Resolve same_arg same_set_arg same_push same_drop_top same_get_car same_get_cdr same_pairp same_procedure_of same_bytecode_of : frame.
Lemma same_bc_data h : same h bc_data. Proof. unfold bc_data. same_tac. Qed.
#[export] Hint Resolve same_bc_data : frame.
Lemma same_fetch_op h : same h fetch_op. Proof. unfold fetch_op. same_tac. Qed.
Lemma same_fetch_word h k : same h (fetch_word k). Proof. unfold fetch_word. same_tac. Qed.
#[export] Hint Resolve same_fetch_op same_fetch_word : frame.
Lemma same_fetch_obj h k : same h (fetch_obj k). Proof. unfold fetch_obj. same_tac. Qed.
Lemma same_fetch_int h k : same h (fetch_int k). Proof. unfold fetch_int. same_tac. Qed.
Lemma same_skip_words h k : same h (skip_words k). Proof. unfold skip_words. same_tac. Qed.
#[export] Hint Resolve same_fetch_obj same_fetch_int same_skip_words : frame.
Lemma same_leave_frame h : same h leave_frame. Proof. unfold leave_frame. same_tac. Qed.
#[export] Hint Resolve same_leave_frame : frame.

Ltac keeps_tac :=
  repeat (cbv beta zeta;
    lazymatch goal with
    | |- leaves _ _ (get_heap ≫= _) => apply leaves_get
    | |- leaves _ _ (_ ≫= _) => first [apply keeps_bind_same; [solve [same_tac]|intros ?] | apply keeps_bind; [|intros ? ?]]
    | |- leaves _ _ (match ?x with _ => _ end) => destruct x eqn:?
    | |- leaves _ _ _ => first [solve [eauto with frame] | apply same_keeps; solve [same_tac]]
    end).

Ltac same_keeps_tac := apply same_keeps; solve [same_tac].

(** ** Loops *)

Lemma same_count_up h f n : (forall k, same h (f k)) -> forall k, same h (count_up f n k).
Proof. intros Hf. induction n as [|n IH]; intros k; cbn [count_up]; [same_tac|]. apply same_bind; [apply Hf|intros ?; apply IH]. Qed.
Lemma same_count_down h f n : (forall k, same h (f k)) -> forall k, same h (count_down f n k).
Proof. intros Hf. induction n as [|n IH]; intros k; cbn [count_down]; [same_tac|]. apply same_bind; [apply Hf|intros ?; apply IH]. Qed.
Lemma keeps_count_up f n : (forall h k, keeps h (f k)) -> forall h k, keeps h (count_up f n k).
Proof. intros Hf. induction n as [|n IH]; intros h k; cbn [count_up]; [keeps_tac|]. apply keeps_bind; [apply Hf|intros ? ?; apply IH]. Qed.
Lemma same_spread_args h n : forall ls, same h (spread_args n ls).
Proof. induction n as [|n IH]; intros ls; cbn [spread_args]; same_tac. Qed.
Lemma same_get_args h n : forall k, same h (get_args n k).
Proof. induction n as [|n IH]; intros k; cbn [get_args]; same_tac. Qed.
Lemma same_place_args h args : same h (place_args args).
Proof. induction args as [|a args IH]; cbn [place_args]; same_tac. Qed.
#[export] Hint Resolve keeps_allocate same_spread_args same_get_args same_place_args : frame.
Lemma keeps_make_list ls : forall h, keeps h (make_list ls).
Proof. induction ls as [|x ls IH]; intros h; cbn [make_list]; keeps_tac. Qed.
#[export] Hint Resolve keeps_make_list : frame.

(** ** Instructions *)

Lemma keeps_raise h {A} msg irritants : keeps h (@raise A msg irritants).
Proof. unfold raise. keeps_tac. Qed.
Lemma keeps_fail_with h kind msg irritants : keeps h (fail_with kind msg irritants).
Proof. unfold fail_with. keeps_tac. Qed.
Lemma same_ensure_stack h n : same h (sexp_ensure_stack n).
Proof.
  intros s Hs. unfold sexp_ensure_stack. destruct (_ >=? _); [|done].
  apply (same_bind h (sexp_grow_stack n) (fun grown : bool => if grown then mret tt else set_arg 1 (Ptr G_OOS_ERROR);; end_loop)); [|intros [|]|done]; same_tac.
Qed.
#[export] Hint Resolve keeps_raise keeps_fail_with same_ensure_stack : frame.

Lemma keeps_collect_rest h i j : keeps h (collect_rest i j).
Proof. unfold collect_rest. keeps_tac; [apply keeps_count_up; intros; keeps_tac|apply same_keeps, same_count_up; intros; same_tac]. Qed.
Lemma same_insert_null h i : same h (insert_null i).
Proof. unfold insert_null. same_tac. apply same_count_down; intros; same_tac. Qed.
#[export] Hint Resolve keeps_collect_rest same_insert_null : frame.

(** Generated code is put in new objects, and the procedure of an opcode is noted
    in the opcode. *)
Ltac if_cases := repeat match goal with |- context [if ?b then _ else _] => destruct b end.

Lemma gheap_on_ctx f g : gheap (on_ctx f g) = gheap g.
Proof. done. Qed.

Lemma gheap_emit_times n o : forall g, gheap (emit_times n o g) = gheap g.
Proof. induction n as [|n IH]; intros g; cbn [emit_times]; [done|]. by rewrite IH. Qed.
Lemma gheap_emit_cmp_chain n o : forall g, gheap (emit_cmp_chain n o g) = gheap g.
Proof. induction n as [|n IH]; intros g; cbn [emit_cmp_chain]; [done|]. by rewrite IH. Qed.
Lemma gheap_emit_fixnum_word v g : gheap (emit_fixnum_word v g) = gheap g.
Proof. by destruct v as [[]|]. Qed.
Lemma gheap_emit_comparison k o g : gheap (emit_comparison k o g) = gheap g.
Proof. unfold emit_comparison. destruct (k >? 2); [|done]. cbn. by rewrite gheap_emit_cmp_chain. Qed.
Lemma gheap_emit_operator l op k g : gheap (emit_operator l op k g) = gheap g.
Proof.
  unfold emit_operator. destruct (op_class_of op); try done; try apply gheap_emit_times; try apply gheap_emit_comparison;
    destruct (_ || _); try done; destruct (op_data op) as [[]|], (op_data2 op) as [[]|]; done.
Qed.
Lemma gheap_static_word x g : gheap (static_word x g) = gheap g.
Proof. by destruct x as [[]| | | | | | | |]. Qed.
Lemma gheap_fold_left {A} (f : gen -> A -> gen) ls : (forall g x, gheap (f g x) = gheap g) -> forall g, gheap (fold_left f ls g) = gheap g.
Proof. intros Hf. induction ls as [|x ls IH]; intros g; cbn [fold_left]; [done|]. by rewrite IH, Hf. Qed.
Lemma gheap_in_reverse gs : Forall (fun f => forall g, gheap (f g) = gheap g) gs -> forall g, gheap (in_reverse gs g) = gheap g.
Proof. unfold in_reverse. induction 1 as [|f gs Hf _ IH]; intros g; cbn [fold_right]; [done|]. by rewrite Hf, IH. Qed.
Lemma gheap_in_order gs : Forall (fun f => forall g, gheap (f g) = gheap g) gs -> forall g, gheap (in_order gs g) = gheap g.
Proof. unfold in_order. induction 1 as [|f gs Hf _ IH]; intros g; cbn; [done|]. by rewrite IH. Qed.

Definition plain_code (gs : list (gen -> gen)) : Prop := Forall (fun f => forall g, gheap (f g) = gheap g) gs.

Lemma gheap_push_default op k g : gheap (push_default op k g).2 = gheap g.
Proof. unfold push_default. destruct (op_data op); [|done]. by if_cases. Qed.
Lemma gheap_push_inverse op k b g : gheap (push_inverse_default op k b g).2 = gheap g.
Proof. unfold push_inverse_default. destruct (op_data op); [|done]. by if_cases. Qed.
Lemma gheap_finish op args k g : gheap (finish_opcode_app op args k g) = gheap g.
Proof.
  unfold finish_opcode_app. destruct (op_static_param_p op), (returns_void op && _); try done; apply gheap_fold_left; intros; apply gheap_static_word.
Qed.

Lemma gheap_inline_app l op args gs g : plain_code gs -> gheap (generate_inline_app l op args gs g) = gheap g.
Proof.
  intros Hgs. unfold generate_inline_app.
  pose proof (gheap_push_default op (Z.of_nat (length args)) (set_tailp false g)) as H.
  destruct (push_default op _ _) as [[k b] g1]. cbn [snd] in H. change (gheap g1 = gheap g) in H. set (g2 := if op_static_param_p op then _ else _).
  assert (gheap g2 = gheap g) as H2.
  { subst g2. rewrite <- H. destruct (op_static_param_p op); [done|]. destruct (_ && _); [by rewrite gheap_in_order|by rewrite gheap_in_reverse]. }
  pose proof (gheap_push_inverse op k b g2) as H3. destruct (push_inverse_default op k b g2) as [k' g3]. cbn [snd] in H3.
  rewrite gheap_finish, gheap_emit_operator. congruence.
Qed.

Lemma gheap_general_app f gs g : (forall g, gheap (f g) = gheap g) -> plain_code gs -> gheap (generate_general_app f gs g) = gheap g.
Proof. intros Hf Hgs. change (gheap (f (in_reverse gs (set_tailp false g))) = gheap g). by rewrite Hf, gheap_in_reverse. Qed.

Lemma gheap_parameter_app l op args gs g : plain_code gs -> gheap (generate_parameter_app l op args gs g) = gheap g.
Proof.
  intros Hgs. unfold generate_parameter_app. cbv zeta. rewrite gheap_finish.
  set (g1 := match args with [] => _ | _ => _ end). assert (gheap g1 = gheap g) as H.
  { subst g1. destruct args as [|x args], Hgs as [|f gs Hf Hgs]; try done. destruct (op_data2 op) as [conv|]; [|exact (Hf _)].
    destruct (deref _ conv) as [[]|]; try exact (Hf _);
      (etransitivity; [first [apply (gheap_general_app (generate_lit conv) [f])|apply (gheap_inline_app conv _ [x] [f])]; repeat constructor; done|done]). }
  rewrite <- H. by destruct (_ =? 0), (_ >? 0).
Qed.

Lemma gheap_opcode_app l op args gs g : plain_code gs -> gheap (generate_opcode_app l op args gs g) = gheap g.
Proof.
  intros Hgs. unfold generate_opcode_app. destruct (_ && _); [done|].
  destruct (bool_decide _); [by apply gheap_parameter_app|by apply gheap_inline_app].
Qed.

Lemma gheap_ref r g : gheap (sexp_generate (RefE r) g) = gheap g.
Proof.
  destruct r as [n [c|i]]; cbn; unfold generate_ref; cbn; [by if_cases|].
  destruct (clambda (gctx g)) as [[lam fv]|]; [|done]. unfold generate_non_global_ref. by if_cases.
Qed.

Lemma kept_opcode_procedure h l op i flags p h' : deref h l = Some (OpcodeObj op) ->
  make_opcode_procedure h l op i flags = OpProc p h' -> kept h h'.
Proof.
  intros Hl. unfold make_opcode_procedure. destruct (_ <? _); [done|]. destruct (_ && _); [done|].
  destruct (if _ =? _ then op_proc op else None) as [q|]; [intros [= _ <-]; reflexivity|].
  set (lam := LamInfo 1 _ None [] []). set (g := generate_opcode_app _ _ _ _ _).
  assert (gheap g = h) as Hg.
  { subst g. rewrite gheap_opcode_app; [done|]. apply List.Forall_map, List.Forall_map, List.Forall_forall. intros p' _ g. apply gheap_ref. }
  unfold sexp_complete_bytecode, sexp_make_procedure. cbn [gheap sexp_emit on_ctx]. rewrite Hg.
  set (bco := Bytecode _ _ _). pose proof (kept_alloc h bco) as K1. pose proof (fun l o => alloc_other h bco l o) as A1.
  destruct (alloc h bco) as [bc h1]. cbn [snd] in K1, A1.
  set (po := Procedure flags i bc SEXP_VOID). pose proof (kept_alloc h1 po) as K2. pose proof (fun l o => alloc_other h1 po l o) as A2.
  destruct (alloc h1 po) as [pr h2]. cbn [snd] in K2, A2.
  intros [= _ <-]. destruct l as [| | | | | | | | | | | |a]; try done. cbn in Hl. etransitivity; [exact K1|]. etransitivity; [exact K2|].
  destruct (_ =? _); [|reflexivity]. eapply (kept_update _ _ (OpcodeObj op)); [auto|done].
Qed.

(** ** The instructions that assign to the heap *)

Lemma keeps_make_call h i v : keeps h (make_call i v).
Proof.
  unfold make_call. apply leaves_get. apply keeps_bind; [|intros p h'; keeps_tac].
  destruct (deref h v) as [[| | | | | | | |op|]|] eqn:E; try (destruct v; same_keeps_tac).
  destruct (make_opcode_procedure h v op i SEXP_PROC_NONE) eqn:Ep; keeps_tac.
  apply keeps_set. by eapply kept_opcode_procedure.
Qed.
#[export] Hint Resolve keeps_make_call : frame.

Lemma keeps_apply1 h p ls : keeps h (apply1 p ls).
Proof. unfold apply1. keeps_tac. Qed.
#[export] Hint Resolve keeps_apply1 : frame.

Lemma keeps_op_raise h : keeps h op_raise.
Proof. unfold op_raise. keeps_tac. Qed.

Lemma keeps_save_stack h to : keeps h (sexp_save_stack to).
Proof. intros s Hs. unfold sexp_save_stack. destruct (_ && _); [|done]. by apply keeps_allocate. Qed.
Lemma same_restore_stack h saved : same h (sexp_restore_stack saved).
Proof. unfold sexp_restore_stack. same_tac. Qed.
#[export] Hint Resolve keeps_op_raise keeps_save_stack same_restore_stack : frame.

(** Assignments to a vector, a bytevector or a pair. *)
Ltac keeps_update :=
  apply keeps_set;
  match goal with H : deref ?h (Ptr ?l) = Some _ |- kept _ _ => eapply kept_update; [exact H|done] end.

#[local] Hint Unfold op_resumecc op_callcc op_apply1 op_tail_call op_call op_jump_unless op_jump op_global_ref op_global_known_ref
  op_parameter_ref op_stack_ref op_local_ref op_local_set op_closure_ref op_closure_vars op_vector_ref op_vector_length op_bytes_ref
  op_bytes_length op_make_procedure op_make_exception op_and op_predicate op_typep op_car op_cdr op_cons op_eq op_cursor_compare op_ret : frame.

Lemma keeps_store_int h x : keeps h (store_int x).
Proof. destruct x; cbn [store_int]; keeps_tac. Qed.
#[export] Hint Resolve keeps_store_int : frame.
Lemma keeps_store_number h x : keeps h (store_number x).
Proof. destruct x; cbn [store_number]; keeps_tac. Qed.
Lemma keeps_store_test h t x : keeps h (store_test t x).
Proof. destruct x; cbn [store_test]; keeps_tac. Qed.
#[export] Hint Resolve keeps_store_number keeps_store_test : frame.

Lemma keeps_finish {A} h (store : A -> M sexp) a o : (forall h x, keeps h (store x)) -> keeps h (finish store a o).
Proof. intros Hs. destruct o; cbn [finish]; keeps_tac. Qed.
Lemma keeps_generic2 {A B} h expected load (store : B -> M sexp) (f : A -> A -> outcome B) a b :
  (forall h x, keeps h (store x)) -> keeps h (generic2 expected load store f a b).
Proof. intros Hs. unfold generic2, invalid_type. keeps_tac; by apply keeps_finish. Qed.
#[export] Hint Resolve keeps_finish keeps_generic2 : frame.
#[local] Hint Unfold op_arith op_div op_quotient op_remainder op_compare : frame.

Lemma keeps_fcall foreign h n : (forall name h args, kept h (foreign name h args).2) -> keeps h (op_fcall foreign n).
Proof.
  intros Hf. unfold op_fcall. keeps_tac. apply keeps_set. match goal with E : foreign ?name ?h ?args = _ |- _ => pose proof (Hf name h args) as H; rewrite E in H end.
  exact H.
Qed.

Lemma keeps_exec_op foreign h o : (forall name h args, kept h (foreign name h args).2) -> keeps h (exec_op foreign o).
Proof.
  intros Hf. destruct o; cbn [exec_op]; try by apply keeps_fcall.
  all: try (autounfold with frame; keeps_tac; fail).
  - unfold op_tail_call. keeps_tac. apply same_keeps, same_count_up. intros. same_tac.
  - unfold op_vector_set. keeps_tac. keeps_update.
  - unfold op_bytes_set. keeps_tac. keeps_update.
  - unfold op_make_vector. keeps_tac. apply keeps_set. unfold sexp_make_vector in *. case_match; simplify_eq; [reflexivity|].
    match goal with E : alloc ?h ?o = _ |- _ => pose proof (kept_alloc h o) as K; rewrite E in K end. exact K.
  - unfold op_set_car. keeps_tac. keeps_update.
  - unfold op_set_cdr. keeps_tac. keeps_update.
Qed.

(** ** Runs *)

Section runs.
Variable foreign : string -> heap -> list sexp -> sexp * heap.
Hypothesis foreign_keeps : forall name h args, kept h (foreign name h args).2.

Definition config_heap (c : config) : heap := match c with Run s | Raising s => v_heap s end.

Lemma step_keeps c : match step foreign c with Goes c' => kept (config_heap c) (config_heap c') | Stops s => kept (config_heap c) (v_heap s) | _ => True end.
Proof.
  assert (forall m s, keeps (v_heap s) m ->
    match after (m s) with Goes c' => kept (v_heap s) (config_heap c') | Stops s' => kept (v_heap s) (v_heap s') | _ => True end) as H.
  { intros m s Hm. specialize (Hm s eq_refl). by destruct (m s). }
  destruct c as [s|s]; cbn [step config_heap]; apply H; [|apply keeps_op_raise].
  apply keeps_bind_same; [apply same_fetch_op|]. intros o. by apply keeps_exec_op.
Qed.

Lemma result_of_keeps s v s' : result_of s = Returned v s' -> kept (v_heap s) (v_heap s').
Proof.
  unfold result_of. intros H. assert (same (v_heap s) (v ← arg 1; drop_top 1;; mret v)) as Hs by same_tac.
  specialize (Hs s eq_refl). destruct ((v ← arg 1; drop_top 1;; mret v) s); try done. injection H as <- <-. by rewrite Hs.
Qed.

Lemma run_keeps n : forall c v s, run foreign n c = Returned v s -> kept (config_heap c) (v_heap s).
Proof.
  induction n as [|n IH]; intros c v s H; [done|]. cbn [run] in H. pose proof (step_keeps c) as Hc.
  destruct (step foreign c) as [c'|s'| |]; try done.
  - etransitivity; [exact Hc|by apply (IH _ v)].
  - etransitivity; [exact Hc|by apply (result_of_keeps _ v)].
Qed.

Lemma apply_keeps n p args s v s' : sexp_apply foreign n p args s = Returned v s' -> kept (v_heap s) (v_heap s').
Proof.
  unfold sexp_apply. assert (keeps (v_heap s) (apply_entry p args)) as H by (unfold apply_entry; keeps_tac).
  specialize (H s eq_refl). destruct (apply_entry p args s) as [a s1|s1|s1| |]; cbn [after]; try done; intros Hr.
  - etransitivity; [exact H|by apply (run_keeps n (Run s1) v)].
  - etransitivity; [exact H|by apply (run_keeps n (Raising s1) v)].
  - etransitivity; [exact H|by apply (result_of_keeps _ v)].
Qed.

End runs.

(** A run that has ended does not change with more fuel. *)
Lemma run_mono foreign n m c : (n <= m)%nat -> run foreign n c <> OutOfFuel -> run foreign m c = run foreign n c.
Proof.
  revert m c. induction n as [|n IH]; intros [|m] c Hm H; try done; [lia|]. cbn [run] in *.
  destruct (step foreign c); try done. apply IH; [lia|done].
Qed.

Lemma apply_mono foreign n m p args s : (n <= m)%nat -> sexp_apply foreign n p args s <> OutOfFuel ->
  sexp_apply foreign m p args s = sexp_apply foreign n p args s.
Proof. unfold sexp_apply. intros Hm H. destruct (after _); try done. by apply run_mono. Qed.
