(* ===== verification/Source.v ===== *)
(** * The meaning of source trees

    A semantics of trees with environments, in which variables have names and
    nothing is laid out in memory: closures are pairs of a lambda and its
    environment, assigned variables are boxes of a store.  It is what the passes
    in front of the code generator have to preserve, and an interpreter with
    fuel.  Literals that are objects are read from a heap of constants. *)
From S2P Require Import Prelude Heap Ast Codegen Semantics.
From stdpp Require Import base list option.
#[local] Open Scope Z_scope.

(** ** Values and stores *)

(** Environments list the variables by name and lambda. *)
#[warnings="-register-all"]
Inductive value :=
| Word (v : sexp)
| Obj (l : nat)
| Closure (i : lam_info) (body : ast) (rho : list ((ident * positive) * value)).

Inductive object := OPair (a d : value) | OVector (vs : list value) | OBox (v : value).

Abbreviation scope := (list ((ident * positive) * value)).

(** Objects have numbers in the order of their creation; global variables are
    named by their cells. *)
Record store := Store { objs : list object; cells : sexp -> option value }.

Definition new_obj (o : object) (s : store) : value * store :=
  (Obj (length (objs s)), Store (objs s ++ [o]) (cells s)).
Definition set_obj (l : nat) (o : object) (s : store) : store := Store (<[l := o]> (objs s)) (cells s).
Definition set_cell (c : sexp) (v : value) (s : store) : store :=
  Store (objs s) (fun c' => if bool_decide (c' = c) then Some v else cells s c').

Fixpoint lookup_var {A} (k : ident * positive) (rho : list ((ident * positive) * A)) : option A :=
  match rho with
  | [] => None
  | (k', v) :: rho => if bool_decide (k = k') then Some v else lookup_var k rho
  end.

Definition truth (b : bool) : value := Word (sexp_make_boolean b).
Definition is_false (v : value) : bool := match v with Word w => sexp_not w | _ => false end.

(** ** Primitives *)

Definition box_ref (s : store) (v : value) : option value :=
  match v with Obj l => match objs s !! l with Some (OBox x) => Some x | _ => None end | _ => None end.
Definition box_set (v x : value) (s : store) : option store :=
  match v with Obj l => match objs s !! l with Some (OBox _) => Some (set_obj l (OBox x) s) | _ => None end | _ => None end.

Section source.
Variable constants : heap.

Definition vcar (s : store) (v : value) : option value :=
  match v with
  | Word w => Word <$> sexp_car constants w
  | Obj l => match objs s !! l with Some (OPair a _) => Some a | _ => None end
  | Closure _ _ _ => None
  end.
Definition vcdr (s : store) (v : value) : option value :=
  match v with
  | Word w => Word <$> sexp_cdr constants w
  | Obj l => match objs s !! l with Some (OPair _ d) => Some d | _ => None end
  | Closure _ _ _ => None
  end.
Definition set_vcar (v x : value) (s : store) : option store :=
  match v with Obj l => match objs s !! l with Some (OPair _ d) => Some (set_obj l (OPair x d) s) | _ => None end | _ => None end.
Definition set_vcdr (v x : value) (s : store) : option store :=
  match v with Obj l => match objs s !! l with Some (OPair a _) => Some (set_obj l (OPair a x) s) | _ => None end | _ => None end.

Definition vlength (s : store) (v : value) : option nat :=
  match v with
  | Word w => match deref constants w with Some (Vector data _) => Some (length data) | _ => None end
  | Obj l => match objs s !! l with Some (OVector vs) => Some (length vs) | _ => None end
  | Closure _ _ _ => None
  end.
Definition vref (s : store) (v : value) (k : nat) : option value :=
  match v with
  | Word w => Word <$> vector_ref constants w k
  | Obj l => match objs s !! l with Some (OVector vs) => vs !! k | _ => None end
  | Closure _ _ _ => None
  end.
Definition vset (v : value) (k : nat) (x : value) (s : store) : option store :=
  match v with
  | Obj l => match objs s !! l with
             | Some (OVector vs) => if (k <? length vs)%nat then Some (set_obj l (OVector (<[k := x]> vs)) s) else None
             | _ => None
             end
  | _ => None
  end.

(** [eq?] of procedures is left open. *)
Definition veq (v w : value) : option bool :=
  match v, w with
  | Word a, Word b => Some (bool_decide (a = b))
  | Obj l, Obj k => Some (bool_decide (l = k))
  | Word _, Obj _ | Obj _, Word _ => Some false
  | _, _ => None
  end.

Definition word_test (f : sexp -> bool) (v : value) : value :=
  truth (match v with Word w => f w | _ => false end).

(** The counterpart of [prim]. *)
Definition vprim (o : op_name) (s : store) (vs : list value) : option (option value * store) :=
  match o, vs with
  | OP_CAR, [a] => x ← vcar s a; Some (Some x, s)
  | OP_CDR, [a] => x ← vcdr s a; Some (Some x, s)
  | OP_CONS, [a; b] => let '(p, s) := new_obj (OPair a b) s in Some (Some p, s)
  | OP_SET_CAR, [a; x] => s ← set_vcar a x s; Some (None, s)
  | OP_SET_CDR, [a; x] => s ← set_vcdr a x s; Some (None, s)
  | OP_EQ, [a; b] => t ← veq a b; Some (Some (truth t), s)
  | OP_NULLP, [a] => Some (Some (word_test (fun w => bool_decide (w = SEXP_NULL)) a), s)
  | OP_FIXNUMP, [a] => Some (Some (word_test sexp_fixnump a), s)
  | OP_SYMBOLP, [a] => Some (Some (word_test sexp_symbolp a), s)
  | OP_VECTOR_LENGTH, [v] => n ← vlength s v; Some (Some (Word (Fixnum (Z.of_nat n))), s)
  | OP_VECTOR_REF, [v; Word (Fixnum i)] =>
      if 0 <=? i then x ← vref s v (Z.to_nat i); Some (Some x, s) else None
  | OP_VECTOR_SET, [v; Word (Fixnum i); x] =>
      if 0 <=? i then s ← vset v (Z.to_nat i) x s; Some (None, s) else None
  | _, _ => None
  end.

Definition words (vs : list value) : option (list sexp) :=
  mapM (fun v => match v with Word w => Some w | _ => None end) vs.

(** Arithmetic on fixnums whose results are fixnums, and comparisons. *)
Definition varith (o : op_name) (vs : list value) : option value :=
  match words vs with
  | Some (Fixnum z :: ws) => r ← arith_fold o z ws; Some (Word (Fixnum r))
  | _ => None
  end.

Definition vcompare (o : op_name) (vs : list value) : option value :=
  t ← fixnum_test o; ws ← words vs; zs ← fixnums ws;
  if (2 <=? length zs)%nat then Some (truth (chain_test t zs)) else None.

Definition ordinary (op : opcode) : bool :=
  negb (op_static_param_p op) && negb (op_tail_call_p op) && negb (returns_void op) && negb (bool_decide (op_code op = OP_PUSH)).

(** The application of an opcode to values. *)
Definition vop (op : opcode) (s : store) (vs : list value) : option (value * store) :=
  match op_class_of op with
  | OPC_ARITHMETIC =>
      if ordinary op && (op_num_args op <? Z.of_nat (length vs))
      then v ← varith (op_code op) vs; Some (v, s) else None
  | OPC_ARITHMETIC_CMP =>
      if ordinary op && negb (op_inverse op) && match op_data op with None => true | _ => false end
      then v ← vcompare (op_code op) vs; Some (v, s) else None
  | _ =>
      if plain_op op && negb (op_inverse op) then
        '(r, s) ← vprim (op_code op) s vs;
        if eqb (returns_void op) (match r with Some _ => false | None => true end)
        then Some (default (Word SEXP_VOID) r, s) else None
      else None
  end.

(** ** Calls *)

Fixpoint list_value (vs : list value) (s : store) : value * store :=
  match vs with
  | [] => (Word SEXP_NULL, s)
  | v :: vs => let '(d, s) := list_value vs s in new_obj (OPair v d) s
  end.

Definition frame (id : positive) (names : list ident) (vs : list value) : scope := zip (map (fun n => (n, id)) names) vs.

(** Boxes for the assigned variables. *)
Fixpoint box_vars (id : positive) (sv : list ident) (rho : scope) (s : store) : option (scope * store) :=
  match sv with
  | [] => Some (rho, s)
  | n :: sv =>
      v ← lookup_var (n, id) rho;
      let '(b, s) := new_obj (OBox v) s in box_vars id sv (((n, id), b) :: rho) s
  end.

(** The variables of a call: parameters, the list of the other arguments, and
    the locals. *)
Definition enter (i : lam_info) (vs : list value) (s : store) : option (scope * store) :=
  let n := length (lam_params i) in
  let id := lam_id i in
  '(extra, s) ← match lam_rest i with
                | None => if (length vs =? n)%nat then Some ([], s) else None
                | Some r => if (n <=? length vs)%nat
                            then let '(v, s) := list_value (drop n vs) s in Some ([((r, id), v)], s)
                            else None
                end;
  box_vars id (lam_sv i)
    (frame id (lam_params i) (take n vs) ++ extra ++ map (fun x => ((x, id), Word SEXP_UNDEF)) (lam_locals i)) s.

(** ** The interpreter *)

Definition read_variable (name : ident) (i : lam_info) (rho : scope) (s : store) : option value :=
  v ← lookup_var (name, lam_id i) rho;
  if memq name (lam_sv i) then box_ref s v else Some v.

(** Operands, last to first, and forms in order, by an evaluator of trees. *)
Section lists.
Variable ev : store -> ast -> option (value * store).

Fixpoint evals (ls : list ast) (s : store) : option (list value * store) :=
  match ls with
  | [] => Some ([], s)
  | x :: ls => '(vs, s) ← evals ls s; '(v, s) ← ev s x; Some (v :: vs, s)
  end.

Fixpoint evseq (x : ast) (ls : list ast) (s : store) : option (value * store) :=
  match ls with
  | [] => ev s x
  | y :: ls => '(_, s) ← ev s x; evseq y ls s
  end.

End lists.

Definition undefined (v : value) : bool := match v with Word SEXP_UNDEF => true | _ => false end.

Fixpoint ieval (n : nat) (rho : scope) (s : store) (x : ast) {struct n} : option (value * store) :=
  match n with
  | O => None
  | S n =>
      match x with
      | Lit v | Self v => Some (Word v, s)
      | RefE (Ref name (Global c)) => v ← cells s c; if undefined v then None else Some (v, s)
      | RefE (Ref name (Within i)) => v ← read_variable name i rho s; Some (v, s)
      | SetE (Ref name (Global c)) x =>
          '(v, s) ← ieval n rho s x;
          old ← cells s c; if undefined old then None else Some (Word SEXP_VOID, set_cell c v s)
      | SetE (Ref name (Within i)) x =>
          '(v, s) ← ieval n rho s x;
          if memq name (lam_sv i) then
            b ← lookup_var (name, lam_id i) rho; s ← box_set b v s; Some (Word SEXP_VOID, s)
          else None
      | Cnd t p f => '(v, s) ← ieval n rho s t; ieval n rho s (if is_false v then f else p)
      | Seq [] => None
      | Seq (x :: ls) => evseq (ieval n rho) x ls s
      | Lambda i _ body => Some (Closure i body rho, s)
      | App f args =>
          '(vs, s) ← evals (ieval n rho) args s;
          '(c, s) ← ieval n rho s f;
          match c with
          | Closure i body rho' => '(new, s) ← enter i vs s; ieval n (new ++ rho') s body
          | _ => None
          end
      | OpApp _ op args => '(vs, s) ← evals (ieval n rho) args s; vop op s vs
      end
  end.

(** The application of a value. *)
Definition iapply (n : nat) (c : value) (vs : list value) (s : store) : option (value * store) :=
  match c with
  | Closure i body rho => '(new, s) ← enter i vs s; ieval n (new ++ rho) s body
  | _ => None
  end.

End source.
