(* ===== verification/Simplify.v ===== *)
(** * The simplifier

    The pass of [simplify.c] in front of the code generator: it folds arithmetic
    on constants by compiling and running it, drops forms without effect and the
    dead branches of conditionals, and replaces parameters that a [let] binds to
    constants.  A lambda object is shared by the references to its variables, so
    when the pass takes parameters from it the references in its body follow. *)
From S2P Require Import Prelude Bignum Numbers Heap Ast Codegen Vm VmSteps Toplevel.
From stdpp Require Import base list option gmap.
#[local] Open Scope Z_scope.

(** ** Substitutions *)

(** A parameter, named with its lambda, and the constant that replaces it. *)
Record subst := Subst { su_name : ident; su_lambda : positive; su_value : sexp }.

Fixpoint find_subst (name : ident) (loc : ref_loc) (substs : list subst) : option sexp :=
  match substs with
  | [] => None
  | s :: substs =>
      if bool_decide (su_name s = name) && match loc with Within i => bool_decide (lam_id i = su_lambda s) | Global _ => false end
      then Some (su_value s) else find_subst name loc substs
  end.

(** The lambda that a reference points to, after the changes to its object. *)
Fixpoint current (changed : list lam_info) (i : lam_info) : lam_info :=
  match changed with
  | [] => i
  | j :: changed => if bool_decide (lam_id j = lam_id i) then j else current changed i
  end.

Definition current_ref (changed : list lam_info) (r : ref) : ref :=
  match ref_where r with Within i => Ref (ref_name r) (Within (current changed i)) | Global _ => r end.

Definition with_params (i : lam_info) (ps : list ident) : lam_info :=
  LamInfo (lam_id i) ps (lam_rest i) (lam_locals i) (lam_sv i).

(** Literals and immediates. *)
Definition constant (x : ast) : option sexp := match x with Lit v => Some v | _ => None end.

(** [sexp_length] of the parameter list, that is no list when it is a rest
    parameter alone. *)
Definition params_length (i : lam_info) : option nat :=
  match lam_params i, lam_rest i with [], Some _ => None | ps, _ => Some (length ps) end.

(** The loop over parameters and operands: what is not assigned and gets a
    constant goes from both lists. *)
Fixpoint inline_params (i : lam_info) (ps : list ident) (args : list ast) (substs : list subst)
    : list ident * list ast * list subst :=
  match ps, args with
  | p :: ps, a :: args =>
      match constant a with
      | Some v =>
          if negb (memq p (lam_sv i)) then inline_params i ps args (Subst p (lam_id i) v :: substs)
          else let '(ps, args, substs) := inline_params i ps args substs in (p :: ps, a :: args, substs)
      | None => let '(ps, args, substs) := inline_params i ps args substs in (p :: ps, a :: args, substs)
      end
  | _, _ => (ps, args, substs)
  end.

Definition is_lambda (x : ast) : bool := match x with Lambda _ _ _ => true | _ => false end.

(** Forms without effect that may be left out in front of another one. *)
Definition droppable (x : ast) : bool :=
  match x with Lit _ | RefE _ | Lambda _ _ _ => true | _ => false end.

(** An application is one of an opcode when its operator is an opcode object. *)
Definition make_app (h : heap) (f : ast) (args : list ast) : ast :=
  match f with
  | Self v => match deref h v with Some (OpcodeObj op) => OpApp v op args | _ => App f args end
  | _ => App f args
  end.

Fixpoint drop_forms (ls : list ast) : list ast :=
  match ls with
  | x :: ((_ :: _) as rest) => if droppable x then drop_forms rest else x :: drop_forms rest
  | _ => ls
  end.

Definition make_seq (ls : list ast) : ast :=
  match drop_forms ls with [x] => x | ls => Seq ls end.

(** ** The pass *)

Section simplify.
(** What folding makes of an application to constants: its value, if any, and the
    heap. *)
Variable fold : heap -> sexp -> opcode -> list ast -> option sexp * heap.

Definition simplify_op (l : sexp) (op : opcode) (args : list ast) (h : heap) : ast * heap :=
  if bool_decide (op_class_of op = OPC_ARITHMETIC) && forallb (fun a => match constant a with Some _ => true | None => false end) args
  then match fold h l op args with (Some v, h) => (Lit v, h) | (None, h) => (OpApp l op args, h) end
  else (OpApp l op args, h).

(** Trees in order, with the heap. *)
Fixpoint simplify_list (sim : ast -> heap -> ast * heap) (ls : list ast) (h : heap) : list ast * heap :=
  match ls with
  | [] => ([], h)
  | y :: ls => let '(y, h) := sim y h in let '(ls, h) := simplify_list sim ls h in (y :: ls, h)
  end.

(** [simplify]; [changed] are the lambdas around the tree with parameters taken
    away, and [lambda] tells whether there is a lambda around it. *)
Fixpoint simplify (fuel : nat) (x : ast) (substs : list subst) (changed : list lam_info) (lambda : bool) (h : heap)
    {struct fuel} : ast * heap :=
  match fuel with
  | O => (x, h)
  | S fuel =>
      match x with
      | Lit _ | Self _ => (x, h)
      | OpApp l op args => let '(args, h) := simplify_list (fun y => simplify fuel y substs changed lambda) args h in simplify_op l op args h
      | App f args =>
          let '(f, h) := if is_lambda f then (f, h) else simplify fuel f substs changed lambda h in
          let '(args, h) := simplify_list (fun y => simplify fuel y substs changed lambda) args h in
          match make_app h f args with
          | OpApp l op args => simplify_op l op args h
          | App (Lambda i fv b) args =>
              if lambda then
                let '(ps, args, substs) :=
                  if bool_decide (params_length i = Some (length args)) then inline_params i (lam_params i) args substs
                  else (lam_params i, args, substs) in
                let i := with_params i ps in
                let '(b, h) := simplify fuel b substs (i :: changed) true h in
                (App (Lambda i fv b) args, h)
              else (App (Lambda i fv b) args, h)
          | y => (y, h)
          end
      | Lambda i fv b => let '(b, h) := simplify fuel b substs changed true h in (Lambda i fv b, h)
      | Cnd test pass fail =>
          let '(test, h) := simplify fuel test substs changed lambda h in
          match constant test with
          | Some v => simplify fuel (if sexp_not v then fail else pass) substs changed lambda h
          | None =>
              let '(pass, h) := simplify fuel pass substs changed lambda h in
              let '(fail, h) := simplify fuel fail substs changed lambda h in
              (Cnd test pass fail, h)
          end
      | RefE r =>
          match find_subst (ref_name r) (ref_where r) substs with
          | Some v => (Lit v, h)
          | None => (RefE (current_ref changed r), h)
          end
      | SetE r v => let '(v, h) := simplify fuel v substs changed lambda h in (SetE (current_ref changed r) v, h)
      | Seq ls => let '(ls, h) := simplify_list (fun y => simplify fuel y substs changed lambda) ls h in (make_seq ls, h)
      end
  end.

End simplify.

(** [sexp_simplify], without substitutions and outside of a lambda. *)
Definition sexp_simplify (fold : heap -> sexp -> opcode -> list ast -> option sexp * heap) (fuel : nat) (x : ast) (h : heap) : ast * heap :=
  simplify fold fuel x [] [] false h.

(** ** Folding *)

(** The code of the application is run without an error handler and without
    parameters on a stack of its own; an exception stops nothing but the
    folding. *)
Definition constant_fold (foreign : string -> heap -> list sexp -> sexp * heap) (fuel : nat)
    (h : heap) (l : sexp) (op : opcode) (args : list ast) : option sexp * heap :=
  let g := sexp_generate (OpApp l op args) (Gen h (new_cctx None)) in
  let '(bc, h) := sexp_complete_bytecode g in
  let '(vec, h) := sexp_make_vector h 0 SEXP_VOID in
  let '(proc, h) := sexp_make_procedure h 0 0 bc vec in
  match sexp_apply foreign fuel proc [] (machine h []) with
  | Returned v s => (if sexp_exceptionp (v_heap s) v then None else Some v, v_heap s)
  | _ => (None, h)
  end.

(** [sexp_compile_op] from the analyzed tree on, with the simplifier as the only
    optimization. *)
Definition sexp_compile (foreign : string -> heap -> list sexp -> sexp * heap) (fuel : nat) (h : heap) (x : ast) : sexp * heap :=
  let '(x, h) := sexp_simplify (constant_fold foreign fuel) fuel x h in sexp_generate_op h x.
