(* ===== verification/SimplifySim.v ===== *)
(** * The simplifier keeps the meaning of trees

    A relation between trees that the pass stays inside, related values and
    stores, and the proof that related trees compute related results. *)
From S2P Require Import Prelude Heap Ast Codegen Semantics Compiler Toplevel Source Simplify.
From stdpp Require Import base list option gmap.
#[local] Open Scope Z_scope.

Create HintDb related.

(** ** Evaluation *)

(** Splits a successful sequence of computations. *)
Ltac split_bind H :=
  lazymatch type of H with
  | mbind _ ?m = Some _ =>
      let E := fresh "E" in destruct m as [?|] eqn:E; cbn [mbind option_bind] in H; [|discriminate H];
      lazymatch type of E with
      | _ = Some ?p => try (is_var p; destruct p as [? ?])
      end
  end.
Ltac split_binds H := repeat (split_bind H).

Section laws.
Variable constants : heap.

#[local] Abbreviation ieval := (ieval constants).
#[local] Abbreviation iapply := (iapply constants).
#[local] Abbreviation vop := (vop constants).

Lemma evals_mono (ev ev' : store -> ast -> option (value * store)) :
  (forall s x r, ev s x = Some r -> ev' s x = Some r) ->
  forall ls s r, evals ev ls s = Some r -> evals ev' ls s = Some r.
Proof.
  intros Hev ls. induction ls as [|x ls IH]; intros s r H; cbn [evals] in *; [done|].
  split_binds H. by rewrite (IH _ _ E); cbn; rewrite (Hev _ _ _ E0).
Qed.

Lemma evseq_mono (ev ev' : store -> ast -> option (value * store)) :
  (forall s x r, ev s x = Some r -> ev' s x = Some r) ->
  forall ls x s r, evseq ev x ls s = Some r -> evseq ev' x ls s = Some r.
Proof.
  intros Hev ls. induction ls as [|y ls IH]; intros x s r H; cbn [evseq] in *; [by apply Hev|].
  split_binds H. by rewrite (Hev _ _ _ E); apply IH.
Qed.

Lemma ieval_S n : forall rho s x r, ieval n rho s x = Some r -> ieval (S n) rho s x = Some r.
Proof.
  induction n as [|n IH]; intros rho s x r H; [done|].
  assert (forall ls s r, evals (ieval n rho) ls s = Some r -> evals (ieval (S n) rho) ls s = Some r) as Hl
    by (intros ls; apply evals_mono; auto).
  remember (S n) as m eqn:Em. rewrite Em in H. cbn [Source.ieval] in H |- *.
  destruct x as [v|v|[name [c|i]]|[name [c|i]] x|t p f|[|x ls]|i fv b|f args|l op args]; try exact H.
  - split_binds H. rewrite (IH _ _ _ _ E). cbn. by rewrite E0.
  - split_binds H. by rewrite (IH _ _ _ _ E).
  - split_binds H. rewrite (IH _ _ _ _ E). cbn. by apply IH.
  - eapply evseq_mono; [|exact H]. intros s' y r' Hy. by apply IH.
  - split_binds H. rewrite (Hl _ _ _ E). cbn. rewrite (IH _ _ _ _ E0). cbn [mbind option_bind].
    destruct v; [done|done|]. split_binds H. cbn. by apply IH.
  - split_binds H. by rewrite (Hl _ _ _ E).
Qed.

Lemma ieval_mono n m rho s x r : (n <= m)%nat -> ieval n rho s x = Some r -> ieval m rho s x = Some r.
Proof. induction 1; [done|]. intros H'. by apply ieval_S, IHle. Qed.

Lemma evals_S n rho ls s r : evals (ieval n rho) ls s = Some r -> evals (ieval (S n) rho) ls s = Some r.
Proof. apply evals_mono. intros. by apply ieval_S. Qed.

Lemma iapply_S n c vs s r : iapply n c vs s = Some r -> iapply (S n) c vs s = Some r.
Proof.
  destruct c; cbn [Source.iapply]; try done. intros H. split_binds H. by apply ieval_S.
Qed.

(** ** Related trees *)

Definition find_key (k : ident * positive) (sub : list subst) : option sexp :=
  find_subst k.1 (Within (LamInfo k.2 [] None [] [])) sub.

Lemma find_subst_key name i sub : find_subst name (Within i) sub = find_key (name, lam_id i) sub.
Proof. unfold find_key. induction sub as [|s sub IH]; cbn in *; [done|]. by rewrite IH. Qed.

Lemma find_subst_global name c sub : find_subst name (Global c) sub = None.
Proof. induction sub as [|s sub IH]; cbn; [done|]. by rewrite andb_false_r. Qed.

Lemma find_key_cons k n id c sub :
  find_key k (Subst n id c :: sub) = if bool_decide (k = (n, id)) then Some c else find_key k sub.
Proof.
  destruct k as [m j]. unfold find_key. cbn.
  by repeat case_bool_decide; simplify_eq.
Qed.

(** References to the same variable, from before and after its lambda lost
    parameters. *)
Inductive same_var : ref -> ref -> Prop :=
| same_global n c : same_var (Ref n (Global c)) (Ref n (Global c))
| same_within n i j : lam_id i = lam_id j -> lam_sv i = lam_sv j -> same_var (Ref n (Within i)) (Ref n (Within j)).

(** [op] applied to constants can only be [v]. *)
Definition folds (op : opcode) (ws : list sexp) (v : sexp) : Prop :=
  forall s w s', vop op s (map Word ws) = Some (w, s') -> w = Word v /\ s' = s.

Definition fresh_in (sub : list subst) (i : lam_info) : Prop := forall s, s ∈ sub -> su_lambda s <> lam_id i.

(** The result of the simplifier under a substitution: [kept i b] is a lambda
    whose parameters stay, and [simp_let] takes constants from a call. *)
Inductive simp : list subst -> ast -> ast -> Prop :=
| simp_lit sub v : simp sub (Lit v) (Lit v)
| simp_self sub v : simp sub (Self v) (Self v)
| simp_subst sub r v : find_subst (ref_name r) (ref_where r) sub = Some v -> simp sub (RefE r) (Lit v)
| simp_ref sub r r' : find_subst (ref_name r) (ref_where r) sub = None -> same_var r r' -> simp sub (RefE r) (RefE r')
| simp_set sub r r' x x' : same_var r r' -> simp sub x x' -> simp sub (SetE r x) (SetE r' x')
| simp_cnd sub t t' p p' f f' : simp sub t t' -> simp sub p p' -> simp sub f f' -> simp sub (Cnd t p f) (Cnd t' p' f')
| simp_branch sub t v p f x : simp sub t (Lit v) -> simp sub (if sexp_not v then f else p) x -> simp sub (Cnd t p f) x
| simp_seq sub ls ls' : Forall2 (simp sub) ls ls' -> simp sub (Seq ls) (Seq ls')
| simp_make_seq sub ls ls' : Forall2 (simp sub) ls ls' -> simp sub (Seq ls) (make_seq ls')
| simp_lambda sub i fv b b' : fresh_in sub i -> simp sub b b' -> simp sub (Lambda i fv b) (Lambda i fv b')
| simp_app sub f f' args args' : simp sub f f' -> Forall2 (simp sub) args args' -> simp sub (App f args) (App f' args')
| simp_app_word sub f v args y : simp sub f (Self v) -> simp sub (App f args) y
| simp_op sub l op args args' : Forall2 (simp sub) args args' -> simp sub (OpApp l op args) (OpApp l op args')
| simp_fold sub l op args ws v : Forall2 (simp sub) args (map Lit ws) -> folds op ws v -> simp sub (OpApp l op args) (Lit v)
(** The operator is a lambda, and its body is simplified once ... *)
| simp_let sub sub' i fv b b' args args' args'' ps :
    fresh_in sub i -> NoDup (lam_params i) -> Forall2 (simp sub) args args' -> length args' = length (lam_params i) ->
    inline_params i (lam_params i) args' sub = (ps, args'', sub') -> simp sub' b b' ->
    simp sub (App (Lambda i fv b) args) (App (Lambda (with_params i ps) fv b') args'')
(** ... or becomes one, and it is simplified again. *)
| simp_let_again sub sub' i fv f b b' args args' args'' ps :
    simp sub f (Lambda i fv b) ->
    fresh_in sub i -> NoDup (lam_params i) -> Forall2 (simp sub) args args' -> length args' = length (lam_params i) ->
    inline_params i (lam_params i) args' sub = (ps, args'', sub') -> simp sub' b b' ->
    simp sub (App f args) (App (Lambda (with_params i ps) fv b') args'')
| simp_body_again sub i fv f b b' args args' :
    simp sub f (Lambda i fv b) -> fresh_in sub i -> Forall2 (simp sub) args args' -> simp sub b b' ->
    simp sub (App f args) (App (Lambda i fv b') args').

(** ** Related values *)

Inductive vrel : value -> value -> Prop :=
| vrel_word w : vrel (Word w) (Word w)
| vrel_obj l : vrel (Obj l) (Obj l)
| vrel_closure sub i b b' rho rho' :
    fresh_in sub i -> simp sub b b' ->
    (forall k c, find_key k sub = Some c -> lookup_var k rho = Some (Word c)) ->
    (forall k v, find_key k sub = None -> lookup_var k rho = Some v -> exists v', lookup_var k rho' = Some v' /\ vrel v v') ->
    vrel (Closure i b rho) (Closure i b' rho')
| vrel_trans v1 v2 v3 : vrel v1 v2 -> vrel v2 v3 -> vrel v1 v3.

(** Environments under a substitution. *)
Record erel (sub : list subst) (rho rho' : scope) : Prop := Erel {
  erel_const : forall k c, find_key k sub = Some c -> lookup_var k rho = Some (Word c);
  erel_var : forall k v, find_key k sub = None -> lookup_var k rho = Some v -> exists v', lookup_var k rho' = Some v' /\ vrel v v';
}.

Inductive orel : object -> object -> Prop :=
| orel_pair a a' d d' : vrel a a' -> vrel d d' -> orel (OPair a d) (OPair a' d')
| orel_vector vs vs' : Forall2 vrel vs vs' -> orel (OVector vs) (OVector vs')
| orel_box v v' : vrel v v' -> orel (OBox v) (OBox v').

Record srel (s s' : store) : Prop := Srel {
  srel_objs : Forall2 orel (objs s) (objs s');
  srel_cells : forall c, option_Forall2 vrel (cells s c) (cells s' c);
}.

Lemma simp_refl x : simp [] x x.
Proof.
  assert (forall ls, Forall (fun x => simp [] x x) ls -> Forall2 (simp []) ls ls) as Hl
    by (intros ls; induction 1; by constructor).
  induction x as [v|v|[n [c|i]]|[n [c|i]] v IH|t p f IHt IHp IHf|ls IH|i fv b IH|f args IHf IH|l op args IH] using ast_ind';
    constructor; auto using same_var. intros s Hs. by apply not_elem_of_nil in Hs.
Qed.

(** ** The relation on values *)

Section value_ind.
Variable P : value -> Prop.
Hypothesis HWord : forall w, P (Word w).
Hypothesis HObj : forall l, P (Obj l).
Hypothesis HClosure : forall i b rho, Forall (fun e => P e.2) rho -> P (Closure i b rho).

Fixpoint value_ind' (v : value) : P v :=
  match v with
  | Word w => HWord w
  | Obj l => HObj l
  | Closure i b rho =>
      HClosure i b rho ((fix all (rho : scope) : Forall (fun e => P e.2) rho :=
        match rho with [] => Forall_nil_2 _ | (k, v) :: rho => Forall_cons_2 _ (k, v) rho (value_ind' v) (all rho) end) rho)
  end.
End value_ind.

Lemma lookup_var_forall {A} (P : A -> Prop) (rho : list ((ident * positive) * A)) k v :
  Forall (fun e => P e.2) rho -> lookup_var k rho = Some v -> P v.
Proof. induction 1 as [|[k' v'] rho Hv _ IH]; cbn; [done|]. case_bool_decide; [by intros [= <-]|done]. Qed.

Lemma fresh_nil i : fresh_in [] i.
Proof. intros s Hs. by apply not_elem_of_nil in Hs. Qed.

Lemma vrel_refl v : vrel v v.
Proof.
  induction v as [w|l|i b rho IH] using value_ind'; [constructor..|].
  apply (vrel_closure []); [apply fresh_nil|apply simp_refl|done|].
  intros k v _ Hk. exists v. split; [done|]. exact (lookup_var_forall (fun v => vrel v v) _ _ _ IH Hk).
Qed.

#[export] Instance vrel_preorder : PreOrder vrel.
Proof. split; [intros v; apply vrel_refl|intros ???; apply vrel_trans]. Qed.

Lemma orel_refl o : orel o o.
Proof. destruct o; constructor; try reflexivity. Qed.

Lemma orel_trans o1 o2 o3 : orel o1 o2 -> orel o2 o3 -> orel o1 o3.
Proof.
  intros H1 H2. destruct H1; inversion H2; subst; constructor; (etransitivity; eassumption).
Qed.

#[export] Instance orel_preorder : PreOrder orel.
Proof. split; [intros o; apply orel_refl|intros ???; apply orel_trans]. Qed.

#[export] Instance srel_preorder : PreOrder srel.
Proof.
  split.
  - intros s. split; [reflexivity|]. intros c. destruct (cells s c); constructor. reflexivity.
  - intros s1 s2 s3 [O1 C1] [O2 C2]. split; [by etransitivity|]. intros c. specialize (C1 c). specialize (C2 c).
    destruct C1 as [a b Hab|]; inversion C2; subst; constructor. by etransitivity.
Qed.

(** The kind of a value and its word are kept in both directions. *)
Lemma vrel_word_l w v : vrel (Word w) v -> v = Word w.
Proof. intros H. remember (Word w) as x eqn:E. induction H; simplify_eq; [done..|]. naive_solver. Qed.
Lemma vrel_word_r w v : vrel v (Word w) -> v = Word w.
Proof. intros H. remember (Word w) as x eqn:E. induction H; simplify_eq; [done..|]. naive_solver. Qed.
Lemma vrel_obj_l l v : vrel (Obj l) v -> v = Obj l.
Proof. intros H. remember (Obj l) as x eqn:E. induction H; simplify_eq; [done..|]. naive_solver. Qed.
Lemma vrel_closure_l i b rho v : vrel (Closure i b rho) v -> exists b' rho', v = Closure i b' rho'.
Proof.
  intros H. remember (Closure i b rho) as x eqn:E. revert i b rho E.
  induction H as [| | |v1 v2 v3 H1 IH1 H2 IH2]; intros; simplify_eq; eauto.
  destruct (IH1 _ _ _ eq_refl) as (b1 & r1 & ->). eauto.
Qed.

(** Case analysis on a related value whose partner is known. *)
Lemma vrel_cases v v' : vrel v v' ->
  (exists w, v = Word w /\ v' = Word w) \/ (exists l, v = Obj l /\ v' = Obj l) \/
  (exists i b rho b' rho', v = Closure i b rho /\ v' = Closure i b' rho').
Proof.
  intros H. destruct v as [w|l|i b rho].
  - apply vrel_word_l in H as ->. eauto.
  - apply vrel_obj_l in H as ->. eauto.
  - destruct (vrel_closure_l _ _ _ _ H) as (b' & rho' & ->). right. right. eauto 10.
Qed.

Lemma words_rel vs vs' ws : Forall2 vrel vs vs' -> words vs = Some ws -> words vs' = Some ws.
Proof.
  unfold words. intros H. revert ws. induction H as [|v v' vs vs' Hv _ IH]; intros ws; cbn; [done|].
  destruct (vrel_cases _ _ Hv) as [(w & -> & ->)|[(l & -> & ->)|(i & b & r & b' & r' & -> & ->)]]; [|done..].
  cbn. intros Hw. split_bind Hw. by rewrite (IH _ eq_refl).
Qed.

(** ** Related computations *)

(** Where the first computation has a result, so has the second one. *)
Definition osim {A B} (R : A -> B -> Prop) (m : option A) (m' : option B) : Prop :=
  forall a, m = Some a -> exists b, m' = Some b /\ R a b.

Definition with_store {A} (R : A -> A -> Prop) (p q : A * store) : Prop := R p.1 q.1 /\ srel p.2 q.2.

Lemma osim_bind {A B C D} (R : A -> B -> Prop) (Q : C -> D -> Prop) m m' f f' :
  osim R m m' -> (forall a b, R a b -> osim Q (f a) (f' b)) -> osim Q (m ≫= f) (m' ≫= f').
Proof.
  intros Hm Hf c H. destruct m as [a|]; [|done]. destruct (Hm a eq_refl) as (b & -> & Hab). exact (Hf a b Hab c H).
Qed.

Lemma osim_some {A B} (R : A -> B -> Prop) a b : R a b -> osim R (Some a) (Some b).
Proof. intros H x [= <-]. eauto. Qed.

Lemma osim_none {A B} (R : A -> B -> Prop) m' : osim R (@None A) m'.
Proof. done. Qed.

Lemma osim_if {A B} (R : A -> B -> Prop) (c : bool) m m' n n' :
  osim R m m' -> osim R n n' -> osim R (if c then m else n) (if c then m' else n').
Proof. by destruct c. Qed.

Lemma lookup_obj s s' l : srel s s' -> osim orel (objs s !! l) (objs s' !! l).
Proof. intros [H _] o Ho. destruct (Forall2_lookup_l _ _ _ _ _ H Ho) as (o' & ? & ?). eauto. Qed.

Lemma set_obj_rel l o o' s s' : orel o o' -> srel s s' -> srel (set_obj l o s) (set_obj l o' s').
Proof. intros Ho [H C]. split; [|done]. by apply Forall2_insert. Qed.

Lemma set_cell_rel c v v' s s' : vrel v v' -> srel s s' -> srel (set_cell c v s) (set_cell c v' s').
Proof. intros Hv [H C]. split; [done|]. intros c'. cbn. case_bool_decide; [by constructor|done]. Qed.

Lemma new_obj_rel o o' s s' : orel o o' -> srel s s' -> with_store vrel (new_obj o s) (new_obj o' s').
Proof.
  intros Ho [H C]. unfold new_obj. split; cbn.
  - rewrite (Forall2_length _ _ _ H). reflexivity.
  - split; cbn; [|done]. apply Forall2_app; [done|]. by repeat constructor.
Qed.

(** One destination for every access to an object through a related value. *)
Ltac value_cases H :=
  let w := fresh "w" in let l := fresh "l" in
  destruct (vrel_cases _ _ H) as [(w & -> & ->)|[(l & -> & ->)|(? & ? & ? & ? & ? & -> & ->)]].

Ltac object_cases Hs :=
  lazymatch goal with
  | |- osim _ (match objs ?s !! ?l with _ => _ end) _ =>
      let o := fresh "o" in let o' := fresh "o" in let E := fresh "E" in let E' := fresh "E" in let Ho := fresh "Ho" in
      destruct (objs s !! l) as [o|] eqn:E; [|done];
      destruct (lookup_obj _ _ _ Hs o E) as (o' & E' & Ho); rewrite E'; clear E E';
      destruct Ho; try done
  end.

Section related.
Context (s s' : store) (Hs : srel s s').

Lemma vcar_rel v v' : vrel v v' -> osim vrel (vcar constants s v) (vcar constants s' v').
Proof.
  intros Hv. value_cases Hv; cbn; [|object_cases Hs; by apply osim_some|done].
  intros x H. exists x. split; [done|reflexivity].
Qed.
Lemma vcdr_rel v v' : vrel v v' -> osim vrel (vcdr constants s v) (vcdr constants s' v').
Proof.
  intros Hv. value_cases Hv; cbn; [|object_cases Hs; by apply osim_some|done].
  intros x H. exists x. split; [done|reflexivity].
Qed.
Lemma vlength_rel v v' : vrel v v' -> osim eq (vlength constants s v) (vlength constants s' v').
Proof.
  intros Hv. value_cases Hv; cbn; [intros x H; eauto| |done].
  object_cases Hs. apply osim_some. by eapply Forall2_length.
Qed.
Lemma vref_rel v v' k : vrel v v' -> osim vrel (vref constants s v k) (vref constants s' v' k).
Proof.
  intros Hv. value_cases Hv; cbn; [| |done].
  - intros x H. exists x. split; [done|reflexivity].
  - object_cases Hs. intros x Hx. destruct (Forall2_lookup_l _ _ _ _ _ H Hx) as (y & ? & ?). eauto.
Qed.
Lemma box_ref_rel v v' : vrel v v' -> osim vrel (box_ref s v) (box_ref s' v').
Proof. intros Hv. value_cases Hv; cbn; [done| |done]. object_cases Hs. by apply osim_some. Qed.

Context (x x' : value) (Hx : vrel x x').

Lemma box_set_rel v v' : vrel v v' -> osim srel (box_set v x s) (box_set v' x' s').
Proof.
  intros Hv. value_cases Hv; cbn; [done| |done]. object_cases Hs. apply osim_some, set_obj_rel; [by constructor|done].
Qed.
Lemma set_vcar_rel v v' : vrel v v' -> osim srel (set_vcar v x s) (set_vcar v' x' s').
Proof.
  intros Hv. value_cases Hv; cbn; [done| |done]. object_cases Hs. apply osim_some, set_obj_rel; [by constructor|done].
Qed.
Lemma set_vcdr_rel v v' : vrel v v' -> osim srel (set_vcdr v x s) (set_vcdr v' x' s').
Proof.
  intros Hv. value_cases Hv; cbn; [done| |done]. object_cases Hs. apply osim_some, set_obj_rel; [by constructor|done].
Qed.
Lemma vset_rel v v' k : vrel v v' -> osim srel (vset v k x s) (vset v' k x' s').
Proof.
  intros Hv. value_cases Hv; cbn; [done| |done]. object_cases Hs.
  rewrite (Forall2_length _ _ _ H). apply osim_if; [|done].
  apply osim_some, set_obj_rel; [|done]. constructor. by apply Forall2_insert.
Qed.

End related.

Lemma veq_rel v v' w w' : vrel v v' -> vrel w w' -> osim eq (veq v w) (veq v' w').
Proof. intros Hv Hw. value_cases Hv; value_cases Hw; cbn; try done; intros x H; eauto. Qed.

Lemma word_test_rel f v v' : vrel v v' -> word_test f v = word_test f v'.
Proof. intros Hv. by value_cases Hv. Qed.

Lemma is_false_rel v v' : vrel v v' -> is_false v = is_false v'.
Proof. intros Hv. by value_cases Hv. Qed.

Lemma undefined_rel v v' : vrel v v' -> undefined v = undefined v'.
Proof. intros Hv. by value_cases Hv. Qed.

(** ** Primitives *)

#[local] Hint Resolve vcar_rel vcdr_rel vlength_rel vref_rel set_vcar_rel set_vcdr_rel vset_rel veq_rel : related.

Abbreviation outcome := (with_store (option_Forall2 vrel)).

Lemma prim_value s s' v v' : vrel v v' -> srel s s' -> osim outcome (Some (Some v, s)) (Some (Some v', s')).
Proof. intros. apply osim_some. split; [by constructor|done]. Qed.

Lemma prim_bind {A B} (R : A -> B -> Prop) (f : A -> value) (f' : B -> value) m m' s s' :
  osim R m m' -> (forall a b, R a b -> vrel (f a) (f' b)) -> srel s s' ->
  osim outcome (x ← m; Some (Some (f x), s)) (x ← m'; Some (Some (f' x), s')).
Proof. intros Hm Hf Hs. eapply osim_bind; [done|]. intros. apply prim_value; auto. Qed.

Lemma prim_set m m' : osim srel m m' -> osim outcome (s ← m; Some (None, s)) (s ← m'; Some (None, s)).
Proof. intros Hm. eapply osim_bind; [done|]. intros. apply osim_some. split; [constructor|done]. Qed.

Lemma vprim_rel o s s' vs vs' : Forall2 vrel vs vs' -> srel s s' -> osim outcome (vprim constants o s vs) (vprim constants o s' vs').
Proof.
  intros Hvs Hs. destruct o; try done;
    destruct Hvs as [|v v' vs vs' Hv [|w w' vs1 vs1' Hw [|x x' vs2 vs2' Hx [|y y' vs3 vs3' Hy Hvs]]]];
    try done; cbn [vprim].
  all: try (eapply prim_bind; eauto with related; fail).
  all: try (apply prim_set; eauto with related; fail).
  all: try (eapply prim_bind; [eauto with related|intros ? ? ->; reflexivity|done]).
  all: try (eapply osim_bind; [by apply veq_rel|intros ? ? ->; apply prim_value; [reflexivity|done]]).
  all: try (apply osim_some; assert (with_store vrel (new_obj (OPair v w) s) (new_obj (OPair v' w') s')) as [? ?]
    by (apply new_obj_rel; [by constructor|done]); split; [by constructor|done]).
  all: try (value_cases Hw; [|done..]; 
    match goal with w0 : sexp |- _ => destruct w0; try done end).
  all: try (erewrite word_test_rel by eassumption; apply prim_value; [reflexivity|done]).
  all: apply osim_if; [|done].
  - eapply prim_bind; [by apply vref_rel|done|done].
  - apply prim_set. by apply vset_rel.
Qed.

Lemma varith_rel o vs vs' : Forall2 vrel vs vs' -> osim vrel (varith o vs) (varith o vs').
Proof.
  intros H v Hv. exists v. split; [|reflexivity]. unfold varith in *. destruct (words vs) as [ws|] eqn:E; [|done].
  by rewrite (words_rel _ _ _ H E).
Qed.

Lemma vcompare_rel o vs vs' : Forall2 vrel vs vs' -> osim vrel (vcompare o vs) (vcompare o vs').
Proof.
  intros H v Hv. exists v. split; [|reflexivity]. unfold vcompare in *. split_binds Hv.
  cbn. rewrite (words_rel _ _ _ H E0). cbn. by rewrite E1.
Qed.

Lemma vop_rel op s s' vs vs' : Forall2 vrel vs vs' -> srel s s' -> osim (with_store vrel) (vop op s vs) (vop op s' vs').
Proof.
  intros Hvs Hs. unfold Source.vop. rewrite <- (Forall2_length _ _ _ Hvs).
  assert (forall m m', osim vrel m m' -> osim (with_store vrel) (v ← m; Some (v, s)) (v ← m'; Some (v, s'))) as Hpure.
  { intros m m' Hm. eapply osim_bind; [exact Hm|]. intros. by apply osim_some. }
  assert (osim (with_store vrel)
    ('(r, s) ← vprim constants (op_code op) s vs;
     if eqb (returns_void op) (match r with Some _ => false | None => true end) then Some (default (Word SEXP_VOID) r, s) else None)
    ('(r, s) ← vprim constants (op_code op) s' vs';
     if eqb (returns_void op) (match r with Some _ => false | None => true end) then Some (default (Word SEXP_VOID) r, s) else None))
    as Hprim.
  { eapply osim_bind; [by apply vprim_rel|]. intros [r t] [r' t'] [Hr Ht]. cbn in *.
    destruct Hr; (apply osim_if; [|done]); apply osim_some; split; cbn; auto. reflexivity. }
  destruct (op_class_of op); apply osim_if; auto using varith_rel, vcompare_rel; done.
Qed.

(** ** Calls *)

Lemma lookup_var_app {A} k (F G : list ((ident * positive) * A)) :
  lookup_var k (F ++ G) = match lookup_var k F with Some v => Some v | None => lookup_var k G end.
Proof. induction F as [|[k' v] F IH]; cbn; [done|]. by case_bool_decide. Qed.

(** The variables of one call of the lambda [id]. *)
Record frel (id : positive) (sub : list subst) (F F' : scope) : Prop := Frel {
  frel_ids : Forall (fun e => e.1.2 = id) F;
  frel_ids' : Forall (fun e => e.1.2 = id) F';
  frel_const : forall n c, find_key (n, id) sub = Some c -> lookup_var (n, id) F = Some (Word c);
  frel_var : forall n, find_key (n, id) sub = None -> option_Forall2 vrel (lookup_var (n, id) F) (lookup_var (n, id) F');
}.

Lemma lookup_var_other {A} id k (F : list ((ident * positive) * A)) : Forall (fun e => e.1.2 = id) F -> k.2 <> id -> lookup_var k F = None.
Proof. induction 1 as [|[k' v] F Hk _ IH]; intros Hne; cbn; [done|]. rewrite bool_decide_false; [auto|]. by intros ->. Qed.

(** [sub'] has substitutions for [id] that [sub] has not. *)
Definition extends_at (id : positive) (sub sub' : list subst) : Prop :=
  (forall k, k.2 <> id -> find_key k sub' = find_key k sub) /\ (forall n, find_key (n, id) sub = None).

Lemma frel_erel id sub sub' F F' rho rho' :
  frel id sub' F F' -> erel sub rho rho' -> extends_at id sub sub' -> erel sub' (F ++ rho) (F' ++ rho').
Proof.
  intros [I I' Hc Hv] [Ec Ev] [Ho Hn]. split.
  - intros [n j] c Hk. rewrite lookup_var_app. destruct (decide (j = id)) as [->|Hj].
    + by rewrite (Hc _ _ Hk).
    + rewrite (lookup_var_other id) by done. apply Ec. by rewrite <- Ho.
  - intros [n j] v Hk. rewrite !lookup_var_app. destruct (decide (j = id)) as [->|Hj].
    + specialize (Hv n Hk). destruct Hv as [w w' Hw|]; [intros [= <-]; eauto|]. apply Ev, Hn.
    + rewrite (lookup_var_other id _ F), (lookup_var_other id _ F') by done. apply Ev. by rewrite <- Ho.
Qed.

Lemma fresh_find sub i n : fresh_in sub i -> find_key (n, lam_id i) sub = None.
Proof.
  intros H. induction sub as [|[m j c] sub IH]; [done|]. rewrite find_key_cons, bool_decide_false.
  - apply IH. intros s Hs. apply H. by right.
  - intros [= _ E]. apply (H (Subst m j c)); [by left|by rewrite E].
Qed.

Lemma extends_at_refl sub i : fresh_in sub i -> extends_at (lam_id i) sub sub.
Proof. intros H. split; [done|]. intros n. by apply fresh_find. Qed.

Lemma list_value_rel vs vs' s s' : Forall2 vrel vs vs' -> srel s s' -> with_store vrel (list_value vs s) (list_value vs' s').
Proof.
  intros H. revert s s'. induction H as [|v v' vs vs' Hv _ IH]; intros s s' Hs; cbn; [by split|].
  destruct (IH s s' Hs) as [Hd Ht]. destruct (list_value vs s) as [d t], (list_value vs' s') as [d' t'].
  apply new_obj_rel; [by constructor|done].
Qed.

(** Boxes for variables that are not replaced by constants. *)
Lemma box_vars_rel id sub sv : (forall n, n ∈ sv -> find_key (n, id) sub = None) ->
  forall F F' s s', frel id sub F F' -> srel s s' ->
  osim (fun p q => frel id sub p.1 q.1 /\ srel p.2 q.2) (box_vars id sv F s) (box_vars id sv F' s').
Proof.
  intros Hsv. induction sv as [|n sv IH]; intros F F' s s' HF Hs; cbn [box_vars]; [by apply osim_some|].
  assert (find_key (n, id) sub = None) as Hn by (apply Hsv; left).
  pose proof (frel_var _ _ _ _ HF n Hn) as Hv. destruct Hv as [v v' Hv|]; [|done]. cbn [mbind option_bind].
  destruct (new_obj_rel (OBox v) (OBox v') s s') as [Hb Ht]; [by constructor|done|].
  destruct (new_obj (OBox v) s) as [b t], (new_obj (OBox v') s') as [b' t']. cbn in *.
  apply IH; [intros; apply Hsv; by right| |done].
  destruct HF as [I I' Hc Hr]. split; [by constructor|by constructor| |].
  - intros m c Hm. cbn. rewrite bool_decide_false by congruence. auto.
  - intros m Hm. cbn. case_bool_decide; [by constructor|auto].
Qed.

(** Parameters and values without the constants. *)
Inductive inlined (i : lam_info) : list ident -> list value -> list ident -> list value -> list subst -> list subst -> Prop :=
| inlined_nil sub : inlined i [] [] [] [] sub sub
| inlined_keep p v ps vs ps' vs' sub sub' :
    inlined i ps vs ps' vs' sub sub' -> inlined i (p :: ps) (v :: vs) (p :: ps') (v :: vs') sub sub'
| inlined_drop p c ps vs ps' vs' sub sub' :
    p ∉ lam_sv i -> inlined i ps vs ps' vs' (Subst p (lam_id i) c :: sub) sub' ->
    inlined i (p :: ps) (Word c :: vs) ps' vs' sub sub'.

Lemma inlined_same i ps vs sub : length ps = length vs -> inlined i ps vs ps vs sub sub.
Proof. revert vs. induction ps as [|p ps IH]; intros [|v vs] H; try done; constructor. apply IH. cbn in H. lia. Qed.

Lemma inlined_length i ps vs ps' vs' sub sub' : inlined i ps vs ps' vs' sub sub' -> length ps = length vs /\ length ps' = length vs'.
Proof. induction 1; cbn in *; lia. Qed.

Lemma inlined_subset i ps vs ps' vs' sub sub' : inlined i ps vs ps' vs' sub sub' -> ps' ⊆ ps.
Proof. induction 1; set_solver. Qed.

Lemma inlined_other i ps vs ps' vs' sub sub' k : inlined i ps vs ps' vs' sub sub' ->
  k.2 <> lam_id i \/ k.1 ∉ ps -> find_key k sub' = find_key k sub.
Proof.
  induction 1 as [| |p c ps vs ps' vs' sub sub' Hp _ IH]; intros Hk; [done|apply IHinlined; set_solver|].
  rewrite IH by set_solver. rewrite find_key_cons, bool_decide_false; [done|]. intros ->. cbn in Hk. set_solver.
Qed.

Lemma inlined_frame i ps vs ps' vs' sub sub' vs0 n : inlined i ps vs ps' vs' sub sub' -> NoDup ps ->
  (forall m, m ∈ ps -> find_key (m, lam_id i) sub = None) -> Forall2 vrel vs0 vs -> n ∈ ps ->
  (exists c, find_key (n, lam_id i) sub' = Some c /\ (n ∉ lam_sv i) /\ (n ∉ ps') /\
             lookup_var (n, lam_id i) (frame (lam_id i) ps vs0) = Some (Word c)) \/
  (find_key (n, lam_id i) sub' = None /\
   option_Forall2 vrel (lookup_var (n, lam_id i) (frame (lam_id i) ps vs0)) (lookup_var (n, lam_id i) (frame (lam_id i) ps' vs'))).
Proof.
  intros H. revert vs0. induction H as [|p v ps vs ps' vs' sub sub' Hi IH|p c ps vs ps' vs' sub sub' Hp Hi IH];
    intros vs0 Hnd Hn Hv Hin; [by apply not_elem_of_nil in Hin| |].
  - inversion Hv as [|v0 ? vs1 ? Hv0 Hv1]; subst. apply NoDup_cons in Hnd as [Hpn Hnd]. unfold frame. cbn [map zip zip_with lookup_var].
    destruct (decide (n = p)) as [->|Hne].
    + right. rewrite !bool_decide_true by done. split; [|by constructor].
      rewrite (inlined_other _ _ _ _ _ _ _ _ Hi) by (by right). apply Hn. left.
    + rewrite !bool_decide_false by congruence.
      destruct (IH vs1) as [(c & H1 & H2 & H3 & H4)|[H1 H2]]; [done|intros; apply Hn; by right|done|set_solver| |].
      * left. exists c. split_and!; try done. set_solver.
      * by right.
  - inversion Hv as [|v0 ? vs1 ? Hv0 Hv1]; subst. apply vrel_word_r in Hv0 as ->. apply NoDup_cons in Hnd as [Hpn Hnd].
    unfold frame. cbn [map zip zip_with lookup_var].
    destruct (decide (n = p)) as [->|Hne].
    + left. exists c. rewrite (inlined_other _ _ _ _ _ _ _ _ Hi) by (by right). rewrite find_key_cons, !bool_decide_true by done.
      split_and!; [done|done| |done]. pose proof (inlined_subset _ _ _ _ _ _ _ Hi). set_solver.
    + rewrite !bool_decide_false by congruence. apply IH; [done| |done|set_solver].
      intros m Hm. rewrite find_key_cons, bool_decide_false by (intros [= ->]; set_solver). apply Hn. by right.
Qed.

Definition params_rel (i : lam_info) (sub : list subst) (ps : list ident) (vs : list value) (ps' : list ident) (vs' : list value) : Prop :=
  forall n,
  (exists c, find_key (n, lam_id i) sub = Some c /\ (n ∉ lam_sv i) /\
             lookup_var (n, lam_id i) (frame (lam_id i) ps vs) = Some (Word c)) \/
  (find_key (n, lam_id i) sub = None /\
   option_Forall2 vrel (lookup_var (n, lam_id i) (frame (lam_id i) ps vs)) (lookup_var (n, lam_id i) (frame (lam_id i) ps' vs'))).

Lemma frame_none id ps vs n : n ∉ ps -> lookup_var (n, id) (frame id ps vs) = None.
Proof.
  revert vs. induction ps as [|p ps IH]; intros [|v vs] Hn; try done. unfold frame. cbn [map zip zip_with lookup_var].
  rewrite bool_decide_false by (intros [= ->]; set_solver). apply IH. set_solver.
Qed.

Lemma frame_rel id ps vs vs' n : Forall2 vrel vs vs' ->
  option_Forall2 vrel (lookup_var (n, id) (frame id ps vs)) (lookup_var (n, id) (frame id ps vs')).
Proof.
  intros H. revert ps. induction H as [|v v' vs vs' Hv _ IH]; intros [|p ps]; try constructor.
  unfold frame. cbn [map zip zip_with lookup_var]. case_bool_decide; [by constructor|apply IH].
Qed.

Lemma frame_ids id ps vs : Forall (fun e => e.1.2 = id) (frame id ps vs).
Proof. revert vs. induction ps as [|p ps IH]; intros [|v vs]; constructor; [done|apply IH]. Qed.

Lemma params_rel_same sub i vs vs' : fresh_in sub i -> Forall2 vrel vs vs' ->
  params_rel i sub (lam_params i) vs (lam_params i) vs'.
Proof. intros Hf Hv n. right. split; [by apply fresh_find|by apply frame_rel]. Qed.

Lemma params_rel_inlined sub sub' i ps' vs vs1 vs' : fresh_in sub i -> NoDup (lam_params i) ->
  inlined i (lam_params i) vs1 ps' vs' sub sub' -> Forall2 vrel vs vs1 -> params_rel i sub' (lam_params i) vs ps' vs'.
Proof.
  intros Hf Hnd Hi Hv n. destruct (decide (n ∈ lam_params i)) as [Hn|Hn].
  - destruct (inlined_frame _ _ _ _ _ _ _ vs n Hi Hnd) as [(c & H1 & H2 & _ & H3)|[H1 H2]]; eauto.
    intros. by apply fresh_find.
  - right. rewrite (inlined_other _ _ _ _ _ _ _ _ Hi) by (by right). split; [by apply fresh_find|].
    rewrite !frame_none; [constructor| |done]. intros Hn'. by apply (inlined_subset _ _ _ _ _ _ _ Hi) in Hn'.
Qed.

Lemma enter_rel i sub ps' a a' r r' s s' :
  params_rel i sub (lam_params i) a ps' a' -> length a = length (lam_params i) -> length a' = length ps' ->
  Forall2 vrel r r' -> srel s s' ->
  osim (fun p q => frel (lam_id i) sub p.1 q.1 /\ srel p.2 q.2) (enter i (a ++ r) s) (enter (with_params i ps') (a' ++ r') s').
Proof.
  intros Hp Hla Hla' Hr Hs. unfold enter. cbn [lam_params lam_rest lam_locals lam_sv lam_id with_params].
  rewrite <- Hla, <- Hla', !take_app_length, !drop_app_length, !length_app, <- (Forall2_length _ _ _ Hr).
  set (T := map (fun x => ((x, lam_id i), Word SEXP_UNDEF)) (lam_locals i)).
  assert (Forall (fun e => e.1.2 = lam_id i) T) as HT by (apply Forall_fmap, Forall_true; done).
  apply (osim_bind (fun p q : scope * store => (Forall (fun e => e.1.2 = lam_id i) p.1 /\ Forall (fun e => e.1.2 = lam_id i) q.1 /\
    forall n, option_Forall2 vrel (lookup_var (n, lam_id i) p.1) (lookup_var (n, lam_id i) q.1)) /\ srel p.2 q.2)).
  - destruct (lam_rest i) as [x|].
    + rewrite (proj2 (Nat.leb_le (length a) (length a + length r)) ltac:(lia)), (proj2 (Nat.leb_le (length a') (length a' + length r)) ltac:(lia)).
      destruct (list_value_rel r r' s s' Hr Hs) as [Hv Ht]. destruct (list_value r s) as [v t], (list_value r' s') as [v' t'].
      apply osim_some. split; [|exact Ht]. split_and!; [by repeat constructor..|]. intros n. cbn.
      case_bool_decide; by constructor.
    + replace (length a' + length r =? length a')%nat with (length a + length r =? length a)%nat
        by (destruct (Nat.eqb_spec (length a + length r) (length a)), (Nat.eqb_spec (length a' + length r) (length a')); done || lia).
      apply osim_if; [|done]. apply osim_some. split; [|done]. split_and!; [constructor..|]. intros n. constructor.
  - intros [e t] [e' t'] [(H1 & H2 & H3) Ht]. cbn [fst snd] in *. apply box_vars_rel; [|split|done].
    + intros n Hn. destruct (Hp n) as [(c & _ & Hsv & _)|[H _]]; [by destruct Hsv|done].
    + apply Forall_app. split; [apply frame_ids|by apply Forall_app].
    + apply Forall_app. split; [apply frame_ids|by apply Forall_app].
    + intros n c Hc. rewrite lookup_var_app. destruct (Hp n) as [(c' & Hc' & _ & ->)|[H _]]; congruence.
    + intros n Hn. rewrite !lookup_var_app. destruct (Hp n) as [(c' & Hc' & _)|[_ H]]; [congruence|].
      destruct H; [by constructor|]. destruct (H3 n); [by constructor|]. destruct (lookup_var _ T); constructor. reflexivity.
Qed.

(** ** Simulation *)

Lemma osim_trans {A} (R : A -> A -> Prop) m1 m2 m3 : Transitive R -> osim R m1 m2 -> osim R m2 m3 -> osim R m1 m3.
Proof. intros HR H1 H2 a Ha. destruct (H1 a Ha) as (b & Hb & ?). destruct (H2 b Hb) as (c & Hc & ?). eauto. Qed.

#[local] Instance with_store_trans : Transitive (with_store vrel).
Proof. intros p q r [H1 H2] [H3 H4]. split; (etransitivity; eassumption). Qed.

Definition sim_at (n : nat) : Prop :=
  forall sub x x', simp sub x x' -> forall rho rho' s s', erel sub rho rho' -> srel s s' ->
  osim (with_store vrel) (ieval n rho s x) (ieval n rho' s' x').

Lemma with_same_params i : with_params i (lam_params i) = i.
Proof. by destruct i. Qed.

Lemma enter_same sub i vs vs' s s' : fresh_in sub i -> Forall2 vrel vs vs' -> srel s s' ->
  osim (fun p q => frel (lam_id i) sub p.1 q.1 /\ srel p.2 q.2) (enter i vs s) (enter i vs' s').
Proof.
  intros Hf Hv Hs. destruct (decide (length (lam_params i) <= length vs)%nat) as [Hl|Hl].
  - pose proof (Forall2_length _ _ _ Hv) as Hlen. set (k := length (lam_params i)) in *.
    pose proof (enter_rel i sub (lam_params i) (take k vs) (take k vs') (drop k vs) (drop k vs') s s') as H.
    rewrite with_same_params, !take_drop in H. apply H; [|rewrite length_take; lia..|by apply Forall2_drop|done].
    apply params_rel_same; [done|by apply Forall2_take].
  - unfold enter. destruct (lam_rest i).
    + rewrite (proj2 (Nat.leb_gt (length (lam_params i)) (length vs))) by lia. done.
    + rewrite (proj2 (Nat.eqb_neq (length vs) (length (lam_params i)))) by lia. done.
Qed.

(** The body of a call, in the two environments. *)
Lemma body_sim n sub sub' i b b' rho rho' e e' :
  sim_at n -> simp sub' b b' -> erel sub rho rho' -> extends_at (lam_id i) sub sub' ->
  osim (fun p q => frel (lam_id i) sub' p.1 q.1 /\ srel p.2 q.2) e e' ->
  osim (with_store vrel) ('(new, s) ← e; ieval n (new ++ rho) s b) ('(new, s) ← e'; ieval n (new ++ rho') s b').
Proof.
  intros Hn Hb He Hx Hsim. eapply osim_bind; [exact Hsim|]. intros [F t] [F' t'] [HF Ht]. cbn [fst snd] in *.
  eapply Hn; [exact Hb| |exact Ht]. by eapply frel_erel.
Qed.

Lemma apply_sim n : sim_at n -> forall c c', vrel c c' -> forall vs vs' s s', Forall2 vrel vs vs' -> srel s s' ->
  osim (with_store vrel) (iapply n c vs s) (iapply n c' vs' s').
Proof.
  intros Hn c c' H. induction H as [w|l|sub i b b' rho rho' Hf Hb Hc Hv|v1 v2 v3 _ IH1 _ IH2]; intros vs vs' s s' Hvs Hs.
  - done.
  - done.
  - cbn [Source.iapply]. eapply body_sim; [done|exact Hb|by split|by apply extends_at_refl|by apply enter_same].
  - eapply osim_trans; [apply _|apply (IH1 vs vs s s)|by apply IH2]; reflexivity.
Qed.

Lemma evals_sim n sub ls ls' : sim_at n -> Forall2 (simp sub) ls ls' -> forall rho rho' s s', erel sub rho rho' -> srel s s' ->
  osim (with_store (Forall2 vrel)) (evals (ieval n rho) ls s) (evals (ieval n rho') ls' s').
Proof.
  intros Hn H rho rho' s s' He Hs. induction H as [|x x' ls ls' Hx _ IH]; cbn [evals]; [apply osim_some; split; [constructor|done]|].
  eapply osim_bind; [exact IH|]. intros [vs t] [vs' t'] [Hvs Ht]. cbn [fst snd] in *.
  eapply osim_bind; [by eapply Hn|]. intros [v t1] [v' t1'] [Hv Ht1]. apply osim_some. split; [by constructor|done].
Qed.

Lemma evseq_sim n sub rho rho' ls ls' : sim_at n -> erel sub rho rho' -> Forall2 (simp sub) ls ls' ->
  forall x x' s s', simp sub x x' -> srel s s' ->
  osim (with_store vrel) (evseq (ieval n rho) x ls s) (evseq (ieval n rho') x' ls' s').
Proof.
  intros Hn He H. induction H as [|y y' ls ls' Hy _ IH]; intros x x' s s' Hx Hs; cbn [evseq]; [by eapply Hn|].
  eapply osim_bind; [by eapply Hn|]. intros [v t] [v' t'] [_ Ht]. by apply IH.
Qed.

(** Dropped forms have no effect. *)
Lemma droppable_pure n rho s x v t : droppable x = true -> ieval n rho s x = Some (v, t) -> t = s.
Proof.
  destruct n; [done|]. destruct x as [| |[name [c|i]]| | | | | |]; try done; intros _ H; cbn [Source.ieval] in H.
  - congruence.
  - split_binds H. case_match; congruence.
  - split_binds H. congruence.
  - congruence.
Qed.

Lemma drop_forms_sim n rho ls : forall x s r, evseq (ieval n rho) x ls s = Some r ->
  exists y ys, drop_forms (x :: ls) = y :: ys /\ evseq (ieval n rho) y ys s = Some r.
Proof.
  induction ls as [|z ls IH]; intros x s r H; [by exists x, []|].
  cbn [evseq] in H. split_binds H. destruct (IH _ _ _ H) as (y & ys & Hd & Hev).
  change (drop_forms (x :: z :: ls)) with (if droppable x then drop_forms (z :: ls) else x :: drop_forms (z :: ls)).
  rewrite Hd. destruct (droppable x) eqn:Ex.
  - apply (droppable_pure _ _ _ _ _ _ Ex) in E as ->. eauto.
  - exists x, (y :: ys). split; [done|]. cbn [evseq]. by rewrite E.
Qed.

Lemma make_seq_sim n rho s ls r : ieval (S n) rho s (Seq ls) = Some r -> ieval (S n) rho s (make_seq ls) = Some r.
Proof.
  destruct ls as [|x ls]; [done|]. cbn [Source.ieval]. intros H.
  destruct (drop_forms_sim _ _ _ _ _ _ H) as (y & ys & Hd & Hev). unfold make_seq. rewrite Hd.
  destruct ys as [|z ys]; [by apply ieval_S|done].
Qed.

(** The operands that stay have the values that stay. *)
Lemma inline_values n rho i : forall ps args sub s vs t ps' args' sub',
  length args = length ps -> evals (ieval n rho) args s = Some (vs, t) -> inline_params i ps args sub = (ps', args', sub') ->
  exists vs', evals (ieval n rho) args' s = Some (vs', t) /\ inlined i ps vs ps' vs' sub sub'.
Proof.
  induction ps as [|p ps IH]; intros [|a args] sub s vs t ps' args' sub' Hl He Hi; try done.
  { injection Hi as <- <- <-. injection He as <- <-. exists []. split; [done|constructor]. }
  injection Hl as Hl. cbn [evals] in He. split_binds He. injection He as <- <-. cbn [inline_params] in Hi.
  assert (forall q, (let '(ps, args, substs) := inline_params i ps args sub in (p :: ps, a :: args, substs)) = q ->
    q = (ps', args', sub') -> exists vs', evals (ieval n rho) args' s = Some (vs', s1) /\ inlined i (p :: ps) (v :: l) ps' vs' sub sub')
    as Hkeep.
  { intros q <- Hq. destruct (inline_params i ps args sub) as [[ps1 args1] sub1] eqn:Ei. injection Hq as <- <- <-.
    destruct (IH _ _ _ _ _ _ _ _ Hl E Ei) as (vs' & H1 & H2). exists (v :: vs'). cbn [evals]. rewrite H1. cbn. rewrite E0.
    split; [done|by constructor]. }
  destruct (constant a) as [c|] eqn:Ec; [|by eapply Hkeep].
  destruct (negb (memq p (lam_sv i))) eqn:Em; [|by eapply Hkeep].
  destruct a; try done. injection Ec as ->. destruct n; [done|]. cbn [Source.ieval] in E0. injection E0 as <- <-.
  destruct (IH _ _ _ _ _ _ _ _ Hl E Hi) as (vs' & H1 & H2). exists vs'. split; [done|]. constructor; [|done].
  apply negb_true_iff in Em. by apply bool_decide_eq_false in Em.
Qed.

Lemma let_sim n sub sub' i b b' rho rho' ps vs vs1 vs2 s s' :
  sim_at n -> fresh_in sub i -> NoDup (lam_params i) -> simp sub' b b' -> erel sub rho rho' ->
  inlined i (lam_params i) vs1 ps vs2 sub sub' -> Forall2 vrel vs vs1 -> srel s s' ->
  osim (with_store vrel) (iapply n (Closure i b rho) vs s) (iapply n (Closure (with_params i ps) b' rho') vs2 s').
Proof.
  intros Hn Hf Hnd Hb He Hi Hvs Hs. cbn [Source.iapply].
  pose proof (inlined_length _ _ _ _ _ _ _ Hi) as [Hl1 Hl2]. pose proof (Forall2_length _ _ _ Hvs) as Hl3.
  eapply body_sim; [done|exact Hb|exact He| |].
  - split; [intros k Hk; apply (inlined_other _ _ _ _ _ _ _ _ Hi); by left|intros m; by apply fresh_find].
  - pose proof (enter_rel i sub' ps vs vs2 [] [] s s') as H. rewrite !app_nil_r in H.
    apply H; [by eapply params_rel_inlined|lia|lia|constructor|done].
Qed.

Lemma ieval_app n rho s f args :
  ieval (S n) rho s (App f args) = '(vs, s) ← evals (ieval n rho) args s; '(c, s) ← ieval n rho s f; iapply n c vs s.
Proof. reflexivity. Qed.

Lemma erel_source sub rho rho' : erel sub rho rho' -> erel sub rho rho.
Proof. intros [Hc _]. split; [done|]. intros k v _ H. exists v. split; [done|reflexivity]. Qed.

Lemma same_var_key r r' sub : same_var r r' -> find_subst (ref_name r) (ref_where r) sub = find_subst (ref_name r') (ref_where r') sub.
Proof. destruct 1 as [n c|n i j Hi _]; cbn [ref_name ref_where]; [done|]. by rewrite !find_subst_key, Hi. Qed.

Lemma ref_sim n sub r r' rho rho' s s' : same_var r r' -> find_subst (ref_name r) (ref_where r) sub = None ->
  erel sub rho rho' -> srel s s' -> osim (with_store vrel) (ieval (S n) rho s (RefE r)) (ieval (S n) rho' s' (RefE r')).
Proof.
  intros [m c|m i j Hi Hsv] Hk [_ Hv] Hs; cbn [Source.ieval ref_name ref_where] in *.
  - pose proof (srel_cells _ _ Hs c) as Hc. destruct Hc as [v v' Hc|]; [|done]. cbn.
    rewrite (undefined_rel _ _ Hc). apply osim_if; [done|]. by apply osim_some.
  - eapply osim_bind; [|intros v v' Hvv; by apply osim_some]. unfold read_variable. rewrite find_subst_key in Hk.
    rewrite <- Hi, <- Hsv. destruct (lookup_var (m, lam_id i) rho) as [v|] eqn:E; [|done].
    destruct (Hv _ _ Hk E) as (v' & -> & Hvv). cbn. apply osim_if; [by apply box_ref_rel|by apply osim_some].
Qed.

Lemma subst_sim n sub r w rho rho' s s' : find_subst (ref_name r) (ref_where r) sub = Some w -> erel sub rho rho' -> srel s s' ->
  osim (with_store vrel) (ieval (S n) rho s (RefE r)) (ieval (S n) rho' s' (Lit w)).
Proof.
  intros Hk [Hc _] Hs. destruct r as [m [c|i]]; cbn [Source.ieval ref_name ref_where] in *.
  { by rewrite find_subst_global in Hk. }
  rewrite find_subst_key in Hk. unfold read_variable. rewrite (Hc _ _ Hk). cbn.
  destruct (memq m (lam_sv i)); [done|]. apply osim_some. by split; [constructor|].
Qed.

Lemma set_sim n sub r r' x x' rho rho' s s' : sim_at n -> same_var r r' -> simp sub x x' -> erel sub rho rho' -> srel s s' ->
  osim (with_store vrel) (ieval (S n) rho s (SetE r x)) (ieval (S n) rho' s' (SetE r' x')).
Proof.
  intros Hn [m c|m i j Hi Hsv] Hx He Hs; cbn [Source.ieval];
    (eapply osim_bind; [by eapply Hn|]; intros [v t] [v' t'] [Hv Ht]; cbn [fst snd] in * ).
  - pose proof (srel_cells _ _ Ht c) as Hc. destruct Hc as [o o' Ho|]; [|done]. cbn.
    rewrite (undefined_rel _ _ Ho). apply osim_if; [done|]. apply osim_some. split; [constructor|by apply set_cell_rel].
  - rewrite <- Hi, <- Hsv. apply osim_if; [|done]. destruct (lookup_var (m, lam_id i) rho) as [b|] eqn:E; [|done].
    destruct (find_key (m, lam_id i) sub) as [w|] eqn:Ek.
    + destruct He as [Hc _]. rewrite (Hc _ _ Ek) in E. injection E as <-. done.
    + destruct (erel_var _ _ _ He _ _ Ek E) as (b' & -> & Hb). cbn [mbind option_bind].
      eapply osim_bind; [by apply (box_set_rel t t' Ht v v' Hv)|]. intros. apply osim_some. split; [constructor|done].
Qed.

(** What a constant says about the tree it replaces. *)
Lemma constant_sim n sub t w rho rho' s s' v s1 : sim_at n -> simp sub t (Lit w) -> erel sub rho rho' -> srel s s' ->
  ieval n rho s t = Some (v, s1) -> v = Word w /\ srel s1 s'.
Proof.
  intros Hn Ht He Hs H. destruct (Hn _ _ _ Ht _ _ _ _ He Hs _ H) as ([v' s1'] & H' & [Hv Hs1]).
  destruct n; [done|]. injection H' as <- <-. split; [by apply vrel_word_r|done].
Qed.

Lemma self_sim n sub t w rho s v s1 : sim_at n -> simp sub t (Self w) -> erel sub rho rho ->
  ieval n rho s t = Some (v, s1) -> v = Word w.
Proof.
  intros Hn Ht He H. destruct (Hn _ _ _ Ht _ _ _ _ He (reflexivity s) _ H) as ([v' s1'] & H' & [Hv _]).
  destruct n; [done|]. injection H' as <- <-. by apply vrel_word_r.
Qed.

Lemma constants_sim n sub args ws rho rho' s s' vs s1 : sim_at n -> Forall2 (simp sub) args (map Lit ws) -> erel sub rho rho' ->
  srel s s' -> evals (ieval n rho) args s = Some (vs, s1) -> vs = map Word ws /\ srel s1 s'.
Proof.
  intros Hn H He Hs. revert args vs s1 H. induction ws as [|w ws IH]; intros args vs s1 H Hev; cbn in H.
  { inversion H; subst. injection Hev as <- <-. done. }
  inversion H as [|x ? args1 ? Hx Hargs]; subst. cbn [evals] in Hev. split_binds Hev. injection Hev as <- <-.
  destruct (IH _ _ _ Hargs E) as [-> Ht]. destruct (constant_sim _ _ _ _ _ _ _ _ _ _ Hn Hx He Ht E0) as [-> Ht']. done.
Qed.

Lemma call_again n sub i fv f b rho rho' vs t m' :
  sim_at n -> simp sub f (Lambda i fv b) -> erel sub rho rho' ->
  osim (with_store vrel) (iapply n (Closure i b rho) vs t) m' ->
  osim (with_store vrel) ('(c, s) ← ieval n rho t f; iapply n c vs s) m'.
Proof.
  intros Hn Hf He Hm r H. split_binds H.
  destruct (Hn _ _ _ Hf _ _ _ _ (erel_source _ _ _ He) (reflexivity t) _ E) as ([c t1] & H' & [Hc Ht]).
  destruct n; [done|]. injection H' as <- <-. cbn [fst snd] in *.
  eapply osim_trans; [apply _| |exact Hm|exact H]. by eapply apply_sim.
Qed.

Lemma lambda_call n rho i fv b vs t m' : osim (with_store vrel) (iapply n (Closure i b rho) vs t) m' ->
  osim (with_store vrel) ('(c, s) ← ieval n rho t (Lambda i fv b); iapply n c vs s) m'.
Proof. by destruct n. Qed.

(** A call with constants for parameters. *)
Lemma inline_call n sub sub' i fv f b b' args args' args'' ps rho rho' s s' :
  sim_at n -> fresh_in sub i -> NoDup (lam_params i) -> Forall2 (simp sub) args args' -> length args' = length (lam_params i) ->
  inline_params i (lam_params i) args' sub = (ps, args'', sub') -> simp sub' b b' -> erel sub rho rho' -> srel s s' ->
  (forall vs t m', osim (with_store vrel) (iapply n (Closure i b rho) vs t) m' ->
     osim (with_store vrel) ('(c, s) ← ieval n rho t f; iapply n c vs s) m') ->
  osim (with_store vrel) (ieval (S n) rho s (App f args)) (ieval (S n) rho' s' (App (Lambda (with_params i ps) fv b') args'')).
Proof.
  intros Hn Hf Hnd Hargs Hlen Hi Hb He Hs Hcall. rewrite !ieval_app. intros r H. split_bind H.
  match type of E with _ = Some (?a, ?b) => rename a into vs, b into t end.
  destruct (evals_sim _ _ _ _ Hn Hargs _ _ _ _ He Hs _ E) as ([vs1 t'] & H1 & [Hvs Ht]). cbn [fst snd] in *.
  destruct (inline_values _ _ _ _ _ _ _ _ _ _ _ _ Hlen H1 Hi) as (vs2 & H2 & Hin). rewrite H2. cbn [mbind option_bind].
  destruct n; [done|]. cbn [Source.ieval mbind option_bind].
  eapply (Hcall vs t); [|exact H]. by eapply let_sim.
Qed.

Lemma simp_sim n : sim_at n.
Proof.
  induction n as [|n IH]; [intros ???????????; done|].
  intros sub x x' Hx rho rho' s s' He Hs.
  destruct Hx as [| | | | | |sub t w p f x Ht Hx|sub ls ls' Hls|sub ls ls' Hls| | |sub f w args y Hf| |sub l op args ws v Hargs Hfold|
    |sub sub' i fv f b b' args args' args'' ps Hl|sub i fv f b b' args args' Hl Hfresh Hargs Hb].
  - apply osim_some. by split; [constructor|].
  - apply osim_some. by split; [constructor|].
  - by eapply subst_sim.
  - by eapply ref_sim.
  - by eapply set_sim.
  - cbn [Source.ieval]. eapply osim_bind; [by eapply IH|]. intros [v t0] [v' t0'] [Hv Ht]. cbn [fst snd] in *.
    rewrite (is_false_rel _ _ Hv). destruct (is_false v'); by eapply IH.
  - cbn [Source.ieval]. intros r H. split_binds H.
    destruct (constant_sim _ _ _ _ _ _ _ _ _ _ IH Ht He Hs E) as [-> Ht']. cbn [is_false] in H.
    destruct (IH _ _ _ Hx _ _ _ _ He Ht' _ H) as (r' & H' & Hr). exists r'. split; [by apply ieval_S|done].
  - cbn [Source.ieval]. destruct Hls as [|x x' ls ls' Hx Hls]; [done|]. by eapply evseq_sim.
  - intros r H. cut (exists r', ieval (S n) rho' s' (Seq ls') = Some r' /\ with_store vrel r r').
    { intros (r' & H' & Hr). exists r'. split; [by apply make_seq_sim|done]. }
    revert r H. cbn [Source.ieval]. destruct Hls as [|x x' ls ls' Hx Hls]; [done|]. intros r H.
    by eapply evseq_sim.
  - cbn [Source.ieval]. apply osim_some. split; [|done]. destruct He. by apply vrel_closure with sub.
  - rewrite !ieval_app. eapply osim_bind; [by eapply evals_sim|]. intros [vs t] [vs' t'] [Hvs Ht]. cbn [fst snd] in *.
    eapply osim_bind; [by eapply IH|]. intros [c t1] [c' t1'] [Hc Ht1]. by apply apply_sim.
  - rewrite ieval_app. intros r H. split_binds H.
    by rewrite (self_sim _ _ _ _ _ _ _ _ IH Hf (erel_source _ _ _ He) E0) in H.
  - cbn [Source.ieval]. eapply osim_bind; [by eapply evals_sim|]. intros [vs t] [vs' t'] [Hvs Ht]. by apply vop_rel.
  - cbn [Source.ieval]. intros r H. split_binds H.
    destruct (constants_sim _ _ _ _ _ _ _ _ _ _ IH Hargs He Hs E) as [-> Ht]. destruct r as [u t1].
    destruct (Hfold _ _ _ H) as [-> ->]. exists (Word v, s'). split; [done|]. by split; [constructor|].
  - eapply inline_call; eauto. intros. by apply lambda_call.
  - eapply inline_call; eauto. intros. by eapply call_again.
  - rewrite !ieval_app. eapply osim_bind; [by eapply evals_sim|]. intros [vs t] [vs' t'] [Hvs Ht]. cbn [fst snd] in *.
    destruct n; [done|]. eapply call_again; [done|exact Hl|exact He|]. apply (apply_sim _ IH); [|done|done].
    destruct He. by apply vrel_closure with sub.
Qed.

End laws.
