(* ===== verification/SimplifyLaws.v ===== *)
(** * The simplifier and the compiler

    The pass of [simplify.c] stays inside the relation of [SimplifySim], ends
    after as many levels as the tree has nodes, and folds what the machine
    computes. *)
From S2P Require Import Prelude Bignum Numbers Heap Ast Codegen Vm Semantics Code Simulation Compiler Scope Toplevel Frame Source Simplify SimplifySim.
From stdpp Require Import base list option gmap.
#[local] Open Scope Z_scope.

(** ** Trees as the analyzer makes them *)

Fixpoint size (x : ast) : nat :=
  match x with
  | Lit _ | Self _ | RefE _ => 1
  | SetE _ v => S (size v)
  | Cnd t p f => S (size t + size p + size f)
  | Seq ls => S (sum_list_with size ls)
  | Lambda _ _ b => S (size b)
  | App f args => S (size f + sum_list_with size args)
  | OpApp _ _ args => S (sum_list_with size args)
  end%nat.

(** [svs] tells the assigned variables of a lambda, the same for all references
    to it; parameters are distinct, and applications have at most 55 operands. *)
Definition agrees (svs : positive -> list ident) (i : lam_info) : bool := bool_decide (lam_sv i = svs (lam_id i)).

Definition ref_agrees (svs : positive -> list ident) (r : ref) : bool :=
  match ref_where r with Within i => agrees svs i | Global _ => true end.

Fixpoint tidy (svs : positive -> list ident) (x : ast) : bool :=
  match x with
  | Lit _ | Self _ => true
  | RefE r => ref_agrees svs r
  | SetE r v => ref_agrees svs r && tidy svs v
  | Cnd t p f => tidy svs t && tidy svs p && tidy svs f
  | Seq ls => forallb (tidy svs) ls
  | Lambda i _ b => agrees svs i && bool_decide (NoDup (lam_params i)) && tidy svs b
  | App f args => (length args <=? 55)%nat && tidy svs f && forallb (tidy svs) args
  | OpApp _ _ args => (length args <=? 55)%nat && forallb (tidy svs) args
  end.

(** ** What folding promises *)

Class Folding (constants : heap) (fold : heap -> sexp -> opcode -> list ast -> option sexp * heap) (I : heap -> Prop) := {
  folding_keeps : forall h l op ws v h', I h -> fold h l op (map Lit ws) = (v, h') -> I h';
  folding_ok : forall h l op ws v h', I h -> op_class_of op = OPC_ARITHMETIC -> (length ws <= 55)%nat ->
    fold h l op (map Lit ws) = (Some v, h') -> folds constants op ws v;
}.

Section pass.
Context (constants : heap) (fold : heap -> sexp -> opcode -> list ast -> option sexp * heap) (I : heap -> Prop).
Context `{!Folding constants fold I} (svs : positive -> list ident).

#[local] Abbreviation simp := (simp constants).

(** The result is related, not larger, and made of the same lambdas. *)
Record passes (sub : list subst) (x x' : ast) : Prop := Passes {
  pa_simp : simp sub x x';
  pa_size : (size x' <= size x)%nat;
  pa_tidy : tidy svs x' = true;
  pa_ids : lambda_ids x' `sublist_of` lambda_ids x;
}.

Record passes_list (sub : list subst) (ls ls' : list ast) : Prop := PassesList {
  pl_simp : Forall2 (simp sub) ls ls';
  pl_size : (sum_list_with size ls' <= sum_list_with size ls)%nat;
  pl_tidy : forallb (tidy svs) ls' = true;
  pl_ids : flat_map lambda_ids ls' `sublist_of` flat_map lambda_ids ls;
}.

Definition fresh_for (sub : list subst) (ids : list positive) : Prop := forall s, s ∈ sub -> su_lambda s ∉ ids.

Record ready (fuel : nat) (x : ast) (sub : list subst) (changed : list lam_info) (lambda : bool) (h : heap) : Prop := Ready {
  re_size : (size x <= fuel)%nat;
  re_tidy : tidy svs x = true;
  re_ids : NoDup (lambda_ids x);
  re_fresh : fresh_for sub (lambda_ids x);
  re_changed : Forall (fun j => agrees svs j = true) changed;
  re_lambda : lambda = false -> sub = [];
  re_inv : I h;
}.

Definition passing (fuel : nat) : Prop := forall x sub changed lambda h, ready fuel x sub changed lambda h ->
  passes sub x (simplify fold fuel x sub changed lambda h).1 /\ I (simplify fold fuel x sub changed lambda h).2.

Lemma fresh_for_mono sub ids ids' : fresh_for sub ids -> ids' ⊆ ids -> fresh_for sub ids'.
Proof. intros H Hs s Hin Hid. exact (H s Hin (Hs _ Hid)). Qed.

Lemma sublist_subseteq {A} (l k : list A) : l `sublist_of` k -> l ⊆ k.
Proof. intros H x Hx. by eapply elem_of_submseteq, sublist_submseteq. Qed.

(** ** Parts of trees *)

Lemma current_agrees changed i : Forall (fun j => agrees svs j = true) changed -> agrees svs i = true ->
  agrees svs (current changed i) = true /\ lam_id (current changed i) = lam_id i.
Proof. induction 1 as [|j changed Hj _ IH]; intros Hi; cbn; [done|]. case_bool_decide; auto. Qed.

Lemma current_ref_same changed r : Forall (fun j => agrees svs j = true) changed -> ref_agrees svs r = true ->
  same_var r (current_ref changed r) /\ ref_agrees svs (current_ref changed r) = true.
Proof.
  intros Hc. destruct r as [n [c|i]]; unfold ref_agrees, current_ref; cbn [ref_where ref_name]; intros Hi; [by split; [constructor|]|].
  destruct (current_agrees changed i Hc Hi) as [Ha Hid]. split; [|done]. constructor; [done|].
  unfold agrees in *. apply bool_decide_eq_true in Hi, Ha. congruence.
Qed.

Lemma drop_forms_sublist ls : drop_forms ls `sublist_of` ls.
Proof.
  induction ls as [|x [|y ls] IH]; [constructor|reflexivity|].
  change (drop_forms (x :: y :: ls)) with (if droppable x then drop_forms (y :: ls) else x :: drop_forms (y :: ls)).
  destruct (droppable x); [by apply sublist_cons|by apply sublist_skip].
Qed.

Lemma sum_list_sublist ls ls' : ls `sublist_of` ls' -> (sum_list_with size ls <= sum_list_with size ls')%nat.
Proof. induction 1; cbn; lia. Qed.

Lemma flat_map_sublist ls ls' : ls `sublist_of` ls' -> flat_map lambda_ids ls `sublist_of` flat_map lambda_ids ls'.
Proof. induction 1; cbn; [constructor|by apply sublist_app|by apply sublist_inserts_l]. Qed.

Lemma tidy_sublist ls ls' : ls `sublist_of` ls' -> forallb (tidy svs) ls' = true -> forallb (tidy svs) ls = true.
Proof. induction 1 as [|x l k _ IH|x l k _ IH]; cbn; [done|intros [Hx Hl]%andb_prop; by rewrite Hx, IH|intros [_ Hl]%andb_prop; auto]. Qed.

Lemma make_seq_passes sub ls ls' : passes_list sub ls ls' -> passes sub (Seq ls) (make_seq ls').
Proof.
  intros [H1 H2 H3 H4]. pose proof (drop_forms_sublist ls') as Hd.
  split; [by apply simp_make_seq| | |]; unfold make_seq; destruct (drop_forms ls') as [|x [|y ls1]] eqn:E;
    pose proof (sum_list_sublist _ _ Hd) as Hz; pose proof (tidy_sublist _ _ Hd H3) as Ht; pose proof (flat_map_sublist _ _ Hd) as Hi;
    cbn [size tidy lambda_ids flat_map forallb sum_list_with] in *; try lia; try done.
  - by rewrite andb_true_r in Ht.
  - apply sublist_nil_l.
  - rewrite app_nil_r in Hi. by etransitivity.
  - by etransitivity.
Qed.

(** ** The children of a tree *)

Lemma simplify_list_passes fuel sub changed lambda : passing fuel -> forall ls h,
  (sum_list_with size ls <= fuel)%nat -> forallb (tidy svs) ls = true -> NoDup (flat_map lambda_ids ls) ->
  fresh_for sub (flat_map lambda_ids ls) -> Forall (fun j => agrees svs j = true) changed -> (lambda = false -> sub = []) -> I h ->
  passes_list sub ls (simplify_list (fun y => simplify fold fuel y sub changed lambda) ls h).1 /\
  I (simplify_list (fun y => simplify fold fuel y sub changed lambda) ls h).2.
Proof.
  intros Hp ls. induction ls as [|x ls IH]; intros h Hz Ht Hn Hf Hc Hl Hi; cbn [simplify_list]; [by repeat constructor|].
  cbn [sum_list_with forallb flat_map] in *. apply andb_prop in Ht as [Ht1 Ht2]. apply NoDup_app in Hn as (Hn1 & _ & Hn2).
  destruct (Hp x sub changed lambda h) as [Hx Hh].
  { split; try done; [lia|]. eapply fresh_for_mono; [exact Hf|set_solver]. }
  destruct (simplify fold fuel x sub changed lambda h) as [x' h1]. cbn [fst snd] in *.
  destruct (IH h1) as [Hls Hh1]; try done; [lia|eapply fresh_for_mono; [exact Hf|set_solver]|].
  destruct (simplify_list _ ls h1) as [ls' h2]. cbn [fst snd] in *. split; [|done].
  destruct Hx as [X1 X2 X3 X4], Hls as [L1 L2 L3 L4]. split; cbn [sum_list_with forallb flat_map]; [by constructor|lia|by rewrite X3|by apply sublist_app].
Qed.

Lemma inline_facts i : forall ps args sub ps' args' sub', inline_params i ps args sub = (ps', args', sub') ->
  ps' `sublist_of` ps /\ args' `sublist_of` args /\ (forall s, s ∈ sub' -> s ∈ sub \/ su_lambda s = lam_id i).
Proof.
  induction ps as [|p ps IH]; intros [|a args] sub ps' args' sub' H; cbn [inline_params] in H;
    try (injection H as <- <- <-; split_and!; auto; fail).
  assert (forall q, (let '(ps, args, substs) := inline_params i ps args sub in (p :: ps, a :: args, substs)) = q ->
    q = (ps', args', sub') -> ps' `sublist_of` p :: ps /\ args' `sublist_of` a :: args /\
    (forall s, s ∈ sub' -> s ∈ sub \/ su_lambda s = lam_id i)) as Hkeep.
  { intros q <- Hq. destruct (inline_params i ps args sub) as [[ps1 args1] sub1] eqn:E. injection Hq as <- <- <-.
    destruct (IH _ _ _ _ _ E) as (H1 & H2 & H3). split_and!; [by apply sublist_skip|by apply sublist_skip|done]. }
  destruct (constant a); [|by eapply Hkeep]. destruct (negb _); [|by eapply Hkeep].
  destruct (IH _ _ _ _ _ H) as (H1 & H2 & H3). split_and!; [by apply sublist_cons|by apply sublist_cons|].
  intros s' Hs. destruct (H3 s' Hs) as [[->|Hin]%elem_of_cons|Hid]; auto.
Qed.

Lemma constants_map args : forallb (fun a => match constant a with Some _ => true | None => false end) args = true ->
  exists ws, args = map Lit ws.
Proof.
  induction args as [|a args IH]; cbn; [by exists []|]. intros [Ha Hargs]%andb_prop. destruct (IH Hargs) as (ws & ->).
  destruct a; try done. by exists (v :: ws).
Qed.

(** ** Applications *)

Lemma simplify_op_spec l op args h : (length args <= 55)%nat -> forallb (tidy svs) args = true -> I h ->
  let '(y, h') := simplify_op fold l op args h in
  I h' /\ (size y <= S (sum_list_with size args))%nat /\ tidy svs y = true /\ lambda_ids y `sublist_of` flat_map lambda_ids args /\
  (y = OpApp l op args \/ exists ws v, args = map Lit ws /\ y = Lit v /\ folds constants op ws v).
Proof.
  intros Hlen Ht Hi. unfold simplify_op.
  assert (tidy svs (OpApp l op args) = true) as Htidy.
  { cbn [tidy]. rewrite Ht, andb_true_r. by apply Nat.leb_le. }
  destruct (bool_decide (op_class_of op = OPC_ARITHMETIC) && _) eqn:E; [|split_and!; auto].
  apply andb_prop in E as [Hc%bool_decide_eq_true Hargs]. destruct (constants_map args Hargs) as (ws & ->).
  destruct (fold h l op (map Lit ws)) as [[v|] h'] eqn:Ef.
  - rewrite length_map in Hlen. split_and!; [by eapply folding_keeps|cbn; lia|done|apply sublist_nil_l|].
    right. exists ws, v. split_and!; [done|done|]. by eapply folding_ok.
  - split_and!; auto. by eapply folding_keeps.
Qed.

Lemma params_length_inv i n : params_length i = Some n -> n = length (lam_params i).
Proof. unfold params_length. destruct (lam_params i), (lam_rest i); congruence. Qed.

(** A call of the lambda [i]: its body, simplified with what is known of it. *)
Lemma let_passes fuel sub changed i fv b args h : passing fuel ->
  (size b <= fuel)%nat -> tidy svs (Lambda i fv b) = true -> NoDup (lambda_ids (Lambda i fv b)) ->
  fresh_for sub (lambda_ids (Lambda i fv b)) -> Forall (fun j => agrees svs j = true) changed -> I h ->
  let '(ps, args', sub') :=
    if bool_decide (params_length i = Some (length args)) then inline_params i (lam_params i) args sub else (lam_params i, args, sub) in
  let '(b', h') := simplify fold fuel b sub' (with_params i ps :: changed) true h in
  I h' /\ passes sub' b b' /\ args' `sublist_of` args /\ tidy svs (Lambda (with_params i ps) fv b') = true /\ fresh_in sub i /\
  NoDup (lam_params i) /\
  (length args = length (lam_params i) /\ inline_params i (lam_params i) args sub = (ps, args', sub') \/
   ps = lam_params i /\ args' = args /\ sub' = sub).
Proof.
  intros Hp Hz Ht Hn Hf Hc Hi. cbn [tidy lambda_ids] in Ht, Hn, Hf.
  apply andb_prop in Ht as [[Ha Hps%bool_decide_eq_true]%andb_prop Hb]. apply NoDup_cons in Hn as [Hin Hn].
  set (q := if bool_decide _ then _ else _).
  assert (exists ps args' sub', q = (ps, args', sub') /\ ps `sublist_of` lam_params i /\ args' `sublist_of` args /\
    (forall s, s ∈ sub' -> s ∈ sub \/ su_lambda s = lam_id i) /\
    (length args = length (lam_params i) /\ inline_params i (lam_params i) args sub = (ps, args', sub') \/
     ps = lam_params i /\ args' = args /\ sub' = sub)) as (ps & args' & sub' & -> & H1 & H2 & H3 & H4).
  { subst q. destruct (bool_decide _) eqn:E.
    - apply bool_decide_eq_true, params_length_inv in E. destruct (inline_params i (lam_params i) args sub) as [[ps args'] sub'] eqn:Ei.
      exists ps, args', sub'. destruct (inline_facts _ _ _ _ _ _ _ Ei) as (? & ? & ?). split_and!; auto.
    - exists (lam_params i), args, sub. split_and!; auto. }
  destruct (Hp b sub' (with_params i ps :: changed) true h) as [Hpb Hh].
  { split; try done.
    - intros s Hs. destruct (H3 s Hs) as [Hs'| ->]; [|done]. intros Hid. apply (Hf s Hs'). by right.
    - constructor; [|done]. unfold agrees in *. done. }
  destruct (simplify fold fuel b sub' _ true h) as [b' h']. cbn [fst snd] in *. split_and!; try done.
  - cbn [tidy with_params lam_params]. rewrite (pa_tidy _ _ _ Hpb), andb_true_r. apply andb_true_intro. split; [exact Ha|].
    apply bool_decide_eq_true. by eapply sublist_NoDup.
  - intros s Hs Hid. apply (Hf s Hs). rewrite Hid. by left.
Qed.

Lemma make_app_other h f args : (forall v, f <> Self v) -> make_app h f args = App f args.
Proof. intros H. destruct f; try done. by destruct (H v). Qed.

(** The application [App f args] when the operator is [f1] and the operands are
    [args1]: a part of [simplify]. *)
Definition finish_app (fuel : nat) (f1 : ast) (args1 : list ast) (sub : list subst) (changed : list lam_info) (lambda : bool) (h : heap)
    : ast * heap :=
  match make_app h f1 args1 with
  | OpApp l op args => simplify_op fold l op args h
  | App (Lambda i fv b) args =>
      if lambda then
        let '(ps, args, substs) :=
          if bool_decide (params_length i = Some (length args)) then inline_params i (lam_params i) args sub
          else (lam_params i, args, sub) in
        let i := with_params i ps in
        let '(b, h) := simplify fold fuel b substs (i :: changed) true h in
        (App (Lambda i fv b) args, h)
      else (App (Lambda i fv b) args, h)
  | y => (y, h)
  end.

(** The operator, simplified unless it is a lambda. *)
Definition operator_passes (sub : list subst) (f f1 : ast) : Prop := (is_lambda f = true /\ f1 = f) \/ passes sub f f1.

Lemma operator_passes_facts sub f f1 : operator_passes sub f f1 -> tidy svs f = true ->
  (size f1 <= size f)%nat /\ tidy svs f1 = true /\ lambda_ids f1 `sublist_of` lambda_ids f.
Proof. intros [[_ ->]|[_ H1 H2 H3]] Ht; auto. Qed.

Lemma finish_app_passes fuel f f1 args args1 sub changed lambda h : passing fuel ->
  ready (S fuel) (App f args) sub changed lambda h -> operator_passes sub f f1 -> passes_list sub args args1 ->
  passes sub (App f args) (finish_app fuel f1 args1 sub changed lambda h).1 /\ I (finish_app fuel f1 args1 sub changed lambda h).2.
Proof.
  intros Hp [Hz Ht Hn Hfr Hc Hl Hi] Hop [L1 L2 L3 L4]. cbn [size tidy lambda_ids] in Hz, Ht, Hn, Hfr.
  apply andb_prop in Ht as [[Hlen%Nat.leb_le Htf]%andb_prop Hta]. apply NoDup_app in Hn as (Hna & Hdis & Hnf).
  destruct (operator_passes_facts _ _ _ Hop Htf) as (O1 & O2 & O3). pose proof (Forall2_length _ _ _ L1) as Hla.
  assert (forall y, (size y <= S (size f1 + sum_list_with size args1))%nat -> tidy svs y = true ->
    lambda_ids y `sublist_of` flat_map lambda_ids args1 ++ lambda_ids f1 -> simp sub (App f args) y -> passes sub (App f args) y) as Hdone.
  { intros y Hy1 Hy2 Hy3 Hy4. split; [done|cbn [size]; lia|done|]. cbn [lambda_ids]. etransitivity; [exact Hy3|by apply sublist_app]. }
  assert (tidy svs (App f1 args1) = true) as Htapp.
  { cbn [tidy]. rewrite O2, L3, !andb_true_r. apply Nat.leb_le. lia. }
  assert (simp sub f f1 -> passes sub (App f args) (App f1 args1)) as Hplain.
  { intros Hs. apply Hdone; [cbn [size]; lia|done|done|by apply simp_app]. }
  assert ((exists v, f1 = Self v) \/ (forall v, f1 <> Self v)) as [[v ->]|Hself] by (destruct f1; eauto; right; congruence); unfold finish_app.
  - assert (simp sub f (Self v)) as Hs by (destruct Hop as [[Hlam <-]|[Hs _ _ _]]; done).
    cbn [make_app]. destruct (deref h v) as [[| | | | | | | |op|]|]; try (split; [by apply Hplain|done]).
    pose proof (simplify_op_spec v op args1 h ltac:(lia) L3 Hi) as H. destruct (simplify_op fold v op args1 h) as [y h'].
    destruct H as (Hi' & Y1 & Y2 & Y3 & _). split; [|done]. cbn [fst].
    apply Hdone; [cbn [size]; lia|done|cbn [lambda_ids]; by rewrite app_nil_r|by eapply simp_app_word].
  - rewrite make_app_other by done.
    destruct (is_lambda f1) eqn:El.
    2: { assert (simp sub f f1) as Hs by (destruct Hop as [[Hlam ->]|[Hs _ _ _]]; [congruence|done]).
         destruct f1; try done; (split; [by apply Hplain|done]). }
    destruct f1 as [| | | | | |i fv b| |]; try done. destruct lambda.
    2: { split; [|done]. cbn [fst]. apply Hplain. destruct Hop as [[_ <-]|[Hs _ _ _]]; [|done].
         rewrite Hl by done. apply simp_refl. }
    pose proof (let_passes fuel sub changed i fv b args1 h Hp) as H. cbn [size] in O1.
    assert (fresh_for sub (lambda_ids (Lambda i fv b))) as Hfr1.
    { intros s Hs Hid. apply (Hfr s Hs), elem_of_app. right. by eapply sublist_subseteq. }
    specialize (H ltac:(lia) O2 (sublist_NoDup _ _ Hnf O3) Hfr1 Hc Hi).
    destruct (if bool_decide _ then _ else _) as [[ps args'] sub'].
    destruct (simplify fold fuel b sub' _ true h) as [b' h']. destruct H as (Hi' & [B1 B2 B3 B4] & Hsub & Htl & Hfi & Hnp & Hcase).
    split; [|done]. cbn [fst]. apply Hdone.
    + cbn [size]. pose proof (sum_list_sublist _ _ Hsub). lia.
    + cbn [tidy] in Htl |- *. rewrite Htl, (tidy_sublist _ _ Hsub L3), !andb_true_r. apply Nat.leb_le. apply sublist_length in Hsub. lia.
    + cbn [lambda_ids with_params lam_id]. apply sublist_app; [by apply flat_map_sublist|by apply sublist_skip].
    + destruct Hcase as [[Hle Hin]|(-> & -> & ->)].
      * destruct Hop as [[_ <-]|[Hs _ _ _]]; [by eapply simp_let|by eapply simp_let_again].
      * rewrite with_same_params. destruct Hop as [[_ <-]|[Hs _ _ _]]; [|by eapply simp_body_again].
        apply simp_app; [by apply simp_lambda|done].
Qed.

(** ** The pass *)

Lemma ready_part fuel x y sub changed lambda lambda' h h' : ready (S fuel) x sub changed lambda h ->
  (size y < size x)%nat -> tidy svs y = true -> lambda_ids y `sublist_of` lambda_ids x -> (lambda' = false -> lambda = false) -> I h' ->
  ready fuel y sub changed lambda' h'.
Proof.
  intros [Hz Ht Hn Hf Hc Hl Hi] Hs Hty Hid Hlam Hi'. split; try done; [lia|by eapply sublist_NoDup| |auto].
  eapply fresh_for_mono; [exact Hf|by apply sublist_subseteq].
Qed.

Lemma ready_list fuel x ls sub changed lambda h h' : passing fuel -> ready (S fuel) x sub changed lambda h ->
  (sum_list_with size ls < size x)%nat -> forallb (tidy svs) ls = true -> flat_map lambda_ids ls `sublist_of` lambda_ids x -> I h' ->
  let r := simplify_list (fun y => simplify fold fuel y sub changed lambda) ls h' in passes_list sub ls r.1 /\ I r.2.
Proof.
  intros Hp [Hz Ht Hn Hf Hc Hl Hi] Hs Hty Hid Hi'.
  apply simplify_list_passes; try done; [lia|by eapply sublist_NoDup|].
  eapply fresh_for_mono; [exact Hf|by apply sublist_subseteq].
Qed.

Lemma simplify_app fuel f args sub changed lambda h :
  simplify fold (S fuel) (App f args) sub changed lambda h =
  let '(f1, h) := if is_lambda f then (f, h) else simplify fold fuel f sub changed lambda h in
  let '(args1, h) := simplify_list (fun y => simplify fold fuel y sub changed lambda) args h in
  finish_app fuel f1 args1 sub changed lambda h.
Proof. reflexivity. Qed.

Ltac part Hr := eapply ready_part; [exact Hr|cbn [size]; lia|done| |done|done].

Lemma simplify_passes fuel : passing fuel.
Proof.
  induction fuel as [|fuel IH]; intros x sub changed lambda h Hr; [destruct Hr as [Hz _ _ _ _ _ _]; destruct x; cbn in Hz; lia|].
  pose proof (re_tidy _ _ _ _ _ _ Hr) as Ht. pose proof (re_inv _ _ _ _ _ _ Hr) as Hi. pose proof (re_changed _ _ _ _ _ _ Hr) as Hc.
  destruct x as [v|v|r|r v|t p f|ls|i fv b|f args|l op args]; cbn [tidy] in Ht.
  - split; [split; try done; constructor|done].
  - split; [split; try done; constructor|done].
  - cbn [simplify]. destruct (find_subst _ _ sub) as [w|] eqn:E.
    + split; [split; try done; by apply simp_subst|done].
    + destruct (current_ref_same changed r Hc Ht) as [Hv Ha]. split; [split; try done; by apply simp_ref|done].
  - apply andb_prop in Ht as [Htr Htv]. cbn [simplify].
    destruct (IH v sub changed lambda h) as [[X1 X2 X3 X4] Hh]; [by part Hr|].
    destruct (simplify fold fuel v sub changed lambda h) as [v' h']. cbn [fst snd] in *.
    destruct (current_ref_same changed r Hc Htr) as [Hv Ha]. split; [|done].
    split; cbn [size tidy lambda_ids]; [by apply simp_set|lia|by rewrite Ha|done].
  - apply andb_prop in Ht as [[Htt Htp]%andb_prop Htf]. cbn [simplify].
    destruct (IH t sub changed lambda h) as [[T1 T2 T3 T4] Hh]; [part Hr; cbn; by apply sublist_inserts_r|].
    destruct (simplify fold fuel t sub changed lambda h) as [t' h1]. cbn [fst snd] in *.
    assert (forall h, I h -> ready fuel p sub changed lambda h) as Hrp.
    { intros. part Hr. cbn. by apply sublist_inserts_l, sublist_inserts_r. }
    assert (forall h, I h -> ready fuel f sub changed lambda h) as Hrf.
    { intros. part Hr. cbn. by apply sublist_inserts_l, sublist_inserts_l. }
    destruct (constant t') as [w|] eqn:Ec.
    + destruct t'; try done. injection Ec as ->.
      destruct (IH (if sexp_not w then f else p) sub changed lambda h1) as [[X1 X2 X3 X4] Hx]; [destruct (sexp_not w); auto|].
      split; [|done]. split; [by eapply simp_branch|cbn [size]; destruct (sexp_not w); lia|done|].
      cbn [lambda_ids]. etransitivity; [exact X4|]. destruct (sexp_not w);
        [by apply sublist_inserts_l, sublist_inserts_l|by apply sublist_inserts_l, sublist_inserts_r].
    + destruct (IH p sub changed lambda h1) as [[P1 P2 P3 P4] Hh1]; [auto|].
      destruct (simplify fold fuel p sub changed lambda h1) as [p' h2]. cbn [fst snd] in *.
      destruct (IH f sub changed lambda h2) as [[F1 F2 F3 F4] Hh2]; [auto|].
      destruct (simplify fold fuel f sub changed lambda h2) as [f' h3]. cbn [fst snd] in *. split; [|done].
      split; cbn [size tidy lambda_ids]; [by apply simp_cnd|lia|by rewrite T3, P3|by repeat apply sublist_app].
  - cbn [simplify]. destruct (ready_list fuel _ ls sub changed lambda h h IH Hr) as [Hls Hh]; try done; [cbn [size]; lia|].
    destruct (simplify_list _ ls h) as [ls' h']. split; [|done]. by apply make_seq_passes.
  - apply andb_prop in Ht as [[Ha Hps]%andb_prop Htb]. cbn [simplify].
    destruct (IH b sub changed true h) as [[X1 X2 X3 X4] Hh]; [part Hr; cbn; by apply sublist_cons|].
    destruct (simplify fold fuel b sub changed true h) as [b' h']. cbn [fst snd] in *. split; [|done].
    split; cbn [size tidy lambda_ids]; [|lia|by rewrite Ha, Hps|by apply sublist_skip].
    apply simp_lambda; [|done]. intros s Hs Hid. apply (re_fresh _ _ _ _ _ _ Hr s Hs). rewrite Hid. by left.
  - rewrite simplify_app. apply andb_prop in Ht as [[Hlen Htf]%andb_prop Hta].
    assert (let r := if is_lambda f then (f, h) else simplify fold fuel f sub changed lambda h in operator_passes sub f r.1 /\ I r.2) as Hf.
    { destruct (is_lambda f) eqn:El; [split; [by left|done]|].
      destruct (IH f sub changed lambda h) as [Hf Hh]; [part Hr; cbn; by apply sublist_inserts_l|]. split; [by right|done]. }
    destruct (if is_lambda f then _ else _) as [f1 h1]. destruct Hf as [Hf Hh]. cbn [fst snd] in *.
    destruct (ready_list fuel _ args sub changed lambda h h1 IH Hr) as [Hls Hh1]; try done; [cbn [size]; lia|cbn; by apply sublist_inserts_r|].
    destruct (simplify_list _ args h1) as [args1 h2]. cbn [fst snd] in *. apply finish_app_passes; try done.
    destruct Hr. by split.
  - apply andb_prop in Ht as [Hlen%Nat.leb_le Hta]. cbn [simplify].
    destruct (ready_list fuel _ args sub changed lambda h h IH Hr) as [[L1 L2 L3 L4] Hh]; try done; [cbn [size]; lia|].
    destruct (simplify_list _ args h) as [args1 h1]. cbn [fst snd] in *. pose proof (Forall2_length _ _ _ L1) as Hla.
    pose proof (simplify_op_spec l op args1 h1 ltac:(lia) L3 Hh) as H. destruct (simplify_op fold l op args1 h1) as [y h2].
    destruct H as (Hi' & Y1 & Y2 & Y3 & Y4). split; [|done]. cbn [fst].
    split; cbn [size lambda_ids]; [|lia|done|by etransitivity].
    destruct Y4 as [->|(ws & v & -> & -> & Hfold)]; [by apply simp_op|by eapply simp_fold].
Qed.

End pass.

(** ** Folding by the machine *)

Section machine_folding.
Context (constants : heap) (foreign : string -> heap -> list sexp -> sexp * heap) (fuel : nat).
Hypothesis foreign_keeps : forall name h args, kept h (foreign name h args).2.

(** The final resumer and the error of a full stack are in place. *)
Definition machine_ready (h : heap) : Prop := resumer h /\ sexp_exceptionp h (Ptr G_OOS_ERROR) = true.

Lemma kept_ext h h' : kept h h' -> ext h h'.
Proof. intros H l o Hl Ho. apply H; [done|]. by destruct o. Qed.

Lemma kept_ready h h' : kept h h' -> machine_ready h -> machine_ready h'.
Proof.
  intros Hk [Hr He]. split; [eapply resumer_ext; [by apply kept_ext|done]|].
  unfold sexp_exceptionp in *. cbn in *. destruct (h !! G_OOS_ERROR) as [[]|] eqn:E; try done. by rewrite (Hk _ _ E).
Qed.

Lemma free_vars_constants l op ws : sexp_free_vars (OpApp l op (map Lit ws)) [] = (OpApp l op (map Lit ws), []).
Proof.
  rewrite free_vars_opapp. assert (forall fv, free_list (map Lit ws) fv = (map Lit ws, fv)) as ->; [|done].
  induction ws as [|w ws IH]; intros fv; cbn; [done|]. by rewrite IH.
Qed.

Lemma constant_fold_eq h l op ws :
  constant_fold foreign fuel h l op (map Lit ws) =
  let '(proc, h1) := sexp_generate_op h (OpApp l op (map Lit ws)) in
  match sexp_apply foreign fuel proc [] (machine h1 []) with
  | Returned v s => (if sexp_exceptionp (v_heap s) v then None else Some v, v_heap s)
  | _ => (None, h1)
  end.
Proof.
  unfold constant_fold, sexp_generate_op.
  rewrite free_vars_constants. destruct (sexp_complete_bytecode _) as [bc h1]. destruct (sexp_make_vector h1 0 SEXP_VOID) as [vec h2].
  by destruct (sexp_make_procedure h2 0 0 bc vec).
Qed.

Lemma generate_constants_keeps h l op ws : kept h (sexp_generate_op h (OpApp l op (map Lit ws))).2.
Proof.
  unfold sexp_generate_op. rewrite free_vars_constants. set (g := sexp_generate _ _).
  assert (gheap g = h) as Hg.
  { subst g. cbn [sexp_generate]. rewrite gheap_opcode_app; [done|]. apply List.Forall_map, List.Forall_map, List.Forall_forall. done. }
  unfold sexp_complete_bytecode, sexp_make_procedure. cbn [gheap sexp_emit on_ctx sexp_make_vector Z.eqb]. rewrite Hg.
  set (bco := Bytecode _ _ _). pose proof (kept_alloc h bco) as K1. destruct (alloc h bco) as [bc h1].
  set (po := Procedure _ _ _ _). pose proof (kept_alloc h1 po) as K2. destruct (alloc h1 po) as [p h2]. cbn [snd] in *. by etransitivity.
Qed.

Lemma eval_constants T E h ws : eval_args T E h (map Lit ws) ws h.
Proof. induction ws as [|w ws IH]; cbn; [constructor|]. econstructor; [exact IH|constructor]. Qed.

Lemma constants_need ws : (fold_right (fun x a => (Z.max (need x + a.2) a.1, a.2 + 1)) (0, 0) (map Lit ws)).2 = Z.of_nat (length ws) /\
  (fold_right (fun x a => (Z.max (need x + a.2) a.1, a.2 + 1)) (0, 0) (map Lit ws)).1 = Z.of_nat (length ws).
Proof. induction ws as [|w ws IH]; cbn [map fold_right need length]; [done|]. destruct IH as [-> ->]. cbn [fst snd]. lia. Qed.

Lemma constants_weight ws : fold_right (fun x w => weight x + w) 0 (map Lit ws) = Z.of_nat (length ws).
Proof. induction ws as [|w ws IH]; cbn [map fold_right weight length]; [done|]. rewrite IH. lia. Qed.

Lemma words_map ws : words (map Word ws) = Some ws.
Proof. unfold words. induction ws as [|w ws IH]; cbn; [done|]. by rewrite IH. Qed.

Lemma vop_arith op s ws w s' : op_class_of op = OPC_ARITHMETIC -> vop constants op s (map Word ws) = Some (w, s') ->
  ordinary op = true /\ op_num_args op < Z.of_nat (length ws) /\ s' = s /\
  exists z zs r, ws = Fixnum z :: zs /\ arith_fold (op_code op) z zs = Some r /\ w = Word (Fixnum r).
Proof.
  intros Hc. unfold vop. rewrite Hc, length_map. destruct (ordinary op); [|done]. cbn [andb].
  destruct (Z.ltb_spec (op_num_args op) (Z.of_nat (length ws))) as [Hl|]; [|done].
  unfold varith. rewrite words_map. destruct ws as [|[z| | | | | | | | | | | |] zs]; try done.
  destruct (arith_fold (op_code op) z zs) as [r|] eqn:Ea; [|done]. intros [= <- <-]. split_and!; eauto 10.
Qed.

Lemma constants_supported l op z zs : op_class_of op = OPC_ARITHMETIC -> ordinary op = true ->
  op_num_args op < Z.of_nat (length (z :: zs)) -> (length (z :: zs) <= 55)%nat ->
  supported_program (OpApp l op (map Lit (z :: zs))) = true.
Proof.
  intros Hc [[[Hs Ht]%andb_prop Hv]%andb_prop Hp]%andb_prop Hn Hlen. unfold supported_program.
  destruct (constants_need (z :: zs)) as [Hn1 Hn2]. cbn [need weight supported]. rewrite Hn2, constants_weight, length_map.
  rewrite (proj2 (Z.leb_le _ _)), (proj2 (Z.leb_le _ _)) by lia. cbn [andb]. apply andb_true_intro. split.
  - apply bool_decide_eq_true. unfold operator_code. destruct (prim_op op) eqn:Epr; [done|].
    assert (arith_op op (length (z :: zs)) = true) as ->; [|done]. unfold arith_op.
    rewrite bool_decide_true, Hs, Ht, Hv, Hp by done. cbn [andb]. rewrite andb_true_r. by apply Z.ltb_lt.
  - apply forallb_forall. intros x (w & <- & _)%in_map_iff. done.
Qed.

(** The value of the machine is that of the arithmetic, or the stack is full. *)
Lemma constants_run h l op z zs r p h1 : resumer h -> op_class_of op = OPC_ARITHMETIC -> ordinary op = true ->
  op_num_args op < Z.of_nat (length (Fixnum z :: zs)) -> (length (Fixnum z :: zs) <= 55)%nat ->
  arith_fold (op_code op) z zs = Some r -> sexp_generate_op h (OpApp l op (map Lit (Fixnum z :: zs))) = (p, h1) ->
  gives h1 [] (Fixnum r) (fun fuel => sexp_apply foreign fuel p [] (machine h1 [])).
Proof.
  intros Hr Hc Ho Hn Hlen Hf Hg.
  destruct (generate_op_spec h (OpApp l op (map Lit (Fixnum z :: zs))) p h1) as (T & q & b & c & md & lits & Hcov & Hw & He & -> & Hp & Hb & Hgc & Hmd & Hneed);
    [rewrite free_vars_constants; by apply constants_supported|rewrite free_vars_constants|exact Hg|].
  { cbn [fst lambda_ids]. replace (flat_map lambda_ids (map Lit (Fixnum z :: zs))) with (@nil positive); [constructor|].
    clear. induction (Fixnum z :: zs) as [|w ws IH]; cbn; [done|exact IH]. }
  rewrite free_vars_constants in Hgc, Hneed. cbn [fst] in Hgc, Hneed.
  assert (eval T program_env h1 (OpApp l op (map Lit (Fixnum z :: zs))) (Fixnum r) h1) as Hev.
  { unfold ordinary in Ho. apply andb_prop in Ho as [[[Hs Ht]%andb_prop Hv]%andb_prop _].
    apply negb_true_iff in Hs, Ht, Hv. eapply eval_arith; try done; try apply eval_constants; try done. by rewrite length_map. }
  eapply apply_gives; [by eapply sim_program|reflexivity|done|by eapply resumer_ext|exact Hp|exact Hb|lia|cbn; lia| |].
  - right. exists 0%nat. split; [lia|by vm_compute].
  - by vm_compute.
Qed.

#[export] Instance machine_folds : Folding constants (constant_fold foreign fuel) machine_ready.
Proof.
  split.
  - intros h l op ws v h' Hi. rewrite constant_fold_eq. pose proof (generate_constants_keeps h l op ws) as Hk.
    destruct (sexp_generate_op h _) as [p h1]. cbn [snd] in Hk.
    destruct (sexp_apply _ _ _ _ _) as [w s| | |] eqn:Ea; intros [= _ <-]; try (by eapply kept_ready).
    apply (apply_keeps _ foreign_keeps) in Ea. cbn in Ea. eapply kept_ready; [|done]. by etransitivity.
  - intros h l op ws v h' [Hr Ho] Hc Hlen. rewrite constant_fold_eq. pose proof (generate_constants_keeps h l op ws) as Hk.
    destruct (sexp_generate_op h (OpApp l op (map Lit ws))) as [p h1] eqn:Eg. cbn [snd] in Hk.
    destruct (sexp_apply foreign fuel p [] (machine h1 [])) as [w s| | |] eqn:Ea; try done.
    destruct (sexp_exceptionp (v_heap s) w) eqn:Ex; [done|]. intros [= -> <-].
    intros s0 w0 s1 Hv. destruct (vop_arith _ _ _ _ _ Hc Hv) as (Hord & Hn & -> & z & zs & r & -> & Hf & ->). split; [|done].
    destruct (constants_run h l op z zs r p h1) as (N & HN); try done.
    specialize (HN (N `max` fuel)%nat ltac:(lia)). rewrite (apply_mono _ fuel) in HN by (done || lia || by rewrite Ea).
    rewrite Ea in HN. destruct HN as [(s' & [= -> ->] & _)|(s' & [= -> ->])]; [done|].
    apply (apply_keeps _ foreign_keeps) in Ea. cbn in Ea.
    destruct (kept_ready _ _ (transitivity Hk Ea) (conj Hr Ho)) as [_ He]. congruence.
Qed.

End machine_folding.

(** ** Enough levels *)

Section levels.
Context (fold : heap -> sexp -> opcode -> list ast -> option sexp * heap).

Lemma drop_forms_size ls : (sum_list_with size (drop_forms ls) <= sum_list_with size ls)%nat.
Proof. apply sum_list_sublist, drop_forms_sublist. Qed.

Lemma make_seq_size ls : (size (make_seq ls) <= S (sum_list_with size ls))%nat.
Proof.
  unfold make_seq. pose proof (drop_forms_size ls) as H. destruct (drop_forms ls) as [|x [|y ls']]; cbn [size sum_list_with] in *; lia.
Qed.

Lemma simplify_op_size l op args h : (size (simplify_op fold l op args h).1 <= S (sum_list_with size args))%nat.
Proof. unfold simplify_op. destruct (_ && _); [|done]. destruct (fold h l op args) as [[v|] h']; cbn [fst size]; lia. Qed.

Lemma simplify_list_size sim ls : (forall y h, (size (sim y h).1 <= size y)%nat) -> forall h,
  (sum_list_with size (simplify_list sim ls h).1 <= sum_list_with size ls)%nat.
Proof.
  intros Hs. induction ls as [|y ls IH]; intros h; cbn [simplify_list]; [done|]. specialize (Hs y h). destruct (sim y h) as [y' h1].
  specialize (IH h1). destruct (simplify_list sim ls h1) as [ls' h2]. cbn [fst sum_list_with] in *. lia.
Qed.

Lemma inline_size i ps args sub : (sum_list_with size (inline_params i ps args sub).1.2 <= sum_list_with size args)%nat.
Proof.
  destruct (inline_params i ps args sub) as [[ps' args'] sub'] eqn:E. apply inline_facts in E as (_ & H & _). by apply sum_list_sublist.
Qed.

Definition shrinks (fuel : nat) : Prop := forall x sub changed lambda h, (size (simplify fold fuel x sub changed lambda h).1 <= size x)%nat.

Lemma finish_app_size fuel f1 args1 sub changed lambda h : shrinks fuel ->
  (size (finish_app fold fuel f1 args1 sub changed lambda h).1 <= S (size f1 + sum_list_with size args1))%nat.
Proof.
  intros Hs. unfold finish_app. destruct f1 as [|v| | | | |i fv b| |]; try done.
  - cbn [make_app]. destruct (deref h v) as [[| | | | | | | |op|]|]; try done. etransitivity; [apply simplify_op_size|]. lia.
  - cbn [make_app]. destruct lambda; [|done].
    set (q := if bool_decide _ then _ else _). assert (sum_list_with size q.1.2 <= sum_list_with size args1)%nat as Hq.
    { subst q. destruct (bool_decide _); [apply inline_size|done]. }
    destruct q as [[ps args'] sub']. specialize (Hs b sub' (with_params i ps :: changed) true h).
    destruct (simplify fold fuel b _ _ true h) as [b' h']. cbn [fst snd size] in *. lia.
Qed.

Lemma simplify_size fuel : shrinks fuel.
Proof.
  induction fuel as [|fuel IH]; intros x sub changed lambda h; [done|].
  assert (forall ls h, sum_list_with size (simplify_list (fun y => simplify fold fuel y sub changed lambda) ls h).1 <= sum_list_with size ls)%nat as Hl
    by (intros ls; apply simplify_list_size; intros y h0; apply IH).
  destruct x as [v|v|r|r v|t p f|ls|i fv b|f args|l op args]; try done; try rewrite simplify_app; cbn [simplify].
  - destruct (find_subst _ _ sub); done.
  - specialize (IH v sub changed lambda h). destruct (simplify fold fuel v _ _ _ h). cbn [fst size] in *. lia.
  - pose proof (IH t sub changed lambda h) as Ht. destruct (simplify fold fuel t _ _ _ h) as [t' h1]. cbn [fst size] in *.
    destruct (constant t') as [w|].
    + etransitivity; [apply IH|]. destruct (sexp_not w); lia.
    + pose proof (IH p sub changed lambda h1) as Hp. destruct (simplify fold fuel p _ _ _ h1) as [p' h2].
      pose proof (IH f sub changed lambda h2) as Hf. destruct (simplify fold fuel f _ _ _ h2) as [f' h3]. cbn [fst size] in *. lia.
  - specialize (Hl ls h). destruct (simplify_list _ ls h) as [ls' h']. cbn [fst size] in *. pose proof (make_seq_size ls'). lia.
  - specialize (IH b sub changed true h). destruct (simplify fold fuel b _ _ _ h). cbn [fst size] in *. lia.
  - assert (size (if is_lambda f then (f, h) else simplify fold fuel f sub changed lambda h).1 <= size f)%nat as Hf
      by (destruct (is_lambda f); [done|apply IH]).
    destruct (if is_lambda f then _ else _) as [f1 h1]. specialize (Hl args h1). destruct (simplify_list _ args h1) as [args1 h2].
    cbn [fst size] in *. etransitivity; [by apply finish_app_size|lia].
  - specialize (Hl args h). destruct (simplify_list _ args h) as [args1 h1]. cbn [fst size] in *.
    etransitivity; [apply simplify_op_size|lia].
Qed.

Definition same_at (n m : nat) : Prop := forall x sub changed lambda h, (size x <= n)%nat -> (size x <= m)%nat ->
  simplify fold n x sub changed lambda h = simplify fold m x sub changed lambda h.

Lemma simplify_list_same n m sub changed lambda ls : same_at n m -> forall h,
  (sum_list_with size ls <= n)%nat -> (sum_list_with size ls <= m)%nat ->
  simplify_list (fun y => simplify fold n y sub changed lambda) ls h = simplify_list (fun y => simplify fold m y sub changed lambda) ls h.
Proof.
  intros Hs. induction ls as [|y ls IH]; intros h Hn Hm; cbn [simplify_list sum_list_with] in *; [done|].
  rewrite Hs by lia. destruct (simplify fold m y sub changed lambda h) as [y' h1]. by rewrite IH by lia.
Qed.

Lemma finish_app_same n m f1 args1 sub changed lambda h : same_at n m -> (size f1 <= n)%nat -> (size f1 <= m)%nat ->
  finish_app fold n f1 args1 sub changed lambda h = finish_app fold m f1 args1 sub changed lambda h.
Proof.
  intros Hs Hn Hm. unfold finish_app. destruct f1 as [|v| | | | |i fv b| |]; try done; cbn [make_app size] in *.
  - by destruct (deref h v) as [[]|].
  - destruct lambda; [|done]. destruct (if bool_decide _ then _ else _) as [[ps args'] sub']. by rewrite Hs by lia.
Qed.

(** Levels beyond the size of the tree change nothing. *)
Lemma simplify_same n : forall m, same_at n m.
Proof.
  induction n as [|n IH]; intros m x sub changed lambda h Hn Hm; [destruct x; cbn in Hn; lia|].
  destruct m as [|m]; [destruct x; cbn in Hm; lia|]. specialize (IH m).
  destruct x as [v|v|r|r v|t p f|ls|i fv b|f args|l op args]; try done; cbn [size] in Hn, Hm; try rewrite !simplify_app; cbn [simplify].
  - by rewrite IH by lia.
  - rewrite IH by lia. destruct (simplify fold m t _ _ _ h) as [t' h1]. destruct (constant t') as [w|].
    + apply IH; destruct (sexp_not w); lia.
    + rewrite IH by lia. destruct (simplify fold m p _ _ _ h1) as [p' h2]. by rewrite IH by lia.
  - by rewrite (simplify_list_same n m) by (done || lia).
  - by rewrite IH by lia.
  - rewrite (IH f) by lia.
    assert (size (if is_lambda f then (f, h) else simplify fold m f sub changed lambda h).1 <= size f)%nat as Hf
      by (destruct (is_lambda f); [done|apply simplify_size]).
    destruct (if is_lambda f then _ else _) as [f1 h1]. cbn [fst] in Hf. rewrite (simplify_list_same n m) by (done || lia).
    destruct (simplify_list _ args h1) as [args1 h2]. apply finish_app_same; [done|lia..].
  - by rewrite (simplify_list_same n m) by (done || lia).
Qed.

End levels.

(** ** The theorem *)

(** C2 (equivalence).  The simplifier keeps the meaning of programs.  For a tree
    as the analyzer makes them, with the simplifier folding constants on the
    machine, with any fuel for that and with levels for the nodes of the tree:
    whenever the program has a value, the simplified program has a related value
    and leaves a related store, from the same store and in no more steps.
    Related values are the same words, the same objects, or procedures that turn
    related arguments into related results.  The pass makes no tree larger, adds
    and duplicates no lambda, and more levels do not change its result. *)
Theorem simplify_correct constants foreign fuel n svs x h :
  (forall name h args, kept h (foreign name h args).2) -> machine_ready h ->
  tidy svs x = true -> NoDup (lambda_ids x) -> (size x <= n)%nat ->
  let x' := (sexp_simplify (constant_fold foreign fuel) n x h).1 in
  (forall k rho s v s1, ieval constants k rho s x = Some (v, s1) ->
     exists v' s1', ieval constants k rho s x' = Some (v', s1') /\ vrel constants v v' /\ srel constants s1 s1') /\
  (forall v v', vrel constants v v' ->
     match v with
     | Word w => v' = Word w
     | Obj l => v' = Obj l
     | Closure _ _ _ => forall k vs vs' s s' r s1, Forall2 (vrel constants) vs vs' -> srel constants s s' ->
         iapply constants k v vs s = Some (r, s1) ->
         exists r' s1', iapply constants k v' vs' s' = Some (r', s1') /\ vrel constants r r' /\ srel constants s1 s1'
     end) /\
  (size x' <= size x)%nat /\ lambda_ids x' `sublist_of` lambda_ids x /\
  (forall m, (size x <= m)%nat -> sexp_simplify (constant_fold foreign fuel) m x h = sexp_simplify (constant_fold foreign fuel) n x h).
Proof.
  intros Hf Hr Ht Hn Hz. cbn zeta. unfold sexp_simplify.
  destruct (simplify_passes constants (constant_fold foreign fuel) machine_ready (Folding0 := machine_folds constants foreign fuel Hf) svs n x [] [] false h)
    as [[Hs Hsz _ Hid] _].
  { split; try done. intros s Hin. by apply not_elem_of_nil in Hin. }
  split_and!; [| |done|done|intros m Hm; by apply simplify_same].
  - intros k rho s v s1 H. destruct (simp_sim constants k [] _ _ Hs rho rho s s) with (a := (v, s1)) as ([v' s1'] & ? & ? & ?);
      [|reflexivity|done|eauto]. split; [done|]. intros key u _ Hu. exists u. split; [done|reflexivity].
  - intros v v' Hv. destruct v as [w|l|i b rho]; [by eapply vrel_word_l|by eapply vrel_obj_l|].
    intros k vs vs' s s' r s1 Hvs Hss H. destruct (apply_sim constants k (simp_sim constants k) _ _ Hv vs vs' s s' Hvs Hss _ H) as ([r' s1'] & ? & ? & ?). eauto.
Qed.

(** [((lambda (g) (g 5)) (lambda (k) ((lambda (x y) x (if #f y (+ x (+ 1 2)))) 4 k)))] *)
Definition let_lam : lam_info := LamInfo 3 [Symbol "x"; Symbol "y"] None [] [].
Definition k_lam : lam_info := LamInfo 2 [Symbol "k"] None [] [].
Definition g_lam : lam_info := LamInfo 1 [Symbol "g"] None [] [].
Definition let_ref (n : string) : ast := RefE (Ref (Symbol n) (Within let_lam)).
Definition k_ref : ast := RefE (Ref (Symbol "k") (Within k_lam)).
Definition plus (a b : ast) : ast := OpApp (Ptr 90) add_op [a; b].
Definition let_body : ast :=
  Seq [let_ref "x"; Cnd (Lit SEXP_FALSE) (let_ref "y") (plus (let_ref "x") (plus (Lit (Fixnum 1)) (Lit (Fixnum 2))))].
Definition call_five (b : ast) : ast :=
  App (Lambda g_lam [] (App (RefE (Ref (Symbol "g") (Within g_lam))) [Lit (Fixnum 5)])) [Lambda k_lam [] b].
Definition let_program : ast := call_five (App (Lambda let_lam [] let_body) [Lit (Fixnum 4); k_ref]).

Example let_program_simplified :
  (sexp_simplify (constant_fold no_foreign 100) 40 let_program initial_heap).1 =
  call_five (App (Lambda (with_params let_lam [Symbol "y"]) [] (Lit (Fixnum 7))) [k_ref]).
Proof. vm_compute. reflexivity. Qed.

Lemma simplify_correct_witness :
  tidy (fun _ => []) let_program = true /\
  exists v s, ieval ∅ 20 [] (Store [] (fun _ => None)) (sexp_simplify (constant_fold no_foreign 100) 40 let_program initial_heap).1 = Some (v, s) /\
    v = Word (Fixnum 7).
Proof.
  split; [by vm_compute|].
  destruct (simplify_correct ∅ no_foreign 100 40 (fun _ => []) let_program initial_heap) as (H & Hv & _).
  - intros. reflexivity.
  - split; [exact initial_resumer|by vm_compute].
  - by vm_compute.
  - apply (bool_decide_unpack _). by vm_compute.
  - apply Nat.leb_le. by vm_compute.
  - destruct (H 20%nat [] (Store [] (fun _ => None)) (Word (Fixnum 7)) (Store [] (fun _ => None))) as (v & s & He & Hvv & _).
    + by vm_compute.
    + exists v, s. split; [exact He|exact (Hv _ _ Hvv)].
Defined.
