(* ===== verification/Arithmetic.v ===== *)
(** * The arithmetic instructions

    What the machine's instructions on exact integers leave on the stack: the
    fast path on fixnums, the promotion when it overflows, and the generic
    functions on bignums agree with the integers. *)
From S2P Require Import Prelude LongLong Limbs Bignum Integers Division Numbers Heap Ast Codegen Vm Semantics VmSteps.
From stdpp Require Import base list option gmap.
#[local] Open Scope Z_scope.
#[local] Arguments alloc : simpl never.

Section arithmetic.
Variable foreign : string -> heap -> list sexp -> sexp * heap.
Variables pr hd : sexp.
#[local] Abbreviation mk := (mk pr hd).

(** The word [v] is the integer [z] in normal form: a fixnum, or a bignum that
    no fixnum could be. *)
Definition integer_at (h : heap) (v : sexp) (z : Z) : Prop :=
  exists x, load_int h v = Some x /\ inormal x /\ ival x = z.

Lemma load_number_int h v x : load_int h v = Some x -> load_number h v = Some (Int x).
Proof. unfold load_number. by intros ->. Qed.

Lemma store_int_spec h l j fp p self x : inormal x ->
  exists v h', store_int x (mk h l j fp p self) = Val v (mk h' l j fp p self) /\ integer_at h' v (ival x) /\ h ⊆ h'.
Proof.
  intros Hx. destruct x as [z|b]; cbn [store_int].
  - exists (Fixnum z), h. split; [done|]. split; [by exists (Fix z)|done].
  - destruct (alloc h (BignumObj b)) as [v h'] eqn:E. exists v, h'. split; [by apply allocate_spec|].
    unfold alloc in E. injection E as <- <-. split.
    + exists (Big b). split; [|done]. cbn. by rewrite lookup_insert_eq.
    + apply insert_subseteq, not_elem_of_dom, is_fresh.
Qed.

(** A result replaces the operand on top. *)
Lemma finish_int h l x y j fp p self a r : inormal r ->
  exists v h', finish store_number a (Ok (Int r)) (mk h (l ++ [x]) (y :: j) fp p self) =
    Val tt (mk h' (l ++ [v]) (y :: j) fp p self) /\ integer_at h' v (ival r) /\ h ⊆ h'.
Proof.
  intros Hr. destruct (store_int_spec h (l ++ [x]) (y :: j) fp p self r Hr) as (v & h' & Hs & Hi & Hh).
  exists v, h'. split; [|done]. cbn [finish store_number]. rewrite (bind_val _ _ _ _ _ Hs). by apply set_arg_at.
Qed.

(** The three operations, as a fast path, a generic function and its meaning. *)
Record operation := Operation {
  instr : op_name;
  fast : Z -> Z -> Z;
  generic : number -> number -> outcome number;
}.

Definition lawful (o : operation) : Prop :=
  exec_op foreign (instr o) = op_arith (fast o) (generic o) /\
  forall x y, iwf x -> iwf y -> (forall a b, x = Fix a -> y = Fix b -> in_fixnum_range (fast o a b) = true) ->
    exists r, generic o (Int x) (Int y) = Ok (Int r) /\ inormal r /\ ival r = fast o (ival x) (ival y).

Definition addition : operation := Operation OP_ADD Z.add sexp_add.
Definition subtraction : operation := Operation OP_SUB Z.sub sexp_sub.
Definition multiplication : operation := Operation OP_MUL Z.mul sexp_mul.

Lemma fixnum_range z : in_fixnum_range z = true -> SEXP_MIN_FIXNUM <= z <= SEXP_MAX_FIXNUM.
Proof. unfold in_fixnum_range. destruct (Z.ltb_spec z SEXP_MIN_FIXNUM), (Z.gtb_spec z SEXP_MAX_FIXNUM); cbn; try done; lia. Qed.

Lemma addition_lawful : lawful addition.
Proof.
  split; [done|]. intros x y Hx Hy _. destruct (add_spec x y Hx Hy) as (r & Hr & Hn & Hv). exists r.
  cbn [generic addition sexp_add lift]. by rewrite Hr.
Qed.

Lemma multiplication_lawful : lawful multiplication.
Proof.
  split; [done|]. intros x y Hx Hy _. destruct (int_mul_spec x y Hx Hy) as (r & Hr & Hn & Hv). exists r.
  cbn [generic multiplication sexp_mul lift]. by rewrite Hr.
Qed.

Lemma subtraction_lawful : lawful subtraction.
Proof.
  split; [done|]. intros x y Hx Hy Hf. destruct (sub_spec x y Hx Hy) as (Hn & Hv).
  { intros a b -> ->. apply fixnum_range, (Hf a b); done. }
  by exists (Integers.sexp_sub x y).
Qed.

Lemma fixnum_or_not h v x : load_int h v = Some x ->
  (exists z, v = Fixnum z /\ x = Fix z) \/ (forall z, (v = Fixnum z -> False) /\ (x = Fix z -> False)).
Proof.
  intros H. destruct v; cbn in H; try done; [left; injection H as <-; eauto|]. right. intros z. split; [done|]. intros ->.
  destruct (h !! l) as [[]|]; done.
Qed.

(** An instruction on two integers pops both and pushes the result. *)
Lemma exec_operation o h l a b x y j fp p self : lawful o -> integer_at h a x -> integer_at h b y ->
  exists v h' j', exec_op foreign (instr o) (mk h (l ++ [b; a]) j fp p self) = Val tt (mk h' (l ++ [v]) j' fp p self) /\
    integer_at h' v (fast o x y) /\ h ⊆ h' /\ length j' = S (length j).
Proof.
  intros [He Hl] (xa & Ha & Na & <-) (xb & Hb & Nb & <-). rewrite He. unfold op_arith. do 3 mstep.
  assert (forall x y, iwf x -> iwf y -> (forall a b, x = Fix a -> y = Fix b -> in_fixnum_range (fast o a b) = true) ->
    exists v h', finish store_number a (generic o (Int x) (Int y)) (mk h (l ++ [b]) (a :: j) fp p self) =
      Val tt (mk h' (l ++ [v]) (a :: j) fp p self) /\ integer_at h' v (fast o (ival x) (ival y)) /\ h ⊆ h') as Hgen.
  { intros x y Hx Hy Hxy. destruct (Hl x y Hx Hy Hxy) as (r & -> & Hn & <-). by apply finish_int. }
  assert (forall x y, load_int h a = Some x -> load_int h b = Some y -> iwf x -> iwf y ->
    (forall i k, x = Fix i -> y = Fix k -> False) ->
    exists v h', generic2 "Number" load_number store_number (generic o) a b (mk h (l ++ [b]) (a :: j) fp p self) =
      Val tt (mk h' (l ++ [v]) (a :: j) fp p self) /\ integer_at h' v (fast o (ival x) (ival y)) /\ h ⊆ h') as Hslow.
  { intros x y Hx Hy Wx Wy Hno. unfold generic2. mstep. rewrite (load_number_int _ _ _ Hx), (load_number_int _ _ _ Hy).
    apply Hgen; [done..|]. intros i k -> ->. by destruct (Hno i k). }
  assert (exists v h', (match a, b with
      | Fixnum x, Fixnum y =>
          if in_fixnum_range (fast o x y) then set_arg 1 (Fixnum (fast o x y))
          else finish store_number a (generic o (Int (Big (sexp_fixnum_to_bignum x))) (Int (Fix y)))
      | _, _ => generic2 "Number" load_number store_number (generic o) a b
      end) (mk h (l ++ [b]) (a :: j) fp p self) = Val tt (mk h' (l ++ [v]) (a :: j) fp p self) /\
      integer_at h' v (fast o (ival xa) (ival xb)) /\ h ⊆ h') as (v & h' & Hx & Hr).
  2: { exists v, h', (a :: j). split; [exact Hx|]. by destruct Hr. }
  destruct (fixnum_or_not h a xa Ha) as [(x & -> & ->)|Hna]; [destruct (fixnum_or_not h b xb Hb) as [(y & -> & ->)|Hnb]|].
  - cbn [ival]. destruct (in_fixnum_range (fast o x y)) eqn:Er.
    + exists (Fixnum (fast o x y)), h. split; [by apply set_arg_at|]. split; [|done].
      exists (Fix (fast o x y)). split; [done|]. split; [by apply fixnum_range|done].
    + destruct (fixnum_to_bignum_spec x Na) as (W & V & _).
      destruct (Hgen (Big (sexp_fixnum_to_bignum x)) (Fix y)) as (v & h' & Hf & Hi & Hh); [exact W|exact Nb|done|].
      exists v, h'. cbn [ival] in Hi. by rewrite V in Hi.
  - destruct (Hslow (Fix x) xb eq_refl Hb Na (inormal_iwf _ Nb)) as (v & h' & Hs & Hr).
    { intros i k _ ->. by destruct (Hnb k). }
    exists v, h'. split; [|exact Hr]. destruct b; try done. by destruct (Hnb z).
  - destruct (Hslow xa xb Ha Hb (inormal_iwf _ Na) (inormal_iwf _ Nb)) as (v & h' & Hs & Hr).
    { intros i k -> _. by destruct (Hna i). }
    exists v, h'. split; [|exact Hr]. destruct a; try done. by destruct (Hna z).
Qed.
(** ** Comparisons *)

Definition comparison (o : op_name) : option (Z -> Z -> bool) :=
  match o with OP_LT => Some Z.ltb | OP_LE => Some Z.leb | OP_EQN => Some Z.eqb | _ => None end.

(** Bignums of at most 2^31 limbs, the range of the [int] that compares lengths. *)
Definition limb_count_ok (h : heap) (v : sexp) : Prop :=
  forall b, load_int h v = Some (Big b) -> Z.of_nat (sexp_bignum_hi b) < 2 ^ 31.

Lemma sign_tests x y c : Z.sgn c = Z.sgn (x - y) ->
  (c <? 0) = (x <? y) /\ (c <=? 0) = (x <=? y) /\ (c =? 0) = (x =? y).
Proof.
  intros H. assert ((c < 0 <-> x < y) /\ (c = 0 <-> x = y)) as [H1 H2].
  { rewrite <- (Z.sgn_neg_iff c), <- (Z.sgn_null_iff c), H, Z.sgn_neg_iff, Z.sgn_null_iff. lia. }
  split_and!; lia.
Qed.

Lemma exec_comparison o t h l a b x y j fp p self : comparison o = Some t -> integer_at h a x -> integer_at h b y ->
  limb_count_ok h a -> limb_count_ok h b ->
  exec_op foreign o (mk h (l ++ [b; a]) j fp p self) =
  Val tt (mk h (l ++ [sexp_make_boolean (t x y)]) (a :: j) fp p self).
Proof.
  intros Ho (xa & Ha & Na & <-) (xb & Hb & Nb & <-) Ka Kb.
  assert (exists test, exec_op foreign o = op_compare t test /\
    forall x y c, Z.sgn c = Z.sgn (x - y) -> test c = t x y) as (test & -> & Htest).
  { destruct o; try done; injection Ho as <-; eexists; (split; [done|]); intros x0 y0 c Hc;
      by destruct (sign_tests x0 y0 c Hc) as (? & ? & ?). }
  unfold op_compare. do 3 mstep.
  assert ((forall i k, xa = Fix i -> xb = Fix k -> False) ->
    generic2 "Number" load_number (store_test test) sexp_compare a b (mk h (l ++ [b]) (a :: j) fp p self) =
    Val tt (mk h (l ++ [sexp_make_boolean (t (ival xa) (ival xb))]) (a :: j) fp p self)) as Hslow.
  { intros Hno. unfold generic2. mstep. rewrite (load_number_int _ _ _ Ha), (load_number_int _ _ _ Hb).
    destruct (Integers.compare_spec xa xb Na Nb) as (c & Hc & Hs).
    { destruct xa, xb; cbn; try done; [by destruct (Hno z z0)|split; [by apply Ka|by apply Kb]]. }
    cbn [sexp_compare]. rewrite Hc. cbn [finish store_test]. rewrite (Htest _ _ _ Hs).
    erewrite bind_val by reflexivity. by apply set_arg_at. }
  destruct (fixnum_or_not h a xa Ha) as [(x & -> & ->)|Hna]; [destruct (fixnum_or_not h b xb Hb) as [(y & -> & ->)|Hnb]|].
  - by apply set_arg_at.
  - rewrite <- Hslow by (intros i k _ ->; by destruct (Hnb k)). destruct b; try done. by destruct (Hnb z).
  - rewrite <- Hslow by (intros i k -> _; by destruct (Hna i)). destruct a; try done. by destruct (Hna z).
Qed.

(** C16 (bounds).  The arithmetic instructions are exact.  On two integers, each
    a fixnum or a bignum, the first operand on top, [ADD], [SUB] and [MUL] pop
    both and push the sum, difference or product as an integer in normal form:
    a result that overflows the fixnums is a new bignum, one that fits is a
    fixnum again, and the objects already in the heap are left alone.  [LT],
    [LE] and [EQN] push the truth value and allocate nothing, when the bignums
    have less than 2^31 limbs. *)
Theorem arithmetic_instructions h l a b x y j fp ip self :
  integer_at h a x -> integer_at h b y ->
  (forall o f, In (o, f) [(OP_ADD, Z.add); (OP_SUB, Z.sub); (OP_MUL, Z.mul)] ->
     exists v h' j', exec_op foreign o (mk h (l ++ [b; a]) j fp ip self) = Val tt (mk h' (l ++ [v]) j' fp ip self) /\
       integer_at h' v (f x y) /\ h ⊆ h' /\ length j' = S (length j)) /\
  (forall o t, comparison o = Some t -> limb_count_ok h a -> limb_count_ok h b ->
     exec_op foreign o (mk h (l ++ [b; a]) j fp ip self) =
     Val tt (mk h (l ++ [sexp_make_boolean (t x y)]) (a :: j) fp ip self)).
Proof.
  intros Ha Hb. split.
  - intros o f [[= <- <-]|[[= <- <-]|[[= <- <-]|[]]]].
    + by apply (exec_operation addition _ _ _ _ _ _ _ _ _ _ addition_lawful).
    + by apply (exec_operation subtraction _ _ _ _ _ _ _ _ _ _ subtraction_lawful).
    + by apply (exec_operation multiplication _ _ _ _ _ _ _ _ _ _ multiplication_lawful).
  - intros o t Ho Ka Kb. by apply exec_comparison.
Qed.

End arithmetic.

Lemma arithmetic_instructions_witness :
  exists v h' j', exec_op (fun _ h _ => (SEXP_VOID, h)) OP_ADD
      (VmSteps.mk SEXP_NULL SEXP_FALSE ∅ [Fixnum 1; Fixnum SEXP_MAX_FIXNUM] [] 0 0 SEXP_VOID) =
      Val tt (VmSteps.mk SEXP_NULL SEXP_FALSE h' [v] j' 0 0 SEXP_VOID) /\
    integer_at h' v (SEXP_MAX_FIXNUM + 1).
Proof.
  destruct (arithmetic_instructions (fun _ h _ => (SEXP_VOID, h)) SEXP_NULL SEXP_FALSE ∅ [] (Fixnum SEXP_MAX_FIXNUM) (Fixnum 1)
    SEXP_MAX_FIXNUM 1 [] 0 0 SEXP_VOID) as [H _].
  - exists (Fix SEXP_MAX_FIXNUM). split; [done|]. split; [by vm_compute|done].
  - exists (Fix 1). split; [done|]. split; [by vm_compute|done].
  - destruct (H OP_ADD Z.add (or_introl eq_refl)) as (v & h' & j' & Hx & Hi & _). by exists v, h', j'.
Defined.
