(* ===== verification/Control.v ===== *)
(** * Continuations and errors

    The instructions that move control other than by calls: [CALLCC] and
    [RESUMECC], which copy the stack out and back, and the handler that every
    error goes through. *)
From S2P Require Import Prelude Bignum Numbers Heap Ast Codegen Vm Semantics VmSteps Instructions Calls.
From stdpp Require Import base list option gmap.
#[local] Open Scope Z_scope.
#[local] Arguments alloc : simpl never.

Section control.
Variable foreign : string -> heap -> list sexp -> sexp * heap.
Variables pr hd : sexp.
#[local] Abbreviation mk := (mk pr hd).

(** ** Continuations *)

(** [k] is a continuation that holds the stack [saved]. *)
Definition captured (h : heap) (k : loc) (saved : list sexp) : Prop :=
  exists vec sv m1 m2, h !! k = Some (Procedure 0 1 (Ptr G_RESUMECC_BYTECODE) (Ptr vec)) /\
    h !! vec = Some (Vector [Ptr sv] m1) /\ h !! sv = Some (Vector saved m2).

Lemma alloc_new h o v h' : alloc h o = (v, h') -> exists p, v = Ptr p /\ h !! p = None /\ h' = <[p := o]> h.
Proof. unfold alloc. intros [= <- <-]. eexists. split; [done|]. split; [apply not_elem_of_dom, is_fresh|done]. Qed.

Lemma subseteq_new (h h' : heap) p o : h' !! p = None -> h ⊆ h' -> h ⊆ <[p := o]> h'.
Proof. intros Hp Hh. etransitivity; [exact Hh|by apply insert_subseteq]. Qed.

Lemma set_fp_spec h l j fp ip self f : set_fp f (mk h l j fp ip self) = Val tt (mk h l j f ip self).
Proof. done. Qed.

Lemma set_self_spec h l j fp ip self p : set_self p (mk h l j fp ip self) = Val tt (mk h l j fp ip p).
Proof. done. Qed.

Lemma save_stack_spec h l k j fp ip self v h' : alloc h (Vector (l ++ k) false) = (v, h') ->
  sexp_save_stack (Z.of_nat (length l + length k)) (mk h l (k ++ j) fp ip self) = Val v (mk h' l (k ++ j) fp ip self).
Proof.
  intros Ha. unfold sexp_save_stack. cbn [v_stack VmSteps.mk].
  rewrite (proj2 (Z.leb_le _ _)), (proj2 (Z.leb_le _ _)) by llia. cbn [andb].
  rewrite Nat2Z.id, app_assoc, take_app_length' by llia. by apply allocate_spec.
Qed.

Lemma op_callcc_spec h l proc x1 x2 x3 x4 j fp ip self :
  exists k h' j', op_callcc (mk h (l ++ [proc]) (x1 :: x2 :: x3 :: x4 :: j) fp ip self) =
      make_call 1 proc (mk h' (l ++ [Ptr k; Fixnum 1]) j' fp (ip - 8) self) /\
    captured h' k (l ++ [proc; Fixnum 1; Fixnum ip; self; Fixnum fp]) /\ h ⊆ h' /\ length j' = S (S (S (length j))).
Proof.
  unfold op_callcc. do 4 mstep. set (top := Z.of_nat (length (l ++ [proc]))).
  set (w := [Fixnum 1; Fixnum ip; self; Fixnum fp]).
  erewrite bind_val; [|apply (stack_set_free pr hd h (l ++ [proc]) [] x1); subst top; llia].
  erewrite bind_val; [|apply (stack_set_free pr hd h (l ++ [proc]) [Fixnum 1] x2); subst top; llia].
  erewrite bind_val; [|apply (stack_set_free pr hd h (l ++ [proc]) [Fixnum 1; Fixnum ip] x3); subst top; llia].
  erewrite bind_val; [|apply (stack_set_free pr hd h (l ++ [proc]) [Fixnum 1; Fixnum ip; self] x4); subst top; llia].
  cbn [app]. mstep.
  destruct (alloc h (Vector ((l ++ [proc]) ++ w) false)) as [sv h1] eqn:E1.
  destruct (alloc h1 (Vector [sv] false)) as [vec h2] eqn:E2.
  destruct (alloc h2 (Procedure 0 1 (Ptr G_RESUMECC_BYTECODE) vec)) as [k h3] eqn:E3.
  erewrite bind_val.
  2: { replace (top + 4) with (Z.of_nat (length (l ++ [proc]) + length w)) by (subst top w; llia).
       apply (save_stack_spec h (l ++ [proc]) w j fp ip self sv h1 E1). }
  subst w. cbn [app]. do 2 mstep.
  destruct (alloc_new _ _ _ _ E1) as (s & -> & N1 & ->). destruct (alloc_new _ _ _ _ E2) as (c & -> & N2 & ->).
  destruct (alloc_new _ _ _ _ E3) as (p & -> & N3 & ->).
  apply lookup_insert_None in N2 as [N2 D1]. apply lookup_insert_None in N3 as [N3 D2]. apply lookup_insert_None in N3 as [N3 D3].
  exists p. eexists. exists (Fixnum ip :: self :: Fixnum fp :: j). split; [|split; [|split]].
  - mstep. erewrite bind_val.
    2: { change (Fixnum 1 :: Fixnum ip :: self :: Fixnum fp :: j) with ([Fixnum 1] ++ Fixnum ip :: self :: Fixnum fp :: j).
         apply set_top_up. subst top. llia. }
    mstep. rewrite <- (app_assoc l [Ptr p]). reflexivity.
  - exists c, s, false, false. rewrite lookup_insert_eq, lookup_insert_ne, lookup_insert_eq by done.
    split_and!; [done..|]. rewrite !lookup_insert_ne, lookup_insert_eq by done. rewrite <- app_assoc. reflexivity.
  - apply subseteq_new; [by rewrite !lookup_insert_ne by done|]. apply subseteq_new; [by rewrite lookup_insert_ne by done|].
    by apply subseteq_new.
  - done.
Qed.

(** What [RESUMECC] does before it restores the stack. *)
Lemma op_resumecc_start h k saved l2 j2 fp2 ip2 v :
  captured h k saved -> 0 <= fp2 - 1 -> (l2 ++ j2) !! Z.to_nat (fp2 - 1) = Some v ->
  op_resumecc (mk h l2 j2 fp2 ip2 (Ptr k)) =
    (size ← stack_length;
     ok ← sexp_restore_stack saved;
     size' ← stack_length;
     if negb (ok : bool) then set_arg 1 (Ptr G_OOS_ERROR);; call_error_handler
     else if negb (size =? size') then bad
     else
       fp ← arg 1; fp ← unbox fp;
       self ← arg 2;
       ret ← arg 3; ret ← unbox ret;
       set_fp fp;; set_self self;; set_ip ret;; drop_top 4;; set_arg 1 v) (mk h l2 j2 fp2 ip2 (Ptr k)).
Proof.
  intros (vec & sv & m1 & m2 & Hk & Hvec & Hsv) H0 Hv. unfold op_resumecc. mstep.
  erewrite bind_val; [|apply (raw_get_lookup pr hd h (l2 ++ j2)); [lia|exact Hv]].
  erewrite bind_val by reflexivity.
  erewrite bind_val; [|unfold procedure_of; erewrite bind_val by reflexivity; cbn; rewrite Hk; reflexivity]. cbn beta iota.
  erewrite bind_val by reflexivity. cbn [v_heap raw VmSteps.mk deref].
  erewrite bind_val; [|rewrite Hvec; cbn beta iota; cbn [deref]; rewrite Hsv; reflexivity]. reflexivity.
Qed.

(** Any machine that calls the continuation on [v], with room for the stack it
    holds. *)
Lemma op_resumecc_spec h k l proc fp ip self l2 j2 fp2 ip2 v :
  captured h k (l ++ [proc; Fixnum 1; Fixnum ip; self; Fixnum fp]) ->
  0 <= fp2 - 1 -> (l2 ++ j2) !! Z.to_nat (fp2 - 1) = Some v ->
  Z.of_nat (length l) + 69 < Z.of_nat (length (l2 ++ j2)) ->
  exists j', op_resumecc (mk h l2 j2 fp2 ip2 (Ptr k)) = Val tt (mk h (l ++ [v]) j' fp ip self) /\
    length ((l ++ [v]) ++ j') = length (l2 ++ j2).
Proof.
  intros Hk H0 Hv Hroom. rewrite (op_resumecc_start _ _ _ _ _ _ _ _ Hk H0 Hv).
  set (saved := l ++ [proc; Fixnum 1; Fixnum ip; self; Fixnum fp]) in *.
  assert (length saved = length l + 5)%nat as Hlen by (subst saved; llia).
  erewrite bind_val by reflexivity.
  set (rest := drop (length saved) (l2 ++ j2)).
  assert (sexp_restore_stack saved (mk h l2 j2 fp2 ip2 (Ptr k)) =
    Val true (mk h saved rest fp2 ip2 (Ptr k))) as Hres.
  { unfold sexp_restore_stack. erewrite bind_val by reflexivity. cbn [v_stack raw VmSteps.mk].
    destruct (Z.geb_spec (Z.of_nat (length saved) + 64) (Z.of_nat (length (l2 ++ j2)))); [lia|].
    erewrite bind_val by reflexivity. cbn iota. do 2 erewrite bind_val by reflexivity. cbn [v_stack raw VmSteps.mk].
    rewrite (proj2 (Z.leb_le _ _)) by lia. reflexivity. }
  erewrite bind_val; [|exact Hres]. erewrite bind_val by reflexivity. cbn [negb].
  assert (length (saved ++ rest) = length (l2 ++ j2)) as Hsz by (rewrite length_app; subst rest; rewrite length_drop; lia).
  cbn [v_stack raw VmSteps.mk]. rewrite Hsz, Z.eqb_refl. cbn [negb].
  exists (Fixnum 1 :: Fixnum ip :: self :: Fixnum fp :: rest). split; [|rewrite <- Hsz; subst saved; llia].
  subst saved. do 5 mstep.
  erewrite bind_val by apply set_fp_spec. erewrite bind_val by apply set_self_spec. mstep.
  change [proc; Fixnum 1; Fixnum ip; self; Fixnum fp] with ([proc] ++ [Fixnum 1; Fixnum ip; self; Fixnum fp]).
  rewrite app_assoc. erewrite bind_val by (by apply drop_top_spec). by apply set_arg_at.
Qed.

(** A stack that is not the largest there is is replaced by a larger one. *)
Lemma grow_stack_larger n h l j fp ip self : 0 < n -> Z.of_nat (length (l ++ j)) <= n ->
  Z.of_nat (length (l ++ j)) < SEXP_MAX_STACK_SIZE ->
  sexp_grow_stack n (mk h l j fp ip self) = Bad \/
  exists st, sexp_grow_stack n (mk h l j fp ip self) =
      Val true (Vm h st (Z.of_nat (length l)) fp ip self pr hd) /\
    Z.of_nat (length (l ++ j)) < Z.of_nat (length st).
Proof.
  intros Hpos Hn Hmax. unfold sexp_grow_stack. cbn [v_stack v_top VmSteps.mk]. set (size := Z.of_nat (length (l ++ j))) in *.
  set (n0 := if 2 * size <? n then n else 2 * size).
  assert (size < n0) as Hn0 by (unfold n0; destruct (Z.ltb_spec (2 * size) n); lia).
  rewrite (proj2 (Z.eqb_neq size SEXP_MAX_STACK_SIZE)), andb_false_r by lia.
  set (n1 := if n0 >? SEXP_MAX_STACK_SIZE then SEXP_MAX_STACK_SIZE else n0).
  assert (size < n1) as Hn1 by (unfold n1; destruct (Z.gtb_spec n0 SEXP_MAX_STACK_SIZE); lia).
  destruct (Z.leb_spec (Z.of_nat (length l) + 2) size), (Z.leb_spec (Z.of_nat (length l) + 2) n1); cbn [andb]; auto.
  right. eexists. split; [reflexivity|]. rewrite length_app, length_take, length_replicate. lia.
Qed.

(** Without room the stack is replaced by a larger one, whose words the code
    then looks for in the old one; or it is the largest there is. *)
Lemma op_resumecc_grows h k l proc fp ip self l2 j2 fp2 ip2 v :
  captured h k (l ++ [proc; Fixnum 1; Fixnum ip; self; Fixnum fp]) ->
  0 <= fp2 - 1 -> (l2 ++ j2) !! Z.to_nat (fp2 - 1) = Some v ->
  Z.of_nat (length (l2 ++ j2)) <= Z.of_nat (length l) + 69 ->
  Z.of_nat (length (l2 ++ j2)) < SEXP_MAX_STACK_SIZE ->
  op_resumecc (mk h l2 j2 fp2 ip2 (Ptr k)) = Bad.
Proof.
  intros Hk H0 Hv Hroom Hmax. rewrite (op_resumecc_start _ _ _ _ _ _ _ _ Hk H0 Hv).
  set (saved := l ++ [proc; Fixnum 1; Fixnum ip; self; Fixnum fp]) in *.
  assert (length saved = length l + 5)%nat as Hlen by (subst saved; llia).
  erewrite bind_val by reflexivity. cbn [v_stack VmSteps.mk].
  assert (sexp_restore_stack saved (mk h l2 j2 fp2 ip2 (Ptr k)) = Bad \/ exists s,
    sexp_restore_stack saved (mk h l2 j2 fp2 ip2 (Ptr k)) = Val true s /\
    Z.of_nat (length (l2 ++ j2)) < Z.of_nat (length (v_stack s))) as [Hbad|(s & Hs & Hlt)].
  { unfold sexp_restore_stack. erewrite bind_val by reflexivity. cbn [v_stack VmSteps.mk].
    destruct (Z.geb_spec (Z.of_nat (length saved) + 64) (Z.of_nat (length (l2 ++ j2)))); [|lia].
    destruct (grow_stack_larger (Z.of_nat (length saved) + 64) h l2 j2 fp2 ip2 (Ptr k)) as [Hg|(st & Hg & Hst)];
      [lia|lia|lia|..].
    - left. unfold mbind, M_bind. by rewrite Hg.
    - erewrite bind_val by exact Hg. cbn iota. do 2 erewrite bind_val by reflexivity. cbn [v_stack].
      destruct (Z.leb_spec (Z.of_nat (length saved)) (Z.of_nat (length st))); [right|by left].
      eexists. split; [reflexivity|]. cbn [v_stack]. rewrite (length_app saved), length_drop. lia. }
  - unfold mbind, M_bind. by rewrite Hbad.
  - erewrite bind_val by exact Hs. erewrite bind_val by reflexivity. cbn [negb].
    by rewrite (proj2 (Z.eqb_neq _ _)) by lia.
Qed.

Lemma op_resumecc_full h k l proc fp ip self l2 w j2 fp2 ip2 v :
  captured h k (l ++ [proc; Fixnum 1; Fixnum ip; self; Fixnum fp]) ->
  0 <= fp2 - 1 -> ((l2 ++ [w]) ++ j2) !! Z.to_nat (fp2 - 1) = Some v ->
  Z.of_nat (length ((l2 ++ [w]) ++ j2)) <= Z.of_nat (length l) + 69 ->
  Z.of_nat (length ((l2 ++ [w]) ++ j2)) = SEXP_MAX_STACK_SIZE ->
  op_resumecc (mk h (l2 ++ [w]) j2 fp2 ip2 (Ptr k)) = Exc (mk h (l2 ++ [Ptr G_OOS_ERROR]) j2 fp2 ip2 (Ptr k)).
Proof.
  intros Hk H0 Hv Hroom Hmax. rewrite (op_resumecc_start _ _ _ _ _ _ _ _ Hk H0 Hv).
  set (saved := l ++ [proc; Fixnum 1; Fixnum ip; self; Fixnum fp]) in *.
  assert (length saved = length l + 5)%nat as Hlen by (subst saved; llia).
  erewrite bind_val by reflexivity.
  assert (sexp_restore_stack saved (mk h (l2 ++ [w]) j2 fp2 ip2 (Ptr k)) = Val false (mk h (l2 ++ [w]) j2 fp2 ip2 (Ptr k))) as Hres.
  { unfold sexp_restore_stack. erewrite bind_val by reflexivity. cbn [v_stack VmSteps.mk].
    destruct (Z.geb_spec (Z.of_nat (length saved) + 64) (Z.of_nat (length ((l2 ++ [w]) ++ j2)))); [|lia].
    erewrite bind_val.
    2: { unfold sexp_grow_stack. cbn [v_stack v_top VmSteps.mk]. rewrite Hmax, Z.eqb_refl.
      match goal with |- context [?n >? SEXP_MAX_STACK_SIZE] => assert ((n >? SEXP_MAX_STACK_SIZE) = true) as -> end; [|done].
      destruct (Z.ltb_spec (2 * SEXP_MAX_STACK_SIZE) (Z.of_nat (length saved) + 64)); unfold SEXP_MAX_STACK_SIZE in *; lia. }
    reflexivity. }
  erewrite bind_val; [|exact Hres]. erewrite bind_val by reflexivity. cbn [negb].
  erewrite bind_val by (by apply set_arg_at). reflexivity.
Qed.

(** C14 (roundtrip).  A continuation comes back to where it was captured.
    [CALLCC] calls its operand, in the caller's frame, on a new procedure [k]
    that holds a copy of the stack and the registers, and changes no object of
    the heap.  When [k] is entered with the argument [v], in whatever
    activation, on a stack with more than 69 words beyond those below the
    operand of the capture, [RESUMECC] gives the machine the stack of the capture
    with [v] in the place of the operand, and the registers of the capture: the
    state in which the [CALLCC] instruction would have returned [v].  On a
    smaller stack it does not: when the stack can grow, it is replaced and the
    code goes on with the address of the old one (undefined behaviour, [Bad]);
    when it has its largest size, the out-of-stack error goes to the error
    handler in the place of the top word. *)
Theorem callcc_resumes h l proc x1 x2 x3 x4 j fp ip self :
  exists k h' j',
    exec_op foreign OP_CALLCC (mk h (l ++ [proc]) (x1 :: x2 :: x3 :: x4 :: j) fp ip self) =
      make_call 1 proc (mk h' (l ++ [Ptr k; Fixnum 1]) j' fp (ip - 8) self) /\
    h ⊆ h' /\ captured h' k (l ++ [proc; Fixnum 1; Fixnum ip; self; Fixnum fp]) /\
    forall h2 l2 j2 fp2 ip2 v,
      captured h2 k (l ++ [proc; Fixnum 1; Fixnum ip; self; Fixnum fp]) ->
      1 <= fp2 -> (l2 ++ j2) !! Z.to_nat (fp2 - 1) = Some v ->
      let size := Z.of_nat (length (l2 ++ j2)) in
      let r := exec_op foreign OP_RESUMECC (mk h2 l2 j2 fp2 ip2 (Ptr k)) in
      (Z.of_nat (length l) + 69 < size ->
        exists j3, r = Val tt (mk h2 (l ++ [v]) j3 fp ip self) /\ length ((l ++ [v]) ++ j3) = length (l2 ++ j2)) /\
      (size <= Z.of_nat (length l) + 69 -> size < SEXP_MAX_STACK_SIZE -> r = Bad) /\
      (size <= Z.of_nat (length l) + 69 -> size = SEXP_MAX_STACK_SIZE ->
        forall l3 w, l2 = l3 ++ [w] -> r = Exc (mk h2 (l3 ++ [Ptr G_OOS_ERROR]) j2 fp2 ip2 (Ptr k))).
Proof.
  destruct (op_callcc_spec h l proc x1 x2 x3 x4 j fp ip self) as (k & h' & j' & Hx & Hk & Hh & _).
  exists k, h', j'. split_and!; [exact Hx|done|done|]. intros h2 l2 j2 fp2 ip2 v Hk2 H0 Hv size r. split_and!.
  - intros Hr. eapply op_resumecc_spec; [exact Hk2|lia|done|done].
  - intros Hr Hm. eapply op_resumecc_grows; [exact Hk2|lia|done|done|done].
  - intros Hr Hm l3 w ->. eapply op_resumecc_full; [exact Hk2|lia|done|done|done].
Qed.

(** ** Errors *)

Lemma raise_spec {A} h l x j fp ip self msg irritants :
  exists e h' m ir, raise (A := A) msg irritants (mk h l (x :: j) fp ip self) = Exc (mk h' (l ++ [Ptr e]) j fp ip self) /\
    h' !! e = Some (Exception (Symbol "user") m ir self SEXP_FALSE) /\ deref h' m = Some (String msg) /\ h ⊆ h'.
Proof.
  assert (forall ls h0 k, exists ir h1, make_list ls (mk h0 l k fp ip self) = Val ir (mk h1 l k fp ip self) /\ h0 ⊆ h1) as Hlist.
  { induction ls as [|y ls IH]; intros h0 k; [by exists SEXP_NULL, h0|]. cbn [make_list].
    destruct (IH h0 k) as (d & h1 & Hd & Hs). destruct (alloc h1 (Pair y d false)) as [v h2] eqn:E.
    destruct (alloc_new _ _ _ _ E) as (p & -> & Hp & ->). exists (Ptr p), (<[p:=Pair y d false]> h1).
    split; [|by apply subseteq_new]. rewrite (bind_val _ _ _ _ _ Hd). by apply allocate_spec. }
  destruct (Hlist irritants h (x :: j)) as (ir & h1 & Hir & Hs).
  destruct (alloc h1 (String msg)) as [m h2] eqn:E1. destruct (alloc_new _ _ _ _ E1) as (pm & -> & Hm & ->).
  destruct (alloc (<[pm:=String msg]> h1) (Exception (Symbol "user") (Ptr pm) ir self SEXP_FALSE)) as [e h3] eqn:E2.
  destruct (alloc_new _ _ _ _ E2) as (pe & -> & He & ->). exists pe. eexists. exists (Ptr pm), ir.
  split; [|split; [by rewrite lookup_insert_eq|split]].
  - unfold raise. mstep. rewrite (bind_val _ _ _ _ _ Hir). erewrite bind_val by (by apply stack_set_above). do 3 mstep.
    erewrite bind_val by (by apply stack_set_above). erewrite bind_val.
    2: { change (Ptr pe :: j) with ([Ptr pe] ++ j). apply set_top_up. llia. }
    reflexivity.
  - cbn. apply lookup_insert_None in He as [_ Hne]. by rewrite lookup_insert_ne, lookup_insert_eq.
  - apply subseteq_new; [done|]. by apply subseteq_new.
Qed.

(** No trampoline: the exception kind that asks for a call or a new run. *)
Definition no_trampoline (h : heap) (v : sexp) : Prop :=
  match deref h v with Some (Exception SEXP_TRAMPOLINE _ _ _ _) => False | _ => True end.

Lemma op_raise_handled h l x x1 x2 x3 x4 j fp ip self hp : no_trampoline h x ->
  sexp_parameter_ref h pr hd = Some hp -> sexp_procedurep h hp = true ->
  op_raise (mk h (l ++ [x]) (x1 :: x2 :: x3 :: x4 :: j) fp ip self) =
  Val tt (mk h (l ++ [x] ++ frame 1 ip self fp) j (Z.of_nat (length l) + 1) 0 hp).
Proof.
  intros Hx Hp Hproc. unfold op_raise. do 2 mstep.
  lazymatch goal with |- match _ with Some _ => _ | None => ?B end _ = ?r =>
    cut (B (mk h (l ++ [x]) (x1 :: x2 :: x3 :: x4 :: j) fp ip self) = r) end.
  { intros HB. unfold no_trampoline in Hx. destruct (deref h x) as [[]|]; try exact HB. destruct kind; try exact HB. done. }
  mstep. mstep. cbn [v_params v_handler VmSteps.mk]. rewrite Hp. mstep. rewrite Hproc. cbn [negb]. do 4 mstep. set (top := Z.of_nat (length (l ++ [x]))).
  erewrite bind_val; [|apply (stack_set_free pr hd h (l ++ [x]) [] x1); subst top; llia].
  erewrite bind_val; [|apply (stack_set_free pr hd h (l ++ [x]) [Fixnum 1] x2); subst top; llia].
  erewrite bind_val; [|apply (stack_set_free pr hd h (l ++ [x]) [Fixnum 1; Fixnum ip] x3); subst top; llia].
  erewrite bind_val; [|apply (stack_set_free pr hd h (l ++ [x]) [Fixnum 1; Fixnum ip; self] x4); subst top; llia].
  cbn [app]. erewrite bind_val.
  2: { change (Fixnum 1 :: Fixnum ip :: self :: Fixnum fp :: j) with (frame 1 ip self fp ++ j). apply set_top_up. subst top. unfold frame. llia. }
  erewrite bind_val by apply set_self_spec. mstep. rewrite <- app_assoc. subst top.
  rewrite set_fp_spec. do 2 f_equal. llia.
Qed.

Lemma op_raise_uncaught h l x j fp ip self hp : no_trampoline h x ->
  sexp_parameter_ref h pr hd = Some hp -> sexp_procedurep h hp = false -> sexp_exceptionp h x = true ->
  op_raise (mk h (l ++ [x]) j fp ip self) = End (mk h (l ++ [x]) j fp ip self).
Proof.
  intros Hx Hp Hproc He. unfold op_raise. do 2 mstep.
  lazymatch goal with |- match _ with Some _ => _ | None => ?B end _ = ?r =>
    cut (B (mk h (l ++ [x]) j fp ip self) = r) end.
  { intros HB. unfold no_trampoline in Hx. destruct (deref h x) as [[]|]; try exact HB. destruct kind; try exact HB. done. }
  mstep. mstep. cbn [v_params v_handler VmSteps.mk]. rewrite Hp. mstep. rewrite Hproc. cbn [negb]. mstep. rewrite He. mstep. reflexivity.
Qed.

(** The message and irritants of a wrong use of an instruction on its operands. *)
Definition misuse (h : heap) (o : op_name) (vs : list sexp) : option (string * list sexp) :=
  match o, vs with
  | OP_CAR, [a] => if sexp_pairp h a then None else Some ("car: not a pair", [a])
  | OP_CDR, [a] => if sexp_pairp h a then None else Some ("cdr: not a pair", [a])
  | OP_SET_CAR, [a; _] =>
      match deref h a with
      | Some (Pair _ _ m) => if m then Some ("set-car!: immutable pair", [a]) else None
      | _ => Some ("set-car!: not a pair", [a])
      end
  | OP_SET_CDR, [a; _] =>
      match deref h a with
      | Some (Pair _ _ m) => if m then Some ("set-cdr!: immutable pair", [a]) else None
      | _ => Some ("set-cdr!: not a pair", [a])
      end
  | OP_VECTOR_LENGTH, [v] => match deref h v with Some (Vector _ _) => None | _ => Some ("vector-length: not a vector", [v]) end
  | OP_VECTOR_REF, [v; i] =>
      match deref h v, i with
      | Some (Vector data _), Fixnum k =>
          if check_index k (Z.of_nat (length data)) then None else Some ("vector-ref: index out of range", [v; i])
      | Some (Vector _ _), _ => Some ("vector-ref: not an integer", [i])
      | _, _ => Some ("vector-ref: not a vector", [v])
      end
  | OP_VECTOR_SET, [v; i; _] =>
      match deref h v, i with
      | Some (Vector _ true), _ => Some ("vector-set!: immutable vector", [v])
      | Some (Vector data false), Fixnum k =>
          if check_index k (Z.of_nat (length data)) then None else Some ("vector-set!: index out of range", [v; i])
      | Some (Vector _ false), _ => Some ("vector-set!: not an integer", [i])
      | _, _ => Some ("vector-set!: not a vector", [v])
      end
  | _, _ => None
  end.

Lemma misuse_raises h o vs msg irritants l j fp ip self : misuse h o vs = Some (msg, irritants) ->
  exec_op foreign o (mk h (l ++ rev vs) j fp ip self) = raise msg irritants (mk h (l ++ rev vs) j fp ip self).
Proof.
  unfold misuse. intros H. destruct o; try done; destruct vs as [|a [|b [|c [|? ?]]]]; try done; cbn [exec_op rev app].
  - unfold op_vector_ref. do 3 mstep. destruct (deref h a) as [[]|]; try by injection H as <- <-.
    destruct b; try by injection H as <- <-. destruct (check_index _ _); by simplify_eq.
  - unfold op_vector_set. do 3 mstep.
    destruct a; cbn [deref] in *; try by injection H as <- <-.
    destruct (h !! _) as [[? ?|? []| | | | | | | |]|]; try by injection H as <- <-.
    all: destruct b; try by injection H as <- <-.
    all: destruct (check_index _ _); by simplify_eq.
  - unfold op_vector_length. do 2 mstep. destruct (deref h a) as [[]|]; by simplify_eq.
  - unfold op_car, pairp. mstep. erewrite bind_val by reflexivity. cbn [v_heap VmSteps.mk]. destruct (sexp_pairp h a); by simplify_eq.
  - unfold op_cdr, pairp. mstep. erewrite bind_val by reflexivity. cbn [v_heap VmSteps.mk]. destruct (sexp_pairp h a); by simplify_eq.
  - unfold op_set_car. do 2 mstep. destruct a; cbn [deref] in *; try by simplify_eq. destruct (h !! _) as [[? ? []| | | | | | | | |]|]; by simplify_eq.
  - unfold op_set_cdr. do 2 mstep. destruct a; cbn [deref] in *; try by simplify_eq. destruct (h !! _) as [[? ? []| | | | | | | | |]|]; by simplify_eq.
Qed.

(** C15 (error).  Errors reach the handler.  A data instruction on operands of
    the wrong type, on an index out of range or on an immutable object changes
    nothing and leaves on top of its operands an exception with its message,
    the irritants and the running procedure.  The machine then looks up the
    current handler: when it is a procedure, it is entered with the exception
    as its one argument, in a frame that returns after the failing instruction;
    when there is none, the run ends with the exception as its result. *)
Theorem errors_reach_handler h o vs msg irritants l x x1 x2 x3 x4 j fp ip self :
  misuse h o vs = Some (msg, irritants) ->
  exists e m ir h',
    exec_op foreign o (mk h (l ++ rev vs) (x :: x1 :: x2 :: x3 :: x4 :: j) fp ip self) =
      Exc (mk h' ((l ++ rev vs) ++ [Ptr e]) (x1 :: x2 :: x3 :: x4 :: j) fp ip self) /\
    h' !! e = Some (Exception (Symbol "user") m ir self SEXP_FALSE) /\ deref h' m = Some (String msg) /\ h ⊆ h' /\
    forall hp, sexp_parameter_ref h' pr hd = Some hp ->
      step foreign (Raising (mk h' ((l ++ rev vs) ++ [Ptr e]) (x1 :: x2 :: x3 :: x4 :: j) fp ip self)) =
      if sexp_procedurep h' hp
      then Goes (Run (mk h' ((l ++ rev vs) ++ [Ptr e] ++ frame 1 ip self fp) j (Z.of_nat (length (l ++ rev vs)) + 1) 0 hp))
      else Stops (mk h' ((l ++ rev vs) ++ [Ptr e]) (x1 :: x2 :: x3 :: x4 :: j) fp ip self).
Proof.
  intros Hm. rewrite (misuse_raises _ _ _ _ _ _ _ _ _ _ Hm).
  destruct (raise_spec (A := unit) h (l ++ rev vs) x (x1 :: x2 :: x3 :: x4 :: j) fp ip self msg irritants)
    as (e & h' & m & ir & Hr & He & Hmsg & Hh).
  exists e, m, ir, h'. split_and!; [done..|]. intros hp Hp.
  assert (no_trampoline h' (Ptr e)) as Hn by (unfold no_trampoline; cbn; by rewrite He).
  unfold step. destruct (sexp_procedurep h' hp) eqn:E.
  - by rewrite (op_raise_handled _ _ _ _ _ _ _ _ _ _ _ _ Hn Hp E).
  - rewrite (op_raise_uncaught _ _ _ _ _ _ _ _ Hn Hp E); [done|]. unfold sexp_exceptionp. cbn. by rewrite He.
Qed.

End control.

Section witnesses.
Let foreign : string -> heap -> list sexp -> sexp * heap := fun _ h _ => (SEXP_VOID, h).
Let m := VmSteps.mk SEXP_NULL SEXP_FALSE.

(** A continuation of a stack of two words, on a stack of 201 words and on one of 50. *)
Lemma callcc_resumes_witness :
  exists k h' j' j3,
    exec_op foreign OP_CALLCC (m ∅ [Fixnum 7; SEXP_VOID] (replicate 100 SEXP_VOID) 3 20 SEXP_TRUE) =
      make_call 1 SEXP_VOID (m h' [Fixnum 7; Ptr k; Fixnum 1] j' 3 12 SEXP_TRUE) /\
    exec_op foreign OP_RESUMECC (m h' [Fixnum 9] (replicate 200 SEXP_VOID) 1 0 (Ptr k)) =
      Val tt (m h' [Fixnum 7; Fixnum 9] j3 3 20 SEXP_TRUE) /\
    exec_op foreign OP_RESUMECC (m h' [Fixnum 9] (replicate 49 SEXP_VOID) 1 0 (Ptr k)) = Bad.
Proof.
  destruct (callcc_resumes foreign SEXP_NULL SEXP_FALSE ∅ [Fixnum 7] SEXP_VOID SEXP_VOID SEXP_VOID SEXP_VOID SEXP_VOID
    (replicate 96 SEXP_VOID) 3 20 SEXP_TRUE) as (k & h' & j' & Hc & _ & Hk & Hr).
  destruct (proj1 (Hr h' [Fixnum 9] (replicate 200 SEXP_VOID) 1 0 (Fixnum 9) Hk ltac:(lia) eq_refl)) as (j3 & Hx & _);
    [vm_compute; reflexivity|].
  exists k, h', j', j3. split; [exact Hc|split; [exact Hx|]].
  apply (proj1 (proj2 (Hr h' [Fixnum 9] (replicate 49 SEXP_VOID) 1 0 (Fixnum 9) Hk ltac:(lia) eq_refl)));
    vm_compute; first [reflexivity | discriminate].
Defined.

Lemma errors_reach_handler_witness :
  misuse ∅ OP_CAR [Fixnum 3] = Some ("car: not a pair", [Fixnum 3]) /\
  exists e h', exec_op foreign OP_CAR (m ∅ [Fixnum 3] (replicate 5 SEXP_VOID) 0 9 SEXP_TRUE) =
      Exc (m h' [Fixnum 3; Ptr e] (replicate 4 SEXP_VOID) 0 9 SEXP_TRUE) /\
    step foreign (Raising (m h' [Fixnum 3; Ptr e] (replicate 4 SEXP_VOID) 0 9 SEXP_TRUE)) =
      Stops (m h' [Fixnum 3; Ptr e] (replicate 4 SEXP_VOID) 0 9 SEXP_TRUE).
Proof.
  split; [reflexivity|].
  destruct (errors_reach_handler foreign SEXP_NULL SEXP_FALSE ∅ OP_CAR [Fixnum 3] "car: not a pair" [Fixnum 3] []
    SEXP_VOID SEXP_VOID SEXP_VOID SEXP_VOID SEXP_VOID [] 0 9 SEXP_TRUE) as (e & mm & ir & h' & Hx & _ & _ & _ & Hs); [reflexivity|].
  exists e, h'. split; [exact Hx|]. exact (Hs SEXP_FALSE eq_refl).
Defined.
End witnesses.
