(* ===== verification/Gc.v ===== *)
(** * The garbage collector

    The mark and sweep collector of [gc.c] over a memory of objects at
    addresses and heaps with free lists sorted by address: marking with the
    explicit stack of ranges, the reset of weak references, the finalizer pass,
    the sweep with its merging of free chunks, and first-fit allocation. *)
From S2P Require Import Prelude.
From stdpp Require Import base list option gmap.
#[local] Open Scope Z_scope.

(** ** Memory *)

(** A word in an object: an immediate ([NULL] is [Imm 0]) or an address. *)
Inductive value := Imm (z : Z) | Ref (a : Z).

#[global] Instance value_eq_dec : EqDecision value.
Proof. solve_decision. Defined.

Definition SEXP_FALSE : value := Imm 62.

(** The finalizer of the type of an object. *)
Inductive finalizer := NoFinalizer | Finalizer | DlFinalizer.

#[global] Instance finalizer_eq_dec : EqDecision finalizer.
Proof. solve_decision. Defined.

(** What the collector knows of an object through its type: the bytes it takes,
    its strong fields, the values of the C variables that a context preserves,
    and, for a type with weak fields, those fields and the ones cleared with
    them. *)
Record object := Object {
  o_size : Z;
  o_slots : list value;
  o_saves : list value;
  o_weak : option (list value * list value);
  o_finalizer : finalizer;
  o_marked : bool;
  o_broken : bool;
}.

Definition set_marked (b : bool) (o : object) : object :=
  Object (o_size o) (o_slots o) (o_saves o) (o_weak o) (o_finalizer o) b (o_broken o).

Abbreviation objects := (gmap Z object).

(** A free chunk: its address and size. *)
Abbreviation chunk := (Z * Z)%type.

(** [struct sexp_heap_t]; the first cell of the free list, at the start of the
    data, has size 0 and is left out. *)
Record heap := Heap {
  h_data : Z;
  h_size : Z;
  h_max_size : Z;
  h_free : list chunk;
}.

Definition sexp_heap_align (n : Z) : Z := Z.land (n + 31) (-32).
Definition sexp_free_chunk_size : Z := 16.
Definition sexp_heap_first_block (h : heap) : Z := h_data h + sexp_heap_align sexp_free_chunk_size.
Definition sexp_heap_end (h : heap) : Z := h_data h + h_size h.
Definition SEXP_MINIMUM_OBJECT_SIZE : Z := sexp_heap_align 1.

(** [sexp_markedp]; no object at the address is no mark. *)
Definition markedp (os : objects) (v : value) : bool :=
  match v with Ref a => match os !! a with Some o => o_marked o | None => false end | Imm _ => false end.

(** ** Marking *)

(** Nothing to mark: an immediate or a marked object. *)
Definition skippable (os : objects) (v : value) : bool :=
  match v with Imm _ => true | Ref _ => markedp os v end.

(** The two loops that drop fields from the end, on the fields last to first;
    one field is always left. *)
Fixpoint skip_immediates (os : objects) (l : list value) : list value :=
  match l with
  | v :: ((_ :: _) as rest) => if skippable os v then skip_immediates os rest else l
  | _ => l
  end.

Fixpoint skip_duplicates (l : list value) : list value :=
  match l with
  | v :: ((w :: _) as rest) => if decide (v = w) then skip_duplicates rest else l
  | _ => l
  end.

(** Objects, and the stack of ranges of fields still to be marked. *)
Abbreviation marking := (objects * list (list value))%type.

Fixpoint foldM {A S} (f : A -> S -> option S) (l : list A) (s : S) : option S :=
  match l with [] => Some s | x :: l => s ← f x s; foldM f l s end.

(** [sexp_mark_one]: the fields but the last one go on the stack as a range
    [p .. q], the last one is next.  [None]: out of fuel, or no object at the
    address. *)
Fixpoint sexp_mark_one (fuel : nat) (x : value) (s : marking) : option marking :=
  match fuel with
  | O => None
  | S fuel =>
      match x with
      | Imm _ => Some s
      | Ref a =>
          o ← s.1 !! a;
          if o_marked o then Some s
          else
            s ← foldM (sexp_mark_one fuel) (o_saves o) (<[a := set_marked true o]> s.1, s.2);
            match skip_duplicates (skip_immediates s.1 (rev (o_slots o))) with
            | [] => Some s
            | [q] => sexp_mark_one fuel q s
            | q :: range => sexp_mark_one fuel q (s.1, rev range :: s.2)
            end
      end
  end.

(** [sexp_mark_one_start]: ranges are popped and marked until none is left. *)
Fixpoint mark_ranges (fuel1 fuel : nat) (s : marking) : option marking :=
  match s.2 with
  | [] => Some s
  | range :: stack =>
      match fuel with
      | O => None
      | S fuel => s ← foldM (sexp_mark_one fuel1) range (s.1, stack); mark_ranges fuel1 fuel s
      end
  end.

Definition sexp_mark (os : objects) (x : value) : option objects :=
  let n := S (S (size os)) in
  s ← sexp_mark_one n x (os, []); s ← mark_ranges n n s; Some s.1.

(** ** Scanning a heap *)

(** The free chunks from [p] on. *)
Fixpoint advance (p : Z) (free : list chunk) : list chunk :=
  match free with (r, n) :: free' => if r <? p then advance p free' else free | [] => [] end.

(** The loop that the weak reference and finalizer passes share: [p] goes from
    block to block, skipping the free chunks, and the body runs on the objects. *)
Fixpoint scan {S} (body : Z -> object -> objects * S -> objects * S) (fuel : nat) (p end_ : Z) (free : list chunk)
    (s : objects * S) : option (objects * S) :=
  if end_ <=? p then Some s
  else match fuel with
  | O => None
  | Datatypes.S fuel =>
      let free := advance p free in
      match free with
      | (r, n) :: _ =>
          if r =? p then scan body fuel (p + n) end_ free s
          else o ← s.1 !! p; scan body fuel (p + sexp_heap_align (o_size o)) end_ free (body p o s)
      | [] => o ← s.1 !! p; scan body fuel (p + sexp_heap_align (o_size o)) end_ free (body p o s)
      end
  end.

(** Blocks are at least as large as the alignment. *)
Definition scan_fuel (h : heap) : nat := S (Z.to_nat (h_size h)).

Definition scan_heap {S} (body : Z -> object -> objects * S -> objects * S) (h : heap) (s : objects * S) : option (objects * S) :=
  scan body (scan_fuel h) (sexp_heap_first_block h) (sexp_heap_end h) (h_free h) s.

(** ** Weak references *)

Definition dead (os : objects) (v : value) : bool :=
  match v with Ref _ => negb (markedp os v) | Imm _ => false end.

Definition all_dead (os : objects) (ws : list value) : bool := forallb (dead os) ws.

(** The weak fields of a marked object: the dead ones become [#f], and so do the
    values of an ephemeron without a live key. *)
Definition reset (os : objects) (o : object) : object :=
  match o_weak o with
  | Some (ws, extra) =>
      Object (o_size o) (o_slots o) (o_saves o)
        (Some (map (fun v => if dead os v then SEXP_FALSE else v) ws,
               if all_dead os ws then map (fun _ => SEXP_FALSE) extra else extra))
        (o_finalizer o) (o_marked o) (o_broken o || existsb (dead os) ws)
  | None => o
  end.

Definition broken_ephemeron (os : objects) (o : object) : Z :=
  match o_weak o with Some (ws, _) => if all_dead os ws then 1 else 0 | None => 0 end.

Definition reset_object (p : Z) (o : object) (s : objects * Z) : objects * Z :=
  let '(os, broke) := s in
  if o_marked o then (<[p := reset os o]> os, broke + broken_ephemeron os o) else s.

Definition sexp_reset_weak_references (weak_present : bool) (hs : list heap) (os : objects) : option (objects * Z) :=
  if weak_present then foldM (scan_heap reset_object) hs (os, 0) else Some (os, 0).

(** ** Finalizers *)

(** Dynamic libraries are left to a second pass; [done] are the objects whose
    finalizer has run. *)
Definition finalize_object (pass : Z) (p : Z) (o : object) (s : objects * (Z * bool * list Z)) : objects * (Z * bool * list Z) :=
  let '(os, (count, free_dls, done)) := s in
  if o_marked o then s
  else match o_finalizer o with
       | NoFinalizer => s
       | DlFinalizer => if pass <=? 0 then (os, (count + 1, true, done)) else (os, (count + 1, free_dls, done ++ [p]))
       | Finalizer => (os, (count + 1, free_dls, done ++ [p]))
       end.

(** The second pass starts where the first one left the heap variable: after
    the last heap.  Every object has a positive size, so the test for size 0
    never ends the scan. *)
Definition sexp_finalize (hs : list heap) (os : objects) : option (Z * list Z) :=
  s ← foldM (scan_heap (finalize_object 0)) hs (os, (0, false, []));
  let '(os, (count, free_dls, done)) := s in
  s ← (if free_dls : bool then foldM (scan_heap (finalize_object 1)) [] s else Some s);
  let '(_, (count, _, done)) := s in
  Some (count, done).

(** ** Sweeping *)

(** [before] is the free list up to [q], last chunk first, and [after] the rest
    from [r]. *)
Record sweeping := Sweeping {
  s_before : list chunk;
  s_after : list chunk;
  s_objects : objects;
  s_max_freed : Z;
  s_sum_freed : Z;
}.

Fixpoint sweep_advance (p : Z) (before after : list chunk) : list chunk * list chunk :=
  match after with
  | (r, n) :: after' => if r <? p then sweep_advance p ((r, n) :: before) after' else (before, after)
  | [] => (before, after)
  end.

(** Frees the object at [p]: the free list around it, the size of the chunk it
    ends up in, and the address after it. *)
Definition free_block (p size : Z) (before after : list chunk) : list chunk * list chunk * Z * Z :=
  let merge_r := match after with (r, n) :: _ => negb (n =? 0) && (p + size =? r) | [] => false end in
  let r_size := match after with (_, n) :: _ => n | [] => 0 end in
  match before with
  | (q, qn) :: before' =>
      if q + qn =? p then
        if merge_r then ((q, qn + size + r_size) :: before', tail after, qn + size + r_size, p + size + r_size)
        else ((q, qn + size) :: before', after, qn + size, p + size)
      else if merge_r then (before, (p, size + r_size) :: tail after, size + r_size, p + (size + r_size))
      else (before, (p, size) :: after, size, p + size)
  | [] =>
      if merge_r then (before, (p, size + r_size) :: tail after, size + r_size, p + (size + r_size))
      else (before, (p, size) :: after, size, p + size)
  end.

Fixpoint sweep_loop (fuel : nat) (p end_ : Z) (s : sweeping) : option sweeping :=
  if end_ <=? p then Some s
  else match fuel with
  | O => None
  | S fuel =>
      let '(before, after) := sweep_advance p (s_before s) (s_after s) in
      let at_object :=
        o ← s_objects s !! p;
        let size := sexp_heap_align (o_size o) in
        if o_marked o then
          sweep_loop fuel (p + size) end_
            (Sweeping before after (<[p := set_marked false o]> (s_objects s)) (s_max_freed s) (s_sum_freed s))
        else
          let '(before, after, freed, p') := free_block p size before after in
          sweep_loop fuel p' end_
            (Sweeping before after (delete p (s_objects s)) (Z.max (s_max_freed s) freed) (s_sum_freed s + size)) in
      match after with
      | (r, n) :: _ =>
          if r =? p then sweep_loop fuel (p + n) end_ (Sweeping before after (s_objects s) (s_max_freed s) (s_sum_freed s))
          else at_object
      | [] => at_object
      end
  end.

(** The objects, the largest chunk freed and the bytes freed so far. *)
Definition sweep_heap (h : heap) (os : objects) (max_freed sum_freed : Z) : option (heap * objects * Z * Z) :=
  s ← sweep_loop (scan_fuel h) (sexp_heap_first_block h) (sexp_heap_end h) (Sweeping [] (h_free h) os max_freed sum_freed);
  Some (Heap (h_data h) (h_size h) (h_max_size h) (rev (s_before s) ++ s_after s), s_objects s, s_max_freed s, s_sum_freed s).

Fixpoint sexp_sweep (hs : list heap) (os : objects) (max_freed sum_freed : Z) : option (list heap * objects * Z * Z) :=
  match hs with
  | [] => Some ([], os, max_freed, sum_freed)
  | h :: hs =>
      r ← sweep_heap h os max_freed sum_freed;
      let '(h, os, max_freed, sum_freed) := r in
      r ← sexp_sweep hs os max_freed sum_freed;
      let '(hs, os, max_freed, sum_freed) := r in
      Some (h :: hs, os, max_freed, sum_freed)
  end.

(** ** Collecting *)

Record memory := Memory { m_heaps : list heap; m_objects : objects; m_weak_present : bool }.

(** What a collection did besides the memory: the largest chunk freed, the
    bytes freed and the objects finalized. *)
Definition sexp_gc (ctx : value) (m : memory) : option (memory * Z * Z * list Z) :=
  os ← sexp_mark (m_objects m) ctx;
  r ← sexp_reset_weak_references (m_weak_present m) (m_heaps m) os;
  let '(os, _) := r in
  f ← sexp_finalize (m_heaps m) os;
  let '(_, finalized) := f in
  r ← sexp_sweep (m_heaps m) os 0 0;
  let '(hs, os, max_freed, sum_freed) := r in
  Some (Memory hs os (m_weak_present m), max_freed, sum_freed, finalized).

(** ** Allocating *)

(** The first chunk that is large enough; what is left of it stays in the free
    list when an object would fit. *)
Fixpoint alloc_chunk (size : Z) (free : list chunk) : option (Z * list chunk) :=
  match free with
  | [] => None
  | (a, n) :: free =>
      if size <=? n then
        if size + SEXP_MINIMUM_OBJECT_SIZE <=? n then Some (a, (a + size, n - size) :: free)
        else Some (a, free)
      else r ← alloc_chunk size free; let '(b, free) := r in Some (b, (a, n) :: free)
  end.

Fixpoint sexp_try_alloc (size : Z) (hs : list heap) : option (Z * list heap) :=
  match hs with
  | [] => None
  | h :: hs =>
      match alloc_chunk size (h_free h) with
      | Some (a, free) => Some (a, Heap (h_data h) (h_size h) (h_max_size h) free :: hs)
      | None => r ← sexp_try_alloc size hs; let '(a, hs) := r in Some (a, h :: hs)
      end
  end.

(** [sexp_make_heap] in the memory that [malloc] returned at [addr]. *)
Definition sexp_make_heap (addr size max_size : Z) : heap :=
  let data := sexp_heap_align (8 + (addr + 40)) in
  Heap data size max_size [(data + sexp_heap_align sexp_free_chunk_size, size - sexp_heap_align sexp_free_chunk_size)].

Definition sexp_heap_pad_size (s : Z) : Z := 48 + s + sexp_heap_align 1.

Definition SEXP_GROW_HEAP_FACTOR : Z := 2.

Section alloc.
(** [malloc] on a number of bytes. *)
Variable malloc : Z -> option Z.

(** The new heap goes after the last one. *)
Definition sexp_grow_heap (size : Z) (hs : list heap) : list heap :=
  match last hs with
  | Some h =>
      let new_size := SEXP_GROW_HEAP_FACTOR * sexp_heap_align (if h_size h >? size then h_size h else size) in
      match malloc (sexp_heap_pad_size new_size) with
      | Some addr => hs ++ [sexp_make_heap addr new_size (h_max_size h)]
      | None => hs
      end
  | None => hs
  end.

Definition sexp_heap_total_size (hs : list heap) : Z := fold_right (fun h n => h_size h + n) 0 hs.

(** The block for an object, or nothing when the memory is exhausted.  The
    test against [SEXP_GROW_HEAP_RATIO], 0.75, is on integers here. *)
Definition sexp_alloc (ctx : value) (size : Z) (m : memory) : option (option Z * memory) :=
  let size := sexp_heap_align size in
  match sexp_try_alloc size (m_heaps m) with
  | Some (a, hs) => Some (Some a, Memory hs (m_objects m) (m_weak_present m))
  | None =>
      r ← sexp_gc ctx m;
      let '(m, max_freed, sum_freed, _) := r in
      let total_size := sexp_heap_total_size (m_heaps m) in
      let max_size := match m_heaps m with h :: _ => h_max_size h | [] => 0 end in
      let hs :=
        if ((max_freed <? size)
            || ((total_size >? sum_freed) && (4 * (total_size - sum_freed) >? 3 * total_size)))
           && ((max_size =? 0) || (total_size <? max_size))
        then sexp_grow_heap size (m_heaps m) else m_heaps m in
      match sexp_try_alloc size hs with
      | Some (a, hs) => Some (Some a, Memory hs (m_objects m) (m_weak_present m))
      | None => Some (None, Memory hs (m_objects m) (m_weak_present m))
      end
  end.
End alloc.
