(* ===== verification/GcMark.v ===== *)
(** * Marking

    The marking of [gc.c] ends and marks exactly the objects that can be reached:
    the invariant of marking (an object that is marked has its children marked
    or pending), the reduction of the ranges pushed on the mark stack, and a
    measure on unmarked objects and pending ranges. *)
From S2P Require Import Prelude Gc.
From stdpp Require Import base list option gmap relations.
#[local] Open Scope Z_scope.

(** Membership in lists that are put together from others. *)
Ltac elems :=
  intros; cbn [concat] in *;
  do 3 rewrite ?concat_app, ?app_nil_r, ?elem_of_app, ?elem_of_cons, ?elem_of_nil in *; tauto.

(** ** Reachability *)

Definition children (o : object) : list value := o_saves o ++ o_slots o.

Definition edge (os : objects) (a b : Z) : Prop :=
  exists o, os !! a = Some o /\ Ref b ∈ children o.

(** From a value to an address. *)
Definition reaches (os : objects) (v : value) (b : Z) : Prop :=
  exists a, v = Ref a /\ rtc (edge os) a b.

Definition valid (os : objects) (v : value) : Prop := forall a, v = Ref a -> is_Some (os !! a).

(** No dangling references. *)
Definition closed (os : objects) : Prop :=
  forall a o v, os !! a = Some o -> v ∈ children o -> valid os v.

(** Memory up to marks. *)
Definition erase (os : objects) : objects := set_marked false <$> os.

Definition marked (os : objects) (a : Z) : Prop := markedp os (Ref a) = true.

Definition unmarked (os : objects) : nat := size (filter (fun p => o_marked p.2 = false) os).

(** The invariant of marking: the children of a marked object are marked or
    among the pending values [P]. *)
Definition pending (os : objects) (P : list value) : Prop :=
  forall a o v, os !! a = Some o -> o_marked o = true -> v ∈ children o -> skippable os v = true \/ v ∈ P.

Lemma erase_lookup os os' a o : erase os = erase os' -> os !! a = Some o ->
  exists b, os' !! a = Some (set_marked b o).
Proof.
  intros He Ho. assert (H : erase os !! a = erase os' !! a) by (rewrite He; auto).
  unfold erase in H. rewrite !lookup_fmap, Ho in H. simpl in H.
  destruct (os' !! a) as [o'|]; simpl in H; [|congruence].
  exists (o_marked o'). f_equal. injection H as H. destruct o, o'; unfold set_marked in *; simpl in *; congruence.
Qed.

Lemma edge_erase os os' a b : erase os = erase os' -> edge os a b -> edge os' a b.
Proof.
  intros He (o & Ho & Hb). destruct (erase_lookup _ _ _ _ He Ho) as [m Hm].
  exists (set_marked m o). auto.
Qed.

Lemma reaches_erase os os' v b : erase os = erase os' -> reaches os v b -> reaches os' v b.
Proof.
  intros He (a & -> & H). exists a. split; auto. revert H. apply rtc_subrel.
  intros x y. apply edge_erase, He.
Qed.

Lemma valid_erase os os' v : erase os = erase os' -> valid os v -> valid os' v.
Proof.
  intros He Hv a ->. destruct (Hv a eq_refl) as [o Ho].
  destruct (erase_lookup _ _ _ _ He Ho) as [m ->]. eauto.
Qed.

Lemma closed_erase os os' : erase os = erase os' -> closed os -> closed os'.
Proof.
  intros He Hc a o v Ho Hv. destruct (erase_lookup _ _ _ _ (eq_sym He) Ho) as [m Hm].
  apply (valid_erase os); auto. apply (Hc a (set_marked m o)); auto.
Qed.

Lemma reaches_child os a o v b : os !! a = Some o -> v ∈ children o -> reaches os v b -> reaches os (Ref a) b.
Proof. intros Ho Hv (c & -> & H). exists a. split; auto. eapply rtc_l; [exists o|]; eauto. Qed.

Lemma pending_mono os P Q : (forall v, v ∈ P -> skippable os v = true \/ v ∈ Q) -> pending os P -> pending os Q.
Proof. intros H HP a o v Ho Hm Hv. destruct (HP a o v Ho Hm Hv); auto. Qed.

(** ** Setting a mark *)

Section mark.
Context (os : objects) (a : Z) (o : object) (Ho : os !! a = Some o) (Hm : o_marked o = false).

Let os' := <[a := set_marked true o]> os.

Lemma erase_mark : erase os' = erase os.
Proof.
  unfold erase, os'. rewrite fmap_insert. apply insert_id. rewrite lookup_fmap, Ho. reflexivity.
Qed.

Lemma unmarked_mark : S (unmarked os') = unmarked os.
Proof.
  unfold unmarked, os'.
  rewrite map_filter_insert_False by (simpl; congruence).
  rewrite map_filter_delete.
  assert (Hin : filter (fun p : Z * object => o_marked p.2 = false) os !! a = Some o)
    by (apply map_lookup_filter_Some; auto).
  rewrite map_size_delete_Some by eauto.
  assert (size (filter (fun p : Z * object => o_marked p.2 = false) os) <> 0%nat); [|lia].
  intros H0. apply map_size_empty_inv in H0. rewrite H0, lookup_empty in Hin. congruence.
Qed.

Lemma marked_mark b : marked os' b <-> b = a \/ marked os b.
Proof.
  unfold marked, markedp, os'. destruct (decide (b = a)) as [->|Hne].
  - rewrite lookup_insert_eq. simpl. tauto.
  - rewrite lookup_insert_ne by auto. tauto.
Qed.

Lemma skippable_mark v : skippable os v = true -> skippable os' v = true.
Proof. destruct v as [z|b]; simpl; auto. intros H. apply marked_mark. right. exact H. Qed.

Lemma pending_mark P : pending os (Ref a :: P) -> pending os' (children o ++ P).
Proof.
  intros HP b ob v Hb Hmb Hv. unfold os' in Hb. destruct (decide (b = a)) as [->|Hne].
  - rewrite lookup_insert_eq in Hb. injection Hb as <-. right. apply elem_of_app. left. exact Hv.
  - rewrite lookup_insert_ne in Hb by auto. destruct (HP b ob v Hb Hmb Hv) as [Hs|Hin].
    + left. apply skippable_mark, Hs.
    + apply elem_of_cons in Hin. destruct Hin as [-> | Hin].
      * left. apply marked_mark. auto.
      * right. apply elem_of_app. auto.
Qed.
End mark.

(** ** What marking from some roots does *)

(** Everything that [vs] reach is reached from [roots]. *)
Definition covers (os : objects) (roots vs : list value) : Prop :=
  forall v a, v ∈ vs -> reaches os v a -> exists w, w ∈ roots /\ reaches os w a.

(** Marking from [roots] turned [os] into [os'] and pushed the ranges [new]. *)
Record marks (os os' : objects) (roots : list value) (new : list (list value)) : Prop := Marks {
  marks_erase : erase os' = erase os;
  marks_keep : forall v, skippable os v = true -> skippable os' v = true;
  marks_reach : forall a, marked os' a -> marked os a \/ exists v, v ∈ roots /\ reaches os v a;
  marks_new : covers os roots (concat new);
  marks_valid : Forall (valid os') (concat new);
  marks_count : (unmarked os' + length new <= unmarked os)%nat;
}.

Lemma marks_refl os roots : marks os os roots [].
Proof.
  split; simpl; auto; [|lia]. intros v a Hv. apply not_elem_of_nil in Hv. contradiction.
Qed.

Lemma marks_roots os os' roots roots' new :
  covers os roots' roots -> marks os os' roots new -> marks os os' roots' new.
Proof.
  intros Hr [He Hk Hre Hn Hv Hc]. split; auto.
  - intros a Ha. destruct (Hre a Ha) as [H|(v & Hv1 & Hv2)]; [auto|]. right. apply (Hr v); auto.
  - intros v a Hin Hva. destruct (Hn v a Hin Hva) as (w & Hw1 & Hw2). apply (Hr w); auto.
Qed.

Lemma marks_perm os os' roots new new' : new ≡ₚ new' -> marks os os' roots new -> marks os os' roots new'.
Proof.
  intros Hp [He Hk Hre Hn Hv Hc]. assert (Hpc : concat new ≡ₚ concat new') by (rewrite Hp; reflexivity).
  split; auto.
  - intros v a Hin. apply Hn. rewrite Hpc. auto.
  - rewrite <- Hpc. auto.
  - rewrite <- (Permutation_length Hp). auto.
Qed.

Lemma marks_trans os os1 os2 roots roots2 new1 new2 :
  marks os os1 roots new1 -> marks os1 os2 roots2 new2 -> covers os roots roots2 ->
  marks os os2 roots (new2 ++ new1).
Proof.
  intros [He Hk Hre Hn Hv Hc] [He2 Hk2 Hre2 Hn2 Hv2 Hc2] Hcov. split.
  - congruence.
  - auto.
  - intros a Ha. destruct (Hre2 a Ha) as [H|(v & Hin & Hva)]; [auto|]. right.
    apply (Hcov v); auto. apply (reaches_erase os1); auto.
  - intros v a Hin Hva. rewrite concat_app in Hin. apply elem_of_app in Hin. destruct Hin as [Hin|Hin]; [|eauto].
    destruct (Hn2 v a Hin) as (w & Hw1 & Hw2).
    { apply (reaches_erase os); auto. }
    apply (Hcov w); auto. apply (reaches_erase os1); auto.
  - rewrite concat_app. apply Forall_app. split; auto.
    eapply Forall_impl; [exact Hv|]. intros v. apply valid_erase. auto.
  - rewrite length_app. lia.
Qed.

(** Marking one object; at most one range of its children goes on the stack. *)
Lemma marks_step os a o new :
  closed os -> os !! a = Some o -> o_marked o = false ->
  (length new <= 1)%nat -> (forall v, v ∈ concat new -> v ∈ children o) ->
  marks os (<[a := set_marked true o]> os) [Ref a] new.
Proof.
  intros Hcl Ho Hm Hl Hin. pose proof (erase_mark os a o Ho) as He.
  pose proof (unmarked_mark os a o Ho Hm). split; auto.
  - intros v. apply (skippable_mark os a o).
  - intros b Hb. apply marked_mark in Hb. destruct Hb as [-> | Hb]; [|auto].
    right. exists (Ref a). split; [left|]. exists a. split; auto. reflexivity.
  - intros v b Hv Hvb. exists (Ref a). split; [left|]. eapply reaches_child; eauto.
  - rewrite Forall_forall. intros v Hv. apply (valid_erase os); auto. eapply Hcl; eauto.
  - lia.
Qed.

(** ** The range of fields that is left to mark *)

Lemma skip_immediates_spec os l v : v ∈ l -> skippable os v = true \/ v ∈ skip_immediates os l.
Proof.
  induction l as [|x [|y l] IH]; intros Hv; auto.
  simpl. destruct (skippable os x) eqn:Hx; [|auto].
  apply elem_of_cons in Hv. destruct Hv as [-> | Hv]; [auto|]. apply IH, Hv.
Qed.

Lemma skip_duplicates_spec l v : v ∈ l -> v ∈ skip_duplicates l.
Proof.
  induction l as [|x [|y l] IH]; intros Hv; auto.
  simpl. destruct (decide (x = y)) as [->|Hne]; [|auto].
  apply elem_of_cons in Hv. destruct Hv as [-> | Hv]; apply IH; [left | exact Hv].
Qed.

Lemma skip_immediates_sub os l v : v ∈ skip_immediates os l -> v ∈ l.
Proof.
  induction l as [|x [|y l] IH]; intros Hv; auto.
  simpl in Hv. destruct (skippable os x); [|auto]. right. apply IH, Hv.
Qed.

Lemma skip_duplicates_sub l v : v ∈ skip_duplicates l -> v ∈ l.
Proof.
  induction l as [|x [|y l] IH]; intros Hv; auto.
  simpl in Hv. destruct (decide (x = y)); [|auto]. right. apply IH, Hv.
Qed.

Definition to_mark (os : objects) (slots : list value) : list value :=
  skip_duplicates (skip_immediates os (rev slots)).

Lemma elem_of_rev (l : list value) v : v ∈ rev l <-> v ∈ l.
Proof. rewrite !list_elem_of_In, <- in_rev. reflexivity. Qed.

Lemma to_mark_spec os slots v : v ∈ slots -> skippable os v = true \/ v ∈ to_mark os slots.
Proof.
  intros Hv. destruct (skip_immediates_spec os (rev slots) v) as [H|H]; auto.
  - apply elem_of_rev, Hv.
  - right. apply skip_duplicates_spec, H.
Qed.

Lemma to_mark_sub os slots v : v ∈ to_mark os slots -> v ∈ slots.
Proof.
  intros Hv. apply skip_duplicates_sub, skip_immediates_sub in Hv. apply elem_of_rev, Hv.
Qed.

(** ** Marking from a value *)

(** [sexp_mark_one] with [n] fuel meets its contract. *)
Definition mark_one_ok (n : nat) : Prop := forall x os st K,
  closed os -> valid os x -> (unmarked os < n)%nat -> pending os (x :: concat st ++ K) ->
  exists os' new, sexp_mark_one n x (os, st) = Some (os', new ++ st)
    /\ marks os os' [x] new /\ pending os' (concat (new ++ st) ++ K) /\ skippable os' x = true.

Lemma covers_sub os roots vs : (forall v, v ∈ vs -> v ∈ roots) -> covers os roots vs.
Proof. intros H v a Hv Hva. exists v. auto. Qed.

Lemma marks_unmarked os os' roots new : marks os os' roots new -> (unmarked os' <= unmarked os)%nat.
Proof. intros [_ _ _ _ _ H]. lia. Qed.

Lemma mark_all n l : mark_one_ok n -> forall os st K,
  closed os -> Forall (valid os) l -> (unmarked os < n)%nat -> pending os (l ++ concat st ++ K) ->
  exists os' new, foldM (sexp_mark_one n) l (os, st) = Some (os', new ++ st)
    /\ marks os os' l new /\ pending os' (concat (new ++ st) ++ K) /\ Forall (fun v => skippable os' v = true) l.
Proof.
  intros Hn. induction l as [|x l IH]; intros os st K Hcl Hv Hu HP.
  - exists os, []. split; [reflexivity|]. split; [apply marks_refl|]. auto.
  - apply Forall_cons_1 in Hv as [Hx Hl].
    destruct (Hn x os st (l ++ K)) as (os1 & new1 & E1 & M1 & P1 & S1); auto.
    { revert HP. apply pending_mono. intros v Hv. right. elems. }
    pose proof (marks_unmarked _ _ _ _ M1).
    destruct (IH os1 (new1 ++ st) K) as (os2 & new2 & E2 & M2 & P2 & S2).
    { apply (closed_erase os); [symmetry; apply (marks_erase _ _ _ _ M1) | auto]. }
    { eapply Forall_impl; [exact Hl|]. intros v. apply valid_erase. symmetry. apply (marks_erase _ _ _ _ M1). }
    { lia. }
    { revert P1. apply pending_mono. intros v Hv. right. elems. }
    exists os2, (new2 ++ new1). split; [|split; [|split]].
    + simpl. rewrite E1. simpl. rewrite E2. rewrite app_assoc. reflexivity.
    + apply (marks_trans _ os1 _ _ l).
      * apply (marks_roots _ _ [x]); auto. apply covers_sub. elems.
      * exact M2.
      * apply covers_sub. intros v Hv. right. exact Hv.
    + rewrite <- app_assoc. exact P2.
    + constructor; auto. apply (marks_keep _ _ _ _ M2), S1.
Qed.

(** The last field is next, the ones before it a range. *)
Lemma mark_slots n slots : mark_one_ok n -> forall os st K,
  closed os -> Forall (valid os) slots -> (unmarked os < n)%nat -> pending os (slots ++ concat st ++ K) ->
  exists os' new new1, (match to_mark os slots with
     | [] => Some (os, st)
     | [q] => sexp_mark_one n q (os, st)
     | q :: range => sexp_mark_one n q (os, rev range :: st)
     end) = Some (os', new ++ new1 ++ st)
    /\ (length new1 <= 1)%nat /\ (forall v, v ∈ concat new1 -> v ∈ slots)
    /\ marks os os' slots new /\ pending os' (concat (new ++ new1 ++ st) ++ K).
Proof.
  intros Hn os st K Hcl Hv Hu HP.
  assert (HP' : pending os (to_mark os slots ++ concat st ++ K)).
  { revert HP. apply pending_mono. intros v Hin. apply elem_of_app in Hin. destruct Hin as [Hin|Hin]; [|right; elems].
    destruct (to_mark_spec os slots v Hin); [left; auto | right; elems]. }
  pose proof (to_mark_sub os slots) as Hsub. rewrite Forall_forall in Hv.
  destruct (to_mark os slots) as [|q range] eqn:E.
  { exists os, [], []. split; [reflexivity|]. split; [simpl; lia|]. split; [elems|]. split; [apply marks_refl|exact HP']. }
  assert (Hq : q ∈ slots) by (apply Hsub; left).
  destruct range as [|r range].
  - destruct (Hn q os st K) as (os1 & new1 & E1 & M1 & P1 & _); auto.
    exists os1, new1, []. split; [exact E1|]. split; [simpl; lia|]. split; [elems|]. split; [|exact P1].
    apply (marks_roots _ _ [q]); auto. apply covers_sub. intros v ->%list_elem_of_singleton. exact Hq.
  - destruct (Hn q os (rev (r :: range) :: st) K) as (os1 & new1 & E1 & M1 & P1 & _); auto.
    { revert HP'. apply pending_mono. intros v Hin. right.
      assert (v ∈ rev (r :: range) <-> v ∈ r :: range) by apply elem_of_rev. elems. }
    exists os1, new1, [rev (r :: range)]. split; [exact E1|]. split; [simpl; lia|]. split; [|split; [|exact P1]].
    + intros v Hin. apply Hsub. right. cbn [concat] in Hin. rewrite app_nil_r, elem_of_rev in Hin. exact Hin.
    + apply (marks_roots _ _ [q]); auto. apply covers_sub. intros v ->%list_elem_of_singleton. exact Hq.
Qed.

Lemma skippable_done os st K x : skippable os x = true -> pending os (x :: concat st ++ K) ->
  exists os' new, Some (os, st) = Some (os', new ++ st)
    /\ marks os os' [x] new /\ pending os' (concat (new ++ st) ++ K) /\ skippable os' x = true.
Proof.
  intros Hs HP. exists os, []. split; [reflexivity|]. split; [apply marks_refl|]. split; [|exact Hs].
  revert HP. apply pending_mono. intros v Hv. apply elem_of_cons in Hv as [-> | Hv]; [auto|]. right. exact Hv.
Qed.

Lemma sexp_mark_one_ok n : mark_one_ok n.
Proof.
  induction n as [|n IH]; intros x os st K Hcl Hx Hu HP; [lia|].
  destruct x as [z|a]; [apply skippable_done; auto|].
  destruct (Hx a eq_refl) as [o Ho]. cbn [sexp_mark_one fst]. rewrite Ho. simpl.
  destruct (o_marked o) eqn:Hm.
  { apply skippable_done; auto. simpl. rewrite Ho. exact Hm. }
  set (os1 := <[a := set_marked true o]> os).
  pose proof (unmarked_mark os a o Ho Hm) as Hu1. fold os1 in Hu1.
  pose proof (erase_mark os a o Ho) as He1. fold os1 in He1.
  assert (Hcl1 : closed os1) by (apply (closed_erase os); auto).
  assert (Hch : forall v, v ∈ children o -> valid os1 v).
  { intros v Hv. apply (valid_erase os); auto. eapply Hcl; eauto. }
  destruct (mark_all n (o_saves o) IH os1 st (o_slots o ++ K)) as (os2 & new2 & E2 & M2 & P2 & _).
  { exact Hcl1. }
  { apply Forall_forall. intros v Hv. apply Hch. unfold children. elems. }
  { lia. }
  { apply (pending_mark os a o) in HP. revert HP. apply pending_mono. unfold children. right. elems. }
  rewrite E2. simpl. pose proof (marks_unmarked _ _ _ _ M2).
  destruct (mark_slots n (o_slots o) IH os2 (new2 ++ st) K) as (os3 & new3 & new1 & E3 & Hl & Hs & M3 & P3).
  { apply (closed_erase os1); auto. symmetry. apply (marks_erase _ _ _ _ M2). }
  { apply Forall_forall. intros v Hv. apply (valid_erase os1); [symmetry; apply (marks_erase _ _ _ _ M2)|].
    apply Hch. unfold children. elems. }
  { lia. }
  { revert P2. apply pending_mono. right. elems. }
  unfold to_mark in E3. rewrite E3. exists os3, (new3 ++ new1 ++ new2). rewrite <- !app_assoc.
  split; [reflexivity|]. split; [|split; [exact P3|]].
  - assert (Hcov : forall l, (forall v, v ∈ l -> v ∈ children o) -> covers os [Ref a] l).
    { intros l Hl' v b Hv Hvb. exists (Ref a). split; [left|]. eapply reaches_child; eauto. }
    apply (marks_perm _ _ _ (new3 ++ new2 ++ new1)); [apply Permutation_app_head, Permutation_app_comm|].
    apply (marks_trans _ os2 _ _ (o_slots o)); [|exact M3|apply Hcov; unfold children; elems].
    apply (marks_trans _ os1 _ _ (o_saves o)); [|exact M2|apply Hcov; unfold children; elems].
    apply marks_step; auto. intros v Hv. unfold children. apply Hs in Hv. elems.
  - apply (marks_keep _ _ _ _ M3 (Ref a)), (marks_keep _ _ _ _ M2 (Ref a)). apply (marked_mark os a o). auto.
Qed.

(** ** Draining the stack *)

Lemma mark_ranges_ok n m : forall os st,
  closed os -> Forall (valid os) (concat st) -> (unmarked os < n)%nat -> (unmarked os + length st <= m)%nat ->
  pending os (concat st) ->
  exists os', mark_ranges n m (os, st) = Some (os', [])
    /\ marks os os' (concat st) [] /\ pending os' [].
Proof.
  induction m as [|m IH]; intros os [|range st] Hcl Hv Hu Hm HP; simpl in Hm;
    [exists os; auto using marks_refl | lia | exists os; auto using marks_refl |].
  cbn [mark_ranges snd fst]. cbn [concat] in Hv, HP. apply Forall_app in Hv as [Hv1 Hv2].
  destruct (mark_all n range (sexp_mark_one_ok n) os st []) as (os1 & new1 & E1 & M1 & P1 & _); auto.
  { rewrite app_nil_r. exact HP. }
  rewrite E1. simpl. pose proof (marks_count _ _ _ _ M1).
  rewrite app_nil_r in P1.
  destruct (IH os1 (new1 ++ st)) as (os2 & E2 & M2 & P2).
  { apply (closed_erase os); auto. symmetry. apply (marks_erase _ _ _ _ M1). }
  { rewrite concat_app. apply Forall_app. split; [apply (marks_valid _ _ _ _ M1)|].
    eapply Forall_impl; [exact Hv2|]. intros v. apply valid_erase. symmetry. apply (marks_erase _ _ _ _ M1). }
  { lia. }
  { rewrite length_app. lia. }
  { exact P1. }
  exists os2. split; [exact E2|]. split; [|exact P2].
  destruct M1 as [He Hk Hre Hn _ Hc], M2 as [He2 Hk2 Hre2 _ _ Hc2]. split; simpl; auto.
  - congruence.
  - intros a Ha. destruct (Hre2 a Ha) as [H0|(v & Hin & Hva)].
    { destruct (Hre a H0) as [H1|(v & Hin & Hva)]; [auto|]. right. exists v. split; [|exact Hva]. elems. }
    right. apply (reaches_erase _ os) in Hva; [|auto]. rewrite concat_app, elem_of_app in Hin. destruct Hin as [Hin|Hin].
    + destruct (Hn v a Hin Hva) as (w & Hw1 & Hw2). exists w. split; [|exact Hw2]. elems.
    + exists v. split; [|exact Hva]. elems.
  - intros v a Hin. apply elem_of_nil in Hin. contradiction.
  - lia.
Qed.

(** With nothing pending, what a marked object reaches is marked. *)
Lemma pending_closed os a b : pending os [] -> marked os a -> rtc (edge os) a b -> marked os b.
Proof.
  intros HP Hm H. induction H as [a|a b c (o & Ho & Hc) Hbc IH]; [exact Hm|]. apply IH.
  unfold marked in Hm. simpl in Hm. rewrite Ho in Hm.
  destruct (HP a o (Ref b) Ho Hm Hc) as [Hs|Hs]; [exact Hs|]. apply elem_of_nil in Hs. contradiction.
Qed.

(** Marking from a valid root in a memory without dangling references ends,
    changes nothing but marks, and marks exactly what the root reaches besides
    what was marked with all its children. *)
Lemma sexp_mark_spec os x : closed os -> valid os x -> pending os [] ->
  exists os', sexp_mark os x = Some os' /\ erase os' = erase os
    /\ (forall a, marked os' a <-> marked os a \/ reaches os x a).
Proof.
  intros Hcl Hx HP. unfold sexp_mark.
  assert (Hn : (unmarked os < S (S (size os)))%nat) by (unfold unmarked; pose proof (map_size_filter (fun p : Z * object => o_marked p.2 = false) os); lia).
  revert Hn. generalize (S (S (size os))) as n. intros n Hn.
  destruct (sexp_mark_one_ok n x os [] []) as (os1 & new & E1 & M1 & P1 & S1); auto.
  { revert HP. apply pending_mono. intros v Hv. apply elem_of_nil in Hv. contradiction. }
  rewrite E1. simpl. rewrite !app_nil_r in *. pose proof (marks_count _ _ _ _ M1).
  destruct (mark_ranges_ok n n os1 new) as (os2 & E2 & M2 & P2); auto.
  { apply (closed_erase os); auto. symmetry. apply (marks_erase _ _ _ _ M1). }
  { apply (marks_valid _ _ _ _ M1). }
  { lia. }
  { lia. }
  rewrite E2. simpl. exists os2.
  destruct M1 as [He Hk Hre Hnew _ _], M2 as [He2 Hk2 Hre2 _ _ _]. split; [reflexivity|]. split; [congruence|].
  intros a. split.
  - intros Ha. destruct (Hre2 a Ha) as [H0|(v & Hin & Hva)].
    + destruct (Hre a H0) as [H1|(v & Hin & Hva)]; [auto|]. apply list_elem_of_singleton in Hin as ->. auto.
    + apply (reaches_erase _ os) in Hva; [|auto].
      destruct (Hnew v a Hin Hva) as (w & ->%list_elem_of_singleton & Hw). auto.
  - intros [Ha|(r & -> & Hra)]; [apply (Hk2 (Ref a)), (Hk (Ref a)), Ha|].
    apply (rtc_subrel _ (edge os2)) in Hra; [|intros; eapply edge_erase; [|eauto]; congruence].
    apply (pending_closed os2 r); auto. apply (Hk2 (Ref r)), S1.
Qed.
