(* ===== verification/GcHeap.v ===== *)
(** * Heaps as lists of blocks

    The abstract view of the heaps of [gc.c]: a heap is a list of free and used
    blocks that fills it, and the free list and the addresses of objects are
    read off it.  Scanning, sweeping and allocating are related to operations on
    lists of blocks. *)
From S2P Require Import Prelude Gc.
From stdpp Require Import base list option gmap.
#[local] Open Scope Z_scope.

(** ** Blocks *)

Inductive cell := Free (n : Z) | Used (o : object).

Definition object_bytes (o : object) : Z := sexp_heap_align (o_size o).

Definition block_size (b : cell) : Z := match b with Free n => n | Used o => object_bytes o end.

Definition bytes_of (bs : list cell) : Z := fold_right (fun b n => block_size b + n) 0 bs.

(** Sizes are positive multiples of the alignment. *)
Definition block_ok (b : cell) : Prop := 0 < block_size b /\ block_size b mod 32 = 0.

Fixpoint free_chunks (p : Z) (bs : list cell) : list chunk :=
  match bs with
  | [] => []
  | Free n :: bs => (p, n) :: free_chunks (p + n) bs
  | Used o :: bs => free_chunks (p + object_bytes o) bs
  end.

Fixpoint used_objects (p : Z) (bs : list cell) : list (Z * object) :=
  match bs with
  | [] => []
  | Free n :: bs => used_objects (p + n) bs
  | Used o :: bs => (p, o) :: used_objects (p + object_bytes o) bs
  end.

Record heap_blocks (h : heap) (bs : list cell) : Prop := HeapBlocks {
  hb_free : h_free h = free_chunks (sexp_heap_first_block h) bs;
  hb_end : sexp_heap_end h = sexp_heap_first_block h + bytes_of bs;
  hb_ok : Forall block_ok bs;
}.

Lemma bytes_of_app bs1 bs2 : bytes_of (bs1 ++ bs2) = bytes_of bs1 + bytes_of bs2.
Proof. induction bs1 as [|b bs1 IH]; simpl; lia. Qed.

Lemma bytes_of_rev bs : bytes_of (rev bs) = bytes_of bs.
Proof. induction bs as [|b bs IH]; simpl; [lia|]. rewrite bytes_of_app. simpl. lia. Qed.

Lemma bytes_of_nonneg bs : Forall block_ok bs -> 0 <= bytes_of bs.
Proof. induction 1 as [|b bs [Hb _] _ IH]; simpl; lia. Qed.

Lemma free_chunks_app p bs1 bs2 :
  free_chunks p (bs1 ++ bs2) = free_chunks p bs1 ++ free_chunks (p + bytes_of bs1) bs2.
Proof.
  revert p. induction bs1 as [|[n|o] bs1 IH]; intros p; simpl; [f_equal; lia | |]; rewrite IH;
    rewrite <- Z.add_assoc; reflexivity.
Qed.

Lemma used_objects_app p bs1 bs2 :
  used_objects p (bs1 ++ bs2) = used_objects p bs1 ++ used_objects (p + bytes_of bs1) bs2.
Proof.
  revert p. induction bs1 as [|[n|o] bs1 IH]; intros p; simpl; [f_equal; lia | |]; rewrite IH;
    rewrite <- Z.add_assoc; reflexivity.
Qed.

Lemma used_objects_snoc p acc b :
  used_objects p (rev (b :: acc)) = used_objects p (rev acc) ++ used_objects (p + bytes_of acc) [b].
Proof. simpl. rewrite used_objects_app, bytes_of_rev. reflexivity. Qed.

Lemma free_bounds p bs a n : Forall block_ok bs -> (a, n) ∈ free_chunks p bs -> p <= a /\ a + n <= p + bytes_of bs.
Proof.
  intros Hok. revert p. induction Hok as [|[m|o] bs [Hb _] Hok IH]; intros p Hin; simpl in *.
  - apply elem_of_nil in Hin. contradiction.
  - pose proof (bytes_of_nonneg bs Hok). apply elem_of_cons in Hin as [E|Hin]; [injection E as -> ->; lia|].
    apply IH in Hin. lia.
  - apply IH in Hin. lia.
Qed.

Lemma used_bounds p bs a o : Forall block_ok bs -> (a, o) ∈ used_objects p bs ->
  p <= a /\ a + object_bytes o <= p + bytes_of bs /\ 0 < object_bytes o.
Proof.
  intros Hok. revert p. induction Hok as [|[m|o'] bs [Hb _] Hok IH]; intros p Hin; simpl in *.
  - apply elem_of_nil in Hin. contradiction.
  - apply IH in Hin. lia.
  - pose proof (bytes_of_nonneg bs Hok). apply elem_of_cons in Hin as [E|Hin]; [injection E as -> ->; lia|].
    apply IH in Hin. lia.
Qed.

(** The free chunks from [p] on are not before [p]. *)
Lemma free_head p bs r n l : Forall block_ok bs -> free_chunks p bs = (r, n) :: l -> p <= r.
Proof. intros Hok E. apply (free_bounds p bs r n Hok). rewrite E. left. Qed.

(** ** Scanning *)

Lemma advance_spec p l bs : Forall (fun c => c.1 < p) l -> Forall block_ok bs ->
  advance p (l ++ free_chunks p bs) = free_chunks p bs.
Proof.
  intros Hl Hok. induction Hl as [|[r n] l Hr _ IH]; simpl in *.
  - destruct (free_chunks p bs) as [|[r n] l] eqn:E; [reflexivity|].
    apply free_head in E; auto. simpl. rewrite (proj2 (Z.ltb_ge r p)) by lia. reflexivity.
  - rewrite (proj2 (Z.ltb_lt r p)) by lia. exact IH.
Qed.

(** A body that changes nothing but the object it is given. *)
Definition local_body {S} (body : Z -> object -> objects * S -> objects * S) : Prop :=
  forall p o s a, a <> p -> (body p o s).1 !! a = s.1 !! a.

Definition visit {S} (body : Z -> object -> objects * S -> objects * S) (s : objects * S) (ao : Z * object) : objects * S :=
  body ao.1 ao.2 s.

(** The objects of a list are those of memory. *)
Definition present (os : objects) (l : list (Z * object)) : Prop := forall a o, (a, o) ∈ l -> os !! a = Some o.

Lemma scan_spec {S} (body : Z -> object -> objects * S -> objects * S) : local_body body ->
  forall fuel bs p l s, Forall block_ok bs -> Forall (fun c => c.1 < p) l -> (length bs <= fuel)%nat ->
  present s.1 (used_objects p bs) ->
  scan body fuel p (p + bytes_of bs) (l ++ free_chunks p bs) s = Some (foldl (visit body) s (used_objects p bs)).
Proof.
  intros Hloc. induction fuel as [|fuel IH]; intros bs p l s Hok Hl Hf Hp; (destruct bs as [|b bs]; [|]);
    simpl bytes_of; try (simpl in Hf; lia);
    try (simpl; rewrite (proj2 (Z.leb_le _ _)) by lia; reflexivity).
  cbn [scan]. pose proof (Forall_inv Hok) as [Hb _]. pose proof (Forall_inv_tail Hok) as Hok'.
  pose proof (bytes_of_nonneg bs Hok'). rewrite (proj2 (Z.leb_gt _ _)) by lia.
  rewrite advance_spec by auto. rewrite Z.add_assoc. destruct b as [n|o]; simpl free_chunks; simpl used_objects in *; simpl block_size in *.
  - cbn beta iota zeta. rewrite Z.eqb_refl. apply (IH bs (p + n) [(p, n)]); auto; [|simpl in Hf; lia].
    constructor; [simpl; lia | constructor].
  - assert (E : scan body fuel (p + object_bytes o) (p + object_bytes o + bytes_of bs)
       (free_chunks (p + object_bytes o) bs) (body p o s)
       = Some (foldl (visit body) (body p o s) (used_objects (p + object_bytes o) bs))).
    { apply (IH bs (p + object_bytes o) []); auto; [simpl in Hf; lia|].
      intros a o' Hin. rewrite Hloc; [apply Hp; right; exact Hin|]. apply used_bounds in Hin; auto. lia. }
    cbn beta iota zeta. rewrite (Hp p o) by left. simpl.
    destruct (free_chunks (p + object_bytes o) bs) as [|[r n] fr] eqn:Ef; [exact E|].
    apply free_head in Ef; auto. rewrite (proj2 (Z.eqb_neq r p)) by lia. exact E.
Qed.

(** ** Sweeping *)

(** Extends the chunk in front, if there is one, by [n] bytes. *)
Definition free_cons (acc : list cell) (n : Z) : list cell :=
  match acc with Free q :: acc' => Free (q + n) :: acc' | _ => Free n :: acc end.

(** The dead object of [size] bytes between [acc], last block first, and [bs]
    becomes free together with the chunks next to it. *)
Definition free_between (acc : list cell) (size : Z) (bs : list cell) : list cell * list cell :=
  match bs with
  | Free r :: bs' => (free_cons acc (size + r), bs')
  | _ => (free_cons acc size, bs)
  end.

Fixpoint sweep_blocks (acc bs : list cell) : list cell :=
  match bs with
  | [] => rev acc
  | Free n :: bs => sweep_blocks (Free n :: acc) bs
  | Used o :: bs =>
      if o_marked o then sweep_blocks (Used (set_marked false o) :: acc) bs
      else match bs with
           | Free r :: bs' => sweep_blocks (free_cons acc (object_bytes o + r)) bs'
           | _ => sweep_blocks (free_cons acc (object_bytes o)) bs
           end
  end.

Definition sweep_object (os : objects) (ao : Z * object) : objects :=
  if o_marked ao.2 then <[ao.1 := set_marked false ao.2]> os else delete ao.1 os.

Fixpoint dead_total (bs : list cell) : Z :=
  match bs with
  | [] => 0
  | Free _ :: bs => dead_total bs
  | Used o :: bs => (if o_marked o then 0 else object_bytes o) + dead_total bs
  end.

Lemma sweep_blocks_dead acc o bs : o_marked o = false ->
  sweep_blocks acc (Used o :: bs) =
  (let '(acc', bs') := free_between acc (object_bytes o) bs in sweep_blocks acc' bs').
Proof. intros H. simpl. rewrite H. destruct bs as [|[n|o'] bs]; reflexivity. Qed.

(** Induction along a sweep. *)
Lemma sweep_ind (P : list cell -> list cell -> Prop) :
  (forall acc, P acc []) ->
  (forall acc n bs, P (Free n :: acc) bs -> P acc (Free n :: bs)) ->
  (forall acc o bs, o_marked o = true -> P (Used (set_marked false o) :: acc) bs -> P acc (Used o :: bs)) ->
  (forall acc o bs acc' bs', o_marked o = false -> free_between acc (object_bytes o) bs = (acc', bs') ->
     P acc' bs' -> P acc (Used o :: bs)) ->
  forall bs acc, P acc bs.
Proof.
  intros Hnil Hfree Hmarked Hdead bs. induction bs as [bs IH] using (induction_ltof1 _ (@length cell)).
  unfold ltof in IH. intros acc. destruct bs as [|[n|o] bs]; [apply Hnil | apply Hfree, IH; simpl; lia |].
  destruct (o_marked o) eqn:Hm; [apply Hmarked; auto; apply IH; simpl; lia|].
  destruct (free_between acc (object_bytes o) bs) as [acc' bs'] eqn:E.
  apply (Hdead acc o bs acc' bs'); auto. apply IH.
  destruct bs as [|[r|o'] bs]; injection E as <- <-; simpl; lia.
Qed.

Lemma free_cons_bytes acc n : bytes_of (free_cons acc n) = bytes_of acc + n.
Proof. destruct acc as [|[q|o] acc]; simpl; lia. Qed.

Lemma free_cons_ok acc n : 0 < n -> n mod 32 = 0 -> Forall block_ok acc -> Forall block_ok (free_cons acc n).
Proof.
  intros Hn Hm Hacc. destruct acc as [|[q|o] acc]; simpl; [constructor; auto; split; auto | | constructor; auto; split; auto].
  pose proof (Forall_inv Hacc) as [Hq Hq2]. pose proof (Forall_inv_tail Hacc). simpl in *.
  constructor; auto. split; simpl; [lia|]. rewrite Z.add_mod, Hm, Hq2 by lia. reflexivity.
Qed.

Lemma free_cons_used p acc n : used_objects p (rev (free_cons acc n)) = used_objects p (rev acc).
Proof.
  destruct acc as [|[q|o] acc]; [reflexivity | |]; unfold free_cons; rewrite !used_objects_snoc; simpl;
    rewrite ?app_nil_r; reflexivity.
Qed.

Lemma free_between_spec acc size bs acc' bs' :
  Forall block_ok acc -> Forall block_ok bs -> 0 < size -> size mod 32 = 0 ->
  free_between acc size bs = (acc', bs') ->
  Forall block_ok acc' /\ Forall block_ok bs' /\ (length bs' <= length bs)%nat
  /\ bytes_of acc + size + bytes_of bs = bytes_of acc' + bytes_of bs'
  /\ (forall p, used_objects (p + bytes_of acc + size) bs = used_objects (p + bytes_of acc') bs')
  /\ dead_total bs = dead_total bs'.
Proof.
  intros Ha Hb Hs Hm E. destruct bs as [|[r|o] bs]; injection E as <- <-;
    try (split; [apply free_cons_ok; auto|]; rewrite free_cons_bytes;
         split; [auto|]; split; [lia|]; split; [lia|]; split; [intros p; f_equal; lia | reflexivity]).
  pose proof (Forall_inv Hb) as [Hr Hr2]. pose proof (Forall_inv_tail Hb). simpl in *.
  split; [apply free_cons_ok; auto; [lia | rewrite Z.add_mod, Hm, Hr2 by lia; reflexivity]|].
  rewrite free_cons_bytes. split; [auto|]. split; [lia|]. split; [lia|]. split; [|reflexivity].
  intros p. f_equal. lia.
Qed.

Lemma sweep_advance_spec p before l bs : Forall (fun c => c.1 < p) l -> Forall block_ok bs ->
  sweep_advance p before (l ++ free_chunks p bs) = (rev l ++ before, free_chunks p bs).
Proof.
  intros Hl Hok. revert before. induction Hl as [|[r n] l Hr _ IH]; intros before; simpl in *.
  - destruct (free_chunks p bs) as [|[r n] l] eqn:E; [reflexivity|].
    apply free_head in E; auto. simpl. rewrite (proj2 (Z.ltb_ge r p)) by lia. reflexivity.
  - rewrite (proj2 (Z.ltb_lt r p)) by lia. rewrite IH, <- app_assoc. reflexivity.
Qed.

(** The free list before [p], last chunk first: it ends at [p] exactly when the
    last block is free. *)
Definition before_of (start : Z) (acc : list cell) : list chunk := rev (free_chunks start (rev acc)).

Lemma before_free start q acc : before_of start (Free q :: acc) = (start + bytes_of acc, q) :: before_of start acc.
Proof. unfold before_of. simpl. rewrite free_chunks_app, bytes_of_rev. simpl. apply rev_app_distr. Qed.

Lemma before_used start o acc : before_of start (Used o :: acc) = before_of start acc.
Proof. unfold before_of. simpl. rewrite free_chunks_app. simpl. rewrite app_nil_r. reflexivity. Qed.

Lemma before_bound start acc q n l : Forall block_ok acc ->
  before_of start acc = (q, n) :: l -> q + n <= start + bytes_of acc.
Proof.
  intros Hok E. rewrite <- bytes_of_rev. apply (free_bounds start (rev acc) q n); [apply Forall_rev; auto|].
  apply list_elem_of_In, in_rev, list_elem_of_In. fold (before_of start acc). rewrite E. left.
Qed.

Lemma before_of_gap start acc p : Forall block_ok acc -> p = start + bytes_of acc ->
  (forall q acc', acc <> Free q :: acc') ->
  match before_of start acc with (q, n) :: _ => q + n <> p | [] => True end.
Proof.
  intros Hok -> Hne. destruct acc as [|[q|o] acc]; [exact I | destruct (Hne q acc eq_refl) |].
  rewrite before_used. pose proof (Forall_inv Hok) as [Ho _]. pose proof (Forall_inv_tail Hok) as Hok'.
  destruct (before_of start acc) as [|[q n] l] eqn:E; [exact I|].
  apply before_bound in E; auto. simpl in *. lia.
Qed.

(** Whether the chunk after the object at [p] can be merged. *)
Lemma merge_right p bs : Forall block_ok bs ->
  (match free_chunks p bs with (r, n) :: _ => negb (n =? 0) && (p =? r) | [] => false end)
  = match bs with Free _ :: _ => true | _ => false end.
Proof.
  intros Hok. destruct bs as [|[n|o] bs]; [reflexivity| |]; simpl;
    pose proof (Forall_inv Hok) as [Hb _]; pose proof (Forall_inv_tail Hok) as Hok'; simpl in Hb.
  - rewrite (proj2 (Z.eqb_neq n 0)), Z.eqb_refl by lia. reflexivity.
  - destruct (free_chunks (p + object_bytes o) bs) as [|[r n] l] eqn:E; [reflexivity|].
    apply free_head in E; auto. rewrite (proj2 (Z.eqb_neq p r)) by lia. apply andb_false_r.
Qed.

Lemma free_block_front p size q before bs : Forall block_ok bs ->
  free_block p size ((p - q, q) :: before) (free_chunks (p + size) bs) =
  match bs with
  | Free r :: bs' => ((p - q, q + size + r) :: before, free_chunks (p + size + r) bs', q + size + r, p + size + r)
  | _ => ((p - q, q + size) :: before, free_chunks (p + size) bs, q + size, p + size)
  end.
Proof.
  intros Hok. unfold free_block. rewrite (proj2 (Z.eqb_eq (p - q + q) p)) by lia.
  rewrite merge_right by auto. destruct bs as [|[r|o] bs]; reflexivity.
Qed.

Lemma free_block_new p size before bs : Forall block_ok bs ->
  match before with (q, n) :: _ => q + n <> p | [] => True end ->
  free_block p size before (free_chunks (p + size) bs) =
  match bs with
  | Free r :: bs' => (before, (p, size + r) :: free_chunks (p + size + r) bs', size + r, p + (size + r))
  | _ => (before, (p, size) :: free_chunks (p + size) bs, size, p + size)
  end.
Proof.
  intros Hok Hgap. unfold free_block. rewrite merge_right by auto.
  destruct before as [|[q n] before]; [|rewrite (proj2 (Z.eqb_neq _ _)) by exact Hgap];
    destruct bs as [|[r|o] bs]; reflexivity.
Qed.

Lemma before_of_rev start acc : rev (before_of start acc) = free_chunks start (rev acc).
Proof. apply rev_involutive. Qed.

(** [free_block] is [free_between] on the free list. *)
Lemma free_block_spec start acc size bs p acc' bs' :
  Forall block_ok acc -> Forall block_ok bs -> 0 < size -> p = start + bytes_of acc ->
  free_between acc size bs = (acc', bs') ->
  exists before l freed,
    free_block p size (before_of start acc) (free_chunks (p + size) bs)
      = (before, l ++ free_chunks (start + bytes_of acc') bs', freed, start + bytes_of acc')
    /\ Forall (fun c => c.1 < start + bytes_of acc') l
    /\ rev before ++ l = free_chunks start (rev acc')
    /\ Free freed ∈ acc'.
Proof.
  intros Ha Hb Hs Hp E. assert (Hfront : (exists q acc0, acc = Free q :: acc0) \/ forall q acc0, acc <> Free q :: acc0).
  { destruct acc as [|[q|o] acc]; [right; congruence | left; eauto | right; congruence]. }
  destruct Hfront as [(q & acc0 & ->)|Hne].
  - rewrite before_free. replace (start + bytes_of acc0) with (p - q) by (rewrite Hp; simpl; lia).
    rewrite free_block_front by auto.
    assert (Hr : forall n, rev ((p - q, n) :: before_of start acc0) ++ [] = free_chunks start (rev (Free n :: acc0))).
    { intros n. replace (p - q) with (start + bytes_of acc0) by (rewrite Hp; simpl; lia).
      rewrite <- before_free, before_of_rev, app_nil_r. reflexivity. }
    destruct bs as [|[r|o] bs]; injection E as <- <-; simpl bytes_of.
    1,3: exists ((p - q, q + size) :: before_of start acc0), [], (q + size);
      replace (start + (q + size + bytes_of acc0)) with (p + size) by (rewrite Hp; simpl; lia);
      split; [reflexivity|]; split; [constructor|]; split; [apply Hr | left].
    exists ((p - q, q + (size + r)) :: before_of start acc0), [], (q + (size + r)).
    replace (start + (q + (size + r) + bytes_of acc0)) with (p + size + r) by (rewrite Hp; simpl; lia).
    rewrite <- !Z.add_assoc. split; [reflexivity|]. split; [constructor|]. split; [apply Hr | left].
  - rewrite free_block_new; [|auto|apply before_of_gap; auto].
    assert (Hc : forall n, free_cons acc n = Free n :: acc).
    { intros n. destruct acc as [|[q|o] acc]; try reflexivity. destruct (Hne q acc eq_refl). }
    assert (Hr : forall n, rev (before_of start acc) ++ [(p, n)] = free_chunks start (rev (Free n :: acc))).
    { intros n. rewrite <- before_of_rev, before_free, Hp. reflexivity. }
    destruct bs as [|[r|o] bs]; injection E as <- <-; rewrite Hc; simpl bytes_of.
    1,3: exists (before_of start acc), [(p, size)], size;
      replace (start + (size + bytes_of acc)) with (p + size) by lia;
      split; [reflexivity|]; split; [constructor; [simpl; lia | constructor]|]; split; [apply Hr | left].
    pose proof (Forall_inv Hb) as [Hr0 _]. simpl in Hr0.
    exists (before_of start acc), [(p, size + r)], (size + r).
    replace (start + (size + r + bytes_of acc)) with (p + (size + r)) by lia. rewrite <- !Z.add_assoc.
    split; [reflexivity|]. split; [constructor; [simpl; lia | constructor]|]. split; [apply Hr | left].
Qed.

(** Free blocks only grow while sweeping goes on. *)
Lemma free_cons_grows acc n q : 0 <= n -> Free q ∈ acc -> exists q', q <= q' /\ Free q' ∈ free_cons acc n.
Proof.
  intros Hn Hq. destruct acc as [|[m|o] acc]; simpl.
  - apply elem_of_nil in Hq. contradiction.
  - apply elem_of_cons in Hq as [E|Hq]; [injection E as ->; exists (m + n); split; [lia | left]|].
    exists q. split; [lia | right; exact Hq].
  - exists q. split; [lia | right; exact Hq].
Qed.

Lemma free_between_grows acc size bs acc' bs' q : 0 < size -> Forall block_ok bs ->
  free_between acc size bs = (acc', bs') -> Free q ∈ acc -> exists q', q <= q' /\ Free q' ∈ acc'.
Proof.
  intros Hs Hb E Hq. destruct bs as [|[r|o] bs]; injection E as <- <-; apply free_cons_grows; auto; try lia.
  pose proof (Forall_inv Hb) as [Hr _]. simpl in Hr. lia.
Qed.

Lemma sweep_blocks_grows bs acc q : Forall block_ok acc -> Forall block_ok bs -> Free q ∈ acc ->
  exists q', q <= q' /\ Free q' ∈ sweep_blocks acc bs.
Proof.
  revert bs acc q. apply (sweep_ind (fun acc bs => forall q, Forall block_ok acc -> Forall block_ok bs -> Free q ∈ acc ->
    exists q', q <= q' /\ Free q' ∈ sweep_blocks acc bs)).
  - intros acc q _ _ Hq. exists q. split; [lia|]. simpl. apply list_elem_of_In. apply -> in_rev.
    apply list_elem_of_In, Hq.
  - intros acc n bs IH q Ha Hb Hq. simpl. inversion Hb; subst. apply IH; auto. right. exact Hq.
  - intros acc o bs Hm IH q Ha Hb Hq. simpl. rewrite Hm. inversion Hb; subst. apply IH; auto. right. exact Hq.
  - intros acc o bs acc' bs' Hm E IH q Ha Hb Hq. rewrite sweep_blocks_dead, E by auto.
    inversion Hb as [|? ? [Ho Ho2] Hb']; subst.
    destruct (free_between_spec _ _ _ _ _ Ha Hb' Ho Ho2 E) as (Ha' & Hbs' & _).
    destruct (free_between_grows _ _ _ _ _ q Ho Hb' E Hq) as (q1 & Hq1 & Hin).
    destruct (IH q1 Ha' Hbs' Hin) as (q2 & Hq2 & Hin2). exists q2. split; [lia | exact Hin2].
Qed.

Lemma sweep_object_other os p o a : a <> p -> sweep_object os (p, o) !! a = os !! a.
Proof.
  intros Hne. unfold sweep_object. simpl.
  destruct (o_marked o); [apply lookup_insert_ne | apply lookup_delete_ne]; auto.
Qed.

Lemma present_sweep os p o bs p' : Forall block_ok bs -> p < p' ->
  present os (used_objects p' bs) -> present (sweep_object os (p, o)) (used_objects p' bs).
Proof.
  intros Hok Hlt Hp a o' Hin. pose proof (used_bounds _ _ _ _ Hok Hin).
  rewrite sweep_object_other by lia. apply Hp, Hin.
Qed.

Lemma before_unique start acc before l : rev before ++ l = free_chunks start (rev acc) ->
  rev l ++ before = before_of start acc.
Proof. intros H. unfold before_of. rewrite <- H, rev_app_distr, rev_involutive. reflexivity. Qed.

Lemma sweep_loop_spec fuel : forall bs acc before l os mf sf start p,
  Forall block_ok acc -> Forall block_ok bs -> (length bs <= fuel)%nat -> p = start + bytes_of acc ->
  Forall (fun c => c.1 < p) l -> rev before ++ l = free_chunks start (rev acc) ->
  present os (used_objects p bs) ->
  exists before' after' mf',
    sweep_loop fuel p (p + bytes_of bs) (Sweeping before (l ++ free_chunks p bs) os mf sf)
      = Some (Sweeping before' after' (foldl sweep_object os (used_objects p bs)) mf' (sf + dead_total bs))
    /\ rev before' ++ after' = free_chunks start (sweep_blocks acc bs)
    /\ (mf' = mf \/ exists q, mf' <= q /\ Free q ∈ sweep_blocks acc bs).
Proof.
  induction fuel as [|fuel IH]; intros bs acc before l os mf sf start p Ha Hb Hf Hp Hl Hbe Hpr;
    (destruct bs as [|b bs]; [|try (simpl in Hf; lia)]).
  1,2: exists before, l, mf; simpl; rewrite (proj2 (Z.leb_le _ _)) by lia; rewrite Z.add_0_r, app_nil_r;
    auto.
  cbn [sweep_loop s_before s_after s_objects s_max_freed s_sum_freed].
  pose proof (Forall_inv Hb) as [Hb0 Hb32]. pose proof (Forall_inv_tail Hb) as Hb'.
  pose proof (bytes_of_nonneg bs Hb'). simpl in Hf. rewrite (proj2 (Z.leb_gt _ _)) by (simpl; lia).
  rewrite sweep_advance_spec, (before_unique start acc) by auto.
  destruct b as [n|o]; simpl block_size in *.
  - simpl free_chunks. cbn beta iota zeta. rewrite Z.eqb_refl.
    destruct (IH bs (Free n :: acc) (before_of start acc) [(p, n)] os mf sf start (p + n)) as (b' & a' & m' & E & R);
      [constructor; [split; auto | auto] | auto | lia | simpl; lia | constructor; [simpl; lia|constructor] | | exact Hpr |].
    { rewrite <- before_of_rev, before_free, Hp. reflexivity. }
    exists b', a', m'. split; [|exact R]. rewrite <- Z.add_assoc in E. exact E.
  - assert (Hat : os !! p = Some o) by (apply Hpr; left).
    assert (Hmatch : forall X Y : option sweeping, X = Y ->
      match free_chunks (p + object_bytes o) bs with
      | (r, n) :: _ => if r =? p
          then sweep_loop fuel (p + n) (p + bytes_of (Used o :: bs)) (Sweeping (before_of start acc) (free_chunks p (Used o :: bs)) os mf sf)
          else X
      | [] => X
      end = Y).
    { intros X Y ->. destruct (free_chunks (p + object_bytes o) bs) as [|[r n] fr] eqn:Ef; [reflexivity|].
      apply free_head in Ef; auto. rewrite (proj2 (Z.eqb_neq r p)) by lia. reflexivity. }
    assert (Hrest : present (sweep_object os (p, o)) (used_objects (p + object_bytes o) bs)).
    { apply present_sweep; auto; [lia|]. intros a o' Hin. apply Hpr. right. exact Hin. }
    destruct (o_marked o) eqn:Hm.
    + destruct (IH bs (Used (set_marked false o) :: acc) (before_of start acc) []
        (sweep_object os (p, o)) mf sf start (p + object_bytes o)) as (b' & a' & m' & E & R);
        [constructor; [split; auto | auto] | auto | lia | | constructor | | exact Hrest |].
      { simpl. change (object_bytes (set_marked false o)) with (object_bytes o). lia. }
      { rewrite <- before_of_rev, before_used, app_nil_r. reflexivity. }
      exists b', a', m'. split; [|simpl; rewrite Hm; exact R].
      apply Hmatch. rewrite Hat. simpl. rewrite Hm. simpl in E. unfold sweep_object in E |- *. simpl in *.
      rewrite Hm in *. rewrite Z.add_assoc. exact E.
    + assert (Hso : sweep_object os (p, o) = delete p os) by (unfold sweep_object; simpl; rewrite Hm; reflexivity).
      destruct (free_between acc (object_bytes o) bs) as [acc' bs'] eqn:Efb.
      destruct (free_between_spec _ _ _ _ _ Ha Hb' Hb0 Hb32 Efb) as (Ha' & Hbs' & Hlen & Htot & Hused & Hdead).
      destruct (free_block_spec start acc _ bs p acc' bs' Ha Hb' Hb0 Hp Efb) as (bf & l' & fr & Efr & Hl' & Hbf & Hin).
      specialize (Hused start). rewrite <- Hp in Hused.
      destruct (IH bs' acc' bf l' (sweep_object os (p, o)) (Z.max mf fr) (sf + object_bytes o) start (start + bytes_of acc'))
        as (b' & a' & m' & E & R & M); auto; [lia | rewrite <- Hused; exact Hrest|].
      exists b', a', m'. rewrite sweep_blocks_dead, Efb by auto. split; [|split; [exact R|]].
      * apply Hmatch. rewrite Hat. simpl. rewrite Hm. rewrite (Efr : free_block p (sexp_heap_align (o_size o)) _ _ = _).
        rewrite Hused, Hdead. rewrite Hso in E |- *.
        replace (p + (object_bytes o + bytes_of bs)) with (start + bytes_of acc' + bytes_of bs') by lia.
        replace (sf + (object_bytes o + dead_total bs')) with (sf + object_bytes o + dead_total bs') by lia. exact E.
      * destruct M as [->|M]; [|auto]. destruct (Z.max_spec mf fr) as [[_ ->]|[_ ->]]; [|auto].
        right. destruct (sweep_blocks_grows bs' acc' fr Ha' Hbs' Hin) as (q & Hq & Hq2). eauto.
Qed.

(** ** What a sweep leaves *)

Definition survivor (ao : Z * object) : option (Z * object) :=
  if o_marked ao.2 then Some (ao.1, set_marked false ao.2) else None.

(** No two free blocks are next to each other. *)
Fixpoint coalesced (bs : list cell) : Prop :=
  match bs with
  | Free _ :: ((Free _ :: _) as rest) => False
  | _ :: rest => coalesced rest
  | [] => True
  end.

Definition starts_free (bs : list cell) : Prop := match bs with Free _ :: _ => True | _ => False end.

Lemma coalesced_cons b bs : coalesced (b :: bs) <-> ~ (starts_free [b] /\ starts_free bs) /\ coalesced bs.
Proof. destruct b as [m|o], bs as [|[n|o2] bs]; simpl; tauto. Qed.

Lemma coalesced_app l bs : coalesced (rev l ++ bs) <-> coalesced l /\ coalesced bs /\ ~ (starts_free l /\ starts_free bs).
Proof.
  revert bs. induction l as [|b l IH]; intros bs; [simpl; tauto|].
  simpl rev. rewrite <- app_assoc, IH. cbn [app]. rewrite !coalesced_cons.
  destruct b, l as [|[] l], bs as [|[] bs]; simpl; tauto.
Qed.

(** A sweep keeps the extent and the shape of a heap, and its survivors. *)
Lemma sweep_blocks_spec bs acc : Forall block_ok acc -> Forall block_ok bs ->
  bytes_of (sweep_blocks acc bs) = bytes_of acc + bytes_of bs
  /\ Forall block_ok (sweep_blocks acc bs)
  /\ (forall p, used_objects p (sweep_blocks acc bs)
        = used_objects p (rev acc) ++ omap survivor (used_objects (p + bytes_of acc) bs)).
Proof.
  revert bs acc. apply (sweep_ind (fun acc bs => Forall block_ok acc -> Forall block_ok bs ->
    bytes_of (sweep_blocks acc bs) = bytes_of acc + bytes_of bs /\ Forall block_ok (sweep_blocks acc bs)
    /\ (forall p, used_objects p (sweep_blocks acc bs)
        = used_objects p (rev acc) ++ omap survivor (used_objects (p + bytes_of acc) bs)))).
  - intros acc Ha _. simpl. rewrite bytes_of_rev. split; [lia|]. split; [apply Forall_rev, Ha|].
    intros p. symmetry. apply app_nil_r.
  - intros acc n bs IH Ha Hb. inversion Hb; subst. destruct IH as (E & Hok & Hu); auto.
    simpl in *. split; [lia|]. split; [exact Hok|]. intros p. rewrite Hu, used_objects_app. simpl.
    rewrite app_nil_r. do 3 f_equal. lia.
  - intros acc o bs Hm IH Ha Hb. inversion Hb; subst. destruct IH as (E & Hok & Hu); auto.
    simpl. rewrite Hm. simpl in E. change (object_bytes (set_marked false o)) with (object_bytes o) in *.
    split; [lia|]. split; [exact Hok|]. intros p. rewrite Hu, used_objects_snoc, <- app_assoc. f_equal.
    assert (Hs : survivor (p + bytes_of acc, o) = Some (p + bytes_of acc, set_marked false o))
      by (unfold survivor; simpl; rewrite Hm; reflexivity).
    simpl. rewrite Hs. simpl. do 3 f_equal. change (object_bytes (set_marked false o)) with (object_bytes o). lia.
  - intros acc o bs acc' bs' Hm E IH Ha Hb. rewrite sweep_blocks_dead, E by auto.
    inversion Hb as [|? ? [Ho Ho2] Hb']; subst.
    destruct (free_between_spec _ _ _ _ _ Ha Hb' Ho Ho2 E) as (Ha' & Hbs' & _ & Ht & Hused & _).
    destruct (IH Ha' Hbs') as (Et & Hok & Hu). simpl in *. split; [lia|]. split; [exact Hok|].
    intros p. rewrite Hu, <- Hused.
    assert (Hs : survivor (p + bytes_of acc, o) = None) by (unfold survivor; simpl; rewrite Hm; reflexivity).
    rewrite Hs. f_equal.
    destruct bs as [|[r|o'] bs]; injection E as <- <-; apply free_cons_used.
Qed.

Lemma sweep_blocks_coalesced bs acc : coalesced (rev acc ++ bs) -> coalesced (sweep_blocks acc bs).
Proof.
  revert bs acc. apply (sweep_ind (fun acc bs => coalesced (rev acc ++ bs) -> coalesced (sweep_blocks acc bs))).
  - intros acc H. rewrite app_nil_r in H. exact H.
  - intros acc n bs IH H. simpl. apply IH. simpl. rewrite <- app_assoc. exact H.
  - intros acc o bs Hm IH H. simpl. rewrite Hm. apply IH. simpl. rewrite <- app_assoc.
    rewrite coalesced_app in H |- *. rewrite coalesced_cons in H. cbn [app]. rewrite coalesced_cons. simpl in *. tauto.
  - intros acc o bs acc' bs' Hm E IH H. rewrite sweep_blocks_dead, E by auto. apply IH.
    rewrite coalesced_app in H |- *.
    destruct bs as [|[r|o'] bs]; injection E as <- <-; rewrite !coalesced_cons in H;
      destruct acc as [|[q|o2] acc]; simpl free_cons; rewrite ?coalesced_cons in *; simpl in *; tauto.
Qed.

(** The bytes in free blocks, which a sweep adds the dead ones to. *)
Fixpoint free_bytes (bs : list cell) : Z :=
  match bs with [] => 0 | Free n :: bs => n + free_bytes bs | Used _ :: bs => free_bytes bs end.

Lemma free_bytes_app bs1 bs2 : free_bytes (bs1 ++ bs2) = free_bytes bs1 + free_bytes bs2.
Proof. induction bs1 as [|[n|o] bs1 IH]; simpl; lia. Qed.

Lemma free_bytes_rev bs : free_bytes (rev bs) = free_bytes bs.
Proof. induction bs as [|[n|o] bs IH]; simpl; rewrite ?free_bytes_app; simpl; lia. Qed.

Lemma sweep_blocks_free bs acc :
  free_bytes (sweep_blocks acc bs) = free_bytes acc + free_bytes bs + dead_total bs.
Proof.
  revert bs acc. apply (sweep_ind (fun acc bs =>
    free_bytes (sweep_blocks acc bs) = free_bytes acc + free_bytes bs + dead_total bs)).
  - intros acc. simpl. rewrite free_bytes_rev. lia.
  - intros acc n bs IH. simpl in *. lia.
  - intros acc o bs Hm IH. simpl in *. rewrite Hm. lia.
  - intros acc o bs acc' bs' Hm E IH. rewrite sweep_blocks_dead, E, IH by auto. simpl. rewrite Hm.
    destruct bs as [|[r|o'] bs]; injection E as <- <-; destruct acc as [|[q|o2] acc]; simpl; lia.
Qed.

(** ** Allocating *)

Lemma sexp_heap_align_div n : sexp_heap_align n = 32 * ((n + 31) / 32).
Proof.
  unfold sexp_heap_align. change (-32) with (Z.lnot (Z.ones 5)). rewrite <- Z.ldiff_land.
  rewrite Z.ldiff_ones_r, Z.shiftl_mul_pow2, Z.shiftr_div_pow2 by lia. change (2 ^ 5) with 32. lia.
Qed.

Lemma sexp_heap_align_spec n : n <= sexp_heap_align n < n + 32 /\ sexp_heap_align n mod 32 = 0.
Proof.
  rewrite sexp_heap_align_div. split; [|rewrite Z.mul_comm; apply Z.mod_mul; lia].
  pose proof (Z.div_mod (n + 31) 32 ltac:(lia)). pose proof (Z.mod_pos_bound (n + 31) 32 ltac:(lia)). lia.
Qed.

(** The object [o] at the front of a free block of [n] bytes. *)
Definition split_block (o : object) (n : Z) : list cell :=
  if object_bytes o =? n then [Used o] else [Used o; Free (n - object_bytes o)].

Lemma split_block_spec o n : block_ok (Free n) -> 0 < object_bytes o <= n ->
  Forall block_ok (split_block o n) /\ bytes_of (split_block o n) = n
  /\ (forall p, used_objects p (split_block o n) = [(p, o)]).
Proof.
  intros [Hn Hn2] Ho. pose proof (proj2 (sexp_heap_align_spec (o_size o))) as Hm. fold (object_bytes o) in Hm.
  unfold split_block. destruct (Z.eqb_spec (object_bytes o) n) as [E|Hne]; simpl in *.
  - split; [constructor; [split; simpl; auto; lia | constructor]|]. split; [lia | reflexivity].
  - split; [|split; [lia | reflexivity]]. constructor; [split; simpl; auto; lia|].
    constructor; [|constructor]. split; simpl; [lia|]. rewrite Zminus_mod, Hm, Hn2. reflexivity.
Qed.

Lemma alloc_chunk_spec size bs : 0 < size -> size mod 32 = 0 -> forall p, Forall block_ok bs ->
  match alloc_chunk size (free_chunks p bs) with
  | Some (a, free) => exists bs1 n bs2, bs = bs1 ++ Free n :: bs2 /\ size <= n /\ a = p + bytes_of bs1
      /\ forall o, object_bytes o = size -> free = free_chunks p (bs1 ++ split_block o n ++ bs2)
  | None => forall q, Free q ∈ bs -> q < size
  end.
Proof.
  intros Hs Hs32. induction bs as [|[n|o] bs IH]; intros p Hok.
  - intros q Hq. apply elem_of_nil in Hq. contradiction.
  - inversion Hok as [|? ? [Hn Hn2] Hok']; subst. simpl in *. destruct (Z.leb_spec size n) as [Hle|Hlt].
    + assert (E : (size + SEXP_MINIMUM_OBJECT_SIZE <=? n) = negb (size =? n)).
      { change SEXP_MINIMUM_OBJECT_SIZE with 32.
        pose proof (Z.div_mod size 32 ltac:(lia)). pose proof (Z.div_mod n 32 ltac:(lia)).
        destruct (Z.leb_spec (size + 32) n), (Z.eqb_spec size n); simpl; lia. }
      rewrite E. destruct (Z.eqb_spec size n) as [->|Hne]; simpl; exists [], n, bs; simpl;
        (split; [reflexivity|]; split; [lia|]; split; [lia|]); intros o Ho; unfold split_block; rewrite Ho.
      * rewrite Z.eqb_refl. simpl. rewrite Ho. reflexivity.
      * rewrite (proj2 (Z.eqb_neq size n)) by auto. simpl. rewrite Ho. do 2 f_equal. lia.
    + specialize (IH (p + n) Hok'). destruct (alloc_chunk size (free_chunks (p + n) bs)) as [[a free]|]; simpl.
      * destruct IH as (bs1 & m & bs2 & -> & Hm & -> & Hf). exists (Free n :: bs1), m, bs2. simpl.
        split; [reflexivity|]. split; [exact Hm|]. split; [lia|]. intros o Ho. rewrite (Hf o Ho). reflexivity.
      * intros q Hq. apply elem_of_cons in Hq as [E|Hq]; [injection E as ->; exact Hlt | auto].
  - inversion Hok; subst. specialize (IH (p + object_bytes o)). simpl.
    destruct (alloc_chunk size (free_chunks (p + object_bytes o) bs)) as [[a free]|].
    + destruct IH as (bs1 & m & bs2 & -> & Hm & -> & Hf); auto. exists (Used o :: bs1), m, bs2. simpl.
      split; [reflexivity|]. split; [exact Hm|]. split; [lia|]. exact Hf.
    + intros q Hq. apply elem_of_cons in Hq as [E|Hq]; [discriminate | auto].
Qed.

(** A block that is split keeps the heap coalesced. *)
Lemma split_coalesced o n bs1 bs2 : coalesced (bs1 ++ Free n :: bs2) -> coalesced (bs1 ++ split_block o n ++ bs2).
Proof.
  rewrite <- (rev_involutive bs1), !coalesced_app, coalesced_cons. unfold split_block.
  destruct (object_bytes o =? n); simpl app; rewrite ?coalesced_cons; simpl; tauto.
Qed.
