(* ===== verification/GcMemory.v ===== *)
(** * Memory as heaps of blocks

    A well-formed memory has a view, a list of blocks for each heap, that its
    objects and free lists are read off.  The passes of the collector over all
    heaps are related to folds over the objects of the view. *)
From S2P Require Import Prelude Gc GcMark GcHeap.
From stdpp Require Import base list option gmap.
#[local] Open Scope Z_scope.

(** ** Views *)

Abbreviation view := (list (heap * list cell)).

Definition heap_used (x : heap * list cell) : list (Z * object) := used_objects (sexp_heap_first_block x.1) x.2.

Definition all_used (v : view) : list (Z * object) := concat (map heap_used v).

Definition all_blocks (v : view) : list cell := concat (map snd v).

(** The blocks of two heaps do not overlap. *)
Definition apart (h1 h2 : heap) : Prop :=
  sexp_heap_end h1 <= sexp_heap_first_block h2 \/ sexp_heap_end h2 <= sexp_heap_first_block h1.

Record well_formed (m : memory) (v : view) : Prop := WellFormed {
  wf_heaps : m_heaps m = map fst v;
  wf_blocks : Forall (fun x => heap_blocks x.1 x.2) v;
  wf_apart : ForallOrdPairs apart (map fst v);
  wf_objects : forall a o, m_objects m !! a = Some o <-> (a, o) ∈ all_used v;
}.

Lemma used_nodup p bs : Forall block_ok bs -> NoDup (map fst (used_objects p bs)).
Proof.
  intros Hok. revert p. induction Hok as [|[n|o] bs [Hb _] Hok IH]; intros p; simpl in *;
    [constructor | apply IH | constructor; [|apply IH]].
  intros Hin. apply list_elem_of_fmap in Hin as ([a o'] & E & Hin). simpl in E. subst a.
  apply used_bounds in Hin; auto. lia.
Qed.

Lemma heap_used_bounds h bs a o : heap_blocks h bs -> (a, o) ∈ heap_used (h, bs) ->
  sexp_heap_first_block h <= a < sexp_heap_end h.
Proof. intros [_ He Hok] Hin. apply used_bounds in Hin; auto. simpl in Hin. lia. Qed.

Lemma all_used_in v a o : (a, o) ∈ all_used v -> exists h bs, (h, bs) ∈ v /\ (a, o) ∈ heap_used (h, bs).
Proof.
  induction v as [|[h bs] v IH]; intros Hin; [apply elem_of_nil in Hin; contradiction|].
  unfold all_used in Hin. simpl in Hin. apply elem_of_app in Hin as [Hin|Hin].
  - exists h, bs. split; [left | exact Hin].
  - destruct (IH Hin) as (h' & bs' & Hv & Hu). exists h', bs'. split; [right; exact Hv | exact Hu].
Qed.

Lemma all_used_nodup v : Forall (fun x => heap_blocks x.1 x.2) v -> ForallOrdPairs apart (map fst v) ->
  NoDup (map fst (all_used v)).
Proof.
  intros Hb Hap. induction Hb as [|[h bs] v Hh Hb IH]; [constructor|].
  simpl in Hap. inversion Hap as [|? ? Hap1 Hap2]; subst. unfold all_used. simpl. rewrite map_app.
  apply NoDup_app. split; [|split; [|apply IH; auto]].
  - apply used_nodup. destruct Hh; auto.
  - intros a H1 H2. apply list_elem_of_fmap in H1 as ([a1 o1] & -> & H1).
    apply list_elem_of_fmap in H2 as ([a2 o2] & E & H2). simpl in E. subst a2.
    apply all_used_in in H2 as (h2 & bs2 & Hv & H2).
    rewrite List.Forall_forall in Hap1, Hb. apply list_elem_of_In in Hv.
    specialize (Hap1 h2 (in_map fst _ _ Hv)). specialize (Hb _ Hv). simpl in *.
    apply heap_used_bounds in H1, H2; auto. unfold apart in Hap1. lia.
Qed.

Lemma wf_nodup m v : well_formed m v -> NoDup (map fst (all_used v)).
Proof. intros [_ Hb Ha _]. apply all_used_nodup; auto. Qed.

Lemma wf_present m v : well_formed m v -> present (m_objects m) (all_used v).
Proof. intros [_ _ _ Ho] a o. apply Ho. Qed.

(** ** Passes *)

Lemma length_bytes_of bs : Forall block_ok bs -> Z.of_nat (length bs) <= bytes_of bs.
Proof. induction 1 as [|b bs [Hb _] _ IH]; simpl; lia. Qed.

Lemma scan_fuel_enough h bs : heap_blocks h bs -> (length bs <= scan_fuel h)%nat.
Proof.
  intros [_ He Hok]. apply length_bytes_of in Hok. unfold scan_fuel, sexp_heap_end, sexp_heap_first_block in *.
  change (sexp_heap_align sexp_free_chunk_size) with 32 in *. lia.
Qed.

Lemma scan_heap_spec {S} (body : Z -> object -> objects * S -> objects * S) h bs s : local_body body ->
  heap_blocks h bs -> present s.1 (heap_used (h, bs)) ->
  scan_heap body h s = Some (foldl (visit body) s (heap_used (h, bs))).
Proof.
  intros Hloc Hb Hp. pose proof (scan_fuel_enough h bs Hb). destruct Hb as [Hf He Hok].
  unfold scan_heap. rewrite Hf, He. apply (scan_spec body Hloc _ bs _ []); auto.
Qed.

Lemma visit_others {S} (body : Z -> object -> objects * S -> objects * S) l s a : local_body body ->
  a ∉ map fst l -> (foldl (visit body) s l).1 !! a = s.1 !! a.
Proof.
  intros Hloc. revert s. induction l as [|[b o] l IH]; intros s Ha; [reflexivity|].
  simpl in *. rewrite not_elem_of_cons in Ha. rewrite IH by tauto. apply Hloc. tauto.
Qed.

Lemma nodup_disjoint {A B} (l1 l2 : list (A * B)) a o :
  NoDup (map fst (l1 ++ l2)) -> (a, o) ∈ l2 -> a ∉ map fst l1.
Proof.
  rewrite map_app, NoDup_app. intros (_ & H & _) Hin Ha. apply (H a Ha).
  apply list_elem_of_fmap. exists (a, o). auto.
Qed.

Lemma foldM_scan {S} (body : Z -> object -> objects * S -> objects * S) v : local_body body ->
  Forall (fun x => heap_blocks x.1 x.2) v -> NoDup (map fst (all_used v)) -> forall s, present s.1 (all_used v) ->
  foldM (scan_heap body) (map fst v) s = Some (foldl (visit body) s (all_used v)).
Proof.
  intros Hloc Hb. induction Hb as [|[h bs] v Hh Hb IH]; intros Hn s Hp; [reflexivity|].
  unfold all_used in *. simpl in *.
  rewrite (scan_heap_spec body h bs) by (auto; intros a o Hin; apply Hp, elem_of_app; auto).
  simpl. rewrite IH, foldl_app; [reflexivity | rewrite map_app, NoDup_app in Hn; tauto|].
  intros a o Hin. rewrite visit_others; [apply Hp, elem_of_app; auto | exact Hloc|].
  apply (nodup_disjoint _ _ a o Hn Hin).
Qed.

(** A fold over objects that replaces each one by [g], as long as [I] holds. *)
Section pointwise.
Context {S : Type} (step : S -> Z * object -> S) (get : S -> objects) (I : S -> Prop).
Context (g : Z -> object -> option object).
Context (Hstep : forall s a o, I s -> get s !! a = Some o ->
  I (step s (a, o)) /\ forall b, get (step s (a, o)) !! b = if decide (b = a) then g a o else get s !! b).

Lemma foldl_pointwise l : NoDup (map fst l) -> forall s, present (get s) l -> I s ->
  I (foldl step s l) /\ forall b, get (foldl step s l) !! b =
    if decide (b ∈ map fst l) then get s !! b ≫= g b else get s !! b.
Proof.
  induction l as [|[a o] l IH]; intros Hn s Hp HI.
  - split; [exact HI|]. intros b. rewrite decide_False; [reflexivity|]. apply not_elem_of_nil.
  - simpl in Hn. apply NoDup_cons in Hn as [Ha Hn].
    assert (Ho : get s !! a = Some o) by (apply Hp; left).
    destruct (Hstep s a o HI Ho) as [HI' Hl].
    destruct (IH Hn (step s (a, o))) as [HI2 Hl2]; auto.
    { intros b o' Hin. rewrite Hl, decide_False; [apply Hp; right; exact Hin|].
      intros ->. apply Ha, list_elem_of_fmap. exists (a, o'). auto. }
    split; [exact HI2|]. intros b. simpl foldl. rewrite Hl2, Hl. simpl map.
    destruct (decide (b = a)) as [->|Hne].
    + rewrite decide_False by auto. rewrite decide_True by left. rewrite Ho. reflexivity.
    + destruct (decide (b ∈ map fst l)) as [Hin|Hout].
      * rewrite decide_True by (right; exact Hin). reflexivity.
      * rewrite decide_False by (rewrite not_elem_of_cons; auto). reflexivity.
Qed.
End pointwise.

(** ** Changes to the objects of a view *)

(** The blocks with their objects looked up again. *)
Fixpoint refresh (os : objects) (p : Z) (bs : list cell) : list cell :=
  match bs with
  | [] => []
  | Free n :: bs => Free n :: refresh os (p + n) bs
  | Used o :: bs => Used (default o (os !! p)) :: refresh os (p + object_bytes o) bs
  end.

(** The same addresses hold objects, of the same sizes. *)
Definition same_sizes (os os' : objects) : Prop := forall a, o_size <$> os !! a = o_size <$> os' !! a.

Lemma same_sizes_lookup os os' a o : same_sizes os os' -> os !! a = Some o ->
  exists o', os' !! a = Some o' /\ o_size o' = o_size o.
Proof.
  intros Hs Ho. specialize (Hs a). rewrite Ho in Hs. destruct (os' !! a) as [o'|]; simpl in Hs; [|congruence].
  exists o'. split; congruence.
Qed.

Lemma refresh_spec os os' bs : same_sizes os os' -> forall p, Forall block_ok bs -> present os (used_objects p bs) ->
  free_chunks p (refresh os' p bs) = free_chunks p bs /\ bytes_of (refresh os' p bs) = bytes_of bs
  /\ Forall block_ok (refresh os' p bs)
  /\ (forall a o', (a, o') ∈ used_objects p (refresh os' p bs)
        <-> os' !! a = Some o' /\ exists o, (a, o) ∈ used_objects p bs).
Proof.
  intros Hs. induction bs as [|[n|o] bs IH]; intros p Hok Hp; simpl.
  - do 3 (split; [auto|]). intros a o'. setoid_rewrite elem_of_nil. split; [intros [] | intros [_ (o & [])]].
  - inversion Hok; subst. destruct (IH (p + n)) as (Hf & Ht & Hb & Hu); auto.
    rewrite Hf, Ht. split; [reflexivity|]. split; [reflexivity|]. split; [constructor; auto | exact Hu].
  - inversion Hok as [|? ? Ho Hok']; subst.
    destruct (same_sizes_lookup os os' p o) as (o' & Ho' & Hsz); [auto | apply Hp; left|].
    assert (Hb' : object_bytes o' = object_bytes o) by (unfold object_bytes; rewrite Hsz; reflexivity).
    destruct (IH (p + object_bytes o)) as (Hf & Ht & Hb & Hu); auto.
    { intros a x Hin. apply Hp. right. exact Hin. }
    rewrite Ho'. simpl. rewrite Hb', Hf, Ht. split; [reflexivity|]. split; [reflexivity|].
    split; [constructor; auto; unfold block_ok in *; simpl in *; rewrite Hb'; exact Ho|].
    intros a x. rewrite elem_of_cons, Hu. split.
    + intros [E | [H1 (y & H2)]]; [injection E as -> ->; split; [auto|]; exists o; left|].
      split; [exact H1|]. exists y. right. exact H2.
    + intros [H1 (y & H2)]. apply elem_of_cons in H2 as [E|H2]; [injection E as -> ->; left; congruence|].
      right. eauto.
Qed.

Lemma refresh_shape os bs : forall p,
  (starts_free (refresh os p bs) <-> starts_free bs) /\ (coalesced (refresh os p bs) <-> coalesced bs)
  /\ free_bytes (refresh os p bs) = free_bytes bs.
Proof.
  induction bs as [|[n|o] bs IH]; intros p; [tauto| |]; cbn [refresh]; rewrite !coalesced_cons; simpl.
  - destruct (IH (p + n)) as (H1 & H2 & H3). rewrite H1, H2, H3. tauto.
  - destruct (IH (p + object_bytes o)) as (H1 & H2 & H3). rewrite H1, H2, H3. tauto.
Qed.

Definition refresh_view (os : objects) (v : view) : view :=
  map (fun x => (x.1, refresh os (sexp_heap_first_block x.1) x.2)) v.

Lemma refresh_view_spec os os' v : same_sizes os os' -> Forall (fun x => heap_blocks x.1 x.2) v ->
  present os (all_used v) ->
  map fst (refresh_view os' v) = map fst v /\ Forall (fun x => heap_blocks x.1 x.2) (refresh_view os' v)
  /\ (forall a o', (a, o') ∈ all_used (refresh_view os' v) <-> os' !! a = Some o' /\ exists o, (a, o) ∈ all_used v).
Proof.
  intros Hs Hb Hp. induction Hb as [|[h bs] v Hh Hb IH].
  - split; [reflexivity|]. split; [constructor|]. intros a o'. unfold all_used. simpl. setoid_rewrite elem_of_nil. split; [intros [] | intros [_ (o & [])]].
  - unfold all_used in Hp. simpl in Hp.
    destruct IH as (E & Hb' & Hu). { intros a o Hin. apply Hp, elem_of_app. auto. }
    destruct Hh as [Hf He Hok]. simpl in *.
    destruct (refresh_spec os os' bs Hs (sexp_heap_first_block h) Hok) as (Hf2 & Ht2 & Hok2 & Hu2).
    { intros a o Hin. apply Hp, elem_of_app. left. exact Hin. }
    split; [f_equal; exact E|]. split.
    + constructor; [|exact Hb']. simpl. split; [congruence | congruence | exact Hok2].
    + intros a o'. unfold all_used in *. simpl. rewrite elem_of_app, Hu. unfold heap_used at 1. simpl. rewrite Hu2.
      setoid_rewrite elem_of_app. unfold heap_used at 2. simpl.
      split; [intros [[? (? & ?)]|[? (? & ?)]] | intros [? (? & [?|?])]]; eauto 6.
Qed.

Lemma wf_refresh hs os os' w v : well_formed (Memory hs os w) v -> same_sizes os os' ->
  well_formed (Memory hs os' w) (refresh_view os' v).
Proof.
  intros [Hh Hb Ha Ho] Hs. simpl in *.
  destruct (refresh_view_spec os os' v Hs Hb) as (E & Hb' & Hu). { intros a o. apply Ho. }
  split; simpl; [congruence | exact Hb' | rewrite E; exact Ha|].
  intros a o'. rewrite Hu. split; [|tauto]. intros Ho'. split; [exact Ho'|].
  destruct (same_sizes_lookup os' os a o') as (o & Hx & _); [intros b; symmetry; apply Hs | exact Ho'|].
  exists o. apply Ho, Hx.
Qed.

(** ** The sweep of all heaps *)

Definition same_extent (h h' : heap) : Prop :=
  h_data h = h_data h' /\ h_size h = h_size h' /\ h_max_size h = h_max_size h'.

Definition view_free (v : view) : Z := fold_right (fun x n => free_bytes x.2 + n) 0 v.

Lemma refresh_view_shape os v :
  (Forall (fun x => coalesced x.2) (refresh_view os v) <-> Forall (fun x => coalesced x.2) v)
  /\ view_free (refresh_view os v) = view_free v.
Proof.
  induction v as [|[h bs] v IH]; [split; [split; constructor | reflexivity]|].
  simpl. rewrite !Forall_cons. simpl. destruct (refresh_shape os bs (sexp_heap_first_block h)) as (_ & H2 & H3).
  destruct IH as [IH1 IH2]. rewrite IH1, H2, H3, IH2. tauto.
Qed.

Definition dead_bytes (v : view) : Z := fold_right (fun x n => dead_total x.2 + n) 0 v.

Lemma sweep_heap_spec h bs os mf sf : heap_blocks h bs -> present os (heap_used (h, bs)) ->
  exists h' mf', sweep_heap h os mf sf = Some (h', foldl sweep_object os (heap_used (h, bs)), mf', sf + dead_total bs)
    /\ heap_blocks h' (sweep_blocks [] bs) /\ same_extent h h'
    /\ (mf' = mf \/ exists q, mf' <= q /\ Free q ∈ sweep_blocks [] bs).
Proof.
  intros Hhb Hp. pose proof (scan_fuel_enough h bs Hhb) as Hfuel. destruct Hhb as [Hf He Hok].
  destruct (sweep_loop_spec (scan_fuel h) bs [] [] [] os mf sf (sexp_heap_first_block h) (sexp_heap_first_block h))
    as (b' & a' & mf' & E & R & M); auto; [simpl; lia|].
  unfold sweep_heap. rewrite Hf, He. cbn [app] in E. rewrite E. cbn [mbind option_bind s_before s_after s_objects s_max_freed s_sum_freed].
  destruct (sweep_blocks_spec bs []) as (Ht & Hok' & _); auto.
  eexists _, mf'. split; [reflexivity|]. split; [|split; [repeat split | exact M]].
  split; simpl; [exact R | | exact Hok']. unfold sexp_heap_first_block, sexp_heap_end in *. simpl in *. lia.
Qed.

Lemma sweep_used h h' bs : heap_blocks h bs -> same_extent h h' ->
  heap_used (h', sweep_blocks [] bs) = omap survivor (heap_used (h, bs)).
Proof.
  intros [_ _ Hok] [Hd _]. destruct (sweep_blocks_spec bs []) as (_ & _ & Hu); auto.
  unfold heap_used, sexp_heap_first_block. simpl. rewrite Hu, <- Hd. simpl. do 2 f_equal. lia.
Qed.

Lemma sweep_others l os a : a ∉ map fst l -> foldl sweep_object os l !! a = os !! a.
Proof.
  revert os. induction l as [|[b o] l IH]; intros os Ha; [reflexivity|].
  simpl in *. rewrite not_elem_of_cons in Ha. rewrite IH by tauto. apply sweep_object_other. tauto.
Qed.

Lemma sexp_sweep_spec v : Forall (fun x => heap_blocks x.1 x.2) v -> NoDup (map fst (all_used v)) ->
  forall os mf sf, present os (all_used v) ->
  exists v' mf', sexp_sweep (map fst v) os mf sf
      = Some (map fst v', foldl sweep_object os (all_used v), mf', sf + dead_bytes v)
    /\ Forall2 (fun x x' => same_extent x.1 x'.1 /\ x'.2 = sweep_blocks [] x.2) v v'
    /\ Forall (fun x => heap_blocks x.1 x.2) v'
    /\ all_used v' = omap survivor (all_used v)
    /\ (mf' = mf \/ exists q, mf' <= q /\ Free q ∈ all_blocks v').
Proof.
  induction 1 as [|[h bs] v Hh Hb IH]; intros Hn os mf sf Hp.
  - exists [], mf. simpl. rewrite Z.add_0_r. repeat split; auto.
  - unfold all_used in Hn, Hp. simpl in Hn, Hp.
    destruct (sweep_heap_spec h bs os mf sf Hh) as (h' & mf1 & E1 & Hh' & Hx & M1).
    { intros a o Hin. apply Hp, elem_of_app. auto. }
    destruct (IH ltac:(rewrite map_app, NoDup_app in Hn; tauto) (foldl sweep_object os (heap_used (h, bs))) mf1 (sf + dead_total bs))
      as (v' & mf2 & E2 & F & Hb' & Hu & M2).
    { intros a o Hin. rewrite sweep_others; [apply Hp, elem_of_app; auto | apply (nodup_disjoint _ _ a o Hn Hin)]. }
    exists ((h', sweep_blocks [] bs) :: v'), mf2. simpl. rewrite E1. simpl. rewrite E2. simpl.
    split; [|split; [constructor; auto | split; [constructor; auto | split]]].
    + unfold all_used. simpl. rewrite foldl_app, Z.add_assoc. reflexivity.
    + unfold all_used in *. simpl. rewrite omap_app, Hu, (sweep_used h h') by auto. reflexivity.
    + unfold all_blocks in *. simpl. destruct M2 as [->|(q & Hq & Hin)].
      * destruct M1 as [->|(q & Hq & Hin)]; [auto|]. right. exists q. rewrite elem_of_app. auto.
      * right. exists q. rewrite elem_of_app. auto.
Qed.

Lemma swept_shape v v' :
  Forall2 (fun x x' => same_extent x.1 x'.1 /\ x'.2 = sweep_blocks [] x.2) v v' ->
  Forall2 (fun x x' => same_extent x.1 x'.1) v v'
  /\ view_free v' = view_free v + dead_bytes v
  /\ (Forall (fun x => coalesced x.2) v -> Forall (fun x => coalesced x.2) v').
Proof.
  induction 1 as [|[h bs] [h' bs'] v v' [Hx E] _ (IH1 & IH2 & IH3)]; [repeat split; constructor|].
  simpl in *. subst bs'. split; [constructor; auto|]. rewrite sweep_blocks_free. simpl. split; [lia|].
  intros Hc. inversion Hc; subst. constructor; auto. apply sweep_blocks_coalesced. assumption.
Qed.

Lemma same_extent_apart h1 h1' h2 h2' : same_extent h1 h1' -> same_extent h2 h2' -> apart h1 h2 -> apart h1' h2'.
Proof.
  intros (E1 & E2 & _) (E3 & E4 & _). unfold apart, sexp_heap_end, sexp_heap_first_block. rewrite E1, E2, E3, E4. auto.
Qed.

Lemma apart_extent v v' : Forall2 (fun x x' : heap * list cell => same_extent x.1 x'.1) v v' ->
  ForallOrdPairs apart (map fst v) -> ForallOrdPairs apart (map fst v').
Proof.
  induction 1 as [|x x' v v' Hx Hv IH]; intros Ha; [constructor|]. simpl in *. inversion Ha as [|? ? H1 H2]; subst.
  constructor; [|auto]. clear IH H2 Ha. induction Hv as [|y y' v v' Hy Hv IH]; [constructor|].
  simpl in *. inversion H1; subst. constructor; [eapply same_extent_apart; eauto | auto].
Qed.

(** ** Allocating from all heaps *)

(** The first block of [n] bytes that an object fits into, and the view with
    the object in it. *)
Record fits (v : view) (size a : Z) (hs' : list heap) (v' : object -> view) : Prop := Fits {
  fit_heaps : forall o, map fst (v' o) = hs';
  fit_blocks : forall o, object_bytes o = size -> Forall (fun x => heap_blocks x.1 x.2) (v' o);
  fit_extent : forall o, Forall2 (fun x x' => same_extent x.1 x'.1) v (v' o);
  fit_used : forall o, object_bytes o = size -> all_used (v' o) ≡ₚ (a, o) :: all_used v;
  fit_coalesced : forall o, Forall (fun x => coalesced x.2) v -> Forall (fun x => coalesced x.2) (v' o);
}.

Lemma same_extent_refl h : same_extent h h.
Proof. repeat split. Qed.

Lemma same_extents_refl (v : view) : Forall2 (fun x x' : heap * list cell => same_extent x.1 x'.1) v v.
Proof. induction v; constructor; auto using same_extent_refl. Qed.

Lemma heap_alloc_spec h bs size : heap_blocks h bs -> 0 < size -> size mod 32 = 0 ->
  match alloc_chunk size (h_free h) with
  | Some (a, free) =>
      let h' := Heap (h_data h) (h_size h) (h_max_size h) free in
      exists bs' : object -> list cell,
        (forall o, object_bytes o = size -> heap_blocks h' (bs' o))
        /\ (forall o, object_bytes o = size -> heap_used (h', bs' o) ≡ₚ (a, o) :: heap_used (h, bs))
        /\ (forall o, coalesced bs -> coalesced (bs' o))
  | None => forall q, Free q ∈ bs -> q < size
  end.
Proof.
  intros [Hf He Hok] Hs Hm. pose proof (alloc_chunk_spec size bs Hs Hm (sexp_heap_first_block h) Hok) as H.
  rewrite Hf. destruct (alloc_chunk size _) as [[a free]|]; [|exact H].
  destruct H as (bs1 & n & bs2 & -> & Hn & -> & Hfree). exists (fun o => bs1 ++ split_block o n ++ bs2).
  apply Forall_app in Hok as [Hok1 Hok2]. inversion Hok2 as [|? ? Hokn Hok3]; subst.
  split; [|split; [|intros o; apply split_coalesced]].
  - intros o Ho. destruct (split_block_spec o n Hokn ltac:(lia)) as (Hsp & Hby & _). split.
    + unfold sexp_heap_first_block. simpl. apply Hfree, Ho.
    + unfold sexp_heap_first_block, sexp_heap_end in *. simpl in *. rewrite !bytes_of_app in *. simpl in He. lia.
    + rewrite !Forall_app. auto.
  - intros o Ho. destruct (split_block_spec o n Hokn ltac:(lia)) as (_ & Hby & Hu).
    unfold heap_used, sexp_heap_first_block. simpl. rewrite !used_objects_app, Hu, Hby. simpl.
    symmetry. apply Permutation_middle.
Qed.

Lemma sexp_try_alloc_spec size v : 0 < size -> size mod 32 = 0 -> Forall (fun x => heap_blocks x.1 x.2) v ->
  match sexp_try_alloc size (map fst v) with
  | Some (a, hs') => exists v', fits v size a hs' v'
  | None => forall q, Free q ∈ all_blocks v -> q < size
  end.
Proof.
  intros Hs Hm. induction 1 as [|[h bs] v Hh Hb IH].
  - intros q Hq. apply elem_of_nil in Hq. contradiction.
  - simpl. pose proof (heap_alloc_spec h bs size Hh Hs Hm) as H.
    destruct (alloc_chunk size (h_free h)) as [[a free]|].
    + destruct H as (bs' & H1 & H2 & H3). eexists (fun o => (_, bs' o) :: v). split.
      * intros o. reflexivity.
      * intros o Ho. constructor; [apply H1, Ho | exact Hb].
      * intros o. constructor; [repeat split | apply same_extents_refl].
      * intros o Ho. unfold all_used. simpl. rewrite (H2 o Ho). reflexivity.
      * intros o Hc. inversion Hc; subst. constructor; [apply H3|]; assumption.
    + destruct (sexp_try_alloc size (map fst v)) as [[a hs']|]; simpl.
      * destruct IH as (v' & [E1 E2 E3 E4 E5]). exists (fun o => (h, bs) :: v' o). split.
        -- intros o. simpl. rewrite E1. reflexivity.
        -- intros o Ho. constructor; auto.
        -- intros o. constructor; auto using same_extent_refl.
        -- intros o Ho. unfold all_used in *. simpl. rewrite (E4 o Ho). symmetry. apply Permutation_middle.
        -- intros o Hc. inversion Hc; subst. constructor; auto.
      * intros q Hq. unfold all_blocks in Hq. simpl in Hq. apply elem_of_app in Hq as [Hq|Hq]; auto.
Qed.

Lemma ordpairs_snoc {A} (R : A -> A -> Prop) l x :
  ForallOrdPairs R l -> Forall (fun y => R y x) l -> ForallOrdPairs R (l ++ [x]).
Proof.
  induction 1 as [|y l Hy Hl IH]; intros Hx; simpl; [constructor; constructor|].
  inversion Hx; subst. constructor; [|auto]. apply Forall_app. split; [assumption|]. constructor; auto.
Qed.
