(* ===== verification/Collector.v ===== *)
(** * Collections and allocations

    A collection ends, keeps exactly the objects that the context reaches, with
    their fields, runs the finalizers of the others, and leaves a well-formed
    memory; an allocation returns memory that nothing else uses, and fails only
    when [malloc] does or the heap has reached its limit. *)
From S2P Require Import Prelude Gc GcMark GcHeap GcMemory.
From stdpp Require Import base list option gmap.
#[local] Open Scope Z_scope.

(** ** The passes *)

Lemma erase_same_sizes os os' : erase os = erase os' -> same_sizes os os'.
Proof.
  intros He a. assert (H : erase os !! a = erase os' !! a) by (rewrite He; reflexivity).
  unfold erase in H. rewrite !lookup_fmap in H.
  destruct (os !! a) as [o|], (os' !! a) as [o'|]; simpl in *; try congruence.
  injection H. congruence.
Qed.

Lemma dead_ext os os' v : (forall w, markedp os w = markedp os' w) -> dead os v = dead os' v.
Proof. intros H. destruct v as [z|a]; [reflexivity|]. unfold dead. rewrite H. reflexivity. Qed.

Lemma reset_ext os os' o : (forall w, markedp os w = markedp os' w) -> reset os o = reset os' o.
Proof.
  intros H. unfold reset, all_dead. destruct (o_weak o) as [[ws extra]|]; [|reflexivity].
  assert (E : forall v, dead os v = dead os' v) by (intros v; apply dead_ext, H).
  assert (E1 : forallb (dead os) ws = forallb (dead os') ws) by (induction ws as [|w ws IH]; simpl; congruence).
  assert (E2 : existsb (dead os) ws = existsb (dead os') ws) by (clear E1; induction ws as [|w ws IH]; simpl; congruence).
  rewrite E1, E2. do 3 f_equal. apply map_ext. intros v. rewrite E. reflexivity.
Qed.

Lemma reset_marked os o : o_marked (reset os o) = o_marked o.
Proof. unfold reset. destruct (o_weak o) as [[ws extra]|]; reflexivity. Qed.

Lemma reset_size os o : o_size (reset os o) = o_size o.
Proof. unfold reset. destruct (o_weak o) as [[ws extra]|]; reflexivity. Qed.

Lemma local_reset : local_body reset_object.
Proof.
  intros p o [os b] a Hne. unfold reset_object. destruct (o_marked o); simpl; [|reflexivity].
  apply lookup_insert_ne. auto.
Qed.

Lemma local_finalize pass : local_body (finalize_object pass).
Proof.
  intros p o [os [[c d] l]] a _. unfold finalize_object.
  destruct (o_marked o); [reflexivity|]. destruct (o_finalizer o); try reflexivity. destruct (pass <=? 0); reflexivity.
Qed.

(** What the weak reference pass makes of an object. *)
Definition after_reset (weak : bool) (os : objects) (o : object) : object :=
  if weak && o_marked o then reset os o else o.

Lemma markedp_insert os a o o' v : os !! a = Some o -> o_marked o' = o_marked o ->
  markedp (<[a := o']> os) v = markedp os v.
Proof.
  intros Ho Hm. destruct v as [z|b]; [reflexivity|]. simpl. destruct (decide (b = a)) as [->|Hne].
  - rewrite lookup_insert_eq, Ho. exact Hm.
  - rewrite lookup_insert_ne by auto. reflexivity.
Qed.

Lemma sexp_reset_weak_references_spec weak hs os v : well_formed (Memory hs os weak) v ->
  exists os' n, sexp_reset_weak_references weak hs os = Some (os', n)
    /\ forall a, os' !! a = after_reset weak os <$> os !! a.
Proof.
  intros Hwf. unfold sexp_reset_weak_references. destruct weak.
  2: { exists os, 0. split; [reflexivity|]. intros a. destruct (os !! a); reflexivity. }
  pose proof (wf_nodup _ _ Hwf) as Hn. pose proof (wf_present _ _ Hwf) as Hp. destruct Hwf as [Hh Hb _ Ho]. simpl in *.
  rewrite Hh, (foldM_scan reset_object v local_reset Hb Hn (os, 0) Hp).
  destruct (foldl_pointwise (visit reset_object) fst (fun s => forall w, markedp s.1 w = markedp os w)
    (fun a o => Some (after_reset true os o))) with (l := all_used v) (s := (os, 0)) as [_ Hl]; auto.
  - intros [os1 n] a o HI Ha. unfold visit, reset_object, after_reset. simpl in *.
    destruct (o_marked o) eqn:Hm; simpl.
    + split.
      * intros w. rewrite (markedp_insert os1 a o) by (auto using reset_marked). apply HI.
      * intros b. destruct (decide (b = a)) as [->|Hne]; [rewrite lookup_insert_eq; f_equal; apply reset_ext, HI|].
        apply lookup_insert_ne. auto.
    + split; [exact HI|]. intros b. destruct (decide (b = a)) as [->|Hne]; auto.
  - destruct (foldl (visit reset_object) (os, 0) (all_used v)) as [os' n] eqn:E. exists os', n.
    split; [reflexivity|]. intros a. specialize (Hl a). simpl in Hl. rewrite Hl.
    destruct (decide (a ∈ map fst (all_used v))) as [Hin|Hout]; [destruct (os !! a); reflexivity|].
    destruct (os !! a) as [o|] eqn:Ha; [|reflexivity]. destruct Hout. apply list_elem_of_fmap.
    exists (a, o). split; [reflexivity | apply Ho, Ha].
Qed.

(** The dead objects whose finalizer runs: not the dynamic libraries. *)
Definition finalizable (ao : Z * object) : option Z :=
  if o_marked ao.2 then None
  else match o_finalizer ao.2 with Finalizer => Some ao.1 | _ => None end.

Lemma foldl_finalize l : forall os c d dn, exists c' d',
  foldl (visit (finalize_object 0)) (os, (c, d, dn)) l = (os, (c', d', dn ++ omap finalizable l)).
Proof.
  induction l as [|[a o] l IH]; intros os c d dn; [exists c, d; simpl; rewrite app_nil_r; reflexivity|].
  simpl foldl. unfold visit at 2. unfold finalize_object. simpl omap. unfold finalizable at 1. simpl.
  destruct (o_marked o); [apply IH|]. destruct (o_finalizer o); simpl; [apply IH | | apply IH].
  destruct (IH os (c + 1) d (dn ++ [a])) as (c' & d' & E). exists c', d'. rewrite <- app_assoc in E. exact E.
Qed.

Lemma sexp_finalize_spec m v : well_formed m v ->
  exists n, sexp_finalize (m_heaps m) (m_objects m) = Some (n, omap finalizable (all_used v)).
Proof.
  intros Hwf. pose proof (wf_nodup _ _ Hwf) as Hn. pose proof (wf_present _ _ Hwf) as Hp. destruct Hwf as [Hh Hb _ _].
  unfold sexp_finalize. rewrite Hh.
  rewrite (foldM_scan (finalize_object 0) v (local_finalize 0) Hb Hn (m_objects m, (0, false, [])) Hp).
  destruct (foldl_finalize (all_used v) (m_objects m) 0 false []) as (c & d & E). rewrite E.
  exists c. simpl. destruct d; reflexivity.
Qed.

(** The sweep keeps the marked objects and clears their marks. *)
Lemma foldl_sweep_lookup v m : well_formed m v -> forall a,
  foldl sweep_object (m_objects m) (all_used v) !! a
  = m_objects m !! a ≫= fun o => if o_marked o then Some (set_marked false o) else None.
Proof.
  intros Hwf a. pose proof (wf_nodup _ _ Hwf) as Hn. pose proof (wf_present _ _ Hwf) as Hp.
  destruct (foldl_pointwise sweep_object (fun os => os) (fun _ => True)
    (fun a o => if o_marked o then Some (set_marked false o) else None)) with (l := all_used v) (s := m_objects m)
    as [_ Hl]; auto.
  - intros os b o _ Hb. split; [exact I|]. intros c. unfold sweep_object. simpl.
    destruct (o_marked o), (decide (c = b)) as [->|Hne];
      rewrite ?lookup_insert_eq, ?lookup_delete_eq, ?lookup_insert_ne, ?lookup_delete_ne by auto; reflexivity.
  - rewrite Hl. destruct (decide (a ∈ map fst (all_used v))) as [Hin|Hout]; [reflexivity|].
    destruct (m_objects m !! a) as [o|] eqn:Ha; [|reflexivity]. destruct Hout. apply list_elem_of_fmap.
    exists (a, o). split; [reflexivity | apply (wf_objects _ _ Hwf), Ha].
Qed.

(** ** Collection *)

(** The invariant of memory between collections: a well-formed memory whose
    strong fields do not dangle, without marks, and a valid root. *)
Record collectable (m : memory) (v : view) (ctx : value) : Prop := Collectable {
  co_wf : well_formed m v;
  co_closed : closed (m_objects m);
  co_coalesced : Forall (fun x => coalesced x.2) v;
  co_unmarked : forall a o, m_objects m !! a = Some o -> o_marked o = false;
  co_root : valid (m_objects m) ctx;
}.

(** A weak field after a collection: [#f] if its object was not reached. *)
Definition weak_field (os : objects) (ctx w w' : value) : Prop :=
  (exists b, w = Ref b /\ ~ reaches os ctx b /\ w' = SEXP_FALSE)
  \/ ((forall b, w = Ref b -> reaches os ctx b) /\ w' = w).

Definition unreached (os : objects) (ctx w : value) : Prop := exists b, w = Ref b /\ ~ reaches os ctx b.

(** The weak part of an object after a collection. *)
Definition weak_part (os : objects) (ctx : value) (o o' : object) : Prop :=
  match o_weak o with
  | None => o_weak o' = None
  | Some (ws, extra) => exists ws' extra', o_weak o' = Some (ws', extra')
      /\ Forall2 (weak_field os ctx) ws ws'
      /\ ((Forall (unreached os ctx) ws /\ extra' = map (fun _ => SEXP_FALSE) extra)
          \/ (~ Forall (unreached os ctx) ws /\ extra' = extra))
  end.

(** What a collection makes of an object it keeps. *)
Record kept (weak : bool) (os : objects) (ctx : value) (o o' : object) : Prop := Kept {
  kept_size : o_size o' = o_size o;
  kept_slots : o_slots o' = o_slots o;
  kept_saves : o_saves o' = o_saves o;
  kept_finalizer : o_finalizer o' = o_finalizer o;
  kept_unmarked : o_marked o' = false;
  kept_weak : if weak then weak_part os ctx o o' else o_weak o' = o_weak o;
}.

Section reached.
Context (os os1 : objects) (ctx : value) (Hm : forall a, marked os1 a <-> reaches os ctx a).

Lemma dead_spec w : dead os1 w = true <-> unreached os ctx w.
Proof.
  unfold unreached. destruct w as [z|b]; simpl; [split; [discriminate | intros (b & E & _); discriminate]|].
  rewrite negb_true_iff. specialize (Hm b). unfold marked in Hm. simpl in Hm. split.
  - intros H. exists b. split; [reflexivity|]. rewrite <- Hm. congruence.
  - intros (c & E & H). injection E as <-. rewrite <- Hm in H. apply not_true_is_false, H.
Qed.

Lemma weak_field_spec w : weak_field os ctx w (if dead os1 w then SEXP_FALSE else w).
Proof.
  destruct (dead os1 w) eqn:E.
  - apply dead_spec in E. left. destruct E as (b & -> & H). eauto.
  - right. split; [|reflexivity]. intros b ->. apply Hm. simpl in E. apply negb_false_iff in E. exact E.
Qed.

Lemma reset_weak_part o : weak_part os ctx o (reset os1 o).
Proof.
  unfold weak_part, reset. destruct (o_weak o) as [[ws extra]|] eqn:Ew; [|exact Ew].
  eexists _, _. split; [reflexivity|]. split.
  { induction ws as [|w ws IH]; constructor; [apply weak_field_spec|].
    clear IH Ew. induction ws as [|x ws IH]; constructor; [apply weak_field_spec | exact IH]. }
  assert (E : all_dead os1 ws = true <-> Forall (unreached os ctx) ws).
  { unfold all_dead. rewrite forallb_forall, List.Forall_forall. setoid_rewrite <- dead_spec. reflexivity. }
  destruct (all_dead os1 ws); [left; split; [apply E; reflexivity | reflexivity]|].
  right. split; [|reflexivity]. rewrite <- E. discriminate.
Qed.

Lemma kept_spec weak o : kept weak os ctx o (set_marked false (after_reset weak os1 (set_marked true o))).
Proof.
  unfold after_reset. rewrite andb_true_r. destruct weak; [|split; reflexivity].
  pose proof (reset_weak_part o) as H. unfold weak_part, reset in *. simpl.
  destruct (o_weak o) as [[ws extra]|] eqn:Ew; split; try reflexivity; simpl; unfold weak_part; rewrite Ew; auto.
Qed.
End reached.

(** What the unreached objects with an ordinary finalizer are. *)
Definition to_finalize (m : memory) (ctx : value) (a : Z) : Prop :=
  exists o, m_objects m !! a = Some o /\ ~ reaches (m_objects m) ctx a /\ o_finalizer o = Finalizer.

(** [m'] holds what [ctx] reaches in [m], and nothing else. *)
Definition collected (m : memory) (ctx : value) (m' : memory) : Prop :=
  (forall a, is_Some (m_objects m' !! a) <-> reaches (m_objects m) ctx a)
  /\ (forall a o o', m_objects m !! a = Some o -> m_objects m' !! a = Some o' ->
        kept (m_weak_present m) (m_objects m) ctx o o').

Lemma kept_children weak os ctx o o' : kept weak os ctx o o' -> children o' = children o.
Proof. intros [_ Hs Hv _ _ _]. unfold children. congruence. Qed.

Lemma reaches_closed os v b : closed os -> valid os v -> reaches os v b -> is_Some (os !! b).
Proof.
  intros Hc Hv (a & -> & H). specialize (Hv a eq_refl). induction H as [a|a b c (o & Ho & Hin) _ IH]; [exact Hv|].
  apply IH. apply (Hc a o (Ref b) Ho Hin b eq_refl).
Qed.

Lemma reaches_next os v a o b : reaches os v a -> os !! a = Some o -> Ref b ∈ children o -> reaches os v b.
Proof. intros (r & -> & H) Ho Hb. exists r. split; [reflexivity|]. eapply rtc_r; [exact H|]. exists o. auto. Qed.

(** A collection leaves no dangling strong references. *)
Lemma collected_closed m v ctx m' : collectable m v ctx -> collected m ctx m' ->
  closed (m_objects m') /\ valid (m_objects m') ctx.
Proof.
  intros [Hwf Hc _ Hu Hr] [H1 H2]. split.
  - intros a o' w Ho' Hin b ->. apply H1.
    assert (Ha : reaches (m_objects m) ctx a) by (apply H1; eauto).
    destruct (reaches_closed _ _ _ Hc Hr Ha) as [o Ho]. apply (reaches_next _ _ a o); auto.
    rewrite <- (kept_children _ _ _ _ _ (H2 a o o' Ho Ho')). exact Hin.
  - intros b ->. apply H1. exists b. split; [reflexivity|]. reflexivity.
Qed.

(** The references of kept objects that do not keep what they refer to.  A weak
    one goes to a kept object.  So does one of the fields behind the weak ones,
    as the value of an ephemeron, unless some weak field of its object was live:
    then these fields are left as they are, and since marking does not follow
    them they may dangle. *)
Record weak_references (m : memory) (ctx : value) (m' : memory) : Prop := WeakReferences {
  weak_kept : forall a o ws extra b, m_objects m' !! a = Some o -> o_weak o = Some (ws, extra) ->
    Ref b ∈ ws -> is_Some (m_objects m' !! b);
  extra_kept : forall a o ws extra b, m_objects m' !! a = Some o -> o_weak o = Some (ws, extra) ->
    Ref b ∈ extra ->
    exists o0 ws0, m_objects m !! a = Some o0 /\ o_weak o0 = Some (ws0, extra)
      /\ ~ Forall (unreached (m_objects m) ctx) ws0;
}.

Lemma collected_weak m v ctx m' : collectable m v ctx -> m_weak_present m = true -> collected m ctx m' ->
  weak_references m ctx m'.
Proof.
  intros Hco Hw [H1 H2].
  assert (Hp : forall a o ws extra, m_objects m' !! a = Some o -> o_weak o = Some (ws, extra) ->
    exists o0 ws0 extra0, m_objects m !! a = Some o0 /\ o_weak o0 = Some (ws0, extra0)
      /\ Forall2 (weak_field (m_objects m) ctx) ws0 ws
      /\ ((Forall (unreached (m_objects m) ctx) ws0 /\ extra = map (fun _ => SEXP_FALSE) extra0)
          \/ (~ Forall (unreached (m_objects m) ctx) ws0 /\ extra = extra0))).
  { intros a o ws extra Ho Ew.
    destruct (reaches_closed _ _ a (co_closed _ _ _ Hco) (co_root _ _ _ Hco)) as [o0 Ho0]; [apply H1; eauto|].
    pose proof (kept_weak _ _ _ _ _ (H2 a o0 o Ho0 Ho)) as Hk. rewrite Hw in Hk. unfold weak_part in Hk.
    destruct (o_weak o0) as [[ws0 extra0]|] eqn:E0; [|congruence].
    destruct Hk as (ws' & extra' & E & Hf & He). rewrite E in Ew. injection Ew as -> ->.
    exists o0, ws0, extra0. auto. }
  split.
  - intros a o ws extra b Ho Ew Hb. destruct (Hp a o ws extra Ho Ew) as (o0 & ws0 & extra0 & _ & _ & Hf & _).
    apply H1. apply list_elem_of_lookup in Hb as [i Hi].
    destruct (Forall2_lookup_r _ _ _ _ _ Hf Hi) as (w & _ & [(c & _ & _ & E) | [Hr E]]); [discriminate E|].
    apply Hr. congruence.
  - intros a o ws extra b Ho Ew Hb.
    destruct (Hp a o ws extra Ho Ew) as (o0 & ws0 & extra0 & Ho0 & E0 & _ & [[_ E] | [Hn E]]).
    + exfalso. subst extra. apply list_elem_of_fmap in Hb as (w & E & _). discriminate E.
    + exists o0, ws0. subst extra0. auto.
Qed.

(** The objects that an unmarked memory has after marking. *)
Lemma marked_lookup os os1 ctx a : erase os1 = erase os -> (forall b o, os !! b = Some o -> o_marked o = false) ->
  (forall b, marked os1 b <-> reaches os ctx b) ->
  match os1 !! a with
  | Some o1 => exists o, os !! a = Some o /\ (if o_marked o1 then o1 = set_marked true o /\ reaches os ctx a
                                          else o1 = o /\ ~ reaches os ctx a)
  | None => os !! a = None
  end.
Proof.
  intros He Hu Hm. specialize (Hm a). unfold marked in Hm. simpl in Hm.
  destruct (os1 !! a) as [o1|] eqn:E1.
  - destruct (erase_lookup _ _ _ _ He E1) as [b Hb]. exists (set_marked b o1). split; [exact Hb|].
    pose proof (Hu a _ Hb) as Hf. simpl in Hf. subst b. destruct o1 as [sz sl sv wk fz mk br]. unfold set_marked. simpl in *.
    destruct mk; (split; [reflexivity|]); rewrite <- Hm; [reflexivity | discriminate].
  - destruct (os !! a) as [o|] eqn:E; [|reflexivity].
    destruct (erase_lookup _ _ _ _ (eq_sym He) E) as [b Hb]. congruence.
Qed.

(** Marking and resetting weak references. *)
Lemma mark_and_reset m v ctx : collectable m v ctx ->
  exists os1 os2 n v2, sexp_mark (m_objects m) ctx = Some os1
    /\ sexp_reset_weak_references (m_weak_present m) (m_heaps m) os1 = Some (os2, n)
    /\ well_formed (Memory (m_heaps m) os2 (m_weak_present m)) v2
    /\ erase os1 = erase (m_objects m) /\ (forall a, marked os1 a <-> reaches (m_objects m) ctx a)
    /\ (forall a, os2 !! a = after_reset (m_weak_present m) os1 <$> os1 !! a)
    /\ map fst v2 = map fst v /\ view_free v2 = view_free v /\ Forall (fun x => coalesced x.2) v2.
Proof.
  intros [Hwf Hc Hco Hu Hr]. destruct m as [hs os w]. simpl in *.
  destruct (sexp_mark_spec os ctx Hc Hr) as (os1 & E1 & He & Hm).
  { intros a o x Ho Hx. rewrite (Hu a o Ho) in Hx. discriminate. }
  assert (Hm' : forall a, marked os1 a <-> reaches os ctx a).
  { intros a. rewrite Hm. split; [intros [H|H]; [|exact H] | auto]. exfalso. unfold marked in H. simpl in H.
    destruct (os !! a) as [o|] eqn:Ho; [rewrite (Hu a o Ho) in H|]; discriminate. }
  pose proof (wf_refresh hs os os1 w v Hwf (erase_same_sizes _ _ (eq_sym He))) as Hwf1.
  destruct (sexp_reset_weak_references_spec w hs os1 _ Hwf1) as (os2 & n & E2 & Hl).
  assert (Hs2 : same_sizes os1 os2).
  { intros a. rewrite Hl. destruct (os1 !! a) as [o|]; [|reflexivity]. simpl. unfold after_reset.
    destruct (w && o_marked o); [rewrite reset_size|]; reflexivity. }
  pose proof (wf_refresh hs os1 os2 w _ Hwf1 Hs2) as Hwf2.
  exists os1, os2, n, (refresh_view os2 (refresh_view os1 v)). simpl. split; [exact E1|]. split; [exact E2|].
  split; [exact Hwf2|]. split; [exact He|]. split; [exact Hm'|]. split; [exact Hl|].
  split; [unfold refresh_view; rewrite !map_map; reflexivity|].
  destruct (refresh_view_shape os2 (refresh_view os1 v)) as [Hc2 Hf2].
  destruct (refresh_view_shape os1 v) as [Hc1 Hf1].
  split; [congruence|]. apply Hc2, Hc1, Hco.
Qed.

Lemma elem_of_finalizable (l : list (Z * object)) a : a ∈ omap finalizable l <->
  exists o, (a, o) ∈ l /\ o_marked o = false /\ o_finalizer o = Finalizer.
Proof.
  rewrite list_elem_of_omap. split.
  - intros ([b o] & Hin & E). unfold finalizable in E. simpl in E.
    destruct (o_marked o) eqn:Hm; [discriminate|]. destruct (o_finalizer o) eqn:Hf; try discriminate.
    injection E as ->. eauto.
  - intros (o & Hin & Hm & Hf). exists (a, o). split; [exact Hin|]. unfold finalizable. simpl. rewrite Hm, Hf. reflexivity.
Qed.

Lemma nodup_finalizable (l : list (Z * object)) : NoDup (map fst l) -> NoDup (omap finalizable l).
Proof.
  induction l as [|[a o] l IH]; intros Hn; [constructor|]. simpl in Hn. apply NoDup_cons in Hn as [Ha Hn].
  simpl. unfold finalizable at 1. simpl. destruct (o_marked o); [auto|]. destruct (o_finalizer o); auto.
  apply NoDup_cons. split; [|auto]. intros Hin. apply Ha. apply elem_of_finalizable in Hin as (o' & Hin & _).
  apply list_elem_of_fmap. exists (a, o'). auto.
Qed.

(** Which objects come through a collection, from the states between passes. *)
Lemma collected_spec m v ctx (os1 os2 os3 : objects) m' : collectable m v ctx ->
  erase os1 = erase (m_objects m) -> (forall a, marked os1 a <-> reaches (m_objects m) ctx a) ->
  (forall a, os2 !! a = after_reset (m_weak_present m) os1 <$> os1 !! a) ->
  (forall a, os3 !! a = os2 !! a ≫= fun o => if o_marked o then Some (set_marked false o) else None) ->
  m_objects m' = os3 -> collected m ctx m'.
Proof.
  intros [_ _ _ Hu _] He Hm H2 H3 <-.
  assert (H : forall a, m_objects m' !! a = os1 !! a ≫= fun o =>
    if o_marked o then Some (set_marked false (after_reset (m_weak_present m) os1 o)) else None).
  { intros a. rewrite H3, H2. destruct (os1 !! a) as [o|]; [|reflexivity]. simpl.
    assert (E : o_marked (after_reset (m_weak_present m) os1 o) = o_marked o).
    { unfold after_reset. destruct (m_weak_present m && o_marked o); [apply reset_marked | reflexivity]. }
    rewrite E. reflexivity. }
  split.
  - intros a. rewrite H, <- Hm. unfold marked. simpl. destruct (os1 !! a) as [o|]; simpl;
      [destruct (o_marked o); split; intros Hx; eauto; try discriminate; destruct Hx; discriminate|].
    split; [intros [x Hx] | ]; discriminate.
  - intros a o o' Ho Ho'. rewrite H in Ho'. pose proof (marked_lookup _ _ _ a He Hu Hm) as Hl.
    destruct (os1 !! a) as [o1|]; [|discriminate]. simpl in Ho'. destruct Hl as (x & Hx & Hl).
    rewrite Ho in Hx. injection Hx as <-. destruct (o_marked o1); [|discriminate].
    destruct Hl as [-> _]. injection Ho' as <-. apply kept_spec. exact Hm.
Qed.

Lemma to_finalize_spec m v ctx os1 os2 v2 : collectable m v ctx ->
  erase os1 = erase (m_objects m) -> (forall a, marked os1 a <-> reaches (m_objects m) ctx a) ->
  (forall a, os2 !! a = after_reset (m_weak_present m) os1 <$> os1 !! a) ->
  well_formed (Memory (m_heaps m) os2 (m_weak_present m)) v2 ->
  forall a, a ∈ omap finalizable (all_used v2) <-> to_finalize m ctx a.
Proof.
  intros [_ _ _ Hu _] He Hm H2 Hwf a. rewrite elem_of_finalizable. setoid_rewrite <- (wf_objects _ _ Hwf a). simpl.
  pose proof (marked_lookup _ _ _ a He Hu Hm) as Hl. rewrite H2. unfold to_finalize.
  destruct (os1 !! a) as [o1|]; simpl; [|rewrite Hl; split; intros (o & Ho & _); discriminate].
  destruct Hl as (x & Hx & Hl). split.
  - intros (o & Ho & Hmo & Hf). injection Ho as <-. exists x. split; [exact Hx|].
    assert (E : o_marked o1 = false).
    { unfold after_reset in Hmo. destruct (m_weak_present m && o_marked o1); [rewrite reset_marked in Hmo|]; exact Hmo. }
    rewrite E in Hl. destruct Hl as [-> Hn]. split; [exact Hn|]. unfold after_reset in Hf.
    rewrite E, andb_false_r in Hf. exact Hf.
  - intros (o & Ho & Hn & Hf). rewrite Hx in Ho. injection Ho as ->.
    destruct (o_marked o1) eqn:E; [tauto|]. destruct Hl as [-> _]. unfold after_reset. rewrite E, andb_false_r. eauto.
Qed.

(** The collector does its work. *)
Lemma sexp_gc_spec m v ctx : collectable m v ctx ->
  exists m' v' max_freed sum_freed fin, sexp_gc ctx m = Some (m', max_freed, sum_freed, fin)
    /\ collectable m' v' ctx /\ collected m ctx m'
    /\ NoDup fin /\ (forall a, a ∈ fin <-> to_finalize m ctx a)
    /\ view_free v' = view_free v + sum_freed
    /\ (max_freed = 0 \/ exists q, max_freed <= q /\ Free q ∈ all_blocks v')
    /\ Forall2 same_extent (m_heaps m) (m_heaps m').
Proof.
  intros Hco. destruct (mark_and_reset m v ctx Hco) as (os1 & os2 & n & v2 & E1 & E2 & Hwf & He & Hm & Hl & Hf & Hfree & Hcoal).
  destruct (sexp_finalize_spec _ _ Hwf) as (c & E3). simpl in E3.
  pose proof (wf_nodup _ _ Hwf) as Hn. pose proof (wf_present _ _ Hwf) as Hp.
  destruct (sexp_sweep_spec v2 (wf_blocks _ _ Hwf) Hn os2 0 0 Hp) as (v3 & mf & E4 & Hsw & Hb3 & Hu3 & Hmf).
  destruct (swept_shape _ _ Hsw) as (Hext & Hfree3 & Hcoal3).
  unfold sexp_gc. rewrite E1. simpl. rewrite E2. simpl. rewrite E3. simpl.
  rewrite (wf_heaps _ _ Hwf : m_heaps m = _), E4. simpl.
  set (os3 := foldl sweep_object os2 (all_used v2)).
  assert (H3 : forall a, os3 !! a = os2 !! a ≫= fun o => if o_marked o then Some (set_marked false o) else None)
    by apply (foldl_sweep_lookup _ _ Hwf).
  set (m3 := Memory (map fst v3) os3 (m_weak_present m)).
  pose proof (collected_spec m v ctx os1 os2 os3 m3 Hco He Hm Hl H3 eq_refl) as Hcol.
  destruct (collected_closed m v ctx m3 Hco Hcol) as [Hcl Hroot].
  exists m3, v3, mf, (0 + dead_bytes v2), (omap finalizable (all_used v2)).
  split; [reflexivity|]. split; [|split; [exact Hcol|]].
  - split; [split; simpl; auto | exact Hcl | auto | | exact Hroot].
    + apply (apart_extent v2); auto. apply (wf_apart _ _ Hwf).
    + intros a o. rewrite H3, Hu3, list_elem_of_omap. split.
      * intros Ha. destruct (os2 !! a) as [o2|] eqn:Ho2; [|discriminate]. simpl in Ha. exists (a, o2).
        split; [apply (wf_objects _ _ Hwf), Ho2|]. unfold survivor. simpl.
        destruct (o_marked o2); [|discriminate]. congruence.
      * intros ([b o2] & Hin & Hs). unfold survivor in Hs. simpl in Hs.
        destruct (o_marked o2) eqn:Hmo; [|discriminate]. injection Hs as <- <-.
        apply (wf_objects _ _ Hwf) in Hin. simpl in Hin. rewrite Hin. simpl. rewrite Hmo. reflexivity.
    + intros a o Ho. simpl in Ho. rewrite H3 in Ho. destruct (os2 !! a) as [o2|]; [|discriminate]. simpl in Ho.
      destruct (o_marked o2); [|discriminate]. injection Ho as <-. reflexivity.
  - split; [apply nodup_finalizable, Hn|]. split; [apply (to_finalize_spec m v ctx os1 os2 v2); auto|].
    split; [lia|]. split; [exact Hmf|]. simpl. clear - Hext.
    induction Hext; simpl; constructor; auto.
Qed.

(** ** Allocation *)

(** A new object fits in the memory: it takes [size] bytes, is not marked and
    refers to objects of the memory. *)
Record fitting (os : objects) (size : Z) (o : object) : Prop := Fitting {
  fo_size : object_bytes o = sexp_heap_align size;
  fo_unmarked : o_marked o = false;
  fo_children : forall w, w ∈ children o -> valid os w;
}.

(** The memory with an object at an address. *)
Definition with_object (m : memory) (a : Z) (o : object) : memory :=
  Memory (m_heaps m) (<[a := o]> (m_objects m)) (m_weak_present m).

(** An address for an object of [size] bytes that keeps the memory collectable,
    or no free block of that size. *)
Definition allocated (m : memory) (size : Z) (ctx : value) (r : option Z) : Prop :=
  match r with
  | Some a => m_objects m !! a = None
      /\ forall o, fitting (m_objects m) size o -> exists v, collectable (with_object m a o) v ctx
  | None => exists v, collectable m v ctx /\ forall q, Free q ∈ all_blocks v -> q < sexp_heap_align size
  end.

Lemma valid_insert os a o w : valid os w -> valid (<[a := o]> os) w.
Proof.
  intros Hw b ->. destruct (decide (b = a)) as [->|Hne]; [rewrite lookup_insert_eq; eauto|].
  rewrite lookup_insert_ne by auto. auto.
Qed.

(** An object of any size. *)
Definition blank (size : Z) : object := Object size [] [] None NoFinalizer false false.

Lemma sexp_heap_align_align n : sexp_heap_align (sexp_heap_align n) = sexp_heap_align n.
Proof.
  destruct (sexp_heap_align_spec n) as [_ H]. destruct (sexp_heap_align_spec (sexp_heap_align n)) as [H1 H2].
  pose proof (Z.div_mod (sexp_heap_align n) 32 ltac:(lia)).
  pose proof (Z.div_mod (sexp_heap_align (sexp_heap_align n)) 32 ltac:(lia)). lia.
Qed.

Lemma fits_allocated hs os w v ctx size a hs' v' :
  collectable (Memory hs os w) v ctx -> fits v (sexp_heap_align size) a hs' v' ->
  allocated (Memory hs' os w) size ctx (Some a).
Proof.
  intros [Hwf Hc Hco Hu Hr] [F1 F2 F3 F4 F5]. simpl in *.
  assert (Hfresh : os !! a = None).
  { set (o := blank (sexp_heap_align size)).
    assert (Ho : object_bytes o = sexp_heap_align size) by apply sexp_heap_align_align.
    pose proof (all_used_nodup (v' o) (F2 o Ho) (apart_extent _ _ (F3 o) (wf_apart _ _ Hwf))) as Hn.
    rewrite (F4 o Ho) in Hn. simpl in Hn. apply NoDup_cons in Hn as [Hn _].
    destruct (os !! a) as [x|] eqn:Hx; [|reflexivity]. destruct Hn. apply list_elem_of_fmap.
    exists (a, x). split; [reflexivity | apply (wf_objects _ _ Hwf), Hx]. }
  split; [exact Hfresh|]. intros o [Ho Hm Hch]. exists (v' o). split; simpl.
  - split; simpl; [symmetry; apply F1 | apply F2, Ho | apply (apart_extent v); [apply F3 | apply (wf_apart _ _ Hwf)] |].
    intros b x. rewrite (F4 o Ho), elem_of_cons, <- (wf_objects _ _ Hwf b x). simpl.
    destruct (decide (b = a)) as [->|Hne].
    + rewrite lookup_insert_eq, Hfresh. split; [intros E; left; congruence | intros [E|E]; congruence].
    + rewrite lookup_insert_ne by auto. split; [auto | intros [E|E]; [congruence | exact E]].
  - intros b x y Hb Hy. apply valid_insert. destruct (decide (b = a)) as [->|Hne].
    + rewrite lookup_insert_eq in Hb. injection Hb as <-. apply Hch, Hy.
    + rewrite lookup_insert_ne in Hb by auto. apply (Hc b x y Hb Hy).
  - apply F5, Hco.
  - intros b x Hb. destruct (decide (b = a)) as [->|Hne].
    + rewrite lookup_insert_eq in Hb. injection Hb as <-. exact Hm.
    + rewrite lookup_insert_ne in Hb by auto. apply (Hu b x Hb).
  - apply valid_insert, Hr.
Qed.

Lemma sexp_try_alloc_allocated m v ctx size : collectable m v ctx -> 0 < size ->
  match sexp_try_alloc (sexp_heap_align size) (m_heaps m) with
  | Some (a, hs') => allocated (Memory hs' (m_objects m) (m_weak_present m)) size ctx (Some a)
  | None => forall q, Free q ∈ all_blocks v -> q < sexp_heap_align size
  end.
Proof.
  intros Hco Hs. destruct (sexp_heap_align_spec size) as [Hal Hm].
  pose proof (sexp_try_alloc_spec (sexp_heap_align size) v ltac:(lia) Hm (wf_blocks _ _ (co_wf _ _ _ Hco))) as H.
  destruct m as [hs os w]. rewrite (wf_heaps _ _ (co_wf _ _ _ Hco)).
  destruct (sexp_try_alloc (sexp_heap_align size) (map fst v)) as [[a hs']|]; [|exact H].
  destruct H as [v' Hv']. apply (fits_allocated hs os w v ctx size a hs' v' Hco Hv').
Qed.

(** What [malloc] returns is outside of the heaps. *)
Definition malloc_fresh (malloc : Z -> option Z) (hs : list heap) : Prop :=
  forall n addr, malloc n = Some addr ->
    Forall (fun h => addr + n <= sexp_heap_first_block h \/ sexp_heap_end h <= addr) hs.

Lemma malloc_fresh_extent malloc hs hs' : Forall2 same_extent hs hs' -> malloc_fresh malloc hs -> malloc_fresh malloc hs'.
Proof.
  intros Hx Hf n addr E. specialize (Hf n addr E).
  induction Hx as [|h h' hs hs' (E1 & E2 & _) _ IH]; [constructor|]. inversion Hf as [|? ? H1 H2]; subst.
  constructor; [|auto]. unfold sexp_heap_end, sexp_heap_first_block in *. rewrite <- E1, <- E2. exact H1.
Qed.

(** The size of the heap that is added. *)
Definition grown_size (size : Z) (h : heap) : Z :=
  SEXP_GROW_HEAP_FACTOR * sexp_heap_align (if h_size h >? size then h_size h else size).

Lemma grown_size_spec size h : 0 < size -> size mod 32 = 0 ->
  size + 32 <= grown_size size h /\ (grown_size size h - 32) mod 32 = 0.
Proof.
  intros Hs Hm. unfold grown_size, SEXP_GROW_HEAP_FACTOR.
  set (n := if h_size h >? size then h_size h else size).
  destruct (sexp_heap_align_spec n) as [H1 H2].
  assert (size <= n) by (unfold n; destruct (Z.gtb_spec (h_size h) size); lia).
  pose proof (Z.div_mod size 32 ltac:(lia)). pose proof (Z.div_mod (sexp_heap_align n) 32 ltac:(lia)).
  split; [lia|]. rewrite Zminus_mod, Z.mul_mod, H2 by lia. reflexivity.
Qed.

Lemma sexp_grow_heap_spec malloc m v ctx size : collectable m v ctx -> 0 < size -> size mod 32 = 0 ->
  malloc_fresh malloc (m_heaps m) ->
  exists v', collectable (Memory (sexp_grow_heap malloc size (m_heaps m)) (m_objects m) (m_weak_present m)) v' ctx
    /\ (m_heaps m <> [] -> (forall n, malloc n <> None) -> exists q, size <= q /\ Free q ∈ all_blocks v')
    /\ (forall q, Free q ∈ all_blocks v -> Free q ∈ all_blocks v').
Proof.
  intros [Hwf Hc Hco Hu Hr] Hs Hm Hfr. destruct m as [hs os w]. simpl in *. unfold sexp_grow_heap.
  assert (Hsame : collectable (Memory hs os w) v ctx) by (split; auto).
  destruct (last hs) as [h|] eqn:Hlast.
  2: { exists v. split; [exact Hsame|]. split; [|auto]. intros Hne. apply last_None in Hlast. contradiction. }
  fold (grown_size size h). destruct (grown_size_spec size h Hs Hm) as [Hg Hg2].
  destruct (malloc (sexp_heap_pad_size (grown_size size h))) as [addr|] eqn:Ea.
  2: { exists v. split; [exact Hsame|]. split; [|auto]. intros _ Hmal. destruct (Hmal _ Ea). }
  set (h' := sexp_make_heap addr (grown_size size h) (h_max_size h)).
  assert (Hfirst : addr <= sexp_heap_first_block h' /\ sexp_heap_end h' <= addr + sexp_heap_pad_size (grown_size size h)).
  { unfold h', sexp_make_heap, sexp_heap_first_block, sexp_heap_end, sexp_heap_pad_size. simpl.
    change (sexp_heap_align sexp_free_chunk_size) with 32. change (sexp_heap_align 1) with 32.
    destruct (sexp_heap_align_spec (8 + (addr + 40))). lia. }
  exists (v ++ [(h', [Free (grown_size size h - 32)])]). split; [|split].
  - destruct Hwf as [Hh Hb Ha Ho]. simpl in *. split; simpl; auto.
    + split; simpl.
      * rewrite map_app, Hh. reflexivity.
      * apply Forall_app. split; [exact Hb|]. constructor; [|constructor]. split; simpl.
        -- reflexivity.
        -- unfold h', sexp_make_heap, sexp_heap_first_block, sexp_heap_end. simpl.
           change (sexp_heap_align sexp_free_chunk_size) with 32. lia.
        -- constructor; [|constructor]. split; simpl; [lia | exact Hg2].
      * rewrite map_app, <- Hh. apply ordpairs_snoc; [rewrite Hh; exact Ha|].
        specialize (Hfr _ _ Ea). eapply Forall_impl; [exact Hfr|]. intros x Hx.
        change (apart x h'). cbv beta in Hx. unfold apart. lia.
      * intros a o. rewrite Ho. unfold all_used. rewrite map_app, concat_app. simpl. rewrite app_nil_r. reflexivity.
    + apply Forall_app. split; [exact Hco|]. constructor; [exact I | constructor].
  - intros _ _. exists (grown_size size h - 32). split; [lia|]. unfold all_blocks. rewrite map_app, concat_app.
    apply elem_of_app. right. left.
  - intros q Hq. unfold all_blocks. rewrite map_app, concat_app. apply elem_of_app. left. exact Hq.
Qed.

(** An allocation ends, and either leaves the objects alone or collects. *)
Lemma sexp_alloc_spec malloc m v ctx size : collectable m v ctx -> 0 < size -> malloc_fresh malloc (m_heaps m) ->
  exists r m', sexp_alloc malloc ctx size m = Some (r, m')
    /\ (m_objects m' = m_objects m \/ collected m ctx m')
    /\ allocated m' size ctx r
    /\ (m_heaps m <> [] -> Forall (fun h => h_max_size h = 0) (m_heaps m) -> (forall n, malloc n <> None) -> r <> None).
Proof.
  intros Hco Hs Hfr. unfold sexp_alloc. destruct (sexp_heap_align_spec size) as [Hal Hal2].
  pose proof (sexp_try_alloc_allocated m v ctx size Hco Hs) as H1.
  destruct (sexp_try_alloc (sexp_heap_align size) (m_heaps m)) as [[a hs]|].
  { eexists _, _. split; [reflexivity|]. split; [left; reflexivity|]. split; [exact H1|]. intros _ _ _. discriminate. }
  clear H1. destruct (sexp_gc_spec m v ctx Hco) as (m1 & v1 & mf & sf & fin & E & Hco1 & Hcol & _ & _ & _ & Hmf & Hx).
  rewrite E. simpl.
  set (grow := ((mf <? sexp_heap_align size) || _) && _).
  set (hs := if grow then sexp_grow_heap malloc (sexp_heap_align size) (m_heaps m1) else m_heaps m1).
  assert (Hhs : exists v2, collectable (Memory hs (m_objects m1) (m_weak_present m1)) v2 ctx
    /\ (grow = true -> m_heaps m1 <> [] -> (forall n, malloc n <> None) -> exists q, sexp_heap_align size <= q /\ Free q ∈ all_blocks v2)
    /\ (forall q, Free q ∈ all_blocks v1 -> Free q ∈ all_blocks v2)).
  { unfold hs. destruct grow.
    - destruct (sexp_grow_heap_spec malloc m1 v1 ctx (sexp_heap_align size) Hco1 ltac:(lia) Hal2
        (malloc_fresh_extent _ _ _ Hx Hfr)) as (v2 & H1 & H2 & H3). exists v2. auto.
    - exists v1. split; [destruct m1; exact Hco1|]. split; [discriminate | auto]. }
  destruct Hhs as (v2 & Hco2 & Hgrow & Hmore).
  pose proof (sexp_try_alloc_allocated _ v2 ctx size Hco2 Hs) as H2. simpl in H2.
  destruct (sexp_try_alloc (sexp_heap_align size) hs) as [[a hs']|].
  { eexists _, _. split; [reflexivity|]. split; [right; exact Hcol|]. split; [exact H2|]. intros _ _ _. discriminate. }
  eexists _, _. split; [reflexivity|]. split; [right; exact Hcol|]. split; [exists v2; auto|].
  intros Hne Hmax Hmal _. assert (Hne1 : m_heaps m1 <> []) by (intros E1; rewrite E1 in Hx; inversion Hx; subst; congruence).
  destruct grow eqn:Eg.
  - destruct (Hgrow eq_refl Hne1 Hmal) as (q & Hq & Hin). specialize (H2 q Hin). lia.
  - assert (Hlt : sexp_heap_align size <= mf).
    { unfold grow in Eg. assert (E0 : match m_heaps m1 with h :: _ => h_max_size h | [] => 0 end = 0).
      { destruct Hx as [|h h' hs0 hs1 (_ & _ & E0) _]; [reflexivity|]. inversion Hmax; subst. congruence. }
      rewrite E0 in Eg. simpl in Eg. rewrite andb_true_r in Eg. apply orb_false_iff in Eg as [Eg _].
      apply Z.ltb_ge, Eg. }
    destruct Hmf as [->|(q & Hq & Hin)]; [lia|]. specialize (H2 q (Hmore q Hin)). lia.
Qed.

(** ** Properties *)

(** A memory read off a view. *)
Definition memory_of (v : view) (weak : bool) : memory := Memory (map fst v) (list_to_map (all_used v)) weak.

Lemma memory_of_lookup v weak a o : NoDup (map fst (all_used v)) ->
  m_objects (memory_of v weak) !! a = Some o <-> (a, o) ∈ all_used v.
Proof. intros Hn. symmetry. apply elem_of_list_to_map. exact Hn. Qed.

Definition valid_in (l : list (Z * object)) (w : value) : bool :=
  match w with Imm _ => true | Ref b => bool_decide (b ∈ map fst l) end.

(** The invariant of a memory read off a view, decided on the view. *)
Lemma memory_of_collectable v weak ctx :
  Forall (fun x => heap_blocks x.1 x.2) v -> ForallOrdPairs apart (map fst v) -> Forall (fun x => coalesced x.2) v ->
  forallb (fun ao => negb (o_marked ao.2) && forallb (valid_in (all_used v)) (children ao.2)) (all_used v) = true ->
  valid_in (all_used v) ctx = true ->
  collectable (memory_of v weak) v ctx.
Proof.
  intros Hb Ha Hc Hf Hr. pose proof (all_used_nodup v Hb Ha) as Hn.
  assert (Hv : forall w, valid_in (all_used v) w = true -> valid (m_objects (memory_of v weak)) w).
  { intros w Hw b ->. simpl in Hw. apply bool_decide_eq_true in Hw. apply list_elem_of_fmap in Hw as ([c o] & -> & Hin).
    exists o. apply memory_of_lookup; auto. }
  assert (Hok : forall a o, m_objects (memory_of v weak) !! a = Some o ->
    o_marked o = false /\ forall w, w ∈ children o -> valid (m_objects (memory_of v weak)) w).
  { intros a o Ho. apply memory_of_lookup in Ho; auto. apply list_elem_of_In in Ho.
    rewrite forallb_forall in Hf. specialize (Hf _ Ho). apply andb_true_iff in Hf as [H1 H2]. simpl in *.
    split; [apply negb_true_iff, H1|]. rewrite forallb_forall in H2. intros w Hw. apply Hv, H2, list_elem_of_In, Hw. }
  split; [split; auto | | exact Hc | | apply Hv, Hr].
  - intros a o. apply memory_of_lookup, Hn.
  - intros a o w Ho. apply (Hok a o Ho).
  - intros a o Ho. apply (Hok a o Ho).
Qed.

Module Example.

(** A context at 96 that refers to an object at 160 and to an ephemeron at 320
    with this key, whose value at 352 nothing else refers to; a port at 256 and
    a library at 288 that are garbage. *)
Definition object_of (size : Z) (slots : list value) : object := Object size slots [] None NoFinalizer false false.
Definition ephemeron : object := Object 24 [] [] (Some ([Ref 160], [Ref 352])) NoFinalizer false false.
Definition port : object := Object 30 [Imm 62] [] None Finalizer false false.
Definition library : object := Object 30 [Imm 62] [] None DlFinalizer false false.

Definition blocks : list cell :=
  [Used (object_of 50 [Ref 160; Ref 320; Imm 1]); Used (object_of 24 [Ref 96; Imm 0]); Free 64;
   Used port; Used library; Used ephemeron; Used (object_of 24 [Imm 5])].

Definition heap1 : heap := Heap 64 320 0 [(192, 64)].
Definition view1 : view := [(heap1, blocks)].
Definition memory1 : memory := memory_of view1 true.
Definition malloc1 (n : Z) : option Z := Some 1000.

Lemma collectable1 : collectable memory1 view1 (Ref 96).
Proof.
  apply memory_of_collectable; try reflexivity.
  - constructor; [|constructor]. split; try reflexivity. repeat constructor.
  - repeat constructor.
  - constructor; [exact I | constructor].
Qed.

Lemma fresh1 : malloc_fresh malloc1 (m_heaps memory1).
Proof. intros n addr E. injection E as <-. constructor; [right; vm_compute; discriminate | constructor]. Qed.

Lemma unreached_by (os : objects) (P : Z -> Prop) (r b : Z) :
  P r -> (forall a o c, os !! a = Some o -> P a -> Ref c ∈ children o -> P c) -> ~ P b -> ~ reaches os (Ref r) b.
Proof.
  intros Hr Hstep Hb (a & E & H). injection E as <-. apply Hb. clear Hb.
  induction H as [|x y z (o & Ho & Hin) _ IH]; [exact Hr | apply IH; eauto].
Qed.

(** What the context reaches. *)
Lemma unreached1 b : b <> 96 -> b <> 160 -> b <> 320 -> ~ reaches (m_objects memory1) (Ref 96) b.
Proof.
  intros H1 H2 H3. apply (unreached_by _ (fun a => a = 96 \/ a = 160 \/ a = 320)); [auto | | tauto].
  intros a o c Ho Ha Hc. destruct Ha as [-> | [-> | ->]]; vm_compute in Ho; injection Ho as <-;
    apply list_elem_of_In in Hc; simpl in Hc; intuition congruence.
Qed.

Lemma reached1 : reaches (m_objects memory1) (Ref 96) 160 /\ reaches (m_objects memory1) (Ref 96) 320.
Proof.
  assert (H : forall b, Ref b ∈ [Ref 160; Ref 320; Imm 1] -> reaches (m_objects memory1) (Ref 96) b).
  { intros b Hb. exists 96. split; [reflexivity|]. eapply rtc_l; [|reflexivity].
    exists (object_of 50 [Ref 160; Ref 320; Imm 1]). split; [reflexivity | exact Hb]. }
  split; apply H; [left | right; left].
Qed.

End Example.

(** C6 (termination).  Marking ends, with the explicit stack of ranges and the
    fields it skips, and marks exactly the objects that the root reaches. *)
Theorem marking_correct os x : closed os -> valid os x -> (forall a o, os !! a = Some o -> o_marked o = false) ->
  exists os', sexp_mark os x = Some os' /\ erase os' = erase os /\ forall a, marked os' a <-> reaches os x a.
Proof.
  intros Hc Hx Hu. destruct (sexp_mark_spec os x Hc Hx) as (os' & E & He & Hm).
  { intros a o w Ho Hmo. rewrite (Hu a o Ho) in Hmo. discriminate. }
  exists os'. split; [exact E|]. split; [exact He|]. intros a. rewrite Hm. split; [intros [H|H]; [|exact H] | auto].
  exfalso. unfold marked in H. simpl in H. destruct (os !! a) as [o|] eqn:Ho; [rewrite (Hu a o Ho) in H|]; discriminate.
Qed.

Lemma marking_correct_witness :
  exists os', sexp_mark (m_objects Example.memory1) (Ref 96) = Some os' /\ erase os' = erase (m_objects Example.memory1)
    /\ forall a, marked os' a <-> reaches (m_objects Example.memory1) (Ref 96) a.
Proof.
  apply marking_correct.
  - apply (co_closed _ _ _ Example.collectable1).
  - apply (co_root _ _ _ Example.collectable1).
  - apply (co_unmarked _ _ _ Example.collectable1).
Defined.

(** C3 (safety).  A collection ends.  The objects afterwards are those that the
    context reaches through strong fields, with these fields as they were.  The
    weak fields of objects that are not reached become [#f], so that no weak field
    dangles, given that the flag for weak objects is set; a field behind the weak
    ones, as the value of an ephemeron, is not cleared, and may dangle, exactly
    where a weak field of its object is live.  Strong fields of the objects left
    do not dangle.  The finalizers that run are those of the unreached objects
    with an ordinary finalizer, each once; a dynamic library is freed and its
    finalizer does not run.  The heaps are well formed again, with their free
    blocks merged and without marks, and the bytes reported are the growth of the
    free list. *)
Theorem gc_correct m v ctx : collectable m v ctx ->
  exists m' v' max_freed sum_freed finalized,
    sexp_gc ctx m = Some (m', max_freed, sum_freed, finalized)
    /\ collectable m' v' ctx /\ collected m ctx m'
    /\ (m_weak_present m = true -> weak_references m ctx m')
    /\ NoDup finalized /\ (forall a, a ∈ finalized <-> to_finalize m ctx a)
    /\ view_free v' = view_free v + sum_freed
    /\ (max_freed = 0 \/ exists q, max_freed <= q /\ Free q ∈ all_blocks v').
Proof.
  intros Hco. destruct (sexp_gc_spec m v ctx Hco) as (m' & v' & mf & sf & fin & H). exists m', v', mf, sf, fin.
  assert (m_weak_present m = true -> weak_references m ctx m') by (intros; apply (collected_weak m v); tauto).
  tauto.
Qed.

Lemma gc_correct_witness :
  exists m' v' max_freed sum_freed finalized,
    sexp_gc (Ref 96) Example.memory1 = Some (m', max_freed, sum_freed, finalized)
    /\ collectable m' v' (Ref 96) /\ collected Example.memory1 (Ref 96) m'
    /\ (m_weak_present Example.memory1 = true -> weak_references Example.memory1 (Ref 96) m')
    /\ NoDup finalized /\ (forall a, a ∈ finalized <-> to_finalize Example.memory1 (Ref 96) a)
    /\ view_free v' = view_free Example.view1 + sum_freed
    /\ (max_freed = 0 \/ exists q, max_freed <= q /\ Free q ∈ all_blocks v').
Proof. apply gc_correct. apply Example.collectable1. Defined.

(** C4 (invariant).  An allocation ends; the objects are those before or those
    that a collection keeps; the address it returns is free for any object of
    the size, which leaves the memory well formed, closed and unmarked; and when
    it returns none there is no free block of the size. *)
Theorem alloc_correct malloc m v ctx size : collectable m v ctx -> 0 < size -> malloc_fresh malloc (m_heaps m) ->
  exists r m', sexp_alloc malloc ctx size m = Some (r, m')
    /\ (m_objects m' = m_objects m \/ collected m ctx m') /\ allocated m' size ctx r.
Proof.
  intros Hco Hs Hf. destruct (sexp_alloc_spec malloc m v ctx size Hco Hs Hf) as (r & m' & H). exists r, m'. tauto.
Qed.

Lemma alloc_correct_witness :
  exists r m', sexp_alloc Example.malloc1 (Ref 96) 100 Example.memory1 = Some (r, m')
    /\ (m_objects m' = m_objects Example.memory1 \/ collected Example.memory1 (Ref 96) m') /\ allocated m' 100 (Ref 96) r.
Proof. apply (alloc_correct _ _ Example.view1); [apply Example.collectable1 | lia | apply Example.fresh1]. Defined.

(** C5 (liveness).  An allocation succeeds when the size of the heap is not
    limited and [malloc] does not fail: a collection that does not free enough
    is followed by a new heap with room for the object. *)
Theorem alloc_succeeds malloc m v ctx size : collectable m v ctx -> 0 < size -> malloc_fresh malloc (m_heaps m) ->
  m_heaps m <> [] -> Forall (fun h => h_max_size h = 0) (m_heaps m) -> (forall n, malloc n <> None) ->
  exists a m', sexp_alloc malloc ctx size m = Some (Some a, m').
Proof.
  intros Hco Hs Hf Hne Hmax Hmal. destruct (sexp_alloc_spec malloc m v ctx size Hco Hs Hf) as ([a|] & m' & E & _ & _ & H).
  - exists a, m'. exact E.
  - destruct (H Hne Hmax Hmal eq_refl).
Qed.

Lemma alloc_succeeds_witness :
  exists a m', sexp_alloc Example.malloc1 (Ref 96) 200 Example.memory1 = Some (Some a, m').
Proof.
  apply (alloc_succeeds _ _ Example.view1); [apply Example.collectable1 | lia | apply Example.fresh1 | discriminate | |].
  - constructor; [reflexivity | constructor].
  - discriminate.
Defined.

(** The second pass over the heaps that [sexp_finalize] is to make
    for the dynamic libraries starts after the last heap: a library that is not
    reached is swept without its finalizer having run. *)
Theorem libraries_not_finalized m v ctx a o : collectable m v ctx ->
  m_objects m !! a = Some o -> o_finalizer o = DlFinalizer -> ~ reaches (m_objects m) ctx a ->
  exists m' max_freed sum_freed finalized, sexp_gc ctx m = Some (m', max_freed, sum_freed, finalized)
    /\ m_objects m' !! a = None /\ a ∉ finalized.
Proof.
  intros Hco Ho Hd Hn. destruct (sexp_gc_spec m v ctx Hco) as (m' & v' & mf & sf & fin & E & _ & [Hc _] & _ & Hfin & _).
  exists m', mf, sf, fin. split; [exact E|]. split.
  - destruct (m_objects m' !! a) eqn:Ha; [|reflexivity]. destruct Hn. apply Hc. eauto.
  - intros Hin. apply Hfin in Hin as (o' & Ho' & _ & Hf). congruence.
Qed.

Lemma libraries_not_finalized_witness :
  exists m' max_freed sum_freed finalized, sexp_gc (Ref 96) Example.memory1 = Some (m', max_freed, sum_freed, finalized)
    /\ m_objects m' !! 288 = None /\ 288 ∉ finalized.
Proof.
  apply (libraries_not_finalized Example.memory1 Example.view1 (Ref 96) 288 Example.library);
    [apply Example.collectable1 | reflexivity | reflexivity | apply Example.unreached1; lia].
Defined.

(** The value of an ephemeron is not traced even when its key is
    reached: it is freed and the ephemeron goes on referring to it. *)
Theorem ephemeron_value_dangles m v ctx a o ws extra k b : collectable m v ctx -> m_weak_present m = true ->
  m_objects m !! a = Some o -> reaches (m_objects m) ctx a -> o_weak o = Some (ws, extra) ->
  Ref k ∈ ws -> reaches (m_objects m) ctx k -> Ref b ∈ extra -> ~ reaches (m_objects m) ctx b ->
  exists m' max_freed sum_freed finalized o' ws', sexp_gc ctx m = Some (m', max_freed, sum_freed, finalized)
    /\ m_objects m' !! a = Some o' /\ o_weak o' = Some (ws', extra) /\ m_objects m' !! b = None.
Proof.
  intros Hco Hw Ho Ha Hwk Hk Hrk Hb Hnb.
  destruct (sexp_gc_spec m v ctx Hco) as (m' & v' & mf & sf & fin & E & _ & [Hc Hkept] & _).
  destruct (proj2 (Hc a) Ha) as [o' Ho']. destruct (Hkept a o o' Ho Ho') as [_ _ _ _ _ Hweak].
  rewrite Hw in Hweak. unfold weak_part in Hweak. rewrite Hwk in Hweak. destruct Hweak as (ws' & extra' & E' & _ & [[Hall _] | [_ ->]]).
  - rewrite List.Forall_forall in Hall. apply list_elem_of_In in Hk. destruct (Hall _ Hk) as (c & Ec & Hn). congruence.
  - exists m', mf, sf, fin, o', ws'. do 3 (split; [assumption|]).
    destruct (m_objects m' !! b) eqn:Hx; [|reflexivity]. destruct Hnb. apply Hc. eauto.
Qed.

Lemma ephemeron_value_dangles_witness :
  exists m' max_freed sum_freed finalized o' ws', sexp_gc (Ref 96) Example.memory1 = Some (m', max_freed, sum_freed, finalized)
    /\ m_objects m' !! 320 = Some o' /\ o_weak o' = Some (ws', [Ref 352]) /\ m_objects m' !! 352 = None.
Proof.
  apply (ephemeron_value_dangles Example.memory1 Example.view1 (Ref 96) 320 Example.ephemeron [Ref 160] [Ref 352] 160 352);
    [apply Example.collectable1 | reflexivity | reflexivity | apply Example.reached1 | reflexivity | left
    | apply Example.reached1 | left | apply Example.unreached1; lia].
Defined.
