(* ===== verification/Sort.v ===== *)
(** * Sorting

    [lib/srfi/95/qsort.c]: the order on objects, the merge sorts on an array and
    a scratch array, and [sort!].  The comparison and key procedures are Scheme
    procedures, which may have effects and raise exceptions. *)
From S2P Require Import Prelude LongLong Bignum Numbers Heap Vm.
From stdpp Require Import base list option.
#[local] Open Scope Z_scope.

(** ** The order on objects *)

(** The word of an immediate. *)
Definition immediate_word (v : sexp) : option Z :=
  match v with
  | Fixnum z => Some (2 * z + 1)
  | Char c => Some (256 * c + 30)
  | StringCursor z => Some (8 * z + 2)
  | SEXP_FALSE => Some 62
  | SEXP_TRUE => Some (256 + 62)
  | SEXP_NULL => Some (2 * 256 + 62)
  | SEXP_EOF => Some (3 * 256 + 62)
  | SEXP_VOID => Some (4 * 256 + 62)
  | SEXP_UNDEF => Some (5 * 256 + 62)
  | SEXP_TRAMPOLINE => Some (9 * 256 + 62)
  | SEXP_UNCAUGHT => Some (10 * 256 + 62)
  | Symbol _ | Ptr _ => None
  end.

(** The sign of [strcmp], which stops at a null character. *)
Fixpoint strcmp (a b : string) : Z :=
  match a, b with
  | String.String x a, String.String y b =>
      let x := Z.of_N (Ascii.N_of_ascii x) in
      let y := Z.of_N (Ascii.N_of_ascii y) in
      if x <? y then -1 else if y <? x then 1 else if x =? 0 then 0 else strcmp a b
  | String.EmptyString, String.String y _ => if Z.of_N (Ascii.N_of_ascii y) =? 0 then 0 else -1
  | String.String x _, String.EmptyString => if Z.of_N (Ascii.N_of_ascii x) =? 0 then 0 else 1
  | String.EmptyString, String.EmptyString => 0
  end.

(** A comparison: its result, a loop that has not ended with the fuel, or a case
    left out: symbols, whose short names are coded in the word, and words that
    are no object. *)
Inductive comparison := Order (z : Z) | Unfinished | LeftOut.

Definition comparing (c : comparison) (f : Z -> comparison) : comparison :=
  match c with Order z => f z | _ => c end.

Section compare.
Context {T : Type} `{LongUInt T}.
Variable h : heap.

Definition ordered_number (v : sexp) : bool :=
  match deref h v with Some (BignumObj _) | Some (RatioObj _ _) => true | _ => false end.

(** [sexp_unbox_fixnum(sexp_compare(ctx, a, b))] *)
Definition number_compare (a b : sexp) : comparison :=
  match load_number h a, load_number h b with
  | Some x, Some y => match Numbers.sexp_compare x y with Ok (Fix z) => Order z | _ => LeftOut end
  | _, _ => LeftOut
  end.

(** The loop on two lists: [ls2] is a step ahead of [ls1]. *)
Fixpoint pairs_loop (compare : sexp -> sexp -> comparison) (fuel : nat) (res : Z) (ls1 ls2 b : sexp)
    : option (comparison * sexp * sexp * sexp) :=
  match fuel with
  | O => None
  | S fuel =>
      if (res =? 0) && bool_decide (ls1 <> ls2) && sexp_pairp h ls1 && sexp_pairp h b then
        x ← sexp_car h ls1; y ← sexp_car h b;
        match compare x y with
        | Order res =>
            ls1 ← sexp_cdr h ls1;
            b ← sexp_cdr h b;
            let ls2 := match sexp_cdr h ls2 with Some d => if sexp_pairp h d then d else SEXP_NULL | None => SEXP_NULL end in
            pairs_loop compare fuel res ls1 ls2 b
        | c => Some (c, ls1, ls2, b)
        end
      else Some (Order res, ls1, ls2, b)
  end.

Fixpoint vectors_loop (compare : sexp -> sexp -> comparison) (res : Z) (xs ys : list sexp) : comparison :=
  match xs, ys with
  | x :: xs, y :: ys => if res =? 0 then comparing (compare x y) (fun res => vectors_loop compare res xs ys) else Order res
  | _, _ => Order res
  end.

Fixpoint sexp_object_compare (fuel : nat) (a b : sexp) (depth : nat) : comparison :=
  if bool_decide (a = b) then Order 0
  else if sexp_symbolp a || sexp_symbolp b then LeftOut
  else match a, b with
  | Ptr _, Ptr _ =>
      match deref h a, deref h b with
      | Some x, Some y =>
          if sexp_pointer_tag x =? sexp_pointer_tag y then
            match depth with
            | O => Order 0
            | S depth =>
                let compare x y := sexp_object_compare fuel x y depth in
                match x, y with
                | BignumObj p, BignumObj q => Order (sexp_bignum_compare p q)
                | RatioObj _ _, RatioObj _ _ => number_compare a b
                | String s, String t => Order (strcmp s t)
                | Pair _ d _, Pair _ _ _ =>
                    match pairs_loop compare fuel 0 a d b with
                    | None => Unfinished
                    | Some (Order res, ls1, ls2, b) =>
                        if sexp_pairp h ls2 && negb (sexp_pairp h b) then Order 1
                        else if sexp_pairp h b && negb (sexp_pairp h ls2) then Order (-1)
                        else if bool_decide (ls1 = SEXP_NULL) && bool_decide (b = SEXP_NULL) then Order 0
                        else if res =? 0 then compare ls1 b
                        else Order res
                    | Some (c, _, _, _) => c
                    end
                | Vector xs _, Vector ys _ =>
                    vectors_loop compare (Z.of_nat (length xs) - Z.of_nat (length ys)) xs ys
                | _, _ => Order 0
                end
            end
          else if ordered_number a && ordered_number b then number_compare a b
          else Order (sexp_pointer_tag x - sexp_pointer_tag y)
      | _, _ => LeftOut
      end
  | Ptr _, _ => if sexp_fixnump b && ordered_number a then number_compare a b else Order 1
  | _, Ptr _ => if sexp_fixnump a && ordered_number b then number_compare a b else Order (-1)
  | _, _ =>
      match immediate_word a, immediate_word b with
      | Some x, Some y => Order (s64 (x - y))
      | _, _ => LeftOut
      end
  end.

Definition COMPARE_DEPTH : nat := 5.
End compare.

(** ** Arrays *)

(** What a sort works on: the vector, the scratch vector, and the rest of the
    world, which the procedures it calls can change. *)
Record sorting (A W : Type) := Sorting { s_vec : list A; s_scratch : list A; s_world : W }.
Arguments Sorting {A W}.
Arguments s_vec {A W}.
Arguments s_scratch {A W}.
Arguments s_world {A W}.

(** [Raised]: an exception returned by a procedure.  [Broken]: an access outside
    of an array, or a recursion that has not ended with the fuel. *)
Inductive result (E X : Type) := Done (x : X) | Raised (e : E) | Broken.
Arguments Done {E X} x.
Arguments Raised {E X} e.
Arguments Broken {E X}.

Section sorts.
Context {A E W : Type}.

Abbreviation M X := (sorting A W -> result E X * sorting A W).

Definition ret {X} (x : X) : M X := fun s => (Done x, s).
Definition bind {X Y} (m : M X) (f : X -> M Y) : M Y := fun s =>
  match m s with
  | (Done x, s) => f x s
  | (Raised e, s) => (Raised e, s)
  | (Broken, s) => (Broken, s)
  end.
#[local] Notation "x <- m ; f" := (bind m (fun x => f)) (at level 70, m at next level, right associativity).
#[local] Notation "m ;;; f" := (bind m (fun _ : unit => f)) (at level 70, right associativity).

(** The element at an index. *)
Definition at_index (l : list A) (i : Z) : option A := if 0 <=? i then l !! Z.to_nat i else None.

Definition in_range (l : list A) (i : Z) : bool := (0 <=? i) && (i <? Z.of_nat (length l)).

Definition get_vec (i : Z) : M A := fun s =>
  match at_index (s_vec s) i with Some x => (Done x, s) | None => (Broken, s) end.

Definition set_vec (i : Z) (x : A) : M unit := fun s =>
  if in_range (s_vec s) i then (Done tt, Sorting (<[Z.to_nat i := x]> (s_vec s)) (s_scratch s) (s_world s)) else (Broken, s).

Definition set_scratch (i : Z) (x : A) : M unit := fun s =>
  if in_range (s_scratch s) i then (Done tt, Sorting (s_vec s) (<[Z.to_nat i := x]> (s_scratch s)) (s_world s)) else (Broken, s).

Definition swap (i j : Z) : M unit :=
  x <- get_vec i; y <- get_vec j; set_vec i y;;; set_vec j x.

(** [memcpy(vec + lo, scratch + lo, (hi-lo+1) * sizeof(sexp))] *)
Definition copy_back (lo hi : Z) : M unit := fun s =>
  if in_range (s_vec s) lo && in_range (s_vec s) hi && in_range (s_scratch s) hi then
    (Done tt, Sorting (take (Z.to_nat lo) (s_vec s) ++ take (Z.to_nat (hi - lo + 1)) (drop (Z.to_nat lo) (s_scratch s))
                       ++ drop (Z.to_nat (hi + 1)) (s_vec s)) (s_scratch s) (s_world s))
  else (Broken, s).

(** ** Merge sort *)

(** The two C functions have the same body but for the comparison of the
    elements at two indices. *)
Section merge_sort.
Variable is_less : Z -> Z -> M bool.

(** The loop over [k], for [n] more elements. *)
Fixpoint merge_loop (n : nat) (mid hi i j k : Z) : M unit :=
  match n with
  | O => ret tt
  | S n =>
      let left := x <- get_vec i; set_scratch k x;;; merge_loop n mid hi (i + 1) j (k + 1) in
      let right := x <- get_vec j; set_scratch k x;;; merge_loop n mid hi i (j + 1) (k + 1) in
      if i >? mid then right
      else if j >? hi then left
      else c <- is_less j i; if c : bool then right else left
  end.

(** Two elements, or the rest of the way for three. *)
Definition sort_two (lo hi : Z) : M unit :=
  c <- is_less (lo + 1) lo;
  if c : bool then
    swap (lo + 1) lo;;;
    if hi - lo >? 1 then c <- is_less (lo + 2) (lo + 1); if c : bool then swap (lo + 2) (lo + 1) else ret tt
    else ret tt
  else ret tt.

Fixpoint merge_sort (fuel : nat) (lo hi : Z) : M unit :=
  match fuel with
  | O => fun s => (Broken, s)
  | S fuel =>
      if hi - lo =? 0 then x <- get_vec lo; set_scratch lo x
      else if hi - lo =? 2 then
        c <- is_less hi (hi - 1);
        (if c : bool then swap hi (hi - 1) else ret tt);;; sort_two lo hi
      else if hi - lo =? 1 then sort_two lo hi
      else
        let mid := Z.quot (hi + lo) 2 in
        merge_sort fuel lo mid;;;
        merge_sort fuel (mid + 1) hi;;;
        merge_loop (Z.to_nat (hi - lo + 1)) mid hi lo (mid + 1) lo;;;
        copy_back lo hi
  end.
End merge_sort.

(** [sexp_merge_sort], with the order on objects. *)
Definition compare_less (cmp : A -> A -> Z) (i j : Z) : M bool :=
  x <- get_vec i; y <- get_vec j; ret (cmp x y <? 0).

Definition sexp_merge_sort (cmp : A -> A -> Z) : nat -> Z -> Z -> M unit := merge_sort (compare_less cmp).

(** A Scheme procedure: a value or an exception. *)
Definition call {X} (f : W -> (X + E) * W) : M X := fun s =>
  match f (s_world s) with
  | (inl x, w) => (Done x, Sorting (s_vec s) (s_scratch s) w)
  | (inr e, w) => (Raised e, Sorting (s_vec s) (s_scratch s) w)
  end.

(** The key of an element, which is the element when there is no key. *)
Definition apply_key (key : option (A -> W -> (A + E) * W)) (x : A) : M A :=
  match key with Some key => call (key x) | None => ret x end.

(** [if_is_less] *)
Definition if_is_less (less : A -> A -> W -> (bool + E) * W) (key : option (A -> W -> (A + E) * W)) (i j : Z) : M bool :=
  x <- get_vec i; a <- apply_key key x;
  y <- get_vec j; b <- apply_key key y;
  call (less a b).

Definition sexp_merge_sort_less less key : nat -> Z -> Z -> M unit := merge_sort (if_is_less less key).

(** [sexp_vector_nreverse] *)
Fixpoint vector_nreverse_loop (fuel : nat) (i j : Z) : M unit :=
  match fuel with
  | O => ret tt
  | S fuel => if i <? j then swap i j;;; vector_nreverse_loop fuel (i + 1) (j - 1) else ret tt
  end.

Definition sexp_vector_nreverse : M unit := fun s =>
  vector_nreverse_loop (length (s_vec s)) 0 (Z.of_nat (length (s_vec s)) - 1) s.

(** ** [sort!] *)

(** A sequence: the empty list or vector, a proper list, a vector, or neither. *)
Inductive sequence := EmptySeq | ListSeq (l : list A) | VectorSeq (l : list A) | OtherSeq.

(** A comparison procedure: none, an opcode of the class of comparisons, which
    the basic order stands in for, another procedure, or neither. *)
Inductive less_arg := NoLess | OpcodeLess (inverse : bool) (less : A -> A -> W -> (bool + E) * W)
  | ProcLess (less : A -> A -> W -> (bool + E) * W) | OtherLess.
Inductive key_arg := NoKey | ProcKey (key : A -> W -> (A + E) * W) | OtherKey.

(** The elements of the result and of the argument afterwards; the argument
    after an exception; or a type error. *)
Inductive sort_result := Sorted_ (res seq : list A) | SortRaised (e : E) (seq : list A) | SortType | SortBroken.

Variable cmp : A -> A -> Z.
Variable SEXP_VOID : A.

(** The vector that is the result of a sort that ends. *)
Definition returning (vec : sorting A W -> list A) (r : result E unit * sorting A W) : result E (list A) * sorting A W :=
  match r with
  | (Done _, s) => (Done (vec s), s)
  | (Raised e, s) => (Raised e, s)
  | (Broken, s) => (Broken, s)
  end.

(** The vector sorted, and the vector that is the result: the scratch vector
    after the general sort. *)
Definition sort_vector (vec : list A) (less : less_arg) (key : key_arg) (w : W)
    : option (result E (list A) * sorting A W) :=
  let s := Sorting vec (replicate (length vec) SEXP_VOID) w in
  let hi := Z.of_nat (length vec) - 1 in
  let n := S (length vec) in
  let general less key := returning s_scratch (sexp_merge_sort_less less key n 0 hi s) in
  let basic inverse :=
    returning s_vec ((sexp_merge_sort cmp n 0 hi;;; if inverse : bool then sexp_vector_nreverse else ret tt) s) in
  match key, less with
  | NoKey, NoLess => Some (basic false)
  | NoKey, OpcodeLess inverse _ => Some (basic inverse)
  | NoKey, ProcLess f => Some (general f None)
  | ProcKey k, OpcodeLess _ f | ProcKey k, ProcLess f => Some (general f (Some k))
  | _, _ => None
  end.

Definition sexp_sort_x (seq : sequence) (less : less_arg) (key : key_arg) (w : W) : sort_result * W :=
  let sort vec (is_list : bool) :=
    match sort_vector vec less key w with
    | None => (SortType, w)
    | Some (Done res, s) => (if is_list then Sorted_ (s_vec s) (s_vec s) else Sorted_ res (s_vec s), s_world s)
    | Some (Raised e, s) => (SortRaised e (if is_list then vec else s_vec s), s_world s)
    | Some (Broken, s) => (SortBroken, s_world s)
    end in
  match seq with
  | EmptySeq => (Sorted_ [] [], w)
  | ListSeq l => sort l true
  | VectorSeq l => sort l false
  | OtherSeq => (SortType, w)
  end.
End sorts.
