(* ===== verification/Ordering.v ===== *)
(** * The order on objects

    What [sexp_object_compare] of [lib/srfi/95/qsort.c] promises on exact
    integers, and where it is not an order: lists, circular lists and distant
    fixnums. *)
From S2P Require Import Prelude LongLong Bignum Integers Numbers Heap Vm Sort.
From stdpp Require Import base list option gmap.
#[local] Open Scope Z_scope.

Section compare.
Context {T : Type} `{LongUInt T}.
Implicit Types h : heap.

(** An integer in a word or in the heap. *)
Lemma load_int_cases h a x : load_int h a = Some x ->
  (exists z, a = Fixnum z /\ x = Fix z) \/ (exists l b, a = Ptr l /\ h !! l = Some (BignumObj b) /\ x = Big b).
Proof.
  unfold load_int. intros H0. destruct a; simpl in *; try discriminate.
  - left. eexists. split; [reflexivity | congruence].
  - right. destruct (h !! l) as [[]|] eqn:E; try discriminate. eexists _, _. split; [reflexivity|]. split; [exact E | congruence].
Qed.

Lemma load_int_number h a x : load_int h a = Some x -> load_number h a = Some (Int x).
Proof. intros Ha. unfold load_number. rewrite Ha. reflexivity. Qed.

Lemma number_compare_int h a b x y : load_int h a = Some x -> load_int h b = Some y -> inormal x -> inormal y ->
  Integers.comparable x y -> exists c, number_compare h a b = Order c /\ Z.sgn c = Z.sgn (ival x - ival y).
Proof.
  intros Ha Hb Nx Ny Hc. unfold number_compare. rewrite (load_int_number _ _ _ Ha), (load_int_number _ _ _ Hb). simpl.
  destruct (Integers.compare_spec x y Nx Ny Hc) as (c & -> & Hs). eauto.
Qed.

(** Two bignums of the same value or sign. *)
Lemma big_compare x y : inormal (Big x) -> inormal (Big y) ->
  Z.sgn (sexp_bignum_compare x y) = Z.sgn (bval x - bval y).
Proof.
  intros [Wx Nx] [Wy Ny]. apply bignum_compare_spec; auto. left. intros E. rewrite E in Nx. apply Nx. done.
Qed.

(** The comparison of two pairs, as its loop. *)
Lemma compare_pairs h fuel l1 l2 x1 d1 m1 x2 d2 m2 depth : l1 <> l2 ->
  h !! l1 = Some (Pair x1 d1 m1) -> h !! l2 = Some (Pair x2 d2 m2) ->
  sexp_object_compare h fuel (Ptr l1) (Ptr l2) (S depth) =
  match pairs_loop h (fun x y => sexp_object_compare h fuel x y depth) fuel 0 (Ptr l1) d1 (Ptr l2) with
  | None => Unfinished
  | Some (Order res, ls1, ls2, b) =>
      if sexp_pairp h ls2 && negb (sexp_pairp h b) then Order 1
      else if sexp_pairp h b && negb (sexp_pairp h ls2) then Order (-1)
      else if bool_decide (ls1 = SEXP_NULL) && bool_decide (b = SEXP_NULL) then Order 0
      else if res =? 0 then sexp_object_compare h fuel ls1 b depth
      else Order res
  | Some (c, _, _, _) => c
  end.
Proof.
  intros Hne H1 H2. cbn [sexp_object_compare]. rewrite bool_decide_false by congruence.
  cbn [sexp_symbolp orb deref]. rewrite H1, H2. reflexivity.
Qed.

(** The lists of one element. *)
Lemma pairs_loop_one h compare fuel l1 l2 x y m1 m2 z : h !! l1 = Some (Pair x SEXP_NULL m1) ->
  h !! l2 = Some (Pair y SEXP_NULL m2) -> compare x y = Order z ->
  pairs_loop h compare (S (S fuel)) 0 (Ptr l1) SEXP_NULL (Ptr l2) = Some (Order z, SEXP_NULL, SEXP_NULL, SEXP_NULL).
Proof.
  intros H1 H2 Hc. unfold pairs_loop. unfold sexp_pairp, sexp_car, sexp_cdr. simpl. rewrite H1, H2. simpl. rewrite Hc.
  rewrite andb_false_r. reflexivity.
Qed.

Lemma compare_same h fuel a depth : sexp_object_compare h fuel a a depth = Order 0.
Proof. destruct depth; cbn [sexp_object_compare]; rewrite bool_decide_true by reflexivity; reflexivity. Qed.

(** Two circular lists of two elements. *)
Definition circles : heap :=
  list_to_map [(1, Pair (Fixnum 0) (Ptr 2) false); (2, Pair (Fixnum 0) (Ptr 1) false);
               (3, Pair (Fixnum 0) (Ptr 4) false); (4, Pair (Fixnum 0) (Ptr 3) false)]%positive.

Lemma circles_loop compare : compare (Fixnum 0) (Fixnum 0) = Order 0 -> forall fuel : nat,
  pairs_loop circles compare fuel 0 (Ptr 1%positive) (Ptr 2%positive) (Ptr 3%positive) = None
  /\ pairs_loop circles compare fuel 0 (Ptr 2%positive) (Ptr 1%positive) (Ptr 4%positive) = None.
Proof.
  intros Hc fuel. induction fuel as [|fuel [IH1 IH2]]; [split; reflexivity|].
  split; cbn [pairs_loop].
  - change (match compare (Fixnum 0) (Fixnum 0) with Order res => pairs_loop circles compare fuel res (Ptr 2%positive) (Ptr 1%positive) (Ptr 4%positive) | c => Some (c, Ptr 1%positive, Ptr 2%positive, Ptr 3%positive) end = None). rewrite Hc. exact IH2.
  - change (match compare (Fixnum 0) (Fixnum 0) with Order res => pairs_loop circles compare fuel res (Ptr 1%positive) (Ptr 2%positive) (Ptr 3%positive) | c => Some (c, Ptr 2%positive, Ptr 1%positive, Ptr 4%positive) end = None). rewrite Hc. exact IH1.
Qed.

(** The lists [(2)] and [(1 0)]. *)
Definition two_lists : heap :=
  list_to_map [(1, Pair (Fixnum 2) SEXP_NULL false);
               (2, Pair (Fixnum 1) (Ptr 3) false); (3, Pair (Fixnum 0) SEXP_NULL false)]%positive.

(** The comparison of two exact integers, each a fixnum or a
    bignum, has the sign of their difference, when two fixnums are less than
    2^62 apart. *)
Theorem object_compare_integers h fuel depth a b x y : load_int h a = Some x -> load_int h b = Some y ->
  inormal x -> inormal y -> Integers.comparable x y ->
  exists c, sexp_object_compare h fuel a b (S depth) = Order c /\ Z.sgn c = Z.sgn (ival x - ival y).
Proof.
  intros Ha Hb Nx Ny Hc. pose proof (number_compare_int h a b x y Ha Hb Nx Ny Hc) as Hn.
  destruct (decide (a = b)) as [<-|Hab].
  { assert (x = y) as <- by congruence. exists 0. rewrite Z.sub_diag. split; [apply compare_same | reflexivity]. }
  cbn [sexp_object_compare]. rewrite bool_decide_false by exact Hab.
  destruct (load_int_cases h a x Ha) as [(z1 & -> & ->)|(l1 & b1 & -> & E1 & ->)],
    (load_int_cases h b y Hb) as [(z2 & -> & ->)|(l2 & b2 & -> & E2 & ->)]; simpl; rewrite ?E1, ?E2.
  - exists (s64 (2 * z1 + 1 - (2 * z2 + 1))). split; [reflexivity|]. cbn in Nx, Ny, Hc.
    unfold SEXP_MIN_FIXNUM, SEXP_MAX_FIXNUM in *. rewrite swrap_id by lia. cbn [ival]. lia.
  - unfold ordered_number. simpl. rewrite E2. exact Hn.
  - unfold ordered_number. simpl. rewrite E1. exact Hn.
  - eexists. split; [reflexivity|]. apply big_compare; assumption.
Qed.

(** Where the comparison is not an order.  The difference of distant
    fixnums overflows; two lists of one element are equal whatever the elements
    are, since the end of the lists resets the result; of [(2)] and [(1 0)] each
    is less than the other; and the loop on two
    circular lists of two elements does not end, because [ls2] goes on by one
    pair at a time and stays ahead of [ls1]. *)
Theorem object_compare_faults :
  (forall h fuel, exists c, sexp_object_compare h fuel (Fixnum SEXP_MIN_FIXNUM) (Fixnum SEXP_MAX_FIXNUM) COMPARE_DEPTH = Order c /\ c > 0)
  /\ (forall h fuel l1 l2 x y m1 m2 z, h !! l1 = Some (Pair x SEXP_NULL m1) -> h !! l2 = Some (Pair y SEXP_NULL m2) ->
       sexp_object_compare h (S (S fuel)) x y 4 = Order z ->
       sexp_object_compare h (S (S fuel)) (Ptr l1) (Ptr l2) COMPARE_DEPTH = Order 0)
  /\ (forall fuel, exists c, sexp_object_compare two_lists (3 + fuel) (Ptr 1%positive) (Ptr 2%positive) COMPARE_DEPTH = Order c /\ c < 0)
  /\ (forall fuel, exists c, sexp_object_compare two_lists (3 + fuel) (Ptr 2%positive) (Ptr 1%positive) COMPARE_DEPTH = Order c /\ c < 0)
  /\ (forall fuel, sexp_object_compare circles fuel (Ptr 1%positive) (Ptr 3%positive) COMPARE_DEPTH = Unfinished).
Proof.
  split; [|split; [|split; [|split]]].
  - intros h fuel. eexists. split; [reflexivity | vm_compute; reflexivity].
  - intros h fuel l1 l2 x y m1 m2 z H1 H2 Hc. destruct (decide (l1 = l2)) as [<-|Hne]; [apply compare_same|].
    unfold COMPARE_DEPTH. rewrite (compare_pairs _ _ _ _ _ _ _ _ _ _ _ Hne H1 H2).
    rewrite (pairs_loop_one h _ fuel l1 l2 x y m1 m2 z H1 H2 Hc). reflexivity.
  - intros fuel. eexists. split; [vm_compute; reflexivity | lia].
  - intros fuel. eexists. split; [vm_compute; reflexivity | lia].
  - intros fuel. unfold COMPARE_DEPTH. erewrite compare_pairs by (discriminate || reflexivity).
    destruct (circles_loop (fun x y => sexp_object_compare circles fuel x y 4) (compare_same circles fuel (Fixnum 0) 4) fuel) as [-> _].
    reflexivity.
Qed.
End compare.

(** A bignum and a fixnum. *)
Definition one_bignum : heap := {[ 1%positive := BignumObj (Bignum (-1) [0; 1]) ]}.

Lemma object_compare_integers_witness :
  exists c, sexp_object_compare (T := Native.uint128) one_bignum 0 (Ptr 1%positive) (Fixnum SEXP_MIN_FIXNUM) COMPARE_DEPTH = Order c
    /\ Z.sgn c = Z.sgn (ival (Big (Bignum (-1) [0; 1])) - ival (Fix SEXP_MIN_FIXNUM)).
Proof.
  apply (object_compare_integers (T := Native.uint128) one_bignum 0 4 (Ptr 1%positive) (Fixnum SEXP_MIN_FIXNUM)
    (Big (Bignum (-1) [0; 1])) (Fix SEXP_MIN_FIXNUM)); [reflexivity | reflexivity | | vm_compute; split; discriminate | exact I].
  split; [concrete_wf|]. vm_compute. intros [H1 H2]. apply H1. reflexivity.
Defined.

Lemma object_compare_faults_witness :
  sexp_object_compare (T := Native.uint128) two_lists 2 (Ptr 3%positive) (Ptr 1%positive) COMPARE_DEPTH = Order 0.
Proof.
  apply (proj1 (proj2 (object_compare_faults (T := Native.uint128))) two_lists 0%nat 3%positive 1%positive (Fixnum 0) (Fixnum 2) false false (-4)); reflexivity.
Defined.
