(* ===== verification/Sorting.v ===== *)
(** * The sorts are correct

    Whatever the comparison does, raising included, a sort ends, stays inside of
    its arrays and leaves a permutation of the vector; with a comparison that is
    a strict weak order the result is sorted and stable. *)
From Stdlib Require Import Sorting.Sorted.
From S2P Require Import Prelude Sort.
From stdpp Require Import base list option.
#[local] Open Scope Z_scope.

Section sorting.
Context {A E W : Type}.
Implicit Types l v : list A.

Lemma forall_mono (P Q : A -> Prop) l : Forall P l -> (forall x, P x -> Q x) -> Forall Q l.
Proof. intros H HPQ. induction H; constructor; auto. Qed.

(** ** Segments of arrays *)

(** The elements at the indices from [i] to [j]. *)
Definition seg l (i j : Z) : list A := take (Z.to_nat (j - i + 1)) (drop (Z.to_nat i) l).

Definition outside l l' (lo hi : Z) : Prop := forall k, k < lo \/ hi < k -> at_index l' k = at_index l k.

Lemma at_some l i : 0 <= i < Z.of_nat (length l) -> exists x, at_index l i = Some x.
Proof.
  intros Hi. unfold at_index. rewrite (proj2 (Z.leb_le 0 i)) by lia. apply lookup_lt_is_Some_2. lia.
Qed.

Lemma at_range l i x : at_index l i = Some x -> 0 <= i < Z.of_nat (length l).
Proof.
  unfold at_index. destruct (Z.leb_spec 0 i); [|discriminate]. intros Hx. apply lookup_lt_Some in Hx. lia.
Qed.

Lemma at_insert l i k x : 0 <= i < Z.of_nat (length l) ->
  at_index (<[Z.to_nat i := x]> l) k = if decide (k = i) then Some x else at_index l k.
Proof.
  intros Hi. unfold at_index. destruct (Z.leb_spec 0 k) as [Hk|Hk]; [|destruct (decide (k = i)); [lia|reflexivity]].
  destruct (decide (k = i)) as [->|Hne]; [apply list_lookup_insert_eq; lia|].
  apply list_lookup_insert_ne. lia.
Qed.

Lemma at_ext l l' : length l = length l' -> (forall k, at_index l k = at_index l' k) -> l = l'.
Proof.
  intros Hlen H. apply list_eq. intros i. specialize (H (Z.of_nat i)). unfold at_index in H.
  rewrite (proj2 (Z.leb_le 0 _)), Nat2Z.id in H by lia. exact H.
Qed.

Lemma seg_nil l i j : j < i -> seg l i j = [].
Proof. intros H. unfold seg. replace (Z.to_nat (j - i + 1)) with 0%nat by lia. reflexivity. Qed.

Lemma seg_cons l i j x : i <= j -> at_index l i = Some x -> seg l i j = x :: seg l (i + 1) j.
Proof.
  intros Hij Hx. pose proof (at_range _ _ _ Hx). unfold seg, at_index in *.
  rewrite (proj2 (Z.leb_le 0 i)) in Hx by lia. rewrite (drop_S _ _ _ Hx).
  replace (Z.to_nat (j - i + 1)) with (S (Z.to_nat (j - (i + 1) + 1))) by lia.
  replace (Z.to_nat (i + 1)) with (S (Z.to_nat i)) by lia. reflexivity.
Qed.

Lemma seg_one l i x : at_index l i = Some x -> seg l i i = [x].
Proof. intros Hx. rewrite (seg_cons _ _ _ x), seg_nil by (auto; lia). reflexivity. Qed.

Lemma seg_split l i m j : 0 <= i -> i - 1 <= m <= j -> seg l i j = seg l i m ++ seg l (m + 1) j.
Proof.
  intros Hi Hm. unfold seg. replace (Z.to_nat (m + 1)) with (Z.to_nat i + Z.to_nat (m - i + 1))%nat by lia.
  rewrite <- drop_drop, take_take_drop. f_equal. lia.
Qed.

Lemma seg_ext l l' i j : 0 <= i -> (forall k, i <= k <= j -> at_index l' k = at_index l k) -> seg l' i j = seg l i j.
Proof.
  intros Hi H. unfold seg. apply list_eq. intros n.
  destruct (decide (n < Z.to_nat (j - i + 1))%nat) as [Hn|Hn].
  - rewrite !lookup_take_lt, !lookup_drop by lia. specialize (H (i + Z.of_nat n) ltac:(lia)). unfold at_index in H.
    rewrite (proj2 (Z.leb_le 0 _)) in H by lia. rewrite Z2Nat.inj_add, Nat2Z.id in H by lia. exact H.
  - rewrite !lookup_take_ge by lia. reflexivity.
Qed.

Lemma seg_whole l : seg l 0 (Z.of_nat (length l) - 1) = l.
Proof. unfold seg. simpl. apply take_ge. lia. Qed.

Lemma length_seg l i j : 0 <= i -> i - 1 <= j < Z.of_nat (length l) -> Z.of_nat (length (seg l i j)) = j - i + 1.
Proof. intros Hi Hj. unfold seg. rewrite length_take, length_drop. lia. Qed.

(** A permutation of a segment is one of the list. *)
Lemma seg_permutation l l' lo hi : length l' = length l -> 0 <= lo -> lo - 1 <= hi < Z.of_nat (length l) ->
  outside l l' lo hi -> seg l' lo hi ≡ₚ seg l lo hi -> l' ≡ₚ l.
Proof.
  intros Hlen Hlo Hhi Hout Hp. rewrite <- (seg_whole l), <- (seg_whole l'), Hlen.
  set (n := Z.of_nat (length l) - 1).
  assert (H : forall x, seg x 0 n = seg x 0 (lo - 1) ++ seg x lo hi ++ seg x (hi + 1) n).
  { intros x. rewrite (seg_split x 0 (lo - 1) n) by lia. rewrite (seg_split x (lo - 1 + 1) hi n) by lia.
    do 3 f_equal; lia. }
  rewrite !H, Hp, (seg_ext l l' 0 (lo - 1)), (seg_ext l l' (hi + 1)) by (try lia; intros; apply Hout; lia).
  reflexivity.
Qed.

(** Joining the segments of two sorts next to each other. *)
Lemma seg_join l lo mid hi : 0 <= lo -> lo - 1 <= mid <= hi -> seg l lo hi = seg l lo mid ++ seg l (mid + 1) hi.
Proof. apply seg_split. Qed.

(** ** Steps *)

Lemma bind_done {X Y} (m : sorting A W -> result E X * sorting A W) (f : X -> sorting A W -> result E Y * sorting A W) s x s' :
  m s = (Done x, s') -> bind m f s = f x s'.
Proof. intros H. unfold bind. rewrite H. reflexivity. Qed.

Lemma bind_raised {X Y} (m : sorting A W -> result E X * sorting A W) (f : X -> sorting A W -> result E Y * sorting A W) s e s' :
  m s = (Raised e, s') -> bind m f s = (Raised e, s').
Proof. intros H. unfold bind. rewrite H. reflexivity. Qed.

Lemma get_vec_done (s : sorting A W) i x : at_index (s_vec s) i = Some x -> get_vec (E := E) i s = (Done x, s).
Proof. intros H. unfold get_vec. rewrite H. reflexivity. Qed.

Lemma in_range_spec l i : in_range l i = true <-> 0 <= i < Z.of_nat (length l).
Proof. unfold in_range. rewrite andb_true_iff, Z.leb_le, Z.ltb_lt. reflexivity. Qed.

Lemma set_scratch_done (s : sorting A W) i x : 0 <= i < Z.of_nat (length (s_scratch s)) ->
  set_scratch (E := E) i x s = (Done tt, Sorting (s_vec s) (<[Z.to_nat i := x]> (s_scratch s)) (s_world s)).
Proof. intros H. unfold set_scratch. rewrite (proj2 (in_range_spec _ _)) by exact H. reflexivity. Qed.

Lemma swap_done (s : sorting A W) i j x y : at_index (s_vec s) i = Some x -> at_index (s_vec s) j = Some y -> i <> j ->
  exists v, swap (E := E) i j s = (Done tt, Sorting v (s_scratch s) (s_world s)) /\ length v = length (s_vec s)
    /\ forall k, at_index v k = if decide (k = i) then Some y else if decide (k = j) then Some x else at_index (s_vec s) k.
Proof.
  intros Hx Hy Hne. pose proof (at_range _ _ _ Hx). pose proof (at_range _ _ _ Hy).
  eexists. split; [|split].
  - unfold swap. rewrite (bind_done _ _ _ _ _ (get_vec_done s i x Hx)), (bind_done _ _ _ _ _ (get_vec_done s j y Hy)).
    unfold bind, set_vec. rewrite (proj2 (in_range_spec _ _)) by lia. simpl.
    rewrite (proj2 (in_range_spec _ _)) by (rewrite length_insert; lia). reflexivity.
  - rewrite !length_insert. reflexivity.
  - intros k. rewrite !at_insert by (rewrite ?length_insert; lia).
    destruct (decide (k = j)), (decide (k = i)); try reflexivity; subst; congruence.
Qed.

Lemma copy_back_done (s : sorting A W) lo hi : 0 <= lo <= hi -> hi < Z.of_nat (length (s_vec s)) ->
  length (s_scratch s) = length (s_vec s) ->
  exists v, copy_back (E := E) lo hi s = (Done tt, Sorting v (s_scratch s) (s_world s)) /\ length v = length (s_vec s)
    /\ outside (s_vec s) v lo hi /\ forall k, lo <= k <= hi -> at_index v k = at_index (s_scratch s) k.
Proof.
  intros Hlo Hhi Hlen. unfold copy_back. rewrite !(proj2 (in_range_spec _ _)) by lia. simpl.
  eexists. split; [reflexivity|].
  set (v := s_vec s) in *. set (sc := s_scratch s) in *.
  assert (H1 : length (take (Z.to_nat lo) v) = Z.to_nat lo) by (rewrite length_take; lia).
  assert (H2 : length (take (Z.to_nat (hi - lo + 1)) (drop (Z.to_nat lo) sc)) = Z.to_nat (hi - lo + 1))
    by (rewrite length_take, length_drop; lia).
  split; [rewrite !length_app, H1, H2, length_drop; lia|]. split.
  - intros k Hk. unfold at_index. destruct (Z.leb_spec 0 k); [|reflexivity]. destruct Hk as [Hk|Hk].
    + rewrite lookup_app_l, lookup_take_lt by lia. reflexivity.
    + rewrite lookup_app_r, lookup_app_r, H1, H2, lookup_drop by lia. f_equal. lia.
  - intros k Hk. unfold at_index. rewrite (proj2 (Z.leb_le 0 k)) by lia.
    rewrite lookup_app_r, lookup_app_l, H1, lookup_take_lt, lookup_drop by lia. f_equal. lia.
Qed.

(** ** Merging *)

Section by_order.
Context (is_less : Z -> Z -> sorting A W -> result E bool * sorting A W).
Context (lt : A -> A -> bool) (agrees : Prop).

(** The comparison changes the world only, and if [agrees] it answers [lt]. *)
Definition comparison_ok : Prop := forall i j s x y,
  at_index (s_vec s) i = Some x -> at_index (s_vec s) j = Some y ->
  exists r w, is_less i j s = (r, Sorting (s_vec s) (s_scratch s) w)
    /\ r <> Broken /\ forall b, r = Done b -> agrees -> b = lt x y.

Context (Hless : comparison_ok).

(** The reference: the right element goes first only when it is smaller. *)
Fixpoint merge_list (l1 l2 : list A) : list A :=
  let fix go l2 :=
    match l1, l2 with
    | [], _ => l2
    | _, [] => l1
    | x :: l1', y :: l2' => if lt y x then y :: go l2' else x :: merge_list l1' l2
    end in go l2.

Lemma merge_list_nil_l l : merge_list [] l = l.
Proof. destruct l; reflexivity. Qed.

Lemma merge_list_nil_r l : merge_list l [] = l.
Proof. destruct l; reflexivity. Qed.

Lemma merge_list_cons x l1 y l2 :
  merge_list (x :: l1) (y :: l2) = if lt y x then y :: merge_list (x :: l1) l2 else x :: merge_list l1 (y :: l2).
Proof. reflexivity. Qed.

(** The scratch array holds the merged segments from [k] on. *)
Record merged (s : sorting A W) (r : result E unit) (s' : sorting A W) (mid hi i j k : Z) : Prop := Merged {
  mg_vec : s_vec s' = s_vec s;
  mg_length : length (s_scratch s') = length (s_scratch s);
  mg_outside : outside (s_scratch s) (s_scratch s') k hi;
  mg_result : r <> Broken;
  mg_perm : r = Done tt -> seg (s_scratch s') k hi ≡ₚ seg (s_vec s) i mid ++ seg (s_vec s) j hi;
  mg_order : r = Done tt -> agrees -> seg (s_scratch s') k hi = merge_list (seg (s_vec s) i mid) (seg (s_vec s) j hi);
}.

(** An element [x] written at [k], and the rest merged from [k + 1] on. *)
Lemma merged_step s w r s' mid hi i j i' j' k x :
  0 <= k <= hi -> hi < Z.of_nat (length (s_scratch s)) ->
  merged (Sorting (s_vec s) (<[Z.to_nat k := x]> (s_scratch s)) w) r s' mid hi i' j' (k + 1) ->
  x :: seg (s_vec s) i' mid ++ seg (s_vec s) j' hi ≡ₚ seg (s_vec s) i mid ++ seg (s_vec s) j hi ->
  (agrees -> merge_list (seg (s_vec s) i mid) (seg (s_vec s) j hi) = x :: merge_list (seg (s_vec s) i' mid) (seg (s_vec s) j' hi)) ->
  merged s r s' mid hi i j k.
Proof.
  intros Hk Hhi [M1 M2 M3 M4 M5 M6] Hp Ho. simpl in *. rewrite length_insert in M2.
  assert (Hx : at_index (s_scratch s') k = Some x).
  { rewrite (M3 k) by lia. rewrite at_insert by lia. destruct (decide (k = k)); congruence. }
  split; auto.
  - intros n Hn. rewrite (M3 n) by lia. rewrite at_insert by lia. destruct (decide (n = k)); [lia | reflexivity].
  - intros Hr. rewrite (seg_cons _ k hi x), M5 by (auto; lia). exact Hp.
  - intros Hr Ha. rewrite (seg_cons _ k hi x), M6, Ho by (auto; lia). reflexivity.
Qed.

Lemma merge_loop_spec n : forall mid hi i j k s,
  0 <= i <= mid + 1 -> 0 <= j <= hi + 1 -> 0 <= k -> Z.of_nat n = (mid - i + 1) + (hi - j + 1) -> hi = k + Z.of_nat n - 1 ->
  mid < Z.of_nat (length (s_vec s)) -> hi < Z.of_nat (length (s_vec s)) -> length (s_scratch s) = length (s_vec s) ->
  exists r s', merge_loop is_less n mid hi i j k s = (r, s') /\ merged s r s' mid hi i j k.
Proof.
  induction n as [|n IH]; intros mid hi i j k s Hi Hj Hk Hn Hhi Hm Hv Hlen.
  - exists (Done tt), s. split; [reflexivity|]. split; [reflexivity | reflexivity | intros n _; reflexivity | discriminate | |];
      intros; rewrite !seg_nil by lia; reflexivity.
  - cbn [merge_loop].
    (* writing one element and going on *)
    assert (Hleft : i <= mid -> forall x w, at_index (s_vec s) i = Some x ->
      exists r s', (bind (get_vec i) (fun x => bind (set_scratch k x) (fun _ => merge_loop is_less n mid hi (i + 1) j (k + 1))))
        (Sorting (s_vec s) (s_scratch s) w) = (r, s')
        /\ merged (Sorting (s_vec s) (<[Z.to_nat k := x]> (s_scratch s)) w) r s' mid hi (i + 1) j (k + 1)).
    { intros Him x w Hx. rewrite (bind_done _ _ _ x (Sorting (s_vec s) (s_scratch s) w)) by (apply get_vec_done; exact Hx).
      rewrite (bind_done _ _ _ tt _ (set_scratch_done (Sorting (s_vec s) (s_scratch s) w) k x ltac:(simpl; lia))). simpl.
      apply IH; simpl; rewrite ?length_insert; lia. }
    assert (Hright : j <= hi -> forall y w, at_index (s_vec s) j = Some y ->
      exists r s', (bind (get_vec j) (fun x => bind (set_scratch k x) (fun _ => merge_loop is_less n mid hi i (j + 1) (k + 1))))
        (Sorting (s_vec s) (s_scratch s) w) = (r, s')
        /\ merged (Sorting (s_vec s) (<[Z.to_nat k := y]> (s_scratch s)) w) r s' mid hi i (j + 1) (k + 1)).
    { intros Him x w Hx. rewrite (bind_done _ _ _ x (Sorting (s_vec s) (s_scratch s) w)) by (apply get_vec_done; exact Hx).
      rewrite (bind_done _ _ _ tt _ (set_scratch_done (Sorting (s_vec s) (s_scratch s) w) k x ltac:(simpl; lia))). simpl.
      apply IH; simpl; rewrite ?length_insert; lia. }
    destruct s as [vec scratch w]. simpl in *.
    destruct (Z.gtb_spec i mid) as [Him|Him]; [|destruct (Z.gtb_spec j hi) as [Hjh|Hjh]].
    + destruct (at_some vec j ltac:(lia)) as [y Hy]. destruct (Hright ltac:(lia) y w Hy) as (r & s' & E1 & M).
      exists r, s'. split; [exact E1|]. eapply merged_step; [lia | simpl; lia | exact M | |]; simpl;
        rewrite !(seg_nil _ i mid), (seg_cons _ j hi y) by (auto; lia); [reflexivity | intros _; rewrite !merge_list_nil_l; reflexivity].
    + destruct (at_some vec i ltac:(lia)) as [x Hx]. destruct (Hleft ltac:(lia) x w Hx) as (r & s' & E1 & M).
      exists r, s'. split; [exact E1|]. eapply merged_step; [lia | simpl; lia | exact M | |]; simpl;
        rewrite !(seg_nil _ j hi), (seg_cons _ i mid x) by (auto; lia); [reflexivity | intros _; rewrite !merge_list_nil_r; reflexivity].
    + destruct (at_some vec i ltac:(lia)) as [x Hx]. destruct (at_some vec j ltac:(lia)) as [y Hy].
      destruct (Hless j i (Sorting vec scratch w) y x Hy Hx) as (r & w' & E1 & Hr & Hb). simpl in E1.
      destruct r as [b|e|]; [|exists (Raised e); eexists; split; [apply (bind_raised _ _ _ _ _ E1)|] | congruence].
      2: { split; simpl; auto; try discriminate. intros n' _. reflexivity. }
      rewrite (bind_done _ _ _ _ _ E1). specialize (Hb b eq_refl).
      assert (Hord : agrees -> merge_list (seg vec i mid) (seg vec j hi) =
        if b then y :: merge_list (seg vec i mid) (seg vec (j + 1) hi) else x :: merge_list (seg vec (i + 1) mid) (seg vec j hi)).
      { intros Ha. rewrite (seg_cons vec i mid x), (seg_cons vec j hi y), merge_list_cons by (auto; lia). rewrite (Hb Ha). reflexivity. }
      destruct b.
      * destruct (Hright ltac:(lia) y w' Hy) as (r & s' & E2 & M). exists r, s'. split; [exact E2|].
        eapply merged_step; [lia | simpl; lia | exact M | | exact Hord]. simpl.
        rewrite (seg_cons vec j hi y) by (auto; lia). apply Permutation_middle.
      * destruct (Hleft ltac:(lia) x w' Hx) as (r & s' & E2 & M). exists r, s'. split; [exact E2|].
        eapply merged_step; [lia | simpl; lia | exact M | | exact Hord]. simpl.
        rewrite (seg_cons vec i mid x) by (auto; lia). reflexivity.
Qed.

(** ** Sorted and stable *)

(** A strict weak order. *)
Record weak_order : Prop := WeakOrder {
  wo_asym : forall x y, lt x y = true -> lt y x = false;
  wo_neg : forall x y z, lt x y = false -> lt y z = false -> lt x z = false;
}.

Definition le (x y : A) : Prop := lt y x = false.

Definition eqv (x y : A) : bool := negb (lt x y) && negb (lt y x).

(** The elements that are equivalent to [z], in order. *)
Abbreviation class z := (filter (fun y => eqv z y = true)).

(** [l'] is sorted, and equivalent elements are in the order of [l]. *)
Definition sorts l l' : Prop := StronglySorted le l' /\ forall z, class z l' = class z l.

Context (Hwo : agrees -> weak_order).

Lemma merge_list_perm l1 : forall l2, merge_list l1 l2 ≡ₚ l1 ++ l2.
Proof.
  induction l1 as [|x l1 IH1]; intros l2; [rewrite merge_list_nil_l; reflexivity|].
  induction l2 as [|y l2 IH2]; [rewrite merge_list_nil_r, app_nil_r; reflexivity|].
  rewrite merge_list_cons. destruct (lt y x); [rewrite IH2; apply Permutation_middle | rewrite IH1; reflexivity].
Qed.

Section laws.
Context (Hlaws : weak_order).

Lemma eqv_spec x y : eqv x y = true <-> lt x y = false /\ lt y x = false.
Proof. unfold eqv. rewrite andb_true_iff, !negb_true_iff. reflexivity. Qed.

Lemma lt_irreflexive x : lt x x = false.
Proof. destruct (lt x x) eqn:E1; [|reflexivity]. rewrite <- E1. apply (wo_asym Hlaws), E1. Qed.

Lemma merge_list_sorted l1 : StronglySorted le l1 -> forall l2, StronglySorted le l2 -> StronglySorted le (merge_list l1 l2).
Proof.
  induction 1 as [|x l1 H1 IH1 F1]; intros l2 H2; [rewrite merge_list_nil_l; exact H2|].
  induction H2 as [|y l2 H2 IH2 F2]; [rewrite merge_list_nil_r; constructor; assumption|].
  rewrite merge_list_cons. destruct (lt y x) eqn:Ey; constructor.
  - exact IH2.
  - rewrite merge_list_perm. constructor; [apply (wo_asym Hlaws), Ey|]. apply Forall_app. split; [|exact F2].
    apply (forall_mono _ _ _ F1). intros u Hu. apply (wo_neg Hlaws u x y); [exact Hu | apply (wo_asym Hlaws), Ey].
  - apply IH1. constructor; assumption.
  - rewrite merge_list_perm. apply Forall_app. split; [exact F1|]. constructor; [exact Ey|].
    apply (forall_mono _ _ _ F2). intros u Hu. apply (wo_neg Hlaws u y x); assumption.
Qed.

(** Nothing equivalent to an element that goes before a sorted list is in it. *)
Lemma class_before y x l z : StronglySorted le (x :: l) -> lt y x = true -> eqv z y = true -> class z (x :: l) = [].
Proof.
  intros Hs Hy Hz. apply StronglySorted_inv in Hs as [_ F].
  assert (H : Forall (fun u => eqv z u <> true) (x :: l)).
  { assert (Hx : forall u, lt u x = false -> eqv z u <> true).
    { intros u Hu Hzu. apply eqv_spec in Hz as [_ Hz], Hzu as [Hzu _].
      pose proof (wo_neg Hlaws y z u Hz Hzu) as Hyu. pose proof (wo_neg Hlaws y u x Hyu Hu). congruence. }
    constructor; [apply Hx, lt_irreflexive|]. apply (forall_mono _ _ _ F). intros u Hu. apply Hx, Hu. }
  induction H as [|u l' Hu _ IHl]; [reflexivity|]. rewrite filter_cons_False; assumption.
Qed.

Lemma merge_list_stable l1 : StronglySorted le l1 -> forall l2 z, class z (merge_list l1 l2) = class z l1 ++ class z l2.
Proof.
  induction 1 as [|x l1 H1 IH1 F1]; intros l2 z; [rewrite merge_list_nil_l; reflexivity|].
  induction l2 as [|y l2 IH2]; [rewrite merge_list_nil_r, app_nil_r; reflexivity|].
  rewrite merge_list_cons. destruct (lt y x) eqn:Ey.
  - rewrite !(filter_cons _ y), IH2. destruct (decide (eqv z y = true)) as [Hz|Hz]; [|reflexivity].
    rewrite (class_before y x l1 z) by (try assumption; constructor; assumption). reflexivity.
  - rewrite !(filter_cons _ x), IH1. destruct (decide (eqv z x = true)); reflexivity.
Qed.

Lemma sorts_merge l1 l2 l1' l2' : sorts l1 l1' -> sorts l2 l2' -> sorts (l1 ++ l2) (merge_list l1' l2').
Proof.
  intros [S1 C1] [S2 C2]. split; [apply merge_list_sorted; assumption|].
  intros z. rewrite merge_list_stable, C1, C2 by assumption. symmetry. apply list.filter_app.
Qed.

(** ** Two and three elements *)

Lemma class_swap x y z l : lt y x = true -> class z (y :: x :: l) = class z (x :: y :: l).
Proof.
  intros Hlt. rewrite !filter_cons. destruct (decide (eqv z y = true)) as [Hy|Hy], (decide (eqv z x = true)) as [Hx|Hx]; try reflexivity.
  exfalso. apply eqv_spec in Hy as [_ Hy], Hx as [Hx _]. pose proof (wo_neg Hlaws y z x Hy Hx). congruence.
Qed.

Lemma class_cons x l l' z : class z l = class z l' -> class z (x :: l) = class z (x :: l').
Proof. intros H. rewrite !filter_cons, H. reflexivity. Qed.
End laws.

(** What the exchanges of two and of three elements leave. *)
Definition two (x y : A) : list A := if lt y x then [y; x] else [x; y].

Definition three_end (x y z : A) : list A :=
  if lt y x then if lt z x then [y; z; x] else [y; x; z] else [x; y; z].

Definition three (x y z : A) : list A := if lt z y then three_end x z y else three_end x y z.

Lemma two_sorts (Hlaws : weak_order) x y : sorts [x; y] (two x y).
Proof.
  unfold two. destruct (lt y x) eqn:Eyx; split; try (intros w; apply class_swap; assumption); try reflexivity.
  - repeat constructor. apply (wo_asym Hlaws), Eyx.
  - repeat constructor. exact Eyx.
Qed.

Lemma three_end_sorts (Hlaws : weak_order) x y z : lt z y = false -> sorts [x; y; z] (three_end x y z).
Proof.
  intros Ezy. unfold three_end.
  destruct (lt y x) eqn:Eyx; [pose proof (wo_asym Hlaws _ _ Eyx); destruct (lt z x) eqn:Ezx; [pose proof (wo_asym Hlaws _ _ Ezx)|] |].
  - split; [repeat constructor; assumption|]. intros w. rewrite (class_cons y _ [x; z]) by (apply class_swap; assumption).
    apply class_swap; assumption.
  - split; [repeat constructor; assumption|]. intros w. apply class_swap; assumption.
  - split; [|reflexivity]. repeat constructor; try assumption. apply (wo_neg Hlaws z y x); assumption.
Qed.

Lemma three_sorts (Hlaws : weak_order) x y z : sorts [x; y; z] (three x y z).
Proof.
  unfold three. destruct (lt z y) eqn:Ezy; [|apply three_end_sorts; assumption].
  destruct (three_end_sorts Hlaws x z y (wo_asym Hlaws _ _ Ezy)) as [S1 C1]. split; [exact S1|].
  intros w. rewrite C1. apply class_cons. apply class_swap; assumption.
Qed.

(** ** The sort *)

(** The segment is rearranged, into [l] if the comparison agrees. *)
Record rearranged (s : sorting A W) (r : result E unit) (s' : sorting A W) (lo hi : Z) (good : list A -> Prop) : Prop := Rearranged {
  ra_length : length (s_vec s') = length (s_vec s);
  ra_scratch : length (s_scratch s') = length (s_scratch s);
  ra_outside : outside (s_vec s) (s_vec s') lo hi;
  ra_result : r <> Broken;
  ra_perm : seg (s_vec s') lo hi ≡ₚ seg (s_vec s) lo hi;
  ra_order : r = Done tt -> agrees -> good (seg (s_vec s') lo hi);
}.

Lemma seg_two l i x y : at_index l i = Some x -> at_index l (i + 1) = Some y -> seg l i (i + 1) = [x; y].
Proof. intros Hx Hy. rewrite (seg_cons _ _ _ x), (seg_one _ _ y) by (auto; lia). reflexivity. Qed.

Lemma seg_three l i x y z : at_index l i = Some x -> at_index l (i + 1) = Some y -> at_index l (i + 2) = Some z ->
  seg l i (i + 2) = [x; y; z].
Proof.
  intros Hx Hy Hz. rewrite (seg_cons _ _ _ x) by (auto; lia). replace (i + 2) with (i + 1 + 1) in * by lia.
  rewrite (seg_two _ _ y z) by auto. reflexivity.
Qed.

(** Nothing has changed but the world. *)
Lemma rearranged_same s r w lo hi good : r <> Broken -> (r = Done tt -> agrees -> good (seg (s_vec s) lo hi)) ->
  rearranged s r (Sorting (s_vec s) (s_scratch s) w) lo hi good.
Proof. intros Hr Hg. split; auto. intros k _. reflexivity. Qed.

(** Exchanging the elements at [i + 1] and [i]. *)
Lemma swap_next (s : sorting A W) i x y : at_index (s_vec s) i = Some x -> at_index (s_vec s) (i + 1) = Some y ->
  exists v, swap (E := E) (i + 1) i s = (Done tt, Sorting v (s_scratch s) (s_world s)) /\ length v = length (s_vec s)
    /\ at_index v i = Some y /\ at_index v (i + 1) = Some x
    /\ forall k, k <> i -> k <> i + 1 -> at_index v k = at_index (s_vec s) k.
Proof.
  intros Hx Hy. destruct (swap_done s (i + 1) i y x Hy Hx ltac:(lia)) as (v & E1 & Hl & Ha).
  exists v. split; [exact E1|]. split; [exact Hl|]. split; [|split; [|intros k H1 H2]]; rewrite Ha.
  - destruct (decide (i = i + 1)); [lia|]. destruct (decide (i = i)); congruence.
  - destruct (decide (i + 1 = i + 1)); congruence.
  - destruct (decide (k = i + 1)), (decide (k = i)); congruence || reflexivity.
Qed.

Lemma sort_two_spec s lo x y : at_index (s_vec s) lo = Some x -> at_index (s_vec s) (lo + 1) = Some y ->
  exists r s', sort_two is_less lo (lo + 1) s = (r, s') /\ s_scratch s' = s_scratch s
    /\ rearranged s r s' lo (lo + 1) (eq (two x y)).
Proof.
  intros Hx Hy. destruct (Hless (lo + 1) lo s y x Hy Hx) as (r & w & E1 & Hr & Hb). unfold sort_two.
  destruct r as [b|e|]; [|exists (Raised e); eexists; split; [apply (bind_raised _ _ _ _ _ E1)|]; split; [reflexivity|];
    apply rearranged_same; discriminate | congruence].
  rewrite (bind_done _ _ _ _ _ E1). specialize (Hb b eq_refl). destruct b.
  - destruct (swap_next (Sorting (s_vec s) (s_scratch s) w) lo x y Hx Hy) as (v & E2 & Hl & H1 & H2 & H3).
    rewrite (bind_done _ _ _ _ _ E2). replace (lo + 1 - lo >? 1) with false by (symmetry; lia).
    exists (Done tt), (Sorting v (s_scratch s) w). split; [reflexivity|]. split; [reflexivity|]. split; simpl; [exact Hl | reflexivity | | discriminate | |].
    + intros k Hk. apply H3; lia.
    + rewrite (seg_two v _ y x), (seg_two _ _ x y) by auto. apply perm_swap.
    + intros _ Ha. rewrite (seg_two v _ y x) by auto. unfold two. rewrite <- Hb by exact Ha. reflexivity.
  - exists (Done tt), (Sorting (s_vec s) (s_scratch s) w). split; [reflexivity|]. split; [reflexivity|].
    apply rearranged_same; [discriminate|]. intros _ Ha. rewrite (seg_two _ _ x y) by auto. unfold two.
    rewrite <- Hb by exact Ha. reflexivity.
Qed.

Lemma sort_two_of_three s lo x y z : at_index (s_vec s) lo = Some x -> at_index (s_vec s) (lo + 1) = Some y ->
  at_index (s_vec s) (lo + 2) = Some z ->
  exists r s', sort_two is_less lo (lo + 2) s = (r, s') /\ s_scratch s' = s_scratch s
    /\ rearranged s r s' lo (lo + 2) (eq (three_end x y z)).
Proof.
  intros Hx Hy Hz. destruct (Hless (lo + 1) lo s y x Hy Hx) as (r & w & E1 & Hr & Hb). unfold sort_two.
  destruct r as [b|e|]; [|exists (Raised e); eexists; split; [apply (bind_raised _ _ _ _ _ E1)|]; split; [reflexivity|];
    apply rearranged_same; discriminate | congruence].
  rewrite (bind_done _ _ _ _ _ E1). specialize (Hb b eq_refl). unfold three_end. destruct b.
  2: { exists (Done tt), (Sorting (s_vec s) (s_scratch s) w). split; [reflexivity|]. split; [reflexivity|].
    apply rearranged_same; [discriminate|]. intros _ Ha. rewrite (seg_three _ _ x y z) by auto.
    rewrite <- Hb by exact Ha. reflexivity. }
  destruct (swap_next (Sorting (s_vec s) (s_scratch s) w) lo x y Hx Hy) as (v & E2 & Hl & H1 & H2 & H3).
  rewrite (bind_done _ _ _ _ _ E2). replace (lo + 2 - lo >? 1) with true by (symmetry; lia). simpl in *.
  assert (H4 : at_index v (lo + 2) = Some z) by (rewrite H3 by lia; exact Hz).
  assert (Hrest : forall r w, r <> Broken -> (r = Done tt -> agrees -> three_end x y z = [y; x; z]) ->
    rearranged s r (Sorting v (s_scratch s) w) lo (lo + 2) (eq (three_end x y z))).
  { intros r w0 Hr' Hg. split; simpl; [exact Hl | reflexivity | | exact Hr' | |].
    - intros k Hk. apply H3; lia.
    - rewrite (seg_three v _ y x z), (seg_three _ _ x y z) by auto. apply perm_swap.
    - intros E3 Ha. rewrite (seg_three v _ y x z) by auto. auto. }
  destruct (Hless (lo + 2) (lo + 1) (Sorting v (s_scratch s) w) z x H4 H2) as (r & w2 & E3 & Hr2 & Hb2). simpl in *.
  destruct r as [b|e|]; [|exists (Raised e); eexists; split; [apply (bind_raised _ _ _ _ _ E3)|]; split; [reflexivity|];
    apply Hrest; discriminate | congruence].
  rewrite (bind_done _ _ _ _ _ E3). specialize (Hb2 b eq_refl). unfold three_end in Hrest. destruct b.
  - assert (H4' : at_index v (lo + 1 + 1) = Some z) by (rewrite <- H4; f_equal; lia).
    destruct (swap_next (Sorting v (s_scratch s) w2) (lo + 1) x z H2 H4') as (v2 & E4 & Hl2 & H5 & H6 & H7). simpl in *.
    replace (lo + 1 + 1) with (lo + 2) in * by lia.
    exists (Done tt), (Sorting v2 (s_scratch s) w2). split; [exact E4|]. split; [reflexivity|].
    assert (H8 : at_index v2 lo = Some y) by (rewrite H7 by lia; exact H1).
    split; simpl; [congruence | reflexivity | | discriminate | |].
    + intros k Hk. rewrite H7 by lia. apply H3; lia.
    + rewrite (seg_three v2 _ y z x), (seg_three _ _ x y z) by auto. apply (Permutation_app_comm [y; z] [x]).
    + intros _ Ha. rewrite (seg_three v2 _ y z x) by auto. rewrite <- Hb, <- Hb2 by exact Ha. reflexivity.
  - exists (Done tt), (Sorting v (s_scratch s) w2). split; [reflexivity|]. split; [reflexivity|].
    apply Hrest; [discriminate|]. intros _ Ha. rewrite <- Hb, <- Hb2 by exact Ha. reflexivity.
Qed.

Lemma outside_mono l l' lo hi lo' hi' : lo' <= lo -> hi <= hi' -> outside l l' lo hi -> outside l l' lo' hi'.
Proof. intros H1 H2 H k Hk. apply H. lia. Qed.

Lemma outside_trans l1 l2 l3 lo hi : outside l1 l2 lo hi -> outside l2 l3 lo hi -> outside l1 l3 lo hi.
Proof. intros H1 H2 k Hk. rewrite H2, H1 by exact Hk. reflexivity. Qed.

Lemma seg_widen l l' lo hi lo' hi' : outside l l' lo hi -> seg l' lo hi ≡ₚ seg l lo hi ->
  0 <= lo' <= lo -> lo - 1 <= hi <= hi' -> seg l' lo' hi' ≡ₚ seg l lo' hi'.
Proof.
  intros Ho Hp Hlo Hhi.
  assert (E1 : forall x, seg x lo' hi' = seg x lo' (lo - 1) ++ seg x lo hi ++ seg x (hi + 1) hi').
  { intros x. rewrite (seg_split x lo' (lo - 1) hi') by lia. replace (lo - 1 + 1) with lo by lia.
    rewrite (seg_split x lo hi hi') by lia. reflexivity. }
  rewrite !E1, Hp, (seg_ext l l' lo' (lo - 1)), (seg_ext l l' (hi + 1)) by (try lia; intros; apply Ho; lia). reflexivity.
Qed.

(** A part has been rearranged, which has not ended the sort. *)
Lemma rearranged_raised s r s' lo hi lo' hi' good good' : rearranged s r s' lo hi good -> r <> Done tt ->
  0 <= lo' <= lo -> lo - 1 <= hi <= hi' -> rearranged s r s' lo' hi' good'.
Proof.
  intros [R1 R2 R3 R4 R5 _] Hr Hlo Hhi. split; auto.
  - apply (outside_mono _ _ lo hi); auto; lia.
  - apply (seg_widen _ _ lo hi); auto.
  - contradiction.
Qed.

Lemma rearranged_trans s1 r1 s2 r s3 lo hi good1 good : rearranged s1 r1 s2 lo hi good1 -> rearranged s2 r s3 lo hi good ->
  rearranged s1 r s3 lo hi good.
Proof.
  intros [R1 R2 R3 R4 R5 _] [Q1 Q2 Q3 Q4 Q5 Q6]. split; [congruence | congruence | | exact Q4 | | exact Q6].
  - apply (outside_trans _ (s_vec s2)); auto.
  - rewrite Q5. exact R5.
Qed.

(** Two and three elements are not written to the scratch array. *)
Definition scratch_after (s s' : sorting A W) (r : result E unit) (lo hi : Z) : Prop := r = Done tt ->
  if (hi - lo =? 1) || (hi - lo =? 2) then s_scratch s' = s_scratch s else seg (s_scratch s') lo hi = seg (s_vec s') lo hi.

Definition sort_ok (fuel : nat) : Prop := forall lo hi s,
  0 <= lo <= hi -> hi < Z.of_nat (length (s_vec s)) -> length (s_scratch s) = length (s_vec s) -> hi - lo < Z.of_nat fuel ->
  exists r s', merge_sort is_less fuel lo hi s = (r, s')
    /\ rearranged s r s' lo hi (sorts (seg (s_vec s) lo hi)) /\ scratch_after s s' r lo hi.

Lemma sort_one_spec s lo x : at_index (s_vec s) lo = Some x -> length (s_scratch s) = length (s_vec s) ->
  exists s', bind (get_vec lo) (set_scratch (E := E) lo) s = (Done tt, s')
    /\ rearranged s (Done tt) s' lo lo (sorts (seg (s_vec s) lo lo)) /\ scratch_after s s' (Done tt) lo lo.
Proof.
  intros Hx Hlen. pose proof (at_range _ _ _ Hx). rewrite (bind_done _ _ _ _ _ (get_vec_done s lo x Hx)).
  rewrite set_scratch_done by lia. eexists. split; [reflexivity|]. split.
  - split; simpl; [reflexivity | apply length_insert | intros k _; reflexivity | discriminate | reflexivity |].
    intros _ _. rewrite (seg_one _ _ x) by exact Hx. split; [repeat constructor | reflexivity].
  - intros _. replace (lo - lo) with 0 by lia. simpl. rewrite (seg_one _ _ x), (seg_one _ _ x); auto.
    rewrite at_insert by lia. destruct (decide (lo = lo)); congruence.
Qed.

Lemma sort_pair_spec s lo x y : at_index (s_vec s) lo = Some x -> at_index (s_vec s) (lo + 1) = Some y ->
  exists r s', sort_two is_less lo (lo + 1) s = (r, s')
    /\ rearranged s r s' lo (lo + 1) (sorts (seg (s_vec s) lo (lo + 1))) /\ scratch_after s s' r lo (lo + 1).
Proof.
  intros Hx Hy. destruct (sort_two_spec s lo x y Hx Hy) as (r & s' & E1 & Hsc & [R1 R2 R3 R4 R5 R6]).
  exists r, s'. split; [exact E1|]. split.
  - split; auto. intros Hr Ha. rewrite <- R6, (seg_two _ _ x y) by auto. apply two_sorts, Hwo, Ha.
  - intros _. replace (lo + 1 - lo) with 1 by lia. exact Hsc.
Qed.

Lemma sort_three_spec s lo x y z : at_index (s_vec s) lo = Some x -> at_index (s_vec s) (lo + 1) = Some y ->
  at_index (s_vec s) (lo + 2) = Some z ->
  exists r s', bind (is_less (lo + 2) (lo + 2 - 1)) (fun c => bind (if c then swap (lo + 2) (lo + 2 - 1) else ret tt)
      (fun _ => sort_two is_less lo (lo + 2))) s = (r, s')
    /\ rearranged s r s' lo (lo + 2) (sorts (seg (s_vec s) lo (lo + 2))) /\ scratch_after s s' r lo (lo + 2).
Proof.
  intros Hx Hy Hz. replace (lo + 2 - 1) with (lo + 1) by lia.
  assert (Hsc : forall s' r, s_scratch s' = s_scratch s -> scratch_after s s' r lo (lo + 2)).
  { intros s' r Hs _. replace (lo + 2 - lo) with 2 by lia. exact Hs. }
  destruct (Hless (lo + 2) (lo + 1) s z y Hz Hy) as (r & w & E1 & Hr & Hb).
  destruct r as [b|e|]; [|exists (Raised e); eexists; split; [apply (bind_raised _ _ _ _ _ E1)|]; split;
    [apply rearranged_same; discriminate | apply Hsc; reflexivity] | congruence].
  rewrite (bind_done _ _ _ _ _ E1). specialize (Hb b eq_refl).
  assert (Hend : forall v a b c, length v = length (s_vec s) -> outside (s_vec s) v lo (lo + 2) ->
    at_index v lo = Some a -> at_index v (lo + 1) = Some b -> at_index v (lo + 2) = Some c -> [a; b; c] ≡ₚ [x; y; z] ->
    (agrees -> three x y z = three_end a b c) ->
    exists r s', sort_two is_less lo (lo + 2) (Sorting v (s_scratch s) w) = (r, s')
      /\ rearranged s r s' lo (lo + 2) (sorts (seg (s_vec s) lo (lo + 2))) /\ scratch_after s s' r lo (lo + 2)).
  { intros v x' y' z' Hl Ho H1 H2 H3 Hp Ht.
    destruct (sort_two_of_three (Sorting v (s_scratch s) w) lo x' y' z' H1 H2 H3) as (r & s' & E2 & Hs & [R1 R2 R3 R4 R5 R6]).
    simpl in *. exists r, s'. split; [exact E2|]. split; [|apply Hsc, Hs].
    split; [congruence | congruence | apply (outside_trans _ v); auto | exact R4 | |].
    - rewrite R5, (seg_three v _ x' y' z'), (seg_three _ _ x y z) by auto. exact Hp.
    - intros Hd Ha. rewrite <- R6, <- Ht, (seg_three _ _ x y z) by auto. apply three_sorts, Hwo, Ha. }
  destruct b.
  - replace (lo + 2) with (lo + 1 + 1) in Hz |- * by lia.
    destruct (swap_next (Sorting (s_vec s) (s_scratch s) w) (lo + 1) y z Hy Hz) as (v & E2 & Hl & H1 & H2 & H3). simpl in *.
    rewrite (bind_done _ _ _ _ _ E2). replace (lo + 1 + 1) with (lo + 2) in * by lia.
    apply (Hend v x z y); auto.
    + intros k Hk. apply H3; lia.
    + rewrite H3 by lia. exact Hx.
    + constructor. apply perm_swap.
    + intros Ha. unfold three. rewrite <- Hb by exact Ha. reflexivity.
  - rewrite (bind_done _ _ _ tt (Sorting (s_vec s) (s_scratch s) w)) by reflexivity.
    apply (Hend (s_vec s) x y z); auto; [intros k _; reflexivity|].
    intros Ha. unfold three. rewrite <- Hb by exact Ha. reflexivity.
Qed.

Lemma merge_halves_spec s lo mid hi : 0 <= lo -> lo <= mid < hi -> hi < Z.of_nat (length (s_vec s)) ->
  length (s_scratch s) = length (s_vec s) ->
  exists r s', bind (merge_loop is_less (Z.to_nat (hi - lo + 1)) mid hi lo (mid + 1) lo) (fun _ => copy_back lo hi) s = (r, s')
    /\ rearranged s r s' lo hi (eq (merge_list (seg (s_vec s) lo mid) (seg (s_vec s) (mid + 1) hi)))
    /\ (r = Done tt -> seg (s_scratch s') lo hi = seg (s_vec s') lo hi).
Proof.
  intros Hlo Hmid Hhi Hlen.
  destruct (merge_loop_spec (Z.to_nat (hi - lo + 1)) mid hi lo (mid + 1) lo s) as (r & s1 & E1 & [M1 M2 M3 M4 M5 M6]); try lia.
  destruct r as [[]|e|]; [|exists (Raised e), s1; split; [apply (bind_raised _ _ _ _ _ E1)|]; split; [|discriminate] | congruence].
  2: { split; auto; try (rewrite M1); try reflexivity; try discriminate. intros k _. reflexivity. }
  rewrite (bind_done _ _ _ _ _ E1).
  destruct (copy_back_done s1 lo hi) as (v & E2 & Hl & Ho & Hin); [lia | rewrite M1; lia | rewrite M1; congruence|].
  assert (Hseg : seg v lo hi = seg (s_scratch s1) lo hi) by (apply seg_ext; auto; lia).
  eexists _, _. split; [exact E2|]. split; [|intros _; simpl; symmetry; exact Hseg].
  rewrite M1 in Hl, Ho. split; simpl; [exact Hl | exact M2 | exact Ho | discriminate | |].
  - rewrite Hseg, M5 by reflexivity. rewrite <- seg_split by lia. reflexivity.
  - intros _ Ha. rewrite Hseg, M6 by auto. reflexivity.
Qed.

Lemma merge_sort_spec fuel : sort_ok fuel.
Proof.
  induction fuel as [|fuel IH]; intros lo hi s Hlo Hhi Hlen Hf; [lia|]. cbn [merge_sort].
  destruct (at_some (s_vec s) lo ltac:(lia)) as [x Hx].
  destruct (Z.eqb_spec (hi - lo) 0) as [E0|N0].
  { replace hi with lo by lia. destruct (sort_one_spec s lo x Hx Hlen) as (s' & E1 & H1). exists (Done tt), s'. auto. }
  destruct (at_some (s_vec s) (lo + 1) ltac:(lia)) as [y Hy].
  destruct (Z.eqb_spec (hi - lo) 2) as [E2|N2].
  { destruct (at_some (s_vec s) (lo + 2) ltac:(lia)) as [z Hz]. replace hi with (lo + 2) by lia.
    apply (sort_three_spec s lo x y z); auto. }
  destruct (Z.eqb_spec (hi - lo) 1) as [E1|N1].
  { replace hi with (lo + 1) by lia. apply (sort_pair_spec s lo x y); auto. }
  rewrite Z.quot_div_nonneg by lia. set (mid := (hi + lo) / 2).
  pose proof (Z.div_mod (hi + lo) 2 ltac:(lia)). pose proof (Z.mod_pos_bound (hi + lo) 2 ltac:(lia)).
  assert (Hmid : lo < mid < hi) by (unfold mid; lia).
  destruct (IH lo mid s ltac:(lia) ltac:(lia) Hlen ltac:(lia)) as (r1 & s1 & F1 & R1 & _).
  destruct r1 as [[]|e|]; [|exists (Raised e), s1; split; [apply (bind_raised _ _ _ _ _ F1)|]; split;
    [apply (rearranged_raised _ _ _ lo mid _ _ _ _ R1); [discriminate | lia | lia] | discriminate] | destruct (ra_result _ _ _ _ _ _ R1 eq_refl)].
  rewrite (bind_done _ _ _ _ _ F1).
  pose proof (ra_length _ _ _ _ _ _ R1) as L1. pose proof (ra_scratch _ _ _ _ _ _ R1) as C1.
  assert (W1 : rearranged s (Done tt) s1 lo hi (fun _ => True)).
  { destruct R1 as [Q1 Q2 Q3 Q4 Q5 _]. split; auto; [apply (outside_mono _ _ lo mid); auto; lia | apply (seg_widen _ _ lo mid); auto; lia]. }
  destruct (IH (mid + 1) hi s1 ltac:(lia) ltac:(lia) ltac:(congruence) ltac:(lia)) as (r2 & s2 & F2 & R2 & _).
  destruct r2 as [[]|e|]; [|exists (Raised e), s2; split; [apply (bind_raised _ _ _ _ _ F2)|]; split;
    [|discriminate] | destruct (ra_result _ _ _ _ _ _ R2 eq_refl)].
  2: { apply (rearranged_trans _ _ s1 _ _ _ _ _ _ W1).
       apply (rearranged_raised _ _ _ (mid + 1) hi _ _ _ _ R2); [discriminate | lia | lia]. }
  rewrite (bind_done _ _ _ _ _ F2).
  pose proof (ra_length _ _ _ _ _ _ R2) as L2. pose proof (ra_scratch _ _ _ _ _ _ R2) as C2.
  assert (W2 : rearranged s (Done tt) s2 lo hi (fun _ => True)).
  { apply (rearranged_trans _ _ s1 _ _ _ _ _ _ W1). destruct R2 as [Q1 Q2 Q3 Q4 Q5 _].
    split; auto; [apply (outside_mono _ _ (mid + 1) hi); auto; lia | apply (seg_widen _ _ (mid + 1) hi); auto; lia]. }
  destruct (merge_halves_spec s2 lo mid hi) as (r3 & s3 & F3 & R3 & Hsc); [lia | lia | lia | congruence|].
  exists r3, s3. split; [exact F3|]. split.
  - pose proof (rearranged_trans _ _ s2 _ _ _ _ _ _ W2 R3) as R. destruct R as [Q1 Q2 Q3 Q4 Q5 Q6]. split; auto.
    intros Hd Ha. rewrite <- Q6 by auto. rewrite (seg_split (s_vec s) lo mid hi) by lia.
    pose proof (ra_order _ _ _ _ _ _ R1 eq_refl Ha) as O1. pose proof (ra_order _ _ _ _ _ _ R2 eq_refl Ha) as O2.
    apply sorts_merge; [apply Hwo, Ha | |].
    + rewrite (seg_ext (s_vec s1) (s_vec s2) lo mid) by (try lia; intros; apply (ra_outside _ _ _ _ _ _ R2); lia). exact O1.
    + rewrite (seg_ext (s_vec s) (s_vec s1) (mid + 1) hi) in O2 by (try lia; intros; apply (ra_outside _ _ _ _ _ _ R1); lia).
      exact O2.
  - intros Hd. rewrite (proj2 (Z.eqb_neq _ 1)), (proj2 (Z.eqb_neq _ 2)) by lia. exact (Hsc Hd).
Qed.
End by_order.
End sorting.

(** ** Whole arrays *)

Section whole.
Context {A E W : Type}.
Implicit Types l : list A.

Lemma whole_sort (is_less : Z -> Z -> sorting A W -> result E bool * sorting A W) lt agrees void l w :
  comparison_ok is_less lt agrees -> (agrees -> weak_order lt) -> l <> [] ->
  exists r s', merge_sort is_less (S (length l)) 0 (Z.of_nat (length l) - 1) (Sorting l (replicate (length l) void) w) = (r, s')
    /\ r <> Broken /\ s_vec s' ≡ₚ l /\ (r = Done tt -> agrees -> sorts lt l (s_vec s'))
    /\ (r = Done tt -> if (length l =? 2)%nat || (length l =? 3)%nat then s_scratch s' = replicate (length l) void
                      else s_scratch s' = s_vec s').
Proof.
  intros Hless Hwo Hne. assert (Hpos : (0 < length l)%nat) by (destruct l; [congruence | simpl; lia]).
  destruct (merge_sort_spec is_less lt agrees Hless Hwo (S (length l)) 0 (Z.of_nat (length l) - 1)
    (Sorting l (replicate (length l) void) w)) as (r & s' & E1 & [R1 R2 R3 R4 R5 R6] & Hsc);
    simpl in *; rewrite ?length_replicate in *; try lia.
  assert (Hv : seg (s_vec s') 0 (Z.of_nat (length l) - 1) = s_vec s') by (rewrite <- R1; apply seg_whole).
  assert (Hs : seg (s_scratch s') 0 (Z.of_nat (length l) - 1) = s_scratch s') by (rewrite <- R2; apply seg_whole).
  rewrite Hv, seg_whole in *. exists r, s'. split; [exact E1|]. split; [exact R4|]. split; [exact R5|]. split; [exact R6|].
  intros Hr. specialize (Hsc Hr). simpl in Hsc. rewrite Hs, Hv in Hsc.
  destruct (Z.eqb_spec (Z.of_nat (length l) - 1 - 0) 1), (Z.eqb_spec (Z.of_nat (length l) - 1 - 0) 2),
    (Nat.eqb_spec (length l) 2), (Nat.eqb_spec (length l) 3); simpl in *; try lia; exact Hsc.
Qed.

(** ** The comparisons of the two sorts *)

Lemma compare_less_ok (cmp : A -> A -> Z) agrees :
  comparison_ok (E := E) (W := W) (compare_less cmp) (fun x y => cmp x y <? 0) agrees.
Proof.
  intros i j s x y Hx Hy. unfold compare_less.
  rewrite (bind_done _ _ _ _ _ (get_vec_done s i x Hx)), (bind_done _ _ _ _ _ (get_vec_done s j y Hy)).
  exists (Done (cmp x y <? 0)), (s_world s). destruct s. split; [reflexivity|]. split; [discriminate|].
  intros b E1 _. injection E1. auto.
Qed.

(** A procedure answers a relation, or a function, in every world. *)
Definition answers (less : A -> A -> W -> (bool + E) * W) (lt : A -> A -> bool) : Prop :=
  forall x y w, exists w', less x y w = (inl (lt x y), w').

Definition computes (key : A -> W -> (A + E) * W) (f : A -> A) : Prop := forall x w, exists w', key x w = (inl (f x), w').

Definition key_function (key : option (A -> W -> (A + E) * W)) (f : A -> A) : Prop :=
  match key with Some key => computes key f | None => forall x, f x = x end.

Lemma if_is_less_ok less key lt f :
  comparison_ok (if_is_less less key) (fun x y => lt (f x) (f y)) (answers less lt /\ key_function key f).
Proof.
  intros i j s x y Hx Hy. unfold if_is_less.
  assert (Hkey : forall x s, exists r w, apply_key key x s = (r, Sorting (s_vec s) (s_scratch s) w)
    /\ r <> Broken /\ forall a, r = Done a -> key_function key f -> a = f x).
  { intros a t. unfold apply_key. destruct key as [k|]; simpl.
    - unfold call. destruct (k a (s_world t)) as [[b|e] w] eqn:Ek.
      + exists (Done b), w. split; [reflexivity|]. split; [discriminate|]. intros c Ec Hf. injection Ec as <-.
        destruct (Hf a (s_world t)) as [w' Hw]. congruence.
      + exists (Raised e), w. split; [reflexivity|]. split; discriminate.
    - exists (Done a), (s_world t). destruct t. split; [reflexivity|]. split; [discriminate|]. intros c Ec Hf. rewrite Hf. congruence. }
  rewrite (bind_done _ _ _ _ _ (get_vec_done s i x Hx)).
  destruct (Hkey x s) as (r1 & w1 & E1 & N1 & A1).
  destruct r1 as [a|e|]; [|rewrite (bind_raised _ _ _ _ _ E1); eexists _, _; split; [reflexivity|]; split; discriminate | congruence].
  rewrite (bind_done _ _ _ _ _ E1).
  rewrite (bind_done _ _ _ y (Sorting (s_vec s) (s_scratch s) w1)) by (apply get_vec_done; exact Hy).
  destruct (Hkey y (Sorting (s_vec s) (s_scratch s) w1)) as (r2 & w2 & E2 & N2 & A2). simpl in E2.
  destruct r2 as [b|e|]; [|rewrite (bind_raised _ _ _ _ _ E2); eexists _, _; split; [reflexivity|]; split; discriminate | congruence].
  rewrite (bind_done _ _ _ _ _ E2). unfold call. simpl.
  destruct (less a b w2) as [[c|e] w3] eqn:E3; eexists _, _; (split; [reflexivity|]; split; [discriminate|]).
  - intros d Ed [Hl Hf]. injection Ed as <-. destruct (Hl a b w2) as [w' Hw].
    rewrite <- (A1 a eq_refl Hf), <- (A2 b eq_refl Hf). congruence.
  - discriminate.
Qed.

(** With procedures that answer, no exception is raised. *)
Definition never_raises (is_less : Z -> Z -> sorting A W -> result E bool * sorting A W) : Prop :=
  forall i j s e s', is_less i j s <> (Raised e, s').

Lemma if_is_less_answers less key lt f : answers less lt -> key_function key f -> never_raises (if_is_less less key).
Proof.
  intros Hl Hf i j s e s' E1. unfold if_is_less in E1.
  assert (Hkey : forall x s, exists s', apply_key key x s = (Done (f x), s')).
  { intros x t. unfold apply_key. destruct key as [k|]; simpl in *.
    - destruct (Hf x (s_world t)) as [w Hw]. unfold call. rewrite Hw. eauto.
    - rewrite Hf. eexists. reflexivity. }
  unfold bind, get_vec in E1. destruct (at_index (s_vec s) i) as [x|]; [|discriminate].
  destruct (Hkey x s) as [s1 E2]. rewrite E2 in E1.
  destruct (at_index (s_vec s1) j) as [y|]; [|discriminate].
  destruct (Hkey y s1) as [s2 E3]. rewrite E3 in E1. unfold call in E1.
  destruct (Hl (f x) (f y) (s_world s2)) as [w Hw]. rewrite Hw in E1. discriminate.
Qed.

(** ** No exceptions *)

Definition quiet {X} (m : sorting A W -> result E X * sorting A W) : Prop := forall s e s', m s <> (Raised e, s').

Lemma quiet_ret {X} (x : X) : quiet (ret x).
Proof. intros s e s' E1. discriminate. Qed.

Lemma quiet_bind {X Y} (m : sorting A W -> result E X * sorting A W) (f : X -> sorting A W -> result E Y * sorting A W) :
  quiet m -> (forall x, quiet (f x)) -> quiet (bind m f).
Proof.
  intros Hm Hf s e s' E1. unfold bind in E1. destruct (m s) as [[x|e'|] s1] eqn:Em; [eapply Hf, E1 | eapply Hm, Em | discriminate].
Qed.

Lemma quiet_get_vec i : quiet (get_vec i).
Proof. intros s e s' E1. unfold get_vec in E1. destruct (at_index (s_vec s) i); discriminate. Qed.

Lemma quiet_set_vec i x : quiet (set_vec i x).
Proof. intros s e s' E1. unfold set_vec in E1. destruct (in_range (s_vec s) i); discriminate. Qed.

Lemma quiet_set_scratch i x : quiet (set_scratch i x).
Proof. intros s e s' E1. unfold set_scratch in E1. destruct (in_range (s_scratch s) i); discriminate. Qed.

Lemma quiet_copy_back lo hi : quiet (copy_back lo hi).
Proof. intros s e s' E1. unfold copy_back in E1. destruct (_ && _ && _); discriminate. Qed.

Lemma quiet_swap i j : quiet (swap i j).
Proof.
  apply quiet_bind; [apply quiet_get_vec|]. intros x. apply quiet_bind; [apply quiet_get_vec|]. intros y.
  apply quiet_bind; [apply quiet_set_vec|]. intros _. apply quiet_set_vec.
Qed.

Create HintDb quiet.
#[local] Hint Resolve quiet_ret quiet_bind quiet_get_vec quiet_set_scratch quiet_copy_back quiet_swap : quiet.

Section never.
Context (is_less : Z -> Z -> sorting A W -> result E bool * sorting A W) (Hless : never_raises is_less).

Lemma quiet_less i j : quiet (is_less i j).
Proof. intros s e s'. apply Hless. Qed.

#[local] Hint Resolve quiet_less : quiet.

Lemma quiet_merge_loop n mid hi : forall i j k, quiet (merge_loop is_less n mid hi i j k).
Proof.
  induction n as [|n IH]; intros i j k; cbn [merge_loop]; [auto with quiet|].
  destruct (i >? mid); [auto 6 with quiet|]. destruct (j >? hi); [auto 6 with quiet|].
  apply quiet_bind; [auto with quiet|]. intros [|]; auto 6 with quiet.
Qed.

Lemma quiet_sort_two lo hi : quiet (sort_two is_less lo hi).
Proof.
  unfold sort_two. apply quiet_bind; [auto with quiet|]. intros [|]; [|auto with quiet].
  apply quiet_bind; [auto with quiet|]. intros _. destruct (hi - lo >? 1); [|auto with quiet].
  apply quiet_bind; [auto with quiet|]. intros [|]; auto with quiet.
Qed.

#[local] Hint Resolve quiet_merge_loop quiet_sort_two : quiet.

Lemma quiet_merge_sort fuel : forall lo hi, quiet (merge_sort is_less fuel lo hi).
Proof.
  induction fuel as [|fuel IH]; intros lo hi; cbn [merge_sort]; [intros s e s' E1; discriminate|].
  destruct (hi - lo =? 0); [auto with quiet|]. destruct (hi - lo =? 2).
  - apply quiet_bind; [auto with quiet|]. intros c. apply quiet_bind; [destruct c; auto with quiet | auto with quiet].
  - destruct (hi - lo =? 1); auto 8 with quiet.
Qed.
End never.

Lemma compare_less_never (cmp : A -> A -> Z) : never_raises (compare_less cmp).
Proof.
  intros i j. apply quiet_bind; [apply quiet_get_vec|]. intros x. apply quiet_bind; [apply quiet_get_vec|].
  intros y. apply quiet_ret.
Qed.

(** ** Reversal *)

Lemma vector_nreverse_loop_spec fuel : forall (s : sorting A W) i j, i + j = Z.of_nat (length (s_vec s)) - 1 -> 0 <= i ->
  j - i < 2 * Z.of_nat fuel ->
  exists v, vector_nreverse_loop (E := E) fuel i j s = (Done tt, Sorting v (s_scratch s) (s_world s)) /\ length v = length (s_vec s)
    /\ forall k, at_index v k = if decide (i <= k <= j) then at_index (s_vec s) (i + j - k) else at_index (s_vec s) k.
Proof.
  induction fuel as [|fuel IH]; intros s i j Hij Hi Hf.
  - exists (s_vec s). split; [destruct s; reflexivity|]. split; [reflexivity|]. intros k.
    destruct (decide (i <= k <= j)); [lia | reflexivity].
  - cbn [vector_nreverse_loop]. destruct (Z.ltb_spec i j) as [Hlt|Hge].
    2: { exists (s_vec s). split; [destruct s; reflexivity|]. split; [reflexivity|]. intros k.
         destruct (decide (i <= k <= j)); [f_equal; lia | reflexivity]. }
    destruct (at_some (s_vec s) i ltac:(lia)) as [x Hx]. destruct (at_some (s_vec s) j ltac:(lia)) as [y Hy].
    destruct (swap_done (E := E) s i j x y Hx Hy ltac:(lia)) as (v & E1 & Hl & Hv). rewrite (bind_done _ _ _ _ _ E1).
    destruct (IH (Sorting v (s_scratch s) (s_world s)) (i + 1) (j - 1)) as (v2 & E2 & Hl2 & Hv2); simpl; try lia.
    exists v2. split; [exact E2|]. simpl in *. split; [congruence|]. intros k. rewrite Hv2.
    destruct (decide (i + 1 <= k <= j - 1)), (decide (i <= k <= j)); try lia; rewrite Hv;
      repeat match goal with |- context [decide ?P] => destruct (decide P) end; try lia; subst;
      try reflexivity; try (rewrite <- Hx || rewrite <- Hy; f_equal; lia); f_equal; lia.
Qed.

Lemma at_rev l k : at_index (rev l) k = if decide (0 <= k <= Z.of_nat (length l) - 1) then at_index l (Z.of_nat (length l) - 1 - k) else None.
Proof.
  unfold at_index. destruct (decide (0 <= k <= Z.of_nat (length l) - 1)).
  - rewrite !(proj2 (Z.leb_le 0 _)) by lia. replace (rev l) with (reverse l) by (unfold reverse; rewrite rev_append_rev; apply app_nil_r).
    rewrite reverse_lookup by lia. f_equal. lia.
  - destruct (Z.leb_spec 0 k); [|reflexivity]. apply lookup_ge_None_2. rewrite length_rev. lia.
Qed.

Lemma vector_nreverse_spec (s : sorting A W) :
  sexp_vector_nreverse (E := E) s = (Done tt, Sorting (rev (s_vec s)) (s_scratch s) (s_world s)).
Proof.
  unfold sexp_vector_nreverse.
  destruct (vector_nreverse_loop_spec (length (s_vec s)) s 0 (Z.of_nat (length (s_vec s)) - 1)) as (v & E1 & Hl & Hv); try lia.
  rewrite E1. do 2 f_equal. apply at_ext; [rewrite length_rev; exact Hl|]. intros k. rewrite Hv, at_rev.
  destruct (decide (0 <= k <= Z.of_nat (length (s_vec s)) - 1)) as [Hk|Hk]; [f_equal; lia|].
  unfold at_index. destruct (Z.leb_spec 0 k); [|reflexivity]. apply lookup_ge_None_2. lia.
Qed.
End whole.

(** ** [sort!] *)

Section sort.
Context {A E W : Type} (cmp : A -> A -> Z) (void : A).
Implicit Types l : list A.

(** The order that a comparison and a key stand for, when the procedures answer,
    and whether the result is reversed. *)
Inductive order_of : @less_arg A E W -> @key_arg A E W -> (A -> A -> bool) -> bool -> Prop :=
| order_basic : order_of NoLess NoKey (fun x y => cmp x y <? 0) false
| order_opcode inverse f : order_of (OpcodeLess inverse f) NoKey (fun x y => cmp x y <? 0) inverse
| order_procedure f lt : answers f lt -> order_of (ProcLess f) NoKey lt false
| order_key less f lt key kf : less = ProcLess f \/ (exists inverse, less = OpcodeLess inverse f) ->
    answers f lt -> computes key kf -> order_of less (ProcKey key) (fun x y => lt (kf x) (kf y)) false.

(** The sort is done by the basic comparison. *)
Definition basic_sort (less : @less_arg A E W) (key : @key_arg A E W) : Prop :=
  key = NoKey /\ (less = NoLess \/ exists inverse f, less = OpcodeLess inverse f).

(** The state at the start, and the runs of the two sorts. *)
Definition sort_start l (w : W) : sorting A W := Sorting l (replicate (length l) void) w.

Definition basic_run l (inverse : bool) (w : W) : result E (list A) * sorting A W :=
  returning s_vec (bind (sexp_merge_sort (E := E) cmp (S (length l)) 0 (Z.of_nat (length l) - 1))
    (fun _ => if inverse then sexp_vector_nreverse else ret tt) (sort_start l w)).

Definition general_run l (f : A -> A -> W -> (bool + E) * W) (k : option (A -> W -> (A + E) * W)) (w : W)
    : result E (list A) * sorting A W :=
  returning s_scratch (sexp_merge_sort_less f k (S (length l)) 0 (Z.of_nat (length l) - 1) (sort_start l w)).

(** No access is outside of an array, and the elements stay the same. *)
Definition intact l (r : result E (list A) * sorting A W) : Prop :=
  match r with (Broken, _) => False | (_, s) => s_vec s ≡ₚ l end.

Lemma general_intact l f k w : l <> [] -> intact l (general_run l f k w).
Proof.
  intros Hne. unfold general_run, sort_start, sexp_merge_sort_less.
  destruct (whole_sort (if_is_less f k) (fun _ _ => false) False void l w) as (r & s' & E1 & N & P & _);
    [| intros [] | exact Hne | rewrite E1; destruct r; [exact P | exact P | congruence]].
  intros i j s x y Hx Hy. destruct (if_is_less_ok f k (fun _ _ => false) (fun x => x) i j s x y Hx Hy) as (r & w' & H1 & H2 & _).
  exists r, w'. split; [exact H1|]. split; [exact H2|]. intros b _ [].
Qed.

Lemma basic_intact l inverse w : l <> [] -> intact l (basic_run l inverse w).
Proof.
  intros Hne. unfold basic_run, sort_start, sexp_merge_sort.
  destruct (whole_sort (compare_less (E := E) cmp) _ False void l w (compare_less_ok cmp False)) as (r & s' & E1 & N & P & _);
    [intros [] | exact Hne |]. unfold bind. rewrite E1. destruct r as [[]|e|]; [|exact P | congruence].
  destruct inverse; [|exact P]. rewrite vector_nreverse_spec. simpl. rewrite <- P. symmetry. apply Permutation_rev.
Qed.

(** [sort_vector] leaves a permutation, whatever the procedures are. *)
Lemma sort_vector_safe l (less : @less_arg A E W) (key : @key_arg A E W) (w : W) : l <> [] ->
  match sort_vector cmp void l less key w with Some r => intact l r | None => True end.
Proof.
  intros Hne. destruct key as [|k|], less as [|inverse f|f|]; try exact I;
    solve [apply (general_intact l _ _ w Hne) | exact (basic_intact l false w Hne) | exact (basic_intact l inverse w Hne)].
Qed.

Lemma basic_run_ordered l inverse w : l <> [] -> weak_order (fun x y => cmp x y <? 0) ->
  exists s, basic_run l inverse w = (Done (s_vec s), s) /\ s_vec s ≡ₚ l
    /\ sorts (fun x y => cmp x y <? 0) l (if inverse then rev (s_vec s) else s_vec s).
Proof.
  intros Hne Hcmp. unfold basic_run, sort_start, sexp_merge_sort.
  destruct (whole_sort (compare_less (E := E) cmp) _ True void l w (compare_less_ok cmp True)) as (r & s' & E1 & N & P & O & _);
    [auto | exact Hne |]. unfold bind. rewrite E1.
  destruct r as [[]|e|]; [|destruct (quiet_merge_sort _ (compare_less_never cmp) _ _ _ _ _ _ E1) | congruence].
  specialize (O eq_refl I). destruct inverse; [|eexists; auto].
  rewrite vector_nreverse_spec. eexists. split; [reflexivity|]. simpl. rewrite rev_involutive.
  split; [rewrite <- P; symmetry; apply Permutation_rev | exact O].
Qed.

(** The lengths for which the scratch vector is not filled. *)
Definition small l : bool := (length l =? 2)%nat || (length l =? 3)%nat.

Lemma general_run_ordered l f k lt kf w : l <> [] -> answers f lt -> key_function k kf ->
  weak_order (fun x y => lt (kf x) (kf y)) ->
  exists s, general_run l f k w = (Done (if small l then replicate (length l) void else s_vec s), s) /\ s_vec s ≡ₚ l
    /\ sorts (fun x y => lt (kf x) (kf y)) l (s_vec s).
Proof.
  intros Hne Ha Hk Hw. unfold general_run, sort_start, sexp_merge_sort_less, small.
  destruct (whole_sort (if_is_less f k) _ _ void l w (if_is_less_ok f k lt kf)) as (r & s' & E1 & N & P & O & Sc);
    [auto | exact Hne |]. rewrite E1.
  destruct r as [[]|e|]; [|destruct (quiet_merge_sort _ (if_is_less_answers f k lt kf Ha Hk) _ _ _ _ _ _ E1) | congruence].
  exists s'. specialize (Sc eq_refl). split; [|split; [exact P | apply O; auto]]. simpl.
  destruct ((length l =? 2)%nat || (length l =? 3)%nat); rewrite Sc; reflexivity.
Qed.

Lemma sort_vector_ordered l less key lt inverse (w : W) : l <> [] -> order_of less key lt inverse -> weak_order lt ->
  exists res (s : sorting A W), sort_vector cmp void l less key w = Some (Done res, s) /\ s_vec s ≡ₚ l
    /\ sorts lt l (if inverse then rev (s_vec s) else s_vec s)
    /\ (basic_sort less key \/ small l = false -> res = s_vec s)
    /\ (~ basic_sort less key -> small l = true -> res = replicate (length l) void).
Proof.
  intros Hne Ho Hwo. destruct Ho as [|inv f|f lt Ha|less f lt key kf Hless Ha Hk].
  - destruct (basic_run_ordered l false w Hne Hwo) as (s & E1 & P & O). exists (s_vec s), s. rewrite <- E1.
    do 4 (split; [auto|]). intros H. destruct H. split; auto.
  - destruct (basic_run_ordered l inv w Hne Hwo) as (s & E1 & P & O). exists (s_vec s), s. rewrite <- E1.
    do 4 (split; [auto|]). intros H. destruct H. split; eauto.
  - destruct (general_run_ordered l f None lt (fun x => x) w Hne Ha (fun _ => eq_refl) Hwo) as (s & E1 & P & O).
    eexists _, s. rewrite <- E1. do 3 (split; [auto|]). split; [|intros _ ->; reflexivity].
    intros [[_ [H|(i & g & H)]]| ->]; [discriminate.. | reflexivity].
  - destruct (general_run_ordered l f (Some key) lt kf w Hne Ha Hk Hwo) as (s & E1 & P & O). eexists _, s. rewrite <- E1.
    split; [destruct Hless as [-> | [i ->]]; reflexivity|]. do 2 (split; [auto|]). split; [|intros _ ->; reflexivity].
    intros [[H _]| ->]; [discriminate | reflexivity].
Qed.

Definition elements (seq : @sequence A) : list A :=
  match seq with ListSeq l | VectorSeq l => l | _ => [] end.

(** The arguments that are a type error. *)
Definition wrong_type (seq : @sequence A) (less : @less_arg A E W) (key : @key_arg A E W) : Prop :=
  match seq, less, key with
  | EmptySeq, _, _ => False
  | OtherSeq, _, _ | _, OtherLess, _ | _, _, OtherKey | _, NoLess, ProcKey _ => True
  | _, _, _ => False
  end.

(** C23 (functional).  [sort!] with procedures that answer a strict weak order: it
    ends with the elements of the argument sorted and stable (for a comparison
    like [>], which is the basic order reversed, this holds of the reversal).  A
    list is sorted in place and is the result.  A vector is sorted in place, but
    what is returned has its elements only when the sort is the basic one or the
    length is not 2 or 3; else a vector of that many unspecified values is
    returned. *)
Theorem sort_correct l less key lt inverse (w : W) : l <> [] -> order_of less key lt inverse -> weak_order lt ->
  exists res l' w',
    sexp_sort_x cmp void (VectorSeq l) less key w = (Sorted_ res l', w')
    /\ sexp_sort_x cmp void (ListSeq l) less key w = (Sorted_ l' l', w')
    /\ l' ≡ₚ l /\ sorts lt l (if inverse then rev l' else l')
    /\ (basic_sort less key \/ small l = false -> res = l')
    /\ (~ basic_sort less key -> small l = true -> res = replicate (length l) void).
Proof.
  intros Hne Ho Hwo. destruct (sort_vector_ordered l less key lt inverse w Hne Ho Hwo) as (res & s & E1 & P & O & R & R').
  exists res, (s_vec s), (s_world s). unfold sexp_sort_x. rewrite E1. auto 10.
Qed.

(** C24 (safety).  [sort!] with any procedures, which may answer anything, change
    the world and raise exceptions: no access is outside of the arrays, the
    recursion ends, and afterwards the argument has the same elements, also when
    an exception ended the sort.  It is a type error exactly for arguments of
    the wrong types. *)
Theorem sort_safe seq (less : @less_arg A E W) (key : @key_arg A E W) (w : W) : seq <> ListSeq [] -> seq <> VectorSeq [] ->
  match sexp_sort_x cmp void seq less key w with
  | (Sorted_ _ seq', _) | (SortRaised _ seq', _) => seq' ≡ₚ elements seq /\ ~ wrong_type seq less key
  | (SortType, w') => wrong_type seq less key /\ w' = w
  | (SortBroken, _) => False
  end.
Proof.
  intros Hl Hv. destruct seq as [|l|l|]; simpl; [auto | | | auto];
    (assert (Hne : l <> []) by congruence; pose proof (sort_vector_safe l less key w Hne) as Hs;
     destruct key as [|k|], less as [|inverse f|f|]; simpl in *; unfold sort_vector in *; auto;
     match type of Hs with intact _ ?r => change (intact l r) in Hs; destruct r as [[res|e|] s]; simpl in Hs; auto end).
Qed.

(** The general sort of a vector with two or three elements does not
    fill the scratch vector, which is the result: the elements are in the
    argument only, and the result is a vector of void objects. *)
Theorem small_vector_sort_lost l less key lt (w : W) : small l = true -> order_of less key lt false -> ~ basic_sort less key ->
  weak_order lt ->
  exists l' w', sexp_sort_x cmp void (VectorSeq l) less key w = (Sorted_ (replicate (length l) void) l', w')
    /\ l' ≡ₚ l /\ sorts lt l l'.
Proof.
  intros Hsm Ho Hb Hwo. assert (Hne : l <> []) by (intros ->; discriminate).
  destruct (sort_vector_ordered l less key lt false w Hne Ho Hwo) as (res & s & E1 & P & O & _ & R).
  exists (s_vec s), (s_world s). unfold sexp_sort_x. rewrite E1, (R Hb Hsm). auto.
Qed.
End sort.

(** ** Examples *)

Section examples.

(** A procedure that answers a comparison and counts its calls. *)
Definition counting (lt : Z -> Z -> bool) (x y : Z) (w : nat) : (bool + unit) * nat := (inl (lt x y), S w).

Lemma counting_answers lt : answers (counting lt) lt.
Proof. intros x y w. exists (S w). reflexivity. Qed.

(** Integers by their absolute value: an order with equivalent elements. *)
Definition abs_lt (x y : Z) : bool := Z.abs x <? Z.abs y.

Lemma abs_lt_order : weak_order abs_lt.
Proof. split; unfold abs_lt; intros; zcases; lia || congruence. Qed.

Lemma sort_correct_witness : exists res l' w',
  sexp_sort_x Z.sub 0 (VectorSeq [3; -1; 2; 1; -3]) (ProcLess (counting abs_lt)) NoKey 0%nat = (Sorted_ res l', w')
  /\ sexp_sort_x Z.sub 0 (ListSeq [3; -1; 2; 1; -3]) (ProcLess (counting abs_lt)) NoKey 0%nat = (Sorted_ l' l', w')
  /\ l' ≡ₚ [3; -1; 2; 1; -3] /\ sorts abs_lt [3; -1; 2; 1; -3] l'
  /\ (basic_sort (ProcLess (counting abs_lt)) NoKey \/ small [3; -1; 2; 1; -3] = false -> res = l')
  /\ (~ basic_sort (ProcLess (counting abs_lt)) NoKey -> small [3; -1; 2; 1; -3] = true -> res = replicate 5 0).
Proof.
  apply (sort_correct Z.sub 0 [3; -1; 2; 1; -3] (ProcLess (counting abs_lt)) NoKey abs_lt false 0%nat);
    [discriminate | constructor; apply counting_answers | apply abs_lt_order].
Defined.

(** A procedure that raises an exception in its third call. *)
Definition raising (x y : Z) (w : nat) : (bool + unit) * nat := (if (w =? 2)%nat then inr tt else inl (x <? y), S w).

Lemma sort_safe_witness :
  match sexp_sort_x Z.sub 0 (VectorSeq [4; 3; 2; 1; 0]) (ProcLess raising) NoKey 0%nat with
  | (Sorted_ _ seq', _) | (SortRaised _ seq', _) =>
      seq' ≡ₚ [4; 3; 2; 1; 0] /\ ~ wrong_type (VectorSeq [4; 3; 2; 1; 0]) (ProcLess raising) NoKey
  | (SortType, w') => wrong_type (VectorSeq [4; 3; 2; 1; 0]) (ProcLess raising) NoKey /\ w' = 0%nat
  | (SortBroken, _) => False
  end.
Proof.
  apply (sort_safe Z.sub 0 (VectorSeq [4; 3; 2; 1; 0]) (ProcLess raising) NoKey 0%nat); discriminate.
Defined.

Lemma small_vector_sort_lost_witness : exists l' w',
  sexp_sort_x Z.sub 0 (VectorSeq [3; -1; 2]) (ProcLess (counting abs_lt)) NoKey 0%nat = (Sorted_ [0; 0; 0] l', w')
  /\ l' ≡ₚ [3; -1; 2] /\ sorts abs_lt [3; -1; 2] l'.
Proof.
  apply (small_vector_sort_lost Z.sub 0 [3; -1; 2] (ProcLess (counting abs_lt)) NoKey abs_lt 0%nat);
    [reflexivity | constructor; apply counting_answers | | apply abs_lt_order].
  intros [_ [H|(i & f & H)]]; discriminate.
Defined.

Example sort_example :
  sexp_sort_x Z.sub 0 (ListSeq [3; -1; 2; 1; -3]) (ProcLess (counting abs_lt)) NoKey 0%nat
  = (Sorted_ [-1; 1; 2; 3; -3] [-1; 1; 2; 3; -3], 8%nat).
Proof. vm_compute. reflexivity. Qed.
End examples.
