(* ===== verification/Threads.v ===== *)
(** * Threads

    [lib/srfi/18/threads.c]: green threads over the virtual machine.  The queue
    of the threads that can run and the list of the paused ones are chains of
    pairs, in a store of cells here, with the pointers [FRONT], [BACK] and
    [PAUSED] that the functions and the scheduler update in place.  A thread is
    a context, by its address; its stack and registers are not part of the
    model.  The time, and what [poll] reports, are arguments. *)
From S2P Require Import Prelude.
From stdpp Require Import base list option gmap.
#[local] Open Scope Z_scope.

(** ** State *)

Abbreviation thread := positive.
Abbreviation cell := positive.

(** [struct timeval] *)
Record timeval := Timeval { tv_sec : Z; tv_usec : Z }.

#[global] Instance timeval_eq_dec : EqDecision timeval.
Proof. solve_decision. Defined.

(** The objects that events, slots of mutexes and results can be. *)
Inductive value :=
| VFalse | VTrue | VTerminateError
| VThread (t : thread) | VMutex (m : positive) | VCondvar (c : positive)
| VPort (p : positive) (fd : Z) (output : bool) | VFileno (p : positive) (fd : Z)
| VFixnum (z : Z) | VObject (p : positive).

#[global] Instance value_eq_dec : EqDecision value.
Proof. solve_decision. Defined.

(** The fields of a context that threads use; a [NULL] field is [None]. *)
Record context := Context {
  refuel : Z;
  errorp : bool;
  waitp : bool;
  timeoutp : bool;
  event : value;
  result : option value;
  tval : timeval;
  child : option thread;
}.

(** The slots [thread] and [lock] of a mutex. *)
Record mutex := Mutex { mutex_thread : option value; mutex_lockp : value }.

Record pollfd := Pollfd { fd : Z; events : Z; revents : bool }.

(** [SEXP_G_THREADS_SIGNAL_RUNNER]: the environment of the library, with
    whether it has the procedure; the thread; or neither. *)
Inductive runner := RunnerEnv (found : bool) | RunnerThread (t : thread) | NoRunner.

Record store := Store {
  contexts : gmap thread context;
  mutexes : gmap positive mutex;
  signals : Z;
  signal_runner : runner;
  signal_handlers : list value;
  poll_fds : list pollfd;
}.

(** [cells]: the [car] and [cdr] of pairs; any [cdr] that is no pair is
    [None]. *)
Record world := World {
  st : store;
  cells : gmap cell (thread * option cell);
  front : option cell;
  back : option cell;
  paused : option cell;
}.

(** An access to an address that is not there, or a loop that has not ended
    with the fuel, is [None]. *)
Definition M (A : Type) : Type := world -> option (A * world).

#[global] Instance M_ret : MRet M := fun A a w => Some (a, w).
#[global] Instance M_bind : MBind M := fun A B f m w =>
  match m w with Some (a, w) => f a w | None => None end.

Definition fail {A} : M A := fun _ => None.

(** ** Fields *)

Definition get_st {A} (f : store -> A) : M A := fun w => Some (f (st w), w).

Definition set_st (f : store -> store) : M unit := fun w =>
  Some (tt, World (f (st w)) (cells w) (front w) (back w) (paused w)).

Definition put_context (t : thread) (c : context) (s : store) : store :=
  Store (<[t := c]> (contexts s)) (mutexes s) (signals s) (signal_runner s) (signal_handlers s) (poll_fds s).
Definition put_mutex (m : positive) (x : mutex) (s : store) : store :=
  Store (contexts s) (<[m := x]> (mutexes s)) (signals s) (signal_runner s) (signal_handlers s) (poll_fds s).
Definition put_signals (z : Z) (s : store) : store :=
  Store (contexts s) (mutexes s) z (signal_runner s) (signal_handlers s) (poll_fds s).
Definition put_runner (r : runner) (s : store) : store :=
  Store (contexts s) (mutexes s) (signals s) r (signal_handlers s) (poll_fds s).
Definition put_poll_fds (l : list pollfd) (s : store) : store :=
  Store (contexts s) (mutexes s) (signals s) (signal_runner s) (signal_handlers s) l.

Definition get_context (t : thread) : M context := fun w =>
  match contexts (st w) !! t with Some c => Some (c, w) | None => None end.
Definition get_mutex (m : positive) : M mutex := fun w =>
  match mutexes (st w) !! m with Some x => Some (x, w) | None => None end.

Definition set_context (t : thread) (f : context -> context) : M unit :=
  c ← get_context t; set_st (put_context t (f c)).

Definition set_refuel (z : Z) (c : context) : context :=
  Context z (errorp c) (waitp c) (timeoutp c) (event c) (result c) (tval c) (child c).
Definition set_errorp (b : bool) (c : context) : context :=
  Context (refuel c) b (waitp c) (timeoutp c) (event c) (result c) (tval c) (child c).
Definition set_waitp (b : bool) (c : context) : context :=
  Context (refuel c) (errorp c) b (timeoutp c) (event c) (result c) (tval c) (child c).
Definition set_timeoutp (b : bool) (c : context) : context :=
  Context (refuel c) (errorp c) (waitp c) b (event c) (result c) (tval c) (child c).
Definition set_event (v : value) (c : context) : context :=
  Context (refuel c) (errorp c) (waitp c) (timeoutp c) v (result c) (tval c) (child c).
Definition set_result (v : value) (c : context) : context :=
  Context (refuel c) (errorp c) (waitp c) (timeoutp c) (event c) (Some v) (tval c) (child c).
Definition set_tval (t : timeval) (c : context) : context :=
  Context (refuel c) (errorp c) (waitp c) (timeoutp c) (event c) (result c) t (child c).

(** ** Pairs *)

Definition car (l : cell) : M thread := fun w =>
  match cells w !! l with Some (t, _) => Some (t, w) | None => None end.
Definition cdr (l : cell) : M (option cell) := fun w =>
  match cells w !! l with Some (_, d) => Some (d, w) | None => None end.

Definition put_cells (f : gmap cell (thread * option cell) -> gmap cell (thread * option cell)) : M unit := fun w =>
  Some (tt, World (st w) (f (cells w)) (front w) (back w) (paused w)).

Definition set_car (l : cell) (t : thread) : M unit := d ← cdr l; put_cells <[l := (t, d)]>.
Definition set_cdr (l : cell) (d : option cell) : M unit := t ← car l; put_cells <[l := (t, d)]>.

Definition cons (t : thread) (d : option cell) : M cell := fun w =>
  let l := fresh (dom (cells w)) in
  Some (l, World (st w) (<[l := (t, d)]> (cells w)) (front w) (back w) (paused w)).

Definition get_front : M (option cell) := fun w => Some (front w, w).
Definition get_back : M (option cell) := fun w => Some (back w, w).
Definition get_paused : M (option cell) := fun w => Some (paused w, w).
Definition set_front (l : option cell) : M unit := fun w => Some (tt, World (st w) (cells w) l (back w) (paused w)).
Definition set_back (l : option cell) : M unit := fun w => Some (tt, World (st w) (cells w) (front w) l (paused w)).
Definition set_paused (l : option cell) : M unit := fun w => Some (tt, World (st w) (cells w) (front w) (back w) l).

(** The loops over lists take one step for each pair and one for the end. *)
Definition list_fuel : M nat := fun w => Some (S (size (cells w)), w).

(** [for ( ; sexp_pairp(ls2) && p(sexp_car(ls2)); ls1=ls2, ls2=sexp_cdr(ls2))] *)
Fixpoint scan (p : thread -> M bool) (fuel : nat) (ls1 ls2 : option cell) : M (option cell * option cell) :=
  match fuel with
  | O => fail
  | S fuel =>
      match ls2 with
      | None => mret (ls1, ls2)
      | Some l =>
          t ← car l;
          go ← p t;
          if go : bool then d ← cdr l; scan p fuel ls2 d else mret (ls1, ls2)
      end
  end.

(** ** Threads *)

Definition SEXP_DEFAULT_QUANTUM : Z := 500.

(** The context of a new thread. *)
Definition sexp_make_thread : M thread := fun w =>
  let t := fresh (dom (contexts (st w))) in
  match set_st (put_context t (Context SEXP_DEFAULT_QUANTUM false false false VFalse None (Timeval 0 0) None)) w with
  | Some (_, w) => Some (t, w)
  | None => None
  end.

Definition sexp_thread_timeoutp (ctx : thread) : M bool := c ← get_context ctx; mret (timeoutp c).
Definition sexp_thread_exceptionp (thread : thread) : M bool := c ← get_context thread; mret (errorp c).
(** No result is [SEXP_VOID]. *)
Definition sexp_thread_end_result (thread : thread) : M (option value) := c ← get_context thread; mret (result c).

Definition sexp_thread_start (thread : thread) : M unit :=
  set_context thread (set_errorp false);;
  cell ← cons thread None;
  b ← get_back;
  match b with
  | Some b => set_cdr b (Some cell);; set_back (Some cell)
  | None => set_front (Some cell);; set_back (Some cell)
  end.

(** [if (ls1) sexp_cdr(ls1) = d; else PAUSED = d] *)
Definition link_paused (ls1 d : option cell) : M unit :=
  match ls1 with Some l1 => set_cdr l1 d | None => set_paused d end.

(** [sexp_delete_list], of the paused threads. *)
Definition sexp_delete_list (x : thread) : M bool :=
  ls ← get_paused;
  n ← list_fuel;
  '(ls1, ls2) ← scan (fun t => mret (bool_decide (t <> x))) n None ls;
  match ls2 with
  | Some l2 => d ← cdr l2; link_paused ls1 d;; mret true
  | None => mret false
  end.

Fixpoint terminate_loop (fuel : nat) (ctx : thread) (thread : option thread) : M unit :=
  match fuel, thread with
  | O, _ => fail
  | _, None => mret tt
  | S fuel, Some t =>
      c ← get_context ctx;
      (if refuel c >? 0 then
         set_context t (set_errorp true);;
         set_context t (set_result VTerminateError);;
         set_context t (set_refuel 0)
       else mret tt);;
      deleted ← sexp_delete_list t;
      (if deleted : bool then sexp_thread_start t else mret tt);;
      c ← get_context t;
      terminate_loop fuel ctx (child c)
  end.

(** True for the current thread, which then yields. *)
Definition sexp_thread_terminate (ctx thread : thread) : M bool :=
  n ← get_st (fun s => size (contexts s));
  terminate_loop (S n) ctx (Some thread);;
  mret (bool_decide (ctx = thread)).

(** ** Timeouts *)

(** [timeval_le], which is strict. *)
Definition timeval_le (a b : timeval) : bool :=
  (tv_sec a <? tv_sec b) || (tv_sec a =? tv_sec b) && (tv_usec a <? tv_usec b).

Definition sexp_context_before (c : context) (t : timeval) : bool :=
  (negb (tv_sec (tval c) =? 0) || negb (tv_usec (tval c) =? 0)) && timeval_le (tval c) t.

(** A timeout: a fixnum, the whole and fractional part of a flonum or ratio (in
    seconds and microseconds), a bignum, a thread whose time to take, or any
    other object. *)
Inductive timeout := Seconds (z : Z) | Fraction (sec usec : Z) | BigSeconds | TimeOf (t : thread) | Forever.

Definition sexp_realp (t : timeout) : bool :=
  match t with Seconds _ | Fraction _ _ | BigSeconds => true | _ => false end.
Definition sexp_contextp (t : timeout) : bool := match t with TimeOf _ => true | _ => false end.

(** The time when a thread has waited long enough. *)
Definition deadline (now : timeval) (timeout : timeout) : M timeval :=
  match timeout with
  | Seconds z => mret (Timeval (tv_sec now + z) (tv_usec now))
  | Fraction sec usec =>
      let s := tv_sec now + sec in
      let u := tv_usec now + usec in
      mret (if u >? 1000000 then Timeval (s + 1) (u - 1000000) else Timeval s u)
  | TimeOf t => c ← get_context t; mret (tval c)
  | BigSeconds | Forever => mret (Timeval 0 0)
  end.

Definition sexp_insert_timed (now : timeval) (thread : thread) (timeout : timeout) : M unit :=
  sexp_delete_list thread;;
  ls2 ← get_paused;
  n ← list_fuel;
  d ← deadline now timeout;
  set_context thread (set_tval d);;
  '(ls1, ls2) ←
    (if sexp_realp timeout || sexp_contextp timeout then
       scan (fun t => c ← get_context t; mret (sexp_context_before c d)) n None ls2
     else
       scan (fun t => c ← get_context t; mret (negb (tv_sec (tval c) =? 0))) n None ls2);
  l ← cons thread ls2;
  link_paused ls1 (Some l).

(** [sexp_context_waitp(ctx) = 1; sexp_context_event(ctx) = event;] and the
    insertion. *)
Definition wait_for (now : timeval) (ctx : thread) (v : value) (timeout : timeout) : M unit :=
  set_context ctx (set_waitp true);;
  set_context ctx (set_event v);;
  sexp_insert_timed now ctx timeout.

Definition sexp_thread_join (now : timeval) (ctx thread : thread) (timeout : timeout) : M bool :=
  c ← get_context thread;
  if refuel c <=? 0 then mret true
  else
    set_context ctx (set_timeoutp false);;
    wait_for now ctx (VThread thread) timeout;;
    mret false.

(** The timeout [#t] is [None]; another object that is no real number is a type
    error, after [waitp] is set. *)
Definition sexp_thread_sleep (now : timeval) (ctx : thread) (timeout : option timeout) : M (option bool) :=
  set_context ctx (set_waitp true);;
  match timeout with
  | None => mret (Some false)
  | Some timeout =>
      if sexp_realp timeout then
        set_context ctx (set_event VFalse);;
        sexp_insert_timed now ctx timeout;;
        mret (Some false)
      else mret None
  end.

(** ** Mutexes and condition variables *)

(** Abandoned is a [NULL] thread, which no function stores. *)
Inductive mutex_state := Owned (t : thread) | NotOwned | NotAbandoned | Abandoned.

Definition sexp_mutex_state (mutex : positive) : M mutex_state :=
  m ← get_mutex mutex;
  mret (if bool_decide (mutex_lockp m = VFalse) then
          match mutex_thread m with Some _ => NotAbandoned | None => Abandoned end
        else match mutex_thread m with Some (VThread t) => Owned t | _ => NotOwned end).

(** The argument [thread] is [#t] for the current thread. *)
Definition sexp_mutex_lock (now : timeval) (ctx : thread) (mutex : positive) (timeout : timeout) (thread : value) : M bool :=
  let thread := if bool_decide (thread = VTrue) then VThread ctx else thread in
  m ← get_mutex mutex;
  if bool_decide (mutex_lockp m = VFalse) then
    set_st (put_mutex mutex (Mutex (Some thread) VTrue));;
    mret true
  else
    wait_for now ctx (VMutex mutex) timeout;;
    mret false.

(** The first paused thread that waits for [v] goes to the front of the queue. *)
Definition wake_first (v : value) : M bool :=
  ls2 ← get_paused;
  n ← list_fuel;
  '(ls1, ls2) ← scan (fun t => c ← get_context t; mret (bool_decide (event c <> v))) n None ls2;
  match ls2 with
  | None => mret false
  | Some l2 =>
      d ← cdr l2;
      link_paused ls1 d;;
      f ← get_front;
      set_cdr l2 f;;
      set_front (Some l2);;
      d ← cdr l2;
      (match d with None => set_back (Some l2) | Some _ => mret tt end);;
      t ← car l2;
      set_context t (set_timeoutp false);;
      set_context t (set_waitp false);;
      mret true
  end.

(** [condvar] is [None] for [#f]. *)
Definition sexp_mutex_unlock (now : timeval) (ctx : thread) (mutex : positive) (condvar : option positive)
    (timeout : timeout) : M bool :=
  m ← get_mutex mutex;
  (if bool_decide (mutex_lockp m = VFalse) then mret tt
   else
     set_st (put_mutex mutex (Mutex (Some (VThread ctx)) VFalse));;
     wake_first (VMutex mutex);;
     mret tt);;
  match condvar with
  | Some c => wait_for now ctx (VCondvar c) timeout;; mret false
  | None => mret true
  end.

Definition sexp_condition_variable_signal (condvar : positive) : M bool := wake_first (VCondvar condvar).

Fixpoint broadcast_loop (fuel : nat) (condvar : positive) (res : bool) : M bool :=
  match fuel with
  | O => fail
  | S fuel =>
      woken ← sexp_condition_variable_signal condvar;
      if woken : bool then broadcast_loop fuel condvar true else mret res
  end.

Definition sexp_condition_variable_broadcast (condvar : positive) : M bool :=
  n ← list_fuel;
  broadcast_loop n condvar false.

(** ** Signals *)

Definition sexp_log2_lookup : list Z :=
  [0; 1; 28; 2; 29; 14; 24; 3; 30; 22; 20; 15; 25; 17; 4; 8;
   31; 27; 13; 23; 21; 19; 16; 7; 26; 12; 18; 6; 11; 5; 10; 9].

Definition sexp_log2_of_pow2 (n : Z) : option Z :=
  sexp_log2_lookup !! Z.to_nat (Z.shiftr (u32 (u32 n * 125613361)) 27).

(** The signals are a set of bits in a C [int]. *)
Definition sexp_pop_signal : M value :=
  z ← get_st signals;
  if z =? 0 then mret VFalse
  else
    let allsigs := swrap 32 z in
    let restsigs := Z.land allsigs (swrap 32 (allsigs - 1)) in
    set_st (put_signals restsigs);;
    match sexp_log2_of_pow2 (swrap 32 (allsigs - restsigs)) with
    | Some signum => mret (VFixnum signum)
    | None => fail
    end.

Definition sexp_get_signal_handler (signum : Z) : M value := fun w =>
  match signal_handlers (st w) !! Z.to_nat signum with Some h => Some (h, w) | None => None end.

(** ** File descriptors *)

Definition POLLIN : Z := 1.
Definition POLLOUT : Z := 4.

(** The array grows as needed.  True if the descriptor was there. *)
Fixpoint insert_pollfd (f e : Z) (l : list pollfd) : list pollfd * bool :=
  match l with
  | [] => ([Pollfd f e false], false)
  | p :: l =>
      if fd p =? f then (Pollfd f (Z.lor (events p) e) (revents p) :: l, true)
      else let '(l, b) := insert_pollfd f e l in (p :: l, b)
  end.

Definition sexp_insert_pollfd (f e : Z) : M bool :=
  l ← get_st poll_fds;
  let '(l, b) := insert_pollfd f e l in
  set_st (put_poll_fds l);; mret b.

(** Other objects are a type error. *)
Definition sexp_blocker (now : timeval) (ctx : thread) (portorfd : value) (timeout : timeout) : M bool :=
  match
    match portorfd with
    | VPort _ f _ | VFileno _ f | VFixnum f => Some f
    | _ => None
    end
  with
  | None => mret false
  | Some f =>
      let output := match portorfd with VPort _ _ output => output | _ => false end in
      (if f >=? 0 then sexp_insert_pollfd f (if output then POLLOUT else POLLIN);; mret tt else mret tt);;
      wait_for now ctx portorfd timeout;;
      mret true
  end.

(** ** The scheduler *)

(** The locals [front] and [paused] of [sexp_scheduler] are arguments and
    results of its parts. *)
Definition check_signals (front : option cell) : M (option cell) :=
  z ← get_st signals;
  if z =? 0 then mret front
  else
    r ← get_st signal_runner;
    match r with
    | RunnerThread t =>
        c ← get_context t;
        if waitp c then set_context t (set_waitp false);; sexp_thread_start t;; mret front
        else mret front
    | RunnerEnv found =>
        if found : bool then
          t ← sexp_make_thread;
          set_st (put_runner (RunnerThread t));;
          sexp_thread_start t;;
          match front with None => get_front | Some _ => mret front end
        else mret front
    | NoRunner => mret front
    end.

(** Appending a cell to the queue; the local [front] follows. *)
Definition enqueue (front : option cell) (l : cell) : M (option cell) :=
  b ← get_back;
  front ← (match b with
           | None => set_front (Some l);; mret (Some l)
           | Some b => set_cdr b (Some l);; mret front
           end);
  set_back (Some l);;
  mret front.

(** Unlinking a cell of the paused threads; the local [paused] follows. *)
Definition unlink (paused ls1 : option cell) (l2 : cell) : M (option cell) :=
  d ← cdr l2;
  match ls1 with
  | None => set_paused d;; mret d
  | Some l1 => set_cdr l1 d;; mret paused
  end.

(** The two loops that move paused threads to the queue: [wakes] tells them by
    their event, and [skip] is a thread that is not queued. *)
Fixpoint wake_loop (wakes : value -> bool) (update : context -> context) (skip : option thread) (fuel : nat)
    (front paused ls1 ls2 : option cell) : M (option cell * option cell) :=
  match fuel with
  | O => fail
  | S fuel =>
      match ls2 with
      | None => mret (front, paused)
      | Some l2 =>
          t ← car l2;
          c ← get_context t;
          if wakes (event c) then
            set_context t update;;
            paused ← unlink paused ls1 l2;
            tmp ← cdr l2;
            set_cdr l2 None;;
            front ← (if bool_decide (skip = Some t) then mret front else enqueue front l2);
            wake_loop wakes update skip fuel front paused ls1 tmp
          else
            d ← cdr l2;
            wake_loop wakes update skip fuel front paused ls2 d
      end
  end.

Definition fd_event (f : Z) (evt : value) : bool :=
  match evt with VPort _ f' _ => f' =? f | VFixnum z => z =? f | _ => false end.

Definition woken (c : context) : context := set_timeoutp false (set_waitp false c).

(** The last descriptor takes the place of the one removed. *)
Definition remove_pollfd (i : nat) (l : list pollfd) : list pollfd :=
  match last l with
  | Some p => take (length l - 1) (if (i <? length l - 1)%nat then <[i := p]> l else l)
  | None => l
  end.

(** [for (i=num_fds-1; i>=0 && k>0; --i)], for [i + 1] descriptors. *)
Fixpoint poll_loop (ctx : thread) (n : nat) (k : Z) (front paused : option cell) : M (option cell * option cell) :=
  match n with
  | O => mret (front, paused)
  | S i =>
      if k >? 0 then
        l ← get_st poll_fds;
        match l !! i with
        | None => fail
        | Some p =>
            if revents p then
              c ← get_context ctx;
              (if fd_event (fd p) (event c) then set_context ctx (fun c => set_event VFalse (woken c)) else mret tt);;
              n ← list_fuel;
              '(front, paused) ←
                wake_loop (fd_event (fd p)) (fun c => set_event VFalse (woken c)) (Some ctx) n front paused None paused;
              l ← get_st poll_fds;
              set_st (put_poll_fds (remove_pollfd i l));;
              poll_loop ctx i (k - 1) front paused
            else poll_loop ctx i k front paused
        end
      else mret (front, paused)
  end.

(** [poll]: the number it returns, and the descriptors that are ready. *)
Definition check_fds (poll : list pollfd -> Z * list bool) (ctx : thread) (front paused : option cell)
    : M (option cell * option cell) :=
  l ← get_st poll_fds;
  if (0 <? length l)%nat then
    let '(k, ready) := poll l in
    set_st (put_poll_fds (imap (fun i p => Pollfd (fd p) (events p) (default false (ready !! i))) l));;
    poll_loop ctx (length l) k front paused
  else mret (front, paused).

Definition check_joins (ctx : thread) (front paused : option cell) : M (option cell * option cell) :=
  c ← get_context ctx;
  if refuel c <=? 0 then
    n ← list_fuel;
    wake_loop (fun v => bool_decide (v = VThread ctx)) woken None n front paused None paused
  else mret (front, paused).

(** The paused threads whose time has come move to the queue in one piece. *)
Fixpoint timeout_loop (now : timeval) (fuel : nat) (ls1 ls2 : option cell) : M (option cell * option cell) :=
  match fuel with
  | O => fail
  | S fuel =>
      match ls2 with
      | None => mret (ls1, ls2)
      | Some l =>
          t ← car l;
          c ← get_context t;
          if sexp_context_before c now then
            set_context t (set_timeoutp true);;
            set_context t (set_waitp false);;
            d ← cdr l;
            timeout_loop now fuel ls2 d
          else mret (ls1, ls2)
      end
  end.

Definition check_timeouts (now : timeval) (front paused : option cell) : M (option cell * option cell) :=
  match paused with
  | None => mret (front, paused)
  | Some first =>
      n ← list_fuel;
      '(ls1, ls2) ← timeout_loop now n None paused;
      match ls1 with
      | None => mret (front, paused)
      | Some l1 =>
          set_cdr l1 None;;
          b ← get_back;
          front ← (match b with
                   | None => set_front paused;; mret paused
                   | Some b => set_cdr b paused;; mret front
                   end);
          set_back ls1;;
          set_paused ls2;;
          mret (front, ls2)
      end
  end.

(** [sexp_memq] of a thread in a list. *)
Definition memq (x : thread) (ls : option cell) : M bool :=
  n ← list_fuel;
  '(_, ls2) ← scan (fun t => mret (bool_decide (t <> x))) n None ls;
  mret (bool_decide (ls2 <> None)).

(** The next thread, and the local [paused]. *)
Definition dequeue (now : timeval) (ctx : thread) (front paused : option cell) : M (thread * option cell) :=
  c ← get_context ctx;
  match front with
  | Some f =>
      res ← car f;
      if (refuel c <=? 0) || waitp c then
        d ← cdr f;
        set_front d;;
        (match d with None => set_back None | Some _ => mret tt end);;
        in_paused ← memq ctx paused;
        (if (refuel c >? 0) && negb in_paused then sexp_insert_timed now ctx Forever else mret tt);;
        paused ← get_paused;
        mret (res, paused)
      else
        (g ← get_front; match g with Some g => set_car g ctx | None => fail end);;
        (b ← get_back; g ← get_front; match b with Some b => set_cdr b g | None => fail end);;
        (g ← get_front; match g with Some g => d ← cdr g; set_front d | None => fail end);;
        (b ← get_back; match b with Some b => d ← cdr b; set_back d | None => fail end);;
        (b ← get_back; match b with Some b => set_cdr b None | None => fail end);;
        mret (res, paused)
  | None =>
      if refuel c <=? 0 then
        n ← list_fuel;
        '(_, ls) ← scan (fun t => c ← get_context t;
                       mret (negb match event c with VFixnum _ | VPort _ _ _ => true | _ => false end)) n None paused;
        match ls with Some l => t ← car l; mret (t, paused) | None => mret (ctx, paused) end
      else mret (ctx, paused)
  end.

(** The thread found is waiting: it is left, or changed for the first paused
    one, and its time comes closer while the process sleeps.  The result is the
    thread and the microseconds slept. *)
Definition nap (now1 now2 : timeval) (res : thread) (paused : option cell) : M (thread * Z) :=
  c ← get_context res;
  if waitp c then
    first ← (match paused with
             | Some l => t ← car l; p ← get_context t; d ← cdr l;
                         mret (if sexp_context_before p (tval c) then Some (t, d) else None)
             | None => mret None
             end);
    res ← (match first with
           | Some (t, d) =>
               set_paused d;;
               in_paused ← memq res d;
               (if in_paused : bool then mret tt else sexp_insert_timed now1 res (TimeOf res));;
               mret t
           | None => sexp_delete_list res;; mret res
           end);
    c ← get_context res;
    let t := tval c in
    if (tv_sec t =? 0) && (tv_usec t =? 0) then mret (res, 10 * 1000)
    else
      let usecs :=
        if tv_sec now2 <=? tv_sec t then
          let u := (tv_sec t - tv_sec now2) * 1000000 in
          if (tv_usec now2 <? tv_usec t) || (u >? 0) then u + (tv_usec t - tv_usec now2) else u
        else 0 in
      if usecs >? 10 * 1000 then mret (res, 10 * 1000)
      else
        set_context res (set_waitp false);;
        set_context res (set_timeoutp true);;
        mret (res, usecs)
  else mret (res, 0).

(** [now1] and [now2] are the times at the two calls of [gettimeofday]. *)
Definition sexp_scheduler (poll : list pollfd -> Z * list bool) (now1 now2 : timeval) (ctx : thread) : M (thread * Z) :=
  front ← get_front;
  paused ← get_paused;
  front ← check_signals front;
  '(front, paused) ← check_fds poll ctx front paused;
  '(front, paused) ← check_joins ctx front paused;
  '(front, paused) ← check_timeouts now1 front paused;
  '(res, paused) ← dequeue now1 ctx front paused;
  nap now1 now2 res paused.

(** ** The machine *)

(** The turn of the loop of [sexp_apply] when the fuel is used up: the scheduler
    chooses a thread, and the loop goes on with it.  A thread that is out of
    fuel for good ends; one that still waits comes back here. *)
Inductive turn := Runs (t : thread) | Ends (t : thread) | Waits (t : thread).

Definition take_turn (poll : list pollfd -> Z * list bool) (now1 now2 : timeval) (ctx : thread) : M turn :=
  '(t, _) ← sexp_scheduler poll now1 now2 ctx;
  c ← get_context t;
  mret (if refuel c <=? 0 then Ends t else if waitp c then Waits t else Runs t).

(** [end_loop] in a thread that is not the root: the result is the top of its
    stack, and it never gets fuel again. *)
Definition end_thread (ctx : thread) (top : value) : M unit :=
  set_context ctx (set_result top);;
  set_context ctx (set_refuel 0).
