(* ===== verification/Signals.v ===== *)
(** * Pending signals

    The set of signals of [Threads] and the choice of the next one. *)
From S2P Require Import Prelude Threads.
From stdpp Require Import base list option gmap.
#[local] Open Scope Z_scope.

(** ** The lowest bit *)

Lemma odd_part z : z <> 0 -> exists n k, 0 <= n /\ z = 2 ^ n * (2 * k + 1).
Proof.
  remember (Z.to_nat (Z.abs z)) as m eqn:Em. revert z Em. induction (lt_wf m) as [m _ IH]. intros z -> Hz.
  destruct (Z.odd z) eqn:Eo.
  - exists 0, (z / 2). split; [lia|]. rewrite Z.pow_0_r. apply Z.odd_spec in Eo as [k ->]. rewrite Z.add_comm, Z.mul_comm, Z.div_add by lia. change (1 / 2) with 0. lia.
  - assert (He : Z.even z = true) by (rewrite <- Z.negb_odd, Eo; reflexivity). apply Z.even_spec in He as [y ->].
    destruct (IH (Z.to_nat (Z.abs y))) with (z := y) as (n & k & Hn & ->); [lia | reflexivity | lia |].
    exists (n + 1), k. split; [lia|]. rewrite Z.pow_add_r by lia. lia.
Qed.

(** Clearing the lowest bit. *)
Lemma land_pred n k : 0 <= n -> let z := 2 ^ n * (2 * k + 1) in Z.land z (z - 1) = z - 2 ^ n.
Proof.
  intros Hn z. assert (Ez : z - 2 ^ n = Z.shiftl k (n + 1)).
  { unfold z. rewrite Z.shiftl_mul_pow2, Z.pow_add_r by lia. lia. }
  assert (E1 : z - 1 = Z.lor (Z.shiftl k (n + 1)) (Z.ones n)).
  { rewrite <- Z.lxor_lor, <- Z.add_nocarry_lxor; [rewrite <- Ez, Z.ones_equiv; lia | |]; apply Z.bits_inj'; intros i Hi;
      rewrite Z.land_spec, Z.bits_0, Z.shiftl_spec by lia; destruct (Z.ltb_spec i n);
      [rewrite Z.testbit_neg_r by lia; reflexivity | rewrite Z.ones_spec_high by lia; apply andb_false_r |
       rewrite Z.testbit_neg_r by lia; reflexivity | rewrite Z.ones_spec_high by lia; apply andb_false_r]. }
  assert (E2 : z = Z.shiftl (2 * k + 1) n) by (rewrite Z.shiftl_mul_pow2 by lia; unfold z; lia).
  rewrite Ez, E1. apply Z.bits_inj'. intros i Hi. rewrite E2, Z.land_spec, Z.lor_spec, !Z.shiftl_spec by lia.
  destruct (Z.lt_total i n) as [H|[->|H]].
  - rewrite (Z.testbit_neg_r (2 * k + 1)), (Z.testbit_neg_r k) by lia. reflexivity.
  - rewrite (Z.testbit_neg_r k) by lia. rewrite Z.ones_spec_high by lia. apply andb_false_r.
  - rewrite Z.ones_spec_high, orb_false_r by lia. replace (i - n) with (Z.succ (i - (n + 1))) by lia.
    rewrite Z.testbit_odd_succ by lia. apply andb_diag.
Qed.

(** The table has the logarithms of the powers of two. *)
Lemma log2_lookup n : 0 <= n < 32 -> sexp_log2_of_pow2 (2 ^ n) = Some n.
Proof.
  intros Hn. assert (H : forallb (fun i => bool_decide (sexp_log2_of_pow2 (2 ^ Z.of_nat i) = Some (Z.of_nat i))) (seq 0 32) = true) by (vm_compute; reflexivity).
  rewrite forallb_forall in H. specialize (H (Z.to_nat n)). rewrite Z2Nat.id in H by lia.
  apply (bool_decide_eq_true_1 (sexp_log2_of_pow2 (2 ^ n) = Some n)), H, in_seq. lia.
Qed.

Lemma odd_bits n k : 0 <= n -> let z := 2 ^ n * (2 * k + 1) in
  Z.testbit z n = true /\ (forall i, 0 <= i < n -> Z.testbit z i = false)
  /\ forall i, 0 <= i -> Z.testbit (z - 2 ^ n) i = Z.testbit z i && negb (i =? n).
Proof.
  intros Hn z. assert (E1 : z - 2 ^ n = Z.shiftl k (n + 1)) by (unfold z; rewrite Z.shiftl_mul_pow2, Z.pow_add_r by lia; lia).
  assert (E2 : z = Z.shiftl (2 * k + 1) n) by (rewrite Z.shiftl_mul_pow2 by lia; unfold z; lia). rewrite E1, E2. split; [|split].
  - rewrite Z.shiftl_spec, Z.sub_diag by lia. apply Z.testbit_odd_0.
  - intros i Hi. rewrite Z.shiftl_spec, Z.testbit_neg_r by lia. reflexivity.
  - intros i Hi. rewrite !Z.shiftl_spec by lia. destruct (Z.lt_total i n) as [H|[->|H]].
    + rewrite !Z.testbit_neg_r by lia. reflexivity.
    + rewrite Z.testbit_neg_r by lia. rewrite Z.eqb_refl. symmetry. apply andb_false_r.
    + replace (i - n) with (Z.succ (i - (n + 1))) by lia. rewrite Z.testbit_odd_succ by lia.
      destruct (Z.eqb_spec i n); [lia|]. symmetry. apply andb_true_r.
Qed.

(** With signals pending, as the bits of a C [int], the
    lowest is found by the multiplication and the table, and it is the one that
    is no longer pending; the sign bit is a signal like the others. *)
Theorem pop_signal_lowest w : - 2 ^ 31 <= signals (st w) < 2 ^ 31 -> signals (st w) <> 0 -> exists n r,
  sexp_pop_signal w = Some (VFixnum n, World (put_signals r (st w)) (cells w) (front w) (back w) (paused w))
  /\ 0 <= n < 32 /\ Z.testbit (signals (st w)) n = true /\ (forall i, 0 <= i < n -> Z.testbit (signals (st w)) i = false)
  /\ - 2 ^ 31 <= r < 2 ^ 31 /\ forall i, 0 <= i < 32 -> Z.testbit r i = Z.testbit (signals (st w)) i && negb (i =? n).
Proof.
  intros Hr Hz. destruct (odd_part _ Hz) as (n & k & Hn & E). destruct (odd_bits n k Hn) as (B1 & B2 & B3).
  pose proof (land_pred n k Hn) as Hl. cbv zeta in *. rewrite <- E in *. set (z := signals (st w)) in *.
  assert (Hn31 : n <= 31).
  { destruct (Z.le_gt_cases n 31) as [?|Hn31]; [assumption|]. assert (2 ^ 32 <= 2 ^ n) by (apply Z.pow_le_mono_r; lia).
    clearbody z. assert (2 * k + 1 <= -1 \/ 1 <= 2 * k + 1) as [Hk|Hk] by lia; nia. }
  assert (Hpow : 0 < 2 ^ n <= 2 ^ 31) by (split; [apply Z.pow_pos_nonneg; lia | apply Z.pow_le_mono_r; lia]).
  assert (Hrest : exists r, Z.land z (swrap 32 (z - 1)) = r /\ - 2 ^ 31 <= r < 2 ^ 31 /\ u32 (swrap 32 (z - r)) = 2 ^ n
    /\ forall i, 0 <= i < 32 -> Z.testbit r i = Z.testbit z i && negb (i =? n)).
  { destruct (Z.eq_dec z (- 2 ^ 31)) as [Em|Hne].
    - exists 0. rewrite Em. assert (n = 31) as ->.
      { destruct (Z.eq_dec n 31) as [?|Hne]; [assumption|]. rewrite Em in E, B1. exfalso.
        assert (Hb : Z.testbit (- 2 ^ 31) n = false); [|congruence]. replace (- 2 ^ 31) with (Z.shiftl (-1) 31) by reflexivity.
        rewrite Z.shiftl_spec, Z.testbit_neg_r by lia. reflexivity. }
      do 3 (split; [reflexivity || lia|]). intros i Hi. rewrite Z.bits_0. destruct (Z.eqb_spec i 31); [rewrite andb_false_r; reflexivity|].
      replace (- 2 ^ 31) with (Z.shiftl (-1) 31) by reflexivity. rewrite Z.shiftl_spec, Z.testbit_neg_r by lia. reflexivity.
    - exists (z - 2 ^ n). rewrite swrap_id by lia. split; [exact Hl|].
      assert (Hn30 : n <= 30) by (destruct (Z.eq_dec n 31) as [->|?]; lia).
      assert (Hlow : - 2 ^ 31 <= z - 2 ^ n).
      { assert (E31 : 2 ^ 31 = 2 ^ n * 2 ^ (30 - n) * 2) by (rewrite <- Z.pow_add_r by lia; replace (n + (30 - n)) with 30 by lia; reflexivity).
        clearbody z. subst z. set (p := 2 ^ n) in *. set (q := 2 ^ (30 - n)) in *. clearbody p q.
        assert (- q <= k) by nia. nia. }
      split; [lia|]. split; [|intros i Hi; apply B3; lia]. replace (z - (z - 2 ^ n)) with (2 ^ n) by lia.
      assert (2 ^ n <= 2 ^ 30) by (apply Z.pow_le_mono_r; lia). rewrite swrap_id by lia. apply uwrap_id. unfold is_u. lia. }
  destruct Hrest as (r & Er & Hrr & Hu & Hb). exists n, r. split; [|auto with lia].
  unfold sexp_pop_signal, get_st, mbind, M_bind. fold z. cbv beta iota. rewrite (proj2 (Z.eqb_neq _ _) Hz).
  rewrite (swrap_id 32 z) by lia. cbv zeta. rewrite Er. cbn [set_st].
  assert (El : sexp_log2_of_pow2 (swrap 32 (z - r)) = Some n).
  { rewrite <- (log2_lookup n) by lia. unfold sexp_log2_of_pow2. rewrite Hu, (uwrap_id 32 (2 ^ n)); [reflexivity|].
    unfold is_u. assert (2 ^ n <= 2 ^ 31) by lia. lia. }
  rewrite El. reflexivity.
Qed.

Lemma pop_signal_lowest_witness : exists n r,
  sexp_pop_signal (World (Store ∅ ∅ (- 2 ^ 31 + 2) NoRunner [] []) ∅ None None None)
  = Some (VFixnum n, World (Store ∅ ∅ r NoRunner [] []) ∅ None None None) /\ 0 <= n < 32.
Proof.
  destruct (pop_signal_lowest (World (Store ∅ ∅ (- 2 ^ 31 + 2) NoRunner [] []) ∅ None None None)) as (n & r & E & Hn & _);
    [simpl; lia | simpl; lia |]. exists n, r. split; [exact E | exact Hn].
Defined.
