(* ===== verification/ThreadSpec.v ===== *)
(** * The threads as lists

    The specification of [Threads]: the queue and the paused threads as lists,
    with every operation as a function on them. *)
From S2P Require Import Prelude Threads.
From stdpp Require Import base list option gmap.
#[local] Open Scope Z_scope.

Record sched := Sched { base : store; queue : list thread; waiting : list thread }.

(** ** Contexts *)

Definition new_context : context := Context SEXP_DEFAULT_QUANTUM false false false VFalse None (Timeval 0 0) None.

Definition the (b : store) (t : thread) : context := default new_context (contexts b !! t).

Definition upd (t : thread) (f : context -> context) (b : store) : store := put_context t (f (the b t)) b.

(** ** Lists *)

Fixpoint remove_first (x : thread) (l : list thread) : list thread :=
  match l with
  | [] => []
  | y :: l => if bool_decide (y = x) then l else y :: remove_first x l
  end.

(** [x] after the elements at the start that satisfy [go]. *)
Fixpoint insert_after (go : thread -> bool) (x : thread) (l : list thread) : list thread :=
  match l with
  | [] => [x]
  | y :: l' => if go y then y :: insert_after go x l' else x :: l
  end.

(** The first element that satisfies [f], and the others. *)
Fixpoint take_first (f : thread -> bool) (l : list thread) : option (thread * list thread) :=
  match l with
  | [] => None
  | y :: l => if f y then Some (y, l)
              else match take_first f l with Some (x, l) => Some (x, y :: l) | None => None end
  end.

(** ** Operations *)

Definition on_base (f : store -> store) (s : sched) : sched := Sched (f (base s)) (queue s) (waiting s).

Definition start (t : thread) (s : sched) : sched :=
  Sched (upd t (set_errorp false) (base s)) (queue s ++ [t]) (waiting s).

Definition ends_at (now : timeval) (timeout : timeout) (b : store) : timeval :=
  match timeout with
  | Seconds z => Timeval (tv_sec now + z) (tv_usec now)
  | Fraction sec usec =>
      let s := tv_sec now + sec in
      let u := tv_usec now + usec in
      if u >? 1000000 then Timeval (s + 1) (u - 1000000) else Timeval s u
  | TimeOf t => tval (the b t)
  | BigSeconds | Forever => Timeval 0 0
  end.

(** Who stays in front of a thread with a deadline, or without one. *)
Definition ahead (timeout : timeout) (d : timeval) (b : store) (t : thread) : bool :=
  if sexp_realp timeout || sexp_contextp timeout then sexp_context_before (the b t) d
  else negb (tv_sec (tval (the b t)) =? 0).

Definition insert_timed (now : timeval) (t : thread) (timeout : timeout) (s : sched) : sched :=
  let d := ends_at now timeout (base s) in
  let b := upd t (set_tval d) (base s) in
  Sched b (queue s) (insert_after (ahead timeout d b) t (remove_first t (waiting s))).

Definition wait (now : timeval) (ctx : thread) (v : value) (timeout : timeout) (s : sched) : sched :=
  insert_timed now ctx timeout (on_base (fun b => upd ctx (set_event v) (upd ctx (set_waitp true) b)) s).

(** One link of the chain of children, and the chain. *)
Definition terminate_one (ctx t : thread) (s : sched) : sched :=
  let s :=
    if refuel (the (base s) ctx) >? 0 then
      on_base (fun b => upd t (set_refuel 0) (upd t (set_result VTerminateError) (upd t (set_errorp true) b))) s
    else s in
  if bool_decide (t ∈ waiting s) then start t (Sched (base s) (queue s) (remove_first t (waiting s))) else s.

Definition terminate (ctx : thread) (chain : list thread) (s : sched) : sched :=
  fold_left (fun s t => terminate_one ctx t s) chain s.

Definition wake (v : value) (s : sched) : bool * sched :=
  match take_first (fun t => bool_decide (event (the (base s) t) = v)) (waiting s) with
  | None => (false, s)
  | Some (t, p) =>
      (true, Sched (upd t (set_waitp false) (upd t (set_timeoutp false) (base s))) (t :: queue s) p)
  end.

Definition join_thread (now : timeval) (ctx t : thread) (timeout : timeout) (s : sched) : bool * sched :=
  if refuel (the (base s) t) <=? 0 then (true, s)
  else (false, wait now ctx (VThread t) timeout (on_base (upd ctx (set_timeoutp false)) s)).

Definition sleep (now : timeval) (ctx : thread) (timeout : option timeout) (s : sched) : option bool * sched :=
  let s := on_base (upd ctx (set_waitp true)) s in
  match timeout with
  | None => (Some false, s)
  | Some timeout =>
      if sexp_realp timeout then
        (Some false, insert_timed now ctx timeout (on_base (upd ctx (set_event VFalse)) s))
      else (None, s)
  end.

Definition lock (now : timeval) (ctx : thread) (m : positive) (timeout : timeout) (thread : value) (s : sched)
    : bool * sched :=
  match mutexes (base s) !! m with
  | Some x =>
      if bool_decide (mutex_lockp x = VFalse) then
        (true, on_base (put_mutex m (Mutex (Some (if bool_decide (thread = VTrue) then VThread ctx else thread)) VTrue)) s)
      else (false, wait now ctx (VMutex m) timeout s)
  | None => (false, s)
  end.

Definition unlock (now : timeval) (ctx : thread) (m : positive) (condvar : option positive) (timeout : timeout) (s : sched)
    : bool * sched :=
  let s :=
    match mutexes (base s) !! m with
    | Some x =>
        if bool_decide (mutex_lockp x = VFalse) then s
        else (wake (VMutex m) (on_base (put_mutex m (Mutex (Some (VThread ctx)) VFalse)) s)).2
    | None => s
    end in
  match condvar with
  | Some c => (false, wait now ctx (VCondvar c) timeout s)
  | None => (true, s)
  end.

(** All that wait for the condition variable, each in front of the one before. *)
Fixpoint broadcast (n : nat) (c : positive) (res : bool) (s : sched) : bool * sched :=
  match n with
  | O => (res, s)
  | S n => let '(b, s) := wake (VCondvar c) s in if b : bool then broadcast n c true s else (res, s)
  end.

(** Only the objects that have a descriptor can be waited for. *)
Definition block_on (now : timeval) (ctx : thread) (v : value) (timeout : timeout) (s : sched) : bool * sched :=
  match match v with VPort _ f _ | VFileno _ f | VFixnum f => Some f | _ => None end with
  | None => (false, s)
  | Some f =>
      let output := match v with VPort _ _ output => output | _ => false end in
      let add b := put_poll_fds (insert_pollfd f (if output then POLLOUT else POLLIN) (poll_fds b)).1 b in
      (true, wait now ctx v timeout (if f >=? 0 then on_base add s else s))
  end.

(** ** The scheduler *)

(** Whether the scheduler sees the queue: not if it was empty when a runner for
    signals, that exists and waits, was put there. *)
Definition signals_step (s : sched) : bool * sched :=
  if signals (base s) =? 0 then (true, s)
  else
    match signal_runner (base s) with
    | RunnerThread t =>
        if waitp (the (base s) t) then
          (bool_decide (queue s <> []), start t (on_base (upd t (set_waitp false)) s))
        else (true, s)
    | RunnerEnv found =>
        if found : bool then
          let t := fresh (dom (contexts (base s))) in
          (true, start t (on_base (fun b => put_runner (RunnerThread t) (put_context t new_context b)) s))
        else (true, s)
    | NoRunner => (true, s)
    end.

(** The paused threads that [wakes] tells move to the end of the queue. *)
Fixpoint move (wakes : value -> bool) (update : context -> context) (skip : option thread)
    (b : store) (q p : list thread) : store * list thread * list thread :=
  match p with
  | [] => (b, q, [])
  | t :: p =>
      if wakes (event (the b t)) then
        move wakes update skip (upd t update b) (if bool_decide (skip = Some t) then q else q ++ [t]) p
      else let '(b, q, p) := move wakes update skip b q p in (b, q, t :: p)
  end.

Definition move_step (wakes : value -> bool) (update : context -> context) (skip : option thread) (s : sched) : sched :=
  let '(b, q, p) := move wakes update skip (base s) (queue s) (waiting s) in Sched b q p.

Fixpoint poll_steps (ctx : thread) (n : nat) (k : Z) (s : sched) : sched :=
  match n with
  | O => s
  | S i =>
      if k >? 0 then
        match poll_fds (base s) !! i with
        | None => s
        | Some p =>
            if revents p then
              let s := if fd_event (fd p) (event (the (base s) ctx))
                       then on_base (upd ctx (fun c => set_event VFalse (woken c))) s else s in
              let s := move_step (fd_event (fd p)) (fun c => set_event VFalse (woken c)) (Some ctx) s in
              poll_steps ctx i (k - 1) (on_base (fun b => put_poll_fds (remove_pollfd i (poll_fds b)) b) s)
            else poll_steps ctx i k s
        end
      else s
  end.

Definition fds_step (poll : list pollfd -> Z * list bool) (ctx : thread) (s : sched) : sched :=
  let l := poll_fds (base s) in
  if (0 <? length l)%nat then
    let '(k, ready) := poll l in
    poll_steps ctx (length l) k
      (on_base (put_poll_fds (imap (fun i p => Pollfd (fd p) (events p) (default false (ready !! i))) l)) s)
  else s.

Definition joins_step (ctx : thread) (s : sched) : sched :=
  if refuel (the (base s) ctx) <=? 0 then move_step (fun v => bool_decide (v = VThread ctx)) woken None s else s.

(** The threads at the start of the list whose time has come. *)
Fixpoint expire (now : timeval) (b : store) (p : list thread) : store * list thread * list thread :=
  match p with
  | [] => (b, [], [])
  | t :: p' =>
      if sexp_context_before (the b t) now then
        let '(b, e, p') := expire now (upd t (set_waitp false) (upd t (set_timeoutp true) b)) p' in (b, t :: e, p')
      else (b, [], p)
  end.

Definition timeouts_step (now : timeval) (s : sched) : sched :=
  let '(b, e, p) := expire now (base s) (waiting s) in Sched b (queue s ++ e) p.

Definition waits_for_fd (b : store) (t : thread) : bool :=
  match event (the b t) with VFixnum _ | VPort _ _ _ => true | _ => false end.

Definition next (now : timeval) (ctx : thread) (seen : bool) (s : sched) : thread * sched :=
  let c := the (base s) ctx in
  match (if seen then queue s else []) with
  | t :: q =>
      if (refuel c <=? 0) || waitp c then
        let s := Sched (base s) q (waiting s) in
        (t, if (refuel c >? 0) && negb (bool_decide (ctx ∈ waiting s)) then insert_timed now ctx Forever s else s)
      else (t, Sched (base s) (q ++ [ctx]) (waiting s))
  | [] =>
      (if refuel c <=? 0 then match take_first (waits_for_fd (base s)) (waiting s) with Some (t, _) => t | None => ctx end
       else ctx, s)
  end.

(** The microseconds until a thread may go on, at most the longest nap. *)
Definition nap_time (now t : timeval) : Z :=
  if tv_sec now <=? tv_sec t then
    let u := (tv_sec t - tv_sec now) * 1000000 in
    if (tv_usec now <? tv_usec t) || (u >? 0) then u + (tv_usec t - tv_usec now) else u
  else 0.

Definition choose_waiting (now : timeval) (res : thread) (s : sched) : thread * sched :=
  match waiting s with
  | t :: p =>
      if sexp_context_before (the (base s) t) (tval (the (base s) res)) then
        let s := Sched (base s) (queue s) p in
        (t, if bool_decide (res ∈ p) then s else insert_timed now res (TimeOf res) s)
      else (res, Sched (base s) (queue s) (remove_first res (waiting s)))
  | [] => (res, s)
  end.

Definition rest (now1 now2 : timeval) (res : thread) (s : sched) : thread * Z * sched :=
  if waitp (the (base s) res) then
    let '(res, s) := choose_waiting now1 res s in
    let t := tval (the (base s) res) in
    if (tv_sec t =? 0) && (tv_usec t =? 0) then (res, 10 * 1000, s)
    else if nap_time now2 t >? 10 * 1000 then (res, 10 * 1000, s)
    else (res, nap_time now2 t, on_base (fun b => upd res (set_timeoutp true) (upd res (set_waitp false) b)) s)
  else (res, 0, s).

Definition schedule (poll : list pollfd -> Z * list bool) (now1 now2 : timeval) (ctx : thread) (s : sched)
    : thread * Z * sched :=
  let '(seen, s) := signals_step s in
  let s := timeouts_step now1 (joins_step ctx (fds_step poll ctx s)) in
  let '(res, s) := next now1 ctx seen s in
  rest now1 now2 res s.

(** ** Requests *)

(** What a thread can ask for, and the answers. *)
Inductive request :=
| Start (t : thread) | Terminate (t : thread)
| JoinThread (t : thread) (timeout : timeout) | Sleep (timeout : option timeout)
| Lock (m : positive) (timeout : timeout) (owner : value)
| Unlock (m : positive) (condvar : option positive) (timeout : timeout)
| Signal (c : positive) | Broadcast (c : positive)
| Block (v : value) (timeout : timeout)
| Schedule (poll : list pollfd -> Z * list bool) (now2 : timeval).

Inductive answer := Done | Answer (b : bool) | TypeError | Chosen (t : thread) (usecs : Z).

Definition run (now : timeval) (ctx : thread) (r : request) : M answer :=
  match r with
  | Start t => sexp_thread_start t;; mret Done
  | Terminate t => b ← sexp_thread_terminate ctx t; mret (Answer b)
  | JoinThread t timeout => b ← sexp_thread_join now ctx t timeout; mret (Answer b)
  | Sleep timeout => b ← sexp_thread_sleep now ctx timeout; mret (match b with Some b => Answer b | None => TypeError end)
  | Lock m timeout owner => b ← sexp_mutex_lock now ctx m timeout owner; mret (Answer b)
  | Unlock m condvar timeout => b ← sexp_mutex_unlock now ctx m condvar timeout; mret (Answer b)
  | Signal c => b ← sexp_condition_variable_signal c; mret (Answer b)
  | Broadcast c => b ← sexp_condition_variable_broadcast c; mret (Answer b)
  | Block v timeout => b ← sexp_blocker now ctx v timeout; mret (if b : bool then Done else TypeError)
  | Schedule poll now2 => '(t, usecs) ← sexp_scheduler poll now now2 ctx; mret (Chosen t usecs)
  end.

(** A thread, its child, and so on. *)
Fixpoint family (fuel : nat) (b : store) (t : option thread) : list thread :=
  match fuel, t with
  | S fuel, Some t => t :: family fuel b (child (the b t))
  | _, _ => []
  end.

Definition spec (now : timeval) (ctx : thread) (r : request) (s : sched) : answer * sched :=
  let answered x := (Answer x.1, x.2) in
  match r with
  | Start t => (Done, start t s)
  | Terminate t =>
      (Answer (bool_decide (ctx = t)), terminate ctx (family (S (size (contexts (base s)))) (base s) (Some t)) s)
  | JoinThread t timeout => answered (join_thread now ctx t timeout s)
  | Sleep timeout => let '(b, s) := sleep now ctx timeout s in (match b with Some b => Answer b | None => TypeError end, s)
  | Lock m timeout owner => answered (lock now ctx m timeout owner s)
  | Unlock m condvar timeout => answered (unlock now ctx m condvar timeout s)
  | Signal c => answered (wake (VCondvar c) s)
  | Broadcast c => answered (broadcast (S (length (waiting s))) c false s)
  | Block v timeout => let '(b, s) := block_on now ctx v timeout s in (if b : bool then Done else TypeError, s)
  | Schedule poll now2 => let '(t, usecs, s) := schedule poll now now2 ctx s in (Chosen t usecs, s)
  end.

(** ** Small states *)

(** A thread that waits for [e] until [sec], a store with the mutex 9, and what
    [poll] may report. *)
Definition asleep (e : value) (sec : Z) : context := Context SEXP_DEFAULT_QUANTUM false true false e None (Timeval sec 0) None.
Definition small (l : list (thread * context)) (fds : list pollfd) : store :=
  Store (list_to_map l) {[ 9%positive := Mutex (Some VFalse) VFalse ]} 0 NoRunner [] fds.
Definition nothing : list pollfd -> Z * list bool := fun _ => (0, []).
Definition everything : list pollfd -> Z * list bool := fun l => (Z.of_nat (length l), repeat true (length l)).

(** 1 is current, 2 can run, and 3 sleeps until 1030. *)
Definition three : sched :=
  Sched (small [(1%positive, new_context); (2%positive, new_context); (3%positive, asleep VFalse 1030)] []) [2%positive] [3%positive].

(** The pairs of a list, from the address [l] on, and the cells of a state. *)
Fixpoint lay_list (l : positive) (q : list thread) : list (cell * (thread * option cell)) :=
  match q with
  | [] => []
  | t :: q => (l, (t, match q with [] => None | _ => Some (Pos.succ l) end)) :: lay_list (Pos.succ l) q
  end.

Definition lay (s : sched) : world :=
  let q := lay_list 1 (queue s) in
  let l := Pos.of_succ_nat (length q) in
  let p := lay_list l (waiting s) in
  World (base s) (list_to_map (q ++ p)) (fst <$> head q) (fst <$> last q) (fst <$> head p).

(** The threads of a list of pairs. *)
Fixpoint threads_at (fuel : nat) (cells : gmap cell (thread * option cell)) (ls : option cell) : list thread :=
  match fuel, ls with
  | S fuel, Some l => match cells !! l with Some (t, d) => t :: threads_at fuel cells d | None => [] end
  | _, _ => []
  end.
