(* ===== verification/ThreadQueues.v ===== *)
(** * The cells implement the lists

    The chains of pairs of [Threads] represent the lists of [ThreadSpec], and
    every operation on the pairs is the operation on the lists. *)
From S2P Require Import Prelude Threads ThreadSpec.
From stdpp Require Import base list option gmap fin_map_dom.
#[local] Open Scope Z_scope.

(** ** Chains of pairs *)

Abbreviation links := (gmap cell (thread * option cell)).
Implicit Types (cs : links) (xs ys zs : list (cell * thread)) (w : world) (s : sched).

(** The pairs [xs], with their threads, from [ls] to [e]. *)
Fixpoint chain cs (ls : option cell) xs (e : option cell) : Prop :=
  match xs with
  | [] => ls = e
  | (c, t) :: xs => ls = Some c /\ exists d, cs !! c = Some (t, d) /\ chain cs d xs e
  end.

Lemma chain_split cs ls xs ys e : chain cs ls (xs ++ ys) e <-> exists m, chain cs ls xs m /\ chain cs m ys e.
Proof.
  revert ls. induction xs as [|[c t] xs IH]; intros ls; simpl.
  - split; [intros H; exists ls; auto | intros (m & -> & H); exact H].
  - split.
    + intros (-> & d & Hc & H). apply IH in H as (m & H1 & H2). eauto 10.
    + intros (m & (-> & d & Hc & H1) & H2). split; [reflexivity|]. exists d. split; [exact Hc|]. apply IH. eauto.
Qed.

Lemma chain_agree cs cs' ls xs e : chain cs ls xs e -> (forall c, c ∈ xs.*1 -> cs' !! c = cs !! c) -> chain cs' ls xs e.
Proof.
  revert ls. induction xs as [|[c t] xs IH]; intros ls H Ha; [exact H|]. destruct H as (-> & d & Hc & H).
  simpl in *. split; [reflexivity|]. exists d. rewrite Ha by set_solver. split; [exact Hc|]. apply IH; [exact H | set_solver].
Qed.

Lemma chain_head cs ls xs : chain cs ls xs None -> ls = head (xs.*1).
Proof. destruct xs as [|[c t] xs]; simpl; [auto | intros [-> _]; reflexivity]. Qed.

Lemma chain_in_dom cs ls xs e c : chain cs ls xs e -> c ∈ xs.*1 -> c ∈ dom cs.
Proof.
  revert ls. induction xs as [|[c' t] xs IH]; intros ls H Hc; simpl in *; [set_solver|].
  destruct H as (_ & d & H1 & H2). apply elem_of_cons in Hc as [->|Hc]; [apply elem_of_dom; eauto | eauto].
Qed.

Lemma chain_length cs ls xs e : chain cs ls xs e -> NoDup xs.*1 -> (length xs <= size cs)%nat.
Proof.
  intros H Hnd. rewrite <- (length_fmap fst), <- (size_list_to_set (C := gset cell) (xs.*1)), <- (size_dom (D := gset cell)) by exact Hnd.
  apply subseteq_size. intros c Hc. apply elem_of_list_to_set in Hc. eauto using chain_in_dom.
Qed.

(** The last pair of a chain. *)
Definition last_cell xs : option cell := fst <$> last xs.

Lemma last_cell_app xs c t : last_cell (xs ++ [(c, t)]) = Some c.
Proof. unfold last_cell. rewrite last_snoc. reflexivity. Qed.

(** Changing the end of a chain. *)
Lemma chain_set_end cs ls xs c t d e : chain cs ls (xs ++ [(c, t)]) d -> NoDup (xs ++ [(c, t)]).*1 ->
  cs !! c = Some (t, d) /\ chain (<[c := (t, e)]> cs) ls (xs ++ [(c, t)]) e.
Proof.
  intros H Hnd. apply chain_split in H as (m & H1 & -> & d' & Hc & <-). simpl in *.
  split; [exact Hc|]. rewrite fmap_app in Hnd. apply NoDup_app in Hnd as (_ & Hd & _). apply chain_split. exists (Some c). split.
  - eapply chain_agree; [exact H1|]. intros c' Hc'. apply lookup_insert_ne. intros ->. apply (Hd _ Hc'). set_solver.
  - simpl. split; [reflexivity|]. exists e. rewrite lookup_insert_eq. auto.
Qed.

(** ** Running the monad *)

Lemma run_bind {A B} (m : M A) (f : A -> M B) w a w' : m w = Some (a, w') -> mbind f m w = f a w'.
Proof. intros H. unfold mbind, M_bind. rewrite H. reflexivity. Qed.

Lemma run_car w l t d : cells w !! l = Some (t, d) -> car l w = Some (t, w).
Proof. intros H. unfold car. rewrite H. reflexivity. Qed.

Lemma run_cdr w l t d : cells w !! l = Some (t, d) -> cdr l w = Some (d, w).
Proof. intros H. unfold cdr. rewrite H. reflexivity. Qed.

Definition with_cells (f : links -> links) w : world := World (st w) (f (cells w)) (front w) (back w) (paused w).

Lemma run_set_cdr w l t d e : cells w !! l = Some (t, d) -> set_cdr l e w = Some (tt, with_cells <[l := (t, e)]> w).
Proof. intros H. unfold set_cdr. rewrite (run_bind _ _ _ _ _ (run_car _ _ _ _ H)). reflexivity. Qed.

Lemma run_set_car w l t d u : cells w !! l = Some (t, d) -> set_car l u w = Some (tt, with_cells <[l := (u, d)]> w).
Proof. intros H. unfold set_car. rewrite (run_bind _ _ _ _ _ (run_cdr _ _ _ _ H)). reflexivity. Qed.

(** The contexts that are there. *)
Definition known (b : store) (t : thread) : Prop := is_Some (contexts b !! t).

Lemma run_get_context w t : known (st w) t -> get_context t w = Some (the (st w) t, w).
Proof. intros [c Hc]. unfold get_context, the. rewrite Hc. reflexivity. Qed.

Definition with_st (b : store) w : world := World b (cells w) (front w) (back w) (paused w).

Lemma run_set_context w t f : known (st w) t -> set_context t f w = Some (tt, with_st (upd t f (st w)) w).
Proof. intros H. unfold set_context. rewrite (run_bind _ _ _ _ _ (run_get_context _ _ H)). reflexivity. Qed.

Lemma known_upd b t u f : known b t -> known (upd u f b) t.
Proof. unfold known, upd. simpl. intros H. destruct (decide (t = u)) as [->|]; [rewrite lookup_insert_eq | rewrite lookup_insert_ne by auto]; eauto. Qed.

(** Loops that skip elements. *)
Lemma run_scan (p : thread -> M bool) (g : thread -> bool) w : forall xs fuel ls1 ls2,
  (forall t, t ∈ xs.*2 -> p t w = Some (g t, w)) -> chain (cells w) ls2 xs None -> (length xs < fuel)%nat ->
  exists ys zs, xs = ys ++ zs /\ Forall (fun x => g x.2 = true) ys /\ (forall z, head zs = Some z -> g z.2 = false)
    /\ scan p fuel ls1 ls2 w = Some ((match last_cell ys with Some c => Some c | None => ls1 end, head (zs.*1)), w).
Proof.
  induction xs as [|[c t] xs IH]; intros fuel ls1 ls2 Hp H Hf; (destruct fuel as [|fuel]; [simpl in Hf; lia|]); simpl in H.
  - subst. exists [], []. split; [reflexivity|]. split; [constructor|]. split; [discriminate | reflexivity].
  - destruct H as (-> & d & Hc & H). cbn [scan]. rewrite (run_bind _ _ _ _ _ (run_car _ _ _ _ Hc)).
    rewrite (run_bind _ _ _ _ _ (Hp t ltac:(set_solver))). destruct (g t) eqn:Eg.
    + rewrite (run_bind _ _ _ _ _ (run_cdr _ _ _ _ Hc)).
      destruct (IH fuel (Some c) d) as (ys & zs & -> & Hys & Hzs & E); [set_solver | exact H | simpl in Hf; lia |].
      exists ((c, t) :: ys), zs. split; [reflexivity|]. split; [constructor; auto|]. split; [exact Hzs|]. rewrite E.
      unfold last_cell. destruct ys as [|y ys]; [reflexivity|]. change (last ((c, t) :: y :: ys)) with (last (y :: ys)).
      destruct (last (y :: ys)) eqn:El; [reflexivity | apply last_None in El; discriminate].
    + exists [], ((c, t) :: xs). split; [reflexivity|]. split; [constructor|]. split; [intros z [= <-]; exact Eg | reflexivity].
Qed.

(** ** Representation *)

Record rep w xq xp s : Prop := Rep {
  rep_base : st w = base s;
  rep_front : chain (cells w) (front w) xq None;
  rep_back : back w = last_cell xq;
  rep_paused : chain (cells w) (paused w) xp None;
  rep_nodup : NoDup (xq.*1 ++ xp.*1);
  rep_queue : xq.*2 = queue s;
  rep_waiting : xp.*2 = waiting s;
}.

(** The cells of the world represent the lists of [s]. *)
Definition represents w s : Prop := exists xq xp, rep w xq xp s.

(** Every thread in the lists has its context. *)
Definition all_known s : Prop := forall t, t ∈ queue s \/ t ∈ waiting s -> known (base s) t.

Lemma rep_fuel_queue w xq xp s : rep w xq xp s -> (length xq < S (size (cells w)))%nat.
Proof.
  intros H. pose proof (rep_nodup _ _ _ _ H) as Hnd. apply NoDup_app in Hnd as (Hnd & _).
  pose proof (chain_length _ _ _ _ (rep_front _ _ _ _ H) Hnd). lia.
Qed.

Lemma rep_fuel w xq xp s : rep w xq xp s -> (length xp < S (size (cells w)))%nat.
Proof.
  intros H. pose proof (rep_nodup _ _ _ _ H) as Hnd. apply NoDup_app in Hnd as (_ & _ & Hnd).
  pose proof (chain_length _ _ _ _ (rep_paused _ _ _ _ H) Hnd). lia.
Qed.

(** Changes of the contexts only. *)
Lemma rep_with_st w xq xp s f : rep w xq xp s -> rep (with_st (f (st w)) w) xq xp (on_base f s).
Proof. intros [H1 H2 H3 H4 H5 H6 H7]. split; simpl; auto. congruence. Qed.

Lemma rep_set_context w xq xp s t f : rep w xq xp s -> known (base s) t ->
  exists w', set_context t f w = Some (tt, w') /\ rep w' xq xp (on_base (upd t f) s).
Proof.
  intros H Ht. eexists. split; [apply run_set_context; rewrite (rep_base _ _ _ _ H); exact Ht|].
  apply (rep_with_st _ _ _ _ (upd t f)). exact H.
Qed.

Lemma rep_get_context w xq xp s t : rep w xq xp s -> known (base s) t -> get_context t w = Some (the (base s) t, w).
Proof. intros H Ht. rewrite <- (rep_base _ _ _ _ H) in *. apply run_get_context. exact Ht. Qed.

(** *** Linking into the paused threads *)

(** The paused threads [ys ++ zs], with what follows [ys] changed. *)
Lemma run_link w ys m d : chain (cells w) (paused w) ys m -> NoDup ys.*1 ->
  exists w', link_paused (last_cell ys) d w = Some (tt, w') /\ st w' = st w /\ front w' = front w /\ back w' = back w
    /\ chain (cells w') (paused w') ys d /\ dom (cells w') = dom (cells w)
    /\ forall c, c ∉ ys.*1 -> cells w' !! c = cells w !! c.
Proof.
  intros H Hnd. destruct ys as [|[c t] ys _] using rev_ind.
  - eexists. split; [reflexivity|]. simpl. auto 10.
  - destruct (chain_set_end _ _ _ _ _ _ d H Hnd) as [Hc H']. rewrite last_cell_app. unfold link_paused.
    rewrite (run_set_cdr _ _ _ _ d Hc). eexists. split; [reflexivity|]. simpl. do 3 (split; [reflexivity|]). split; [exact H'|].
    split; [apply dom_insert_lookup_L; eauto|]. intros c' Hc'. apply lookup_insert_ne. intros ->. apply Hc'. rewrite fmap_app. apply elem_of_app. right. simpl. apply elem_of_cons. auto.
Qed.

(** Agreement carries chains of other cells over. *)
Lemma chain_off cs cs' ls xs ys e : chain cs ls xs e -> (forall c, c ∈ xs.*1 -> c ∉ ys.*1) ->
  (forall c, c ∉ ys.*1 -> cs' !! c = cs !! c) -> chain cs' ls xs e.
Proof. intros H Hd Ha. eapply chain_agree; [exact H | auto]. Qed.

(** A pair taken out of the paused threads. *)
Lemma rep_unlink w xq ys zs c t s : rep w xq (ys ++ (c, t) :: zs) s ->
  exists w', link_paused (last_cell ys) (head zs.*1) w = Some (tt, w')
    /\ rep w' xq (ys ++ zs) (Sched (base s) (queue s) (ys.*2 ++ zs.*2))
    /\ cells w' !! c = Some (t, head zs.*1) /\ c ∉ xq.*1 ++ (ys ++ zs).*1 /\ dom (cells w') = dom (cells w)
    /\ front w' = front w /\ back w' = back w.
Proof.
  intros [H1 H2 H3 H4 H5 H6 H7]. apply chain_split in H4 as (m & Hy & -> & d & Hc & Hz).
  pose proof (chain_head _ _ _ Hz) as ->. rewrite fmap_app, fmap_cons in H5. cbn [fst] in H5.
  assert (Hnd : NoDup ys.*1) by (apply NoDup_app in H5 as (_ & _ & H5); apply NoDup_app in H5 as (H5 & _); exact H5).
  assert (Hnd' : NoDup (c :: xq.*1 ++ ys.*1 ++ zs.*1)) by (rewrite <- !Permutation_middle in H5; exact H5).
  apply NoDup_cons in Hnd' as [Hc' Hnd'].
  assert (Hdis : forall c', c' ∈ xq.*1 \/ c' ∈ zs.*1 \/ c' = c -> c' ∉ ys.*1).
  { intros c' [Hin|[Hin| ->]] Hy'; [| | apply Hc'; rewrite !elem_of_app; auto];
      apply NoDup_app in Hnd' as (_ & Hd & Hnd'); [apply (Hd c' Hin); rewrite elem_of_app; auto|].
    apply NoDup_app in Hnd' as (_ & Hd' & _). apply (Hd' c' Hy' Hin). }
  destruct (run_link w ys _ (head zs.*1) Hy Hnd) as (w' & E & E1 & E2 & E3 & Hy' & Hdom & Ha).
  exists w'. split; [exact E|]. split; [|split; [rewrite Ha by auto; exact Hc | rewrite fmap_app; auto]].
  split; simpl.
  - congruence.
  - rewrite E2. eapply chain_off; [exact H2 | | exact Ha]. auto.
  - congruence.
  - apply chain_split. exists (head zs.*1). split; [exact Hy'|]. eapply chain_off; [exact Hz | | exact Ha]. auto.
  - rewrite fmap_app. exact Hnd'.
  - exact H6.
  - apply fmap_app.
Qed.

(** *** [sexp_delete_list] *)

Lemma remove_first_split x (l1 l2 : list thread) : Forall (fun y => y <> x) l1 ->
  remove_first x (l1 ++ l2) = l1 ++ remove_first x l2.
Proof.
  induction 1 as [|y l1 Hy _ IH]; [reflexivity|]. simpl. rewrite bool_decide_false by exact Hy. congruence.
Qed.

Lemma last_cell_some ys : match last_cell ys with Some c => Some c | None => None end = last_cell ys.
Proof. destruct (last_cell ys); reflexivity. Qed.

Lemma rep_delete w xq xp s x : rep w xq xp s ->
  exists w' xp', sexp_delete_list x w = Some (bool_decide (x ∈ waiting s), w')
    /\ rep w' xq xp' (Sched (base s) (queue s) (remove_first x (waiting s))).
Proof.
  intros H. pose proof (rep_fuel _ _ _ _ H) as Hf. pose proof (rep_waiting _ _ _ _ H) as Hw.
  unfold sexp_delete_list. do 2 erewrite run_bind by reflexivity.
  destruct (run_scan (fun t => mret (bool_decide (t <> x))) (fun t => bool_decide (t <> x)) w xp (S (size (cells w))) None (paused w))
    as (ys & zs & -> & Hys & Hzs & E); [reflexivity | apply (rep_paused _ _ _ _ H) | exact Hf |].
  rewrite (run_bind _ _ _ _ _ E), last_cell_some. clear E.
  assert (Hys' : Forall (fun y => y <> x) ys.*2).
  { apply Forall_fmap. eapply Forall_impl; [exact Hys|]. intros y Hy. simpl in *. apply bool_decide_eq_true in Hy. exact Hy. }
  rewrite fmap_app in Hw. rewrite <- Hw, (remove_first_split _ _ _ Hys').
  destruct zs as [|[c t] zs]; simpl.
  - exists w, (ys ++ []). rewrite bool_decide_false.
    + split; [reflexivity|]. destruct H. split; auto. rewrite fmap_app. reflexivity.
    + rewrite app_nil_r. intros Hx. rewrite Forall_forall in Hys'. apply (Hys' x Hx). reflexivity.
  - specialize (Hzs _ eq_refl). simpl in Hzs. apply bool_decide_eq_false, dec_stable in Hzs as ->.
    rewrite !bool_decide_true by (reflexivity || apply elem_of_app; right; apply elem_of_cons; auto).
    pose proof (rep_paused _ _ _ _ H) as Hp. apply chain_split in Hp as (m & _ & _ & d & Hc & Hz).
    rewrite (run_bind _ _ _ _ _ (run_cdr _ _ _ _ Hc)). pose proof (chain_head _ _ _ Hz) as ->.
    destruct (rep_unlink _ _ _ _ _ _ _ H) as (w' & E & H' & _). rewrite (run_bind _ _ _ _ _ E).
    exists w', (ys ++ zs). split; [reflexivity | exact H'].
Qed.

(** *** [sexp_insert_timed] *)

Lemma elem_of_remove_first x y (l : list thread) : y ∈ remove_first x l -> y ∈ l.
Proof.
  induction l as [|z l IH]; simpl; [auto|]. destruct (bool_decide (z = x)); [intros H; apply elem_of_cons; auto|].
  rewrite !elem_of_cons. intros [->|H]; auto.
Qed.

Lemma insert_after_split (go : thread -> bool) t (l1 l2 : list thread) : Forall (fun y => go y = true) l1 ->
  (forall z, head l2 = Some z -> go z = false) -> insert_after go t (l1 ++ l2) = l1 ++ t :: l2.
Proof.
  intros H1 H2. induction H1 as [|y l1 Hy _ IH]; simpl.
  - destruct l2 as [|z l2]; simpl; [reflexivity|]. rewrite (H2 z eq_refl). reflexivity.
  - rewrite Hy, IH. reflexivity.
Qed.

Lemma head_map zs (g : thread -> bool) : (forall z, head zs = Some z -> g z.2 = false) ->
  forall t, head zs.*2 = Some t -> g t = false.
Proof. intros H t. destruct zs as [|[c u] zs]; simpl; [discriminate|]. intros [= <-]. apply (H _ eq_refl). Qed.

(** A new pair between [ys] and [zs]. *)
Lemma rep_insert w xq ys zs s t : rep w xq (ys ++ zs) s ->
  exists w' c, (l ← Threads.cons t (head zs.*1); link_paused (last_cell ys) (Some l)) w = Some (tt, w')
    /\ rep w' xq (ys ++ (c, t) :: zs) (Sched (base s) (queue s) (ys.*2 ++ t :: zs.*2)).
Proof.
  intros [H1 H2 H3 H4 H5 H6 H7]. unfold Threads.cons. erewrite run_bind by reflexivity.
  set (c := fresh (dom (cells w))).
  assert (Hc : c ∉ dom (cells w)) by apply is_fresh. apply chain_split in H4 as (m & Hy & Hz).
  rewrite fmap_app in H5. pose proof H5 as Hnd. apply NoDup_app in Hnd as (_ & Hq & Hnd). apply NoDup_app in Hnd as (Hnd & Hyz & _).
  assert (Hcq : c ∉ xq.*1) by (intros Hin; apply Hc; eauto using chain_in_dom).
  assert (Hcy : c ∉ ys.*1) by (intros Hin; apply Hc; eauto using chain_in_dom).
  assert (Hcz : c ∉ zs.*1) by (intros Hin; apply Hc; eauto using chain_in_dom).
  assert (Hfresh : forall ls xs e, chain (cells w) ls xs e -> c ∉ xs.*1 ->
    chain (<[c := (t, head zs.*1)]> (cells w)) ls xs e).
  { intros ls xs e H Hx. eapply chain_agree; [exact H|]. intros c' Hc'. apply lookup_insert_ne. intros ->. auto. }
  pose proof (chain_head _ _ _ Hz) as Hm. subst m.
  edestruct (run_link (World (st w) (<[c := (t, head zs.*1)]> (cells w)) (front w) (back w) (paused w)) ys (head zs.*1) (Some c))
    as (w' & E & E1 & E2 & E3 & Hy' & Hdom & Ha); [apply Hfresh; eassumption | exact Hnd |]. simpl in *.
  exists w', c. split; [exact E|]. split; simpl.
  - congruence.
  - rewrite E2. eapply chain_off; [apply Hfresh; eassumption | | exact Ha]. set_solver.
  - congruence.
  - apply chain_split. exists (Some c). split; [exact Hy'|]. simpl. split; [reflexivity|]. exists (head zs.*1).
    rewrite Ha, lookup_insert_eq by exact Hcy. split; [reflexivity|].
    eapply chain_off; [apply Hfresh; eassumption | | exact Ha]. set_solver.
  - rewrite fmap_app, fmap_cons. simpl. rewrite (Permutation_app_comm ys.*1). simpl. rewrite <- Permutation_middle.
    apply NoDup_cons. split; [set_solver|]. rewrite (Permutation_app_comm zs.*1). exact H5.
  - exact H6.
  - rewrite fmap_app, fmap_cons. reflexivity.
Qed.

Lemma rep_insert_timed w xq xp s now t timeout : rep w xq xp s -> all_known s -> known (base s) t ->
  (forall u, timeout = TimeOf u -> known (base s) u) ->
  exists w' xp', sexp_insert_timed now t timeout w = Some (tt, w') /\ rep w' xq xp' (insert_timed now t timeout s).
Proof.
  intros H Hk Ht Hu. unfold sexp_insert_timed. destruct (rep_delete _ _ _ _ t H) as (w1 & xp1 & E1 & H1).
  rewrite (run_bind _ _ _ _ _ E1). erewrite run_bind by reflexivity. erewrite run_bind by reflexivity.
  assert (Ed : deadline now timeout w1 = Some (ends_at now timeout (base s), w1)).
  { destruct timeout; simpl; unfold mret, M_ret; repeat case_match; try reflexivity.
    erewrite run_bind by (eapply rep_get_context; [exact H1 | apply Hu; reflexivity]). reflexivity. }
  rewrite (run_bind _ _ _ _ _ Ed). set (d := ends_at now timeout (base s)) in *.
  destruct (rep_set_context _ _ _ _ t (set_tval d) H1 Ht) as (w2 & E2 & H2).
  assert (Hw : paused w2 = paused w1 /\ cells w2 = cells w1).
  { unfold set_context in E2. erewrite run_bind in E2 by (eapply rep_get_context; [exact H1 | exact Ht]). injection E2 as <-. auto. }
  destruct Hw as [Hp Hcells]. rewrite <- Hp, <- Hcells, (run_bind _ _ _ _ _ E2). clear Hp Hcells.
  set (b := upd t (set_tval d) (base s)).
  assert (Hkn : forall u, u ∈ xp1.*2 -> get_context u w2 = Some (the b u, w2)).
  { intros u Hin. rewrite (rep_get_context _ _ _ _ u H2); [reflexivity|]. apply known_upd, Hk.
    rewrite (rep_waiting _ _ _ _ H1) in Hin. apply elem_of_remove_first in Hin. auto. }
  edestruct (run_scan (fun u => c ← get_context u; mret (if sexp_realp timeout || sexp_contextp timeout then sexp_context_before c d
      else negb (tv_sec (tval c) =? 0))) (ahead timeout d b) w2 xp1 (S (size (cells w2))) None (paused w2))
    as (ys & zs & -> & Hys & Hzs & E3).
  { intros u Hin. rewrite (run_bind _ _ _ _ _ (Hkn u Hin)). reflexivity. }
  { apply (rep_paused _ _ _ _ H2). }
  { apply (rep_fuel _ _ _ _ H2). }
  rewrite last_cell_some in E3.
  assert (E3' : (if sexp_realp timeout || sexp_contextp timeout
     then scan (fun u => c ← get_context u; mret (sexp_context_before c d)) (S (size (cells w2))) None (paused w2)
     else scan (fun u => c ← get_context u; mret (negb (tv_sec (tval c) =? 0))) (S (size (cells w2))) None (paused w2)) w2
    = Some (last_cell ys, head zs.*1, w2)) by (destruct (sexp_realp timeout || sexp_contextp timeout); exact E3).
  erewrite run_bind by exact E3'. cbn beta iota.
  destruct (rep_insert _ _ _ _ _ t H2) as (w3 & c & E4 & H4). exists w3, (ys ++ (c, t) :: zs). split; [exact E4|].
  pose proof (rep_waiting _ _ _ _ H1) as Hw. simpl in Hw. unfold insert_timed. fold d b.
  rewrite <- Hw, fmap_app, insert_after_split; [exact H4 | |].
  - apply Forall_fmap. exact Hys.
  - intros z. apply head_map. exact Hzs.
Qed.

(** *** Linking to the end of the queue *)

Definition with_back (b : option cell) w : world := World (st w) (cells w) (front w) b (paused w).

Lemma rep_append w xq xp s ys : rep w xq xp s -> ys <> [] -> chain (cells w) (head ys.*1) ys None ->
  NoDup (xq.*1 ++ ys.*1 ++ xp.*1) ->
  exists w', match back w with Some b => set_cdr b (head ys.*1) | None => set_front (head ys.*1) end w = Some (tt, w')
    /\ paused w' = paused w /\ dom (cells w') = dom (cells w)
    /\ rep (with_back (last_cell ys) w') (xq ++ ys) xp (Sched (base s) (queue s ++ ys.*2) (waiting s)).
Proof.
  intros [H1 H2 H3 H4 H5 H6 H7] Hne Hys Hnd.
  assert (Hback : last_cell (xq ++ ys) = last_cell ys).
  { unfold last_cell. rewrite last_app. destruct (last ys) eqn:E; [reflexivity | apply last_None in E; congruence]. }
  destruct xq as [|[b t] xq _] using rev_ind.
  - rewrite H3. eexists. split; [reflexivity|]. do 2 (split; [reflexivity|]). split; simpl; auto.
    rewrite <- H6. reflexivity.
  - rewrite last_cell_app in H3. rewrite H3. pose proof Hnd as Hnd'. apply NoDup_app in Hnd' as (Hq & Hd & Hyp).
    destruct (chain_set_end _ _ _ _ _ _ (head ys.*1) H2 Hq) as [Hb H2']. rewrite (run_set_cdr _ _ _ _ _ Hb).
    assert (Hbq : b ∈ (xq ++ [(b, t)]).*1) by (rewrite fmap_app; apply elem_of_app; right; simpl; apply elem_of_cons; auto).
    eexists. split; [reflexivity|]. split; [reflexivity|]. split; [simpl; apply dom_insert_lookup_L; eauto|].
    assert (Hoff : forall c, c ∉ (xq ++ [(b, t)]).*1 -> <[b := (t, head ys.*1)]> (cells w) !! c = cells w !! c).
    { intros c Hc. apply lookup_insert_ne. intros ->. auto. }
    split; simpl.
    + exact H1.
    + apply chain_split. exists (head ys.*1). split; [exact H2'|]. eapply chain_agree; [exact Hys|].
      intros c Hc. apply Hoff. intros Hin. apply (Hd _ Hin). apply elem_of_app. auto.
    + symmetry. exact Hback.
    + eapply chain_agree; [exact H4|]. intros c Hc. apply Hoff. intros Hin. apply (Hd _ Hin). apply elem_of_app. auto.
    + rewrite (fmap_app fst (xq ++ [(b, t)]) ys), <- app_assoc. exact Hnd.
    + rewrite (fmap_app snd (xq ++ [(b, t)]) ys). congruence.
    + exact H7.
Qed.

(** A pair that nothing refers to. *)
Lemma rep_cons w xq xp s t d : rep w xq xp s ->
  exists w' c, Threads.cons t d w = Some (c, w') /\ rep w' xq xp s /\ cells w' !! c = Some (t, d) /\ c ∉ xq.*1 ++ xp.*1
    /\ paused w' = paused w.
Proof.
  intros [H1 H2 H3 H4 H5 H6 H7]. set (c := fresh (dom (cells w))).
  assert (Hc : c ∉ dom (cells w)) by apply is_fresh.
  assert (Hcq : c ∉ xq.*1) by (intros Hin; apply Hc; eauto using chain_in_dom).
  assert (Hcp : c ∉ xp.*1) by (intros Hin; apply Hc; eauto using chain_in_dom).
  eexists _, c. split; [reflexivity|]. split; [|split; [apply lookup_insert_eq|split; [rewrite elem_of_app; tauto | auto]]].
  split; simpl; auto; (eapply chain_agree; [eassumption|]; intros c' Hc'; apply lookup_insert_ne; intros E; rewrite <- E in Hc'; contradiction).
Qed.

Lemma rep_start w xq xp s t : rep w xq xp s -> known (base s) t ->
  exists w' c, sexp_thread_start t w = Some (tt, w') /\ rep w' (xq ++ [(c, t)]) xp (start t s) /\ paused w' = paused w.
Proof.
  intros H Ht. unfold sexp_thread_start. destruct (rep_set_context _ _ _ _ t (set_errorp false) H Ht) as (w1 & E1 & H1).
  assert (Hp1 : paused w1 = paused w).
  { unfold set_context in E1. erewrite run_bind in E1 by (eapply rep_get_context; [exact H | exact Ht]). injection E1 as <-. reflexivity. }
  rewrite (run_bind _ _ _ _ _ E1). destruct (rep_cons _ _ _ _ t None H1) as (w2 & c & E2 & H2 & Hc & Hin & Hp2).
  rewrite (run_bind _ _ _ _ _ E2). erewrite run_bind by reflexivity. rewrite elem_of_app in Hin.
  destruct (rep_append _ _ _ _ [(c, t)] H2) as (w3 & E3 & Hp3 & _ & H3); [discriminate | simpl; eauto | |].
  - pose proof (rep_nodup _ _ _ _ H2) as Hnd. simpl. rewrite <- Permutation_middle. apply NoDup_cons.
    split; [rewrite elem_of_app; tauto | exact Hnd].
  - exists (with_back (Some c) w3), c. split; [|split; [exact H3 | simpl; congruence]]. simpl in E3.
    destruct (back w2) as [b|]; rewrite (run_bind _ _ _ _ _ E3); reflexivity.
Qed.

(** ** The operations of threads *)

Lemma all_known_on_base s t f : all_known s -> all_known (on_base (upd t f) s).
Proof. intros H u Hu. simpl in *. apply known_upd, H, Hu. Qed.

Lemma rep_wait w xq xp s now ctx v timeout : rep w xq xp s -> all_known s -> known (base s) ctx ->
  (forall u, timeout = TimeOf u -> known (base s) u) ->
  exists w' xp', wait_for now ctx v timeout w = Some (tt, w') /\ rep w' xq xp' (wait now ctx v timeout s).
Proof.
  intros H Hk Hc Hu. unfold wait_for.
  destruct (rep_set_context _ _ _ _ ctx (set_waitp true) H Hc) as (w1 & E1 & H1). rewrite (run_bind _ _ _ _ _ E1).
  destruct (rep_set_context _ _ _ _ ctx (set_event v) H1) as (w2 & E2 & H2); [apply known_upd, Hc|].
  rewrite (run_bind _ _ _ _ _ E2). apply (rep_insert_timed _ _ _ _ now ctx timeout H2).
  - apply (all_known_on_base (on_base (upd ctx (set_waitp true)) s)), all_known_on_base, Hk.
  - apply known_upd, known_upd, Hc.
  - intros u Eu. apply known_upd, known_upd, Hu, Eu.
Qed.

(** A pair put at the front of the queue. *)
Lemma rep_push w xq xp s c t d : rep w xq xp s -> cells w !! c = Some (t, d) -> c ∉ xq.*1 ++ xp.*1 ->
  exists w', (forall B (k : M B), (f ← get_front; set_cdr c f;; set_front (Some c);; d ← cdr c;
      (match d with None => set_back (Some c) | Some _ => mret tt end);; k) w = k w')
    /\ rep w' ((c, t) :: xq) xp (Sched (base s) (t :: queue s) (waiting s)) /\ cells w' !! c = Some (t, front w).
Proof.
  intros [H1 H2 H3 H4 H5 H6 H7] Hc Hin.
  assert (Hc' : <[c := (t, front w)]> (cells w) !! c = Some (t, front w)) by apply lookup_insert_eq.
  assert (Hoff : forall ls xs, chain (cells w) ls xs None -> c ∉ xs.*1 -> chain (<[c := (t, front w)]> (cells w)) ls xs None).
  { intros ls xs H Hx. eapply chain_agree; [exact H|]. intros c' Hc''. apply lookup_insert_ne. intros ->. auto. }
  rewrite elem_of_app in Hin. pose proof (chain_head _ _ _ H2) as Hf.
  assert (Hnd : NoDup (c :: xq.*1 ++ xp.*1)) by (apply NoDup_cons; split; [rewrite elem_of_app; tauto | exact H5]).
  assert (Hqueue : t :: xq.*2 = t :: queue s) by (f_equal; exact H6).
  assert (Hchain : exists e, <[c := (t, front w)]> (cells w) !! c = Some (t, e) /\ chain (<[c := (t, front w)]> (cells w)) e xq None)
    by (exists (front w); split; [exact Hc' | apply Hoff; [exact H2 | tauto]]).
  assert (Hpaused : chain (<[c := (t, front w)]> (cells w)) (paused w) xp None) by (apply Hoff; [exact H4 | tauto]).
  exists (World (st w) (<[c := (t, front w)]> (cells w)) (Some c) (match front w with Some _ => back w | None => Some c end) (paused w)).
  split.
  { intros B k. erewrite run_bind by reflexivity. rewrite (run_bind _ _ _ _ _ (run_set_cdr _ _ _ _ (front w) Hc)).
    erewrite run_bind by reflexivity. erewrite run_bind by (eapply run_cdr; exact Hc').
    unfold mbind, M_bind. simpl. destruct (front w); reflexivity. }
  split; [|exact Hc']. split; [exact H1 | exact (conj eq_refl Hchain) | | exact Hpaused | exact Hnd | exact Hqueue | exact H7].
  simpl. destruct (front w) as [f|].
  - rewrite H3. destruct xq as [|x xq]; [discriminate | reflexivity].
  - destruct xq as [|x xq]; [reflexivity | discriminate].
Qed.

Lemma take_first_split (f : thread -> bool) (l1 l2 : list thread) : Forall (fun y => f y = false) l1 ->
  take_first f (l1 ++ l2) = match take_first f l2 with Some (x, l) => Some (x, l1 ++ l) | None => None end.
Proof.
  induction 1 as [|y l1 Hy _ IH]; simpl; [destruct (take_first f l2) as [[x l]|]; reflexivity|].
  rewrite Hy, IH. destruct (take_first f l2) as [[x l]|]; reflexivity.
Qed.

Lemma rep_wake w xq xp s v : rep w xq xp s -> all_known s ->
  exists w' xq' xp', wake_first v w = Some ((wake v s).1, w') /\ rep w' xq' xp' (wake v s).2.
Proof.
  intros H Hk. unfold wake_first. do 2 erewrite run_bind by reflexivity.
  destruct (run_scan (fun t => c ← get_context t; mret (bool_decide (event c <> v)))
      (fun t => bool_decide (event (the (base s) t) <> v)) w xp (S (size (cells w))) None (paused w))
    as (ys & zs & -> & Hys & Hzs & E).
  { intros t Ht. erewrite run_bind; [reflexivity|]. eapply rep_get_context; [exact H|]. apply Hk.
    rewrite (rep_waiting _ _ _ _ H) in Ht. auto. }
  { apply (rep_paused _ _ _ _ H). }
  { apply (rep_fuel _ _ _ _ H). }
  rewrite (run_bind _ _ _ _ _ E), last_cell_some. clear E.
  assert (Hys' : Forall (fun t => bool_decide (event (the (base s) t) = v) = false) ys.*2).
  { apply Forall_fmap. eapply Forall_impl; [exact Hys|]. intros y Hy. simpl in *. apply bool_decide_eq_true in Hy.
    apply bool_decide_eq_false. exact Hy. }
  assert (Hw : wake v s = match take_first (fun t => bool_decide (event (the (base s) t) = v)) zs.*2 with
    | Some (t, l) => (true, Sched (upd t (set_waitp false) (upd t (set_timeoutp false) (base s))) (t :: queue s) (ys.*2 ++ l))
    | None => (false, s) end).
  { unfold wake. rewrite <- (rep_waiting _ _ _ _ H), fmap_app, (take_first_split _ _ _ Hys').
    destruct (take_first _ zs.*2) as [[t l]|]; reflexivity. }
  rewrite Hw. destruct zs as [|[c t] zs]; [exists w, xq, (ys ++ []); split; [reflexivity | exact H]|].
  specialize (Hzs _ eq_refl). simpl in Hzs. apply bool_decide_eq_false, dec_stable in Hzs. simpl.
  rewrite bool_decide_true by exact Hzs. simpl.
  pose proof (rep_paused _ _ _ _ H) as Hp. apply chain_split in Hp as (m & _ & _ & d & Hc & Hz).
  rewrite (run_bind _ _ _ _ _ (run_cdr _ _ _ _ Hc)). pose proof (chain_head _ _ _ Hz) as ->.
  destruct (rep_unlink _ _ _ _ _ _ _ H) as (w1 & E1 & H1 & Hc1 & Hin & _). rewrite (run_bind _ _ _ _ _ E1).
  destruct (rep_push _ _ _ _ _ _ _ H1 Hc1 Hin) as (w2 & E2 & H2 & Hc2).
  assert (Ht : known (base s) t).
  { apply Hk. right. rewrite <- (rep_waiting _ _ _ _ H), fmap_app. apply elem_of_app. right. apply elem_of_cons. auto. }
  destruct (rep_set_context _ _ _ _ t (set_timeoutp false) H2 Ht) as (w3 & E3 & H3).
  destruct (rep_set_context _ _ _ _ t (set_waitp false) H3 ltac:(apply known_upd; exact Ht)) as (w4 & E4 & H4).
  exists w4, ((c, t) :: xq), (ys ++ zs). split; [|exact H4]. rewrite E2.
  rewrite (run_bind _ _ _ _ _ (run_car _ _ _ _ Hc2)), (run_bind _ _ _ _ _ E3), (run_bind _ _ _ _ _ E4). reflexivity.
Qed.

(** ** What is known stays known *)

Lemma the_upd b t u f : the (upd u f b) t = if bool_decide (t = u) then f (the b u) else the b t.
Proof.
  unfold the at 1, upd. simpl. destruct (decide (t = u)) as [->|Hne].
  - rewrite lookup_insert_eq, bool_decide_true by reflexivity. reflexivity.
  - rewrite lookup_insert_ne by auto. rewrite bool_decide_false by exact Hne. reflexivity.
Qed.

Lemma elem_of_insert_after (go : thread -> bool) x y l : y ∈ insert_after go x l <-> y = x \/ y ∈ l.
Proof.
  induction l as [|z l IH]; simpl; [rewrite list_elem_of_singleton, elem_of_nil; tauto|].
  destruct (go z); rewrite !elem_of_cons, ?IH; tauto.
Qed.

Lemma take_first_elem (f : thread -> bool) l x l' : take_first f l = Some (x, l') -> x ∈ l /\ forall y, y ∈ l' -> y ∈ l.
Proof.
  revert x l'. induction l as [|z l IH]; intros x l'; simpl; [discriminate|]. destruct (f z).
  - intros [= <- <-]. split; [apply elem_of_cons; auto | intros y Hy; apply elem_of_cons; auto].
  - destruct (take_first f l) as [[u l1]|]; [|discriminate]. intros [= <- <-]. destruct (IH _ _ eq_refl) as [H1 H2].
    split; [apply elem_of_cons; auto|]. intros y. rewrite !elem_of_cons. intros [->|Hy]; auto.
Qed.

Lemma all_known_start s t : all_known s -> known (base s) t -> all_known (start t s).
Proof.
  intros H Ht u Hu. apply known_upd. simpl in Hu. rewrite elem_of_app, list_elem_of_singleton in Hu.
  destruct Hu as [[Hu| ->]|Hu]; auto.
Qed.

Lemma all_known_insert s now t timeout : all_known s -> known (base s) t -> all_known (insert_timed now t timeout s).
Proof.
  intros H Ht u Hu. apply known_upd. simpl in Hu. rewrite elem_of_insert_after in Hu.
  destruct Hu as [Hu|[->|Hu]]; auto. apply elem_of_remove_first in Hu. auto.
Qed.

Lemma known_wait b now ctx v timeout s t : b = base s -> known b t -> known (base (wait now ctx v timeout s)) t.
Proof. intros -> H. apply known_upd, known_upd, known_upd, H. Qed.

Lemma all_known_wait s now ctx v timeout : all_known s -> known (base s) ctx -> all_known (wait now ctx v timeout s).
Proof.
  intros H Hc. apply all_known_insert; [|apply known_upd, known_upd, Hc].
  intros u Hu. apply known_upd, known_upd, H, Hu.
Qed.

Lemma known_wake s v t : known (base s) t -> known (base (wake v s).2) t.
Proof. intros H. unfold wake. destruct (take_first _ _) as [[u l]|]; [apply known_upd, known_upd, H | exact H]. Qed.

Lemma all_known_wake s v : all_known s -> all_known (wake v s).2.
Proof.
  intros H. unfold wake. destruct (take_first _ _) as [[u l]|] eqn:E; [|exact H]. apply take_first_elem in E as [Hu Hl].
  intros t Ht. apply known_upd, known_upd. simpl in Ht. rewrite elem_of_cons in Ht. destruct Ht as [[->|Ht]|Ht]; auto.
Qed.

Lemma all_known_delete s t : all_known s -> all_known (Sched (base s) (queue s) (remove_first t (waiting s))).
Proof. intros H u [Hu|Hu]; simpl in *; [auto | apply elem_of_remove_first in Hu; auto]. Qed.

(** ** Terminating a chain of children *)

(** The threads from [t] on, each the child of the one before. *)
Fixpoint descent (b : store) (t : option thread) (l : list thread) : Prop :=
  match l with
  | [] => t = None
  | u :: l => t = Some u /\ known b u /\ descent b (child (the b u)) l
  end.

Lemma descent_unique b t l1 l2 : descent b t l1 -> descent b t l2 -> l1 = l2.
Proof.
  revert t l2. induction l1 as [|u l1 IH]; intros t [|v l2]; simpl; [auto | intros -> [? _]; congruence | intros [-> _]; congruence |].
  intros (-> & _ & H1) (E & _ & H2). injection E as ->. f_equal. eauto.
Qed.

Lemma descent_suffix b t l1 u l2 : descent b t (l1 ++ u :: l2) -> descent b (Some u) (u :: l2).
Proof.
  revert t. induction l1 as [|v l1 IH]; intros t; simpl; [intros (-> & H); auto|]. intros (_ & _ & H). exact (IH _ H).
Qed.

Lemma descent_nodup b t l : descent b t l -> NoDup l.
Proof.
  revert t. induction l as [|u l IH]; intros t H; [constructor|]. destruct H as (-> & Hk & H). constructor; [|eauto].
  intros Hin. apply list_elem_of_split in Hin as (l1 & l2 & ->).
  pose proof (descent_suffix _ _ _ _ _ H) as H2. pose proof (descent_unique b (Some u) _ (u :: l1 ++ u :: l2) H2) as E.
  simpl in E. specialize (E ltac:(auto)). apply (f_equal length) in E. simpl in E. rewrite length_app in E. simpl in E. lia.
Qed.

Lemma descent_length b t l : descent b t l -> (length l <= size (contexts b))%nat.
Proof.
  intros H. rewrite <- (size_list_to_set (C := gset thread) l), <- (size_dom (D := gset thread)) by eauto using descent_nodup.
  apply subseteq_size. intros u Hu. apply elem_of_list_to_set in Hu. apply elem_of_dom.
  revert t H. induction l as [|v l IH]; intros t H; [apply elem_of_nil in Hu; contradiction|]. destruct H as (_ & Hk & H).
  apply elem_of_cons in Hu as [->|Hu]; eauto.
Qed.

Lemma descent_upd b t l u f : (forall c, child (f c) = child c) -> descent b t l -> descent (upd u f b) t l.
Proof.
  intros Hf. revert t. induction l as [|v l IH]; intros t H; [exact H|]. destruct H as (-> & Hk & H).
  split; [reflexivity|]. split; [apply known_upd, Hk|]. rewrite the_upd. case_bool_decide; [subst v; rewrite Hf|]; auto.
Qed.

Definition terminated (ctx t : thread) s : sched :=
  if refuel (the (base s) ctx) >? 0 then
    on_base (fun b => upd t (set_refuel 0) (upd t (set_result VTerminateError) (upd t (set_errorp true) b))) s
  else s.

Lemma terminate_one_eq ctx t s : terminate_one ctx t s =
  let s := terminated ctx t s in
  if bool_decide (t ∈ waiting s) then start t (Sched (base s) (queue s) (remove_first t (waiting s))) else s.
Proof. reflexivity. Qed.

Lemma terminated_keeps ctx t s : (forall u, known (base s) u -> known (base (terminated ctx t s)) u)
  /\ (all_known s -> all_known (terminated ctx t s))
  /\ (forall o l, descent (base s) o l -> descent (base (terminated ctx t s)) o l).
Proof.
  unfold terminated. destruct (_ >? _); [|auto]. split; [|split].
  - intros u H. do 3 apply known_upd. exact H.
  - intros H u Hu. do 3 apply known_upd. apply H, Hu.
  - intros o l H. do 3 (apply descent_upd; [reflexivity|]). exact H.
Qed.

Lemma terminate_one_keeps ctx t s : known (base s) t -> all_known s ->
  (forall u, known (base s) u -> known (base (terminate_one ctx t s)) u) /\ all_known (terminate_one ctx t s)
  /\ (forall o l, descent (base s) o l -> descent (base (terminate_one ctx t s)) o l).
Proof.
  intros Ht Hk. rewrite terminate_one_eq. cbv zeta. destruct (terminated_keeps ctx t s) as (H1 & H2 & H3).
  case_bool_decide; [|auto]. split; [|split].
  - intros u Hu. apply known_upd, H1, Hu.
  - apply all_known_start; [apply all_known_delete, H2, Hk | apply H1, Ht].
  - intros o l H'. apply descent_upd; [reflexivity | apply H3, H'].
Qed.

Lemma rep_terminated w xq xp s ctx t : rep w xq xp s -> known (base s) ctx -> known (base s) t ->
  exists w', (forall B (k : M B), (c ← get_context ctx;
      (if refuel c >? 0 then
         set_context t (set_errorp true);; set_context t (set_result VTerminateError);; set_context t (set_refuel 0)
       else mret tt);; k) w = k w')
    /\ rep w' xq xp (terminated ctx t s).
Proof.
  intros H Hc Ht. unfold terminated. pose proof (rep_get_context _ _ _ _ ctx H Hc) as E.
  destruct (refuel (the (base s) ctx) >? 0) eqn:Ef.
  - destruct (rep_set_context _ _ _ _ t (set_errorp true) H Ht) as (w1 & E1 & H1).
    destruct (rep_set_context _ _ _ _ t (set_result VTerminateError) H1) as (w2 & E2 & H2); [apply known_upd, Ht|].
    destruct (rep_set_context _ _ _ _ t (set_refuel 0) H2) as (w3 & E3 & H3); [apply known_upd, known_upd, Ht|].
    exists w3. split; [|exact H3]. intros B k. rewrite (run_bind _ _ _ _ _ E), Ef.
    erewrite run_bind; [reflexivity|]. rewrite (run_bind _ _ _ _ _ E1), (run_bind _ _ _ _ _ E2). exact E3.
  - exists w. split; [|exact H]. intros B k. rewrite (run_bind _ _ _ _ _ E), Ef. reflexivity.
Qed.

Lemma rep_terminate_loop ctx : forall l fuel w xq xp s o, rep w xq xp s -> all_known s -> known (base s) ctx ->
  descent (base s) o l -> (length l < fuel)%nat ->
  exists w' xq' xp', terminate_loop fuel ctx o w = Some (tt, w') /\ rep w' xq' xp' (terminate ctx l s).
Proof.
  induction l as [|t l IH]; intros fuel w xq xp s o H Hk Hc Hd Hf; (destruct fuel as [|fuel]; [simpl in Hf; lia|]).
  - simpl in Hd. subst o. exists w, xq, xp. split; [reflexivity | exact H].
  - pose proof Hd as (-> & Ht & Hd'). destruct (terminate_one_keeps ctx t s Ht Hk) as (K1 & K2 & K3).
    assert (Hstep : exists w1 xq1 xp1, terminate_loop (S fuel) ctx (Some t) w = terminate_loop fuel ctx (child (the (base s) t)) w1
      /\ rep w1 xq1 xp1 (terminate_one ctx t s)).
    { cbn [terminate_loop]. rewrite terminate_one_eq. cbv zeta.
      destruct (rep_terminated _ _ _ _ ctx t H Hc Ht) as (w1 & E1 & H1). rewrite E1.
      destruct (rep_delete _ _ _ _ t H1) as (w2 & xp2 & E2 & H2). rewrite (run_bind _ _ _ _ _ E2).
      destruct (terminated_keeps ctx t s) as (T1 & T2 & T3).
      assert (Hchild : forall b, descent b (Some t) (t :: l) -> child (the b t) = child (the (base s) t)).
      { intros b (_ & _ & Hb). destruct l as [|u l]; [simpl in *; congruence|].
        destruct Hb as [-> _]. destruct Hd' as [-> _]. reflexivity. }
      case_bool_decide as Hin.
      - destruct (rep_start _ _ _ _ t H2 (T1 _ Ht)) as (w3 & c3 & E3 & H3 & _). rewrite (run_bind _ _ _ _ _ E3).
        erewrite run_bind by (eapply rep_get_context; [exact H3 | apply known_upd, T1, Ht]).
        exists w3, (xq ++ [(c3, t)]), xp2. split; [|exact H3]. rewrite Hchild; [reflexivity|]. apply descent_upd; [reflexivity|]. apply T3, Hd.
      - erewrite run_bind by reflexivity.
        erewrite run_bind by (eapply rep_get_context; [exact H2 | apply T1, Ht]).
        exists w2, xq, xp2. split; [rewrite Hchild; [reflexivity | apply T3, Hd]|].
        assert (Hr : remove_first t (waiting (terminated ctx t s)) = waiting (terminated ctx t s)).
        { assert (Hw : Forall (fun y => y <> t) (waiting (terminated ctx t s))) by (apply Forall_forall; intros y Hy ->; auto).
          pose proof (remove_first_split t _ [] Hw) as E. rewrite app_nil_r in E. simpl in E. rewrite app_nil_r in E. exact E. }
        rewrite Hr in H2. destruct (terminated ctx t s). exact H2. }
    destruct Hstep as (w1 & xq1 & xp1 & E1 & H1). rewrite E1.
    apply (IH fuel w1 xq1 xp1 (terminate_one ctx t s)); auto. simpl in Hf. lia.
Qed.

(** ** Laying out lists *)

Lemma lay_keys l q c : c ∈ (lay_list l q).*1 -> (Pos.to_nat l <= Pos.to_nat c < Pos.to_nat l + length q)%nat.
Proof.
  revert l. induction q as [|t q IH]; intros l; simpl; [intros H; apply elem_of_nil in H; contradiction|].
  rewrite elem_of_cons. intros [->|H]; [lia|]. apply IH in H. lia.
Qed.

Lemma lay_nodup l q : NoDup (lay_list l q).*1.
Proof.
  revert l. induction q as [|t q IH]; intros l; [constructor|]. simpl. constructor; [|apply IH]. intros H. apply lay_keys in H. lia.
Qed.

Lemma lay_length l q : length (lay_list l q) = length q.
Proof. revert l. induction q as [|t q IH]; intros l; simpl; [reflexivity | f_equal; apply IH]. Qed.

(** The pairs of a list that is laid out, with their threads. *)
Definition laid (x : list (cell * (thread * option cell))) : list (cell * thread) := (fun c => (c.1, c.2.1)) <$> x.

Lemma laid_keys x : (laid x).*1 = x.*1.
Proof. unfold laid. rewrite <- list_fmap_compose. reflexivity. Qed.

Lemma lay_chain cs l q : (forall x, x ∈ lay_list l q -> cs !! x.1 = Some x.2) ->
  chain cs (fst <$> head (lay_list l q)) (laid (lay_list l q)) None /\ (laid (lay_list l q)).*2 = q.
Proof.
  revert l. induction q as [|t q IH]; intros l H; [split; reflexivity|]. destruct (IH (Pos.succ l)) as [IH1 IH2].
  { intros x Hx. apply H. simpl. apply elem_of_cons. auto. }
  split; [|simpl; f_equal; exact IH2]. split; [reflexivity|]. eexists. split; [apply (H (l, _)); simpl; apply elem_of_cons; left; reflexivity|].
  destruct q as [|u q]; [reflexivity | exact IH1].
Qed.

(** The cells of [lay] represent the lists. *)
Lemma lay_represents s : represents (lay s) s.
Proof.
  set (q := lay_list 1 (queue s)). set (p := lay_list (Pos.of_succ_nat (length q)) (waiting s)).
  assert (Hnd : NoDup (q ++ p).*1).
  { rewrite fmap_app. apply NoDup_app. split; [apply lay_nodup|]. split; [|apply lay_nodup]. intros c Hq Hp.
    apply lay_keys in Hq, Hp. pose proof (lay_length 1 (queue s)) as Hl. fold q in Hl. rewrite SuccNat2Pos.id_succ in Hp. lia. }
  assert (Hc : forall x, x ∈ q ++ p -> cells (lay s) !! x.1 = Some x.2).
  { intros [c x] Hx. apply elem_of_list_to_map_1; [exact Hnd | exact Hx]. }
  destruct (lay_chain (cells (lay s)) 1 (queue s)) as [C1 Q1]; [intros x Hx; apply Hc, elem_of_app; auto|].
  destruct (lay_chain (cells (lay s)) (Pos.of_succ_nat (length q)) (waiting s)) as [C2 Q2]; [intros x Hx; apply Hc, elem_of_app; auto|].
  exists (laid q), (laid p). split; auto.
  - unfold last_cell, laid. simpl. rewrite fmap_last. fold q. destruct (last q) as [[c [t d]]|]; reflexivity.
  - rewrite !laid_keys, <- fmap_app. exact Hnd.
Qed.
