(* ===== verification/ThreadRefine.v ===== *)
(** * Threads refine their specification

    The parts of the scheduler on cells and locals, one by one, and then every
    request of a thread: running it on the cells gives the answer and the lists
    of the specification. *)
From S2P Require Import Prelude Threads ThreadSpec ThreadQueues.
From stdpp Require Import base list option gmap fin_map_dom.
#[local] Open Scope Z_scope.
Implicit Types (cs : links) (xs ys zs : list (cell * thread)) (w : world) (s : sched).

(** ** The scheduler *)

(** The local [front] of the scheduler. *)
Definition view (seen : bool) w : option cell := if seen then front w else None.

Lemma rep_off w xq xp s c v : rep w xq xp s -> c ∉ xq.*1 ++ xp.*1 -> rep (with_cells <[c := v]> w) xq xp s.
Proof.
  intros [H1 H2 H3 H4 H5 H6 H7] Hin. split; simpl; auto;
    (eapply chain_agree; [eassumption|]; intros c' Hc'; apply lookup_insert_ne; intros <-; apply Hin, elem_of_app; auto).
Qed.

Lemma rep_enqueue seen w xq xp s c t : rep w xq xp s -> cells w !! c = Some (t, None) -> c ∉ xq.*1 ++ xp.*1 ->
  (seen = false -> queue s <> []) ->
  exists w', enqueue (view seen w) c w = Some (view seen w', w') /\ paused w' = paused w
    /\ rep w' (xq ++ [(c, t)]) xp (Sched (base s) (queue s ++ [t]) (waiting s)).
Proof.
  intros H Hc Hin Hseen. unfold enqueue. erewrite run_bind by reflexivity. rewrite elem_of_app in Hin.
  destruct (rep_append _ _ _ _ [(c, t)] H) as (w1 & E1 & Hp & _ & H1); [discriminate | simpl; eauto | |].
  { pose proof (rep_nodup _ _ _ _ H) as Hnd. simpl. rewrite <- Permutation_middle. apply NoDup_cons.
    split; [rewrite elem_of_app; tauto | exact Hnd]. }
  exists (with_back (Some c) w1). split; [|split; [exact Hp | exact H1]].
  pose proof (rep_back _ _ _ _ H) as Hb. pose proof (chain_head _ _ _ (rep_front _ _ _ _ H)) as Hf.
  pose proof (chain_head _ _ _ (rep_front _ _ _ _ H1)) as Hf1. simpl in Hf1, E1.
  destruct xq as [|x xq].
  - rewrite Hb in *. simpl in E1. injection E1 as <-. destruct seen; [reflexivity|].
    exfalso. apply Hseen; [reflexivity|]. rewrite <- (rep_queue _ _ _ _ H). reflexivity.
  - assert (exists b, back w = Some b) as [b Eb].
    { rewrite Hb. unfold last_cell. destruct (last (x :: xq)) eqn:E; [eauto | apply last_None in E; discriminate]. }
    rewrite Eb in E1 |- *. erewrite run_bind by (rewrite (run_bind _ _ _ _ _ E1); reflexivity).
    unfold view. destruct seen; [|reflexivity]. rewrite Hf. simpl in Hf1 |- *. rewrite Hf1. reflexivity.
Qed.

Lemma run_unlink w ls1 l2 t d w' : cells w !! l2 = Some (t, d) -> link_paused ls1 d w = Some (tt, w') ->
  unlink (paused w) ls1 l2 w = Some (paused w', w').
Proof.
  intros Hc E. unfold unlink. rewrite (run_bind _ _ _ _ _ (run_cdr _ _ _ _ Hc)). destruct ls1 as [l1|]; simpl in E.
  - rewrite (run_bind _ _ _ _ _ E). unfold set_cdr, mbind, M_bind, car in E. destruct (cells w !! l1) as [[u e]|]; [|discriminate].
    injection E as <-. reflexivity.
  - injection E as <-. reflexivity.
Qed.

Lemma move_queue wakes update skip p : forall b q, exists q', (move wakes update skip b q p).1.2 = q ++ q'.
Proof.
  induction p as [|t p IH]; intros b q; simpl; [exists []; rewrite app_nil_r; reflexivity|]. destruct (wakes _).
  - destruct (IH (upd t update b) (if bool_decide (skip = Some t) then q else q ++ [t])) as [q' ->].
    case_bool_decide; [eauto|]. exists (t :: q'). rewrite <- app_assoc. reflexivity.
  - destruct (IH b q) as [q' E]. destruct (move wakes update skip b q p) as [[b' q1] p1]. simpl in *. eauto.
Qed.

Lemma rep_move wakes update skip seen : forall rest fuel w xq ys s, rep w xq (ys ++ rest) s ->
  (forall t, t ∈ rest.*2 -> known (base s) t) -> (seen = false -> queue s <> []) -> (length rest < fuel)%nat ->
  exists w' xq' zs, wake_loop wakes update skip fuel (view seen w) (paused w) (last_cell ys) (head rest.*1) w
      = Some ((view seen w', paused w'), w')
    /\ rep w' xq' zs (let '(b, q, p) := move wakes update skip (base s) (queue s) rest.*2 in Sched b q (ys.*2 ++ p)).
Proof.
  induction rest as [|[c t] rest IH]; intros fuel w xq ys s H Hk Hs Hf; (destruct fuel as [|fuel]; [simpl in Hf; lia|]).
  - rewrite app_nil_r in H. exists w, xq, ys. split; [reflexivity|]. simpl. rewrite app_nil_r, (rep_waiting _ _ _ _ H).
    destruct s. exact H.
  - pose proof (rep_paused _ _ _ _ H) as Hp. apply chain_split in Hp as (m & _ & -> & d & Hc & Hz).
    pose proof (chain_head _ _ _ Hz) as ->. cbn [wake_loop head fmap list_fmap fst snd move].
    rewrite (run_bind _ _ _ _ _ (run_car _ _ _ _ Hc)).
    assert (Ht : known (base s) t) by (apply Hk; apply elem_of_cons; auto).
    erewrite run_bind by (eapply rep_get_context; [exact H | exact Ht]).
    destruct (wakes (event (the (base s) t))).
    + destruct (rep_set_context _ _ _ _ t update H Ht) as (w1 & E1 & H1). rewrite (run_bind _ _ _ _ _ E1).
      assert (Hw1 : view seen w1 = view seen w /\ paused w1 = paused w /\ cells w1 = cells w).
      { unfold set_context in E1. erewrite run_bind in E1 by (eapply rep_get_context; [exact H | exact Ht]). injection E1 as <-. auto. }
      destruct Hw1 as (Hv & Hpw & Hcw). rewrite <- Hv, <- Hpw. rewrite <- Hcw in Hc.
      destruct (rep_unlink _ _ _ _ _ _ _ H1) as (w2 & E2 & H2 & Hc2 & Hin & _ & Hf2 & _).
      rewrite (run_bind _ _ _ _ _ (run_unlink _ _ _ _ _ _ Hc E2)), (run_bind _ _ _ _ _ (run_cdr _ _ _ _ Hc2)).
      rewrite (run_bind _ _ _ _ _ (run_set_cdr _ _ _ _ None Hc2)).
      set (w3 := with_cells <[c := (t, None)]> w2).
      assert (H3 : rep w3 xq (ys ++ rest) _) by (apply rep_off; [exact H2 | exact Hin]).
      assert (Hv3 : view seen w1 = view seen w3) by (unfold view; simpl; rewrite Hf2; reflexivity). rewrite Hv3.
      change (paused w2) with (paused w3).
      case_bool_decide as Hskip.
      * erewrite run_bind by reflexivity.
        destruct (IH fuel w3 xq ys _ H3) as (w' & xq' & zs & E & H'); [| exact Hs | simpl in Hf; lia |].
        { intros u Hu. apply known_upd, Hk. apply elem_of_cons. auto. }
        exists w', xq', zs. split; [exact E | exact H'].
      * destruct (rep_enqueue seen w3 _ _ _ c t H3) as (w4 & E4 & Hp4 & H4); [apply lookup_insert_eq | exact Hin | exact Hs |].
        rewrite (run_bind _ _ _ _ _ E4), <- Hp4.
        destruct (IH fuel w4 _ ys _ H4) as (w' & xq' & zs & E & H'); [| | simpl in Hf; lia |].
        { intros u Hu. apply known_upd, Hk. apply elem_of_cons. auto. }
        { intros _. simpl. intros Hnil. apply app_eq_nil in Hnil as [_ ?]. discriminate. }
        exists w', xq', zs. split; [exact E | exact H'].
    + rewrite (run_bind _ _ _ _ _ (run_cdr _ _ _ _ Hc)).
      destruct (IH fuel w xq (ys ++ [(c, t)]) s) as (w' & xq' & zs & E & H');
        [rewrite <- app_assoc; exact H | | exact Hs | simpl in Hf; lia |].
      { intros u Hu. apply Hk. apply elem_of_cons. auto. }
      rewrite last_cell_app in E. exists w', xq', zs. split; [exact E|].
      destruct (move wakes update skip (base s) (queue s) rest.*2) as [[b q] p].
      rewrite fmap_app, <- app_assoc in H'. exact H'.
Qed.

Lemma move_keeps wakes update skip p : forall b q, let r := move wakes update skip b q p in
  (forall t, known b t -> known r.1.1 t) /\ poll_fds r.1.1 = poll_fds b
  /\ (forall t, t ∈ r.1.2 \/ t ∈ r.2 -> t ∈ q \/ t ∈ p).
Proof.
  induction p as [|t p IH]; intros b q; simpl; [auto|]. destruct (wakes _).
  - destruct (IH (upd t update b) (if bool_decide (skip = Some t) then q else q ++ [t])) as (H1 & H2 & H3).
    split; [intros u Hu; apply H1, known_upd, Hu|]. split; [exact H2|]. intros u Hu. apply H3 in Hu. rewrite elem_of_cons.
    case_bool_decide; [tauto|]. rewrite elem_of_app, list_elem_of_singleton in Hu. tauto.
  - destruct (IH b q) as (H1 & H2 & H3). destruct (move wakes update skip b q p) as [[b' q'] p']. simpl in *.
    split; [exact H1|]. split; [exact H2|]. intros u. rewrite !elem_of_cons. intros [Hu|[->|Hu]]; [|auto|];
      destruct (H3 u ltac:(auto)); auto.
Qed.

Lemma move_step_keeps wakes update skip s : let s' := move_step wakes update skip s in
  (forall t, known (base s) t -> known (base s') t) /\ poll_fds (base s') = poll_fds (base s)
  /\ (all_known s -> all_known s') /\ (queue s <> [] -> queue s' <> []).
Proof.
  unfold move_step. pose proof (move_keeps wakes update skip (waiting s) (base s) (queue s)) as (H1 & H2 & H3).
  destruct (move_queue wakes update skip (waiting s) (base s) (queue s)) as [q' Hq].
  destruct (move wakes update skip (base s) (queue s) (waiting s)) as [[b q] p]. simpl in *. split; [exact H1|]. split; [exact H2|].
  split; [intros Hk t Ht; apply H1, Hk, H3, Ht | subst q; destruct (queue s); [congruence | discriminate]].
Qed.

Lemma rep_move_step wakes update skip seen w xq xp s : rep w xq xp s -> all_known s -> (seen = false -> queue s <> []) ->
  exists w' xq' xp', (n ← list_fuel; wake_loop wakes update skip n (view seen w) (paused w) None (paused w)) w
      = Some ((view seen w', paused w'), w')
    /\ rep w' xq' xp' (move_step wakes update skip s).
Proof.
  intros H Hk Hs. erewrite run_bind by reflexivity. pose proof (chain_head _ _ _ (rep_paused _ _ _ _ H)) as Hh.
  destruct (rep_move wakes update skip seen xp (S (size (cells w))) w xq [] s H) as (w' & xq' & zs & E & H');
    [| exact Hs | apply (rep_fuel _ _ _ _ H) |].
  - intros t Ht. apply Hk. rewrite (rep_waiting _ _ _ _ H) in Ht. auto.
  - exists w', xq', zs. rewrite Hh at 2. split; [exact E|]. unfold move_step. rewrite <- (rep_waiting _ _ _ _ H).
    destruct (move wakes update skip (base s) (queue s) xp.*2) as [[b q] p]. exact H'.
Qed.

Lemma rep_set_st w xq xp s f : rep w xq xp s -> set_st f w = Some (tt, with_st (f (st w)) w) /\ rep (with_st (f (st w)) w) xq xp (on_base f s).
Proof. intros H. split; [reflexivity | apply rep_with_st, H]. Qed.

Lemma length_remove_pollfd i l : (i < length l)%nat -> length (remove_pollfd i l) = (length l - 1)%nat.
Proof.
  intros Hi. unfold remove_pollfd. destruct (last l) eqn:E; [|apply last_None in E; subst; simpl in Hi; lia].
  rewrite length_take. destruct (_ <? _)%nat; rewrite ?length_insert; lia.
Qed.

(** The current thread, if the descriptor is the one it waits for. *)
Lemma rep_poll_self w xq xp s ctx (b : bool) : rep w xq xp s -> known (base s) ctx ->
  exists w', (if b then set_context ctx (fun c => set_event VFalse (woken c)) else mret tt) w = Some (tt, w')
    /\ rep w' xq xp (if b then on_base (upd ctx (fun c => set_event VFalse (woken c))) s else s)
    /\ front w' = front w /\ paused w' = paused w.
Proof.
  intros H Hc. destruct b; [|eauto]. destruct (rep_set_context _ _ _ _ ctx (fun c => set_event VFalse (woken c)) H Hc) as (w' & E & H').
  exists w'. split; [exact E|]. split; [exact H'|]. unfold set_context in E.
  erewrite run_bind in E by (eapply rep_get_context; [exact H | exact Hc]). injection E as <-. auto.
Qed.

Lemma rep_poll_loop seen ctx : forall n k w xq xp s, rep w xq xp s -> all_known s -> known (base s) ctx ->
  (seen = false -> queue s <> []) -> (n <= length (poll_fds (base s)))%nat ->
  exists w' xq' xp', poll_loop ctx n k (view seen w) (paused w) w = Some ((view seen w', paused w'), w')
    /\ rep w' xq' xp' (poll_steps ctx n k s).
Proof.
  induction n as [|i IH]; intros k w xq xp s H Hk Hc Hs Hn; cbn [poll_loop poll_steps]; [eauto 10|].
  destruct (k >? 0); [|eauto 10]. unfold get_st. erewrite run_bind by reflexivity. rewrite (rep_base _ _ _ _ H).
  destruct (lookup_lt_is_Some_2 (poll_fds (base s)) i ltac:(lia)) as [p Hp]. rewrite Hp.
  destruct (revents p); [|eapply IH; eauto; lia].
  erewrite run_bind by (eapply rep_get_context; [exact H | exact Hc]).
  destruct (rep_poll_self w xq xp s ctx (fd_event (fd p) (event (the (base s) ctx))) H Hc) as (w1 & E1 & H1 & Hf1 & Hp1).
  rewrite (run_bind _ _ _ _ _ E1). set (s1 := if fd_event _ _ then _ else s) in *.
  assert (K1 : all_known s1 /\ known (base s1) ctx /\ queue s1 = queue s /\ poll_fds (base s1) = poll_fds (base s)).
  { unfold s1. destruct (fd_event _ _); [|auto]. split; [apply all_known_on_base, Hk|]. split; [apply known_upd, Hc | auto]. }
  destruct K1 as (K1 & Kc & Kq & Kp).
  assert (Hs1 : seen = false -> queue s1 <> []) by (rewrite Kq; exact Hs).
  replace (view seen w) with (view seen w1) by (unfold view; rewrite Hf1; reflexivity). rewrite <- Hp1.
  destruct (rep_move_step (fd_event (fd p)) (fun c => set_event VFalse (woken c)) (Some ctx) seen w1 xq xp s1 H1 K1 Hs1)
    as (w2 & xq2 & xp2 & E2 & H2).
  destruct (move_step_keeps (fd_event (fd p)) (fun c => set_event VFalse (woken c)) (Some ctx) s1) as (M1 & M2 & M3 & M4).
  cbv zeta in *. set (s2 := move_step _ _ _ s1) in *.
  erewrite run_bind by reflexivity. erewrite run_bind in E2 by reflexivity. rewrite (run_bind _ _ _ _ _ E2).
  erewrite run_bind by reflexivity. rewrite (rep_base _ _ _ _ H2).
  erewrite run_bind by reflexivity.
  edestruct (IH (k - 1) (with_st (put_poll_fds (remove_pollfd i (poll_fds (base s2))) (st w2)) w2) xq2 xp2
    (on_base (fun b => put_poll_fds (remove_pollfd i (poll_fds b)) b) s2)) as (w3 & xq3 & xp3 & E3 & H3).
  - rewrite (rep_base _ _ _ _ H2), <- (rep_base _ _ _ _ H2) at 1. rewrite (rep_base _ _ _ _ H2).
    pose proof (rep_with_st _ _ _ _ (fun b => put_poll_fds (remove_pollfd i (poll_fds b)) b) H2) as H'.
    rewrite (rep_base _ _ _ _ H2) in H'. exact H'.
  - intros t Ht. apply (M3 K1 t Ht).
  - apply (M1 _ Kc).
  - intros E. apply M4, Hs1, E.
  - simpl. rewrite length_remove_pollfd; rewrite M2, Kp; lia.
  - exists w3, xq3, xp3. split; [exact E3 | exact H3].
Qed.

(** What every part of the scheduler before the choice keeps. *)
Record keeps s s' : Prop := Keeps {
  keeps_known : forall t, known (base s) t -> known (base s') t;
  keeps_all : all_known s -> all_known s';
  keeps_queue : queue s <> [] -> queue s' <> [];
}.

Lemma keeps_refl s : keeps s s.
Proof. split; auto. Qed.

Lemma keeps_trans s1 s2 s3 : keeps s1 s2 -> keeps s2 s3 -> keeps s1 s3.
Proof. intros [A1 A2 A3] [B1 B2 B3]. split; auto. Qed.

Lemma keeps_move wakes update skip s : keeps s (move_step wakes update skip s).
Proof. destruct (move_step_keeps wakes update skip s) as (H1 & _ & H3 & H4). split; assumption. Qed.

Lemma keeps_on_base f s : (forall b t, known b t -> known (f b) t) -> keeps s (on_base f s).
Proof. intros H. split; simpl; auto. intros Hk t Ht. apply H, Hk, Ht. Qed.

Lemma keeps_poll ctx : forall n k s, keeps s (poll_steps ctx n k s).
Proof.
  induction n as [|i IH]; intros k s; cbn [poll_steps]; [apply keeps_refl|]. destruct (k >? 0); [|apply keeps_refl].
  destruct (poll_fds (base s) !! i) as [p|]; [|apply keeps_refl]. destruct (revents p); [|apply IH].
  eapply keeps_trans; [|eapply keeps_trans; [|eapply keeps_trans; [|apply IH]]].
  - instantiate (1 := if fd_event (fd p) (event (the (base s) ctx)) then _ else s).
    destruct (fd_event _ _); [|apply keeps_refl]. apply (keeps_on_base (upd ctx (fun c => set_event VFalse (woken c)))).
    intros b t. apply known_upd.
  - apply keeps_move.
  - apply keeps_on_base. auto.
Qed.

Lemma keeps_fds poll ctx s : keeps s (fds_step poll ctx s).
Proof.
  unfold fds_step. destruct (0 <? _)%nat; [|apply keeps_refl]. destruct (poll _) as [k ready].
  eapply keeps_trans; [|apply keeps_poll]. apply keeps_on_base. auto.
Qed.

Lemma keeps_joins ctx s : keeps s (joins_step ctx s).
Proof. unfold joins_step. destruct (_ <=? _); [apply keeps_move | apply keeps_refl]. Qed.

Lemma check_fds_follows poll ctx w xq xp s seen : rep w xq xp s -> all_known s -> known (base s) ctx ->
  (seen = false -> queue s <> []) ->
  exists w' xq' xp', check_fds poll ctx (view seen w) (paused w) w = Some ((view seen w', paused w'), w')
    /\ rep w' xq' xp' (fds_step poll ctx s).
Proof.
  intros H Hk Hc Hs. unfold check_fds, fds_step, get_st. erewrite run_bind by reflexivity. rewrite (rep_base _ _ _ _ H).
  destruct (0 <? _)%nat; [|eauto 10]. destruct (poll (poll_fds (base s))) as [k ready]. erewrite run_bind by reflexivity.
  eapply (rep_poll_loop seen ctx _ k (with_st _ w)).
  - refine (rep_with_st w xq xp s (put_poll_fds _) H).
  - exact Hk.
  - exact Hc.
  - exact Hs.
  - simpl. rewrite length_imap. reflexivity.
Qed.

Lemma check_joins_follows ctx w xq xp s seen : rep w xq xp s -> all_known s -> known (base s) ctx ->
  (seen = false -> queue s <> []) ->
  exists w' xq' xp', check_joins ctx (view seen w) (paused w) w = Some ((view seen w', paused w'), w')
    /\ rep w' xq' xp' (joins_step ctx s).
Proof.
  intros H Hk Hc Hs. unfold check_joins, joins_step.
  erewrite run_bind by (eapply rep_get_context; [exact H | exact Hc]).
  destruct (_ <=? _); [|eauto 10]. exact (rep_move_step _ _ _ seen w xq xp s H Hk Hs).
Qed.

(** *** Timeouts *)

(** The contexts after the loop, and the pairs it has passed. *)
Lemma run_timeout_loop now : forall xs fuel w ls1 ls2, (forall t, t ∈ xs.*2 -> known (st w) t) ->
  chain (cells w) ls2 xs None -> (length xs < fuel)%nat ->
  exists ys zs, xs = ys ++ zs /\ expire now (st w) xs.*2 = ((expire now (st w) xs.*2).1.1, ys.*2, zs.*2)
    /\ timeout_loop now fuel ls1 ls2 w
       = Some ((match last_cell ys with Some c => Some c | None => ls1 end, head zs.*1), with_st (expire now (st w) xs.*2).1.1 w).
Proof.
  induction xs as [|[c t] xs IH]; intros fuel w ls1 ls2 Hk H Hf; (destruct fuel as [|fuel]; [simpl in Hf; lia|]).
  - simpl in H. subst. exists [], []. split; [reflexivity|]. split; [reflexivity|]. destruct w. reflexivity.
  - destruct H as (-> & d & Hc & H). cbn [timeout_loop fmap list_fmap snd expire].
    rewrite (run_bind _ _ _ _ _ (run_car _ _ _ _ Hc)).
    assert (Ht : known (st w) t) by (apply Hk; apply elem_of_cons; auto).
    rewrite (run_bind _ _ _ _ _ (run_get_context _ _ Ht)). destruct (sexp_context_before (the (st w) t) now).
    + rewrite (run_bind _ _ _ _ _ (run_set_context _ _ (set_timeoutp true) Ht)).
      erewrite run_bind by (apply run_set_context; apply known_upd; exact Ht).
      erewrite run_bind by (eapply run_cdr; exact Hc). simpl st.
      set (b := upd t (set_waitp false) (upd t (set_timeoutp true) (st w))).
      destruct (IH fuel (with_st b w) (Some c) d) as (ys & zs & -> & E1 & E2); [| exact H | simpl in Hf; lia |].
      { intros u Hu. apply known_upd, known_upd, Hk. apply elem_of_cons. auto. }
      simpl st in E1, E2. exists ((c, t) :: ys), zs. split; [reflexivity|]. rewrite E1. split; [reflexivity|]. simpl.
      etransitivity; [exact E2|]. unfold last_cell. destruct ys as [|y ys]; [reflexivity|].
      change (last ((c, t) :: y :: ys)) with (last (y :: ys)).
      destruct (last (y :: ys)) eqn:El; [reflexivity | apply last_None in El; discriminate].
    + exists [], ((c, t) :: xs). split; [reflexivity|]. split; [reflexivity|]. destruct w. reflexivity.
Qed.

Definition with_paused (p : option cell) w : world := World (st w) (cells w) (front w) (back w) p.

(** Linking to the queue does not look at the paused threads. *)
Lemma run_append_paused x p w w' : match back w with Some b => set_cdr b x | None => set_front x end (with_paused p w) = Some (tt, w') ->
  match back w with Some b => set_cdr b x | None => set_front x end w = Some (tt, with_paused (paused w) w').
Proof.
  destruct (back w) as [b|] eqn:Eb; [|intros [= <-]; reflexivity]. unfold set_cdr, mbind, M_bind, car. simpl.
  destruct (cells w !! b) as [[t d]|]; [|discriminate]. intros [= <-]. reflexivity.
Qed.

(** The threads [ys] at the start of the paused ones, cut off. *)
Lemma rep_cut w xq ys zs c t s : rep w xq ((ys ++ [(c, t)]) ++ zs) s ->
  exists w', set_cdr c None w = Some (tt, w') /\ st w' = st w /\ front w' = front w /\ back w' = back w /\ paused w' = paused w
    /\ rep (with_paused (head zs.*1) w') xq zs (Sched (base s) (queue s) zs.*2)
    /\ chain (cells w') (paused w') (ys ++ [(c, t)]) None.
Proof.
  intros [H1 H2 H3 H4 H5 H6 H7]. apply chain_split in H4 as (m & Hy & Hz). pose proof (chain_head _ _ _ Hz) as ->.
  rewrite (fmap_app fst (ys ++ [(c, t)]) zs) in H5. pose proof H5 as Hnd. apply NoDup_app in Hnd as (Hq & Hd & Hnd).
  apply NoDup_app in Hnd as (Hnd & Hd' & Hndz).
  destruct (chain_set_end _ _ _ _ _ _ None Hy Hnd) as [Hc Hy']. exists (with_cells <[c := (t, None)]> w).
  assert (Hcy : c ∈ (ys ++ [(c, t)]).*1) by (rewrite fmap_app; apply elem_of_app; right; apply elem_of_cons; auto).
  assert (Hcq : c ∉ xq.*1) by (intros Hin; apply (Hd _ Hin), elem_of_app; auto).
  assert (Hcz : c ∉ zs.*1) by (intros Hin; apply (Hd' _ Hcy Hin)).
  split; [apply run_set_cdr with (1 := Hc)|]. do 4 (split; [reflexivity|]). split; [|exact Hy']. split; simpl; auto.
  - eapply chain_agree; [exact H2|]. intros c' Hc'. apply lookup_insert_ne. intros ->. auto.
  - eapply chain_agree; [exact Hz|]. intros c' Hc'. apply lookup_insert_ne. intros ->. auto.
  - apply NoDup_app. split; [exact Hq|]. split; [|exact Hndz]. intros c' Hc' Hz'. apply (Hd _ Hc'), elem_of_app. auto.
Qed.

Lemma check_timeouts_follows now w xq xp s seen : rep w xq xp s -> all_known s -> (seen = false -> queue s <> []) ->
  exists w' xq' xp', check_timeouts now (view seen w) (paused w) w = Some ((view seen w', paused w'), w')
    /\ rep w' xq' xp' (timeouts_step now s).
Proof.
  intros H Hk Hs. unfold check_timeouts, timeouts_step. pose proof (rep_paused _ _ _ _ H) as Hp.
  destruct (run_timeout_loop now xp (S (size (cells w))) w None (paused w)) as (ys & zs & -> & Ee & E).
  { intros t Ht. rewrite (rep_base _ _ _ _ H). apply Hk. rewrite (rep_waiting _ _ _ _ H) in Ht. auto. }
  { exact Hp. }
  { apply (rep_fuel _ _ _ _ H). }
  rewrite (rep_base _ _ _ _ H), (rep_waiting _ _ _ _ H) in Ee, E. set (b := (expire now (base s) (waiting s)).1.1) in *.
  rewrite Ee. clear Ee. rewrite last_cell_some in E.
  assert (Hb : rep (with_st b w) xq (ys ++ zs) (Sched b (queue s) (waiting s))) by (destruct H; split; auto).
  destruct ys as [|[c t] ys _] using rev_ind.
  - simpl in *. destruct (paused w) as [first|] eqn:Epw.
    + erewrite run_bind by reflexivity. rewrite (run_bind _ _ _ _ _ E). exists (with_st b w), xq, zs.
      split; [simpl; rewrite Epw; reflexivity|]. rewrite app_nil_r. destruct Hb; split; auto.
    + exists w, xq, zs. rewrite Epw. split; [reflexivity|]. pose proof (chain_head _ _ _ Hp) as Hz.
      destruct zs; [|discriminate]. rewrite app_nil_r.
      assert (b = base s) as -> by (unfold b; rewrite <- (rep_waiting _ _ _ _ H); reflexivity). destruct H; split; auto.
  - assert (Hne : ys ++ [(c, t)] <> []) by (destruct ys; discriminate).
    destruct (paused w) as [first|] eqn:Epw; [|apply chain_head in Hp; destruct ys; discriminate].
    erewrite run_bind by reflexivity. rewrite (run_bind _ _ _ _ _ E), last_cell_app.
    destruct (rep_cut _ _ _ _ _ _ _ Hb) as (w1 & E1 & Es1 & Ef1 & Eb1 & Ep1 & H1 & Hy1). rewrite (run_bind _ _ _ _ _ E1).
    erewrite run_bind by reflexivity. rewrite Ep1 in Hy1. simpl in Hy1. rewrite Epw in Hy1.
    pose proof (chain_head _ _ _ Hy1) as Hfirst.
    destruct (rep_append _ _ _ _ (ys ++ [(c, t)]) H1 Hne) as (w2 & E2 & Ep2 & _ & H2).
    { rewrite <- Hfirst. exact Hy1. }
    { pose proof (rep_nodup _ _ _ _ Hb) as Hnd. rewrite (fmap_app fst (ys ++ [(c, t)]) zs) in Hnd. exact Hnd. }
    rewrite <- Hfirst in E2. change (back (with_paused (head zs.*1) w1)) with (back w1) in E2. apply run_append_paused in E2. rewrite last_cell_app in H2.
    exists (with_paused (head zs.*1) (with_back (Some c) w2)), (xq ++ ys ++ [(c, t)]), zs.
    split; [|simpl in Ep2; rewrite <- Ep2; destruct H2; split; auto].
    assert (Hfront : (match back w1 with None => set_front (Some first);; mret (Some first)
        | Some b => set_cdr b (Some first);; mret (view seen w) end) w1
      = Some (view seen w2, with_paused (paused w1) w2)).
    { pose proof (rep_back _ _ _ _ H1) as Hb1. pose proof (chain_head _ _ _ (rep_front _ _ _ _ H1)) as Hf1.
      pose proof (chain_head _ _ _ (rep_front _ _ _ _ H2)) as Hf2. simpl in Hb1, Hf1, Hf2, E2.
      destruct (back w1) as [bk|]; rewrite (run_bind _ _ _ _ _ E2); unfold mret, M_ret; do 2 f_equal.
      - unfold view. destruct seen; [|reflexivity]. destruct xq as [|x xq]; [discriminate|]. simpl in *. congruence.
      - unfold view. destruct seen.
        + destruct xq as [|x xq]; [simpl in Hf2; congruence|]. unfold last_cell in Hb1. destruct (last (x :: xq)) eqn:El; [discriminate | apply last_None in El; discriminate].
        + exfalso. apply Hs; [reflexivity|]. rewrite <- (rep_queue _ _ _ _ H). destruct xq as [|x xq]; [reflexivity|].
          unfold last_cell in Hb1. destruct (last (x :: xq)) eqn:El; [discriminate | apply last_None in El; discriminate]. }
    rewrite (run_bind _ _ _ _ _ Hfront). reflexivity.
Qed.

(** *** Signals *)

(** The runner for signals, if there is one, has its context. *)
Definition runner_known s : Prop := forall t, signal_runner (base s) = RunnerThread t -> known (base s) t.

Lemma known_new b t u c : known b u -> known (put_context t c b) u.
Proof.
  unfold known. simpl. intros H. destruct (decide (u = t)) as [->|]; [rewrite lookup_insert_eq; eauto | rewrite lookup_insert_ne by auto; exact H].
Qed.

Lemma run_make_thread w : let t := fresh (dom (contexts (st w))) in
  sexp_make_thread w = Some (t, with_st (put_context t new_context (st w)) w).
Proof. reflexivity. Qed.

Lemma check_signals_follows w xq xp s : rep w xq xp s -> all_known s -> runner_known s ->
  let seen := (signals_step s).1 in
  exists w' xq', check_signals (front w) w = Some (view seen w', w') /\ paused w' = paused w
    /\ rep w' xq' xp (signals_step s).2 /\ keeps s (signals_step s).2 /\ (seen = false -> queue (signals_step s).2 <> []).
Proof.
  intros H Hk Hr. unfold check_signals, signals_step, get_st. erewrite run_bind by reflexivity. rewrite (rep_base _ _ _ _ H).
  pose proof (chain_head _ _ _ (rep_front _ _ _ _ H)) as Hf.
  assert (Hidle : exists w' xq', (mret (front w) : M _) w = Some (view true w', w') /\ paused w' = paused w
    /\ rep w' xq' xp s /\ keeps s s /\ (true = false -> queue s <> [])).
  { exists w, xq. split; [reflexivity|]. split; [reflexivity|]. split; [exact H|]. split; [apply keeps_refl | discriminate]. }
  destruct (signals (base s) =? 0); [exact Hidle|]. erewrite run_bind by reflexivity. rewrite (rep_base _ _ _ _ H).
  destruct (signal_runner (base s)) as [found|t|] eqn:Er; [| |exact Hidle].
  - destruct found; [|exact Hidle]. cbv zeta. set (t := fresh (dom (contexts (base s)))).
    rewrite (run_bind _ _ _ _ _ (run_make_thread w)), (rep_base _ _ _ _ H). fold t. erewrite run_bind by reflexivity.
    set (s1 := on_base (fun b => put_runner (RunnerThread t) (put_context t new_context b)) s).
    edestruct (rep_start (with_st (base s1) w) xq xp s1 t) as (w1 & c & E1 & H1 & Hp1).
    { destruct H; split; auto. }
    { unfold known. simpl. rewrite lookup_insert_eq. eauto. }
    rewrite (run_bind _ _ _ _ _ E1).
    pose proof (chain_head _ _ _ (rep_front _ _ _ _ H1)) as Hf1.
    exists w1, (xq ++ [(c, t)]). split; [|split; [exact Hp1 | split; [exact H1 | split; [|discriminate]]]].
    + destruct (front w) as [f|]; [|reflexivity]. unfold mret, M_ret, view. do 2 f_equal.
      rewrite Hf1. destruct xq as [|x xq]; [discriminate|]. exact Hf.
    + split.
      * intros u Hu. apply known_upd. exact (known_new _ _ _ _ Hu).
      * intros _. apply all_known_start; [intros u Hu; exact (known_new _ _ _ _ (Hk u Hu))|].
        unfold known. simpl. rewrite lookup_insert_eq. eauto.
      * simpl. intros Hq. destruct (queue s); [congruence | discriminate].
  - assert (Ht : known (base s) t) by (apply Hr; exact Er).
    erewrite run_bind by (eapply rep_get_context; [exact H | exact Ht]).
    destruct (waitp (the (base s) t)); [|exact Hidle].
    destruct (rep_set_context _ _ _ _ t (set_waitp false) H Ht) as (w1 & E1 & H1). rewrite (run_bind _ _ _ _ _ E1).
    assert (Hp1 : paused w1 = paused w).
    { unfold set_context in E1. erewrite run_bind in E1 by (eapply rep_get_context; [exact H | exact Ht]). injection E1 as <-. reflexivity. }
    destruct (rep_start _ _ _ _ t H1 (known_upd _ _ _ _ Ht)) as (w2 & c & E2 & H2 & Hp2). rewrite (run_bind _ _ _ _ _ E2).
    pose proof (chain_head _ _ _ (rep_front _ _ _ _ H2)) as Hf2.
    exists w2, (xq ++ [(c, t)]). split; [|split; [congruence | split; [exact H2 | split]]].
    + simpl. unfold mret, M_ret, view. do 2 f_equal. rewrite Hf, Hf2, <- (rep_queue _ _ _ _ H).
      destruct xq as [|x xq]; [rewrite bool_decide_false by auto; reflexivity | rewrite bool_decide_true by discriminate; reflexivity].
    + split.
      * intros u Hu. apply known_upd, known_upd, Hu.
      * intros _. apply all_known_start; [intros u Hu; apply known_upd, Hk, Hu | apply known_upd, Ht].
      * simpl. intros Hq. destruct (queue s); [congruence | discriminate].
    + simpl. intros _. destruct (queue s); discriminate.
Qed.

(** *** The next thread *)

Lemma run_memq x w ls xs : chain (cells w) ls xs None -> NoDup xs.*1 -> memq x ls w = Some (bool_decide (x ∈ xs.*2), w).
Proof.
  intros H Hnd. unfold memq. erewrite run_bind by reflexivity. pose proof (chain_length _ _ _ _ H Hnd) as Hlen.
  destruct (run_scan (fun t => mret (bool_decide (t <> x))) (fun t => bool_decide (t <> x)) w xs (S (size (cells w))) None ls)
    as (ys & zs & -> & Hys & Hzs & E); [reflexivity | exact H | lia |].
  rewrite (run_bind _ _ _ _ _ E). unfold mret, M_ret. do 2 f_equal. apply bool_decide_ext. rewrite fmap_app, elem_of_app.
  destruct zs as [|[c t] zs]; simpl.
  - split; [congruence|]. intros [Hin|Hin]; [|apply elem_of_nil in Hin; contradiction]. exfalso.
    apply list_elem_of_fmap in Hin as (y & -> & Hy). rewrite Forall_forall in Hys. specialize (Hys y Hy). simpl in Hys.
    apply bool_decide_eq_true in Hys. congruence.
  - split; [|discriminate]. intros _. right. specialize (Hzs _ eq_refl). simpl in Hzs.
    apply bool_decide_eq_false, dec_stable in Hzs as ->. apply elem_of_cons. auto.
Qed.

Lemma rep_memq w xq xp s x : rep w xq xp s -> memq x (paused w) w = Some (bool_decide (x ∈ waiting s), w).
Proof.
  intros H. rewrite <- (rep_waiting _ _ _ _ H). apply run_memq; [apply (rep_paused _ _ _ _ H)|].
  pose proof (rep_nodup _ _ _ _ H) as Hnd. apply NoDup_app in Hnd as (_ & _ & Hnd). exact Hnd.
Qed.

(** The queue without its first pair. *)
Lemma rep_pop w xq xp s f t : rep w ((f, t) :: xq) xp s ->
  car f w = Some (t, w) /\ cdr f w = Some (head xq.*1, w) /\ queue s = t :: xq.*2
  /\ rep (World (st w) (cells w) (head xq.*1) (match head xq.*1 with None => None | Some _ => back w end) (paused w)) xq xp
       (Sched (base s) xq.*2 (waiting s)).
Proof.
  intros [H1 H2 H3 H4 H5 H6 H7]. destruct H2 as (Hf & d & Hc & H2). pose proof (chain_head _ _ _ H2) as ->.
  split; [apply (run_car _ _ _ _ Hc)|]. split; [apply (run_cdr _ _ _ _ Hc)|]. split; [symmetry; exact H6|].
  split; simpl; auto.
  - rewrite H3. unfold last_cell. destruct xq as [|x xq]; [reflexivity|]. simpl. reflexivity.
  - simpl in H5. apply NoDup_cons in H5 as [_ H5]. exact H5.
Qed.

(** The first pair goes to the end, with another thread. *)
Lemma rep_rotate w xq xp s f t ctx : rep w ((f, t) :: xq) xp s ->
  exists w', (forall B (k : M B), (
        (g ← get_front; match g with Some g => set_car g ctx | None => fail end);;
        (b ← get_back; g ← get_front; match b with Some b => set_cdr b g | None => fail end);;
        (g ← get_front; match g with Some g => d ← cdr g; set_front d | None => fail end);;
        (b ← get_back; match b with Some b => d ← cdr b; set_back d | None => fail end);;
        (b ← get_back; match b with Some b => set_cdr b None | None => fail end);;
        k) w = k w')
    /\ paused w' = paused w /\ rep w' (xq ++ [(f, ctx)]) xp (Sched (base s) (xq.*2 ++ [ctx]) (waiting s)).
Proof.
  intros [H1 H2 H3 H4 H5 H6 H7]. destruct H2 as (Hf & d & Hc & H2). pose proof (chain_head _ _ _ H2) as ->.
  simpl in H5. apply NoDup_cons in H5 as [Hfn Hnd]. rewrite elem_of_app in Hfn.
  set (cs1 := <[f := (ctx, head xq.*1)]> (cells w)).
  assert (Hcar : (g ← get_front; match g with Some g => set_car g ctx | None => fail end) w = Some (tt, with_cells <[f := (ctx, head xq.*1)]> w)).
  { erewrite run_bind by reflexivity. rewrite Hf. apply run_set_car with (1 := Hc). }
  assert (Hoff : forall ls xs e, chain (cells w) ls xs e -> f ∉ xs.*1 -> chain cs1 ls xs e).
  { intros ls xs e H Hx. eapply chain_agree; [exact H|]. intros c' Hc'. apply lookup_insert_ne. intros <-. auto. }
  destruct xq as [|[b u] ys _] using rev_ind.
  - set (cs2 := <[f := (ctx, None)]> (<[f := (ctx, Some f)]> cs1)).
    exists (World (st w) cs2 (Some f) (Some f) (paused w)). split; [|split; [reflexivity|]].
    + intros B k. rewrite (run_bind _ _ _ _ _ Hcar). unfold last_cell in H3. simpl in H3.
      unfold mbind, M_bind, get_back, get_front, set_cdr, cdr, car, set_front, set_back, mbind, M_bind, put_cells, with_cells. simpl.
      rewrite H3, Hf. simpl. unfold cs2, cs1. repeat (rewrite lookup_insert_eq; simpl). reflexivity.
    + split; simpl; auto.
      * split; [reflexivity|]. exists None. split; [apply lookup_insert_eq | reflexivity].
      * eapply chain_agree; [exact H4|]. intros c' Hc'. unfold cs2, cs1. rewrite !lookup_insert_ne by (intros <-; tauto). reflexivity.
      * apply NoDup_cons. split; [intros Hin; apply Hfn; right; exact Hin | exact Hnd].
  - pose proof Hnd as Hndq. apply NoDup_app in Hndq as (Hndq & Hd & Hndp).
    assert (Hbf : b <> f) by (intros ->; apply Hfn; left; rewrite fmap_app; apply elem_of_app; right; apply elem_of_cons; auto).
    destruct (chain_set_end cs1 _ ys b u None (Some f) (Hoff _ _ _ H2 ltac:(tauto)) Hndq) as [Hb Hch].
    set (cs2 := <[b := (u, Some f)]> cs1) in *.
    exists (World (st w) (<[f := (ctx, None)]> cs2) (head (ys ++ [(b, u)]).*1) (Some f) (paused w)). split; [|split; [reflexivity|]].
    + intros B k. rewrite (run_bind _ _ _ _ _ Hcar).
      assert (H3' : back w = Some b) by (rewrite H3; unfold last_cell; rewrite <- last_cell_app with (xs := (f, t) :: ys) (t := u); reflexivity).
      unfold mbind, M_bind, get_back, get_front, set_cdr, cdr, car, set_front, set_back, mbind, M_bind, put_cells, with_cells. simpl.
      fold cs1. rewrite H3', Hf. simpl. rewrite Hb. simpl. fold cs2.
      unfold cs2 at 1. rewrite lookup_insert_ne by auto. unfold cs1 at 1. rewrite lookup_insert_eq. simpl.
      unfold cs2 at 1. rewrite lookup_insert_eq. simpl. unfold cs2 at 1. rewrite lookup_insert_ne by auto. unfold cs1 at 1. rewrite lookup_insert_eq. simpl.
      reflexivity.
    + assert (Hoff2 : forall ls xs e, chain cs2 ls xs e -> f ∉ xs.*1 -> chain (<[f := (ctx, None)]> cs2) ls xs e).
      { intros ls xs e H Hx. eapply chain_agree; [exact H|]. intros c' Hc'. apply lookup_insert_ne. intros <-. auto. }
      split; simpl.
      * exact H1.
      * apply chain_split. exists (Some f). split; [apply Hoff2; [exact Hch | tauto]|]. split; [reflexivity|]. exists None.
        split; [apply lookup_insert_eq | reflexivity].
      * symmetry. apply last_cell_app.
      * apply Hoff2; [|tauto]. eapply chain_agree; [apply Hoff; [exact H4 | tauto]|]. intros c' Hc'. apply lookup_insert_ne. intros <-.
        apply (Hd b); [rewrite fmap_app; apply elem_of_app; right; apply elem_of_cons; auto | exact Hc'].
      * rewrite (fmap_app fst (ys ++ [(b, u)]) [(f, ctx)]), <- app_assoc. simpl. rewrite <- Permutation_middle.
        apply NoDup_cons. split; [rewrite elem_of_app; tauto | exact Hnd].
      * rewrite (fmap_app snd (ys ++ [(b, u)]) [(f, ctx)]). reflexivity.
      * exact H7.
Qed.

Lemma take_first_scan (f : thread -> bool) ys zs : Forall (fun x => negb (f x.2) = true) ys ->
  (forall z, head zs = Some z -> negb (f z.2) = false) ->
  take_first f (ys ++ zs).*2 = match zs with (c, t) :: zs => Some (t, ys.*2 ++ zs.*2) | [] => None end.
Proof.
  intros Hys Hzs. rewrite fmap_app, take_first_split.
  - destruct zs as [|[c t] zs]; [reflexivity|]. simpl. specialize (Hzs _ eq_refl). apply negb_false_iff in Hzs. simpl in Hzs. rewrite Hzs. reflexivity.
  - apply Forall_fmap. eapply Forall_impl; [exact Hys|]. intros x Hx. apply negb_true_iff in Hx. exact Hx.
Qed.

Lemma dequeue_follows now ctx w xq xp s seen : rep w xq xp s -> all_known s -> known (base s) ctx ->
  exists w' xq' xp', dequeue now ctx (view seen w) (paused w) w = Some (((next now ctx seen s).1, paused w'), w')
    /\ rep w' xq' xp' (next now ctx seen s).2.
Proof.
  intros H Hk Hc. unfold dequeue, next. erewrite run_bind by (eapply rep_get_context; [exact H | exact Hc]).
  set (c := the (base s) ctx). pose proof (chain_head _ _ _ (rep_front _ _ _ _ H)) as Hf.
  destruct (view seen w) as [f|] eqn:Ev.
  - unfold view in Ev. destruct seen; [|discriminate]. rewrite Ev in Hf. destruct xq as [|[f' t] xq]; [discriminate|].
    simpl in Hf. injection Hf as <-. destruct (rep_pop _ _ _ _ _ _ H) as (E1 & E2 & Eq & H1). rewrite Eq, (run_bind _ _ _ _ _ E1).
    destruct ((refuel c <=? 0) || waitp c) eqn:Ec.
    + rewrite (run_bind _ _ _ _ _ E2). erewrite run_bind by reflexivity. set (w1 := World _ _ _ _ _) in H1.
      assert (E3 : (match head xq.*1 with None => set_back None | Some _ => mret tt end)
          (World (st w) (cells w) (head xq.*1) (back w) (paused w)) = Some (tt, w1)) by (unfold w1; destruct (head xq.*1); reflexivity).
      rewrite (run_bind _ _ _ _ _ E3). change (paused w) with (paused w1).
      rewrite (run_bind _ _ _ _ _ (rep_memq _ _ _ _ ctx H1)). simpl waiting.
      destruct ((refuel c >? 0) && negb (bool_decide (ctx ∈ waiting s))).
      * destruct (rep_insert_timed _ _ _ _ now ctx Forever H1) as (w2 & xp2 & E4 & H2); [| exact Hc | discriminate |].
        { intros u Hu. apply Hk. rewrite Eq. simpl in Hu. rewrite elem_of_cons. tauto. }
        rewrite (run_bind _ _ _ _ _ E4). erewrite run_bind by reflexivity. exists w2, xq, xp2. split; [reflexivity | exact H2].
      * erewrite run_bind by reflexivity. erewrite run_bind by reflexivity. exists w1, xq, xp. split; [reflexivity | exact H1].
    + destruct (rep_rotate _ _ _ _ _ _ ctx H) as (w1 & E3 & Hp & H2). rewrite E3.
      exists w1, (xq ++ [(f, ctx)]), xp. split; [rewrite Hp; reflexivity | exact H2].
  - assert (Hq : (if seen then queue s else []) = []).
    { unfold view in Ev. destruct seen; [|reflexivity]. rewrite Ev in Hf. rewrite <- (rep_queue _ _ _ _ H).
      destruct xq; [reflexivity | discriminate]. }
    rewrite Hq. destruct (refuel c <=? 0); [|eauto 10]. erewrite run_bind by reflexivity.
    edestruct (run_scan (fun t => c ← get_context t; mret (negb match event c with VFixnum _ | VPort _ _ _ => true | _ => false end))
      (fun t => negb (waits_for_fd (base s) t)) w xp (S (size (cells w))) None (paused w)) as (ys & zs & -> & Hys & Hzs & E).
    { intros t Ht. erewrite run_bind; [reflexivity|]. eapply rep_get_context; [exact H|]. apply Hk.
      rewrite (rep_waiting _ _ _ _ H) in Ht. auto. }
    { apply (rep_paused _ _ _ _ H). }
    { apply (rep_fuel _ _ _ _ H). }
    rewrite (run_bind _ _ _ _ _ E). rewrite <- (rep_waiting _ _ _ _ H), (take_first_scan _ _ _ Hys Hzs).
    destruct zs as [|[l t] zs]; simpl; [eauto 10|].
    pose proof (rep_paused _ _ _ _ H) as Hp. apply chain_split in Hp as (m & _ & _ & d & Hl & _).
    rewrite (run_bind _ _ _ _ _ (run_car _ _ _ _ Hl)). eauto 10.
Qed.

Lemma next_keeps now ctx seen s : all_known s -> known (base s) ctx ->
  all_known (next now ctx seen s).2 /\ known (base (next now ctx seen s).2) (next now ctx seen s).1.
Proof.
  intros Hk Hc. unfold next. destruct (if seen then queue s else []) as [|t q] eqn:Eq.
  - simpl. split; [exact Hk|]. destruct (_ <=? _); [|exact Hc]. destruct (take_first _ _) as [[t l]|] eqn:E; [|exact Hc].
    apply take_first_elem in E as [Ht _]. apply Hk. auto.
  - destruct seen; [|discriminate]. assert (Ht : known (base s) t) by (apply Hk; rewrite Eq; left; apply elem_of_cons; auto).
    assert (Hk1 : all_known (Sched (base s) q (waiting s))).
    { intros u Hu. apply Hk. rewrite Eq. simpl in Hu. rewrite elem_of_cons. tauto. }
    destruct (_ || _); simpl.
    + destruct (_ && _); simpl; [|auto]. split; [|apply known_upd, Ht].
      apply (all_known_insert (Sched (base s) q (waiting s))); [exact Hk1 | exact Hc].
    + split; [|exact Ht]. intros u Hu. simpl in Hu. rewrite elem_of_app, list_elem_of_singleton in Hu.
      destruct Hu as [[Hu| ->]|Hu]; [apply Hk1 | exact Hc | apply Hk1]; simpl; auto.
Qed.

Lemma rep_choose now w xq xp s res : rep w xq xp s -> all_known s -> known (base s) res ->
  exists w' xq' xp', (first ← (match paused w with
             | Some l => t ← car l; p ← get_context t; d ← cdr l;
                         mret (if sexp_context_before p (tval (the (base s) res)) then Some (t, d) else None)
             | None => mret None
             end);
      match first with
           | Some (t, d) =>
               set_paused d;;
               in_paused ← memq res d;
               (if in_paused : bool then mret tt else sexp_insert_timed now res (TimeOf res));;
               mret t
           | None => sexp_delete_list res;; mret res
           end) w = Some ((choose_waiting now res s).1, w')
    /\ rep w' xq' xp' (choose_waiting now res s).2.
Proof.
  intros H Hk Hres. unfold choose_waiting. pose proof (rep_waiting _ _ _ _ H) as Hw. pose proof (rep_paused _ _ _ _ H) as Hp.
  destruct xp as [|[l t] xp].
  - simpl in Hp. rewrite Hp. erewrite run_bind by reflexivity. rewrite <- Hw.
    destruct (rep_delete _ _ _ _ res H) as (w' & xp' & E & H'). rewrite (run_bind _ _ _ _ _ E).
    exists w', xq, xp'. split; [reflexivity|]. simpl. rewrite <- Hw in H'. destruct s as [b q p]. simpl in Hw. subst p. exact H'.
  - destruct Hp as (-> & d & Hl & Hd). pose proof (chain_head _ _ _ Hd) as ->.
    change (t :: xp.*2 = waiting s) in Hw. rewrite <- Hw.
    assert (Ht : known (base s) t) by (apply Hk; rewrite <- Hw; right; apply elem_of_cons; auto).
    assert (E : (t ← car l; p ← get_context t; d ← cdr l;
        mret (if sexp_context_before p (tval (the (base s) res)) then Some (t, d) else None)) w
      = Some (if sexp_context_before (the (base s) t) (tval (the (base s) res)) then Some (t, head xp.*1) else None, w)).
    { rewrite (run_bind _ _ _ _ _ (run_car _ _ _ _ Hl)). erewrite run_bind by (eapply rep_get_context; [exact H | exact Ht]).
      rewrite (run_bind _ _ _ _ _ (run_cdr _ _ _ _ Hl)). reflexivity. }
    rewrite (run_bind _ _ _ _ _ E). destruct (sexp_context_before _ _).
    + erewrite run_bind by reflexivity. set (w1 := World _ _ _ _ _).
      assert (H1 : rep w1 xq xp (Sched (base s) (queue s) xp.*2)).
      { destruct H as [H1 H2 H3 H4 H5 H6 H7]. split; simpl; auto. simpl in H5. rewrite <- Permutation_middle in H5.
        apply NoDup_cons in H5 as [_ H5]. exact H5. }
      change (head xp.*1) with (paused w1). rewrite (run_bind _ _ _ _ _ (rep_memq _ _ _ _ res H1)). simpl waiting.
      case_bool_decide.
      * erewrite run_bind by reflexivity. exists w1, xq, xp. split; [reflexivity | exact H1].
      * destruct (rep_insert_timed _ _ _ _ now res (TimeOf res) H1) as (w2 & xp2 & E2 & H2); [| exact Hres | intros u [= <-]; exact Hres |].
        { intros u Hu. apply Hk. rewrite <- Hw. simpl in Hu. rewrite elem_of_cons. tauto. }
        rewrite (run_bind _ _ _ _ _ E2). exists w2, xq, xp2. split; [reflexivity | exact H2].
    + destruct (rep_delete _ _ _ _ res H) as (w' & xp' & E' & H'). rewrite (run_bind _ _ _ _ _ E').
      exists w', xq, xp'. split; [reflexivity|]. rewrite <- Hw in H'. exact H'.
Qed.

Lemma run_bind2 {A B C} (m : M A) (f : A -> M B) (k : B -> M C) w b w' :
  mbind f m w = Some (b, w') -> mbind (fun x => mbind k (f x)) m w = k b w'.
Proof. unfold mbind, M_bind. destruct (m w) as [[a w1]|]; [|discriminate]. intros ->. reflexivity. Qed.

Lemma choose_keeps now res s : all_known s -> known (base s) res ->
  all_known (choose_waiting now res s).2 /\ known (base (choose_waiting now res s).2) (choose_waiting now res s).1
  /\ forall t, known (base s) t -> known (base (choose_waiting now res s).2) t.
Proof.
  intros Hk Hres. unfold choose_waiting. destruct (waiting s) as [|t p] eqn:Ew; [auto|].
  assert (Ht : known (base s) t) by (apply Hk; rewrite Ew; right; apply elem_of_cons; auto).
  assert (Hk1 : all_known (Sched (base s) (queue s) p)).
  { intros u Hu. apply Hk. rewrite Ew. simpl in Hu. rewrite elem_of_cons. tauto. }
  destruct (sexp_context_before _ _); simpl.
  - case_bool_decide; [auto|]. split; [apply (all_known_insert (Sched (base s) (queue s) p)); assumption|].
    split; [apply known_upd, Ht | intros u Hu; apply known_upd, Hu].
  - pose proof (all_known_delete s res Hk) as Hd. rewrite Ew in Hd. split; [exact Hd | auto].
Qed.

Lemma nap_follows now1 now2 w xq xp s res : rep w xq xp s -> all_known s -> known (base s) res ->
  exists w' xq' xp', nap now1 now2 res (paused w) w = Some ((rest now1 now2 res s).1, w')
    /\ rep w' xq' xp' (rest now1 now2 res s).2.
Proof.
  intros H Hk Hres. unfold nap, rest. erewrite run_bind by (eapply rep_get_context; [exact H | exact Hres]).
  destruct (waitp (the (base s) res)); [|eauto 10].
  destruct (rep_choose now1 w xq xp s res H Hk Hres) as (w1 & xq1 & xp1 & E & H1).
  destruct (choose_keeps now1 res s Hk Hres) as (_ & Kr & _).
  destruct (choose_waiting now1 res s) as [res' s1]. simpl in *. rewrite (run_bind2 _ _ _ _ _ _ E).
  erewrite run_bind by (eapply rep_get_context; [exact H1 | exact Kr]).
  destruct (_ && _); [eauto 10|]. change (if tv_sec now2 <=? tv_sec (tval (the (base s1) res')) then _ else 0)
    with (nap_time now2 (tval (the (base s1) res'))).
  destruct (_ >? _); [eauto 10|].
  destruct (rep_set_context _ _ _ _ res' (set_waitp false) H1 Kr) as (w2 & E2 & H2). rewrite (run_bind _ _ _ _ _ E2).
  destruct (rep_set_context _ _ _ _ res' (set_timeoutp true) H2) as (w3 & E3 & H3); [apply known_upd, Kr|].
  rewrite (run_bind _ _ _ _ _ E3). exists w3, xq1, xp1. split; [reflexivity | exact H3].
Qed.

Lemma keeps_timeouts_known now s t : known (base s) t -> known (base (timeouts_step now s)) t.
Proof.
  unfold timeouts_step. assert (H : forall p b, known b t -> known (expire now b p).1.1 t).
  { induction p as [|u p IH]; intros b Hb; simpl; [exact Hb|]. destruct (sexp_context_before _ _); [|exact Hb].
    specialize (IH (upd u (set_waitp false) (upd u (set_timeoutp true) b))).
    destruct (expire now _ p) as [[b' e] p']. apply IH, known_upd, known_upd, Hb. }
  specialize (H (waiting s) (base s)). destruct (expire now (base s) (waiting s)) as [[b e] p]. exact H.
Qed.

Lemma expire_split now p : forall b, p = (expire now b p).1.2 ++ (expire now b p).2.
Proof.
  induction p as [|t p IH]; intros b; simpl; [reflexivity|]. destruct (sexp_context_before _ _); [|reflexivity].
  specialize (IH (upd t (set_waitp false) (upd t (set_timeoutp true) b))). destruct (expire now _ p) as [[b' e] p']. simpl in *. congruence.
Qed.

Lemma keeps_timeouts now s : keeps s (timeouts_step now s).
Proof.
  split; [intros t; apply keeps_timeouts_known | |].
  - intros Hk t Ht. apply keeps_timeouts_known, Hk. unfold timeouts_step in Ht. pose proof (expire_split now (waiting s) (base s)) as E.
    destruct (expire now (base s) (waiting s)) as [[b e] p]. simpl in *. rewrite elem_of_app in Ht. rewrite E, elem_of_app. tauto.
  - unfold timeouts_step. destruct (expire now (base s) (waiting s)) as [[b e] p]. simpl. destruct (queue s); [congruence | discriminate].
Qed.

(** The scheduler on cells is the scheduler on lists. *)
Lemma rep_scheduler poll now1 now2 ctx w xq xp s : rep w xq xp s -> all_known s -> known (base s) ctx -> runner_known s ->
  exists w' xq' xp', sexp_scheduler poll now1 now2 ctx w = Some ((schedule poll now1 now2 ctx s).1, w')
    /\ rep w' xq' xp' (schedule poll now1 now2 ctx s).2.
Proof.
  intros H Hk Hc Hr. unfold sexp_scheduler, schedule. do 2 erewrite run_bind by reflexivity.
  destruct (check_signals_follows w xq xp s H Hk Hr) as (w1 & xq1 & E1 & Hp1 & H1 & K1 & S1).
  destruct (signals_step s) as [seen s1]. simpl in *. rewrite (run_bind _ _ _ _ _ E1), <- Hp1.
  pose proof (keeps_all _ _ K1 Hk) as Hk1. pose proof (keeps_known _ _ K1 _ Hc) as Hc1.
  destruct (check_fds_follows poll ctx w1 _ _ s1 seen H1 Hk1 Hc1 S1) as (w2 & xq2 & xp2 & E2 & H2).
  pose proof (keeps_fds poll ctx s1) as K2. rewrite (run_bind _ _ _ _ _ E2).
  destruct (check_joins_follows ctx w2 _ _ _ seen H2 (keeps_all _ _ K2 Hk1) (keeps_known _ _ K2 _ Hc1)
    (fun e => keeps_queue _ _ K2 (S1 e))) as (w3 & xq3 & xp3 & E3 & H3).
  pose proof (keeps_trans _ _ _ K2 (keeps_joins ctx _)) as K3. rewrite (run_bind _ _ _ _ _ E3).
  destruct (check_timeouts_follows now1 w3 _ _ _ seen H3 (keeps_all _ _ K3 Hk1) (fun e => keeps_queue _ _ K3 (S1 e)))
    as (w4 & xq4 & xp4 & E4 & H4).
  pose proof (keeps_trans _ _ _ K3 (keeps_timeouts now1 _)) as K4. rewrite (run_bind _ _ _ _ _ E4).
  destruct (dequeue_follows now1 ctx w4 _ _ _ seen H4 (keeps_all _ _ K4 Hk1) (keeps_known _ _ K4 _ Hc1)) as (w5 & xq5 & xp5 & E5 & H5).
  destruct (next_keeps now1 ctx seen _ (keeps_all _ _ K4 Hk1) (keeps_known _ _ K4 _ Hc1)) as [Hk5 Hc5].
  rewrite (run_bind _ _ _ _ _ E5). destruct (next now1 ctx seen _) as [res s5]. simpl in *.
  exact (nap_follows now1 now2 w5 _ _ s5 res H5 Hk5 Hc5).
Qed.

(** ** Requests *)

Lemma rep_join w xq xp s now ctx t timeout : rep w xq xp s -> all_known s -> known (base s) ctx -> known (base s) t ->
  (forall u, timeout = TimeOf u -> known (base s) u) ->
  exists w' xp', sexp_thread_join now ctx t timeout w = Some ((join_thread now ctx t timeout s).1, w')
    /\ rep w' xq xp' (join_thread now ctx t timeout s).2.
Proof.
  intros H Hk Hc Ht Hu. unfold sexp_thread_join, join_thread. erewrite run_bind by (eapply rep_get_context; [exact H | exact Ht]).
  destruct (_ <=? _); [eauto 10|].
  destruct (rep_set_context _ _ _ _ ctx (set_timeoutp false) H Hc) as (w1 & E1 & H1). rewrite (run_bind _ _ _ _ _ E1).
  destruct (rep_wait _ _ _ _ now ctx (VThread t) timeout H1) as (w2 & xp2 & E2 & H2).
  - apply all_known_on_base, Hk.
  - apply known_upd, Hc.
  - intros u Eu. apply known_upd, Hu, Eu.
  - rewrite (run_bind _ _ _ _ _ E2). exists w2, xp2. split; [reflexivity | exact H2].
Qed.

Lemma rep_sleep w xq xp s now ctx timeout : rep w xq xp s -> all_known s -> known (base s) ctx ->
  exists w' xp', sexp_thread_sleep now ctx timeout w = Some ((sleep now ctx timeout s).1, w')
    /\ rep w' xq xp' (sleep now ctx timeout s).2.
Proof.
  intros H Hk Hc. unfold sexp_thread_sleep, sleep.
  destruct (rep_set_context _ _ _ _ ctx (set_waitp true) H Hc) as (w1 & E1 & H1). rewrite (run_bind _ _ _ _ _ E1).
  destruct timeout as [timeout|]; [|eauto 10]. destruct (sexp_realp timeout) eqn:Er; [|eauto 10].
  destruct (rep_set_context _ _ _ _ ctx (set_event VFalse) H1 ltac:(apply known_upd, Hc)) as (w2 & E2 & H2).
  rewrite (run_bind _ _ _ _ _ E2).
  destruct (rep_insert_timed _ _ _ _ now ctx timeout H2) as (w3 & xp3 & E3 & H3).
  - apply (all_known_on_base (on_base (upd ctx (set_waitp true)) s)), all_known_on_base, Hk.
  - apply known_upd, known_upd, Hc.
  - intros u ->. discriminate.
  - rewrite (run_bind _ _ _ _ _ E3). exists w3, xp3. split; [reflexivity | exact H3].
Qed.

Lemma run_get_mutex w xq xp s m x : rep w xq xp s -> mutexes (base s) !! m = Some x -> get_mutex m w = Some (x, w).
Proof. intros H Hm. unfold get_mutex. rewrite (rep_base _ _ _ _ H), Hm. reflexivity. Qed.

Lemma rep_lock w xq xp s now ctx m timeout owner : rep w xq xp s -> all_known s -> known (base s) ctx ->
  is_Some (mutexes (base s) !! m) -> (forall u, timeout = TimeOf u -> known (base s) u) ->
  exists w' xp', sexp_mutex_lock now ctx m timeout owner w = Some ((lock now ctx m timeout owner s).1, w')
    /\ rep w' xq xp' (lock now ctx m timeout owner s).2.
Proof.
  intros H Hk Hc [x Hm] Hu. unfold sexp_mutex_lock, lock. rewrite (run_bind _ _ _ _ _ (run_get_mutex _ _ _ _ _ _ H Hm)), Hm.
  case_bool_decide.
  - erewrite run_bind by reflexivity. exists (with_st (put_mutex m (Mutex (Some (if bool_decide (owner = VTrue) then VThread ctx else owner)) VTrue) (st w)) w), xp.
    split; [reflexivity|]. apply (rep_with_st _ _ _ _ (put_mutex m _)), H.
  - destruct (rep_wait _ _ _ _ now ctx (VMutex m) timeout H Hk Hc Hu) as (w2 & xp2 & E2 & H2).
    rewrite (run_bind _ _ _ _ _ E2). exists w2, xp2. split; [reflexivity | exact H2].
Qed.

Lemma rep_unlock w xq xp s now ctx m condvar timeout : rep w xq xp s -> all_known s -> known (base s) ctx ->
  is_Some (mutexes (base s) !! m) -> (forall u, timeout = TimeOf u -> known (base s) u) ->
  exists w' xq' xp', sexp_mutex_unlock now ctx m condvar timeout w = Some ((unlock now ctx m condvar timeout s).1, w')
    /\ rep w' xq' xp' (unlock now ctx m condvar timeout s).2.
Proof.
  intros H Hk Hc [x Hm] Hu. unfold sexp_mutex_unlock, unlock. rewrite (run_bind _ _ _ _ _ (run_get_mutex _ _ _ _ _ _ H Hm)), Hm.
  set (s1 := if bool_decide (mutex_lockp x = VFalse) then s else _).
  assert (Hs1 : exists w1 xq1 xp1, (if bool_decide (mutex_lockp x = VFalse) then mret tt else
      set_st (put_mutex m (Mutex (Some (VThread ctx)) VFalse));; wake_first (VMutex m);; mret tt) w = Some (tt, w1)
    /\ rep w1 xq1 xp1 s1 /\ all_known s1 /\ (forall u, known (base s) u -> known (base s1) u)).
  { unfold s1. case_bool_decide; [eauto 10|]. erewrite run_bind by reflexivity.
    set (s0 := on_base (put_mutex m (Mutex (Some (VThread ctx)) VFalse)) s).
    destruct (rep_wake (with_st (base s0) w) xq xp s0 (VMutex m)) as (w1 & xq1 & xp1 & E1 & H1).
    - destruct H. split; auto.
    - exact Hk.
    - rewrite (rep_base _ _ _ _ H). rewrite (run_bind _ _ _ _ _ E1). exists w1, xq1, xp1. split; [reflexivity|]. split; [exact H1|].
      split; [apply all_known_wake; exact Hk|]. intros u Hu'. apply known_wake. exact Hu'. }
  destruct Hs1 as (w1 & xq1 & xp1 & E1 & H1 & K1 & K2). rewrite (run_bind _ _ _ _ _ E1). destruct condvar as [c|]; [|eauto 10].
  destruct (rep_wait _ _ _ _ now ctx (VCondvar c) timeout H1 K1 (K2 _ Hc)) as (w2 & xp2 & E2 & H2).
  - intros u Eu. apply K2, Hu, Eu.
  - rewrite (run_bind _ _ _ _ _ E2). exists w2, xq1, xp2. split; [reflexivity | exact H2].
Qed.

Lemma wake_shorter v s : (wake v s).1 = true -> (length (waiting (wake v s).2) < length (waiting s))%nat.
Proof.
  unfold wake. assert (H : forall f l x l', take_first f l = Some (x, l') -> length l = S (length l')).
  { intros f l. induction l as [|y l IH]; intros x l'; simpl; [discriminate|]. destruct (f y); [intros [= <- <-]; reflexivity|].
    destruct (take_first f l) as [[z l1]|]; [|discriminate]. intros [= <- <-]. simpl. rewrite (IH z l1 eq_refl). reflexivity. }
  destruct (take_first _ _) as [[t l]|] eqn:E; [|discriminate]. intros _. rewrite (H _ _ _ _ E). simpl. lia.
Qed.

Lemma rep_broadcast c : forall n fuel res w xq xp s, rep w xq xp s -> all_known s ->
  (length (waiting s) < n)%nat -> (length (waiting s) < fuel)%nat ->
  exists w' xq' xp', broadcast_loop fuel c res w = Some ((broadcast n c res s).1, w') /\ rep w' xq' xp' (broadcast n c res s).2.
Proof.
  induction n as [|n IH]; intros fuel res w xq xp s H Hk Hn Hf; [lia|]. destruct fuel as [|fuel]; [lia|]. cbn [broadcast_loop broadcast].
  destruct (rep_wake _ _ _ _ (VCondvar c) H Hk) as (w1 & xq1 & xp1 & E1 & H1). unfold sexp_condition_variable_signal.
  rewrite (run_bind _ _ _ _ _ E1). pose proof (wake_shorter (VCondvar c) s) as Hsh. pose proof (all_known_wake s (VCondvar c) Hk) as Hk1.
  destruct (wake (VCondvar c) s) as [[|] s1]; simpl in *; [|eauto 10].
  specialize (Hsh eq_refl). apply (IH fuel true w1 xq1 xp1 s1); auto; lia.
Qed.

Lemma rep_block w xq xp s now ctx v timeout : rep w xq xp s -> all_known s -> known (base s) ctx ->
  (forall u, timeout = TimeOf u -> known (base s) u) ->
  exists w' xp', sexp_blocker now ctx v timeout w = Some ((block_on now ctx v timeout s).1, w')
    /\ rep w' xq xp' (block_on now ctx v timeout s).2.
Proof.
  intros H Hk Hc Hu. unfold sexp_blocker, block_on. destruct (match v with VPort _ f _ | VFileno _ f | VFixnum f => Some f | _ => None end) as [f|];
    [|eauto 10]. set (output := match v with VPort _ _ output => output | _ => false end).
  set (add := fun b => put_poll_fds (insert_pollfd f (if output then POLLOUT else POLLIN) (poll_fds b)).1 b).
  assert (Hs1 : exists w1, (if f >=? 0 then sexp_insert_pollfd f (if output then POLLOUT else POLLIN);; mret tt else mret tt) w = Some (tt, w1)
    /\ rep w1 xq xp (if f >=? 0 then on_base add s else s)).
  { destruct (f >=? 0); [|eauto]. exists (with_st (add (st w)) w). split; [|apply rep_with_st, H].
    unfold sexp_insert_pollfd, get_st, mbind, M_bind, set_st, add, with_st. simpl. destruct (insert_pollfd _ _ _). reflexivity. }
  destruct Hs1 as (w1 & E1 & H1). rewrite (run_bind _ _ _ _ _ E1).
  destruct (rep_wait _ _ _ _ now ctx v timeout H1) as (w2 & xp2 & E2 & H2).
  - destruct (f >=? 0); exact Hk.
  - destruct (f >=? 0); exact Hc.
  - destruct (f >=? 0); exact Hu.
  - rewrite (run_bind _ _ _ _ _ E2). exists w2, xp2. split; [reflexivity | exact H2].
Qed.

Lemma family_descent b : forall l t fuel, descent b t l -> (length l < fuel)%nat -> family fuel b t = l.
Proof.
  induction l as [|u l IH]; intros t fuel H Hf; (destruct fuel as [|fuel]; [simpl in Hf; lia|]); simpl in H.
  - subst t. reflexivity.
  - destruct H as (-> & _ & H). simpl. f_equal. apply IH; [exact H | simpl in Hf; lia].
Qed.

(** The objects of a request are there, and the children of a thread to be
    terminated end. *)
Definition time_known s (timeout : timeout) : Prop := forall t, timeout = TimeOf t -> known (base s) t.

Definition legal s (r : request) : Prop :=
  match r with
  | Start t => known (base s) t
  | Terminate t => exists l, descent (base s) (Some t) l
  | JoinThread t timeout => known (base s) t /\ time_known s timeout
  | Lock m timeout _ | Unlock m _ timeout => is_Some (mutexes (base s) !! m) /\ time_known s timeout
  | Block _ timeout => time_known s timeout
  | Schedule _ _ => runner_known s
  | _ => True
  end.

Lemma run_refines now ctx r w s : represents w s -> all_known s -> known (base s) ctx -> legal s r ->
  exists w', run now ctx r w = Some ((spec now ctx r s).1, w') /\ represents w' (spec now ctx r s).2.
Proof.
  intros (xq & xp & H) Hk Hc Hl. unfold represents. destruct r; simpl in Hl; cbn [run spec fst snd].
  - destruct (rep_start _ _ _ _ t H Hl) as (w' & c & E & H' & _). rewrite (run_bind _ _ _ _ _ E). eauto 10.
  - destruct Hl as [l Hl]. pose proof (descent_length _ _ _ Hl) as Hlen.
    assert (Efam : family (S (size (contexts (base s)))) (base s) (Some t) = l) by (apply family_descent; [exact Hl | lia]).
    rewrite Efam. unfold sexp_thread_terminate, get_st.
    destruct (rep_terminate_loop ctx l (S (size (contexts (st w)))) w xq xp s (Some t) H Hk Hc Hl) as (w' & xq' & xp' & E & H').
    { rewrite (rep_base _ _ _ _ H). lia. }
    erewrite run_bind by (erewrite run_bind by reflexivity; rewrite (run_bind _ _ _ _ _ E); reflexivity). eauto 10.
  - destruct Hl as [Ht Hu]. destruct (rep_join _ _ _ _ now ctx t timeout H Hk Hc Ht Hu) as (w' & xp' & E & H').
    rewrite (run_bind _ _ _ _ _ E). eauto 10.
  - destruct (rep_sleep _ _ _ _ now ctx timeout H Hk Hc) as (w' & xp' & E & H'). rewrite (run_bind _ _ _ _ _ E).
    destruct (sleep now ctx timeout s) as [[b|] s1]; eauto 10.
  - destruct Hl as [Hm Hu]. destruct (rep_lock _ _ _ _ now ctx m timeout owner H Hk Hc Hm Hu) as (w' & xp' & E & H').
    rewrite (run_bind _ _ _ _ _ E). eauto 10.
  - destruct Hl as [Hm Hu]. destruct (rep_unlock _ _ _ _ now ctx m condvar timeout H Hk Hc Hm Hu) as (w' & xq' & xp' & E & H').
    rewrite (run_bind _ _ _ _ _ E). eauto 10.
  - destruct (rep_wake _ _ _ _ (VCondvar c) H Hk) as (w' & xq' & xp' & E & H'). unfold sexp_condition_variable_signal.
    rewrite (run_bind _ _ _ _ _ E). eauto 10.
  - unfold sexp_condition_variable_broadcast. pose proof (rep_fuel _ _ _ _ H) as Hf. pose proof (rep_waiting _ _ _ _ H) as Hw.
    destruct (rep_broadcast c (S (length (waiting s))) (S (size (cells w))) false w xq xp s H Hk) as (w' & xq' & xp' & E & H');
      [lia | rewrite <- Hw, length_fmap; exact Hf |].
    erewrite run_bind by (erewrite run_bind by reflexivity; exact E). simpl in *. eauto 10.
  - destruct (rep_block _ _ _ _ now ctx v timeout H Hk Hc Hl) as (w' & xp' & E & H'). rewrite (run_bind _ _ _ _ _ E).
    destruct (block_on now ctx v timeout s) as [[|] s1]; eauto 10.
  - destruct (rep_scheduler poll now now2 ctx _ _ _ _ H Hk Hc Hl) as (w' & xq' & xp' & E & H'). rewrite (run_bind _ _ _ _ _ E).
    destruct (schedule poll now now2 ctx s) as [[t usecs] s1]; eauto 10.
Qed.

(** C17 (refinement).  The queue and the paused threads as chains of pairs, with
    the pointers to their ends and the locals of the scheduler, implement the
    lists of the specification: every request of a thread, the scheduler
    included, ends without an access to a pair or context that is not there,
    with the answer and the state of the specification. *)
Theorem threads_refine now ctx r w s : represents w s -> all_known s -> known (base s) ctx -> legal s r ->
  exists w', run now ctx r w = Some ((spec now ctx r s).1, w') /\ represents w' (spec now ctx r s).2.
Proof.
  intros H Hk Hc Hl. destruct (run_refines now ctx r w s H Hk Hc Hl) as (w' & E & H'). exists w'. auto.
Qed.

(** The turn of the scheduler, by itself. *)
Lemma scheduler_runs poll now1 now2 ctx w s : represents w s -> all_known s -> known (base s) ctx -> runner_known s ->
  exists w', sexp_scheduler poll now1 now2 ctx w = Some ((schedule poll now1 now2 ctx s).1, w')
    /\ represents w' (schedule poll now1 now2 ctx s).2.
Proof.
  intros (xq & xp & H) Hk Hc Hr. destruct (rep_scheduler poll now1 now2 ctx w xq xp s H Hk Hc Hr) as (w' & xq' & xp' & E & H').
  exists w'. split; [exact E|]. exists xq', xp'. exact H'.
Qed.

Lemma threads_refine_witness : exists w', run (Timeval 1000 0) 1%positive (Schedule nothing (Timeval 1000 0))
    (lay three) = Some (Chosen 2 0, w') /\ represents w' (spec (Timeval 1000 0) 1 (Schedule nothing (Timeval 1000 0)) three).2.
Proof.
  apply (threads_refine (Timeval 1000 0) 1 (Schedule nothing (Timeval 1000 0)) (lay three) three).
  - apply lay_represents.
  - intros t Ht. simpl in Ht. rewrite !list_elem_of_singleton in Ht. destruct Ht as [->| ->]; eexists; reflexivity.
  - eexists. reflexivity.
  - intros t. discriminate.
Defined.
