(* ===== verification/Scheduler.v ===== *)
(** * The scheduler loses no thread and keeps its lists in order

    Properties of the specification of threads, which [ThreadRefine] carries over
    to the cells: the threads that exist before and after a turn, an invariant of
    the states that threads can reach, whose turn comes, and the cases in which
    threads or their timeouts go wrong. *)
From Stdlib Require Import Sorting.Sorted.
From S2P Require Import Prelude Threads ThreadSpec ThreadQueues ThreadRefine.
From stdpp Require Import base list option gmap.
#[local] Open Scope Z_scope.
Implicit Types (b : store) (s : sched).

(** ** Fields that the scheduler leaves alone *)

Section field.
Context {A : Type} (g : context -> A).

Lemma field_upd b t u f : (forall c, g (f c) = g c) -> g (the (upd u f b) t) = g (the b t).
Proof. intros Hf. rewrite the_upd. case_bool_decide as E; [subst u; apply Hf | reflexivity]. Qed.

Lemma field_move wakes update skip p : (forall c, g (update c) = g c) -> forall b q t,
  g (the (move wakes update skip b q p).1.1 t) = g (the b t).
Proof.
  intros Hu. induction p as [|u p IH]; intros b q t; simpl; [reflexivity|]. destruct (wakes _).
  - rewrite IH. apply field_upd, Hu.
  - specialize (IH b q t). destruct (move wakes update skip b q p) as [[b' q'] p']. exact IH.
Qed.

Lemma field_move_step wakes update skip s t : (forall c, g (update c) = g c) ->
  g (the (base (move_step wakes update skip s)) t) = g (the (base s) t).
Proof.
  intros Hu. unfold move_step. pose proof (field_move wakes update skip (waiting s) Hu (base s) (queue s) t) as H.
  destruct (move wakes update skip (base s) (queue s) (waiting s)) as [[b q] p]. exact H.
Qed.

Context (Hw : forall c x, g (set_waitp x c) = g c) (Ht : forall c x, g (set_timeoutp x c) = g c).

Lemma field_woken c : g (woken c) = g c.
Proof. unfold woken. rewrite Ht, Hw. reflexivity. Qed.

Lemma field_expire now p : forall b t, g (the (expire now b p).1.1 t) = g (the b t).
Proof.
  induction p as [|u p IH]; intros b t; simpl; [reflexivity|]. destruct (sexp_context_before _ _); [|reflexivity].
  specialize (IH (upd u (set_waitp false) (upd u (set_timeoutp true) b)) t). destruct (expire now _ p) as [[b' e] p'].
  simpl in *. rewrite IH, !field_upd; auto.
Qed.

Lemma field_timeouts now s t : g (the (base (timeouts_step now s)) t) = g (the (base s) t).
Proof.
  unfold timeouts_step. pose proof (field_expire now (waiting s) (base s) t) as H.
  destruct (expire now (base s) (waiting s)) as [[b e] p]. exact H.
Qed.

Lemma field_joins ctx s t : g (the (base (joins_step ctx s)) t) = g (the (base s) t).
Proof. unfold joins_step. destruct (_ <=? _); [apply field_move_step, field_woken | reflexivity]. Qed.

Context (He : forall c x, g (set_event x c) = g c).

Lemma field_poll ctx : forall n k s t, g (the (base (poll_steps ctx n k s)) t) = g (the (base s) t).
Proof.
  assert (Hu : forall c, g (set_event VFalse (woken c)) = g c) by (intros c; rewrite He; apply field_woken).
  induction n as [|i IH]; intros k s t; cbn [poll_steps]; [reflexivity|]. destruct (k >? 0); [|reflexivity].
  destruct (poll_fds (base s) !! i) as [p|]; [|reflexivity]. destruct (revents p); [|apply IH].
  rewrite IH. change (the (base (on_base (fun b => put_poll_fds (remove_pollfd i (poll_fds b)) b) ?s')) t) with (the (base s') t).
  etransitivity; [apply (field_move_step _ _ _ _ t Hu)|]. destruct (fd_event _ _); [apply field_upd, Hu | reflexivity].
Qed.

Lemma field_fds poll ctx s t : g (the (base (fds_step poll ctx s)) t) = g (the (base s) t).
Proof. unfold fds_step. destruct (0 <? _)%nat; [|reflexivity]. destruct (poll _) as [k ready]. etransitivity; [apply (field_poll ctx _ k) | reflexivity]. Qed.

Lemma field_signals s t : known (base s) t -> (forall c x, g (set_errorp x c) = g c) ->
  g (the (base (signals_step s).2) t) = g (the (base s) t).
Proof.
  intros Hk Hx. unfold signals_step. destruct (_ =? 0); [reflexivity|]. destruct (signal_runner (base s)) as [[]|r|]; [|reflexivity| |reflexivity].
  - simpl. rewrite field_upd by auto. unfold the. simpl. rewrite lookup_insert_ne; [reflexivity|].
    intros <-. destruct Hk as [c Hc]. apply (is_fresh (dom (contexts (base s)))). apply elem_of_dom. eauto.
  - destruct (waitp _); [|reflexivity]. simpl. rewrite !field_upd by auto. reflexivity.
Qed.
End field.

(** ** No thread is lost *)

(** The current thread, those that can run and those that wait. *)
Definition live ctx s : list thread := ctx :: queue s ++ waiting s.

Lemma elem_of_live ctx s t : t ∈ live ctx s <-> t = ctx \/ t ∈ queue s \/ t ∈ waiting s.
Proof. unfold live. rewrite elem_of_cons, elem_of_app. reflexivity. Qed.

(** The threads of a part of the scheduler, but for the current one. *)
Record same_threads (ctx : thread) s s' : Prop := SameThreads {
  threads_kept : forall t, t ∈ queue s \/ t ∈ waiting s -> t = ctx \/ t ∈ queue s' \/ t ∈ waiting s';
  threads_old : forall t, t ∈ queue s' \/ t ∈ waiting s' -> t ∈ queue s \/ t ∈ waiting s;
}.

Lemma same_threads_refl ctx s : same_threads ctx s s.
Proof. split; auto. Qed.

Lemma same_threads_trans ctx s1 s2 s3 : same_threads ctx s1 s2 -> same_threads ctx s2 s3 -> same_threads ctx s1 s3.
Proof.
  intros [A1 A2] [B1 B2]. split; [|auto]. intros t Ht. destruct (A1 t Ht) as [->|H]; [auto | apply B1, H].
Qed.

Lemma move_threads wakes update skip p : forall b q, let r := move wakes update skip b q p in
  forall t, t ∈ q \/ t ∈ p -> skip = Some t \/ t ∈ r.1.2 \/ t ∈ r.2.
Proof.
  induction p as [|u p IH]; intros b q; simpl; [intros t Ht; auto|]. intros t. rewrite elem_of_cons. destruct (wakes _).
  - intros Ht. case_bool_decide as E.
    + destruct Ht as [Ht|[->|Ht]]; [apply IH; auto | auto | apply IH; auto].
    + apply IH. rewrite elem_of_app, list_elem_of_singleton. tauto.
  - intros Ht. specialize (IH b q t). destruct (move wakes update skip b q p) as [[b' q'] p']. simpl in *. rewrite elem_of_cons.
    destruct Ht as [Ht|[->|Ht]]; [|auto|]; destruct IH as [?|[?|?]]; auto.
Qed.

Lemma move_step_threads wakes update skip ctx s : skip = None \/ skip = Some ctx -> same_threads ctx s (move_step wakes update skip s).
Proof.
  intros Hskip. unfold move_step. pose proof (move_threads wakes update skip (waiting s) (base s) (queue s)) as H1.
  destruct (move_keeps wakes update skip (waiting s) (base s) (queue s)) as (_ & _ & H2).
  destruct (move wakes update skip (base s) (queue s) (waiting s)) as [[b q] p]. simpl in *. split; simpl; [|exact H2].
  intros t Ht. destruct (H1 t Ht) as [E|H]; [|auto]. destruct Hskip as [->| ->]; [discriminate | injection E; auto].
Qed.

Lemma poll_threads ctx : forall n k s, same_threads ctx s (poll_steps ctx n k s).
Proof.
  induction n as [|i IH]; intros k s; cbn [poll_steps]; [apply same_threads_refl|]. destruct (k >? 0); [|apply same_threads_refl].
  destruct (poll_fds (base s) !! i) as [p|]; [|apply same_threads_refl]. destruct (revents p); [|apply IH].
  set (s1 := if fd_event _ _ then _ else s).
  assert (H1 : same_threads ctx s s1) by (unfold s1; destruct (fd_event _ _); [split; auto | apply same_threads_refl]).
  eapply same_threads_trans; [exact H1|].
  set (s2 := move_step (fd_event (fd p)) (fun c => set_event VFalse (woken c)) (Some ctx) s1).
  assert (H2 : same_threads ctx s1 s2) by (apply move_step_threads; auto).
  eapply same_threads_trans; [exact H2|].
  assert (H3 : same_threads ctx s2 (on_base (fun b => put_poll_fds (remove_pollfd i (poll_fds b)) b) s2)) by (split; auto).
  eapply same_threads_trans; [exact H3 | apply IH].
Qed.

Lemma fds_threads poll ctx s : same_threads ctx s (fds_step poll ctx s).
Proof.
  unfold fds_step. destruct (0 <? _)%nat; [|apply same_threads_refl]. destruct (poll _) as [k ready].
  eapply same_threads_trans; [|apply poll_threads]. split; auto.
Qed.

Lemma joins_threads ctx s : same_threads ctx s (joins_step ctx s).
Proof. unfold joins_step. destruct (_ <=? _); [apply move_step_threads; auto | apply same_threads_refl]. Qed.

Lemma timeouts_threads now ctx s : same_threads ctx s (timeouts_step now s).
Proof.
  unfold timeouts_step. pose proof (expire_split now (waiting s) (base s)) as E.
  destruct (expire now (base s) (waiting s)) as [[b e] p]. simpl in E.
  split; simpl; intros t; rewrite E, !elem_of_app; tauto.
Qed.

Lemma elem_of_remove_first_ne x y (l : list thread) : y <> x -> y ∈ remove_first x l <-> y ∈ l.
Proof.
  intros Hne. induction l as [|z l IH]; simpl; [reflexivity|]. case_bool_decide as E; rewrite !elem_of_cons, ?IH; [|reflexivity].
  subst z. tauto.
Qed.

Lemma insert_waiting now t timeout s u : u ∈ waiting (insert_timed now t timeout s) <-> u = t \/ u ∈ waiting s.
Proof.
  simpl. rewrite elem_of_insert_after. destruct (decide (u = t)) as [->|Hne]; [tauto|]. rewrite elem_of_remove_first_ne by exact Hne. tauto.
Qed.

(** What a choice of the next thread keeps. *)
Definition kept (P : Prop) ctx res s s' : Prop :=
  (forall t, t ∈ live ctx s -> t ∈ live res s' \/ t = ctx /\ P) /\ forall t, t ∈ live res s' -> t ∈ live ctx s.

Lemma next_threads now ctx seen s :
  kept (refuel (the (base s) ctx) <= 0) ctx (next now ctx seen s).1 s (next now ctx seen s).2.
Proof.
  unfold next, kept. destruct (if seen then queue s else []) as [|u q] eqn:Eq.
  - set (res := if _ <=? 0 then _ else ctx). simpl.
    assert (Hres : res = ctx \/ res ∈ waiting s /\ refuel (the (base s) ctx) <= 0).
    { unfold res. destruct (Z.leb_spec (refuel (the (base s) ctx)) 0); [|auto].
      destruct (take_first _ _) as [[t l]|] eqn:E; [|auto]. apply take_first_elem in E as [Ht _]. auto. }
    split; intros t; rewrite !elem_of_live; [|destruct Hres as [->|[? ?]]; intros [->|?]; auto].
    destruct Hres as [->|[? ?]]; [tauto|]. intros [->|?]; tauto.
  - destruct seen; [|discriminate]. destruct ((refuel _ <=? 0) || _); simpl.
    + assert (Hk : refuel (the (base s) ctx) <= 0 \/ ctx ∈ waiting s \/ ((refuel (the (base s) ctx) >? 0) && negb (bool_decide (ctx ∈ waiting s))) = true).
      { case_bool_decide; [auto|]. destruct (Z.gtb_spec (refuel (the (base s) ctx)) 0); simpl; auto. }
      destruct (_ && _) eqn:Ei; (split; intros t; rewrite !elem_of_live, ?insert_waiting; simpl; rewrite Eq, !elem_of_cons).
      * intros [->|[[->|?]|?]]; auto.
      * intros [->|[?|[->|?]]]; auto.
      * intros [->|[[->|?]|?]]; auto. destruct Hk as [?|[?|?]]; auto. discriminate.
      * intros [->|[?|?]]; auto.
    + split; intros t; rewrite !elem_of_live; simpl; rewrite Eq, !elem_of_app, !elem_of_cons, elem_of_nil; tauto.
Qed.

Lemma rest_threads now1 now2 res s : kept False res (rest now1 now2 res s).1.1 s (rest now1 now2 res s).2.
Proof.
  unfold rest. destruct (waitp _); [|split; auto].
  assert (H : kept False res (choose_waiting now1 res s).1 s (choose_waiting now1 res s).2).
  { unfold choose_waiting. destruct (waiting s) as [|u p] eqn:Ew; [split; auto|]. destruct (sexp_context_before _ _).
    - assert (Hin : res ∈ p \/ bool_decide (res ∈ p) = false) by (case_bool_decide; auto).
      split; intros t; rewrite !elem_of_live; simpl; rewrite Ew; case_bool_decide; rewrite ?insert_waiting; simpl;
        rewrite !elem_of_cons; intuition (subst; auto); discriminate.
    - split; intros t; rewrite !elem_of_live; simpl; rewrite Ew; (destruct (decide (t = res)) as [->|Hne]; [auto|]);
        change (t ∈ (if bool_decide (u = res) then p else u :: remove_first res p)) with (t ∈ remove_first res (u :: p));
        rewrite (elem_of_remove_first_ne res t (u :: p) Hne); auto. }
  destruct (choose_waiting now1 res s) as [res' s']. simpl in H. destruct (_ && _); [exact H|]. destruct (_ >? _); exact H.
Qed.

(** The runner for signals, which the scheduler may start. *)
Definition is_runner s t : Prop :=
  signals (base s) <> 0 /\ match signal_runner (base s) with
  | RunnerThread r => t = r
  | RunnerEnv found => found = true /\ t = fresh (dom (contexts (base s)))
  | NoRunner => False
  end.

Lemma signals_threads s : waiting (signals_step s).2 = waiting s
  /\ (forall t, t ∈ queue s -> t ∈ queue (signals_step s).2)
  /\ forall t, t ∈ queue (signals_step s).2 -> t ∈ queue s \/ is_runner s t.
Proof.
  unfold signals_step, is_runner. destruct (Z.eqb_spec (signals (base s)) 0); [auto|].
  destruct (signal_runner (base s)) as [[]|r|]; [|auto| |auto].
  - simpl. split; [reflexivity|]. split; intros t; rewrite elem_of_app, ?list_elem_of_singleton; tauto.
  - destruct (waitp _); [|auto]. simpl. split; [reflexivity|]. split; intros t; rewrite elem_of_app, ?list_elem_of_singleton; tauto.
Qed.

Lemma schedule_keeps poll now1 now2 ctx s : known (base s) ctx ->
  let '(res, _, s') := schedule poll now1 now2 ctx s in
  (forall t, t ∈ live ctx s -> t ∈ live res s' \/ t = ctx /\ refuel (the (base s) ctx) <= 0)
  /\ (forall t, t ∈ live res s' -> t ∈ live ctx s \/ is_runner s t).
Proof.
  intros Hc. unfold schedule. destruct (signals_threads s) as (S1 & S2 & S3).
  pose proof (field_signals refuel (fun _ _ => eq_refl) s ctx Hc (fun _ _ => eq_refl)) as Hr.
  destruct (signals_step s) as [seen s1]. simpl in *. set (s2 := timeouts_step now1 _).
  assert (Hr2 : refuel (the (base s2) ctx) = refuel (the (base s) ctx)).
  { unfold s2. rewrite field_timeouts, field_joins, field_fds by reflexivity. exact Hr. }
  assert (Hs : same_threads ctx s1 s2).
  { eapply same_threads_trans; [apply (fds_threads poll ctx)|]. eapply same_threads_trans; [apply (joins_threads ctx) | apply timeouts_threads]. }
  pose proof (next_threads now1 ctx seen s2) as [N1 N2]. destruct (next now1 ctx seen s2) as [res s3]. simpl in *.
  pose proof (rest_threads now1 now2 res s3) as [R1 R2]. destruct (rest now1 now2 res s3) as [[res' u] s4]. simpl in *.
  destruct Hs as [H1 H2]. rewrite Hr2 in N1. split; intros t Ht.
  - assert (Ht2 : t ∈ live ctx s2).
    { apply elem_of_live in Ht as [->|Ht]; apply elem_of_live; [auto|]. rewrite <- S1 in Ht.
      destruct (H1 t) as [?|?]; [destruct Ht; auto | auto | auto]. }
    destruct (N1 t Ht2) as [H|H]; [|auto]. destruct (R1 t H) as [?|[_ []]]. auto.
  - apply R2, N2, elem_of_live in Ht. rewrite elem_of_live. destruct Ht as [->|Ht]; [auto|].
    apply H2 in Ht as [Ht|Ht]; [apply S3 in Ht as [?|?]; auto | rewrite <- S1; auto].
Qed.

(** C18 (safety).  A turn of the scheduler ends, loses no thread and makes none up:
    who was running, able to run or waiting is so afterwards, but for the current
    thread when it has ended; and who is so afterwards was so before, but for
    the runner of signals. *)
Theorem scheduler_keeps_threads poll now1 now2 ctx w s : represents w s -> all_known s -> known (base s) ctx -> runner_known s ->
  exists res usecs w' s', sexp_scheduler poll now1 now2 ctx w = Some ((res, usecs), w') /\ represents w' s'
    /\ (forall t, t ∈ live ctx s -> t ∈ live res s' \/ t = ctx /\ refuel (the (base s) ctx) <= 0)
    /\ (forall t, t ∈ live res s' -> t ∈ live ctx s \/ is_runner s t).
Proof.
  intros H Hk Hc Hr. destruct (scheduler_runs poll now1 now2 ctx w s H Hk Hc Hr) as (w' & E & H').
  pose proof (schedule_keeps poll now1 now2 ctx s Hc) as Hs. destruct (schedule poll now1 now2 ctx s) as [[res u] s'].
  exists res, u, w', s'. auto.
Qed.

Lemma scheduler_keeps_threads_witness : exists res usecs w' s',
  sexp_scheduler nothing (Timeval 1000 0) (Timeval 1000 0) 1 (lay three) = Some ((res, usecs), w') /\ represents w' s'
  /\ (forall t, t ∈ live 1 three -> t ∈ live res s' \/ t = 1%positive /\ refuel (the (base three) 1%positive) <= 0)
  /\ (forall t, t ∈ live res s' -> t ∈ live 1 three \/ is_runner three t).
Proof.
  apply (scheduler_keeps_threads nothing (Timeval 1000 0) (Timeval 1000 0) 1 (lay three) three).
  - apply lay_represents.
  - intros t Ht. simpl in Ht. rewrite !list_elem_of_singleton in Ht. destruct Ht as [->| ->]; eexists; reflexivity.
  - eexists. reflexivity.
  - intros t. discriminate.
Defined.

(** ** An invariant *)

(** What a store holds besides contexts. *)
Definition others b := (mutexes b, signals b, signal_runner b, signal_handlers b, poll_fds b).

(** A time that is set has whole seconds. *)
Definition clean (t : timeval) : Prop := tv_sec t > 0 \/ t = Timeval 0 0.

(** The order of the paused threads: by deadline, those without one at the end. *)
Definition earlier b (t u : thread) : Prop :=
  tval (the b u) = Timeval 0 0 \/ tval (the b t) <> Timeval 0 0 /\ timeval_le (tval (the b u)) (tval (the b t)) = false.

(** No signal is pending, none has been, and no descriptor is waited for. *)
Definition quiet b : Prop := (signals b, poll_fds b) = (0, []) /\ forall t, signal_runner b <> RunnerThread t.

Record orderly s : Prop := Orderly {
  orderly_known : all_known s;
  orderly_nodup : NoDup (queue s ++ waiting s);
  orderly_blocked : forall t, t ∈ waiting s -> waitp (the (base s) t) = true;
  orderly_clean : forall t, clean (tval (the (base s) t));
  orderly_sorted : StronglySorted (earlier (base s)) (waiting s);
  orderly_quiet : quiet (base s);
}.

Record valid ctx s : Prop := Valid {
  valid_orderly : orderly s;
  valid_known : known (base s) ctx;
  valid_current : ctx ∉ queue s;
  valid_alive : ctx ∈ waiting s -> refuel (the (base s) ctx) > 0;
}.

Lemma sorted_ext b b' l : (forall t, t ∈ l -> tval (the b' t) = tval (the b t)) ->
  StronglySorted (earlier b) l -> StronglySorted (earlier b') l.
Proof.
  intros He H. induction H as [|t l H IH Hf]; constructor.
  - apply IH. intros u Hu. apply He, elem_of_cons. auto.
  - apply Forall_forall. intros u Hu. rewrite Forall_forall in Hf. specialize (Hf u Hu). unfold earlier in *.
    rewrite !He by (apply elem_of_cons; auto). exact Hf.
Qed.

Lemma sorted_sublist b l l' : sublist l' l -> StronglySorted (earlier b) l -> StronglySorted (earlier b) l'.
Proof.
  intros Hs. induction Hs as [|t l' l Hs IH|t l' l Hs IH]; intros H; [exact H | |]; apply StronglySorted_inv in H as [H Hf]; [|auto].
  constructor; [auto|]. apply Forall_forall. intros u Hu. rewrite Forall_forall in Hf. apply Hf. eapply elem_of_submseteq; [exact Hu | apply sublist_submseteq, Hs].
Qed.

Lemma timeval_le_trans x y z : timeval_le y x = false -> timeval_le z y = false -> timeval_le z x = false.
Proof. unfold timeval_le. intros. zcases; simpl in *; zcases; simpl in *; congruence || lia. Qed.

Lemma before_spec b t d : clean (tval (the b t)) ->
  sexp_context_before (the b t) d = true <-> tval (the b t) <> Timeval 0 0 /\ timeval_le (tval (the b t)) d = true.
Proof.
  intros Hc. unfold sexp_context_before. rewrite andb_true_iff. apply and_iff_compat_r. destruct Hc as [Hc| ->]; simpl.
  - destruct (tval (the b t)) as [x y]. simpl in *. destruct (Z.eqb_spec x 0); [lia|]. simpl. split; [congruence | reflexivity].
  - split; [discriminate | congruence].
Qed.

Lemma timeval_le_false_trans x y z : timeval_le x y = true -> timeval_le z y = false -> timeval_le x z = true.
Proof. unfold timeval_le. intros. zcases; simpl in *; zcases; simpl in *; congruence || lia. Qed.

Lemma timeval_le_asym x y : timeval_le x y = true -> timeval_le y x = false.
Proof. unfold timeval_le. intros. zcases; simpl in *; zcases; simpl in *; congruence || lia. Qed.

Lemma earlier_trans b t u v : earlier b t u -> earlier b u v -> earlier b t v.
Proof.
  unfold earlier. intros H1 [H2|[H2 H3]]; [auto|]. destruct H1 as [?|[H4 H5]]; [contradiction|]. right. split; [exact H4|].
  eapply timeval_le_trans; eassumption.
Qed.

(** Insertion keeps the order. *)
Lemma insert_sorted b timeout d t l : (forall u, clean (tval (the b u))) -> tval (the b t) = d ->
  (sexp_realp timeout || sexp_contextp timeout = false -> d = Timeval 0 0) ->
  (sexp_realp timeout || sexp_contextp timeout = true -> d <> Timeval 0 0) ->
  StronglySorted (earlier b) l -> StronglySorted (earlier b) (insert_after (ahead timeout d b) t l).
Proof.
  intros Hc Hd Hun Htm H. induction H as [|u l H IH Hf]; simpl; [repeat constructor|].
  assert (Hahead : ahead timeout d b u = true -> earlier b u t).
  { unfold ahead, earlier. destruct (sexp_realp timeout || sexp_contextp timeout) eqn:E.
    - intros Hb. apply before_spec in Hb as [Hb1 Hb2]; [|apply Hc]. right. split; [exact Hb1|]. rewrite Hd. apply timeval_le_asym, Hb2.
    - intros _. left. rewrite Hd. auto. }
  destruct (ahead timeout d b u) eqn:Ea.
  - constructor; [exact IH|]. apply Forall_forall. intros v Hv. apply elem_of_insert_after in Hv as [->|Hv]; [auto|].
    rewrite Forall_forall in Hf. auto.
  - constructor; [constructor; assumption|].
    assert (Htu : earlier b t u).
    { unfold ahead in Ea. unfold earlier. rewrite Hd. destruct (sexp_realp timeout || sexp_contextp timeout) eqn:E.
      - specialize (Htm eq_refl).
        destruct (decide (tval (the b u) = Timeval 0 0)) as [?|Hu]; [auto|]. right. split; [exact Htm|].
        destruct (timeval_le (tval (the b u)) d) eqn:El; [|reflexivity]. exfalso.
        assert (sexp_context_before (the b u) d = true) by (apply before_spec; auto). congruence.
      - left. apply negb_false_iff, Z.eqb_eq in Ea. destruct (Hc u) as [?|?]; [lia | assumption]. }
    constructor; [exact Htu|]. apply Forall_forall. intros v Hv. rewrite Forall_forall in Hf. eapply earlier_trans; eauto.
Qed.

(** *** The operations on lists *)

Lemma remove_first_notin x l : x ∉ l -> remove_first x l = l.
Proof.
  induction l as [|y l IH]; simpl; [reflexivity|]. rewrite not_elem_of_cons. intros [Hne Hl].
  rewrite bool_decide_false by auto. f_equal. auto.
Qed.

Lemma remove_first_sublist x l : sublist (remove_first x l) l.
Proof. induction l as [|y l IH]; simpl; [constructor|]. case_bool_decide; constructor; [reflexivity | exact IH]. Qed.

Lemma remove_first_nodup x l : NoDup l -> x ∉ remove_first x l.
Proof.
  induction 1 as [|y l Hy H IH]; simpl; [apply not_elem_of_nil|]. case_bool_decide; [subst; exact Hy|].
  apply not_elem_of_cons. auto.
Qed.

Lemma insert_after_perm (go : thread -> bool) x l : insert_after go x l ≡ₚ x :: l.
Proof.
  induction l as [|y l IH]; simpl; [reflexivity|]. destruct (go y); [rewrite IH; apply Permutation_swap | reflexivity].
Qed.

Lemma take_first_perm (f : thread -> bool) l x l' : take_first f l = Some (x, l') -> l ≡ₚ x :: l' /\ f x = true /\ sublist l' l.
Proof.
  revert x l'. induction l as [|y l IH]; intros x l'; simpl; [discriminate|]. destruct (f y) eqn:E.
  - intros [= <- <-]. split; [reflexivity|]. split; [exact E | constructor; reflexivity].
  - destruct (take_first f l) as [[z l1]|]; [|discriminate]. intros [= <- <-]. destruct (IH z l1 eq_refl) as (H1 & H2 & H3).
    split; [rewrite H1; apply Permutation_swap|]. split; [exact H2 | constructor; exact H3].
Qed.

Lemma nodup_sublist (l l' : list thread) : sublist l' l -> NoDup l -> NoDup l'.
Proof. intros Hs H. eapply sublist_NoDup; eassumption. Qed.

(** *** Updates of contexts *)

(** An update that keeps the time; it may unblock threads that are not paused. *)
Lemma orderly_upd s t f : (forall c, tval (f c) = tval c) -> (t ∈ waiting s -> waitp (f (the (base s) t)) = true) ->
  orderly s -> orderly (on_base (upd t f) s).
Proof.
  intros Hf Hw [H1 H2 H3 H4 H5 H6]. assert (Ht : forall u, tval (the (upd t f (base s)) u) = tval (the (base s) u)).
  { intros u. apply (field_upd tval). exact Hf. }
  split; simpl; auto.
  - apply all_known_on_base, H1.
  - intros u Hu. rewrite the_upd. case_bool_decide as E; [subst u; auto | auto].
  - intros u. rewrite Ht. apply H4.
  - eapply sorted_ext; [|exact H5]. auto.
Qed.

(** Fewer threads that wait, or threads moved to the queue. *)
Lemma orderly_lists s q p : orderly s -> (forall t, t ∈ q \/ t ∈ p -> known (base s) t) -> NoDup (q ++ p) -> sublist p (waiting s) ->
  orderly (Sched (base s) q p).
Proof.
  intros [H1 H2 H3 H4 H5 H6] Hk Hnd Hs. split; simpl; auto.
  - intros t Ht. apply H3. eapply elem_of_submseteq; [exact Ht | apply sublist_submseteq, Hs].
  - eapply sorted_sublist; eassumption.
Qed.

(** The deadline of a timeout fits its kind. *)
Definition sane now timeout b : Prop :=
  if sexp_realp timeout || sexp_contextp timeout then clean (ends_at now timeout b) /\ ends_at now timeout b <> Timeval 0 0
  else True.

Lemma orderly_insert now t timeout s : orderly s -> known (base s) t -> t ∉ queue s -> waitp (the (base s) t) = true ->
  sane now timeout (base s) -> orderly (insert_timed now t timeout s).
Proof.
  intros [H1 H2 H3 H4 H5 H6] Hk Hq Hw Hs. set (d := ends_at now timeout (base s)). set (b := upd t (set_tval d) (base s)).
  assert (Hnd : NoDup (queue s) /\ NoDup (waiting s)) by (apply NoDup_app in H2 as (? & _ & ?); auto).
  assert (Hd : tval (the b t) = d) by (unfold b; rewrite the_upd, bool_decide_true by reflexivity; reflexivity).
  assert (Hother : forall u, u <> t -> the b u = the (base s) u) by (intros u Hu; unfold b; rewrite the_upd, bool_decide_false by exact Hu; reflexivity).
  assert (Hdc : clean d).
  { unfold sane in Hs. fold d in Hs. destruct (sexp_realp timeout || sexp_contextp timeout) eqn:E; [tauto|].
    right. unfold d. destruct timeout; try discriminate; reflexivity. }
  assert (Hc : forall u, clean (tval (the b u))).
  { intros u. destruct (decide (u = t)) as [->|Hne]; [rewrite Hd; exact Hdc | rewrite Hother by exact Hne; apply H4]. }
  assert (Hrem : t ∉ remove_first t (waiting s)) by (apply remove_first_nodup; tauto).
  unfold insert_timed. fold d b. split; simpl.
  - apply (all_known_insert s now t timeout H1 Hk).
  - rewrite insert_after_perm, <- Permutation_middle. apply NoDup_cons. split; [rewrite elem_of_app; tauto|].
    eapply nodup_sublist; [|exact H2]. apply sublist_app; [reflexivity | apply remove_first_sublist].
  - intros u Hu. apply elem_of_insert_after in Hu. destruct (decide (u = t)) as [->|Hne].
    + unfold b. rewrite the_upd, bool_decide_true by reflexivity. exact Hw.
    + rewrite Hother by exact Hne. apply H3. destruct Hu as [?|Hu]; [contradiction | apply elem_of_remove_first in Hu; exact Hu].
  - exact Hc.
  - apply insert_sorted; [exact Hc | exact Hd | | |].
    + intros E. unfold d. destruct timeout; try discriminate; reflexivity.
    + intros E. unfold sane in Hs. rewrite E in Hs. tauto.
    + eapply sorted_ext; [|eapply sorted_sublist; [apply remove_first_sublist | exact H5]].
      intros u Hu. rewrite Hother; [reflexivity|]. intros ->. contradiction.
  - exact H6.
Qed.

Lemma orderly_wake v s : orderly s -> orderly (wake v s).2.
Proof.
  intros H. unfold wake. destruct (take_first _ _) as [[t p]|] eqn:E; [|exact H]. pose proof E as E'.
  apply take_first_perm in E as (Hp & _ & Hs). apply take_first_elem in E' as [Ht _]. pose proof (orderly_nodup _ H) as Hnd.
  assert (Hnd' : NoDup ((t :: queue s) ++ p)) by (simpl; rewrite Permutation_middle, <- Hp; exact Hnd).
  assert (Htp : t ∉ p) by (simpl in Hnd'; apply NoDup_cons in Hnd' as [Hn _]; rewrite elem_of_app in Hn; tauto).
  assert (H1 : orderly (Sched (base s) (t :: queue s) p)).
  { apply orderly_lists; [exact H | | exact Hnd' | exact Hs]. intros u Hu. apply (orderly_known _ H).
    rewrite elem_of_cons in Hu. destruct Hu as [[->|Hu]|Hu]; auto. right. eapply elem_of_submseteq; [exact Hu | apply sublist_submseteq, Hs]. }
  apply (orderly_upd _ t (set_timeoutp false)) in H1; [|reflexivity | intros Hin; contradiction].
  apply (orderly_upd _ t (set_waitp false)) in H1; [exact H1 | reflexivity | intros Hin; contradiction].
Qed.

Lemma orderly_start t s : orderly s -> known (base s) t -> t ∉ queue s -> t ∉ waiting s -> orderly (start t s).
Proof.
  intros H Hk Hq Hw. apply (orderly_upd (Sched (base s) (queue s ++ [t]) (waiting s)) t (set_errorp false)); [reflexivity | intros Hin; contradiction |].
  apply orderly_lists; [exact H | | | reflexivity].
  - intros u. rewrite elem_of_app, list_elem_of_singleton. intros [[Hu| ->]|Hu]; auto; apply (orderly_known _ H); auto.
  - rewrite <- app_assoc. simpl. rewrite <- Permutation_middle. apply NoDup_cons. split; [rewrite elem_of_app; tauto | apply (orderly_nodup _ H)].
Qed.

Lemma orderly_terminate_one ctx t s : orderly s -> known (base s) t -> orderly (terminate_one ctx t s).
Proof.
  intros H Ht. rewrite terminate_one_eq. cbv zeta.
  assert (H1 : orderly (terminated ctx t s)).
  { unfold terminated. destruct (_ >? _); [|exact H].
    apply (orderly_upd (on_base (upd t (set_result VTerminateError)) (on_base (upd t (set_errorp true)) s)) t (set_refuel 0)); [reflexivity | |].
    - intros Hin. simpl in *. rewrite !(field_upd waitp) by reflexivity. apply (orderly_blocked _ H), Hin.
    - apply orderly_upd; [reflexivity | |].
      + intros Hin. simpl in *. rewrite !(field_upd waitp) by reflexivity. apply (orderly_blocked _ H), Hin.
      + apply orderly_upd; [reflexivity | | exact H]. intros Hin. apply (orderly_blocked _ H), Hin. }
  case_bool_decide as Hin; [|exact H1]. pose proof (orderly_nodup _ H1) as Hnd. pose proof Hnd as Hnd'.
  apply NoDup_app in Hnd' as (Hq & Hd & Hw). apply orderly_start.
  - apply orderly_lists; [exact H1 | | | apply remove_first_sublist].
    + intros u Hu. apply (orderly_known _ H1). destruct Hu as [?|Hu]; [auto | apply elem_of_remove_first in Hu; auto].
    + eapply nodup_sublist; [|exact Hnd]. apply sublist_app; [reflexivity | apply remove_first_sublist].
  - apply (proj1 (terminated_keeps ctx t s)), Ht.
  - simpl. intros Hq'. apply (Hd _ Hq' Hin).
  - simpl. apply remove_first_nodup, Hw.
Qed.

Lemma terminate_one_lists ctx t s u : u ∉ waiting s -> u ∉ queue s ->
  u ∉ waiting (terminate_one ctx t s) /\ u ∉ queue (terminate_one ctx t s).
Proof.
  intros Hw Hq. rewrite terminate_one_eq. cbv zeta. unfold terminated. destruct (refuel _ >? 0); simpl;
    (case_bool_decide as Hin; simpl; [|auto]); (split; [intros Hu; apply elem_of_remove_first in Hu; auto|]);
    rewrite elem_of_app, list_elem_of_singleton; intros [?| ->]; auto.
Qed.

Lemma terminate_valid ctx l : forall s o, orderly s -> known (base s) ctx -> descent (base s) o l ->
  ctx ∉ waiting s -> ctx ∉ queue s ->
  let s' := terminate ctx l s in orderly s' /\ known (base s') ctx /\ ctx ∉ waiting s' /\ ctx ∉ queue s'.
Proof.
  induction l as [|t l IH]; intros s o H Hk Hd Hw Hq; [auto|]. destruct Hd as (-> & Ht & Hd). simpl.
  destruct (terminate_one_keeps ctx t s Ht (orderly_known _ H)) as (K1 & _ & K3).
  destruct (terminate_one_lists ctx t s ctx Hw Hq) as [Hw' Hq'].
  apply (IH _ (child (the (base s) t))); auto. apply orderly_terminate_one; assumption.
Qed.

(** *** The parts of the scheduler *)

Lemma move_nodup wakes update p : NoDup p -> forall b q, let r := move wakes update None b q p in
  r.1.2 ++ r.2 ≡ₚ q ++ p /\ sublist r.2 p
  /\ (forall t, t ∉ p \/ t ∈ r.2 -> the r.1.1 t = the b t) /\ (forall t, t ∈ p -> wakes (event (the b t)) = false -> t ∈ r.2).
Proof.
  induction 1 as [|t p Ht H IH]; intros b q; simpl.
  { split; [reflexivity|]. split; [reflexivity|]. split; [reflexivity | auto]. }
  destruct (wakes (event (the b t))) eqn:Ew.
  - destruct (IH (upd t update b) (q ++ [t])) as (P & S & F & W). split; [|split; [|split]].
    + rewrite P, <- app_assoc. reflexivity.
    + constructor. exact S.
    + intros u Hu. assert (Hut : u <> t).
      { intros ->. destruct Hu as [Hu|Hu]; [apply Hu, elem_of_cons; auto|]. apply Ht. eapply elem_of_submseteq; [exact Hu | apply sublist_submseteq, S]. }
      rewrite F; [rewrite the_upd, bool_decide_false by exact Hut; reflexivity|]. rewrite not_elem_of_cons in Hu. tauto.
    + intros u Hu He. apply elem_of_cons in Hu as [->|Hu]; [congruence|]. apply W; [exact Hu|].
      rewrite the_upd, bool_decide_false; [exact He|]. intros ->. contradiction.
  - destruct (IH b q) as (P & S & F & W). destruct (move wakes update None b q p) as [[b' q'] p']. simpl in *. split; [|split; [|split]].
    + rewrite <- Permutation_middle, P, Permutation_middle. reflexivity.
    + constructor. exact S.
    + intros u Hu. destruct (decide (u = t)) as [->|Hne]; [apply F; auto|]. apply F.
      rewrite not_elem_of_cons, elem_of_cons in Hu. tauto.
    + intros u Hu He. apply elem_of_cons. apply elem_of_cons in Hu as [->|Hu]; auto.
Qed.

Lemma move_others wakes update skip p : forall b q, others (move wakes update skip b q p).1.1 = others b.
Proof.
  induction p as [|t p IH]; intros b q; simpl; [reflexivity|]. destruct (wakes _); [rewrite IH; reflexivity|].
  specialize (IH b q). destruct (move wakes update skip b q p) as [[b' q'] p']. exact IH.
Qed.

Lemma others_quiet b b' : others b' = others b -> quiet b -> quiet b'.
Proof. unfold others, quiet. intros [= _ -> -> _ ->]. auto. Qed.

(** A step that moves some paused threads to the queue and leaves the others alone. *)
Lemma orderly_moved s b q p : orderly s -> (forall t, known (base s) t -> known b t) -> q ++ p ≡ₚ queue s ++ waiting s ->
  sublist p (waiting s) -> (forall t, t ∈ p -> the b t = the (base s) t) -> (forall t, tval (the b t) = tval (the (base s) t)) ->
  others b = others (base s) -> orderly (Sched b q p).
Proof.
  intros [H1 H2 H3 H4 H5 H6] Hk P S F T O. split; simpl.
  - intros t Ht. apply Hk, H1. rewrite <- elem_of_app in *. rewrite <- P. exact Ht.
  - rewrite P. exact H2.
  - intros t Ht. rewrite F by exact Ht. apply H3. eapply elem_of_submseteq; [exact Ht | apply sublist_submseteq, S].
  - intros t. rewrite T. apply H4.
  - eapply sorted_ext; [|eapply sorted_sublist; eassumption]. auto.
  - eapply others_quiet; eassumption.
Qed.

Lemma joins_valid ctx s : valid ctx s -> valid ctx (joins_step ctx s).
Proof.
  intros [H Hk Hq Ha]. unfold joins_step. destruct (Z.leb_spec (refuel (the (base s) ctx)) 0) as [Hr|Hr]; [|split; assumption].
  assert (Hw : ctx ∉ waiting s) by (intros Hin; specialize (Ha Hin); lia).
  pose proof (orderly_nodup _ H) as Hnd. apply NoDup_app in Hnd as (_ & _ & Hnd).
  destruct (move_nodup (fun v => bool_decide (v = VThread ctx)) woken (waiting s) Hnd (base s) (queue s)) as (P & S & F & _).
  pose proof (move_keeps (fun v => bool_decide (v = VThread ctx)) woken None (waiting s) (base s) (queue s)) as (K & _ & L).
  pose proof (fun t => field_move tval (fun v => bool_decide (v = VThread ctx)) woken None (waiting s) (fun _ => eq_refl) (base s) (queue s) t) as T.
  pose proof (move_others (fun v => bool_decide (v = VThread ctx)) woken None (waiting s) (base s) (queue s)) as O.
  unfold move_step. destruct (move _ woken None (base s) (queue s) (waiting s)) as [[b q] p]. simpl in *.
  assert (Hctx : ctx ∉ q ++ p) by (rewrite P, elem_of_app; tauto). rewrite elem_of_app in Hctx.
  split; simpl; [|apply K, Hk | tauto | tauto].
  apply (orderly_moved s); auto.
Qed.

Lemma expire_spec now p : NoDup p -> forall b, let r := expire now b p in
  p = r.1.2 ++ r.2 /\ (forall t, t ∉ r.1.2 -> the r.1.1 t = the b t)
  /\ (forall t, t ∈ r.1.2 -> waitp (the r.1.1 t) = false /\ timeoutp (the r.1.1 t) = true /\ sexp_context_before (the b t) now = true)
  /\ others r.1.1 = others b /\ (forall t l, r.2 = t :: l -> sexp_context_before (the b t) now = false).
Proof.
  induction 1 as [|t p Ht H IH]; intros b; simpl.
  { split; [reflexivity|]. split; [reflexivity|]. split; [intros t Hin; apply elem_of_nil in Hin; contradiction|]. split; [reflexivity | discriminate]. }
  destruct (sexp_context_before (the b t) now) eqn:E.
  - set (b1 := upd t (set_waitp false) (upd t (set_timeoutp true) b)).
    destruct (IH b1) as (P & F & W & O & N). destruct (expire now b1 p) as [[b2 e] p']. simpl in *.
    assert (Hb1 : forall u, u <> t -> the b1 u = the b u) by (intros u Hu; unfold b1; rewrite !the_upd, !bool_decide_false by exact Hu; reflexivity).
    assert (Hte : t ∉ e) by (intros Hin; apply Ht; rewrite P; apply elem_of_app; auto).
    split; [congruence|]. split; [|split; [|split; [rewrite O; reflexivity|]]].
    + intros u Hu. apply not_elem_of_cons in Hu as [Hne Hu]. rewrite F by exact Hu. apply Hb1, Hne.
    + intros u Hu. apply elem_of_cons in Hu as [->|Hu].
      * rewrite F by exact Hte. unfold b1. rewrite !the_upd, bool_decide_true by reflexivity. auto.
      * destruct (W u Hu) as (W1 & W2 & W3). split; [exact W1|]. split; [exact W2|]. rewrite <- Hb1; [exact W3|]. intros ->. contradiction.
    + intros u l El. rewrite <- (Hb1 u); [apply (N u l El)|]. intros ->. apply Ht. rewrite P, El. apply elem_of_app. right. apply elem_of_cons. auto.
  - split; [reflexivity|]. split; [reflexivity|]. split; [intros u Hin; apply elem_of_nil in Hin; contradiction|]. split; [reflexivity|].
    intros u l [= <- _]. exact E.
Qed.

(** The turn of the current thread comes before its own deadline has passed. *)
Definition on_time now ctx s : Prop := ctx ∈ waiting s -> sexp_context_before (the (base s) ctx) now = false.

Lemma timeouts_valid now ctx s : valid ctx s -> on_time now ctx s -> valid ctx (timeouts_step now s).
Proof.
  intros [H Hk Hq Ha] Ho. pose proof (orderly_nodup _ H) as Hnd. apply NoDup_app in Hnd as (Hndq & Hd & Hnd).
  destruct (expire_spec now (waiting s) Hnd (base s)) as (P & F & W & O & _).
  pose proof (field_expire tval (fun _ _ => eq_refl) (fun _ _ => eq_refl) now (waiting s) (base s)) as T.
  pose proof (field_expire refuel (fun _ _ => eq_refl) (fun _ _ => eq_refl) now (waiting s) (base s)) as R.
  pose proof (keeps_timeouts_known now s) as K. unfold timeouts_step in *.
  destruct (expire now (base s) (waiting s)) as [[b e] p]. simpl in *.
  assert (Hsub : sublist p (waiting s)) by (rewrite P; apply sublist_inserts_l; reflexivity).
  assert (He : ctx ∉ e).
  { intros Hin. destruct (W ctx Hin) as (_ & _ & Hb). rewrite Ho in Hb; [discriminate|]. rewrite P. apply elem_of_app. auto. }
  split; simpl.
  - apply (orderly_moved s); auto.
    + rewrite <- app_assoc, <- P. reflexivity.
    + intros t Ht. apply F. intros Hte. rewrite P in Hnd. apply NoDup_app in Hnd as (_ & Hdis & _). apply (Hdis t Hte Ht).
  - apply K, Hk.
  - rewrite elem_of_app. tauto.
  - intros Hin. rewrite R. apply Ha. rewrite P. apply elem_of_app. auto.
Qed.

Lemma next_valid now ctx s : valid ctx s -> valid (next now ctx true s).1 (next now ctx true s).2 \/
  (next now ctx true s).1 ∈ waiting s /\ (next now ctx true s).2 = s /\ refuel (the (base s) ctx) <= 0.
Proof.
  intros [H Hk Hq Ha]. unfold next. destruct (queue s) as [|t q] eqn:Eq.
  - destruct (Z.leb_spec (refuel (the (base s) ctx)) 0); simpl.
    + destruct (take_first _ _) as [[t l]|] eqn:E; [apply take_first_elem in E as [Ht _]; auto|]. left. split; auto. rewrite Eq. exact Hq.
    + left. split; auto. rewrite Eq. exact Hq.
  - left. pose proof (orderly_nodup _ H) as Hnd. rewrite Eq in Hnd. simpl in Hnd. apply NoDup_cons in Hnd as [Ht Hnd].
    rewrite elem_of_app in Ht. rewrite not_elem_of_cons in Hq. destruct Hq as [Hne Hq].
    assert (Htk : known (base s) t) by (apply (orderly_known _ H); rewrite Eq; left; apply elem_of_cons; auto).
    assert (H1 : orderly (Sched (base s) q (waiting s))).
    { apply orderly_lists; [exact H | | exact Hnd | reflexivity]. intros u Hu. apply (orderly_known _ H). rewrite Eq, elem_of_cons. tauto. }
    destruct ((refuel (the (base s) ctx) <=? 0) || waitp (the (base s) ctx)) eqn:Ec; simpl.
    + destruct (Z.gtb_spec (refuel (the (base s) ctx)) 0) as [Hr|Hr]; simpl.
      2: { split; simpl; [exact H1 | exact Htk | tauto | tauto]. }
      case_bool_decide as Hin; simpl; [split; simpl; [exact H1 | exact Htk | tauto | tauto]|].
      assert (Hw : waitp (the (base s) ctx) = true) by (apply orb_true_iff in Ec as [Ec|Ec]; [apply Z.leb_le in Ec; lia | exact Ec]).
      split.
      * apply orderly_insert; [exact H1 | exact Hk | exact Hq | exact Hw | exact I].
      * apply known_upd, Htk.
      * simpl. tauto.
      * rewrite insert_waiting. intros [?|?]; [congruence | tauto].
    + apply orb_false_iff in Ec as [_ Ec].
      assert (Hcw : ctx ∉ waiting s) by (intros Hin; rewrite (orderly_blocked _ H ctx Hin) in Ec; discriminate).
      split; simpl; [|exact Htk | rewrite elem_of_app, list_elem_of_singleton; intuition congruence | tauto].
      apply orderly_lists; [exact H | | | reflexivity].
      * intros u. rewrite elem_of_app, list_elem_of_singleton. intros [[Hu| ->]|Hu]; [|exact Hk|]; apply (orderly_known _ H); rewrite Eq, ?elem_of_cons; auto.
      * rewrite <- app_assoc. simpl. rewrite <- Permutation_middle. apply NoDup_cons. split; [rewrite elem_of_app; tauto | exact Hnd].
Qed.

(** The thread that is found, which may be taken from the paused ones. *)
Lemma choose_valid now res s : orderly s -> known (base s) res -> res ∉ queue s -> waitp (the (base s) res) = true ->
  let r := choose_waiting now res s in orderly r.2 /\ known (base r.2) r.1 /\ r.1 ∉ queue r.2 /\ r.1 ∉ waiting r.2.
Proof.
  intros H Hk Hq Hw. unfold choose_waiting. destruct (waiting s) as [|t p] eqn:Ew; simpl.
  { rewrite Ew. split; [exact H|]. split; [exact Hk|]. split; [exact Hq | apply not_elem_of_nil]. }
  pose proof (orderly_nodup _ H) as Hnd. rewrite Ew in Hnd. pose proof Hnd as Hnd'. apply NoDup_app in Hnd' as (Hndq & Hd & Hndw).
  apply NoDup_cons in Hndw as [Htp Hndp].
  assert (Htq : t ∉ queue s) by (intros Hin; apply (Hd t Hin), elem_of_cons; auto).
  assert (Htk : known (base s) t) by (apply (orderly_known _ H); rewrite Ew; right; apply elem_of_cons; auto).
  destruct (sexp_context_before (the (base s) t) (tval (the (base s) res))) eqn:Eb; simpl.
  - assert (H1 : orderly (Sched (base s) (queue s) p)).
    { apply orderly_lists; [exact H | | | rewrite Ew; constructor; reflexivity].
      - intros u Hu. apply (orderly_known _ H). rewrite Ew, elem_of_cons. tauto.
      - eapply nodup_sublist; [|exact Hnd]. apply sublist_app; [reflexivity | constructor; reflexivity]. }
    apply before_spec in Eb as [Eb1 Eb2]; [|apply (orderly_clean _ H)].
    assert (Hne : t <> res).
    { intros ->. pose proof (timeval_le_asym _ _ Eb2). congruence. }
    case_bool_decide as Hin; [split; [exact H1|]; auto|].
    assert (Hs : sane now (TimeOf res) (base s)).
    { unfold sane. simpl. split; [apply (orderly_clean _ H)|]. intros E0. rewrite E0 in Eb2.
      destruct (orderly_clean _ H t) as [Hc|Hc]; [|congruence]. unfold timeval_le in Eb2. simpl in Eb2. zcases; simpl in *; congruence || lia. }
    split; [apply (orderly_insert now res (TimeOf res) (Sched (base s) (queue s) p)); assumption|].
    split; [apply known_upd, Htk|]. split; [exact Htq|]. rewrite insert_waiting. simpl. intros [?|?]; [congruence | contradiction].
  - change (if bool_decide (t = res) then p else t :: remove_first res p) with (remove_first res (t :: p)). rewrite <- Ew.
    split; [|split; [exact Hk | split; [exact Hq|]]].
    + apply orderly_lists; [exact H | | | apply remove_first_sublist].
      * intros u Hu. apply (orderly_known _ H). destruct Hu as [?|Hu]; [auto | apply elem_of_remove_first in Hu; auto].
      * rewrite Ew. eapply nodup_sublist; [|exact Hnd]. apply sublist_app; [reflexivity | apply remove_first_sublist].
    + apply remove_first_nodup. rewrite Ew. constructor; assumption.
Qed.

Lemma rest_valid now1 now2 res s : orderly s -> known (base s) res -> res ∉ queue s ->
  let r := rest now1 now2 res s in valid r.1.1 r.2 /\ r.1.1 ∉ waiting r.2.
Proof.
  intros H Hk Hq. unfold rest. destruct (waitp (the (base s) res)) eqn:Ew.
  - pose proof (choose_valid now1 res s H Hk Hq Ew) as Hc. destruct (choose_waiting now1 res s) as [res' s'].
    destruct Hc as (H' & Hk' & Hq' & Hw'). simpl in *.
    assert (Hv : valid res' s') by (split; auto; contradiction).
    destruct (_ && _); [auto|]. destruct (_ >? _); [auto|]. simpl. split; [|exact Hw']. split; simpl; [|apply known_upd, known_upd, Hk' | exact Hq' | contradiction].
    apply (orderly_upd (on_base (upd res' (set_waitp false)) s') res' (set_timeoutp true)); [reflexivity | contradiction |].
    apply orderly_upd; [reflexivity | contradiction | exact H'].
  - simpl. assert (Hn : res ∉ waiting s) by (intros Hin; rewrite (orderly_blocked _ H res Hin) in Ew; discriminate).
    split; [split; auto; contradiction | exact Hn].
Qed.

(** Without signals and descriptors the first parts do nothing. *)
Lemma schedule_quiet poll now1 now2 ctx s : orderly s -> schedule poll now1 now2 ctx s =
  let s := timeouts_step now1 (joins_step ctx s) in
  let '(res, s) := next now1 ctx true s in rest now1 now2 res s.
Proof.
  intros H. destruct (orderly_quiet _ H) as [[= Hs Hp] _]. unfold schedule, signals_step. rewrite Hs. simpl. unfold fds_step. rewrite Hp. reflexivity.
Qed.

Lemma on_time_joins now ctx s : valid ctx s -> on_time now ctx s -> on_time now ctx (joins_step ctx s).
Proof.
  intros [H Hk Hq Ha] Ho Hin. unfold joins_step in *. destruct (Z.leb_spec (refuel (the (base s) ctx)) 0); [|auto].
  assert (Hw : ctx ∉ waiting s) by (intros Hi; specialize (Ha Hi); lia).
  pose proof (orderly_nodup _ H) as Hnd. apply NoDup_app in Hnd as (_ & _ & Hnd).
  destruct (move_nodup (fun v => bool_decide (v = VThread ctx)) woken (waiting s) Hnd (base s) (queue s)) as (_ & S & _ & _).
  unfold move_step in Hin. destruct (move _ woken None (base s) (queue s) (waiting s)) as [[b q] p]. simpl in *.
  exfalso. apply Hw. eapply elem_of_submseteq; [exact Hin | apply sublist_submseteq, S].
Qed.

Lemma schedule_valid poll now1 now2 ctx s : valid ctx s -> on_time now1 ctx s ->
  let '(res, _, s') := schedule poll now1 now2 ctx s in valid res s' /\ res ∉ waiting s'.
Proof.
  intros Hv Ho. rewrite schedule_quiet by apply Hv. cbv zeta. set (s2 := timeouts_step now1 (joins_step ctx s)).
  assert (Hv2 : valid ctx s2) by (apply timeouts_valid; [apply joins_valid, Hv | apply on_time_joins; assumption]).
  pose proof (next_valid now1 ctx s2 Hv2) as Hn. destruct (next now1 ctx true s2) as [res s3]. simpl in Hn.
  assert (H3 : orderly s3 /\ known (base s3) res /\ res ∉ queue s3).
  { destruct Hn as [[? ? ? ?]|(Hin & -> & _)]; [auto|]. destruct Hv2 as [H2 _ _ _]. split; [exact H2|].
    split; [apply (orderly_known _ H2); auto|]. intros Hq. pose proof (orderly_nodup _ H2) as Hnd. apply NoDup_app in Hnd as (_ & Hd & _).
    apply (Hd res Hq Hin). }
  destruct H3 as (H3 & Hk3 & Hq3). pose proof (rest_valid now1 now2 res s3 H3 Hk3 Hq3) as Hr.
  destruct (rest now1 now2 res s3) as [[res' u] s4]. exact Hr.
Qed.

(** *** Requests *)

Definition running ctx s : Prop := waitp (the (base s) ctx) = false /\ refuel (the (base s) ctx) > 0.

Lemma sane_times now timeout b b' : (forall t, tval (the b' t) = tval (the b t)) -> sane now timeout b -> sane now timeout b'.
Proof. intros T. unfold sane. destruct timeout; simpl; rewrite ?T; auto. Qed.

Lemma wait_valid now ctx v timeout s : valid ctx s -> refuel (the (base s) ctx) > 0 -> sane now timeout (base s) ->
  valid ctx (wait now ctx v timeout s).
Proof.
  intros [H Hk Hq Ha] Hr Hs. unfold wait. set (s1 := on_base _ s).
  assert (H1 : orderly s1).
  { apply (orderly_upd (on_base (upd ctx (set_waitp true)) s) ctx (set_event v)); [reflexivity | | apply orderly_upd; auto].
    intros _. simpl. rewrite the_upd, bool_decide_true by reflexivity. reflexivity. }
  split.
  - apply orderly_insert; [exact H1 | apply known_upd, known_upd, Hk | exact Hq | |].
    + simpl. rewrite !the_upd, !bool_decide_true by reflexivity. reflexivity.
    + eapply sane_times; [|exact Hs]. intros t. simpl. rewrite !(field_upd tval) by reflexivity. reflexivity.
  - apply known_upd, known_upd, known_upd, Hk.
  - exact Hq.
  - intros _. simpl. rewrite !(field_upd refuel) by reflexivity. exact Hr.
Qed.

Lemma field_wake {A} (g : context -> A) v s t : (forall c x, g (set_waitp x c) = g c) -> (forall c x, g (set_timeoutp x c) = g c) ->
  g (the (base (wake v s).2) t) = g (the (base s) t).
Proof. intros H1 H2. unfold wake. destruct (take_first _ _) as [[u p]|]; [|reflexivity]. simpl. rewrite !field_upd; auto. Qed.

Lemma wake_lists v s ctx : ctx ∉ waiting s -> ctx ∉ queue s -> ctx ∉ waiting (wake v s).2 /\ ctx ∉ queue (wake v s).2.
Proof.
  intros Hw Hq. unfold wake. destruct (take_first _ _) as [[u p]|] eqn:E; [|auto]. apply take_first_elem in E as [Hu Hp]. simpl.
  split; [auto|]. rewrite elem_of_cons. intros [->|?]; auto.
Qed.

Lemma wake_valid v ctx s : valid ctx s -> ctx ∉ waiting s -> valid ctx (wake v s).2 /\ ctx ∉ waiting (wake v s).2.
Proof.
  intros [H Hk Hq Ha] Hw. destruct (wake_lists v s ctx Hw Hq) as [Hw' Hq']. split; [|exact Hw'].
  split; [apply orderly_wake, H | apply known_wake, Hk | exact Hq' | contradiction].
Qed.

Lemma broadcast_valid c ctx : forall n res s, valid ctx s -> ctx ∉ waiting s -> valid ctx (broadcast n c res s).2.
Proof.
  induction n as [|n IH]; intros res s Hv Hw; [exact Hv|]. cbn [broadcast].
  destruct (wake_valid (VCondvar c) ctx s Hv Hw) as [Hv' Hw']. destruct (wake (VCondvar c) s) as [[|] s1]; [apply IH|]; assumption.
Qed.

(** The requests of a program that starts a thread once, gives deadlines that
    can be kept, and does not wait for descriptors. *)
Definition allowed now ctx s (r : request) : Prop :=
  match r with
  | Start t => known (base s) t /\ t ∉ live ctx s
  | Terminate t => exists l, descent (base s) (Some t) l
  | JoinThread t timeout => known (base s) t /\ sane now timeout (base s) /\ time_known s timeout
  | Sleep timeout => forall t, timeout = Some t -> sane now t (base s)
  | Lock m timeout _ | Unlock m _ timeout => is_Some (mutexes (base s) !! m) /\ sane now timeout (base s) /\ time_known s timeout
  | Signal _ | Broadcast _ => True
  | Block _ _ | Schedule _ _ => False
  end.

Lemma on_base_valid ctx s f : valid ctx s -> (forall b, contexts (f b) = contexts b) ->
  (quiet (base s) -> quiet (f (base s))) ->
  valid ctx (on_base f s).
Proof.
  intros [[H1 H2 H3 H4 H5 H6] Hk Hq Ha] Hf Ho.
  assert (E : forall t, the (f (base s)) t = the (base s) t) by (intros t; unfold the; rewrite Hf; reflexivity).
  assert (K : forall t, known (base s) t -> known (f (base s)) t) by (intros t; unfold known; rewrite Hf; auto).
  split; simpl; [|apply K, Hk | exact Hq | rewrite E; exact Ha]. split; simpl; auto.
  - intros t Ht. apply K, H1, Ht.
  - intros t Ht. rewrite E. auto.
  - intros t. rewrite E. auto.
  - eapply sorted_ext; [|exact H5]. intros t _. rewrite E. reflexivity.
Qed.

Lemma request_valid now ctx r s : valid ctx s -> running ctx s -> allowed now ctx s r -> valid ctx (spec now ctx r s).2.
Proof.
  intros Hv [Hw Hr] Ha. pose proof Hv as [H Hk Hq _].
  assert (Hn : ctx ∉ waiting s) by (intros Hin; rewrite (orderly_blocked _ H ctx Hin) in Hw; discriminate).
  destruct r as [t|t|t timeout|timeout|m timeout owner|m condvar timeout|c|c|v timeout|poll now2]; cbn [spec snd]; simpl in Ha.
  - destruct Ha as [Ht Hl]. rewrite elem_of_live in Hl. split.
    + apply orderly_start; [exact H | exact Ht | tauto | tauto].
    + apply known_upd, Hk.
    + simpl. rewrite elem_of_app, list_elem_of_singleton. intuition congruence.
    + simpl. tauto.
  - destruct Ha as [l Hl]. rewrite (family_descent _ l) by (exact Hl || (pose proof (descent_length _ _ _ Hl); lia)).
    destruct (terminate_valid ctx l s (Some t) H Hk Hl Hn Hq) as (H' & Hk' & Hw' & Hq'). split; auto. contradiction.
  - destruct Ha as (Ht & Hs & _). unfold join_thread. destruct (_ <=? _); [exact Hv|]. simpl. apply wait_valid.
    + split; simpl; [apply orderly_upd; auto; contradiction | apply known_upd, Hk | exact Hq | contradiction].
    + simpl. rewrite (field_upd refuel) by reflexivity. exact Hr.
    + eapply sane_times; [|exact Hs]. intros u. apply (field_upd tval). reflexivity.
  - assert (H1 : orderly (on_base (upd ctx (set_waitp true)) s)) by (apply orderly_upd; auto).
    assert (Hv1 : valid ctx (on_base (upd ctx (set_waitp true)) s)).
    { split; [exact H1 | apply known_upd, Hk | exact Hq | simpl; contradiction]. }
    unfold sleep. destruct timeout as [timeout|]; [|exact Hv1]. destruct (sexp_realp timeout); [|exact Hv1]. simpl. split.
    + apply orderly_insert.
      * apply orderly_upd; [reflexivity | simpl; contradiction | exact H1].
      * apply known_upd, known_upd, Hk.
      * exact Hq.
      * simpl. rewrite !the_upd, !bool_decide_true by reflexivity. reflexivity.
      * eapply sane_times; [|apply (Ha _ eq_refl)]. intros u. simpl. rewrite !(field_upd tval) by reflexivity. reflexivity.
    + apply known_upd, known_upd, known_upd, Hk.
    + exact Hq.
    + intros _. simpl. rewrite !(field_upd refuel) by reflexivity. exact Hr.
  - destruct Ha as ([x Hm] & Hs & _). unfold lock. rewrite Hm. case_bool_decide; simpl; [|apply wait_valid; assumption].
    apply on_base_valid; auto.
  - destruct Ha as ([x Hm] & Hs & _). unfold unlock. rewrite Hm. set (s1 := if bool_decide _ then s else _).
    assert (H1 : valid ctx s1 /\ refuel (the (base s1) ctx) > 0 /\ sane now timeout (base s1)).
    { unfold s1. case_bool_decide; [auto|]. set (s0 := on_base _ s).
      assert (Hv0 : valid ctx s0) by (apply on_base_valid; auto).
      destruct (wake_valid (VMutex m) ctx s0 Hv0 Hn) as [Hv' _]. split; [exact Hv'|]. split.
      - rewrite (field_wake refuel) by reflexivity. exact Hr.
      - eapply sane_times; [|exact Hs]. intros u. rewrite (field_wake tval) by reflexivity. reflexivity. }
    destruct H1 as (Hv1 & Hr1 & Hs1). destruct condvar; simpl; [apply wait_valid; assumption | exact Hv1].
  - apply wake_valid; assumption.
  - apply broadcast_valid; assumption.
  - contradiction.
  - contradiction.
Qed.

(** ** Reachable states *)

(** A step of the system: a request of the running thread; a turn of the
    scheduler; the end of a thread; a new thread. *)
Inductive step : thread * sched -> thread * sched -> Prop :=
| step_request now ctx s r : running ctx s -> allowed now ctx s r -> step (ctx, s) (ctx, (spec now ctx r s).2)
| step_turn poll now1 now2 ctx s res u s' : on_time now1 ctx s -> schedule poll now1 now2 ctx s = (res, u, s') ->
    step (ctx, s) (res, s')
| step_end ctx s v : ctx ∉ waiting s -> step (ctx, s) (ctx, on_base (fun b => upd ctx (set_refuel 0) (upd ctx (set_result v) b)) s)
| step_new ctx s : step (ctx, s) (ctx, on_base (put_context (fresh (dom (contexts (base s)))) new_context) s).

(** The state before any thread is started. *)
Definition initial ctx s : Prop :=
  queue s = [] /\ waiting s = [] /\ known (base s) ctx /\ quiet (base s)
  /\ forall t, tval (the (base s) t) = Timeval 0 0.

Lemma the_new b t u : t ∉ dom (contexts b) -> the (put_context t new_context b) u = the b u.
Proof.
  intros Ht. unfold the. simpl. destruct (decide (u = t)) as [->|Hne]; [|rewrite lookup_insert_ne by auto; reflexivity].
  rewrite lookup_insert_eq. apply not_elem_of_dom in Ht. rewrite Ht. reflexivity.
Qed.

Lemma step_valid c c' : step c c' -> valid c.1 c.2 -> valid c'.1 c'.2.
Proof.
  intros Hs Hv. destruct Hs as [now ctx s r Hr Ha|poll now1 now2 ctx s res u s' Ho E|ctx s v Hw|ctx s]; simpl in *.
  - apply request_valid; assumption.
  - pose proof (schedule_valid poll now1 now2 ctx s Hv Ho) as H. rewrite E in H. apply H.
  - destruct Hv as [H Hk Hq Ha]. split; simpl; [|apply known_upd, known_upd, Hk | exact Hq | contradiction].
    apply (orderly_upd (on_base (upd ctx (set_result v)) s) ctx (set_refuel 0)); [reflexivity | contradiction |].
    apply orderly_upd; [reflexivity | contradiction | exact H].
  - destruct Hv as [[H1 H2 H3 H4 H5 H6] Hk Hq Ha]. set (t := fresh (dom (contexts (base s)))).
    assert (E : forall u, the (put_context t new_context (base s)) u = the (base s) u) by (intros u; apply the_new, is_fresh).
    split; simpl; [|apply known_new, Hk | exact Hq | rewrite E; exact Ha]. split; simpl; auto.
    + intros u Hu. apply known_new, H1, Hu.
    + intros u Hu. rewrite E. auto.
    + intros u. rewrite E. auto.
    + eapply sorted_ext; [|exact H5]. intros u _. rewrite E. reflexivity.
Qed.

Lemma initial_valid ctx s : initial ctx s -> valid ctx s.
Proof.
  intros (Eq & Ew & Hk & Hs & Ht). split; [|exact Hk | rewrite Eq; apply not_elem_of_nil | rewrite Ew; intros Hin; apply elem_of_nil in Hin; contradiction].
  split; rewrite ?Eq, ?Ew; auto.
  - intros t [Hin|Hin]; rewrite ?Eq, ?Ew in Hin; apply elem_of_nil in Hin; contradiction.
  - constructor.
  - intros t Hin. apply elem_of_nil in Hin. contradiction.
  - intros t. right. apply Ht.
  - constructor.
Qed.

(** The functions of [Threads] that do a step. *)
Inductive does : thread * world -> thread * world -> Prop :=
| does_request now ctx r a w w' : run now ctx r w = Some (a, w') -> does (ctx, w) (ctx, w')
| does_turn poll now1 now2 ctx res u w w' : sexp_scheduler poll now1 now2 ctx w = Some ((res, u), w') -> does (ctx, w) (res, w')
| does_end ctx v w w' : end_thread ctx v w = Some (tt, w') -> does (ctx, w) (ctx, w')
| does_new ctx t w w' : sexp_make_thread w = Some (t, w') -> does (ctx, w) (ctx, w').

Lemma valid_legal ctx s : valid ctx s -> all_known s /\ known (base s) ctx /\ runner_known s.
Proof.
  intros [H Hk _ _]. split; [apply (orderly_known _ H)|]. split; [exact Hk|]. intros t E. destruct (orderly_quiet _ H) as [_ Hq]. destruct (Hq t E).
Qed.

Lemma allowed_legal now ctx s r : allowed now ctx s r -> legal s r.
Proof. destruct r; simpl; tauto. Qed.

Lemma step_does c c' w : step c c' -> valid c.1 c.2 -> represents w c.2 -> exists w', does (c.1, w) (c'.1, w') /\ represents w' c'.2.
Proof.
  intros Hs Hv H. destruct Hs as [now ctx s r Hr Ha|poll now1 now2 ctx s res u s' Ho E|ctx s v Hw|ctx s]; simpl in *; destruct (valid_legal _ _ Hv) as (Hk & Hc & Hrun).
  - destruct (run_refines now ctx r w s H Hk Hc (allowed_legal _ _ _ _ Ha)) as (w' & Ew & H'). exists w'. split; [eapply does_request, Ew | exact H'].
  - destruct (scheduler_runs poll now1 now2 ctx w s H Hk Hc Hrun) as (w' & Ew & H'). rewrite E in Ew, H'. exists w'. split; [eapply does_turn, Ew | exact H'].
  - destruct H as (xq & xp & H). destruct (rep_set_context _ _ _ _ ctx (set_result v) H Hc) as (w1 & E1 & H1).
    destruct (rep_set_context _ _ _ _ ctx (set_refuel 0) H1 (known_upd _ _ _ _ Hc)) as (w2 & E2 & H2). exists w2.
    split; [|exists xq, xp; exact H2]. apply (does_end ctx v). unfold end_thread. rewrite (run_bind _ _ _ _ _ E1). exact E2.
  - destruct H as (xq & xp & H). eexists. split; [eapply does_new, run_make_thread|]. exists xq, xp. rewrite <- (rep_base _ _ _ _ H).
    apply (rep_with_st _ _ _ _ (put_context (fresh (dom (contexts (st w)))) new_context)). exact H.
Qed.

(** C19 (invariant).  An invariant of restricted programs.  From a state in which
    no thread has been started and nothing is pending, consider the steps of
    [step]: the current thread, which runs, makes a request; the scheduler has a
    turn; a thread ends; a thread is made.  The requests are limited by [allowed]:
    a thread is started only when it is neither current nor queued nor paused;
    none blocks on a port or a descriptor or calls the scheduler itself; the chain
    of children of a thread that is terminated ends; timeouts give a deadline
    after the first second of the epoch, or none.  No signal comes.  Turns are on
    time ([on_time]): a paused thread that is still current has not passed its own
    deadline.  Then the functions on the pairs run without an error, and in the
    state they reach no thread is in two places or twice in one, the current one
    is not in the queue, who is paused waits, and the paused threads are ordered
    by deadline with those without one at the end.  Without these limits it fails
    ([Turns.scheduler_faults]). *)
Theorem reachable_valid ctx s w ctx' s' : initial ctx s -> represents w s -> rtc step (ctx, s) (ctx', s') ->
  exists w', rtc does (ctx, w) (ctx', w') /\ represents w' s' /\ valid ctx' s'.
Proof.
  intros Hi Hw Hr. apply initial_valid in Hi. remember (ctx, s) as c eqn:Ec. remember (ctx', s') as c' eqn:Ec'.
  assert (Hc : valid c.1 c.2 /\ represents w c.2) by (subst c; auto). replace ctx with c.1 by (subst c; reflexivity). clear Hi Hw Ec.
  revert w ctx' s' Ec' Hc. induction Hr as [c|c1 c2 c3 H12 _ IH]; intros w ctx' s' E [Hc Hw]; [subst c; exists w; auto using rtc_refl|].
  destruct (step_does _ _ _ H12 Hc Hw) as (w2 & D & Hw2). destruct (IH w2 ctx' s' E) as (w' & Dr & Hw' & Hv'); [split; [apply (step_valid _ _ H12 Hc) | exact Hw2]|].
  exists w'. split; [eapply rtc_l; eassumption | auto].
Qed.

(** Stores with few contexts, and no descriptors. *)
Lemma small_the l fds t : Forall (fun c => clean (tval c)) (l.*2) -> clean (tval (the (small l fds) t)).
Proof.
  intros H. unfold the, small. simpl. destruct (list_to_map (M := gmap thread context) l !! t) as [c|] eqn:E; simpl; [|right; reflexivity].
  apply elem_of_list_to_map_2 in E. rewrite Forall_forall in H. apply H. apply list_elem_of_fmap. exists (t, c). auto.
Qed.

Lemma small_valid ctx l q p : let b := small l [] in
  Forall (fun c => clean (tval c)) (l.*2) -> Forall (known b) (ctx :: q ++ p) -> NoDup (q ++ p) ->
  Forall (fun t => waitp (the b t) = true) p -> StronglySorted (earlier b) p -> ctx ∉ q -> ctx ∉ p -> valid ctx (Sched b q p).
Proof.
  intros b Hc Hk Hnd Hw Hs Hq Hp. apply Forall_cons in Hk as [Hkc Hk]. rewrite Forall_forall in Hk, Hw. split; simpl; auto; [|contradiction].
  split; simpl; auto.
  - intros t Ht. apply Hk, elem_of_app. exact Ht.
  - intros t. apply small_the, Hc.
  - split; [reflexivity | discriminate].
Qed.

(** A new thread is started and is current after a turn. *)
Lemma reachable_valid_witness : let s0 := Sched (small [(1%positive, new_context)] []) [] [] in
  exists s' w', rtc step (1%positive, s0) (2%positive, s') /\ rtc does (1%positive, lay s0) (2%positive, w') /\ represents w' s' /\ valid 2 s'.
Proof.
  intros s0. set (s1 := on_base (put_context (fresh (dom (contexts (base s0)))) new_context) s0).
  assert (Ef : fresh (dom (contexts (base s0))) = 2%positive) by (vm_compute; reflexivity). set (s2 := start 2 s1).
  destruct (schedule nothing (Timeval 1 0) (Timeval 1 0) 1 s2) as [[res u] s3] eqn:E.
  assert (Hres : res = 2%positive) by (apply (f_equal (fun r => r.1.1)) in E; vm_compute in E; congruence). subst res.
  assert (Hr : rtc step (1%positive, s0) (2%positive, s3)).
  { eapply rtc_l; [apply (step_new 1 s0)|]. fold s1.
    eapply rtc_l; [apply (step_request (Timeval 1 0) 1 s1 (Start 2)); [split; unfold s1; rewrite Ef; reflexivity|]|].
    { split; [unfold s1; rewrite Ef; eexists; reflexivity|]. unfold live. simpl. set_solver. }
    eapply rtc_l; [|reflexivity]. eapply step_turn; [|exact E]. intros Hin. apply elem_of_nil in Hin. contradiction. }
  exists s3. destruct (reachable_valid 1 s0 (lay s0) 2 s3) as (w' & D & Hw & Hv).
  - split; [reflexivity|]. split; [reflexivity|]. split; [eexists; reflexivity|]. split; [split; [reflexivity | discriminate]|].
    intros t. unfold the. simpl. destruct (decide (t = 1%positive)) as [->|Hne]; [reflexivity|].
    rewrite lookup_insert_ne by auto. reflexivity.
  - apply lay_represents.
  - exact Hr.
  - exists w'. auto.
Defined.
