(* ===== verification/Turns.v ===== *)
(** * Whose turn comes

    A paused thread whose deadline has passed can run after a turn, a thread that
    can run comes to run as the threads in front of it do, and the locks of
    mutexes exclude each other; and the cases in which threads, or their
    timeouts, go wrong.  The states are those of the specification, which
    [ThreadRefine] carries over to the cells. *)
From Stdlib Require Import Sorting.Sorted.
From S2P Require Import Prelude Threads ThreadSpec ThreadQueues ThreadRefine Scheduler.
From stdpp Require Import base list option gmap.
#[local] Open Scope Z_scope.
Implicit Types (b : store) (s : sched).

(** ** A turn *)

(** The threads that have been collected when the next one is chosen. *)
Definition collected now ctx s : sched := timeouts_step now (joins_step ctx s).

Lemma collected_valid now ctx s : valid ctx s -> on_time now ctx s -> valid ctx (collected now ctx s).
Proof. intros Hv Ho. apply timeouts_valid; [apply joins_valid, Hv | apply on_time_joins; assumption]. Qed.

Lemma valid_nodup ctx s : valid ctx s -> NoDup (queue s) /\ (forall t, t ∈ queue s -> t ∉ waiting s) /\ NoDup (waiting s).
Proof. intros [H _ _ _]. apply NoDup_app, (orderly_nodup _ H). Qed.

Lemma joins_queue ctx s : valid ctx s -> exists l, queue (joins_step ctx s) = queue s ++ l
  /\ forall t, t ∉ waiting s \/ t ∈ waiting (joins_step ctx s) -> the (base (joins_step ctx s)) t = the (base s) t.
Proof.
  intros Hv. unfold joins_step. destruct (_ <=? _); [|exists []; rewrite app_nil_r; auto].
  destruct (valid_nodup _ _ Hv) as (_ & _ & Hnd).
  destruct (move_nodup (fun v => bool_decide (v = VThread ctx)) woken (waiting s) Hnd (base s) (queue s)) as (_ & _ & F & _).
  destruct (move_queue (fun v => bool_decide (v = VThread ctx)) woken None (waiting s) (base s) (queue s)) as [l Hl].
  unfold move_step. destruct (move _ woken None (base s) (queue s) (waiting s)) as [[b q] p]. simpl in *. exists l. auto.
Qed.

Lemma timeouts_queue now ctx s : valid ctx s -> exists l, queue (timeouts_step now s) = queue s ++ l
  /\ forall t, t ∉ waiting s -> the (base (timeouts_step now s)) t = the (base s) t.
Proof.
  intros Hv. destruct (valid_nodup _ _ Hv) as (_ & _ & Hnd).
  destruct (expire_spec now (waiting s) Hnd (base s)) as (P & F & _ & _). unfold timeouts_step.
  destruct (expire now (base s) (waiting s)) as [[b e] p]. simpl in *. exists e. split; [reflexivity|].
  intros t Ht. apply F. intros Hin. apply Ht. rewrite P. apply elem_of_app. auto.
Qed.

(** The queue grows at its end, and its threads are left alone. *)
Lemma collected_queue now ctx s : valid ctx s -> on_time now ctx s -> exists l, queue (collected now ctx s) = queue s ++ l
  /\ forall t, t ∈ queue s \/ t = ctx /\ t ∉ waiting s -> the (base (collected now ctx s)) t = the (base s) t.
Proof.
  intros Hv Ho. unfold collected. destruct (joins_queue ctx s Hv) as (l1 & Q1 & F1). pose proof (joins_valid ctx s Hv) as Hv1.
  destruct (timeouts_queue now ctx _ Hv1) as (l2 & Q2 & F2). exists (l1 ++ l2). rewrite Q2, Q1, app_assoc. split; [reflexivity|].
  destruct (valid_nodup _ _ Hv) as (_ & Hd & _). destruct (valid_nodup _ _ Hv1) as (_ & Hd1 & _).
  intros t Ht. assert (Hw : t ∉ waiting s) by (destruct Ht as [Ht|[_ Ht]]; auto). rewrite F2; [apply F1; auto|].
  pose proof (threads_old _ _ _ (joins_threads ctx s) t) as Hold. intros Hin. destruct Ht as [Ht|[-> _]].
  - apply (Hd1 t); [rewrite Q1; apply elem_of_app; auto | exact Hin].
  - destruct Hold as [Hq|?]; [auto | | contradiction]. destruct Hv as [_ _ Hc _]. contradiction.
Qed.

(** A thread that can run: it is current or in the queue, and does not wait. *)
Definition ready res s t : Prop := (t = res \/ t ∈ queue s) /\ waitp (the (base s) t) = false.

(** Updates of the times of contexts. *)
Definition same_flags b b' : Prop := forall t, waitp (the b' t) = waitp (the b t) /\ timeoutp (the b' t) = timeoutp (the b t).

Lemma same_flags_tval t d b : same_flags b (upd t (set_tval d) b).
Proof. intros u. split; [apply (field_upd waitp) | apply (field_upd timeoutp)]; reflexivity. Qed.

Lemma next_ready now ctx s t : t ∈ queue s -> let r := next now ctx true s in
  (t = r.1 \/ t ∈ queue r.2) /\ same_flags (base s) (base r.2).
Proof.
  intros Ht. unfold next. destruct (queue s) as [|u q]; [apply elem_of_nil in Ht; contradiction|]. apply elem_of_cons in Ht.
  destruct ((refuel _ <=? 0) || _); simpl.
  - destruct (_ && _); simpl; (split; [tauto|]); [apply same_flags_tval | intros v; auto].
  - rewrite elem_of_app. split; [tauto | intros v; auto].
Qed.

(** The end of the scheduler leaves the threads that can run alone. *)
Lemma rest_ready now1 now2 res s t : orderly s -> known (base s) res -> res ∉ queue s -> ready res s t ->
  let r := rest now1 now2 res s in
  ready r.1.1 r.2 t /\ timeoutp (the (base r.2) t) = timeoutp (the (base s) t) /\ (t = res -> r.1.1 = res /\ r.2 = s).
Proof.
  intros H Hk Hq [Hin Hw]. unfold rest. destruct (waitp (the (base s) res)) eqn:Ew; [|unfold ready; auto].
  destruct (decide (t = res)) as [->|Hne]; [congruence|]. destruct Hin as [?|Hin]; [contradiction|].
  assert (Hc : let r := choose_waiting now1 res s in t ∈ queue r.2 /\ same_flags (base s) (base r.2)).
  { unfold choose_waiting. destruct (waiting s) as [|u p]; [split; [exact Hin | intros v; auto]|]. destruct (sexp_context_before _ _); simpl.
    - case_bool_decide; (split; [exact Hin|]); [intros v; auto | apply same_flags_tval].
    - split; [exact Hin | intros v; auto]. }
  pose proof (choose_valid now1 res s H Hk Hq Ew) as (_ & _ & Hn & _). destruct (choose_waiting now1 res s) as [res' s']. simpl in *.
  destruct Hc as [Hin' Hf]. specialize (Hf t) as [F1 F2]. assert (Hne' : t <> res') by (intros ->; contradiction).
  unfold ready. destruct (_ && _); [|destruct (_ >? _)]; simpl;
    rewrite ?the_upd, ?bool_decide_false by exact Hne'; rewrite ?the_upd, ?bool_decide_false by exact Hne'; rewrite F1, F2; tauto.
Qed.

(** Threads that are in the queue after the collection. *)
Lemma schedule_ready poll now1 now2 ctx s t : valid ctx s -> on_time now1 ctx s -> t ∈ queue (collected now1 ctx s) ->
  waitp (the (base (collected now1 ctx s)) t) = false ->
  let '(res, _, s') := schedule poll now1 now2 ctx s in
  ready res s' t /\ timeoutp (the (base s') t) = timeoutp (the (base (collected now1 ctx s)) t).
Proof.
  intros Hv Ho Hin Hw. rewrite schedule_quiet by apply Hv. cbv zeta. change (timeouts_step now1 (joins_step ctx s)) with (collected now1 ctx s).
  pose proof (collected_valid now1 ctx s Hv Ho) as Hv2. set (s2 := collected now1 ctx s) in *.
  destruct (next_ready now1 ctx s2 t Hin) as [N F]. pose proof (next_valid now1 ctx s2 Hv2) as Hn.
  assert (Hn' : valid (next now1 ctx true s2).1 (next now1 ctx true s2).2).
  { destruct Hn as [?|(Hr & E & _)]; [assumption|]. unfold next in Hr, E. destruct (queue s2) as [|u q] eqn:Eq; [apply elem_of_nil in Hin; contradiction|].
    destruct (valid_nodup _ _ Hv2) as (_ & Hd & _). exfalso. destruct ((refuel _ <=? 0) || _); simpl in Hr; apply (Hd u); rewrite ?Eq, ?elem_of_cons; auto. }
  destruct (next now1 ctx true s2) as [res s3]. destruct Hn' as [H3 Hk3 Hq3 _]. simpl in *. specialize (F t) as [F1 F2].
  destruct (rest_ready now1 now2 res s3 t H3 Hk3 Hq3) as (R1 & R2 & _); [split; [exact N | congruence]|].
  destruct (rest now1 now2 res s3) as [[res' u] s4]. simpl in *. split; [exact R1 | congruence].
Qed.

(** ** Deadlines *)

(** In the order of the paused threads, those whose time has come are in front. *)
Lemma expire_all now b p t : StronglySorted (earlier b) p -> (forall u, clean (tval (the b u))) -> NoDup p -> t ∈ p ->
  sexp_context_before (the b t) now = true -> t ∈ (expire now b p).1.2.
Proof.
  intros Hs Hc Hnd Hin Hb. destruct (expire_spec now p Hnd b) as (P & _ & _ & _ & N).
  destruct (expire now b p) as [[b' e] r]. simpl in *. rewrite P in Hs, Hin. apply elem_of_app in Hin as [?|Hin]; [assumption | exfalso].
  assert (Hs' : StronglySorted (earlier b) r) by (eapply sorted_sublist; [|exact Hs]; apply sublist_inserts_l; reflexivity).
  destruct r as [|u l]; [apply elem_of_nil in Hin; contradiction|]. specialize (N u l eq_refl).
  apply elem_of_cons in Hin as [->|Hin]; [congruence|]. apply StronglySorted_inv in Hs' as [_ Hf]. rewrite Forall_forall in Hf.
  apply before_spec in Hb as [Hb1 Hb2]; [|apply Hc]. destruct (Hf t Hin) as [?|[Hu1 Hu2]]; [contradiction|].
  assert (sexp_context_before (the b u) now = true); [|congruence]. apply before_spec; [apply Hc|]. split; [exact Hu1|].
  unfold timeval_le in *. zcases; simpl in *; zcases; simpl in *; congruence || lia.
Qed.

(** The threads that are moved are updated, each once. *)
Lemma move_woken wakes update p : NoDup p -> forall b q, let r := move wakes update None b q p in
  forall t, t ∈ p -> t ∉ r.2 -> the r.1.1 t = update (the b t).
Proof.
  induction 1 as [|u p Hu H IH]; intros b q; simpl; [intros t Ht; apply elem_of_nil in Ht; contradiction|].
  intros t Ht. apply elem_of_cons in Ht. destruct (wakes (event (the b u))) eqn:Ew.
  - intros Hn. destruct (decide (t = u)) as [->|Hne].
    + destruct (move_nodup wakes update p H (upd u update b) (q ++ [u])) as (_ & _ & F & _). rewrite F by auto.
      rewrite the_upd, bool_decide_true by reflexivity. reflexivity.
    + destruct Ht as [?|Ht]; [contradiction|]. specialize (IH (upd u update b) (q ++ [u]) t Ht Hn). simpl in IH. rewrite IH.
      rewrite the_upd, bool_decide_false by exact Hne. reflexivity.
  - specialize (IH b q t). destruct (move wakes update None b q p) as [[b' q'] p']. simpl in *. rewrite not_elem_of_cons.
    intros [Hne Hn]. destruct Ht as [?|Ht]; [contradiction | auto].
Qed.

Lemma schedule_wakes poll now1 now2 ctx s t : valid ctx s -> on_time now1 ctx s -> t ∈ waiting s ->
  sexp_context_before (the (base s) t) now1 = true ->
  let '(res, _, s') := schedule poll now1 now2 ctx s in
  ready res s' t /\ (event (the (base s) t) <> VThread ctx \/ refuel (the (base s) ctx) > 0 -> timeoutp (the (base s') t) = true).
Proof.
  intros Hv Ho Hin Hb. pose proof (joins_valid ctx s Hv) as Hv1. destruct (valid_nodup _ _ Hv1) as (_ & _ & Hnd1).
  assert (Hcase : (t ∈ queue (joins_step ctx s) /\ waitp (the (base (joins_step ctx s)) t) = false
                   /\ event (the (base s) t) = VThread ctx /\ refuel (the (base s) ctx) <= 0)
                  \/ (t ∈ waiting (joins_step ctx s) /\ the (base (joins_step ctx s)) t = the (base s) t)).
  { destruct (joins_queue ctx s Hv) as (_ & _ & F).
    assert (Hw : t ∈ waiting (joins_step ctx s) \/ t ∉ waiting (joins_step ctx s)) by (destruct (decide (t ∈ waiting (joins_step ctx s))); auto).
    destruct Hw as [Hw|Hw]; [right; auto|]. left. unfold joins_step in *.
    destruct (Z.leb_spec (refuel (the (base s) ctx)) 0) as [Hr|Hr]; [|contradiction].
    destruct (valid_nodup _ _ Hv) as (_ & _ & Hnd).
    destruct (move_nodup (fun v => bool_decide (v = VThread ctx)) woken (waiting s) Hnd (base s) (queue s)) as (P & _ & _ & W).
    pose proof (move_woken (fun v => bool_decide (v = VThread ctx)) woken (waiting s) Hnd (base s) (queue s)) as V.
    unfold move_step in *. destruct (move _ woken None (base s) (queue s) (waiting s)) as [[b q] p]. simpl in *.
    destruct (bool_decide (event (the (base s) t) = VThread ctx)) eqn:E; [|exfalso; auto]. apply bool_decide_eq_true in E.
    assert (Hq : t ∈ q ++ p) by (rewrite P; apply elem_of_app; auto). apply elem_of_app in Hq as [Hq|?]; [|contradiction].
    rewrite (V t Hin Hw). auto. }
  destruct Hcase as [(Hq & Hw & He & Hr)|[Hw E]].
  - destruct (timeouts_queue now1 ctx _ Hv1) as (l & Q & F). destruct (valid_nodup _ _ Hv1) as (_ & Hd1 & _).
    pose proof (schedule_ready poll now1 now2 ctx s t Hv Ho) as S. unfold collected in S. rewrite Q, F in S by auto.
    destruct (schedule poll now1 now2 ctx s) as [[res u] s']. destruct S as [S _]; [apply elem_of_app; auto | exact Hw |].
    split; [exact S|]. intros [?|?]; [contradiction | lia].
  - assert (He : t ∈ (expire now1 (base (joins_step ctx s)) (waiting (joins_step ctx s))).1.2).
    { destruct Hv1 as [H1 _ _ _]. apply expire_all; [apply (orderly_sorted _ H1) | apply (orderly_clean _ H1) | exact Hnd1 | exact Hw | rewrite E; exact Hb]. }
    destruct (expire_spec now1 (waiting (joins_step ctx s)) Hnd1 (base (joins_step ctx s))) as (_ & _ & W & _).
    pose proof (schedule_ready poll now1 now2 ctx s t Hv Ho) as S. unfold collected, timeouts_step in S.
    destruct (expire now1 _ _) as [[b e] p]. simpl in *. destruct (W t He) as (W1 & W2 & _).
    destruct (schedule poll now1 now2 ctx s) as [[res u] s']. destruct S as [S1 S2]; [apply elem_of_app; auto | exact W1 |].
    split; [exact S1|]. intros _. congruence.
Qed.

(** The scheduler of the cells, from a valid state. *)
Lemma turn_runs poll now1 now2 ctx w s : represents w s -> valid ctx s ->
  exists w', sexp_scheduler poll now1 now2 ctx w = Some ((schedule poll now1 now2 ctx s).1, w') /\ represents w' (schedule poll now1 now2 ctx s).2.
Proof. intros H Hv. destruct (valid_legal _ _ Hv) as (Hk & Hc & Hr). apply scheduler_runs; assumption. Qed.

(** C22 (liveness).  Deadlines are kept by the turns of the scheduler that are on
    time.  Take a [valid] state, as the restricted programs of
    [Scheduler.reachable_valid] reach: no descriptors and no signals are waited
    for, no thread is in two places, and the paused threads are ordered by
    deadline.  Let the current thread, if it is paused itself, not have passed its
    own deadline when the scheduler reads the clock ([on_time]), and let that of the
    paused thread [t] have passed.  Then [t] can run after the turn: it is the next
    thread or in the queue, and does not wait.  Its flag says that its time is up,
    unless it waited for the current thread and that has ended. *)
Theorem deadline_wakes poll now1 now2 ctx w s t : represents w s -> valid ctx s -> on_time now1 ctx s -> t ∈ waiting s ->
  sexp_context_before (the (base s) t) now1 = true ->
  exists res usecs w' s', sexp_scheduler poll now1 now2 ctx w = Some ((res, usecs), w') /\ represents w' s'
    /\ ready res s' t /\ (event (the (base s) t) <> VThread ctx \/ refuel (the (base s) ctx) > 0 -> timeoutp (the (base s') t) = true).
Proof.
  intros H Hv Ho Hin Hb. destruct (turn_runs poll now1 now2 ctx w s H Hv) as (w' & E & H').
  pose proof (schedule_wakes poll now1 now2 ctx s t Hv Ho Hin Hb) as Hs. destruct (schedule poll now1 now2 ctx s) as [[res u] s'].
  exists res, u, w', s'. tauto.
Qed.

(** ** The queue *)

(** The head of the queue, if it can run, is next; those behind it move up. *)
Lemma schedule_head poll now1 now2 ctx s u q : valid ctx s -> on_time now1 ctx s -> queue s = u :: q -> waitp (the (base s) u) = false ->
  let '(res, _, s') := schedule poll now1 now2 ctx s in
  res = u /\ exists l, queue s' = q ++ l /\ forall t, t ∈ q -> waitp (the (base s') t) = waitp (the (base s) t).
Proof.
  intros Hv Ho Eq Hw. rewrite schedule_quiet by apply Hv. cbv zeta. change (timeouts_step now1 (joins_step ctx s)) with (collected now1 ctx s).
  destruct (collected_queue now1 ctx s Hv Ho) as (l & Q & F). set (s2 := collected now1 ctx s) in *. rewrite Eq in Q, F. simpl in Q.
  assert (Hn : exists l' s3, next now1 ctx true s2 = (u, s3) /\ queue s3 = q ++ l' /\ same_flags (base s2) (base s3)).
  { unfold next. rewrite Q. destruct ((refuel _ <=? 0) || _).
    - exists l. destruct (_ && _); eexists; (split; [reflexivity|]); (split; [reflexivity|]); [apply same_flags_tval | intros v; auto].
    - exists (l ++ [ctx]). eexists. split; [reflexivity|]. split; [simpl; rewrite app_assoc; reflexivity | intros v; auto]. }
  destruct Hn as (l' & s3 & -> & Q3 & F3). unfold rest.
  rewrite (proj1 (F3 u)), F, Hw by (left; apply elem_of_cons; auto). split; [reflexivity|]. exists l'. split; [exact Q3|].
  intros t Ht. rewrite (proj1 (F3 t)), F by (left; apply elem_of_cons; auto). reflexivity.
Qed.

(** The requests that put no thread in front of the others. *)
Definition patient (r : request) : Prop :=
  match r with Unlock _ _ _ | Signal _ | Broadcast _ | Block _ _ | Schedule _ _ => False | _ => True end.

(** The current thread makes patient requests between [n] turns. *)
Inductive plays (c : thread * sched) : nat -> thread * sched -> Prop :=
| plays_none : plays c 0 c
| plays_request n ctx s now r : plays c n (ctx, s) -> running ctx s -> allowed now ctx s r -> patient r ->
    plays c n (ctx, (spec now ctx r s).2)
| plays_turn n ctx s poll now1 now2 res u s' : plays c n (ctx, s) -> on_time now1 ctx s ->
    schedule poll now1 now2 ctx s = (res, u, s') -> plays c (S n) (res, s').

Lemma plays_valid c n c' : valid c.1 c.2 -> plays c n c' -> valid c'.1 c'.2.
Proof.
  intros Hv H. induction H as [|n ctx s now r H IH Hr Ha Hp|n ctx s poll now1 now2 res u s' H IH Ho E]; [exact Hv | |].
  - apply (step_valid (ctx, s)); [apply step_request; assumption | exact IH].
  - apply (step_valid (ctx, s) (res, s')); [eapply step_turn; eassumption | exact IH].
Qed.

(** Patient requests add to the end of the queue, and leave those in it waiting
    or not. *)
Definition grows s s' : Prop := exists l, queue s' = queue s ++ l
  /\ forall t, t ∈ queue s -> waitp (the (base s') t) = waitp (the (base s) t).

Lemma grows_refl s : grows s s.
Proof. exists []. rewrite app_nil_r. auto. Qed.

Lemma grows_trans s1 s2 s3 : grows s1 s2 -> grows s2 s3 -> grows s1 s3.
Proof.
  intros (l1 & Q1 & F1) (l2 & Q2 & F2). exists (l1 ++ l2). rewrite Q2, Q1, app_assoc. split; [reflexivity|].
  intros t Ht. rewrite F2, F1; [reflexivity | exact Ht | rewrite Q1; apply elem_of_app; auto].
Qed.

Lemma grows_upd t f s : t ∉ queue s \/ (forall c, waitp (f c) = waitp c) -> grows s (on_base (upd t f) s).
Proof.
  intros Ht. exists []. rewrite app_nil_r. split; [reflexivity|]. intros u Hu. simpl. destruct Ht as [Ht|Ht]; [|apply (field_upd waitp), Ht].
  rewrite the_upd, bool_decide_false; [reflexivity|]. intros ->. contradiction.
Qed.

Lemma grows_start t s : grows s (start t s).
Proof.
  exists [t]. split; [reflexivity|]. intros u _. apply (field_upd waitp). reflexivity.
Qed.

Lemma grows_insert now t timeout s : grows s (insert_timed now t timeout s).
Proof. exists []. rewrite app_nil_r. split; [reflexivity|]. intros u _. apply (field_upd waitp). reflexivity. Qed.

Lemma grows_wait now t v timeout s : t ∉ queue s -> grows s (wait now t v timeout s).
Proof.
  intros Ht. unfold wait. eapply grows_trans; [|apply grows_insert].
  apply (grows_trans _ (on_base (upd t (set_waitp true)) s)); [apply grows_upd; auto|].
  apply (grows_upd t (set_event v) (on_base (upd t (set_waitp true)) s)). auto.
Qed.

Lemma grows_terminate_one ctx t s : grows s (terminate_one ctx t s).
Proof.
  rewrite terminate_one_eq. cbv zeta. apply (grows_trans _ (terminated ctx t s)).
  - unfold terminated. destruct (_ >? _); [|apply grows_refl].
    apply (grows_trans _ (on_base (upd t (set_errorp true)) s)); [apply grows_upd; auto|].
    apply (grows_trans _ (on_base (upd t (set_result VTerminateError)) (on_base (upd t (set_errorp true)) s))); [apply grows_upd; auto|].
    apply (grows_upd t (set_refuel 0) (on_base (upd t (set_result VTerminateError)) (on_base (upd t (set_errorp true)) s))). auto.
  - case_bool_decide; [|apply grows_refl]. set (s1 := terminated ctx t s).
    destruct (grows_start t (Sched (base s1) (queue s1) (remove_first t (waiting s1)))) as (l & Q & F). exists l. auto.
Qed.

Lemma grows_terminate ctx l : forall s, grows s (terminate ctx l s).
Proof. induction l as [|t l IH]; intros s; [apply grows_refl|]. eapply grows_trans; [apply grows_terminate_one | apply IH]. Qed.

Lemma patient_grows now ctx r s : patient r -> ctx ∉ queue s -> grows s (spec now ctx r s).2.
Proof.
  intros Hp Hq. destruct r as [t|t|t timeout|timeout|m timeout owner|m condvar timeout|c|c|v timeout|poll now2]; try contradiction; cbn [spec snd].
  - apply grows_start.
  - apply grows_terminate.
  - unfold join_thread. destruct (_ <=? _); [apply grows_refl|]. simpl.
    apply (grows_trans _ (on_base (upd ctx (set_timeoutp false)) s)); [apply grows_upd; auto | apply grows_wait, Hq].
  - assert (H1 : grows s (on_base (upd ctx (set_waitp true)) s)) by (apply grows_upd; auto).
    unfold sleep. destruct timeout as [timeout|]; [|exact H1]. destruct (sexp_realp timeout); [|exact H1]. simpl.
    eapply grows_trans; [exact H1|]. eapply grows_trans; [|apply grows_insert].
    apply (grows_upd ctx (set_event VFalse) (on_base (upd ctx (set_waitp true)) s)). auto.
  - unfold lock. destruct (mutexes (base s) !! m) as [x|]; [|apply grows_refl]. case_bool_decide; simpl; [|apply grows_wait, Hq].
    exists []. rewrite app_nil_r. auto.
Qed.

(** C21 (liveness).  When a thread that can run has its turn.  Suppose a valid
    state whose queue has [k] threads in front of [u], and that none of these nor
    [u] waits; and that between the turns the current thread makes only requests
    that are allowed and patient, which is to say none that wakes another thread
    (unlocking a mutex, signalling or broadcasting a condition variable), and that
    the turns are on time.  Then [u] moves up by one with each turn, and is the
    current thread after the turn with number [k + 1].  Without patience there is
    no bound ([handovers_starve]). *)
Theorem ready_thread_runs ctx s k u n c : valid ctx s -> queue s !! k = Some u ->
  (forall t, t ∈ take (S k) (queue s) -> waitp (the (base s) t) = false) ->
  plays (ctx, s) n c -> (n <= k)%nat ->
  queue c.2 !! (k - n)%nat = Some u /\
  forall poll now1 now2 w, n = k -> on_time now1 c.1 c.2 -> represents w c.2 ->
    exists usecs w', sexp_scheduler poll now1 now2 c.1 w = Some ((u, usecs), w').
Proof.
  intros Hv Hk Hw Hp. set (q := take (S k) (queue s)) in *.
  assert (Hinv : (n <= k)%nat -> exists l, queue c.2 = drop n q ++ l /\ forall t, t ∈ drop n q -> waitp (the (base c.2) t) = false).
  { induction Hp as [|n ctx' s' now r Hp IH Hr Ha Hpa|n ctx' s' poll now1 now2 res x s2 Hp IH Ho E]; intros Hn.
    - exists (drop (S k) (queue s)). change (queue (ctx, s).2) with (queue s). rewrite drop_0. unfold q. rewrite take_drop. auto.
    - destruct (IH Hn) as (l & Q & F). simpl in *. pose proof (valid_current _ _ (plays_valid (ctx, s) _ _ Hv Hp)) as Hq.
      destruct (patient_grows now ctx' r s' Hpa Hq) as (l2 & Q2 & F2). exists (l ++ l2). rewrite Q2, Q, app_assoc. split; [reflexivity|].
      intros t Ht. rewrite F2; [auto|]. rewrite Q. apply elem_of_app. auto.
    - destruct (IH ltac:(lia)) as (l & Q & F). simpl in *. pose proof (plays_valid (ctx, s) _ _ Hv Hp) as Hv'.
      assert (Hd : exists t q', drop n q = t :: q' /\ drop (S n) q = q').
      { assert (Hlen : (n < length q)%nat) by (unfold q; rewrite length_take; pose proof (lookup_lt_Some _ _ _ Hk); lia).
        destruct (drop n q) as [|t q'] eqn:Ed; [pose proof (f_equal length Ed) as El; rewrite length_drop in El; simpl in El; lia|].
        exists t, q'. split; [reflexivity|]. change (S n) with (1 + n)%nat. rewrite Nat.add_comm, <- drop_drop, Ed. reflexivity. }
      destruct Hd as (t & q' & Ed & ->). rewrite Ed in Q, F.
      pose proof (schedule_head poll now1 now2 ctx' s' t (q' ++ l) Hv' Ho Q (F t ltac:(apply elem_of_cons; auto))) as S.
      rewrite E in S. destruct S as (_ & l2 & Q2 & F2). exists (l ++ l2). rewrite Q2, <- app_assoc. split; [reflexivity|].
      intros v Hin. rewrite F2 by (apply elem_of_app; auto). apply F, elem_of_cons. auto. }
  intros Hn. destruct (Hinv Hn) as (l & Q & F).
  assert (Hqk : drop n q !! (k - n)%nat = Some u).
  { rewrite lookup_drop. replace (n + (k - n))%nat with k by lia. unfold q. rewrite lookup_take_lt by lia. exact Hk. }
  split; [rewrite Q; apply lookup_app_l_Some, Hqk|]. intros poll now1 now2 w -> Ho Hw'. rewrite Nat.sub_diag in Hqk.
  destruct (drop k q) as [|t q'] eqn:Ed; [discriminate|]. injection Hqk as ->.
  pose proof (schedule_head poll now1 now2 c.1 c.2 u (q' ++ l) (plays_valid (ctx, s) _ _ Hv Hp) Ho Q (F u ltac:(apply elem_of_cons; auto))) as S.
  destruct (turn_runs poll now1 now2 c.1 w c.2 Hw' (plays_valid (ctx, s) _ _ Hv Hp)) as (w' & E & _).
  destruct (schedule poll now1 now2 c.1 c.2) as [[res x] s2]. destruct S as [-> _]. exists x, w'. exact E.
Qed.

(** ** Mutexes *)

(** Whatever else happens than unlocking [m]. *)
Inductive act (m : positive) : thread * sched -> thread * sched -> Prop :=
| act_request now ctx s r : (forall condvar timeout, r <> Unlock m condvar timeout) -> act m (ctx, s) (ctx, (spec now ctx r s).2)
| act_turn poll now1 now2 ctx s res u s' : schedule poll now1 now2 ctx s = (res, u, s') -> act m (ctx, s) (res, s')
| act_end ctx s v : act m (ctx, s) (ctx, on_base (fun b => upd ctx (set_refuel 0) (upd ctx (set_result v) b)) s)
| act_new ctx s t : act m (ctx, s) (ctx, on_base (put_context t new_context) s).

Section locks.
Context (m : positive).

Definition slot s : option mutex := mutexes (base s) !! m.

Lemma slot_terminate ctx l : forall s, slot (terminate ctx l s) = slot s.
Proof.
  induction l as [|t l IH]; intros s; [reflexivity|]. unfold terminate in *. cbn [fold_left]. rewrite IH. unfold terminate_one.
  destruct (refuel _ >? 0); case_bool_decide; reflexivity.
Qed.

Lemma slot_wake v s : slot (wake v s).2 = slot s.
Proof. unfold wake. destruct (take_first _ _) as [[u p]|]; reflexivity. Qed.

Lemma slot_broadcast c : forall n res s, slot (broadcast n c res s).2 = slot s.
Proof.
  induction n as [|n IH]; intros res s; [reflexivity|]. cbn [broadcast]. pose proof (slot_wake (VCondvar c) s) as H.
  destruct (wake (VCondvar c) s) as [[|] s1]; [rewrite IH|]; exact H.
Qed.

Lemma slot_move wakes update skip s : slot (move_step wakes update skip s) = slot s.
Proof.
  unfold move_step, slot. pose proof (move_others wakes update skip (waiting s) (base s) (queue s)) as H.
  destruct (move wakes update skip (base s) (queue s) (waiting s)) as [[b q] p]. injection H as H. simpl in *. congruence.
Qed.

Lemma slot_poll ctx : forall n k s, slot (poll_steps ctx n k s) = slot s.
Proof.
  induction n as [|i IH]; intros k s; cbn [poll_steps]; [reflexivity|]. destruct (k >? 0); [|reflexivity].
  destruct (poll_fds (base s) !! i) as [p|]; [|reflexivity]. destruct (revents p); [|apply IH]. rewrite IH.
  transitivity (slot (move_step (fd_event (fd p)) (fun c => set_event VFalse (woken c)) (Some ctx)
    (if fd_event (fd p) (event (the (base s) ctx)) then on_base (upd ctx (fun c => set_event VFalse (woken c))) s else s))); [reflexivity|].
  rewrite slot_move. destruct (fd_event _ _); reflexivity.
Qed.

Lemma slot_expire now p : forall b, mutexes (expire now b p).1.1 = mutexes b.
Proof.
  induction p as [|t p IH]; intros b; simpl; [reflexivity|]. destruct (sexp_context_before _ _); [|reflexivity].
  specialize (IH (upd t (set_waitp false) (upd t (set_timeoutp true) b))). destruct (expire now _ p) as [[b' e] p']. exact IH.
Qed.

Lemma slot_schedule poll now1 now2 ctx s : slot (schedule poll now1 now2 ctx s).2 = slot s.
Proof.
  unfold schedule. assert (H1 : slot (signals_step s).2 = slot s).
  { unfold signals_step. destruct (_ =? 0); [reflexivity|]. destruct (signal_runner (base s)) as [[]|r|]; try reflexivity. destruct (waitp _); reflexivity. }
  destruct (signals_step s) as [seen s1]. simpl in H1. set (s2 := timeouts_step now1 _).
  assert (H2 : slot s2 = slot s1).
  { unfold s2, timeouts_step, slot at 1. set (s3 := joins_step ctx (fds_step poll ctx s1)).
    pose proof (slot_expire now1 (waiting s3) (base s3)) as E. destruct (expire now1 (base s3) (waiting s3)) as [[b e] p]. simpl in *. rewrite E.
    change (slot s3 = slot s1). unfold s3, joins_step. assert (Hf : slot (fds_step poll ctx s1) = slot s1).
    { unfold fds_step. destruct (0 <? _)%nat; [|reflexivity]. destruct (poll _) as [k ready]. rewrite slot_poll. reflexivity. }
    destruct (_ <=? 0); [rewrite slot_move|]; exact Hf. }
  assert (H3 : slot (next now1 ctx seen s2).2 = slot s2).
  { unfold next. destruct (if seen then queue s2 else []); [reflexivity|]. destruct ((refuel _ <=? 0) || _); [|reflexivity]. destruct (_ && _); reflexivity. }
  destruct (next now1 ctx seen s2) as [res s3]. simpl in H3.
  assert (H4 : slot (rest now1 now2 res s3).2 = slot s3).
  { unfold rest. destruct (waitp _); [|reflexivity].
    assert (Hc : slot (choose_waiting now1 res s3).2 = slot s3).
    { unfold choose_waiting. destruct (waiting s3); [reflexivity|]. destruct (sexp_context_before _ _); [|reflexivity]. case_bool_decide; reflexivity. }
    destruct (choose_waiting now1 res s3) as [res' s4]. simpl in Hc. destruct (_ && _); [|destruct (_ >? _)]; exact Hc. }
  congruence.
Qed.

(** A locked mutex stays locked, by whomever. *)
Definition locked s : Prop := exists x, slot s = Some x /\ mutex_lockp x <> VFalse.

Lemma slot_request now ctx r s : (forall condvar timeout, r <> Unlock m condvar timeout) -> locked s -> locked (spec now ctx r s).2.
Proof.
  intros Hr (x & Hx & Hl). assert (Hsame : forall s', slot s' = slot s -> locked s') by (intros s' E; exists x; rewrite E; auto).
  destruct r as [t|t|t timeout|timeout|m' timeout owner|m' condvar timeout|c|c|v timeout|poll now2]; cbn [spec snd].
  - apply Hsame. reflexivity.
  - apply Hsame, slot_terminate.
  - apply Hsame. unfold join_thread. destruct (_ <=? _); reflexivity.
  - apply Hsame. unfold sleep. destruct timeout as [timeout|]; [|reflexivity]. destruct (sexp_realp timeout); reflexivity.
  - unfold lock. destruct (mutexes (base s) !! m') as [y|] eqn:E; [|apply Hsame; reflexivity].
    case_bool_decide as Hy; simpl; [|apply Hsame; reflexivity].
    apply Hsame. unfold slot in *. simpl. rewrite lookup_insert_ne; [reflexivity|]. intros ->. congruence.
  - assert (Hne : m' <> m) by (intros ->; eapply Hr; reflexivity). apply Hsame. unfold unlock.
    set (s1 := match mutexes (base s) !! m' with Some _ => _ | None => _ end). assert (E : slot s1 = slot s).
    { unfold s1. destruct (mutexes (base s) !! m') as [y|]; [|reflexivity]. case_bool_decide; [reflexivity|]. rewrite slot_wake.
      unfold slot. simpl. apply lookup_insert_ne, Hne. }
    destruct condvar; [|exact E]. etransitivity; [|exact E]. reflexivity.
  - apply Hsame, slot_wake.
  - apply Hsame, slot_broadcast.
  - apply Hsame. unfold block_on. destruct (match v with VPort _ f _ | VFileno _ f | VFixnum f => Some f | _ => None end); [|reflexivity].
    destruct (_ >=? 0); reflexivity.
  - pose proof (slot_schedule poll now now2 ctx s) as H. destruct (schedule poll now now2 ctx s) as [[res u] s']. apply Hsame, H.
Qed.

Lemma act_locked c c' : act m c c' -> locked c.2 -> locked c'.2.
Proof.
  intros H. destruct H as [now ctx s r Hr|poll now1 now2 ctx s res u s' E|ctx s v|ctx s t]; simpl; [apply slot_request, Hr | | auto | auto].
  pose proof (slot_schedule poll now1 now2 ctx s) as H. rewrite E in H. simpl in H. unfold locked. rewrite H. auto.
Qed.
End locks.

(** C20 (safety).  Mutual exclusion: from the time when a lock of a mutex is
    granted, and whatever the threads and the scheduler do but unlock it, no
    other lock of it is granted; who asks for it is paused. *)
Theorem mutual_exclusion m now ctx timeout owner s s1 now2 ctx2 timeout2 owner2 s2 w :
  lock now ctx m timeout owner s = (true, s1) -> rtc (act m) (ctx, s1) (ctx2, s2) ->
  represents w s2 -> all_known s2 -> known (base s2) ctx2 -> time_known s2 timeout2 ->
  exists w' s', sexp_mutex_lock now2 ctx2 m timeout2 owner2 w = Some (false, w') /\ represents w' s'
    /\ ctx2 ∈ waiting s' /\ waitp (the (base s') ctx2) = true /\ event (the (base s') ctx2) = VMutex m.
Proof.
  intros Hl Hr (xq & xp & H) Hk Hkn Hu. assert (H1 : locked m s1).
  { unfold lock in Hl. destruct (mutexes (base s) !! m) as [x|] eqn:E; [|discriminate].
    case_bool_decide; [|discriminate]. injection Hl as <-. eexists. unfold slot. simpl. rewrite lookup_insert_eq. split; [reflexivity | discriminate]. }
  assert (H2 : locked m s2).
  { remember (ctx, s1) as c eqn:Ec. remember (ctx2, s2) as c' eqn:Ec'. assert (Hc : locked m c.2) by (subst c; exact H1). clear Ec.
    clear - Hr Hc Ec'. revert ctx2 s2 Ec'. induction Hr as [c|c1 c2 c3 H12 _ IH]; intros ctx2 s2 E; [subst c; exact Hc|]. apply (IH (act_locked _ _ _ H12 Hc) ctx2 s2 E). }
  destruct H2 as (x & Hx & Hn). unfold slot in Hx.
  destruct (rep_lock _ _ _ _ now2 ctx2 m timeout2 owner2 H Hk Hkn (ex_intro _ x Hx) Hu) as (w' & xp' & E & H').
  exists w', (lock now2 ctx2 m timeout2 owner2 s2).2. unfold lock in *. rewrite Hx, bool_decide_false in * by exact Hn.
  split; [exact E|]. split; [exists xq, xp'; exact H'|]. simpl. split; [apply elem_of_insert_after; auto|]. rewrite !the_upd, !bool_decide_true by reflexivity. auto.
Qed.

Lemma unlock_schedule m now ctx timeout s x u p poll now1 now2 :
  valid ctx s -> running ctx s -> mutexes (base s) !! m = Some x -> mutex_lockp x <> VFalse ->
  take_first (fun t => bool_decide (event (the (base s) t) = VMutex m)) (waiting s) = Some (u, p) ->
  let '(b, s1) := unlock now ctx m None timeout s in
  let '(res, _, s2) := schedule poll now1 now2 ctx s1 in
  valid ctx s1 /\ b = true /\ queue s1 = u :: queue s /\ waiting s1 = p /\ timeoutp (the (base s1) u) = false
  /\ res = u /\ valid u s2 /\ is_Some (mutexes (base s2) !! m) /\ forall now3 timeout3 owner, (lock now3 u m timeout3 owner s2).1 = true.
Proof.
  intros Hv Hr Hm Hl Ht. unfold unlock. rewrite Hm, bool_decide_false by exact Hl.
  set (s0 := on_base (put_mutex m (Mutex (Some (VThread ctx)) VFalse)) s).
  assert (Hv0 : valid ctx s0) by (apply on_base_valid; auto).
  assert (Hn : ctx ∉ waiting s0).
  { intros Hin. destruct Hr as [Hw _]. rewrite (orderly_blocked _ (valid_orderly _ _ Hv) ctx Hin) in Hw. discriminate. }
  destruct (wake_valid (VMutex m) ctx s0 Hv0 Hn) as [Hv1 Hn1].
  assert (E : wake (VMutex m) s0 = (true, Sched (upd u (set_waitp false) (upd u (set_timeoutp false) (base s0))) (u :: queue s) p)).
  { unfold wake. simpl. change (the (put_mutex m (Mutex (Some (VThread ctx)) VFalse) (base s))) with (the (base s)). rewrite Ht. reflexivity. }
  rewrite E in *. cbn [snd] in *. set (s1 := Sched _ _ _) in *. assert (Ho : on_time now1 ctx s1) by (intros Hin; contradiction).
  assert (Hu : waitp (the (base s1) u) = false /\ timeoutp (the (base s1) u) = false).
  { simpl. rewrite !the_upd, !bool_decide_true by reflexivity. auto. }
  pose proof (schedule_head poll now1 now2 ctx s1 u (queue s) Hv1 Ho eq_refl (proj1 Hu)) as H.
  pose proof (schedule_valid poll now1 now2 ctx s1 Hv1 Ho) as Hv2.
  pose proof (slot_schedule m poll now1 now2 ctx s1) as Hs. destruct (schedule poll now1 now2 ctx s1) as [[res y] s2]. destruct H as [-> _].
  split; [exact Hv1|]. do 3 (split; [reflexivity|]). split; [apply Hu|]. split; [reflexivity|]. split; [apply Hv2|].
  unfold slot in Hs. simpl in Hs. rewrite lookup_insert_eq in Hs. split; [eauto|]. intros now3 timeout3 owner. unfold lock. rewrite Hs. reflexivity.
Qed.

(** Unlocking a mutex that is locked hands over to the first
    of the threads that wait for it: it has left the paused ones, the next turn
    makes it current in front of the queue, and then it gets the lock. *)
Theorem unlock_hands_over m now ctx timeout w s x u p poll now1 now2 : represents w s ->
  valid ctx s -> running ctx s -> mutexes (base s) !! m = Some x -> mutex_lockp x <> VFalse -> time_known s timeout ->
  take_first (fun t => bool_decide (event (the (base s) t) = VMutex m)) (waiting s) = Some (u, p) ->
  exists w1 s1 usecs w2, sexp_mutex_unlock now ctx m None timeout w = Some (true, w1) /\ represents w1 s1
    /\ queue s1 = u :: queue s /\ waiting s1 = p /\ timeoutp (the (base s1) u) = false
    /\ sexp_scheduler poll now1 now2 ctx w1 = Some ((u, usecs), w2)
    /\ forall now3 owner, exists w3, sexp_mutex_lock now3 u m Forever owner w2 = Some (true, w3).
Proof.
  intros (xq & xp & H) Hv Hr Hm Hl Hu Ht. pose proof (unlock_schedule m now ctx timeout s x u p poll now1 now2 Hv Hr Hm Hl Ht) as Hs.
  destruct (valid_legal _ _ Hv) as (Hk & Hc & _).
  destruct (rep_unlock _ _ _ _ now ctx m None timeout H Hk Hc (ex_intro _ x Hm) Hu) as (w1 & xq1 & xp1 & E1 & H1).
  destruct (unlock now ctx m None timeout s) as [b s1]. simpl in *.
  assert (Hv1 : valid ctx s1) by (destruct (schedule poll now1 now2 ctx s1) as [[res y] s2]; apply Hs).
  destruct (turn_runs poll now1 now2 ctx w1 s1 (ex_intro _ xq1 (ex_intro _ xp1 H1)) Hv1) as (w2 & E2 & (xq2 & xp2 & H2)).
  destruct (schedule poll now1 now2 ctx s1) as [[res y] s2]. destruct Hs as (_ & -> & Q & W & T & -> & Hv2 & L1 & L2). simpl in *.
  exists w1, s1, y, w2. split; [exact E1|]. split; [exists xq1, xp1; exact H1|]. do 3 (split; [assumption|]). split; [exact E2|].
  intros now3 owner. destruct (valid_legal _ _ Hv2) as (Hk2 & Hc2 & _).
  destruct (rep_lock _ _ _ _ now3 u m Forever owner H2 Hk2 Hc2 L1) as (w3 & xp3 & E3 & _); [intros ?; discriminate|].
  exists w3. rewrite E3, L2. reflexivity.
Qed.

(** ** A limit of fairness *)

(** The current thread takes the mutex, signals, waits for the other's signal,
    and the scheduler has its turn; [n] times. *)
Definition round (now : timeval) (m v : positive) (ctx : thread) : M thread :=
  sexp_mutex_lock now ctx m Forever VTrue;;
  sexp_condition_variable_signal v;;
  sexp_mutex_unlock now ctx m (Some v) Forever;;
  '(t, _) ← sexp_scheduler nothing now now ctx;
  mret t.

Fixpoint rounds (n : nat) (now : timeval) (m v : positive) (ctx : thread) : M thread :=
  match n with
  | O => mret ctx
  | S n => t ← round now m v ctx; rounds n now m v t
  end.

(** [a] is current, [t] can run, and [o] waits for a signal. *)
Record hands (m v a o t : positive) s : Prop := Hands {
  hands_valid : valid a s;
  hands_queue : queue s = [t];
  hands_waiting : waiting s = [o];
  hands_event : event (the (base s) o) = VCondvar v;
  hands_refuel : refuel (the (base s) a) > 0 /\ refuel (the (base s) o) > 0;
  hands_running : waitp (the (base s) a) = false;
  hands_mutex : exists x, mutexes (base s) !! m = Some x /\ mutex_lockp x = VFalse;
  hands_differ : a <> o /\ a <> t /\ o <> t;
}.

(** What the requests of the current thread make of the state. *)
Definition handed (m v a o t : positive) s : Prop :=
  valid a s /\ queue s = [o; t] /\ waiting s = [a]
  /\ (waitp (the (base s) o) = false /\ refuel (the (base s) o) > 0)
  /\ (waitp (the (base s) a) = true /\ event (the (base s) a) = VCondvar v /\ refuel (the (base s) a) > 0 /\ tval (the (base s) a) = Timeval 0 0)
  /\ exists x, mutexes (base s) !! m = Some x /\ mutex_lockp x = VFalse.

Lemma hands_lock (now : timeval) m v a o t s : hands m v a o t s ->
  let s1 := on_base (put_mutex m (Mutex (Some (VThread a)) VTrue)) s in lock now a m Forever VTrue s = (true, s1) /\ valid a s1 /\ running a s1.
Proof.
  intros [Hv Hq Hw He [Ra Ro] Hwa (x & Hm & Hx) _] s1. assert (E1 : lock now a m Forever VTrue s = (true, s1)).
  { unfold lock. rewrite Hm, bool_decide_true by exact Hx. reflexivity. }
  split; [exact E1|]. split; [|split; assumption]. replace s1 with (spec now a (Lock m Forever VTrue) s).2 by (cbn [spec]; rewrite E1; reflexivity).
  apply request_valid; [exact Hv | split; assumption | repeat split; eauto; discriminate].
Qed.

Lemma hands_signal (now : timeval) m v a o t s : hands m v a o t s ->
  let s1 := on_base (put_mutex m (Mutex (Some (VThread a)) VTrue)) s in
  let s2 := Sched (upd o (set_waitp false) (upd o (set_timeoutp false) (base s1))) (o :: queue s1) [] in
  wake (VCondvar v) s1 = (true, s2) /\ valid a s2 /\ running a s2.
Proof.
  intros Hh s1 s2. destruct (hands_lock now _ _ _ _ _ _ Hh) as (_ & V1 & R1). fold s1 in V1, R1. destruct Hh as [_ _ Hw He _ _ _ (Hne & _)].
  assert (E2 : wake (VCondvar v) s1 = (true, s2)).
  { unfold wake, s2. change (waiting s1) with (waiting s). rewrite Hw. cbn [take_first]. change (the (base s1)) with (the (base s)).
    rewrite bool_decide_true by exact He. reflexivity. }
  split; [exact E2|]. split.
  - replace s2 with (spec now a (Signal v) s1).2 by (cbn [spec]; rewrite E2; reflexivity). apply request_valid; [exact V1 | exact R1 | exact I].
  - unfold running, s2. simpl. rewrite !the_upd, !bool_decide_false by exact Hne. exact R1.
Qed.

Lemma hands_unlock (now : timeval) m v a o t s : hands m v a o t s ->
  let s1 := on_base (put_mutex m (Mutex (Some (VThread a)) VTrue)) s in
  let s2 := Sched (upd o (set_waitp false) (upd o (set_timeoutp false) (base s1))) (o :: queue s1) [] in
  exists s3, unlock now a m (Some v) Forever s2 = (false, s3) /\ handed m v a o t s3.
Proof.
  intros Hh s1 s2. destruct (hands_signal now _ _ _ _ _ _ Hh) as (_ & V2 & R2). fold s1 s2 in V2, R2.
  destruct Hh as [_ Hq _ He [Ra Ro] _ (x & Hm & Hx) (Hne & Hat & Hot)].
  assert (Hm2 : mutexes (base s2) !! m = Some (Mutex (Some (VThread a)) VTrue)) by (unfold s2; simpl; apply lookup_insert_eq).
  set (s2' := on_base (put_mutex m (Mutex (Some (VThread a)) VFalse)) s2). set (s3 := wait now a (VCondvar v) Forever s2').
  assert (E3 : unlock now a m (Some v) Forever s2 = (false, s3)).
  { unfold unlock. rewrite Hm2. cbn [mutex_lockp]. rewrite bool_decide_false by discriminate. reflexivity. }
  assert (V3 : valid a s3).
  { replace s3 with (spec now a (Unlock m (Some v) Forever) s2).2 by (cbn [spec]; rewrite E3; reflexivity).
    apply request_valid; [exact V2 | exact R2 | repeat split; eauto; discriminate]. }
  exists s3. split; [exact E3|].
  assert (To : the (base s3) o = set_waitp false (set_timeoutp false (the (base s) o))).
  { unfold s3, s2', s2. simpl. rewrite !the_upd, !(bool_decide_false (o = a)) by auto.
    change (the (put_mutex m _ ?b0)) with (the b0). rewrite !the_upd, !bool_decide_true by reflexivity. reflexivity. }
  assert (Ta : the (base s3) a = set_tval (Timeval 0 0) (set_event (VCondvar v) (set_waitp true (the (base s) a)))).
  { unfold s3, s2', s2. simpl. rewrite !the_upd, !bool_decide_true by reflexivity.
    change (the (put_mutex m _ ?b0)) with (the b0). rewrite !the_upd, !bool_decide_false by exact Hne. reflexivity. }
  unfold handed. rewrite Ta, To. split; [exact V3|]. split; [unfold s3, s2', s2; simpl; rewrite Hq; reflexivity|]. split; [reflexivity|].
  split; [auto|]. split; [auto|]. eexists. unfold s3, s2'. simpl. rewrite lookup_insert_eq. split; reflexivity.
Qed.

Lemma handed_turn (now : timeval) m v a o t s : handed m v a o t s -> a <> o /\ a <> t /\ o <> t ->
  schedule nothing now now a s = (o, 0, Sched (base s) [t] [a]) /\ hands m v o a t (Sched (base s) [t] [a]).
Proof.
  intros (Hv & Hq & Hw & [Wo Ro] & (Wa & Ea & Ra & Ta) & Hm) (Hne & Hat & Hot).
  assert (E : schedule nothing now now a s = (o, 0, Sched (base s) [t] [a])).
  { rewrite schedule_quiet by apply Hv. cbv zeta. unfold joins_step. rewrite (proj2 (Z.leb_gt _ _)) by lia.
    unfold timeouts_step. rewrite Hw, Hq. cbn [expire]. unfold sexp_context_before. rewrite Ta. cbn [tv_sec tv_usec Z.eqb negb orb andb].
    unfold next. cbn [queue waiting base app]. rewrite Wa, orb_true_r.
    rewrite (bool_decide_true (a ∈ [a])) by (apply list_elem_of_singleton; reflexivity). rewrite andb_false_r. unfold rest. cbn [base]. rewrite Wo. reflexivity. }
  split; [exact E|]. assert (Ho : on_time now a s) by (intros _; unfold sexp_context_before; rewrite Ta; reflexivity).
  pose proof (schedule_valid nothing now now a s Hv Ho) as Hv'. rewrite E in Hv'. destruct Hv' as [Hv' _].
  split; cbn [queue waiting base]; auto.
Qed.

Lemma round_hands now m v a o t w s : hands m v a o t s -> represents w s ->
  exists w' s', round now m v a w = Some (o, w') /\ represents w' s' /\ hands m v o a t s'.
Proof.
  intros Hh (xq & xp & H). destruct (hands_lock now _ _ _ _ _ _ Hh) as (E1 & V1 & _). destruct (hands_signal now _ _ _ _ _ _ Hh) as (E2 & V2 & _).
  destruct (hands_unlock now _ _ _ _ _ _ Hh) as (s3 & E3 & Hd).
  destruct (handed_turn now _ _ _ _ _ _ Hd (hands_differ _ _ _ _ _ _ Hh)) as [E4 Hn].
  set (s1 := on_base _ s) in *. cbv zeta in *. set (s2 := Sched _ (o :: queue s1) []) in *.
  assert (Hm1 : is_Some (mutexes (base s) !! m)) by (destruct (hands_mutex _ _ _ _ _ _ Hh) as (x & -> & _); eauto).
  assert (Hm2 : is_Some (mutexes (base s2) !! m)) by (simpl; rewrite lookup_insert_eq; eauto).
  destruct (valid_legal _ _ (hands_valid _ _ _ _ _ _ Hh)) as (Hk & Hc & _). destruct (valid_legal _ _ V1) as (Hk1 & Hc1 & _).
  destruct (valid_legal _ _ V2) as (Hk2 & Hc2 & _).
  destruct (rep_lock _ _ _ _ now a m Forever VTrue H Hk Hc Hm1) as (w1 & xp1 & C1 & H1); [intros ?; discriminate|]. rewrite E1 in C1, H1; cbn [fst snd] in C1, H1.
  destruct (rep_wake _ _ _ _ (VCondvar v) H1 Hk1) as (w2 & xq2 & xp2 & C2 & H2). rewrite E2 in C2, H2; cbn [fst snd] in C2, H2.
  destruct (rep_unlock _ _ _ _ now a m (Some v) Forever H2 Hk2 Hc2 Hm2) as (w3 & xq3 & xp3 & C3 & H3); [intros ?; discriminate|]. rewrite E3 in C3, H3; cbn [fst snd] in C3, H3.
  destruct (turn_runs nothing now now a w3 s3 (ex_intro _ xq3 (ex_intro _ xp3 H3)) (proj1 Hd)) as (w4 & C4 & H4). rewrite E4 in C4, H4; cbn [fst snd] in C4, H4.
  exists w4, (Sched (base s3) [t] [a]). split; [|split; [exact H4 | exact Hn]].
  unfold round, sexp_condition_variable_signal. rewrite (run_bind _ _ _ _ _ C1), (run_bind _ _ _ _ _ C2), (run_bind _ _ _ _ _ C3), (run_bind _ _ _ _ _ C4). reflexivity.
Qed.

(** The bound is only for patient requests: two threads that
    signal each other, as a producer and a consumer do, go in front of the
    queue in turn, and a third that can run never does. *)
Theorem handovers_starve now m v a o t n w s : hands m v a o t s -> represents w s ->
  exists ctx w' s', rounds n now m v a w = Some (ctx, w') /\ represents w' s' /\ queue s' = [t] /\ ctx <> t.
Proof.
  revert a o w s. induction n as [|n IH]; intros a o w s Hh Hw.
  - exists a, w, s. destruct Hh as [_ Q _ _ _ _ _ D]. split; [reflexivity | tauto].
  - destruct (round_hands now _ _ _ _ _ w s Hh Hw) as (w1 & s1 & E & Hw1 & Hh1). cbn [rounds]. rewrite (run_bind _ _ _ _ _ E).
    apply (IH o a w1 s1 Hh1 Hw1).
Qed.

(** ** At small states *)

Lemma known_small l t : t ∈ l.*1 -> known (small l []) t.
Proof.
  intros H. unfold known, small. simpl. destruct (list_to_map (M := gmap thread context) l !! t) eqn:E; [eauto|].
  apply not_elem_of_list_to_map in E. contradiction.
Qed.

(** A thread that can run is current, [q] are others, and [p] sleep until 1030. *)
Definition calm (q p : list thread) : sched :=
  Sched (small (((fun t => (t, new_context)) <$> (1%positive :: q)) ++ ((fun t => (t, asleep VFalse 1030)) <$> p)) []) q p.

Ltac decided := apply (bool_decide_unpack _); vm_compute; exact I.
Ltac small_state :=
  apply small_valid;
  [ cbn; repeat (apply List.Forall_nil || apply List.Forall_cons); (right; reflexivity) || (left; reflexivity)
  | cbn [app]; repeat (apply List.Forall_nil || apply List.Forall_cons); apply known_small; decided
  | decided | repeat constructor | repeat constructor | decided | decided ].

Lemma calm_valid : valid 1 (calm [2; 3]%positive []) /\ valid 1 (calm [2%positive] [3%positive]).
Proof. split; small_state. Qed.

Lemma deadline_wakes_witness : let s := calm [2%positive] [3%positive] in
  exists res usecs w' s', sexp_scheduler nothing (Timeval 1031 0) (Timeval 1031 0) 1 (lay s) = Some ((res, usecs), w')
  /\ represents w' s' /\ ready res s' 3
  /\ (event (the (base s) 3%positive) <> VThread 1 \/ refuel (the (base s) 1%positive) > 0 -> timeoutp (the (base s') 3%positive) = true).
Proof.
  intros s. apply (deadline_wakes nothing (Timeval 1031 0) (Timeval 1031 0) 1 (lay s) s 3).
  - apply lay_represents.
  - apply calm_valid.
  - intros Hin. apply list_elem_of_singleton in Hin. discriminate.
  - apply list_elem_of_singleton. reflexivity.
  - reflexivity.
Defined.

(** The second in the queue is current after two turns. *)
Lemma ready_thread_runs_witness : exists c, plays (1%positive, calm [2; 3]%positive []) 1 c /\
  exists usecs w', sexp_scheduler nothing (Timeval 1000 0) (Timeval 1000 0) c.1 (lay c.2) = Some ((3%positive, usecs), w').
Proof.
  destruct (schedule nothing (Timeval 1000 0) (Timeval 1000 0) 1 (calm [2; 3]%positive [])) as [[res u] s1] eqn:E.
  assert (Hw : waiting s1 = []) by (change s1 with (res, u, s1).2; rewrite <- E; reflexivity).
  assert (Hp : plays (1%positive, calm [2; 3]%positive []) 1 (res, s1)).
  { eapply plays_turn; [apply plays_none | | exact E]. intros Hin. apply elem_of_nil in Hin. contradiction. }
  exists (res, s1). split; [exact Hp|].
  destruct (ready_thread_runs 1 (calm [2; 3]%positive []) 1 3 1 (res, s1)) as [_ H].
  - apply calm_valid.
  - reflexivity.
  - intros t Ht. simpl in Ht. apply elem_of_cons in Ht as [->|Ht]; [|apply list_elem_of_singleton in Ht; subst t]; reflexivity.
  - exact Hp.
  - lia.
  - apply H; [reflexivity | | apply lay_represents]. intros Hin. simpl in Hin. rewrite Hw in Hin. apply elem_of_nil in Hin. contradiction.
Defined.

(** 1 has the lock, and 2 does not get it in its turn. *)
Lemma mutual_exclusion_witness :
  let s1 := (lock (Timeval 1000 0) 1 9 Forever VTrue (calm [2; 3]%positive [])).2 in
  let s2 := (schedule nothing (Timeval 1000 0) (Timeval 1000 0) 1 s1).2 in
  exists w' s', sexp_mutex_lock (Timeval 1000 0) 2 9 Forever VTrue (lay s2) = Some (false, w') /\ represents w' s'
  /\ 2%positive ∈ waiting s' /\ waitp (the (base s') 2%positive) = true /\ event (the (base s') 2%positive) = VMutex 9.
Proof.
  intros s1 s2. apply (mutual_exclusion 9 (Timeval 1000 0) 1 Forever VTrue (calm [2; 3]%positive []) s1 (Timeval 1000 0) 2 Forever VTrue s2).
  - reflexivity.
  - eapply rtc_l; [|reflexivity]. apply (act_turn 9 nothing (Timeval 1000 0) (Timeval 1000 0) 1 s1 2 0 s2). vm_compute. reflexivity.
  - apply lay_represents.
  - assert (E : queue s2 ++ waiting s2 = [3; 1]%positive) by (vm_compute; reflexivity). intros t Ht. rewrite <- elem_of_app, E in Ht.
    apply elem_of_cons in Ht as [->|Ht]; [|apply list_elem_of_singleton in Ht; subst t]; eexists; vm_compute; reflexivity.
  - eexists. vm_compute. reflexivity.
  - intros t. discriminate.
Defined.

(** 1 has locked the mutex that 3 waits for. *)
Definition contended : sched :=
  Sched (put_mutex 9 (Mutex (Some (VThread 1)) VTrue)
    (small [(1%positive, new_context); (2%positive, new_context); (3%positive, asleep (VMutex 9) 0)] [])) [2%positive] [3%positive].

Lemma contended_valid : valid 1 contended.
Proof.
  apply (on_base_valid 1 (Sched (small _ []) [2%positive] [3%positive]) (put_mutex 9 (Mutex (Some (VThread 1)) VTrue))); [|reflexivity | auto].
  small_state.
Qed.

Lemma unlock_hands_over_witness : exists w1 s1 usecs w2,
  sexp_mutex_unlock (Timeval 1000 0) 1 9 None Forever (lay contended) = Some (true, w1) /\ represents w1 s1
  /\ queue s1 = [3; 2]%positive /\ waiting s1 = [] /\ timeoutp (the (base s1) 3%positive) = false
  /\ sexp_scheduler nothing (Timeval 1000 0) (Timeval 1000 0) 1 w1 = Some ((3%positive, usecs), w2)
  /\ forall now3 owner, exists w3, sexp_mutex_lock now3 3 9 Forever owner w2 = Some (true, w3).
Proof.
  apply (unlock_hands_over 9 (Timeval 1000 0) 1 Forever (lay contended) contended (Mutex (Some (VThread 1)) VTrue) 3 [] nothing
    (Timeval 1000 0) (Timeval 1000 0)).
  - apply lay_represents.
  - apply contended_valid.
  - split; reflexivity.
  - reflexivity.
  - discriminate.
  - intros t. discriminate.
  - reflexivity.
Defined.

(** 1 and 3 hand over to each other, and 2 waits for its turn. *)
Definition partners : sched :=
  Sched (small [(1%positive, new_context); (2%positive, new_context); (3%positive, asleep (VCondvar 8) 0)] []) [2%positive] [3%positive].

Lemma handovers_starve_witness : exists ctx w' s',
  rounds 100 (Timeval 1000 0) 9 8 1 (lay partners) = Some (ctx, w') /\ represents w' s' /\ queue s' = [2%positive] /\ ctx <> 2%positive.
Proof.
  apply (handovers_starve (Timeval 1000 0) 9 8 1 3 2 100 (lay partners) partners); [|apply lay_represents].
  split; try reflexivity; try (split; reflexivity).
  - unfold partners. small_state.
  - eexists. split; reflexivity.
  - split; [discriminate|]. split; discriminate.
Defined.

(** ** Where it goes wrong *)

(** What is done in a row, the current thread [ctx] first; a turn at [sec]; and
    the answer, or the thread that is current, with the queue, the paused
    threads and the store at the end. *)
Definition turn_at poll sec ctx : M thread := '(t, _) ← sexp_scheduler poll (Timeval sec 0) (Timeval sec 0) ctx; mret t.

Definition outcome {A} (m : M A) (s : sched) : option (A * list thread * list thread * store) :=
  match m (lay s) with
  | Some (a, w) => let n := size (cells w) in Some (a, threads_at n (cells w) (front w), threads_at n (cells w) (paused w), st w)
  | None => None
  end.

(** All but the store. *)
Definition shape {A} (m : M A) (s : sched) : option (A * list thread * list thread) :=
  match outcome m s with Some (a, q, p, _) => Some (a, q, p) | None => None end.

(** A field of a thread at the end. *)
Definition field {A B} (f : context -> B) (t : thread) (m : M A) (s : sched) : option B :=
  match outcome m s with Some (_, _, _, b) => f <$> contexts b !! t | None => None end.

(** The threads 1 to 3 in the states of the cases below. *)
Definition naps : sched :=
  Sched (small [(1%positive, asleep VFalse 1060); (2%positive, asleep (VFixnum 3) 0)] [Pollfd 3 POLLIN false]) [] [1; 2]%positive.
Definition reads : sched :=
  Sched (small [(1%positive, asleep (VFixnum 3) 0); (2%positive, new_context)] [Pollfd 3 POLLIN false]) [2%positive] [1%positive].
Definition polls : sched := Sched (small [(1%positive, new_context); (2%positive, new_context)] []) [2%positive] [].
Definition sleeps : sched :=
  Sched (small [(1%positive, new_context); (2%positive, asleep VFalse 1030); (3%positive, new_context)] []) [3%positive] [2%positive].
Definition ends : sched :=
  Sched (small [(1%positive, new_context); (2%positive, asleep VFalse 1060); (3%positive, asleep VFalse 1030)] []) [] [3; 2]%positive.
Definition ended : sched :=
  Sched (small [(1%positive, new_context); (2%positive, Context 0 false false false VFalse (Some (VFixnum 42)) (Timeval 0 0) None)] []) [] [].

(** The cases that the invariant and the requests it allows keep
    out: a thread that naps for its deadline loses it when another can run, and
    is paused for good; a thread whose descriptor is ready at its own turn goes
    on, and is still paused; a thread that waits for a file descriptor object is
    not woken when it is ready, though that is polled; with a bignum as timeout
    a thread is paused in front, without a deadline, and those behind it are not
    woken; a thread that sleeps no time at all is in the queue twice; a thread
    that sleeps and is terminated is paused again, for a deadline that comes
    before its own; and a thread that has ended is terminated all the same, with
    its result. *)
Theorem scheduler_faults : let t0 := Timeval 1000 0 in
  (let once := turn_at nothing 1000 1 in let twice := once ≫= turn_at everything 1010 in
   shape once naps = Some (1, [], [2])%positive /\ field tval 1 once naps = Some (Timeval 1060 0)
   /\ shape twice naps = Some (2, [], [1])%positive /\ field tval 1 twice naps = Some (Timeval 0 0))
  /\ (shape (turn_at everything 1000 1) reads = Some (2, [1], [1])%positive /\ field waitp 1 (turn_at everything 1000 1) reads = Some false)
  /\ (shape (sexp_blocker t0 1 (VFileno 4 3) Forever) polls = Some (true, [2], [1])%positive
      /\ shape (sexp_blocker t0 1 (VFileno 4 3) Forever;; turn_at everything 1000 1) polls = Some (2, [], [1])%positive)
  /\ shape (sexp_thread_sleep t0 1 (Some BigSeconds);; t ← turn_at nothing 1000 1; turn_at nothing 2000 t) sleeps = Some (3, [], [1; 2])%positive
  /\ shape (sexp_thread_sleep t0 1 (Some (Seconds 0));; turn_at nothing 1001 1) sleeps = Some (3, [1; 1], [2])%positive
  /\ (let m := sexp_thread_terminate 1 2;; sexp_thread_sleep t0 1 (Some (Seconds 50)) in
      shape m ends = Some (Some false, [2], [3; 1])%positive /\ shape (m;; turn_at nothing 1000 1) ends = Some (3, [], [1; 2])%positive)
  /\ (let m := sexp_thread_terminate 1 2 in
      field result 2 (mret tt) ended = Some (Some (VFixnum 42)) /\ field result 2 m ended = Some (Some VTerminateError)
      /\ field errorp 2 m ended = Some true).
Proof. vm_compute. auto 30. Qed.
