(* ===== verification/Utf8.v ===== *)
(** * Characters as bytes

    The UTF-8 coding of [sexp.c]: the lengths of characters, encoding, decoding at
    a position, steps forwards and backwards and counting, on an array of bytes.
    An access outside of the array is the outcome [None].  The texts of lists of
    characters are what the code means by its strings: over them every step of
    the code moves by one character, and decoding gives it back. *)
From S2P Require Import Prelude.
From Stdlib Require Import ZifyNat ZifyBool.
From stdpp Require Import base list option.
#[local] Open Scope Z_scope.

(** ** Bytes and characters *)

Definition rd (p : list Z) (j : Z) : option Z := if 0 <=? j then p !! Z.to_nat j else None.

Definition sexp_utf8_initial_byte_count (c : Z) : Z :=
  if c <? 192 then 1 else if c <? 224 then 2 else Z.land (Z.shiftr c 4) 1 + 3.

Definition sexp_utf8_char_byte_count (c : Z) : Z :=
  if c <? 128 then 1 else if c <? 2048 then 2 else if c <? 65536 then 3 else 4.

(** The bytes that are written, each cut to eight bits. *)
Definition sexp_utf8_encode_char (len c : Z) : list Z :=
  u8 <$>
  (if len =? 4 then
     [240 + Z.shiftr c 18; 128 + Z.land (Z.shiftr c 12) 63; 128 + Z.land (Z.shiftr c 6) 63; 128 + Z.land c 63]
   else if len =? 3 then [224 + Z.shiftr c 12; 128 + Z.land (Z.shiftr c 6) 63; 128 + Z.land c 63]
   else if len =? 2 then [192 + Z.shiftr c 6; 128 + Z.land c 63]
   else [c]).

Inductive decoded := Char (c : Z) | InvalidByte.

(** [sexp_string_utf8_ref], at a position. *)
Definition decode_char (p : list Z) (j : Z) : option decoded :=
  p0 ← rd p j;
  if p0 <? 128 then Some (Char p0)
  else if (p0 <? 192) || (p0 >? 247) then Some InvalidByte
  else if p0 <? 224 then
    p1 ← rd p (j + 1); Some (Char (Z.shiftl (Z.land p0 63) 6 + Z.land p1 63))
  else if p0 <? 240 then
    p1 ← rd p (j + 1); p2 ← rd p (j + 2);
    Some (Char (Z.shiftl (Z.land p0 31) 12 + Z.shiftl (Z.land p1 63) 6 + Z.land p2 63))
  else
    p1 ← rd p (j + 1); p2 ← rd p (j + 2); p3 ← rd p (j + 3);
    Some (Char (Z.shiftl (Z.land p0 15) 18 + Z.shiftl (Z.land p1 63) 12 + Z.shiftl (Z.land p2 63) 6 + Z.land p3 63)).

(** A C string, up to its first zero. *)
Fixpoint c_string (l : list Z) : list Z :=
  match l with
  | [] => []
  | c :: l => if c =? 0 then [] else c :: c_string l
  end.

(** [tolower] in the C locale *)
Definition sexp_tolower (c : Z) : Z := if (65 <=? c) && (c <=? 90) then c + 32 else c.

(** [strlen] *)
Fixpoint strlen (s : list Z) : option Z :=
  match s with
  | [] => None
  | c :: s => if c =? 0 then Some 0 else n ← strlen s; Some (n + 1)
  end.

(** [sexp_decode_utf8_char], of a string that ends with a zero: the character that
    is the whole string, or -1.  The bytes are read in the order of the tests. *)
Definition sexp_decode_utf8_char (s : list Z) : option Z :=
  i ← rd s 0; len ← strlen s;
  if negb ((i >=? 192) && (i <=? 247)) then Some (-1)
  else
    s1 ← rd s 1;
    if negb (Z.shiftr s1 6 =? 2) then Some (-1)
    else if (i <? 224) && (len =? 2) then Some (Z.shiftl (Z.land i 63) 6 + Z.land s1 63)
    else if (i <? 240) && (len =? 3) then
      s2 ← rd s 2;
      if Z.shiftr s2 6 =? 2 then Some (Z.shiftl (Z.land i 31) 12 + Z.shiftl (Z.land s1 63) 6 + Z.land s2 63) else Some (-1)
    else if len =? 4 then
      s2 ← rd s 2; s3 ← rd s 3;
      if (Z.shiftr s2 6 =? 2) && (Z.shiftr s3 6 =? 2) then
        Some (Z.shiftl (Z.land i 15) 16 + Z.shiftl (Z.land s1 63) 6 + Z.shiftl (Z.land s2 63) 6 + Z.land s3 63)
      else Some (-1)
    else Some (-1).

(** ** Walks *)

(** From [p] to [q], character by character. *)
Fixpoint utf8_length_loop (fuel : nat) (p : list Z) (j q i : Z) : option Z :=
  match fuel with
  | O => None
  | S fuel =>
      if j <? q then c ← rd p j; utf8_length_loop fuel p (j + sexp_utf8_initial_byte_count c) q (i + 1)
      else Some i
  end.

Definition sexp_string_utf8_length (p : list Z) (j len : Z) : option Z := utf8_length_loop (S (Z.to_nat len)) p j (j + len) 0.

(** Back to a byte that begins a character. *)
Fixpoint utf8_prev_loop (fuel : nat) (p : list Z) (j : Z) : option Z :=
  match fuel with
  | O => None
  | S fuel =>
      c ← rd p (j - 1);
      if Z.shiftr c 6 =? 2 then utf8_prev_loop fuel p (j - 1) else Some (j - 1)
  end.

Definition sexp_string_utf8_prev (p : list Z) (j : Z) : option Z := utf8_prev_loop (S (Z.to_nat j)) p j.

(** ** Texts *)

(** What four bytes can hold; the characters of Scheme are fewer. *)
Definition is_char (c : Z) : Prop := 0 <= c < 2 ^ 21.

Definition utf8 (c : Z) : list Z := sexp_utf8_encode_char (sexp_utf8_char_byte_count c) c.

Definition text (cs : list Z) : list Z := concat (utf8 <$> cs).

(** A byte that goes on a character. *)
Definition trails (b : Z) : Prop := 128 <= b < 192.

Lemma utf8_cases c : is_char c ->
  (c < 128 /\ utf8 c = [c])
  \/ (128 <= c < 2048 /\ utf8 c = [192 + c / 64; 128 + c mod 64])
  \/ (2048 <= c < 65536 /\ utf8 c = [224 + c / 4096; 128 + c / 64 mod 64; 128 + c mod 64])
  \/ (65536 <= c /\ utf8 c = [240 + c / 262144; 128 + c / 4096 mod 64; 128 + c / 64 mod 64; 128 + c mod 64]).
Proof.
  unfold is_char, utf8, sexp_utf8_char_byte_count, sexp_utf8_encode_char. intros Hc.
  assert (Hland : forall x, Z.land x 63 = x mod 64) by (intros x; apply (Z.land_ones x 6); lia).
  pose proof (fun x => Z.mod_pos_bound x 64 ltac:(lia)) as Hm.
  destruct (Z.ltb_spec c 128); [left|right; destruct (Z.ltb_spec c 2048); [left|right; destruct (Z.ltb_spec c 65536); [left|right]]];
    (split; [lia|]); cbn [Z.eqb Pos.eqb]; rewrite ?Hland, ?Z.shiftr_div_pow2 by lia; cbn [fmap list_fmap];
    repeat (first [reflexivity | f_equal]); unfold uwrap; change (2 ^ 12) with 4096; change (2 ^ 6) with 64; change (2 ^ 18) with 262144;
    apply Z.mod_small; Z.to_euclidean_division_equations; lia.
Qed.

Lemma rd_app pre l k : 0 <= k -> rd (pre ++ l) (Z.of_nat (length pre) + k) = rd l k.
Proof.
  intros Hk. unfold rd. pose proof (Nat2Z.is_nonneg (length pre)). replace (0 <=? Z.of_nat (length pre) + k) with true by lia. replace (0 <=? k) with true by lia.
  rewrite lookup_app_r by lia. f_equal. lia.
Qed.

Lemma rd_app_0 pre l : rd (pre ++ l) (Z.of_nat (length pre)) = rd l 0.
Proof. rewrite <- (rd_app pre l 0) by lia. f_equal. lia. Qed.

Lemma rd_app_front l post k : 0 <= k < Z.of_nat (length l) -> rd (l ++ post) k = rd l k.
Proof. intros Hk. unfold rd. replace (0 <=? k) with true by lia. apply lookup_app_l. lia. Qed.

Lemma initial_high b : 192 <= b < 248 -> sexp_utf8_initial_byte_count b = if b <? 224 then 2 else if b <? 240 then 3 else 4.
Proof.
  intros Hb. unfold sexp_utf8_initial_byte_count. replace (b <? 192) with false by lia. destruct (Z.ltb_spec b 224); [reflexivity|].
  rewrite Z.shiftr_div_pow2 by lia. change (2 ^ 4) with 16. rewrite (Z.land_ones _ 1) by lia. change (2 ^ 1) with 2.
  destruct (Z.ltb_spec b 240); Z.to_euclidean_division_equations; lia.
Qed.

(** A character is a byte that tells its length, and bytes that go it on. *)
Lemma utf8_head c : is_char c -> exists b bs, utf8 c = b :: bs /\ 0 <= b < 248 /\ ~ trails b /\ Forall trails bs
  /\ sexp_utf8_initial_byte_count b = Z.of_nat (length (utf8 c)).
Proof.
  intros Hc. unfold trails.
  assert (Hm : forall x, 128 <= 128 + x mod 64 < 192) by (intros x; pose proof (Z.mod_pos_bound x 64 ltac:(lia)); lia).
  destruct (utf8_cases c Hc) as [(H & ->)|[(H & ->)|[(H & ->)|(H & ->)]]]; eexists _, _; (split; [reflexivity|]); unfold is_char in Hc.
  - split; [lia|]. split; [lia|]. split; [constructor|]. unfold sexp_utf8_initial_byte_count. replace (c <? 192) with true by lia. reflexivity.
  - assert (192 <= 192 + c / 64 < 224) by (Z.to_euclidean_division_equations; lia). split; [lia|]. split; [lia|].
    split; [repeat constructor; apply Hm|]. rewrite initial_high by lia. replace (192 + c / 64 <? 224) with true by lia. reflexivity.
  - assert (224 <= 224 + c / 4096 < 240) by (Z.to_euclidean_division_equations; lia). split; [lia|]. split; [lia|].
    split; [repeat constructor; apply Hm|]. rewrite initial_high by lia. replace (224 + c / 4096 <? 224) with false by lia.
    replace (224 + c / 4096 <? 240) with true by lia. reflexivity.
  - assert (240 <= 240 + c / 262144 < 248) by (Z.to_euclidean_division_equations; lia). split; [lia|]. split; [lia|].
    split; [repeat constructor; apply Hm|]. rewrite initial_high by lia. replace (240 + c / 262144 <? 224) with false by lia.
    replace (240 + c / 262144 <? 240) with false by lia. reflexivity.
Qed.

Lemma utf8_length c : is_char c -> Z.of_nat (length (utf8 c)) = sexp_utf8_char_byte_count c.
Proof.
  intros Hc. unfold sexp_utf8_char_byte_count.
  destruct (utf8_cases c Hc) as [(H & ->)|[(H & ->)|[(H & ->)|(H & ->)]]]; simpl length;
    repeat match goal with |- context [c <? ?k] => destruct (Z.ltb_spec c k); try lia end.
Qed.

(** Decoding gives a character back. *)
Lemma decode_utf8 pre c post : is_char c -> decode_char (pre ++ utf8 c ++ post) (Z.of_nat (length pre)) = Some (Char c).
Proof.
  intros Hc. unfold decode_char. rewrite !rd_app_0, !rd_app by lia. unfold is_char in Hc.
  assert (Hl : forall x, Z.land x 63 = x mod 64) by (intros x; apply (Z.land_ones x 6); lia).
  assert (Hl5 : forall x, Z.land x 31 = x mod 32) by (intros x; apply (Z.land_ones x 5); lia).
  assert (Hl4 : forall x, Z.land x 15 = x mod 16) by (intros x; apply (Z.land_ones x 4); lia).

  destruct (utf8_cases c Hc) as [(H & ->)|[(H & ->)|[(H & ->)|(H & ->)]]]; simpl;
    rewrite ?Hl, ?Hl5, ?Hl4, ?Z.shiftl_mul_pow2 by lia; change (2 ^ 6) with 64; change (2 ^ 12) with 4096; change (2 ^ 18) with 262144.
  - replace (c <? 128) with true by lia. reflexivity.
  - assert (192 <= 192 + c / 64 < 224) by (Z.to_euclidean_division_equations; lia).
    replace (192 + c / 64 <? 128) with false by lia. replace (192 + c / 64 <? 192) with false by lia.
    replace (192 + c / 64 >? 247) with false by lia. replace (192 + c / 64 <? 224) with true by lia. simpl. do 2 f_equal.
    Z.to_euclidean_division_equations; lia.
  - assert (224 <= 224 + c / 4096 < 240) by (Z.to_euclidean_division_equations; lia).
    replace (224 + c / 4096 <? 128) with false by lia. replace (224 + c / 4096 <? 192) with false by lia.
    replace (224 + c / 4096 >? 247) with false by lia. replace (224 + c / 4096 <? 224) with false by lia.
    replace (224 + c / 4096 <? 240) with true by lia. simpl. do 2 f_equal. Z.to_euclidean_division_equations; lia.
  - assert (240 <= 240 + c / 262144 < 248) by (Z.to_euclidean_division_equations; lia).
    replace (240 + c / 262144 <? 128) with false by lia. replace (240 + c / 262144 <? 192) with false by lia.
    replace (240 + c / 262144 >? 247) with false by lia. replace (240 + c / 262144 <? 224) with false by lia.
    replace (240 + c / 262144 <? 240) with false by lia. simpl. do 2 f_equal. Z.to_euclidean_division_equations; lia.
Qed.

Abbreviation chars := (Forall is_char).

Lemma text_cons c cs : text (c :: cs) = utf8 c ++ text cs.
Proof. reflexivity. Qed.

Lemma text_app cs1 cs2 : text (cs1 ++ cs2) = text cs1 ++ text cs2.
Proof. unfold text. rewrite fmap_app, concat_app. reflexivity. Qed.

Lemma utf8_nonempty c : is_char c -> (0 < length (utf8 c) <= 4)%nat.
Proof. intros Hc. destruct (utf8_cases c Hc) as [(H & ->)|[(H & ->)|[(H & ->)|(H & ->)]]]; simpl; lia. Qed.

(** The first byte at a character of a text. *)
Lemma rd_head pre c post : is_char c ->
  exists b, rd (pre ++ utf8 c ++ post) (Z.of_nat (length pre)) = Some b /\ sexp_utf8_initial_byte_count b = Z.of_nat (length (utf8 c)) /\ 0 <= b < 248 /\ ~ trails b.
Proof.
  intros Hc. destruct (utf8_head c Hc) as (b & bs & E & Hb & Ht & _ & Hn). exists b. split; [rewrite rd_app_0, E; reflexivity | auto].
Qed.

(** *** Counting *)

Lemma length_loop_text fuel : forall pre cs post i, chars cs -> (length (text cs) < fuel)%nat ->
  utf8_length_loop fuel (pre ++ text cs ++ post) (Z.of_nat (length pre)) (Z.of_nat (length pre + length (text cs))) i = Some (i + Z.of_nat (length cs)).
Proof.
  induction fuel as [|fuel IH]; intros pre cs post i Hcs Hf; [lia|]. cbn [utf8_length_loop]. destruct Hcs as [|c cs Hc Hcs].
  - simpl. replace (Z.of_nat (length pre) <? Z.of_nat (length pre + 0)) with false by lia. f_equal. lia.
  - rewrite text_cons, length_app in *. pose proof (utf8_nonempty c Hc) as Hne.
    replace (Z.of_nat (length pre) <? Z.of_nat (length pre + (length (utf8 c) + length (text cs)))) with true by lia.
    rewrite <- app_assoc. destruct (rd_head pre c (text cs ++ post) Hc) as (b & E & Hn & _). rewrite E. simpl. rewrite Hn.
    replace (pre ++ utf8 c ++ text cs ++ post) with ((pre ++ utf8 c) ++ text cs ++ post) by (rewrite <- app_assoc; reflexivity).
    replace (Z.of_nat (length pre) + Z.of_nat (length (utf8 c))) with (Z.of_nat (length (pre ++ utf8 c))) by (rewrite length_app; lia).
    replace (Z.of_nat (length pre + (length (utf8 c) + length (text cs)))) with (Z.of_nat (length (pre ++ utf8 c) + length (text cs))) by (rewrite length_app; lia).
    rewrite IH by (auto; lia). f_equal. simpl length. lia.
Qed.

(** The number of characters of a text. *)
Lemma utf8_length_text pre cs post : chars cs ->
  sexp_string_utf8_length (pre ++ text cs ++ post) (Z.of_nat (length pre)) (Z.of_nat (length (text cs))) = Some (Z.of_nat (length cs)).
Proof.
  intros Hcs. unfold sexp_string_utf8_length. rewrite <- Nat2Z.inj_add. rewrite length_loop_text by (auto; lia). f_equal.
Qed.

(** *** Backwards *)

Lemma prev_loop_trails bs : forall fuel pre post, Forall trails bs -> (length bs <= fuel)%nat ->
  utf8_prev_loop fuel (pre ++ bs ++ post) (Z.of_nat (length pre + length bs)) = utf8_prev_loop (fuel - length bs) (pre ++ bs ++ post) (Z.of_nat (length pre)).
Proof.
  induction bs as [|b bs IH] using rev_ind; intros fuel pre post Hbs Hf; [simpl; f_equal; lia|].
  apply Forall_app in Hbs as [Hbs Hb]. apply Forall_cons_1 in Hb as [Hb _]. rewrite length_app in *. simpl length in *.
  destruct fuel as [|fuel]; [lia|]. cbn [utf8_prev_loop]. rewrite <- !app_assoc.
  assert (E : rd (pre ++ bs ++ [b] ++ post) (Z.of_nat (length pre + (length bs + 1)) - 1) = Some b).
  { replace (Z.of_nat (length pre + (length bs + 1)) - 1) with (Z.of_nat (length (pre ++ bs))) by (rewrite length_app; lia).
    rewrite app_assoc, rd_app_0. reflexivity. }
  rewrite E. simpl. unfold trails in Hb. rewrite Z.shiftr_div_pow2 by lia. change (2 ^ 6) with 64.
  replace (b / 64 =? 2) with true by (Z.to_euclidean_division_equations; lia).
  replace (Z.of_nat (length pre + (length bs + 1)) - 1) with (Z.of_nat (length pre + length bs)) by lia.
  change (bs ++ b :: post) with (bs ++ [b] ++ post). rewrite (IH fuel pre ([b] ++ post) Hbs ltac:(lia)). f_equal. lia.
Qed.

(** The character before a position. *)
Lemma utf8_prev_text pre c post : is_char c ->
  sexp_string_utf8_prev (pre ++ utf8 c ++ post) (Z.of_nat (length pre + length (utf8 c))) = Some (Z.of_nat (length pre)).
Proof.
  intros Hc. destruct (utf8_head c Hc) as (b & bs & E & Hb & Ht & Hbs & _). rewrite E. unfold sexp_string_utf8_prev. simpl length.
  replace (Z.of_nat (length pre + S (length bs))) with (Z.of_nat (length (pre ++ [b]) + length bs)) by (rewrite length_app; simpl; lia).
  replace (pre ++ (b :: bs) ++ post) with ((pre ++ [b]) ++ bs ++ post) by (rewrite <- app_assoc; reflexivity).
  rewrite prev_loop_trails by (auto; rewrite length_app; lia).
  destruct (S (Z.to_nat (Z.of_nat (length (pre ++ [b]) + length bs))) - length bs)%nat as [|fuel] eqn:Ef; [lia|]. cbn [utf8_prev_loop].
  assert (E' : rd ((pre ++ [b]) ++ bs ++ post) (Z.of_nat (length (pre ++ [b])) - 1) = Some b).
  { replace (Z.of_nat (length (pre ++ [b])) - 1) with (Z.of_nat (length pre)) by (rewrite length_app; simpl; lia). rewrite <- app_assoc, rd_app_0. reflexivity. }
  rewrite E'. simpl. unfold trails in Ht. rewrite Z.shiftr_div_pow2 by lia. change (2 ^ 6) with 64.
  replace (b / 64 =? 2) with false by (symmetry; apply Z.eqb_neq; Z.to_euclidean_division_equations; lia).
  f_equal. rewrite length_app. simpl. lia.
Qed.
