(* ===== verification/StringOps.v ===== *)
(** * Strings

    The operations on strings of [sexp.c], [eval.c], [vm.c], [lib/chibi/io/port.c]
    and [lib/chibi/ast.c].  A string is an object with a buffer of bytes, which
    others may share, an offset into it and a size in bytes; buffers end with one
    byte more than their length, a zero when they are made.  Positions are cursors,
    the byte offsets from the beginning of the string.  [None] is an access outside
    of a buffer.  What a new buffer holds before it is written is an argument. *)
From S2P Require Import Prelude Heap Utf8.
From stdpp Require Import base list option gmap strings.
#[local] Open Scope Z_scope.

(** ** Memory *)

Record str := Str { sexp_string_bytes : loc; sexp_string_offset : Z; sexp_string_size : Z; str_immutable : bool; sexp_copy_on_writep : bool }.

(** The buffers, with the byte after the last one, and the strings. *)
Record mem := Mem { bufs : gmap loc (list Z); strs : gmap loc str }.

Inductive exn :=
| TypeExn (v : sexp)
| UserExn (message : string) (irritant : sexp)
| RangeExn (str start end_ : sexp).

Inductive result (A : Type) := Ok (a : A) | Exn (e : exn).
Arguments Ok {A}.
Arguments Exn {A}.

(** The operations that go on when there is no exception. *)
Definition bind {A B} (m : option (result A)) (f : A -> option (result B)) : option (result B) :=
  r ← m; match r with Ok a => f a | Exn e => Some (Exn e) end.
Notation "x <- m ; k" := (bind m (fun x => k)) (at level 20, m at level 100, k at level 200, only parsing) : str_scope.
Notation "' p <- m ; k" := (bind m (fun x => let p := x in k)) (at level 20, p pattern, m at level 100, k at level 200, only parsing) : str_scope.
#[local] Open Scope str_scope.

Definition ret {A} (a : A) : option (result A) := Some (Ok a).
Definition raise {A} (e : exn) : option (result A) := Some (Exn e).

(** [sexp_assert_type] *)
Definition assert_string (m : mem) (v : sexp) : option (result str) :=
  match v with
  | Ptr l => match strs m !! l with Some s => ret s | None => raise (TypeExn v) end
  | _ => raise (TypeExn v)
  end.
Definition assert_fixnum (v : sexp) : option (result Z) := match v with Fixnum z => ret z | _ => raise (TypeExn v) end.
Definition assert_cursor (v : sexp) : option (result Z) := match v with StringCursor z => ret z | _ => raise (TypeExn v) end.
Definition assert_char (v : sexp) : option (result Z) := match v with Heap.Char c => ret c | _ => raise (TypeExn v) end.
Definition assert_bytes (m : mem) (v : sexp) : option (result (list Z)) :=
  match v with
  | Ptr l => match bufs m !! l with Some b => ret b | None => raise (TypeExn v) end
  | _ => raise (TypeExn v)
  end.

(** [sexp_string_data], a position in the buffer. *)
Definition buffer (m : mem) (s : str) : option (list Z) := bufs m !! sexp_string_bytes s.

Definition sexp_bytes_length (b : list Z) : Z := Z.of_nat (length b) - 1.

(** [memcpy] from a buffer. *)
Fixpoint slice (n : nat) (b : list Z) (j : Z) : option (list Z) :=
  match n with O => Some [] | S n => c ← rd b j; r ← slice n b (j + 1); Some (c :: r) end.

Definition new_buffer (m : mem) (b : list Z) : loc * mem :=
  let l := fresh (dom (bufs m) ∪ dom (strs m)) in (l, Mem (<[l := b]> (bufs m)) (strs m)).

Definition new_string (m : mem) (s : str) : sexp * mem :=
  let l := fresh (dom (bufs m) ∪ dom (strs m)) in (Ptr l, Mem (bufs m) (<[l := s]> (strs m))).

(** ** Cursors *)

Fixpoint index_loop (fuel : nat) (p : list Z) (base limit i j : Z) : option (Z * Z) :=
  match fuel with
  | O => if (i >? 0) && (j <? limit) then None else Some (i, j)
  | S fuel =>
      if (i >? 0) && (j <? limit) then
        c ← rd p (base + j); index_loop fuel p base limit (i - 1) (j + sexp_utf8_initial_byte_count c)
      else Some (i, j)
  end.

Definition sexp_string_index_to_cursor (m : mem) (str index : sexp) : option (result sexp) :=
  s <- assert_string m str;
  i <- assert_fixnum index;
  p ← buffer m s;
  '(i, j) ← index_loop (Z.to_nat i) p (sexp_string_offset s) (sexp_string_size s) i 0;
  if negb (i =? 0) then raise (UserExn "string-index->cursor: index out of range" index) else ret (StringCursor j).

Definition sexp_string_cursor_to_index (m : mem) (str offset : sexp) : option (result sexp) :=
  s <- assert_string m str;
  off <- assert_cursor offset;
  if (off <? 0) || (off >? sexp_string_size s) then raise (UserExn "string-cursor->index: offset out of range" offset)
  else p ← buffer m s; n ← sexp_string_utf8_length p (sexp_string_offset s) off; ret (Fixnum n).

Definition sexp_string_cursor_offset (cur : sexp) : option (result sexp) := z <- assert_cursor cur; ret (Fixnum z).

Definition sexp_string_utf8_ref (m : mem) (s : str) (j : Z) : option (result sexp) :=
  p ← buffer m s;
  r ← decode_char p (sexp_string_offset s + j);
  match r with
  | Utf8.Char c => ret (Heap.Char c)
  | InvalidByte => raise (UserExn "string-ref: invalid utf8 byte" (StringCursor j))
  end.

Definition sexp_string_utf8_index_ref (m : mem) (str i : sexp) : option (result sexp) :=
  s <- assert_string m str;
  _ <- assert_fixnum i;
  off <- sexp_string_index_to_cursor m str i;
  match off with
  | StringCursor j =>
      if j >=? sexp_string_size s then raise (UserExn "string-ref: index out of range" i) else sexp_string_utf8_ref m s j
  | _ => None
  end.

(** The instructions of the machine on cursors.  The bytes at the cursor itself are
    not tested: a step forwards reads at the cursor, wherever it is. *)
Definition op_string_cursor_ref (m : mem) (a1 a2 : sexp) : option (result sexp) :=
  s <- assert_string m a1;
  j <- assert_cursor a2;
  if (j <? 0) || (j >=? sexp_string_size s) then raise (UserExn "string-ref: index out of range" a2) else sexp_string_utf8_ref m s j.

Definition op_string_cursor_next (m : mem) (a1 a2 : sexp) : option (result sexp) :=
  s <- assert_string m a1;
  j <- assert_cursor a2;
  p ← buffer m s; c ← rd p (sexp_string_offset s + j);
  ret (StringCursor (j + sexp_utf8_initial_byte_count c)).

Definition op_string_cursor_prev (m : mem) (a1 a2 : sexp) : option (result sexp) :=
  s <- assert_string m a1;
  j <- assert_cursor a2;
  p ← buffer m s; k ← sexp_string_utf8_prev p (sexp_string_offset s + j);
  ret (StringCursor (k - sexp_string_offset s)).

Definition op_string_cursor_end (m : mem) (a1 : sexp) : option (result sexp) :=
  s <- assert_string m a1; ret (StringCursor (sexp_string_size s)).

Definition op_string_length (m : mem) (a1 : sexp) : option (result sexp) :=
  s <- assert_string m a1;
  p ← buffer m s; n ← sexp_string_utf8_length p (sexp_string_offset s) (sexp_string_size s); ret (Fixnum n).

(** ** New strings *)

Section memory.
(** What a new buffer of a length holds. *)
Context (junk : nat -> list Z).

(** [sexp_make_bytes_op], the buffer: [i] is the byte to fill it with, or none. *)
Definition sexp_make_bytes_op (len i : sexp) : option (result (list Z)) :=
  clen <- assert_fixnum len;
  if clen <? 0 then raise (UserExn "negative length" len)
  else ret (match i with Fixnum z => replicate (Z.to_nat clen) (u8 z) | _ => junk (Z.to_nat clen) end ++ [0]).

(** The same bytes again and again. *)
Definition encode_all (n : nat) (clen c : Z) : list Z := concat (replicate n (sexp_utf8_encode_char clen c)).

Definition sexp_make_string_op (m : mem) (len ch : sexp) : option (result (sexp * mem)) :=
  b <-
    match ch with
    | Heap.Char c =>
        if c >=? 128 then
          n <- assert_fixnum len;
          let clen := sexp_utf8_char_byte_count c in
          _ <- sexp_make_bytes_op (Fixnum (swrap 63 (n * clen))) SEXP_VOID;
          if negb (swrap 63 (n * clen) =? n * clen) then None else ret (encode_all (Z.to_nat n) clen c ++ [0])
        else sexp_make_bytes_op len (Fixnum c)
    | _ => sexp_make_bytes_op len ch
    end;
  let '(l, m) := new_buffer m b in ret (new_string m (Str l 0 (sexp_bytes_length b) false false)).

(** A string of given bytes, as [sexp_make_string] and [memcpy] make it. *)
Definition string_of_bytes (m : mem) (bytes : list Z) : sexp * mem :=
  let '(l, m) := new_buffer m (bytes ++ [0]) in new_string m (Str l 0 (Z.of_nat (length bytes)) false false).

(** [sexp_c_string], of bytes and their number. *)
Definition sexp_c_string (m : mem) (p : list Z) (j slen : Z) : option (result (sexp * mem)) :=
  bytes ← slice (Z.to_nat slen) p j; ret (string_of_bytes m bytes).

Definition sexp_substring_op (m : mem) (str start end_ : sexp) : option (result (sexp * mem)) :=
  s <- assert_string m str;
  i <- assert_cursor start;
  j <- assert_cursor (if sexp_not end_ then StringCursor (sexp_string_size s) else end_);
  if (i <? 0) || (i >? sexp_string_size s) || (j <? 0) || (j >? sexp_string_size s) || (j <? i) then raise (RangeExn str start end_)
  else p ← buffer m s; bytes ← slice (Z.to_nat (j - i)) p (sexp_string_offset s + i); ret (string_of_bytes m bytes).

Definition sexp_subbytes_op (m : mem) (vec start end_ : sexp) : option (result (sexp * mem)) :=
  b <- assert_bytes m vec;
  i <- assert_fixnum start;
  j <- assert_fixnum (if sexp_not end_ then Fixnum (sexp_bytes_length b) else end_);
  match vec with
  | Ptr l =>
      let '(v, m) := new_string m (Str l 0 (sexp_bytes_length b) false false) in
      '(r, m) <- sexp_substring_op m v (StringCursor i) (StringCursor j);
      s <- assert_string m r; ret (Ptr (sexp_string_bytes s), m)
  | _ => None
  end.

Definition sexp_utf8_substring_op (m : mem) (str start end_ : sexp) : option (result (sexp * mem)) :=
  _ <- assert_string m str;
  _ <- assert_fixnum start;
  start <- sexp_string_index_to_cursor m str start;
  end_ <- (if sexp_fixnump end_ then sexp_string_index_to_cursor m str end_ else ret end_);
  sexp_substring_op m str start end_.

(** The bytes of the strings of a list, which are tested first. *)
Fixpoint all_strings (m : mem) (ls : list sexp) : option (result (list str)) :=
  match ls with
  | [] => ret []
  | v :: ls => s <- assert_string m v; r <- all_strings m ls; ret (s :: r)
  end.

Definition string_data (m : mem) (s : str) : option (list Z) :=
  p ← buffer m s; slice (Z.to_nat (sexp_string_size s)) p (sexp_string_offset s).

Fixpoint concatenate_loop (m : mem) (sep : list Z) (ls : list str) : option (list Z) :=
  match ls with
  | [] => Some []
  | [s] => string_data m s
  | s :: ls => bytes ← string_data m s; r ← concatenate_loop m sep ls; Some (bytes ++ sep ++ r)
  end.

Definition sexp_string_concatenate_op (m : mem) (str_ls : list sexp) (sep : sexp) : option (result (sexp * mem)) :=
  ls <- all_strings m str_ls;
  csep ← match assert_string m sep with Some (Ok s) => if (length ls =? 0)%nat then Some [] else string_data m s | _ => Some [] end;
  bytes ← concatenate_loop m csep ls;
  ret (string_of_bytes m bytes).
End memory.

(** ** Changes *)

(** [memcpy] to a position in a buffer. *)
Fixpoint write (b : list Z) (j : Z) (bytes : list Z) : option (list Z) :=
  match bytes with
  | [] => Some b
  | c :: bytes => _ ← rd b j; write (<[Z.to_nat j := c]> b) (j + 1) bytes
  end.

(** [sexp_string_utf8_set]: in place if the new character is as long as the old one
    and the buffer is not to be copied; otherwise in a new buffer, whose offset
    stays that of the old one. *)
Definition sexp_string_utf8_set (junk : nat -> list Z) (m : mem) (lstr : loc) (index c : Z) : option mem :=
  s ← strs m !! lstr;
  p ← buffer m s;
  let i := swrap 32 index in
  let at_ := sexp_string_offset s + i in
  c0 ← rd p at_;
  let old_len := sexp_utf8_initial_byte_count c0 in
  let new_len := sexp_utf8_char_byte_count c in
  if sexp_copy_on_writep s || negb (old_len =? new_len) then
    let len := swrap 32 (sexp_string_size s + (new_len - old_len)) in
    let size := sexp_string_size s + (new_len - old_len) in
    r ← sexp_make_bytes_op junk (Fixnum len) SEXP_VOID;
    match r with
    | Ok b =>
        front ← slice (Z.to_nat i) p (sexp_string_offset s);
        rest ← slice (Z.to_nat (len - i - new_len + 1)) p (at_ + old_len);
        b ← write b 0 front;
        b ← write b (i + new_len) rest;
        b ← write b i (sexp_utf8_encode_char new_len c);
        let '(l, m) := new_buffer m b in
        Some (Mem (bufs m) (<[lstr := Str l (sexp_string_offset s) size (str_immutable s) false]> (strs m)))
    | Exn _ =>
        p ← write p at_ (sexp_utf8_encode_char new_len c);
        Some (Mem (<[sexp_string_bytes s := p]> (bufs m))
                (<[lstr := Str (sexp_string_bytes s) (sexp_string_offset s) size (str_immutable s) false]> (strs m)))
    end
  else
    p ← write p at_ (sexp_utf8_encode_char new_len c);
    Some (Mem (<[sexp_string_bytes s := p]> (bufs m)) (strs m)).

Definition sexp_string_utf8_index_set (junk : nat -> list Z) (m : mem) (str i ch : sexp) : option (result mem) :=
  s <- assert_string m str;
  _ <- assert_fixnum i;
  c <- assert_char ch;
  if str_immutable s then raise (TypeExn str)
  else
    off <- sexp_string_index_to_cursor m str i;
    match off, str with
    | StringCursor j, Ptr l =>
        if j >=? sexp_string_size s then raise (UserExn "string-set!: index out of range" i)
        else m ← sexp_string_utf8_set junk m l j c; ret m
    | _, _ => None
    end.

(** [string-cursor-set!] is the instruction [SEXP_OP_STRING_SET], which calls the
    function for indices, on the cursor, and leaves its exception aside. *)
Definition op_string_set (junk : nat -> list Z) (m : mem) (a1 a2 a3 : sexp) : option (result mem) :=
  s <- assert_string m a1;
  if str_immutable s then raise (UserExn "string-cursor-set!: immutable string" a1)
  else
    i <- assert_cursor a2;
    _ <- assert_char a3;
    if (i <? 0) || (i >=? sexp_string_size s) then raise (UserExn "string-cursor-set!: index out of range" a2)
    else
      r ← sexp_string_utf8_index_set junk m a1 a2 a3;
      match r with Ok m => ret m | Exn _ => ret m end.

(** ** Comparison *)

(** [strncmp], up to a zero in both; its result has the sign of the difference. *)
Fixpoint strncmp (f : Z -> Z) (n : nat) (p q : list Z) (i j : Z) : option Z :=
  match n with
  | O => Some 0
  | S n =>
      a ← rd p i; b ← rd q j;
      if negb (f a =? f b) then Some (f a - f b) else if a =? 0 then Some 0 else strncmp f n p q (i + 1) (j + 1)
  end.

Definition sexp_string_cmp_op (m : mem) (str1 str2 ci : sexp) : option (result sexp) :=
  s1 <- assert_string m str1;
  s2 <- assert_string m str2;
  p ← buffer m s1; q ← buffer m s2;
  let len1 := sexp_string_size s1 in
  let len2 := sexp_string_size s2 in
  let len := if len1 <? len2 then len1 else len2 in
  diff ← strncmp (if sexp_not ci then id else sexp_tolower) (Z.to_nat len) p q (sexp_string_offset s1) (sexp_string_offset s2);
  ret (Fixnum (if diff =? 0 then len1 - len2 else diff)).

(** ** Bytevectors and shared buffers *)

(** [size] is the end of the string in the bytevector. *)
Definition sexp_bytes_to_string (m : mem) (vec : loc) (offset size : Z) : sexp * mem :=
  new_string m (Str vec offset (size - offset) false false).

Definition sexp_utf8_to_string_x (m : mem) (vec offset size : sexp) : option (result (sexp * mem)) :=
  _ <- assert_bytes m vec;
  i <- assert_fixnum offset;
  n <- assert_fixnum size;
  match vec with Ptr l => ret (sexp_bytes_to_string m l i n) | _ => None end.

Definition sexp_string_to_utf8 (m : mem) (str : sexp) : option (result (sexp * mem)) :=
  s <- assert_string m str;
  bytes ← string_data m s;
  let '(l, m) := new_buffer m (bytes ++ [0]) in ret (Ptr l, m).

Definition sexp_string_to_utf8_x (m : mem) (str : sexp) : option (result sexp) :=
  s <- assert_string m str; ret (Ptr (sexp_string_bytes s)).

(** The new string cannot be changed, and the old one not any more in place. *)
Definition sexp_immutable_string_op (m : mem) (v : sexp) : option (result (sexp * mem)) :=
  s <- assert_string m v;
  match v with
  | Ptr l =>
      let '(r, m) := new_string m (Str (sexp_string_bytes s) (sexp_string_offset s) (sexp_string_size s) true false) in
      ret (r, Mem (bufs m) (<[l := Str (sexp_string_bytes s) (sexp_string_offset s) (sexp_string_size s) (str_immutable s) true]> (strs m)))
  | _ => None
  end.

Definition sexp_utf8_ref (m : mem) (bv offset : sexp) : option (result sexp) :=
  b <- assert_bytes m bv;
  i <- assert_fixnum offset;
  r ← decode_char b i;
  match r with Utf8.Char c => ret (Heap.Char c) | InvalidByte => raise (UserExn "utf8-ref: invalid utf8 byte" offset) end.

Definition sexp_utf8_next (m : mem) (bv offset end_ : sexp) : option (result sexp) :=
  b <- assert_bytes m bv;
  i <- assert_fixnum offset;
  e <- assert_fixnum end_;
  if i >=? e then ret SEXP_FALSE
  else
    initial ← rd b i;
    let res := i + (if initial <? 192 then 1 else if initial <? 224 then 2 else 3 + Z.land (Z.shiftr initial 4) 1) in
    ret (if res >? e then SEXP_FALSE else Fixnum res).

Fixpoint utf8_back_loop (fuel : nat) (p : list Z) (i limit : Z) : option Z :=
  match fuel with
  | O => None
  | S fuel =>
      if i <? limit then Some i
      else c ← rd p i; if Z.shiftr c 6 =? 2 then utf8_back_loop fuel p (i - 1) limit else Some i
  end.

Definition sexp_utf8_prev (m : mem) (bv offset start : sexp) : option (result sexp) :=
  b <- assert_bytes m bv;
  i <- assert_fixnum offset;
  limit <- assert_fixnum start;
  j ← utf8_back_loop (S (Z.to_nat (i - limit))) b (i - 1) limit;
  ret (if j <? limit then SEXP_FALSE else Fixnum j).

(** The walk for characters of more than a byte looks at a fixnum as if it were a
    cursor. *)
Definition unbox_fixnum_as_cursor (i : Z) : Z := Z.quot (Z.land (2 * i + 1) (-3)) 8.

Fixpoint count_ascii (n : nat) (p : list Z) (s c count : Z) : option Z :=
  match n with O => Some count | S n => x ← rd p s; count_ascii n p (s + 1) c (if x =? c then count + 1 else count) end.

Fixpoint count_chars (fuel : nat) (m : mem) (s : str) (p : list Z) (i end_ c count : Z) : option Z :=
  match fuel with
  | O => None
  | S fuel =>
      if i <? end_ then
        r ← sexp_string_utf8_ref m s (unbox_fixnum_as_cursor i);
        b ← rd p (sexp_string_offset s + i);
        count_chars fuel m s p (i + sexp_utf8_initial_byte_count b) end_ c
          (match r with Ok (Heap.Char d) => if d =? c then count + 1 else count | _ => count end)
      else Some count
  end.

Definition sexp_string_count (m : mem) (ch str start end_ : sexp) : option (result sexp) :=
  c <- assert_char ch;
  s <- assert_string m str;
  i <- assert_fixnum start;
  e <- assert_fixnum (if sexp_not end_ then Fixnum (sexp_string_size s) else end_);
  p ← buffer m s;
  if c <? 128 then
    if e >? sexp_string_size s then raise (UserExn "string-count: end index out of range" end_)
    else n ← count_ascii (Z.to_nat (e - i)) p (sexp_string_offset s + i) c 0; ret (Fixnum n)
  else n ← count_chars (S (Z.to_nat (e - i))) m s p i e c 0; ret (Fixnum n).

(** ** Ports *)

(** The bytes of a port that are still to be read; the end of the file is -1. *)
Definition sexp_read_char (inp : list Z) : Z * list Z := match inp with [] => (-1, []) | c :: inp => (c, inp) end.

(** The rest of a character whose first byte has been read. *)
Definition sexp_read_utf8_char (inp : list Z) (i : Z) : result sexp * list Z :=
  if i >=? 128 then
    if (i <? 192) || (i >? 247) then (Exn (UserExn "read-char: invalid utf8 byte" (Fixnum i)), inp)
    else if i <? 224 then
      let '(c1, inp) := sexp_read_char inp in
      (Ok (Heap.Char (Z.shiftl (Z.land i 63) 6 + Z.land c1 63)), inp)
    else if i <? 240 then
      let '(c1, inp) := sexp_read_char inp in
      let '(c2, inp) := sexp_read_char inp in
      (Ok (Heap.Char (Z.shiftl (Z.land i 31) 12 + Z.shiftl (Z.land c1 63) 6 + Z.land c2 63)), inp)
    else
      let '(c1, inp) := sexp_read_char inp in
      let '(c2, inp) := sexp_read_char inp in
      let '(c3, inp) := sexp_read_char inp in
      (Ok (Heap.Char (Z.shiftl (Z.land i 15) 18 + Z.shiftl (Z.land c1 63) 12 + Z.shiftl (Z.land c2 63) 6 + Z.land c3 63)), inp)
  else (Ok (Heap.Char i), inp).

Definition sexp_push_utf8_char (i : Z) (inp : list Z) : list Z := sexp_utf8_encode_char (sexp_utf8_char_byte_count i) i ++ inp.

(** [SEXP_OP_READ_CHAR] and [SEXP_OP_PEEK_CHAR], where the bytes are there or the
    file has ended.  A character is put back also if it is an exception, whose
    address is then unboxed: that case is [None]. *)
Definition op_read_char (inp : list Z) : result sexp * list Z :=
  let '(i, inp) := sexp_read_char inp in
  if i =? -1 then (Ok SEXP_EOF, inp) else if i >=? 128 then sexp_read_utf8_char inp i else (Ok (Heap.Char i), inp).

Definition op_peek_char (inp : list Z) : option (sexp * list Z) :=
  let '(i, inp) := sexp_read_char inp in
  if i =? -1 then Some (SEXP_EOF, inp)
  else if i >=? 128 then
    match sexp_read_utf8_char inp i with
    | (Ok (Heap.Char c), inp) => Some (Heap.Char c, sexp_push_utf8_char c inp)
    | _ => None
    end
  else Some (Heap.Char i, i :: inp).

(** The first byte, and the others up to a zero. *)
Definition sexp_write_utf8_char (c : Z) (out : list Z) : list Z :=
  match sexp_utf8_encode_char (sexp_utf8_char_byte_count c) c with
  | b :: bs => out ++ b :: c_string bs
  | [] => out
  end.
