(* ===== verification/StringLaws.v ===== *)
(** * Strings are sequences of characters

    What the operations on strings do to the characters that the bytes stand for:
    indices, cursors, slices, changes, the order of strings, and reading and
    writing characters; and the cases in which they do something else. *)
From S2P Require Import Prelude Heap Utf8 StringOps.
From Stdlib Require Import ZifyNat ZifyBool.
From stdpp Require Import base list option gmap strings.
#[local] Open Scope Z_scope.

(** The string at [l] has the characters [cs]: their bytes are in its buffer, from
    the offset. *)
Record shows (m : mem) (l : loc) (s : str) (pre : list Z) (cs : list Z) (post : list Z) : Prop := Shows {
  shows_string : strs m !! l = Some s;
  shows_buffer : bufs m !! sexp_string_bytes s = Some (pre ++ text cs ++ post);
  shows_offset : sexp_string_offset s = Z.of_nat (length pre);
  shows_size : sexp_string_size s = Z.of_nat (length (text cs));
  shows_chars : chars cs;
}.

Definition string_is (m : mem) (v : sexp) (cs : list Z) : Prop := exists l s pre post, v = Ptr l /\ shows m l s pre cs post.

(** The cursor of an index. *)
Definition offset_of (cs : list Z) (i : nat) : Z := Z.of_nat (length (text (take i cs))).

Lemma text_split cs i c : cs !! i = Some c -> text cs = text (take i cs) ++ utf8 c ++ text (drop (S i) cs).
Proof. intros H. rewrite <- (take_drop_middle cs i c H) at 1. rewrite text_app, text_cons. reflexivity. Qed.

Lemma chars_lookup cs i c : chars cs -> cs !! i = Some c -> is_char c.
Proof. intros H Hi. eapply Forall_lookup_1; eauto. Qed.

Lemma offset_of_S cs i c : cs !! i = Some c -> offset_of cs (S i) = offset_of cs i + Z.of_nat (length (utf8 c)).
Proof. intros H. unfold offset_of. rewrite (take_S_r _ _ _ H), text_app, length_app. unfold text at 2. simpl. rewrite app_nil_r. lia. Qed.

Lemma offset_of_all cs : offset_of cs (length cs) = Z.of_nat (length (text cs)).
Proof. unfold offset_of. rewrite firstn_all. reflexivity. Qed.

Lemma offset_of_lt cs i : chars cs -> (i < length cs)%nat -> offset_of cs i < Z.of_nat (length (text cs)).
Proof.
  intros Hcs Hi. destruct (lookup_lt_is_Some_2 cs i Hi) as [c Hc]. unfold offset_of. rewrite (text_split cs i c Hc), !length_app.
  pose proof (utf8_nonempty c (chars_lookup _ _ _ Hcs Hc)). lia.
Qed.

(** The first byte of a character of a string. *)
Lemma rd_offset pre cs post i c : chars cs -> cs !! i = Some c ->
  exists b, rd (pre ++ text cs ++ post) (Z.of_nat (length pre) + offset_of cs i) = Some b
    /\ sexp_utf8_initial_byte_count b = Z.of_nat (length (utf8 c)) /\ 0 <= b < 248 /\ ~ trails b.
Proof.
  intros Hcs Hc. unfold offset_of. rewrite (text_split cs i c Hc), <- !app_assoc, app_assoc, <- Nat2Z.inj_add, <- length_app.
  apply rd_head. eapply chars_lookup; eauto.
Qed.

Lemma decode_offset pre cs post i c : chars cs -> cs !! i = Some c ->
  decode_char (pre ++ text cs ++ post) (Z.of_nat (length pre) + offset_of cs i) = Some (Utf8.Char c).
Proof.
  intros Hcs Hc. unfold offset_of. rewrite (text_split cs i c Hc), <- !app_assoc, app_assoc, <- Nat2Z.inj_add, <- length_app.
  apply decode_utf8. eapply chars_lookup; eauto.
Qed.

(** ** Indices and cursors *)

Lemma index_loop_text pre cs post : chars cs -> forall n k, (k <= length cs)%nat ->
  index_loop n (pre ++ text cs ++ post) (Z.of_nat (length pre)) (Z.of_nat (length (text cs))) (Z.of_nat n) (offset_of cs k)
  = Some (Z.of_nat (n - (length cs - k)), offset_of cs (min (length cs) (k + n))).
Proof.
  intros Hcs. induction n as [|n IH]; intros k Hk.
  - simpl. do 2 f_equal. f_equal. lia.
  - cbn [index_loop]. replace (Z.of_nat (S n) >? 0) with true by lia. simpl. destruct (decide (k = length cs)) as [->|Hne].
    + rewrite offset_of_all, Z.ltb_irrefl. do 2 f_equal; [lia|]. rewrite <- offset_of_all. f_equal. lia.
    + destruct (lookup_lt_is_Some_2 cs k) as [c Hc]; [lia|]. pose proof (offset_of_lt cs k Hcs ltac:(lia)).
      replace (offset_of cs k <? Z.of_nat (length (text cs))) with true by lia.
      destruct (rd_offset pre cs post k c Hcs Hc) as (b & E & Hn & _). rewrite E. simpl. rewrite Hn, <- (offset_of_S cs k c Hc).
      replace (Z.of_nat (S n) - 1) with (Z.of_nat n) by lia. rewrite IH by lia. do 2 f_equal; [lia|]. f_equal. lia.
Qed.

Lemma index_to_cursor_spec m v cs i : string_is m v cs ->
  sexp_string_index_to_cursor m v (Fixnum i) =
  if (0 <=? i) && (i <=? Z.of_nat (length cs)) then Some (Ok (StringCursor (offset_of cs (Z.to_nat i))))
  else Some (Exn (UserExn "string-index->cursor: index out of range" (Fixnum i))).
Proof.
  intros (l & s & pre & post & -> & [Hs Hb Ho Hz Hcs]). unfold sexp_string_index_to_cursor, assert_string, buffer. rewrite Hs. simpl. rewrite Hb. simpl.
  rewrite Ho, Hz. destruct (Z.leb_spec 0 i) as [Hi|Hi]; simpl.
  - pose proof (index_loop_text pre cs post Hcs (Z.to_nat i) 0 ltac:(lia)) as H. rewrite Z2Nat.id in H by exact Hi.
    change (offset_of cs 0) with 0 in H. rewrite H. simpl. replace (length cs - 0)%nat with (length cs) by lia.
    destruct (Z.leb_spec i (Z.of_nat (length cs))).
    + replace (negb (Z.of_nat (Z.to_nat i - length cs) =? 0)) with false by lia. unfold ret. do 3 f_equal. f_equal. lia.
    + replace (negb (Z.of_nat (Z.to_nat i - length cs) =? 0)) with true by lia. reflexivity.
  - replace (Z.to_nat i) with 0%nat by lia. simpl. replace (i >? 0) with false by lia. simpl.
    replace (negb (i =? 0)) with true by lia. reflexivity.
Qed.

Lemma length_prefix pre cs post i : chars cs -> (i <= length cs)%nat ->
  sexp_string_utf8_length (pre ++ text cs ++ post) (Z.of_nat (length pre)) (offset_of cs i) = Some (Z.of_nat i).
Proof.
  intros Hcs Hi. unfold offset_of. rewrite <- (take_drop i cs) at 1. rewrite text_app, <- app_assoc.
  rewrite utf8_length_text; [rewrite length_take; do 2 f_equal; lia|]. apply Forall_take, Hcs.
Qed.

Lemma cursor_to_index_spec m v cs i : string_is m v cs -> (i <= length cs)%nat ->
  sexp_string_cursor_to_index m v (StringCursor (offset_of cs i)) = Some (Ok (Fixnum (Z.of_nat i))).
Proof.
  intros (l & s & pre & post & -> & [Hs Hb Ho Hz Hcs]) Hi. unfold sexp_string_cursor_to_index, assert_string, buffer. rewrite Hs. simpl.
  assert (Hle : 0 <= offset_of cs i <= Z.of_nat (length (text cs))).
  { destruct (decide (i = length cs)) as [->|]; [rewrite offset_of_all; lia|]. pose proof (offset_of_lt cs i Hcs ltac:(lia)). unfold offset_of in *. lia. }
  rewrite Hz. replace ((offset_of cs i <? 0) || (offset_of cs i >? Z.of_nat (length (text cs)))) with false by lia.
  rewrite Hb. simpl. rewrite Ho, length_prefix by assumption. reflexivity.
Qed.

Lemma string_length_spec m v cs : string_is m v cs -> op_string_length m v = Some (Ok (Fixnum (Z.of_nat (length cs)))).
Proof.
  intros (l & s & pre & post & -> & [Hs Hb Ho Hz Hcs]). unfold op_string_length, assert_string, buffer. rewrite Hs. simpl. rewrite Hb. simpl.
  rewrite Ho, Hz, <- offset_of_all, length_prefix by (auto; lia). reflexivity.
Qed.

Lemma cursor_ref_spec m v cs i c : string_is m v cs -> cs !! i = Some c ->
  op_string_cursor_ref m v (StringCursor (offset_of cs i)) = Some (Ok (Heap.Char c)).
Proof.
  intros (l & s & pre & post & -> & [Hs Hb Ho Hz Hcs]) Hc. unfold op_string_cursor_ref, assert_string. rewrite Hs. simpl. rewrite Hz.
  pose proof (offset_of_lt cs i Hcs ltac:(eapply lookup_lt_Some, Hc)) as Hlt. assert (0 <= offset_of cs i) by (unfold offset_of; lia).
  replace ((offset_of cs i <? 0) || (offset_of cs i >=? Z.of_nat (length (text cs)))) with false by lia.
  unfold sexp_string_utf8_ref, buffer. rewrite Hb. simpl. rewrite Ho, (decode_offset pre cs post i c Hcs Hc). reflexivity.
Qed.

Lemma index_ref_spec m v cs i : string_is m v cs ->
  sexp_string_utf8_index_ref m v (Fixnum i) =
  match (if 0 <=? i then cs !! Z.to_nat i else None) with
  | Some c => Some (Ok (Heap.Char c))
  | None => Some (Exn (UserExn (if i =? Z.of_nat (length cs) then "string-ref: index out of range" else "string-index->cursor: index out of range") (Fixnum i)))
  end.
Proof.
  intros Hv. unfold sexp_string_utf8_index_ref. rewrite (index_to_cursor_spec m v cs i Hv).
  pose proof Hv as (l & s & pre & post & -> & [Hs Hb Ho Hz Hcs]). unfold assert_string. rewrite Hs. simpl.
  destruct (Z.leb_spec 0 i) as [Hi|Hi]; simpl.
  - destruct (Z.leb_spec i (Z.of_nat (length cs))) as [Hi'|Hi']; simpl.
    + rewrite Hz. destruct (cs !! Z.to_nat i) as [c|] eqn:Hc.
      * pose proof (offset_of_lt cs _ Hcs ltac:(eapply lookup_lt_Some, Hc)). replace (offset_of cs (Z.to_nat i) >=? Z.of_nat (length (text cs))) with false by lia.
        unfold sexp_string_utf8_ref, buffer. rewrite Hb. simpl. rewrite Ho, (decode_offset pre cs post _ c Hcs Hc). reflexivity.
      * apply lookup_ge_None in Hc. replace (Z.to_nat i) with (length cs) by lia. rewrite offset_of_all.
        replace (Z.of_nat (length (text cs)) >=? Z.of_nat (length (text cs))) with true by lia. replace (i =? Z.of_nat (length cs)) with true by lia. reflexivity.
    + rewrite lookup_ge_None_2 by lia. replace (i =? Z.of_nat (length cs)) with false by lia. reflexivity.
  - replace (i =? Z.of_nat (length cs)) with false by lia. reflexivity.
Qed.

Lemma cursor_next_spec m v cs i c : string_is m v cs -> cs !! i = Some c ->
  op_string_cursor_next m v (StringCursor (offset_of cs i)) = Some (Ok (StringCursor (offset_of cs (S i)))).
Proof.
  intros (l & s & pre & post & -> & [Hs Hb Ho Hz Hcs]) Hc. unfold op_string_cursor_next, assert_string, buffer. rewrite Hs. simpl. rewrite Hb. simpl.
  destruct (rd_offset pre cs post i c Hcs Hc) as (b & E & Hn & _). rewrite Ho, E. simpl. rewrite Hn, <- (offset_of_S cs i c Hc). reflexivity.
Qed.

Lemma cursor_prev_spec m v cs i c : string_is m v cs -> cs !! i = Some c ->
  op_string_cursor_prev m v (StringCursor (offset_of cs (S i))) = Some (Ok (StringCursor (offset_of cs i))).
Proof.
  intros (l & s & pre & post & -> & [Hs Hb Ho Hz Hcs]) Hc. unfold op_string_cursor_prev, assert_string, buffer. rewrite Hs. simpl. rewrite Hb. simpl.
  rewrite Ho, (offset_of_S cs i c Hc). unfold offset_of.
  replace (Z.of_nat (length pre) + (Z.of_nat (length (text (take i cs))) + Z.of_nat (length (utf8 c))))
    with (Z.of_nat (length (pre ++ text (take i cs)) + length (utf8 c))) by (rewrite length_app; lia).
  rewrite (text_split cs i c Hc), <- !app_assoc, app_assoc. rewrite utf8_prev_text by (eapply chars_lookup; eauto). simpl.
  unfold ret. do 3 f_equal. rewrite length_app. lia.
Qed.

(** ** New strings *)

(** Memory with more in it. *)
Definition grows (m m' : mem) : Prop := bufs m ⊆ bufs m' /\ strs m ⊆ strs m'.

#[export] Instance grows_refl : Reflexive grows.
Proof. intros m. split; reflexivity. Qed.

#[export] Instance grows_trans : Transitive grows.
Proof. intros a b c [H1 H2] [H3 H4]. split; etransitivity; eauto. Qed.

Lemma string_is_grows m m' v cs : grows m m' -> string_is m v cs -> string_is m' v cs.
Proof.
  intros [Hb Hs] (l & s & pre & post & -> & [H1 H2 H3 H4 H5]). exists l, s, pre, post. split; [reflexivity|].
  split; auto; eapply lookup_weaken; eauto.
Qed.

Lemma new_buffer_grows m b l m' : new_buffer m b = (l, m') -> grows m m' /\ bufs m' !! l = Some b /\ strs m' = strs m.
Proof.
  intros [= <- <-]. simpl. split; [|rewrite lookup_insert_eq; auto]. split; simpl; [|reflexivity]. apply insert_subseteq, not_elem_of_dom.
  intros H. eapply (is_fresh (dom (bufs m) ∪ dom (strs m))). apply elem_of_union. left. exact H.
Qed.

Lemma new_string_grows m s v m' : new_string m s = (v, m') -> grows m m' /\ exists l, v = Ptr l /\ strs m' !! l = Some s /\ bufs m' = bufs m.
Proof.
  intros [= <- <-]. split; [|eexists; split; [reflexivity|]; simpl; rewrite lookup_insert_eq; auto]. split; simpl; [reflexivity|].
  apply insert_subseteq, not_elem_of_dom. intros H. eapply (is_fresh (dom (bufs m) ∪ dom (strs m))). apply elem_of_union. right. exact H.
Qed.

Lemma string_of_text m cs v m' : chars cs -> string_of_bytes m (text cs) = (v, m') -> grows m m' /\ string_is m' v cs.
Proof.
  intros Hcs. unfold string_of_bytes. destruct (new_buffer m (text cs ++ [0])) as [l m1] eqn:E1. intros E2.
  apply new_buffer_grows in E1 as (G1 & H1 & _). apply new_string_grows in E2 as (G2 & l' & -> & H2 & H3). split; [etransitivity; eauto|].
  eexists l', _, [], [0]. split; [reflexivity|]. split; [exact H2 | simpl; rewrite H3; exact H1 | reflexivity | reflexivity | exact Hcs].
Qed.

Lemma slice_app pre mid post : slice (length mid) (pre ++ mid ++ post) (Z.of_nat (length pre)) = Some mid.
Proof.
  revert pre. induction mid as [|c mid IH]; intros pre; [reflexivity|]. cbn [slice length]. rewrite rd_app_0. simpl. cbn [mbind option_bind].
  change (rd (c :: mid ++ post) 0) with (Some c). simpl.
  replace (Z.of_nat (length pre) + 1) with (Z.of_nat (length (pre ++ [c]))) by (rewrite length_app; simpl; lia).
  replace (pre ++ c :: mid ++ post) with ((pre ++ [c]) ++ mid ++ post) by (rewrite <- app_assoc; reflexivity). rewrite IH. reflexivity.
Qed.

(** The bytes between two characters of a string. *)
Lemma slice_text pre cs post i j : (i <= j <= length cs)%nat ->
  slice (Z.to_nat (offset_of cs j - offset_of cs i)) (pre ++ text cs ++ post) (Z.of_nat (length pre) + offset_of cs i) = Some (text (take (j - i) (drop i cs))).
Proof.
  intros Hij. set (A := take i cs). set (B := take (j - i) (drop i cs)).
  assert (Ej : take j cs = A ++ B).
  { unfold A, B. rewrite <- (take_drop i (take j cs)). rewrite take_take, Nat.min_l by lia. f_equal. apply skipn_firstn_comm. }
  assert (E : text cs = text A ++ text B ++ text (drop j cs)).
  { rewrite <- (take_drop j cs) at 1. rewrite Ej, !text_app, <- app_assoc. reflexivity. }
  unfold offset_of. fold A. rewrite Ej, E, text_app, length_app, <- !app_assoc, (app_assoc pre), <- Nat2Z.inj_add, <- (length_app pre).
  replace (Z.to_nat (Z.of_nat (length (text A) + length (text B)) - Z.of_nat (length (text A)))) with (length (text B)) by lia.
  apply slice_app.
Qed.

Lemma string_data_text m l s pre cs post : shows m l s pre cs post -> string_data m s = Some (text cs).
Proof.
  intros [Hs Hb Ho Hz Hcs]. unfold string_data, buffer. rewrite Hb. simpl. rewrite Hz, Ho, Nat2Z.id. apply slice_app.
Qed.

Lemma offset_of_mono cs i j : (i <= j)%nat -> offset_of cs i <= offset_of cs j.
Proof.
  intros Hij. unfold offset_of. rewrite <- (take_drop i (take j cs)), take_take, Nat.min_l by lia. rewrite text_app, length_app. lia.
Qed.

Lemma offset_of_lt_iff cs i j : chars cs -> (i < j <= length cs)%nat -> offset_of cs i < offset_of cs j.
Proof.
  intros Hcs Hij. destruct (lookup_lt_is_Some_2 cs i) as [c Hc]; [lia|]. pose proof (offset_of_S cs i c Hc).
  pose proof (utf8_nonempty c (chars_lookup _ _ _ Hcs Hc)). pose proof (offset_of_mono cs (S i) j ltac:(lia)). lia.
Qed.

(** [substring-cursor]; an end of [#f] is that of the string. *)
Lemma substring_cursors m v cs i j e : string_is m v cs -> (i <= j <= length cs)%nat ->
  e = StringCursor (offset_of cs j) \/ e = SEXP_FALSE /\ j = length cs ->
  exists r m', sexp_substring_op m v (StringCursor (offset_of cs i)) e = Some (Ok (r, m'))
    /\ grows m m' /\ string_is m' r (take (j - i) (drop i cs)).
Proof.
  intros (l & s & pre & post & -> & [Hs Hb Ho Hz Hcs]) Hij He. unfold sexp_substring_op, assert_string, buffer. rewrite Hs. simpl.
  assert (Ee : assert_cursor (if sexp_not e then StringCursor (sexp_string_size s) else e) = ret (offset_of cs j)).
  { destruct He as [->|[-> ->]]; [reflexivity|]. simpl. rewrite Hz, offset_of_all. reflexivity. }
  rewrite Ee. simpl. rewrite Hz.
  pose proof (offset_of_mono cs i j ltac:(lia)) as Mi. pose proof (offset_of_mono cs j (length cs) ltac:(lia)) as Mj. rewrite offset_of_all in Mj.
  assert (0 <= offset_of cs i) as Pi by (unfold offset_of; lia).
  replace ((offset_of cs i <? 0) || (offset_of cs i >? Z.of_nat (length (text cs))) || (offset_of cs j <? 0)
    || (offset_of cs j >? Z.of_nat (length (text cs))) || (offset_of cs j <? offset_of cs i)) with false by lia.
  rewrite Hb. cbn [mbind option_bind]. rewrite Ho, slice_text by lia. cbn [mbind option_bind]. unfold ret.
  destruct (string_of_bytes m (text (take (j - i) (drop i cs)))) as [r m'] eqn:E. exists r, m'. split; [reflexivity|].
  apply (string_of_text m _ r m'); [|exact E]. apply Forall_take, Forall_drop, Hcs.
Qed.

Lemma substring_backwards m v cs i j : string_is m v cs -> (j < i <= length cs)%nat ->
  sexp_substring_op m v (StringCursor (offset_of cs i)) (StringCursor (offset_of cs j))
  = Some (Exn (RangeExn v (StringCursor (offset_of cs i)) (StringCursor (offset_of cs j)))).
Proof.
  intros (l & s & pre & post & -> & [Hs Hb Ho Hz Hcs]) Hij. unfold sexp_substring_op, assert_string. rewrite Hs. simpl. rewrite Hz.
  pose proof (offset_of_lt_iff cs j i Hcs ltac:(lia)). replace (offset_of cs j <? offset_of cs i) with true by lia.
  rewrite orb_true_r. reflexivity.
Qed.

(** [substring]: the characters from an index to another, or to the end. *)
Lemma utf8_substring_spec m v cs i j : string_is m v cs ->
  if (0 <=? i) && (i <=? j) && (j <=? Z.of_nat (length cs)) then
    exists r m', sexp_utf8_substring_op m v (Fixnum i) (Fixnum j) = Some (Ok (r, m'))
      /\ grows m m' /\ string_is m' r (take (Z.to_nat (j - i)) (drop (Z.to_nat i) cs))
  else exists e, sexp_utf8_substring_op m v (Fixnum i) (Fixnum j) = Some (Exn e).
Proof.
  intros Hv. assert (Ha : exists s, assert_string m v = Some (Ok s)).
  { destruct Hv as (l & s & pre & post & -> & H). exists s. unfold assert_string. rewrite (shows_string _ _ _ _ _ _ H). reflexivity. }
  destruct Ha as [s Ha]. unfold sexp_utf8_substring_op. rewrite Ha. unfold bind at 1 2. simpl (assert_fixnum _). cbn [mbind option_bind ret].
  rewrite (index_to_cursor_spec m v cs i Hv), (index_to_cursor_spec m v cs j Hv). simpl (sexp_fixnump _). cbv iota.
  destruct ((0 <=? i) && (i <=? Z.of_nat (length cs))) eqn:Bi; cbn [bind mbind option_bind].
  2: { replace ((0 <=? i) && (i <=? j) && (j <=? Z.of_nat (length cs))) with false by lia. eauto. }
  destruct ((0 <=? j) && (j <=? Z.of_nat (length cs))) eqn:Bj; cbn [bind mbind option_bind].
  2: { replace ((0 <=? i) && (i <=? j) && (j <=? Z.of_nat (length cs))) with false by lia. eauto. }
  destruct (Z.leb_spec i j) as [Hij|Hij].
  - replace ((0 <=? i) && true && (j <=? Z.of_nat (length cs))) with true by lia.
    rewrite Z2Nat.inj_sub by lia. apply substring_cursors; [exact Hv | lia | left; reflexivity].
  - replace ((0 <=? i) && false && (j <=? Z.of_nat (length cs))) with false by lia. eexists. apply (substring_backwards m v cs); [exact Hv | lia].
Qed.


(** *** Joining *)

Fixpoint join (sep : list Z) (css : list (list Z)) : list Z :=
  match css with [] => [] | [cs] => cs | cs :: css => cs ++ sep ++ join sep css end.

Lemma all_strings_spec m vs css : Forall2 (string_is m) vs css ->
  exists ss, all_strings m vs = Some (Ok ss) /\ Forall2 (fun s cs => string_data m s = Some (text cs)) ss css.
Proof.
  induction 1 as [|v cs vs css (l & s & pre & post & -> & Hv) _ (ss & E & IH)]; [exists []; split; [reflexivity | constructor]|].
  exists (s :: ss). split; [|constructor; [eapply string_data_text; eauto | exact IH]].
  simpl. rewrite (shows_string _ _ _ _ _ _ Hv). simpl. rewrite E. reflexivity.
Qed.

Lemma concatenate_text m sep ss css : Forall2 (fun s cs => string_data m s = Some (text cs)) ss css ->
  concatenate_loop m (text sep) ss = Some (text (join sep css)).
Proof.
  induction 1 as [|s cs ss css H HF IH]; [reflexivity|]. destruct HF as [|s2 cs2 ss css H2 HF]; [exact H|].
  change (concatenate_loop m (text sep) (s :: s2 :: ss)) with (bytes ← string_data m s; r ← concatenate_loop m (text sep) (s2 :: ss); Some (bytes ++ text sep ++ r)).
  rewrite H. cbn [mbind option_bind]. rewrite IH. cbn [mbind option_bind]. change (join sep (cs :: cs2 :: css)) with (cs ++ sep ++ join sep (cs2 :: css)).
  rewrite !text_app. reflexivity.
Qed.

Lemma chars_join sep css : chars sep -> Forall chars css -> chars (join sep css).
Proof.
  intros Hs. induction 1 as [|cs css Hc Hcs IH]; [constructor|]. destruct Hcs; [exact Hc|]. apply Forall_app_2; [exact Hc|]. apply Forall_app_2; assumption.
Qed.

Lemma string_is_chars m v cs : string_is m v cs -> chars cs.
Proof. intros (l & s & pre & post & _ & H). apply (shows_chars _ _ _ _ _ _ H). Qed.

(** [string-concatenate], with a separator or with [#f]. *)
Lemma concatenate_spec m vs css sep scs : Forall2 (string_is m) vs css -> string_is m sep scs \/ sep = SEXP_FALSE /\ scs = [] ->
  exists r m', sexp_string_concatenate_op m vs sep = Some (Ok (r, m')) /\ grows m m' /\ string_is m' r (join scs css).
Proof.
  intros Hvs Hsep. destruct (all_strings_spec m vs css Hvs) as (ss & E & Hss). unfold sexp_string_concatenate_op. rewrite E.
  cbn [bind mbind option_bind].
  assert (Hd : concatenate_loop m [] ss = concatenate_loop m (text scs) ss \/ ss <> []) by (destruct ss; [left; reflexivity | right; discriminate]).
  assert (Hcs : chars (join scs css)).
  { apply chars_join; [destruct Hsep as [H|[_ ->]]; [eapply string_is_chars, H | constructor]|].
    clear - Hvs. induction Hvs as [|v cs vs css H _ IH]; constructor; [eapply string_is_chars, H | exact IH]. }
  assert (Hsepb : exists b, match assert_string m sep with Some (Ok s) => if (length ss =? 0)%nat then Some [] else string_data m s | _ => Some [] end = Some b
    /\ concatenate_loop m b ss = Some (text (join scs css))).
  { rewrite <- (concatenate_text m scs ss css Hss). destruct Hsep as [(l & s & pre & post & -> & Hs)|[-> ->]]; [|exists []; auto].
    unfold assert_string. rewrite (shows_string _ _ _ _ _ _ Hs). simpl. destruct ss as [|s0 ss]; [exists []; auto|]. simpl length. cbn [Nat.eqb].
    rewrite (string_data_text _ _ _ _ _ _ Hs). exists (text scs). auto. }
  destruct Hsepb as (b & Eb & Ec). rewrite Eb. cbn [mbind option_bind]. rewrite Ec. cbn [mbind option_bind]. unfold ret.
  destruct (string_of_bytes m (text (join scs css))) as [r m'] eqn:Er. exists r, m'. split; [reflexivity|]. eapply string_of_text; eauto.
Qed.

(** [make-string] *)
Lemma encode_all_text n c : encode_all n (sexp_utf8_char_byte_count c) c = text (replicate n c).
Proof. unfold encode_all, text. rewrite fmap_replicate. reflexivity. Qed.

Lemma text_replicate_length n c : is_char c -> length (text (replicate n c)) = (n * length (utf8 c))%nat.
Proof. intros Hc. induction n as [|n IH]; [reflexivity|]. simpl replicate. rewrite text_cons, length_app, IH. lia. Qed.

Lemma make_string_spec junk m n c : is_char c -> 0 <= n < 2 ^ 60 ->
  exists r m', sexp_make_string_op junk m (Fixnum n) (Heap.Char c) = Some (Ok (r, m')) /\ grows m m' /\ string_is m' r (replicate (Z.to_nat n) c).
Proof.
  intros Hc Hn.
  assert (Hb : exists b, (if c >=? 128 then
      bind (assert_fixnum (Fixnum n)) (fun n => bind (sexp_make_bytes_op junk (Fixnum (swrap 63 (n * sexp_utf8_char_byte_count c))) SEXP_VOID)
        (fun _ => if negb (swrap 63 (n * sexp_utf8_char_byte_count c) =? n * sexp_utf8_char_byte_count c) then None
                  else ret (encode_all (Z.to_nat n) (sexp_utf8_char_byte_count c) c ++ [0])))
    else sexp_make_bytes_op junk (Fixnum n) (Fixnum c)) = Some (Ok b) /\ b = text (replicate (Z.to_nat n) c) ++ [0]).
  { unfold sexp_make_bytes_op. pose proof (utf8_length c Hc) as Hl. pose proof (utf8_nonempty c Hc) as Hne. destruct (Z.geb_spec c 128) as [H|H].
    - cbn [assert_fixnum bind ret mbind option_bind]. rewrite swrap_id by (rewrite <- ?Hl; nia). simpl. replace (n * sexp_utf8_char_byte_count c <? 0) with false by nia. simpl.
      rewrite Z.eqb_refl. simpl. eexists. split; [reflexivity|]. rewrite encode_all_text. reflexivity.
    - simpl. replace (n <? 0) with false by lia. eexists. split; [reflexivity|]. f_equal. unfold is_char in Hc.
      assert (E : utf8 c = [c]) by (destruct (utf8_cases c Hc) as [(_ & E)|[(? & _)|[(? & _)|(? & _)]]]; [exact E | lia | lia | lia]).
      unfold text. rewrite fmap_replicate, E. unfold uwrap. rewrite Z.mod_small by lia.
      clear. induction (Z.to_nat n) as [|k IH]; [reflexivity|]. simpl. f_equal. exact IH. }
  destruct Hb as (b & Eb & ->). unfold sexp_make_string_op. unfold sexp_make_bytes_op in Eb |- *. cbn -[text new_buffer new_string Z.geb] in Eb |- *. rewrite Eb. clear Eb.
  cbn [bind mbind option_bind].
  destruct (new_buffer m (text (replicate (Z.to_nat n) c) ++ [0])) as [l m1] eqn:E1.
  destruct (new_string m1 (Str l 0 (sexp_bytes_length (text (replicate (Z.to_nat n) c) ++ [0])) false false)) as [r m2] eqn:E2. unfold ret.
  exists r, m2. split; [reflexivity|]. apply new_buffer_grows in E1 as (G1 & H1 & _). apply new_string_grows in E2 as (G2 & l' & -> & H2 & H3).
  split; [etransitivity; eauto|]. eexists l', _, [], [0]. split; [reflexivity|].
  split; [exact H2 | simpl; rewrite H3; exact H1 | reflexivity | | apply Forall_replicate, Hc].
  simpl. unfold sexp_bytes_length. rewrite length_app. simpl. lia.
Qed.

(** ** Changes *)

Lemma write_app bytes : forall pre old post, length old = length bytes ->
  write (pre ++ old ++ post) (Z.of_nat (length pre)) bytes = Some (pre ++ bytes ++ post).
Proof.
  induction bytes as [|c bytes IH]; intros pre old post Hl; [destruct old; [reflexivity | discriminate]|]. destruct old as [|x old]; [discriminate|].
  injection Hl as Hl. cbn [write]. rewrite rd_app_0. change (rd ((x :: old) ++ post) 0) with (Some x). cbn [mbind option_bind].
  rewrite Nat2Z.id, insert_app_r_alt, Nat.sub_diag by lia. simpl.
  replace (Z.of_nat (length pre) + 1) with (Z.of_nat (length (pre ++ [c]))) by (rewrite length_app; simpl; lia).
  replace (pre ++ c :: old ++ post) with ((pre ++ [c]) ++ old ++ post) by (rewrite <- app_assoc; reflexivity).
  rewrite IH by exact Hl. rewrite <- app_assoc. reflexivity.
Qed.

(** Three parts that fill a buffer, the middle one last. *)
Lemma write_parts b front enc rest : length b = (length front + length enc + length rest)%nat ->
  (b ← write b 0 front; b ← write b (Z.of_nat (length front + length enc)) rest; write b (Z.of_nat (length front)) enc) = Some (front ++ enc ++ rest).
Proof.
  intros Hl. set (b1 := take (length front) b). set (b2 := take (length enc) (drop (length front) b)). set (b3 := drop (length enc) (drop (length front) b)).
  assert (E : b = [] ++ b1 ++ b2 ++ b3) by (unfold b1, b2, b3; simpl; rewrite !take_drop; reflexivity).
  assert (L1 : length b1 = length front) by (unfold b1; rewrite length_take; lia).
  assert (L2 : length b2 = length enc) by (unfold b2; rewrite length_take, length_drop; lia).
  assert (L3 : length b3 = length rest) by (unfold b3; rewrite !length_drop; lia).
  rewrite E. change 0 with (Z.of_nat (length (@nil Z))). rewrite write_app by exact L1. cbn [mbind option_bind]. simpl app at 1.
  replace (Z.of_nat (length front + length enc)) with (Z.of_nat (length (front ++ b2))) by (rewrite length_app; lia).
  rewrite app_assoc. rewrite <- (app_nil_r b3), write_app by exact L3. cbn [mbind option_bind]. rewrite app_nil_r, <- app_assoc.
  apply write_app, L2.
Qed.

Lemma text_insert cs i c : (i < length cs)%nat -> text (<[i := c]> cs) = text (take i cs) ++ utf8 c ++ text (drop (S i) cs).
Proof.
  intros Hi. rewrite insert_take_drop by exact Hi. rewrite text_app, text_cons. reflexivity.
Qed.

(** A character that is set, in the buffer or in a new one. *)
Lemma utf8_set_spec junk m l s pre cs post i c0 c : shows m l s pre cs post -> cs !! i = Some c0 -> is_char c ->
  (forall n, length (junk n) = n) -> Z.of_nat (length (text cs)) + 4 < 2 ^ 31 -> post <> [] ->
  let copies := sexp_copy_on_writep s || negb (length (utf8 c0) =? length (utf8 c))%nat in
  (copies = true -> pre = []) ->
  exists m' s' post', sexp_string_utf8_set junk m l (offset_of cs i) c = Some m' /\ shows m' l s' pre (<[i := c]> cs) post' /\ post' <> []
    /\ str_immutable s' = str_immutable s
    /\ (if copies then bufs m ⊆ bufs m' /\ bufs m !! sexp_string_bytes s' = None
        else s' = s /\ post' = post /\ forall b, b <> sexp_string_bytes s -> bufs m' !! b = bufs m !! b)
    /\ (forall l', l' <> l -> strs m' !! l' = strs m !! l').
Proof.
  intros [Hs Hb Ho Hz Hcs] Hc0 Hc Hjunk Hsmall Hpost copies Hcopies.
  set (P := text (take i cs)). set (Q := text (drop (S i) cs)). pose proof (text_split cs i c0 Hc0) as Et. fold P Q in Et.
  assert (Hlt : (i < length cs)%nat) by (eapply lookup_lt_Some, Hc0).
  assert (Ei : text (<[i:=c]> cs) = P ++ utf8 c ++ Q) by (apply text_insert, Hlt).
  assert (Hcs' : chars (<[i:=c]> cs)) by (apply Forall_insert; assumption).
  pose proof (chars_lookup _ _ _ Hcs Hc0) as Hch0. pose proof (utf8_nonempty c0 Hch0) as N0. pose proof (utf8_nonempty c Hc) as N1.
  assert (Lt : length (text cs) = (length P + (length (utf8 c0) + length Q))%nat) by (rewrite Et, !length_app; reflexivity).
  destruct (rd_offset pre cs post i c0 Hcs Hc0) as (b & Eb & Hn & _).
  unfold sexp_string_utf8_set, buffer. rewrite Hs. cbn [mbind option_bind]. rewrite Hb. cbn [mbind option_bind].
  unfold offset_of in *. fold P in Eb |- *. rewrite swrap_id by lia. rewrite Ho, Eb. cbn [mbind option_bind]. rewrite Hn, <- (utf8_length c Hc).
  replace (sexp_copy_on_writep s || negb (Z.of_nat (length (utf8 c0)) =? Z.of_nat (length (utf8 c)))) with copies.
  2: { unfold copies. f_equal. f_equal. destruct (Nat.eqb_spec (length (utf8 c0)) (length (utf8 c))); lia. }
  assert (Eenc : sexp_utf8_encode_char (Z.of_nat (length (utf8 c))) c = utf8 c) by (rewrite utf8_length by exact Hc; reflexivity).
  rewrite Eenc. destruct copies eqn:Ec.
  - specialize (Hcopies eq_refl). subst pre. rewrite Hz, swrap_id by lia. unfold sexp_make_bytes_op. cbn [assert_fixnum bind ret mbind option_bind].
    replace (Z.of_nat (length (text cs)) + (Z.of_nat (length (utf8 c)) - Z.of_nat (length (utf8 c0))) <? 0) with false by lia.
    change (Z.of_nat (length (@nil Z))) with 0. change ([] ++ text cs ++ post) with (text cs ++ post). rewrite Nat2Z.id.
    assert (E1 : slice (length P) (text cs ++ post) 0 = Some P) by (rewrite Et, <- app_assoc; apply (slice_app [] P)).
    unfold ret. cbn [mbind option_bind]. rewrite E1. cbn [mbind option_bind]. destruct post as [|z post]; [contradiction|].
    assert (E2 : slice (Z.to_nat (Z.of_nat (length (text cs)) + (Z.of_nat (length (utf8 c)) - Z.of_nat (length (utf8 c0))) - Z.of_nat (length P) - Z.of_nat (length (utf8 c)) + 1))
        (text cs ++ z :: post) (0 + Z.of_nat (length P) + Z.of_nat (length (utf8 c0))) = Some (Q ++ [z])).
    { replace (text cs ++ z :: post) with ((P ++ utf8 c0) ++ (Q ++ [z]) ++ post) by (rewrite Et, <- !app_assoc; reflexivity).
      replace (0 + Z.of_nat (length P) + Z.of_nat (length (utf8 c0))) with (Z.of_nat (length (P ++ utf8 c0))) by (rewrite length_app; lia).
      replace (Z.to_nat _) with (length (Q ++ [z])) by (rewrite length_app; simpl; lia). apply slice_app. }
    rewrite E2. cbn [mbind option_bind].
    pose proof (write_parts (junk (Z.to_nat (Z.of_nat (length (text cs)) + (Z.of_nat (length (utf8 c)) - Z.of_nat (length (utf8 c0))))) ++ [0]) P (utf8 c) (Q ++ [z])) as Hw.
    rewrite !length_app, Hjunk in Hw. specialize (Hw ltac:(simpl; lia)). rewrite Nat2Z.inj_add in Hw.
    destruct (write _ 0 P) as [bb1|]; [|discriminate]. cbn [mbind option_bind] in Hw |- *. destruct (write bb1 _ _) as [bb2|]; [|discriminate].
    cbn [mbind option_bind] in Hw |- *. rewrite Hw. cbn [mbind option_bind].
    destruct (new_buffer m (P ++ utf8 c ++ Q ++ [z])) as [l1 m1] eqn:Eb1. pose proof Eb1 as Enew. apply new_buffer_grows in Eb1 as ([G1 _] & H1 & H2).
    eexists _, _, [z]. split; [reflexivity|]. split; [split; simpl|].
    + rewrite lookup_insert_eq. reflexivity.
    + simpl. rewrite H1, Ei, <- !app_assoc. reflexivity.
    + reflexivity.
    + simpl. rewrite Ei, !length_app. lia.
    + exact Hcs'.
    + simpl. split; [discriminate|]. split; [reflexivity|]. split; [split; [exact G1|]|].
      * injection Enew as <- _. apply not_elem_of_dom. intros H. eapply (is_fresh (dom (bufs m) ∪ dom (strs m))). apply elem_of_union. left. exact H.
      * intros l' Hl'. rewrite lookup_insert_ne by auto. rewrite H2. reflexivity.
  - assert (Elen : length (utf8 c0) = length (utf8 c)).
    { unfold copies in Ec. apply orb_false_iff in Ec as [_ Ec]. apply negb_false_iff, Nat.eqb_eq in Ec. exact Ec. }
    replace (pre ++ text cs ++ post) with ((pre ++ P) ++ utf8 c0 ++ (Q ++ post)) by (rewrite Et, <- !app_assoc; reflexivity).
    replace (Z.of_nat (length pre) + Z.of_nat (length P)) with (Z.of_nat (length (pre ++ P))) by (rewrite length_app; lia).
    rewrite write_app by exact Elen. cbn [mbind option_bind]. eexists _, s, post. split; [reflexivity|]. split; [split; simpl; auto|].
    + rewrite lookup_insert_eq, Ei, <- !app_assoc. reflexivity.
    + rewrite Hz, Ei, Lt, !length_app. lia.
    + split; [exact Hpost|]. split; [reflexivity|]. split; [|reflexivity]. split; [reflexivity|]. split; [reflexivity|].
      intros b' Hb'. simpl. apply lookup_insert_ne. auto.
Qed.

(** ** Order *)

(** The order of characters, and of strings as words of characters. *)
Fixpoint compare_chars (cs ds : list Z) : Z :=
  match cs, ds with
  | [], [] => 0
  | [], _ :: _ => -1
  | _ :: _, [] => 1
  | c :: cs, d :: ds => if c <? d then -1 else if d <? c then 1 else compare_chars cs ds
  end.

(** The bytes of two characters differ first where the smaller one has the smaller
    byte. *)
Lemma utf8_order c d : is_char c -> is_char d -> c < d ->
  exists com b1 b2 r1 r2, utf8 c = com ++ b1 :: r1 /\ utf8 d = com ++ b2 :: r2 /\ b1 < b2 /\ Forall (fun b => b <> 0) com.
Proof.
  intros Hc Hd Hlt. unfold is_char in *.
  assert (M : forall x, 0 <= x mod 64 < 64) by (intros x; apply Z.mod_pos_bound; lia).
  assert (H0 : forall x y bs cs, x < y -> exists com b1 b2 r1 r2, x :: bs = com ++ b1 :: r1 /\ y :: cs = com ++ b2 :: r2 /\ b1 < b2 /\ Forall (fun b => b <> 0) com).
  { intros x y bs cs' Hxy. exists [], x, y, bs, cs'. repeat split; [exact Hxy | constructor]. }
  assert (HS : forall x bs cs, x <> 0 -> (exists com b1 b2 r1 r2, bs = com ++ b1 :: r1 /\ cs = com ++ b2 :: r2 /\ b1 < b2 /\ Forall (fun b => b <> 0) com) ->
    exists com b1 b2 r1 r2, x :: bs = com ++ b1 :: r1 /\ x :: cs = com ++ b2 :: r2 /\ b1 < b2 /\ Forall (fun b => b <> 0) com).
  { intros x bs cs' Hx (com & b1 & b2 & r1 & r2 & -> & -> & Hb & Hcom). exists (x :: com), b1, b2, r1, r2. repeat split; [exact Hb | constructor; assumption]. }
  destruct (utf8_cases c Hc) as [(Hc' & ->)|[(Hc' & ->)|[(Hc' & ->)|(Hc' & ->)]]];
    destruct (utf8_cases d Hd) as [(Hd' & ->)|[(Hd' & ->)|[(Hd' & ->)|(Hd' & ->)]]]; try lia;
    try (apply H0; Z.to_euclidean_division_equations; lia).
  - destruct (decide (c / 64 < d / 64)); [apply H0; lia|]. assert (E : c / 64 = d / 64) by (Z.to_euclidean_division_equations; lia). rewrite <- E.
    apply HS; [Z.to_euclidean_division_equations; lia|]. apply H0. Z.to_euclidean_division_equations; lia.
  - destruct (decide (c / 4096 < d / 4096)); [apply H0; lia|]. assert (E : c / 4096 = d / 4096) by (Z.to_euclidean_division_equations; lia). rewrite <- E.
    apply HS; [Z.to_euclidean_division_equations; lia|].
    destruct (decide (c / 64 < d / 64)); [apply H0; Z.to_euclidean_division_equations; lia|].
    assert (E' : c / 64 = d / 64) by (Z.to_euclidean_division_equations; lia). rewrite <- E'.
    apply HS; [pose proof (M (c / 64)); lia|]. apply H0. Z.to_euclidean_division_equations; lia.
  - destruct (decide (c / 262144 < d / 262144)); [apply H0; lia|]. assert (E : c / 262144 = d / 262144) by (Z.to_euclidean_division_equations; lia). rewrite <- E.
    apply HS; [Z.to_euclidean_division_equations; lia|].
    destruct (decide (c / 4096 < d / 4096)); [apply H0; Z.to_euclidean_division_equations; lia|].
    assert (E' : c / 4096 = d / 4096) by (Z.to_euclidean_division_equations; lia). rewrite <- E'.
    apply HS; [pose proof (M (c / 4096)); lia|].
    destruct (decide (c / 64 < d / 64)); [apply H0; Z.to_euclidean_division_equations; lia|].
    assert (E2 : c / 64 = d / 64) by (Z.to_euclidean_division_equations; lia). rewrite <- E2.
    apply HS; [pose proof (M (c / 64)); lia|]. apply H0. Z.to_euclidean_division_equations; lia.
Qed.

Lemma strncmp_common com : forall n p1 p2 x y, Forall (fun b => b <> 0) com ->
  strncmp id (length com + n) (p1 ++ com ++ x) (p2 ++ com ++ y) (Z.of_nat (length p1)) (Z.of_nat (length p2))
  = strncmp id n (p1 ++ com ++ x) (p2 ++ com ++ y) (Z.of_nat (length p1 + length com)) (Z.of_nat (length p2 + length com)).
Proof.
  induction com as [|b com IH]; intros n p1 p2 x y Hn; [simpl; do 2 f_equal; lia|]. apply Forall_cons_1 in Hn as [Hb Hn].
  cbn [length Nat.add strncmp]. rewrite !rd_app_0. change (rd ((b :: com) ++ x) 0) with (Some b). change (rd ((b :: com) ++ y) 0) with (Some b).
  cbn [mbind option_bind]. rewrite Z.eqb_refl. simpl negb. cbv iota. replace (b =? 0) with false by lia.
  pose proof (IH n (p1 ++ [b]) (p2 ++ [b]) x y Hn) as H. rewrite !length_app, <- !app_assoc in H. simpl in H.
  replace (Z.of_nat (length p1) + 1) with (Z.of_nat (length p1 + 1)) by lia. replace (Z.of_nat (length p2) + 1) with (Z.of_nat (length p2 + 1)) by lia.
  simpl app. rewrite H. do 2 f_equal; lia.
Qed.

(** A byte that differs, after bytes that do not. *)
Lemma strncmp_differ com b1 b2 n p1 p2 x y : Forall (fun b => b <> 0) com -> b1 <> b2 ->
  strncmp id (length com + S n) (p1 ++ com ++ b1 :: x) (p2 ++ com ++ b2 :: y) (Z.of_nat (length p1)) (Z.of_nat (length p2)) = Some (b1 - b2).
Proof.
  intros Hcom Hb. rewrite strncmp_common by exact Hcom. cbn [strncmp]. rewrite !app_assoc, <- !length_app, !rd_app_0.
  change (rd (b1 :: x) 0) with (Some b1). change (rd (b2 :: y) 0) with (Some b2). cbn [mbind option_bind]. unfold id.
  replace (b1 =? b2) with false by lia. reflexivity.
Qed.

Lemma utf8_nonzero c : is_char c -> c <> 0 -> Forall (fun b => b <> 0) (utf8 c).
Proof.
  intros Hc Hn. unfold is_char in Hc. assert (M : forall x, 0 <= x mod 64 < 64) by (intros x; apply Z.mod_pos_bound; lia).
  destruct (utf8_cases c Hc) as [(H & ->)|[(H & ->)|[(H & ->)|(H & ->)]]]; repeat constructor;
    try (pose proof (M c); pose proof (M (c / 64)); pose proof (M (c / 4096)); lia); Z.to_euclidean_division_equations; lia.
Qed.

Lemma strncmp_texts cs : forall ds p1 p2 x y, chars cs -> chars ds -> Forall (fun c => c <> 0) cs -> Forall (fun c => c <> 0) ds ->
  exists z, strncmp id (min (length (text cs)) (length (text ds))) (p1 ++ text cs ++ x) (p2 ++ text ds ++ y) (Z.of_nat (length p1)) (Z.of_nat (length p2)) = Some z
    /\ Z.sgn (if z =? 0 then Z.of_nat (length (text cs)) - Z.of_nat (length (text ds)) else z) = compare_chars cs ds.
Proof.
  induction cs as [|c cs IH]; intros ds p1 p2 x y Hcs Hds Zcs Zds.
  - exists 0. split; [reflexivity|]. destruct ds as [|d ds]; [reflexivity|]. apply Forall_cons_1 in Hds as [Hd _].
    rewrite text_cons, length_app. pose proof (utf8_nonempty d Hd). simpl. apply Z.sgn_neg. lia.
  - apply Forall_cons_1 in Hcs as [Hc Hcs]. apply Forall_cons_1 in Zcs as [Zc Zcs]. destruct ds as [|d ds].
    { exists 0. rewrite Nat.min_0_r. split; [reflexivity|]. rewrite text_cons, length_app. pose proof (utf8_nonempty c Hc). simpl. apply Z.sgn_pos. lia. }
    apply Forall_cons_1 in Hds as [Hd Hds]. apply Forall_cons_1 in Zds as [Zd Zds]. simpl compare_chars. rewrite !text_cons.
    destruct (Z.ltb_spec c d) as [Hlt|Hge]; [|destruct (Z.ltb_spec d c) as [Hlt|Hge']].
    + destruct (utf8_order c d Hc Hd Hlt) as (com & b1 & b2 & r1 & r2 & -> & -> & Hb & Hcom). exists (b1 - b2).
      rewrite <- !app_assoc. simpl. split; [|replace (b1 - b2 =? 0) with false by lia; apply Z.sgn_neg; lia].
      rewrite !length_app. simpl length. replace (min _ _) with (length com + S (min (length (r1 ++ text cs)) (length (r2 ++ text ds))))%nat by (rewrite !length_app; lia).
      apply strncmp_differ; [exact Hcom | lia].
    + destruct (utf8_order d c Hd Hc Hlt) as (com & b1 & b2 & r1 & r2 & -> & -> & Hb & Hcom). exists (b2 - b1).
      rewrite <- !app_assoc. simpl. split; [|replace (b2 - b1 =? 0) with false by lia; apply Z.sgn_pos; lia].
      rewrite !length_app. simpl length. replace (min _ _) with (length com + S (min (length (r2 ++ text cs)) (length (r1 ++ text ds))))%nat by (rewrite !length_app; lia).
      apply strncmp_differ; [exact Hcom | lia].
    + assert (d = c) as -> by lia. destruct (IH ds (p1 ++ utf8 c) (p2 ++ utf8 c) x y Hcs Hds Zcs Zds) as (z & E & Hz). exists z.
      rewrite !length_app, <- !app_assoc in *. split; [|destruct (z =? 0); [rewrite <- Hz; f_equal; lia | exact Hz]].
      rewrite Nat.add_min_distr_l, strncmp_common by (apply utf8_nonzero; assumption). exact E.
Qed.

(** ** Reading and writing *)

Lemma rd_cons x l : rd (x :: l) 0 = Some x /\ rd (x :: l) 1 = rd l 0 /\ rd (x :: l) 2 = rd l 1 /\ rd (x :: l) 3 = rd l 2.
Proof. repeat split. Qed.

#[local] Ltac rd_cons := repeat match goal with |- context [rd (?x :: ?l) _] =>
  destruct (rd_cons x l) as (Hr0 & Hr1 & Hr2 & Hr3); rewrite ?Hr0, ?Hr1, ?Hr2, ?Hr3; clear Hr0 Hr1 Hr2 Hr3; cbn [mbind option_bind] end.

(** Reading from a port is decoding, and goes on behind the character. *)
Lemma read_decode i rest c : 0 <= i -> decode_char (i :: rest) 0 = Some (Utf8.Char c) ->
  op_read_char (i :: rest) = (Ok (Heap.Char c), drop (Z.to_nat (sexp_utf8_initial_byte_count i - 1)) rest).
Proof.
  intros Hi. unfold decode_char. change (0 + 1) with 1. change (0 + 2) with 2. change (0 + 3) with 3. rd_cons.
  unfold op_read_char, sexp_read_char, sexp_read_utf8_char. replace (i =? -1) with false by lia. rewrite Z.geb_leb.
  destruct (Z.ltb_spec i 128); [replace (128 <=? i) with false by lia; intros [= <-]; replace (sexp_utf8_initial_byte_count i) with 1
    by (unfold sexp_utf8_initial_byte_count; replace (i <? 192) with true by lia; reflexivity); reflexivity|].
  replace (128 <=? i) with true by lia. destruct (Z.ltb_spec i 192); [discriminate|]. simpl.
  destruct (Z.gtb_spec i 247); [discriminate|]. rewrite initial_high by lia.
  destruct (Z.ltb_spec i 224); [|destruct (Z.ltb_spec i 240)].
  - destruct rest as [|c1 rest]; [discriminate|]. rd_cons. intros [= <-]. reflexivity.
  - destruct rest as [|c1 [|c2 rest]]; try discriminate. rd_cons. intros [= <-]. reflexivity.
  - destruct rest as [|c1 [|c2 [|c3 rest]]]; try discriminate. rd_cons. intros [= <-]. reflexivity.
Qed.

Lemma read_utf8 c inp : is_char c -> op_read_char (utf8 c ++ inp) = (Ok (Heap.Char c), inp).
Proof.
  intros Hc. destruct (utf8_head c Hc) as (b & bs & E & Hb & _ & _ & Hn). pose proof (decode_utf8 [] c inp Hc) as Hd. rewrite E in Hd |- *. simpl in Hd |- *.
  rewrite (read_decode b (bs ++ inp) c ltac:(lia) Hd). f_equal. rewrite Hn, E. simpl length.
  replace (Z.to_nat (Z.of_nat (S (length bs)) - 1)) with (length bs) by lia. apply drop_app_length.
Qed.

Lemma peek_utf8 c inp : is_char c -> op_peek_char (utf8 c ++ inp) = Some (Heap.Char c, utf8 c ++ inp).
Proof.
  intros Hc. pose proof (read_utf8 c inp Hc) as Hr. unfold op_read_char in Hr. unfold op_peek_char.
  destruct (utf8_head c Hc) as (b & bs & E & Hb & _). rewrite E in Hr |- *. simpl in Hr |- *. replace (b =? -1) with false in * by lia.
  destruct (b >=? 128) eqn:Eb; [rewrite Hr; unfold sexp_push_utf8_char; change (sexp_utf8_encode_char (sexp_utf8_char_byte_count c) c) with (utf8 c); rewrite E; reflexivity|].
  injection Hr as -> Hi. rewrite Hi. assert (bs = []) as -> by (destruct bs as [|x bs]; [reflexivity|]; apply (f_equal length) in Hi; rewrite length_app in Hi; simpl in Hi; lia).
  reflexivity.
Qed.

Lemma c_string_trails bs : Forall trails bs -> c_string bs = bs.
Proof. induction 1 as [|b bs Hb _ IH]; [reflexivity|]. unfold trails in Hb. simpl. replace (b =? 0) with false by lia. f_equal. exact IH. Qed.

Lemma write_utf8 c out : is_char c -> sexp_write_utf8_char c out = out ++ utf8 c.
Proof.
  intros Hc. unfold sexp_write_utf8_char. change (sexp_utf8_encode_char (sexp_utf8_char_byte_count c) c) with (utf8 c).
  destruct (utf8_head c Hc) as (b & bs & -> & _ & _ & Hbs & _). rewrite c_string_trails by exact Hbs. reflexivity.
Qed.

(** A string of characters, read to its end. *)
Fixpoint read_all (n : nat) (inp : list Z) : list (result sexp) * list Z :=
  match n with O => ([], inp) | S n => let '(r, inp) := op_read_char inp in let '(rs, inp) := read_all n inp in (r :: rs, inp) end.

Lemma read_all_text cs inp : chars cs -> read_all (length cs) (text cs ++ inp) = ((fun c => Ok (Heap.Char c)) <$> cs, inp).
Proof.
  induction 1 as [|c cs Hc _ IH]; [reflexivity|]. simpl. rewrite text_cons, <- app_assoc, read_utf8 by exact Hc. rewrite IH. reflexivity.
Qed.

Lemma write_all_text cs out : chars cs -> foldl (fun out c => sexp_write_utf8_char c out) out cs = out ++ text cs.
Proof.
  intros Hcs. revert out. induction Hcs as [|c cs Hc _ IH]; intros out; simpl; [rewrite app_nil_r; reflexivity|].
  rewrite IH, write_utf8 by exact Hc. rewrite text_cons, app_assoc. reflexivity.
Qed.

(** [sexp_decode_utf8_char], on characters of two and three bytes, and of four. *)
Lemma strlen_app bs rest : Forall (fun b => b <> 0) bs -> strlen (bs ++ 0 :: rest) = Some (Z.of_nat (length bs)).
Proof.
  induction 1 as [|b bs Hb _ IH]; [reflexivity|]. simpl app. cbn [strlen]. replace (b =? 0) with false by lia. rewrite IH. cbn [mbind option_bind].
  simpl length. f_equal. lia.
Qed.

Lemma decode_char_literal c : is_char c -> 128 <= c -> sexp_decode_utf8_char (utf8 c ++ [0]) =
  Some (if c <? 65536 then c else c / 262144 * 65536 + c / 4096 mod 64 * 64 + c / 64 mod 64 * 64 + c mod 64).
Proof.
  intros Hc Hge. unfold sexp_decode_utf8_char. rewrite (strlen_app (utf8 c) [] ltac:(apply utf8_nonzero; [exact Hc | lia])). unfold is_char in Hc.
  assert (Hl : forall x, Z.land x 63 = x mod 64) by (intros x; apply (Z.land_ones x 6); lia).
  assert (Hl5 : forall x, Z.land x 31 = x mod 32) by (intros x; apply (Z.land_ones x 5); lia).
  assert (Hl4 : forall x, Z.land x 15 = x mod 16) by (intros x; apply (Z.land_ones x 4); lia).
  assert (Ht : forall x, (Z.shiftr (128 + x mod 64) 6 =? 2) = true).
  { intros x. rewrite Z.shiftr_div_pow2 by lia. change (2 ^ 6) with 64. pose proof (Z.mod_pos_bound x 64 ltac:(lia)). Z.to_euclidean_division_equations; lia. }
  assert (Hm : forall x, (128 + x mod 64) mod 64 = x mod 64) by (intros x; pose proof (Z.mod_pos_bound x 64 ltac:(lia)); Z.to_euclidean_division_equations; lia).
  rewrite ?Z.geb_leb.
  destruct (utf8_cases c Hc) as [(H & ->)|[(H & ->)|[(H & ->)|(H & ->)]]]; [lia| | |]; simpl;
    rewrite ?Ht, ?Hl, ?Hl5, ?Hl4, ?Hm, ?Z.shiftl_mul_pow2 by lia; change (2 ^ 6) with 64; change (2 ^ 12) with 4096; change (2 ^ 16) with 65536; simpl.
  - assert (B : 192 <= 192 + c / 64 < 224) by (Z.to_euclidean_division_equations; lia).
    replace (192 + c / 64 >=? 192) with true by lia. replace (192 + c / 64 <=? 247) with true by lia. replace (192 + c / 64 <? 224) with true by lia.
    replace (c <? 65536) with true by lia. simpl. f_equal. Z.to_euclidean_division_equations; lia.
  - assert (B : 224 <= 224 + c / 4096 < 240) by (Z.to_euclidean_division_equations; lia).
    replace (224 + c / 4096 >=? 192) with true by lia. replace (224 + c / 4096 <=? 247) with true by lia. replace (224 + c / 4096 <? 240) with true by lia.
    rewrite andb_false_r. replace (c <? 65536) with true by lia. simpl. f_equal. Z.to_euclidean_division_equations; lia.
  - assert (B : 240 <= 240 + c / 262144 < 248) by (Z.to_euclidean_division_equations; lia).
    replace (240 + c / 262144 >=? 192) with true by lia. replace (240 + c / 262144 <=? 247) with true by lia.
    rewrite !andb_false_r. replace (c <? 65536) with false by lia. simpl. f_equal. Z.to_euclidean_division_equations; lia.
Qed.

(** ** Properties *)

(** C29 (functional).  Strings are sequences of characters: the length, a reference
    at any index and the errors at the wrong ones, slices between two indices, and
    joined strings are those of the list of characters, and old strings stay. *)
Theorem strings_correct m v cs sep scs vs css : string_is m v cs -> string_is m sep scs -> Forall2 (string_is m) vs css ->
  op_string_length m v = Some (Ok (Fixnum (Z.of_nat (length cs))))
  /\ (forall i, sexp_string_utf8_index_ref m v (Fixnum i) =
      match (if 0 <=? i then cs !! Z.to_nat i else None) with
      | Some c => Some (Ok (Heap.Char c))
      | None => Some (Exn (UserExn (if i =? Z.of_nat (length cs) then "string-ref: index out of range" else "string-index->cursor: index out of range") (Fixnum i)))
      end)
  /\ (forall i j, if (0 <=? i) && (i <=? j) && (j <=? Z.of_nat (length cs)) then
        exists r m', sexp_utf8_substring_op m v (Fixnum i) (Fixnum j) = Some (Ok (r, m'))
          /\ grows m m' /\ string_is m' r (take (Z.to_nat (j - i)) (drop (Z.to_nat i) cs))
      else exists e, sexp_utf8_substring_op m v (Fixnum i) (Fixnum j) = Some (Exn e))
  /\ (exists r m', sexp_string_concatenate_op m vs sep = Some (Ok (r, m')) /\ grows m m' /\ string_is m' r (join scs css)).
Proof.
  intros Hv Hsep Hvs. split; [apply string_length_spec, Hv|]. split; [intros i; apply index_ref_spec, Hv|].
  split; [intros i j; apply utf8_substring_spec, Hv|]. apply concatenate_spec; [exact Hvs | left; exact Hsep].
Qed.

(** Indices and cursors are the same positions: the cursor of an
    index gives the index back, also that of the end, a reference at the cursor is
    one at the index, and steps forwards and backwards are those of the index. *)
Theorem cursor_index_roundtrip m v cs i : string_is m v cs -> 0 <= i <= Z.of_nat (length cs) ->
  exists cur, sexp_string_index_to_cursor m v (Fixnum i) = Some (Ok cur) /\ sexp_string_cursor_to_index m v cur = Some (Ok (Fixnum i))
  /\ (i < Z.of_nat (length cs) -> exists next,
        op_string_cursor_ref m v cur = sexp_string_utf8_index_ref m v (Fixnum i)
        /\ op_string_cursor_next m v cur = Some (Ok next)
        /\ sexp_string_index_to_cursor m v (Fixnum (i + 1)) = Some (Ok next) /\ op_string_cursor_prev m v next = Some (Ok cur)).
Proof.
  intros Hv Hi. exists (StringCursor (offset_of cs (Z.to_nat i))). rewrite !(index_to_cursor_spec m v cs) by exact Hv.
  replace ((0 <=? i) && (i <=? Z.of_nat (length cs))) with true by lia. split; [reflexivity|].
  split; [rewrite (cursor_to_index_spec m v cs) by (auto; lia); do 3 f_equal; lia|]. intros Hlt.
  destruct (lookup_lt_is_Some_2 cs (Z.to_nat i)) as [c Hc]; [lia|]. exists (StringCursor (offset_of cs (S (Z.to_nat i)))).
  rewrite (cursor_ref_spec m v cs _ c Hv Hc), (index_ref_spec m v cs i Hv), (cursor_next_spec m v cs _ c Hv Hc), (cursor_prev_spec m v cs _ c Hv Hc).
  replace (0 <=? i) with true by lia. rewrite Hc. replace ((0 <=? i + 1) && (i + 1 <=? Z.of_nat (length cs))) with true by lia.
  replace (Z.to_nat (i + 1)) with (S (Z.to_nat i)) by lia. auto.
Qed.

(** C30 (functional).  [string-set!] changes one character, whatever the lengths of
    the old one and the new one in bytes, and leaves every other string that does
    not have its buffer, or any string if the buffer is shared and so copied.  An
    index outside of the string, and an immutable string, are errors.  The string
    begins at the start of its buffer, as all do but those of [utf8->string!]. *)
Theorem string_set_correct junk m l s cs post i c :
  shows m l s [] cs post -> post <> [] -> is_char c -> (forall n, length (junk n) = n) -> Z.of_nat (length (text cs)) + 4 < 2 ^ 31 ->
  if str_immutable s then sexp_string_utf8_index_set junk m (Ptr l) (Fixnum i) (Heap.Char c) = Some (Exn (TypeExn (Ptr l)))
  else if (0 <=? i) && (i <? Z.of_nat (length cs)) then
    exists m', sexp_string_utf8_index_set junk m (Ptr l) (Fixnum i) (Heap.Char c) = Some (Ok m')
      /\ string_is m' (Ptr l) (<[Z.to_nat i := c]> cs)
      /\ forall l' s' pre' cs' post', l' <> l -> shows m l' s' pre' cs' post' ->
         sexp_string_bytes s' <> sexp_string_bytes s \/ sexp_copy_on_writep s = true -> shows m' l' s' pre' cs' post'
  else exists e, sexp_string_utf8_index_set junk m (Ptr l) (Fixnum i) (Heap.Char c) = Some (Exn e).
Proof.
  intros Hs Hpost Hc Hjunk Hsmall. pose proof (shows_string _ _ _ _ _ _ Hs) as El. unfold sexp_string_utf8_index_set, assert_string. rewrite El.
  cbn [bind mbind option_bind ret assert_fixnum assert_char]. destruct (str_immutable s) eqn:Ei; [reflexivity|].
  assert (Hv : string_is m (Ptr l) cs) by (exists l, s, [], post; auto). rewrite (index_to_cursor_spec m (Ptr l) cs i Hv).
  destruct ((0 <=? i) && (i <=? Z.of_nat (length cs))) eqn:B; cbn [bind mbind option_bind].
  2: { replace ((0 <=? i) && (i <? Z.of_nat (length cs))) with false by lia. eauto. }
  rewrite (shows_size _ _ _ _ _ _ Hs). destruct (Z.ltb_spec i (Z.of_nat (length cs))) as [Hlt|Hge].
  - replace ((0 <=? i) && true) with true by lia. pose proof (offset_of_lt cs (Z.to_nat i) (shows_chars _ _ _ _ _ _ Hs) ltac:(lia)).
    replace (offset_of cs (Z.to_nat i) >=? Z.of_nat (length (text cs))) with false by lia.
    destruct (lookup_lt_is_Some_2 cs (Z.to_nat i)) as [c0 Hc0]; [lia|].
    destruct (utf8_set_spec junk m l s [] cs post (Z.to_nat i) c0 c Hs Hc0 Hc Hjunk Hsmall Hpost ltac:(auto)) as (m' & s' & post' & E & Hs' & _ & _ & Hbufs & Hstrs).
    rewrite E. cbn [mbind option_bind]. exists m'. split; [reflexivity|]. split; [exists l, s', [], post'; auto|].
    intros l' s2 pre2 cs2 post2 Hl' [H1 H2 H3 H4 H5] Hshare. split; auto; [rewrite Hstrs; assumption|].
    destruct (sexp_copy_on_writep s) eqn:Ecow; simpl in Hbufs; [eapply lookup_weaken; [exact H2 | apply Hbufs]|].
    destruct (length (utf8 c0) =? length (utf8 c))%nat; simpl in Hbufs; [|eapply lookup_weaken; [exact H2 | apply Hbufs]].
    destruct Hbufs as (_ & _ & Hbufs). rewrite Hbufs; [exact H2|]. destruct Hshare; [assumption | discriminate].
  - replace ((0 <=? i) && false) with false by lia. replace (Z.to_nat i) with (length cs) by lia. rewrite offset_of_all.
    replace (Z.of_nat (length (text cs)) >=? Z.of_nat (length (text cs))) with true by lia. eauto.
Qed.

(** The order of strings, which the code takes from their bytes,
    is that of their characters, for strings without the character 0. *)
Theorem string_cmp_correct m v w cs ds : string_is m v cs -> string_is m w ds -> Forall (fun c => c <> 0) cs -> Forall (fun c => c <> 0) ds ->
  exists z, sexp_string_cmp_op m v w SEXP_FALSE = Some (Ok (Fixnum z)) /\ Z.sgn z = compare_chars cs ds.
Proof.
  intros (l & s & pre & post & -> & [Hs Hb Ho Hz Hcs]) (l' & s' & pre' & post' & -> & [Hs' Hb' Ho' Hz' Hds]) Zcs Zds.
  unfold sexp_string_cmp_op, assert_string, buffer. rewrite Hs, Hs'. simpl. rewrite Hb, Hb'. simpl. rewrite Ho, Ho', Hz, Hz'.
  destruct (strncmp_texts cs ds pre pre' post post' Hcs Hds Zcs Zds) as (z & E & Hsgn).
  replace (Z.to_nat _) with (min (length (text cs)) (length (text ds))) by (destruct (Z.ltb_spec (Z.of_nat (length (text cs))) (Z.of_nat (length (text ds)))); lia).
  rewrite E. simpl. eexists. split; [reflexivity | exact Hsgn].
Qed.

(** Characters that are written are read again: every list of
    characters, written to a port, is read back from it in as many steps, nothing
    behind it is touched, and a character that is looked at is still there. *)
Theorem char_io_roundtrip cs rest : chars cs ->
  read_all (length cs) (foldl (fun out c => sexp_write_utf8_char c out) [] cs ++ rest) = ((fun c => Ok (Heap.Char c)) <$> cs, rest)
  /\ forall c, is_char c -> op_peek_char (sexp_push_utf8_char c rest) = Some (Heap.Char c, sexp_push_utf8_char c rest).
Proof.
  intros Hcs. rewrite write_all_text by exact Hcs. simpl. split; [apply read_all_text, Hcs|]. intros c Hc. apply (peek_utf8 c rest Hc).
Qed.

(** A string in the middle of a bytevector, as [utf8->string!] makes it. *)
Definition inner : mem := Mem {[ 1%positive := [120; 97; 98; 0]; 2%positive := [97; 0; 98; 0]; 3%positive := [97; 0; 99; 0]; 4%positive := text [955; 97] ++ [0] ]}
  {[ 5%positive := Str 1 1 2 false false; 6%positive := Str 2 0 3 false false; 7%positive := Str 3 0 3 false false; 8%positive := Str 4 0 3 false false ]}.

Definition no_junk (n : nat) : list Z := replicate n 0.

(** C34 (error).  What the code does not mean to do.  A literal of a character beyond
    the first 65536 is read as another one.  [string-cursor-set!] never changes
    anything.  Strings that differ behind a character 0 are equal.  A string of
    [utf8->string!] is another one after a character of another length is set.  The
    count of a character of more than a byte counts at wrong places.  A step back
    from the beginning reads in front of the buffer. *)
Theorem string_faults :
  (forall c, is_char c -> 65536 <= c -> exists d, sexp_decode_utf8_char (utf8 c ++ [0]) = Some d /\ d <> c)
  /\ (forall junk m m' a1 a2 a3, op_string_set junk m a1 a2 a3 = Some (Ok m') -> m' = m)
  /\ sexp_string_cmp_op inner (Ptr 6) (Ptr 7) SEXP_FALSE = Some (Ok (Fixnum 0))
  /\ (string_is inner (Ptr 5) [97; 98]
      /\ exists m', sexp_string_utf8_index_set no_junk inner (Ptr 5) (Fixnum 0) (Heap.Char 955) = Some (Ok m')
         /\ exists e, sexp_string_utf8_index_ref m' (Ptr 5) (Fixnum 0) = Some (Exn e))
  /\ (string_is inner (Ptr 8) [955; 97] /\ sexp_string_count inner (Heap.Char 955) (Ptr 8) (Fixnum 0) SEXP_FALSE = Some (Ok (Fixnum 2)))
  /\ op_string_cursor_prev inner (Ptr 6) (StringCursor 0) = None.
Proof.
  split.
  { intros c Hc Hge. rewrite decode_char_literal by (auto; lia). replace (c <? 65536) with false by lia. eexists. split; [reflexivity|].
    unfold is_char in Hc. Z.to_euclidean_division_equations; lia. }
  split.
  { intros junk m m' a1 a2 a3. unfold op_string_set. destruct (assert_string m a1) as [[s|]|]; simpl; try discriminate.
    destruct (str_immutable s) eqn:Ei; [discriminate|]. destruct a2; simpl; try discriminate. destruct a3; simpl; try discriminate.
    destruct ((z <? 0) || (z >=? sexp_string_size s)); [discriminate|]. unfold sexp_string_utf8_index_set.
    destruct (assert_string m a1) as [[s'|]|]; simpl; try discriminate; unfold ret; congruence. }
  split; [vm_compute; reflexivity|]. split; [split|split; [split|]].
  - exists 5%positive, (Str 1 1 2 false false), [120], [0]. split; [reflexivity|]. split; try reflexivity. repeat constructor; unfold is_char; lia.
  - eexists. split; [vm_compute; reflexivity|]. eexists. vm_compute. reflexivity.
  - exists 8%positive, (Str 4 0 3 false false), [], [0]. split; [reflexivity|]. split; try reflexivity. repeat constructor; unfold is_char; lia.
  - vm_compute. reflexivity.
  - vm_compute. reflexivity.
Qed.

(** ** Witnesses *)

(** Strings of characters of one to four bytes. *)
Definition samples : mem := Mem {[ 1%positive := text [97; 955; 8364; 128512] ++ [0]; 2%positive := text [45] ++ [0] ]}
  {[ 3%positive := Str 1 0 10 false false; 4%positive := Str 2 0 1 false true ]}.

Lemma samples_shown : shows samples 3 (Str 1 0 10 false false) [] [97; 955; 8364; 128512] [0] /\ shows samples 4 (Str 2 0 1 false true) [] [45] [0].
Proof. split; (split; [reflexivity | reflexivity | reflexivity | reflexivity | repeat constructor; unfold is_char; lia]). Qed.

Lemma samples_are : string_is samples (Ptr 3) [97; 955; 8364; 128512] /\ string_is samples (Ptr 4) [45].
Proof. destruct samples_shown as [H1 H2]. split; eexists _, _, _, _; split; [reflexivity | exact H1 | reflexivity | exact H2]. Qed.

Lemma strings_correct_witness :
  exists r m', sexp_string_concatenate_op samples [Ptr 3; Ptr 3] (Ptr 4) = Some (Ok (r, m')) /\ grows samples m'
    /\ string_is m' r [97; 955; 8364; 128512; 45; 97; 955; 8364; 128512].
Proof.
  destruct samples_are as [H3 H4].
  apply (strings_correct samples (Ptr 3) [97; 955; 8364; 128512] (Ptr 4) [45] [Ptr 3; Ptr 3] [[97; 955; 8364; 128512]; [97; 955; 8364; 128512]] H3 H4).
  repeat constructor; exact H3.
Defined.

Lemma cursor_index_roundtrip_witness : exists cur, sexp_string_index_to_cursor samples (Ptr 3) (Fixnum 2) = Some (Ok cur)
  /\ sexp_string_cursor_to_index samples (Ptr 3) cur = Some (Ok (Fixnum 2)).
Proof.
  destruct (cursor_index_roundtrip samples (Ptr 3) [97; 955; 8364; 128512] 2 (proj1 samples_are) ltac:(simpl; lia)) as (cur & H1 & H2 & _). eauto.
Defined.

Lemma string_set_correct_witness : exists m', sexp_string_utf8_index_set no_junk samples (Ptr 3) (Fixnum 1) (Heap.Char 128513) = Some (Ok m')
  /\ string_is m' (Ptr 3) [97; 128513; 8364; 128512].
Proof.
  pose proof (string_set_correct no_junk samples 3 (Str 1 0 10 false false) [97; 955; 8364; 128512] [0] 1 128513 (proj1 samples_shown)
    ltac:(discriminate) ltac:(unfold is_char; lia) ltac:(intros n; apply length_replicate) ltac:(vm_compute; reflexivity)) as H.
  simpl in H. destruct H as (m' & H1 & H2 & _). exists m'. split; [exact H1 | exact H2].
Defined.

Lemma string_cmp_correct_witness : exists z, sexp_string_cmp_op samples (Ptr 3) (Ptr 4) SEXP_FALSE = Some (Ok (Fixnum z)) /\ Z.sgn z = 1.
Proof.
  apply (string_cmp_correct samples (Ptr 3) (Ptr 4) [97; 955; 8364; 128512] [45] (proj1 samples_are) (proj2 samples_are)); repeat constructor; lia.
Defined.

Lemma char_io_roundtrip_witness : read_all 2 (foldl (fun out c => sexp_write_utf8_char c out) [] [955; 128512] ++ [10]) = ([Ok (Heap.Char 955); Ok (Heap.Char 128512)], [10]).
Proof. apply (char_io_roundtrip [955; 128512] [10]). repeat constructor; unfold is_char; lia. Defined.
