(* ===== verification/HashTable.v ===== *)
(** * Hash tables

    [lib/srfi/69/hash.c], with [equal?] of [sexp.c]: the hash functions on
    strings and objects, and tables of buckets that grow as entries are added.
    A bucket is the list of its entries, which are pairs in the heap that callers
    hold and update; the pairs that make up the list belong to the table.  The
    word of a pointer or symbol is an argument, as addresses are the allocator's
    choice, and so are the hash and equivalence procedures of the user.  Symbols
    and the objects that are not pairs, vectors, strings, bytevectors or numbers
    are left out of [hash] and [equal?]. *)
From S2P Require Import Prelude Bignum Heap Sort Utf8.
From stdpp Require Import base list option gmap strings.
#[local] Open Scope Z_scope.

(** ** Bytes *)

Definition HASH_DEPTH : nat := 5.
Definition FNV_PRIME : Z := 16777619.
Definition FNV_OFFSET_BASIS : Z := 2166136261.

(** A step of the hash: a [char] is signed, and widened with its sign. *)
Definition fnv (acc x : Z) : Z := Z.lxor (u64 (acc * FNV_PRIME)) (u64 x).

Definition hash_bytes (acc : Z) (l : list Z) : Z := fold_left (fun acc c => fnv acc (swrap 8 c)) l acc.

(** The bytes of a word in memory. *)
Fixpoint le_bytes (n : nat) (z : Z) : list Z :=
  match n with O => [] | S n => z mod 256 :: le_bytes n (z / 256) end.

Definition string_bytes (s : string) : list Z := (fun c => Z.of_N (Ascii.N_of_ascii c)) <$> String.list_ascii_of_string s.

(** The data of a bytevector after the header: the length, the bytes and a zero. *)
Definition bytes_data (l : list Z) : list Z := le_bytes 8 (Z.of_nat (length l)) ++ l ++ [0].

(** The sign with its padding, the length and the limbs. *)
Definition bignum_data (b : bignum) : list Z :=
  sign b mod 256 :: replicate 7 0 ++ le_bytes 8 (Z.of_nat (length (data b))) ++ flat_map (le_bytes 8) (data b).

(** A bound of zero divides by zero. *)
Definition string_hash (str : list Z) (bound : Z) : option Z :=
  if u64 bound =? 0 then None else Some (hash_bytes FNV_OFFSET_BASIS (c_string str) mod u64 bound).

Definition string_ci_hash (str : list Z) (bound : Z) : option Z :=
  if u64 bound =? 0 then None
  else Some (fold_left (fun acc c => fnv acc (sexp_tolower c)) (c_string str) FNV_OFFSET_BASIS mod u64 bound).

(** [sexp_make_fixnum] *)
Definition make_fixnum (z : Z) : sexp := Fixnum (swrap 63 z).

Inductive hash_result := Hash (v : sexp) | HashTypeError | DividesByZero.

Definition of_hash (z : option Z) : hash_result := match z with Some z => Hash (make_fixnum z) | None => DividesByZero end.

Definition sexp_string_hash (h : heap) (str bound : sexp) : hash_result :=
  match deref h str, bound with
  | Some (Heap.String s), Fixnum bound => of_hash (string_hash (string_bytes s) bound)
  | _, _ => HashTypeError
  end.

Definition sexp_string_ci_hash (h : heap) (str bound : sexp) : hash_result :=
  match deref h str, bound with
  | Some (Heap.String s), Fixnum bound => of_hash (string_ci_hash (string_bytes s) bound)
  | _, _ => HashTypeError
  end.

(** ** Objects *)

Definition SEXP_BYTES : Z := 8.

(** [sexp_pointer_tag] *)
Definition tag_of (o : obj) : option Z :=
  match o with
  | Pair _ _ _ => Some 6 | Bytes _ _ => Some SEXP_BYTES | Heap.String _ => Some 9 | Vector _ _ => Some 10
  | BignumObj _ => Some 12 | RatioObj _ _ => Some 13
  | _ => None
  end.

(** The slots that are compared and hashed. *)
Definition slots_of (o : obj) : list sexp :=
  match o with Pair a d _ => [a; d] | Vector data _ => data | RatioObj n d => [n; d] | _ => [] end.

(** The slots of an object; the last one goes on with the hash of the object. *)
Fixpoint hash_slots (f : Z -> sexp -> option Z) (acc : Z) (l : list sexp) : option Z :=
  match l with
  | [] => Some acc
  | [x] => f acc x
  | x :: l => y ← f FNV_OFFSET_BASIS x; hash_slots f (fnv acc y) l
  end.

(** [hash_one], from the label [loop]. *)
Fixpoint hash_loop (depth : nat) (h : heap) (acc : Z) (obj : sexp) : option Z :=
  match obj with
  | Ptr l =>
      o ← h !! l;
      tag ← tag_of o;
      match depth with
      | O => Some (Z.lxor acc tag)
      | S depth =>
          match o with
          | Bytes data _ => Some (hash_bytes acc (bytes_data data))
          | BignumObj b => Some (hash_bytes acc (bignum_data b))
          | Heap.String s =>
              Some (match depth with O => Z.lxor acc SEXP_BYTES | S _ => hash_bytes acc (bytes_data (string_bytes s)) end)
          | _ => hash_slots (hash_loop depth h) acc (slots_of o)
          end
      end
  | _ => w ← immediate_word obj; Some (Z.lxor acc (u64 w))
  end.

Definition hash_one (h : heap) (obj : sexp) (bound : Z) (depth : nat) : option Z :=
  acc ← hash_loop depth h FNV_OFFSET_BASIS obj; Some (if u64 bound =? 0 then acc else acc mod u64 bound).

(** ** [equal?] *)

Definition SEXP_DEFAULT_EQUAL_DEPTH : Z := 10000.
Definition SEXP_DEFAULT_EQUAL_BOUND : Z := 100000000.

(** The type of a pointer; an immediate has none. *)
Definition type_of (h : heap) (v : sexp) : option (option Z) :=
  match v with
  | Ptr l => o ← h !! l; tag ← tag_of o; Some (Some tag)
  | Symbol _ => Some (Some 7)
  | _ => Some None
  end.

(** Pointers of one type. *)
Definition same_type (h : heap) (a b : sexp) : option bool :=
  x ← type_of h a; y ← type_of h b;
  Some (match x, y with Some x, Some y => x =? y | _, _ => false end).

(** What is not compared slot by slot, after the headers: the lengths of vectors,
    and all of the data of strings and bytevectors. *)
Definition same_data (x y : obj) : bool :=
  match x, y with
  | Vector a _, Vector b _ => (length a =? length b)%nat
  | Bytes a _, Bytes b _ => bool_decide (a = b)
  | Heap.String a, Heap.String b => (String.length a =? String.length b)%nat
  | _, _ => true
  end.

(** The slots from the last one backwards, but for the first: those that are
    the same are skipped.  [Some None]: two slots that cannot be equal. *)
Fixpoint skip_same (h : heap) (p q : list sexp) : option (option (list sexp * list sexp)) :=
  match p, q with
  | a :: ((_ :: _) as p'), b :: ((_ :: _) as q') =>
      if bool_decide (a = b) then skip_same h p' q'
      else s ← same_type h a b; Some (if s : bool then Some (p, q) else None)
  | _, _ => Some (Some (p, q))
  end.

(** The slots in order, and the last ones at the end. *)
Fixpoint equalp_slots (f : sexp -> sexp -> Z -> option (option Z)) (last : Z -> option (option Z)) (p q : list sexp) (bound : Z)
    : option (option Z) :=
  match p, q with
  | x :: p, y :: q => r ← f x y bound; match r with Some bound => equalp_slots f last p q bound | None => Some None end
  | _, _ => last bound
  end.

(** [None]: the fuel has run out, or an object is left out.  [Some None] is
    [SEXP_FALSE]. *)
Fixpoint sexp_equalp_bound (fuel : nat) (h : heap) (a b : sexp) (depth bound : Z) : option (option Z) :=
  match fuel with
  | O => None
  | S fuel =>
      if bool_decide (a = b) then Some (Some bound)
      else
        s ← same_type h a b;
        if negb s then Some None
        else
          match deref h a, deref h b with
          | Some (BignumObj x), Some (BignumObj y) => Some (if sexp_bignum_compare x y =? 0 then Some bound else None)
          | Some x, Some y =>
              if (bound <? 0) || (depth <? 0) then Some (Some bound)
              else
                let bound := bound - 1 in
                if negb (same_data x y) then Some None
                else
                  match x, y with
                  | Heap.String s, Heap.String t =>
                      Some (if bound <? 0 then Some bound else if bool_decide (s = t) then Some (bound - 1) else None)
                  | _, _ =>
                      r ← skip_same h (rev (slots_of x)) (rev (slots_of y));
                      match r with
                      | None => Some None
                      | Some (a :: p, b :: q) =>
                          equalp_slots (fun x y => sexp_equalp_bound fuel h x y (depth - 1))
                            (sexp_equalp_bound fuel h a b depth) (rev p) (rev q) bound
                      | Some _ => Some (Some bound)
                      end
                  end
          | _, _ => if (bound <? 0) || (depth <? 0) then None else Some None
          end
  end.

Definition sexp_equalp_op (fuel : nat) (h : heap) (a b : sexp) : option bool :=
  r ← sexp_equalp_bound fuel h a b SEXP_DEFAULT_EQUAL_DEPTH SEXP_DEFAULT_EQUAL_BOUND;
  Some (bool_decide (r <> None)).

(** ** Tables *)

(** [SEXP_ONE] and [SEXP_TWO] stand for the built-in functions. *)
Inductive hash_fn := FnOne | FnTwo | FnProc (p : sexp).

Record hash_table := HashTable {
  ht_buckets : list (list loc);
  ht_size : Z;
  ht_hash_fn : hash_fn;
  ht_eq_fn : hash_fn;
}.

Section tables.
(** The words of pointers and symbols; the results of the procedures of the
    user, [None] for an exception. *)
Context (address : sexp -> Z) (hash_proc : sexp -> sexp -> Z -> option sexp) (eq_proc : sexp -> sexp -> sexp -> option sexp).

Definition word_of (v : sexp) : Z := match immediate_word v with Some w => w | None => address v end.

(** [sexp_unbox_fixnum] of any word. *)
Definition unbox_word (v : sexp) : Z := Z.shiftr (s64 (word_of v)) 1.

(** A bound that is no fixnum is a bignum, whose address is then unboxed; the
    test for it is that of exact integers. *)
Definition sexp_exact_integerp (h : heap) (v : sexp) : bool :=
  match v with Fixnum _ => true | _ => match deref h v with Some (BignumObj _) => true | _ => false end end.

Definition sexp_hash (h : heap) (obj bound : sexp) : option hash_result :=
  if negb (sexp_exact_integerp h bound) then Some HashTypeError
  else z ← hash_one h obj (unbox_word bound) HASH_DEPTH; Some (Hash (make_fixnum z)).

Definition sexp_hash_by_identity (h : heap) (obj bound : sexp) : hash_result :=
  if negb (sexp_exact_integerp h bound) then HashTypeError
  else if u64 (unbox_word bound) =? 0 then DividesByZero
  else Hash (make_fixnum (u64 (word_of obj) mod u64 (unbox_word bound))).

(** The index of the bucket, unboxed. *)
Definition sexp_get_bucket (h : heap) (len : nat) (fn : hash_fn) (obj : sexp) : option Z :=
  match fn with
  | FnOne => match sexp_hash_by_identity h obj (Fixnum (Z.of_nat len)) with Hash v => Some (unbox_word v) | _ => None end
  | FnTwo => r ← sexp_hash h obj (Fixnum (Z.of_nat len)); match r with Hash v => Some (unbox_word v) | _ => None end
  | FnProc p =>
      match hash_proc p obj (Z.of_nat len) with
      | None => Some 0
      | Some res => Some (if u64 (unbox_word res) >=? Z.of_nat len then 0 else unbox_word res)
      end
  end.

(** Whether a key is that of an entry.  The exception of a procedure is an
    object and so is true. *)
Definition test_key (fuel : nat) (h : heap) (fn : hash_fn) (key obj : sexp) : option bool :=
  match fn with
  | FnOne => Some (bool_decide (key = obj))
  | FnTwo =>
      if sexp_pointerp obj then
        if sexp_symbolp obj then Some (bool_decide (key = obj)) else sexp_equalp_op fuel h key obj
      else if negb (sexp_fixnump obj) then Some (bool_decide (key = obj)) else sexp_equalp_op fuel h key obj
  | FnProc p => Some (match eq_proc p key obj with Some v => sexp_truep v | None => true end)
  end.

(** The position of the entry in the bucket. *)
Fixpoint sexp_scan_bucket (fuel : nat) (h : heap) (ls : list loc) (obj : sexp) (fn : hash_fn) : option (option nat) :=
  match ls with
  | [] => Some None
  | e :: ls =>
      key ← sexp_car h (Ptr e);
      b ← test_key fuel h fn key obj;
      if b : bool then Some (Some O) else r ← sexp_scan_bucket fuel h ls obj fn; Some (option_map S r)
  end.

(** Every entry is pushed on its new bucket. *)
Definition regrow_entry (h : heap) (fn : hash_fn) (new : list (list loc)) (e : loc) : option (list (list loc)) :=
  key ← sexp_car h (Ptr e);
  j ← sexp_get_bucket h (length new) fn key;
  ls ← new !! Z.to_nat j;
  Some (<[Z.to_nat j := e :: ls]> new).

Fixpoint regrow_entries (h : heap) (fn : hash_fn) (new : list (list loc)) (ls : list loc) : option (list (list loc)) :=
  match ls with
  | [] => Some new
  | e :: ls => new ← regrow_entry h fn new e; regrow_entries h fn new ls
  end.

Definition sexp_regrow_hash_table (h : heap) (ht : hash_table) : option hash_table :=
  let old := ht_buckets ht in
  new ← regrow_entries h (ht_hash_fn ht) (replicate (length old * 2) []) (concat old);
  Some (HashTable new (ht_size ht) (ht_hash_fn ht) (ht_eq_fn ht)).

Definition sexp_hash_resize_check (n : Z) (len : nat) : bool := n * 3 >? Z.shiftr (Z.of_nat len) 2.

(** The entry of [obj], which is added if there is none and [createp] is true. *)
Definition sexp_hash_table_cell (fuel : nat) (h : heap) (ht : hash_table) (obj createp : sexp)
    : option (sexp * heap * hash_table) :=
  i ← sexp_get_bucket h (length (ht_buckets ht)) (ht_hash_fn ht) obj;
  ls ← ht_buckets ht !! Z.to_nat i;
  r ← sexp_scan_bucket fuel h ls obj (ht_eq_fn ht);
  match r with
  | Some k => e ← ls !! k; Some (Ptr e, h, ht)
  | None =>
      if sexp_truep createp then
        let size := ht_size ht in
        '(ht, i) ←
          (if sexp_hash_resize_check size (length (ht_buckets ht)) then
             ht ← sexp_regrow_hash_table h ht;
             i ← sexp_get_bucket h (length (ht_buckets ht)) (ht_hash_fn ht) obj;
             Some (ht, i)
           else Some (ht, i));
        ls ← ht_buckets ht !! Z.to_nat i;
        let e := fresh (dom h) in
        Some (Ptr e, <[e := Pair obj createp false]> h,
              HashTable (<[Z.to_nat i := e :: ls]> (ht_buckets ht)) (size + 1) (ht_hash_fn ht) (ht_eq_fn ht))
      else Some (SEXP_FALSE, h, ht)
  end.

Definition sexp_hash_table_delete (fuel : nat) (h : heap) (ht : hash_table) (obj : sexp) : option hash_table :=
  i ← sexp_get_bucket h (length (ht_buckets ht)) (ht_hash_fn ht) obj;
  ls ← ht_buckets ht !! Z.to_nat i;
  r ← sexp_scan_bucket fuel h ls obj (ht_eq_fn ht);
  match r with
  | Some k =>
      Some (HashTable (<[Z.to_nat i := take k ls ++ drop (S k) ls]> (ht_buckets ht)) (ht_size ht - 1)
              (ht_hash_fn ht) (ht_eq_fn ht))
  | None => Some ht
  end.

(** *** The interface *)

(** [#f] is no pair, and a function may raise an exception. *)
Inductive outcome := Returns (v : sexp) | Raises.

(** Numbers of the procedures as in the table. *)
Definition make_hash_table (eq_fn hash_fn : hash_fn) : hash_table := HashTable (replicate 23 []) 0 hash_fn eq_fn.

Definition hash_table_ref_default (fuel : nat) (h : heap) (ht : hash_table) (key default : sexp) : option (sexp * heap * hash_table) :=
  '(cell, h, ht) ← sexp_hash_table_cell fuel h ht key SEXP_FALSE;
  if sexp_truep cell then v ← sexp_cdr h cell; Some (v, h, ht) else Some (default, h, ht).

Definition hash_table_exists (fuel : nat) (h : heap) (ht : hash_table) (key : sexp) : option (bool * heap * hash_table) :=
  '(cell, h, ht) ← sexp_hash_table_cell fuel h ht key SEXP_FALSE; Some (sexp_truep cell, h, ht).

Definition hash_table_set (fuel : nat) (h : heap) (ht : hash_table) (key value : sexp) : option (heap * hash_table) :=
  '(cell, h, ht) ← sexp_hash_table_cell fuel h ht key SEXP_TRUE; h ← sexp_set_cdr h cell value; Some (h, ht).

Definition and_then (r : outcome) (f : sexp -> outcome) : outcome := match r with Returns v => f v | Raises => Raises end.

(** [not_found] is a pair of the library.  [o] are the optional arguments: what the
    procedure for keys that are not there returns, and one for old values. *)
Definition hash_table_update (not_found : sexp) (fuel : nat) (h : heap) (ht : hash_table) (key : sexp) (func : sexp -> outcome)
    (o : option (outcome * option (sexp -> outcome))) : option (outcome * heap * hash_table) :=
  '(cell, h, ht) ← sexp_hash_table_cell fuel h ht key not_found;
  old ← sexp_cdr h cell;
  let res :=
    if bool_decide (not_found = old) then
      match o with Some (r, _) => and_then r func | None => Raises end
    else
      and_then (match o with Some (_, Some success) => success old | _ => Returns old end) func in
  match res with
  | Returns v => h ← sexp_set_cdr h cell v; Some (Returns SEXP_VOID, h, ht)
  | Raises => Some (Raises, h, ht)
  end.

Definition hash_table_update_default (not_found : sexp) (fuel : nat) (h : heap) (ht : hash_table) (key : sexp) (func : sexp -> outcome)
    (default : sexp) : option (outcome * heap * hash_table) :=
  '(cell, h, ht) ← sexp_hash_table_cell fuel h ht key not_found;
  old ← sexp_cdr h cell;
  match func (if bool_decide (not_found = old) then default else old) with
  | Returns v => h ← sexp_set_cdr h cell v; Some (Returns SEXP_VOID, h, ht)
  | Raises => Some (Raises, h, ht)
  end.

(** From the last bucket to the first. *)
Fixpoint fold_entries {A} (h : heap) (kons : sexp -> sexp -> A -> option A) (ls : list loc) (acc : A) : option A :=
  match ls with
  | [] => Some acc
  | e :: ls => k ← sexp_car h (Ptr e); v ← sexp_cdr h (Ptr e); acc ← kons k v acc; fold_entries h kons ls acc
  end.

Definition hash_table_fold {A} (h : heap) (ht : hash_table) (kons : sexp -> sexp -> A -> option A) (knil : A) : option A :=
  fold_entries h kons (concat (rev (ht_buckets ht))) knil.

Definition hash_table_to_alist (h : heap) (ht : hash_table) : option (list (sexp * sexp)) :=
  hash_table_fold h ht (fun k v acc => Some ((k, v) :: acc)) [].

Fixpoint alist_to_hash_table (fuel : nat) (ls : list (sexp * sexp)) (h : heap) (res : hash_table) : option (heap * hash_table) :=
  match ls with
  | [] => Some (h, res)
  | (k, v) :: ls => '(h, res) ← hash_table_set fuel h res k v; alist_to_hash_table fuel ls h res
  end.

(** The entries of [b] are not those of [a], and stay as they are. *)
Definition hash_table_merge (fuel : nat) (h : heap) (a b : hash_table) : option (heap * hash_table) :=
  hash_table_fold h b
    (fun k v '(h, a) => '(there, h, a) ← hash_table_exists fuel h a k; if there : bool then Some (h, a) else hash_table_set fuel h a k v)
    (h, a).

Definition hash_table_copy (fuel : nat) (h : heap) (table : hash_table) : option (heap * hash_table) :=
  hash_table_merge fuel h (make_hash_table (ht_eq_fn table) (ht_hash_fn table)) table.
End tables.
