(* ===== verification/Equal.v ===== *)
(** * [equal?] is equality of structure

    Objects that are not circular stand for trees, and [equal?] holds of two of
    them if they stand for the same tree, within the depth and the number of
    comparisons at which it gives up.  Objects that are [equal?] have the same
    hash. *)
From S2P Require Import Prelude Limbs Bignum Heap Sort HashTable.
From stdpp Require Import base list option gmap strings.
#[local] Open Scope Z_scope.

(** ** Equal objects have equal hashes *)

(** Bignums without limbs of zero at the end, one for each number. *)
Definition trimmed (b : bignum) : Prop := Bignum.wf b /\ last (data b) <> Some 0.

Definition trimmed_heap (h : heap) : Prop := forall l b, h !! l = Some (BignumObj b) -> trimmed b.

(** The same, as a test. *)
Definition trimmed_object (o : obj) : bool :=
  match o with
  | BignumObj b =>
      ((sign b =? 1) || (sign b =? -1)) && match last (data b) with Some z => negb (z =? 0) | None => false end
      && forallb (fun z => (0 <=? z) && (z <? 2 ^ 64)) (data b)
  | _ => true
  end.

Lemma trimmed_heap_test h : forallb (fun lo => trimmed_object lo.2) (map_to_list h) = true -> trimmed_heap h.
Proof.
  intros H l b Hl. rewrite forallb_forall in H. specialize (H (l, BignumObj b) ltac:(apply list_elem_of_In, elem_of_map_to_list, Hl)). simpl in H.
  apply andb_true_iff in H as [H Hf]. apply andb_true_iff in H as [Hs Hd]. rewrite forallb_forall in Hf.
  split; [split; [lia|]; split|].
  - intros E. rewrite E in Hd. discriminate.
  - apply Forall_forall. intros z Hz. apply list_elem_of_In, Hf in Hz. unfold is_u. lia.
  - intros E. rewrite E in Hd. discriminate.
Qed.

Lemma dval_last_pos l : limbs l -> l <> [] -> last l <> Some 0 -> 0 < dval l.
Proof.
  intros Hl Hne Hlast. pose proof (dval_nonneg l Hl). destruct (Z.eq_dec (dval l) 0) as [E|?]; [|lia].
  apply dval_zero_all in E; [|exact Hl]. exfalso. apply Hlast. rewrite E. destruct (exists_last Hne) as (l' & x & ->).
  rewrite length_app, Nat.add_comm. cbn [length Nat.add]. rewrite <- (Nat.add_1_r (length l')), replicate_add, last_app. reflexivity.
Qed.

Lemma dval_unique l : forall l', limbs l -> limbs l' -> last l <> Some 0 -> last l' <> Some 0 -> dval l = dval l' -> l = l'.
Proof.
  induction l as [|x l IH]; intros [|y l'] Hl Hl' H H' E; [reflexivity | | |].
  - pose proof (dval_last_pos (y :: l') Hl' ltac:(discriminate) H'). simpl (dval []) in E. lia.
  - pose proof (dval_last_pos (x :: l) Hl ltac:(discriminate) H). simpl (dval []) in E. lia.
  - rewrite !dval_cons in E. apply Forall_cons in Hl as [Hx Hl]. apply Forall_cons in Hl' as [Hy Hl'].
    unfold is_u in *. assert (Exy : x = y /\ dval l = dval l') by lia. destruct Exy as [-> El]. f_equal.
    assert (Htail : forall k m, last (k :: m : list Z) <> Some 0 -> last m <> Some 0) by (intros k [|z m] Hm; [discriminate | exact Hm]).
    apply IH; eauto.
Qed.

Lemma compare_unique x y : trimmed x -> trimmed y -> sexp_bignum_compare x y = 0 -> x = y.
Proof.
  intros [Hx Lx] [Hy Ly] E. pose proof (compare_abs_spec x y Hx Hy) as Hs. destruct Hx as (Sx & _ & Hx). destruct Hy as (Sy & _ & Hy).
  unfold sexp_bignum_compare in E. destruct (Z.eqb_spec (sign x) (sign y)) as [Es|]; simpl in E; [|lia].
  assert (E' : sexp_bignum_compare_abs x y = 0) by (destruct (sign x <? 0); lia). rewrite E' in Hs. simpl in Hs.
  assert (Em : mag x = mag y) by lia. destruct x as [sx dx], y as [sy dy]. simpl in *. subst sy. f_equal. apply dval_unique; assumption.
Qed.

(** The bound only gets smaller. *)
Lemma equalp_slots_le f last : (forall x y bound r, f x y bound = Some (Some r) -> r <= bound) ->
  (forall bound r, last bound = Some (Some r) -> r <= bound) ->
  forall p q bound r, equalp_slots f last p q bound = Some (Some r) -> r <= bound.
Proof.
  intros Hf Hl. induction p as [|x p IH]; intros q bound r; [apply Hl|]. destruct q as [|y q]; [apply Hl|]. cbn [equalp_slots].
  destruct (f x y bound) as [[b|]|] eqn:E; simpl; [|discriminate | discriminate]. intros H. apply IH in H. apply Hf in E. lia.
Qed.

Lemma equalp_le fuel : forall h a b depth bound r, sexp_equalp_bound fuel h a b depth bound = Some (Some r) -> r <= bound.
Proof.
  induction fuel as [|fuel IH]; intros h a b depth bound r; [discriminate|]. cbn [sexp_equalp_bound].
  case_bool_decide; [intros [= <-]; lia|]. destruct (same_type h a b) as [[]|]; simpl; [|discriminate | discriminate].
  destruct (deref h a) as [x|]; [|destruct (_ || _); discriminate].
  destruct (deref h b) as [y|]; [|destruct x, (_ || _); discriminate].
  assert (Hrest : forall o, match o with
      | None => Some None
      | Some (a :: p, b :: q) => equalp_slots (fun x y => sexp_equalp_bound fuel h x y (depth - 1)) (sexp_equalp_bound fuel h a b depth) (rev p) (rev q) (bound - 1)
      | Some _ => Some (Some (bound - 1)) end = Some (Some r) -> r <= bound).
  { intros [[[|a' p] q]|]; [intros [= <-]; lia | | discriminate]. destruct q as [|b' q]; [intros [= <-]; lia|].
    intros Hs. apply equalp_slots_le in Hs; [lia | |]; intros *; apply IH. }
  destruct x, y; try (destruct (_ || _); [intros [= <-]; lia|]; destruct (same_data _ _); cbn [negb]; [|discriminate];
    let res := fresh "res" in destruct (skip_same _ _ _) as [res|]; [exact (Hrest res) | discriminate]).
  - destruct (_ || _); [intros [= <-]; lia|]. destruct (same_data _ _); simpl; [|discriminate].
    destruct (_ <? 0); [intros [= <-]; lia|]. case_bool_decide; [intros [= <-]; lia | discriminate].
  - destruct (_ =? 0); [intros [= <-]; lia | discriminate].
Qed.

Lemma skip_same_cons h a a2 p b b2 q : skip_same h (a :: a2 :: p) (b :: b2 :: q) =
  if bool_decide (a = b) then skip_same h (a2 :: p) (b2 :: q)
  else s ← same_type h a b; Some (if s : bool then Some (a :: a2 :: p, b :: b2 :: q) else None).
Proof. reflexivity. Qed.

Lemma skip_same_spec h : forall p q p' q', length p = length q -> skip_same h p q = Some (Some (p', q')) ->
  exists tl, p = tl ++ p' /\ q = tl ++ q' /\ length p' = length q'.
Proof.
  induction p as [|a p IH]; intros q p' q' Hlen; [intros [= <- <-]; exists []; auto|].
  destruct q as [|b q]; [discriminate|]. injection Hlen as Hlen.
  destruct p as [|a2 p]; [intros [= <- <-]; exists []; simpl; auto|]. destruct q as [|b2 q]; [discriminate|].
  rewrite skip_same_cons. case_bool_decide as E.
  - subst b. intros H. apply IH in H as (tl & -> & -> & Hl); [|exact Hlen]. exists (a :: tl). auto.
  - destruct (same_type h a b) as [[]|]; simpl; [|discriminate | discriminate]. intros [= <- <-]. exists []. simpl. auto.
Qed.

Lemma hash_slots_eq f : forall p q acc, Forall2 (fun x y => forall acc, f acc x = f acc y) p q -> hash_slots f acc p = hash_slots f acc q.
Proof.
  intros p q acc HF. revert acc. induction HF as [|x y p q Hxy HF IH]; intros acc; [reflexivity|].
  destruct HF as [|x2 y2 p q H2 H]; [apply Hxy|]. cbn [hash_slots]. rewrite Hxy.
  destruct (f FNV_OFFSET_BASIS y) as [z|]; [apply IH | reflexivity].
Qed.

Lemma equalp_slots_spec (R : sexp -> sexp -> Prop) f last p q bound r : length p = length q ->
  (forall x y bound r, f x y bound = Some (Some r) -> r <= bound) -> (forall bound r, last bound = Some (Some r) -> r <= bound) ->
  (forall x y bound r, f x y bound = Some (Some r) -> 0 <= r -> R x y) ->
  equalp_slots f last p q bound = Some (Some r) -> 0 <= r -> Forall2 R p q /\ exists bound, last bound = Some (Some r).
Proof.
  intros Hlen Hf Hl HR. revert q bound Hlen. induction p as [|x p IH]; intros [|y q] bound Hlen; try discriminate; [eauto|]. injection Hlen as Hlen.
  cbn [equalp_slots]. destruct (f x y bound) as [[b|]|] eqn:E; simpl; [|discriminate | discriminate]. intros H Hr.
  destruct (IH q b Hlen H Hr) as [HF HL]. split; [|exact HL]. constructor; [|exact HF].
  apply (HR x y bound b E). apply equalp_slots_le in H; [lia | exact Hf | exact Hl].
Qed.

Definition same_hash (n : nat) (h : heap) (a b : sexp) : Prop := forall acc, hash_loop n h acc a = hash_loop n h acc b.

Lemma type_of_ptr h v o : deref h v = Some o -> type_of h v = (tag ← tag_of o; Some (Some tag)).
Proof. destruct v; try discriminate. simpl. intros ->. reflexivity. Qed.

(** Two objects of one type, slot by slot. *)
Lemma equalp_slots_hash fuel h x y n depth bound r :
  (forall n a b depth bound r, sexp_equalp_bound fuel h a b depth bound = Some (Some r) -> 0 <= r -> Z.of_nat n <= Z.max 0 (depth + 1) -> same_hash n h a b) ->
  length x = length y -> Z.of_nat (S n) <= depth + 1 -> 0 <= r ->
  (o ← skip_same h (rev x) (rev y);
   match o with
   | None => Some None
   | Some (a :: p, b :: q) => equalp_slots (fun x y => sexp_equalp_bound fuel h x y (depth - 1)) (sexp_equalp_bound fuel h a b depth) (rev p) (rev q) bound
   | Some _ => Some (Some bound)
   end) = Some (Some r) -> forall acc, hash_slots (hash_loop n h) acc x = hash_slots (hash_loop n h) acc y.
Proof.
  intros IH Hlen Hn Hr. destruct (skip_same h (rev x) (rev y)) as [o|] eqn:E; simpl; [|discriminate]. destruct o as [[p q]|]; [|discriminate].
  apply skip_same_spec in E as (tl & Ex & Ey & Hl); [|rewrite !length_rev; exact Hlen].
  apply (f_equal (@rev sexp)) in Ex, Ey. rewrite rev_involutive, rev_app_distr in Ex, Ey.
  intros H acc. apply hash_slots_eq. rewrite Ex, Ey. apply Forall2_app; [|apply Forall2_same_length_lookup_2; [reflexivity|]; intros i a b Ha Hb acc'; congruence].
  destruct p as [|a p], q as [|b q]; try discriminate; [constructor|]. injection Hl as Hl. simpl.
  apply (equalp_slots_spec (same_hash n h)) in H as [HF [bound' HL]];
    [ | rewrite !length_rev; exact Hl | intros *; apply equalp_le | intros *; apply equalp_le | | exact Hr].
  - apply Forall2_app; [exact HF | constructor; [|constructor]]. apply (IH n a b depth bound' r HL Hr). lia.
  - intros u v bd r' E' Hr'. apply (IH n u v (depth - 1) bd r' E' Hr'). lia.
Qed.

Lemma equalp_hash h : trimmed_heap h -> forall fuel n a b depth bound r,
  sexp_equalp_bound fuel h a b depth bound = Some (Some r) -> 0 <= r -> Z.of_nat n <= Z.max 0 (depth + 1) -> same_hash n h a b.
Proof.
  intros Ht. induction fuel as [|fuel IH]; intros n a b depth bound r H Hr Hn acc; [discriminate|]. cbn [sexp_equalp_bound] in H.
  case_bool_decide as Eab; [subst b; reflexivity|].
  destruct (same_type h a b) as [[]|] eqn:Es; simpl in H; [|discriminate | discriminate].
  destruct (deref h a) as [x|] eqn:Ea; [|destruct (_ || _); discriminate].
  destruct (deref h b) as [y|] eqn:Eb; [|destruct x, (_ || _); discriminate].
  destruct a as [| | | | | | | | | | | |la]; try discriminate Ea. destruct b as [| | | | | | | | | | | |lb]; try discriminate Eb. simpl in Ea, Eb.
  unfold same_type in Es. simpl in Es. rewrite Ea, Eb in Es. simpl in Es.
  destruct (tag_of x) as [tx|] eqn:Ex; [|discriminate]. destruct (tag_of y) as [ty|] eqn:Ey; [|discriminate]. injection Es as Es.
  apply Z.eqb_eq in Es. subst ty.
  destruct n as [|n]; cbn [hash_loop]; rewrite Ea, Eb; simpl; rewrite Ex, Ey; simpl; [reflexivity|].
  assert (Hd : (depth <? 0) = false) by lia. assert (Hn' : Z.of_nat (S n) <= depth + 1) by lia.
  destruct x, y; simpl in Ex, Ey; try discriminate; try (unfold SEXP_BYTES in *; exfalso; congruence); rewrite ?Hd, ?orb_false_r in H.
  - destruct (bound <? 0) eqn:Eb'; [exfalso; injection H as <-; lia|]. simpl in H.
    exact (equalp_slots_hash fuel h [car; cdr] [car0; cdr0] n depth (bound - 1) r IH eq_refl Hn' Hr H acc).
  - destruct (bound <? 0) eqn:Eb'; [exfalso; injection H as <-; lia|].
    destruct (same_data (Vector data immutable) (Vector data0 immutable0)) eqn:Esd; simpl in H; [|discriminate]. simpl in Esd. apply Nat.eqb_eq in Esd.
    exact (equalp_slots_hash fuel h data data0 n depth (bound - 1) r IH Esd Hn' Hr H acc).
  - destruct (bound <? 0) eqn:Eb'; [exfalso; injection H as <-; lia|].
    destruct (same_data (Bytes data immutable) (Bytes data0 immutable0)) eqn:Esd; simpl in H; [|discriminate]. simpl in Esd.
    apply bool_decide_eq_true in Esd. subst data0. reflexivity.
  - destruct (bound <? 0) eqn:Eb'; [exfalso; injection H as <-; lia|]. destruct (same_data _ _); simpl in H; [|discriminate].
    destruct (bound - 1 <? 0) eqn:Eb1; [exfalso; injection H as <-; lia|]. case_bool_decide as Est; [subst; reflexivity | discriminate].
  - destruct (sexp_bignum_compare b b0 =? 0) eqn:Ec; [|discriminate]. apply Z.eqb_eq in Ec.
    rewrite (compare_unique b b0) by eauto. reflexivity.
  - destruct (bound <? 0) eqn:Eb'; [exfalso; injection H as <-; lia|]. simpl in H.
    exact (equalp_slots_hash fuel h [num; den] [num0; den0] n depth (bound - 1) r IH eq_refl Hn' Hr H acc).
Qed.

(** ** Trees *)

Inductive datum :=
| Atom (v : sexp)
| Node (tag : Z) (slots : list datum)
| Octets (l : list Z)
| Text (s : string)
| Number (b : bignum).

#[export] Instance bignum_eq_dec : EqDecision bignum.
Proof. solve_decision. Defined.

#[export] Instance datum_eq_dec : EqDecision datum.
Proof.
  refine (fix go x y {struct x} : {x = y} + {x <> y} := _). destruct x, y; try (right; discriminate).
  - destruct (decide (v = v0)); [left | right]; congruence.
  - destruct (decide (tag = tag0)); [|right; congruence]. destruct (@list_eq_dec datum go slots slots0); [left | right]; congruence.
  - destruct (decide (l = l0)); [left | right]; congruence.
  - destruct (decide (s = s0)); [left | right]; congruence.
  - destruct (decide (b = b0)); [left | right]; congruence.
Defined.

(** The tree of an object, [n] objects deep at most. *)
Fixpoint datum_of (n : nat) (h : heap) (v : sexp) : option datum :=
  match v, n with
  | Ptr _, O => None
  | Ptr l, S n =>
      o ← h !! l;
      match o with
      | BignumObj b => Some (Number b)
      | Bytes data _ => Some (Octets data)
      | Heap.String s => Some (Text s)
      | _ => tag ← tag_of o; ds ← mapM (datum_of n h) (slots_of o); Some (Node tag ds)
      end
  | _, _ => Some (Atom v)
  end.

(** The comparisons of a tree with itself, at most. *)
Fixpoint weight (d : datum) : Z :=
  match d with
  | Node _ ds => 1 + foldr (fun d z => weight d + z) 0 ds
  | Text _ => 2
  | Atom _ | Number _ => 0
  | Octets _ => 1
  end.

Definition weights (ds : list datum) : Z := foldr (fun d z => weight d + z) 0 ds.

Lemma weight_nonneg d : 0 <= weight d.
Proof.
  revert d. fix IH 1. intros [v|tag ds|l|s|b]; simpl; try lia.
  assert (0 <= foldr (fun d z => weight d + z) 0 ds); [|lia]. induction ds as [|d ds IHds]; simpl; [lia|]. specialize (IH d). lia.
Qed.

Lemma weights_app xs ys : weights (xs ++ ys) = weights xs + weights ys.
Proof. induction xs as [|x xs IH]; simpl; [reflexivity|]. unfold weights in *. lia. Qed.

Lemma compare_self b : Bignum.wf b -> sexp_bignum_compare b b = 0.
Proof.
  intros Hb. pose proof (compare_abs_spec b b Hb Hb) as Hs. rewrite Z.sub_diag in Hs. apply (proj1 (Z.sgn_null_iff _)) in Hs.
  unfold sexp_bignum_compare. rewrite Z.eqb_refl, Hs. simpl. destruct (sign b <? 0); reflexivity.
Qed.

(** A comparison decides whether two trees are the same, and does not use up more
    than the weight of the first. *)
Definition decides {A} `{EqDecision A} (x y : A) (least : Z) (res : option (option Z)) : Prop :=
  exists r, least <= r /\ res = Some (if decide (x = y) then Some r else None).

Lemma decides_same {A} `{EqDecision A} (x : A) least r : least <= r -> decides x x least (Some (Some r)).
Proof. intros H. exists r. split; [exact H|]. rewrite decide_True by reflexivity. reflexivity. Qed.

Lemma decides_differ {A} `{EqDecision A} (x y : A) least : x <> y -> decides x y least (Some None).
Proof. intros H. exists least. split; [lia|]. rewrite decide_False by exact H. reflexivity. Qed.

Lemma decides_iff {A B} `{EqDecision A} `{EqDecision B} (x y : A) (u v : B) least least' res : (x = y <-> u = v) -> least' <= least ->
  decides x y least res -> decides u v least' res.
Proof.
  intros Hiff Hle (r & Hr & ->). exists r. split; [lia|]. destruct (decide (x = y)), (decide (u = v)); tauto || reflexivity.
Qed.

Lemma mapM_cons_some {A B} (f : A -> option B) x l ys : mapM f (x :: l) = Some ys ->
  exists y ys', f x = Some y /\ mapM f l = Some ys' /\ ys = y :: ys'.
Proof.
  simpl. destruct (f x) as [y|]; [|discriminate]. simpl. destruct (mapM f l) as [ys'|]; [|discriminate]. intros [= <-]. eauto.
Qed.

Lemma equalp_slots_decides (D : sexp -> option datum) f last lx ly : forall p q xs ys bound,
  mapM D p = Some xs -> mapM D q = Some ys -> length p = length q ->
  (forall x y dx dy b, D x = Some dx -> D y = Some dy -> weight dx <= b -> decides dx dy (b - weight dx) (f x y b)) ->
  (forall b, weight lx <= b -> decides lx ly (b - weight lx) (last b)) ->
  weights xs + weight lx <= bound ->
  decides (xs ++ [lx]) (ys ++ [ly]) (bound - weights xs - weight lx) (equalp_slots f last p q bound).
Proof.
  intros p. induction p as [|x p IH]; intros [|y q] xs ys bound Hx Hy Hlen Hf Hl Hb; try discriminate.
  - injection Hx as <-. injection Hy as <-. simpl in *. eapply decides_iff; [| |apply Hl; lia]; [split; congruence | unfold weights; simpl; lia].
  - apply mapM_cons_some in Hx as (dx & xs' & Ex & Ep & ->). apply mapM_cons_some in Hy as (dy & ys' & Ey & Eq & ->). injection Hlen as Hlen. unfold weights in Hb. simpl in Hb. fold (weights xs') in Hb.
    pose proof (weight_nonneg dx) as Hdx. pose proof (weight_nonneg lx).
    assert (Hws : 0 <= weights xs') by (clear; induction xs' as [|d l IH]; unfold weights in *; simpl; [lia | pose proof (weight_nonneg d); lia]).
    destruct (Hf x y dx dy bound Ex Ey ltac:(lia)) as (r & Hr & E). cbn [equalp_slots]. rewrite E. simpl.
    unfold weights. simpl. fold (weights xs'). destruct (decide (dx = dy)) as [->|Hne]; [|apply decides_differ; congruence].
    eapply decides_iff; [| |apply (IH q xs' ys' r); auto; lia]; [split; [intros ->; reflexivity | congruence] | lia].
Qed.

Definition type_tag (d : datum) : option Z :=
  match d with
  | Atom (Symbol _) => Some 7 | Atom _ => None
  | Node tag _ => Some tag | Octets _ => Some SEXP_BYTES | Text _ => Some 9 | Number _ => Some 12
  end.

Lemma datum_atom n h v : (forall l, v <> Ptr l) -> datum_of n h v = Some (Atom v).
Proof. intros H. destruct v; try (destruct n; reflexivity). congruence. Qed.

Lemma type_of_datum n h v d : datum_of n h v = Some d -> type_of h v = Some (type_tag d).
Proof.
  destruct v; try (destruct n; intros [= <-]; reflexivity). destruct n as [|n]; [discriminate|]. cbn [datum_of type_of].
  destruct (h !! l) as [o|]; [|discriminate]. simpl.
  destruct o; simpl; try discriminate; try (intros [= <-]; reflexivity); intros H;
    match type of H with context [?m ≫= (fun ds : list datum => _)] => destruct m as [ds'|]; [|discriminate] end; injection H as <-; reflexivity.
Qed.

Lemma ptr_datum n h l d : datum_of n h (Ptr l) = Some d -> is_Some (h !! l) /\ exists t, type_tag d = Some t /\ t <> 7.
Proof.
  destruct n as [|n]; [discriminate|]. cbn [datum_of]. destruct (h !! l) as [o|]; [|discriminate]. simpl. intros H. split; [eauto|].
  destruct o; simpl in H; try discriminate; try (injection H as <-; simpl; eexists; split; [reflexivity | discriminate]);
    match type of H with context [?m ≫= (fun ds : list datum => _)] => destruct m as [ds'|]; [|discriminate] end; injection H as <-;
    eexists; (split; [reflexivity | discriminate]).
Qed.

(** Objects of two types are not the same tree. *)
Lemma same_type_datum n h a b da db : datum_of n h a = Some da -> datum_of n h b = Some db -> a <> b ->
  exists s, same_type h a b = Some s /\ match s with
    | false => da <> db
    | true => is_Some (deref h a) /\ is_Some (deref h b) /\ type_tag da = type_tag db \/ deref h a = None /\ deref h b = None /\ da <> db
    end.
Proof.
  intros Ha Hb Hne. unfold same_type. rewrite (type_of_datum _ _ _ _ Ha), (type_of_datum _ _ _ _ Hb). simpl. eexists. split; [reflexivity|].
  assert (Hv : forall v d, datum_of n h v = Some d ->
    (is_Some (deref h v) /\ exists t, type_tag d = Some t /\ t <> 7) \/ (deref h v = None /\ d = Atom v)).
  { intros v d Hd. destruct v; try (right; destruct n; injection Hd as <-; split; reflexivity). left. apply ptr_datum in Hd. exact Hd. }
  destruct (Hv a da Ha) as [(Sa & ta & Ta & Na)|[Sa ->]], (Hv b db Hb) as [(Sb & tb & Tb & Nb)|[Sb ->]].
  - rewrite Ta, Tb. destruct (Z.eqb_spec ta tb) as [->|]; [auto | congruence].
  - rewrite Ta. assert (Hd : da <> Atom b) by (intros ->; destruct b; simpl in Ta; congruence).
    destruct b; try exact Hd. simpl. destruct (Z.eqb_spec ta 7); [contradiction | exact Hd].
  - rewrite Tb. assert (Hd : Atom a <> db) by (intros <-; destruct a; simpl in Tb; congruence).
    destruct a; try exact Hd; unfold type_tag. destruct (Z.eqb_spec 7 tb); [congruence | exact Hd].
  - destruct a, b; simpl; try congruence. right. split; [reflexivity|]. split; [reflexivity|]. congruence.
Qed.

(** The slots that are skipped are the same, and two that differ in type are not. *)
Lemma skip_same_datum n h : forall p q xs ys, mapM (datum_of n h) p = Some xs -> mapM (datum_of n h) q = Some ys -> length p = length q ->
  exists o, skip_same h p q = Some o /\ match o with
    | None => xs <> ys
    | Some (p', q') => exists tl, p = tl ++ p' /\ q = tl ++ q' /\ length p' = length q'
    end.
Proof.
  induction p as [|a p IH]; intros q xs ys Hx Hy Hlen.
  { exists (Some ([], q)). split; [reflexivity|]. exists []. auto. }
  destruct q as [|b q]; [discriminate|]. injection Hlen as Hlen.
  destruct p as [|a2 p]; [destruct q; [|discriminate]; exists (Some ([a], [b])); split; [reflexivity|]; exists []; auto|].
  destruct q as [|b2 q]; [discriminate|]. rewrite skip_same_cons.
  apply mapM_cons_some in Hx as (da & xs' & Ea & Ep & ->). apply mapM_cons_some in Hy as (db & ys' & Eb & Eq & ->). case_bool_decide as Hab.
  - subst b. destruct (IH (b2 :: q) xs' ys' Ep Eq Hlen) as (o & E & Ho). exists o. split; [exact E|].
    destruct o as [[p' q']|]; [|congruence]. destruct Ho as (tl & -> & -> & Hl). exists (a :: tl). auto.
  - destruct (same_type_datum n h a b da db Ea Eb Hab) as (s & E & Hs). rewrite E. simpl. eexists. split; [reflexivity|].
    destruct s; [|congruence]. exists []. simpl. auto.
Qed.

Lemma mapM_rev {A B} (f : A -> option B) l k : mapM f l = Some k -> mapM f (rev l) = Some (rev k).
Proof.
  intros H. apply mapM_Some in H. apply mapM_Some. apply Forall2_reverse in H. unfold reverse in H. rewrite <- !rev_alt in H. exact H.
Qed.

Lemma mapM_app_some {A B} (f : A -> option B) l1 l2 k : mapM f (l1 ++ l2) = Some k ->
  exists k1 k2, mapM f l1 = Some k1 /\ mapM f l2 = Some k2 /\ k = k1 ++ k2.
Proof.
  intros H. apply mapM_Some, Forall2_app_inv_l in H as (k1 & k2 & H1 & H2 & ->). exists k1, k2. rewrite !mapM_Some. auto.
Qed.

Lemma weights_nonneg ds : 0 <= weights ds.
Proof. induction ds as [|d ds IH]; unfold weights in *; simpl; [lia | pose proof (weight_nonneg d); lia]. Qed.

Section slots.
Context (h : heap) (fuel n : nat) (depth : Z) (Hdepth : Z.of_nat n <= depth - 1).
Context (IH : forall a b da db depth bound, datum_of n h a = Some da -> datum_of n h b = Some db -> Z.of_nat n <= depth -> weight da <= bound ->
  decides da db (bound - weight da) (sexp_equalp_bound fuel h a b depth bound)).

Lemma slots_decides x y xs ys bound : mapM (datum_of n h) x = Some xs -> mapM (datum_of n h) y = Some ys -> length x = length y ->
  weights xs <= bound -> decides xs ys (bound - weights xs)
  (o ← skip_same h (rev x) (rev y);
   match o with
   | None => Some None
   | Some (a :: p, b :: q) => equalp_slots (fun x y => sexp_equalp_bound fuel h x y (depth - 1)) (sexp_equalp_bound fuel h a b depth) (rev p) (rev q) bound
   | Some _ => Some (Some bound)
   end).
Proof.
  intros Hx Hy Hlen Hw. pose proof (weights_nonneg xs).
  destruct (skip_same_datum n h (rev x) (rev y) (rev xs) (rev ys)) as (o & E & Ho); [apply mapM_rev, Hx | apply mapM_rev, Hy | rewrite !length_rev; exact Hlen|].
  rewrite E. simpl. destruct o as [[p q]|]; [|apply decides_differ; congruence]. destruct Ho as (tl & Ex & Ey & Hl).
  apply (f_equal (@rev sexp)) in Ex, Ey. rewrite rev_involutive, rev_app_distr in Ex, Ey. subst x y.
  apply mapM_app_some in Hx as (xp & xt & Hxp & Hxt & ->). apply mapM_app_some in Hy as (yp & yt & Hyp & Hyt & ->).
  rewrite Hxt in Hyt. injection Hyt as <-. destruct p as [|a p], q as [|b q]; try discriminate.
  { injection Hxp as <-. injection Hyp as <-. apply decides_same. lia. }
  injection Hl as Hl. simpl in Hxp, Hyp. apply mapM_app_some in Hxp as (xs & la & Hxs & Hla & ->). apply mapM_app_some in Hyp as (ys & lb & Hys & Hlb & ->).
  apply mapM_cons_some in Hla as (la' & nil1 & Hla & [= <-] & ->). apply mapM_cons_some in Hlb as (lb' & nil2 & Hlb & [= <-] & ->).
  assert (Hwl : weights [la'] = weight la') by (unfold weights; simpl; lia). rewrite !weights_app, ?Hwl in *. pose proof (weights_nonneg xs). pose proof (weights_nonneg xt).
  pose proof (equalp_slots_decides (datum_of n h) _ _ la' lb' _ _ xs ys bound Hxs Hys ltac:(rewrite !length_rev; exact Hl)
    (fun u v du dv b' Hu Hv Hb => IH u v du dv (depth - 1) b' Hu Hv Hdepth Hb)
    (fun b' Hb => IH a b la' lb' depth b' Hla Hlb ltac:(lia) Hb) ltac:(lia)) as Hdec.
  eapply decides_iff; [| |exact Hdec]; [split; [intros ->; reflexivity | apply app_inv_tail] | lia].
Qed.
End slots.

Lemma node_inv n h o d : (tag ← tag_of o; ds ← mapM (datum_of n h) (slots_of o); Some (Node tag ds)) = Some d ->
  exists tag ds, tag_of o = Some tag /\ mapM (datum_of n h) (slots_of o) = Some ds /\ d = Node tag ds.
Proof.
  destruct (tag_of o) as [tag|]; [|discriminate]. simpl. destruct (mapM _ _) as [ds|]; [|discriminate]. intros [= <-]. eauto.
Qed.

(** [equal?] decides whether two objects are the same tree. *)
Lemma equalp_decides h : trimmed_heap h -> forall fuel n a b da db depth bound, (n < fuel)%nat ->
  datum_of n h a = Some da -> datum_of n h b = Some db -> Z.of_nat n <= depth -> weight da <= bound ->
  decides da db (bound - weight da) (sexp_equalp_bound fuel h a b depth bound).
Proof.
  intros Ht. induction fuel as [|fuel IHf]; intros n a b da db depth bound Hf Ha Hb Hn Hw; [lia|]. cbn [sexp_equalp_bound].
  pose proof (weight_nonneg da). case_bool_decide as Hab; [subst b; rewrite Ha in Hb; injection Hb as <-; apply decides_same; lia|].
  destruct (same_type_datum n h a b da db Ha Hb Hab) as (s & E & Hs). rewrite E. simpl.
  destruct s; simpl; [|apply decides_differ, Hs].
  assert (Hd : (depth <? 0) = false) by lia. assert (Hb0 : (bound <? 0) = false) by lia.
  destruct Hs as [([x Ex] & [y Ey] & Hty)|(Ea & Eb & Hne)]; [|rewrite Ea, Hd, Hb0; apply decides_differ, Hne].
  rewrite Ex, Ey, Hd, Hb0. destruct a as [| | | | | | | | | | | |la]; try discriminate Ex. destruct b as [| | | | | | | | | | | |lb]; try discriminate Ey.
  simpl in Ex, Ey. destruct n as [|n]; [discriminate|]. cbn [datum_of] in Ha, Hb. rewrite Ex in Ha. rewrite Ey in Hb. simpl (Some _ ≫= _) in Ha, Hb.
  pose proof (fun a b da db depth bound Ha Hb Hn => IHf n a b da db depth bound ltac:(lia) Ha Hb Hn) as IH. clear IHf.
  destruct x; first [discriminate Ha | apply node_inv in Ha as (ta & xs & Ta & Hxs & ->); try discriminate Ta; injection Ta as <- | injection Ha as <-];
    (destruct y; first [discriminate Hb | apply node_inv in Hb as (tb & ys & Tb & Hys & ->); try discriminate Tb; injection Tb as <- | injection Hb as <-]);
    try discriminate Hty; try (unfold SEXP_BYTES in *; discriminate Hty).
  - eapply decides_iff; [| |apply (slots_decides h fuel n depth ltac:(lia) IH [car; cdr] [car0; cdr0] xs ys (bound - 1) Hxs Hys eq_refl)];
      [split; congruence | simpl; fold (weights xs); lia | simpl in Hw; fold (weights xs) in Hw; lia].
  - simpl. destruct (Nat.eqb_spec (length data) (length data0)) as [Hlen|Hlen]; simpl.
    + eapply decides_iff; [| |apply (slots_decides h fuel n depth ltac:(lia) IH data data0 xs ys (bound - 1) Hxs Hys Hlen)];
      [split; congruence | simpl; fold (weights xs); lia | simpl in Hw; fold (weights xs) in Hw; lia].
    + apply decides_differ. intros [= ->]. apply Hlen. apply mapM_Some, Forall2_length in Hxs, Hys. simpl in Hxs, Hys. congruence.
  - simpl. case_bool_decide as Hdata; simpl; [subst data0; apply decides_same; simpl; lia | apply decides_differ; congruence].
  - simpl in *. assert (Hb1 : (bound - 1 <? 0) = false) by lia.
    destruct (Nat.eqb_spec (String.length data) (String.length data0)) as [Hlen|Hlen]; simpl; [|apply decides_differ; congruence].
    rewrite Hb1. case_bool_decide as Hdata; [subst data0; apply decides_same; lia | apply decides_differ; congruence].
  - destruct (Z.eqb_spec (sexp_bignum_compare b b0) 0) as [Hc|Hc].
    + apply compare_unique in Hc; [subst b0; apply decides_same; simpl; lia | eauto | eauto].
    + apply decides_differ. intros [= ->]. apply Hc, compare_self. apply (Ht lb b0 Ey).
  - eapply decides_iff; [| |apply (slots_decides h fuel n depth ltac:(lia) IH [num; den] [num0; den0] xs ys (bound - 1) Hxs Hys eq_refl)];
      [split; congruence | simpl; fold (weights xs); lia | simpl in Hw; fold (weights xs) in Hw; lia].
Qed.

(** ** Properties *)

(** C27 (functional).  [equal?] is equality of structure: of two objects that stand
    for trees of at most 10000 objects in depth, of which one takes at most
    100000000 comparisons, and whose bignums have no spare limbs, it holds if and
    only if the trees are the same, and there is no case in which it does not
    return. *)
Theorem equalp_structural h n fuel a b da db :
  trimmed_heap h -> datum_of n h a = Some da -> datum_of n h b = Some db ->
  Z.of_nat n <= SEXP_DEFAULT_EQUAL_DEPTH -> weight da <= SEXP_DEFAULT_EQUAL_BOUND -> (n < fuel)%nat ->
  sexp_equalp_op fuel h a b = Some (bool_decide (da = db)).
Proof.
  intros Ht Ha Hb Hn Hw Hf. unfold sexp_equalp_op. destruct (equalp_decides h Ht fuel n a b da db _ _ Hf Ha Hb Hn Hw) as (r & _ & E).
  rewrite E. simpl. f_equal. destruct (decide (da = db)); [rewrite !bool_decide_true | rewrite !bool_decide_false]; congruence.
Qed.

(** Objects that are [equal?] have the same hash, for every bound,
    circular ones as well, if no bignum has a spare limb and [equal?] has not given
    up for the number of comparisons: the hash only looks five objects deep, where
    [equal?] has compared everything. *)
Theorem equal_hash address h fuel a b r bound :
  trimmed_heap h -> sexp_equalp_bound fuel h a b SEXP_DEFAULT_EQUAL_DEPTH SEXP_DEFAULT_EQUAL_BOUND = Some (Some r) -> 0 <= r ->
  sexp_hash address h a bound = sexp_hash address h b bound.
Proof.
  intros Ht E Hr. assert (H : same_hash HASH_DEPTH h a b) by (apply (equalp_hash h Ht fuel _ a b _ _ r E Hr); vm_compute; discriminate).
  unfold sexp_hash, hash_one. rewrite H. reflexivity.
Qed.

(** ** Witnesses *)

(** Two lists of a bignum and a string, and one that is not the same. *)
Definition twins : heap := {[
  1%positive := Pair (Ptr 2) (Ptr 3) false; 2%positive := BignumObj (Bignum 1 [5; 6]); 3%positive := Pair (Ptr 4) SEXP_NULL false; 4%positive := Heap.String "ab";
  5%positive := Pair (Ptr 6) (Ptr 7) false; 6%positive := BignumObj (Bignum 1 [5; 6]); 7%positive := Pair (Ptr 8) SEXP_NULL true; 8%positive := Heap.String "ab";
  9%positive := Pair (Ptr 2) (Ptr 5) false ]}.

Lemma twins_trimmed : trimmed_heap twins.
Proof. apply trimmed_heap_test. vm_compute. reflexivity. Qed.

Lemma equalp_structural_witness : sexp_equalp_op 9 twins (Ptr 1) (Ptr 5) = Some true /\ sexp_equalp_op 9 twins (Ptr 1) (Ptr 9) = Some false.
Proof.
  split.
  - exact (equalp_structural twins 5 9 (Ptr 1) (Ptr 5) (default (Atom SEXP_VOID) (datum_of 5 twins (Ptr 1))) (default (Atom SEXP_VOID) (datum_of 5 twins (Ptr 5)))
      twins_trimmed eq_refl eq_refl ltac:(vm_compute; discriminate) ltac:(vm_compute; discriminate) ltac:(lia)).
  - exact (equalp_structural twins 5 9 (Ptr 1) (Ptr 9) (default (Atom SEXP_VOID) (datum_of 5 twins (Ptr 1))) (default (Atom SEXP_VOID) (datum_of 5 twins (Ptr 9)))
      twins_trimmed eq_refl eq_refl ltac:(vm_compute; discriminate) ltac:(vm_compute; discriminate) ltac:(lia)).
Defined.

Lemma equal_hash_witness : sexp_hash (fun _ => 0) twins (Ptr 1) (Fixnum 1000) = sexp_hash (fun _ => 0) twins (Ptr 5) (Fixnum 1000).
Proof. apply (equal_hash (fun _ => 0) twins 9 (Ptr 1) (Ptr 5) 99999996); [exact twins_trimmed | vm_compute; reflexivity | lia]. Defined.
