(* ===== verification/HashTables.v ===== *)
(** * Hash tables are finite maps

    Hashes and comparisons of keys do not change when objects are added to the
    heap, and the buckets of a table, found by the hash of a key, together hold
    the entries of an association list, also after the table has grown. *)
From S2P Require Import Prelude Limbs Bignum Heap Sort HashTable Equal.
From stdpp Require Import base list option gmap strings.
#[local] Open Scope Z_scope.

(** ** Growing heaps *)

(** What is computed from some objects stays so when others are added. *)
Section grow.
Context (h h' : heap) (Hsub : h ⊆ h').

Lemma deref_grow v o : deref h v = Some o -> deref h' v = Some o.
Proof. destruct v; try discriminate. intros H. exact (lookup_weaken _ _ _ _ H Hsub). Qed.

Lemma type_of_grow v t : type_of h v = Some t -> type_of h' v = Some t.
Proof.
  destruct v; try (intros <-; reflexivity). simpl. destruct (h !! l) as [o|] eqn:E; [|discriminate].
  rewrite (lookup_weaken _ _ _ _ E Hsub). auto.
Qed.

Lemma same_type_grow a b s : same_type h a b = Some s -> same_type h' a b = Some s.
Proof.
  unfold same_type. destruct (type_of h a) as [ta|] eqn:Ea; [|discriminate]. destruct (type_of h b) as [tb|] eqn:Eb; [|discriminate].
  rewrite (type_of_grow _ _ Ea), (type_of_grow _ _ Eb). auto.
Qed.

Lemma hash_slots_grow f g : (forall acc x z, f acc x = Some z -> g acc x = Some z) ->
  forall l acc z, hash_slots f acc l = Some z -> hash_slots g acc l = Some z.
Proof.
  intros Hfg. induction l as [|x l IH]; intros acc z; [auto|]. destruct l as [|y l]; [apply Hfg|].
  change (hash_slots f acc (x :: y :: l)) with (v ← f FNV_OFFSET_BASIS x; hash_slots f (fnv acc v) (y :: l)).
  change (hash_slots g acc (x :: y :: l)) with (v ← g FNV_OFFSET_BASIS x; hash_slots g (fnv acc v) (y :: l)).
  destruct (f FNV_OFFSET_BASIS x) as [v|] eqn:E; [|discriminate]. rewrite (Hfg _ _ _ E). apply IH.
Qed.

Lemma hash_loop_grow n : forall acc v z, hash_loop n h acc v = Some z -> hash_loop n h' acc v = Some z.
Proof.
  induction n as [|n IH]; intros acc v z; (destruct v; try (intros <-; reflexivity); cbn [hash_loop]);
    (destruct (h !! l) as [o|] eqn:E; [|discriminate]); rewrite (lookup_weaken _ _ _ _ E Hsub); [auto|].
  simpl. destruct (tag_of o) as [tag|]; [|discriminate]. simpl.
  destruct o; auto; apply hash_slots_grow, IH.
Qed.

Lemma skip_same_grow : forall p q r, skip_same h p q = Some r -> skip_same h' p q = Some r.
Proof.
  induction p as [|a p IH]; intros q r; [auto|]. destruct p as [|a2 p]; [auto|]. destruct q as [|b [|b2 q]]; [auto | auto |].
  rewrite !skip_same_cons. case_bool_decide; [apply IH|].
  destruct (same_type h a b) as [s|] eqn:E; [|discriminate]. rewrite (same_type_grow _ _ _ E). auto.
Qed.

Lemma equalp_slots_grow f g last last' : (forall x y b r, f x y b = Some r -> g x y b = Some r) ->
  (forall b r, last b = Some r -> last' b = Some r) ->
  forall p q b r, equalp_slots f last p q b = Some r -> equalp_slots g last' p q b = Some r.
Proof.
  intros Hf Hl. induction p as [|x p IH]; intros q b r; [apply Hl|]. destruct q as [|y q]; [apply Hl|]. cbn [equalp_slots].
  destruct (f x y b) as [o|] eqn:E; [|discriminate]. rewrite (Hf _ _ _ _ E). simpl. destruct o; [apply IH | auto].
Qed.

Lemma equalp_grow fuel : forall a b depth bound r, sexp_equalp_bound fuel h a b depth bound = Some r -> sexp_equalp_bound fuel h' a b depth bound = Some r.
Proof.
  induction fuel as [|fuel IH]; intros a b depth bound r; [discriminate|]. cbn [sexp_equalp_bound]. case_bool_decide; [auto|].
  destruct (same_type h a b) as [s|] eqn:Es; [|discriminate]. rewrite (same_type_grow _ _ _ Es). simpl. destruct s; [|auto]. simpl.
  assert (Hd : forall v, deref h v = None -> is_Some (type_of h v) -> deref h' v = None).
  { intros v Hv [t Hvt]. destruct v; try reflexivity. simpl in *. rewrite Hv in Hvt. discriminate. }
  assert (Hty : is_Some (type_of h a) /\ is_Some (type_of h b)).
  { unfold same_type in Es. destruct (type_of h a), (type_of h b); try discriminate; eauto. }
  destruct Hty as [Hta Htb].
  destruct (deref h a) as [x|] eqn:Ea; [rewrite (deref_grow _ _ Ea) | rewrite (Hd _ Ea Hta); auto].
  destruct (deref h b) as [y|] eqn:Eb; [rewrite (deref_grow _ _ Eb) | rewrite (Hd _ Eb Htb); auto].
  assert (Hslots : forall o, match o with
      | None => Some None
      | Some (a :: p, b :: q) => equalp_slots (fun x y => sexp_equalp_bound fuel h x y (depth - 1)) (sexp_equalp_bound fuel h a b depth) (rev p) (rev q) (bound - 1)
      | Some _ => Some (Some (bound - 1)) end = Some r ->
    match o with
      | None => Some None
      | Some (a :: p, b :: q) => equalp_slots (fun x y => sexp_equalp_bound fuel h' x y (depth - 1)) (sexp_equalp_bound fuel h' a b depth) (rev p) (rev q) (bound - 1)
      | Some _ => Some (Some (bound - 1)) end = Some r).
  { intros [[[|a' p] q]|]; auto. destruct q as [|b' q]; [auto|]. apply equalp_slots_grow; intros *; apply IH. }
  destruct x, y; auto; destruct (_ || _); auto; destruct (same_data _ _); cbn [negb]; auto;
    let res := fresh "res" in destruct (skip_same h _ _) as [res|] eqn:Esk; [|discriminate];
    rewrite (skip_same_grow _ _ _ Esk); exact (Hslots res).
Qed.

Lemma car_grow v k : sexp_car h v = Some k -> sexp_car h' v = Some k.
Proof. unfold sexp_car. destruct (deref h v) as [o|] eqn:E; [|discriminate]. rewrite (deref_grow _ _ E). auto. Qed.
End grow.

Section grow_tables.
Context (address : sexp -> Z) (hash_proc : sexp -> sexp -> Z -> option sexp) (eq_proc : sexp -> sexp -> sexp -> option sexp).
Context (h h' : heap) (Hsub : h ⊆ h').

Lemma test_key_grow fuel fn key obj b : test_key eq_proc fuel h fn key obj = Some b -> test_key eq_proc fuel h' fn key obj = Some b.
Proof.
  unfold test_key, sexp_equalp_op. destruct fn; auto. destruct (sexp_pointerp obj); [destruct (sexp_symbolp obj) | destruct (negb _)]; auto;
    (destruct (sexp_equalp_bound fuel h key obj _ _) as [r|] eqn:E; [|discriminate]); rewrite (equalp_grow _ _ Hsub _ _ _ _ _ _ E); auto.
Qed.

Lemma get_bucket_grow len fn obj i : sexp_get_bucket address hash_proc h len fn obj = Some i -> sexp_get_bucket address hash_proc h' len fn obj = Some i.
Proof.
  unfold sexp_get_bucket. destruct fn; auto. unfold sexp_hash. simpl. unfold hash_one.
  destruct (hash_loop HASH_DEPTH h FNV_OFFSET_BASIS obj) as [z|] eqn:E; [|discriminate]. rewrite (hash_loop_grow _ _ Hsub _ _ _ _ E). auto.
Qed.
End grow_tables.

(** ** Tables *)

Section maps.
Context (address : sexp -> Z) (hash_proc : sexp -> sexp -> Z -> option sexp) (eq_proc : sexp -> sexp -> sexp -> option sexp).
Context (fuel : nat) (hfn efn : hash_fn).

(** The keys that are used, with an equivalence, and their buckets. *)
Context (K : sexp -> Prop) (same : sexp -> sexp -> bool) (idx : sexp -> nat -> Z).

(** The number of buckets is an [int]. *)
Definition room (len : nat) : Prop := 0 < Z.of_nat len < 2 ^ 31.

(** On the keys the functions of the table work, and fit together. *)
Record hashing (h : heap) : Prop := Hashing {
  hashing_refl : forall k, K k -> same k k = true;
  hashing_sym : forall j k, K j -> K k -> same j k = same k j;
  hashing_trans : forall i j k, K i -> K j -> K k -> same i j = true -> same j k = true -> same i k = true;
  hashing_test : forall j k, K j -> K k -> test_key eq_proc fuel h efn j k = Some (same j k);
  hashing_bucket : forall k len, K k -> room len ->
    sexp_get_bucket address hash_proc h len hfn k = Some (idx k len) /\ 0 <= idx k len < Z.of_nat len;
  hashing_compat : forall j k len, K j -> K k -> same j k = true -> idx j len = idx k len;
}.

Lemma hashing_grow h h' : h ⊆ h' -> hashing h -> hashing h'.
Proof.
  intros Hsub [H1 H2 H3 H4 H5 H6]. split; auto.
  - intros j k Hj Hk. apply (test_key_grow _ _ _ Hsub). auto.
  - intros k len Hk Hl. destruct (H5 k len Hk Hl) as [H Hi]. split; [apply (get_bucket_grow _ _ _ _ Hsub), H | exact Hi].
Qed.

(** The specification: keys with the pairs of their entries. *)
Abbreviation alist := (list (sexp * loc)).

Fixpoint find {A} (m : list (sexp * A)) (k : sexp) : option A :=
  match m with [] => None | (j, e) :: m => if same j k then Some e else find m k end.

Fixpoint remove {A} (m : list (sexp * A)) (k : sexp) : list (sexp * A) :=
  match m with [] => [] | (j, e) :: m => if same j k then m else (j, e) :: remove m k end.

Fixpoint distinct {A} (m : list (sexp * A)) : Prop :=
  match m with [] => True | (k, _) :: m => (forall j e, (j, e) ∈ m -> same k j = false) /\ distinct m end.

(** A bucket holds the entries [m], in order. *)
Record holds (h : heap) (ls : list loc) (m : alist) : Prop := Holds {
  holds_entries : m.*2 = ls;
  holds_keys : forall k e, (k, e) ∈ m -> K k /\ sexp_car h (Ptr e) = Some k;
}.

(** The buckets [bs] hold the entries [ms], each where its key belongs. *)
Definition spread (h : heap) (bs : list (list loc)) (ms : list alist) : Prop :=
  Forall2 (holds h) bs ms /\ forall i mi k e, ms !! i = Some mi -> (k, e) ∈ mi -> idx k (length bs) = Z.of_nat i.

(** The table holds the entries [m], spread over its buckets. *)
Record table (h : heap) (ht : hash_table) (m : alist) : Prop := Table {
  table_fns : ht_hash_fn ht = hfn /\ ht_eq_fn ht = efn;
  table_size : ht_size ht = Z.of_nat (length m);
  table_buckets : exists ms, concat ms ≡ₚ m /\ spread h (ht_buckets ht) ms;
  table_room : room (length (ht_buckets ht));
  table_distinct : distinct m;
  table_hashing : hashing h;
}.

Lemma holds_grow h h' ls m : h ⊆ h' -> holds h ls m -> holds h' ls m.
Proof.
  intros Hsub [H1 H2]. split; [exact H1|]. intros k e Hin. destruct (H2 k e Hin) as [Hk Hc]. split; [exact Hk | apply (car_grow _ _ Hsub), Hc].
Qed.

(** *** Association lists *)

Lemma find_none {A} (m : list (sexp * A)) k : find m k = None <-> forall j e, (j, e) ∈ m -> same j k = false.
Proof.
  induction m as [|[j e] m IH]; simpl; [split; [intros _ j e H; apply elem_of_nil in H; contradiction | reflexivity]|].
  destruct (same j k) eqn:E; [split; [discriminate|]; intros H; rewrite (H j e) in E; [discriminate | apply elem_of_cons; auto]|].
  rewrite IH. split; intros H j' e' Hin; [apply elem_of_cons in Hin as [[= -> ->]|Hin]; eauto | apply (H j' e'), elem_of_cons; auto].
Qed.

Lemma find_some {A} (m : list (sexp * A)) k e : find m k = Some e -> exists j, (j, e) ∈ m /\ same j k = true.
Proof.
  induction m as [|[j e'] m IH]; simpl; [discriminate|]. destruct (same j k) eqn:E.
  - intros [= <-]. exists j. split; [apply elem_of_cons; auto | exact E].
  - intros H. destruct (IH H) as (j' & Hin & Hs). exists j'. split; [apply elem_of_cons; auto | exact Hs].
Qed.

Lemma distinct_perm {A} h (m m' : list (sexp * A)) : hashing h -> (forall k e, (k, e) ∈ m -> K k) -> m ≡ₚ m' -> distinct m -> distinct m'.
Proof.
  intros [_ Hsym _ _ _ _] HK Hp. induction Hp as [|[k e] m m' Hp IH|[k e] [k' e'] m|m m2 m' H1 IH1 H2 IH2]; simpl; auto.
  - intros [H Hd]. split; [intros j e' Hin; rewrite <- Hp in Hin; eauto|]. apply IH; [|exact Hd]. intros k' e2 H2. apply (HK k' e2), elem_of_cons. auto.
  - intros [H [H' Hd]]. split; [|split; [|exact Hd]].
    + intros j e2 Hin. apply elem_of_cons in Hin as [[= -> ->]|Hin]; [|eauto].
      rewrite Hsym; [apply (H k e), elem_of_cons; auto | apply (HK k e); rewrite !elem_of_cons; auto | apply (HK k' e'), elem_of_cons; auto].
    + intros j e2 Hin. apply (H j e2), elem_of_cons. auto.
  - intros Hd. apply IH2; [|auto]. intros k e Hin. apply (HK k e). rewrite H1. exact Hin.
Qed.

(** In a list of distinct keys the entry that is found is the one of its key. *)
Lemma find_in {A} h (m : list (sexp * A)) j k e : hashing h -> (forall k e, (k, e) ∈ m -> K k) -> K k -> distinct m -> (j, e) ∈ m -> same j k = true -> find m k = Some e.
Proof.
  intros [_ Hsym Htr _ _ _] HK Hk. induction m as [|[j' e'] m IH]; intros Hd Hin Hs; [apply elem_of_nil in Hin; contradiction|].
  destruct Hd as [Hne Hd]. simpl. apply elem_of_cons in Hin as [[= <- <-]|Hin]; [rewrite Hs; reflexivity|].
  destruct (same j' k) eqn:E; [|apply IH; [intros k' e2 H2; apply (HK k' e2), elem_of_cons; auto | exact Hd | exact Hin | exact Hs]].
  assert (Hj' : K j') by (apply (HK j' e'), elem_of_cons; auto). assert (Hj : K j) by (apply (HK j e), elem_of_cons; auto).
  pose proof (Hne _ _ Hin) as Hf. rewrite (Htr j' k j) in Hf; [discriminate | exact Hj' | exact Hk | exact Hj | exact E | rewrite Hsym; assumption].
Qed.

Lemma find_perm {A} h (m : list (sexp * A)) m' k : hashing h -> (forall k e, (k, e) ∈ m -> K k) -> K k -> distinct m -> distinct m' -> m ≡ₚ m' -> find m k = find m' k.
Proof.
  intros Hh HK Hk Hd Hd' Hp. destruct (find m k) as [e|] eqn:E.
  - apply find_some in E as (j & Hin & Hs). symmetry. apply (find_in h m' j k e); auto.
    + intros k' e' Hin'. apply (HK k' e'). rewrite Hp. exact Hin'.
    + rewrite <- Hp. exact Hin.
  - symmetry. apply find_none. intros j e Hin. rewrite <- Hp in Hin. revert j e Hin. apply find_none, E.
Qed.

Lemma remove_perm {A} (m : list (sexp * A)) k e : find m k = Some e -> exists j, same j k = true /\ m ≡ₚ (j, e) :: remove m k.
Proof.
  induction m as [|[j e'] m IH]; simpl; [discriminate|]. destruct (same j k) eqn:E; [intros [= <-]; eauto|].
  intros H. destruct (IH H) as (j' & Hs & Hp). exists j'. split; [exact Hs|]. rewrite Hp at 1. apply Permutation_swap.
Qed.

(** *** Buckets *)

Lemma scan_bucket_spec h ls m obj : hashing h -> holds h ls m -> K obj ->
  exists r, sexp_scan_bucket eq_proc fuel h ls obj efn = Some r /\
  match r with
  | Some i => exists j e, m !! i = Some (j, e) /\ ls !! i = Some e /\ find m obj = Some e
  | None => find m obj = None
  end.
Proof.
  intros Hh [<- HK] Hobj. induction m as [|[j e] m IH]; simpl; [exists None; auto|].
  destruct (HK j e ltac:(apply elem_of_cons; auto)) as [Hj Hc]. rewrite Hc. simpl. rewrite (hashing_test _ Hh j obj Hj Hobj). simpl.
  destruct (same j obj); [eexists; split; [reflexivity|]; simpl; eauto|].
  destruct IH as (r & E & Hr); [intros k e' Hin; apply HK, elem_of_cons; auto|].
  match goal with |- context [sexp_scan_bucket _ _ _ ?l _ _] => change l with (m.*2) end. rewrite E. simpl. eexists. split; [reflexivity|].
  destruct r as [i|]; exact Hr.
Qed.

Lemma concat_insert {A} (ms : list (list A)) i mi x : ms !! i = Some mi -> concat (<[i := x :: mi]> ms) ≡ₚ x :: concat ms.
Proof.
  revert i. induction ms as [|y ms IH]; intros [|i] H; try discriminate; simpl in *; [injection H as <-; reflexivity|].
  rewrite (IH i H). symmetry. apply Permutation_middle.
Qed.

Lemma concat_delete {A} (ms : list (list A)) i mi k x : ms !! i = Some mi -> mi !! k = Some x ->
  x :: concat (<[i := take k mi ++ drop (S k) mi]> ms) ≡ₚ concat ms.
Proof.
  revert i. induction ms as [|y ms IH]; intros [|i] H Hx; try discriminate; simpl in *.
  - injection H as <-. rewrite <- (take_drop_middle y k x Hx) at 3. rewrite <- !app_assoc. simpl. apply Permutation_middle.
  - rewrite <- (IH i H Hx). apply Permutation_middle.
Qed.

Lemma spread_keys h bs ms k e : spread h bs ms -> (k, e) ∈ concat ms -> K k /\ sexp_car h (Ptr e) = Some k.
Proof.
  intros [HF _] Hin. apply list_elem_of_In, in_concat in Hin as (mi & Hmi & Hin). apply list_elem_of_In in Hmi, Hin.
  apply list_elem_of_lookup in Hmi as [i Hi]. destruct (Forall2_lookup_r _ _ _ _ _ HF Hi) as (ls & _ & Hls). apply (holds_keys _ _ _ Hls), Hin.
Qed.

(** The bucket of a key knows all there is to know about it. *)
Lemma spread_find h bs ms m obj : hashing h -> spread h bs ms -> concat ms ≡ₚ m -> distinct m -> K obj -> room (length bs) ->
  exists i ls mi, sexp_get_bucket address hash_proc h (length bs) hfn obj = Some (Z.of_nat i) /\ idx obj (length bs) = Z.of_nat i
    /\ bs !! i = Some ls /\ ms !! i = Some mi /\ holds h ls mi /\ find mi obj = find m obj.
Proof.
  intros Hh Hs Hp Hd Hobj Hlen. destruct (hashing_bucket _ Hh obj (length bs) Hobj Hlen) as [Eb Hr].
  set (i := Z.to_nat (idx obj (length bs))). assert (Ei : idx obj (length bs) = Z.of_nat i) by lia.
  pose proof Hs as [HF Hidx]. pose proof (Forall2_length _ _ _ HF) as Hl.
  destruct (lookup_lt_is_Some_2 ms i) as [mi Hmi]; [lia|]. destruct (Forall2_lookup_r _ _ _ _ _ HF Hmi) as (ls & Hls & Hh').
  exists i, ls, mi. rewrite Eb, Ei. do 5 (split; [auto|]).
  assert (HK : forall k e, (k, e) ∈ m -> K k) by (intros k e Hin; rewrite <- Hp in Hin; apply (spread_keys _ _ _ _ _ Hs Hin)).
  assert (Hsub : forall k e, (k, e) ∈ mi -> (k, e) ∈ m).
  { intros k e Hin. rewrite <- Hp. apply list_elem_of_In, in_concat. exists mi. split; apply list_elem_of_In; [apply list_elem_of_lookup; eauto | exact Hin]. }
  destruct (find mi obj) as [e|] eqn:E.
  - apply find_some in E as (j & Hin & Hsame). symmetry. apply (find_in h m j obj e); auto.
  - symmetry. apply find_none. intros j e Hin. destruct (same j obj) eqn:Ej; [exfalso | reflexivity].
    rewrite <- Hp in Hin. apply list_elem_of_In, in_concat in Hin as (mj & Hmj & Hin). apply list_elem_of_In in Hmj, Hin.
    apply list_elem_of_lookup in Hmj as [i' Hi']. pose proof (Hidx i' mj j e Hi' Hin) as Hj.
    assert (Kj : K j) by (destruct (Forall2_lookup_r _ _ _ _ _ HF Hi') as (ls' & _ & Hls'); apply (holds_keys _ _ _ Hls' _ _ Hin)).
    rewrite (hashing_compat _ Hh j obj _ Kj Hobj Ej), Ei in Hj. apply Nat2Z.inj in Hj. subst i'.
    rewrite Hmi in Hi'. injection Hi' as <-. rewrite (proj1 (find_none mi obj) E j e Hin) in Ej. discriminate.
Qed.

(** An entry in front of the others in its bucket. *)
Lemma spread_insert h bs ms i ls mi k e : spread h bs ms -> bs !! i = Some ls -> ms !! i = Some mi -> idx k (length bs) = Z.of_nat i ->
  K k -> sexp_car h (Ptr e) = Some k -> spread h (<[i := e :: ls]> bs) (<[i := (k, e) :: mi]> ms).
Proof.
  intros [HF Hidx] Hls Hmi Hi Hk Hc. destruct (Forall2_lookup_lr _ _ _ _ _ _ HF Hls Hmi) as [H1 H2].
  assert (Hnew : holds h (e :: ls) ((k, e) :: mi)).
  { split; [simpl; f_equal; exact H1|]. intros k' e' Hin. apply elem_of_cons in Hin as [[= -> ->]|Hin]; auto. }
  split; [apply Forall2_insert; assumption|]. rewrite length_insert. intros i' mi' k' e' Hi' Hin.
  destruct (decide (i' = i)) as [->|Hne].
  - rewrite list_lookup_insert_eq in Hi' by (eapply lookup_lt_Some, Hmi). injection Hi' as <-.
    apply elem_of_cons in Hin as [[= -> ->]|Hin]; [exact Hi | eapply Hidx; eauto].
  - rewrite list_lookup_insert_ne in Hi' by auto. eapply Hidx; eauto.
Qed.

Lemma regrow_entry_spec h bs ms k e : hashing h -> spread h bs ms -> room (length bs) -> K k -> sexp_car h (Ptr e) = Some k ->
  exists bs' ms', regrow_entry address hash_proc h hfn bs e = Some bs' /\ spread h bs' ms' /\ length bs' = length bs /\ concat ms' ≡ₚ (k, e) :: concat ms.
Proof.
  intros Hh Hs Hlen Hk Hc. destruct (hashing_bucket _ Hh k (length bs) Hk Hlen) as [Eb Hr].
  set (i := Z.to_nat (idx k (length bs))). pose proof (Forall2_length _ _ _ (proj1 Hs)) as Hl.
  destruct (lookup_lt_is_Some_2 bs i) as [ls Hls]; [lia|]. destruct (lookup_lt_is_Some_2 ms i) as [mi Hmi]; [lia|].
  unfold regrow_entry. rewrite Hc. simpl. rewrite Eb. simpl. fold i. rewrite Hls. simpl.
  eexists _, (<[i := (k, e) :: mi]> ms). split; [reflexivity|]. split; [apply spread_insert; auto; lia|].
  split; [apply length_insert | apply concat_insert, Hmi].
Qed.

Lemma regrow_entries_spec h m : hashing h -> (forall k e, (k, e) ∈ m -> K k /\ sexp_car h (Ptr e) = Some k) ->
  forall bs ms, spread h bs ms -> room (length bs) ->
  exists bs' ms', regrow_entries address hash_proc h hfn bs m.*2 = Some bs' /\ spread h bs' ms' /\ length bs' = length bs /\ concat ms' ≡ₚ m ++ concat ms.
Proof.
  intros Hh. induction m as [|[k e] m IH]; intros HK bs ms Hs Hlen; [exists bs, ms; simpl; auto|].
  destruct (HK k e ltac:(apply elem_of_cons; auto)) as [Hk Hc].
  destruct (regrow_entry_spec h bs ms k e Hh Hs Hlen Hk Hc) as (bs1 & ms1 & E1 & H1 & L1 & P1).
  destruct (IH ltac:(intros k' e' Hin; apply HK, elem_of_cons; auto) bs1 ms1 H1 ltac:(rewrite L1; exact Hlen)) as (bs2 & ms2 & E2 & H2 & L2 & P2).
  exists bs2, ms2. simpl. rewrite E1. simpl. split; [exact E2|]. split; [exact H2|]. split; [lia|].
  rewrite P2, P1. symmetry. apply Permutation_middle.
Qed.

Lemma spread_empty h n : spread h (replicate n []) (replicate n []).
Proof.
  split; [|intros i mi k e Hi Hin; apply lookup_replicate in Hi as [-> _]; apply elem_of_nil in Hin; contradiction].
  induction n; constructor; [|assumption]. split; [reflexivity|]. intros k e Hin. apply elem_of_nil in Hin. contradiction.
Qed.

Lemma concat_entries h bs ms : Forall2 (holds h) bs ms -> (concat ms).*2 = concat bs.
Proof. induction 1 as [|ls mi bs ms [E _] _ IH]; [reflexivity|]. simpl. rewrite fmap_app, E. f_equal. exact IH. Qed.

Lemma concat_replicate_nil {A} n : concat (replicate n (@nil A)) = [].
Proof. induction n; [reflexivity | assumption]. Qed.

Lemma regrow_spec h ht m : table h ht m -> Z.of_nat (length (ht_buckets ht)) * 2 < 2 ^ 31 -> exists ht', sexp_regrow_hash_table address hash_proc h ht = Some ht'
  /\ table h ht' m /\ length (ht_buckets ht') = (length (ht_buckets ht) * 2)%nat.
Proof.
  intros [[Hf He] Hsz (ms & Hp & Hs) Hne Hd Hh] Hroom. unfold room in *. unfold sexp_regrow_hash_table. rewrite Hf, He.
  destruct (regrow_entries_spec h (concat ms) Hh ltac:(intros k e; apply (spread_keys _ _ _ _ _ Hs)) _ _ (spread_empty h (length (ht_buckets ht) * 2)))
    as (bs' & ms' & E & H' & L & P); [unfold room; rewrite length_replicate; lia|].
  rewrite <- (concat_entries _ _ _ (proj1 Hs)), E. simpl. rewrite length_replicate in L. eexists. split; [reflexivity|]. split; [|exact L].
  split; simpl; auto; [|unfold room; lia]. exists ms'. split; [|exact H']. rewrite P, concat_replicate_nil, app_nil_r. exact Hp.
Qed.
End maps.
