(* ===== verification/HashMaps.v ===== *)
(** * Hash tables refine association lists

    Every operation on a table returns what the same operation on an association
    list of keys and values returns, and leaves a table of the list that it
    leaves.  The keys are in a heap that does not change, apart from the entries
    of the table. *)
From S2P Require Import Prelude Limbs Bignum Integers Heap Sort HashTable Equal HashTables.
From stdpp Require Import base list option gmap strings.
#[local] Open Scope Z_scope.

Section cells.
Context (address : sexp -> Z) (hash_proc : sexp -> sexp -> Z -> option sexp) (eq_proc : sexp -> sexp -> sexp -> option sexp).
Context (fuel : nat) (hfn efn : hash_fn).
Context (K : sexp -> Prop) (same : sexp -> sexp -> bool) (idx : sexp -> nat -> Z).

#[local] Abbreviation hashing := (hashing address hash_proc eq_proc fuel hfn efn K same idx).
#[local] Abbreviation table := (table address hash_proc eq_proc fuel hfn efn K same idx).
#[local] Abbreviation spread := (spread K idx).
#[local] Abbreviation find := (HashTables.find same).
#[local] Abbreviation remove := (HashTables.remove same).
#[local] Abbreviation distinct := (HashTables.distinct same).
#[local] Abbreviation cell_of := (sexp_hash_table_cell address hash_proc eq_proc fuel).
#[local] Abbreviation delete_of := (sexp_hash_table_delete address hash_proc eq_proc fuel).

(** ** Entries *)

Lemma table_keys h ht m k e : table h ht m -> (k, e) ∈ m -> K k /\ sexp_car h (Ptr e) = Some k.
Proof. intros [_ _ (ms & Hp & Hs) _ _ _] Hin. rewrite <- Hp in Hin. eapply spread_keys; eauto. Qed.

(** A heap with the same keys. *)
Lemma table_heap h h' ht m : table h ht m -> hashing h' -> (forall k e, (k, e) ∈ m -> sexp_car h' (Ptr e) = Some k) -> table h' ht m.
Proof.
  intros [Hf Hsz (ms & Hp & HF & Hi) Hl Hd Hh] Hh' Hc. split; auto. exists ms. split; [exact Hp|]. split; [|exact Hi].
  assert (Hc' : forall k e, (k, e) ∈ concat ms -> sexp_car h' (Ptr e) = Some k) by (intros k e Hin; rewrite Hp in Hin; auto).
  clear Hp Hi Hl. induction HF as [|ls mi bs ms [E HK] HF IH]; constructor.
  - split; [exact E|]. intros k e Hin. destruct (HK k e Hin) as [Hk _]. split; [exact Hk|]. apply Hc'. simpl. apply elem_of_app. auto.
  - apply IH. intros k e Hin. apply Hc'. simpl. apply elem_of_app. auto.
Qed.

Lemma table_perm h ht m m' : m ≡ₚ m' -> table h ht m -> table h ht m'.
Proof.
  intros Hp Ht. pose proof (fun k e => table_keys h ht m k e Ht) as Hk. destruct Ht as [Hf Hsz (ms & Hm & Hs) Hl Hd Hh]. split; auto.
  - rewrite Hsz. f_equal. apply Permutation_length, Hp.
  - exists ms. split; [rewrite Hm; exact Hp | exact Hs].
  - eapply distinct_perm; eauto. intros k e Hin. apply (Hk k e Hin).
Qed.

Lemma table_scan h ht m obj : table h ht m -> K obj -> exists i ls ms mi r,
  sexp_get_bucket address hash_proc h (length (ht_buckets ht)) hfn obj = Some (Z.of_nat i) /\ idx obj (length (ht_buckets ht)) = Z.of_nat i
  /\ ht_buckets ht !! i = Some ls /\ concat ms ≡ₚ m /\ spread h (ht_buckets ht) ms /\ ms !! i = Some mi
  /\ sexp_scan_bucket eq_proc fuel h ls obj efn = Some r
  /\ match r with
     | Some k => exists j e, mi !! k = Some (j, e) /\ ls !! k = Some e /\ find mi obj = Some e /\ find m obj = Some e
     | None => find m obj = None
     end.
Proof.
  intros [_ _ (ms & Hp & Hs) Hl Hd Hh] Hobj.
  destruct (spread_find _ _ _ _ _ _ _ _ _ h _ ms m obj Hh Hs Hp Hd Hobj Hl) as (i & ls & mi & Eb & Ei & Hls & Hmi & Hho & Ef).
  destruct (scan_bucket_spec _ _ _ _ _ _ _ _ _ h ls mi obj Hh Hho Hobj) as (r & Er & Hr).
  exists i, ls, ms, mi, r. do 7 (split; [assumption|]). destruct r as [k|]; [|congruence].
  destruct Hr as (j & e & H1 & H2 & H3). exists j, e. split; [exact H1|]. split; [exact H2|]. split; [exact H3 | congruence].
Qed.

(** A new entry, in the bucket of its key. *)
Lemma table_add h ht m obj createp i ls e : table h ht m -> K obj -> find m obj = None -> h !! e = None ->
  idx obj (length (ht_buckets ht)) = Z.of_nat i -> ht_buckets ht !! i = Some ls ->
  table (<[e := Pair obj createp false]> h)
    (HashTable (<[i := e :: ls]> (ht_buckets ht)) (ht_size ht + 1) hfn efn) ((obj, e) :: m).
Proof.
  intros Ht Hobj Hfind He Hi Hls. pose proof Ht as [Hf Hsz (ms & Hp & Hs) Hl Hd Hh].
  assert (Hsub : h ⊆ <[e := Pair obj createp false]> h) by (apply insert_subseteq, He).
  destruct (lookup_lt_is_Some_2 ms i) as [mi Hmi].
  { rewrite <- (Forall2_length _ _ _ (proj1 Hs)). eapply lookup_lt_Some, Hls. }
  split; simpl; [auto | lia | | rewrite length_insert; exact Hl | | eapply hashing_grow; eauto].
  - exists (<[i := (obj, e) :: mi]> ms). split; [rewrite (concat_insert _ _ _ _ Hmi), Hp; reflexivity|].
    apply spread_insert; auto; [|unfold sexp_car; simpl; rewrite lookup_insert_eq; reflexivity].
    destruct Hs as [HF Hidx]. split; [|exact Hidx]. eapply Forall2_impl; [exact HF|]. intros l1 l2. apply holds_grow, Hsub.
  - split; [|exact Hd]. intros j e' Hin. rewrite (hashing_sym _ _ _ _ _ _ _ _ _ _ Hh); [apply (proj1 (HashTables.find_none same m obj) Hfind j e' Hin) | exact Hobj|].
    apply (table_keys _ _ _ _ _ Ht Hin).
Qed.

(** So many entries that the buckets can still be counted after a table has grown. *)
Definition most : Z := 2 ^ 26.

(** [sexp_hash_table_cell]: the entry of the key, or a new one. *)
Lemma cell_spec h ht m obj createp : table h ht m -> K obj -> Z.of_nat (length m) <= most ->
  match find m obj with
  | Some e => cell_of h ht obj createp = Some (Ptr e, h, ht)
  | None =>
      if sexp_truep createp then
        exists ht', cell_of h ht obj createp = Some (Ptr (fresh (dom h)), <[fresh (dom h) := Pair obj createp false]> h, ht')
          /\ table (<[fresh (dom h) := Pair obj createp false]> h) ht' ((obj, fresh (dom h)) :: m)
      else cell_of h ht obj createp = Some (SEXP_FALSE, h, ht)
  end.
Proof.
  intros Ht Hobj Hmost. destruct (table_scan h ht m obj Ht Hobj) as (i & ls & ms & mi & r & Eb & Ei & Hls & Hp & Hs & Hmi & Er & Hr).
  pose proof (table_fns _ _ _ _ _ _ _ _ _ _ _ _ Ht) as [Hf He].
  unfold sexp_hash_table_cell. rewrite Hf, He, Eb. simpl. rewrite Nat2Z.id, Hls. simpl. rewrite Er. simpl.
  destruct r as [k|]; [destruct Hr as (j & e & H1 & H2 & H3 & ->); rewrite H2; reflexivity|]. rewrite Hr.
  destruct (sexp_truep createp); [|reflexivity].
  assert (Hfresh : h !! fresh (dom h) = None) by (apply not_elem_of_dom, is_fresh).
  destruct (sexp_hash_resize_check _ _) eqn:Ec.
  - assert (Hgrow : Z.of_nat (length (ht_buckets ht)) * 2 < 2 ^ 31).
    { unfold sexp_hash_resize_check in Ec. rewrite Z.gtb_lt, Z.shiftr_div_pow2 in Ec by lia. rewrite (table_size _ _ _ _ _ _ _ _ _ _ _ _ Ht) in Ec.
      change (2 ^ 2) with 4 in Ec. change (2 ^ 31) with 2147483648. change most with 67108864 in Hmost.
      pose proof (Z.mul_succ_div_gt (Z.of_nat (length (ht_buckets ht))) 4 ltac:(lia)). lia. }
    destruct (regrow_spec _ _ _ _ _ _ _ _ _ h ht m Ht Hgrow) as (ht1 & E1 & Ht1 & Hl1). rewrite E1. simpl.
    destruct (table_scan h ht1 m obj Ht1 Hobj) as (i1 & ls1 & ms1 & mi1 & r1 & Eb1 & Ei1 & Hls1 & _).
    pose proof (table_fns _ _ _ _ _ _ _ _ _ _ _ _ Ht1) as [Hf1 He1]. rewrite Hf1, Eb1. simpl. rewrite Nat2Z.id, Hls1. simpl. rewrite Hf1, He1.
    eexists. split; [reflexivity|].
    replace (ht_size ht) with (ht_size ht1) by (rewrite (table_size _ _ _ _ _ _ _ _ _ _ _ _ Ht1); symmetry; apply (table_size _ _ _ _ _ _ _ _ _ _ _ _ Ht)).
    apply table_add; auto.
  - simpl. rewrite Nat2Z.id, Hls. simpl. rewrite ?Hf, ?He. eexists. split; [reflexivity|]. apply table_add; auto.
Qed.
(** A bucket without one of its entries. *)
Lemma spread_remove h bs ms i ls mi k : spread h bs ms -> bs !! i = Some ls -> ms !! i = Some mi ->
  spread h (<[i := take k ls ++ drop (S k) ls]> bs) (<[i := take k mi ++ drop (S k) mi]> ms).
Proof.
  intros [HF Hidx] Hls Hmi. destruct (Forall2_lookup_lr _ _ _ _ _ _ HF Hls Hmi) as [H1 H2].
  assert (Hin : forall x, x ∈ take k mi ++ drop (S k) mi -> x ∈ mi).
  { intros x Hx. apply elem_of_app in Hx as [Hx|Hx]; [eapply subseteq_take | eapply subseteq_drop]; exact Hx. }
  split; [apply Forall2_insert; [exact HF|]|].
  - split; [rewrite fmap_app, fmap_take, fmap_drop, H1; reflexivity|]. intros j e Hje. apply H2, Hin, Hje.
  - rewrite length_insert. intros i' mi' j e Hi' Hje. destruct (decide (i' = i)) as [->|Hne].
    + rewrite list_lookup_insert_eq in Hi' by (eapply lookup_lt_Some, Hmi). injection Hi' as <-. eapply Hidx; eauto.
    + rewrite list_lookup_insert_ne in Hi' by auto. eapply Hidx; eauto.
Qed.

(** [sexp_hash_table_delete] *)
Lemma delete_spec h ht m obj : table h ht m -> K obj ->
  match find m obj with
  | Some e => exists ht', delete_of h ht obj = Some ht' /\ table h ht' (remove m obj)
  | None => delete_of h ht obj = Some ht
  end.
Proof.
  intros Ht Hobj. destruct (table_scan h ht m obj Ht Hobj) as (i & ls & ms & mi & r & Eb & Ei & Hls & Hp & Hs & Hmi & Er & Hr).
  pose proof Ht as [[Hf He] Hsz _ Hl Hd Hh].
  unfold sexp_hash_table_delete. rewrite Hf, He, Eb. simpl. rewrite Nat2Z.id, Hls. simpl. rewrite Er. simpl.
  destruct r as [k|]; [|rewrite Hr; reflexivity]. destruct Hr as (j & e & H1 & H2 & H3 & H4). rewrite H4.
  eexists. split; [reflexivity|]. destruct (remove_perm same m obj e H4) as (j' & Hj' & Hperm).
  pose proof (concat_delete ms i mi k (j, e) Hmi H1) as Hcd. rewrite Hp in Hcd.
  assert (j' = j) as ->.
  { destruct (table_keys h ht m j' e Ht) as [_ C1]; [rewrite Hperm; apply elem_of_cons; auto|].
    destruct (table_keys h ht m j e Ht) as [_ C2]; [rewrite <- Hcd; apply elem_of_cons; auto|]. congruence. }
  pose proof Hcd as Hrest. rewrite Hperm in Hrest. apply Permutation_cons_inv in Hrest.
  split; simpl; [auto | | | rewrite length_insert; exact Hl | | exact Hh].
  - apply Permutation_length in Hperm. simpl in Hperm. lia.
  - eexists. split; [exact Hrest | apply spread_remove; assumption].
  - assert (Hd' : distinct ((j, e) :: remove m obj)) by
      (eapply distinct_perm; [exact Hh | intros k' e' Hin; apply (table_keys h ht m k' e' Ht Hin) | exact Hperm | exact Hd]).
    exact (proj2 Hd').
Qed.
(** ** Keys and values *)

(** What the keys are made of, which does not change. *)
Context (h0 : heap) (Hh0 : HashTables.hashing address hash_proc eq_proc fuel hfn efn K same idx h0).

(** The pair of the library that stands for values that are not there. *)
Context (nf : loc).
#[local] Abbreviation not_found := (Ptr nf).

Definition entry_of (h : heap) (ke : sexp * loc) : sexp * sexp := (ke.1, default SEXP_VOID (sexp_cdr h (Ptr ke.2))).

(** The entries of [m] are pairs of their own. *)
Record cells (h : heap) (m : list (sexp * loc)) : Prop := Cells {
  cells_pair : forall k e, (k, e) ∈ m -> exists v, h !! e = Some (Pair k v false);
  cells_nodup : NoDup m.*2;
  cells_base : h0 ⊆ h;
  cells_new : forall e, e ∈ m.*2 -> h0 !! e = None;
}.

(** The table [ht] stands for the keys and values [M]. *)
Definition maps (h : heap) (ht : hash_table) (M : list (sexp * sexp)) : Prop :=
  exists m, table h ht m /\ cells h m /\ M = entry_of h <$> m.

Fixpoint replace (M : list (sexp * sexp)) (k v : sexp) : list (sexp * sexp) :=
  match M with [] => [] | (j, w) :: M => if same j k then (j, v) :: M else (j, w) :: replace M k v end.

Definition put (M : list (sexp * sexp)) (k v : sexp) : list (sexp * sexp) :=
  match find M k with Some _ => replace M k v | None => (k, v) :: M end.

Lemma find_entries h (m : list (sexp * loc)) k : find (entry_of h <$> m) k = (fun e => default SEXP_VOID (sexp_cdr h (Ptr e))) <$> find m k.
Proof. induction m as [|[j e] m IH]; [reflexivity|]. simpl. destruct (same j k); [reflexivity | exact IH]. Qed.

Lemma remove_entries h (m : list (sexp * loc)) k : remove (entry_of h <$> m) k = entry_of h <$> remove m k.
Proof. induction m as [|[j e] m IH]; [reflexivity|]. simpl. destruct (same j k); [reflexivity|]. simpl. f_equal. exact IH. Qed.

Lemma remove_in {A} (m : list (sexp * A)) k x : x ∈ remove m k -> x ∈ m.
Proof.
  induction m as [|[j e] m IH]; simpl; [auto|]. destruct (same j k); rewrite !elem_of_cons; [auto|]. intros [?|?]; auto.
Qed.

Lemma remove_sublist {A} (m : list (sexp * A)) k : remove m k `sublist_of` m.
Proof. induction m as [|[j e] m IH]; simpl; [constructor|]. destruct (same j k); [apply sublist_cons; reflexivity | apply sublist_skip, IH]. Qed.

Lemma find_entry (m : list (sexp * loc)) k e : find m k = Some e -> e ∈ m.*2.
Proof. intros H. apply HashTables.find_some in H as (j & Hin & _). apply list_elem_of_fmap. exists (j, e). auto. Qed.

Lemma maps_find h M m k e : cells h m -> M = entry_of h <$> m -> find m k = Some e ->
  exists j v, h !! e = Some (Pair j v false) /\ sexp_cdr h (Ptr e) = Some v /\ find M k = Some v.
Proof.
  intros Hc -> Hf. destruct (HashTables.find_some same m k e Hf) as (j & Hin & _). destruct (cells_pair _ _ Hc j e Hin) as [v Hv].
  exists j, v. split; [exact Hv|]. assert (Hcdr : sexp_cdr h (Ptr e) = Some v) by (unfold sexp_cdr; simpl; rewrite Hv; reflexivity).
  split; [exact Hcdr|]. rewrite find_entries, Hf. simpl. rewrite Hcdr. reflexivity.
Qed.

(** The values of other entries stay. *)
Lemma entries_set h (m : list (sexp * loc)) k e j v w : NoDup m.*2 -> find m k = Some e -> h !! e = Some (Pair j w false) ->
  entry_of (<[e := Pair j v false]> h) <$> m = replace (entry_of h <$> m) k v.
Proof.
  intros Hnd. induction m as [|[j' e'] m IH]; [discriminate|]. simpl in *. apply NoDup_cons in Hnd as [Hni Hnd].
  destruct (same j' k) eqn:E.
  - intros [= ->] Hw. unfold entry_of at 1. simpl. unfold sexp_cdr. simpl. rewrite lookup_insert_eq. simpl. f_equal.
    apply list_fmap_ext. intros i [j2 e2] Hi. unfold entry_of, sexp_cdr. simpl. rewrite lookup_insert_ne; [reflexivity|].
    intros ->. apply Hni, list_elem_of_fmap. exists (j2, e2). split; [reflexivity | eapply list_elem_of_lookup_2, Hi].
  - intros Hf Hw. f_equal; [|exact (IH Hnd Hf Hw)]. unfold entry_of, sexp_cdr. simpl. rewrite lookup_insert_ne; [reflexivity|].
    intros ->. apply Hni. eapply find_entry, Hf.
Qed.

Lemma maps_set h ht m k e v : table h ht m -> cells h m -> find m k = Some e ->
  exists h', sexp_set_cdr h (Ptr e) v = Some h' /\ maps h' ht (replace (entry_of h <$> m) k v).
Proof.
  intros Ht Hc Hf. destruct (HashTables.find_some same m k e Hf) as (j & Hin & Hs). destruct (cells_pair _ _ Hc j e Hin) as [w Hw].
  exists (<[e := Pair j v false]> h). split; [unfold sexp_set_cdr; simpl; rewrite Hw; reflexivity|].
  assert (He0 : h0 !! e = None) by (apply (cells_new _ _ Hc); eapply find_entry, Hf).
  assert (Hb : h0 ⊆ <[e := Pair j v false]> h) by (apply insert_subseteq_r; [exact He0 | apply (cells_base _ _ Hc)]).
  assert (Hp : forall k' e', (k', e') ∈ m -> exists v', <[e := Pair j v false]> h !! e' = Some (Pair k' v' false)).
  { intros k' e' Hin'. destruct (decide (e' = e)) as [->|Hne].
    - rewrite lookup_insert_eq. destruct (cells_pair _ _ Hc k' e Hin') as [v' Hv']. rewrite Hw in Hv'. injection Hv' as <- <-. eauto.
    - rewrite lookup_insert_ne by auto. apply (cells_pair _ _ Hc k' e' Hin'). }
  exists m. split; [|split].
  - apply (table_heap h); [exact Ht | eapply hashing_grow; [exact Hb | exact Hh0]|]. intros k' e' Hin'. destruct (Hp k' e' Hin') as [v' Hv'].
    unfold sexp_car. simpl. rewrite Hv'. reflexivity.
  - split; [exact Hp | apply (cells_nodup _ _ Hc) | exact Hb | apply (cells_new _ _ Hc)].
  - symmetry. eapply entries_set; [apply (cells_nodup _ _ Hc) | exact Hf | exact Hw].
Qed.
Lemma entries_insert h (m : list (sexp * loc)) e o : e ∉ m.*2 -> entry_of (<[e := o]> h) <$> m = entry_of h <$> m.
Proof.
  intros He. apply list_fmap_ext. intros i [j e2] Hi. unfold entry_of, sexp_cdr. simpl. rewrite lookup_insert_ne; [reflexivity|].
  intros ->. apply He, list_elem_of_fmap. exists (j, e2). split; [reflexivity | eapply list_elem_of_lookup_2, Hi].
Qed.

Lemma cells_add h m k v e : cells h m -> h !! e = None -> cells (<[e := Pair k v false]> h) ((k, e) :: m).
Proof.
  intros Hc He.
  assert (Hni : e ∉ m.*2).
  { intros Hin. apply list_elem_of_fmap in Hin as ([j e'] & -> & Hin). destruct (cells_pair _ _ Hc j e' Hin) as [w Hw]. simpl in He. congruence. }
  split.
  - intros j e' Hin. apply elem_of_cons in Hin as [[= -> ->]|Hin]; [rewrite lookup_insert_eq; eauto|].
    rewrite lookup_insert_ne; [apply (cells_pair _ _ Hc j e' Hin)|]. intros ->. apply Hni, list_elem_of_fmap. exists (j, e'). auto.
  - simpl. constructor; [exact Hni | apply (cells_nodup _ _ Hc)].
  - etransitivity; [apply (cells_base _ _ Hc) | apply insert_subseteq, He].
  - simpl. intros e' Hin. apply elem_of_cons in Hin as [->|Hin]; [|apply (cells_new _ _ Hc), Hin].
    eapply lookup_weaken_None; [exact He | apply (cells_base _ _ Hc)].
Qed.

(** The values after a key has got an entry. *)
Definition entered (M : list (sexp * sexp)) (k createp : sexp) : list (sexp * sexp) :=
  match find M k with Some _ => M | None => (k, createp) :: M end.

Lemma maps_cell h ht M k createp : maps h ht M -> K k -> Z.of_nat (length M) <= most -> sexp_truep createp = true ->
  exists e h1 ht1 m, cell_of h ht k createp = Some (Ptr e, h1, ht1) /\ table h1 ht1 m /\ cells h1 m /\ find m k = Some e
    /\ entry_of h1 <$> m = entered M k createp /\ sexp_cdr h1 (Ptr e) = Some (default createp (find M k)).
Proof.
  intros (m & Ht & Hc & ->) Hk Hmost Hcr. rewrite length_fmap in Hmost. pose proof (cell_spec h ht m k createp Ht Hk Hmost) as Hs. unfold entered. rewrite find_entries.
  destruct (find m k) as [e|] eqn:E.
  - destruct (maps_find h _ m k e Hc eq_refl E) as (j & v & _ & Hcdr & _). exists e, h, ht, m. simpl. rewrite Hcdr. auto 10.
  - rewrite Hcr in Hs. destruct Hs as (ht1 & Ecell & Ht1). set (e := fresh (dom h)) in *.
    assert (He : h !! e = None) by (apply not_elem_of_dom, is_fresh).
    assert (Hc1 := cells_add h m k createp e Hc He). exists e, (<[e := Pair k createp false]> h), ht1, ((k, e) :: m).
    split; [exact Ecell|]. split; [exact Ht1|]. split; [exact Hc1|].
    simpl. rewrite (hashing_refl _ _ _ _ _ _ _ _ _ _ Hh0 k Hk). split; [reflexivity|].
    assert (Hcdr : sexp_cdr (<[e := Pair k createp false]> h) (Ptr e) = Some createp) by (unfold sexp_cdr; simpl; rewrite lookup_insert_eq; reflexivity).
    split; [|exact Hcdr]. f_equal; [unfold entry_of; simpl; rewrite Hcdr; reflexivity|].
    apply entries_insert. pose proof (cells_nodup _ _ Hc1) as Hnd. apply NoDup_cons in Hnd. apply Hnd.
Qed.

(** A cell that is found, or added, and set. *)
Lemma replace_entered M k createp v : K k -> replace (entered M k createp) k v = put M k v.
Proof.
  intros Hk. unfold entered, put. destruct (find M k); [reflexivity|]. simpl. rewrite (hashing_refl _ _ _ _ _ _ _ _ _ _ Hh0 k Hk). reflexivity.
Qed.

Lemma maps_lookup h ht M k : maps h ht M -> K k -> Z.of_nat (length M) <= most -> exists cell, cell_of h ht k SEXP_FALSE = Some (cell, h, ht)
  /\ match find M k with Some v => sexp_truep cell = true /\ sexp_cdr h cell = Some v | None => cell = SEXP_FALSE end.
Proof.
  intros (m & Ht & Hc & ->) Hk Hmost. rewrite length_fmap in Hmost. pose proof (cell_spec h ht m k SEXP_FALSE Ht Hk Hmost) as Hs. rewrite find_entries.
  destruct (find m k) as [e|] eqn:E; [|eexists; split; [exact Hs | reflexivity]].
  destruct (maps_find h _ m k e Hc eq_refl E) as (j & v & _ & Hcdr & _). exists (Ptr e).
  split; [exact Hs|]. simpl. rewrite Hcdr. split; reflexivity.
Qed.

(** *** Operations and their specification *)

Inductive op :=
| Ref (key default : sexp)
| Exists (key : sexp)
| Set_ (key value : sexp)
| Update (key : sexp) (func : sexp -> outcome) (o : option (outcome * option (sexp -> outcome)))
| UpdateDefault (key : sexp) (func : sexp -> outcome) (default : sexp)
| Delete (key : sexp)
| Size
| ToAlist.

Inductive result := RValue (v : outcome) | RBool (b : bool) | RSize (n : Z) | RList (l : list (sexp * sexp)).

Definition step_op (h : heap) (ht : hash_table) (o : op) : option (result * heap * hash_table) :=
  match o with
  | Ref k d => '(v, h, ht) ← hash_table_ref_default address hash_proc eq_proc fuel h ht k d; Some (RValue (Returns v), h, ht)
  | Exists k => '(b, h, ht) ← hash_table_exists address hash_proc eq_proc fuel h ht k; Some (RBool b, h, ht)
  | Set_ k v => '(h, ht) ← hash_table_set address hash_proc eq_proc fuel h ht k v; Some (RValue (Returns SEXP_VOID), h, ht)
  | Update k f o => '(r, h, ht) ← hash_table_update address hash_proc eq_proc not_found fuel h ht k f o; Some (RValue r, h, ht)
  | UpdateDefault k f d => '(r, h, ht) ← hash_table_update_default address hash_proc eq_proc not_found fuel h ht k f d; Some (RValue r, h, ht)
  | Delete k => ht ← delete_of h ht k; Some (RValue (Returns SEXP_VOID), h, ht)
  | Size => Some (RSize (ht_size ht), h, ht)
  | ToAlist => l ← hash_table_to_alist h ht; Some (RList l, h, ht)
  end.

(** The value that a key has, unless it is that of no value. *)
Definition present (M : list (sexp * sexp)) (k : sexp) : option sexp :=
  v ← find M k; if bool_decide (not_found = v) then None else Some v.

(** A key whose update fails is left without a value: it is there, with the pair
    of the library. *)
Definition updated (M : list (sexp * sexp)) (k : sexp) (r : outcome) : result * list (sexp * sexp) :=
  match r with
  | Returns v => (RValue (Returns SEXP_VOID), put M k v)
  | Raises => (RValue Raises, entered M k not_found)
  end.

Definition spec_op (M : list (sexp * sexp)) (o : op) : result * list (sexp * sexp) :=
  match o with
  | Ref k d => (RValue (Returns (default d (find M k))), M)
  | Exists k => (RBool (bool_decide (find M k <> None)), M)
  | Set_ k v => (RValue (Returns SEXP_VOID), put M k v)
  | Update k f o =>
      updated M k
        match present M k with
        | Some v => and_then (match o with Some (_, Some success) => success v | _ => Returns v end) f
        | None => match o with Some (r, _) => and_then r f | None => Raises end
        end
  | UpdateDefault k f d => updated M k (f (default d (present M k)))
  | Delete k => (RValue (Returns SEXP_VOID), remove M k)
  | Size => (RSize (Z.of_nat (length M)), M)
  | ToAlist => (RList M, M)
  end.

Definition op_key (o : op) : Prop :=
  match o with Ref k _ | Exists k | Set_ k _ | Update k _ _ | UpdateDefault k _ _ | Delete k => K k | Size | ToAlist => True end.

(** The order of the entries is the table's. *)
Definition same_result (r s : result) : Prop :=
  match r, s with RList l, RList l' => l ≡ₚ l' | _, _ => r = s end.
Lemma fold_entries_spec h (kons : sexp -> sexp -> list (sexp * sexp) -> option (list (sexp * sexp))) :
  (forall k v acc, kons k v acc = Some ((k, v) :: acc)) ->
  forall m acc, (forall k e, (k, e) ∈ m -> exists v, h !! e = Some (Pair k v false)) ->
  fold_entries h kons m.*2 acc = Some (rev (entry_of h <$> m) ++ acc).
Proof.
  intros Hk m. induction m as [|[k e] m IH]; intros acc Hm; [reflexivity|].
  destruct (Hm k e ltac:(apply elem_of_cons; auto)) as [v Hv]. simpl.
  assert (Ca : sexp_car h (Ptr e) = Some k) by (unfold sexp_car; simpl; rewrite Hv; reflexivity).
  assert (Cd : sexp_cdr h (Ptr e) = Some v) by (unfold sexp_cdr; simpl; rewrite Hv; reflexivity).
  rewrite Ca, Cd. simpl. rewrite Hk. simpl. rewrite IH; [|intros; apply Hm, elem_of_cons; auto].
  assert (Ee : entry_of h (k, e) = (k, v)) by (unfold entry_of; simpl; rewrite Cd; reflexivity).
  rewrite Ee, <- app_assoc. reflexivity.
Qed.

Lemma concat_rev {A} (l : list (list A)) : concat (rev l) ≡ₚ concat l.
Proof. induction l as [|x l IH]; [reflexivity|]. simpl. rewrite concat_app, IH. simpl. rewrite app_nil_r. apply Permutation_app_comm. Qed.

(** The entries in the order of the walk. *)
Lemma walk_entries h ht m : table h ht m -> exists m', m' ≡ₚ m /\ concat (rev (ht_buckets ht)) = m'.*2.
Proof.
  intros [_ _ (ms & Hp & HF & _) _ _ _]. exists (concat (rev ms)). split; [rewrite concat_rev; exact Hp|].
  apply Forall2_reverse in HF. unfold reverse in HF. rewrite <- !rev_alt in HF. symmetry. eapply concat_entries, HF.
Qed.

Lemma alist_spec h ht M : maps h ht M -> exists l, hash_table_to_alist h ht = Some l /\ l ≡ₚ M.
Proof.
  intros (m & Ht & Hc & ->). destruct (walk_entries h ht m Ht) as (m' & Hp & E).
  unfold hash_table_to_alist, hash_table_fold. rewrite E, fold_entries_spec; [|reflexivity|].
  - eexists. split; [reflexivity|]. rewrite app_nil_r, <- Permutation_rev, Hp. reflexivity.
  - intros k e Hin. rewrite Hp in Hin. apply (cells_pair _ _ Hc k e Hin).
Qed.

Lemma maps_delete h ht M k : maps h ht M -> K k -> exists ht', delete_of h ht k = Some ht' /\ maps h ht' (remove M k).
Proof.
  intros (m & Ht & Hc & ->) Hk. pose proof (delete_spec h ht m k Ht Hk) as Hd.
  destruct (find m k) as [e|] eqn:E.
  - destruct Hd as (ht' & E' & Ht'). exists ht'. split; [exact E'|]. exists (remove m k). split; [exact Ht'|].
    split; [|apply remove_entries]. destruct Hc as [H1 H2 H3 H4].
    assert (Hsub : remove m k `sublist_of` m) by apply remove_sublist. apply (fmap_sublist snd) in Hsub.
    split; [intros j e' Hin; apply H1; eapply remove_in, Hin | eapply sublist_NoDup; eauto | exact H3|].
    intros e' Hin. apply H4. eapply elem_of_sublist; eauto.
  - exists ht. split; [exact Hd|]. exists m. split; [exact Ht|]. split; [exact Hc|]. rewrite remove_entries. f_equal.
    clear - E. induction m as [|[j e] m IH]; [reflexivity|]. simpl in *. destruct (same j k); [discriminate|]. f_equal. auto.
Qed.

Lemma maps_put h ht M k v : maps h ht M -> K k -> Z.of_nat (length M) <= most -> exists h' ht', hash_table_set address hash_proc eq_proc fuel h ht k v = Some (h', ht') /\ maps h' ht' (put M k v).
Proof.
  intros HM Hk Hmost. unfold hash_table_set. destruct (maps_cell h ht M k SEXP_TRUE HM Hk Hmost eq_refl) as (e & h1 & ht1 & m & E & Ht & Hc & Hf & Em & _).
  rewrite E. simpl. destruct (maps_set h1 ht1 m k e v Ht Hc Hf) as (h' & E' & HM'). simpl in E'. rewrite E'. simpl.
  exists h', ht1. split; [reflexivity|]. rewrite Em, replace_entered in HM' by exact Hk. exact HM'.
Qed.

(** An update, with the new value of the old one. *)
Lemma maps_update h ht M k (g : sexp -> outcome) : maps h ht M -> K k -> Z.of_nat (length M) <= most -> exists h' ht',
  ('(cell, h, ht) ← cell_of h ht k not_found;
   old ← sexp_cdr h cell;
   match g old with
   | Returns v => h ← sexp_set_cdr h cell v; Some (Returns SEXP_VOID, h, ht)
   | Raises => Some (Raises, h, ht)
   end) = Some (match g (default not_found (find M k)) with Returns _ => Returns SEXP_VOID | Raises => Raises end, h', ht')
  /\ maps h' ht' (updated M k (g (default not_found (find M k)))).2.
Proof.
  intros HM Hk Hmost. destruct (maps_cell h ht M k not_found HM Hk Hmost eq_refl) as (e & h1 & ht1 & m & E & Ht & Hc & Hf & Em & Hcdr).
  rewrite E. simpl. rewrite Hcdr. simpl. destruct (g (default not_found (find M k))) as [v|] eqn:Eg.
  - destruct (maps_set h1 ht1 m k e v Ht Hc Hf) as (h' & E' & HM'). simpl in E'. rewrite E'. simpl.
    exists h', ht1. split; [reflexivity|]. rewrite Em, replace_entered in HM' by exact Hk. exact HM'.
  - exists h1, ht1. split; [reflexivity|]. simpl. exists m. auto.
Qed.

#[local] Ltac finish_op := eexists _, _, _; split; [reflexivity|]; split; [first [reflexivity | assumption] | eassumption].

Lemma step_refines h ht M o : maps h ht M -> op_key o -> Z.of_nat (length M) <= most ->
  exists r h' ht', step_op h ht o = Some (r, h', ht') /\ same_result r (spec_op M o).1 /\ maps h' ht' (spec_op M o).2.
Proof.
  intros HM Ho Hmost. destruct o as [k d|k|k v|k f o|k f d|k| |]; cbn [step_op spec_op op_key fst snd] in *.
  - destruct (maps_lookup h ht M k HM Ho Hmost) as (cell & E & Hc). unfold hash_table_ref_default. rewrite E. cbn.
    destruct (find M k) as [v|]; [destruct Hc as [Ht Hc]; rewrite Ht, Hc | subst cell]; cbn; finish_op.
  - destruct (maps_lookup h ht M k HM Ho Hmost) as (cell & E & Hc). unfold hash_table_exists. rewrite E. cbn.
    destruct (find M k) as [v|]; [destruct Hc as [Ht Hc]; rewrite Ht | subst cell]; cbn; finish_op.
  - destruct (maps_put h ht M k v HM Ho Hmost) as (h' & ht' & E & HM'). rewrite E. cbn. finish_op.
  - set (found v := and_then (match o with Some (_, Some success) => success v | _ => Returns v end) f).
    set (missing := match o with Some (r, _) => and_then r f | None => Raises end).
    destruct (maps_update h ht M k (fun old => if bool_decide (not_found = old) then missing else found old) HM Ho Hmost) as (h' & ht' & E & HM').
    unfold hash_table_update. fold missing. unfold found in E. rewrite E. cbn [mbind option_bind].
    assert (Eo : (if bool_decide (not_found = default not_found (find M k)) then missing else found (default not_found (find M k)))
      = match present M k with Some v => found v | None => missing end).
    { unfold present. destruct (find M k) as [v|]; simpl; [|rewrite bool_decide_true; reflexivity].
      change (default not_found (Some v)) with v. destruct (bool_decide _); reflexivity. }
    unfold found in Eo, HM'. rewrite Eo in *. eexists _, h', ht'. split; [reflexivity|]. split; [|exact HM'].
    destruct (match present M k with Some v => _ | None => _ end); reflexivity.
  - destruct (maps_update h ht M k (fun old => f (if bool_decide (not_found = old) then d else old)) HM Ho Hmost) as (h' & ht' & E & HM').
    unfold hash_table_update_default. rewrite E. cbn [mbind option_bind].
    assert (Eo : (if bool_decide (not_found = default not_found (find M k)) then d else default not_found (find M k)) = default d (present M k)).
    { unfold present. destruct (find M k) as [v|]; simpl; [|rewrite bool_decide_true; reflexivity].
      change (default not_found (Some v)) with v. destruct (bool_decide _); reflexivity. }
    rewrite Eo in *. eexists _, h', ht'. split; [reflexivity|]. split; [|exact HM']. destruct (f _); reflexivity.
  - destruct (maps_delete h ht M k HM Ho) as (ht' & E & HM'). rewrite E. cbn. finish_op.
  - eexists _, h, ht. split; [reflexivity|]. split; [|exact HM]. destruct HM as (m & Ht & _ & ->). simpl.
    rewrite (table_size _ _ _ _ _ _ _ _ _ _ _ _ Ht), length_fmap. reflexivity.
  - destruct (alist_spec h ht M HM) as (l & E & Hp). rewrite E. cbn. finish_op.
Qed.

Fixpoint run_ops (h : heap) (ht : hash_table) (os : list op) : option (list result * heap * hash_table) :=
  match os with
  | [] => Some ([], h, ht)
  | o :: os => '(r, h, ht) ← step_op h ht o; '(rs, h, ht) ← run_ops h ht os; Some (r :: rs, h, ht)
  end.

Fixpoint spec_ops (M : list (sexp * sexp)) (os : list op) : list result * list (sexp * sexp) :=
  match os with
  | [] => ([], M)
  | o :: os => ((spec_op M o).1 :: (spec_ops (spec_op M o).2 os).1, (spec_ops (spec_op M o).2 os).2)
  end.

Lemma replace_length M k v : length (replace M k v) = length M.
Proof. induction M as [|[j w] M IH]; simpl; [reflexivity|]. destruct (same j k); simpl; congruence. Qed.

(** An operation adds an entry at most. *)
Lemma spec_length M o : (length (spec_op M o).2 <= S (length M))%nat.
Proof.
  assert (Hput : forall k v, (length (put M k v) <= S (length M))%nat).
  { intros k v. unfold put. destruct (find M k); [rewrite replace_length | simpl]; lia. }
  assert (Hup : forall k r, (length (updated M k r).2 <= S (length M))%nat).
  { intros k [v|]; [apply Hput|]. simpl. unfold entered. destruct (find M k); simpl; lia. }
  destruct o; simpl; auto. pose proof (sublist_length _ _ (remove_sublist M key)). lia.
Qed.

Lemma ops_refine os : forall h ht M, maps h ht M -> Forall op_key os -> Z.of_nat (length M + length os) <= most ->
  exists rs h' ht', run_ops h ht os = Some (rs, h', ht') /\ Forall2 same_result rs (spec_ops M os).1 /\ maps h' ht' (spec_ops M os).2.
Proof.
  induction os as [|o os IH]; intros h ht M HM Ho Hmost; [eexists [], h, ht; split; [reflexivity|]; split; [constructor | exact HM]|].
  apply Forall_cons in Ho as [Ho Hos]. destruct (step_refines h ht M o HM Ho ltac:(simpl in Hmost; lia)) as (r & h1 & ht1 & E & Hr & HM1).
  destruct (IH h1 ht1 _ HM1 Hos ltac:(pose proof (spec_length M o); simpl in Hmost; lia)) as (rs & h' & ht' & E' & Hrs & HM'). exists (r :: rs), h', ht'. simpl. rewrite E. simpl. rewrite E'.
  split; [reflexivity|]. split; [constructor; assumption | exact HM'].
Qed.

(** [make-hash-table] *)
Lemma maps_new : maps h0 (make_hash_table efn hfn) [].
Proof.
  exists []. split; [|split; [|reflexivity]].
  - split; simpl; auto; [|unfold room; simpl; lia]. exists (replicate 23 []). split; [rewrite concat_replicate_nil; reflexivity|]. apply (spread_empty K idx h0 23).
  - split; [|constructor | reflexivity|]; intros *; intros Hin; apply elem_of_nil in Hin; contradiction.
Qed.

(** From an empty table. *)
Lemma new_refines ops : Forall op_key ops -> Z.of_nat (length ops) <= most ->
  exists rs h' ht', run_ops h0 (make_hash_table efn hfn) ops = Some (rs, h', ht') /\ Forall2 same_result rs (spec_ops [] ops).1
    /\ exists l, hash_table_to_alist h' ht' = Some l /\ l ≡ₚ (spec_ops [] ops).2.
Proof.
  intros Hops Hlen. destruct (ops_refine ops h0 _ [] maps_new Hops Hlen) as (rs & h' & ht' & E & Hrs & HM).
  exists rs, h', ht'. split; [exact E|]. split; [exact Hrs|]. apply alist_spec, HM.
Qed.
End cells.

(** ** Tables of objects *)

Section fits.
Context (address : sexp -> Z) (hash_proc : sexp -> sexp -> Z -> option sexp) (eq_proc : sexp -> sexp -> sexp -> option sexp).

Lemma unbox_small z : 0 <= z < 2 ^ 31 -> unbox_word address (Fixnum z) = z.
Proof.
  intros Hz. unfold unbox_word, word_of. simpl. rewrite swrap_id by lia. rewrite Z.shiftr_div_pow2 by lia. change (2 ^ 1) with 2.
  symmetry. apply Z.div_unique with 1; lia.
Qed.

Lemma bucket_unbox x len : room len -> unbox_word address (make_fixnum (x mod u64 (Z.of_nat len))) = x mod Z.of_nat len.
Proof.
  intros Hl. unfold room in Hl. unfold uwrap. rewrite (Z.mod_small (Z.of_nat len)) by lia.
  pose proof (Z.mod_pos_bound x (Z.of_nat len) ltac:(lia)). unfold make_fixnum. rewrite swrap_id by lia. apply unbox_small. lia.
Qed.

(** The keys of an [eq?] table are all objects. *)
Lemma eq_hashing fuel h : hashing address hash_proc eq_proc fuel FnOne FnOne (fun _ => True) (fun j k => bool_decide (j = k))
  (fun k len => u64 (word_of address k) mod Z.of_nat len) h.
Proof.
  split.
  - intros k _. apply bool_decide_true. reflexivity.
  - intros j k _ _. apply bool_decide_ext. split; congruence.
  - intros i j k _ _ _ H1 H2. apply bool_decide_eq_true in H1, H2. apply bool_decide_true. congruence.
  - reflexivity.
  - intros k len _ Hl. pose proof Hl as Hl'. unfold room in Hl'. split; [|apply Z.mod_pos_bound; lia].
    unfold sexp_get_bucket, sexp_hash_by_identity. simpl. rewrite unbox_small by lia.
    destruct (Z.eqb_spec (u64 (Z.of_nat len)) 0) as [E|_]; [unfold uwrap in E; rewrite Z.mod_small in E; lia|].
    rewrite bucket_unbox by exact Hl. reflexivity.
  - intros j k len _ _ H. apply bool_decide_eq_true in H. subst. reflexivity.
Qed.

(** The keys of an [equal?] table: trees that are not too large to compare, and
    that have a hash. *)
Record comparable (h : heap) (n : nat) (v : sexp) : Prop := Comparable {
  comparable_tree : exists d, datum_of n h v = Some d /\ weight d <= SEXP_DEFAULT_EQUAL_BOUND;
  comparable_hash : is_Some (hash_loop HASH_DEPTH h FNV_OFFSET_BASIS v);
}.

Lemma equal_op_decides h n fuel a b : trimmed_heap h -> (n < fuel)%nat -> Z.of_nat n <= SEXP_DEFAULT_EQUAL_DEPTH ->
  comparable h n a -> comparable h n b -> sexp_equalp_op fuel h a b = Some (bool_decide (datum_of n h a = datum_of n h b)).
Proof.
  intros Ht Hf Hn [(da & Ha & Wa) _] [(db & Hb & _) _]. unfold sexp_equalp_op.
  destruct (equalp_decides h Ht fuel n a b da db _ _ Hf Ha Hb Hn Wa) as (r & _ & E). rewrite E. simpl. rewrite Ha, Hb. f_equal.
  destruct (decide (da = db)) as [->|Hne]; [rewrite !bool_decide_true | rewrite !bool_decide_false]; congruence.
Qed.

Lemma equal_hashing fuel n h : trimmed_heap h -> (n < fuel)%nat -> Z.of_nat n <= SEXP_DEFAULT_EQUAL_DEPTH ->
  hashing address hash_proc eq_proc fuel FnTwo FnTwo (comparable h n) (fun j k => bool_decide (datum_of n h j = datum_of n h k))
    (fun k len => default 0 (hash_loop HASH_DEPTH h FNV_OFFSET_BASIS k) mod Z.of_nat len) h.
Proof.
  intros Ht Hf Hn. split.
  - intros k _. apply bool_decide_true. reflexivity.
  - intros j k _ _. apply bool_decide_ext. split; congruence.
  - intros i j k _ _ _ H1 H2. apply bool_decide_eq_true in H1, H2. apply bool_decide_true. congruence.
  - intros j k Hj Hk. pose proof (equal_op_decides h n fuel j k Ht Hf Hn Hj Hk) as He. unfold test_key.
    assert (Hatom : (forall l, k <> Ptr l) -> Some (bool_decide (j = k)) = Some (bool_decide (datum_of n h j = datum_of n h k))).
    { intros Hp. f_equal. rewrite (datum_atom n h k Hp). apply bool_decide_ext. split; [intros ->; apply datum_atom, Hp|].
      destruct j; try (destruct n; intros [= <-]; reflexivity). intros E. exfalso. apply ptr_datum in E as (_ & t & Et & Nt).
      destruct k; simpl in Et; congruence. }
    destruct k; simpl; try exact He; apply Hatom; congruence.
  - intros k len [_ [z Hz]] Hl. pose proof Hl as Hl'. unfold room in Hl'. split; [|apply Z.mod_pos_bound; lia].
    unfold sexp_get_bucket, sexp_hash, hash_one. rewrite Hz, unbox_small by lia. simpl.
    destruct (Z.eqb_spec (u64 (Z.of_nat len)) 0) as [E|_]; [unfold uwrap in E; rewrite Z.mod_small in E; lia|].
    rewrite bucket_unbox by exact Hl. reflexivity.
  - intros j k len [(dj & Ej & Wj) _] [(dk & Ek & Wk) _] H. apply bool_decide_eq_true in H. do 2 f_equal.
    rewrite Ej, Ek in H. injection H as <-.
    destruct (equalp_decides h Ht fuel n j k dj dj _ _ Hf Ej Ek Hn Wj) as (r & Hr & E). rewrite decide_True in E by reflexivity.
    apply (equalp_hash h Ht fuel HASH_DEPTH j k _ _ r E); [lia | vm_compute; discriminate].
Qed.
End fits.

(** ** Bounds *)

(** A table has room: an entry for every twelve buckets, and one more. *)
Definition loaded (ht : hash_table) : Prop :=
  23 <= Z.of_nat (length (ht_buckets ht)) /\ 12 * (ht_size ht - 1) <= Z.of_nat (length (ht_buckets ht)).

Section load.
Context (address : sexp -> Z) (hash_proc : sexp -> sexp -> Z -> option sexp) (eq_proc : sexp -> sexp -> sexp -> option sexp) (fuel : nat).
#[local] Abbreviation cell_of := (sexp_hash_table_cell address hash_proc eq_proc fuel).

Lemma regrow_entries_length h fn ls : forall new new', regrow_entries address hash_proc h fn new ls = Some new' -> length new' = length new.
Proof.
  induction ls as [|e ls IH]; intros new new'; simpl; [intros [= <-]; reflexivity|].
  unfold regrow_entry. destruct (sexp_car h (Ptr e)) as [key|]; simpl; [|discriminate].
  destruct (sexp_get_bucket _ _ _ _ _ _) as [j|]; simpl; [|discriminate]. destruct (new !! Z.to_nat j) as [l|]; simpl; [|discriminate].
  intros H. apply IH in H. rewrite H. apply length_insert.
Qed.

Lemma cell_load h ht k c r h' ht' : cell_of h ht k c = Some (r, h', ht') -> loaded ht -> loaded ht'.
Proof.
  unfold sexp_hash_table_cell. destruct (sexp_get_bucket _ _ _ _ _ _) as [i|]; simpl; [|discriminate].
  destruct (ht_buckets ht !! Z.to_nat i) as [ls|]; simpl; [|discriminate].
  destruct (sexp_scan_bucket _ _ _ _ _ _) as [[n|]|]; simpl; [destruct (ls !! n); simpl; [intros [= _ _ <-]; auto | discriminate]| |discriminate].
  destruct (sexp_truep c); [|intros [= _ _ <-]; auto].
  destruct (sexp_hash_resize_check _ _) eqn:Ec; unfold sexp_hash_resize_check in Ec; rewrite Z.shiftr_div_pow2 in Ec by lia; change (2 ^ 2) with 4 in Ec.
  - unfold sexp_regrow_hash_table. destruct (regrow_entries _ _ _ _ _ _) as [new|] eqn:E; simpl; [|discriminate].
    apply regrow_entries_length in E. rewrite length_replicate in E.
    destruct (sexp_get_bucket _ _ _ _ _ _) as [j|]; simpl; [|discriminate]. destruct (new !! Z.to_nat j); simpl; [|discriminate].
    intros [= _ _ <-] [H1 H2]. split; simpl; rewrite length_insert, E; lia.
  - simpl. destruct (ht_buckets ht !! Z.to_nat i); simpl; [|discriminate]. intros [= _ _ <-] [H1 H2].
    pose proof (Z.mul_div_le (Z.of_nat (length (ht_buckets ht))) 4 ltac:(lia)). split; simpl; rewrite length_insert; lia.
Qed.

Lemma delete_load h ht k ht' : sexp_hash_table_delete address hash_proc eq_proc fuel h ht k = Some ht' -> loaded ht -> loaded ht'.
Proof.
  unfold sexp_hash_table_delete. destruct (sexp_get_bucket _ _ _ _ _ _) as [i|]; simpl; [|discriminate].
  destruct (ht_buckets ht !! Z.to_nat i) as [ls|]; simpl; [|discriminate].
  destruct (sexp_scan_bucket _ _ _ _ _ _) as [[n|]|]; simpl; [|intros [= <-]; auto | discriminate].
  intros [= <-] [H1 H2]. split; simpl; rewrite length_insert; lia.
Qed.

Lemma step_load nf h ht o r h' ht' : step_op address hash_proc eq_proc fuel nf h ht o = Some (r, h', ht') -> loaded ht -> loaded ht'.
Proof.
  intros H HL. assert (Hcell : forall k c x, cell_of h ht k c = Some x -> loaded x.2) by (intros k c [[v h1] ht1] E; eapply cell_load; eauto).
  destruct o as [k d|k|k v|k f o|k f d|k| |]; cbn [step_op] in H;
    unfold hash_table_ref_default, hash_table_exists, hash_table_set, hash_table_update, hash_table_update_default in H;
    try (match type of H with context [cell_of h ht ?k ?c] => destruct (cell_of h ht k c) as [[[cell h1] ht1]|] eqn:E; [|discriminate] end;
      apply Hcell in E; simpl in E, H).
  - destruct (sexp_truep cell); [destruct (sexp_cdr h1 cell); simpl in H; [|discriminate]|]; injection H as <- <- <-; exact E.
  - injection H as <- <- <-. exact E.
  - destruct (sexp_set_cdr h1 cell v); simpl in H; [|discriminate]. injection H as <- <- <-. exact E.
  - destruct (sexp_cdr h1 cell) as [old|]; simpl in H; [|discriminate].
    destruct (if bool_decide _ then _ else _) as [v|] in H; [destruct (sexp_set_cdr h1 cell v); simpl in H; [|discriminate]|]; injection H as <- <- <-; exact E.
  - destruct (sexp_cdr h1 cell) as [old|]; simpl in H; [|discriminate].
    destruct (f _) as [v|] in H; [destruct (sexp_set_cdr h1 cell v); simpl in H; [|discriminate]|]; injection H as <- <- <-; exact E.
  - destruct (sexp_hash_table_delete _ _ _ _ _ _ _) as [ht1|] eqn:E; simpl in H; [|discriminate]. injection H as <- <- <-. eapply delete_load; eauto.
  - injection H as <- <- <-. exact HL.
  - destruct (hash_table_to_alist h ht); simpl in H; [|discriminate]. injection H as <- <- <-. exact HL.
Qed.
End load.

(** ** Properties *)

(** A table of any hash and equivalence functions that fit
    together does what an association list of keys and values does: from an empty
    table, any sequence of up to [2^26] lookups, tests, assignments, updates,
    deletions, counts and listings returns what the list returns, listings in some
    order, and the table in the end holds what the list holds.  The keys and what
    they are made of are in the heap [h]. *)
Theorem hash_tables_refine address hash_proc eq_proc fuel hfn efn K same idx h nf ops :
  hashing address hash_proc eq_proc fuel hfn efn K same idx h ->
  Forall (op_key K) ops -> Z.of_nat (length ops) <= most ->
  exists rs h' ht', run_ops address hash_proc eq_proc fuel nf h (make_hash_table efn hfn) ops = Some (rs, h', ht')
    /\ Forall2 same_result rs (spec_ops same nf [] ops).1
    /\ exists l, hash_table_to_alist h' ht' = Some l /\ l ≡ₚ (spec_ops same nf [] ops).2.
Proof.
  intros Hh Hops Hlen. apply (new_refines address hash_proc eq_proc fuel hfn efn K same idx h Hh nf ops Hops Hlen).
Qed.

(** C26 (functional).  Tables of [equal?] keys are maps of trees: with keys that are
    trees of up to 10000 objects in depth whose bignums have no spare limbs, two keys
    have one entry exactly if they are the same tree, wherever they are in memory,
    and every sequence of operations does what it does on an association list. *)
Theorem equal_tables_refine address hash_proc eq_proc fuel n h nf ops :
  trimmed_heap h -> (n < fuel)%nat -> Z.of_nat n <= SEXP_DEFAULT_EQUAL_DEPTH ->
  Forall (op_key (comparable h n)) ops -> Z.of_nat (length ops) <= most ->
  let same j k := bool_decide (datum_of n h j = datum_of n h k) in
  exists rs h' ht', run_ops address hash_proc eq_proc fuel nf h (make_hash_table FnTwo FnTwo) ops = Some (rs, h', ht')
    /\ Forall2 same_result rs (spec_ops same nf [] ops).1
    /\ exists l, hash_table_to_alist h' ht' = Some l /\ l ≡ₚ (spec_ops same nf [] ops).2.
Proof.
  intros Ht Hf Hn Hops Hlen.
  exact (new_refines _ _ _ _ _ _ _ _ _ h (equal_hashing address hash_proc eq_proc fuel n h Ht Hf Hn) nf ops Hops Hlen).
Qed.

(** The load of a table is bounded: whatever its functions return and
    its keys are, a table that was empty and has been used has at least 23 buckets
    and at most one entry for every twelve buckets, and one more. *)
Theorem hash_table_load address hash_proc eq_proc fuel efn hfn nf h ops rs h' ht' :
  run_ops address hash_proc eq_proc fuel nf h (make_hash_table efn hfn) ops = Some (rs, h', ht') ->
  23 <= Z.of_nat (length (ht_buckets ht')) /\ 12 * (ht_size ht' - 1) <= Z.of_nat (length (ht_buckets ht')).
Proof.
  assert (HL : loaded (make_hash_table efn hfn)) by (split; simpl; lia). revert HL. generalize (make_hash_table efn hfn) as ht.
  revert h rs h' ht'. induction ops as [|o ops IH]; intros h rs h' ht' ht HL; [intros [= _ _ <-]; exact HL|]. cbn [run_ops].
  destruct (step_op _ _ _ _ _ _ _ _) as [[[r h1] ht1]|] eqn:E; simpl; [|discriminate].
  destruct (run_ops _ _ _ _ _ _ _ _) as [[[rs' h2] ht2]|] eqn:E'; simpl; [|discriminate]. intros [= _ _ <-].
  eapply IH; [eapply step_load; eauto | exact E'].
Qed.

(** [2^63] as the product of [2^61] and 4, and as a difference of bignums. *)
Definition spare_limbs : heap := {[
  1%positive := BignumObj (Bignum 1 [2 ^ 63]); 2%positive := BignumObj (Bignum 1 [2 ^ 63; 0]); 3%positive := Pair (Fixnum 0) SEXP_NULL false ]}.

(** What the code does not mean to do.  The difference of two bignums
    keeps a limb of zero, and is [equal?] to a product but has another hash, so that
    a table does not find the one by the other.  A bound of zero divides by zero.  An
    update that fails because its key is not there leaves the key there, with the
    pair of the library as its value.  And an exception in the equivalence procedure
    of a table is taken for equality. *)
Theorem hash_faults :
  let address (v : sexp) := 0 in
  let run eq_fn hash_fn := run_ops address (fun _ _ _ => None) (fun _ _ _ => None) 5 3%positive spare_limbs (make_hash_table eq_fn hash_fn) in
  (Integers.sexp_mul (Fix (2 ^ 61)) (Fix 4) = Some (Big (Bignum 1 [2 ^ 63]))
     /\ Integers.sexp_sub (Big (Bignum 1 [2 ^ 63; 1])) (Big (Bignum 1 [0; 1])) = Big (Bignum 1 [2 ^ 63; 0])
     /\ sexp_equalp_op 5 spare_limbs (Ptr 1) (Ptr 2) = Some true
     /\ sexp_hash address spare_limbs (Ptr 1) (Fixnum 23) <> sexp_hash address spare_limbs (Ptr 2) (Fixnum 23)
     /\ (fun r => r.1.1) <$> run FnTwo FnTwo [Set_ (Ptr 1) SEXP_TRUE; Exists (Ptr 1); Exists (Ptr 2)]
        = Some [RValue (Returns SEXP_VOID); RBool true; RBool false])
  /\ (forall s, string_hash s 0 = None) /\ (forall h v, sexp_hash_by_identity address h v (Fixnum 0) = DividesByZero)
  /\ (fun r => r.1.1) <$> run FnTwo FnTwo [Update (Fixnum 1) Returns None; Exists (Fixnum 1); Ref (Fixnum 1) SEXP_FALSE]
     = Some [RValue Raises; RBool true; RValue (Returns (Ptr 3))]
  /\ (fun r => r.1.1) <$> run (FnProc SEXP_VOID) (FnProc SEXP_VOID) [Set_ (Fixnum 1) SEXP_TRUE; Ref (Fixnum 2) SEXP_FALSE]
     = Some [RValue (Returns SEXP_VOID); RValue (Returns SEXP_TRUE)].
Proof. split; [|repeat split]; try (repeat split; vm_compute; first [reflexivity | discriminate]). Qed.

(** ** Witnesses *)

(** The string "key" twice, and a pair of each with a number. *)
Definition two_keys : heap := {[
  1%positive := Heap.String "key"; 2%positive := Heap.String "key";
  3%positive := Pair (Ptr 1) (Fixnum 7) false; 4%positive := Pair (Ptr 2) (Fixnum 7) false;
  5%positive := Pair (Fixnum 0) SEXP_NULL false ]}.

Lemma two_keys_trimmed : trimmed_heap two_keys.
Proof. apply trimmed_heap_test. vm_compute. reflexivity. Qed.

Lemma two_keys_comparable v : v ∈ [Ptr 3; Ptr 4] -> comparable two_keys 3 v.
Proof.
  intros Hv. repeat (apply elem_of_cons in Hv as [->|Hv]); [| |apply elem_of_nil in Hv; contradiction];
    (split; [eexists; split; [vm_compute; reflexivity | vm_compute; discriminate] | eexists; vm_compute; reflexivity]).
Qed.

Definition no_address (v : sexp) : Z := 0.
Definition no_hash_proc (p obj : sexp) (len : Z) : option sexp := None.
Definition no_eq_proc (p a b : sexp) : option sexp := None.

(** What is entered for one key is found for the other. *)
Definition equal_script : list op := [Set_ (Ptr 3) (Fixnum 10); Ref (Ptr 4) SEXP_FALSE; Delete (Ptr 4); Exists (Ptr 3)].

Lemma equal_tables_refine_witness :
  (spec_ops (fun j k => bool_decide (datum_of 3 two_keys j = datum_of 3 two_keys k)) 5%positive [] equal_script).1 =
    [RValue (Returns SEXP_VOID); RValue (Returns (Fixnum 10)); RValue (Returns SEXP_VOID); RBool false]
  /\ exists rs h' ht', run_ops no_address no_hash_proc no_eq_proc 5 5%positive two_keys (make_hash_table FnTwo FnTwo) equal_script = Some (rs, h', ht')
    /\ Forall2 same_result rs (spec_ops (fun j k => bool_decide (datum_of 3 two_keys j = datum_of 3 two_keys k)) 5%positive [] equal_script).1
    /\ exists l, hash_table_to_alist h' ht' = Some l
       /\ l ≡ₚ (spec_ops (fun j k => bool_decide (datum_of 3 two_keys j = datum_of 3 two_keys k)) 5%positive [] equal_script).2.
Proof.
  split; [vm_compute; reflexivity|].
  apply (equal_tables_refine no_address no_hash_proc no_eq_proc 5 3 two_keys 5%positive equal_script);
    [exact two_keys_trimmed | lia | vm_compute; discriminate | | vm_compute; discriminate].
  repeat constructor; apply two_keys_comparable; rewrite !elem_of_cons; auto.
Defined.

Lemma hash_tables_refine_witness :
  exists rs h' ht', run_ops no_address no_hash_proc no_eq_proc 5 5%positive two_keys (make_hash_table FnOne FnOne) equal_script = Some (rs, h', ht')
    /\ Forall2 same_result rs (spec_ops (fun j k => bool_decide (j = k)) 5%positive [] equal_script).1
    /\ exists l, hash_table_to_alist h' ht' = Some l /\ l ≡ₚ (spec_ops (fun j k => bool_decide (j = k)) 5%positive [] equal_script).2.
Proof.
  apply (hash_tables_refine no_address no_hash_proc no_eq_proc 5 FnOne FnOne (fun _ => True) (fun j k => bool_decide (j = k))
    (fun k len => u64 (word_of no_address k) mod Z.of_nat len) two_keys 5%positive equal_script);
    [apply eq_hashing | repeat constructor | vm_compute; discriminate].
Defined.

(** Nine keys, which make the table grow. *)
Definition nine_keys : option (list result * heap * hash_table) :=
  run_ops no_address no_hash_proc no_eq_proc 5 5%positive two_keys (make_hash_table FnTwo FnTwo)
    (map (fun k => Set_ (Fixnum (Z.of_nat k)) SEXP_NULL) (seq 0 9)).

Lemma hash_table_load_witness : (fun r => length (ht_buckets r.2)) <$> nine_keys = Some 184%nat
  /\ match nine_keys with
     | Some (_, _, ht') => 23 <= Z.of_nat (length (ht_buckets ht')) /\ 12 * (ht_size ht' - 1) <= Z.of_nat (length (ht_buckets ht'))
     | None => False
     end.
Proof.
  split; [vm_compute; reflexivity|]. destruct nine_keys as [[[rs h'] ht']|] eqn:E; [|vm_compute in E; discriminate].
  exact (hash_table_load no_address no_hash_proc no_eq_proc 5 FnTwo FnTwo 5%positive two_keys _ rs h' ht' E).
Defined.
