(* ===== verification/Text.v ===== *)
(** * Characters of source text (sexp.c)

    What the reader and the printer ask of a byte: the classes of [ctype.h] in
    the C locale, digits in a base, the separators of tokens, and the comparison
    of C strings.  A byte is a number below 256, and [EOF] is -1 as in C. *)
From Stdlib Require Import ZifyNat ZifyBool Ascii String.
From S2P Require Import Prelude Utf8.
From stdpp Require Import base list option strings.
#[local] Open Scope Z_scope.

(** A character, and the bytes of a literal of the sources. *)
Notation ch c := (ltac:(let z := eval vm_compute in (Z.of_N (Ascii.N_of_ascii c%char)) in exact z)) (only parsing).
Notation lit s := (ltac:(let l := eval vm_compute in (map (fun c => Z.of_N (Ascii.N_of_ascii c)) (String.list_ascii_of_string s%string)) in exact l)) (only parsing).

Definition EOF : Z := -1.

(** The double quote *)
Definition dquote : Z := 34.

(** ** Classes *)

Definition isdigit (c : Z) : bool := (ch "0" <=? c) && (c <=? ch "9").
Definition isxdigit (c : Z) : bool :=
  isdigit c || (ch "a" <=? c) && (c <=? ch "f") || (ch "A" <=? c) && (c <=? ch "F").
Definition isspace (c : Z) : bool := (9 <=? c) && (c <=? 13) || (c =? ch " ").

Definition digit_value (c : Z) : Z := if c <=? ch "9" then c - ch "0" else sexp_tolower c - ch "a" + 10.
Definition hex_digit (n : Z) : Z := if n <=? 9 then ch "0" + n else ch "a" + n - 10.

Definition is_precision_indicator (c : Z) : bool :=
  (c =? ch "d") || (c =? ch "D") || (c =? ch "e") || (c =? ch "E") || (c =? ch "f") || (c =? ch "F")
  || (c =? ch "l") || (c =? ch "L") || (c =? ch "s") || (c =? ch "S").

Definition sexp_separators : list Z :=
  [0; 0; 0; 0; 0; 0; 0; 0; 0; 1; 1; 1; 1; 1; 0; 0;
   0; 0; 0; 0; 0; 0; 0; 0; 0; 0; 0; 0; 0; 0; 0; 0;
   1; 0; 1; 0; 0; 0; 0; 1; 1; 1; 0; 0; 1; 0; 0; 0;
   0; 0; 0; 0; 0; 0; 0; 0; 0; 0; 0; 1; 0; 0; 0; 0;
   0; 0; 0; 0; 0; 0; 0; 0; 0; 0; 0; 0; 0; 0; 0; 0;
   0; 0; 0; 0; 0; 0; 0; 0; 0; 0; 0; 1; 0; 1; 0; 0;
   0; 0; 0; 0; 0; 0; 0; 0; 0; 0; 0; 0; 0; 0; 0; 0;
   0; 0; 0; 0; 0; 0; 0; 0; 0; 0; 0; 1; 0; 1; 0; 0].

Definition sexp_is_separator (c : Z) : bool :=
  (0 <? c) && (c <? 128) && negb (nth (Z.to_nat c) sexp_separators 0 =? 0).

(** The signed [char] of a byte. *)
Definition schar (c : Z) : Z := swrap 8 c.

(** ** C strings *)

(** [strcasecmp(p, q) == 0] and [strcmp(p, q) == 0] *)
Definition strcasecmp_eq (p q : list Z) : bool := bool_decide (map sexp_tolower (c_string p) = map sexp_tolower (c_string q)).
Definition strcmp_eq (p q : list Z) : bool := bool_decide (c_string p = c_string q).

(** ** Facts *)

Definition is_byte (c : Z) : Prop := 0 <= c < 256.

(** A statement about a byte is decided by trying them all. *)
Lemma every_byte (P : Z -> bool) : forallb P (map Z.of_nat (seq 0 256)) = true -> forall c, is_byte c -> P c = true.
Proof.
  unfold is_byte. intros H c Hc. rewrite forallb_forall in H. apply H, in_map_iff.
  exists (Z.to_nat c). rewrite in_seq. lia.
Qed.

Lemma separator_byte c : sexp_is_separator c = true -> 0 < c < 128.
Proof. unfold sexp_is_separator. lia. Qed.

Lemma isdigit_range c : isdigit c = true <-> 48 <= c <= 57.
Proof. unfold isdigit. lia. Qed.

Lemma isxdigit_digit c : isdigit c = true -> isxdigit c = true.
Proof. unfold isxdigit. intros ->. reflexivity. Qed.

(** The digits of a base read as their values. *)
Lemma hex_digit_value n : 0 <= n < 16 -> isxdigit (hex_digit n) = true /\ digit_value (hex_digit n) = n.
Proof.
  intros Hn. assert (H : forallb (fun n => isxdigit (hex_digit n) && (digit_value (hex_digit n) =? n)) (map Z.of_nat (seq 0 16)) = true) by reflexivity.
  rewrite forallb_forall in H. specialize (H n). rewrite in_map_iff in H.
  specialize (H ltac:(exists (Z.to_nat n); rewrite in_seq; lia)). lia.
Qed.
