(* ===== verification/Symbols.v ===== *)
(** * Symbols (sexp.c, sexp-huff.h, sexp-unhuff.h)

    A short symbol is a word that holds the codes of its characters; the others
    are objects, which [sexp_intern] finds again through a table of buckets.  The
    coding and its inverse, the table, and what makes symbols names: interning
    the same string later gives the same symbol, and a symbol has one name. *)
From Stdlib Require Import ZifyNat ZifyBool Ascii String.
From S2P Require Import Prelude Utf8 Text.
From stdpp Require Import base list option gmap.
#[local] Open Scope Z_scope.

(** ** The coding of short symbols *)

(** The length of the code of each character, and its bits. *)
Definition huff_table : list (Z * Z) :=
  [(12, 3072); (15, 0); (15, 16384); (15, 8192); (15, 24576); (15, 2048); (15, 18432); (15, 10240);
   (15, 26624); (15, 6144); (15, 22528); (15, 14336); (15, 30720); (15, 256); (15, 16640); (15, 8448);
   (15, 24832); (15, 4352); (15, 20736); (15, 12544); (15, 28928); (15, 2304); (15, 18688); (15, 10496);
   (15, 26880); (15, 6400); (15, 22784); (15, 14592); (15, 30976); (15, 1280); (15, 17664); (15, 9472);
   (15, 25856); (8, 64); (15, 5376); (15, 21760); (15, 13568); (15, 29952); (15, 3328); (15, 19712);
   (15, 11520); (15, 27904); (11, 768); (10, 384); (15, 7424); (4, 13); (15, 23808); (10, 896);
   (15, 15616); (15, 32000); (14, 128); (14, 8320); (14, 4224); (14, 12416); (14, 2176); (14, 10368);
   (14, 6272); (14, 14464); (14, 1152); (14, 9344); (7, 80); (7, 66); (7, 34); (5, 9);
   (14, 5248); (14, 13440); (14, 3200); (14, 11392); (14, 7296); (14, 15488); (14, 640); (14, 8832);
   (14, 4736); (14, 12928); (14, 2688); (14, 10880); (14, 6784); (14, 14976); (14, 1664); (14, 9856);
   (14, 5760); (14, 13952); (14, 3712); (14, 11904); (14, 7808); (14, 16000); (14, 512); (14, 8704);
   (14, 4608); (14, 12800); (14, 2560); (14, 10752); (14, 6656); (14, 14848); (14, 1536); (14, 9728);
   (14, 5632); (3, 7); (7, 32); (4, 4); (5, 26); (4, 6); (7, 2); (5, 17);
   (6, 18); (4, 12); (12, 1024); (8, 192); (5, 24); (6, 50); (4, 5); (5, 10);
   (5, 1); (7, 112); (3, 3); (5, 8); (4, 14); (5, 25); (7, 98); (7, 48);
   (7, 96); (7, 16); (11, 1792); (14, 13824); (14, 3584); (14, 11776); (14, 7680); (14, 15872)].

Definition SEXP_IMMEDIATE_BITS : Z := 4.
Definition SEXP_ISYMBOL_TAG : Z := 6.

(** Characters that are never coded. *)
Definition huff_excluded (c : Z) : bool :=
  (c <=? 32) || (c >? 127) || (c =? ch "\") || (c =? ch "|") || (c =? ch ".") || (c =? ch "#") || sexp_is_separator c.

(** The loop of [sexp_intern]: the bits of all characters, or, where it gives
    up, the rest of the string and the bits so far. *)
Fixpoint huff_loop (p : list Z) (res space : Z) : Z + (list Z * Z) :=
  match p with
  | [] => inl res
  | c :: p' =>
      if huff_excluded c then inr (p, res)
      else
        let '(newbits, bits) := nth (Z.to_nat c) huff_table (0, 0) in
        if space + newbits >? 64 then inr (p, res)
        else huff_loop p' (Z.lor res (ushl 64 bits space)) (space + newbits)
  end.

(** The word of a symbol, or the arguments of its hash. *)
Definition huff_encode (p : list Z) : Z + (list Z * Z) :=
  let p0 := nth 0 p 0 in
  if (length p =? 0)%nat || isdigit p0 || (((p0 =? ch "+") || (p0 =? ch "-")) && (1 <? length p)%nat) then inr (p, 0)
  else match huff_loop p 0 SEXP_IMMEDIATE_BITS with inl res => inl (u64 (res + SEXP_ISYMBOL_TAG)) | inr r => inr r end.

Definition huff_tab21 : list Z := [1; 0; 3; 0; 2; 0; 4; 0].
Definition huff_tab19 : list Z := [1; 106; 1; 0].
Definition huff_tab20 : list Z := [5; 9; 7; 11; 6; 10; 8; 12].
Definition huff_tab18 : list Z := [50; 58; 54; 66; 52; 64; 56; 68; 51; 59; 55; 67; 53; 65; 57; 69].
Definition huff_tab17 : list Z := [13; 29; 21; 38; 17; 34; 25; 44; 15; 31; 23; 40; 19; 36; 27; 48; 14; 30; 22; 39; 18; 35; 26; 46; 16; 32; 24; 41; 20; 37; 28; 49].
Definition huff_tab16 : list Z := [86; 94; 90; 124; 88; 96; 92; 126; 87; 95; 91; 125; 89; 123; 93; 127].
Definition huff_tab15 : list Z := [70; 78; 74; 82; 72; 80; 76; 84; 71; 79; 75; 83; 73; 81; 77; 85].
Definition huff_tab13 : list Z := [0; 0; 0; 43; 0; 0; 0; 47].
Definition huff_tab14 : list Z := [42; 122].
Definition huff_tab11 : list Z := [0; 98; 0; 120].
Definition huff_tab12 : list Z := [33; 107].
Definition huff_tab9 : list Z := [0; 115; 0; 108].
Definition huff_tab10 : list Z := [121; 119; 60; 113].
Definition huff_tab8 : list Z := [112; 63; 103; 117].
Definition huff_tab7 : list Z := [102; 62; 61; 118].
Definition huff_tab5 : list Z := [0; 111; 0; 100].
Definition huff_tab6 : list Z := [104; 109].
Definition huff_tab4 : list Z := [99; 105].
Definition huff_tab3 : list Z := [110; 45].
Definition huff_tab1 : list Z := [0; 0; 0; 114; 0; 0; 0; 97].
Definition huff_tab2 : list Z := [101; 116].

Definition tab (t : list Z) (i : Z) : Z := nth (Z.to_nat i) t 0.

(** The decoder, over what it reads bits from: [bits n] is
    [res = c & (2^n - 1); c = c >> n]. *)
Section unhuff.
Context {S : Type} (bits : Z -> S -> option (Z * S)).

Definition look (t : list Z) (n : Z) (s : S) : option (Z * S) := '(r, s) ← bits n s; Some (tab t r, s).

Definition unhuff_0000 (s : S) : option (Z * S) :=
  '(res, s) ← bits 2 s;
  if res =? 0 then look huff_tab21 3 s
  else let res := tab huff_tab19 res in if res =? 1 then look huff_tab20 3 s else Some (res, s).

Definition unhuff_000 (s : S) : option (Z * S) :=
  '(res, s) ← bits 3 s;
  if res =? 0 then unhuff_0000 s
  else if res =? 1 then look huff_tab18 4 s
  else if res =? 2 then look huff_tab17 5 s
  else if res =? 4 then look huff_tab16 4 s
  else if res =? 5 then look huff_tab15 4 s
  else let res := tab huff_tab13 res in if res =? 0 then look huff_tab14 1 s else Some (res, s).

Definition unhuff_00 (s : S) : option (Z * S) :=
  '(res, s) ← bits 2 s;
  if res =? 0 then unhuff_000 s
  else let res := tab huff_tab11 res in if res =? 0 then look huff_tab12 1 s else Some (res, s).

Definition unhuff_0 (s : S) : option (Z * S) :=
  '(res, s) ← bits 2 s;
  if res =? 0 then unhuff_00 s
  else let res := tab huff_tab9 res in if res =? 0 then look huff_tab10 2 s else Some (res, s).

Definition unhuff (s : S) : option (Z * S) :=
  '(res, s) ← bits 3 s;
  if res =? 0 then unhuff_0 s
  else if res =? 1 then look huff_tab8 2 s
  else if res =? 2 then
    '(res, s) ← bits 2 s;
    if res =? 0 then look huff_tab7 2 s
    else let res := tab huff_tab5 res in if res =? 0 then look huff_tab6 1 s else Some (res, s)
  else if res =? 4 then look huff_tab4 1 s
  else if res =? 5 then look huff_tab3 1 s
  else let res := tab huff_tab1 res in if res =? 0 then look huff_tab2 1 s else Some (res, s).
End unhuff.

Definition word_bits (n c : Z) : option (Z * Z) := Some (Z.land c (2 ^ n - 1), ushr c n).

(** [while (c) ...]: a word of 60 bits holds at most 20 characters. *)
Fixpoint unhuff_loop (fuel : nat) (c : Z) : list Z :=
  match fuel with
  | O => []
  | S fuel =>
      if c =? 0 then []
      else match unhuff word_bits c with Some (res, c) => res :: unhuff_loop fuel c | None => [] end
  end.

Definition huff_decode (w : Z) : list Z := unhuff_loop 64 (ushr w SEXP_IMMEDIATE_BITS).

(** ** The symbol table *)

Inductive symbol := ISymbol (w : Z) | LSymbol (l : positive).
#[global] Instance symbol_eq_dec : EqDecision symbol.
Proof. solve_decision. Defined.

(** The names of the symbol objects, and the symbols of each bucket. *)
Record symbols := Symbols { names : gmap positive (list Z); buckets : gmap Z (list positive) }.

Definition FNV_PRIME : Z := 16777619.
Definition SEXP_SYMBOL_TABLE_SIZE : Z := 389.

Fixpoint sexp_string_hash (str : list Z) (acc : Z) : Z :=
  match str with
  | [] => acc
  | c :: str => sexp_string_hash str (Z.lxor (u64 (acc * FNV_PRIME)) (u64 (schar c)))
  end.

(** [strncmp(p, q, n) == 0] of two strings of [n] bytes *)
Fixpoint strncmp_eq (p q : list Z) : bool :=
  match p, q with
  | a :: p, b :: q => (a =? b) && ((a =? 0) || strncmp_eq p q)
  | _, _ => true
  end.

Fixpoint find_symbol (names : gmap positive (list Z)) (str : list Z) (ls : list positive) : option positive :=
  match ls with
  | [] => None
  | l :: ls =>
      match names !! l with
      | Some n => if (length n =? length str)%nat && strncmp_eq str n then Some l else find_symbol names str ls
      | None => find_symbol names str ls
      end
  end.

Definition bucket (t : symbols) (b : Z) : list positive := default [] (buckets t !! b).

Definition sexp_intern (t : symbols) (str : list Z) : symbol * symbols :=
  match huff_encode str with
  | inl w => (ISymbol w, t)
  | inr (p, res) =>
      let b := sexp_string_hash p res mod SEXP_SYMBOL_TABLE_SIZE in
      match find_symbol (names t) str (bucket t b) with
      | Some l => (LSymbol l, t)
      | None =>
          let l := fresh (dom (names t)) in
          (LSymbol l, Symbols (<[l := str]> (names t)) (<[b := l :: bucket t b]> (buckets t)))
      end
  end.

(** [sexp_symbol_to_string_op]: the characters of the string. *)
Definition sexp_symbol_to_string (t : symbols) (s : symbol) : option (list Z) :=
  match s with ISymbol w => Some (huff_decode w) | LSymbol l => names t !! l end.

Example short_symbols : forall t, (sexp_intern t (lit "lambda")).1 = ISymbol 8397205382 /\ huff_decode 8397205382 = lit "lambda".
Proof. split; vm_compute; reflexivity. Qed.

(** ** The coding is a prefix code *)

(** Decoders that read from related sources decode the same. *)
Section unhuff_sim.
Context {S1 S2 : Type} (R : S1 -> S2 -> Prop).

Definition sim (f : S1 -> option (Z * S1)) (g : S2 -> option (Z * S2)) : Prop :=
  forall s1 s2 r s1', R s1 s2 -> f s1 = Some (r, s1') -> exists s2', g s2 = Some (r, s2') /\ R s1' s2'.

Lemma sim_bind f g h k : sim f g -> (forall r, sim (h r) (k r)) ->
  sim (fun s => '(r, s) ← f s; h r s) (fun s => '(r, s) ← g s; k r s).
Proof.
  intros Hf Hh s1 s2 r s1' HR. destruct (f s1) as [[r1 s1'']|] eqn:E; simpl; [|discriminate]. intros H.
  destruct (Hf _ _ _ _ HR E) as (s2'' & E2 & HR'). rewrite E2. simpl. eapply Hh; eassumption.
Qed.

Lemma sim_ret r : sim (fun s => Some (r, s)) (fun s => Some (r, s)).
Proof. intros s1 s2 r' s1' HR [= <- <-]. eauto. Qed.

Lemma sim_if (b : bool) f1 f2 g1 g2 : sim f1 g1 -> sim f2 g2 -> sim (fun s => if b then f1 s else f2 s) (fun s => if b then g1 s else g2 s).
Proof. destruct b; auto. Qed.

Context (bits1 : Z -> S1 -> option (Z * S1)) (bits2 : Z -> S2 -> option (Z * S2)).
Hypothesis bits_sim : forall n, 0 <= n -> sim (bits1 n) (bits2 n).

Lemma look_sim t n : 0 <= n -> sim (look bits1 t n) (look bits2 t n).
Proof. intros Hn. apply sim_bind; [apply bits_sim, Hn | intros r; apply sim_ret]. Qed.

Ltac sim_steps := repeat first [apply look_sim; lia | apply sim_if | apply sim_ret | apply sim_bind; [apply bits_sim; lia | intros ?] | assumption].

Lemma unhuff_sim : sim (unhuff bits1) (unhuff bits2).
Proof.
  assert (H4 : sim (unhuff_0000 bits1) (unhuff_0000 bits2)) by (unfold unhuff_0000; sim_steps).
  assert (H3 : sim (unhuff_000 bits1) (unhuff_000 bits2)) by (unfold unhuff_000; sim_steps).
  assert (H2 : sim (unhuff_00 bits1) (unhuff_00 bits2)) by (unfold unhuff_00; sim_steps).
  assert (H1 : sim (unhuff_0 bits1) (unhuff_0 bits2)) by (unfold unhuff_0; sim_steps).
  unfold unhuff; sim_steps.
Qed.
End unhuff_sim.

(** A code of known length in front of unknown bits. *)
Definition code_bits (n : Z) (s : Z * Z) : option (Z * (Z * Z)) :=
  let '(b, l) := s in if n <=? l then Some (b mod 2 ^ n, (b / 2 ^ n, l - n)) else None.

Lemma code_bits_sim k n : 0 <= n -> sim (fun s c => c = s.1 + 2 ^ s.2 * k) (code_bits n) (word_bits n).
Proof.
  intros Hn [b l] c r [b' l'] -> H. unfold code_bits in H. simpl fst; simpl snd. destruct (Z.leb_spec n l); [|discriminate].
  injection H as <- <- <-. assert (E : 2 ^ l = 2 ^ (l - n) * 2 ^ n) by (rewrite <- Z.pow_add_r by lia; f_equal; lia).
  unfold word_bits. rewrite land_low, ushr_div by lia. simpl.
  replace (b + 2 ^ l * k) with (b + (2 ^ (l - n) * k) * 2 ^ n) by (rewrite E; ring).
  rewrite Z.mod_add, Z.div_add by lia. eauto.
Qed.

Definition code (c : Z) : Z * Z := let '(len, b) := nth (Z.to_nat c) huff_table (0, 0) in (b, len).

Definition coded (c : Z) : bool :=
  let '(b, len) := code c in
  (0 <? b) && (b <? 2 ^ len) && (3 <=? len) &&
  match unhuff code_bits (code c) with Some (r, (b', l')) => (r =? c) && (b' =? 0) && (l' =? 0) | None => false end.

Lemma chars_coded c : huff_excluded c = false -> coded c = true.
Proof.
  intros Hc. assert (Hb : is_byte c) by (unfold huff_excluded in Hc; unfold is_byte; lia).
  pose proof (every_byte (fun c => huff_excluded c || coded c) eq_refl c Hb) as H. simpl in H. rewrite Hc in H. exact H.
Qed.

Lemma unhuff_char c k : huff_excluded c = false -> unhuff word_bits ((code c).1 + 2 ^ (code c).2 * k) = Some (c, k).
Proof.
  intros Hc. pose proof (chars_coded c Hc) as H. unfold coded in H. destruct (code c) as [b len] eqn:E. simpl fst; simpl snd.
  apply andb_true_iff in H as [_ H].
  destruct (unhuff code_bits (b, len)) as [[r [b' l']]|] eqn:Eu; [|discriminate].
  destruct (unhuff_sim _ _ _ (code_bits_sim k) (b, len) _ _ _ eq_refl Eu) as (s2 & E2 & ->). simpl in *. rewrite E2.
  assert (r = c /\ b' = 0 /\ l' = 0) as (-> & -> & ->) by lia. do 2 f_equal. change (2 ^ 0) with 1. ring.
Qed.

Lemma code_range c : huff_excluded c = false -> 0 < (code c).1 < 2 ^ (code c).2 /\ 3 <= (code c).2.
Proof. intros Hc. pose proof (chars_coded c Hc) as H. unfold coded in H. destruct (code c) as [b len]. simpl. lia. Qed.

(** The codes of a string, first character in the low bits. *)
Fixpoint codes (p : list Z) : Z := match p with [] => 0 | c :: p => (code c).1 + 2 ^ (code c).2 * codes p end.
Fixpoint codes_length (p : list Z) : Z := match p with [] => 0 | c :: p => (code c).2 + codes_length p end.

Lemma huff_loop_codes p : forall res space r, 0 <= space -> 0 <= res < 2 ^ space -> huff_loop p res space = inl r ->
  Forall (fun c => huff_excluded c = false) p /\ r = res + 2 ^ space * codes p /\ (p <> [] -> space + codes_length p <= 64).
Proof.
  induction p as [|c p IH]; intros res space r Hs Hres H; cbn [huff_loop] in H.
  - injection H as <-. split; [constructor|]. split; [simpl; lia | congruence].
  - destruct (huff_excluded c) eqn:Ec; [discriminate|]. pose proof (code_range c Ec) as [Hb Hl].
    assert (En : nth (Z.to_nat c) huff_table (0, 0) = ((code c).2, (code c).1)) by (unfold code; destruct (nth _ _ _); reflexivity).
    rewrite En in H. cbn [codes codes_length]. set (b := (code c).1) in *. set (len := (code c).2) in *. clearbody b len. clear En.
    cbv beta iota in H. destruct (space + len >? 64) eqn:Eg; [discriminate|].
    assert (Hp : 2 ^ (space + len) = 2 ^ space * 2 ^ len) by (apply Z.pow_add_r; lia).
    assert (E : ushl 64 b space = b * 2 ^ space).
    { rewrite ushl_mul by lia. apply Z.mod_small. split; [nia|].
      apply Z.lt_le_trans with (2 ^ (space + len)); [nia | apply Z.pow_le_mono_r; lia]. }
    rewrite E, Z.lor_comm, lor_low_high in H by (unfold is_u; lia).
    apply IH in H as (Hf & -> & Hlen); [| lia | nia].
    split; [constructor; assumption|]. split; [rewrite Hp; ring|]. intros _.
    destruct p as [|c2 p]; [simpl; lia|]. specialize (Hlen ltac:(discriminate)). lia.
Qed.

Lemma codes_bound p : Forall (fun c => huff_excluded c = false) p -> 0 <= codes p < 2 ^ codes_length p /\ 3 * Z.of_nat (length p) <= codes_length p.
Proof.
  induction 1 as [|c p Hc _ [IH IHl]]; [simpl; lia|]. pose proof (code_range c Hc) as [Hb Hl]. simpl codes; simpl codes_length.
  simpl length. rewrite Z.pow_add_r by lia. split; [nia | lia].
Qed.

Lemma unhuff_loop_codes p : Forall (fun c => huff_excluded c = false) p -> forall fuel, (length p < fuel)%nat -> unhuff_loop fuel (codes p) = p.
Proof.
  induction 1 as [|c p Hc Hp IH]; intros [|fuel] Hf; simpl in Hf; [lia | reflexivity | lia |].
  cbn [unhuff_loop codes]. pose proof (code_range c Hc) as [Hb Hl]. pose proof (codes_bound p Hp) as [Hcp _].
  destruct (Z.eqb_spec ((code c).1 + 2 ^ (code c).2 * codes p) 0); [nia|].
  rewrite unhuff_char by exact Hc. rewrite IH by lia. reflexivity.
Qed.

(** A short symbol decodes to its name. *)
Lemma huff_decode_encode p w : huff_encode p = inl w -> huff_decode w = p.
Proof.
  unfold huff_encode. destruct (_ || _) eqn:E0; [discriminate|].
  destruct (huff_loop p 0 SEXP_IMMEDIATE_BITS) as [r|] eqn:E; [|discriminate]. intros [= <-].
  unfold SEXP_IMMEDIATE_BITS in *. apply huff_loop_codes in E as (Hf & -> & Hlen); [| lia | lia].
  pose proof (codes_bound p Hf) as [Hc Hl].
  assert (Hne : p <> []) by (intros ->; discriminate E0). specialize (Hlen Hne).
  unfold huff_decode, SEXP_IMMEDIATE_BITS, SEXP_ISYMBOL_TAG.
  assert (codes p < 2 ^ 60) by (apply Z.lt_le_trans with (2 ^ codes_length p); [lia | apply Z.pow_le_mono_r; lia]).
  rewrite uwrap_id by (unfold is_u; lia). rewrite ushr_div by lia.
  replace (0 + 2 ^ 4 * codes p + 6) with (6 + codes p * 2 ^ 4) by ring. rewrite Z.div_add by lia. change (6 / 2 ^ 4) with 0.
  apply unhuff_loop_codes; [exact Hf | lia].
Qed.

(** ** The table *)

Lemma strncmp_eq_refl p : strncmp_eq p p = true.
Proof. induction p as [|a p IH]; [reflexivity|]. simpl. rewrite Z.eqb_refl, IH, orb_true_r. reflexivity. Qed.

Lemma strncmp_eq_spec p : forall q, length q = length p -> Forall (fun c => c <> 0) p -> strncmp_eq p q = true -> p = q.
Proof.
  induction p as [|a p IH]; intros [|b q] Hl Hp H; try discriminate; [reflexivity|]. simpl in H.
  apply Forall_cons in Hp as [Ha Hp]. apply andb_true_iff in H as [Hab H]. apply Z.eqb_eq in Hab as <-.
  destruct (Z.eqb_spec a 0); [contradiction|]. f_equal. apply IH; [injection Hl; auto | exact Hp | exact H].
Qed.

Lemma strncmp_eq_sym p : forall q, strncmp_eq p q = strncmp_eq q p.
Proof.
  induction p as [|a p IH]; intros [|b q]; try reflexivity. simpl. rewrite (IH q), (Z.eqb_sym a b).
  destruct (Z.eqb_spec b a) as [->|]; reflexivity.
Qed.

Lemma strncmp_eq_spec_r q p : length q = length p -> Forall (fun c => c <> 0) q -> strncmp_eq p q = true -> p = q.
Proof. intros Hl Hq H. rewrite strncmp_eq_sym in H. symmetry. apply strncmp_eq_spec; auto. Qed.

Lemma find_symbol_some names str ls l : find_symbol names str ls = Some l ->
  l ∈ ls /\ exists n, names !! l = Some n /\ length n = length str /\ strncmp_eq str n = true.
Proof.
  induction ls as [|l' ls IH]; simpl; [discriminate|]. destruct (names !! l') as [n|] eqn:En.
  - destruct (_ && _) eqn:E.
    + intros [= <-]. apply andb_true_iff in E as [El Es]. apply Nat.eqb_eq in El. split; [left | eauto].
    + intros H. destruct (IH H). split; [right|]; assumption.
  - intros H. destruct (IH H). split; [right|]; assumption.
Qed.

Lemma find_symbol_none names str ls l : find_symbol names str ls = None -> l ∈ ls -> names !! l <> Some str.
Proof.
  induction ls as [|l' ls IH]; simpl; [intros _ H; apply elem_of_nil in H as []|].
  intros H Hl Hn. apply elem_of_cons in Hl as [->|Hl].
  - rewrite Hn, Nat.eqb_refl, strncmp_eq_refl in H. discriminate.
  - apply (IH ltac:(destruct (names !! l'); [destruct (_ && _); [discriminate|] |]; exact H) Hl Hn).
Qed.

(** The bucket of a name. *)
Definition home (str : list Z) : option Z :=
  match huff_encode str with inl _ => None | inr (p, res) => Some (sexp_string_hash p res mod SEXP_SYMBOL_TABLE_SIZE) end.

Record symbols_wf (t : symbols) : Prop := {
  wf_bucket : forall b l, l ∈ bucket t b -> exists n, names t !! l = Some n /\ home n = Some b;
  wf_home : forall l n, names t !! l = Some n -> exists b, l ∈ bucket t b;
  wf_names : forall l l' n, names t !! l = Some n -> names t !! l' = Some n -> l = l' }.

Definition no_symbols : symbols := Symbols ∅ ∅.

Lemma no_symbols_wf : symbols_wf no_symbols.
Proof. split; simpl; intros *; unfold bucket; simpl; rewrite ?lookup_empty; simpl; try discriminate. intros H%elem_of_nil. destruct H. Qed.

Lemma wf_in_home t l n : symbols_wf t -> names t !! l = Some n -> exists b, home n = Some b /\ l ∈ bucket t b.
Proof.
  intros [Hb Hh _] Hn. destruct (Hh l n Hn) as [b Hl]. destruct (Hb b l Hl) as (n' & Hn' & Hhome).
  rewrite Hn in Hn'. injection Hn' as <-. eauto.
Qed.

(** A symbol that the table knows, and that a name without zeros is found by. *)
Definition names_symbol (t : symbols) (x : symbol) (str : list Z) : Prop :=
  match x with ISymbol w => huff_encode str = inl w | LSymbol l => names t !! l = Some str end.

Lemma intern_spec t str x t' : symbols_wf t -> sexp_intern t str = (x, t') ->
  symbols_wf t' /\ names t ⊆ names t' /\
  exists n, names_symbol t' x n /\ length n = length str /\ strncmp_eq str n = true.
Proof.
  intros Ht. unfold sexp_intern. destruct (huff_encode str) as [w|[p res]] eqn:E.
  { intros [= <- <-]. split; [exact Ht|]. split; [reflexivity|]. exists str. simpl. auto using strncmp_eq_refl. }
  set (b := sexp_string_hash p res mod SEXP_SYMBOL_TABLE_SIZE). assert (Hhome : home str = Some b) by (unfold home; rewrite E; reflexivity).
  destruct (find_symbol (names t) str (bucket t b)) as [l|] eqn:Ef; intros [= <- <-].
  { apply find_symbol_some in Ef as [_ Hn]. split; [exact Ht|]. split; [reflexivity | exact Hn]. }
  set (l := fresh (dom (names t))). assert (Hfresh : names t !! l = None) by apply not_elem_of_dom, is_fresh.
  assert (Hnew : forall l, names t !! l <> Some str).
  { intros l' Hn. destruct (wf_in_home t l' str Ht Hn) as (b' & Hb' & Hl'). rewrite Hhome in Hb'. injection Hb' as <-.
    exact (find_symbol_none _ _ _ _ Ef Hl' Hn). }
  split; [|split; [apply insert_subseteq, Hfresh|]].
  2: { exists str. simpl. rewrite lookup_insert_eq. auto using strncmp_eq_refl. }
  assert (Hold : forall l' b', l' ∈ bucket t b' -> l' ∈ bucket (Symbols (<[l:=str]> (names t)) (<[b:=l :: bucket t b]> (buckets t))) b').
  { intros l' b' Hl'. unfold bucket at 1. simpl. destruct (decide (b = b')) as [<-|]; [rewrite lookup_insert_eq; right; exact Hl' | rewrite lookup_insert_ne by assumption; exact Hl']. }
  split; simpl.
  - intros b' l' Hl'. unfold bucket in Hl'. simpl in Hl'.
    assert (Hcase : l' = l /\ b' = b \/ l' ∈ bucket t b').
    { destruct (decide (b = b')) as [<-|].
      - rewrite lookup_insert_eq in Hl'. apply elem_of_cons in Hl' as [->|]; auto.
      - rewrite lookup_insert_ne in Hl' by assumption. auto. }
    destruct Hcase as [[-> ->]|Hin]; [exists str; rewrite lookup_insert_eq; auto|].
    destruct (wf_bucket t Ht b' l' Hin) as (n & Hn & Hhn). exists n. rewrite lookup_insert_ne by congruence. auto.
  - intros l' n. destruct (decide (l = l')) as [<-|].
    + intros _. exists b. unfold bucket. simpl. rewrite lookup_insert_eq. left.
    + rewrite lookup_insert_ne by assumption. intros Hn. destruct (wf_home t Ht l' n Hn) as [b' Hb']. eauto.
  - intros l1 l2 n. destruct (decide (l = l1)) as [<-|], (decide (l = l2)) as [<-|]; rewrite ?lookup_insert_eq, ?lookup_insert_ne by assumption.
    + reflexivity.
    + intros [= <-] H2. destruct (Hnew l2 H2).
    + intros H1 [= <-]. destruct (Hnew l1 H1).
    + apply (wf_names t Ht).
Qed.

Fixpoint intern_all (t : symbols) (strs : list (list Z)) : symbols :=
  match strs with [] => t | str :: strs => intern_all (sexp_intern t str).2 strs end.

Lemma intern_all_wf strs : forall t, symbols_wf t -> symbols_wf (intern_all t strs) /\ names t ⊆ names (intern_all t strs).
Proof.
  induction strs as [|str strs IH]; intros t Ht; [auto|]. simpl. destruct (sexp_intern t str) as [x t1] eqn:E.
  destruct (intern_spec t str x t1 Ht E) as (H1 & Hs & _). destruct (IH t1 H1) as [H2 Hs2]. split; [exact H2|]. etrans; eassumption.
Qed.

Lemma names_symbol_mono t t' x n : names t ⊆ names t' -> names_symbol t x n -> names_symbol t' x n.
Proof. intros Hs. destruct x as [w|l]; [auto|]. simpl. intros H. eapply lookup_weaken; eassumption. Qed.

Lemma names_symbol_inj t x y n : symbols_wf t -> names_symbol t x n -> names_symbol t y n -> x = y.
Proof.
  intros Ht. destruct x as [w|l], y as [w'|l']; simpl; intros Hx Hy.
  - congruence.
  - destruct (wf_in_home t l' n Ht Hy) as (b & Hb & _). unfold home in Hb. rewrite Hx in Hb. discriminate.
  - destruct (wf_in_home t l n Ht Hx) as (b & Hb & _). unfold home in Hb. rewrite Hy in Hb. discriminate.
  - f_equal. exact (wf_names t Ht l l' n Hx Hy).
Qed.

Lemma names_symbol_name t x n m : names_symbol t x n -> names_symbol t x m -> n = m.
Proof.
  destruct x as [w|l]; simpl; intros Hn Hm; [|congruence].
  apply huff_decode_encode in Hn, Hm. congruence.
Qed.

Lemma names_symbol_string t x n : names_symbol t x n -> sexp_symbol_to_string t x = Some n.
Proof. destruct x; simpl; [intros H%huff_decode_encode; congruence | auto]. Qed.

(** C33 (roundtrip).  Symbols are names.  Whatever was interned before and
    between, interning a string without zeros gives a symbol whose string it is,
    and a string that is interned later gives the same symbol if and only if it
    is the same string: for the symbols whose characters are packed into a word as
    for those that the table holds. *)
Theorem symbols_are_names before between str str' : Forall (fun c => c <> 0) str ->
  let '(x, t) := sexp_intern (intern_all no_symbols before) str in
  let '(y, t') := sexp_intern (intern_all t between) str' in
  sexp_symbol_to_string t' x = Some str /\ (x = y <-> str = str').
Proof.
  intros Hz. destruct (intern_all_wf before no_symbols no_symbols_wf) as [H0 _].
  destruct (sexp_intern _ str) as [x t] eqn:Ex. destruct (intern_spec _ _ _ _ H0 Ex) as (H1 & _ & n & Hn & Hl & Hc).
  rewrite <- (strncmp_eq_spec str n Hl Hz Hc) in Hn. clear Hl Hc.
  destruct (intern_all_wf between t H1) as [H2 Hs2].
  destruct (sexp_intern _ str') as [y t'] eqn:Ey. destruct (intern_spec _ _ _ _ H2 Ey) as (H3 & Hs3 & n' & Hn' & Hl' & Hc').
  pose proof (names_symbol_mono _ _ _ _ Hs3 (names_symbol_mono _ _ _ _ Hs2 Hn)) as Hx.
  split; [apply names_symbol_string, Hx|]. split.
  - intros <-. rewrite (names_symbol_name _ _ _ _ Hn' Hx) in Hl', Hc'. symmetry.
    exact (strncmp_eq_spec_r str str' Hl' Hz Hc').
  - intros <-. rewrite <- (strncmp_eq_spec str n' Hl' Hz Hc') in Hn'. exact (names_symbol_inj _ _ _ _ H3 Hx Hn').
Qed.

Lemma symbols_are_names_witness :
  let '(x, t) := sexp_intern (intern_all no_symbols [lit "call-with-current-continuation"]) (lit "a.b") in
  let '(y, t') := sexp_intern (intern_all t [lit "car"]) (lit "a.c") in
  sexp_symbol_to_string t' x = Some (lit "a.b") /\ (x = y <-> lit "a.b" = lit "a.c").
Proof. apply (symbols_are_names [lit "call-with-current-continuation"] [lit "car"] (lit "a.b") (lit "a.c")). repeat constructor; lia. Defined.

(** Names that hold a zero are not told apart: of two strings of the same length that
    agree up to a zero and fall into the same bucket, the second is interned as the
    symbol that the first made, whose string is not the one that was interned. *)
Theorem zero_names_confused :
  let '(x, t) := sexp_intern no_symbols [97; 0; 68; 84] in
  let '(y, t') := sexp_intern t [97; 0; 65; 65] in
  x = y /\ sexp_symbol_to_string t' y = Some [97; 0; 68; 84].
Proof. vm_compute. split; reflexivity. Qed.
