(* ===== verification/Decimal.v ===== *)
(** * Numerals (bignum.c)

    The numeral of a number in a base, which [snprintf] writes for fixnums, and
    [sexp_write_bignum], which fills a buffer from its end by repeated division:
    it never leaves the buffer that it has computed the size of. *)
From Stdlib Require Import ZifyNat ZifyBool Ascii String.
From S2P Require Import Prelude LongLong Limbs Bignum Integers Division Text.
From stdpp Require Import base list option.
#[local] Open Scope Z_scope.

(** ** Numerals *)

Fixpoint numeral_loop (fuel : nat) (base n : Z) (acc : list Z) : list Z :=
  match fuel with
  | O => acc
  | S fuel => if n =? 0 then acc else numeral_loop fuel base (n / base) (hex_digit (n mod base) :: acc)
  end.

Definition numeral (base n : Z) : list Z :=
  if n =? 0 then [ch "0"] else numeral_loop (S (Z.to_nat (Z.log2 n))) base n [].

Definition signed_numeral (base n : Z) : list Z := (if n <? 0 then [ch "-"] else []) ++ numeral base (Z.abs n).

(** [snprintf(numbuf, sizeof(numbuf), "%ld", n)] *)
Definition fixnum_text (n : Z) : list Z := signed_numeral 10 n.

(** What a string of digits stands for, behind the digits of [v]. *)
Definition digits_value (base : Z) (ds : list Z) (v : Z) : Z := fold_left (fun v c => v * base + digit_value c) ds v.

Definition is_digit (base c : Z) : Prop := isxdigit c = true /\ 0 <= digit_value c < base.

(** ** [sexp_write_bignum] *)

Fixpoint log2i_loop (n : nat) (i v : Z) : Z :=
  match n with
  | O => i
  | S n => if 2 ^ (i + 1) >? v then i else log2i_loop n (i + 1) v
  end.
Definition log2i (v : Z) : Z := log2i_loop 31 0 v.

(** The text, the exception for a base that is too small, or a store in front of
    the buffer. *)
Inductive written := Written (text : list Z) | SmallBase | BufferUnderflow.

Section write.
Context {T : Type} `{LongUInt T}.

(** [while (! sexp_bignum_zerop(b)) data[--i] = hex_digit(sexp_bignum_fxdiv(ctx, b, base, 0));]
    [acc] is what follows [data + i]. *)
Fixpoint write_digits (b : bignum) (base : Z) (i : nat) (acc : list Z) : option (nat * list Z) :=
  if sexp_bignum_zerop b then Some (i, acc)
  else match i with
       | O => None
       | S i => let '(b, r) := sexp_bignum_fxdiv b base 0 in write_digits b base i (hex_digit r :: acc)
       end.

Definition sexp_write_bignum (a : bignum) (base : Z) : written :=
  let lg_base := log2i base in
  let b := Bignum 1 (data (sexp_copy_bignum None a 0)) in
  if lg_base <? 1 then SmallBase
  else
    let str_len := Z.to_nat ((Z.of_nat (length (data b)) * 8 * 8 + lg_base - 1) / lg_base + 1) in
    match write_digits b base str_len [] with
    | None => BufferUnderflow
    | Some (i, text) =>
        if (i =? str_len)%nat then match i with O => BufferUnderflow | S _ => Written (ch "0" :: text) end
        else if sign a =? -1 then match i with O => BufferUnderflow | S _ => Written (ch "-" :: text) end
        else Written text
    end.
End write.

(** ** Facts about numerals *)

Lemma digits_value_app base ds ds' v : digits_value base (ds ++ ds') v = digits_value base ds' (digits_value base ds v).
Proof. apply fold_left_app. Qed.

Lemma hex_digit_is_digit base d : 0 <= d < base -> base <= 16 -> is_digit base (hex_digit d).
Proof. intros Hd Hb. destruct (hex_digit_value d ltac:(lia)) as [H1 H2]. split; [exact H1 | rewrite H2; lia]. Qed.

Lemma numeral_loop_spec base fuel : 2 <= base <= 16 -> forall n acc, 0 <= n < 2 ^ Z.of_nat fuel ->
  exists ds, numeral_loop fuel base n acc = ds ++ acc /\ Forall (is_digit base) ds /\
    (forall v, digits_value base ds v = v * base ^ Z.of_nat (length ds) + n) /\ (n = 0 -> ds = []) /\
    (0 < n -> ds <> [] /\ hd 0 ds <> ch "0" /\ base ^ (Z.of_nat (length ds) - 1) <= n).
Proof.
  intros Hb. induction fuel as [|fuel IH]; intros n acc Hn; cbn [numeral_loop].
  { exists []. split; [reflexivity|]. split; [constructor|]. split; [intros v; simpl in *; lia|]. split; [reflexivity|]. simpl in *; lia. }
  destruct (Z.eqb_spec n 0) as [->|Hn0].
  { exists []. split; [reflexivity|]. split; [constructor|]. split; [intros v; simpl in *; lia|]. split; [reflexivity|]. simpl in *; lia. }
  pose proof (Z.div_mod n base ltac:(lia)) as E. pose proof (Z.mod_pos_bound n base ltac:(lia)) as Hm.
  assert (Hq : 0 <= n / base < 2 ^ Z.of_nat fuel).
  { split; [apply Z.div_pos; lia|]. apply Z.div_lt_upper_bound; [lia|]. rewrite Nat2Z.inj_succ, Z.pow_succ_r in Hn by lia. nia. }
  destruct (IH (n / base) (hex_digit (n mod base) :: acc) Hq) as (ds & -> & Hds & Hv & Hnil & Hpos).
  exists (ds ++ [hex_digit (n mod base)]). split; [rewrite <- app_assoc; reflexivity|].
  destruct (hex_digit_value (n mod base) ltac:(lia)) as [_ Hd].
  assert (El : Z.of_nat (length (ds ++ [hex_digit (n mod base)])) = Z.of_nat (length ds) + 1) by (rewrite length_app; simpl; lia).
  split; [|split; [|split; [lia|]]].
  - apply Forall_app. split; [exact Hds|]. constructor; [apply hex_digit_is_digit; lia | constructor].
  - intros v. rewrite digits_value_app, Hv, El. simpl. rewrite Hd, Z.pow_add_r, Z.pow_1_r by lia. lia.
  - intros _. split; [destruct ds; discriminate|]. rewrite El. destruct (Z.eq_dec (n / base) 0) as [Ez|].
    + rewrite (Hnil Ez). simpl. split; [|lia]. unfold hex_digit. destruct (Z.leb_spec (n mod base) 9); lia.
    + destruct (Hpos ltac:(lia)) as (Hne & Hhd & Hle). destruct ds as [|d ds]; [contradiction|]. split; [exact Hhd|].
      replace (Z.of_nat (length (d :: ds)) + 1 - 1) with (Z.of_nat (length (d :: ds)) - 1 + 1) by lia.
      rewrite Z.pow_add_r, Z.pow_1_r by (simpl length; lia). nia.
Qed.

(** A numeral is made of digits and has the value of the number; only that of
    zero begins with a zero. *)
Lemma numeral_spec base n : 2 <= base <= 16 -> 0 <= n ->
  Forall (is_digit base) (numeral base n) /\ numeral base n <> [] /\ digits_value base (numeral base n) 0 = n /\
  (0 < n -> hd 0 (numeral base n) <> ch "0").
Proof.
  intros Hb Hn. unfold numeral. destruct (Z.eqb_spec n 0) as [->|].
  - split; [|split; [discriminate | split; [reflexivity | lia]]]. constructor; [apply (hex_digit_is_digit base 0); lia | constructor].
  - destruct (numeral_loop_spec base (S (Z.to_nat (Z.log2 n))) Hb n []) as (ds & E & Hf & Hv & _ & Hp).
    { pose proof (Z.log2_spec n ltac:(lia)). rewrite Nat2Z.inj_succ, Z2Nat.id by apply Z.log2_nonneg. lia. }
    destruct (Hp ltac:(lia)) as (Hne & Hhd & _). rewrite app_nil_r in E. rewrite E. rewrite Hv. auto with lia.
Qed.

Lemma numeral_loop_more base f : forall f' n acc, 2 <= base -> 0 <= n < 2 ^ Z.of_nat f -> 0 <= n < 2 ^ Z.of_nat f' ->
  numeral_loop f base n acc = numeral_loop f' base n acc.
Proof.
  induction f as [|f IH]; intros [|f'] n acc Hb Hn Hn'; cbn [numeral_loop]; try reflexivity.
  - simpl in Hn. destruct (Z.eqb_spec n 0); [reflexivity | lia].
  - simpl in Hn'. destruct (Z.eqb_spec n 0); [reflexivity | lia].
  - destruct (Z.eqb_spec n 0); [reflexivity|]. rewrite Nat2Z.inj_succ, Z.pow_succ_r in Hn, Hn' by lia.
    assert (n / base <= n / 2) by (apply Z.div_le_compat_l; lia). pose proof (Z.div_pos n base ltac:(lia) ltac:(lia)).
    assert (n / 2 < 2 ^ Z.of_nat f) by (apply Z.div_lt_upper_bound; lia).
    assert (n / 2 < 2 ^ Z.of_nat f') by (apply Z.div_lt_upper_bound; lia).
    apply IH; lia.
Qed.

(** ** The buffer *)

Section write_facts.
Context {T : Type} `{LongUIntOk T}.

Lemma zerop_mag a : wf a -> sexp_bignum_zerop a = (mag a =? 0).
Proof.
  intros (_ & _ & Hl). unfold sexp_bignum_zerop, mag. destruct (Z.eqb_spec (dval (data a)) 0) as [E|Hne].
  - apply dval_zero_all in E; [|exact Hl]. rewrite E. clear. induction (length (data a)); [reflexivity | assumption].
  - apply not_true_iff_false. intros Hall. apply Hne. clear Hne Hl. induction (data a) as [|d ds IH]; [reflexivity|].
    simpl in Hall. apply andb_true_iff in Hall as [Hd Hall]. apply Z.eqb_eq in Hd as ->. rewrite dval_cons, IH by exact Hall. lia.
Qed.

Lemma write_digits_spec base i : 2 <= base <= 16 -> forall b acc, wf b -> mag b < base ^ Z.of_nat i ->
  exists ds, write_digits b base i acc = Some ((i - length ds)%nat, ds ++ acc) /\ (length ds <= i)%nat /\
    forall f, mag b < 2 ^ Z.of_nat f -> numeral_loop f base (mag b) acc = ds ++ acc.
Proof.
  intros Hb. induction i as [|i IH]; intros b acc Hw Hlt; pose proof (mag_nonneg b Hw) as Hnn; cbn [write_digits]; rewrite zerop_mag by exact Hw.
  - simpl in Hlt. assert (E : mag b = 0) by lia. rewrite E. exists []. split; [reflexivity|]. split; [reflexivity|].
    intros [|f] _; reflexivity.
  - destruct (Z.eqb_spec (mag b) 0) as [E|Hne].
    { exists []. split; [reflexivity|]. split; [simpl; lia|]. rewrite E. intros [|f] _; reflexivity. }
    pose proof (fxdiv_spec b base Hw ltac:(unfold is_u; lia) ltac:(lia)) as Hd. destruct (sexp_bignum_fxdiv b base 0) as [q r].
    destruct Hd as (Hq & _ & _ & Hmq & Hr).
    assert (Hlt' : mag q < base ^ Z.of_nat i).
    { rewrite Hmq. apply Z.div_lt_upper_bound; [lia|]. rewrite <- Z.pow_succ_r, <- Nat2Z.inj_succ by lia. exact Hlt. }
    destruct (IH q (hex_digit r :: acc) Hq Hlt') as (ds & -> & Hlen & Hn). exists (ds ++ [hex_digit r]).
    rewrite length_app, <- app_assoc. simpl. split; [do 2 f_equal; lia|]. split; [lia|].
    intros [|f] Hf; [simpl in Hf; lia|]. cbn [numeral_loop]. destruct (Z.eqb_spec (mag b) 0); [contradiction|].
    rewrite <- Hmq, <- Hr. apply Hn. rewrite Hmq. rewrite Nat2Z.inj_succ, Z.pow_succ_r in Hf by lia.
    apply Z.div_lt_upper_bound; [lia|]. pose proof (Z.pow_pos_nonneg 2 (Z.of_nat f)). nia.
Qed.

Lemma log2i_spec base : 2 <= base <= 16 -> 1 <= log2i base /\ 2 ^ log2i base <= base.
Proof.
  intros Hb. assert (H1 : forallb (fun b => (1 <=? log2i b) && (2 ^ log2i b <=? b)) (map Z.of_nat (seq 2 15)) = true) by reflexivity.
  rewrite forallb_forall in H1. specialize (H1 base). rewrite in_map_iff in H1.
  specialize (H1 ltac:(exists (Z.to_nat base); rewrite in_seq; lia)). lia.
Qed.

(** The length that is computed has room for the digits and the sign. *)
Lemma buffer_room (len : nat) base lg : 2 <= base -> 1 <= lg -> 2 ^ lg <= base ->
  Bp len <= base ^ ((Z.of_nat len * 8 * 8 + lg - 1) / lg).
Proof.
  intros Hb Hlg Hle. rewrite <- Bp_pow. set (k := (Z.of_nat len * 8 * 8 + lg - 1) / lg).
  assert (Hk : Z.of_nat len * 8 * 8 <= lg * k).
  { unfold k. pose proof (Z.div_mod (Z.of_nat len * 8 * 8 + lg - 1) lg ltac:(lia)). pose proof (Z.mod_pos_bound (Z.of_nat len * 8 * 8 + lg - 1) lg ltac:(lia)). lia. }
  assert (0 <= k) by (apply Z.div_pos; lia).
  transitivity ((2 ^ lg) ^ k); [|apply Z.pow_le_mono_l; lia].
  rewrite <- Z.pow_mul_r by lia. apply Z.pow_le_mono_r; lia.
Qed.

Lemma write_bignum_numeral a base : wf a -> 2 <= base <= 16 -> sexp_write_bignum a base = Written (signed_numeral base (bval a)).
Proof.
  intros Ha Hb. pose proof (mag_nonneg a Ha) as Hnn. destruct (numeral_spec base (mag a) Hb Hnn) as (_ & Hne & _ & _).
  pose proof Ha as (Hs & Hne' & Hl). destruct (log2i_spec base Hb) as [Hlg Hlg2].
  assert (Ec : data (sexp_copy_bignum None a 0) = data a).
  { unfold sexp_copy_bignum. simpl. rewrite Nat.ltb_irrefl, Nat.sub_diag, app_nil_r, firstn_all. reflexivity. }
  unfold sexp_write_bignum. rewrite Ec. cbn [data].
  destruct (Z.ltb_spec (log2i base) 1); [lia|]. set (k := (Z.of_nat (length (data a)) * 8 * 8 + log2i base - 1) / log2i base).
  assert (Hk : 0 <= k) by (apply Z.div_pos; lia). pose proof (buffer_room (length (data a)) base _ ltac:(lia) Hlg Hlg2) as Hroom. fold k in Hroom.
  pose proof (wf_mag a Ha) as Hm. assert (Hw : wf (Bignum 1 (data a))) by (split; [left; reflexivity | auto]).
  replace (Z.to_nat (k + 1)) with (S (Z.to_nat k)) by lia.
  assert (Hlt : forall j, 0 <= j -> k <= j -> mag a < base ^ j).
  { intros j Hj Hkj. apply Z.lt_le_trans with (base ^ k); [lia | apply Z.pow_le_mono_r; lia]. }
  destruct (write_digits_spec base (S (Z.to_nat k)) Hb (Bignum 1 (data a)) [] Hw ltac:(apply Hlt; lia)) as (ds & -> & Hlen & Hn).
  destruct (write_digits_spec base (Z.to_nat k) Hb (Bignum 1 (data a)) [] Hw ltac:(apply Hlt; lia)) as (ds' & _ & Hlen' & Hn').
  change (mag (Bignum 1 (data a))) with (mag a) in *. rewrite app_nil_r in *.
  assert (Hbig : mag a < 2 ^ Z.of_nat (S (Z.to_nat (Z.log2 (mag a))))).
  { destruct (Z.eq_dec (mag a) 0) as [->|]; [reflexivity|]. pose proof (Z.log2_spec (mag a) ltac:(lia)). rewrite Nat2Z.inj_succ, Z2Nat.id by apply Z.log2_nonneg. lia. }
  specialize (Hn _ Hbig). specialize (Hn' _ Hbig). assert (ds' = ds) as -> by congruence. clear Hn'.
  unfold signed_numeral. rewrite bval_abs by exact Ha. unfold numeral in *. destruct (Z.eqb_spec (mag a) 0) as [Ez|Hnz].
  - rewrite Ez in Hn. simpl in Hn. subst ds. simpl length. rewrite Nat.sub_0_r, Nat.eqb_refl.
    unfold bval. rewrite Ez, Z.mul_0_r. reflexivity.
  - rewrite Hn in Hne |- *. destruct ds as [|d ds]; [contradiction|]. destruct (Nat.eqb_spec (S (Z.to_nat k) - length (d :: ds)) (S (Z.to_nat k))); [simpl in *; lia|].
    unfold bval. destruct Hs as [->| ->].
    + simpl (1 =? -1). destruct (Z.ltb_spec (1 * mag a) 0); [lia | reflexivity].
    + simpl (-1 =? -1). destruct (Z.ltb_spec (-1 * mag a) 0); [|lia]. destruct (S (Z.to_nat k) - length (d :: ds))%nat eqn:E; [lia | reflexivity].
Qed.

(** [sexp_write_bignum] writes the numeral of the number in any
    base up to 16, with its sign, and never stores in front of the buffer whose
    length it computes from the length of the bignum; the numeral has the digits
    of the base, no zeros in front, and the value of the number. *)
Theorem write_bignum_correct a base : wf a -> 2 <= base <= 16 ->
  sexp_write_bignum a base = Written (signed_numeral base (bval a)) /\
  digits_value base (numeral base (mag a)) 0 = mag a /\ Forall (is_digit base) (numeral base (mag a)) /\
  (mag a <> 0 -> hd 0 (numeral base (mag a)) <> ch "0").
Proof.
  intros Ha Hb. destruct (numeral_spec base (mag a) Hb (mag_nonneg a Ha)) as (Hf & _ & Hv & Hhd).
  split; [apply write_bignum_numeral; assumption|]. split; [exact Hv|]. split; [exact Hf|]. intros Hm. apply Hhd. pose proof (mag_nonneg a Ha). lia.
Qed.
End write_facts.

Lemma write_bignum_correct_witness : wf (Bignum (-1) [0; 1]) /\ 2 <= 10 <= 16 /\
  sexp_write_bignum (Bignum (-1) [0; 1]) 10 = Written (signed_numeral 10 (bval (Bignum (-1) [0; 1]))) /\
  signed_numeral 10 (bval (Bignum (-1) [0; 1])) = lit "-18446744073709551616".
Proof.
  assert (Hw : wf (Bignum (-1) [0; 1])) by (split; [right; reflexivity | split; [discriminate | repeat constructor; unfold is_u; simpl; lia]]).
  split; [exact Hw|]. split; [lia|]. split; [apply (write_bignum_correct (Bignum (-1) [0; 1]) 10 Hw); lia | vm_compute; reflexivity].
Defined.
