(* ===== verification/Printer.v ===== *)
(** * The printer (sexp.c)

    Data as trees, and [sexp_write_one]: the text of lists, vectors, bytevectors,
    strings, symbols, characters, and exact numbers.  The tree has no cycles, so
    that the test for circular lists never stops the printer; objects whose text
    holds an address, and flonums, are left out. *)
From Stdlib Require Import ZifyNat ZifyBool Ascii String.
From S2P Require Import Prelude LongLong Limbs Bignum Integers Division Numbers Utf8 Text Symbols Decimal.
From stdpp Require Import base list option.
#[local] Open Scope Z_scope.

(** ** Data *)

(** [SEXP_MAKE_IMMEDIATE(n)], with the marks that only the reader uses. *)
Inductive immediate := SEXP_FALSE | SEXP_TRUE | SEXP_NULL | SEXP_EOF | SEXP_VOID | SEXP_UNDEF | SEXP_CLOSE | SEXP_RAWDOT | SEXP_CLOSE_BRACE.
#[global] Instance immediate_eq_dec : EqDecision immediate.
Proof. solve_decision. Defined.

Definition immediate_word (i : immediate) : Z :=
  let n := match i with
           | SEXP_FALSE => 0 | SEXP_TRUE => 1 | SEXP_NULL => 2 | SEXP_EOF => 3 | SEXP_VOID => 4 | SEXP_UNDEF => 5
           | SEXP_CLOSE => 6 | SEXP_RAWDOT => 7 | SEXP_CLOSE_BRACE => 12
           end in
  n * 256 + 62.

(** Trees over numbers in [N].  The bytes of a string or symbol are those of its
    UTF-8 text; [Label] is the mark of the reader for a label that is not read
    yet. *)
Inductive datum (N : Type) :=
| Imm (i : immediate)
| Num (n : N)
| Chr (c : Z)
| Str (s : list Z)
| Sym (s : list Z)
| Cons (a d : datum N)
| Vec (l : list (datum N))
| Bytes (b : list Z)
| Label (n : Z).
Arguments Imm {N}. Arguments Num {N}. Arguments Chr {N}. Arguments Str {N}. Arguments Sym {N}.
Arguments Cons {N}. Arguments Vec {N}. Arguments Bytes {N}. Arguments Label {N}.

(** Exact numbers, real or complex. *)
Inductive cnum := Real (x : number) | Complex (re im : number).

Definition sexp := datum cnum.

(** Bignums and ratios are objects, as are symbols that do not fit into a word. *)
Definition sexp_pointerp (x : sexp) : bool :=
  match x with
  | Imm _ | Chr _ | Label _ | Num (Real (Int (Fix _))) => false
  | Sym s => match huff_encode s with inl _ => false | inr _ => true end
  | _ => true
  end.

(** ** Tokens *)

Definition sexp_char_names : list (list Z * Z) :=
  [(lit "newline", 10); (lit "return", 13); (lit "space", 32); (lit "tab", 9); (lit "alarm", 7);
   (lit "backspace", 8); (lit "delete", 127); (lit "escape", 27); (lit "null", 0)].

Definition char_text (c : Z) : list Z :=
  lit "#\" ++
  match find (fun e => e.2 =? c) sexp_char_names with
  | Some (name, _) => name
  | None =>
      if (33 <=? c) && (c <? 127) then [c]
      else
        let nibble k := hex_digit (Z.land (Z.shiftr c k) 15) in
        lit "x"
        ++ (if c >=? 256 then (if c >=? 65536 then [nibble 20; nibble 16] else []) ++ [nibble 12; nibble 8] else [])
        ++ [nibble 4; nibble 0]
  end.

(** One byte of a string. *)
Definition string_char (c : Z) : list Z :=
  if c =? ch "\" then lit "\\"
  else if c =? dquote then [ch "\"; dquote]
  else if c =? 7 then lit "\a"
  else if c =? 8 then lit "\b"
  else if c =? 10 then lit "\n"
  else if c =? 13 then lit "\r"
  else if c =? 9 then lit "\t"
  else if (schar c <? ch " ") && (schar c >=? 0) then
    lit "\x" ++ [hex_digit (Z.shiftr c 4); hex_digit (Z.land c 15)] ++ lit ";"
  else [c].

Definition string_text (s : list Z) : list Z := [dquote] ++ flat_map string_char s ++ [dquote].

(** Whether a symbol is written between bars. *)
Definition symbol_barred (s : list Z) : bool :=
  let len := Z.of_nat (length s) in
  let at_ i := nth i s 0 in
  (len =? 0)
  || (len =? 1) && (at_ 0%nat =? ch ".")
  || isdigit (at_ 0%nat)
  || (len >? 1) && ((at_ 0%nat =? ch "+") || (at_ 0%nat =? ch "-"))
     && (isdigit (at_ 1%nat) || (at_ 1%nat =? ch ".") || (at_ 1%nat =? ch "i")
         || (len >? 3) && (sexp_tolower (at_ 1%nat) =? ch "n") && (sexp_tolower (at_ 2%nat) =? ch "a") && (sexp_tolower (at_ 3%nat) =? ch "n"))
  || existsb (fun c => (schar c <=? ch " ") || (c =? ch "\") || (c =? ch "|") || (c =? ch "#") || sexp_is_separator (schar c)) s.

Definition symbol_char (c : Z) : list Z := if (c =? ch "\") || (c =? ch "|") then [ch "\"; c] else [c].

Definition lsymbol_text (s : list Z) : list Z :=
  let bar := if symbol_barred s then [ch "|"] else [] in
  bar ++ flat_map symbol_char s ++ bar.

(** [snprintf(buf, sizeof(buf), "#x%02hhX", b)] *)
Definition upper_digit (n : Z) : Z := if n <=? 9 then ch "0" + n else ch "A" + n - 10.
Definition byte_text (b : Z) : list Z :=
  if b =? 0 then lit "0" else lit "#x" ++ [upper_digit (Z.shiftr b 4); upper_digit (Z.land b 15)].

Definition immediate_text (i : immediate) : list Z :=
  match i with
  | SEXP_NULL => lit "()"
  | SEXP_TRUE => lit "#t"
  | SEXP_FALSE => lit "#f"
  | SEXP_EOF => lit "#<eof>"
  | SEXP_UNDEF | SEXP_VOID => lit "#<undef>"
  | i => lit "#<invalid immediate: " ++ fixnum_text (immediate_word i) ++ lit ">"
  end.

(** ** Numbers and trees *)

Definition SEXP_DEFAULT_WRITE_BOUND : Z := 10000.

Section printer.
Context {T : Type} `{LongUInt T}.

(** [None] is a store outside of the buffer of [sexp_write_bignum]. *)
Definition exint_text (x : exint) : option (list Z) :=
  match x with
  | Fix z => Some (fixnum_text z)
  | Big b => match sexp_write_bignum b 10 with Written t => Some t | SmallBase => Some [] | BufferUnderflow => None end
  end.

Definition number_text (x : number) : option (list Z) :=
  match x with
  | Int n => exint_text n
  | Rat n d => n ← exint_text n; d ← exint_text d; Some (n ++ lit "/" ++ d)
  end.

Definition sexp_pedantic_negativep (x : number) : bool :=
  match x with Int n | Rat n _ => sexp_exact_negativep n end.

Definition is_int (x : number) (z : Z) : bool := match x with Int n => is_fix n z | Rat _ _ => false end.

Definition cnum_text (x : cnum) : option (list Z) :=
  match x with
  | Real x => number_text x
  | Complex re im =>
      r ← number_text re;
      i ← (if is_int im (-1) then Some (lit "-") else if is_int im 1 then Some [] else number_text im);
      Some (r ++ (if sexp_pedantic_negativep im then [] else lit "+") ++ i ++ lit "i")
  end.

Fixpoint write_one (obj : sexp) (bound : Z) {struct obj} : option (list Z) :=
  if sexp_pointerp obj && (bound >=? SEXP_DEFAULT_WRITE_BOUND) then Some (lit "...")
  else match obj with
  | Cons a d =>
      h ← write_one a (bound + 1);
      t ← (fix rest (x : sexp) : option (list Z) :=
             match x with
             | Cons a d => h ← write_one a (bound + 1); t ← rest d; Some (lit " " ++ h ++ t)
             | Imm SEXP_NULL => Some (lit ")")
             | x => t ← write_one x (bound + 1); Some (lit " . " ++ t ++ lit ")")
             end) d;
      Some (lit "(" ++ h ++ t)
  | Vec [] => Some (lit "#()")
  | Vec (x :: l) =>
      h ← write_one x (bound + 1);
      t ← (fix rest (l : list sexp) : option (list Z) :=
             match l with
             | [] => Some (lit ")")
             | x :: l => h ← write_one x (bound + 1); t ← rest l; Some (lit " " ++ h ++ t)
             end) l;
      Some (lit "#(" ++ h ++ t)
  | Str s => Some (string_text s)
  | Sym s => Some (match huff_encode s with inl w => huff_decode w | inr _ => lsymbol_text s end)
  | Num n => cnum_text n
  | Bytes [] => Some (lit "#u8()")
  | Bytes (b :: l) => Some (lit "#u8(" ++ byte_text b ++ flat_map (fun b => lit " " ++ byte_text b) l ++ lit ")")
  | Chr c => Some (char_text c)
  | Imm i => Some (immediate_text i)
  | Label n => Some (lit "#<invalid immediate: " ++ fixnum_text (n * 256 + 46) ++ lit ">")
  end.

(** [sexp_write_op] *)
Definition sexp_write (obj : sexp) : option (list Z) := write_one obj 0.
End printer.

(** Induction on trees *)
Lemma datum_rect_nested {N} (P : datum N -> Prop) :
  (forall i, P (Imm i)) -> (forall n, P (Num n)) -> (forall c, P (Chr c)) -> (forall s, P (Str s)) -> (forall s, P (Sym s)) ->
  (forall a d, P a -> P d -> P (Cons a d)) -> (forall l, Forall P l -> P (Vec l)) -> (forall b, P (Bytes b)) -> (forall n, P (Label n)) ->
  forall x, P x.
Proof.
  intros Hi Hn Hc Hs Hy Hp Hv Hb Hl. fix IH 1. intros [i|n|c|s|s|a d|l|b|n].
  - apply Hi.
  - apply Hn.
  - apply Hc.
  - apply Hs.
  - apply Hy.
  - apply Hp; apply IH.
  - apply Hv. induction l as [|x l IHl]; constructor; [apply IH | exact IHl].
  - apply Hb.
  - apply Hl.
Qed.
