(* ===== verification/Reader.v ===== *)
(** * The reader (sexp.c, bignum.c)

    [sexp_read_raw] and the tokens under it, on the bytes of an input port with
    its pushed back characters.  Errors are the exceptions of the code; where it
    goes on with flonums, with the address of an object, with an object that is
    circular or with a memory access outside of a vector, reading stops.  The
    places of pairs in the source are not kept. *)
From Stdlib Require Import ZifyNat ZifyBool Ascii String.
From S2P Require Import Prelude LongLong Limbs Bignum Integers Division Numbers Utf8 Text Symbols Decimal Printer.
From stdpp Require Import base list option.
#[local] Open Scope Z_scope.

(** ** Ports, errors, sequencing *)

(** [shares] is the table of reader labels, a vector or [SEXP_FALSE]. *)
Record port := Port { inp : list Z; line : Z; fold_casep : bool; shares : option (list sexp) }.

Inductive read_exn := ReadError (msg : string) | ReadIncomplete (msg : string) | NumberError (e : exn) | TypeError | UserException (msg : string).
Inductive stop := Flonum | Address | OutOfBounds | Circular | ObjectLiteral | UniformVector | HardwareTrap | NumberFuel | OutOfFuel.
Inductive reply (A : Type) := Done (a : A) | Exn (e : read_exn) | Stop (s : stop).
Arguments Done {A} a. Arguments Exn {A} e. Arguments Stop {A} s.

Definition reader (A : Type) : Type := port -> reply A * port.

Definition ret {A} (a : A) : reader A := fun p => (Done a, p).
Definition bind {A B} (m : reader A) (f : A -> reader B) : reader B := fun p =>
  match m p with
  | (Done a, p) => f a p
  | (Exn e, p) => (Exn e, p)
  | (Stop s, p) => (Stop s, p)
  end.
Notation "x <- m ; k" := (bind m (fun x => k)) (at level 100, m at next level, right associativity).
Notation "m ;; k" := (bind m (fun _ => k)) (at level 100, k at level 200, right associativity).

Definition sexp_read_error {A} (msg : string) : reader A := fun p => (Exn (ReadError msg), p).
Definition sexp_read_incomplete_error {A} (msg : string) : reader A := fun p => (Exn (ReadIncomplete msg), p).
Definition halt {A} (s : stop) : reader A := fun p => (Stop s, p).

Definition of_outcome {A} (o : outcome A) : reader A := fun p =>
  (match o with Ok a => Done a | Raise e => Exn (NumberError e) | Trap => Stop HardwareTrap | NoFuel => Stop NumberFuel end, p).

Definition with_inp (s : list Z) (p : port) : port := Port s (line p) (fold_casep p) (shares p).

Definition sexp_read_char : reader Z := fun p =>
  match inp p with [] => (Done EOF, p) | c :: s => (Done c, with_inp s p) end.
Definition sexp_push_char (c : Z) : reader unit := fun p =>
  (Done tt, if c =? EOF then p else with_inp (u8 c :: inp p) p).
Definition sexp_peek_char : reader Z := c <- sexp_read_char; sexp_push_char c;; ret c.

Definition newline : reader unit := fun p => (Done tt, Port (inp p) (line p + 1) (fold_casep p) (shares p)).
Definition get_fold : reader bool := fun p => (Done (fold_casep p), p).
Definition set_fold (b : bool) : reader unit := fun p => (Done tt, Port (inp p) (line p) b (shares p)).
Definition get_shares : reader (option (list sexp)) := fun p => (Done (shares p), p).
Definition set_shares (v : option (list sexp)) : reader unit := fun p => (Done tt, Port (inp p) (line p) (fold_casep p) v).

(** A loop over the characters of the port, written on the rest of the input. *)
Definition on_inp {A} (f : list Z -> A * list Z) : reader A := fun p => let '(a, s) := f (inp p) in (Done a, with_inp s p).

(** ** Symbols *)

Fixpoint symbol_loop (foldp : bool) (s : list Z) : list Z * list Z :=
  match s with
  | [] => ([], [])
  | c :: s' =>
      let c := if foldp then sexp_tolower c else c in
      if c =? ch "\" then
        match s' with
        | [] => ([], [])
        | c :: s' => if sexp_is_separator c then ([], c :: s') else let '(buf, r) := symbol_loop foldp s' in (c :: buf, r)
        end
      else if sexp_is_separator c then ([], c :: s')
      else let '(buf, r) := symbol_loop foldp s' in (c :: buf, r)
  end.

(** The bytes of the symbol or string. *)
Definition sexp_read_symbol (init : Z) : reader (list Z) :=
  foldp <- get_fold;
  buf <- on_inp (symbol_loop foldp);
  ret ((if init =? EOF then [] else [if foldp then sexp_tolower init else init]) ++ buf).

(** ** Numbers *)

Inductive digits := Digits (c : Z) (val tmp : Z) | TooBig (val : Z).

Fixpoint number_digits (base c : Z) (s : list Z) (val tmp : Z) : digits * list Z :=
  let digit := digit_value c in
  if negb (isxdigit c) || (digit <? 0) || (digit >=? base) then (Digits c val tmp, s)
  else
    let tmp := s64 (val * base + digit) in
    if (SEXP_MAX_FIXNUM / base <? val) || (tmp <? val) || (tmp >? SEXP_MAX_FIXNUM) then (TooBig val, c :: s)
    else match s with
         | [] => (Digits EOF tmp tmp, [])
         | c :: s => number_digits base c s tmp tmp
         end.

Definition is_zero (x : number) : bool := is_int x 0.

(** [sexp_complex_normalize] *)
Definition complex_normalize (re im : number) : cnum := if is_zero im then Real re else Complex re im.

Definition check_end (c : Z) (msg : string) : reader unit :=
  if negb (c =? EOF) && negb (sexp_is_separator c) then sexp_read_error msg else sexp_push_char c.

Section reader.
Context {T : Type} `{LongUInt T}.

(** [sexp_expt(ctx, SEXP_TEN, e)]: [pow] is exact where its result times 1000 is
    a fixnum. *)
Definition expt_ten (e : cnum) : reader number :=
  match e with
  | Real (Int (Fix e)) =>
      if (0 <=? e) && (e <=? 15) then ret (Int (sexp_make_fixnum (10 ^ e)))
      else of_outcome (sexp_bignum_expt (sexp_fixnum_to_bignum 10) e)
  | _ => halt Flonum
  end.

(** [sexp_ratio_normalize], whose denominator is any number that was read: the
    remainder by one that is no integer is a type error. *)
Definition ratio_normalize (num : exint) (den : number) : reader number :=
  match den with
  | Int den => of_outcome (sexp_ratio_normalize num den)
  | Rat _ _ => if is_fix num 0 then ret (Int (Fix 0)) else fun p => (Exn TypeError, p)
  end.

Section tails.
(** [sexp_read_number], of a base and [exactp] *)
Context (read_number : Z -> bool -> reader cnum).

Definition trailing_i (default_real real : number) : reader cnum :=
  c <- sexp_read_char;
  if (c =? ch "n") || (c =? ch "N") then
    res <- sexp_read_symbol c;
    if bool_decide (res = lit "nf.0i") then halt Flonum else sexp_read_error "invalid complex numeric syntax"
  else check_end c "invalid complex numeric syntax";; ret (complex_normalize default_real real).

Definition sexp_read_complex_tail (real : number) : reader cnum :=
  c <- sexp_read_char;
  if (c =? ch "i") || (c =? ch "I") then trailing_i (Int (Fix 0)) real
  else
    c2 <- sexp_read_char;
    if (c2 =? ch "i") || (c2 =? ch "I") then trailing_i real (Int (Fix (if c =? ch "-" then -1 else 1)))
    else
      sexp_push_char c2;;
      (if c =? ch "-" then sexp_push_char c else ret tt);;
      res <- read_number 10 false;
      match res with
      | Complex re im =>
          if is_zero re then ret (complex_normalize real im) else sexp_read_error "multiple real parts of complex"
      | Real x => if is_zero x then ret (Real real) else sexp_read_error "missing imaginary part of complex"
      end.

Definition sexp_read_polar_tail (magnitude : number) : reader cnum :=
  theta <- read_number 10 false;
  match theta with
  | Complex _ _ => sexp_read_error "invalid polar numeric syntax"
  | Real x => if is_zero x then ret (Real magnitude) else halt Flonum
  end.

(** The loop of [sexp_read_bignum]. *)
Fixpoint bignum_digits (base : Z) (s : list Z) (res : bignum) : (Z * bignum) * list Z :=
  match s with
  | [] => ((EOF, res), [])
  | c :: s =>
      let digit := digit_value c in
      if negb (isxdigit c) || (digit <? 0) || (digit >=? base) then ((c, res), s)
      else bignum_digits base s (sexp_bignum_fxadd (sexp_bignum_fxmul FxSelf res base 0) digit)
  end.

(** [sexp_read_bignum] behind its loop, at the character [c]. *)
Definition bignum_tail (base c : Z) (res : bignum) : reader cnum :=
  if (c =? ch ".") || (c =? ch "e") || (c =? ch "E") then
    if negb (base =? 10) then sexp_read_error "found non-base 10 float"
    else if c =? ch "." then halt Flonum
    else
      tmp <- read_number base false;
      let '(tmp, imag) := match tmp with Complex re im => (re, im) | Real x => (x, Int (Fix 0)) end in
      match tmp with
      | Int (Fix e) =>
          if Z.abs e <? 100 * 1024 * 1024 then
            t <- expt_ten (Real tmp);
            res <- of_outcome (Numbers.sexp_mul (Int (Big res)) t);
            ret (complex_normalize res imag)
          else halt Flonum
      | _ => halt Flonum
      end
  else if c =? ch "/" then
    den <- (fun p => match read_number 10 false p with (Exn _, p) => (Exn TypeError, p) | r => r end);
    match den with
    | Real den => res <- ratio_normalize (sexp_bignum_normalize (Big res)) den; ret (Real res)
    | Complex _ _ => fun p => (Exn TypeError, p)
    end
  else if (c =? ch "i") || (c =? ch "+") || (c =? ch "-") then
    sexp_push_char c;;
    sexp_read_complex_tail (Int (sexp_bignum_normalize (Big res)))
  else
    check_end c "invalid numeric syntax";;
    ret (Real (Int (sexp_bignum_normalize (Big res)))).

Definition sexp_read_bignum (init sign base : Z) : reader cnum :=
  r <- on_inp (fun s => bignum_digits base s (Bignum sign [init; 0]));
  bignum_tail base r.1 r.2.
End tails.

(** The number behind a slash. *)
Definition read_ratio (num : exint) (den : cnum) : reader cnum :=
  match den with
  | Real (Int den) => res <- of_outcome (sexp_ratio_normalize num den); ret (Real res)
  | Real (Rat _ _) => sexp_read_error "invalid rational syntax"
  | Complex re im =>
      if is_zero re then res <- ratio_normalize num im; ret (Complex re res)
      else res <- ratio_normalize num re; ret (Complex res im)
  end.

(** The prefix [#x] and the like: the base and whether the number is inexact and
    exact. *)
Definition number_prefix (base : Z) (exactp : bool) (c : Z) : reader (Z * bool * bool * Z) :=
  if c =? ch "#" then
    c <- sexp_read_char;
    let c := sexp_tolower c in
    c2 <- (if existsb (Z.eqb c) (lit "bodxie") then sexp_read_char else sexp_read_error "unexpected numeric # code");
    let base := if c =? ch "b" then 2 else if c =? ch "o" then 8 else if c =? ch "d" then 10 else if c =? ch "x" then 16 else base in
    ret (base, c =? ch "i", exactp || (c =? ch "e"), c2)
  else ret (base, false, exactp, c).

(** An exponent in an exact number. *)
Definition read_exact_exponent (res : exint) (den : cnum) : reader cnum :=
  match den with
  | Complex re im => t <- expt_ten (Real re); res <- of_outcome (Numbers.sexp_mul (Int res) t); ret (Complex res im)
  | Real _ => t <- expt_ten den; res <- of_outcome (Numbers.sexp_mul (Int res) t); ret (Real res)
  end.

Definition inexact_if (inexactp : bool) (x : cnum) : reader cnum := if inexactp then halt Flonum else ret x.

(** [sexp_read_number] behind its digits, at the character [c]. *)
Definition number_tail (read_number : Z -> bool -> reader cnum) (base : Z) (inexactp exactp negativep : bool) (c val tmp : Z) : reader cnum :=
  let res := sexp_make_fixnum (if negativep then - val else val) in
  if exactp && is_precision_indicator c then
    den <- read_number base false; read_exact_exponent res den
  else if (c =? ch ".") || is_precision_indicator c then
    if negb (base =? 10) then sexp_read_error "found non-base 10 float" else halt Flonum
  else if c =? ch "/" then
    den <- read_number base exactp; r <- read_ratio res den; inexact_if inexactp r
  else if existsb (Z.eqb c) (lit "iI+-@") then
    if negb (base =? 10) then sexp_read_error "found non-base 10 complex"
    else if c =? ch "@" then sexp_read_polar_tail read_number (Int res)
    else sexp_push_char c;; sexp_read_complex_tail read_number (Int res)
  else if negb (c =? EOF) && negb (sexp_is_separator c) then sexp_read_error "invalid numeric syntax"
  else if tmp <? 0 then sexp_read_error "digitless numeric literal"
  else sexp_push_char c;; inexact_if inexactp (Real (Int res)).

Fixpoint sexp_read_number (fuel : nat) (base : Z) (exactp : bool) : reader cnum :=
  match fuel with
  | O => halt OutOfFuel
  | S fuel =>
      let read_number := sexp_read_number fuel in
      c <- sexp_read_char;
      q <- number_prefix base exactp c;
      let '(base, inexactp, exactp, c) := q in
      let negativep := c =? ch "-" in
      c <- (if (c =? ch "-") || (c =? ch "+") then sexp_read_char else ret c);
      let val := if (c =? ch "i") || (c =? ch "I") then 1 else 0 in
      d <- on_inp (fun s => number_digits base c s val (-1));
      match d with
      | TooBig val => sexp_read_bignum read_number val (if negativep then -1 else 1) base
      | Digits c val tmp => number_tail read_number base inexactp exactp negativep c val tmp
      end
  end.

(** ** Strings *)

Definition blank (c : Z) : bool := (c =? ch " ") || (c =? 9).

(** [do {c=sexp_read_char(ctx, in);} while (c==' ' || c=='\t');] *)
Fixpoint skip_blanks (s : list Z) : Z * list Z :=
  match s with
  | [] => (EOF, [])
  | c :: s => if blank c then skip_blanks s else (c, s)
  end.

(** What follows a backslash: the bytes that are stored, or none after an
    escaped end of line. *)
Definition string_escape (fuel : nat) (c : Z) : reader (list Z) :=
  if c =? ch "a" then ret [7]
  else if c =? ch "b" then ret [8]
  else if c =? ch "n" then ret [10]
  else if c =? ch "r" then ret [13]
  else if c =? ch "t" then ret [9]
  else if (c =? ch "x") || (c =? ch "X") then
    res <- sexp_read_number fuel 16 false;
    match res with
    | Real (Int (Fix z)) =>
        c <- sexp_read_char;
        (if c =? ch ";" then ret tt else sexp_push_char c);;
        let c := swrap 32 z in
        ret (if u32 c >? 128 then sexp_utf8_encode_char (sexp_utf8_char_byte_count c) c else [u8 c])
    | _ => ret [c]
    end
  else if isspace c then
    c <- (if blank c then on_inp skip_blanks else ret c);
    c <- (if c =? 13 then sexp_read_char else ret c);
    if c =? 10 then
      newline;;
      c <- on_inp skip_blanks;
      sexp_push_char c;; ret []
    else ret [u8 c]
  else ret [u8 c].

(** [buf] holds the bytes so far, last first. *)
Fixpoint string_loop (fuel : nat) (sentinel : Z) (buf : list Z) : reader (list Z) :=
  match fuel with
  | O => halt OutOfFuel
  | S fuel =>
      c <- sexp_read_char;
      if c =? sentinel then ret (rev buf)
      else if c =? ch "\" then
        c <- sexp_read_char;
        bytes <- string_escape fuel c;
        string_loop fuel sentinel (rev bytes ++ buf)
      else if c =? EOF then sexp_read_incomplete_error "premature end of string"
      else (if c =? 10 then newline else ret tt);; string_loop fuel sentinel (u8 c :: buf)
  end.

Definition sexp_read_string (fuel : nat) (sentinel : Z) : reader (list Z) := string_loop fuel sentinel [].

(** ** Comments *)

(** [while ((c1 = sexp_read_char(ctx, in)) != EOF) if (c1 == '\n') break;] *)
Fixpoint skip_line (s : list Z) : unit * list Z :=
  match s with [] => (tt, []) | c :: s => if c =? 10 then (tt, s) else skip_line s end.

(** [while ((c1 = sexp_read_char(ctx, in)) == c) ;] *)
Fixpoint skip_same (c : Z) (s : list Z) : Z * list Z :=
  match s with [] => (EOF, []) | c1 :: s => if c1 =? c then skip_same c s else (c1, s) end.

(** The loop of a block comment: true where the comment ends. *)
Fixpoint block_comment (fuel : nat) (c1 c2 : Z) : reader bool :=
  match fuel with
  | O => halt OutOfFuel
  | S fuel =>
      if negb ((c2 >? 0) && negb (c1 =? EOF)) then ret (negb (c1 =? EOF))
      else
        c1 <- sexp_read_char;
        if c1 =? ch "#" then
          c1 <- on_inp (skip_same (ch "#")); block_comment fuel c1 (if c1 =? ch "|" then c2 + 1 else c2)
        else if c1 =? ch "|" then
          c1 <- on_inp (skip_same (ch "|")); block_comment fuel c1 (if c1 =? ch "#" then c2 - 1 else c2)
        else (if c1 =? 10 then newline else ret tt);; block_comment fuel c1 c2
  end.

(** ** Reader labels *)

(** The word of an immediate value. *)
Definition value_word (x : sexp) : option Z :=
  match x with
  | Imm i => Some (immediate_word i)
  | Num (Real (Int (Fix z))) => Some (u64 (2 * z + 1))
  | Label n => Some (u64 (n * 256 + 46))
  | _ => None
  end.

Definition fixnum (z : Z) : sexp := Num (Real (Int (Fix z))).

(** An access of the vector of labels. *)
Definition vector_ref (v : list sexp) (i : Z) : reader sexp :=
  match (if i <? 0 then None else v !! Z.to_nat i) with Some x => ret x | None => halt OutOfBounds end.
Definition vector_set (i : Z) (x : sexp) : reader unit :=
  v <- get_shares;
  match v with
  | Some v => if (0 <=? i) && (i <? Z.of_nat (length v)) then set_shares (Some (<[Z.to_nat i := x]> v)) else halt OutOfBounds
  | None => halt OutOfBounds
  end.

Definition word_of (x : sexp) : reader Z := match value_word x with Some w => ret w | None => halt Address end.

(** [#n#] *)
Definition label_ref (c2 : Z) : reader sexp :=
  shares <- get_shares;
  match shares with
  | None => sexp_read_error "unknown reader label"
  | Some v =>
      last <- vector_ref v (Z.of_nat (length v) - 1);
      last <- word_of last;
      if u64 (2 * c2 + 1) >? last then sexp_read_error "unknown reader label"
      else
        x <- vector_ref v c2;
        match x with Imm SEXP_VOID => sexp_read_error "unknown reader label" | _ => ret x end
  end.

(** [#n=] *)
Definition label_set (read_one : reader sexp) (c2 : Z) : reader sexp :=
  shares <- get_shares;
  let v := match shares with Some v => v | None => <[23%nat := fixnum 0]> (replicate 24 (Imm SEXP_VOID)) end in
  set_shares (Some v);;
  last <- vector_ref v (Z.of_nat (length v) - 1);
  last <- word_of last;
  let tmp := u64 (2 * c2 + 1) in
  if tmp >? u64 (last + 33 - 1) then sexp_read_error "reader label out of order"
  else
    let v := if c2 + 1 >=? Z.of_nat (length v)
             then take (length v - 1) v ++ replicate (length v * 2 - (length v - 1)) (Imm SEXP_VOID) else v in
    set_shares (Some v);;
    vector_set c2 (Label c2);;
    shares <- get_shares;
    last <- vector_ref (default [] shares) (Z.of_nat (length v) - 1);
    last <- word_of last;
    (if tmp >? last then vector_set (Z.of_nat (length v) - 1) (fixnum c2) else ret tt);;
    res <- read_one;
    vector_set c2 res;;
    match res with Label _ => sexp_read_error "self reader label reference" | _ => ret res end.

(** [while (isdigit(c1=sexp_read_char(ctx, in))) c2 = c2 * 10 + digit_value(c1);] *)
Fixpoint label_digits (s : list Z) (c2 : Z) : (Z * Z) * list Z :=
  match s with
  | [] => ((EOF, c2), [])
  | c1 :: s => if isdigit c1 then label_digits s (swrap 32 (c2 * 10 + digit_value c1)) else ((c1, c2), s)
  end.

(** The labels that are left in an object are replaced by what they stand for.
    An object that still has labels in it is circular. *)
Fixpoint labeled {N} (x : datum N) : bool :=
  match x with
  | Label _ => true
  | Cons a d => labeled a || labeled d
  | Vec l => existsb labeled l
  | _ => false
  end.

Fixpoint map_reader {A B} (f : A -> reader B) (l : list A) : reader (list B) :=
  match l with
  | [] => ret []
  | x :: l => y <- f x; l <- map_reader f l; ret (y :: l)
  end.

Fixpoint fill_reader_labels (v : list sexp) (x : sexp) : reader sexp :=
  match x with
  | Label n => y <- vector_ref v n; if labeled y then halt Circular else ret y
  | Cons a d => a <- fill_reader_labels v a; d <- fill_reader_labels v d; ret (Cons a d)
  | Vec l => l <- map_reader (fill_reader_labels v) l; ret (Vec l)
  | x => ret x
  end.

(** ** Uniform vectors *)

(** [sexp_resolve_uniform_type]: whether the type is that of bytes, or another
    one. *)
Inductive uniform_type := U8 | OtherUniform | NotUniform.

Definition sexp_resolve_uniform_type (c : Z) (len : cnum) : uniform_type :=
  let among l := existsb (Z.eqb c) l in
  match len with
  | Real (Int (Fix n)) =>
      if n =? 1 then if among (lit "u") then OtherUniform else NotUniform
      else if n =? 8 then if among (lit "u") then U8 else if among (lit "sf") then OtherUniform else NotUniform
      else if n =? 16 then if among (lit "usf") then OtherUniform else NotUniform
      else if n =? 32 then if among (lit "usf") then OtherUniform else NotUniform
      else if n =? 64 then if among (lit "usfc") then OtherUniform else NotUniform
      else if n =? 128 then if among (lit "c") then OtherUniform else NotUniform
      else NotUniform
  | _ => NotUniform
  end.

Fixpoint list_elements {N} (x : datum N) : option (list (datum N)) :=
  match x with
  | Imm SEXP_NULL => Some []
  | Cons a d => l ← list_elements d; Some (a :: l)
  | _ => None
  end.

(** The test of an element, and the byte that is stored: for a bignum it is taken
    from its address. *)
Definition u8_valid (x : sexp) : bool :=
  match x with
  | Num (Real (Int (Fix z))) => (0 <=? z) && ((z <? 0) || (z <=? 255))
  | Num (Real (Int (Big b))) => (0 <? sign b) && ((s64 (sign b * Limbs.rd (data b) 0) <? 0) || (Limbs.rd (data b) 0 <=? 255))
  | _ => false
  end.
Definition u8_value (x : sexp) : option Z := match x with Num (Real (Int (Fix z))) => Some (u8 z) | _ => None end.

(** [sexp_list_to_uvector_op] for [SEXP_U8] *)
Definition list_to_bytes (ls : sexp) : reader sexp :=
  match list_elements ls with
  | None => fun p => (Exn TypeError, p)
  | Some l =>
      if forallb u8_valid l then
        match mapM u8_value l with Some b => ret (Bytes b) | None => halt Address end
      else fun p => (Exn TypeError, p)
  end.

(** ** [sexp_read_raw] *)

Definition list2 (a b : sexp) : sexp := Cons a (Cons b (Imm SEXP_NULL)).

Section raw.
(** [sexp_read_raw] *)
Context (fuel : nat) (raw : reader sexp).

Definition sexp_read_one : reader sexp :=
  res <- raw;
  match res with
  | Imm SEXP_CLOSE => sexp_read_error "too many ')'s"
  | Imm SEXP_CLOSE_BRACE => sexp_read_error "too many '}'s"
  | Imm SEXP_RAWDOT => sexp_read_error "unexpected '.'"
  | res => ret res
  end.

Definition read_quoted (symbol : list Z) : reader sexp := res <- sexp_read_one; ret (list2 (Sym symbol) res).

Definition read_unquoted (splicing plain : list Z) : reader sexp :=
  c1 <- sexp_read_char;
  if c1 =? ch "@" then read_quoted splicing else sexp_push_char c1;; read_quoted plain.

(** [sexp_read_op]: a table of labels of its own *)
Definition sexp_read : reader sexp := fun p =>
  let '(r, p1) := (set_shares None;;
                   res <- sexp_read_one;
                   v <- get_shares;
                   match v with Some v => fill_reader_labels v res | None => ret res end) p in
  (r, Port (inp p1) (line p1) (fold_casep p1) (shares p)).

(** The elements of a list up to its end, last first. *)
Fixpoint list_loop (n : nat) (tmp : sexp) (res : list sexp) : reader (sexp * list sexp) :=
  match n with
  | O => halt OutOfFuel
  | S n =>
      match tmp with
      | Imm (SEXP_EOF | SEXP_CLOSE | SEXP_RAWDOT) => ret (tmp, res)
      | _ => tmp' <- raw; list_loop n tmp' (tmp :: res)
      end
  end.

(** [sexp_nreverse], with [tail] behind the last pair *)
Definition make_list (res : list sexp) (tail : sexp) : sexp := fold_left (fun d a => Cons a d) res tail.

(** What follows the dot of a list. *)
Definition dotted_tail (res : list sexp) : reader sexp :=
  match res with
  | [] => sexp_read_error "dot before any elements in list"
  | _ =>
      tmp <- raw;
      match tmp with
      | Imm SEXP_EOF => sexp_read_incomplete_error "no input after dot"
      | Imm SEXP_CLOSE => sexp_read_error "no final element in list after dot"
      | _ => fun p =>
          match raw p with
          | (Stop s, p) => (Stop s, p)
          | (Done (Imm SEXP_CLOSE), p) =>
              (match tmp with Imm SEXP_RAWDOT => sexp_read_error "multiple dots in list" | _ => ret (make_list res tmp) end) p
          | (_, p) => sexp_read_error "multiple tokens in dotted tail" p
          end
      end
  end.

(** The token that ends a list. *)
Definition list_end (r : sexp * list sexp) : reader sexp :=
  match r with
  | (Imm SEXP_RAWDOT, res) => dotted_tail res
  | (Imm SEXP_CLOSE, res) => ret (make_list res (Imm SEXP_NULL))
  | _ => sexp_read_incomplete_error "missing trailing ')' started on line"
  end.

Definition read_list : reader sexp :=
  tmp <- raw;
  r <- list_loop fuel tmp [];
  list_end r.

Definition read_vector : reader sexp :=
  sexp_push_char (ch "(");;
  res <- sexp_read_one;
  match list_elements res with
  | Some l => ret (Vec l)
  | None => sexp_read_error "dotted list not allowed in vector syntax"
  end.

Definition read_uvector (c1 : Z) : reader sexp :=
  res <- sexp_read_number fuel 10 true;
  match sexp_resolve_uniform_type (sexp_tolower c1) res with
  | U8 => tmp <- sexp_read_one; list_to_bytes tmp
  | OtherUniform => halt UniformVector
  | NotUniform => sexp_read_error "invalid uniform vector syntax #%c%c"
  end.

Definition read_boolean (c1 : Z) : reader sexp :=
  c2 <- sexp_read_char;
  sexp_push_char c2;;
  if (c2 =? EOF) || sexp_is_separator c2 then ret (Imm (if sexp_tolower c1 =? ch "t" then SEXP_TRUE else SEXP_FALSE))
  else if isdigit c2 then read_uvector c1
  else
    res <- sexp_read_symbol c1;
    if strcasecmp_eq res (lit "true") then ret (Imm SEXP_TRUE)
    else if strcasecmp_eq res (lit "false") then ret (Imm SEXP_FALSE)
    else sexp_read_error "invalid # syntax".

Definition read_label (c1 : Z) : reader sexp :=
  r <- on_inp (fun s => label_digits s (digit_value c1));
  let '(c1, c2) := r in
  if c1 =? ch "#" then label_ref c2
  else if c1 =? ch "=" then label_set sexp_read_one c2
  else sexp_read_error "expected # or = after #<n>".

(** [#!]: the first line of a script, or a directive. *)
Definition read_directive : reader sexp :=
  c1 <- sexp_read_char;
  if isspace c1 || (c1 =? ch "/") then on_inp skip_line;; newline;; raw
  else
    sexp_push_char c1;;
    res <- sexp_read_symbol (ch "!");
    if strcasecmp_eq res (lit "!fold-case") then set_fold true;; raw
    else if strcasecmp_eq res (lit "!no-fold-case") then set_fold false;; raw
    else sexp_read_error "unknown #! symbol".

Definition named_char (foldp : bool) (str : list Z) : option Z :=
  snd <$> find (fun e => (if foldp then strcasecmp_eq else strcmp_eq) str e.1) sexp_char_names.

(** [#\] *)
Definition read_char_literal : reader sexp :=
  c1 <- sexp_read_char;
  c2 <- sexp_read_char;
  sexp_push_char c2;;
  if ((c1 =? ch "x") || (c1 =? ch "X")) && isxdigit c2 then
    res <- sexp_read_number fuel 16 false;
    match res with
    | Real (Int (Fix z)) =>
        if (0 <=? z) && (z <=? 1114111) then ret (Chr z) else sexp_read_error "bad character #\x literal"
    | _ => sexp_read_error "bad character #\x literal"
    end
  else
    str <- sexp_read_symbol c1;
    if (length str =? 1)%nat then ret (Chr c1)
    else
      foldp <- get_fold;
      match (if (length str =? 0)%nat then None else named_char foldp str) with
      | Some c => ret (Chr c)
      | None =>
          match sexp_decode_utf8_char (c_string str ++ [0]) with
          | Some c => if c >? 0 then ret (Chr c) else sexp_read_error "unknown character name"
          | None => halt OutOfBounds
          end
      end.

(** A token that begins with a sharp sign. *)
Definition read_sharp : reader sexp :=
  c1 <- sexp_read_char;
  let among l := existsb (Z.eqb c1) l in
  let number base exactp := n <- sexp_read_number fuel base exactp; ret (Num n : sexp) in
  if among (lit "bB") then number 2 false
  else if among (lit "oO") then number 8 false
  else if among (lit "dD") then number 10 false
  else if among (lit "xX") then number 16 false
  else if among (lit "eE") then number 10 true
  else if among (lit "iI") then
    res <- sexp_read;
    match res with
    | Num (Real (Int (Big _))) => halt Address
    | Num (Real _) => halt Flonum
    | res => ret res
    end
  else if among (lit "fFtT") then read_boolean c1
  else if among (lit "vV") then
    c1 <- sexp_read_char;
    if (c1 =? ch "u") || (c1 =? ch "U") then read_uvector c1 else sexp_read_error "invalid syntax #v%c"
  else if among (lit "uUsScC") then read_uvector c1
  else if isdigit c1 then read_label c1
  else if c1 =? ch ";" then sexp_read_one;; raw
  else if c1 =? ch "|" then
    b <- block_comment fuel c1 1;
    if b : bool then raw else sexp_read_incomplete_error "unterminated #| comment"
  else if c1 =? ch "!" then read_directive
  else if c1 =? ch "\" then read_char_literal
  else if c1 =? ch "(" then read_vector
  else if c1 =? ch "'" then read_quoted (lit "syntax")
  else if c1 =? ch "`" then read_quoted (lit "quasisyntax")
  else if c1 =? ch "," then read_unquoted (lit "unsyntax-splicing") (lit "unsyntax")
  else sexp_read_error "invalid char following '#'".

Definition read_dot : reader sexp :=
  c1 <- sexp_read_char;
  sexp_push_char c1;;
  if (c1 =? EOF) || sexp_is_separator c1 then ret (Imm SEXP_RAWDOT)
  else if isdigit c1 then halt Flonum
  else s <- sexp_read_symbol (ch "."); ret (Sym s).

(** The sign in front of a number. *)
Definition negate_read (res : cnum) : cnum :=
  match res with
  | Real (Int (Big b)) =>
      if (sexp_bignum_hi b =? 1)%nat && (Limbs.rd (data b) 0 =? SEXP_MAX_FIXNUM + 1) then Real (Int (sexp_make_fixnum (- Limbs.rd (data b) 0)))
      else Real (Int (Big (Bignum (- sign b) (data b))))
  | Real (Rat n d) => Real (Rat (sexp_negate_exact n) d)
  | Complex re im => if is_zero re then Complex re (negate_maybe_ratio im) else Complex (negate_maybe_ratio re) im
  | Real (Int (Fix z)) => Real (Int (sexp_make_fixnum (z * -1)))
  end.

(** A symbol that begins with a sign, where it is not the text of an infinity. *)
Definition signed_symbol (str : list Z) : reader sexp :=
  let tail := drop 1 (c_string str) in
  if strcasecmp_eq str (lit "+inf.0") || strcasecmp_eq str (lit "-inf.0") || strcasecmp_eq tail (lit "nan.0") then halt Flonum
  else if strcasecmp_eq (take 5 tail) (lit "inf.0") then
    let rest := drop 5 tail in
    if strcasecmp_eq rest (lit "i") || existsb (Z.eqb (nth 0 rest 0)) (lit "@+-") then halt Flonum
    else sexp_read_error "invalid infinity"
  else if bool_decide (str = lit "+i") then ret (Num (Complex (Int (Fix 0)) (Int (Fix 1))))
  else if bool_decide (str = lit "-i") then ret (Num (Complex (Int (Fix 0)) (Int (Fix (-1)))))
  else ret (Sym str).

Definition read_signed (c1 : Z) : reader sexp :=
  c2 <- sexp_read_char;
  number <- (if c2 =? ch "." then c <- sexp_peek_char; ret (isdigit c) else ret (isdigit c2));
  sexp_push_char c2;;
  if number : bool then
    res <- sexp_read_number fuel 10 false;
    ret (Num (if c1 =? ch "-" then negate_read res else res))
  else str <- sexp_read_symbol c1; signed_symbol str.

Definition read_raw_body : reader sexp :=
  c1 <- sexp_read_char;
  if c1 =? EOF then ret (Imm SEXP_EOF)
  else if c1 =? ch ";" then on_inp skip_line;; newline;; raw
  else if c1 =? 10 then newline;; raw
  else if (c1 =? ch " ") || (c1 =? 9) || (c1 =? 12) || (c1 =? 13) then raw
  else if c1 =? ch "'" then read_quoted (lit "quote")
  else if c1 =? ch "`" then read_quoted (lit "quasiquote")
  else if c1 =? ch "," then read_unquoted (lit "unquote-splicing") (lit "unquote")
  else if c1 =? dquote then s <- sexp_read_string fuel dquote; ret (Str s)
  else if c1 =? ch "(" then read_list
  else if c1 =? ch "{" then halt ObjectLiteral
  else if c1 =? ch "#" then read_sharp
  else if c1 =? ch "." then read_dot
  else if c1 =? ch ")" then ret (Imm SEXP_CLOSE)
  else if c1 =? ch "}" then ret (Imm SEXP_CLOSE_BRACE)
  else if c1 =? ch "|" then s <- sexp_read_string fuel (ch "|"); ret (Sym s)
  else if (c1 =? ch "+") || (c1 =? ch "-") then read_signed c1
  else if isdigit c1 then sexp_push_char c1;; n <- sexp_read_number fuel 10 false; ret (Num n)
  else s <- sexp_read_symbol c1; ret (Sym s).
End raw.

Fixpoint sexp_read_raw (fuel : nat) : reader sexp :=
  match fuel with
  | O => halt OutOfFuel
  | S fuel => read_raw_body fuel (sexp_read_raw fuel)
  end.

(** Reading from a string *)
Definition string_port (s : list Z) : port := Port s 1 false None.
Definition sexp_read_from_string (fuel : nat) (s : list Z) : reply sexp := (sexp_read (sexp_read_raw fuel) (string_port s)).1.

(** [sexp_string_to_number_op]: [None] is false. *)
Definition sexp_string_to_number (fuel : nat) (str : list Z) (base : Z) : reply (option cnum) :=
  let at_ i := nth i str 0 in
  if (base <? 2) || (base >? 36) then Exn (UserException "invalid numeric base")
  else if (at_ 0%nat =? 0) || (at_ 1%nat =? 0) && negb (isxdigit (at_ 0%nat)) then Done None
  else
    let s := if (at_ 0%nat =? ch "+") && (isdigit (at_ 1%nat) || (at_ 1%nat =? ch ".") || (at_ 1%nat =? ch "#")) then drop 1 str else str in
    let c := sexp_tolower (at_ 1%nat) in
    let '(res, p) :=
      if (at_ 0%nat =? ch "#") && negb (c =? ch "e") && negb (c =? ch "i") || (base =? 10)
      then sexp_read (sexp_read_raw fuel) (string_port s)
      else (n <- sexp_read_number fuel base false; ret (Num n : sexp)) (string_port s) in
    match res with
    | Done (Num n) => match inp p with [] => Done (Some n) | _ => Done None end
    | Done _ | Exn _ => Done None
    | Stop s => Stop s
    end.
End reader.
