(* ===== verification/ReadNumber.v ===== *)
(** * Reading numerals back

    What the reader does on the text of a number: the digits of a numeral give
    its value whether they fit into a fixnum or go on as a bignum, and the tails
    behind them put ratios and complex numbers together. *)
From Stdlib Require Import ZifyNat ZifyBool Ascii String.
From stdpp Require Import base list option.
From S2P Require Import Prelude LongLong Limbs Bignum Integers Division Numbers Utf8 Text Symbols Decimal Printer Reader.
#[local] Open Scope Z_scope.

(** ** Readers that succeed *)

(** [m] reads [a] off [s] and leaves [rest]. *)
Definition reads {A} (m : reader A) (s : list Z) (a : A) (rest : list Z) : Prop :=
  forall l v, exists l', m (Port s l false v) = (Done a, Port rest l' false v).

(** It reads something that [P] holds of. *)
Definition reads_such {A} (m : reader A) (s : list Z) (P : A -> Prop) (rest : list Z) : Prop := exists a, P a /\ reads m s a rest.

Lemma reads_ret {A} (a : A) s : reads (ret a) s a s.
Proof. intros l v. exists l. reflexivity. Qed.

Lemma reads_bind {A B} (m : reader A) (f : A -> reader B) s a mid b rest :
  reads m s a mid -> reads (f a) mid b rest -> reads (bind m f) s b rest.
Proof. intros Hm Hf l v. destruct (Hm l v) as [l1 E1]. destruct (Hf l1 v) as [l2 E2]. exists l2. unfold bind. rewrite E1. exact E2. Qed.

Lemma such_bind {A B} (m : reader A) (f : A -> reader B) s P mid Q rest :
  reads_such m s P mid -> (forall a, P a -> reads_such (f a) mid Q rest) -> reads_such (bind m f) s Q rest.
Proof. intros (a & Ha & Hm) Hf. destruct (Hf a Ha) as (b & Hb & Hfb). exists b. split; [exact Hb | eapply reads_bind; eassumption]. Qed.

Lemma such_step {A B} (m : reader A) (f : A -> reader B) s a mid Q rest :
  reads m s a mid -> reads_such (f a) mid Q rest -> reads_such (bind m f) s Q rest.
Proof. intros Hm (b & Hb & Hfb). exists b. split; [exact Hb | eapply reads_bind; eassumption]. Qed.

Lemma such_ret {A} (a : A) s (P : A -> Prop) : P a -> reads_such (ret a) s P s.
Proof. intros Ha. exists a. split; [exact Ha | apply reads_ret]. Qed.

Lemma such_weaken {A} (m : reader A) s (P Q : A -> Prop) rest : (forall a, P a -> Q a) -> reads_such m s P rest -> reads_such m s Q rest.
Proof. intros HPQ (a & Ha & Hm). exists a. auto. Qed.

Lemma reads_char c s : reads sexp_read_char (c :: s) c s.
Proof. intros l v. exists l. reflexivity. Qed.

(** The next character, and the rest behind it. *)
Definition next (s : list Z) : Z := match s with [] => EOF | c :: _ => c end.

Lemma reads_next s : reads sexp_read_char s (next s) (tl s).
Proof. intros l v. exists l. destruct s; reflexivity. Qed.

Lemma reads_push c s : is_byte c -> reads (sexp_push_char c) s tt (c :: s).
Proof.
  unfold is_byte. intros Hc l v. exists l. unfold sexp_push_char, EOF. destruct (Z.eqb_spec c (-1)); [lia|].
  rewrite uwrap_id by (unfold is_u; lia). reflexivity.
Qed.

(** Whether a token ends in front of [s]. *)
Definition terminates (s : list Z) : bool := match s with [] => true | c :: _ => sexp_is_separator c end.

Lemma reads_push_next s : terminates s = true -> reads (sexp_push_char (next s)) (tl s) tt s.
Proof.
  destruct s as [|c s]; simpl; intros Hs.
  - intros l v. exists l. reflexivity.
  - apply reads_push. apply separator_byte in Hs. unfold is_byte. lia.
Qed.

Lemma reads_on_inp {A} (f : list Z -> A * list Z) s a rest : f s = (a, rest) -> reads (on_inp f) s a rest.
Proof. intros E l v. exists l. unfold on_inp. simpl. rewrite E. reflexivity. Qed.

Lemma reads_get_fold s : reads get_fold s false s.
Proof. intros l v. exists l. reflexivity. Qed.

Lemma reads_outcome {A} (o : outcome A) a s : o = Ok a -> reads (of_outcome o) s a s.
Proof. intros -> l v. exists l. reflexivity. Qed.

Lemma reads_ext {A} (m m' : reader A) s a rest : m = m' -> reads m' s a rest -> reads m s a rest.
Proof. intros ->. auto. Qed.

(** Step over a read of a known character, or a known result. *)
Ltac rbind := eapply reads_bind.
Ltac sstep := eapply such_step.
Ltac rchar := eapply reads_bind; [apply reads_char|]; cbv beta.

(** ** Classes of the characters around a numeral *)

(** No digit of the base *)
Definition stops (base c : Z) : bool := negb (isxdigit c) || (digit_value c <? 0) || (digit_value c >=? base).

Lemma is_digit_stops base c : is_digit base c -> stops base c = false.
Proof. unfold is_digit, stops. intros [-> H]. lia. Qed.

Lemma is_digit_range base c : is_digit base c -> 48 <= c <= 57 \/ 65 <= c <= 70 \/ 97 <= c <= 102.
Proof. intros [H _]. unfold isxdigit, isdigit in H. lia. Qed.

Lemma is_digit_10 c : is_digit 10 c <-> 48 <= c <= 57.
Proof.
  assert (H : is_byte c -> Bool.eqb (isxdigit c && (0 <=? digit_value c) && (digit_value c <? 10)) ((48 <=? c) && (c <=? 57)) = true)
    by (apply (every_byte (fun c => Bool.eqb (isxdigit c && (0 <=? digit_value c) && (digit_value c <? 10)) ((48 <=? c) && (c <=? 57)))); reflexivity).
  unfold is_byte in H. split.
  - intros Hd. pose proof (is_digit_range _ _ Hd). destruct Hd as [Hx Hd]. specialize (H ltac:(lia)). apply eqb_prop in H.
    rewrite Hx in H. lia.
  - intros Hc. specialize (H ltac:(lia)). apply eqb_prop in H. unfold is_digit. destruct (isxdigit c); [split; [reflexivity | lia] | simpl in H; lia].
Qed.

(** Tests that a separator or the end of the input fails. *)
Lemma terminates_tests s : terminates s = true -> let c := next s in
  is_precision_indicator c = false /\ existsb (Z.eqb c) (lit "iI+-@") = false /\ isxdigit c = false /\
  negb (c =? EOF) && negb (sexp_is_separator c) = false.
Proof.
  destruct s as [|c s]; simpl; intros Hs; [repeat split; reflexivity|].
  pose proof (separator_byte c Hs) as Hb.
  pose proof (every_byte (fun c => negb (sexp_is_separator c) || (negb (is_precision_indicator c) && negb (existsb (Z.eqb c) (lit "iI+-@")) && negb (isxdigit c)))
    eq_refl c ltac:(unfold is_byte; lia)) as H. simpl in H. rewrite Hs in *. simpl in H. rewrite !andb_true_iff, !negb_true_iff in H. simpl.
  rewrite andb_false_r. tauto.
Qed.

Lemma terminates_ne s c : terminates s = true -> negb (sexp_is_separator c) && negb (c =? EOF) = true -> (next s =? c) = false.
Proof. intros Hs Hc. apply Z.eqb_neq. intros <-. destruct s as [|d s]; [discriminate|]. cbn [next terminates] in *. rewrite Hs in Hc. discriminate. Qed.

(** The tests of a terminated token for characters that do not end one. *)
Ltac term_ne := repeat match goal with Ht : terminates ?s = true |- context [next ?s =? ?c] => rewrite (terminates_ne s c Ht eq_refl) end; cbn [orb andb negb].

Lemma terminates_stops base s : terminates s = true -> stops base (next s) = true.
Proof. intros Hs. destruct (terminates_tests s Hs) as (_ & _ & Hx & _). unfold stops. rewrite Hx. reflexivity. Qed.

(** ** The digits of a numeral *)

Lemma digits_value_le base ds : 2 <= base -> Forall (is_digit base) ds -> forall v, 0 <= v -> v <= digits_value base ds v.
Proof.
  intros Hb. induction 1 as [|d ds [_ Hd] _ IH]; intros v Hv; [simpl; lia|]. simpl.
  etrans; [|apply IH; nia]. nia.
Qed.

Lemma number_digits_step base c s v t : number_digits base c s v t =
  if stops base c then (Digits c v t, s)
  else
    let tmp := s64 (v * base + digit_value c) in
    if (SEXP_MAX_FIXNUM / base <? v) || (tmp <? v) || (tmp >? SEXP_MAX_FIXNUM) then (TooBig v, c :: s)
    else number_digits base (next s) (tl s) tmp tmp.
Proof. destruct s; reflexivity. Qed.

(** One digit fits, or the bignum begins with it. *)
Lemma number_digits_digit base d s v t : 2 <= base <= 16 -> is_digit base d -> 0 <= v <= SEXP_MAX_FIXNUM ->
  let v1 := v * base + digit_value d in
  number_digits base d s v t = if v1 <=? SEXP_MAX_FIXNUM then number_digits base (next s) (tl s) v1 v1 else (TooBig v, d :: s).
Proof.
  intros Hb Hd Hv v1. rewrite number_digits_step, is_digit_stops by exact Hd. destruct Hd as [_ Hd]. cbv zeta. fold v1.
  pose proof (Z.mul_div_le SEXP_MAX_FIXNUM base ltac:(lia)) as Hq.
  destruct (Z.ltb_spec (SEXP_MAX_FIXNUM / base) v) as [Hlt|Hle].
  - simpl. destruct (Z.leb_spec v1 SEXP_MAX_FIXNUM); [|reflexivity]. exfalso.
    assert (v <= SEXP_MAX_FIXNUM / base) by (apply Z.div_le_lower_bound; unfold v1 in *; nia). lia.
  - assert (v * base <= SEXP_MAX_FIXNUM) by nia. unfold SEXP_MAX_FIXNUM in *. rewrite (swrap_id 64 v1) by (unfold v1; lia).
    destruct (Z.ltb_spec v1 v); [unfold v1 in *; nia|]. cbn [orb]. destruct (Z.gtb_spec v1 (2 ^ 62 - 1)), (Z.leb_spec v1 (2 ^ 62 - 1)); try lia; reflexivity.
Qed.

Lemma number_digits_run base ds : 2 <= base <= 16 -> Forall (is_digit base) ds -> forall d rest v t, is_digit base d -> 0 <= v <= SEXP_MAX_FIXNUM ->
  stops base (next rest) = true ->
  let w := digits_value base (d :: ds) v in
  (w <= SEXP_MAX_FIXNUM -> number_digits base d (ds ++ rest) v t = (Digits (next rest) w w, tl rest)) /\
  (SEXP_MAX_FIXNUM < w -> exists ds1 ds2, d :: ds = ds1 ++ ds2 /\ 0 <= digits_value base ds1 v <= SEXP_MAX_FIXNUM /\
     number_digits base d (ds ++ rest) v t = (TooBig (digits_value base ds1 v), ds2 ++ rest)).
Proof.
  intros Hb Hds. induction Hds as [|d' ds Hd' Hds IH]; intros d rest v t Hd Hv Hs; cbv zeta; rewrite number_digits_digit by assumption; cbv zeta; destruct Hd as [_ Hd].
  - simpl. destruct (Z.leb_spec (v * base + digit_value d) SEXP_MAX_FIXNUM).
    + split; [|lia]. intros _. rewrite number_digits_step, Hs. reflexivity.
    + split; [lia|]. intros _. exists [], [d]. auto.
  - set (v1 := v * base + digit_value d). cbn [app next tl]. destruct (Z.leb_spec v1 SEXP_MAX_FIXNUM).
    + destruct (IH d' rest v1 v1 Hd' ltac:(unfold v1 in *; nia) Hs) as [IH1 IH2]. split; [exact IH1|].
      intros Hgt. destruct (IH2 Hgt) as (ds1 & ds2 & E & Hr & En). exists (d :: ds1), ds2. rewrite E. auto.
    + split.
      * intros Hle. pose proof (digits_value_le base (d' :: ds) ltac:(lia) ltac:(constructor; assumption) v1 ltac:(unfold v1; nia)) as Hm.
        change (digits_value base (d :: d' :: ds) v) with (digits_value base (d' :: ds) v1) in Hle. lia.
      * intros _. exists [], (d :: d' :: ds). auto.
Qed.

Section numbers.
Context {T : Type} `{LongUIntOk T}.

Lemma bignum_digits_run base ds : 2 <= base <= 16 -> Forall (is_digit base) ds -> forall rest res, wf res -> stops base (next rest) = true ->
  exists res', bignum_digits base (ds ++ rest) res = ((next rest, res'), tl rest) /\ wf res' /\ sign res' = sign res /\ mag res' = digits_value base ds (mag res).
Proof.
  intros Hb. induction 1 as [|d ds Hd Hds IH]; intros rest res Hw Hs.
  - exists res. split; [|auto]. destruct rest as [|c rest]; [reflexivity|]. simpl in *. unfold stops in Hs. rewrite Hs. reflexivity.
  - cbn [app bignum_digits]. pose proof (is_digit_stops _ _ Hd) as Hst. unfold stops in Hst. rewrite Hst. destruct Hd as [_ Hd].
    pose proof (fxmul_spec FxSelf res base 0 Hw ltac:(unfold is_u; lia) ltac:(auto)) as (H1 & H2 & H3). cbv zeta in H1, H2, H3.
    pose proof (fxadd_spec _ (digit_value d) H1 ltac:(unfold is_u; lia)) as (H4 & H5 & H6).
    destruct (IH rest _ H4 Hs) as (res' & E & Hw' & Hs' & Hm'). exists res'. split; [exact E|]. split; [exact Hw'|].
    split; [congruence|]. rewrite Hm', H6, H3, Bp_0, Z.mul_1_r. reflexivity.
Qed.

(** The digits of an integer, with or without its sign: what is behind them
    decides how it is read on. *)
Lemma reads_digits base exactp (neg : bool) ds n rest P rest' f : 2 <= base <= 16 -> Forall (is_digit base) ds -> ds <> [] -> digits_value base ds 0 = n ->
  stops base (next rest) = true ->
  (n <= SEXP_MAX_FIXNUM -> reads_such (number_tail (sexp_read_number f) base false exactp neg (next rest) n n) (tl rest) P rest') ->
  (forall b, wf b -> sign b = (if neg then -1 else 1) -> mag b = n -> SEXP_MAX_FIXNUM < n ->
     reads_such (bignum_tail (sexp_read_number f) base (next rest) b) (tl rest) P rest') ->
  reads_such (sexp_read_number (S f) base exactp) ((if neg then lit "-" else []) ++ ds ++ rest) P rest'.
Proof.
  intros Hb Hds Hne Hv Hs Hfit Hbig.
  destruct ds as [|d ds]; [contradiction|]. apply list.Forall_cons in Hds as [Hd Hds]. pose proof (is_digit_range _ _ Hd) as Hr.
  destruct (number_digits_run base ds Hb Hds d rest 0 (-1) Hd ltac:(unfold SEXP_MAX_FIXNUM; lia) Hs) as [Hrun1 Hrun2]. rewrite Hv in *.
  cbn [sexp_read_number].
  assert (Hd0 : (d =? ch "#") = false /\ (d =? ch "-") = false /\ (d =? ch "+") = false /\ (d =? ch "i") = false /\ (d =? ch "I") = false) by lia.
  destruct Hd0 as (E1 & E2 & E3 & E4 & E5).
  assert (Hdig : reads_such (d0 <- on_inp (fun s => number_digits base d s 0 (-1));
      match d0 with
      | Digits c val tmp => number_tail (sexp_read_number f) base false exactp neg c val tmp
      | TooBig val => sexp_read_bignum (sexp_read_number f) val (if neg then -1 else 1) base
      end) (ds ++ rest) P rest').
  { destruct (Z.le_gt_cases n SEXP_MAX_FIXNUM) as [Hle|Hgt].
    - destruct (Hfit Hle) as (x & HP & Hx). exists x. split; [exact HP|]. rbind; [apply reads_on_inp, (Hrun1 Hle) | exact Hx].
    - destruct (Hrun2 ltac:(lia)) as (ds1 & ds2 & E & Hr1 & En).
      assert (Hds12 : Forall (is_digit base) (ds1 ++ ds2)) by (rewrite <- E; constructor; assumption). apply Forall_app in Hds12 as [_ Hds2].
      assert (Hw : wf (Bignum (if neg then -1 else 1) [digits_value base ds1 0; 0])).
      { split; [destruct neg; auto|]. split; [discriminate|]. unfold SEXP_MAX_FIXNUM in Hr1. repeat constructor; unfold is_u; lia. }
      destruct (bignum_digits_run base ds2 Hb Hds2 rest _ Hw Hs) as (b & Eb & Hwb & Hsb & Hmb).
      assert (Hm : mag b = n).
      { rewrite Hmb. unfold mag. simpl data. rewrite !dval_cons. simpl. rewrite Z.add_0_r, <- digits_value_app, <- E. exact Hv. }
      destruct (Hbig b Hwb Hsb Hm ltac:(lia)) as (x & HP & Hx). exists x. split; [exact HP|].
      rbind; [apply reads_on_inp, En|]. cbv beta iota. unfold sexp_read_bignum. rbind; [apply reads_on_inp, Eb | exact Hx]. }
  destruct Hdig as (x & HP & Hx). exists x. split; [exact HP|].
  destruct neg; cbn [app].
  - rchar. rbind; [apply reads_ret|]. cbv beta iota. simpl (_ || _). cbv iota. rchar. rewrite E4, E5. exact Hx.
  - rchar. rbind; [unfold number_prefix; rewrite E1; apply reads_ret|]. cbv beta iota. rewrite E2, E3. cbn [orb].
    rbind; [apply reads_ret|]. rewrite E4, E5. exact Hx.
Qed.

Lemma reads_numeral base exactp (neg : bool) n rest P rest' f : 2 <= base <= 16 -> 0 <= n -> stops base (next rest) = true ->
  (n <= SEXP_MAX_FIXNUM -> reads_such (number_tail (sexp_read_number f) base false exactp neg (next rest) n n) (tl rest) P rest') ->
  (forall b, wf b -> sign b = (if neg then -1 else 1) -> mag b = n -> SEXP_MAX_FIXNUM < n ->
     reads_such (bignum_tail (sexp_read_number f) base (next rest) b) (tl rest) P rest') ->
  reads_such (sexp_read_number (S f) base exactp) ((if neg then lit "-" else []) ++ numeral base n ++ rest) P rest'.
Proof.
  intros Hb Hn. destruct (numeral_spec base n Hb Hn) as (Hds & Hne & Hv & _). apply reads_digits; assumption.
Qed.

(** ** Integers, ratios and complex numbers *)

(** The value of a number that was read: its parts in lowest terms. *)
Definition nval (x : number) : Z * Z := (numer x, denom x).
Definition is_number (N D : Z) (x : number) : Prop := nwf x /\ numer x = N /\ denom x = D.

(** The text with a sign where [neg]. *)
Definition sign_text (neg : bool) : list Z := if neg then lit "-" else [].
Definition signed (neg : bool) (n : Z) : Z := if neg then - n else n.

Lemma is_number_int n : inormal n -> is_number (ival n) 1 (Int n).
Proof. split; [assumption | split; reflexivity]. Qed.

Lemma is_number_1 N x : is_number N 1 x -> exists n, x = Int n /\ inormal n /\ ival n = N.
Proof. destruct x as [n|n d]; intros (Hw & H1 & H2); [eauto|]. simpl in *. lia. Qed.

Lemma fixnum_result (neg : bool) n : 0 <= n <= SEXP_MAX_FIXNUM -> is_number (signed neg n) 1 (Int (sexp_make_fixnum (if neg then - n else n))).
Proof.
  intros Hn. unfold SEXP_MAX_FIXNUM in *. rewrite make_fixnum_id by (unfold SEXP_MIN_FIXNUM, SEXP_MAX_FIXNUM; destruct neg; lia).
  split; [|split; reflexivity]. simpl. unfold SEXP_MIN_FIXNUM, SEXP_MAX_FIXNUM. destruct neg; lia.
Qed.

Lemma bignum_result (neg : bool) n b : wf b -> sign b = (if neg then -1 else 1) -> mag b = n -> is_number (signed neg n) 1 (Int (sexp_bignum_normalize (Big b))).
Proof.
  intros Hw Hs Hm. destruct (normalize_spec (Big b) Hw) as [Hn Hv]. split; [exact Hn|]. split; [|reflexivity].
  cbn [numer]. rewrite Hv. cbn [ival]. unfold bval. rewrite Hs, Hm. unfold signed. destruct neg; lia.
Qed.

(** The end of a number, a sign and the letter [i] do not continue a numeral. *)
Lemma sign_stops base c : c = ch "+" \/ c = ch "-" \/ c = ch "i" \/ c = ch "/" -> stops base c = true.
Proof. intros [-> | [-> | [-> | ->]]]; reflexivity. Qed.

Lemma reads_check_end s msg : terminates s = true -> reads (check_end (next s) msg) (tl s) tt s.
Proof. intros Hs. destruct (terminates_tests s Hs) as (_ & _ & _ & E). unfold check_end. rewrite E. apply reads_push_next, Hs. Qed.

(** An integer in front of the end of its token. *)
Lemma reads_integer_digits f base exactp neg ds n rest : 2 <= base <= 16 -> Forall (is_digit base) ds -> ds <> [] -> digits_value base ds 0 = n -> 0 <= n ->
  terminates rest = true ->
  reads_such (sexp_read_number (S f) base exactp) (sign_text neg ++ ds ++ rest)
    (fun c => exists x, c = Real x /\ is_number (signed neg n) 1 x) rest.
Proof.
  intros Hb Hds Hne Hv Hn Ht. destruct (terminates_tests rest Ht) as (T1 & T2 & _ & T5).
  apply (reads_digits base exactp neg ds n); [exact Hb | exact Hds | exact Hne | exact Hv | apply terminates_stops, Ht | |].
  - intros Hle. unfold number_tail. rewrite T1, T2, T5, andb_false_r. term_ne. destruct (Z.ltb_spec n 0); [lia|].
    sstep; [apply reads_push_next, Ht|]. apply such_ret. eexists. split; [reflexivity | apply fixnum_result; lia].
  - intros b Hw Hs Hm Hgt. unfold bignum_tail. term_ne.
    sstep; [apply reads_check_end, Ht|]. apply such_ret. eexists. split; [reflexivity | apply bignum_result; assumption].
Qed.

Lemma reads_integer f base exactp neg n rest : 2 <= base <= 16 -> 0 <= n -> terminates rest = true ->
  reads_such (sexp_read_number (S f) base exactp) (sign_text neg ++ numeral base n ++ rest)
    (fun c => exists x, c = Real x /\ is_number (signed neg n) 1 x) rest.
Proof.
  intros Hb Hn. destruct (numeral_spec base n Hb Hn) as (Hds & Hne & Hv & _). apply reads_integer_digits; assumption.
Qed.

(** The letter behind an imaginary part. *)
Lemma reads_trailing_i re im rest : terminates rest = true -> reads (trailing_i re im) rest (complex_normalize re im) rest.
Proof.
  intros Ht. unfold trailing_i. rbind; [apply reads_next|]. term_ne.
  rbind; [apply reads_check_end, Ht | apply reads_ret].
Qed.

Definition imaginary (N D : Z) (c : cnum) : Prop := exists x, c = Complex (Int (Fix 0)) x /\ is_number N D x.

Lemma complex_normalize_imaginary re N D x : is_number N D x -> N <> 0 -> complex_normalize re x = Complex re x.
Proof.
  intros (Hw & <- & _) Hn. unfold complex_normalize, is_zero, is_int. destruct x as [n|]; [|reflexivity].
  destruct (is_fix n 0) eqn:E; [|reflexivity]. apply is_fix_true in E as ->. destruct (Hn eq_refl).
Qed.

Lemma reads_imaginary_integer f exactp neg n rest : 0 < n -> terminates rest = true ->
  reads_such (sexp_read_number (S f) 10 exactp) (sign_text neg ++ numeral 10 n ++ lit "i" ++ rest) (imaginary (signed neg n) 1) rest.
Proof.
  intros Hn Ht. assert (Hs : signed neg n <> 0) by (destruct neg; simpl; lia).
  assert (Htail : forall rn x, is_number (signed neg n) 1 (Int x) ->
    reads_such (sexp_push_char (ch "i");; sexp_read_complex_tail rn (Int x)) rest (imaginary (signed neg n) 1) rest).
  { intros rn x Hx. exists (Complex (Int (Fix 0)) (Int x)). split; [exists (Int x); auto|].
    rbind; [apply reads_push; unfold is_byte; lia|]. unfold sexp_read_complex_tail. rchar. cbn [Z.eqb Pos.eqb orb].
    rewrite <- (complex_normalize_imaginary (Int (Fix 0)) _ _ _ Hx Hs). apply reads_trailing_i, Ht. }
  apply reads_numeral; [lia | lia | reflexivity | |].
  - intros Hle. cbn [next tl app]. unfold number_tail. change (is_precision_indicator 105) with false. rewrite andb_false_r.
    change (existsb (Z.eqb 105) (lit "iI+-@")) with true. cbn [Z.eqb Pos.eqb orb negb]. apply Htail, fixnum_result. lia.
  - intros b Hw Hsb Hm Hgt. cbn [next tl app]. unfold bignum_tail. cbn [Z.eqb Pos.eqb orb]. apply Htail, bignum_result; assumption.
Qed.

(** A ratio in lowest terms, put together from what was read. *)
Lemma ratio_of_parts num den N D : inormal num -> inormal den -> ival num = N -> ival den = D -> 1 < D -> Z.gcd N D = 1 -> D <> 2 ^ 62 ->
  exists r, sexp_ratio_normalize num den = Ok r /\ is_number N D r.
Proof.
  intros Hn Hd <- <- HD Hg H62.
  destruct (ratio_normalize_spec num den (inormal_iwf _ Hn) (inormal_iwf _ Hd) ltac:(lia) (inormal_zero_fix _ Hn)) as (r & E & Hw & Hv).
  - destruct num, den; simpl; auto.
  - intros ->. unfold SEXP_MIN_FIXNUM, SEXP_MAX_FIXNUM in HD. simpl in HD. lia.
  - rewrite Hg, Z.div_1_r, Z.abs_eq by lia. exact H62.
  - exists r. split; [exact E|]. split; [exact Hw|]. destruct r as [n|n d]; cbn [numer denom] in *.
    + exfalso. assert (Hdiv : (ival den | ival num)) by (exists (ival n); lia).
      pose proof (Z.gcd_greatest _ _ _ Hdiv (Z.divide_refl _)) as Hdg. rewrite Hg in Hdg. apply Z.divide_1_r_nonneg in Hdg; lia.
    + destruct Hw as (_ & _ & Hd1 & Hg1).
      assert (H1 : (ival den | ival d)).
      { apply (Z.gauss _ (ival num)); [exists (ival n); lia | rewrite Z.gcd_comm; exact Hg]. }
      assert (H2 : (ival d | ival den)).
      { apply (Z.gauss _ (ival n)); [exists (ival num); lia | rewrite Z.gcd_comm; exact Hg1]. }
      assert (Ed : ival d = ival den) by (apply Z.divide_antisym_nonneg; lia || assumption).
      split; [nia | exact Ed].
Qed.

Lemma such_outcome {A} (o : outcome A) s (P : A -> Prop) : (exists a, o = Ok a /\ P a) -> reads_such (of_outcome o) s P s.
Proof. intros (a & E & Ha). exists a. split; [exact Ha | apply reads_outcome, E]. Qed.

(** The values of a ratio that can be read: its denominator is not the number
    whose negation is the smallest fixnum. *)
Definition is_ratio (N D : Z) : Prop := 1 < D /\ Z.gcd N D = 1 /\ D <> 2 ^ 62.

Lemma is_ratio_signed neg n D : is_ratio n D -> is_ratio (signed neg n) D.
Proof. unfold is_ratio. destruct neg; simpl; [rewrite Z.gcd_opp_l|]; auto. Qed.

Lemma such_of_parts num den N D s : is_number N 1 (Int num) -> is_number D 1 (Int den) -> is_ratio N D ->
  reads_such (of_outcome (sexp_ratio_normalize num den)) s (is_number N D) s.
Proof.
  intros (Hn & En & _) (Hd & Ed & _) (HD & Hg & H62). apply such_outcome. exact (ratio_of_parts num den N D Hn Hd En Ed HD Hg H62).
Qed.

(** A ratio in front of the end of its token. *)
Lemma reads_ratio f exactp neg n D rest : 0 < n -> is_ratio n D -> terminates rest = true ->
  reads_such (sexp_read_number (S (S f)) 10 exactp) (sign_text neg ++ numeral 10 n ++ lit "/" ++ numeral 10 D ++ rest)
    (fun c => exists x, c = Real x /\ is_number (signed neg n) D x) rest.
Proof.
  intros Hn HR Ht. apply (is_ratio_signed neg) in HR. pose proof HR as (HD & _ & _).
  apply reads_numeral; [lia | lia | reflexivity | |].
  - intros Hle. cbn [next tl app]. unfold number_tail. change (is_precision_indicator 47) with false. rewrite andb_false_r. cbn [Z.eqb Pos.eqb orb].
    eapply such_bind; [exact (reads_integer f 10 exactp false D rest ltac:(lia) ltac:(lia) Ht)|].
    intros c (x & -> & Hx). cbn [signed] in Hx. apply is_number_1 in Hx as (d & -> & Hd & Ed). cbn [read_ratio inexact_if].
    eapply such_bind; [|intros r Hr; apply such_ret; exact Hr].
    eapply such_bind; [apply (such_of_parts _ _ (signed neg n) D); [apply fixnum_result; lia | rewrite <- Ed; apply is_number_int, Hd | exact HR]|].
    intros r Hr. apply such_ret. eauto.
  - intros b Hw Hs Hm Hgt. cbn [next tl app]. unfold bignum_tail. cbn [Z.eqb Pos.eqb orb].
    destruct (reads_integer f 10 false false D rest ltac:(lia) ltac:(lia) Ht) as (c & (x & -> & Hx) & Hread).
    cbn [signed] in Hx. apply is_number_1 in Hx as (d & -> & Hd & Ed).
    sstep; [intros l v; destruct (Hread l v) as [l' E]; exists l'; cbn [sign_text app] in E; rewrite E; reflexivity|]. cbv beta iota. cbn [ratio_normalize].
    eapply such_bind; [apply (such_of_parts _ _ (signed neg n) D); [apply bignum_result; assumption | rewrite <- Ed; apply is_number_int, Hd | exact HR]|].
    intros r Hr. apply such_ret. eauto.
Qed.

(** An imaginary part, an integer or a ratio whose numerator is a fixnum. *)
Definition fraction_text (n D : Z) : list Z := numeral 10 n ++ (if D =? 1 then [] else lit "/" ++ numeral 10 D).
Definition fits_complex (n D : Z) : Prop := D = 1 \/ is_ratio n D /\ n <= SEXP_MAX_FIXNUM.

Lemma reads_imaginary f exactp neg n D rest : 0 < n -> fits_complex n D -> terminates rest = true ->
  reads_such (sexp_read_number (S (S f)) 10 exactp) (sign_text neg ++ fraction_text n D ++ lit "i" ++ rest) (imaginary (signed neg n) D) rest.
Proof.
  intros Hn [->|[HR Hle]] Ht; unfold fraction_text.
  { rewrite app_nil_r. apply reads_imaginary_integer; assumption. }
  apply (is_ratio_signed neg) in HR. pose proof HR as (HD & _ & _). destruct (Z.eqb_spec D 1); [lia|]. rewrite <- !app_assoc.
  apply reads_numeral; [lia | lia | reflexivity | |lia].
  intros _. cbn [next tl app]. unfold number_tail. change (is_precision_indicator 47) with false. rewrite andb_false_r. cbn [Z.eqb Pos.eqb orb].
  eapply such_bind; [exact (reads_imaginary_integer f exactp false D rest ltac:(lia) Ht)|].
  intros c (x & -> & Hx). cbn [signed] in Hx. apply is_number_1 in Hx as (d & -> & Hd & Ed). cbn [read_ratio inexact_if ratio_normalize].
  change (is_zero (Int (Fix 0))) with true. cbv iota.
  eapply such_bind; [|intros r Hr; apply such_ret; exact Hr].
  eapply such_bind; [apply (such_of_parts _ _ (signed neg n) D); [apply fixnum_result; lia | rewrite <- Ed; apply is_number_int, Hd | exact HR]|].
  intros r Hr. apply such_ret. exists r. auto.
Qed.

(** What is written of an imaginary part, with its sign in front. *)
Definition imaginary_text (neg : bool) (n D : Z) : list Z :=
  (if neg then lit "-" else lit "+") ++ (if (n =? 1) && (D =? 1) then [] else fraction_text n D) ++ lit "i".

Lemma numeral_cons n : 0 <= n -> exists d ds, numeral 10 n = d :: ds /\ 48 <= d <= 57.
Proof.
  intros Hn. destruct (numeral_spec 10 n ltac:(lia) Hn) as (Hds & Hne & _). destruct (numeral 10 n) as [|d ds]; [contradiction|].
  apply list.Forall_cons in Hds as [Hd _]. apply is_digit_10 in Hd. eauto.
Qed.

Lemma reads_complex_tail f re neg n D rest : 0 < n -> fits_complex n D -> terminates rest = true ->
  reads_such (sexp_read_complex_tail (sexp_read_number (S (S f))) re) (imaginary_text neg n D ++ rest)
    (fun c => exists im, c = Complex re im /\ is_number (signed neg n) D im) rest.
Proof.
  intros Hn Hfit Ht. assert (HN : signed neg n <> 0) by (destruct neg; simpl; lia).
  unfold imaginary_text, sexp_read_complex_tail. set (sg := if neg then ch "-" else ch "+").
  replace (if neg then lit "-" else lit "+") with [sg] by (unfold sg; destruct neg; reflexivity). cbn [app].
  sstep; [apply reads_char|]. replace ((sg =? ch "i") || (sg =? ch "I")) with false by (unfold sg; destruct neg; reflexivity). cbv iota.
  replace (sg =? ch "-") with neg by (unfold sg; destruct neg; reflexivity).
  destruct ((n =? 1) && (D =? 1)) eqn:E1.
  - assert (n = 1 /\ D = 1) as [-> ->] by lia. cbn [app]. sstep; [apply reads_char|]. cbn [Z.eqb Pos.eqb orb].
    set (im := Int (Fix (if neg then -1 else 1))). assert (Him : is_number (signed neg 1) 1 im) by (unfold im; destruct neg; repeat split; discriminate).
    exists (Complex re im). split; [exists im; auto|]. rewrite <- (complex_normalize_imaginary re _ _ _ Him HN). apply reads_trailing_i, Ht.
  - destruct (reads_imaginary f false neg n D rest Hn Hfit Ht) as (c & (im & -> & Him) & Hread).
    destruct (numeral_cons n ltac:(lia)) as (d & ds & Ed & Hd). unfold fraction_text in Hread |- *. rewrite Ed in Hread |- *. cbn [app] in Hread |- *.
    sstep; [apply reads_char|]. destruct (Z.eqb_spec d (ch "i")); [lia|]. destruct (Z.eqb_spec d (ch "I")); [lia|]. cbn [orb].
    sstep; [apply reads_push; unfold is_byte; lia|].
    assert (Hrest : reads_such (res <- sexp_read_number (S (S f)) 10 false;
        match res with
        | Real x => if is_zero x then ret (Real re) else sexp_read_error "missing imaginary part of complex"
        | Complex re0 im => if is_zero re0 then ret (complex_normalize re im) else sexp_read_error "multiple real parts of complex"
        end) (sign_text neg ++ (d :: ds ++ (if D =? 1 then [] else lit "/" ++ numeral 10 D)) ++ lit "i" ++ rest)
        (fun c => exists im, c = Complex re im /\ is_number (signed neg n) D im) rest).
    { sstep; [exact Hread|]. change (is_zero (Int (Fix 0))) with true. cbv beta iota.
      rewrite (complex_normalize_imaginary re _ _ _ Him HN). apply such_ret. eauto. }
    cbn [app] in Hrest. rewrite <- !app_assoc in *. destruct neg; cbn [sign_text app] in Hrest; [sstep; [apply reads_push; unfold is_byte, sg; lia | exact Hrest] | sstep; [apply reads_ret | exact Hrest]].
Qed.

Definition rectangular (N D N' D' : Z) (c : cnum) : Prop :=
  exists re im, c = Complex re im /\ is_number N D re /\ is_number N' D' im.

Lemma reads_complex_integer f exactp neg n neg' n' D' rest : 0 <= n -> 0 < n' -> fits_complex n' D' -> terminates rest = true ->
  reads_such (sexp_read_number (S (S (S f))) 10 exactp) (sign_text neg ++ numeral 10 n ++ imaginary_text neg' n' D' ++ rest)
    (rectangular (signed neg n) 1 (signed neg' n') D') rest.
Proof.
  intros Hn Hn' Hfit Ht.
  assert (Hsg : exists sg s, imaginary_text neg' n' D' ++ rest = sg :: s /\ (sg = ch "+" \/ sg = ch "-")) by (unfold imaginary_text; destruct neg'; cbn [app]; eauto).
  destruct Hsg as (sg & s & Etext & Hsg).
  assert (Htail : forall x, is_number (signed neg n) 1 (Int x) ->
    reads_such (sexp_push_char sg;; sexp_read_complex_tail (sexp_read_number (S (S f))) (Int x)) s (rectangular (signed neg n) 1 (signed neg' n') D') rest).
  { intros x Hx. sstep; [apply reads_push; unfold is_byte; lia|]. rewrite <- Etext.
    eapply such_weaken; [|apply (reads_complex_tail f (Int x) neg' n' D' rest Hn' Hfit Ht)]. intros c (im & -> & Him). exists (Int x), im. auto. }
  rewrite Etext. apply reads_numeral; [lia | exact Hn | apply sign_stops; tauto | |].
  - intros Hle. cbn [next tl]. unfold number_tail.
    assert (Etests : is_precision_indicator sg = false /\ (sg =? ch ".") = false /\ (sg =? ch "/") = false /\ existsb (Z.eqb sg) (lit "iI+-@") = true /\ (sg =? ch "@") = false)
      by (destruct Hsg as [-> | ->]; repeat split).
    destruct Etests as (-> & -> & -> & -> & ->). rewrite andb_false_r. cbn [orb Z.eqb Pos.eqb negb]. apply Htail, fixnum_result. lia.
  - intros b Hw Hs Hm Hgt. cbn [next tl]. unfold bignum_tail.
    assert (Etests : (sg =? ch ".") = false /\ (sg =? ch "e") = false /\ (sg =? ch "E") = false /\ (sg =? ch "/") = false /\ (sg =? ch "i") || (sg =? ch "+") || (sg =? ch "-") = true)
      by (destruct Hsg as [-> | ->]; repeat split).
    destruct Etests as (-> & -> & -> & -> & ->). cbn [orb]. apply Htail, bignum_result; assumption.
Qed.

Lemma reads_complex f exactp neg n D neg' n' D' rest : 0 <= n -> fits_complex n D -> (n = 0 -> D = 1) -> 0 < n' -> fits_complex n' D' -> terminates rest = true ->
  reads_such (sexp_read_number (S (S (S (S f)))) 10 exactp) (sign_text neg ++ fraction_text n D ++ imaginary_text neg' n' D' ++ rest)
    (rectangular (signed neg n) D (signed neg' n') D') rest.
Proof.
  intros Hn [->|[HR Hle]] Hz Hn' Hfit' Ht; unfold fraction_text.
  { rewrite app_nil_r. apply reads_complex_integer; assumption. }
  apply (is_ratio_signed neg) in HR. pose proof HR as (HD & _ & _). destruct (Z.eqb_spec D 1); [lia|]. rewrite <- !app_assoc.
  apply reads_numeral; [lia | lia | reflexivity | |lia].
  intros _. cbn [next tl app]. unfold number_tail. change (is_precision_indicator 47) with false. rewrite andb_false_r. cbn [Z.eqb Pos.eqb orb].
  eapply such_bind; [exact (reads_complex_integer f exactp false D neg' n' D' rest ltac:(lia) Hn' Hfit' Ht)|].
  intros c (re & im & -> & Hre & Him). cbn [signed] in Hre. apply is_number_1 in Hre as (d & -> & Hd & Ed). cbn [read_ratio inexact_if ratio_normalize].
  destruct (is_zero (Int d)) eqn:Ez; [apply is_fix_true in Ez as ->; simpl in Ed; lia|].
  eapply such_bind; [|intros r Hr; apply such_ret; exact Hr].
  eapply such_bind; [apply (such_of_parts _ _ (signed neg n) D); [apply fixnum_result; lia | rewrite <- Ed; apply is_number_int, Hd | exact HR]|].
  intros r Hr. apply such_ret. exists r, im. auto.
Qed.

(** ** What is written of a number *)

Lemma exint_text_numeral x : iwf x -> exint_text x = Some (signed_numeral 10 (ival x)).
Proof.
  destruct x as [z|b]; intros Hx; [reflexivity|]. cbn [exint_text].
  rewrite (write_bignum_numeral b 10 Hx ltac:(lia)). reflexivity.
Qed.

(** The numbers that are read back as they are written. *)
Definition readable_number (x : number) : Prop := nwf x /\ denom x <> 2 ^ 62.
Definition readable_part (x : number) : Prop := readable_number x /\ fits_complex (Z.abs (numer x)) (denom x).
Definition readable_cnum (c : cnum) : Prop :=
  match c with
  | Real x => readable_number x
  | Complex re im => readable_part re /\ readable_part im /\ numer im <> 0
  end.

(** The text of a number without its sign. *)
Definition unsigned_text (x : number) : list Z := fraction_text (Z.abs (numer x)) (denom x).

Lemma number_text_spec x : nwf x -> number_text x = Some (sign_text (numer x <? 0) ++ unsigned_text x).
Proof.
  unfold unsigned_text, fraction_text. destruct x as [n|n d]; cbn [nwf numer denom]; intros Hx; cbn [number_text].
  - rewrite exint_text_numeral by auto. rewrite app_nil_r. reflexivity.
  - destruct Hx as (Hn & Hd & Hd1 & _). rewrite !exint_text_numeral by auto. simpl mbind. unfold signed_numeral, sign_text.
    destruct (Z.ltb_spec (ival d) 0); [lia|]. destruct (Z.eqb_spec (ival d) 1); [lia|]. rewrite (Z.abs_eq (ival d)) by lia.
    rewrite <- app_assoc. reflexivity.
Qed.

Lemma is_int_value x z : nwf x -> SEXP_MIN_FIXNUM <= z <= SEXP_MAX_FIXNUM -> is_int x z = (numer x =? z) && (denom x =? 1).
Proof.
  intros Hx Hz. destruct x as [n|n d]; cbn [is_int numer denom nwf] in *.
  - rewrite andb_true_r. destruct (Z.eqb_spec (ival n) z) as [<-|Hne].
    + rewrite (inormal_fix n Hx Hz). simpl. apply Z.eqb_refl.
    + destruct (is_fix n z) eqn:E; [apply is_fix_true in E as ->; destruct (Hne eq_refl) | reflexivity].
  - destruct (Z.eqb_spec (ival d) 1); [lia | rewrite andb_false_r; reflexivity].
Qed.

Lemma cnum_text_spec c : readable_cnum c -> cnum_text c = Some
  match c with
  | Real x => sign_text (numer x <? 0) ++ unsigned_text x
  | Complex re im => (sign_text (numer re <? 0) ++ unsigned_text re) ++ imaginary_text (numer im <? 0) (Z.abs (numer im)) (denom im)
  end.
Proof.
  destruct c as [x|re im]; cbn [readable_cnum].
  - intros [Hx _]. apply number_text_spec, Hx.
  - intros ([[Hre _] _] & [[Him _] _] & Hne). cbn [cnum_text]. rewrite !number_text_spec by assumption. simpl mbind.
    rewrite !is_int_value by (assumption || (unfold SEXP_MIN_FIXNUM, SEXP_MAX_FIXNUM; lia)).
    assert (Hneg : sexp_pedantic_negativep im = (numer im <? 0)).
    { destruct im as [n|n d]; cbn [sexp_pedantic_negativep numer nwf] in *; apply exact_negative_spec; auto. destruct Him. auto. }
    rewrite Hneg. unfold imaginary_text, unsigned_text, sign_text.
    destruct (Z.ltb_spec (numer im) 0).
    + replace (Z.abs (numer im) =? 1) with (numer im =? -1) by lia.
      destruct ((numer im =? -1) && (denom im =? 1)); [cbn [mbind option_bind app]; rewrite <- !app_assoc; reflexivity|].
      replace ((numer im =? 1) && (denom im =? 1)) with false by lia. cbn [mbind option_bind app]. rewrite <- !app_assoc. reflexivity.
    + replace (Z.abs (numer im) =? 1) with (numer im =? 1) by lia. replace ((numer im =? -1) && (denom im =? 1)) with false by lia.
      destruct ((numer im =? 1) && (denom im =? 1)); cbn [mbind option_bind app]; rewrite <- ?app_assoc; reflexivity.
Qed.

Definition cval (c : cnum) : (Z * Z) * (Z * Z) :=
  match c with Real x => (nval x, (0, 1)) | Complex re im => (nval re, nval im) end.

Lemma number_value N D x : is_number N D x -> nval x = (N, D).
Proof. intros (_ & <- & <-). reflexivity. Qed.

(** The number without its sign, or the sign of its real part. *)
Definition unsigned_cnum (c : cnum) : list Z :=
  match c with
  | Real x => unsigned_text x
  | Complex re im => unsigned_text re ++ imaginary_text (numer im <? 0) (Z.abs (numer im)) (denom im)
  end.
Definition real_part (c : cnum) : number := match c with Real x | Complex x _ => x end.
Definition abs_real (c : cnum) : (Z * Z) * (Z * Z) :=
  match c with
  | Real x => ((Z.abs (numer x), denom x), (0, 1))
  | Complex re im => ((Z.abs (numer re), denom re), nval im)
  end.

(** What [sexp_read_number] returns has parts in lowest terms. *)
Definition cwf (c : cnum) : Prop := match c with Real x => nwf x | Complex re im => nwf re /\ nwf im end.

Lemma readable_fraction x : readable_number x -> 0 <= Z.abs (numer x) /\ (denom x = 1 \/ is_ratio (Z.abs (numer x)) (denom x) /\ 0 < Z.abs (numer x)).
Proof.
  intros [Hx H62]. split; [lia|]. destruct x as [n|n d]; [left; reflexivity|]. right. cbn [nwf numer denom] in *. destruct Hx as (_ & _ & Hd & Hg).
  split; [unfold is_ratio; rewrite Z.gcd_abs_l; auto|]. destruct (Z.eq_dec (ival n) 0) as [E|]; [|lia].
  rewrite E, Z.gcd_0_l in Hg. lia.
Qed.

Lemma reads_unsigned f exactp c rest : readable_cnum c -> terminates rest = true ->
  reads_such (sexp_read_number (S (S (S (S f)))) 10 exactp) (unsigned_cnum c ++ rest) (fun c' => cwf c' /\ cval c' = abs_real c) rest.
Proof.
  intros Hc Ht. destruct c as [x|re im]; cbn [readable_cnum unsigned_cnum abs_real] in *.
  - destruct (readable_fraction x Hc) as [Hn [Hd|[HR Hpos]]]; unfold unsigned_text, fraction_text.
    + rewrite Hd, app_nil_r. eapply such_weaken; [|apply (reads_integer _ 10 exactp false _ rest ltac:(lia) Hn Ht)].
      intros c (y & -> & Hy). split; [apply Hy|]. cbn [cval]. rewrite (number_value _ _ _ Hy). reflexivity.
    + pose proof HR as (HD & _). destruct (Z.eqb_spec (denom x) 1); [lia|]. rewrite <- !app_assoc.
      eapply such_weaken; [|apply (reads_ratio _ exactp false _ _ rest Hpos HR Ht)].
      intros c (y & -> & Hy). split; [apply Hy|]. cbn [cval]. rewrite (number_value _ _ _ Hy). reflexivity.
  - destruct Hc as ([Hre Hfre] & [Him Hfim] & Hne). rewrite <- app_assoc.
    eapply such_weaken; [|apply (reads_complex f exactp false (Z.abs (numer re)) (denom re) (numer im <? 0) (Z.abs (numer im)) (denom im) rest ltac:(lia) Hfre)]; [| | lia | exact Hfim | exact Ht].
    + intros c (r & i & -> & Hr & Hi). split; [split; [apply Hr | apply Hi]|]. cbn [cval]. rewrite (number_value _ _ _ Hr), (number_value _ _ _ Hi).
      unfold signed, nval. do 3 f_equal. destruct (Z.ltb_spec (numer im) 0); lia.
    + intros Hz. destruct (readable_fraction re Hre) as [_ [|[_ Hpos]]]; [assumption | lia].
Qed.

Lemma negate_exact_value n : inormal n -> 0 < ival n -> ival (sexp_negate_exact n) = - ival n.
Proof.
  destruct n as [z|b]; cbn [sexp_negate_exact ival]; intros Hn Hpos.
  - unfold sexp_fx_neg, sexp_make_fixnum. cbn [ival]. unfold inormal, SEXP_MIN_FIXNUM, SEXP_MAX_FIXNUM in *. apply swrap_id; lia.
  - unfold bval. cbn [sign data]. change (mag (Bignum (- sign b) (data b))) with (mag b). lia.
Qed.

(** The sign of a number that was read behind it. *)
Lemma negate_read_value c N D v : cwf c -> cval c = ((N, D), v) -> 0 < N -> cval (negate_read c) = ((- N, D), v).
Proof.
  destruct c as [[n|n d]|re im]; cbn [cwf cval nwf nval numer denom]; intros Hw [= <- <- <-] Hpos.
  - destruct n as [z|b]; cbn [negate_read ival] in *.
    + unfold sexp_make_fixnum. cbn [cval nval numer denom ival]. unfold inormal, SEXP_MIN_FIXNUM, SEXP_MAX_FIXNUM in *. rewrite swrap_id by lia. replace (z * -1) with (- z) by lia. reflexivity.
    + destruct Hw as [Hw Hbig]. pose proof (mag_nonneg b Hw) as Hm. unfold bval in *. assert (Hs : sign b = 1) by (destruct Hw as [[|] _]; nia).
      destruct ((sexp_bignum_hi b =? 1)%nat && (Limbs.rd (data b) 0 =? SEXP_MAX_FIXNUM + 1)) eqn:E.
      * apply andb_true_iff in E as [E1 E2]. apply Nat.eqb_eq in E1. apply Z.eqb_eq in E2. rewrite <- (hi_one b Hw E1) in E2.
        rewrite <- (hi_one b Hw E1). cbn [cval nval numer denom]. unfold sexp_make_fixnum. cbn [ival]. rewrite Hs, E2. reflexivity.
      * cbn [cval]. unfold nval. cbn [numer denom ival]. unfold bval. cbn [sign data]. change (mag (Bignum (- sign b) (data b))) with (mag b). rewrite Z.mul_opp_l. reflexivity.
  - cbn [negate_read cval]. unfold nval. cbn [numer denom]. destruct Hw as (Hn & _). rewrite negate_exact_value by assumption. reflexivity.
  - cbn [negate_read]. destruct Hw as [Hre _]. unfold is_zero. rewrite is_int_value by (assumption || (unfold SEXP_MIN_FIXNUM, SEXP_MAX_FIXNUM; lia)).
    destruct (Z.eqb_spec (numer re) 0) as [|_]; [lia|]. cbn [andb cval]. unfold nval.
    destruct re as [n|n d]; cbn [negate_maybe_ratio numer denom nwf] in *; [|destruct Hre as [Hre _]]; rewrite negate_exact_value by assumption; reflexivity.
Qed.
End numbers.
