(* ===== verification/ReadTokens.v ===== *)
(** * Reading tokens back

    The text that the printer writes for strings, symbols, characters and bytes
    is read as the object it was written for. *)
From Stdlib Require Import ZifyNat ZifyBool Ascii String.
From stdpp Require Import base list option.
From S2P Require Import Prelude LongLong Limbs Bignum Integers Division Numbers Utf8 Text Symbols Decimal Printer Reader ReadNumber.
#[local] Open Scope Z_scope.

Section tokens.
Context {T : Type} `{LongUIntOk T}.

(** ** Strings *)

(** The code [e] of a byte is read as the byte. *)
Definition char_step (sentinel : Z) (e : list Z) (c : Z) : Prop := forall fuel buf s x rest, (1 <= fuel)%nat ->
  reads (string_loop fuel sentinel (c :: buf)) s x rest -> reads (string_loop (S fuel) sentinel buf) (e ++ s) x rest.

Lemma reads_newline s : reads newline s tt s.
Proof. intros l v. eexists. reflexivity. Qed.

Lemma step_plain sentinel c : is_byte c -> c <> sentinel -> c <> ch "\" -> char_step sentinel [c] c.
Proof.
  unfold is_byte. intros Hc Hs Hb fuel buf s x rest _ Hx. cbn [string_loop app]. rchar.
  destruct (Z.eqb_spec c sentinel); [contradiction|]. destruct (Z.eqb_spec c (ch "\")); [contradiction|].
  unfold EOF. destruct (Z.eqb_spec c (-1)); [lia|].
  rbind; [destruct (c =? 10); [apply reads_newline | apply reads_ret]|]. rewrite uwrap_id by (unfold is_u; lia). exact Hx.
Qed.

Lemma step_escape sentinel d e c : sentinel <> ch "\" -> (forall fuel s, (1 <= fuel)%nat -> reads (string_escape fuel d) (e ++ s) [c] s) ->
  char_step sentinel (ch "\" :: d :: e) c.
Proof.
  intros Hs He fuel buf s x rest Hf Hx. cbn [string_loop app]. rchar.
  destruct (Z.eqb_spec (ch "\") sentinel); [congruence|]. cbn [Z.eqb Pos.eqb]. rchar.
  rbind; [apply He, Hf | exact Hx].
Qed.

(** Two hexadecimal digits in front of a semicolon *)
Lemma escape_hex fuel c s : (1 <= fuel)%nat -> 0 <= c < 32 ->
  reads (string_escape fuel (ch "x")) ([hex_digit (Z.shiftr c 4); hex_digit (Z.land c 15); ch ";"] ++ s) [c] s.
Proof.
  intros Hf Hc. destruct fuel as [|fuel]; [lia|].
  assert (Hn : is_digit 16 (hex_digit (Z.shiftr c 4)) /\ is_digit 16 (hex_digit (Z.land c 15)) /\ digits_value 16 [hex_digit (Z.shiftr c 4); hex_digit (Z.land c 15)] 0 = c).
  { pose proof (land_low 4 c ltac:(lia)) as El. change (2 ^ 4 - 1) with 15 in El. pose proof (Z.mod_pos_bound c 16 ltac:(lia)). pose proof (Z.div_mod c 16 ltac:(lia)).
    rewrite El, Z.shiftr_div_pow2 by lia. change (2 ^ 4) with 16. assert (0 <= c / 16 < 16) by lia.
    split; [apply hex_digit_is_digit; lia|]. split; [apply hex_digit_is_digit; lia|]. unfold digits_value. cbn [fold_left].
    destruct (hex_digit_value (c / 16) ltac:(lia)) as [_ ->]. destruct (hex_digit_value (c mod 16) ltac:(lia)) as [_ ->]. lia. }
  destruct Hn as (H1 & H2 & Hv).
  destruct (reads_integer_digits fuel 16 false false [hex_digit (Z.shiftr c 4); hex_digit (Z.land c 15)] c (ch ";" :: s) ltac:(lia)
    ltac:(constructor; [exact H1 | constructor; [exact H2 | constructor]]) ltac:(discriminate) Hv ltac:(lia) eq_refl) as (r & (x & -> & Hx) & Hread).
  apply is_number_1 in Hx as (n & -> & Hn & En). cbn [signed] in En. rewrite (inormal_fix n Hn) in Hread by (unfold SEXP_MIN_FIXNUM, SEXP_MAX_FIXNUM; lia). rewrite En in Hread.
  unfold string_escape. cbn [Z.eqb Pos.eqb orb]. rbind; [exact Hread|]. cbv beta iota. rchar. cbn [Z.eqb Pos.eqb]. rbind; [apply reads_ret|].
  rewrite swrap_id by lia. rewrite uwrap_id by (unfold is_u; lia). destruct (Z.gtb_spec c 128); [lia|]. rewrite uwrap_id by (unfold is_u; lia). apply reads_ret.
Qed.

(** One escaped character *)
Lemma escape_self fuel c s : is_byte c -> existsb (Z.eqb c) (lit "abnrtxX") || isspace c = false -> reads (string_escape fuel c) s [c] s.
Proof.
  unfold is_byte. intros Hb Hc. apply orb_false_iff in Hc as [Hc Hsp]. cbn [existsb] in Hc.
  apply orb_false_iff in Hc as [E1 Hc]. apply orb_false_iff in Hc as [E2 Hc]. apply orb_false_iff in Hc as [E3 Hc]. apply orb_false_iff in Hc as [E4 Hc].
  apply orb_false_iff in Hc as [E5 Hc]. apply orb_false_iff in Hc as [E6 Hc]. apply orb_false_iff in Hc as [E7 _].
  unfold string_escape. rewrite E1, E2, E3, E4, E5, E6, E7, Hsp. cbn [orb]. rewrite uwrap_id by (unfold is_u; lia). apply reads_ret.
Qed.

Lemma string_char_step c : is_byte c -> char_step dquote (string_char c) c.
Proof.
  intros Hb. unfold string_char.
  repeat match goal with
  | |- char_step _ (if ?c =? ?k then _ else _) _ =>
      destruct (Z.eqb_spec c k) as [->|];
      [solve [apply step_escape; [discriminate | intros fuel s _; first [apply escape_self; [unfold is_byte; lia | reflexivity] | apply reads_ret]]]|]
  end.
  destruct ((schar c <? ch " ") && (schar c >=? 0)) eqn:E; [|apply step_plain; [exact Hb | assumption | assumption]].
  assert (Hc : 0 <= c < 32).
  { unfold is_byte in Hb. unfold schar in E. destruct (Z.lt_ge_cases c 128); [rewrite swrap_id in E by lia; lia|].
    exfalso. replace (swrap 8 c) with (c - 256) in E; [lia|]. apply swrap_unique; [lia | lia|]. apply eqm_mult with (-1). lia. }
  apply (step_escape dquote (ch "x") [hex_digit (Z.shiftr c 4); hex_digit (Z.land c 15); ch ";"]); [discriminate|].
  intros fuel s Hf. apply escape_hex; assumption.
Qed.

Lemma symbol_char_step c : is_byte c -> char_step (ch "|") (symbol_char c) c.
Proof.
  intros Hb. unfold symbol_char. destruct (Z.eqb_spec c (ch "\")) as [->|].
  { apply step_escape; [discriminate | intros; apply escape_self; [unfold is_byte; lia | reflexivity]]. }
  destruct (Z.eqb_spec c (ch "|")) as [->|].
  { apply step_escape; [discriminate | intros; apply escape_self; [unfold is_byte; lia | reflexivity]]. }
  apply step_plain; assumption.
Qed.

(** A string of codes up to the sentinel *)
Lemma reads_string sentinel code s rest : (forall c, is_byte c -> char_step sentinel (code c) c) -> Forall is_byte s ->
  forall fuel, (length s + 2 <= fuel)%nat -> reads (sexp_read_string fuel sentinel) (flat_map code s ++ sentinel :: rest) s rest.
Proof.
  intros Hcode Hs. unfold sexp_read_string. change s with (rev [] ++ s) at 3. generalize (@nil Z). induction Hs as [|c s Hc Hs IH]; intros buf [|fuel] Hf; simpl in Hf; try lia.
  - cbn [flat_map app string_loop]. rchar. rewrite Z.eqb_refl, app_nil_r. apply reads_ret.
  - cbn [flat_map]. rewrite <- app_assoc. apply (Hcode c Hc); [lia|].
    replace (rev buf ++ c :: s) with (rev (c :: buf) ++ s) by (simpl; rewrite <- app_assoc; reflexivity). apply IH. lia.
Qed.

Lemma flat_map_length {A B} (code : A -> list B) s : (forall c, code c <> []) -> (length s <= length (flat_map code s))%nat.
Proof.
  intros Hc. induction s as [|c s IH]; [reflexivity|]. cbn [flat_map length]. rewrite length_app.
  specialize (Hc c). destruct (code c); [contradiction | simpl; lia].
Qed.

(** ** Values *)

(** No mark of the reader *)
Definition is_value (x : sexp) : bool :=
  match x with Imm (SEXP_EOF | SEXP_CLOSE | SEXP_RAWDOT | SEXP_CLOSE_BRACE) => false | _ => true end.

(** The text [t] is read as a value with [P]. *)
Definition value_back (t : list Z) (P : sexp -> Prop) : Prop := forall rest fuel, terminates rest = true -> (length t + 4 <= fuel)%nat ->
  reads_such (sexp_read_raw fuel) (t ++ rest) (fun x => P x /\ is_value x = true) rest.

Lemma value_back_weaken t (P Q : sexp -> Prop) : (forall x, P x -> Q x) -> value_back t P -> value_back t Q.
Proof. intros HPQ Ht rest fuel Hr Hf. eapply such_weaken; [|apply Ht; assumption]. intros x [Hx Hv]. auto. Qed.

(** A reader of one value behind the first character of its text *)
Lemma value_back_intro c t P : (forall fuel rest, (length t + 4 <= fuel)%nat -> terminates rest = true ->
    reads_such (read_raw_body fuel (sexp_read_raw fuel)) (c :: t ++ rest) (fun x => P x /\ is_value x = true) rest) -> value_back (c :: t) P.
Proof. intros H1 rest [|fuel] Hr Hf; simpl in Hf; [lia|]. cbn [sexp_read_raw app]. apply H1; [lia | exact Hr]. Qed.

Lemma string_back s : Forall is_byte s -> value_back (string_text s) (fun x => x = Str s).
Proof.
  intros Hs. apply value_back_intro. intros fuel rest Hf Hr. exists (Str s). split; [auto|].
  unfold read_raw_body. rchar. cbn [Z.eqb Pos.eqb orb dquote]. rewrite <- app_assoc. rbind; [|apply reads_ret].
  apply (reads_string dquote string_char); [apply string_char_step | exact Hs|].
  rewrite length_app in Hf. simpl in Hf. pose proof (flat_map_length string_char s ltac:(intros c; unfold string_char; repeat case_match; discriminate)). lia.
Qed.

(** ** Symbols *)

(** A character of a symbol without bars *)
Definition plain (c : Z) : bool := (32 <? c) && (c <? 128) && negb (sexp_is_separator c) && negb (existsb (Z.eqb c) (lit "\|#")).

Lemma symbol_loop_plain buf rest : forallb plain buf = true -> terminates rest = true -> symbol_loop false (buf ++ rest) = (buf, rest).
Proof.
  intros Hb Hr. induction buf as [|c buf IH]; cbn [app].
  - destruct rest as [|c rest]; [reflexivity|]. cbn [terminates] in Hr. cbn [symbol_loop]. rewrite Hr.
    destruct (Z.eqb_spec c (ch "\")) as [->|]; [discriminate Hr | reflexivity].
  - cbn [forallb] in Hb. apply andb_true_iff in Hb as [Hc Hb]. cbn [symbol_loop]. rewrite IH by exact Hb.
    unfold plain in Hc. cbn [existsb] in Hc. destruct (Z.eqb_spec c (ch "\")); [lia|]. destruct (sexp_is_separator c); [lia | reflexivity].
Qed.

Lemma reads_symbol init buf rest : 0 <= init -> forallb plain buf = true -> terminates rest = true ->
  reads (sexp_read_symbol init) (buf ++ rest) (init :: buf) rest.
Proof.
  intros Hi Hb Hr. unfold sexp_read_symbol. rbind; [apply reads_get_fold|]. rbind; [apply reads_on_inp, symbol_loop_plain; assumption|].
  cbv beta iota. unfold EOF. destruct (Z.eqb_spec init (-1)); [lia | apply reads_ret].
Qed.

(** The symbols without bars that are read as something else: those that begin
    like a quotation, a flonum or an infinity. *)
Definition symbol_misread (s : list Z) : bool :=
  let c := nth 0 s 0 in
  (c =? ch "`") || (c =? ch ".") && isdigit (nth 1 s 0)
  || ((c =? ch "+") || (c =? ch "-")) && strcasecmp_eq (take 5 (drop 1 s)) (lit "inf.0").

Definition symbol_readable (s : list Z) : bool := symbol_barred s || negb (symbol_misread s).

Lemma unbarred_plain s : Forall is_byte s -> symbol_barred s = false -> forallb plain s = true.
Proof.
  intros Hs Hb. unfold symbol_barred in Hb. apply orb_false_iff in Hb as [_ Hb]. apply forallb_forall. intros c Hc.
  assert (Hbyte : is_byte c) by (rewrite Forall_forall in Hs; apply Hs, Hc). unfold is_byte in Hbyte.
  assert (Hx : (schar c <=? 32) || (c =? ch "\") || (c =? ch "|") || (c =? ch "#") || sexp_is_separator (schar c) = false).
  { destruct (_ || _ || _ || _ || _) eqn:E; [|reflexivity]. rewrite <- Hb. symmetry. apply existsb_exists. eauto. }
  unfold schar in Hx. destruct (Z.lt_ge_cases c 128).
  - rewrite swrap_id in Hx by lia. unfold plain. cbn [existsb]. lia.
  - exfalso. replace (swrap 8 c) with (c - 256) in Hx; [lia|]. apply swrap_unique; [lia | lia|]. apply eqm_mult with (-1). lia.
Qed.

(** The second character of a symbol with a sign and without bars *)
Lemma unbarred_sign c c2 s : symbol_barred (c :: c2 :: s) = false -> (c =? ch "+") || (c =? ch "-") = true ->
  isdigit c2 = false /\ (c2 =? ch ".") = false /\
  ((length s =? 0)%nat || (length s =? 1)%nat || negb ((sexp_tolower c2 =? ch "n") && (sexp_tolower (nth 0 s 0) =? ch "a") && (sexp_tolower (nth 1 s 0) =? ch "n")) = true).
Proof.
  unfold symbol_barred. cbn [nth length]. intros Hb Hs. rewrite Hs in Hb. clear Hs.
  apply orb_false_iff in Hb as [Hb _]. apply orb_false_iff in Hb as [_ Hb].
  destruct (Z.gtb_spec (Z.of_nat (S (S (length s)))) 1) as [_|]; [|lia]. cbn [andb] in Hb.
  apply orb_false_iff in Hb as [Hb Hn]. apply orb_false_iff in Hb as [Hb _]. apply orb_false_iff in Hb as [H1 H2]. split; [exact H1|]. split; [exact H2|].
  destruct s as [|a [|b s]]; [reflexivity | reflexivity|]. cbn [length nth] in *.
  destruct (Z.gtb_spec (Z.of_nat (S (S (S (S (length s)))))) 3) as [_|]; [|lia]. cbn [andb] in Hn. rewrite Hn. apply orb_true_r.
Qed.

Lemma unbarred_dot c2 s : symbol_misread (ch "." :: c2 :: s) = false -> isdigit c2 = false.
Proof.
  unfold symbol_misread. cbn [nth]. intros Hm. apply orb_false_iff in Hm as [Hm _]. apply orb_false_iff in Hm as [_ Hm]. exact Hm.
Qed.

Lemma unbarred_start c s : symbol_barred (c :: s) = false -> symbol_misread (c :: s) = false -> isdigit c = false /\ (c =? ch "`") = false.
Proof.
  unfold symbol_barred, symbol_misread. cbn [nth]. intros Hb Hm. apply orb_false_iff in Hb as [Hb _]. apply orb_false_iff in Hb as [Hb _].
  apply orb_false_iff in Hb as [_ Hb]. apply orb_false_iff in Hm as [Hm _]. apply orb_false_iff in Hm as [Hm _]. auto.
Qed.

Lemma plain_range c : plain c = true -> 32 < c < 128 /\ sexp_is_separator c = false /\ (c =? EOF) = false.
Proof. unfold plain, EOF. destruct (sexp_is_separator c); lia. Qed.

(** The tests of [sexp_read_raw] for characters that begin no symbol *)
Definition symbol_start (c : Z) : bool := plain c && negb (c =? ch "`") && negb (isdigit c).

Lemma symbol_start_tests c : symbol_start c = true -> 0 <= c < 128 /\ existsb (Z.eqb c) ([EOF; 10; 9; 12; 13; dquote] ++ lit ";  '`,({#)}|") = false /\ isdigit c = false.
Proof.
  intros Hc. assert (Hb : 0 <= c < 128) by (unfold symbol_start, plain in Hc; lia). split; [exact Hb|].
  pose proof (every_byte (fun c => negb (symbol_start c) || (negb (existsb (Z.eqb c) ([EOF; 10; 9; 12; 13; dquote] ++ lit ";  '`,({#)}|")) && negb (isdigit c))) eq_refl c ltac:(unfold is_byte; lia)) as Ht.
  cbv beta in Ht. rewrite Hc in Ht. cbn [negb orb] in Ht. apply andb_true_iff in Ht as [H1 H2]. apply negb_true_iff in H1, H2. auto.
Qed.

Lemma among_ne c k l : existsb (Z.eqb c) l = false -> existsb (Z.eqb k) l = true -> (c =? k) = false.
Proof.
  intros Hc Hk. apply Z.eqb_neq. intros <-. rewrite Hc in Hk. discriminate.
Qed.

Lemma c_string_plain s : forallb plain s = true -> c_string s = s.
Proof.
  induction s as [|c s IH]; [reflexivity|]. cbn [forallb c_string]. intros Hs. apply andb_true_iff in Hs as [Hc Hs].
  unfold plain in Hc. destruct (Z.eqb_spec c 0); [lia|]. rewrite IH by exact Hs. reflexivity.
Qed.

Lemma signed_symbol_plain s rest : forallb plain s = true -> symbol_barred s = false -> symbol_misread s = false ->
  nth 0 s 0 = ch "+" \/ nth 0 s 0 = ch "-" -> reads (signed_symbol s) rest (Sym s) rest.
Proof.
  intros Hp Hb Hm Hs. unfold signed_symbol. rewrite (c_string_plain s Hp). cbv zeta.
  destruct s as [|c0 s]; [destruct Hs; discriminate|]. cbn [nth] in Hs.
  assert (Hsg : (c0 =? ch "+") || (c0 =? ch "-") = true) by lia.
  assert (Hinf : strcasecmp_eq (take 5 s) (lit "inf.0") = false).
  { unfold symbol_misread in Hm. cbn [nth drop] in Hm. rewrite Hsg in Hm. cbn [andb] in Hm. apply orb_false_iff in Hm as [_ Hm]. exact Hm. }
  cbn [forallb] in Hp. apply andb_true_iff in Hp as [_ Hp]. cbn [drop].
  assert (Hcs : forall k, c_string (take k s) = take k s).
  { intros k. apply c_string_plain. apply forallb_forall. intros x Hx. rewrite forallb_forall in Hp. apply Hp. rewrite <- (firstn_skipn k s). apply in_or_app. left. exact Hx. }
  assert (Hlong : strcasecmp_eq s (lit "inf.0") = true -> False).
  { intros E. unfold strcasecmp_eq in *. apply bool_decide_eq_true in E. apply bool_decide_eq_false in Hinf. apply Hinf.
    rewrite Hcs. rewrite (c_string_plain s Hp) in E. assert (El : length s = 5%nat) by (apply (f_equal (@length Z)) in E; rewrite length_map in E; exact E).
    rewrite take_ge by lia. exact E. }
  assert (H1 : strcasecmp_eq (c0 :: s) (lit "+inf.0") || strcasecmp_eq (c0 :: s) (lit "-inf.0") = false).
  { apply orb_false_iff. split; apply not_true_iff_false; intros E.
    all: assert (Ec : c0 = ch "+" \/ c0 = ch "-") by exact Hs.
    all: unfold strcasecmp_eq in E; apply bool_decide_eq_true in E; cbn [c_string] in E; destruct (Z.eqb_spec c0 0); [lia|]; cbn [map] in E; injection E as _ E.
    all: apply Hlong; unfold strcasecmp_eq; apply bool_decide_eq_true; exact E. }
  rewrite H1. cbn [orb].
  assert (H2 : strcasecmp_eq s (lit "nan.0") = false).
  { apply not_true_iff_false. intros E. unfold strcasecmp_eq in E. apply bool_decide_eq_true in E. rewrite (c_string_plain s Hp) in E.
    assert (El : length s = 5%nat) by (apply (f_equal (@length Z)) in E; rewrite length_map in E; exact E).
    destruct s as [|a [|b [|d s]]]; try discriminate El. cbn [map] in E. injection E as Ea Eb Ed _.
    destruct (unbarred_sign _ _ _ Hb Hsg) as (_ & _ & Hn). cbn [length nth] in Hn. rewrite Ea, Eb, Ed in Hn. discriminate. }
  rewrite drop_0, H2, Hinf.
  assert (H3 : bool_decide (c0 :: s = lit "+i") = false /\ bool_decide (c0 :: s = lit "-i") = false).
  { split; apply bool_decide_eq_false; intros [= -> ->]; discriminate Hb. }
  destruct H3 as [-> ->]. apply reads_ret.
Qed.

Lemma signed_back fuel c s rest : (c =? ch "+") || (c =? ch "-") = true -> forallb plain (c :: s) = true -> symbol_barred (c :: s) = false ->
  symbol_misread (c :: s) = false -> terminates rest = true -> reads (read_signed fuel c) (s ++ rest) (Sym (c :: s)) rest.
Proof.
  intros Esg Hp' Eb Hr Ht. assert (Hc : c = ch "+" \/ c = ch "-") by lia.
  pose proof Hp' as Hp. cbn [forallb] in Hp. apply andb_true_iff in Hp as [_ Hp]. unfold read_signed.
  assert (Hnext : exists c2, next (s ++ rest) = c2 /\ (c2 =? ch ".") = false /\ isdigit c2 = false /\ reads (sexp_push_char c2) (tl (s ++ rest)) tt (s ++ rest)).
  { destruct s as [|c2 s]; cbn [app].
    - exists (next rest). split; [reflexivity|]. split; [apply terminates_ne; [exact Ht | reflexivity]|]. split; [|apply reads_push_next, Ht].
      destruct (terminates_tests rest Ht) as (_ & _ & Hx & _). destruct (isdigit (next rest)) eqn:E; [|reflexivity]. rewrite (isxdigit_digit _ E) in Hx. discriminate.
    - exists c2. split; [reflexivity|]. destruct (unbarred_sign _ _ _ Eb Esg) as (H1 & H2 & _). split; [exact H2|]. split; [exact H1|].
      cbn [tl]. apply reads_push. cbn [forallb] in Hp. apply andb_true_iff in Hp as [Hc2 _]. apply plain_range in Hc2. unfold is_byte. lia. }
  destruct Hnext as (c2 & En & E1 & E2 & Hpush). rbind; [apply reads_next|]. rewrite En, E1, E2.
  rbind; [apply reads_ret|]. rbind; [exact Hpush|]. cbv beta iota.
  rbind; [apply reads_symbol; [lia | exact Hp | exact Ht]|]. apply signed_symbol_plain; [exact Hp' | exact Eb | exact Hr | exact Hc].
Qed.

Lemma symbol_back s : Forall is_byte s -> symbol_readable s = true -> value_back (lsymbol_text s) (fun x => x = Sym s).
Proof.
  intros Hs Hr. unfold lsymbol_text, symbol_readable in *. destruct (symbol_barred s) eqn:Eb.
  { cbn [app]. apply value_back_intro. intros fuel rest Hf Ht. exists (Sym s). split; [auto|].
    unfold read_raw_body. rchar. cbn [Z.eqb Pos.eqb orb dquote]. rewrite <- app_assoc. rbind; [|apply reads_ret].
    apply (reads_string (ch "|") symbol_char); [apply symbol_char_step | exact Hs|].
    rewrite length_app in Hf. simpl in Hf. pose proof (flat_map_length symbol_char s ltac:(intros c; unfold symbol_char; repeat case_match; discriminate)). lia. }
  cbn [orb] in Hr. apply negb_true_iff in Hr. pose proof (unbarred_plain s Hs Eb) as Hp.
  assert (Et : flat_map symbol_char s = s).
  { clear - Hp. induction s as [|c s IH]; [reflexivity|]. cbn [forallb] in Hp. apply andb_true_iff in Hp as [Hc Hp]. cbn [flat_map]. rewrite (IH Hp).
    unfold symbol_char. unfold plain in Hc. cbn [existsb] in Hc. destruct (Z.eqb_spec c (ch "\")); [lia|]. destruct (Z.eqb_spec c (ch "|")); [lia | reflexivity]. }
  cbn [app]. rewrite Et, app_nil_r. destruct s as [|c s]; [discriminate Eb|].
  apply value_back_intro. intros fuel rest Hf Ht. exists (Sym (c :: s)). split; [auto|].
  destruct (unbarred_start c s Eb Hr) as [Hdig Hback].
  cbn [forallb] in Hp. pose proof Hp as Hp'. apply andb_true_iff in Hp as [Hpc Hp].
  assert (Hst : symbol_start c = true) by (unfold symbol_start; rewrite Hpc, Hdig, Hback; reflexivity).
  destruct (symbol_start_tests c Hst) as (Hc & Htests & _). unfold read_raw_body. rchar.
  repeat match goal with |- context [c =? ?k] => rewrite (among_ne c k _ Htests eq_refl) end. cbn [orb].
  destruct (Z.eqb_spec c (ch ".")) as [->|].
  { destruct s as [|c2 s]; [discriminate Eb|]. pose proof Hp as Hp2. cbn [forallb] in Hp2. apply andb_true_iff in Hp2 as [Hc2 _].
    destruct (plain_range c2 Hc2) as (Hr2 & Esep & Eeof). unfold read_dot. cbn [app]. rchar.
    rbind; [apply (reads_push c2 (s ++ rest)); unfold is_byte; lia|]. cbv beta. rewrite Esep, Eeof, (unbarred_dot _ _ Hr). cbn [orb].
    rbind; [apply (reads_symbol (ch ".") (c2 :: s) rest); [lia | exact Hp | exact Ht] | apply reads_ret]. }
  destruct ((c =? ch "+") || (c =? ch "-")) eqn:Esg.
  - apply signed_back; assumption.
  - rewrite Hdig. rbind; [apply reads_symbol; [lia | exact Hp | exact Ht] | apply reads_ret].
Qed.

(** ** Numbers *)

Lemma reads_digit_char fuel d t rest (P : sexp -> Prop) : 48 <= d <= 57 -> reads_such (sexp_read_number fuel 10 false) (d :: t) (fun n => P (Num n)) rest ->
  reads_such (read_raw_body fuel (sexp_read_raw fuel)) (d :: t) (fun x => P x /\ is_value x = true) rest.
Proof.
  intros Hd (n & HP & Hn). exists (Num n). split; [auto|]. unfold read_raw_body. rchar.
  repeat match goal with |- context [d =? ?k] => destruct (Z.eqb_spec d k) as [|_]; [unfold EOF, dquote in *; lia|] end. cbn [orb].
  replace (isdigit d) with true by (symmetry; apply isdigit_range; lia). rbind; [apply reads_push; unfold is_byte; lia|]. rbind; [exact Hn | apply reads_ret].
Qed.

Definition number_shown (c : cnum) (x : sexp) : Prop := exists c', x = Num c' /\ cval c' = cval c.

Definition number_token (c : cnum) : list Z := sign_text (numer (real_part c) <? 0) ++ unsigned_cnum c.

Lemma unsigned_cnum_cons c : readable_cnum c -> exists d t, unsigned_cnum c = d :: t /\ 48 <= d <= 57.
Proof.
  intros _. destruct (numeral_cons (Z.abs (numer (real_part c))) ltac:(lia)) as (d & ds & E & Hd).
  destruct c as [x|re im]; cbn [unsigned_cnum real_part] in *; unfold unsigned_text, fraction_text; rewrite E; cbn [app]; eauto.
Qed.

Lemma number_back c : readable_cnum c -> value_back (number_token c) (number_shown c).
Proof.
  intros Hc. unfold number_token. destruct (unsigned_cnum_cons c Hc) as (d & t & Eu & Hd).
  assert (Habs : 0 <= numer (real_part c) -> abs_real c = cval c).
  { intros Hn. destruct c as [x|re im]; cbn [abs_real cval real_part] in *; unfold nval; rewrite Z.abs_eq by exact Hn; reflexivity. }
  destruct (Z.ltb_spec (numer (real_part c)) 0) as [Hneg|Hpos]; cbn [sign_text app].
  - apply value_back_intro. intros fuel rest Hf Ht. rewrite Eu in Hf. simpl in Hf. do 4 (destruct fuel as [|fuel]; [lia|]).
    destruct (reads_unsigned fuel false c rest Hc Ht) as (c' & [Hw Hv] & Hread). exists (Num (negate_read c')). split.
    { split; [|reflexivity]. exists (negate_read c'). split; [reflexivity|].
      assert (Hv' : abs_real c = ((- numer (real_part c), denom (real_part c)), snd (cval c))) by (destruct c as [x|re im]; cbn [abs_real cval real_part snd] in *; rewrite Z.abs_neq by lia; reflexivity).
      rewrite Hv' in Hv. rewrite (negate_read_value c' _ _ _ Hw Hv) by lia. rewrite Z.opp_involutive. destruct c; reflexivity. }
    rewrite Eu in Hread |- *. cbn [app] in Hread |- *. unfold read_raw_body. rchar. cbn [Z.eqb Pos.eqb orb EOF dquote]. unfold read_signed. rchar.
    destruct (Z.eqb_spec d (ch ".")) as [|_]; [lia|]. replace (isdigit d) with true by (symmetry; apply isdigit_range; lia).
    rbind; [apply reads_ret|]. rbind; [apply reads_push; unfold is_byte; lia|]. cbv beta iota. rbind; [exact Hread|]. cbn [Z.eqb Pos.eqb]. apply reads_ret.
  - rewrite Eu. apply value_back_intro. intros fuel rest Hf Ht. simpl in Hf. do 4 (destruct fuel as [|fuel]; [lia|]).
    apply reads_digit_char; [exact Hd|]. change (d :: t ++ rest) with ((d :: t) ++ rest). rewrite <- Eu.
    eapply such_weaken; [|apply (reads_unsigned fuel false c rest Hc Ht)]. intros c' [_ Hv]. exists c'. rewrite <- Habs by exact Hpos. auto.
Qed.

(** ** Bytes *)

Lemma upper_digit_spec n : 0 <= n < 16 -> is_digit 16 (upper_digit n) /\ digit_value (upper_digit n) = n.
Proof.
  intros Hn. assert (Ht : forallb (fun n => isxdigit (upper_digit n) && (digit_value (upper_digit n) =? n)) (map Z.of_nat (seq 0 16)) = true) by reflexivity.
  rewrite forallb_forall in Ht. specialize (Ht n). rewrite in_map_iff in Ht. specialize (Ht ltac:(exists (Z.to_nat n); rewrite in_seq; lia)).
  apply andb_true_iff in Ht as [H1 H2]. apply Z.eqb_eq in H2. unfold is_digit. rewrite H2. auto with lia.
Qed.

Lemma fixnum_read neg n x : is_number (signed neg n) 1 x -> 0 <= n < 2 ^ 62 -> x = Int (Fix (signed neg n)).
Proof.
  intros Hx Hn. apply is_number_1 in Hx as (m & -> & Hm & Em). rewrite (inormal_fix m Hm), Em; [reflexivity|].
  rewrite Em. unfold SEXP_MIN_FIXNUM, SEXP_MAX_FIXNUM. destruct neg; simpl; lia.
Qed.

Lemma byte_back b : is_byte b -> value_back (byte_text b) (fun x => x = fixnum b).
Proof.
  intros Hb. unfold byte_text, is_byte in *. destruct (Z.eqb_spec b 0) as [->|].
  - apply value_back_intro. intros fuel rest Hf Ht. simpl in Hf. destruct fuel as [|fuel]; [lia|]. apply reads_digit_char; [lia|].
    eapply such_weaken; [|apply (reads_integer fuel 10 false false 0 rest ltac:(lia) ltac:(lia) Ht)].
    intros c (x & -> & Hx). rewrite (fixnum_read false 0 x Hx ltac:(lia)). reflexivity.
  - cbn [app]. apply value_back_intro. intros fuel rest Hf Ht. simpl in Hf. destruct fuel as [|fuel]; [lia|].
    pose proof (Z.mod_pos_bound b 16 ltac:(lia)). pose proof (Z.div_mod b 16 ltac:(lia)).
    pose proof (land_low 4 b ltac:(lia)) as El. change (2 ^ 4 - 1) with 15 in El. change (2 ^ 4) with 16 in El.
    rewrite El, Z.shiftr_div_pow2 by lia. change (2 ^ 4) with 16.
    destruct (upper_digit_spec (b / 16) ltac:(lia)) as [D1 V1]. destruct (upper_digit_spec (b mod 16) ltac:(lia)) as [D2 V2].
    destruct (reads_integer_digits fuel 16 false false [upper_digit (b / 16); upper_digit (b mod 16)] b rest ltac:(lia)
      ltac:(constructor; [exact D1 | constructor; [exact D2 | constructor]]) ltac:(discriminate) ltac:(unfold digits_value; cbn [fold_left]; rewrite V1, V2; lia) ltac:(lia) Ht)
      as (c & (x & -> & Hx) & Hread).
    rewrite (fixnum_read false b x Hx ltac:(lia)) in Hread. exists (fixnum b). split; [auto|].
    unfold read_raw_body. rchar. cbn [Z.eqb Pos.eqb orb EOF dquote]. unfold read_sharp. cbn [app]. rchar. cbn [existsb Z.eqb Pos.eqb orb]. rbind; [exact Hread | apply reads_ret].
Qed.

(** ** Characters *)

(** Behind [#\], with the character, the one after it, and the symbol they begin *)
Lemma char_literal_back fuel c buf rest x : 0 <= c -> forallb plain buf = true -> terminates rest = true ->
  ((c =? ch "x") || (c =? ch "X")) && isxdigit (next (buf ++ rest)) = false ->
  (if (length buf =? 0)%nat then x = c else named_char false (c :: buf) = Some x) ->
  reads (read_char_literal fuel) (c :: buf ++ rest) (Chr x) rest.
Proof.
  intros Hc Hb Ht Hx Hname. unfold read_char_literal. rchar. rbind; [apply reads_next|].
  assert (Hpush : reads (sexp_push_char (next (buf ++ rest))) (tl (buf ++ rest)) tt (buf ++ rest)).
  { destruct buf as [|d buf]; [apply reads_push_next, Ht|]. cbn [app next tl]. apply reads_push. cbn [forallb] in Hb. apply andb_true_iff in Hb as [Hd _].
    apply plain_range in Hd. unfold is_byte. lia. }
  rbind; [exact Hpush|]. rewrite Hx. rbind; [apply reads_symbol; assumption|]. destruct buf as [|d buf].
  - cbn [length Nat.eqb] in *. subst x. apply reads_ret.
  - cbn [length Nat.eqb] in *. rbind; [apply reads_get_fold|]. cbv beta. rewrite Hname. apply reads_ret.
Qed.

Lemma char_names_plain name c : In (name, c) sexp_char_names -> exists d buf, name = d :: buf /\ 0 <= d /\ forallb plain buf = true /\ (length buf =? 0)%nat = false /\
  ((d =? ch "x") || (d =? ch "X")) = false /\ named_char false name = Some c.
Proof.
  intros Hin. assert (Hall : forallb (fun e => match e.1 with d :: buf => (0 <=? d) && forallb plain buf && negb (length buf =? 0)%nat && negb ((d =? ch "x") || (d =? ch "X")) && bool_decide (named_char false e.1 = Some e.2) | [] => false end) sexp_char_names = true) by (vm_compute; reflexivity).
  rewrite forallb_forall in Hall. specialize (Hall _ Hin). cbn [fst snd] in Hall. destruct name as [|d buf]; [discriminate|].
  repeat (apply andb_true_iff in Hall as [Hall ?]). exists d, buf.
  repeat match goal with H0 : negb _ = true |- _ => apply negb_true_iff in H0 | H0 : bool_decide _ = true |- _ => apply bool_decide_eq_true in H0 end.
  split; [reflexivity|]. split; [lia|]. auto.
Qed.

(** The hexadecimal digits of a character *)
Definition char_digits (c : Z) : list Z :=
  let nibble k := hex_digit (Z.land (Z.shiftr c k) 15) in
  (if c >=? 256 then (if c >=? 65536 then [nibble 20; nibble 16] else []) ++ [nibble 12; nibble 8] else []) ++ [nibble 4; nibble 0].

Lemma nibble_digit c k : 0 <= c -> 0 <= k -> is_digit 16 (hex_digit (Z.land (Z.shiftr c k) 15)) /\ digit_value (hex_digit (Z.land (Z.shiftr c k) 15)) = c / 2 ^ k mod 16.
Proof.
  intros Hc Hk. pose proof (land_low 4 (Z.shiftr c k) ltac:(lia)) as El. change (2 ^ 4 - 1) with 15 in El. change (2 ^ 4) with 16 in El.
  rewrite El, Z.shiftr_div_pow2 by exact Hk. pose proof (Z.mod_pos_bound (c / 2 ^ k) 16 ltac:(lia)).
  split; [apply hex_digit_is_digit; lia | apply hex_digit_value; lia].
Qed.

Lemma char_digits_spec c : 0 <= c < 2 ^ 24 -> Forall (is_digit 16) (char_digits c) /\ char_digits c <> [] /\ digits_value 16 (char_digits c) 0 = c.
Proof.
  intros Hc. unfold char_digits.
  assert (N : forall k, 0 <= k -> is_digit 16 (hex_digit (Z.land (Z.shiftr c k) 15)) /\ digit_value (hex_digit (Z.land (Z.shiftr c k) 15)) = c / 2 ^ k mod 16) by (intros; apply nibble_digit; lia).
  destruct (N 0 ltac:(lia)) as [D0 V0], (N 4 ltac:(lia)) as [D4 V4], (N 8 ltac:(lia)) as [D8 V8], (N 12 ltac:(lia)) as [D12 V12], (N 16 ltac:(lia)) as [D16 V16], (N 20 ltac:(lia)) as [D20 V20].
  rewrite Z.pow_0_r, Z.div_1_r in V0. change (2 ^ 4) with 16 in V4. change (2 ^ 8) with 256 in V8. change (2 ^ 12) with 4096 in V12. change (2 ^ 16) with 65536 in V16. change (2 ^ 20) with 1048576 in V20.
  split; [|split].
  - destruct (c >=? 256), (c >=? 65536); cbn [app]; repeat (apply list.Forall_cons; split; [assumption|]); apply list.Forall_nil; exact I.
  - destruct (c >=? 256), (c >=? 65536); discriminate.
  - clear N D0 D4 D8 D12 D16 D20. unfold digits_value.
    destruct (Z.geb_spec c 256), (Z.geb_spec c 65536); cbn [app fold_left]; rewrite ?V0, ?V4, ?V8, ?V12, ?V16, ?V20; clear V0 V4 V8 V12 V16 V20; lia.
Qed.

Lemma char_back c : 0 <= c <= 1114111 -> value_back (char_text c) (fun x => x = Chr c).
Proof.
  intros Hc.
  assert (E : char_text c = ch "#" :: ch "\" :: match find (fun e => e.2 =? c) sexp_char_names with
    Some (name, _) => name | None => if (33 <=? c) && (c <? 127) then [c] else ch "x" :: char_digits c end) by reflexivity.
  rewrite E. clear E. apply value_back_intro. intros fuel rest Hf Ht. exists (Chr c). split; [auto|].
  unfold read_raw_body. rchar. cbn [Z.eqb Pos.eqb orb EOF dquote]. unfold read_sharp. cbn [app]. rchar. cbn [existsb Z.eqb Pos.eqb orb]. change (isdigit (ch "\")) with false. cbv iota.
  destruct (find (fun e => e.2 =? c) sexp_char_names) as [[name c']|] eqn:Ef.
  - apply find_some in Ef as [Hin Ec]. apply Z.eqb_eq in Ec. cbn [snd] in Ec. subst c'.
    destruct (char_names_plain name c Hin) as (d & buf & -> & Hd & Hb & Hlen & Hx & Hn). cbn [app].
    apply char_literal_back; [exact Hd | exact Hb | exact Ht | rewrite Hx; reflexivity | rewrite Hlen; exact Hn].
  - destruct ((33 <=? c) && (c <? 127)) eqn:Er.
    + cbn [app]. apply (char_literal_back fuel c [] rest c); [lia | reflexivity | exact Ht | | reflexivity].
      cbn [app]. destruct (terminates_tests rest Ht) as (_ & _ & Hx & _). rewrite Hx. apply andb_false_r.
    + destruct (char_digits_spec c ltac:(lia)) as (Hds & Hne & Hv).
      simpl in Hf. destruct fuel as [|fuel]; [lia|].
      destruct (reads_integer_digits fuel 16 false false (char_digits c) c rest ltac:(lia) Hds Hne Hv ltac:(lia) Ht) as (n & (x & -> & Hx) & Hread).
      rewrite (fixnum_read false c x Hx ltac:(lia)) in Hread. cbn [sign_text app signed] in Hread.
      destruct (char_digits c) as [|d ds]; [contradiction|]. apply list.Forall_cons in Hds as [Hd _]. pose proof (is_digit_range _ _ Hd).
      unfold read_char_literal. rchar. cbn [app] in *. rchar. rbind; [apply reads_push; unfold is_byte; lia|]. destruct Hd as [-> _]. cbn [Z.eqb Pos.eqb orb andb].
      rbind; [exact Hread|]. cbv beta iota. destruct (Z.leb_spec 0 c); [|lia]. destruct (Z.leb_spec c 1114111); [|lia]. apply reads_ret.
Qed.
End tokens.
