(* ===== verification/ReadBack.v ===== *)
(** * Reading back what was written

    The printer and the reader are inverse: the text of a datum, in front of
    anything that ends a token, is read as the datum, up to the representation
    of its numbers.  The data that the texts of are read as something else are
    stated too. *)
From Stdlib Require Import ZifyNat ZifyBool Ascii String.
From stdpp Require Import base list option.
From S2P Require Import Prelude LongLong Limbs Bignum Integers Division Numbers Utf8 Text Symbols Decimal Printer Reader ReadNumber ReadTokens.
#[local] Open Scope Z_scope.

(** ** Data that can be read back *)

(** What a datum stands for: its numbers are their values. *)
Fixpoint dmap {A B} (f : A -> B) (x : datum A) : datum B :=
  match x with
  | Imm i => Imm i | Num n => Num (f n) | Chr c => Chr c | Str s => Str s | Sym s => Sym s
  | Cons a d => Cons (dmap f a) (dmap f d)
  | Vec l => Vec (map (dmap f) l)
  | Bytes b => Bytes b | Label n => Label n
  end.

Definition meaning : sexp -> datum ((Z * Z) * (Z * Z)) := dmap cval.

(** Lists, vectors and tokens of the kinds above: no marks of the reader, numbers
    that can be read, and symbols that are not read as something else. *)
Fixpoint readable (x : sexp) : Prop :=
  match x with
  | Imm i => i = SEXP_NULL \/ i = SEXP_TRUE \/ i = SEXP_FALSE
  | Num n => readable_cnum n
  | Chr c => 0 <= c <= 1114111
  | Str s => Forall is_byte s
  | Sym s => Forall is_byte s /\ symbol_readable s = true
  | Cons a d => readable a /\ readable d
  | Vec l => fold_right (fun x P => readable x /\ P) True l
  | Bytes b => Forall is_byte b
  | Label _ => False
  end.

(** The depth to which the printer descends; the rest of a list is at the depth
    of the list. *)
Fixpoint depth (x : sexp) : Z :=
  match x with
  | Cons a d => Z.max (depth a + 1) (match d with Cons _ _ => depth d | _ => depth d + 1 end)
  | Vec l => fold_right (fun x n => Z.max (depth x + 1) n) 1 l
  | _ => 1
  end.

(** ** The text of a datum *)

Definition imm_text (i : immediate) : list Z :=
  match i with SEXP_NULL => lit "()" | SEXP_TRUE => lit "#t" | _ => lit "#f" end.

Definition bytes_text (b : list Z) : list Z :=
  lit "#u8(" ++ match b with [] => lit ")" | b :: l => byte_text b ++ flat_map (fun b => lit " " ++ byte_text b) l ++ lit ")" end.

Fixpoint text (x : sexp) : list Z :=
  match x with
  | Imm i => imm_text i
  | Num n => number_token n
  | Chr c => char_text c
  | Str s => string_text s
  | Sym s => lsymbol_text s
  | Cons a d =>
      lit "(" ++ text a ++ (fix rest (x : sexp) : list Z :=
        match x with
        | Cons a d => lit " " ++ text a ++ rest d
        | Imm SEXP_NULL => lit ")"
        | x => lit " . " ++ text x ++ lit ")"
        end) d
  | Vec [] => lit "#()"
  | Vec (x :: l) => lit "#(" ++ text x ++ fold_right (fun x t => lit " " ++ text x ++ t) (lit ")") l
  | Bytes b => bytes_text b
  | Label _ => []
  end.

(** What is written behind the first element of a list. *)
Fixpoint tail_text (x : sexp) : list Z :=
  match x with
  | Cons a d => lit " " ++ text a ++ tail_text d
  | Imm SEXP_NULL => lit ")"
  | x => lit " . " ++ text x ++ lit ")"
  end.

Lemma datum_text_cons a d : text (Cons a d) = lit "(" ++ text a ++ tail_text d.
Proof.
  reflexivity.
Qed.

Section data.
Context {T : Type} `{LongUIntOk T}.

(** ** The printer writes the text *)

Lemma short_symbol_unbarred s w : huff_encode s = inl w -> symbol_barred s = false.
Proof.
  unfold huff_encode. destruct (_ || _) eqn:E; [discriminate|]. destruct (huff_loop s 0 SEXP_IMMEDIATE_BITS) as [r|] eqn:El; [|discriminate]. intros _.
  apply huff_loop_codes in El as (Hf & _ & _); [| unfold SEXP_IMMEDIATE_BITS; lia | unfold SEXP_IMMEDIATE_BITS; lia].
  apply orb_false_iff in E as [E Es]. apply orb_false_iff in E as [E0 Ed]. unfold symbol_barred.
  assert (Hex : existsb (fun c => (schar c <=? ch " ") || (c =? ch "\") || (c =? ch "|") || (c =? ch "#") || sexp_is_separator (schar c)) s = false).
  { clear - Hf. induction Hf as [|c s Hc _ IH]; [reflexivity|]. cbn [existsb]. rewrite IH, orb_false_r. unfold huff_excluded in Hc.
    destruct (Z.eq_dec c 127) as [->|]; [reflexivity|]. unfold schar. rewrite swrap_id by lia. destruct (sexp_is_separator c); lia. }
  rewrite Hex, Ed. destruct s as [|c s]; [discriminate E0|]. cbn [nth length] in *.
  apply list.Forall_cons in Hf as [Hc _]. unfold huff_excluded in Hc.
  destruct s as [|c2 s]; cbn [length] in *.
  - cbn [Z.of_nat Z.eqb Pos.of_succ_nat Z.gtb Z.compare Pos.compare Pos.compare_cont andb orb]. lia.
  - destruct ((c =? ch "+") || (c =? ch "-")); [discriminate Es|]. rewrite !andb_false_r. cbn [orb].
    destruct (Z.eqb_spec (Z.of_nat (S (S (length s)))) 0); [lia|]. destruct (Z.eqb_spec (Z.of_nat (S (S (length s)))) 1); [lia | reflexivity].
Qed.

Lemma symbol_written s : match huff_encode s with inl w => huff_decode w | inr _ => lsymbol_text s end = lsymbol_text s.
Proof.
  destruct (huff_encode s) as [w|] eqn:E; [|reflexivity]. rewrite (huff_decode_encode _ _ E). unfold lsymbol_text. rewrite (short_symbol_unbarred _ _ E).
  cbn [app]. rewrite app_nil_r. unfold huff_encode in E. destruct (_ || _); [discriminate|].
  destruct (huff_loop s 0 SEXP_IMMEDIATE_BITS) as [r|] eqn:El; [|discriminate].
  apply huff_loop_codes in El as (Hf & _ & _); [| unfold SEXP_IMMEDIATE_BITS; lia | unfold SEXP_IMMEDIATE_BITS; lia].
  clear - Hf. induction Hf as [|c s Hc _ IH]; [reflexivity|]. cbn [flat_map]. rewrite <- IH. unfold symbol_char, huff_excluded in *.
  destruct (Z.eqb_spec c (ch "\")); [lia|]. destruct (Z.eqb_spec c (ch "|")); [lia | reflexivity].
Qed.

Lemma depth_pos x : 1 <= depth x.
Proof.
  induction x as [| | | | |a d IHa IHd|l IH| |] using datum_rect_nested; cbn [depth]; try lia.
  induction IH as [|x l Hx _ IH]; cbn [fold_right]; lia.
Qed.

Lemma number_written c : readable_cnum c -> cnum_text c = Some (number_token c).
Proof.
  intros Hc. rewrite (cnum_text_spec c Hc). unfold number_token. destruct c as [x|re im]; cbn [unsigned_cnum real_part]; rewrite <- ?app_assoc; reflexivity.
Qed.

(** Above the bound of the printer nothing is cut. *)
Lemma write_one_unbounded x bound : bound + depth x <= SEXP_DEFAULT_WRITE_BOUND -> sexp_pointerp x && (bound >=? SEXP_DEFAULT_WRITE_BOUND) = false.
Proof. intros Hb. pose proof (depth_pos x). destruct (Z.geb_spec bound SEXP_DEFAULT_WRITE_BOUND); [lia | apply andb_false_r]. Qed.

(** The printer behind the first element of a list, and of a vector. *)
Definition write_tail (bound : Z) := fix rest (x : sexp) : option (list Z) :=
  match x with
  | Cons a d => h ← write_one a (bound + 1); t ← rest d; Some (lit " " ++ h ++ t)
  | Imm SEXP_NULL => Some (lit ")")
  | x => t ← write_one x (bound + 1); Some (lit " . " ++ t ++ lit ")")
  end.

Definition write_elements (bound : Z) := fix rest (l : list sexp) : option (list Z) :=
  match l with
  | [] => Some (lit ")")
  | x :: l => h ← write_one x (bound + 1); t ← rest l; Some (lit " " ++ h ++ t)
  end.

Lemma write_cons a d bound : bound < SEXP_DEFAULT_WRITE_BOUND ->
  write_one (Cons a d) bound = (h ← write_one a (bound + 1); t ← write_tail bound d; Some (lit "(" ++ h ++ t)).
Proof.
  intros Hb. transitivity (if sexp_pointerp (Cons a d) && (bound >=? SEXP_DEFAULT_WRITE_BOUND) then Some (lit "...")
    else (h ← write_one a (bound + 1); t ← write_tail bound d; Some (lit "(" ++ h ++ t))); [reflexivity|].
  destruct (Z.geb_spec bound SEXP_DEFAULT_WRITE_BOUND); [lia | reflexivity].
Qed.

Lemma write_vector x l bound : bound < SEXP_DEFAULT_WRITE_BOUND ->
  write_one (Vec (x :: l)) bound = (h ← write_one x (bound + 1); t ← write_elements bound l; Some (lit "#(" ++ h ++ t)).
Proof.
  intros Hb. transitivity (if sexp_pointerp (Vec (x :: l)) && (bound >=? SEXP_DEFAULT_WRITE_BOUND) then Some (lit "...")
    else (h ← write_one x (bound + 1); t ← write_elements bound l; Some (lit "#(" ++ h ++ t))); [reflexivity|].
  destruct (Z.geb_spec bound SEXP_DEFAULT_WRITE_BOUND); [lia | reflexivity].
Qed.

Definition tail_depth (x : sexp) : Z := match x with Cons _ _ => depth x | _ => depth x + 1 end.

Definition written_as (x : sexp) : Prop := readable x -> forall bound,
  (bound + depth x <= SEXP_DEFAULT_WRITE_BOUND -> write_one x bound = Some (text x)) /\
  (bound + tail_depth x <= SEXP_DEFAULT_WRITE_BOUND -> write_tail bound x = Some (tail_text x)).

(** An object that is no pair is written behind a dot. *)
Lemma written_atom x : (forall a d, x <> Cons a d) ->
  (readable x -> forall bound, bound + depth x <= SEXP_DEFAULT_WRITE_BOUND -> write_one x bound = Some (text x)) -> written_as x.
Proof.
  intros Hx Hw Hr bound. split; [apply Hw, Hr|]. intros Hb.
  destruct x as [i|n|c|s|s|a d|l|b|n]; try destruct (Hx a d eq_refl); cbn [tail_depth] in Hb;
    try (cbn [write_tail tail_text]; rewrite Hw by (assumption || lia); reflexivity).
  destruct i; cbn [write_tail tail_text]; try (rewrite Hw by (assumption || lia); reflexivity). reflexivity.
Qed.

Ltac written :=
  apply written_atom; [discriminate | intros Hr bound Hb; pose proof (write_one_unbounded _ _ Hb) as Ep; cbn [readable] in Hr; cbn [write_one]; rewrite ?Ep].

Lemma write_text x : written_as x.
Proof.
  induction x as [i|n|c|s|s|a d IHa IHd|l IH|b|n] using datum_rect_nested.
  - written. destruct Hr as [-> | [-> | ->]]; reflexivity.
  - written. apply number_written, Hr.
  - written. reflexivity.
  - written. reflexivity.
  - written. rewrite symbol_written. reflexivity.
  - intros [Ha Hd] bound. cbn [tail_depth]. change (depth (Cons a d)) with (Z.max (depth a + 1) (tail_depth d)). pose proof (depth_pos a).
    assert (Hboth : bound + Z.max (depth a + 1) (tail_depth d) <= SEXP_DEFAULT_WRITE_BOUND -> write_one a (bound + 1) = Some (text a) /\ write_tail bound d = Some (tail_text d)).
    { intros Hb. split; [apply (IHa Ha); lia | apply (IHd Hd); lia]. }
    split; intros Hb; destruct (Hboth Hb) as [E1 E2].
    + rewrite write_cons, E1, E2 by lia. reflexivity.
    + cbn [write_tail]. rewrite E1, E2. reflexivity.
  - apply written_atom; [discriminate|]. intros Hr bound Hb. destruct l as [|x l]; [pose proof (write_one_unbounded _ _ Hb) as Ep; cbn [write_one]; rewrite Ep; reflexivity|].
    cbn [readable fold_right depth] in *. destruct Hr as [Hx Hl]. apply list.Forall_cons in IH as [IHx IHl]. pose proof (depth_pos x).
    rewrite write_vector by lia. rewrite (proj1 (IHx Hx (bound + 1))) by lia. cbn [mbind option_bind text].
    assert (Ht : bound + fold_right (fun x n => Z.max (depth x + 1) n) 1 l <= SEXP_DEFAULT_WRITE_BOUND ->
      write_elements bound l = Some (fold_right (fun x t => lit " " ++ text x ++ t) (lit ")") l)).
    { clear - IHl Hl. induction IHl as [|y l Hy _ IH]; intros Hb; [reflexivity|]. cbn [fold_right write_elements] in *. destruct Hl as [Hry Hl].
      rewrite (proj1 (Hy Hry (bound + 1))) by lia. rewrite IH by (assumption || lia). reflexivity. }
    rewrite Ht by lia. reflexivity.
  - written. destruct b; reflexivity.
  - intros [].
Qed.

(** ** The reader on lists *)

Lemma such_assoc {A B C} (m : reader A) (f : A -> reader B) (g : B -> reader C) s a mid Q rest :
  reads m s a mid -> reads_such (bind (f a) g) mid Q rest -> reads_such (bind (bind m f) g) s Q rest.
Proof.
  intros Hm (c & Hc & Hfg). exists c. split; [exact Hc|]. intros l v. destruct (Hm l v) as [l1 E1]. destruct (Hfg l1 v) as [l2 E2].
  exists l2. unfold bind in *. rewrite E1. exact E2.
Qed.

Lemma list_loop_value raw n tmp res : is_value tmp = true -> list_loop raw (S n) tmp res = (tmp' <- raw; list_loop raw n tmp' (tmp :: res)).
Proof. destruct tmp as [[]| | | | | | | |]; intros Hv; try discriminate Hv; reflexivity. Qed.

Lemma raw_close fuel rest : (1 <= fuel)%nat -> reads (sexp_read_raw fuel) (ch ")" :: rest) (Imm SEXP_CLOSE) rest.
Proof. intros Hf. destruct fuel as [|fuel]; [lia|]. cbn [sexp_read_raw]. unfold read_raw_body. rchar. apply reads_ret. Qed.

Lemma raw_space fuel s P rest : reads_such (sexp_read_raw fuel) s P rest -> reads_such (sexp_read_raw (S fuel)) (ch " " :: s) P rest.
Proof. intros (x & HP & Hx). exists x. split; [exact HP|]. cbn [sexp_read_raw]. unfold read_raw_body. rchar. cbn [Z.eqb Pos.eqb orb EOF dquote]. exact Hx. Qed.

Lemma raw_dot fuel rest : (1 <= fuel)%nat -> reads (sexp_read_raw fuel) (ch "." :: ch " " :: rest) (Imm SEXP_RAWDOT) (ch " " :: rest).
Proof.
  intros Hf. destruct fuel as [|fuel]; [lia|]. cbn [sexp_read_raw]. unfold read_raw_body. rchar. cbn [Z.eqb Pos.eqb orb EOF dquote]. unfold read_dot. rchar.
  rbind; [apply reads_push; unfold is_byte; lia|]. apply reads_ret.
Qed.

(** The text [t] continues a list and ends it: behind [tmp] and the elements
    [res] in front of that, the list goes on with something that [Q] holds of. *)
Definition tail_back (t : list Z) (Q : sexp -> Prop) : Prop :=
  (forall rest, terminates (t ++ rest) = true) /\
  forall rest fuel n tmp res, (length t + 4 <= fuel)%nat -> (length t + 1 <= n)%nat -> is_value tmp = true ->
    reads_such (r <- list_loop (sexp_read_raw fuel) n tmp res; list_end (sexp_read_raw fuel) r) (t ++ rest)
      (fun x => exists d, x = make_list (tmp :: res) d /\ Q d) rest.

Lemma tail_back_weaken t (P Q : sexp -> Prop) : (forall x, P x -> Q x) -> tail_back t P -> tail_back t Q.
Proof.
  intros HPQ [Ht Hb]. split; [exact Ht|]. intros rest fuel n tmp res Hf Hn Hv. eapply such_weaken; [|apply Hb; assumption].
  intros x (d & -> & Hd). eauto.
Qed.

Lemma tail_nil : tail_back (lit ")") (fun d => d = Imm SEXP_NULL).
Proof.
  split; [reflexivity|]. intros rest fuel n tmp res Hf Hn Hv. simpl in Hf, Hn. do 2 (destruct n as [|n]; [lia|]).
  rewrite list_loop_value by exact Hv. cbn [app]. eapply such_assoc; [apply raw_close; lia|]. cbn [list_loop].
  sstep; [apply reads_ret|]. cbn [list_end]. apply such_ret. eauto.
Qed.

Definition cons_of (P Q : sexp -> Prop) (x : sexp) : Prop := exists a d, x = Cons a d /\ P a /\ Q d.

Lemma tail_cons t t' P Q : value_back t P -> tail_back t' Q -> tail_back (lit " " ++ t ++ t') (cons_of P Q).
Proof.
  intros Ht [Hs Ht']. split; [reflexivity|]. intros rest fuel n tmp res Hf Hn Hv. cbn [app length] in *. rewrite length_app in Hf, Hn.
  destruct n as [|n]; [lia|]. destruct fuel as [|fuel]; [lia|]. rewrite list_loop_value by exact Hv. rewrite <- app_assoc.
  destruct (raw_space fuel _ _ _ (Ht (t' ++ rest) fuel (Hs rest) ltac:(lia))) as (a & [Ha Hva] & Hread). eapply such_assoc; [exact Hread|].
  eapply such_weaken; [|apply (Ht' rest (S fuel) n a (tmp :: res)); [lia | lia | exact Hva]].
  intros x (d & -> & Hd). exists (Cons a d). split; [reflexivity | exists a, d; auto].
Qed.

Lemma tail_dot t P : value_back t P -> tail_back (lit " . " ++ t ++ lit ")") P.
Proof.
  intros Ht. split; [reflexivity|]. intros rest fuel n tmp res Hf Hn Hv. cbn [app length] in *. rewrite length_app in Hf, Hn. simpl in Hf, Hn.
  do 2 (destruct n as [|n]; [lia|]). do 2 (destruct fuel as [|fuel]; [lia|]). rewrite list_loop_value by exact Hv.
  assert (Hdot : reads (sexp_read_raw (S (S fuel))) (ch " " :: ch "." :: ch " " :: (t ++ lit ")") ++ rest) (Imm SEXP_RAWDOT) (ch " " :: (t ++ lit ")") ++ rest)).
  { destruct (raw_space (S fuel) _ (eq (Imm SEXP_RAWDOT)) _ (ex_intro _ _ (conj eq_refl (raw_dot (S fuel) ((t ++ lit ")") ++ rest) ltac:(lia))))) as (x & <- & Hx). exact Hx. }
  eapply such_assoc; [exact Hdot|]. cbn [list_loop]. sstep; [apply reads_ret|]. cbn [list_end dotted_tail]. rewrite <- app_assoc. cbn [app].
  destruct (raw_space (S fuel) _ _ _ (Ht (ch ")" :: rest) (S fuel) eq_refl ltac:(lia))) as (x & [Hx Hvx] & Hread). sstep; [exact Hread|].
  exists (make_list (tmp :: res) x). split; [eauto|]. cbv beta.
  assert (Hend : reads (fun p => match sexp_read_raw (S (S fuel)) p with
      | (Stop s, p0) => (Stop s, p0)
      | (Done (Imm SEXP_CLOSE), p0) => match x with Imm SEXP_RAWDOT => sexp_read_error "multiple dots in list" p0 | _ => ret (make_list (tmp :: res) x) p0 end
      | (_, p0) => sexp_read_error "multiple tokens in dotted tail" p0 end) (ch ")" :: rest) (make_list (tmp :: res) x) rest).
  { intros l v. destruct (raw_close (S (S fuel)) rest ltac:(lia) l v) as [l' E]. exists l'. rewrite E.
    destruct x as [[]| | | | | | | |]; try discriminate Hvx; reflexivity. }
  destruct x as [[]| | | | | | | |]; try discriminate Hvx; exact Hend.
Qed.

Lemma list_back t t' P Q : value_back t P -> tail_back t' Q -> value_back (lit "(" ++ t ++ t') (cons_of P Q).
Proof.
  intros Ht [Hs Ht']. cbn [app]. apply value_back_intro. intros fuel rest Hf Hr. rewrite length_app in Hf.
  unfold read_raw_body. sstep; [apply reads_char|]. cbn [Z.eqb Pos.eqb orb EOF dquote]. unfold read_list. rewrite <- app_assoc.
  destruct (Ht (t' ++ rest) fuel (Hs rest) ltac:(lia)) as (a & [Ha Hva] & Hread). sstep; [exact Hread|].
  eapply such_weaken; [|apply (Ht' rest fuel fuel a []); [lia | lia | exact Hva]].
  intros x (d & -> & Hd). split; [exists a, d; auto | reflexivity].
Qed.

Lemma null_back : value_back (lit "()") (fun x => x = Imm SEXP_NULL).
Proof.
  apply value_back_intro. intros fuel rest Hf Hr. simpl in Hf. exists (Imm SEXP_NULL). split; [auto|].
  unfold read_raw_body. rchar. cbn [Z.eqb Pos.eqb orb EOF dquote]. unfold read_list. cbn [app]. rbind; [apply raw_close; lia|].
  destruct fuel as [|fuel]; [lia|]. cbn [list_loop]. rbind; [apply reads_ret | apply reads_ret].
Qed.

Lemma reads_one fuel s P rest : reads_such (sexp_read_raw fuel) s (fun x => P x /\ is_value x = true) rest -> reads_such (sexp_read_one (sexp_read_raw fuel)) s P rest.
Proof.
  intros (x & [HP Hv] & Hx). exists x. split; [exact HP|]. unfold sexp_read_one. rbind; [exact Hx|].
  destruct x as [[]| | | | | | | |]; try discriminate Hv; apply reads_ret.
Qed.

(** ** Vectors, bytevectors and constants *)

Lemma sharp_intro c t P : (forall fuel rest, (length (c :: t) + 4 <= fuel)%nat -> terminates rest = true ->
    reads_such (read_sharp fuel (sexp_read_raw fuel)) (c :: t ++ rest) (fun x => P x /\ is_value x = true) rest) -> value_back (ch "#" :: c :: t) P.
Proof.
  intros Hs. apply value_back_intro. intros fuel rest Hf Hr. destruct (Hs fuel rest Hf Hr) as (x & HP & Hx). exists x. split; [exact HP|].
  unfold read_raw_body. rchar. cbn [Z.eqb Pos.eqb orb EOF dquote]. exact Hx.
Qed.

Lemma vector_back t P Q : value_back (lit "(" ++ t) P -> (forall x, P x -> exists l, list_elements x = Some l /\ Q (Vec l)) -> value_back (lit "#(" ++ t) Q.
Proof.
  intros Ht HPQ. apply sharp_intro. intros fuel rest Hf Hr. unfold read_sharp. sstep; [apply reads_char|]. cbn [existsb Z.eqb Pos.eqb orb].
  unfold read_vector. sstep; [apply reads_push; unfold is_byte; lia|].
  eapply such_bind; [apply (reads_one fuel (ch "(" :: t ++ rest)), (Ht rest fuel Hr); exact Hf|].
  intros x Hx. destruct (HPQ x Hx) as (l & El & HQ). rewrite El. apply such_ret. split; [exact HQ | reflexivity].
Qed.

Lemma boolean_back c i : (c = ch "t" /\ i = SEXP_TRUE) \/ (c = ch "f" /\ i = SEXP_FALSE) -> value_back [ch "#"; c] (fun x => x = Imm i).
Proof.
  intros Hc. apply sharp_intro. intros fuel rest Hf Hr. exists (Imm i). split; [destruct Hc as [[_ ->]|[_ ->]]; auto|].
  unfold read_sharp. cbn [app]. rchar.
  assert (Hb : reads (read_boolean fuel (sexp_read_raw fuel) c) rest (Imm i) rest).
  { unfold read_boolean. rbind; [apply reads_next|]. rbind; [apply reads_push_next, Hr|].
    destruct (terminates_tests rest Hr) as (_ & _ & _ & Hend). replace ((next rest =? EOF) || sexp_is_separator (next rest)) with true by (destruct (next rest =? EOF), (sexp_is_separator (next rest)); auto).
    destruct Hc as [[-> ->]|[-> ->]]; apply reads_ret. }
  destruct Hc as [[-> ->]|[-> ->]]; exact Hb.
Qed.

Definition bytes_list (b : list Z) : sexp := fold_right (fun b d => Cons (fixnum b) d) (Imm SEXP_NULL) b.

Lemma bytes_tail b : Forall is_byte b -> tail_back (flat_map (fun b => lit " " ++ byte_text b) b ++ lit ")") (fun d => d = bytes_list b).
Proof.
  induction 1 as [|c b Hc _ IH]; [exact tail_nil|]. cbn [flat_map]. rewrite <- !app_assoc.
  eapply tail_back_weaken; [|apply (tail_cons _ _ _ _ (byte_back c Hc) IH)]. intros x (a & d & -> & -> & ->). reflexivity.
Qed.

Lemma bytes_elements b : list_elements (bytes_list b) = Some (map fixnum b).
Proof. induction b as [|c b IH]; [reflexivity|]. cbn [bytes_list fold_right list_elements map]. fold (bytes_list b). rewrite IH. reflexivity. Qed.

Lemma bytes_converted b s : Forall is_byte b -> reads (list_to_bytes (bytes_list b)) s (Bytes b) s.
Proof.
  intros Hb. unfold list_to_bytes. rewrite bytes_elements.
  assert (Hv : forallb u8_valid (map fixnum b) = true /\ mapM u8_value (map fixnum b) = Some b).
  { induction Hb as [|c b Hc _ [IH1 IH2]]; [auto|]. unfold is_byte in Hc. cbn [map forallb mapM u8_valid u8_value fixnum]. rewrite IH1, IH2. cbn [mbind option_bind].
    rewrite uwrap_id by (unfold is_u; lia). split; [lia | reflexivity]. }
  destruct Hv as [-> ->]. apply reads_ret.
Qed.

Lemma bytes_list_back b : Forall is_byte b ->
  value_back (lit "(" ++ match b with [] => lit ")" | b :: l => byte_text b ++ flat_map (fun b => lit " " ++ byte_text b) l ++ lit ")" end) (fun x => x = bytes_list b).
Proof.
  intros Hb. destruct b as [|c b]; [exact null_back|]. apply list.Forall_cons in Hb as [Hc Hb].
  eapply value_back_weaken; [|apply (list_back _ _ _ _ (byte_back c Hc) (bytes_tail b Hb))]. intros x (a & d & -> & -> & ->). reflexivity.
Qed.

Lemma bytevector_back b : Forall is_byte b -> value_back (bytes_text b) (fun x => x = Bytes b).
Proof.
  intros Hb. unfold bytes_text. pose proof (bytes_list_back b Hb) as Hl.
  set (t := match b with [] => lit ")" | b :: l => byte_text b ++ flat_map (fun b => lit " " ++ byte_text b) l ++ lit ")" end) in *.
  apply (sharp_intro (ch "u") (lit "8(" ++ t)). intros fuel rest Hf Hr. unfold read_sharp. sstep; [apply reads_char|]. cbn [existsb Z.eqb Pos.eqb orb].
  unfold read_uvector. cbn [app length] in *. destruct fuel as [|fuel]; [lia|].
  destruct (reads_integer fuel 10 true false 8 (ch "(" :: t ++ rest) ltac:(lia) ltac:(lia) eq_refl) as (c & (x & -> & Hx) & Hread).
  rewrite (fixnum_read false 8 x Hx ltac:(lia)) in Hread. sstep; [exact Hread|]. change (sexp_resolve_uniform_type (sexp_tolower (ch "u")) (Real (Int (Fix (signed false 8))))) with U8. cbv iota.
  eapply such_bind; [apply (reads_one (S fuel) (ch "(" :: t ++ rest)), (Hl rest (S fuel) Hr); simpl; lia|].
  intros y ->. exists (Bytes b). split; [auto|]. apply bytes_converted, Hb.
Qed.

(** ** Data are read back *)

Definition same (x y : sexp) : Prop := meaning y = meaning x.

Definition read_back (x : sexp) : Prop := readable x -> value_back (text x) (same x) /\ tail_back (tail_text x) (same x).

Lemma back_atom x : (forall a d, x <> Cons a d) -> (readable x -> value_back (text x) (same x)) -> read_back x.
Proof.
  intros Hx Ht Hr. split; [apply Ht, Hr|]. destruct x as [i|n|c|s|s|a d|l|b|n]; try destruct (Hx a d eq_refl); try apply tail_dot, Ht, Hr.
  destruct i; try apply tail_dot, Ht, Hr. eapply tail_back_weaken; [|apply tail_nil]. intros x ->. reflexivity.
Qed.

Ltac back H := apply back_atom; [discriminate | intros Hr; eapply value_back_weaken; [|apply H; exact Hr]; intros y ->; reflexivity].

Lemma list_elements_meaning l : forall x, meaning x = fold_right Cons (Imm SEXP_NULL) (map meaning l) -> exists l', list_elements x = Some l' /\ map meaning l' = map meaning l.
Proof.
  induction l as [|y l IH]; intros x Hx; cbn [map fold_right] in Hx.
  - destruct x as [i| | | | | | | |]; try discriminate Hx. injection Hx as ->. exists []. auto.
  - destruct x as [i| | | | |a d| | |]; try discriminate Hx. injection Hx as Ha Hd. destruct (IH d Hd) as (l' & E & El).
    exists (a :: l'). cbn [list_elements]. rewrite E. cbn [mbind option_bind map]. split; [reflexivity|]. f_equal; [exact Ha | exact El].
Qed.

Lemma elements_back l : Forall read_back l -> fold_right (fun x P => readable x /\ P) True l ->
  tail_back (fold_right (fun x t => lit " " ++ text x ++ t) (lit ")") l) (fun d => meaning d = fold_right Cons (Imm SEXP_NULL) (map meaning l)).
Proof.
  induction 1 as [|x l Hx _ IH]; cbn [fold_right]; intros Hr.
  - eapply tail_back_weaken; [|apply tail_nil]. intros d ->. reflexivity.
  - destruct Hr as [Hrx Hr]. destruct (Hx Hrx) as [Hv _]. eapply tail_back_weaken; [|apply (tail_cons _ _ _ _ Hv (IH Hr))].
    intros d (a & b & -> & Ha & Hb). unfold same in Ha. cbn [map fold_right]. rewrite <- Ha, <- Hb. reflexivity.
Qed.

Lemma data_back x : read_back x.
Proof.
  induction x as [i|n|c|s|s|a d IHa IHd|l IH|b|n] using datum_rect_nested.
  - apply back_atom; [discriminate|]. intros Hr. cbn [readable] in Hr. destruct Hr as [-> | [-> | ->]].
    + eapply value_back_weaken; [|apply null_back]. intros y ->. reflexivity.
    + eapply value_back_weaken; [|apply (boolean_back (ch "t") SEXP_TRUE); auto]. intros y ->. reflexivity.
    + eapply value_back_weaken; [|apply (boolean_back (ch "f") SEXP_FALSE); auto]. intros y ->. reflexivity.
  - apply back_atom; [discriminate|]. intros Hr. eapply value_back_weaken; [|apply number_back, Hr].
    intros y (c & -> & Ec). unfold same, meaning. cbn [dmap]. congruence.
  - back char_back.
  - back string_back.
  - apply back_atom; [discriminate|]. intros [Hs Hr]. eapply value_back_weaken; [|apply symbol_back; assumption]. intros y ->. reflexivity.
  - intros [Ha Hd]. destruct (IHa Ha) as [Hva _], (IHd Hd) as [_ Htd].
    assert (Hc : forall x, cons_of (same a) (same d) x -> same (Cons a d) x).
    { intros x (a' & d' & -> & Ea & Ed). unfold same, meaning in *. cbn [dmap]. congruence. }
    split.
    + rewrite datum_text_cons. eapply value_back_weaken; [exact Hc | apply list_back; assumption].
    + cbn [tail_text]. eapply tail_back_weaken; [exact Hc | apply tail_cons; assumption].
  - apply back_atom; [discriminate|]. intros Hr. cbn [readable] in Hr.
    assert (Hv : forall x, meaning x = fold_right Cons (Imm SEXP_NULL) (map meaning l) -> exists l', list_elements x = Some l' /\ same (Vec l) (Vec l')).
    { intros x Hx. destruct (list_elements_meaning l x Hx) as (l' & E & El). exists l'. split; [exact E|]. unfold same, meaning in *. cbn [dmap]. f_equal. exact El. }
    destruct l as [|y l].
    + apply (vector_back (lit ")") (fun x => x = Imm SEXP_NULL)); [exact null_back | intros x ->; apply Hv; reflexivity].
    + cbn [text]. cbn [fold_right] in Hr. destruct Hr as [Hry Hr]. apply list.Forall_cons in IH as [IHy IHl]. destruct (IHy Hry) as [Hvy _].
      eapply vector_back; [apply (list_back _ _ _ _ Hvy (elements_back l IHl Hr))|].
      intros x (a & d & -> & Ha & Hd). apply Hv. unfold same in Ha. cbn [map fold_right]. rewrite <- Ha, <- Hd. reflexivity.
  - back bytevector_back.
  - intros [].
Qed.

(** ** Numbers from strings *)

(** The first characters of the text of a number *)
Lemma number_token_start c : readable_cnum c -> let t := number_token c in
  isxdigit (nth 0 t 0) = true \/ nth 0 t 0 = ch "-" /\ isdigit (nth 1 t 0) = true.
Proof.
  intros Hc. unfold number_token. destruct (unsigned_cnum_cons c Hc) as (d & t & -> & Hd). assert (Hdig : isdigit d = true) by (apply isdigit_range; lia).
  destruct (_ <? 0); cbn [sign_text app nth]; [right; auto | left; unfold isxdigit; rewrite Hdig; reflexivity].
Qed.

Lemma string_to_number_read fuel t base x p : 2 <= base <= 36 ->
  isxdigit (nth 0 t 0) = true \/ nth 0 t 0 = ch "-" /\ nth 1 t 0 <> 0 ->
  (if base =? 10 then sexp_read (sexp_read_raw fuel) (string_port t) else (n <- sexp_read_number fuel base false; ret (Num n : sexp)) (string_port t)) = (Done (Num x), p) ->
  inp p = [] -> sexp_string_to_number fuel t base = Done (Some x).
Proof.
  intros Hb Ht Hm Hp. unfold sexp_string_to_number. replace ((base <? 2) || (base >? 36)) with false by lia.
  set (c0 := nth 0 t 0) in *. set (c1 := nth 1 t 0) in *.
  assert (Hx : forall c, isxdigit c = true -> (c =? 0) = false /\ (c =? ch "+") = false /\ (c =? ch "#") = false).
  { intros c. unfold isxdigit, isdigit. lia. }
  assert (Hs : (c0 =? 0) || (c1 =? 0) && negb (isxdigit c0) = false /\ (c0 =? ch "+") = false /\ (c0 =? ch "#") = false).
  { destruct Ht as [Hx0|[-> H1]]; [destruct (Hx _ Hx0) as (-> & -> & ->); rewrite Hx0; split; [apply andb_false_r | auto]|].
    destruct (Z.eqb_spec c1 0); [contradiction | auto]. }
  destruct Hs as (-> & -> & ->). cbn [andb orb]. destruct (base =? 10); rewrite Hm, Hp; reflexivity.
Qed.

Lemma sexp_read_alone fuel t P : value_back t P -> (length t + 4 <= fuel)%nat ->
  exists x l, P x /\ sexp_read (sexp_read_raw fuel) (string_port t) = (Done x, Port [] l false None).
Proof.
  intros Ht Hf. destruct (reads_one fuel t P [] ) as (x & HP & Hx).
  { pose proof (Ht [] fuel eq_refl Hf) as Hr. rewrite app_nil_r in Hr. exact Hr. }
  destruct (Hx 1 None) as [l' E]. exists x, l'. split; [exact HP|]. unfold sexp_read, string_port. cbn [shares].
  assert (Em : (set_shares None;; res <- sexp_read_one (sexp_read_raw fuel); v <- get_shares; match v with Some v => fill_reader_labels v res | None => ret res end)
    (Port t 1 false None) = (Done x, Port [] l' false None)).
  { unfold bind, set_shares, get_shares. cbn [inp line fold_casep shares]. rewrite E. reflexivity. }
  rewrite Em. reflexivity.
Qed.

Lemma number_from_text fuel c : readable_cnum c -> (length (number_token c) + 4 <= fuel)%nat ->
  exists c', sexp_string_to_number fuel (number_token c) 10 = Done (Some c') /\ cval c' = cval c.
Proof.
  intros Hc Hf. destruct (sexp_read_alone fuel _ _ (number_back c Hc) Hf) as (x & l & (c' & -> & E) & Hr). exists c'. split; [|exact E].
  apply (string_to_number_read fuel _ 10 c' (Port [] l false None)); [lia | | exact Hr | reflexivity].
  destruct (number_token_start c Hc) as [Hx|[Hm Hd]]; [left; exact Hx | right; split; [exact Hm|]]. intros E0. rewrite E0 in Hd. discriminate Hd.
Qed.

Lemma integer_from_text fuel z base : 2 <= base <= 16 -> base <> 10 -> (1 <= fuel)%nat ->
  exists x, sexp_string_to_number fuel (signed_numeral base z) base = Done (Some (Real x)) /\ is_number z 1 x.
Proof.
  intros Hb Hne Hf. destruct fuel as [|f]; [lia|]. unfold signed_numeral. change (if z <? 0 then [ch "-"] else []) with (sign_text (z <? 0)).
  destruct (reads_integer f base false (z <? 0) (Z.abs z) [] Hb ltac:(lia) eq_refl) as (c & (x & -> & Hx) & Hr). rewrite app_nil_r in Hr.
  replace (signed (z <? 0) (Z.abs z)) with z in Hx by (unfold signed; destruct (Z.ltb_spec z 0); lia).
  exists x. split; [|exact Hx]. destruct (Hr 1 None) as [l E].
  apply (string_to_number_read (S f) _ base (Real x) (Port [] l false None)); [lia | | | reflexivity].
  - destruct (numeral_spec base (Z.abs z) Hb ltac:(lia)) as (Hds & Hnn & _). destruct (numeral base (Z.abs z)) as [|d ds]; [contradiction|].
    apply list.Forall_cons in Hds as [Hd _]. destruct (z <? 0); cbn [sign_text app nth]; [right; split; [reflexivity|] | left; apply Hd].
    destruct (is_digit_range base d Hd); lia.
  - destruct (Z.eqb_spec base 10); [contradiction|]. unfold string_port, bind. rewrite E. reflexivity.
Qed.

Lemma integer_token x : number_token (Real (Int x)) = signed_numeral 10 (ival x).
Proof. unfold number_token, signed_numeral, unsigned_cnum, unsigned_text, fraction_text. cbn [real_part numer denom Z.eqb]. rewrite app_nil_r. reflexivity. Qed.

(** C31 (roundtrip).  What the printer writes, the reader reads back: the text of a
    datum made of lists, vectors, bytevectors, strings of any bytes, symbols,
    characters, booleans and exact numbers, real or complex, is read as a datum
    of the same structure with numbers of the same value, and reading stops
    where the text ends.  The data are at most as deep as the printer goes, their symbols are not
    among those that are read as something else ([symbol_readable]), and the
    ratios in complex numbers have small numerators ([readable_cnum]). *)
Theorem write_read_back x rest fuel : readable x -> depth x <= SEXP_DEFAULT_WRITE_BOUND -> terminates rest = true ->
  exists t, sexp_write x = Some t /\
    ((length t + 4 <= fuel)%nat -> exists y, meaning y = meaning x /\
       forall l v, exists l', sexp_read_one (sexp_read_raw fuel) (Port (t ++ rest) l false v) = (Done y, Port rest l' false v)).
Proof.
  intros Hr Hd Ht. exists (text x). split; [apply (write_text x Hr 0); lia|]. intros Hf. destruct (data_back x Hr) as [Hv _].
  exact (reads_one fuel _ _ _ (Hv rest fuel Ht Hf)).
Qed.

(** [string->number] takes the text that is written of an exact
    number in normal form, real or complex with an imaginary part that is not
    zero, to a number of the same value, unless a denominator is [2^62] or the
    number is complex and has a part that is a ratio with a numerator beyond the
    fixnums ([readable_cnum]); and, in each base from two up to sixteen, it takes
    the numeral of an exact integer, which is the text that
    [sexp_write_bignum] writes of a bignum, to a number of that value.  Fuel of
    the length of the text and four is enough. *)
Theorem string_to_number_correct fuel c x base : readable_cnum c -> inormal x -> 2 <= base <= 16 ->
  (exists t, cnum_text c = Some t /\
     ((length t + 4 <= fuel)%nat -> exists c', sexp_string_to_number fuel t 10 = Done (Some c') /\ cval c' = cval c)) /\
  (forall b, x = Big b -> sexp_write_bignum b base = Written (signed_numeral base (ival x))) /\
  ((length (signed_numeral base (ival x)) + 4 <= fuel)%nat ->
     exists c', sexp_string_to_number fuel (signed_numeral base (ival x)) base = Done (Some c') /\ cval c' = cval (Real (Int x))).
Proof.
  intros Hc Hx Hb. split; [|split].
  - exists (number_token c). split; [apply number_written, Hc | apply number_from_text, Hc].
  - intros b ->. apply write_bignum_numeral; [apply Hx | exact Hb].
  - intros Hf. destruct (Z.eq_dec base 10) as [->|Hne].
    + rewrite <- integer_token in *. apply number_from_text, Hf. split; [exact Hx | cbn [denom]; lia].
    + destruct (integer_from_text fuel (ival x) base Hb Hne ltac:(lia)) as (y & -> & Hy). eexists. split; [reflexivity|]. cbn [cval]. rewrite (number_value _ _ _ Hy). reflexivity.
Qed.
End data.

Lemma write_read_back_witness :
  let x : sexp := Cons (Sym (lit "a b")) (Cons (Str [ch "x"; 10; dquote]) (Cons (Vec [Num (Complex (Int (Fix 3)) (Rat (Fix (-1)) (Fix 2))); Chr 955]) (Bytes [0; 255]))) in
  exists t, sexp_write (T := Native.uint128) x = Some t /\
    ((length t + 4 <= 100)%nat -> exists y, meaning y = meaning x /\
       forall l v, exists l', sexp_read_one (sexp_read_raw (T := Native.uint128) 100) (Port (t ++ lit " z") l false v) = (Done y, Port (lit " z") l' false v)).
Proof.
  apply (write_read_back (T := Native.uint128) _ (lit " z") 100).
  - cbn [readable fold_right]. repeat match goal with |- _ /\ _ => split end;
      try reflexivity; try lia; try (repeat constructor; unfold is_byte, dquote; lia).
    unfold readable_cnum, readable_part, readable_number, fits_complex, is_ratio. vm_compute. intuition congruence.
  - vm_compute. discriminate.
  - reflexivity.
Defined.

Lemma string_to_number_correct_witness :
  let c := Complex (Rat (Fix (-3)) (Fix 4)) (Int (Fix 5)) in
  let x := Big (Bignum (-1) [0; 1]) in
  (exists t, cnum_text (T := Native.uint128) c = Some t /\
     ((length t + 4 <= 30)%nat -> exists c', sexp_string_to_number (T := Native.uint128) 30 t 10 = Done (Some c') /\ cval c' = cval c)) /\
  (forall b, x = Big b -> sexp_write_bignum (T := Native.uint128) b 16 = Written (signed_numeral 16 (ival x))) /\
  ((length (signed_numeral 16 (ival x)) + 4 <= 30)%nat ->
     exists c', sexp_string_to_number (T := Native.uint128) 30 (signed_numeral 16 (ival x)) 16 = Done (Some c') /\ cval c' = cval (Real (Int x))).
Proof.
  apply (string_to_number_correct (T := Native.uint128) 30 (Complex (Rat (Fix (-3)) (Fix 4)) (Int (Fix 5))) (Big (Bignum (-1) [0; 1])) 16).
  - unfold readable_cnum, readable_part, readable_number, fits_complex, is_ratio. vm_compute. intuition congruence.
  - split; [|vm_compute; intros [H _]; apply H; reflexivity]. split; [right; reflexivity | split; [discriminate | repeat constructor; unfold is_u; simpl; lia]].
  - lia.
Defined.

(** ** What is not read back *)

(** A port that holds nothing but the text. *)
Definition read_text (s : list Z) : reply sexp := sexp_read_from_string (T := Native.uint128) 100 s.
Definition written_text (x : sexp) : list Z := default [] (sexp_write (T := Native.uint128) x).

(** Some texts are read as what they do not say.  Shared labels that
    make the table of labels grow by more than its growth are stored outside of it.
    The closing brace that is alone becomes an element of a list, and a quote at
    the end of the text quotes the end of the file.  A ratio in base sixteen with a large
    numerator is refused, one with the least fixnum as numerator keeps it as a bignum,
    an exponent behind a large integer does not make it inexact as it does behind a small one,
    the real part of a complex number disappears when it is a ratio over zero,
    and a bytevector takes the address of a large number for a byte. *)
Theorem reader_faults :
  read_text (lit "(#0=a #16=b #23=c #500=d)") = Stop OutOfBounds
  /\ read_text (lit "(a } b)") = Done (Cons (Sym (lit "a")) (Cons (Imm SEXP_CLOSE_BRACE) (Cons (Sym (lit "b")) (Imm SEXP_NULL))))
  /\ read_text (lit "'") = Done (Cons (Sym (lit "quote")) (Cons (Imm SEXP_EOF) (Imm SEXP_NULL)))
  /\ read_text (lit "#x10000000000000000/a") = Exn TypeError
  /\ read_text (lit "-4611686018427387904/3") = Done (Num (Real (Rat (Big (Bignum (-1) [2 ^ 62; 0])) (Fix 3))))
  /\ read_text (lit "12345678901234567890e2") = Done (Num (Real (Int (Big (Bignum 1 [17082781258626382344; 66])))))
  /\ read_text (lit "1e2") = Stop Flonum
  /\ read_text (lit "5/0+2i") = Done (Num (Complex (Int (Fix 0)) (Rat (Fix 5) (Fix 2))))
  /\ read_text (lit "#u8(9223372036854775808)") = Stop Address.
Proof. repeat split; vm_compute; reflexivity. Qed.

(** The data that [write_read_back] leaves out are written as the text
    of something else: a symbol that begins with a backquote is read as a
    quasiquotation, symbols that begin with a dot before a digit or that spell an infinity in capitals are read as
    flonums, and a complex number whose real part is a ratio with a large
    numerator cannot be read at all. *)
Theorem written_as_something_else :
  written_text (Sym (lit "`a")) = lit "`a" /\ read_text (lit "`a") = Done (Cons (Sym (lit "quasiquote")) (Cons (Sym (lit "a")) (Imm SEXP_NULL)))
  /\ written_text (Sym (lit ".5")) = lit ".5" /\ read_text (lit ".5") = Stop Flonum
  /\ written_text (Sym (lit "+INF.0")) = lit "+INF.0" /\ read_text (lit "+INF.0") = Stop Flonum
  /\ written_text (Num (Complex (Rat (Big (Bignum 1 [12776324570088369205; 6])) (Fix 2)) (Int (Fix 1)))) = lit "123456789012345678901/2+i"
  /\ read_text (lit "123456789012345678901/2+i") = Exn TypeError.
Proof. repeat split; vm_compute; reflexivity. Qed.
