(* ===== verification/ReadEnds.v ===== *)
(** * Reading ends

    Each step of the reader takes characters from the input: with more fuel than
    there are characters, no recursion and no loop of the reader runs out of it,
    whatever the text, and an object that is read leaves less of the input than
    there was, unless it is the end of the file. *)
From Stdlib Require Import ZifyNat ZifyBool Ascii String.
From stdpp Require Import base list option.
From S2P Require Import Prelude LongLong Limbs Bignum Integers Division Numbers Utf8 Text Symbols Decimal Printer Reader.
#[local] Open Scope Z_scope.

(** ** A logic of the length of the input *)

(** From an input of [n] characters, [m] does not run out of fuel, and where it
    returns, the result and the length of the rest are in [Q]. *)
Definition ends {A} (m : reader A) (n : nat) (Q : A -> nat -> Prop) : Prop :=
  forall p, length (inp p) = n ->
    match m p with (Done a, p') => Q a (length (inp p')) | (Stop OutOfFuel, _) => False | _ => True end.

(** What a character that was read and may be the end of the file is worth. *)
Definition weight (c : Z) : nat := if c =? EOF then 0%nat else 1%nat.

Section rules.
Context {A B : Type}.

Lemma ends_ret (a : A) n (Q : A -> nat -> Prop) : Q a n -> ends (ret a) n Q.
Proof. intros HQ p <-. exact HQ. Qed.

Lemma ends_bind (m : reader A) (f : A -> reader B) n Q : ends m n (fun a k => ends (f a) k Q) -> ends (bind m f) n Q.
Proof.
  intros Hm p Hp. specialize (Hm p Hp). unfold bind. destruct (m p) as [[a|e|s] p']; [exact (Hm p' eq_refl) | exact I | exact Hm].
Qed.

Lemma ends_if (b : bool) (m m' : reader A) n Q : ends m n Q -> ends m' n Q -> ends (if b then m else m') n Q.
Proof. destruct b; auto. Qed.

Lemma ends_weaken (m : reader A) n (P Q : A -> nat -> Prop) : ends m n P -> (forall a k, P a k -> Q a k) -> ends m n Q.
Proof. intros Hm HPQ p Hp. specialize (Hm p Hp). destruct (m p) as [[a|e|s] p']; auto. Qed.

Lemma ends_error msg n (Q : A -> nat -> Prop) : ends (sexp_read_error msg) n Q.
Proof. intros p _. exact I. Qed.

Lemma ends_incomplete msg n (Q : A -> nat -> Prop) : ends (sexp_read_incomplete_error msg) n Q.
Proof. intros p _. exact I. Qed.

Lemma ends_exn e n (Q : A -> nat -> Prop) : ends (fun p => (Exn e, p)) n Q.
Proof. intros p _. exact I. Qed.

Lemma ends_halt s n (Q : A -> nat -> Prop) : s <> OutOfFuel -> ends (halt s) n Q.
Proof. intros Hs p _. destruct s; solve [exact I | congruence]. Qed.

Lemma ends_outcome (o : outcome A) n (Q : A -> nat -> Prop) : (forall a, Q a n) -> ends (of_outcome o) n Q.
Proof. intros HQ p <-. destruct o; simpl; auto. Qed.

Lemma ends_on_inp (f : list Z -> A * list Z) n (Q : A -> nat -> Prop) :
  (forall s, length s = n -> Q (f s).1 (length (f s).2)) -> ends (on_inp f) n Q.
Proof. intros HQ p Hp. unfold on_inp. specialize (HQ _ Hp). destruct (f (inp p)); exact HQ. Qed.
End rules.

Lemma ends_read_char n Q : (n = 0%nat -> Q EOF 0%nat) -> (forall c k, n = S k -> Q c k) -> ends sexp_read_char n Q.
Proof. intros H0 H1 p Hp. unfold sexp_read_char. destruct (inp p) as [|c s] eqn:E; simpl in *; [rewrite E; auto | apply H1; congruence]. Qed.

Lemma ends_push c n (Q : unit -> nat -> Prop) : Q tt (weight c + n)%nat -> ends (sexp_push_char c) n Q.
Proof. intros HQ p Hp. unfold sexp_push_char, weight in *. destruct (c =? EOF); simpl; rewrite Hp; exact HQ. Qed.

(** Steps that leave the input alone. *)
Lemma ends_newline n (Q : unit -> nat -> Prop) : Q tt n -> ends newline n Q.
Proof. intros HQ p <-. exact HQ. Qed.
Lemma ends_get_fold n Q : (forall b, Q b n) -> ends get_fold n Q.
Proof. intros HQ p <-. apply HQ. Qed.
Lemma ends_set_fold b n (Q : unit -> nat -> Prop) : Q tt n -> ends (set_fold b) n Q.
Proof. intros HQ p <-. exact HQ. Qed.
Lemma ends_get_shares n Q : (forall v, Q v n) -> ends get_shares n Q.
Proof. intros HQ p <-. apply HQ. Qed.
Lemma ends_set_shares v n (Q : unit -> nat -> Prop) : Q tt n -> ends (set_shares v) n Q.
Proof. intros HQ p <-. exact HQ. Qed.

Lemma weight_le c : (weight c <= 1)%nat.
Proof. unfold weight. destruct (c =? EOF); lia. Qed.

(** Arithmetic on the length of the input *)
Ltac len :=
  subst; change (weight EOF) with 0%nat in *;
  repeat match goal with
  | |- context [weight ?c] => lazymatch goal with _ : (weight c <= 1)%nat |- _ => fail | _ => pose proof (weight_le c) end
  | H : context [weight ?c] |- _ => lazymatch goal with _ : (weight c <= 1)%nat |- _ => fail | _ => pose proof (weight_le c) end
  end; simpl length in *; first [lia | discriminate | unfold EOF in *; lia].

(** One step along the code. *)
Ltac ends_step :=
  cbv beta zeta;
  match goal with
  | |- ends (bind _ _) _ _ => apply ends_bind
  | |- ends (ret _) _ _ => apply ends_ret
  | |- ends sexp_read_char _ _ => apply ends_read_char; [intros ? | intros ?c ?k ?]
  | |- ends (sexp_push_char _) _ _ => apply ends_push
  | |- ends newline _ _ => apply ends_newline
  | |- ends get_fold _ _ => apply ends_get_fold; intros ?
  | |- ends (set_fold _) _ _ => apply ends_set_fold
  | |- ends get_shares _ _ => apply ends_get_shares; intros ?
  | |- ends (set_shares _) _ _ => apply ends_set_shares
  | |- ends (of_outcome _) _ _ => apply ends_outcome; intros ?
  | |- ends (sexp_read_error _) _ _ => apply ends_error
  | |- ends (sexp_read_incomplete_error _) _ _ => apply ends_incomplete
  | |- ends (fun p => (Exn _, p)) _ _ => apply ends_exn
  | |- ends (halt _) _ _ => apply ends_halt; discriminate
  | |- ends (if ?b then _ else _) _ _ => destruct b eqn:?
  | |- ends (match ?x with _ => _ end) _ _ => destruct x
  end.
Ltac ends_steps := repeat ends_step.

(** ** Loops on the input *)

Lemma symbol_loop_length foldp s : (length (symbol_loop foldp s).2 <= length s)%nat.
Proof.
  assert (Hs : forall n s, (length s <= n)%nat -> (length (symbol_loop foldp s).2 <= length s)%nat); [|exact (Hs _ s (le_n _))].
  clear s. intros n. induction n as [|n IH]; intros [|c s] Hn; simpl in Hn; cbn [symbol_loop]; try (simpl; lia).
  destruct (_ =? ch "\").
  - destruct s as [|c2 s]; simpl in *; [lia|]. destruct (sexp_is_separator c2); [simpl; lia|]. specialize (IH s ltac:(lia)).
    destruct (symbol_loop foldp s). simpl in *. lia.
  - destruct (sexp_is_separator _); [simpl; lia|]. specialize (IH s ltac:(lia)). destruct (symbol_loop foldp s). simpl in *. lia.
Qed.

Lemma ends_symbol init n (Q : list Z -> nat -> Prop) : (forall s k, (k <= n)%nat -> Q s k) -> ends (sexp_read_symbol init) n Q.
Proof.
  intros HQ. unfold sexp_read_symbol. ends_step. ends_step. ends_step. apply ends_on_inp. intros s Hs. ends_step.
  apply HQ. rewrite <- Hs. apply symbol_loop_length.
Qed.

Lemma skip_blanks_length s : (weight (skip_blanks s).1 + length (skip_blanks s).2 <= length s)%nat.
Proof. induction s as [|c s IH]; [reflexivity|]. cbn [skip_blanks]. destruct (blank c); simpl; [|unfold weight; destruct (c =? EOF)]; lia. Qed.

Lemma skip_line_length s : (length (skip_line s).2 <= length s)%nat.
Proof. induction s as [|c s IH]; [reflexivity|]. cbn [skip_line]. destruct (c =? 10); simpl; lia. Qed.

Lemma skip_same_length c s : (length (skip_same c s).2 <= length s)%nat.
Proof. induction s as [|c1 s IH]; [reflexivity|]. cbn [skip_same]. destruct (c1 =? c); simpl; lia. Qed.

Lemma label_digits_length s : forall c2, (length (label_digits s c2).2 <= length s)%nat.
Proof. induction s as [|c s IH]; intros c2; [reflexivity|]. cbn [label_digits]. destruct (isdigit c); simpl; [specialize (IH (swrap 32 (c2 * 10 + digit_value c)))|]; lia. Qed.

(** ** Numbers *)

Definition digit_read (d : digits) (n : nat) (base : Z) (s : list Z) (tmp : Z) (c : Z) : Prop :=
  match d with
  | Digits c' _ t => (weight c' + length s < n)%nat \/ c' = c /\ t = tmp /\ (weight c' + length s = n)%nat
  | TooBig _ => exists c' s', s = c' :: s' /\ isxdigit c' = true /\ 0 <= digit_value c' < base /\ (length s' < n)%nat
  end.

Lemma xdigit_not_eof c : isxdigit c = true -> c <> EOF.
Proof. intros Hc ->. discriminate Hc. Qed.

Lemma number_digits_length base s : forall c val tmp,
  let '(d, s') := number_digits base c s val tmp in digit_read d (weight c + length s) base s' tmp c.
Proof.
  induction s as [|c1 s IH]; intros c val tmp; cbn [number_digits];
    destruct (negb (isxdigit c) || (digit_value c <? 0) || (digit_value c >=? base)) eqn:Et; try (simpl; auto; fail);
    apply orb_false_iff in Et as [Et Hd]; apply orb_false_iff in Et as [Hx H0]; apply negb_false_iff in Hx;
    pose proof (xdigit_not_eof c Hx) as Hc; assert (weight c = 1%nat) as Hw by (unfold weight; destruct (Z.eqb_spec c EOF); [contradiction | reflexivity]);
    destruct (_ || _ || _); cbn [digit_read].
  - exists c, []. simpl length. repeat split; try assumption; lia.
  - left. rewrite Hw. simpl. lia.
  - exists c, (c1 :: s). simpl length. repeat split; try assumption; lia.
  - specialize (IH c1 (s64 (val * base + digit_value c)) (s64 (val * base + digit_value c))).
    destruct (number_digits base c1 s _ _) as [d s']. assert (weight c1 <= 1)%nat by (unfold weight; destruct (c1 =? EOF); lia).
    destruct d as [c' v t|v]; cbn [digit_read length] in *; [left; lia|].
    destruct IH as (c' & s1 & -> & Hc' & Hd' & Hl). exists c', s1. repeat split; try assumption; lia.
Qed.

Lemma bignum_digits_length `{LongUInt T} base s : forall res, (weight (bignum_digits base s res).1.1 + length (bignum_digits base s res).2 <= length s)%nat.
Proof.
  induction s as [|c s IH]; intros res; [reflexivity|]. cbn [bignum_digits]. destruct (_ || _ || _); cbn [fst snd length].
  - unfold weight. destruct (c =? EOF); lia.
  - specialize (IH (sexp_bignum_fxadd (sexp_bignum_fxmul FxSelf res base 0) (digit_value c))). lia.
Qed.

Lemma bignum_digits_first `{LongUInt T} base c s res : isxdigit c = true -> 0 <= digit_value c < base ->
  (weight (bignum_digits base (c :: s) res).1.1 + length (bignum_digits base (c :: s) res).2 <= length s)%nat.
Proof.
  intros Hx Hd. cbn [bignum_digits]. rewrite Hx. destruct (Z.ltb_spec (digit_value c) 0); [lia|]. destruct (Z.geb_spec (digit_value c) base); [lia|].
  apply bignum_digits_length.
Qed.

Section numbers.
Context {T : Type} `{LongUInt T}.

Lemma ends_ratio_normalize num den n (Q : number -> nat -> Prop) : (forall x, Q x n) -> ends (ratio_normalize num den) n Q.
Proof. intros HQ. unfold ratio_normalize. ends_steps; apply HQ. Qed.

Lemma ends_expt_ten e n (Q : number -> nat -> Prop) : (forall x, Q x n) -> ends (expt_ten e) n Q.
Proof. intros HQ. unfold expt_ten. ends_steps; apply HQ. Qed.

Lemma ends_check_end c msg n (Q : unit -> nat -> Prop) : Q tt (weight c + n)%nat -> ends (check_end c msg) n Q.
Proof. intros HQ. unfold check_end. ends_steps. exact HQ. Qed.

Lemma ends_read_ratio num den n (Q : cnum -> nat -> Prop) : (forall x, Q x n) -> ends (read_ratio num den) n Q.
Proof. intros HQ. unfold read_ratio. ends_steps; try apply ends_ratio_normalize; intros; ends_steps; apply HQ. Qed.

Section tails.
(** The number that follows is read from fewer than [fuel] characters. *)
Context (read_number : Z -> bool -> reader cnum) (fuel : nat)
  (Hnum : forall base e n, (n < fuel)%nat -> ends (read_number base e) n (fun _ k => (k < n)%nat)).

Ltac number_step := eapply ends_weaken; [apply Hnum; len | intros ? ? ?].

Lemma ends_trailing_i x y n : ends (trailing_i x y) n (fun _ k => (k <= n)%nat).
Proof.
  unfold trailing_i. ends_steps; try (apply ends_symbol; intros; ends_steps); apply ends_check_end; ends_steps; len.
Qed.

Lemma ends_complex_tail x n : (n < fuel)%nat -> ends (sexp_read_complex_tail read_number x) n (fun _ k => (k < n)%nat).
Proof.
  intros Hn. unfold sexp_read_complex_tail.
  repeat (ends_step || (eapply ends_weaken; [apply ends_trailing_i | intros ? ? ?]) || number_step); len.
Qed.

Lemma ends_polar_tail x n : (n < fuel)%nat -> ends (sexp_read_polar_tail read_number x) n (fun _ k => (k < n)%nat).
Proof. intros Hn. unfold sexp_read_polar_tail. repeat (ends_step || number_step); len. Qed.

(** A bignum whose first digit is the next character *)
Lemma ends_bignum_tail base c res k n : (weight c + k < n)%nat -> (n <= fuel)%nat ->
  ends (bignum_tail read_number base c res) k (fun _ k => (k < n)%nat).
Proof.
  intros Hk Hn. unfold bignum_tail.
  assert (Hden : (k < fuel)%nat -> ends (fun p => match read_number 10 false p with (Exn _, p) => (Exn TypeError, p) | r => r end) k (fun _ k' => (k' < k)%nat)).
  { intros Hf p Hp. specialize (Hnum 10 false k Hf p Hp). destruct (read_number 10 false p) as [[a|e|s] p']; auto. }
  repeat (ends_step || number_step || (apply ends_expt_ten; intros ?) || (apply ends_ratio_normalize; intros ?)
    || (eapply ends_weaken; [apply Hden; len | intros ? ? ?])
    || (apply ends_check_end) || (eapply ends_weaken; [apply ends_complex_tail; len | intros ? ? ?])); len.
Qed.

Lemma ends_bignum init sg base c s n p : inp p = c :: s -> isxdigit c = true -> 0 <= digit_value c < base -> (length s < n)%nat -> (n <= fuel)%nat ->
  match sexp_read_bignum read_number init sg base p with (Done _, p') => (length (inp p') < n)%nat | (Stop OutOfFuel, _) => False | _ => True end.
Proof.
  intros Hp Hx Hd Hs Hn. unfold sexp_read_bignum, bind, on_inp. rewrite Hp.
  pose proof (bignum_digits_first base c s (Bignum sg [init; 0]) Hx Hd) as Hl. destruct (bignum_digits base (c :: s) (Bignum sg [init; 0])) as [[c' res] s']. cbn [fst snd] in *.
  exact (ends_bignum_tail base c' res (length s') n ltac:(lia) Hn (with_inp s' p) eq_refl).
Qed.

(** An imaginary unit without digits *)
Lemma ends_imaginary_unit c x k : c = ch "i" \/ c = ch "I" -> ends (sexp_push_char c;; sexp_read_complex_tail read_number x) k (fun _ k' => (k' <= k)%nat).
Proof.
  intros Hc [s l f v] Hp. simpl in Hp. subst k.
  pose proof (ends_trailing_i (Int (Fix 0)) x (length s) (Port s l f v) eq_refl) as Ht.
  destruct Hc as [-> | ->]; exact Ht.
Qed.

(** Behind the digits, at the character [c]: some character was taken, or there
    was no sign and no digit. *)
Definition taken (n k : nat) (c tmp : Z) : Prop :=
  (weight c + k < n)%nat \/ tmp = -1 /\ c <> ch "+" /\ c <> ch "-" /\ (weight c + k = n)%nat.

Lemma ends_number_tail base inexactp exactp negativep c val tmp k n : (n <= fuel)%nat -> taken n k c tmp ->
  ends (number_tail read_number base inexactp exactp negativep c val tmp) k (fun _ k => (k < n)%nat).
Proof.
  intros Hn Hc. unfold number_tail. cbv zeta. assert (Hk : (weight c + k <= n)%nat) by (destruct Hc as [|(_ & _ & _ & ?)]; lia).
  assert (Hpos : c <> EOF -> (k < n)%nat) by (intros He; unfold weight in Hk; destruct (Z.eqb_spec c EOF); [contradiction | lia]).
  destruct (exactp && is_precision_indicator c) eqn:E1.
  { assert (k < n)%nat by (apply Hpos; intros ->; apply andb_true_iff in E1 as [_ E1]; discriminate E1).
    unfold read_exact_exponent. repeat (ends_step || number_step || (apply ends_expt_ten; intros ?)); len. }
  destruct ((c =? ch ".") || is_precision_indicator c); [ends_steps|].
  destruct (Z.eqb_spec c (ch "/")) as [->|_].
  { specialize (Hpos ltac:(discriminate)). unfold inexact_if. repeat (ends_step || number_step || (apply ends_read_ratio; intros ?)); len. }
  destruct (existsb (Z.eqb c) (lit "iI+-@")) eqn:E2.
  - assert (Hne : c <> EOF) by (intros ->; discriminate E2). specialize (Hpos Hne).
    destruct (negb (base =? 10)); [ends_steps|]. destruct (Z.eqb_spec c (ch "@")); [eapply ends_weaken; [apply ends_polar_tail; lia | intros ? ? ?; len]|].
    destruct Hc as [Hc|(_ & Hp & Hm & Hc)].
    + ends_step. ends_step. eapply ends_weaken; [apply ends_complex_tail; lia | intros ? ? ?; len].
    + eapply ends_weaken; [apply ends_imaginary_unit; cbn [existsb] in E2; lia | intros ? ? ?; cbv beta in *; lia].
  - destruct (negb (c =? EOF) && negb (sexp_is_separator c)); [ends_steps|]. destruct (Z.ltb_spec tmp 0); [ends_steps|].
    unfold inexact_if. destruct Hc as [Hc|(-> & _)]; [|lia]. ends_steps. exact Hc.
Qed.
End tails.

Lemma ends_prefix base exactp c n k (Q : Z * bool * bool * Z -> nat -> Prop) : (weight c + k <= n)%nat ->
  (forall b i e c' k', (weight c' + k' <= n)%nat -> Q (b, i, e, c') k') -> ends (number_prefix base exactp c) k Q.
Proof. intros Hn HQ. unfold number_prefix. ends_steps; apply HQ; len. Qed.

(** The digits behind the sign, and what follows them *)
Lemma ends_digits read_number fuel base val sg c n k tail :
  (forall base e n, (n < fuel)%nat -> ends (read_number base e) n (fun _ k => (k < n)%nat)) -> (n <= fuel)%nat -> taken n k c (-1) ->
  (forall c val tmp k, taken n k c tmp -> ends (tail c val tmp) k (fun _ k => (k < n)%nat)) ->
  ends (d <- on_inp (fun s => number_digits base c s val (-1));
        match d with TooBig val => sexp_read_bignum read_number val sg base | Digits c val tmp => tail c val tmp end) k (fun _ k => (k < n)%nat).
Proof.
  intros Hnum Hn Hc Htail p Hp. unfold bind, on_inp.
  pose proof (number_digits_length base (inp p) c val (-1)) as Hl. rewrite Hp in Hl. destruct (number_digits base c (inp p) val (-1)) as [d s'].
  destruct d as [c' v t|v]; cbn [digit_read] in Hl.
  - refine (Htail c' v t (length s') _ (with_inp s' p) eq_refl). unfold taken in *. destruct Hl as [Hl|(-> & -> & Hl)]; [|destruct Hc as [Hc|(_ & Hp1 & Hm1 & Hc)]; [left; lia | right; auto with lia]].
    left. destruct Hc as [Hc|(_ & _ & _ & Hc)]; lia.
  - destruct Hl as (c1 & s1 & -> & Hx & Hd & Hl).
    exact (ends_bignum read_number fuel Hnum v sg base c1 s1 n (with_inp (c1 :: s1) p) eq_refl Hx Hd ltac:(destruct Hc as [Hc|(_ & _ & _ & Hc)]; lia) Hn).
Qed.

Lemma ends_number fuel : forall base exactp n, (n < fuel)%nat -> ends (sexp_read_number fuel base exactp) n (fun _ k => (k < n)%nat).
Proof.
  induction fuel as [|fuel IH]; intros base exactp n Hn; [lia|]. cbn [sexp_read_number]. cbv zeta. ends_step.
  assert (Hmain : forall b i e neg c k, taken n k c (-1) ->
    ends (d <- on_inp (fun s => number_digits b c s (if (c =? ch "i") || (c =? ch "I") then 1 else 0) (-1));
      match d with
      | TooBig val => sexp_read_bignum (sexp_read_number fuel) val (if neg : bool then -1 else 1) b
      | Digits c val tmp => number_tail (sexp_read_number fuel) b i e neg c val tmp
      end) k (fun _ k => (k < n)%nat)).
  { intros b i e neg c k Hc. apply (ends_digits _ fuel); [exact IH | lia | exact Hc|]. intros. apply (ends_number_tail _ fuel); [exact IH | lia | assumption]. }
  apply ends_read_char; intros; (ends_step; eapply ends_prefix with (n := n); [len|]; intros b i e c' k' Hk'; cbv beta iota zeta; ends_step).
  all: destruct ((c' =? ch "-") || (c' =? ch "+")) eqn:Es; [apply ends_read_char; intros | apply ends_ret]; apply Hmain; unfold taken.
  all: try (left; unfold weight in Hk'; destruct (Z.eqb_spec c' EOF) as [->|]; [discriminate Es | len]).
  all: apply orb_false_iff in Es as [Em Ep]; destruct (decide (weight c' + k' = n)%nat); [right | left; lia].
  all: split; [reflexivity | split; [lia | split; [lia | assumption]]].
Qed.
End numbers.

(** ** Strings and comments *)

Section raw.
Context {T : Type} `{LongUInt T}.

Ltac token_step :=
  ends_step
  || (apply ends_symbol; intros ? ? ?)
  || (eapply ends_weaken; [apply ends_number; len | intros ? ? ?]).

Lemma ends_skip_blanks n (Q : Z -> nat -> Prop) : (forall c k, (weight c + k <= n)%nat -> Q c k) -> ends (on_inp skip_blanks) n Q.
Proof. intros HQ. apply ends_on_inp. intros s <-. apply HQ, skip_blanks_length. Qed.

Lemma ends_string_escape fuel c n : (n < fuel)%nat -> ends (string_escape fuel c) n (fun _ k => (k <= n)%nat).
Proof.
  intros Hn. unfold string_escape. repeat (token_step || (apply ends_skip_blanks; intros ? ? ?)); len.
Qed.

Lemma ends_string fuel sentinel : forall buf n, (n < fuel)%nat -> ends (string_loop fuel sentinel buf) n (fun _ k => (k <= n)%nat).
Proof.
  induction fuel as [|fuel IH]; intros buf n Hn; [lia|]. cbn [string_loop].
  repeat (token_step || (eapply ends_weaken; [apply ends_string_escape; len | intros ? ? ?]) || (eapply ends_weaken; [apply IH; len | intros ? ? ?])); len.
Qed.

Lemma ends_block_comment fuel : forall c1 c2 n, (c1 = EOF /\ 0 < fuel \/ n + 1 < fuel)%nat -> ends (block_comment fuel c1 c2) n (fun _ k => (k <= n)%nat).
Proof.
  induction fuel as [|fuel IH]; intros c1 c2 n Hn; [lia|]. cbn [block_comment].
  destruct (Z.eqb_spec c1 EOF) as [->|Hne]; [rewrite andb_false_r; simpl; apply ends_ret; lia|]. destruct Hn as [[? _]|Hn]; [contradiction|].
  assert (Hskip : forall c k (f : Z -> Z), (k < n)%nat -> ends (c1 <- on_inp (skip_same c); block_comment fuel c1 (f c1)) k (fun _ k => (k <= n)%nat)).
  { intros c k f Hk. ends_step. apply ends_on_inp. intros s <-. pose proof (skip_same_length c s). eapply ends_weaken; [apply IH; lia | intros ? ? ?; len]. }
  ends_step; [ends_step; len|]. ends_step. ends_step.
  - subst. cbn [Z.eqb EOF Pos.eqb]. ends_step. ends_step. eapply ends_weaken; [apply IH; lia | intros ? ? ?; len].
  - ends_step; [apply (Hskip (ch "#") _ (fun c => if c =? ch "|" then c2 + 1 else c2)); lia|].
    ends_step; [apply (Hskip (ch "|") _ (fun c => if c =? ch "#" then c2 - 1 else c2)); lia|].
    ends_steps; (eapply ends_weaken; [apply IH; lia | intros ? ? ?; len]).
Qed.

(** ** Labels and data *)

Lemma ends_vector_ref v i n (Q : sexp -> nat -> Prop) : (forall x, Q x n) -> ends (vector_ref v i) n Q.
Proof. intros HQ. unfold vector_ref. ends_steps. apply HQ. Qed.
Lemma ends_vector_set i x n (Q : unit -> nat -> Prop) : Q tt n -> ends (vector_set i x) n Q.
Proof. intros HQ. unfold vector_set. ends_steps. exact HQ. Qed.
Lemma ends_word_of x n (Q : Z -> nat -> Prop) : (forall w, Q w n) -> ends (word_of x) n Q.
Proof. intros HQ. unfold word_of. ends_steps. apply HQ. Qed.
Lemma ends_list_to_bytes x n (Q : sexp -> nat -> Prop) : (forall y, Q y n) -> ends (list_to_bytes x) n Q.
Proof. intros HQ. unfold list_to_bytes. ends_steps. apply HQ. Qed.

Lemma ends_fill_labels v x : forall n (Q : sexp -> nat -> Prop), (forall y, Q y n) -> ends (fill_reader_labels v x) n Q.
Proof.
  induction x as [i|c|c|s|s|a d IHa IHd|l IH|b|m] using datum_rect_nested; intros n Q HQ; cbn [fill_reader_labels]; try (ends_steps; apply HQ).
  - ends_step. apply IHa. intros a'. ends_step. apply IHd. intros d'. ends_steps. apply HQ.
  - ends_step. assert (Hl : forall Q' : list sexp -> nat -> Prop, (forall y, Q' y n) -> ends (map_reader (fill_reader_labels v) l) n Q').
    { clear HQ. induction IH as [|x l Hx _ IHl]; intros Q' HQ; cbn [map_reader]; [ends_steps; apply HQ|].
      ends_step. apply Hx. intros y. ends_step. apply IHl. intros l'. ends_steps. apply HQ. }
    apply Hl. intros l'. ends_steps. apply HQ.
  - ends_step. apply ends_vector_ref. intros y. ends_steps. apply HQ.
Qed.

Ltac label_step :=
  token_step
  || (apply ends_vector_ref; intros ?) || (apply ends_vector_set) || (apply ends_word_of; intros ?) || (apply ends_list_to_bytes; intros ?).

(** An object that was read: it took characters, or there are none left. *)
Definition took (n : nat) (x : sexp) (k : nat) : Prop := (k < n)%nat \/ x = Imm SEXP_EOF /\ (k <= n)%nat.

Section body.
Context (fuel : nat) (raw : reader sexp) (Hraw : forall n, (S n < fuel)%nat -> ends raw n (took n)).

Definition within (n : nat) {A} (_ : A) (k : nat) : Prop := (k <= n)%nat.

Lemma ends_one n : (S n < fuel)%nat -> ends (sexp_read_one raw) n (took n).
Proof.
  intros Hn. unfold sexp_read_one. ends_step. eapply ends_weaken; [apply Hraw, Hn|]. intros x k Hk. cbv beta. destruct x as [[]| | | | | | | |]; ends_steps; exact Hk.
Qed.

Lemma took_within n x k : took n x k -> (k <= n)%nat.
Proof. unfold took. lia. Qed.

Ltac body_step :=
  label_step
  || (eapply ends_weaken; [apply ends_one; len | intros ? ? ?%took_within])
  || (eapply ends_weaken; [apply Hraw; len | intros ? ? ?%took_within]).
Ltac body := repeat body_step; unfold within in *; len.

Lemma ends_quoted s n : (S n < fuel)%nat -> ends (read_quoted raw s) n (within n).
Proof. intros Hn. unfold read_quoted. body. Qed.

Lemma ends_unquoted s s' n : (S n < fuel)%nat -> ends (read_unquoted raw s s') n (within n).
Proof. intros Hn. unfold read_unquoted. repeat (body_step || (eapply ends_weaken; [apply ends_quoted; len | intros ? ? ?])); unfold within in *; len. Qed.

Lemma ends_read n : (S n < fuel)%nat -> ends (sexp_read raw) n (within n).
Proof.
  intros Hn p Hp. unfold sexp_read.
  assert (Hm : ends (set_shares None;; res <- sexp_read_one raw; v <- get_shares; match v with Some v => fill_reader_labels v res | None => ret res end) n (within n)).
  { repeat (body_step || (apply ends_fill_labels; intros ?)); unfold within in *; len. }
  specialize (Hm p Hp). destruct ((_ ;; _) p) as [[x|e|s] p']; exact Hm.
Qed.

Lemma ends_list_loop m : forall tmp res n, (S n < fuel)%nat -> (tmp = Imm SEXP_EOF /\ 0 < m \/ S n < m)%nat -> ends (list_loop raw m tmp res) n (within n).
Proof.
  induction m as [|m IH]; intros tmp res n Hn Hm; [lia|]. cbn [list_loop].
  assert (Hrec : (S n < S m)%nat -> ends (tmp' <- raw; list_loop raw m tmp' (tmp :: res)) n (within n)).
  { intros Hm'. ends_step. eapply ends_weaken; [apply Hraw, Hn|]. intros x k Hk. cbv beta. pose proof (took_within _ _ _ Hk).
    eapply ends_weaken; [apply IH; [lia|]; destruct Hk as [Hk|[-> Hk]]; [right; lia | left; split; [reflexivity | lia]]|]. unfold within. lia. }
  assert (Hret : ends (ret (tmp, res)) n (within n)) by (apply ends_ret; unfold within; lia).
  destruct tmp as [[]| | | | | | | |]; try exact Hret; (destruct Hm as [[? _]|Hm]; [discriminate | exact (Hrec Hm)]).
Qed.

Lemma ends_dotted_tail res n : (S n < fuel)%nat -> ends (dotted_tail raw res) n (within n).
Proof.
  intros Hn. unfold dotted_tail. destruct res as [|x res]; [ends_steps|]. ends_step. eapply ends_weaken; [apply Hraw, Hn|]. intros tmp k Hk%took_within. cbv beta.
  assert (Hlast : ends (fun p => match raw p with
      | (Stop s, p) => (Stop s, p)
      | (Done (Imm SEXP_CLOSE), p) => (match tmp with Imm SEXP_RAWDOT => sexp_read_error "multiple dots in list" | _ => ret (make_list (x :: res) tmp) end) p
      | (_, p) => sexp_read_error "multiple tokens in dotted tail" p
      end) k (within n)).
  { intros p Hp. specialize (Hraw k ltac:(lia) p Hp). destruct (raw p) as [[y|e|s] p']; [|exact I | exact Hraw].
    apply took_within in Hraw. unfold within. destruct y as [[]| | | | | | | |]; try exact I. destruct tmp as [[]| | | | | | | |]; simpl; lia. }
  destruct tmp as [[]| | | | | | | |]; try exact Hlast; ends_steps.
Qed.

Lemma ends_list n : (S n < fuel)%nat -> ends (read_list fuel raw) n (within n).
Proof.
  intros Hn. unfold read_list. ends_step. eapply ends_weaken; [apply Hraw, Hn|]. intros tmp k Hk. cbv beta. pose proof (took_within _ _ _ Hk) as Hle.
  ends_step. eapply ends_weaken; [apply ends_list_loop; [lia|]; destruct Hk as [Hk|[-> Hk]]; [right; lia | left; split; [reflexivity | lia]]|].
  intros [y res] k' Hk'. unfold within in Hk'. cbv beta. unfold list_end.
  destruct y as [[]| | | | | | | |]; ends_steps; try (unfold within; lia). eapply ends_weaken; [apply ends_dotted_tail; lia|]. unfold within. lia.
Qed.

(** Behind a sharp sign, and one more character that may be pushed back *)
Lemma ends_vector n : (S (S n) < fuel)%nat -> ends (read_vector raw) n (within (S n)).
Proof. intros Hn. unfold read_vector. body. Qed.

Lemma ends_uvector c n : (S n < fuel)%nat -> ends (read_uvector fuel raw c) n (within n).
Proof. intros Hn. unfold read_uvector. body. Qed.

Lemma ends_boolean c n : (S n < fuel)%nat -> ends (read_boolean fuel raw c) n (within n).
Proof. intros Hn. unfold read_boolean. repeat (body_step || (eapply ends_weaken; [apply ends_uvector; len | intros ? ? ?])); unfold within in *; len. Qed.

Lemma ends_label c n : (S n < fuel)%nat -> ends (read_label raw c) n (within n).
Proof.
  intros Hn. unfold read_label. ends_step. apply ends_on_inp. intros s Hs. pose proof (label_digits_length s (digit_value c)) as Hl.
  destruct (label_digits s (digit_value c)) as [[c1 c2] s']. cbn [fst snd] in *. unfold label_ref, label_set. body.
Qed.

Lemma ends_directive n : (S n < fuel)%nat -> ends (read_directive raw) n (within n).
Proof.
  intros Hn. unfold read_directive. repeat (body_step || (apply ends_on_inp; intros s ?; pose proof (skip_line_length s))); unfold within in *; len.
Qed.

Lemma ends_char_literal n : (S n < fuel)%nat -> ends (read_char_literal fuel) n (within n).
Proof. intros Hn. unfold read_char_literal. body. Qed.

Lemma ends_sharp n : (S n < fuel)%nat -> ends (read_sharp fuel raw) n (within n).
Proof.
  intros Hn. unfold read_sharp. cbv zeta. ends_step. ends_step; [subst; cbn -[ends]; ends_steps|].
  assert (Hsub : forall (m : reader sexp), ends m k (within k) -> ends m k (within n)).
  { intros m Hm. eapply ends_weaken; [exact Hm|]. unfold within. lia. }
  repeat match goal with |- ends (if _ then _ else _) _ _ => apply ends_if end;
  lazymatch goal with
  | |- ends (read_boolean _ _ _) _ _ => apply Hsub, ends_boolean; lia
  | |- ends (read_uvector _ _ _) _ _ => apply Hsub, ends_uvector; lia
  | |- ends (read_label _ _) _ _ => apply Hsub, ends_label; lia
  | |- ends (read_directive _) _ _ => apply Hsub, ends_directive; lia
  | |- ends (read_char_literal _) _ _ => apply Hsub, ends_char_literal; lia
  | |- ends (read_quoted _ _) _ _ => apply Hsub, ends_quoted; lia
  | |- ends (read_unquoted _ _ _) _ _ => apply Hsub, ends_unquoted; lia
  | |- ends (read_vector _) _ _ => eapply ends_weaken; [apply ends_vector; lia | unfold within; lia]
  | |- _ => repeat first
    [ eapply ends_weaken; [apply ends_read; len | intros ? ? ?]
    | eapply ends_weaken; [apply ends_uvector; len | intros ? ? ?]
    | eapply ends_weaken; [apply ends_block_comment; right; len | intros ? ? ?]
    | body_step ]; unfold within in *; len
  end.
Qed.

Lemma ends_dot n : ends read_dot n (within n).
Proof. unfold read_dot. body. Qed.

Lemma ends_signed_symbol str n : ends (signed_symbol str) n (within n).
Proof. unfold signed_symbol. body. Qed.

Lemma ends_signed c n : (S n < fuel)%nat -> ends (read_signed fuel c) n (within n).
Proof.
  intros Hn. unfold read_signed, sexp_peek_char. repeat (body_step || (eapply ends_weaken; [apply ends_signed_symbol | intros ? ? ?])); unfold within in *; len.
Qed.

Lemma ends_body n : (n < fuel)%nat -> ends (read_raw_body fuel raw) n (took n).
Proof.
  intros Hn. unfold read_raw_body. ends_step. ends_step; [subst; cbn -[ends]; apply ends_ret; right; auto|].
  assert (Hsub : forall (m : reader sexp), ends m k (within k) -> ends m k (took n)).
  { intros m Hm. eapply ends_weaken; [exact Hm|]. unfold within, took. intros; left; lia. }
  assert (Htook : ends raw k (took n)).
  { eapply ends_weaken; [apply Hraw; lia|]. unfold took. intros x k' [Hk'|[-> Hk']]; [left | right; split; [reflexivity|]]; lia. }
  destruct (Z.eqb_spec c EOF) as [->|Hc]; [apply ends_ret; right; split; [reflexivity | lia]|].
  repeat match goal with |- ends (if _ then _ else _) _ _ => apply ends_if end;
  lazymatch goal with
  | |- ends raw _ _ => exact Htook
  | |- ends (newline;; _) _ _ => ends_step; ends_step; exact Htook
  | |- ends (read_quoted _ _) _ _ => apply Hsub, ends_quoted; lia
  | |- ends (read_unquoted _ _ _) _ _ => apply Hsub, ends_unquoted; lia
  | |- ends (read_list _ _) _ _ => apply Hsub, ends_list; lia
  | |- ends (read_sharp _ _) _ _ => apply Hsub, ends_sharp; lia
  | |- ends read_dot _ _ => apply Hsub, ends_dot
  | |- ends (read_signed _ _) _ _ => apply Hsub, ends_signed; lia
  | |- ends (s <- sexp_read_string _ _; _) _ _ =>
      ends_step; eapply ends_weaken; [apply ends_string; lia | intros ? ? ?; ends_step; left; cbv beta in *; lia]
  | |- ends (on_inp _;; _) _ _ => 
      ends_step; apply ends_on_inp; intros s Hs; ends_step; ends_step; eapply ends_weaken; [apply Hraw | unfold took]; pose proof (skip_line_length s); [lia|];
      intros x k' [Hk'|[-> Hk']]; [left | right; split; [reflexivity|]]; lia
  | |- _ => repeat token_step; left; len
  end.
Qed.
End body.

(** ** The reader *)

Lemma ends_raw fuel : forall n, (S n < fuel)%nat -> ends (sexp_read_raw fuel) n (took n).
Proof.
  induction fuel as [|fuel IH]; intros n Hn; [lia|]. cbn [sexp_read_raw]. apply ends_body; [exact IH | lia].
Qed.

(** C32 (termination).  Reading ends, whatever the text: with two more steps than
    there are characters in the port, the recursion of the reader and of its numbers
    and the loops of strings, comments and lists do not run out of fuel, and an object that is returned has
    taken characters from the port, unless it is the end of the file.  So a program that reads until
    the end of the file gets there. *)
Theorem reading_ends fuel p : (length (inp p) + 2 <= fuel)%nat ->
  let '(r, p') := sexp_read_one (sexp_read_raw fuel) p in
  r <> Stop OutOfFuel /\ (sexp_read (sexp_read_raw fuel) p).1 <> Stop OutOfFuel /\
  forall x, r = Done x -> x = Imm SEXP_EOF /\ (length (inp p') <= length (inp p))%nat \/ (length (inp p') < length (inp p))%nat.
Proof.
  intros Hf. pose proof (ends_one fuel (sexp_read_raw fuel) (ends_raw fuel) (length (inp p)) ltac:(lia) p eq_refl) as Hone.
  pose proof (ends_read fuel (sexp_read_raw fuel) (ends_raw fuel) (length (inp p)) ltac:(lia) p eq_refl) as Hread.
  destruct (sexp_read_one _ p) as [r p']. destruct (sexp_read _ p) as [r2 p2]. split; [|split].
  - intros ->. exact Hone.
  - cbn [fst]. intros ->. exact Hread.
  - intros x ->. destruct Hone as [Hone|Hone]; auto.
Qed.
End raw.

Lemma reading_ends_witness :
  let p := string_port (lit "(a #| #;(b |# #(1 2/3 -4+5i) . c) d") in
  let '(r, p') := sexp_read_one (sexp_read_raw (T := Native.uint128) 40) p in
  r <> Stop OutOfFuel /\ (sexp_read (sexp_read_raw (T := Native.uint128) 40) p).1 <> Stop OutOfFuel /\
  forall x, r = Done x -> x = Imm SEXP_EOF /\ (length (inp p') <= length (inp p))%nat \/ (length (inp p') < length (inp p))%nat.
Proof. apply (reading_ends (T := Native.uint128) 40 (string_port (lit "(a #| #;(b |# #(1 2/3 -4+5i) . c) d"))). vm_compute. lia. Defined.
