(* ===== verification/Sha2.v ===== *)
(** * SHA-224 and SHA-256 (lib/chibi/crypto/sha2.c)

    The compression function, the context with its buffer, and the digest as a
    string, and what they compute: a message that is added in pieces has the
    digest of its padded blocks, as long as no piece fills the buffer and goes on
    behind it.  Words have 32 bits and bytes are below 256. *)
From Stdlib Require Import ZifyNat ZifyBool Ascii String.
From S2P Require Import Prelude Text.
From stdpp Require Import base list option.
#[local] Open Scope Z_scope.

(** ** Constants *)

Definition h224 : list Z :=
  [3238371032; 914150663; 812702999; 4144912697; 4290775857; 1750603025; 1694076839;
   3204075428].

Definition h256 : list Z :=
  [1779033703; 3144134277; 1013904242; 2773480762; 1359893119; 2600822924; 528734635;
   1541459225].

Definition k256 : list Z :=
  [1116352408; 1899447441; 3049323471; 3921009573; 961987163; 1508970993; 2453635748;
   2870763221; 3624381080; 310598401; 607225278; 1426881987; 1925078388; 2162078206;
   2614888103; 3248222580; 3835390401; 4022224774; 264347078; 604807628; 770255983;
   1249150122; 1555081692; 1996064986; 2554220882; 2821834349; 2952996808; 3210313671;
   3336571891; 3584528711; 113926993; 338241895; 666307205; 773529912; 1294757372;
   1396182291; 1695183700; 1986661051; 2177026350; 2456956037; 2730485921; 2820302411;
   3259730800; 3345764771; 3516065817; 3600352804; 4094571909; 275423344; 430227734;
   506948616; 659060556; 883997877; 958139571; 1322822218; 1537002063; 1747873779;
   1955562222; 2024104815; 2227730452; 2361852424; 2428436474; 2756734187; 3204031479;
   3329325298].

(** ** The compression function *)

Notation w32 := (uwrap 32).

Definition ror32 (v a : Z) : Z := Z.lor (ushr v a) (ushl 32 v (32 - a)).

Definition at_ (l : list Z) (i : nat) : Z := nth i l 0.

(** [w[i]] of the first sixteen words, and of the others. *)
Definition chunk_word (chunk : list Z) (i : nat) : Z :=
  w32 (Z.lor (Z.lor (Z.lor (Z.shiftl (at_ chunk (4 * i)) 24) (Z.shiftl (at_ chunk (4 * i + 1)) 16))
                    (Z.shiftl (at_ chunk (4 * i + 2)) 8)) (at_ chunk (4 * i + 3))).

Definition next_word (w : list Z) (i : nat) : Z :=
  let w15 := at_ w (i - 15) in
  let w2 := at_ w (i - 2) in
  w32 (at_ w (i - 16)
       + Z.lxor (Z.lxor (ror32 w15 7) (ror32 w15 18)) (ushr w15 3)
       + at_ w (i - 7)
       + Z.lxor (Z.lxor (ror32 w2 17) (ror32 w2 19)) (ushr w2 10)).

(** The array is filled from its beginning. *)
Fixpoint schedule (n : nat) (w : list Z) (i : nat) : list Z :=
  match n with O => w | S n => schedule n (w ++ [next_word w i]) (S i) end.

Record working := Working { wa : Z; wb : Z; wc : Z; wd : Z; we : Z; wf : Z; wg : Z; wh : Z }.

Definition step (w : list Z) (s : working) (i : nat) : working :=
  let '(Working a b c d e f g h) := s in
  let tmp1 := w32 (h + Z.lxor (Z.lxor (ror32 e 6) (ror32 e 11)) (ror32 e 25)
                   + Z.lxor (Z.land e f) (Z.land (unot 32 e) g) + at_ k256 i + at_ w i) in
  let tmp2 := w32 (Z.lxor (Z.lxor (ror32 a 2) (ror32 a 13)) (ror32 a 22)
                   + Z.lxor (Z.lxor (Z.land a b) (Z.land a c)) (Z.land b c)) in
  Working (w32 (tmp1 + tmp2)) a b c (w32 (d + tmp1)) e f g.

Definition sha_224_256_round (chunk hash : list Z) : list Z :=
  let w := schedule 48 (map (chunk_word chunk) (seq 0 16)) 16 in
  let s := Working (at_ hash 0) (at_ hash 1) (at_ hash 2) (at_ hash 3) (at_ hash 4) (at_ hash 5) (at_ hash 6) (at_ hash 7) in
  let '(Working a b c d e f g h) := fold_left (step w) (seq 0 64) s in
  zip_with (fun x y => w32 (x + y)) hash [a; b; c; d; e; f; g; h].

(** ** The context *)

Inductive sha_type := SHA_TYPE_224 | SHA_TYPE_256.
Record sha_context := Sha { type : sha_type; sealed : bool; len : Z; hash256 : list Z; buffer : list Z }.

Inductive sha_error := Type_not_supported (type : Z) | Sealed_context | Data_not_supported.

Definition type_of (type : Z) : option sha_type :=
  if type =? 0 then Some SHA_TYPE_224 else if type =? 1 then Some SHA_TYPE_256 else None.

Definition new_context (type : sha_type) : sha_context :=
  Sha type false 0 (match type with SHA_TYPE_224 => h224 | SHA_TYPE_256 => h256 end) (replicate 128 0).

(** [type] is an unsigned integer: the enumeration ends at [SHA_TYPE_MAX]. *)
Definition sexp_start_sha (type : Z) : sha_context + sha_error :=
  match type_of type with Some t => inl (new_context t) | None => inr (Type_not_supported type) end.

(** [memcpy(buf + off, src, length of src)] *)
Definition memcpy (buf : list Z) (off : nat) (src : list Z) : list Z :=
  take off buf ++ src ++ drop (off + length src) buf.

(** [while ((buf_offset < 64) && (src_offset < len)) sha->buffer[buf_offset++] = src[src_offset++];] *)
Fixpoint fill (buf : list Z) (off : nat) (src : list Z) : list Z * nat * list Z :=
  match src with
  | c :: src' => if (off <? 64)%nat then fill (<[off := c]> buf) (S off) src' else (buf, off, src)
  | [] => (buf, off, [])
  end.

(** [for ( ; src_offset <= (len - 64); src_offset += 64)] on what is left of the
    source; each step takes 64 bytes. *)
Fixpoint whole_chunks (fuel : nat) (src hash : list Z) : list Z * list Z :=
  match fuel with
  | O => (src, hash)
  | S fuel => if (64 <=? length src)%nat then whole_chunks fuel (drop 64 src) (sha_224_256_round (take 64 src) hash) else (src, hash)
  end.

Definition sha_224_256_add_bytes (sha : sha_context) (src : list Z) : sha_context :=
  let off := Z.to_nat (len sha mod 64) in
  let total := uwrap 64 (len sha + Z.of_nat (length src)) in
  let '(buf, off', rest) := if (off =? 0)%nat then (buffer sha, off, src) else fill (buffer sha) off src in
  if negb (off =? 0)%nat && negb (off' =? 64)%nat then Sha (type sha) (sealed sha) total (hash256 sha) buf
  else
    let hash := if (off =? 0)%nat then hash256 sha else sha_224_256_round (take 64 buf) (hash256 sha) in
    let '(rest, hash) := if (64 <=? length src)%nat then whole_chunks (length src) rest hash else (rest, hash) in
    let buf := match rest with [] => buf | _ => memcpy buf off' rest end in
    Sha (type sha) (sealed sha) total hash buf.

Definition sha_add_bytes (sha : sha_context) (src : list Z) : sha_context :=
  match type sha with SHA_TYPE_224 | SHA_TYPE_256 => sha_224_256_add_bytes sha src end.

(** The bytes of a bytevector or of a string, or another object. *)
Inductive sha_data := Bytevector (bytes : list Z) | Utf8 (bytes : list Z) | Other_data.

Definition sexp_add_sha_data (sha : sha_context) (data : sha_data) : sha_context + sha_error :=
  if sealed sha then inr Sealed_context
  else match data with
       | Bytevector bytes => inl (sha_add_bytes sha bytes)
       | Utf8 bytes => inl (sha_add_bytes sha bytes)
       | Other_data => inr Data_not_supported
       end.

(** ** The digest *)

(** [for (i = 63; i >= 56; i--) {chunk[i] = len_bits & 0xFF; len_bits >>= 8;}] *)
Fixpoint put_length (n : nat) (chunk : list Z) (i : nat) (len_bits : Z) : list Z :=
  match n with
  | O => chunk
  | S n => put_length n (<[i := Z.land len_bits 255]> chunk) (i - 1) (ushr len_bits 8)
  end.

(** The first 64 bytes of the buffer and the hash. *)
Definition sha_224_256_remainder (chunk : list Z) (offset : nat) (len_bits : Z) (hash : list Z) : list Z * list Z :=
  let chunk := <[offset := 128]> chunk in
  let chunk := memcpy chunk (offset + 1) (replicate (64 - offset - 1) 0) in
  let '(chunk, hash) := if (56 <=? offset)%nat then (memcpy chunk 0 (replicate 64 0), sha_224_256_round (take 64 chunk) hash) else (chunk, hash) in
  let chunk := put_length 8 chunk 63 len_bits in
  (chunk, sha_224_256_round (take 64 chunk) hash).

Definition hex : list Z := lit "0123456789abcdef".

(** The loop over the nibbles of a word. *)
Fixpoint hex_word (n : nat) (w : Z) (acc : list Z) : list Z :=
  match n with O => acc | S n => hex_word n (ushr w 4) (at_ hex (Z.to_nat (Z.land w 15)) :: acc) end.

Definition sha_224_256_hash_string (hash : list Z) (count : nat) : list Z := flat_map (fun w => hex_word 8 w []) (take count hash).

(** [sexp_get_sha]: the string and the context that is sealed. *)
Definition sexp_get_sha (sha : sha_context) : list Z * sha_context :=
  let sha :=
    if sealed sha then sha
    else let '(buf, hash) := sha_224_256_remainder (buffer sha) (Z.to_nat (len sha mod 64)) (uwrap 64 (len sha * 8)) (hash256 sha) in
         Sha (type sha) true (len sha) hash buf in
  (sha_224_256_hash_string (hash256 sha) (match type sha with SHA_TYPE_224 => 7 | SHA_TYPE_256 => 8 end), sha).

(** The procedures [sha-224] and [sha-256] of a bytevector or a string. *)
Definition sha_of (type : Z) (src : sha_data) : list Z + sha_error :=
  match sexp_start_sha type with
  | inr e => inr e
  | inl sha => match sexp_add_sha_data sha src with inr e => inr e | inl sha => inl (sexp_get_sha sha).1 end
  end.

Example sha_224_abc : sha_of 0 (Utf8 (lit "abc")) = inl (lit "23097d223405d8228642a477bda255b32aadbce4bda0b3f7e36c9da7").
Proof. vm_compute. reflexivity. Qed.
Example sha_224_long : sha_of 0 (Utf8 (lit "Boundary test for 512 bits (+1) - 0123456789012345678901234567890")) = inl (lit "52b28e31226ee5e6ada43e33194e11d8015abf8b5511c1631ad11aea").
Proof. vm_compute. reflexivity. Qed.

(** ** The standard *)

(** Big-endian bytes *)
Fixpoint be_bytes (k : nat) (n : Z) (acc : list Z) : list Z :=
  match k with O => acc | S k => be_bytes k (ushr n 8) (Z.land n 255 :: acc) end.

(** A one bit, zeros up to 448 bits of the last block, and the length in bits. *)
Definition pad (msg : list Z) : list Z :=
  msg ++ 128 :: replicate (Z.to_nat ((55 - Z.of_nat (length msg)) mod 64)) 0 ++ be_bytes 8 (8 * Z.of_nat (length msg)) [].

(** The compression function over the blocks of a message. *)
Fixpoint compress (n : nat) (msg hash : list Z) : list Z :=
  match n with O => hash | S n => compress n (drop 64 msg) (sha_224_256_round (take 64 msg) hash) end.

Definition digest (type : sha_type) (msg : list Z) : list Z :=
  let padded := pad msg in
  let hash := compress (length padded / 64) padded (match type with SHA_TYPE_224 => h224 | SHA_TYPE_256 => h256 end) in
  sha_224_256_hash_string hash (match type with SHA_TYPE_224 => 7 | SHA_TYPE_256 => 8 end).

(** ** Facts *)

#[local] Opaque sha_224_256_round.

Lemma be_bytes_acc k : forall n acc, be_bytes k n acc = be_bytes k n [] ++ acc.
Proof. induction k as [|k IH]; intros n acc; [reflexivity|]. cbn [be_bytes]. rewrite (IH _ (_ :: acc)), (IH _ [_]), <- app_assoc. reflexivity. Qed.

Lemma be_bytes_length k : forall n, length (be_bytes k n []) = k.
Proof. induction k as [|k IH]; intros n; [reflexivity|]. cbn [be_bytes]. rewrite be_bytes_acc, length_app, IH. simpl. lia. Qed.

(** The bytes stand for the number. *)
Lemma be_bytes_value k : forall n, 0 <= n -> fold_left (fun v b => v * 256 + b) (be_bytes k n []) 0 = n mod 2 ^ (8 * Z.of_nat k).
Proof.
  induction k as [|k IH]; intros n Hn; [simpl; rewrite Z.mod_1_r; reflexivity|]. cbn [be_bytes]. rewrite be_bytes_acc, fold_left_app. cbn [fold_left].
  unfold ushr in *. rewrite IH by (apply Z.shiftr_nonneg; lia). change 255 with (Z.ones 8). rewrite Z.land_ones, Z.shiftr_div_pow2 by lia.
  replace (8 * Z.of_nat (S k)) with (8 + 8 * Z.of_nat k) by lia. rewrite Z.pow_add_r, Z.rem_mul_r by lia. lia.
Qed.

Lemma compress_S n msg hash : compress (S n) msg hash = compress n (drop 64 msg) (sha_224_256_round (take 64 msg) hash).
Proof. unfold compress. generalize sha_224_256_round. reflexivity. Qed.

Lemma whole_chunks_S fuel src hash : whole_chunks (S fuel) src hash =
  if (64 <=? length src)%nat then whole_chunks fuel (drop 64 src) (sha_224_256_round (take 64 src) hash) else (src, hash).
Proof. unfold whole_chunks. generalize sha_224_256_round. reflexivity. Qed.

Lemma compress_app m : forall n a b hash, length a = (64 * m)%nat -> compress (m + n) (a ++ b) hash = compress n b (compress m a hash).
Proof.
  induction m as [|m IH]; intros n a b hash Ha; [destruct a; [reflexivity | simpl in Ha; lia]|].
  change (S m + n)%nat with (S (m + n)). rewrite !compress_S, take_app_le, drop_app_le by lia. apply IH. rewrite length_drop. lia.
Qed.

Lemma whole_chunks_spec fuel : forall src hash, (length src <= fuel)%nat -> exists n a b,
  src = a ++ b /\ length a = (64 * n)%nat /\ (length b < 64)%nat /\ whole_chunks fuel src hash = (b, compress n a hash).
Proof.
  induction fuel as [|fuel IH]; intros src hash Hf; [|rewrite whole_chunks_S].
  { exists 0%nat, [], src. repeat split; simpl; lia. }
  destruct (Nat.leb_spec 64 (length src)); [|exists 0%nat, [], src; repeat split; simpl; lia].
  destruct (IH (drop 64 src) (sha_224_256_round (take 64 src) hash)) as (n & a & b & Es & Ha & Hb & ->); [rewrite length_drop; lia|].
  exists (S n), (take 64 src ++ a), b. rewrite <- app_assoc, <- Es, take_drop, length_app, length_take, Ha. repeat split; try lia.
  assert (Hl : length (take 64 src) = 64%nat) by (rewrite length_take; lia).
  rewrite compress_S, take_app_length', drop_app_length' by lia. reflexivity.
Qed.

Lemma fill_spec src : forall pre rest off, length pre = off -> (off + length rest = 128)%nat -> (off <= 64)%nat ->
  let k := Nat.min (64 - off) (length src) in fill (pre ++ rest) off src = (pre ++ take k src ++ drop k rest, (off + k)%nat, drop k src).
Proof.
  induction src as [|c src IH]; intros pre rest off Hp Hr Ho; cbn [fill].
  - rewrite Nat.min_0_r, Nat.add_0_r. reflexivity.
  - destruct (Nat.ltb_spec off 64) as [Hlt|Hge]; [|replace off with 64%nat by lia; reflexivity].
    destruct rest as [|x rest]; [simpl in Hr; lia|]. simpl length in *.
    replace (<[off:=c]> (pre ++ x :: rest)) with ((pre ++ [c]) ++ rest) by (rewrite insert_app_r_alt by lia; replace (off - length pre)%nat with 0%nat by lia; rewrite <- app_assoc; reflexivity).
    rewrite IH by (rewrite ?length_app; simpl; lia).
    replace (Nat.min (64 - off) (S (length src))) with (S (Nat.min (64 - S off) (length src))) by lia.
    rewrite <- app_assoc. cbn [take drop app]. do 2 f_equal; try lia.
Qed.

(** ** The context keeps the message *)

Definition initial (type : sha_type) : list Z := match type with SHA_TYPE_224 => h224 | SHA_TYPE_256 => h256 end.

(** Whole blocks are in the hash, and the rest is at the front of the buffer. *)
Definition holds (sha : sha_context) (msg : list Z) : Prop :=
  exists q m r, msg = m ++ r /\ length m = (64 * q)%nat /\ (length r < 64)%nat /\ len sha = Z.of_nat (length msg) /\
    hash256 sha = compress q m (initial (type sha)) /\ take (length r) (buffer sha) = r /\ length (buffer sha) = 128%nat /\ sealed sha = false.

(** The piece does not fill the buffer and go on behind it. *)
Definition fits (n : nat) (src : list Z) : Prop :=
  (n mod 64 = 0 \/ n mod 64 + length src < 64 \/ (n + length src) mod 64 = 0)%nat.

Lemma offset_spec (q : nat) (r : list Z) n : (length r < 64)%nat -> n = Z.of_nat (64 * q + length r) -> Z.to_nat (n mod 64) = length r.
Proof. intros Hr ->. lia. Qed.

Lemma take_memcpy buf off src : (off <= length buf)%nat -> take (off + length src) (memcpy buf off src) = take off buf ++ src.
Proof. intros Ho. unfold memcpy. rewrite app_assoc. apply take_app_length'. rewrite length_app, length_take. lia. Qed.

Lemma memcpy_length buf off src : (off + length src <= length buf)%nat -> length (memcpy buf off src) = length buf.
Proof. intros Ho. unfold memcpy. rewrite !length_app, length_take, length_drop. lia. Qed.

(** The part behind the filled buffer: whole blocks, and a rest that is kept. *)
Lemma add_whole (big : bool) fuel q m src hash : length m = (64 * q)%nat -> (length src <= fuel)%nat -> (big = false -> length src < 64)%nat ->
  exists k a b, src = a ++ b /\ length a = (64 * k)%nat /\ (length b < 64)%nat /\
    (if big then whole_chunks fuel src (compress q m hash) else (src, compress q m hash)) = (b, compress (q + k) (m ++ a) hash).
Proof.
  intros Hm Hfuel Hbig. destruct big.
  - destruct (whole_chunks_spec fuel src (compress q m hash) Hfuel) as (k & a & b & Es & Ha & Hb & E).
    exists k, a, b. rewrite E, compress_app by exact Hm. auto.
  - exists 0%nat, [], src. rewrite app_nil_r, Nat.add_0_r. repeat split; auto.
Qed.

Lemma add_bytes_holds sha msg src : holds sha msg -> fits (length msg) src -> 8 * Z.of_nat (length (msg ++ src)) < 2 ^ 64 ->
  holds (sha_224_256_add_bytes sha src) (msg ++ src).
Proof.
  intros (q & m & r & -> & Hm & Hr & Hlen & Hh & Hb & Hbl & Hs) Hfit Hbound. rewrite !length_app in *.
  unfold sha_224_256_add_bytes. rewrite (offset_spec q r _ Hr) by (rewrite Hlen; lia).
  assert (Ht : uwrap 64 (len sha + Z.of_nat (length src)) = Z.of_nat (length (m ++ r ++ src))).
  { rewrite Hlen, !length_app, uwrap_id by (unfold is_u; lia). lia. }
  destruct (Nat.eqb_spec (length r) 0) as [Hr0|Hr0]; cbn [negb andb].
  - destruct r; [|discriminate Hr0]. rewrite app_nil_r in *. cbn [app] in Ht.
    destruct (add_whole (64 <=? length src)%nat (length src) q m src (initial (type sha)) Hm (le_n _)) as (k & a & b & -> & Ha & Hlb & E); [destruct (Nat.leb_spec 64 (length src)); lia|].
    rewrite Hh, E, Ht. exists (q + k)%nat, (m ++ a), b. cbn [len hash256 buffer type sealed].
    split; [apply app_assoc|]. split; [rewrite length_app; lia|]. split; [exact Hlb|]. split; [reflexivity|]. split; [reflexivity|].
    destruct b as [|c b]; [split; [reflexivity | auto]|]. split; [|split; [rewrite memcpy_length; simpl in *; lia | exact Hs]].
    exact (take_memcpy (buffer sha) 0 (c :: b) (Nat.le_0_l _)).
  - assert (Eb : buffer sha = r ++ drop (length r) (buffer sha)) by (rewrite <- Hb at 1; symmetry; apply take_drop).
    pose proof (fill_spec src r (drop (length r) (buffer sha)) (length r) eq_refl ltac:(rewrite length_drop; lia) ltac:(lia)) as Hf.
    rewrite <- Eb in Hf. cbv zeta in Hf. rewrite Hf.
    destruct (decide (length r + length src < 64)%nat) as [Hlt|Hge].
    + rewrite (Nat.min_r (64 - length r)) by lia. destruct (Nat.eqb_spec (length r + length src) 64); [lia|]. cbn [negb andb]. rewrite Ht, firstn_all.
      exists q, m, (r ++ src). cbn [len hash256 buffer type sealed]. rewrite <- app_assoc.
      split; [reflexivity|]. split; [exact Hm|]. split; [rewrite length_app; lia|]. split; [reflexivity|]. split; [exact Hh|].
      split; [rewrite app_assoc; apply take_app_length | split; [rewrite !length_app, !length_drop; lia | exact Hs]].
    + rewrite (Nat.min_l (64 - length r)) by lia. replace (length r + (64 - length r))%nat with 64%nat by lia. cbn [Nat.eqb negb andb].
      set (p := take (64 - length r) src). set (rest := drop (64 - length r) src).
      assert (Hp : length (r ++ p) = 64%nat) by (unfold p; rewrite length_app, length_take; lia).
      assert (Hsrc : length src = (64 - length r + length rest)%nat) by (unfold rest; rewrite length_drop; lia).
      assert (Hrest : exists k, length rest = (64 * k)%nat).
      { exists (length rest / 64)%nat. unfold fits in Hfit. unfold rest. rewrite length_drop. lia. }
      rewrite app_assoc, (take_app_length' (r ++ p)) by (symmetry; exact Hp).
      assert (Ehash : sha_224_256_round (r ++ p) (hash256 sha) = compress (q + 1) (m ++ (r ++ p)) (initial (type sha))).
      { rewrite compress_app, compress_S by exact Hm. rewrite take_ge, <- Hh by lia. reflexivity. }
      rewrite Ehash. destruct (add_whole (64 <=? length src)%nat (length src) (q + 1) (m ++ r ++ p) rest (initial (type sha))) as (k & a & b & Er & Ha & Hlb & E).
      { rewrite length_app. lia. } { unfold rest. rewrite length_drop. lia. } { unfold rest. rewrite length_drop. destruct (Nat.leb_spec 64 (length src)); lia. }
      assert (b = []) as -> by (destruct Hrest as [j Hj]; rewrite Er, length_app in Hj; destruct b; [reflexivity | simpl in *; lia]).
      rewrite app_nil_r in Er. subst a. rewrite E, Ht.
      exists (q + 1 + k)%nat, ((m ++ r ++ p) ++ rest), []. cbn [len hash256 buffer type sealed length take].
      rewrite app_nil_r. unfold p, rest. rewrite <- !app_assoc, take_drop.
      split; [reflexivity|]. split; [rewrite !length_app, Hsrc; lia|]. split; [simpl; lia|]. split; [reflexivity|]. split; [reflexivity|].
      split; [reflexivity|]. split; [|exact Hs]. fold p. rewrite length_app in Hp. rewrite !length_app, !length_drop. lia.
Qed.

(** ** The last blocks *)

Lemma put_length_spec a b c n : length a = 56%nat -> length b = 8%nat -> put_length 8 (a ++ b ++ c) 63 n = a ++ be_bytes 8 n [] ++ c.
Proof.
  intros Ha Hb. do 8 (destruct b as [|? b]; [discriminate Hb|]). destruct b; [|discriminate Hb]. cbn [put_length Nat.sub app].
  rewrite !insert_app_r_alt by lia. rewrite Ha. reflexivity.
Qed.

(** The length is written at the end of the first block. *)
Lemma take_put_length front chunk n : length front = 56%nat -> take 56 chunk = front -> length chunk = 128%nat ->
  take 64 (put_length 8 chunk 63 n) = front ++ be_bytes 8 n [].
Proof.
  intros Hf Ht Hc. rewrite <- (take_drop 56 chunk), Ht. rewrite <- (take_drop 8 (drop 56 chunk)).
  rewrite put_length_spec; [|exact Hf | rewrite length_take, length_drop; lia]. rewrite app_assoc. apply take_app_length'.
  rewrite length_app, be_bytes_length. lia.
Qed.

Lemma pad_buffer buf r : length buf = 128%nat -> take (length r) buf = r -> (length r < 64)%nat ->
  exists back, memcpy (<[length r := 128]> buf) (length r + 1) (replicate (64 - length r - 1) 0) = (r ++ 128 :: replicate (63 - length r) 0) ++ back /\ length back = 64%nat.
Proof.
  intros Hb Hr Hl. rewrite <- (take_drop (length r) buf), Hr. destruct (drop (length r) buf) as [|x back] eqn:E.
  { apply (f_equal length) in E. rewrite length_drop in E. simpl in E. lia. }
  rewrite insert_app_r_alt by lia. rewrite Nat.sub_diag. cbn [insert list_insert].
  exists (drop (length r + 1 + (64 - length r - 1)) (r ++ 128 :: back)). split.
  - unfold memcpy. rewrite length_replicate. replace (r ++ 128 :: back) with ((r ++ [128]) ++ back) at 1 by (rewrite <- app_assoc; reflexivity).
    rewrite take_app_length' by (rewrite length_app; simpl; lia). rewrite <- !app_assoc. cbn [app]. replace (64 - length r - 1)%nat with (63 - length r)%nat by lia. reflexivity.
  - apply (f_equal length) in E. rewrite length_drop in E. rewrite length_drop, length_app. simpl in *. lia.
Qed.

Definition last_blocks (o : nat) : nat := if (56 <=? o)%nat then 2 else 1.

Lemma last_blocks_spec buf r n hash : length buf = 128%nat -> take (length r) buf = r -> (length r < 64)%nat ->
  (sha_224_256_remainder buf (length r) n hash).2 =
  compress (last_blocks (length r)) (r ++ 128 :: replicate (Z.to_nat ((55 - Z.of_nat (length r)) mod 64)) 0 ++ be_bytes 8 n []) hash.
Proof.
  intros Hb Hr Hl. destruct (pad_buffer buf r Hb Hr Hl) as (back & E & Hback). unfold sha_224_256_remainder. cbv zeta. rewrite E.
  assert (Hfirst : length (r ++ 128 :: replicate (63 - length r) 0) = 64%nat) by (rewrite length_app; simpl; rewrite length_replicate; lia).
  unfold last_blocks. destruct (Nat.leb_spec 56 (length r)) as [Hbig|Hsmall].
  - cbn [fst snd]. rewrite take_app_length' by (symmetry; exact Hfirst).
    rewrite (take_put_length (replicate 56 0)); [|reflexivity | unfold memcpy; rewrite take_0, length_replicate; reflexivity |].
    2: { rewrite memcpy_length; rewrite ?length_replicate, length_app, Hfirst; lia. }
    replace (Z.to_nat ((55 - Z.of_nat (length r)) mod 64)) with ((63 - length r) + 56)%nat by lia.
    rewrite replicate_add, <- app_assoc. rewrite (app_comm_cons _ _ 128), app_assoc. rewrite !compress_S.
    rewrite (take_app_length' (r ++ 128 :: replicate (63 - length r) 0)) by (symmetry; exact Hfirst). rewrite (drop_app_length' (r ++ 128 :: replicate (63 - length r) 0)) by (symmetry; exact Hfirst).
    rewrite (take_ge (replicate 56 0 ++ _)) by (rewrite length_app, be_bytes_length, length_replicate; lia). reflexivity.
  - cbn [fst snd]. replace (63 - length r)%nat with ((55 - length r) + 8)%nat in E |- * by lia.
    replace (Z.to_nat ((55 - Z.of_nat (length r)) mod 64)) with (55 - length r)%nat by lia.
    rewrite (take_put_length (r ++ 128 :: replicate (55 - length r) 0)).
    + rewrite compress_S, <- app_assoc. cbn [app]. rewrite (take_ge (r ++ _)); [reflexivity|]. rewrite length_app, length_cons, length_app, be_bytes_length, length_replicate. lia.
    + rewrite length_app. simpl. rewrite length_replicate. lia.
    + rewrite replicate_add, app_comm_cons, app_assoc, <- app_assoc. apply take_app_length'. rewrite length_app. simpl. rewrite length_replicate. lia.
    + rewrite length_app. rewrite length_app. simpl. rewrite length_replicate. lia.
Qed.

Lemma pad_length (m r : list Z) (q : nat) : length m = (64 * q)%nat -> (length r < 64)%nat -> pad (m ++ r) = m ++ (r ++ 128 :: replicate (Z.to_nat ((55 - Z.of_nat (length r)) mod 64)) 0 ++ be_bytes 8 (8 * Z.of_nat (length (m ++ r))) []) /\
  (length (pad (m ++ r)) / 64 = q + last_blocks (length r))%nat.
Proof.
  intros Hm Hr. unfold pad. rewrite <- app_assoc. replace ((55 - Z.of_nat (length (m ++ r))) mod 64) with ((55 - Z.of_nat (length r)) mod 64) by (rewrite length_app, Hm; lia).
  split; [reflexivity|]. rewrite !length_app, length_cons, length_app, be_bytes_length, length_replicate. unfold last_blocks. destruct (Nat.leb_spec 56 (length r)); lia.
Qed.

Lemma get_sha_holds sha msg : holds sha msg -> 8 * Z.of_nat (length msg) < 2 ^ 64 ->
  (sexp_get_sha sha).1 = digest (type sha) msg /\ sealed (sexp_get_sha sha).2 = true /\ (sexp_get_sha (sexp_get_sha sha).2).1 = (sexp_get_sha sha).1.
Proof.
  intros (q & m & r & -> & Hm & Hr & Hlen & Hh & Hb & Hbl & Hs) Hbound. unfold sexp_get_sha. rewrite Hs.
  assert (Ho : Z.to_nat (len sha mod 64) = length r) by (apply (offset_spec q); [exact Hr | rewrite Hlen, length_app; lia]).
  rewrite Ho, (uwrap_id 64) by (unfold is_u; lia). pose proof (last_blocks_spec (buffer sha) r (len sha * 8) (hash256 sha) Hbl Hb Hr) as Hrem.
  destruct (sha_224_256_remainder _ _ _ _) as [buf hash]. cbn [snd] in Hrem. cbn [fst snd sealed type hash256]. split; [|auto].
  unfold digest. destruct (pad_length m r q Hm Hr) as [-> ->]. rewrite compress_app by exact Hm. rewrite Hrem, Hh, Hlen. unfold initial.
  replace (Z.of_nat (length (m ++ r)) * 8) with (8 * Z.of_nat (length (m ++ r))) by lia. reflexivity.
Qed.

(** ** Digests *)

Fixpoint add_all (sha : sha_context) (pieces : list (list Z)) : sha_context + sha_error :=
  match pieces with
  | [] => inl sha
  | p :: pieces => match sexp_add_sha_data sha (Bytevector p) with inl sha => add_all sha pieces | inr e => inr e end
  end.

(** Each piece fits behind the [n] bytes that were added before it. *)
Fixpoint all_fit (n : nat) (pieces : list (list Z)) : Prop :=
  match pieces with [] => True | p :: pieces => fits n p /\ all_fit (n + length p) pieces end.

Lemma add_all_holds pieces : forall sha msg, holds sha msg -> all_fit (length msg) pieces -> 8 * Z.of_nat (length (msg ++ concat pieces)) < 2 ^ 64 ->
  exists sha', add_all sha pieces = inl sha' /\ holds sha' (msg ++ concat pieces) /\ type sha' = type sha.
Proof.
  induction pieces as [|p pieces IH]; intros sha msg Hsha Hfit Hn; cbn [concat add_all all_fit] in *.
  { exists sha. rewrite app_nil_r. auto. }
  destruct Hfit as [Hp Hfit]. rewrite app_assoc in Hn |- *. unfold sexp_add_sha_data, sha_add_bytes. destruct Hsha as (q & m & r & H1 & H2 & H3 & H4 & H5 & H6 & H7 & Hs).
  rewrite Hs. replace (match type sha with SHA_TYPE_224 | _ => sha_224_256_add_bytes sha p end) with (sha_224_256_add_bytes sha p) by (destruct (type sha); reflexivity).
  assert (Hadd : holds (sha_224_256_add_bytes sha p) (msg ++ p)).
  { apply add_bytes_holds; [exists q, m, r; auto 10 | exact Hp | rewrite length_app in Hn; lia]. }
  rewrite <- length_app in Hfit. destruct (IH _ _ Hadd Hfit Hn) as (sha' & E & Hh & Et). exists sha'. split; [exact E|]. split; [exact Hh|].
  rewrite Et. unfold sha_224_256_add_bytes. repeat case_match; reflexivity.
Qed.

(** C28 (equivalence).  The digest of a message that is added in pieces is that of
    the standard, the compression function over the blocks of the padded message,
    however long the pieces are, if none of them fills the buffer and goes on behind it; one piece always may.  The
    digest can be asked for again, and the context takes no more data. *)
Theorem digest_of_pieces ty pieces more : all_fit 0 pieces -> 8 * Z.of_nat (length (concat pieces)) < 2 ^ 64 ->
  exists sha, add_all (new_context ty) pieces = inl sha /\
    let '(text, sha') := sexp_get_sha sha in
    text = digest ty (concat pieces) /\ (sexp_get_sha sha').1 = text /\ sexp_add_sha_data sha' more = inr Sealed_context.
Proof.
  intros Hfit Hn.
  assert (H0 : holds (new_context ty) []) by (exists 0%nat, [], []; repeat split; simpl; lia).
  destruct (add_all_holds pieces _ _ H0 Hfit Hn) as (sha & E & Hh & Et). exists sha. split; [exact E|].
  destruct (get_sha_holds sha _ Hh Hn) as (Hd & Hs & Hagain). destruct (sexp_get_sha sha) as [text sha']. cbn [fst snd] in *.
  rewrite Hd, Et in *. split; [reflexivity|]. split; [exact Hagain|]. unfold sexp_add_sha_data. rewrite Hs. reflexivity.
Qed.

Lemma digest_of_pieces_witness :
  let pieces := [replicate 1024 7; replicate 10 1; replicate 20 2; replicate 34 3; lit "abc"] in
  all_fit 0 pieces /\
  exists sha, add_all (new_context SHA_TYPE_256) pieces = inl sha /\
    let '(text, sha') := sexp_get_sha sha in
    text = digest SHA_TYPE_256 (concat pieces) /\ (sexp_get_sha sha').1 = text /\ sexp_add_sha_data sha' (Utf8 [0]) = inr Sealed_context.
Proof.
  assert (Hfit : all_fit 0 [replicate 1024 7; replicate 10 1; replicate 20 2; replicate 34 3; lit "abc"]).
  { cbn [all_fit]. rewrite !length_replicate. unfold fits. rewrite !length_replicate.
    repeat split; [left; reflexivity | left; reflexivity | right; left; vm_compute; lia | right; right; reflexivity | left; reflexivity]. }
  split; [exact Hfit|]. apply (digest_of_pieces SHA_TYPE_256 _ (Utf8 [0]) Hfit).
  rewrite !length_concat. cbn [map]. rewrite !length_replicate. vm_compute. reflexivity.
Defined.

(** A piece that fills the buffer and goes on behind it is lost from
    the digest: what does not fit is stored behind the block instead of at its
    front, so the digest is that of the message with the beginning of the old block in its place. *)
Theorem digest_of_split_piece :
  let a := replicate 10 97 in let b := replicate 60 98 in
  match add_all (new_context SHA_TYPE_256) [a; b] with
  | inl sha => (sexp_get_sha sha).1 <> digest SHA_TYPE_256 (a ++ b) /\
      (sexp_get_sha sha).1 = digest SHA_TYPE_256 (a ++ take 54 b ++ take 6 a)
  | inr _ => False
  end.
Proof. vm_compute. split; [discriminate | reflexivity]. Qed.
