(* ===== verification/Syntax.v ===== *)
(** * Source forms, environments and identifiers (eval.c)

    What the analyzer works on: source data with syntactic closures, the chains
    of frames that environments are, with the cells of their bindings, and the
    operations of [eval.c] on identifiers. *)
From S2P Require Import Prelude Heap.
From stdpp Require Import base list option strings.
#[local] Open Scope Z_scope.

(** ** Source forms

    Source is a tree: pairs and vectors have no identity of their own, since
    nothing but identifiers is compared by address.  A syntactic closure has an
    address, the environment it was closed in, its free variables and the form
    it closes. *)

(** An environment is the frame it points to and those that are reached through
    parents, which analysis never changes: a list of the numbers of frames. *)
Abbreviation env := (list nat).

Inductive form :=
| Atom (w : sexp)
| Cons (a d : form)
| VectorOf (w : sexp) (ls : form)     (** a vector and the list of its elements *)
| Synclo (addr : loc) (scope : env) (free_vars expr : form).

Definition sexp_synclop (x : form) : bool := match x with Synclo _ _ _ _ => true | _ => false end.
Definition pairp (x : form) : bool := match x with Cons _ _ => true | _ => false end.
Definition nullp (x : form) : bool := match x with Atom SEXP_NULL => true | _ => false end.

(** The word of an object that is compared by address. *)
Definition word_of (x : form) : option sexp :=
  match x with Atom w => Some w | Synclo a _ _ _ => Some (Ptr a) | VectorOf w _ => Some w | Cons _ _ => None end.

Definition eq_form (x y : form) : bool :=
  match word_of x, word_of y with Some v, Some w => bool_decide (v = w) | _, _ => false end.

Fixpoint memq_form (x ls : form) : bool :=
  match ls with Cons a d => eq_form x a || memq_form x d | _ => false end.

(** The elements of a list, up to what is no pair. *)
Fixpoint items (x : form) : list form := match x with Cons a d => a :: items d | _ => [] end.
Fixpoint tail_of (x : form) : form := match x with Cons _ d => tail_of d | _ => x end.

Definition sexp_listp (x : form) : bool := nullp (tail_of x).

(** ** Identifiers *)

Fixpoint sexp_id_name (x : form) : form := match x with Synclo _ _ _ e => sexp_id_name e | _ => x end.

Definition sexp_idp (x : form) : bool := match sexp_id_name x with Atom w => sexp_symbolp w | _ => false end.

Definition sexp_syntactic_closure_expr (x : form) : form := match x with Synclo _ _ _ e => e | _ => x end.

(** [sexp_make_synclo_op], the closure at the fresh address [addr]. *)
Definition sexp_make_synclo (addr : loc) (e : env) (fv expr : form) : form :=
  if (match expr with Atom w => sexp_symbolp w | VectorOf _ _ => false | Cons _ _ | Synclo _ _ _ _ => true end) then Synclo addr e fv expr else expr.

(** ** Stripping closures from data *)

Definition SEXP_STRIP_SYNCLOS_BOUND : nat := Z.to_nat 10000.

(** [depth] is what is left; a list is a loop, and its end is looked at one level
    deeper, as its elements are. *)
Fixpoint sexp_contains_syntax_p_bound (depth : nat) (x : form) : bool :=
  sexp_synclop x ||
  match depth with
  | O => false
  | S depth =>
      match x with
      | Cons _ _ => existsb (sexp_contains_syntax_p_bound depth) (items x) || sexp_contains_syntax_p_bound depth (tail_of x)
      | VectorOf _ ls => existsb (sexp_contains_syntax_p_bound depth) (items ls)
      | _ => false
      end
  end.

Fixpoint on_elements (f : form -> form) (ls : form) : form :=
  match ls with Cons a d => Cons (f a) (on_elements f d) | _ => ls end.

(** Each pair of a list is a level; vectors are changed in place. *)
Fixpoint sexp_strip_synclos_bound (depth : nat) (x : form) : form :=
  match depth with
  | O => x
  | S depth =>
      match sexp_id_name x with
      | Cons a d => Cons (sexp_strip_synclos_bound depth a) (sexp_strip_synclos_bound depth d)
      | VectorOf w ls => VectorOf w (on_elements (sexp_strip_synclos_bound depth) ls)
      | y => y
      end
  end.

Definition sexp_strip_synclos (x : form) : form :=
  if sexp_contains_syntax_p_bound SEXP_STRIP_SYNCLOS_BOUND x then sexp_strip_synclos_bound SEXP_STRIP_SYNCLOS_BOUND x else x.

(** ** Frames, cells and lambdas *)

(** [enum sexp_core_form_names] *)
Inductive core_form :=
| SEXP_CORE_DEFINE | SEXP_CORE_SET | SEXP_CORE_LAMBDA | SEXP_CORE_IF | SEXP_CORE_BEGIN
| SEXP_CORE_QUOTE | SEXP_CORE_SYNTAX_QUOTE | SEXP_CORE_DEFINE_SYNTAX | SEXP_CORE_LET_SYNTAX | SEXP_CORE_LETREC_SYNTAX.

(** A macro: its procedure, which may be marked as a variable transformer, and
    the environment of its definition. *)
Record macro := Macro { macro_proc : sexp; variable_transformer : bool; macro_env : env }.

(** What a cell can hold: the lambda that binds a local variable, syntax, an
    opcode, or any other value of a global variable. *)
Inductive binding :=
| BLambda (l : nat)
| BCore (c : core_form)
| BMacro (m : macro)
| BOpcode (w : sexp) (op : opcode)
| BValue (w : sexp).

Record cell := Cell { cell_key : sexp; cell_value : binding; cell_immutable : bool }.

Record frame := Frame {
  bindings : list nat;          (** cells, the newest one first *)
  renames : list nat;           (** entries of [renamed] *)
  env_lambda : option nat;
  syntactic : bool;
  env_immutable : bool
}.

(** The contexts of the analyzer: environment, enclosing lambda, and the free
    variables of the closures around, with the environments they are free in. *)
Inductive fv_item := FvName (w : sexp) | FvEnv (e : env).
Record context := Context { context_env : env; context_lambda : option nat; context_fv : list fv_item }.

(** A lambda under construction; [defs] are the internal definitions, without
    their keyword, that wait for the end of the body, with their contexts. *)
Record lam := Lam {
  params : list sexp; rest : option sexp; locals : list sexp; sv : list sexp;
  defs : list (form * context); lambda_name : option sexp
}.

(** Cells, renamed bindings (a key and the cell it stands for), frames and lambdas are numbered in the order of their allocation; [warned] are the
    warnings that were written, the last one in front. *)
Record state := State {
  cells : list cell; renamed : list (sexp * nat); frames : list frame; lams : list lam;
  warned : list (string * form)
}.

#[export] Instance cell_inhabited : Inhabited cell := populate (Cell SEXP_FALSE (BValue SEXP_UNDEF) false).
#[export] Instance renamed_inhabited : Inhabited (sexp * nat) := populate (SEXP_FALSE, 0%nat).
#[export] Instance frame_inhabited : Inhabited frame := populate (Frame [] [] None false false).
#[export] Instance lam_inhabited : Inhabited lam := populate (Lam [] None [] [] [] None).

Definition get_cell (s : state) (c : nat) : cell := cells s !!! c.
Definition get_frame (s : state) (f : nat) : frame := frames s !!! f.
Definition get_lam (s : state) (l : nat) : lam := lams s !!! l.

Definition set_cell (c : nat) (x : cell) (s : state) : state := State (<[c := x]> (cells s)) (renamed s) (frames s) (lams s) (warned s).
Definition set_frame (f : nat) (x : frame) (s : state) : state := State (cells s) (renamed s) (<[f := x]> (frames s)) (lams s) (warned s).
Definition set_lam (l : nat) (x : lam) (s : state) : state := State (cells s) (renamed s) (frames s) (<[l := x]> (lams s)) (warned s).
Definition with_bindings (ls : list nat) (f : frame) : frame := Frame ls (renames f) (env_lambda f) (syntactic f) (env_immutable f).

Definition sexp_syntacticp (b : binding) : bool := match b with BCore _ | BMacro _ => true | _ => false end.
Definition sexp_lambdap (b : binding) : bool := match b with BLambda _ => true | _ => false end.

Definition is_undef (b : binding) : bool := match b with BValue SEXP_UNDEF => true | _ => false end.

(** ** Looking up a binding *)

Definition find_renamed (s : state) (key : sexp) (rs : list nat) : option nat :=
  match find (fun r => bool_decide ((renamed s !!! r).1 = key)) rs with Some r => Some (renamed s !!! r).2 | None => None end.

Definition find_binding (s : state) (key : sexp) (bs : list nat) : option nat :=
  find (fun c => bool_decide (cell_key (get_cell s c) = key)) bs.

Definition frame_cell (s : state) (f : nat) (key : sexp) : option nat :=
  match find_renamed s key (renames (get_frame s f)) with
  | Some c => Some c
  | None => find_binding s key (bindings (get_frame s f))
  end.

(** The cell, and the frame it is found in ([varenv]). *)
Fixpoint sexp_env_cell_loc1 (s : state) (e : env) (key : sexp) (localp : bool) : option (nat * nat) :=
  match e with
  | [] => None
  | f :: e => match frame_cell s f key with
              | Some c => Some (c, f)
              | None => if localp then None else sexp_env_cell_loc1 s e key localp
              end
  end.

(** [sexp_memq] in the free variables, and the first environment behind. *)
Fixpoint fv_tail (key : sexp) (fv : list fv_item) : list fv_item :=
  match fv with
  | [] => []
  | FvName w :: fv' => if bool_decide (w = key) then fv else fv_tail key fv'
  | FvEnv _ :: fv' => fv_tail key fv'
  end.

Fixpoint first_env (fv : list fv_item) : option env :=
  match fv with [] => None | FvEnv e :: _ => Some e | FvName _ :: fv => first_env fv end.

Definition fv_env (fv : list fv_item) (key : form) : option env :=
  match word_of (sexp_id_name key) with Some w => first_env (fv_tail w fv) | None => None end.

Definition key_cell (s : state) (e : env) (key : form) (localp : bool) : option (nat * nat) :=
  match word_of key with Some w => sexp_env_cell_loc1 s e w localp | None => None end.

(** An identifier that is not bound itself is looked up as what it closes, in the
    environment of the closure unless it is free in it; [free] tells that the
    environment of a free variable is used. *)
Fixpoint closure_cell (s : state) (free : bool) (e : env) (key : form) (localp : bool) : option (nat * nat) :=
  match key_cell s e key localp with
  | Some r => Some r
  | None =>
      match key with
      | Synclo _ scope fv expr => closure_cell s free (if negb free && negb (memq_form expr fv) then scope else e) expr localp
      | _ => None
      end
  end.

Definition sexp_env_cell_loc (s : state) (fv : list fv_item) (e : env) (key : form) (localp : bool) : option (nat * nat) :=
  match fv_env fv key with
  | Some e => closure_cell s true e key localp
  | None => closure_cell s false e key localp
  end.

Definition sexp_env_cell (s : state) (fv : list fv_item) (e : env) (key : form) (localp : bool) : option nat :=
  fst <$> sexp_env_cell_loc s fv e key localp.

Definition sexp_env_ref (s : state) (fv : list fv_item) (e : env) (key : form) : option binding :=
  (fun c => cell_value (get_cell s c)) <$> sexp_env_cell s fv e key false.

(** ** Changing environments *)

(** [sexp_env_push] *)
Definition sexp_env_push (f : nat) (key : sexp) (value : binding) (s : state) : state :=
  let s' := State (cells s ++ [Cell key value false]) (renamed s) (frames s) (lams s) (warned s) in
  set_frame f (with_bindings (length (cells s) :: bindings (get_frame s f)) (get_frame s f)) s'.

(** Every chain that runs through the cell [p] to [c] loses [c]: environments may
    share the ends of their chains. *)
Fixpoint unlink (p c : nat) (bs : list nat) : list nat :=
  match bs with
  | x :: bs' => match bs' with
                | y :: bs'' => if bool_decide (x = p) && bool_decide (y = c) then x :: bs'' else x :: unlink p c bs'
                | [] => bs
                end
  | [] => []
  end.

Fixpoint undefine_loop (s : state) (key : sexp) (ls1 : nat) (bs : list nat) : option (nat * nat) :=
  match bs with
  | [] => None
  | c :: bs => if bool_decide (cell_key (get_cell s c) = key) then Some (ls1, c) else undefine_loop s key c bs
  end.

Definition sexp_env_undefine (f : nat) (key : sexp) (s : state) : state :=
  match bindings (get_frame s f) with
  | [] => s
  | c :: bs =>
      if bool_decide (cell_key (get_cell s c) = key) then set_frame f (with_bindings bs (get_frame s f)) s
      else match undefine_loop s key c bs with
           | Some (p, c) => State (cells s) (renamed s) ((fun x => with_bindings (unlink p c (bindings x)) x) <$> frames s) (lams s) (warned s)
           | None => s
           end
  end.

(** The first frame that is neither of a lambda nor syntactic. *)
Fixpoint toplevel_frame (s : state) (e : env) : option nat :=
  match e with
  | [] => None
  | f :: e => if bool_decide (is_Some (env_lambda (get_frame s f))) || syntactic (get_frame s f) then toplevel_frame s e else Some f
  end.

Definition set_value (c : nat) (value : binding) (s : state) : state :=
  set_cell c (Cell (cell_key (get_cell s c)) value (cell_immutable (get_cell s c))) s.

(** A renamed binding of the key loses its name. *)
Definition remove_rename (f : nat) (key : sexp) (s : state) : state :=
  match find (fun r => bool_decide ((renamed s !!! r).1 = key)) (renames (get_frame s f)) with
  | Some r => State (cells s) (<[r := (SEXP_FALSE, (renamed s !!! r).2)]> (renamed s)) (frames s) (lams s) (warned s)
  | None => s
  end.

(** The cell and its frame, or [None] where the C code runs off the last parent. *)
Definition sexp_env_cell_define (e : env) (key : sexp) (value : binding) (s : state) : option ((nat * nat) * state) :=
  match toplevel_frame s e with
  | None => None
  | Some f =>
      let s := remove_rename f key s in
      match find_binding s key (bindings (get_frame s f)) with
      | Some c => Some ((c, f), set_value c value s)
      | None => Some ((length (cells s), f), sexp_env_push f key value s)
      end
  end.

Definition key_word (x : form) : sexp := default SEXP_FALSE (word_of x).

Definition sexp_env_cell_create (fv : list fv_item) (e : env) (key : form) (value : binding) (s : state) : option ((nat * nat) * state) :=
  match sexp_env_cell_loc s fv e key false with
  | Some r => Some (r, s)
  | None => sexp_env_cell_define e (key_word key) value s
  end.

(** The frames behind syntactic ones, but for the last frame. *)
Fixpoint skip_syntactic (s : state) (e : env) : env :=
  match e with
  | f :: e' => if syntactic (get_frame s f) && negb (bool_decide (e' = [])) then skip_syntactic s e' else e
  | [] => []
  end.

Definition head_frame (e : env) : nat := default 0%nat (head e).

(** The boolean is false for the exception "immutable binding". *)
Definition sexp_env_define (fv : list fv_item) (e : env) (key : form) (value : binding) (s : state) : bool * state :=
  if env_immutable (get_frame s (head_frame e)) then (false, s)
  else match sexp_env_cell s fv e key true with
       | None => (true, sexp_env_push (head_frame (skip_syntactic s e)) (key_word key) value s)
       | Some c =>
           if cell_immutable (get_cell s c) then (false, s)
           else if sexp_syntacticp value && negb (sexp_syntacticp (cell_value (get_cell s c))) then
             (true, sexp_env_push (head_frame e) (key_word key) value (sexp_env_undefine (head_frame e) (key_word key) s))
           else (true, set_value c value s)
       end.

(** The cell [c] of another environment gets a name in this one. *)
Definition sexp_env_rename (e : env) (key : sexp) (c : nat) (s : state) : state :=
  let f := head_frame e in
  let x := get_frame s f in
  set_frame f (Frame (bindings x) (length (renamed s) :: renames x) (env_lambda x) (syntactic x) (env_immutable x))
    (State (cells s) (renamed s ++ [(key, c)]) (frames s) (lams s) (warned s)).

Definition sexp_env_exports (s : state) (e : env) : list sexp :=
  let x := get_frame s (head_frame e) in
  rev (map (fun r => (renamed s !!! r).1) (renames x) ++
       map (fun c => cell_key (get_cell s c)) (List.filter (fun c => negb (is_undef (cell_value (get_cell s c)))) (bindings x))).

Definition new_frame (x : frame) (s : state) : state := State (cells s) (renamed s) (frames s ++ [x]) (lams s) (warned s).

(** A frame with a binding for each of [vars], the last one in front. *)
Definition sexp_extend_env (e : env) (vars : list sexp) (value : binding) (s : state) : env * state :=
  let f := length (frames s) in
  (f :: e, fold_left (fun s v => sexp_env_push f v value s) vars (new_frame (Frame [] [] None false false) s)).

(** Copies of the frames of [e] that share their bindings, in front of the
    environment of the context. *)
Fixpoint copy_frames (e : env) (s : state) : env * state :=
  match e with
  | [] => ([], s)
  | f :: e =>
      let x := get_frame s f in
      let n := length (frames s) in
      let '(e, s) := copy_frames e (new_frame (Frame (bindings x) (renames x) None true false) s) in
      (n :: e, s)
  end.

Definition sexp_extend_synclo_env (c : context) (e : env) (s : state) : env * state :=
  match context_fv c with
  | [] => (e, s)
  | _ => let '(e, s) := copy_frames e s in (e ++ context_env c, s)
  end.

(** ** The first environment *)

Definition core_forms : list (core_form * string) :=
  [(SEXP_CORE_DEFINE, "define"); (SEXP_CORE_SET, "set!"); (SEXP_CORE_LAMBDA, "lambda"); (SEXP_CORE_IF, "if");
   (SEXP_CORE_BEGIN, "begin"); (SEXP_CORE_QUOTE, "quote"); (SEXP_CORE_SYNTAX_QUOTE, "syntax-quote");
   (SEXP_CORE_DEFINE_SYNTAX, "define-syntax"); (SEXP_CORE_LET_SYNTAX, "let-syntax"); (SEXP_CORE_LETREC_SYNTAX, "letrec-syntax")].

Definition sexp_make_env_op (s : state) : env * state := ([length (frames s)], new_frame (Frame [] [] None false false) s).

Definition define_core (e : env) (s : state) (core : core_form * string) : state :=
  (sexp_env_define [] e (Atom (Symbol core.2)) (BCore core.1) s).2.

Definition sexp_make_null_env_op (s : state) : env * state :=
  let '(e, s) := sexp_make_env_op s in (e, fold_left (define_core e) core_forms s).

(** ** Comparing identifiers *)

Definition sexp_identifier_eq (s : state) (fv : list fv_item) (e1 : env) (id1 : form) (e2 : env) (id2 : form) : bool :=
  let cell1 := sexp_env_cell s fv e1 id1 false in
  let cell2 := sexp_env_cell s fv e2 id2 false in
  match cell1, cell2 with
  | Some c1, Some c2 => bool_decide (c1 = c2)
  | None, None => eq_form id1 id2 || eq_form (sexp_id_name id1) (sexp_id_name id2)
  | _, _ => false
  end.
