(* ===== verification/Identifiers.v ===== *)
(** * Identifiers and data (eval.c)

    What syntactic closures promise: stripped data has none, and a closed
    identifier means what it means where it was closed, unless the closure or the
    context lists it as free. *)
From S2P Require Import Prelude Heap Syntax.
From stdpp Require Import base list option strings.
#[local] Open Scope Z_scope.

(** ** Data without closures *)

Fixpoint erase (x : form) : form :=
  match x with Atom _ => x | Cons a d => Cons (erase a) (erase d) | VectorOf w ls => VectorOf w (erase ls) | Synclo _ _ _ e => erase e end.

(** The levels that [sexp_strip_synclos_bound] needs: a pair of a list is one, a
    vector is one. *)
Fixpoint strip_depth (x : form) : nat :=
  let elements := fix elements (ls : form) := match ls with Cons a d => Nat.max (strip_depth a) (elements d) | _ => 0%nat end in
  match x with
  | Atom _ => 0%nat
  | Cons a d => S (Nat.max (strip_depth a) (strip_depth d))
  | VectorOf _ ls => S (elements ls)
  | Synclo _ _ _ e => Nat.max 1 (strip_depth e)
  end.

Fixpoint elements_depth (ls : form) : nat := match ls with Cons a d => Nat.max (strip_depth a) (elements_depth d) | _ => 0%nat end.

Lemma strip_depth_vector w ls : strip_depth (VectorOf w ls) = S (elements_depth ls).
Proof. reflexivity. Qed.

(** The elements of vectors are lists. *)
Fixpoint data_ok (x : form) : bool :=
  match x with
  | Atom _ => true
  | Cons a d => data_ok a && data_ok d
  | VectorOf _ ls => sexp_listp ls && data_ok ls
  | Synclo _ _ _ e => data_ok e
  end.

Fixpoint plain (x : form) : bool :=
  match x with Atom _ => true | Cons a d => plain a && plain d | VectorOf _ ls => plain ls | Synclo _ _ _ _ => false end.

Lemma plain_erase x : plain x = true -> erase x = x.
Proof. induction x as [w|a IHa d IHd|w ls IH|]; cbn; [done| |by intros ->%IH|done]. by intros [->%IHa ->%IHd]%andb_true_iff. Qed.

Lemma erase_plain x : plain (erase x) = true.
Proof. induction x as [w|a IHa d IHd|w ls IH|]; cbn; [done| |done|done]. by rewrite IHa, IHd. Qed.

Lemma strip_bound_erases x : data_ok x = true ->
  (forall depth, (strip_depth x <= depth)%nat -> sexp_strip_synclos_bound depth x = erase x) /\
  (forall depth, sexp_listp x = true -> (elements_depth x <= depth)%nat -> on_elements (sexp_strip_synclos_bound depth) x = erase x).
Proof.
  induction x as [w|a IHa d IHd|w ls IH|b e fv _ x IH]; cbn [data_ok]; intros Hd.
  - split; [by intros [|depth]|done].
  - apply andb_true_iff in Hd as [Ha Hd]. destruct (IHa Ha) as [IHa1 _], (IHd Hd) as [IHd1 IHd2]. split.
    + intros [|depth] Hle; cbn [strip_depth] in Hle; [lia|]. cbn [sexp_strip_synclos_bound sexp_id_name erase]. rewrite IHa1, IHd1 by lia. done.
    + intros depth Hl Hle. cbn [elements_depth] in Hle. cbn [on_elements erase]. rewrite IHa1, IHd2 by (done || lia). done.
  - apply andb_true_iff in Hd as [Hl Hd]. destruct (IH Hd) as [_ IH2]. split; [|done].
    intros [|depth] Hle; rewrite strip_depth_vector in Hle; [lia|]. cbn [sexp_strip_synclos_bound sexp_id_name erase]. rewrite IH2 by (done || lia). done.
  - destruct (IH Hd) as [IH1 _]. split; [|done]. intros [|depth] Hle; cbn [strip_depth] in Hle; [lia|]. exact (IH1 (S depth) ltac:(lia)).
Qed.

Lemma contains_complete x : data_ok x = true ->
  (forall depth, (strip_depth x <= depth)%nat -> sexp_contains_syntax_p_bound depth x = false -> plain x = true) /\
  (forall depth, (strip_depth x <= depth)%nat -> existsb (sexp_contains_syntax_p_bound depth) (items x) = false ->
    sexp_contains_syntax_p_bound depth (tail_of x) = false -> plain x = true) /\
  (forall depth, sexp_listp x = true -> (elements_depth x <= depth)%nat -> existsb (sexp_contains_syntax_p_bound depth) (items x) = false -> plain x = true).
Proof.
  induction x as [w|a IHa d IHd|w ls IH|b e fv _ x IH]; cbn [data_ok]; intros Hd.
  - done.
  - apply andb_true_iff in Hd as [Ha Hd]. destruct (IHa Ha) as (IHa1 & _), (IHd Hd) as (_ & IHd2 & IHd3). cbn [strip_depth elements_depth plain items tail_of existsb].
    split; [|split].
    + intros [|depth] Hle; [lia|]. cbn [sexp_contains_syntax_p_bound sexp_synclop orb items tail_of existsb]. intros [[Hca Hci]%orb_false_iff Hct]%orb_false_iff.
      rewrite (IHa1 depth), (IHd2 depth); done || lia.
    + intros depth Hle [Hca Hci]%orb_false_iff Hct. rewrite (IHa1 depth), (IHd2 depth); done || lia.
    + intros depth Hl Hle [Hca Hci]%orb_false_iff. rewrite (IHa1 depth), (IHd3 depth); done || lia.
  - apply andb_true_iff in Hd as [Hl Hd]. destruct (IH Hd) as (_ & _ & IH3). rewrite strip_depth_vector. cbn [plain items tail_of existsb].
    assert (H1 : forall depth, (S (elements_depth ls) <= depth)%nat -> sexp_contains_syntax_p_bound depth (VectorOf w ls) = false -> plain ls = true).
    { intros [|depth] Hle; [lia|]. intros Hc. by apply (IH3 depth); [|lia|]. }
    split; [exact H1|]. split; [|done]. intros depth Hle _ Hc. by apply (H1 depth).
  - split; [|split]; intros [|depth]; done.
Qed.

(** ** Meanings of identifiers *)

(** The cell of an identifier, or its name if it has none. *)
Definition denotes (s : state) (fv : list fv_item) (e : env) (x : form) : nat + form :=
  match sexp_env_cell s fv e x false with Some c => inl c | None => inr (sexp_id_name x) end.

(** Closures with one address are one closure. *)
Definition same_address (x y : form) : Prop := eq_form x y = true -> x = y.

Lemma eq_form_refl w : eq_form (Atom w) (Atom w) = true.
Proof. unfold eq_form. cbn. by rewrite bool_decide_true. Qed.

Lemma idp_name x : sexp_idp x = true -> exists n, sexp_id_name x = Atom (Symbol n).
Proof. unfold sexp_idp. destruct (sexp_id_name x) as [[]| | |]; try done. eauto. Qed.

Lemma identifier_eq_denotes s fv e1 x e2 y : sexp_idp x = true -> sexp_idp y = true -> same_address x y ->
  sexp_identifier_eq s fv e1 x e2 y = true <-> denotes s fv e1 x = denotes s fv e2 y.
Proof.
  intros [n Hn]%idp_name [m Hm]%idp_name Hsame. unfold sexp_identifier_eq, denotes. rewrite Hn, Hm.
  destruct (sexp_env_cell s fv e1 x false) as [c1|], (sexp_env_cell s fv e2 y false) as [c2|]; try done.
  - rewrite bool_decide_eq_true. split; congruence.
  - split.
    + intros [H|H]%orb_true_iff; [specialize (Hsame H); congruence|]. unfold eq_form in H. cbn in H. apply bool_decide_eq_true in H. congruence.
    + intros [= ->]. rewrite eq_form_refl. apply orb_true_r.
Qed.

Lemma same_meaning s fv e1 x e2 y : denotes s fv e1 x = denotes s fv e2 y -> sexp_idp x = true -> sexp_identifier_eq s fv e1 x e2 y = true.
Proof.
  intros Hd [n Hn]%idp_name. unfold sexp_identifier_eq, denotes in *. destruct (sexp_env_cell s fv e1 x false), (sexp_env_cell s fv e2 y false); try done.
  - injection Hd as ->. by apply bool_decide_eq_true.
  - injection Hd as Hd. rewrite <- Hd, Hn, eq_form_refl. apply orb_true_r.
Qed.

Lemma get_frame_none s f : (length (frames s) <= f)%nat -> get_frame s f = Frame [] [] None false false.
Proof. intros Hf. unfold get_frame. by rewrite list_lookup_total_alt, lookup_ge_None_2. Qed.

(** No key has the address. *)
Definition fresh_address (s : state) (a : loc) : Prop :=
  Forall (fun c => cell_key c <> Ptr a) (cells s) /\ Forall (fun r => r.1 <> Ptr a) (renamed s).

Lemma fresh_unbound s a : fresh_address s a -> (forall f, Forall (fun c => (c < length (cells s))%nat) (bindings (get_frame s f))) ->
  (forall f, Forall (fun r => (r < length (renamed s))%nat) (renames (get_frame s f))) -> forall e, sexp_env_cell_loc1 s e (Ptr a) false = None.
Proof.
  intros [Hc Hr] Hb Hn e. induction e as [|f e IH]; [done|]. cbn [sexp_env_cell_loc1].
  assert (find_renamed s (Ptr a) (renames (get_frame s f)) = None) as E1.
  { unfold find_renamed. destruct (find _ _) as [r|] eqn:E; [|done]. apply find_some in E as [Hin Hk%bool_decide_eq_true]. apply list_elem_of_In in Hin.
    specialize (Hn f). rewrite list.Forall_forall in Hn. specialize (Hn r Hin). rewrite Forall_lookup_total in Hr. by destruct (Hr r Hn). }
  assert (find_binding s (Ptr a) (bindings (get_frame s f)) = None) as E2.
  { unfold find_binding. destruct (find _ _) as [c|] eqn:E; [|done]. apply find_some in E as [Hin Hk%bool_decide_eq_true]. apply list_elem_of_In in Hin.
    specialize (Hb f). rewrite list.Forall_forall in Hb. specialize (Hb c Hin). rewrite Forall_lookup_total in Hc. by destruct (Hc c Hb). }
  unfold frame_cell. by rewrite E1, E2.
Qed.

(** Frames hold cells and renamed bindings that exist. *)
Definition cells_exist (s : state) : Prop := forall f,
  Forall (fun c => (c < length (cells s))%nat) (bindings (get_frame s f)) /\ Forall (fun r => (r < length (renamed s))%nat) (renames (get_frame s f)).

Lemma make_synclo_id a scope fv x : sexp_idp x = true -> sexp_make_synclo a scope fv x = Synclo a scope fv x.
Proof. unfold sexp_idp. destruct x as [w| | |]; try done. intros Hw. unfold sexp_make_synclo. cbn in Hw. by rewrite Hw. Qed.

(** The environment that the context gives for a name, if it lists the name as
    free, does not depend on what closes the name. *)
Lemma fv_env_synclo cfv a scope fv x : fv_env cfv (Synclo a scope fv x) = fv_env cfv x.
Proof. reflexivity. Qed.

Lemma fv_env_nil x : fv_env [] x = None.
Proof. unfold fv_env. by destruct (word_of _). Qed.

Lemma closure_denotes s a scope fv x cfv e : cells_exist s -> fresh_address s a -> sexp_idp x = true ->
  denotes s cfv e (sexp_make_synclo a scope fv x) = denotes s cfv (if memq_form x fv then e else scope) x.
Proof.
  intros Hr Hf Hx. rewrite make_synclo_id by done. unfold denotes, sexp_env_cell, sexp_env_cell_loc. rewrite fv_env_synclo.
  assert (Hun : forall e, key_cell s e (Synclo a scope fv x) false = None) by (intros e'; exact (fresh_unbound s a Hf (fun f => proj1 (Hr f)) (fun f => proj2 (Hr f)) e')).
  cbn [closure_cell sexp_id_name negb andb]. destruct (fv_env cfv x); rewrite Hun; [done|]. by destruct (memq_form x fv).
Qed.

(** A name with no environment of the context. *)
Lemma denotes_unlisted s cfv e x : fv_env cfv x = None -> denotes s cfv e x = denotes s [] e x.
Proof. intros Hn. unfold denotes, sexp_env_cell, sexp_env_cell_loc. by rewrite Hn, fv_env_nil. Qed.

Lemma denotes_listed s cfv e e0 n : fv_env cfv (Atom (Symbol n)) = Some e0 -> denotes s cfv e (Atom (Symbol n)) = denotes s [] e0 (Atom (Symbol n)).
Proof. intros Hn. unfold denotes, sexp_env_cell, sexp_env_cell_loc. by rewrite Hn, fv_env_nil. Qed.

(** C38 (functional).  What an identifier [x] means that was closed with
    [sexp_make_synclo_op] at a fresh address, whatever is bound where it is used,
    in a context with any list of free variables ([sexp_context_fv]).  If the
    list gives no environment for its name, it means what [x] meant in the
    environment of the closure, or what [x] means where it is used if the closure
    lists [x] as free.  If the list has the name of [x], a symbol, with an
    environment behind it, the closure does not count: [x] is looked up in that
    environment.  In either case it means what [x] itself means, in the same
    context, in the environment of the closure (or of use, if free in it).
    identifier=? tells whether two identifiers have one meaning: a cell, or a
    name without a cell; so in one context a closed identifier that is not free in
    its closure is the same as [x] in the environment of the closure. *)
Theorem closed_identifiers s a scope fv x : cells_exist s -> fresh_address s a -> sexp_idp x = true ->
  let k := sexp_make_synclo a scope fv x in
  let home e := if memq_form x fv then e else scope in
  sexp_idp k = true /\
  (forall cfv e, fv_env cfv x = None -> denotes s cfv e k = denotes s [] (home e) x) /\
  (forall cfv e e0 n, x = Atom (Symbol n) -> fv_env cfv x = Some e0 -> denotes s cfv e k = denotes s [] e0 x) /\
  (forall cfv e, denotes s cfv e k = denotes s cfv (home e) x) /\
  (forall cfv e1 y e2, sexp_idp y = true -> same_address k y -> sexp_identifier_eq s cfv e1 k e2 y = true <-> denotes s cfv e1 k = denotes s cfv e2 y) /\
  (memq_form x fv = false -> forall cfv e, sexp_identifier_eq s cfv e k scope x = true).
Proof.
  intros Hr Hf Hx k home. assert (Hk : sexp_idp k = true) by (unfold k; by rewrite make_synclo_id).
  assert (Hd : forall cfv e, denotes s cfv e k = denotes s cfv (home e) x) by (intros; by apply closure_denotes).
  split_and!; try done.
  - intros cfv e Hn. rewrite Hd. by apply denotes_unlisted.
  - intros cfv e e0 n -> Hn. rewrite Hd. by apply denotes_listed.
  - intros cfv e1 y e2 Hy Ha. by apply identifier_eq_denotes.
  - intros Hm cfv e. apply same_meaning; [|done]. rewrite Hd. unfold home. by rewrite Hm.
Qed.

(** A toplevel with the keyword if, and a lambda whose parameter is called if. *)
Definition shadowed : state :=
  State [Cell (Symbol "if") (BCore SEXP_CORE_IF) false; Cell (Symbol "if") (BLambda 0) false] []
    [Frame [0%nat] [] None false false; Frame [1%nat] [] (Some 0%nat) false false] [Lam [Symbol "if"] None [] [] [] None] [].

(** The identifier if of the toplevel, used in the lambda; and in a context that
    lists if as free there. *)
Definition top_if : form := sexp_make_synclo 7%positive [0%nat] (Atom SEXP_NULL) (Atom (Symbol "if")).
Definition if_is_free : list fv_item := [FvName (Symbol "if"); FvEnv [1; 0]%nat].

Lemma closed_identifiers_witness :
  denotes shadowed [] [1; 0]%nat (Atom (Symbol "if")) = inl 1%nat /\
  denotes shadowed [] [1; 0]%nat top_if = inl 0%nat /\
  denotes shadowed if_is_free [0%nat] top_if = inl 1%nat /\
  sexp_identifier_eq shadowed [] [1; 0]%nat top_if [0%nat] (Atom (Symbol "if")) = true /\
  sexp_identifier_eq shadowed if_is_free [1; 0]%nat top_if [0%nat] (Atom (Symbol "if")) = true.
Proof.
  assert (Hr : cells_exist shadowed).
  { intros [|[|f]]; [split; repeat constructor..|]. by rewrite (get_frame_none shadowed (S (S f)) ltac:(cbn; lia)). }
  assert (Hf : fresh_address shadowed 7%positive) by (split; repeat constructor; discriminate).
  destruct (closed_identifiers shadowed 7%positive [0%nat] (Atom SEXP_NULL) (Atom (Symbol "if")) Hr Hf eq_refl) as (_ & Hd & He & _ & _ & Hi).
  split; [reflexivity|]. split; [exact (Hd [] [1; 0]%nat eq_refl)|].
  split; [exact (He if_is_free [0%nat] [1; 0]%nat "if" eq_refl eq_refl)|]. split; [exact (Hi eq_refl [] [1; 0]%nat)|exact (Hi eq_refl if_is_free [1; 0]%nat)].
Defined.

(** C40 (functional).  [sexp_strip_synclos] gives the datum without its closures:
    inside of lists and vectors, and closures of closures.  A datum that has none
    is returned as it is.  Each pair of a list counts as a level, and ten thousand
    levels are stripped. *)
Theorem strip_synclos_correct x : data_ok x = true -> (strip_depth x <= SEXP_STRIP_SYNCLOS_BOUND)%nat ->
  sexp_strip_synclos x = erase x /\ plain (sexp_strip_synclos x) = true /\ (plain x = true -> sexp_strip_synclos x = x).
Proof.
  intros Hd Hle. assert (E : sexp_strip_synclos x = erase x).
  { unfold sexp_strip_synclos. destruct (sexp_contains_syntax_p_bound _ x) eqn:Hc.
    - by apply strip_bound_erases.
    - symmetry. apply plain_erase. by apply (proj1 (contains_complete x Hd) SEXP_STRIP_SYNCLOS_BOUND). }
  rewrite E. split; [done|]. split; [apply erase_plain|apply plain_erase].
Qed.

(** [(a #(b c))], where a and c are closed, c twice. *)
Definition closed_datum : form :=
  Cons (Synclo 1 [] (Atom SEXP_NULL) (Atom (Symbol "a")))
    (Cons (VectorOf (Ptr 2) (Cons (Atom (Symbol "b")) (Cons (Synclo 3 [] (Atom SEXP_NULL) (Synclo 4 [] (Atom SEXP_NULL) (Atom (Symbol "c")))) (Atom SEXP_NULL)))) (Atom SEXP_NULL)).

Lemma strip_synclos_correct_witness :
  sexp_strip_synclos closed_datum =
    Cons (Atom (Symbol "a")) (Cons (VectorOf (Ptr 2) (Cons (Atom (Symbol "b")) (Cons (Atom (Symbol "c")) (Atom SEXP_NULL)))) (Atom SEXP_NULL)).
Proof.
  assert (Hle : (strip_depth closed_datum <= SEXP_STRIP_SYNCLOS_BOUND)%nat) by (apply Nat.leb_le; vm_compute; reflexivity).
  exact (proj1 (strip_synclos_correct closed_datum eq_refl Hle)).
Defined.

(** What is behind the ten thousandth pair of a list keeps its closures. *)
Lemma strip_bound_long depth : forall k x, sexp_strip_synclos_bound depth (Nat.iter (depth + k) (Cons (Atom SEXP_NULL)) x) = Nat.iter (depth + k) (Cons (Atom SEXP_NULL)) x.
Proof.
  induction depth as [|depth IH]; intros k x; [done|]. cbn [Nat.add Nat.iter nat_rect sexp_strip_synclos_bound sexp_id_name]. fold (Nat.iter (depth + k) (Cons (Atom SEXP_NULL)) x).
  rewrite IH. by destruct depth.
Qed.

Lemma strip_synclos_long k x : let ls := Nat.iter (SEXP_STRIP_SYNCLOS_BOUND + k) (Cons (Atom SEXP_NULL)) x in sexp_strip_synclos ls = ls.
Proof. cbn zeta. unfold sexp_strip_synclos. case_match; [apply strip_bound_long|done]. Qed.
