(* ===== verification/Analyze.v ===== *)
(** * The analyzer (eval.c)

    [analyze] and its forms: from source data to trees.  Cells, frames and the
    lambdas under construction are the mutable state; a [goto] to the label
    [loop] is recursion.  Source positions are left out, and so is the end of the
    process after a warning when warnings are errors. *)
From S2P Require Import Prelude Heap Syntax.
From stdpp Require Import base list option strings.
#[local] Open Scope Z_scope.

(** ** Trees and results *)

(** The objects that [analyze] makes.  A reference has the key of its cell; the
    parts of a lambda but its body are in the state.  Only a definition can make
    a reference without a cell. *)
Inductive tree :=
| TLit (v : form)
| TSelf (v : form)
| TRef (name : sexp) (cell : option nat)
| TSet (name : sexp) (cell : option nat) (v : tree)
| TCnd (test pass fail : tree)
| TSeq (ls : list tree)
| TLam (l : nat) (body : tree)
| TApp (f : tree) (args : list tree)
| TOp (w : sexp) (op : opcode) (args : list tree).

(** What an exception complains about. *)
Inductive irritant := IForm (x : form) | IName (w : sexp) | IValue (b : binding).

Inductive error :=
| Compile_error (message : string) (x : irritant)
| Raised (exn : sexp).         (** by a macro, or the value of a macro's form *)

Inductive res := T (t : tree) | E (e : error).

(** ** Computations

    [Crash] is an access through a null pointer. *)
Inductive out (A : Type) := Done (a : A) (s : state) | Crash | Out_of_fuel.
Arguments Done {A} a s.
Arguments Crash {A}.
Arguments Out_of_fuel {A}.

Definition M (A : Type) : Type := state -> out A.

#[export] Instance M_ret : MRet M := fun A a s => Done a s.
#[export] Instance M_bind : MBind M := fun A B k m s =>
  match m s with Done a s => k a s | Crash => Crash | Out_of_fuel => Out_of_fuel end.

Definition gets {A} (f : state -> A) : M A := fun s => Done (f s) s.
Definition modify (f : state -> state) : M unit := fun s => Done tt (f s).
Definition run {A} (f : state -> A * state) : M A := fun s => let '(a, s) := f s in Done a s.
Definition run_or_crash {A} (f : state -> option (A * state)) : M A :=
  fun s => match f s with Some (a, s) => Done a s | None => Crash end.
Definition crash {A} : M A := fun _ => Crash.

Definition sexp_warn (message : string) (x : form) : M unit :=
  modify (fun s => State (cells s) (renamed s) (frames s) (lams s) ((message, x) :: warned s)).

Definition compile_error (message : string) (x : form) : res := E (Compile_error message (IForm x)).

Definition VOID : form := Atom SEXP_VOID.
Definition NULL : form := Atom SEXP_NULL.

(** ** Lambdas under construction *)

Definition new_lam (l : lam) (s : state) : nat * state :=
  (length (lams s), State (cells s) (renamed s) (frames s) (lams s ++ [l]) (warned s)).

(** [sexp_insert] *)
Definition sexp_insert (x : sexp) (ls : list sexp) : list sexp := if bool_decide (x ∈ ls) then ls else x :: ls.

Definition insert_sv (l : nat) (x : sexp) (s : state) : state :=
  let y := get_lam s l in set_lam l (Lam (params y) (rest y) (locals y) (sexp_insert x (sv y)) (defs y) (lambda_name y)) s.

Definition name_lambda (name : sexp) (t : tree) (s : state) : state :=
  match t with
  | TLam l _ => let y := get_lam s l in set_lam l (Lam (params y) (rest y) (locals y) (sv y) (defs y) (Some name)) s
  | _ => s
  end.

(** A local with its definition, in front of those before it. *)
Definition push_def (l : nat) (name : sexp) (d : form * context) (s : state) : state :=
  let y := get_lam s l in set_lam l (Lam (params y) (rest y) (name :: locals y) (sv y) (d :: defs y) (lambda_name y)) s.

Definition set_env_lambda (f l : nat) (s : state) : state :=
  let x := get_frame s f in set_frame f (Frame (bindings x) (renames x) (Some l) (syntactic x) (env_immutable x)) s.

(** ** Parts that do not call the analyzer *)

Definition lambda_envp (s : state) (c : context) : bool :=
  existsb (fun f => bool_decide (is_Some (env_lambda (get_frame s f)))) (context_env c).

Fixpoint nondefp (x : tree) : bool :=
  match x with
  | TApp _ _ | TOp _ _ _ | TCnd _ _ _ => true
  | TSeq ls => existsb nondefp ls
  | _ => false
  end.

(** The name of a reference, its cell and the frame of the cell. *)
Definition analyze_var_ref (c : context) (x : form) : M ((sexp * nat * nat) + error) :=
  r ← run_or_crash (sexp_env_cell_create (context_fv c) (context_env c) x (BValue SEXP_UNDEF));
  cell ← gets (fun s => get_cell s r.1);
  mret (if sexp_syntacticp (cell_value cell) then inr (Compile_error "invalid use of syntax as value" (IForm x))
        else inl (cell_key cell, r.1, r.2)).

Fixpoint verify_params (verify_duplicates : bool) (ls : form) : option string :=
  match ls with
  | Cons a d =>
      if negb (sexp_idp a) then Some "non-symbol parameter"
      else if verify_duplicates && memq_form a d then Some "duplicate parameter"
      else verify_params verify_duplicates d
  | _ => None
  end.

(** The message of a parameter list that is refused. *)
Definition bad_params (ps : form) : option string :=
  match verify_params (Z.of_nat (length (items ps)) <? 100) ps with
  | Some m => Some m
  | None =>
      let ls := tail_of ps in
      if nullp ls then None
      else if negb (sexp_idp ls) then Some "non-symbol parameter"
      else if memq_form ls ps then Some "duplicate parameter" else None
  end.

Definition sexp_make_lambda (ps : form) : lam :=
  Lam (map key_word (items ps)) (if nullp (tail_of ps) then None else word_of (tail_of ps)) [] [] [] None.

Definition sexp_flatten_dot (l : lam) : list sexp := params l ++ option_list (rest l).

(** The names of lambdas that are applied to lambdas. *)
Fixpoint name_operands (ps : list sexp) (args : list tree) (s : state) : state :=
  match ps, args with p :: ps, a :: args => name_operands ps args (name_lambda p a s) | _, _ => s end.

Section analyze.

(** The flags of a procedure ([Some true] for a variable transformer), and
    exceptions, by their words. *)
Variable procedurep : sexp -> option bool.
Variable exceptionp : sexp -> bool.
(** The value of a macro's form, and the result of a macro's procedure on a form,
    the environment of its use and that of its definition: the machine runs
    them, and they may work on environments. *)
Variable sexp_eval : context -> form -> state -> binding * state.
Variable expand : sexp -> form -> env -> env -> state -> (form + sexp) * state.

Definition analyze_macro_once (c : context) (x : form) (m : macro) : M (form + error) :=
  r ← run (expand (macro_proc m) x (context_env c) (macro_env m));
  mret (match r with inl y => inl y | inr exn => inr (Raised exn) end).

Definition as_macro (c : context) (b : binding) : binding :=
  match b with
  | BValue w => match procedurep w with Some vt => BMacro (Macro w vt (context_env c)) | None => b end
  | _ => b
  end.

Definition macro_value (c : context) (x : form) : M binding :=
  if sexp_idp x then gets (fun s => default (BValue SEXP_FALSE) (sexp_env_ref s (context_fv c) (context_env c) x))
  else run (sexp_eval c x).

(** [None] is no error. *)
Fixpoint analyze_bind_syntax (ls : form) (eval_ctx bind_ctx : context) (localp : bool) : M (option error) :=
  match ls with
  | Cons b ls' =>
      match b with
      | Cons name (Cons x (Atom SEXP_NULL)) =>
          if negb (sexp_idp name) then mret (Some (Compile_error "bad syntax binding" (IForm b)))
          else
            v ← macro_value eval_ctx x;
            let mac := as_macro eval_ctx v in
            if negb (sexp_syntacticp mac) then
              mret (Some (match mac with
                          | BValue w => if exceptionp w then Raised w else Compile_error "non-procedure macro" (IValue mac)
                          | _ => Compile_error "non-procedure macro" (IValue mac)
                          end))
            else
              let name := if sexp_synclop name && bool_decide (length (context_env bind_ctx) = 1%nat)
                          then sexp_syntactic_closure_expr name else name in
              (if localp then modify (sexp_env_push (head_frame (context_env bind_ctx)) (key_word name) mac)
               else _ ← run (sexp_env_define (context_fv eval_ctx) (context_env bind_ctx) name mac); mret tt);;
              analyze_bind_syntax ls' eval_ctx bind_ctx localp
      | _ => mret (Some (Compile_error "bad syntax binding" (IForm b)))
      end
  | _ => mret None
  end.

Definition analyze_define_syntax (c : context) (x : form) : M res :=
  match x with
  | Cons _ d => r ← analyze_bind_syntax (Cons d NULL) c c false;
                mret (match r with None => T (TSelf VOID) | Some e => E e end)
  | _ => crash
  end.

(** ** Forms with parts

    [an] is [analyze] and [lambda] is [analyze_lambda], on smaller forms. *)
Section forms.
Variable an : context -> form -> Z -> Z -> M res.
Variable lambda : context -> form -> Z -> M res.

(** After a form that is no definition, definitions are out of order. *)
Fixpoint analyze_list (c : context) (x : form) (depth defok : Z) : M (list tree + error) :=
  match x with
  | Cons a d =>
      r ← an c a depth defok;
      match r with
      | E e => mret (inr e)
      | T t =>
          inside ← gets (fun s => lambda_envp s c);
          rs ← analyze_list c d depth (if inside && nondefp t then -1 else defok);
          mret (match rs with inl ts => inl (t :: ts) | inr e => inr e end)
      end
  | _ => mret (inl [])
  end.

Definition analyze_app (c : context) (x : form) (depth : Z) : M res :=
  r ← analyze_list c x depth 0;
  match r with
  | inr e => mret (E e)
  | inl [] => crash
  | inl (f :: args) =>
      match f with
      | TLam l _ => modify (fun s => name_operands (params (get_lam s l)) args s)
      | _ => mret tt
      end;;
      mret (T (TApp f args))
  end.

Definition analyze_seq (c : context) (ls : form) (depth defok : Z) : M res :=
  match ls with
  | Cons x (Atom SEXP_NULL) => an c x depth defok
  | Cons _ _ => r ← analyze_list c ls depth defok; mret (match r with inl ts => T (TSeq ts) | inr e => E e end)
  | Atom SEXP_NULL => mret (T (TSelf VOID))
  | _ => crash
  end.

(** The result of [analyze_set], or the expansion of a variable transformer. *)
Definition analyze_set (c : context) (x : form) (depth : Z) : M (res + form) :=
  match x with
  | Cons _ (Cons v (Cons e (Atom SEXP_NULL))) =>
      if negb (sexp_idp v) then mret (inl (compile_error "bad set! syntax" x))
      else
        b ← gets (fun s => sexp_env_ref s (context_fv c) (context_env c) v);
        match b with
        | Some (BMacro m) =>
            if variable_transformer m then
              y ← analyze_macro_once c x m; mret (match y with inl y => inr y | inr e => inl (E e) end)
            else mret (inl (compile_error "can't mutate a syntax keyword" v))
        | _ =>
            r ← analyze_var_ref c v;
            match r with
            | inl (name, cell, _) =>
                modify (fun s => match cell_value (get_cell s cell) with BLambda l => insert_sv l name s | _ => s end)
            | inr _ => mret tt
            end;;
            value ← an c e depth 0;
            s ← gets id;
            mret (inl (match r, value with
              | inr e, _ => E e
              | _, E e => E e
              | inl (name, cell, f), T t =>
                  if cell_immutable (get_cell s cell) || env_immutable (get_frame s f) then compile_error "immutable binding" v
                  else T (TSet name (Some cell) t)
              end))
        end
  | _ => mret (inl (compile_error "bad set! syntax" x))
  end.

(** The internal definitions of a lambda, the last one first: their assignments,
    in the order of the source. *)
Fixpoint delayed_defs (l : nat) (ds : list (form * context)) (depth : Z) (acc : list tree) : M (list tree + error) :=
  match ds with
  | [] => mret (inl acc)
  | (d, c) :: ds =>
      match d with
      | Cons target body =>
          let name := match target with Cons a _ => a | _ => target end in
          v ← match target, body with
              | Cons _ ps, _ => lambda c (Cons VOID (Cons ps body)) depth
              | _, Cons x _ => an c x depth 0
              | _, _ => crash
              end;
          match v with
          | E e => mret (inr e)
          | T t =>
              modify (name_lambda (key_word name) t);;
              r ← analyze_var_ref c name;
              match r with
              | inr e => mret (inr e)
              | inl (n, cell, _) =>
                  modify (insert_sv l (key_word name));;
                  delayed_defs l ds depth (TSet n (Some cell) t :: acc)
              end
          end
      | _ => crash
      end
  end.

Definition add_defs (ds : list tree) (body : tree) : tree :=
  match ds with
  | [] => body
  | _ => match body with TSeq ls => TSeq (ds ++ ls) | _ => TSeq (ds ++ [body]) end
  end.

Definition analyze_lambda_body (c : context) (x : form) (depth : Z) : M res :=
  match x with
  | Cons _ (Cons ps (Cons _ _ as body)) =>
      match bad_params ps with
      | Some m => mret (compile_error m x)
      | None =>
          l ← run (new_lam (sexp_make_lambda ps));
          e ← run (sexp_extend_env (context_env c) (sexp_flatten_dot (sexp_make_lambda ps)) (BLambda l));
          modify (set_env_lambda (head_frame e) l);;
          b ← analyze_seq (Context e (Some l) (context_fv c)) body depth 1;
          match b with
          | E e => mret (E e)
          | T b =>
              ds ← gets (fun s => defs (get_lam s l));
              r ← delayed_defs l ds depth [];
              mret (match r with inl ds => T (TLam l (add_defs ds b)) | inr e => E e end)
          end
      end
  | _ => mret (compile_error "bad lambda syntax" x)
  end.

Definition analyze_if (c : context) (x : form) (depth : Z) : M res :=
  match x with
  | Cons _ (Cons test (Cons pass r)) =>
      match r with
      | Cons _ (Cons _ _) => mret (compile_error "too many args to if" x)
      | _ =>
          t ← an c test depth 0;
          match t with
          | E e => mret (E e)
          | T t =>
              p ← an c pass depth 0;
              match p with
              | E e => mret (E e)
              | T p =>
                  f ← an c (match r with Cons f _ => f | _ => VOID end) depth 0;
                  mret (match f with T f => T (TCnd t p f) | E e => E e end)
              end
          end
      end
  | _ => mret (compile_error "not enough args to if" x)
  end.

Definition analyze_define (c : context) (x : form) (depth : Z) : M res :=
  match x with
  | Cons _ (Cons target (Cons v _ as body) as d) =>
      let name := match target with Cons a _ => a | _ => target end in
      if negb (sexp_idp name) then mret (compile_error "can't define a non-symbol" x)
      else
        e ← gets (fun s => skip_syntactic s (context_env c));
        inside ← gets (fun s => env_lambda (get_frame s (head_frame e)));
        match inside with
        | Some l =>
            modify (sexp_env_push (head_frame e) (key_word name)
              (match context_lambda c with Some l => BLambda l | None => BValue SEXP_FALSE end));;
            modify (push_def l (key_word name) (d, c));;
            mret (T (TSelf VOID))
        | None =>
            r ← run_or_crash (sexp_env_cell_define e (key_word name) (BValue SEXP_VOID));
            value ← match target with Cons _ ps => lambda c (Cons VOID (Cons ps body)) depth | _ => an c v depth 0 end;
            s ← gets id;
            match value with
            | E e => mret (E e)
            | T t =>
                let found := sexp_env_cell_loc s (context_fv c) e name false in
                let f := match found with Some (_, f) => f | None => r.2 end in
                if env_immutable (get_frame s f) then mret (compile_error "immutable binding" name)
                else
                  modify (name_lambda (key_word name) t);;
                  mret (T (TSet (key_word name) (fst <$> found) t))
            end
        end
  | _ => mret (compile_error "bad define syntax" x)
  end.

Definition analyze_let_syntax_aux (c : context) (x : form) (recp : bool) (depth : Z) : M res :=
  match x with
  | Cons _ (Cons bs (Cons _ _ as body)) =>
      f ← gets (fun s => length (frames s));
      modify (new_frame (Frame [] [] None true false));;
      let c2 := Context (f :: context_env c) (context_lambda c) (context_fv c) in
      r ← analyze_bind_syntax bs (if recp then c2 else c) c2 true;
      match r with Some e => mret (E e) | None => analyze_seq c2 body depth 1 end
  | _ => mret (compile_error "bad let(rec)-syntax" x)
  end.
End forms.

Definition SEXP_MAX_ANALYZE_DEPTH : Z := 8192.

Definition is_macro (b : option binding) : bool := match b with Some (BMacro _) => true | _ => false end.

Definition has_pair (x : form) : bool := pairp x || match x with Synclo _ _ _ e => pairp e | _ => false end.

Definition closure_context (c : context) (scope : env) (fv : form) (s : state) : context * state :=
  let items := match fv with Cons _ _ => omap (fun x => FvName <$> word_of x) (items fv) ++ FvEnv (context_env c) :: context_fv c
               | _ => context_fv c end in
  let c2 := Context (context_env c) (context_lambda c) items in
  let '(e, s) := sexp_extend_synclo_env c2 scope s in
  (Context e (context_lambda c) items, s).

(** From the label [loop] on, where [depth] has been increased. *)
Fixpoint analyze_loop (fuel : nat) (c : context) (x : form) (depth defok : Z) {struct fuel} : M res :=
  match fuel with
  | O => fun _ => Out_of_fuel
  | S fuel =>
      let an c x depth defok :=
        if SEXP_MAX_ANALYZE_DEPTH <? depth + 1 then mret (compile_error "SEXP_MAX_ANALYZE_DEPTH exceeded" x)
        else analyze_loop fuel c x (depth + 1) defok in
      let lambda := analyze_lambda fuel in
      match x with
      | Cons a d =>
          cell ← gets (fun s => if sexp_idp a then sexp_env_cell s (context_fv c) (context_env c) a false else None);
          b ← gets (fun s => (fun i => cell_value (get_cell s i)) <$> cell);
          if negb (sexp_listp x) && negb (is_macro b) then mret (compile_error "dotted list in source" x)
          else if sexp_idp a then
            match b with
            | None =>
                r ← analyze_app an c x depth;
                match r with
                | T _ => mret tt
                | E _ =>
                    sexp_warn "exception inside undefined operator: " a;;
                    if bool_decide (length (context_env c) = 1%nat) then sexp_warn "did you forget to import a language? e.g. (import (scheme base))" (Atom SEXP_UNDEF)
                    else mret tt
                end;;
                mret r
            | Some (BCore op) =>
                match op with
                | SEXP_CORE_DEFINE =>
                    (if defok <? 0 then sexp_warn "out of order define: " x else mret tt);;
                    if defok =? 0 then mret (compile_error "unexpected define" x) else analyze_define an lambda c x depth
                | SEXP_CORE_SET =>
                    r ← analyze_set an c x depth;
                    match r with inl r => mret r | inr y => analyze_loop fuel c y depth defok end
                | SEXP_CORE_LAMBDA => lambda c x depth
                | SEXP_CORE_IF => analyze_if an c x depth
                | SEXP_CORE_BEGIN => analyze_seq an c d depth defok
                | SEXP_CORE_QUOTE =>
                    mret (match d with Cons y (Atom SEXP_NULL) => T (TLit (sexp_strip_synclos y)) | _ => compile_error "bad quote form" x end)
                | SEXP_CORE_SYNTAX_QUOTE =>
                    mret (match d with Cons y (Atom SEXP_NULL) => T (TLit y) | _ => compile_error "bad quote form" x end)
                | SEXP_CORE_DEFINE_SYNTAX =>
                    (if defok <? 0 then sexp_warn "out of order define-syntax: " x else mret tt);;
                    if defok =? 0 then mret (compile_error "unexpected define-syntax" x) else analyze_define_syntax c x
                | SEXP_CORE_LET_SYNTAX => analyze_let_syntax_aux an c x false depth
                | SEXP_CORE_LETREC_SYNTAX => analyze_let_syntax_aux an c x true depth
                end
            | Some (BMacro m) =>
                y ← analyze_macro_once c x m;
                match y with inl y => analyze_loop fuel c y depth defok | inr e => mret (E e) end
            | Some (BOpcode w op) =>
                let n := Z.of_nat (length (items d)) in
                let few := n <? op_num_args op in
                let many := (op_num_args op <? n) && negb (Z.testbit (op_flags op) 0) in
                f ← (if few || many then
                       sexp_warn (if few then "not enough args for opcode: " else "too many args for opcode: ") x;;
                       r ← analyze_var_ref c a; mret (Some r)
                     else mret None);
                r ← analyze_list an c d 0 0;
                match r, f with
                | inr e, _ => mret (E e)
                | inl ts, None => mret (T (TOp w op ts))
                | inl ts, Some (inl (n, i, _)) => mret (T (TApp (TRef n (Some i)) ts))
                | inl _, Some (inr _) => crash
                end
            | Some _ => analyze_app an c x depth
            end
          else
            r ← analyze_app an c x depth;
            match r with
            | T _ => if has_pair a then mret tt else sexp_warn "invalid operator in application: " x
            | E _ => mret tt
            end;;
            mret r
      | _ =>
          if sexp_idp x then
            b ← gets (fun s => sexp_env_ref s (context_fv c) (context_env c) x);
            match b with
            | Some (BMacro m) =>
                y ← analyze_macro_once c x m;
                match y with inl y => analyze_loop fuel c y depth defok | inr e => mret (E e) end
            | _ => r ← analyze_var_ref c x; mret (match r with inl (n, i, _) => T (TRef n (Some i)) | inr e => E e end)
            end
          else match x with
               | Synclo _ scope fv expr => c2 ← run (closure_context c scope fv); an c2 expr depth defok
               | Atom SEXP_NULL => mret (compile_error "empty application in source" x)
               | _ => mret (T (TSelf (sexp_strip_synclos x)))
               end
      end
  end
with analyze_lambda (fuel : nat) (c : context) (x : form) (depth : Z) {struct fuel} : M res :=
  match fuel with
  | O => fun _ => Out_of_fuel
  | S fuel =>
      analyze_lambda_body
        (fun c x depth defok =>
           if SEXP_MAX_ANALYZE_DEPTH <? depth + 1 then mret (compile_error "SEXP_MAX_ANALYZE_DEPTH exceeded" x)
           else analyze_loop fuel c x (depth + 1) defok)
        (analyze_lambda fuel) c x depth
  end.

Definition analyze (fuel : nat) (c : context) (x : form) (depth defok : Z) : M res :=
  if SEXP_MAX_ANALYZE_DEPTH <? depth + 1 then mret (compile_error "SEXP_MAX_ANALYZE_DEPTH exceeded" x)
  else analyze_loop fuel c x (depth + 1) defok.

Definition sexp_analyze (fuel : nat) (c : context) (x : form) : M res := analyze fuel c x 0 1.
End analyze.
