(* ===== verification/Analysis.v ===== *)
(** * What the analyzer builds

    Without macros, [analyze] ends, never follows a null pointer, and gives trees
    that are scoped: every lambda has an identity of its own, and a reference
    goes past no lambda around it that has its name as a parameter, or had it as
    an internal definition when the analysis of the form began.  This file has
    the invariant of states and contexts and the meaning of [scoped]. *)
From S2P Require Import Prelude Heap Syntax Identifiers Analyze.
From stdpp Require Import base list option.
#[local] Open Scope Z_scope.

(** ** Computations that return *)

Definition wp {A} (m : M A) (s : state) (Q : A -> state -> Prop) : Prop :=
  match m s with Done a s' => Q a s' | _ => False end.

Section wp.
Context {A B : Type}.
Lemma wp_ret (a : A) s (Q : A -> state -> Prop) : Q a s -> wp (mret a) s Q.
Proof. auto. Qed.
Lemma wp_bind (m : M A) (k : A -> M B) s Q : wp m s (fun a s' => wp (k a) s' Q) -> wp (m ≫= k) s Q.
Proof. unfold wp, mbind, M_bind. destruct (m s); auto. Qed.
Lemma wp_mono (m : M A) s (P Q : A -> state -> Prop) : wp m s P -> (forall a s', P a s' -> Q a s') -> wp m s Q.
Proof. unfold wp. destruct (m s); auto. Qed.
Lemma wp_gets (f : state -> A) s Q : Q (f s) s -> wp (gets f) s Q.
Proof. auto. Qed.
Lemma wp_modify (f : state -> state) s Q : Q tt (f s) -> wp (modify f) s Q.
Proof. auto. Qed.
Lemma wp_run (f : state -> A * state) s Q : (let '(a, s') := f s in Q a s') -> wp (run f) s Q.
Proof. unfold wp, run. destruct (f s). auto. Qed.
End wp.

(** ** Forms without closures *)

(** Pairs and their ends; an atom or vector is one. *)
Fixpoint form_size (x : form) : nat := match x with Cons a d => S (form_size a + form_size d) | _ => 1%nat end.

Lemma form_size_pos x : (0 < form_size x)%nat.
Proof. destruct x; simpl; lia. Qed.

Lemma plain_id x : plain x = true -> sexp_id_name x = x.
Proof. destruct x; [reflexivity..|discriminate]. Qed.

Lemma plain_idp x : plain x = true -> sexp_idp x = true -> exists n, x = Atom (Symbol n).
Proof. unfold sexp_idp. intros Hp. rewrite plain_id by exact Hp. destruct x as [[]| | |]; try discriminate. eauto. Qed.

(** ** States without macros *)

Definition formals (l : lam) : list sexp := sexp_flatten_dot l.
Definition vars (l : lam) : list sexp := formals l ++ locals l.

(** The keywords that may be bound.  Without those that bind syntax there are no
    conditions on what the environments of a program hold and evaluate. *)
Class allowed := allows : core_form -> Prop.

Definition binds_syntax (op : core_form) : bool :=
  match op with SEXP_CORE_DEFINE_SYNTAX | SEXP_CORE_LET_SYNTAX | SEXP_CORE_LETREC_SYNTAX => true | _ => false end.

(** What a definition of syntax may be given. *)
Definition value_ok `{allowed} (b : binding) : Prop := match b with BCore op => allows op | BMacro _ => False | _ => True end.

(** What may be bound in a frame: in that of a lambda its variables and syntax,
    in a syntactic one syntax, in others no local variable. *)
Definition accepts `{allowed} (f : frame) (b : binding) : Prop :=
  match b with
  | BLambda l => env_lambda f = Some l
  | BCore op => allows op
  | BMacro _ => False
  | _ => env_lambda f = None /\ syntactic f = false
  end.

Record frame_ok `{allowed} (s : state) (f : frame) : Prop := {
  frame_cells : forall c, c ∈ bindings f -> (c < length (cells s))%nat /\ accepts f (cell_value (get_cell s c));
  frame_renames : forall r, r ∈ renames f -> (r < length (renamed s))%nat /\ env_lambda f = None /\ syntactic f = false /\
    ((renamed s !!! r).2 < length (cells s))%nat /\ accepts f (cell_value (get_cell s (renamed s !!! r).2));
  frame_lambda : forall l, env_lambda f = Some l -> (l < length (lams s))%nat /\ syntactic f = false
}.

Record state_ok `{allowed} (s : state) : Prop := {
  ok_frames : forall f, frame_ok s (get_frame s f);
  ok_own : forall f g c, c ∈ bindings (get_frame s f) -> c ∈ bindings (get_frame s g) -> f = g;
  ok_frame_of : forall f g l, env_lambda (get_frame s f) = Some l -> env_lambda (get_frame s g) = Some l -> f = g;
  ok_cells : forall c l, cell_value (get_cell s c) = BLambda l -> cell_key (get_cell s c) ∈ vars (get_lam s l);
  ok_vars : forall f l n, env_lambda (get_frame s f) = Some l -> n ∈ vars (get_lam s l) ->
    exists c, c ∈ bindings (get_frame s f) /\ cell_key (get_cell s c) = n
}.

Section allowed.
Context `{K : allowed}.

(** The lambdas around, the innermost one first. *)
Definition path (s : state) (e : env) : list nat := omap (fun f => env_lambda (get_frame s f)) e.

(** Frames of lambdas and of syntax, and then none of a lambda. *)
Fixpoint chain_ok (s : state) (e : env) : Prop :=
  match e with
  | [] => False
  | f :: e => (f < length (frames s))%nat /\
      (if bool_decide (is_Some (env_lambda (get_frame s f))) || syntactic (get_frame s f) then chain_ok s e
       else path s e = [] /\ Forall (fun f => (f < length (frames s))%nat) e)
  end.

Record context_ok (s : state) (c : context) : Prop := {
  context_no_fv : context_fv c = [];
  context_chain : chain_ok s (context_env c);
  context_inner : context_lambda c = head (path s (context_env c))
}.

(** ** Growing states *)

(** The frame has a binding of the name. *)
Definition has_name (s : state) (f : nat) (n : sexp) : Prop := exists c, c ∈ bindings (get_frame s f) /\ cell_key (get_cell s c) = n.

Record ext (s s' : state) : Prop := {
  ext_cells : (length (cells s) <= length (cells s'))%nat;
  ext_key : forall c, (c < length (cells s))%nat -> cell_key (get_cell s' c) = cell_key (get_cell s c);
  ext_local : forall c l, (c < length (cells s))%nat -> cell_value (get_cell s' c) = BLambda l <-> cell_value (get_cell s c) = BLambda l;
  ext_frames : (length (frames s) <= length (frames s'))%nat;
  ext_frame : forall f, (f < length (frames s))%nat ->
    env_lambda (get_frame s' f) = env_lambda (get_frame s f) /\ syntactic (get_frame s' f) = syntactic (get_frame s f);
  ext_lams : (length (lams s) <= length (lams s'))%nat;
  ext_lam : forall l, (l < length (lams s))%nat -> formals (get_lam s' l) = formals (get_lam s l) /\
    locals (get_lam s l) ⊆ locals (get_lam s' l) /\ sv (get_lam s l) ⊆ sv (get_lam s' l);
  ext_names : forall f n, (f < length (frames s))%nat -> has_name s f n -> has_name s' f n;
  ext_renamed : forall r, (r < length (renamed s))%nat -> (r < length (renamed s'))%nat /\ (renamed s' !!! r).2 = (renamed s !!! r).2
}.

#[export] Instance ext_preorder : PreOrder ext.
Proof.
  split.
  - intros s. split; done.
  - intros s1 s2 s3 [A1 A2 A3 A4 A5 A6 A7 A9 A8] [B1 B2 B3 B4 B5 B6 B7 B9 B8]. split; try lia.
    + intros c Hc. rewrite B2, A2 by lia. done.
    + intros c l Hc. rewrite B3, A3 by lia. done.
    + intros f Hf. destruct (A5 f Hf) as [<- <-]. apply B5. lia.
    + intros l Hl. destruct (A7 l Hl) as (<- & Ha & Hb), (B7 l) as (<- & Hc & Hd); [lia|]. split; [done|]. split; by etrans.
    + intros f n Hf Hn. apply B9; [lia|auto].
    + intros r Hr. destruct (A8 r Hr) as [Ha <-]. by apply B8.
Qed.

Lemma ext_vars s s' l : ext s s' -> (l < length (lams s))%nat -> vars (get_lam s l) ⊆ vars (get_lam s' l).
Proof. intros He Hl. destruct (ext_lam _ _ He l Hl) as (E & Hs & _). unfold vars. rewrite E. set_solver. Qed.

Lemma path_ext s s' e : ext s s' -> Forall (fun f => (f < length (frames s))%nat) e -> path s' e = path s e.
Proof.
  intros He. unfold path. induction 1 as [|f e Hf _ IH]; [reflexivity|]. cbn. destruct (ext_frame _ _ He f Hf) as [-> _]. by rewrite IH.
Qed.

Lemma chain_in s e : chain_ok s e -> Forall (fun f => (f < length (frames s))%nat) e.
Proof. induction e as [|f e IH]; cbn; [done|]. intros [Hf H]. constructor; [done|]. case_match; [auto | tauto]. Qed.

Lemma chain_ext s s' e : ext s s' -> chain_ok s e -> chain_ok s' e.
Proof.
  intros He. induction e as [|f e IH]; cbn; [done|]. intros [Hf H]. destruct (ext_frame _ _ He f Hf) as [-> ->].
  split; [pose proof (ext_frames _ _ He); lia|]. case_match; [auto|]. destruct H as [Hp Hin]. rewrite (path_ext s s') by done. split; [done|].
  eapply Forall_impl; [|exact Hin]. cbn. intros. pose proof (ext_frames _ _ He). lia.
Qed.

Lemma context_path s s' c : ext s s' -> context_ok s c -> path s' (context_env c) = path s (context_env c).
Proof. intros He [_ Hc _]. apply path_ext; [done|]. by apply chain_in. Qed.

Lemma context_ext s s' c : ext s s' -> context_ok s c -> context_ok s' c.
Proof.
  intros He Hc. pose proof (context_path _ _ _ He Hc) as Hp. destruct Hc as [H1 H2 H3]. split; [done | by eapply chain_ext | by rewrite Hp].
Qed.

(** The lambda whose local variable a cell holds. *)
Definition local_of (b : binding) : option nat := match b with BLambda l => Some l | _ => None end.

Lemma local_of_Some b l : local_of b = Some l <-> b = BLambda l.
Proof. destruct b; naive_solver. Qed.

(** ** Scoped trees *)

(** What the lambdas around are known to bind besides their parameters, when the
    analysis of a form begins: the internal definitions that have been made. *)
Definition defined (s : state) (l : nat) : list sexp := locals (get_lam s l).

Definition names (k : nat -> list sexp) (s : state) (l : nat) : list sexp := formals (get_lam s l) ++ k l.

(** The lambda [l] is on the path [p], and none inside of it is known to bind the
    name. *)
Definition innermost (k : nat -> list sexp) (s : state) (p : list nat) (n : sexp) (l : nat) : Prop :=
  exists p1 p2, p = p1 ++ l :: p2 /\ Forall (fun l' => n ∉ names k s l') p1.

(** The cell has been given other names. *)
Definition is_renamed (s : state) (c : nat) : Prop := exists r, (r < length (renamed s))%nat /\ (renamed s !!! r).2 = c.

Definition ref_ok (k : nat -> list sexp) (s : state) (p : list nat) (n : sexp) (c : nat) : Prop :=
  (c < length (cells s))%nat /\
  match local_of (cell_value (get_cell s c)) with
  | Some l => cell_key (get_cell s c) = n /\ innermost k s p n l
  | None => is_renamed s c \/ cell_key (get_cell s c) = n /\ Forall (fun l' => n ∉ names k s l') p
  end.

Fixpoint scoped (k : nat -> list sexp) (s : state) (p : list nat) (t : tree) : Prop :=
  let all := fix all (ts : list tree) := match ts with [] => True | t :: ts => scoped k s p t /\ all ts end in
  match t with
  | TLit _ | TSelf _ => True
  | TRef n (Some c) => ref_ok k s p n c
  | TSet n (Some c) v => ref_ok k s p n c /\ (forall l, cell_value (get_cell s c) = BLambda l -> n ∈ sv (get_lam s l)) /\ scoped k s p v
  | TRef _ None | TSet _ None _ => False
  | TCnd a b c => scoped k s p a /\ scoped k s p b /\ scoped k s p c
  | TSeq ts => ts <> [] /\ all ts
  | TLam l b => (l < length (lams s))%nat /\ scoped k s (l :: p) b
  | TApp f ts => scoped k s p f /\ all ts
  | TOp _ _ ts => all ts
  end.

Definition scoped_all (k : nat -> list sexp) (s : state) (p : list nat) : list tree -> Prop :=
  fix all (ts : list tree) := match ts with [] => True | t :: ts => scoped k s p t /\ all ts end.

Fixpoint tree_lambdas (t : tree) : list nat :=
  match t with
  | TLit _ | TSelf _ | TRef _ _ => []
  | TSet _ _ v => tree_lambdas v
  | TCnd a b c => tree_lambdas a ++ tree_lambdas b ++ tree_lambdas c
  | TSeq ts => flat_map tree_lambdas ts
  | TLam l b => l :: tree_lambdas b
  | TApp f ts => tree_lambdas f ++ flat_map tree_lambdas ts
  | TOp _ _ ts => flat_map tree_lambdas ts
  end.

Section tree_ind.
Variable P : tree -> Prop.
Hypothesis HLit : forall v, P (TLit v).
Hypothesis HSelf : forall v, P (TSelf v).
Hypothesis HRef : forall n c, P (TRef n c).
Hypothesis HSet : forall n c v, P v -> P (TSet n c v).
Hypothesis HCnd : forall a b c, P a -> P b -> P c -> P (TCnd a b c).
Hypothesis HSeq : forall ts, Forall P ts -> P (TSeq ts).
Hypothesis HLam : forall l b, P b -> P (TLam l b).
Hypothesis HApp : forall f ts, P f -> Forall P ts -> P (TApp f ts).
Hypothesis HOp : forall w o ts, Forall P ts -> P (TOp w o ts).

Fixpoint tree_ind' (t : tree) : P t :=
  let all := fix all (ts : list tree) : Forall P ts :=
    match ts with [] => Forall_nil_2 P | t :: ts => Forall_cons_2 P t ts (tree_ind' t) (all ts) end in
  match t with
  | TLit v => HLit v
  | TSelf v => HSelf v
  | TRef n c => HRef n c
  | TSet n c v => HSet n c v (tree_ind' v)
  | TCnd a b c => HCnd a b c (tree_ind' a) (tree_ind' b) (tree_ind' c)
  | TSeq ts => HSeq ts (all ts)
  | TLam l b => HLam l b (tree_ind' b)
  | TApp f ts => HApp f ts (tree_ind' f) (all ts)
  | TOp w o ts => HOp w o ts (all ts)
  end.
End tree_ind.

Lemma scoped_seq k s p ts : scoped k s p (TSeq ts) <-> ts <> [] /\ scoped_all k s p ts.
Proof. reflexivity. Qed.
Lemma scoped_app k s p f ts : scoped k s p (TApp f ts) <-> scoped k s p f /\ scoped_all k s p ts.
Proof. reflexivity. Qed.
Lemma scoped_op k s p w o ts : scoped k s p (TOp w o ts) <-> scoped_all k s p ts.
Proof. reflexivity. Qed.

Lemma scoped_all_app k s p ts ts' : scoped_all k s p (ts ++ ts') <-> scoped_all k s p ts /\ scoped_all k s p ts'.
Proof. induction ts; cbn; tauto. Qed.

Lemma scoped_all_impl k k' s s' p ts : Forall (fun t => scoped k s p t -> scoped k' s' p t) ts -> scoped_all k s p ts -> scoped_all k' s' p ts.
Proof. induction 1 as [|t ts Ht _ IH]; [done|]. intros [H1 H2]. split; [by apply Ht | by apply IH]. Qed.

Lemma names_ext k s s' p n : ext s s' -> Forall (fun l => (l < length (lams s))%nat) p ->
  Forall (fun l => n ∉ names k s l) p -> Forall (fun l => n ∉ names k s' l) p.
Proof.
  intros He Hp H. rewrite Forall_forall in *. intros l Hl. unfold names. destruct (ext_lam _ _ He l (Hp l Hl)) as [-> _]. by apply H.
Qed.

Lemma ext_local_of s s' c : ext s s' -> (c < length (cells s))%nat -> local_of (cell_value (get_cell s' c)) = local_of (cell_value (get_cell s c)).
Proof.
  intros He Hc. apply option_eq. intros l. rewrite !local_of_Some. by apply ext_local.
Qed.

Lemma ref_ok_ext k s s' p n c : ext s s' -> Forall (fun l => (l < length (lams s))%nat) p -> ref_ok k s p n c -> ref_ok k s' p n c.
Proof.
  intros He Hp (Hc & Hv). split; [pose proof (ext_cells _ _ He); lia|].
  rewrite (ext_local_of s s'), (ext_key _ _ He) by done. destruct (local_of _) as [l|].
  2: { destruct Hv as [(r & Hr & Er)|[Hk Hv]]; [left|right; split; [done|by apply (names_ext k s)]]. exists r. destruct (ext_renamed _ _ He r Hr). split; [done|congruence]. }
  destruct Hv as [Hk Hv]. split; [done|]. destruct Hv as (p1 & p2 & -> & Hn). exists p1, p2. split; [done|]. apply Forall_app in Hp as [Hp _]. by apply (names_ext k s).
Qed.

Lemma scoped_ext k s s' t : ext s s' -> forall p, Forall (fun l => (l < length (lams s))%nat) p -> state_ok s -> scoped k s p t -> scoped k s' p t.
Proof.
  intros He. induction t using tree_ind'; intros p Hp Hs.
  - done.
  - done.
  - cbn. destruct c; [by apply ref_ok_ext | done].
  - cbn. destruct c as [c|]; [|done]. intros (Hr & Hv & Ht). split; [by eapply ref_ok_ext|]. split; [|by apply IHt].
    destruct Hr as (Hc & Hm). intros l Hl. apply (ext_local _ _ He) in Hl; [|done]. specialize (Hv l Hl). rewrite (proj2 (local_of_Some _ l) Hl) in Hm.
    destruct Hm as (_ & p1 & p2 & -> & _). apply Forall_app in Hp as [_ Hp]. apply Forall_cons_1 in Hp as [Hp _].
    destruct (ext_lam _ _ He l Hp) as (_ & _ & Hsv). by apply Hsv.
  - cbn. intros (H1 & H2 & H3). split_and!; auto.
  - rewrite !scoped_seq. intros [Hn Ha]. split; [done|]. revert Ha. apply scoped_all_impl. eapply Forall_impl; [|exact H]. eauto.
  - cbn. intros [Hl Hb]. split; [pose proof (ext_lams _ _ He); lia|]. apply IHt; [by constructor|done|done].
  - rewrite !scoped_app. intros [Hf Ha]. split; [auto|]. revert Ha. apply scoped_all_impl. eapply Forall_impl; [|exact H]. eauto.
  - rewrite !scoped_op. apply scoped_all_impl. eapply Forall_impl; [|exact H]. eauto.
Qed.

Lemma scoped_all_ext k s s' p ts : ext s s' -> Forall (fun l => (l < length (lams s))%nat) p -> state_ok s -> scoped_all k s p ts -> scoped_all k s' p ts.
Proof. intros He Hp Hs. induction ts as [|t ts IH]; [done|]. intros [Ht Hts]. split; [by eapply scoped_ext | auto]. Qed.

(** Who knows of more definitions says more. *)
Section knowing.
Context (k k' : nat -> list sexp) (s : state) (Hk : forall l, k l ⊆ k' l).

Lemma names_less n p : Forall (fun l => n ∉ names k' s l) p -> Forall (fun l => n ∉ names k s l) p.
Proof using Hk. apply Forall_impl. intros l. unfold names. specialize (Hk l). set_solver. Qed.

Lemma ref_ok_less p n c : ref_ok k' s p n c -> ref_ok k s p n c.
Proof using Hk.
  intros [Hc Hr]. split; [done|]. destruct (local_of _).
  - destruct Hr as [Hn (p1 & p2 & -> & Hp)]. split; [done|]. exists p1, p2. split; [done|]. by apply names_less.
  - destruct Hr as [Hr|[Hn Hp]]; [by left|right]. split; [done|]. by apply names_less.
Qed.

Lemma scoped_less t : forall p, scoped k' s p t -> scoped k s p t.
Proof using Hk.
  induction t using tree_ind'; intros p.
  - done.
  - done.
  - cbn. destruct c; [apply ref_ok_less | done].
  - cbn. destruct c; [|done]. intros (Hr & Hv & Ht). split; [by apply ref_ok_less|]. auto.
  - cbn. intros (H1 & H2 & H3). auto.
  - rewrite !scoped_seq. intros [Hn Ha]. split; [done|]. revert Ha. apply scoped_all_impl. eapply Forall_impl; [|exact H]. eauto.
  - cbn. intros [Hl Hb]. auto.
  - rewrite !scoped_app. intros [Hf Ha]. split; [auto|]. revert Ha. apply scoped_all_impl. eapply Forall_impl; [|exact H]. eauto.
  - rewrite !scoped_op. apply scoped_all_impl. eapply Forall_impl; [|exact H]. eauto.
Qed.

Lemma scoped_all_less p ts : scoped_all k' s p ts -> scoped_all k s p ts.
Proof using Hk. apply scoped_all_impl. apply Forall_true. intros t. apply scoped_less. Qed.
End knowing.

(** ** Steps of the state *)

Definition same_defs (s s' : state) : Prop := forall l, (l < length (lams s))%nat -> defs (get_lam s' l) = defs (get_lam s l).

(** A step that keeps the invariant and the delayed definitions. *)
Definition quiet (s s' : state) : Prop := state_ok s -> state_ok s' /\ ext s s' /\ same_defs s s'.

#[export] Instance quiet_preorder : PreOrder quiet.
Proof.
  split; [done|]. intros s1 s2 s3 H12 H23 H1. destruct (H12 H1) as (H2 & He & Hd), (H23 H2) as (H3 & He' & Hd').
  split; [done|]. split; [by etrans|]. intros l Hl. rewrite Hd', Hd by (pose proof (ext_lams _ _ He); lia). done.
Qed.

Lemma total_app_l {A} `{Inhabited A} (l k : list A) i : (i < length l)%nat -> (l ++ k) !!! i = l !!! i.
Proof. intros Hi. rewrite !list_lookup_total_alt, lookup_app_l by done. done. Qed.

Lemma total_app_r {A} `{Inhabited A} (l : list A) x : (l ++ [x]) !!! length l = x.
Proof. rewrite list_lookup_total_alt, lookup_app_r, Nat.sub_diag by done. done. Qed.

Lemma total_insert {A} `{Inhabited A} (l : list A) i j x : (i < length l)%nat -> <[i := x]> l !!! j = if decide (j = i) then x else l !!! j.
Proof.
  intros Hi. case_decide as E; [subst; rewrite list_lookup_total_insert_eq by done; done | rewrite list_lookup_total_insert_ne by done; done].
Qed.

Lemma total_out {A} `{Inhabited A} (l : list A) i : (length l <= i)%nat -> l !!! i = inhabitant.
Proof. intros Hi. by rewrite list_lookup_total_alt, lookup_ge_None_2. Qed.

Lemma get_cell_out s c : (length (cells s) <= c)%nat -> get_cell s c = Cell SEXP_FALSE (BValue SEXP_UNDEF) false.
Proof. exact (total_out (cells s) c). Qed.

Lemma defined_ext s s' : ext s s' -> forall l, defined s l ⊆ defined s' l.
Proof.
  intros He l. unfold defined. destruct (decide (l < length (lams s))%nat) as [Hl|Hl]; [by destruct (ext_lam _ _ He l Hl) as (_ & ? & _)|].
  assert (get_lam s l = inhabitant) as -> by (apply (total_out (lams s) l); lia). cbn. set_solver.
Qed.

Lemma get_frame_out s f : (length (frames s) <= f)%nat -> get_frame s f = Frame [] [] None false false.
Proof. exact (total_out (frames s) f). Qed.

(** *** A new cell *)

Section push.
Variable (f : nat) (key : sexp) (value : binding) (s : state).
Let s' := sexp_env_push f key value s.
Hypothesis Hf : (f < length (frames s))%nat.

Lemma push_cell c : (c < length (cells s))%nat -> get_cell s' c = get_cell s c.
Proof. intros Hc. exact (total_app_l _ _ _ Hc). Qed.

Lemma push_new : get_cell s' (length (cells s)) = Cell key value false.
Proof. exact (total_app_r (cells s) _). Qed.

Lemma push_frame g : get_frame s' g = if decide (g = f) then with_bindings (length (cells s) :: bindings (get_frame s f)) (get_frame s f) else get_frame s g.
Proof. exact (total_insert (frames s) f g _ Hf). Qed.

Lemma push_lams : lams s' = lams s.
Proof. reflexivity. Qed.

Lemma push_bindings g c : c ∈ bindings (get_frame s' g) <-> c ∈ bindings (get_frame s g) \/ (g = f /\ c = length (cells s)).
Proof.
  rewrite push_frame. case_decide as E; [|naive_solver]. subst g. cbn [with_bindings bindings]. rewrite elem_of_cons. naive_solver.
Qed.

Lemma push_shape g : env_lambda (get_frame s' g) = env_lambda (get_frame s g) /\ syntactic (get_frame s' g) = syntactic (get_frame s g) /\
  renames (get_frame s' g) = renames (get_frame s g).
Proof. rewrite push_frame. case_decide; [by subst|done]. Qed.
End push.

Lemma accepts_shape f g b : env_lambda g = env_lambda f -> syntactic g = syntactic f -> accepts f b -> accepts g b.
Proof. intros H1 H2. destruct b; cbn; rewrite ?H1, ?H2; done. Qed.

Lemma push_ext f key value s : state_ok s -> (f < length (frames s))%nat -> ext s (sexp_env_push f key value s).
Proof.
  intros Hs Hf. split.
  - cbn. rewrite length_app. lia.
  - intros c Hc. by rewrite push_cell.
  - intros c l Hc. by rewrite push_cell.
  - cbn. rewrite length_insert. lia.
  - intros g _. destruct (push_shape f key value s Hf g) as (H1 & H2 & _). done.
  - done.
  - intros l _. done.
  - intros g n _ (c & Hc & Hk). exists c. split; [apply push_bindings; auto|]. rewrite push_cell; [done|]. by destruct (frame_cells _ _ (ok_frames _ Hs g) c Hc).
  - done.
Qed.

(** What a push does to the frames, whatever it does to the variables. *)
Lemma push_frames_ok f key value s : state_ok s -> (f < length (frames s))%nat -> accepts (get_frame s f) value ->
  let s' := sexp_env_push f key value s in
  (forall g, frame_ok s' (get_frame s' g)) /\ (forall g h c, c ∈ bindings (get_frame s' g) -> c ∈ bindings (get_frame s' h) -> g = h).
Proof.
  intros Hs Hf Ha s'. assert (Hlen : (length (cells s') = S (length (cells s)))%nat) by (unfold s'; cbn; rewrite length_app; simpl; lia).
  assert (Hold : forall c, (c < length (cells s))%nat -> get_cell s' c = get_cell s c) by (intros; by apply push_cell). split.
  - intros g. destruct (ok_frames _ Hs g) as [Hc Hr Hl]. destruct (push_shape f key value s Hf g) as (E1 & E2 & E3). fold s' in E1, E2, E3. split.
    + intros c [Hin|[-> ->]]%push_bindings; [|split; [lia|]; unfold s'; rewrite push_new; by apply (accepts_shape (get_frame s f))|done].
      destruct (Hc c Hin) as [Hlt Hacc]. split; [lia|]. rewrite Hold by done. by apply (accepts_shape (get_frame s g)).
    + intros r. rewrite E3, E1, E2. intros Hin. destruct (Hr r Hin) as (H0 & H1 & H2 & H3 & H4). change (renamed s') with (renamed s). split_and!; [done..|lia|].
      rewrite Hold by done. by apply (accepts_shape (get_frame s g)).
    + rewrite E1, E2. exact Hl.
  - intros g h c Hg Hh. apply push_bindings in Hg, Hh; [|done..].
    assert (forall k, c ∈ bindings (get_frame s k) -> c <> length (cells s)) as Hne.
    { intros k Hin. destruct (frame_cells _ _ (ok_frames _ Hs k) c Hin). lia. }
    destruct Hg as [Hg|[-> Eg]], Hh as [Hh|[-> Eh]]; [by eapply (ok_own _ Hs)| | |done]; exfalso; subst; by eapply Hne.
Qed.

Lemma push_quiet f key value s : (f < length (frames s))%nat -> accepts (get_frame s f) value ->
  (forall l, value = BLambda l -> key ∈ vars (get_lam s l)) -> quiet s (sexp_env_push f key value s).
Proof.
  intros Hf Ha Hv Hs. split; [|split; [by apply push_ext|done]]. destruct (push_frames_ok f key value s Hs Hf Ha) as [H1 H2].
  split; [exact H1|exact H2| | |].
  - intros g h l. destruct (push_shape f key value s Hf g) as (-> & _), (push_shape f key value s Hf h) as (-> & _). apply (ok_frame_of _ Hs).
  - intros c l. destruct (decide (c < length (cells s))%nat) as [Hc|Hc].
    + rewrite push_cell by done. apply (ok_cells _ Hs).
    + destruct (decide (c = length (cells s))) as [->|Hne]; [rewrite push_new; exact (Hv l)|].
      rewrite get_cell_out by (cbn; rewrite length_app; simpl; lia). discriminate.
  - intros g l n. destruct (push_shape f key value s Hf g) as (E1 & _). rewrite E1. intros El Hn. destruct (ok_vars _ Hs g l n El Hn) as (c & Hc & Hk).
    exists c. split; [apply push_bindings; auto|]. rewrite push_cell; [done|]. by destruct (frame_cells _ _ (ok_frames _ Hs g) c Hc).
Qed.

(** *** Values and names *)

Lemma set_value_cell s c b i : (c < length (cells s))%nat ->
  get_cell (set_value c b s) i = if decide (i = c) then Cell (cell_key (get_cell s c)) b (cell_immutable (get_cell s c)) else get_cell s i.
Proof. intros Hc. exact (total_insert (cells s) c i _ Hc). Qed.

(** The cell can be reached from the frame. *)
Definition holds_cell (s : state) (f : frame) (c : nat) : Prop :=
  c ∈ bindings f \/ exists r, r ∈ renames f /\ (renamed s !!! r).2 = c.

Lemma holds_accepts s f c : frame_ok s f -> holds_cell s f c -> (c < length (cells s))%nat /\ accepts f (cell_value (get_cell s c)).
Proof. intros [H1 H2 _] [Hc|(r & Hr & <-)]; [auto|]. destruct (H2 r Hr) as (_ & _ & _ & ? & ?). auto. Qed.

Lemma set_value_quiet c b s : (c < length (cells s))%nat -> local_of (cell_value (get_cell s c)) = None -> local_of b = None ->
  (forall f, holds_cell s (get_frame s f) c -> accepts (get_frame s f) b) -> quiet s (set_value c b s).
Proof.
  intros Hc Hold Hnew Hacc Hs.
  assert (Hkey : forall i, cell_key (get_cell (set_value c b s) i) = cell_key (get_cell s i)).
  { intros i. rewrite set_value_cell by done. case_decide; [by subst|done]. }
  assert (Hval : forall i, cell_value (get_cell (set_value c b s) i) = if decide (i = c) then b else cell_value (get_cell s i)).
  { intros i. rewrite set_value_cell by done. by case_decide. }
  assert (Hlen : length (cells (set_value c b s)) = length (cells s)) by (cbn; apply length_insert).
  split; [split|split; [split|]].
  - intros f. destruct (ok_frames _ Hs f) as [H1 H2 H3]. split; [| |exact H3].
    + intros i Hi. rewrite Hlen, Hval. destruct (H1 i Hi) as [Hlt Ha]. split; [done|]. case_decide; [|done]. subst. apply Hacc. by left.
    + intros r Hr. rewrite Hlen, Hval. destruct (H2 r Hr) as (E0 & E1 & E2 & Hlt & Ha). split_and!; [done..|]. case_decide; [|done]. apply Hacc. right. eauto.
  - exact (ok_own _ Hs).
  - exact (ok_frame_of _ Hs).
  - intros i l. rewrite Hkey, Hval. case_decide; [|apply (ok_cells _ Hs)]. intros ->. discriminate.
  - intros f l n El Hn. destruct (ok_vars _ Hs f l n El Hn) as (i & Hi & Hk). exists i. by rewrite Hkey.
  - by rewrite Hlen.
  - intros i _. apply Hkey.
  - intros i l _. rewrite Hval. case_decide; [|done]. subst. split; [intros ->; discriminate|]. intros E. by rewrite E in Hold.
  - done.
  - done.
  - done.
  - done.
  - intros f n _ (i & Hi & Hk). exists i. by rewrite Hkey.
  - done.
  - done.
Qed.

Lemma remove_rename_quiet f key s : quiet s (remove_rename f key s).
Proof.
  unfold remove_rename. destruct (find _ _) as [r|] eqn:E; [|done]. intros Hs.
  set (s' := State _ _ _ _ _).
  assert (Hr : forall i, (renamed s' !!! i).2 = (renamed s !!! i).2).
  { intros i. unfold s'. cbn [renamed]. destruct (decide (r < length (renamed s))%nat).
    - rewrite total_insert by done. case_decide; [by subst|done].
    - rewrite list_insert_ge by lia. done. }
  assert (Hlen : length (renamed s') = length (renamed s)) by (unfold s'; apply length_insert).
  split; [|split; [split; try done; intros i; by rewrite Hr, Hlen|done]]. destruct Hs as [H1 H2 H2' H3 H4]. split; [|done..].
  intros g. destruct (H1 g) as [A1 A2 A3]. split; [exact A1| |exact A3]. intros i Hi. rewrite Hr, Hlen. exact (A2 i Hi).
Qed.

(** *** Lambdas *)

Lemma set_lam_quiet l y s : (l < length (lams s))%nat -> formals y = formals (get_lam s l) -> locals y = locals (get_lam s l) ->
  sv (get_lam s l) ⊆ sv y -> defs y = defs (get_lam s l) -> quiet s (set_lam l y s).
Proof.
  intros Hl Hf Hlo Hsv Hd Hs.
  assert (Hget : forall i, get_lam (set_lam l y s) i = if decide (i = l) then y else get_lam s i) by (intros i; exact (total_insert (lams s) l i y Hl)).
  assert (Hlen : length (lams (set_lam l y s)) = length (lams s)) by (cbn; apply length_insert).
  assert (Hv : forall i, vars (get_lam (set_lam l y s) i) = vars (get_lam s i)).
  { intros i. rewrite Hget. case_decide; [|done]. subst. unfold vars. by rewrite Hf, Hlo. }
  split; [|split; [split|]].
  - destruct Hs as [H1 H2 H2' H3 H4]. split; [|exact H2|exact H2'| |].
    + intros g. destruct (H1 g) as [A1 A2 A3]. split; [exact A1|exact A2|]. rewrite Hlen. exact A3.
    + intros c i. rewrite Hv. apply H3.
    + intros g i n. rewrite Hv. apply H4.
  - done.
  - done.
  - done.
  - done.
  - done.
  - rewrite Hlen. lia.
  - intros i _. rewrite Hget. case_decide; [subst; rewrite Hf, Hlo|]; split_and!; done.
  - done.
  - done.
  - intros i _. rewrite Hget. case_decide; [by subst|done].
Qed.

Lemma insert_sv_quiet l x s : (l < length (lams s))%nat -> quiet s (insert_sv l x s) /\ x ∈ sv (get_lam (insert_sv l x s) l).
Proof.
  intros Hl. unfold insert_sv, sexp_insert. split.
  - apply set_lam_quiet; cbn [sv defs locals]; [done|done|done| |done]. case_bool_decide; set_solver.
  - unfold get_lam at 1. cbn [lams set_lam]. rewrite total_insert by done. rewrite decide_True by done. cbn [sv]. case_bool_decide; set_solver.
Qed.

Lemma name_lambda_quiet name t s : (forall l b, t = TLam l b -> (l < length (lams s))%nat) -> quiet s (name_lambda name t s).
Proof. intros Hl. destruct t; try done. apply set_lam_quiet; [by eapply Hl|done..]. Qed.

Lemma name_operands_quiet ps : forall args s, Forall (fun t => forall l b, t = TLam l b -> (l < length (lams s))%nat) args -> quiet s (name_operands ps args s).
Proof.
  induction ps as [|p ps IH]; intros [|a args] s Hargs; try done. cbn [name_operands]. apply Forall_cons_1 in Hargs as [Ha Hargs].
  etrans; [exact (name_lambda_quiet p a s Ha)|]. apply IH. eapply Forall_impl; [|exact Hargs].
  intros t Ht l b ->. specialize (Ht l b eq_refl). destruct a; cbn [name_lambda]; try done. cbn [set_lam lams]. by rewrite length_insert.
Qed.

Lemma warn_quiet m x s : quiet s (State (cells s) (renamed s) (frames s) (lams s) ((m, x) :: warned s)).
Proof. intros [H1 H2 H2' H3 H4]. split; [|split; [split; done|done]]. split; [|done..]. intros f. destruct (H1 f) as [A1 A2 A3]. by split. Qed.

(** *** Syntax in place of a variable *)

Lemma unlink_cons p c x y bs : unlink p c (x :: y :: bs) = if bool_decide (x = p) && bool_decide (y = c) then x :: bs else x :: unlink p c (y :: bs).
Proof. reflexivity. Qed.

Lemma unlink_in p c bs i : i ∈ unlink p c bs -> i ∈ bs.
Proof.
  induction bs as [|x [|y bs] IH]; [done|done|]. rewrite unlink_cons. case_match eqn:E; [set_solver|].
  intros [->|Hi]%elem_of_cons; [by left|]. right. auto.
Qed.

Lemma unlink_keeps p c bs i : i ∈ bs -> i <> c -> i ∈ unlink p c bs.
Proof.
  intros Hi Hne. induction bs as [|x [|y bs] IH]; [done|done|]. rewrite unlink_cons. case_match eqn:E.
  - apply andb_true_iff in E as [_ E%bool_decide_eq_true]. set_solver.
  - apply elem_of_cons in Hi as [->|Hi]; [by left|]. right. auto.
Qed.

Lemma unlink_other p c bs : p ∉ bs -> unlink p c bs = bs.
Proof.
  induction bs as [|x [|y bs] IH]; [done|done|]. intros Hp. rewrite unlink_cons, (bool_decide_false (x = p)) by set_solver. cbn [andb].
  rewrite IH by set_solver. done.
Qed.

Lemma undefine_loop_in s key ls1 bs p c : undefine_loop s key ls1 bs = Some (p, c) -> p ∈ ls1 :: bs /\ cell_key (get_cell s c) = key.
Proof.
  revert ls1. induction bs as [|x bs IH]; intros ls1; [done|]. cbn [undefine_loop]. case_bool_decide.
  - intros [= <- <-]. split; [left|done].
  - intros H'. destruct (IH _ H'). split; [by right|done].
Qed.

(** Only bindings of the key go, and only from the frame. *)
Lemma undefine_spec f key s : state_ok s -> (f < length (frames s))%nat ->
  let s' := sexp_env_undefine f key s in
  cells s' = cells s /\ renamed s' = renamed s /\ lams s' = lams s /\ length (frames s') = length (frames s) /\
  forall g, env_lambda (get_frame s' g) = env_lambda (get_frame s g) /\ syntactic (get_frame s' g) = syntactic (get_frame s g) /\
    renames (get_frame s' g) = renames (get_frame s g) /\
    (forall c, c ∈ bindings (get_frame s' g) -> c ∈ bindings (get_frame s g)) /\
    (forall c, c ∈ bindings (get_frame s g) -> (g = f /\ cell_key (get_cell s c) = key) \/ c ∈ bindings (get_frame s' g)).
Proof.
  intros Hs Hf. unfold sexp_env_undefine. destruct (bindings (get_frame s f)) as [|c bs] eqn:Eb; [cbn; split_and!; eauto 10|].
  case_bool_decide as Ek.
  - set (s' := set_frame f _ s). assert (forall g, get_frame s' g = if decide (g = f) then with_bindings bs (get_frame s f) else get_frame s g) as Hg by (intros g; exact (total_insert (frames s) f g _ Hf)).
    split_and!; try done; [cbn; apply length_insert|]. intros g. rewrite Hg. case_decide; [|split_and!; auto]. subst g.
    cbn [with_bindings env_lambda syntactic renames bindings]. rewrite Eb. split_and!; [done..|set_solver|]. intros i [->|Hi]%elem_of_cons; auto.
  - destruct (undefine_loop s key c bs) as [[p c']|] eqn:Eu; [|cbn; split_and!; eauto 10].
    destruct (undefine_loop_in _ _ _ _ _ _ Eu) as [Hp Hk]. cbn. split_and!; try done; [apply length_fmap|]. intros g.
    set (s' := State _ _ _ _ _).
    assert (get_frame s' g = with_bindings (unlink p c' (bindings (get_frame s g))) (get_frame s g)) as ->.
    { unfold get_frame, s'. cbn [frames]. rewrite !list_lookup_total_alt, list_lookup_fmap. by destruct (frames s !! g). }
    cbn [with_bindings env_lambda syntactic renames bindings]. split_and!; [done..|apply unlink_in|]. intros i Hi.
    destruct (decide (g = f)) as [->|Hne].
    + destruct (decide (i = c')) as [->|]; [by left|]. right. by apply unlink_keeps.
    + right. rewrite unlink_other; [done|]. intros Hpg. apply Hne. eapply (ok_own _ Hs); [exact Hpg|]. by rewrite Eb.
Qed.

Lemma redefine_quiet f key op s : (f < length (frames s))%nat -> allows op -> quiet s (sexp_env_push f key (BCore op) (sexp_env_undefine f key s)).
Proof.
  intros Hf Hop Hs. destruct (undefine_spec f key s Hs Hf) as (Ec & Er & El & Elen & Hsp). set (s1 := sexp_env_undefine f key s) in *.
  assert (Hf1 : (f < length (frames s1))%nat) by lia.
  assert (Hcell : forall c, get_cell s1 c = get_cell s c) by (intros; unfold get_cell; by rewrite Ec).
  assert (Hlam : forall l, get_lam s1 l = get_lam s l) by (intros; unfold get_lam; by rewrite El).
  assert (Hold : forall c, (c < length (cells s))%nat -> get_cell (sexp_env_push f key (BCore op) s1) c = get_cell s c) by (intros; rewrite push_cell, Hcell by (rewrite ?Ec; done); done).
  assert (Hlen : length (cells (sexp_env_push f key (BCore op) s1)) = S (length (cells s))) by (cbn; rewrite length_app, Ec; simpl; lia).
  split; [split|split; [split|]].
  - intros g. destruct (Hsp g) as (E1 & E2 & E3 & Hsub & _). destruct (push_shape f key (BCore op) s1 Hf1 g) as (F1 & F2 & F3).
    destruct (ok_frames _ Hs g) as [H1 H2 H3]. split.
    + intros c [Hin|[-> ->]]%push_bindings; [| |done].
      * destruct (H1 c (Hsub c Hin)) as [Hlt Ha]. rewrite Hold, Hlen by done. split; [lia|]. eapply accepts_shape; [..|exact Ha]; congruence.
      * rewrite push_new, Hlen, Ec. split; [lia|done].
    + intros r. rewrite F1, F2, F3, E1, E2, E3. intros Hr. change (renamed (sexp_env_push f key (BCore op) s1)) with (renamed s1). rewrite Er.
      destruct (H2 r Hr) as (A0 & A1 & A2 & A3 & A4). rewrite Hold, Hlen by done. split_and!; [done|done|done|lia|]. eapply accepts_shape; [..|exact A4]; congruence.
    + rewrite F1, F2, E1, E2. change (lams (sexp_env_push f key (BCore op) s1)) with (lams s1). rewrite El. exact H3.
  - intros g h c Hg Hh. apply push_bindings in Hg, Hh; [|done..].
    assert (forall k, c ∈ bindings (get_frame s1 k) -> c <> length (cells s1)) as Hne.
    { intros k Hin. destruct (Hsp k) as (_ & _ & _ & Hsub & _). destruct (frame_cells _ _ (ok_frames _ Hs k) c (Hsub c Hin)). rewrite Ec. lia. }
    destruct Hg as [Hg|[-> Eg]], Hh as [Hh|[-> Eh]]; [|exfalso; subst; by eapply Hne..|done].
    destruct (Hsp g) as (_ & _ & _ & Sg & _), (Hsp h) as (_ & _ & _ & Sh & _). eapply (ok_own _ Hs); eauto.
  - intros g h l. destruct (push_shape f key (BCore op) s1 Hf1 g) as (-> & _), (push_shape f key (BCore op) s1 Hf1 h) as (-> & _).
    destruct (Hsp g) as (-> & _), (Hsp h) as (-> & _). apply (ok_frame_of _ Hs).
  - intros c l. change (get_lam (sexp_env_push f key (BCore op) s1) l) with (get_lam s1 l). rewrite Hlam. destruct (decide (c < length (cells s))%nat) as [Hc|Hc].
    + rewrite Hold by done. apply (ok_cells _ Hs).
    + destruct (decide (c = length (cells s1))) as [->|Hne]; [rewrite push_new; discriminate|].
      rewrite get_cell_out by (rewrite Hlen, Ec in *; lia). discriminate.
  - intros g l n. change (get_lam (sexp_env_push f key (BCore op) s1) l) with (get_lam s1 l). rewrite Hlam.
    destruct (Hsp g) as (E1 & _ & _ & _ & Hkeep). destruct (push_shape f key (BCore op) s1 Hf1 g) as (F1 & _). rewrite F1, E1. intros Hl Hn.
    destruct (ok_vars _ Hs g l n Hl Hn) as (c & Hc & Hk). destruct (Hkeep c Hc) as [[-> Hkey]|Hc'].
    + exists (length (cells s1)). split; [apply push_bindings; auto|]. rewrite push_new. cbn. congruence.
    + exists c. split; [apply push_bindings; auto|]. rewrite Hold; [done|]. by destruct (frame_cells _ _ (ok_frames _ Hs g) c Hc).
  - lia.
  - intros c Hc. by rewrite Hold.
  - intros c l Hc. by rewrite Hold.
  - cbn. rewrite length_insert. lia.
  - intros g _. destruct (Hsp g) as (E1 & E2 & _). destruct (push_shape f key (BCore op) s1 Hf1 g) as (F1 & F2 & _). split; congruence.
  - change (lams (sexp_env_push f key (BCore op) s1)) with (lams s1). rewrite El. lia.
  - intros l _. change (get_lam (sexp_env_push f key (BCore op) s1) l) with (get_lam s1 l). by rewrite Hlam.
  - intros g n _ (c & Hc & Hk). destruct (Hsp g) as (_ & _ & _ & _ & Hkeep). destruct (Hkeep c Hc) as [[-> Hkey]|Hc'].
    + exists (length (cells s1)). split; [apply push_bindings; auto|]. rewrite push_new. cbn. congruence.
    + exists c. split; [apply push_bindings; auto|]. rewrite Hold; [done|]. by destruct (frame_cells _ _ (ok_frames _ Hs g) c Hc).
  - intros r. change (renamed (sexp_env_push f key (BCore op) s1)) with (renamed s1). by rewrite Er.
  - intros l _. change (get_lam (sexp_env_push f key (BCore op) s1) l) with (get_lam s1 l). by rewrite Hlam.
Qed.

(** *** Frames and lambdas *)

Lemma new_frame_get x s g : (g < length (frames s))%nat -> get_frame (new_frame x s) g = get_frame s g.
Proof. intros Hg. exact (total_app_l _ _ _ Hg). Qed.

Lemma new_frame_quiet b b' s : quiet s (new_frame (Frame [] [] None b b') s).
Proof.
  set (x := Frame [] [] None b b'). set (s' := new_frame x s). intros Hs.
  assert (Hget : forall g, get_frame s' g = if decide (g = length (frames s)) then x else get_frame s g).
  { intros g. case_decide as E; [subst; exact (total_app_r (frames s) x)|].
    destruct (decide (g < length (frames s))%nat); [by apply new_frame_get|].
    rewrite !get_frame_out; [done|lia|cbn; rewrite length_app; simpl; lia]. }
  split; [split|split; [split|done]]; try done.
  - intros g. rewrite Hget. case_decide; [split; cbn; intros ? Hi; [by apply elem_of_nil in Hi..|done]|].
    destruct (ok_frames _ Hs g) as [H1 H2 H3]. by split.
  - intros g h c. rewrite !Hget. do 2 case_decide; cbn [x bindings]; rewrite ?elem_of_nil; try done. apply (ok_own _ Hs).
  - intros g h l. rewrite !Hget. do 2 case_decide; try done. apply (ok_frame_of _ Hs).
  - exact (ok_cells _ Hs).
  - intros g l n. rewrite Hget. case_decide; [done|]. apply (ok_vars _ Hs).
  - cbn. rewrite length_app. lia.
  - intros g Hg. rewrite Hget. rewrite decide_False by lia. done.
  - intros g n Hg (c & Hc & Hk). exists c. by rewrite Hget, decide_False by lia.
Qed.

(** The frame at [f] is that of [extend_env] while its bindings are made. *)
Lemma fold_push f value : forall vs bs s, (f < length (frames s))%nat -> get_frame s f = Frame bs [] None false false ->
  let s' := fold_left (fun s v => sexp_env_push f v value s) vs s in
  cells s' = cells s ++ map (fun v => Cell v value false) vs /\ renamed s' = renamed s /\ lams s' = lams s /\
  length (frames s') = length (frames s) /\ (forall g, g <> f -> get_frame s' g = get_frame s g) /\
  get_frame s' f = Frame (rev (seq (length (cells s)) (length vs)) ++ bs) [] None false false.
Proof.
  induction vs as [|v vs IH]; intros bs s Hf Hb; [cbn; rewrite app_nil_r; auto 10|]. cbn [fold_left].
  assert (Hb' : get_frame (sexp_env_push f v value s) f = Frame (length (cells s) :: bs) [] None false false).
  { rewrite push_frame, decide_True by done. by rewrite Hb. }
  destruct (IH _ (sexp_env_push f v value s) ltac:(cbn; by rewrite length_insert) Hb') as (E1 & E2 & E3 & E4 & E5 & E6).
  rewrite E1, E2, E3, E4, E6. cbn [sexp_env_push set_frame cells renamed lams frames length seq map rev].
  rewrite <- !app_assoc, length_insert, length_app. cbn [length app]. replace (length (cells s) + 1)%nat with (S (length (cells s))) by lia.
  split_and!; try done. intros g Hg. rewrite E5 by done. rewrite push_frame, decide_False by done. done.
Qed.

Lemma map_total {A B} `{Inhabited B} (f : A -> B) l k : (k < length l)%nat -> exists a, l !! k = Some a /\ map f l !!! k = f a.
Proof.
  intros Hk. destruct (lookup_lt_is_Some_2 _ _ Hk) as [a Ha]. exists a. split; [done|].
  rewrite list_lookup_total_alt. change (map f l) with (f <$> l). by rewrite list_lookup_fmap, Ha.
Qed.

(** The old part of the environments is as it was. *)
Definition unchanged (s s' : state) : Prop :=
  renamed s' = renamed s /\ (forall g, (g < length (frames s))%nat -> get_frame s' g = get_frame s g) /\
  forall c, (c < length (cells s))%nat -> get_cell s' c = get_cell s c.

Lemma new_lambda_spec y e s : locals y = [] -> defs y = [] -> state_ok s ->
  let l := length (lams s) in let f := length (frames s) in
  let s2 := (sexp_extend_env e (sexp_flatten_dot y) (BLambda l) (new_lam y s).2) in
  let s3 := set_env_lambda f l s2.2 in
  s2.1 = f :: e /\ state_ok s3 /\ ext s s3 /\ same_defs s s3 /\ length (frames s3) = S f /\ length (lams s3) = S l /\ get_lam s3 l = y /\
  env_lambda (get_frame s3 f) = Some l /\ unchanged s s3 /\
  renames (get_frame s3 f) = [] /\ forall c, c ∈ bindings (get_frame s3 f) -> cell_value (get_cell s3 c) = BLambda l.
Proof.
  intros Hlo Hd Hs l f. cbn zeta. unfold sexp_extend_env. cbn [new_lam fst snd]. set (s1 := State _ _ _ (lams s ++ [y]) _).
  change (length (frames s1)) with f. set (s1' := new_frame _ s1). set (vs := sexp_flatten_dot y).
  assert (Hf1 : length (frames s1') = S f) by (cbn; rewrite length_app; simpl; lia).
  assert (Hget1 : get_frame s1' f = Frame [] [] None false false) by exact (total_app_r (frames s) _).
  destruct (fold_push f (BLambda l) vs [] s1') as (E1 & E2 & E3 & E4 & E5 & E6); [lia|done|]. cbv zeta in *. set (s2 := fold_left _ vs s1') in *.
  rewrite app_nil_r in E6. change (cells s1') with (cells s) in *. change (renamed s1') with (renamed s) in *. change (lams s1') with (lams s ++ [y]) in *.
  set (s3 := set_env_lambda f l s2). set (n := length (cells s)) in *.
  assert (Hnew : get_frame s3 f = Frame (rev (seq n (length vs))) [] (Some l) false false).
  { unfold s3, set_env_lambda, get_frame. cbn [frames set_frame]. rewrite total_insert by lia. rewrite decide_True by done. fold (get_frame s2 f). by rewrite E6. }
  assert (Hout : forall g, (S f <= g)%nat -> get_frame s3 g = Frame [] [] None false false).
  { intros g Hg. apply get_frame_out. unfold s3, set_env_lambda. cbn [frames set_frame]. rewrite length_insert. lia. }
  assert (Hold : forall g, (g < f)%nat -> get_frame s3 g = get_frame s g).
  { intros g Hg. unfold s3, set_env_lambda, get_frame at 1. cbn [frames set_frame]. rewrite total_insert by lia. rewrite decide_False by lia. fold (get_frame s2 g).
    rewrite E5 by lia. exact (total_app_l _ _ _ Hg). }
  assert (Hcase : forall g, get_frame s3 g = get_frame s g \/ g = f).
  { intros g. destruct (decide (g < f)%nat); [left; auto|]. destruct (decide (g = f)); [by right|]. left. rewrite Hout, get_frame_out by (unfold f in *; lia). done. }
  assert (Hcells : cells s3 = cells s ++ map (fun v => Cell v (BLambda l) false) vs) by exact E1.
  assert (Hc : forall c, (c < n)%nat -> get_cell s3 c = get_cell s c) by (intros c Hc; unfold get_cell; rewrite Hcells; by apply total_app_l).
  assert (Hcn : forall c, (n <= c < n + length vs)%nat -> exists v, vs !! (c - n)%nat = Some v /\ get_cell s3 c = Cell v (BLambda l) false).
  { intros c Hc'. destruct (map_total (fun v => Cell v (BLambda l) false) vs (c - n)%nat) as (v & Hv & E); [lia|]. exists v. split; [done|].
    unfold get_cell. rewrite Hcells, list_lookup_total_alt, lookup_app_r, <- list_lookup_total_alt by (fold n; lia). exact E. }
  assert (Hlen : length (cells s3) = (n + length vs)%nat) by (rewrite Hcells, length_app, length_map; done).
  assert (Hlams : lams s3 = lams s ++ [y]) by exact E3.
  assert (Hl : forall i, (i < l)%nat -> get_lam s3 i = get_lam s i) by (intros i Hi; unfold get_lam; rewrite Hlams; by apply total_app_l).
  assert (Hy : get_lam s3 l = y) by (unfold get_lam; rewrite Hlams; apply total_app_r).
  assert (Hin : forall c, c ∈ rev (seq n (length vs)) <-> (n <= c < n + length vs)%nat) by (intros c; rewrite list_elem_of_In, <- in_rev, <- list_elem_of_In, elem_of_seq; done).
  split; [done|]. split; [split|split; [split|]].
  - intros g. destruct (Hcase g) as [->| ->].
    + destruct (ok_frames _ Hs g) as [H1 H2 H3]. split.
      * intros c Hcg. destruct (H1 c Hcg). rewrite Hc, Hlen by done. split; [lia|done].
      * intros r Hr. change (renamed s3) with (renamed s2). rewrite E2. destruct (H2 r Hr) as (A0 & A1 & A2 & A3 & A4). rewrite Hc, Hlen by done. split_and!; [done..|lia|done].
      * intros i Hi. rewrite Hlams, length_app. destruct (H3 i Hi). split; [lia|done].
    + rewrite Hnew. split; cbn [bindings renames env_lambda syntactic].
      * intros c Hcin%Hin. destruct (Hcn c Hcin) as (v & _ & ->). rewrite Hlen. split; [lia|done].
      * intros r Hr. by apply elem_of_nil in Hr.
      * intros i [= <-]. rewrite Hlams, length_app. simpl. split; [unfold l; lia|done].
  - assert (forall g c, c ∈ bindings (get_frame s g) -> (c < n)%nat) as Hb by (intros g c Hg; by destruct (frame_cells _ _ (ok_frames _ Hs g) c Hg)).
    intros g h c Hg Hh. destruct (Hcase g) as [Eg|Eg], (Hcase h) as [Eh|Eh]; [rewrite Eg in Hg; rewrite Eh in Hh; by eapply (ok_own _ Hs)| | |congruence]; exfalso.
    + rewrite Eg in Hg. subst h. rewrite Hnew in Hh. apply Hin in Hh. specialize (Hb g c Hg). lia.
    + rewrite Eh in Hh. subst g. rewrite Hnew in Hg. apply Hin in Hg. specialize (Hb h c Hh). lia.
  - assert (forall g, env_lambda (get_frame s g) <> Some l) as Hne by (intros g Eg; destruct (frame_lambda _ _ (ok_frames _ Hs g) l Eg); unfold l in *; lia).
    intros g h i Hg Hh. destruct (Hcase g) as [Eg|Eg], (Hcase h) as [Eh|Eh]; [rewrite Eg in Hg; rewrite Eh in Hh; by eapply (ok_frame_of _ Hs)| | |congruence]; exfalso.
    + rewrite Eg in Hg. subst h. rewrite Hnew in Hh. cbn in Hh. injection Hh as <-. by eapply Hne.
    + rewrite Eh in Hh. subst g. rewrite Hnew in Hg. cbn in Hg. injection Hg as <-. by eapply Hne.
  - intros c i. destruct (decide (c < n)%nat) as [Hcn'|Hcn'].
    + rewrite Hc by done. intros E. pose proof (ok_cells _ Hs c i E) as Hk. destruct (decide (i < l)%nat); [by rewrite Hl|].
      unfold get_lam in Hk. rewrite total_out in Hk by (unfold l in *; lia). by apply elem_of_nil in Hk.
    + destruct (decide (c < n + length vs)%nat); [|rewrite get_cell_out by lia; discriminate].
      destruct (Hcn c) as (v & Hv & ->); [lia|]. intros [= <-]. rewrite Hy. cbn. unfold vars. apply elem_of_app. left. by eapply list_elem_of_lookup_2.
  - intros g i v Hg Hv. destruct (Hcase g) as [Eg| ->].
    + rewrite Eg in Hg |- *. destruct (frame_lambda _ _ (ok_frames _ Hs g) i Hg) as [Hi _]. rewrite Hl in Hv by done.
      destruct (ok_vars _ Hs g i v Hg Hv) as (c & Hcin & Hk). exists c. split; [done|]. rewrite Hc; [done|]. by destruct (frame_cells _ _ (ok_frames _ Hs g) c Hcin).
    + rewrite Hnew in Hg |- *. injection Hg as <-. rewrite Hy in Hv. unfold vars in Hv. rewrite Hlo, app_nil_r in Hv. apply list_elem_of_lookup_1 in Hv as [k Hk].
      pose proof (lookup_lt_Some _ _ _ Hk) as Hkl. fold (formals y) in vs. destruct (Hcn (n + k)%nat) as (w & Hw & Ec); [unfold vs; lia|].
      exists (n + k)%nat. cbn [bindings]. split; [apply Hin; unfold vs; lia|]. rewrite Ec. cbn. replace (n + k - n)%nat with k in Hw by lia. unfold vs, formals in *. congruence.
  - lia.
  - intros c Hc'. by rewrite Hc.
  - intros c i Hc'. by rewrite Hc.
  - unfold s3, set_env_lambda. cbn [frames set_frame]. rewrite length_insert. fold f. lia.
  - intros g Hg. by rewrite Hold.
  - rewrite Hlams, length_app. lia.
  - intros i Hi. by rewrite Hl.
  - intros g v Hg (c & Hcin & Hk). exists c. rewrite Hold by done. split; [done|]. rewrite Hc; [done|]. by destruct (frame_cells _ _ (ok_frames _ Hs g) c Hcin).
  - intros r Hr. change (renamed s3) with (renamed s2). by rewrite E2.
  - split; [intros i Hi; by rewrite Hl|]. split; [unfold s3, set_env_lambda; cbn [frames set_frame]; rewrite length_insert; lia|].
    split; [rewrite Hlams, length_app; simpl; unfold l; lia|]. split; [done|]. rewrite Hnew. split; [done|]. split; [done|].
    split; [done|]. intros c Hcin%Hin. by destruct (Hcn c Hcin) as (v & _ & ->).
Qed.

(** An internal definition. *)
Lemma push_def_spec f l name d s : state_ok s -> env_lambda (get_frame s f) = Some l ->
  let s' := push_def l name d (sexp_env_push f name (BLambda l) s) in
  state_ok s' /\ ext s s' /\ length (lams s') = length (lams s) /\ name ∈ vars (get_lam s' l) /\
  forall i, (i < length (lams s))%nat -> defs (get_lam s' i) = if decide (i = l) then d :: defs (get_lam s i) else defs (get_lam s i).
Proof.
  intros Hs El. destruct (frame_lambda _ _ (ok_frames _ Hs f) l El) as [Hl Hsyn].
  assert (Hf : (f < length (frames s))%nat) by (destruct (decide (f < length (frames s))%nat); [done|]; rewrite get_frame_out in El by lia; done).
  set (s1 := sexp_env_push f name (BLambda l) s). cbn zeta. set (s' := push_def l name d s1).
  assert (Hget : forall i, get_lam s' i = if decide (i = l) then Lam (params (get_lam s l)) (rest (get_lam s l)) (name :: locals (get_lam s l)) (sv (get_lam s l)) (d :: defs (get_lam s l)) (lambda_name (get_lam s l)) else get_lam s i)
    by (intros i; exact (total_insert (lams s) l i _ Hl)).
  assert (Hlen : length (lams s') = length (lams s)) by (cbn; apply length_insert).
  assert (Hform : forall i, formals (get_lam s' i) = formals (get_lam s i)) by (intros i; rewrite Hget; case_decide; by subst).
  assert (Hsub : forall i n, n ∈ vars (get_lam s' i) <-> n ∈ vars (get_lam s i) \/ (i = l /\ n = name)).
  { intros i n. unfold vars. rewrite Hform, Hget. case_decide; [subst; cbn [locals]; set_solver|]. set_solver. }
  destruct (push_frames_ok f name (BLambda l) s Hs Hf El) as [H1 H2]. fold s1 in H1, H2.
  pose proof (push_ext f name (BLambda l) s Hs Hf) as He. fold s1 in He.
  split; [split|split; [split|split]].
  - intros g. destruct (H1 g) as [A1 A2 A3]. split; [exact A1|exact A2|]. rewrite Hlen. exact A3.
  - exact H2.
  - intros g h i. change (get_frame s' g) with (get_frame s1 g). change (get_frame s' h) with (get_frame s1 h). unfold s1.
    destruct (push_shape f name (BLambda l) s Hf g) as (-> & _), (push_shape f name (BLambda l) s Hf h) as (-> & _). apply (ok_frame_of _ Hs).
  - intros c i E. apply Hsub. change (get_cell s' c) with (get_cell s1 c) in *. unfold s1 in *. destruct (decide (c < length (cells s))%nat) as [Hc|Hc].
    + rewrite push_cell in E |- * by done. left. by apply (ok_cells _ Hs).
    + destruct (decide (c = length (cells s))) as [->|Hne].
      * rewrite push_new in E |- *. injection E as <-. by right.
      * rewrite get_cell_out in E by (cbn; rewrite length_app; simpl; lia). discriminate.
  - intros g i n. change (get_frame s' g) with (get_frame s1 g). unfold s1. destruct (push_shape f name (BLambda l) s Hf g) as (E1 & _). rewrite E1.
    intros Hg [Hn|[-> ->]]%Hsub.
    + destruct (ok_vars _ Hs g i n Hg Hn) as (c & Hc & Hk). exists c. split; [apply push_bindings; auto|]. change (get_cell s' c) with (get_cell s1 c). unfold s1.
      rewrite push_cell; [done|]. by destruct (frame_cells _ _ (ok_frames _ Hs g) c Hc).
    + rewrite (ok_frame_of _ Hs g f l Hg El). exists (length (cells s)). split; [apply push_bindings; auto|]. change (get_cell s' (length (cells s))) with (get_cell s1 (length (cells s))).
      unfold s1. by rewrite push_new.
  - exact (ext_cells _ _ He).
  - exact (ext_key _ _ He).
  - exact (ext_local _ _ He).
  - exact (ext_frames _ _ He).
  - exact (ext_frame _ _ He).
  - lia.
  - intros i _. rewrite Hform. split; [done|]. rewrite Hget. case_decide; [subst; cbn; set_solver|done].
  - exact (ext_names _ _ He).
  - done.
  - done.
  - split; [apply Hsub; by right|].
    intros i _. rewrite Hget. case_decide; by subst.
Qed.
End allowed.
