(* ===== verification/Scoping.v ===== *)
(** * Analysis is scoped

    The proof that [analyze] keeps the invariant of [Analysis] and that its trees
    are scoped, by induction on its fuel. *)
From S2P Require Import Prelude Heap Syntax Identifiers Analyze Analysis.
From stdpp Require Import base list option.
#[local] Open Scope Z_scope.

Section scoping.
Context `{K : allowed}.

(** ** Looking up *)

Lemma elem_of_In_iff {A} (x : A) l : In x l <-> x ∈ l.
Proof. symmetry. apply list_elem_of_In. Qed.

Lemma find_binding_Some s n bs c : find_binding s n bs = Some c -> c ∈ bs /\ cell_key (get_cell s c) = n.
Proof. intros [Hc Hk%bool_decide_eq_true]%find_some. split; [by apply list_elem_of_In|done]. Qed.

Lemma find_binding_None s n bs c : find_binding s n bs = None -> c ∈ bs -> cell_key (get_cell s c) <> n.
Proof. intros Hf Hc. apply list_elem_of_In in Hc. apply (find_none _ _ Hf) in Hc. by apply bool_decide_eq_false in Hc. Qed.

Lemma frame_cell_Some s f n c : state_ok s -> frame_cell s f n = Some c ->
  holds_cell s (get_frame s f) c /\ (cell_key (get_cell s c) = n /\ c ∈ bindings (get_frame s f) \/ is_renamed s c /\ env_lambda (get_frame s f) = None).
Proof.
  intros Hs. unfold frame_cell, find_renamed. destruct (find _ _) as [r|] eqn:E.
  - intros [= <-]. apply find_some in E as [Hr _]. apply list_elem_of_In in Hr. destruct (frame_renames _ _ (ok_frames _ Hs f) r Hr) as (Hlt & He & _).
    split; [right; eauto|]. right. split; [|done]. by exists r.
  - intros [Hc Hk]%find_binding_Some. split; [by left|]. by left.
Qed.

Lemma frame_cell_None s f n l : state_ok s -> frame_cell s f n = None -> env_lambda (get_frame s f) = Some l -> n ∉ vars (get_lam s l).
Proof.
  intros Hs. unfold frame_cell. destruct (find_renamed _ _ _); [done|]. intros Hn El Hin.
  destruct (ok_vars _ Hs f l n El Hin) as (c & Hc & Hk). by apply (find_binding_None _ _ _ _ Hn Hc).
Qed.

Lemma path_cons s f e : path s (f :: e) = option_list (env_lambda (get_frame s f)) ++ path s e.
Proof. unfold path. cbn. by destruct (env_lambda _). Qed.

(** What a lookup finds: a cell that its frame accepts and that is in scope. *)
Lemma loc1_spec s n : state_ok s -> forall e c f, sexp_env_cell_loc1 s e n false = Some (c, f) ->
  (c < length (cells s))%nat /\ accepts (get_frame s f) (cell_value (get_cell s c)) /\ f ∈ e /\
  (cell_key (get_cell s c) = n \/ is_renamed s c) /\
  (forall l, cell_value (get_cell s c) = BLambda l -> cell_key (get_cell s c) = n /\ innermost (defined s) s (path s e) n l).
Proof.
  intros Hs e. induction e as [|g e IH]; intros c f; [done|]. cbn [sexp_env_cell_loc1]. destruct (frame_cell s g n) as [c'|] eqn:E.
  - intros [= <- <-]. destruct (frame_cell_Some _ _ _ _ Hs E) as [Hh Hk]. destruct (holds_accepts _ _ _ (ok_frames _ Hs g) Hh) as [Hlt Ha].
    split; [done|]. split; [done|]. split; [left|]. split; [tauto|]. intros l El. rewrite El in Ha. cbn in Ha.
    destruct Hk as [[Hk _]|[_ Hn]]; [|congruence]. split; [done|]. rewrite path_cons, Ha. exists [], (path s e). by split.
  - intros H. destruct (IH c f H) as (H1 & H2 & H3 & H4 & H5). split; [done|]. split; [done|]. split; [by right|]. split; [done|].
    intros l El. destruct (H5 l El) as [Hk (p1 & p2 & Hp & Hf)]. split; [done|]. rewrite path_cons, Hp.
    exists (option_list (env_lambda (get_frame s g)) ++ p1), p2. split; [by rewrite app_assoc|]. apply Forall_app. split; [|done].
    destruct (env_lambda (get_frame s g)) as [l'|] eqn:El'; cbn; [|constructor]. constructor; [|constructor]. by eapply frame_cell_None.
Qed.

(** Behind the innermost global frame there is no lambda, so that global variables
    are none of the parameters around. *)
Lemma loc1_global s n : state_ok s -> forall e c f, chain_ok s e -> sexp_env_cell_loc1 s e n false = Some (c, f) ->
  sexp_syntacticp (cell_value (get_cell s c)) = false -> local_of (cell_value (get_cell s c)) = None ->
  Forall (fun l => n ∉ names (defined s) s l) (path s e).
Proof.
  intros Hs e. induction e as [|g e IH]; intros c f Hc; [done|]. cbn [sexp_env_cell_loc1]. rewrite path_cons. cbn [chain_ok] in Hc. destruct Hc as [_ Hc].
  destruct (frame_cell s g n) as [c'|] eqn:E.
  - intros [= <- <-] Hsyn Hloc. destruct (frame_cell_Some _ _ _ _ Hs E) as [Hh _]. destruct (holds_accepts _ _ _ (ok_frames _ Hs g) Hh) as [_ Ha].
    assert (env_lambda (get_frame s g) = None /\ syntactic (get_frame s g) = false) as [E1 E2] by (destruct (cell_value (get_cell s c')); done).
    rewrite E1, E2 in *. cbn in Hc. destruct Hc as [-> _]. constructor.
  - intros Hl Hsyn Hloc. apply Forall_app. split.
    + destruct (env_lambda (get_frame s g)) as [l'|] eqn:El'; cbn; [|constructor]. constructor; [|constructor]. by eapply frame_cell_None.
    + case_match; [by eapply IH|]. destruct Hc as [-> _]. constructor.
Qed.

Lemma loc1_None s n : state_ok s -> forall e, sexp_env_cell_loc1 s e n false = None -> Forall (fun l => n ∉ names (defined s) s l) (path s e).
Proof.
  intros Hs e. induction e as [|g e IH]; [constructor|]. cbn [sexp_env_cell_loc1]. rewrite path_cons. destruct (frame_cell s g n) eqn:E; [done|].
  intros H. apply Forall_app. split; [|auto]. destruct (env_lambda (get_frame s g)) as [l'|] eqn:El'; cbn; [|constructor].
  constructor; [|constructor]. by eapply frame_cell_None.
Qed.

(** A variable of the innermost lambda is found there, unless syntax hides it. *)
Lemma loc1_first s n : state_ok s -> forall e c f l p, sexp_env_cell_loc1 s e n false = Some (c, f) -> chain_ok s e -> path s e = l :: p ->
  n ∈ vars (get_lam s l) -> sexp_syntacticp (cell_value (get_cell s c)) = false -> cell_value (get_cell s c) = BLambda l /\ cell_key (get_cell s c) = n.
Proof.
  intros Hs e. induction e as [|g e IH]; intros c f l p; [done|]. cbn [sexp_env_cell_loc1 chain_ok]. rewrite path_cons. intros H [_ Hch].
  destruct (frame_cell s g n) as [c'|] eqn:E.
  - injection H as <- <-. destruct (frame_cell_Some _ _ _ _ Hs E) as [Hh Hk]. destruct (holds_accepts _ _ _ (ok_frames _ Hs g) Hh) as [_ Ha]. intros Hp _ Hsyn.
    destruct (env_lambda (get_frame s g)) as [l0|] eqn:El; cbn [option_list app] in Hp.
    + injection Hp as -> _. destruct Hk as [[Hk _]|[_ Hk]]; [|done]. split; [|done].
      destruct (cell_value (get_cell s c')) as [l1|op|m|w op|v]; cbn in Ha, Hsyn; try done; [congruence|destruct Ha as [Ha _]; congruence|destruct Ha as [Ha _]; congruence].
    + destruct (syntactic (get_frame s g)) eqn:Esy; cbn in Hch; [|destruct Hch as [Hch _]; by rewrite Hch in Hp].
      destruct (cell_value (get_cell s c')) as [l1|op|m|w op|v]; cbn in Ha, Hsyn; try done; [congruence|destruct Ha; congruence|destruct Ha; congruence].
  - destruct (env_lambda (get_frame s g)) as [l0|] eqn:El; cbn [option_list app].
    + intros [= -> Hp] Hv. by destruct (frame_cell_None _ _ _ _ Hs E El).
    + intros Hp. case_match; [by eapply IH|]. destruct Hch as [Hch _]. by rewrite Hch in Hp.
Qed.

Lemma plain_loc s e w localp : sexp_env_cell_loc s [] e (Atom w) localp = sexp_env_cell_loc1 s e w localp.
Proof. unfold sexp_env_cell_loc. cbn. by destruct (sexp_env_cell_loc1 _ _ _ _) as [[]|]. Qed.

Lemma toplevel_frame_spec s e : chain_ok s e -> exists f, toplevel_frame s e = Some f /\ (f < length (frames s))%nat /\
  env_lambda (get_frame s f) = None /\ syntactic (get_frame s f) = false.
Proof.
  induction e as [|f e IH]; [done|]. cbn [chain_ok toplevel_frame]. intros [Hf H]. case_match eqn:E; [auto|].
  apply orb_false_iff in E as [E1%bool_decide_eq_false E2]. exists f. split_and!; [done|done| |done]. destruct (env_lambda _); [|done]. by destruct E1.
Qed.

Lemma path_bound s e : state_ok s -> Forall (fun l => (l < length (lams s))%nat) (path s e).
Proof.
  intros Hs. induction e as [|f e IH]; [constructor|]. rewrite path_cons. apply Forall_app. split; [|done].
  destruct (env_lambda (get_frame s f)) as [l|] eqn:El; cbn; [|constructor]. constructor; [|constructor]. by destruct (frame_lambda _ _ (ok_frames _ Hs f) l El).
Qed.

(** ** Steps *)

Definition after (s s' : state) : Prop := state_ok s' /\ ext s s' /\ same_defs s s'.

Lemma quiet_after s s' : state_ok s -> quiet s s' -> after s s'.
Proof. intros Hs Hq. exact (Hq Hs). Qed.

Lemma after_trans s1 s2 s3 : after s1 s2 -> after s2 s3 -> after s1 s3.
Proof.
  intros (H2 & He & Hd) (H3 & He' & Hd'). split; [done|]. split; [by etrans|]. intros l Hl. rewrite Hd', Hd by (pose proof (ext_lams _ _ He); lia). done.
Qed.

Lemma cell_define_spec s e n w : state_ok s -> chain_ok s e -> exists c f s',
  sexp_env_cell_define e n (BValue w) s = Some ((c, f), s') /\ after s s' /\ (c < length (cells s'))%nat /\
  cell_key (get_cell s' c) = n /\ cell_value (get_cell s' c) = BValue w.
Proof.
  intros Hs Hc. destruct (toplevel_frame_spec s e Hc) as (f & Ef & Hf & E1 & E2). unfold sexp_env_cell_define. rewrite Ef.
  pose proof (quiet_after _ _ Hs (remove_rename_quiet f n s)) as (Hs1 & He1 & Hd1). set (s1 := remove_rename f n s) in *.
  assert (Hfr : frames s1 = frames s /\ cells s1 = cells s) by (unfold s1, remove_rename; by destruct (find _ _)).
  assert (Hget : get_frame s1 f = get_frame s f) by (unfold get_frame; destruct Hfr as [-> _]; done).
  assert (Hf1 : (f < length (frames s1))%nat) by (destruct Hfr as [-> _]; done).
  destruct (find_binding s1 n (bindings (get_frame s1 f))) as [c|] eqn:Eb.
  - apply find_binding_Some in Eb as [Hin Hk]. destruct (frame_cells _ _ (ok_frames _ Hs1 f) c Hin) as [Hlt Ha].
    assert (Hq : quiet s1 (set_value c (BValue w) s1)).
    { apply set_value_quiet; [done| |done|].
      - destruct (cell_value (get_cell s1 c)) eqn:Ev; try done. cbn in Ha. congruence.
      - intros g [Hg|(r & Hr & Er)].
        + rewrite (ok_own _ Hs1 g f c Hg Hin), Hget. done.
        + destruct (frame_renames _ _ (ok_frames _ Hs1 g) r Hr) as (_ & H1 & H2 & _). done. }
    exists c, f, (set_value c (BValue w) s1). split; [done|]. split; [eapply after_trans; [by split|exact (quiet_after _ _ Hs1 Hq)]|].
    split; [cbn; rewrite length_insert; done|]. rewrite set_value_cell, decide_True by done. by split.
  - assert (Hq : quiet s1 (sexp_env_push f n (BValue w) s1)) by (apply push_quiet; [done|by rewrite Hget|done]).
    exists (length (cells s1)), f, (sexp_env_push f n (BValue w) s1). split; [done|]. split; [eapply after_trans; [by split|exact (quiet_after _ _ Hs1 Hq)]|].
    split; [cbn; rewrite length_app; simpl; lia|]. rewrite push_new. by split.
Qed.

(** The name is bound in the frame then. *)
Lemma cell_define_name s e n w c f s' : state_ok s -> chain_ok s e -> sexp_env_cell_define e n (BValue w) s = Some ((c, f), s') ->
  forall g, toplevel_frame s e = Some g -> has_name s' g n.
Proof.
  intros Hs Hc Ed g Eg. destruct (toplevel_frame_spec s e Hc) as (f' & Ef & Hf & E1 & E2). assert (f' = g) as -> by congruence.
  unfold sexp_env_cell_define in Ed. rewrite Ef in Ed. set (s1 := remove_rename g n s) in *.
  assert (Hfr : frames s1 = frames s /\ cells s1 = cells s) by (unfold s1, remove_rename; by destruct (find _ _)).
  destruct (find_binding s1 n (bindings (get_frame s1 g))) as [i|] eqn:Eb; injection Ed as <- <- <-.
  - apply find_binding_Some in Eb as [Hin Hk]. exists i. split; [done|]. unfold set_value. unfold get_cell at 1. cbn [cells set_cell].
    assert (i < length (cells s1))%nat as Hi.
    { destruct Hfr as [Hfr ->]. assert (get_frame s1 g = get_frame s g) as E by (unfold get_frame; by rewrite Hfr). rewrite E in Hin. by destruct (frame_cells _ _ (ok_frames _ Hs g) i Hin). }
    rewrite total_insert by done. rewrite decide_True by done. done.
  - exists (length (cells s1)). destruct Hfr as [Hfr _]. split; [apply push_bindings; [by rewrite Hfr|by right]|]. by rewrite push_new.
Qed.

Lemma skip_syntactic_spec s e : state_ok s -> chain_ok s e -> let e' := skip_syntactic s e in
  chain_ok s e' /\ path s e' = path s e /\ syntactic (get_frame s (head_frame e')) = false /\ (head_frame e' < length (frames s))%nat.
Proof.
  intros Hs. induction e as [|f e IH]; [done|]. intros Hc. cbn [skip_syntactic]. pose proof Hc as [Hf Ht].
  destruct (syntactic (get_frame s f)) eqn:Es; cbn [andb]; [|split_and!; done].
  rewrite orb_true_r in Ht. case_bool_decide as Ee; [subst; done|]. cbn [negb]. destruct (IH Ht) as (H1 & H2 & H3 & H4). split_and!; [done| |done|done].
  rewrite H2, path_cons. destruct (env_lambda (get_frame s f)) as [l|] eqn:El; [|done].
  destruct (frame_lambda _ _ (ok_frames _ Hs f) l El). congruence.
Qed.

(** A reference that is no syntax is in scope. *)
Lemma var_ref_spec c x s : state_ok s -> context_ok s c -> plain x = true -> sexp_idp x = true ->
  wp (analyze_var_ref c x) s (fun r s' => after s s' /\
    match r with
    | inl (n, i, _) => ref_ok (defined s) s' (path s (context_env c)) n i /\
        (forall l p, path s (context_env c) = l :: p -> key_word x ∈ vars (get_lam s l) -> cell_value (get_cell s' i) = BLambda l /\ n = key_word x)
    | inr _ => exists i, sexp_env_cell s [] (context_env c) x false = Some i /\ sexp_syntacticp (cell_value (get_cell s i)) = true
    end).
Proof.
  intros Hs Hc Hp Hid. destruct (plain_idp x Hp Hid) as [n ->]. destruct Hc as [Hfv Hch _]. unfold analyze_var_ref, run_or_crash, sexp_env_cell_create. rewrite Hfv.
  apply wp_bind. unfold wp at 1. rewrite plain_loc. destruct (sexp_env_cell_loc1 s (context_env c) (Symbol n) false) as [[i f]|] eqn:E.
  - cbn [fst]. apply wp_bind, wp_gets, wp_ret. split; [split; [done|]; split; [reflexivity|done]|].
    destruct (loc1_spec s _ Hs _ _ _ E) as (Hlt & Hacc & _ & Hkey & Hloc). destruct (sexp_syntacticp _) eqn:Es.
    { exists i. unfold sexp_env_cell. rewrite plain_loc, E. done. }
    split; [split; [done|]|].
    + destruct (local_of (cell_value (get_cell s i))) as [l|] eqn:El.
      * apply local_of_Some in El. destruct (Hloc l El) as [-> Hin]. done.
      * destruct Hkey as [->|Hr]; [right; split; [done|]|by left]. by eapply loc1_global.
    + intros l p Hpath Hv. by eapply loc1_first.
  - destruct (cell_define_spec s (context_env c) (Symbol n) SEXP_UNDEF Hs Hch) as (i & f & s' & Ed & Hafter & Hlt & Hk & Hval).
    change (key_word (Atom (Symbol n))) with (Symbol n). rewrite Ed. cbn [fst]. apply wp_bind, wp_gets, wp_ret. split; [done|]. rewrite Hval. cbn [sexp_syntacticp].
    split; [split; [done|]|].
    + rewrite Hval. cbn [local_of]. right. rewrite Hk. split; [done|]. destruct Hafter as (_ & He & _). apply (names_ext _ s); [done|by apply path_bound|by apply loc1_None].
    + intros l p Hpath Hv. exfalso. pose proof (loc1_None s _ Hs _ E) as Hn. rewrite Hpath in Hn. by apply Forall_cons_1 in Hn as [Hn _].
Qed.

Lemma env_define_spec s e n op : state_ok s -> chain_ok s e -> allows op -> after s (sexp_env_define [] e (Atom n) (BCore op) s).2.
Proof.
  intros Hs Hc Hop. unfold sexp_env_define. pose proof (skip_syntactic_spec s e Hs Hc) as (_ & _ & _ & Hhead).
  assert (Hf : (head_frame e < length (frames s))%nat) by (destruct e; [done|]; by destruct Hc).
  assert (Hrefl : after s s) by (split; [done|]; split; [reflexivity|done]).
  destruct (env_immutable _); [done|]. unfold sexp_env_cell. rewrite plain_loc. destruct (sexp_env_cell_loc1 s e n true) as [[c f]|] eqn:E; cbn [fmap option_fmap option_map fst].
  - destruct (cell_immutable _); [done|]. destruct (sexp_syntacticp (cell_value (get_cell s c))) eqn:Es; cbn [negb andb sexp_syntacticp snd].
    + apply quiet_after; [done|]. destruct e as [|g e]; [done|]. cbn [sexp_env_cell_loc1] in E. destruct (frame_cell s g n) as [c'|] eqn:Eg; [|done]. injection E as -> ->.
      destruct (frame_cell_Some _ _ _ _ Hs Eg) as [Hh _]. destruct (holds_accepts _ _ _ (ok_frames _ Hs f) Hh) as [Hlt _].
      apply set_value_quiet; [done| |done|done]. by destruct (cell_value _).
    + apply quiet_after; [done|]. by apply redefine_quiet.
  - apply quiet_after; [done|]. by apply push_quiet.
Qed.

Lemma warn_after m x s : state_ok s -> after s (State (cells s) (renamed s) (frames s) (lams s) ((m, x) :: warned s)).
Proof. intros Hs. apply quiet_after; [done|]. apply warn_quiet. Qed.

Lemma wp_warn m x s (Q : unit -> state -> Prop) : state_ok s -> (forall s', after s s' -> cells s' = cells s -> renamed s' = renamed s -> frames s' = frames s -> Q tt s') -> wp (sexp_warn m x) s Q.
Proof. intros Hs H. apply wp_modify, H; [by apply warn_after|done..]. Qed.

Lemma loc1_same s s' n : cells s' = cells s -> renamed s' = renamed s -> frames s' = frames s ->
  forall e, sexp_env_cell_loc1 s' e n false = sexp_env_cell_loc1 s e n false.
Proof.
  intros E1 E2 E3 e. induction e as [|f e IH]; [done|]. cbn [sexp_env_cell_loc1].
  assert (frame_cell s' f n = frame_cell s f n) as -> by (unfold frame_cell, find_renamed, find_binding, get_frame, get_cell; by rewrite E1, E2, E3).
  by rewrite IH.
Qed.

Lemma context_after s s' c : after s s' -> context_ok s c -> context_ok s' c /\ path s' (context_env c) = path s (context_env c).
Proof. intros (_ & He & _) Hc. split; [by eapply context_ext|by apply context_path]. Qed.

(** ** Growing contexts *)

Definition def_name (d : form) : form := match d with Cons (Cons a _) _ => a | Cons a _ => a | _ => d end.

(** A delayed definition of the context [c], of less than [n] pairs and atoms. *)
Record good_def (s : state) (c : context) (n : nat) (d : form * context) : Prop := {
  def_size : (form_size d.1 < n)%nat;
  def_plain : plain d.1 = true;
  def_shape : exists target v r, d.1 = Cons target (Cons v r);
  def_idp : sexp_idp (def_name d.1) = true;
  def_context : context_ok s d.2;
  def_path : path s (context_env d.2) = path s (context_env c);
  def_var : forall l p, path s (context_env c) = l :: p -> key_word (def_name d.1) ∈ vars (get_lam s l)
}.

Definition defs_grow (n : nat) (c : context) (s s' : state) : Prop := forall l, (l < length (lams s))%nat -> exists new,
  defs (get_lam s' l) = new ++ defs (get_lam s l) /\ (new <> [] -> head (path s (context_env c)) = Some l) /\ Forall (good_def s' c n) new.

Definition grows (n : nat) (c : context) (s s' : state) : Prop := state_ok s' /\ ext s s' /\ defs_grow n c s s'.

Lemma good_def_ext s s' c n n' d : state_ok s -> ext s s' -> (n <= n')%nat -> context_ok s c -> good_def s c n d -> good_def s' c n' d.
Proof.
  intros Hs He Hn Hc [H1 H2 H3 H4 H5 H6 H7]. split; [lia|done|done|done|by eapply context_ext| |].
  - by rewrite (context_path s s' c), (context_path s s' d.2).
  - intros l p. rewrite (context_path s s' c) by done. intros Hp. specialize (H7 l p Hp).
    eapply ext_vars; [done| |exact H7]. pose proof (path_bound s (context_env c) Hs) as Hb. rewrite Hp in Hb. by apply Forall_cons_1 in Hb as [? _].
Qed.

Lemma grows_after n c s s' : after s s' -> grows n c s s'.
Proof. intros (H & He & Hd). split; [done|]. split; [done|]. intros l Hl. exists []. rewrite Hd by done. done. Qed.

Lemma growth_refl n c s : state_ok s -> grows n c s s.
Proof. intros Hs. apply grows_after. split; [done|]. split; [reflexivity|done]. Qed.

Lemma growth_trans n1 n2 n c s1 s2 s3 : state_ok s1 -> context_ok s1 c -> (n1 <= n)%nat -> (n2 <= n)%nat ->
  grows n1 c s1 s2 -> grows n2 c s2 s3 -> grows n c s1 s3.
Proof.
  intros Hs Hc Hn1 Hn2 (H2 & He & Hd) (H3 & He' & Hd'). split; [done|]. split; [by etrans|]. intros l Hl.
  destruct (Hd l Hl) as (new & E & Hh & Hf), (Hd' l) as (new' & E' & Hh' & Hf'); [pose proof (ext_lams _ _ He); lia|].
  exists (new' ++ new). rewrite E', E, app_assoc. split; [done|]. rewrite (context_path s1 s2) in Hh' by done. split.
  - destruct new' as [|x new']; [done|]. intros _. by apply Hh'.
  - apply Forall_app. split; (eapply Forall_impl; [|eassumption]); intros d Hd0.
    + apply (good_def_ext s3 s3 c n2 n); [done|done|done|apply (context_ext s1); [by etrans|done]|done].
    + apply (good_def_ext s2 s3 c n1 n); [done|done|done|by apply (context_ext s1)|done].
Qed.

(** The same in another context of the same path. *)
Lemma grows_path n c c' s s' : state_ok s -> context_ok s c -> context_ok s c' -> path s (context_env c') = path s (context_env c) -> grows n c' s s' -> grows n c s s'.
Proof.
  intros Hs Hc Hc' Hp (H & He & Hd). split; [done|]. split; [done|]. intros l Hl. destruct (Hd l Hl) as (new & E & Hh & Hf). exists new. split; [done|].
  rewrite <- Hp. split; [done|]. assert (Hp' : path s' (context_env c') = path s' (context_env c)) by (rewrite !(context_path s s') by done; done).
  eapply Forall_impl; [|exact Hf]. intros d [H1 H2 H3 H4 H5 H6 H7]. split; try done; [congruence|]. intros i q. rewrite <- Hp'. apply H7.
Qed.

(** What happens in a new lambda leaves the definitions of the others alone. *)
Lemma grows_inner n n' c c' l s s1 s2 : after s s1 -> (length (lams s) <= l)%nat -> head (path s1 (context_env c')) = Some l -> grows n' c' s1 s2 -> grows n c s s2.
Proof.
  intros (_ & He & Hd) Hl Hh (H2 & He' & Hd'). apply grows_after. split; [done|]. split; [by etrans|]. intros i Hi.
  destruct (Hd' i) as (new & E & Hn & _); [pose proof (ext_lams _ _ He); lia|]. rewrite E, Hd by done. destruct new as [|d new]; [done|].
  assert (Some l = Some i) as [= ->] by (rewrite <- Hh; by apply Hn). lia.
Qed.

(** ** Numbers of lambdas *)

Definition between (a b : nat) (ls : list nat) : Prop := Forall (fun i => (a <= i < b)%nat) ls /\ NoDup ls.

Lemma between_nil a b : between a b [].
Proof. split; constructor. Qed.

Lemma between_mono a b a' b' ls : (a' <= a)%nat -> (b <= b')%nat -> between a b ls -> between a' b' ls.
Proof. intros H1 H2 [Hf Hn]. split; [|done]. eapply Forall_impl; [|exact Hf]. cbn. lia. Qed.

Lemma between_app a b c l1 l2 : (a <= b <= c)%nat -> between a b l1 -> between b c l2 -> between a c (l1 ++ l2).
Proof.
  intros Hab [F1 N1] [F2 N2]. split.
  - apply Forall_app. split; [eapply Forall_impl; [|exact F1]|eapply Forall_impl; [|exact F2]]; cbn; lia.
  - apply list.NoDup_app. split_and!; [done| |done]. intros i Hi Hi2. rewrite list.Forall_forall in F1, F2. specialize (F1 i Hi). specialize (F2 i Hi2). lia.
Qed.

Lemma between_app' a b c l1 l2 : (a <= b <= c)%nat -> between b c l1 -> between a b l2 -> between a c (l1 ++ l2).
Proof.
  intros Hab H1 H2. destruct (between_app a b c l2 l1 Hab H2 H1) as [Hf Hn]. split; [|rewrite Permutation_app_comm; done].
  apply Forall_app in Hf as [? ?]. apply Forall_app. done.
Qed.

Lemma grows_ok n c s s' : grows n c s s' -> context_ok s c ->
  state_ok s' /\ context_ok s' c /\ path s' (context_env c) = path s (context_env c) /\ ext s s' /\ (length (lams s) <= length (lams s'))%nat.
Proof. intros (H & He & _) Hc. split_and!; [done|by eapply context_ext|by apply context_path|done|by apply ext_lams]. Qed.

(** ** Results *)

Definition post_trees (c : context) (n : nat) (s : state) (ts : list tree) (s' : state) : Prop :=
  grows n c s s' /\ scoped_all (defined s) s' (path s (context_env c)) ts /\ between (length (lams s)) (length (lams s')) (flat_map tree_lambdas ts).

Definition post_tree (c : context) (n : nat) (s : state) (t : tree) (s' : state) : Prop :=
  grows n c s s' /\ scoped (defined s) s' (path s (context_env c)) t /\ between (length (lams s)) (length (lams s')) (tree_lambdas t).

Definition post (c : context) (n : nat) (s : state) (r : res) (s' : state) : Prop :=
  match r with T t => post_tree c n s t s' | E _ => grows n c s s' end.

Lemma post_error c n s e s' : grows n c s s' -> post c n s (E e) s'.
Proof. done. Qed.

(** The result of a later step, seen from the beginning. *)
Lemma post_tree_before c n1 n2 n s s1 t s2 : state_ok s -> context_ok s c -> (n1 <= n)%nat -> (n2 <= n)%nat ->
  grows n1 c s s1 -> post_tree c n2 s1 t s2 -> post_tree c n s t s2.
Proof.
  intros Hs Hc H1 H2 Hg (Hg' & Ht & Hb). destruct (grows_ok _ _ _ _ Hg Hc) as (_ & _ & Hp & He & Hl). rewrite Hp in Ht.
  split; [exact (growth_trans n1 n2 n c s s1 s2 Hs Hc H1 H2 Hg Hg')|]. split; [exact (scoped_less _ _ _ (defined_ext _ _ He) _ _ Ht)|]. exact (between_mono _ _ _ _ _ Hl (le_n _) Hb).
Qed.

Lemma post_before c n1 n2 n s s1 r s2 : state_ok s -> context_ok s c -> (n1 <= n)%nat -> (n2 <= n)%nat ->
  grows n1 c s s1 -> post c n2 s1 r s2 -> post c n s r s2.
Proof. intros Hs Hc H1 H2 Hg. destruct r; [by apply (post_tree_before c n1 n2 n s s1)|by apply (growth_trans n1 n2 n c s s1)]. Qed.

(** A tree and the state it was made in, after more steps. *)
Lemma post_tree_after c n1 n2 n s t s1 s2 : state_ok s -> context_ok s c -> (n1 <= n)%nat -> (n2 <= n)%nat ->
  post_tree c n1 s t s1 -> grows n2 c s1 s2 -> post_tree c n s t s2.
Proof.
  intros Hs Hc H1 H2 (Hg & Ht & Hb) Hg'. destruct (grows_ok _ _ _ _ Hg Hc) as (Hs1 & Hc1 & Hp & He & Hl).
  destruct (grows_ok _ _ _ _ Hg' Hc1) as (_ & _ & _ & He' & Hl'). split; [exact (growth_trans n1 n2 n c s s1 s2 Hs Hc H1 H2 Hg Hg')|]. split.
  - eapply scoped_ext; [done| |done|done]. rewrite <- Hp. by apply path_bound.
  - exact (between_mono _ _ _ _ _ (le_n _) Hl' Hb).
Qed.

Lemma post_trees_cons c n1 n2 n s t s1 ts s2 : state_ok s -> context_ok s c -> (n1 <= n)%nat -> (n2 <= n)%nat ->
  post_tree c n1 s t s1 -> post_trees c n2 s1 ts s2 -> post_trees c n s (t :: ts) s2.
Proof.
  intros Hs Hc H1 H2 Ht (Hg' & Hts & Hb'). destruct (post_tree_after c n1 n2 n s t s1 s2 Hs Hc H1 H2 Ht Hg') as (Hg & Ht' & _).
  destruct Ht as (Hg1 & _ & Hb). destruct (grows_ok _ _ _ _ Hg1 Hc) as (_ & Hc1 & Hp & He & Hl). destruct (grows_ok _ _ _ _ Hg' Hc1) as (_ & _ & _ & _ & Hl').
  rewrite Hp in Hts. apply (scoped_all_less _ _ _ (defined_ext _ _ He)) in Hts. split; [done|]. split; [done|]. cbn [flat_map]. by apply (between_app _ (length (lams s1))).
Qed.

Section analysis.
Variable procedurep : sexp -> option bool.
Variable exceptionp : sexp -> bool.
Variable sexp_eval : context -> form -> state -> binding * state.
Variable expand : sexp -> form -> env -> env -> state -> (form + sexp) * state.

(** No macro is made: what a definition of syntax names or evaluates is no
    procedure, and evaluating it keeps the invariant. *)
Record no_macros : Prop := {
  no_procedures : forall w, procedurep w = None;
  eval_safe : forall c x s, state_ok s -> context_ok s c -> plain x = true -> after s (sexp_eval c x s).2 /\ value_ok (sexp_eval c x s).1
}.

(** That is asked for if a keyword that binds syntax may be bound. *)
Definition syntax_safe : Prop := forall op, binds_syntax op = true -> allows op -> no_macros.
Hypothesis Hsafe : syntax_safe.

Lemma macro_value_spec c x s : no_macros -> state_ok s -> context_ok s c -> plain x = true ->
  wp (macro_value sexp_eval c x) s (fun b s' => after s s' /\ value_ok b).
Proof.
  intros Hnm Hs Hc Hp. unfold macro_value. destruct (sexp_idp x) eqn:Eid.
  - destruct (plain_idp x Hp Eid) as [n ->]. apply wp_gets. split; [split; [done|]; split; [reflexivity|done]|].
    destruct Hc as [Hfv _ _]. unfold sexp_env_ref, sexp_env_cell. rewrite Hfv, plain_loc. destruct (sexp_env_cell_loc1 _ _ _ _) as [[i f]|] eqn:E; [|done].
    destruct (loc1_spec s _ Hs _ _ _ E) as (_ & Ha & _). cbn. by destruct (cell_value _).
  - apply wp_run. destruct (eval_safe Hnm c x s Hs Hc Hp) as [H1 H2]. destruct (sexp_eval c x s). done.
Qed.

Lemma bind_syntax_spec ls : forall ce cb localp s, no_macros -> state_ok s -> context_ok s ce -> context_ok s cb -> plain ls = true ->
  wp (analyze_bind_syntax procedurep exceptionp sexp_eval ls ce cb localp) s (fun _ s' => after s s').
Proof.
  assert (Hrefl : forall s, state_ok s -> after s s) by (intros s Hs; split; [done|]; split; [reflexivity|done]).
  induction ls as [w|b _ ls IH|w ls _|a e fv _ x _]; intros ce cb localp s Hnm Hs He Hb Hp; try exact (Hrefl s Hs).
  cbn [plain] in Hp. apply andb_true_iff in Hp as [Hpb Hp]. cbn [analyze_bind_syntax].
  destruct b as [|name [|x [w| | |]| |]| |]; try exact (Hrefl s Hs). destruct w; try exact (Hrefl s Hs).
  cbn [plain] in Hpb. apply andb_true_iff in Hpb as [Hn [Hx _]%andb_true_iff]. destruct (sexp_idp name) eqn:Eid; cbn [negb]; [|exact (Hrefl s Hs)].
  destruct (plain_idp name Hn Eid) as [n ->]. apply wp_bind. eapply wp_mono; [by apply macro_value_spec|]. cbn beta. intros b s1 [Ha Hm].
  assert (as_macro procedurep ce b = b) as -> by (destruct b; cbn; rewrite ?(no_procedures Hnm); done).
  destruct (sexp_syntacticp b) eqn:Es; cbn [negb]; [|exact Ha]. destruct b as [|op|m| |]; try done. cbn [sexp_synclop andb].
  destruct (context_after _ _ _ Ha He) as [He1 _], (context_after _ _ _ Ha Hb) as [Hb1 _]. pose proof Ha as (Hs1 & _ & _).
  apply wp_bind. destruct Hb1 as [Hfv Hch Hin]. destruct localp.
  - apply wp_modify. set (s2 := sexp_env_push _ _ _ s1). assert (after s1 s2) as Ha2.
    { apply quiet_after; [done|]. apply push_quiet; [|done|done]. destruct (context_env cb); [done|]. by destruct Hch. }
    pose proof Ha2 as (Hs2 & _). eapply wp_mono; [apply IH; [done|done|by apply (context_after s1)|by apply (context_after s1)|done]|].
    cbn. intros _ s3 Ha3. eapply after_trans; [exact Ha|]. by eapply after_trans.
  - apply wp_bind, wp_run. destruct He1 as [Hfve Hche Hine]. rewrite Hfve. pose proof (env_define_spec s1 (context_env cb) (Symbol n) op Hs1 Hch Hm) as Ha2.
    destruct (sexp_env_define _ _ _ _ _) as [ok s2]. cbn [snd] in Ha2. apply wp_ret. pose proof Ha2 as (Hs2 & _).
    eapply wp_mono; [apply IH; [done|done|by apply (context_after s1)|by apply (context_after s1)|done]|].
    cbn. intros _ s3 Ha3. eapply after_trans; [exact Ha|]. by eapply after_trans.
Qed.

(** ** Forms *)

(** What an identifier is bound to. *)
Lemma bound_ok s c a b : state_ok s -> context_ok s c -> plain a = true -> sexp_env_ref s (context_fv c) (context_env c) a = Some b -> value_ok b.
Proof.
  intros Hs [Hfv _ _] Ha. unfold sexp_env_ref, sexp_env_cell. rewrite Hfv. destruct a as [w|a d|w ls|]; [| | |done].
  - rewrite plain_loc. destruct (sexp_env_cell_loc1 _ _ _ _) as [[i f]|] eqn:E; [|done]. destruct (loc1_spec s _ Hs _ _ _ E) as (_ & Hacc & _).
    intros [= <-]. cbn. by destruct (cell_value _).
  - done.
  - unfold sexp_env_cell_loc. cbn. unfold key_cell. cbn. destruct (sexp_env_cell_loc1 _ _ _ _) as [[i f]|] eqn:E; [|done].
    destruct (loc1_spec s _ Hs _ _ _ E) as (_ & Hacc & _). intros [= <-]. cbn. by destruct (cell_value _).
Qed.

Lemma no_macro s c a : state_ok s -> context_ok s c -> plain a = true -> is_macro (sexp_env_ref s (context_fv c) (context_env c) a) = false.
Proof. intros Hs Hc Ha. pose proof (bound_ok s c a) as Hb. destruct (sexp_env_ref _ _ _ _) as [[]|]; try done. by destruct (Hb (BMacro m)). Qed.

Definition analyzes (N : nat) (an : context -> form -> Z -> Z -> M res) : Prop := forall c x depth defok s,
  state_ok s -> context_ok s c -> plain x = true -> (form_size x < N)%nat -> wp (an c x depth defok) s (post c (form_size x) s).

Definition analyzes_lambda (N : nat) (lambda : context -> form -> Z -> M res) : Prop := forall c x depth s,
  state_ok s -> context_ok s c -> plain x = true -> (form_size x < N)%nat -> wp (lambda c x depth) s (post c (form_size x) s).

Section forms.
Variable N : nat.
Variable an : context -> form -> Z -> Z -> M res.
Variable lambda : context -> form -> Z -> M res.
Hypothesis Han : analyzes N an.
Hypothesis Hlambda : analyzes_lambda N lambda.

Lemma list_spec x : forall c depth defok s, state_ok s -> context_ok s c -> plain x = true -> (form_size x <= N)%nat ->
  wp (analyze_list an c x depth defok) s (fun r s' => match r with
    | inl ts => post_trees c (form_size x) s ts s' /\ length ts = length (items x)
    | inr _ => grows (form_size x) c s s' end).
Proof.
  induction x as [w|a _ d IH|w ls _|a e fv _ x _]; intros c depth defok s Hs Hc Hp HN; try (split; [split; [by apply growth_refl|]; split; [done|apply between_nil]|done]).
  cbn [plain form_size] in *. apply andb_true_iff in Hp as [Ha Hd]. cbn [analyze_list]. apply wp_bind. eapply wp_mono; [apply Han; [done..|lia]|].
  intros [t|e] s1 Hr; [|eapply (growth_trans (form_size a) (form_size a)); [done|done|lia|lia|exact Hr|apply growth_refl; by destruct Hr]].
  destruct (grows_ok _ _ _ _ (proj1 Hr) Hc) as (Hs1 & Hc1 & _). apply wp_bind, wp_gets. apply wp_bind. eapply wp_mono; [apply IH; [done..|lia]|].
  intros [ts|e] s2 Hr2; apply wp_ret.
  - destruct Hr2 as [Hr2 Hl]. split; [by eapply post_trees_cons; [| |..|exact Hr|exact Hr2]; [done|done|lia|lia]|]. cbn. lia.
  - eapply (growth_trans (form_size a) (form_size d)); [done|done|lia|lia|exact (proj1 Hr)|exact Hr2].
Qed.

Lemma scoped_lambdas k s p ts : scoped_all k s p ts -> Forall (fun t => forall l b, t = TLam l b -> (l < length (lams s))%nat) ts.
Proof. induction ts as [|t ts IH]; [constructor|]. intros [Ht Hts]. constructor; [|auto]. intros l b ->. by destruct Ht. Qed.

Lemma app_spec c a d depth s : state_ok s -> context_ok s c -> plain (Cons a d) = true -> (form_size (Cons a d) <= N)%nat ->
  wp (analyze_app an c (Cons a d) depth) s (post c (form_size (Cons a d)) s).
Proof.
  intros Hs Hc Hp HN. unfold analyze_app. apply wp_bind. eapply wp_mono; [by apply list_spec|].
  intros [ts|e] s1 Hr; [|exact Hr]. destruct Hr as [Hr Hl]. destruct ts as [|f args]; [discriminate Hl|].
  pose proof Hr as (Hg & [Hf Hargs] & Hb). destruct (grows_ok _ _ _ _ Hg Hc) as (Hs1 & Hc1 & Hp1 & He1 & Hl1). apply wp_bind.
  assert (Hdone : forall s2, quiet s1 s2 -> wp (mret (T (TApp f args)) : M res) s2 (post c (form_size (Cons a d)) s)).
  { intros s2 Hq. pose proof (quiet_after _ _ Hs1 Hq) as Ha2. apply wp_ret. pose proof Ha2 as (_ & He2 & _).
    assert (Hpb : Forall (fun l => (l < length (lams s1))%nat) (path s (context_env c))) by (rewrite <- Hp1; by apply path_bound).
    split; [eapply (growth_trans _ 0); [done|done|reflexivity|lia|exact Hg|by apply grows_after]|]. split.
    - apply scoped_app. split; [by eapply scoped_ext|by eapply scoped_all_ext].
    - cbn [tree_lambdas]. cbn [flat_map] in Hb. exact (between_mono _ _ _ _ _ (le_n _) (ext_lams _ _ He2) Hb). }
  destruct f; try (apply wp_ret, Hdone; done). apply wp_modify, Hdone, name_operands_quiet. by eapply scoped_lambdas.
Qed.

Lemma seq_spec c ls depth defok s : state_ok s -> context_ok s c -> plain ls = true -> (form_size ls <= N)%nat -> pairp ls || nullp ls = true ->
  wp (analyze_seq an c ls depth defok) s (post c (form_size ls) s).
Proof.
  intros Hs Hc Hp HN Hls. unfold analyze_seq. destruct ls as [w|a d|w ls|]; try done.
  - destruct w; try done. apply wp_ret. split; [by apply growth_refl|]. split; [done|apply between_nil].
  - assert (Hlist : wp (r ← analyze_list an c (Cons a d) depth defok; mret (match r with inl ts => T (TSeq ts) | inr e => E e end)) s (post c (form_size (Cons a d)) s)).
    { apply wp_bind. eapply wp_mono; [by apply list_spec|]. intros [ts|e] s1 Hr; [|exact Hr]. destruct Hr as [(Hg & Ht & Hb) Hl]. apply wp_ret.
      split; [done|]. split; [|done]. apply scoped_seq. split; [|done]. by destruct ts. }
    assert (Hone : wp (an c a depth defok) s (post c (form_size (Cons a d)) s)).
    { cbn [plain form_size] in *. apply andb_true_iff in Hp as [Ha _]. eapply wp_mono; [apply Han; [done..|lia]|]. intros r s1 Hr.
      eapply (post_before c 0 (form_size a)); [done|done|lia|lia|by apply growth_refl|exact Hr]. }
    destruct d as [w| | |]; try exact Hlist. destruct w; try exact Hlist. exact Hone.
Qed.

Lemma cons_plain a d : plain (Cons a d) = true -> plain a = true /\ plain d = true.
Proof. apply andb_true_iff. Qed.

Lemma post_path c c' n s r s' : state_ok s -> context_ok s c -> context_ok s c' -> path s (context_env c') = path s (context_env c) ->
  post c' n s r s' -> post c n s r s'.
Proof.
  intros Hs Hc Hc' Hp. destruct r; [|by apply grows_path]. intros (Hg & Ht & Hb). split; [by eapply grows_path|]. by rewrite <- Hp.
Qed.

Lemma if_spec c x depth s : state_ok s -> context_ok s c -> plain x = true -> (form_size x <= N)%nat ->
  wp (analyze_if an c x depth) s (post c (form_size x) s).
Proof.
  intros Hs Hc Hp HN. unfold analyze_if. destruct x as [|k [|test [|pass r| |]| |]| |]; try (by apply growth_refl).
  apply cons_plain in Hp as [_ [Ht [Hpa Hr]%cons_plain]%cons_plain].
  set (n := form_size (Cons k (Cons test (Cons pass r)))) in *.
  assert (Hsz : (form_size k + form_size test + form_size pass + form_size r + 3 = n)%nat) by (unfold n; cbn; lia). pose proof (form_size_pos k). pose proof (form_size_pos r).
  assert (Hmain : forall f, plain f = true -> (form_size f <= form_size r)%nat ->
    wp (t ← an c test depth 0; match t with E e => mret (E e) | T t => p ← an c pass depth 0; match p with E e => mret (E e) | T p =>
          f ← an c f depth 0; mret (match f with T f => T (TCnd t p f) | E e => E e end) end end) s (post c n s)).
  { intros f Hf Hfr. apply wp_bind. eapply wp_mono; [apply Han; [done..|lia]|]. intros [t|e] s1 Hr1.
    2: { apply wp_ret. eapply (post_before c 0); [done|done| | |by apply growth_refl|exact Hr1]; lia. }
    destruct (grows_ok _ _ _ _ (proj1 Hr1) Hc) as (Hs1 & Hc1 & Hp1 & _ & Hl1). apply wp_bind. eapply wp_mono; [apply Han; [done..|lia]|]. intros [p|e] s2 Hr2.
    2: { apply wp_ret. eapply (growth_trans (form_size test) (form_size pass)); [done|done|lia|lia|exact (proj1 Hr1)|exact Hr2]. }
    pose proof (post_tree_after c (form_size test) (form_size pass) n s t s1 s2 Hs Hc ltac:(lia) ltac:(lia) Hr1 (proj1 Hr2)) as Ht2.
    pose proof (post_tree_before c (form_size test) (form_size pass) n s s1 p s2 Hs Hc ltac:(lia) ltac:(lia) (proj1 Hr1) Hr2) as Hpa2.
    destruct (grows_ok _ _ _ _ (proj1 Ht2) Hc) as (Hs2 & Hc2 & Hp2 & He2 & Hl2). apply wp_bind. eapply wp_mono; [apply Han; [done..|lia]|]. intros [f'|e] s3 Hr3; apply wp_ret.
    2: { eapply (growth_trans n (form_size f)); [done|done|lia|lia|exact (proj1 Ht2)|exact Hr3]. }
    pose proof (post_tree_after c n (form_size f) n s t s2 s3 Hs Hc ltac:(lia) ltac:(lia) Ht2 (proj1 Hr3)) as (Hg3 & Hts & _).
    pose proof (post_tree_after c n (form_size f) n s p s2 s3 Hs Hc ltac:(lia) ltac:(lia) Hpa2 (proj1 Hr3)) as (_ & Hps & _).
    destruct Hr3 as (Hg & Hfs & Hb3). rewrite Hp2 in Hfs. apply (scoped_less _ _ _ (defined_ext _ _ He2)) in Hfs. split; [done|]. split; [done|]. cbn [tree_lambdas].
    destruct Hr1 as (_ & _ & Hb1), Hr2 as (Hg2 & _ & Hb2). destruct (grows_ok _ _ _ _ Hg2 Hc1) as (_ & _ & _ & _ & Hl2'). destruct (grows_ok _ _ _ _ Hg Hc2) as (_ & _ & _ & _ & Hl3).
    apply (between_app _ (length (lams s1))); [lia|done|]. apply (between_app _ (length (lams s2))); [lia|done|done]. }
  destruct r as [w|f [w|g r| |]| |]; first [by apply growth_refl | apply Hmain; [first [done | by apply cons_plain in Hr as [? _]] | cbn; lia]].
Qed.

Lemma let_syntax_spec c x recp depth s : no_macros -> state_ok s -> context_ok s c -> plain x = true -> (form_size x <= N)%nat ->
  wp (analyze_let_syntax_aux procedurep exceptionp sexp_eval an c x recp depth) s (post c (form_size x) s).
Proof.
  intros Hnm Hs Hc Hp HN. unfold analyze_let_syntax_aux. destruct x as [|k [|bs [|b body| |]| |]| |]; try (by apply growth_refl).
  apply cons_plain in Hp as [_ [Hbs Hbody]%cons_plain]. apply wp_bind, wp_gets. apply wp_bind, wp_modify.
  set (f := length (frames s)). set (s1 := new_frame _ s). pose proof (quiet_after _ _ Hs (new_frame_quiet true false s)) as Ha1. fold s1 in Ha1.
  pose proof Ha1 as (Hs1 & He1 & _). destruct (context_after _ _ _ Ha1 Hc) as [Hc1 Hp1].
  assert (Hgf : get_frame s1 f = Frame [] [] None true false) by exact (total_app_r (frames s) _).
  set (c2 := Context (f :: context_env c) (context_lambda c) (context_fv c)).
  assert (Hp2 : path s1 (context_env c2) = path s1 (context_env c)) by (cbn [context_env c2]; rewrite path_cons, Hgf; done).
  assert (Hc2 : context_ok s1 c2).
  { destruct Hc1 as [Hfv Hch Hin]. split; [done| |by rewrite Hp2]. cbn [chain_ok c2 context_env]. rewrite Hgf. cbn. split; [|done].
    unfold s1. cbn. rewrite length_app. simpl. unfold f. lia. }
  apply wp_bind. eapply wp_mono; [apply bind_syntax_spec; [done|done|by destruct recp|done|done]|]. cbn beta. intros [e|] s2 Ha2.
  { apply wp_ret. apply grows_after. by eapply after_trans. }
  pose proof Ha2 as (Hs2 & _ & _). destruct (context_after _ _ _ Ha2 Hc2) as [Hc22 Hp22]. destruct (context_after _ _ _ Ha2 Hc1) as [Hc12 Hp12].
  pose proof (form_size_pos k). pose proof (form_size_pos bs). eapply wp_mono; [apply seq_spec; [done|done|done|cbn in *; lia|done]|]. intros r s3 Hr.
  eapply (post_before c 0 (form_size (Cons b body))); [done|done|lia|cbn; lia|apply grows_after; by eapply after_trans|].
  eapply post_path; [done|done|exact Hc22|congruence|exact Hr].
Qed.

(** [set!] marks a local variable as assigned. *)
Lemma marks_assigned k s p m i : state_ok s -> Forall (fun l => (l < length (lams s))%nat) p -> ref_ok k s p m i ->
  let s' := match cell_value (get_cell s i) with BLambda l => insert_sv l m s | _ => s end in
  after s s' /\ scoped k s' p (TSet m (Some i) (TSelf VOID)).
Proof.
  intros Hs Hp Hr. assert (Hrefl : after s s) by (split; [done|]; split; [reflexivity|done]). pose proof Hr as [_ Hl].
  destruct (cell_value (get_cell s i)) as [l| | | |] eqn:Ev; cbn zeta; try (split; [done|]; split; [done|]; split; [intros l'; rewrite Ev; discriminate|done]).
  cbn [local_of] in Hl. destruct Hl as [_ (p1 & p2 & -> & _)]. pose proof Hp as Hp'. apply Forall_app in Hp' as [_ Hp']. apply Forall_cons_1 in Hp' as [Hl _].
  destruct (insert_sv_quiet l m s Hl) as [Hq Hin]. pose proof (quiet_after _ _ Hs Hq) as Ha. split; [done|]. destruct Ha as (_ & He & _).
  split; [by apply (ref_ok_ext k s)|]. split; [|done]. intros l'. change (get_cell (insert_sv l m s) i) with (get_cell s i). rewrite Ev. by intros [= <-].
Qed.

Lemma set_spec c x depth s : state_ok s -> context_ok s c -> plain x = true -> (form_size x <= N)%nat ->
  wp (analyze_set expand an c x depth) s (fun r s' => match r with inl r => post c (form_size x) s r s' | inr _ => False end).
Proof.
  intros Hs Hc Hp HN. unfold analyze_set.
  destruct x as [|k [|v [|e [w| | |]| |]| |]| |]; try (by apply growth_refl). destruct w; try (by apply growth_refl).
  set (n := form_size _). apply cons_plain in Hp as [_ [Hv [He _]%cons_plain]%cons_plain]. destruct (sexp_idp v) eqn:Eid; cbn [negb]; [|by apply growth_refl].
  assert (Hsz : (form_size e < n)%nat) by (unfold n; cbn; lia).
  destruct (plain_idp v Hv Eid) as [name ->]. apply wp_bind, wp_gets.
  assert (Hnm : is_macro (sexp_env_ref s (context_fv c) (context_env c) (Atom (Symbol name))) = false).
  { destruct Hc as [Hfv _ _]. unfold sexp_env_ref, sexp_env_cell. rewrite Hfv, plain_loc. destruct (sexp_env_cell_loc1 _ _ _ _) as [[i f]|] eqn:E; [|done].
    destruct (loc1_spec s _ Hs _ _ _ E) as (_ & Ha & _). cbn. by destruct (cell_value _). }
  match goal with |- wp (match _ with Some _ => _ | None => ?m end) _ _ => assert (Hmain : wp m s (fun r s' => match r with inl r => post c n s r s' | inr _ => False end)) end;
    [|destruct (sexp_env_ref _ _ _ _) as [[]|]; done].
  apply wp_bind. eapply wp_mono; [by apply var_ref_spec|]. cbn beta. intros r s1 [Ha1 Hr]. pose proof Ha1 as (Hs1 & He1 & _). destruct (context_after _ _ _ Ha1 Hc) as [Hc1 Hp1].
  destruct r as [[[m i] f]|er].
  - destruct Hr as [Hr _]. apply wp_bind, wp_modify. set (s2 := match _ with BLambda l => _ | _ => _ end).
    assert (after s1 s2 /\ scoped (defined s) s2 (path s1 (context_env c)) (TSet m (Some i) (TSelf VOID))) as [Ha2 Hsc].
    { apply (marks_assigned _ s1); [done| |by rewrite Hp1]. by apply path_bound. }
    pose proof Ha2 as (Hs2 & He2 & _). destruct (context_after _ _ _ Ha2 Hc1) as [Hc2 Hp2].
    apply wp_bind. eapply wp_mono; [apply Han; [done..|lia]|]. intros rv s3 Hrv. apply wp_bind, wp_gets, wp_ret. cbn [id].
    pose proof (post_before c 0 (form_size e) n s s2 rv s3 Hs Hc ltac:(lia) ltac:(lia) (grows_after 0 c _ _ (after_trans _ _ _ Ha1 Ha2)) Hrv) as Hpost.
    destruct rv as [t|er]; [|exact Hpost]. case_match; [exact (proj1 Hpost)|]. destruct Hpost as (Hg & Ht & Hb). split; [done|]. split; [|done].
    destruct Hrv as ((_ & He3 & _) & _). rewrite Hp1 in Hsc. apply (scoped_ext _ s2 s3) in Hsc; [|done|rewrite <- Hp1, <- Hp2; by apply path_bound|done].
    destruct Hsc as (H1 & H2 & _). done.
  - apply wp_bind, wp_ret, wp_bind. eapply wp_mono; [apply Han; [done..|lia]|]. intros rv s3 Hrv. apply wp_bind, wp_gets, wp_ret.
    destruct rv as [t|e']; (eapply (growth_trans 0 (form_size e)); [done|done|lia|lia|by apply grows_after|]); [exact (proj1 Hrv)|exact Hrv].
Qed.

Lemma post_trees_snoc c n1 n2 n s t s1 ts s2 : state_ok s -> context_ok s c -> (n1 <= n)%nat -> (n2 <= n)%nat ->
  post_tree c n1 s t s1 -> post_trees c n2 s1 ts s2 -> post_trees c n s (ts ++ [t]) s2.
Proof.
  intros Hs Hc H1 H2 Ht Hts. destruct (post_trees_cons c n1 n2 n s t s1 ts s2 Hs Hc H1 H2 Ht Hts) as (Hg & [Ht' Hts'] & Hb).
  split; [done|]. split; [apply scoped_all_app; split; [done|by split]|]. rewrite flat_map_app. cbn [flat_map] in *. rewrite app_nil_r.
  destruct Hb as [Hf Hn]. split; [apply Forall_app in Hf as [? ?]; by apply Forall_app|by rewrite Permutation_app_comm].
Qed.

(** The assignment of one delayed definition. *)
Definition assignment (l : nat) (name : form) (c : context) (t : tree) : M (tree + error) :=
  modify (name_lambda (key_word name) t);;
  r ← analyze_var_ref c name;
  match r with
  | inr e => mret (inr e)
  | inl (n, cell, _) => modify (insert_sv l (key_word name));; mret (inl (TSet n (Some cell) t))
  end.

Lemma assignment_spec l p c n name t s s0 : state_ok s0 -> context_ok s0 c -> path s0 (context_env c) = l :: p -> plain name = true -> sexp_idp name = true ->
  key_word name ∈ vars (get_lam s0 l) -> post_tree c n s0 t s ->
  wp (assignment l name c t) s (fun r s' => match r with inl t' => post_tree c n s0 t' s' /\ (exists i, t' = TSet (key_word name) (Some i) t /\ cell_value (get_cell s' i) = BLambda l) | inr _ => grows n c s0 s' end).
Proof.
  intros Hs0 Hc0 Hpath Hpl Hid Hvar Ht. pose proof Ht as (Hg & Hsc & Hb). destruct (grows_ok _ _ _ _ Hg Hc0) as (Hs & Hc & Hp & He & Hl).
  unfold assignment. apply wp_bind, wp_modify. set (s1 := name_lambda _ t s).
  assert (Ha1 : after s s1). { apply quiet_after; [done|]. apply name_lambda_quiet. intros i b ->. by destruct Hsc. }
  pose proof Ha1 as (Hs1 & He1 & _). destruct (context_after _ _ _ Ha1 Hc) as [Hc1 Hp1].
  apply wp_bind. eapply wp_mono; [by apply var_ref_spec|]. cbn beta. intros r s2 [Ha2 Hr]. pose proof (after_trans _ _ _ Ha1 Ha2) as Ha12.
  destruct r as [[[m i] f]|e]; [|apply wp_ret; eapply (growth_trans n 0); [done|done|done|lia|exact Hg|by apply grows_after]].
  destruct Hr as [Hr Hown]. pose proof Ha2 as (Hs2 & He2 & _). destruct (context_after _ _ _ Ha2 Hc1) as [Hc2 Hp2].
  assert (Hq1 : path s1 (context_env c) = l :: p) by congruence. rewrite Hq1 in Hr, Hown.
  assert (Hbd : Forall (fun l => (l < length (lams s2))%nat) (l :: p)) by (rewrite <- Hq1, <- Hp2; by apply path_bound).
  assert (Hl2 : (l < length (lams s2))%nat) by (by apply Forall_cons_1 in Hbd as [? _]).
  destruct (insert_sv_quiet l (key_word name) s2 Hl2) as [Hq Hin]. pose proof (quiet_after _ _ Hs2 Hq) as Ha3. apply wp_bind, wp_modify, wp_ret.
  pose proof (after_trans _ _ _ Ha12 Ha3) as Ha. pose proof (post_tree_after c n 0 n s0 t s _ Hs0 Hc0 ltac:(lia) ltac:(lia) Ht (grows_after 0 c _ _ Ha)) as (Hg3 & Ht3 & Hb3).
  assert (Hl0 : (l < length (lams s0))%nat) by (pose proof (path_bound s0 (context_env c) Hs0) as Hbd0; rewrite Hpath in Hbd0; by apply Forall_cons_1 in Hbd0 as [? _]).
  destruct (Hown l p) as [Hval ->]; [done|apply (ext_vars s0 s1); [by etrans|done|done]|].
  split; [|by exists i]. split; [done|]. split; [|done]. rewrite Hpath in Ht3 |- *. split; [|split; [|done]].
  - destruct Ha3 as (_ & He3 & _). eapply ref_ok_ext; [exact He3|exact Hbd|]. eapply ref_ok_less; [|exact Hr]. apply defined_ext. by etrans.
  - intros l'. change (get_cell (insert_sv l (key_word name) s2) i) with (get_cell s2 i). rewrite Hval. by intros [= <-].
Qed.

(** The assignment that a definition of the lambda [l] becomes. *)
Definition defines_local (s : state) (l : nat) (n : sexp) (t : tree) : Prop :=
  exists i v, t = TSet n (Some i) v /\ (i < length (cells s))%nat /\ cell_value (get_cell s i) = BLambda l.

Lemma defines_local_ext s s' l n t : ext s s' -> defines_local s l n t -> defines_local s' l n t.
Proof.
  intros He (i & v & -> & Hi & Hv). exists i, v. split; [done|]. split; [pose proof (ext_cells _ _ He); lia|]. by apply (ext_local _ _ He).
Qed.

Definition defined_word (d : form * context) : sexp := key_word (def_name d.1).

Lemma delayed_defs_cons l target body c ds depth acc s :
  delayed_defs an lambda l ((Cons target body, c) :: ds) depth acc s =
  (v ← match target, body with
       | Cons _ ps, _ => lambda c (Cons VOID (Cons ps body)) depth
       | _, Cons x _ => an c x depth 0
       | _, _ => crash
       end;
   match v with
   | E e => mret (inr e)
   | T t => r ← assignment l (match target with Cons a _ => a | _ => target end) c t;
            match r with inr e => mret (inr e) | inl t => delayed_defs an lambda l ds depth (t :: acc) end
   end) s.
Proof.
  cbn [delayed_defs]. unfold mbind, M_bind. match goal with |- match ?m with _ => _ end = _ => destruct m as [[t|e] s1| |]; try reflexivity end.
  unfold assignment, mbind, M_bind. cbn. destruct (analyze_var_ref _ _ _) as [[[[m i] f]|e] s2| |]; reflexivity.
Qed.

Lemma delayed_spec l p n c depth ds : forall acc s, state_ok s -> context_ok s c -> path s (context_env c) = l :: p -> (n <= N)%nat ->
  Forall (good_def s c n) ds ->
  wp (delayed_defs an lambda l ds depth acc) s (fun r s' => match r with
    | inl ts => exists new, ts = new ++ acc /\ post_trees c n s new s' /\ Forall2 (defines_local s' l) (rev (map defined_word ds)) new
    | inr _ => grows n c s s' end).
Proof.
  induction ds as [|[d c3] ds IH]; intros acc s Hs Hc Hpath HN Hds.
  { exists []. split; [done|]. split; [|constructor]. split; [by apply growth_refl|]. split; [done|apply between_nil]. }
  apply Forall_cons_1 in Hds as [[Hsz Hpl (target & v & r & Ed) Hid Hc3 Hp3 Hvar] Hds]. cbn [fst snd] in *. subst d. unfold wp. rewrite delayed_defs_cons. fold (wp (A := list tree + error)).
  set (name := match target with Cons a _ => a | _ => target end). apply cons_plain in Hpl as [Htp Hbp].
  assert (Hname : def_name (Cons target (Cons v r)) = name) by (by destruct target). rewrite Hname in *.
  assert (Hnp : plain name = true) by (unfold name; destruct target; try done; by apply cons_plain in Htp as [? _]).
  match goal with |- match (?m ≫= ?k) s with Done a s' => @?Q a s' | _ => _ end => change (wp (m ≫= k) s Q) end. apply wp_bind.
  assert (Hv : wp (match target, Cons v r with
       | Cons _ ps, _ => lambda c3 (Cons VOID (Cons ps (Cons v r))) depth
       | _, Cons x _ => an c3 x depth 0
       | _, _ => crash end) s (post c3 n s)).
  { pose proof Hbp as [Hvp _]%cons_plain. cbn [form_size] in Hsz. destruct target as [w|a ps|w ls|].
    - eapply wp_mono; [apply Han; [done..|cbn in *; lia]|]. intros r1 s1 Hr. eapply (post_before c3 0); [done|done| | |by apply growth_refl|exact Hr]; cbn in *; lia.
    - apply cons_plain in Htp as [_ Hps]. assert (Hpl' : plain (Cons VOID (Cons ps (Cons v r))) = true) by (change (plain ps && plain (Cons v r) = true); by rewrite Hps, Hbp).
      eapply wp_mono; [apply Hlambda; [done|done|exact Hpl'|cbn in *; pose proof (form_size_pos a); lia]|]. intros r1 s1 Hr.
      eapply (post_before c3 0); [done|done| | |by apply growth_refl|exact Hr]; cbn in *; pose proof (form_size_pos a); lia.
    - eapply wp_mono; [apply Han; [done..|cbn in *; lia]|]. intros r1 s1 Hr. eapply (post_before c3 0); [done|done| | |by apply growth_refl|exact Hr]; cbn in *; lia.
    - done. }
  eapply wp_mono; [exact Hv|]. intros [t|e] s1 Hr; [|apply wp_ret; by eapply grows_path].
  apply wp_bind. eapply wp_mono; [eapply (assignment_spec l p c3 n name t s1 s); [done|done|congruence|done|done|by apply Hvar with p|exact Hr]|].
  cbn beta. intros [t'|e] s2 Hr2; [|apply wp_ret; by eapply grows_path]. destruct Hr2 as [Hr2 (i & Ei & Hi)].
  pose proof (post_path c c3 n s (T t') s2 Hs Hc Hc3 Hp3 Hr2) as Hpt. destruct (grows_ok _ _ _ _ (proj1 Hpt) Hc) as (Hs2 & Hc2 & Hp2 & He2 & _).
  eapply wp_mono; [apply IH; [done|done|congruence|done|]|].
  { eapply Forall_impl; [|exact Hds]. intros d Hd. by apply (good_def_ext s s2 c n n). }
  intros [ts|e] s3 Hr3; [|eapply (growth_trans n n); [done|done|done|done|exact (proj1 Hpt)|exact Hr3]].
  destruct Hr3 as (new & -> & Hnew & Hds'). exists (new ++ [t']). split; [by rewrite <- app_assoc|]. split; [by apply (post_trees_snoc c n n n s t' s2)|].
  cbn [map rev]. apply Forall2_app; [done|]. constructor; [|constructor]. destruct Hnew as ((_ & He3 & _) & _). apply (defines_local_ext s2 s3); [done|].
  unfold defined_word. cbn [fst]. rewrite Hname. exists i, t. split; [done|]. split; [|done]. destruct Hr2 as (_ & Hsc & _). subst t'. cbn [scoped] in Hsc. by destruct Hsc as [[? _] _].
Qed.

Lemma add_defs_scoped k s p ds b : scoped_all k s p ds -> scoped k s p b -> scoped k s p (add_defs ds b).
Proof.
  intros Hds Hb. destruct ds as [|d ds]; [done|]. unfold add_defs.
  assert (forall b', b' = [b] \/ (exists ls, b = TSeq ls /\ b' = ls) -> scoped k s p (TSeq ((d :: ds) ++ b'))) as H.
  { intros b' Hb'. apply scoped_seq. split; [done|]. apply scoped_all_app. split; [done|]. destruct Hb' as [-> |(ls & -> & ->)]; [by split|]. by apply scoped_seq in Hb as [_ ?]. }
  destruct b; apply H; eauto.
Qed.

Lemma add_defs_lambdas ds b : tree_lambdas (add_defs ds b) = flat_map tree_lambdas ds ++ tree_lambdas b.
Proof.
  destruct ds as [|d ds]; [done|]. unfold add_defs.
  destruct b; cbn [tree_lambdas]; rewrite flat_map_app; cbn [flat_map tree_lambdas]; rewrite ?app_nil_r; done.
Qed.

(** The state and the context in which the body of a lambda is analyzed. *)
Record entered (c : context) (ps : form) (l : nat) (s s1 : state) (c1 : context) : Prop := Entered {
  entered_after : after s s1;
  entered_context : context_ok s1 c1;
  entered_path : path s1 (context_env c1) = l :: path s (context_env c);
  entered_number : l = length (lams s) /\ length (lams s1) = S l;
  entered_lam : get_lam s1 l = sexp_make_lambda ps;
  entered_unchanged : unchanged s s1;
  entered_frame : exists f, context_env c1 = f :: context_env c /\ (f < length (frames s1))%nat /\ env_lambda (get_frame s1 f) = Some l /\
    renames (get_frame s1 f) = [] /\ forall i, i ∈ bindings (get_frame s1 f) -> cell_value (get_cell s1 i) = BLambda l
}.

(** What is done when the body of the lambda [l] has become [b]. *)
Definition finish (l : nat) (b : tree) (depth : Z) : M res :=
  ds ← gets (fun s => defs (get_lam s l));
  r ← delayed_defs an lambda l ds depth [];
  mret (match r with inl ds => T (TLam l (add_defs ds b)) | inr e => E e end).

Lemma enter_lambda c k ps b bs depth s : state_ok s -> context_ok s c -> bad_params ps = None ->
  let l := length (lams s) in
  exists s1 c1, entered c ps l s s1 c1 /\
    analyze_lambda_body an lambda c (Cons k (Cons ps (Cons b bs))) depth s =
      (b ← analyze_seq an c1 (Cons b bs) depth 1; match b with E e => mret (E e) | T b => finish l b depth end) s1.
Proof.
  intros Hs Hc Hps l. set (y := sexp_make_lambda ps). pose proof (new_lambda_spec y (context_env c) s eq_refl eq_refl Hs) as Hnew. cbn zeta in Hnew. fold l in Hnew.
  set (body := Cons b bs). unfold analyze_lambda_body, body at 1. cbv iota. rewrite Hps. fold body y.
  set (f := length (frames s)) in *. destruct (sexp_extend_env (context_env c) (sexp_flatten_dot y) (BLambda l) (new_lam y s).2) as [e s2] eqn:Ee.
  cbn [fst snd] in Hnew. destruct Hnew as (-> & Hs3 & He3 & Hd3 & Hf3 & Hl3 & Hy & Hel & Hun & Hren & Hbs).
  set (s3 := set_env_lambda f l s2) in *. assert (Ha3 : after s s3) by done. destruct (context_after _ _ _ Ha3 Hc) as [Hc3 Hp3].
  set (c' := Context (f :: context_env c) (Some l) (context_fv c)).
  assert (Hp' : path s3 (context_env c') = l :: path s (context_env c)) by (cbn [context_env c']; rewrite path_cons, Hel, Hp3; done).
  assert (Hc' : context_ok s3 c').
  { destruct Hc3 as [Hfv Hch Hin]. split; [done| |by rewrite Hp']. cbn [chain_ok c' context_env]. rewrite Hel. split; [lia|]. by rewrite bool_decide_true. }
  exists s3, c'. split; [split; try done|].
  - exists f. split_and!; try done. lia.
  - unfold mbind at 1, M_bind at 1, run at 1. unfold new_lam at 1. fold l. unfold mbind at 1, M_bind at 1, run at 1.
    change (State (cells s) (renamed s) (frames s) (lams s ++ [y]) (warned s)) with (new_lam y s).2. rewrite Ee. reflexivity.
Qed.

Lemma finish_spec n c l p b depth s s1 ps : state_ok s -> context_ok s c -> path s (context_env c) = l :: p -> get_lam s l = sexp_make_lambda ps ->
  (l < length (lams s))%nat -> grows n c s s1 -> (n <= N)%nat ->
  wp (finish l b depth) s1 (fun r s2 => match r with
    | T t => exists ts, t = TLam l (add_defs ts b) /\ post_trees c n s1 ts s2 /\ Forall2 (defines_local s2 l) (rev (map defined_word (defs (get_lam s1 l)))) ts
    | E _ => grows n c s1 s2 end).
Proof.
  intros Hs Hc Hp Hy Hl Hg HN. destruct (grows_ok _ _ _ _ Hg Hc) as (Hs1 & Hc1 & Hp1 & _ & _). unfold finish. apply wp_bind, wp_gets, wp_bind.
  assert (Hds : Forall (good_def s1 c n) (defs (get_lam s1 l))).
  { destruct Hg as (_ & _ & Hd). destruct (Hd l Hl) as (new & -> & _ & Hnew). rewrite Hy. cbn [sexp_make_lambda defs]. by rewrite app_nil_r. }
  eapply wp_mono; [apply (delayed_spec l p n c); [done|done|congruence|lia|done]|].
  intros [ts|e] s2 Hr; apply wp_ret; [|done]. destruct Hr as (new & -> & Hnew & Hnames). exists new. by rewrite app_nil_r.
Qed.

Lemma lambda_spec c x depth s : state_ok s -> context_ok s c -> plain x = true -> (form_size x <= N)%nat ->
  wp (analyze_lambda_body an lambda c x depth) s (post c (form_size x) s).
Proof.
  intros Hs Hc Hp HN. destruct x as [|k [|ps [|b bs| |]| |]| |]; try (by apply growth_refl).
  apply cons_plain in Hp as [_ [Hps Hbody]%cons_plain]. destruct (bad_params ps) eqn:Ebad.
  { unfold analyze_lambda_body. rewrite Ebad. by apply growth_refl. }
  destruct (enter_lambda c k ps b bs depth s Hs Hc Ebad) as (s3 & c' & [Ha3 Hc' Hp' [_ Hl3] Hy _ _] & E). unfold wp. rewrite E. clear E.
  set (l := length (lams s)) in *. set (body := Cons b bs) in *. set (n := form_size (Cons k (Cons ps body))) in *. pose proof Ha3 as (Hs3 & He3 & _).
  assert (Hn : (form_size body + 2 < n)%nat) by (unfold n; cbn; pose proof (form_size_pos k); pose proof (form_size_pos ps); lia).
  match goal with |- match (?m ≫= ?f) s3 with Done a s' => @?Q a s' | _ => _ end => change (wp (m ≫= f) s3 Q) end.
  apply wp_bind. eapply wp_mono; [apply seq_spec; [done|done|done|lia|done]|]. intros [t|e] s4 Hr4.
  2: { apply wp_ret. eapply (grows_inner n _ c c' l s s3); [done|done|by rewrite Hp'|exact Hr4]. }
  pose proof (proj1 Hr4) as Hg4. destruct (grows_ok _ _ _ _ Hg4 Hc') as (Hs4 & Hc4 & Hp4 & He4 & Hl4).
  eapply wp_mono; [apply (finish_spec (form_size body) c' l (path s (context_env c)) t depth s3 s4 ps); try done; lia|].
  intros r s5 Hr5. destruct r as [t'|e].
  2: { eapply (grows_inner n (form_size body) c c' l s s3); [done|done|by rewrite Hp'|]. by eapply (growth_trans (form_size body) (form_size body)); [| | | |exact Hg4|exact Hr5]. }
  destruct Hr5 as (new & -> & Hnew & _).
  pose proof (post_tree_after c' (form_size body) (form_size body) (form_size body) s3 t s4 s5 Hs3 Hc' ltac:(lia) ltac:(lia) Hr4 (proj1 Hnew)) as (Hg5 & Ht5 & _).
  destruct Hnew as (Hg45 & Hts & Hbts), Hr4 as (_ & _ & Hb4). destruct (grows_ok _ _ _ _ Hg45 Hc4) as (_ & _ & _ & _ & Hl5).
  split; [eapply (grows_inner n (form_size body) c c' l s s3); [done|done|by rewrite Hp'|exact Hg5]|]. rewrite Hp4, Hp' in Hts. rewrite Hp' in Ht5. split.
  - split; [lia|]. apply add_defs_scoped.
    + eapply scoped_all_less; [|exact Hts]. apply defined_ext. by etrans.
    + eapply scoped_less; [|exact Ht5]. by apply defined_ext.
  - cbn [tree_lambdas]. rewrite add_defs_lambdas.
    assert (between (S l) (length (lams s5)) (flat_map tree_lambdas new ++ tree_lambdas t)) as Hbt by (rewrite Hl3 in Hb4; apply (between_app' _ (length (lams s4))); [lia|done|done]).
    apply (between_app l (S l) (length (lams s5)) [l]); [lia| |done]. split; [constructor; [lia|constructor]|apply NoDup_singleton].
Qed.

Lemma define_spec c x depth s : state_ok s -> context_ok s c -> plain x = true -> (form_size x <= N)%nat ->
  wp (analyze_define an lambda c x depth) s (post c (form_size x) s).
Proof.
  intros Hs Hc Hp HN. unfold analyze_define. destruct x as [|k [|target [|v r| |]| |]| |]; try (by apply growth_refl).
  apply cons_plain in Hp as [_ [Htp Hbody]%cons_plain]. set (name := match target with Cons a _ => a | _ => target end). set (body := Cons v r) in *. set (n := form_size (Cons k (Cons target body))) in *.
  assert (Hn : (form_size target + form_size body + 2 < n + 0)%nat) by (unfold n; cbn; pose proof (form_size_pos k); lia).
  assert (Hnp : plain name = true) by (unfold name; destruct target; try done; by apply cons_plain in Htp as [? _]).
  destruct (sexp_idp name) eqn:Eid; cbn [negb]; [|by apply growth_refl]. destruct (plain_idp name Hnp Eid) as [sym Eid']. assert (Hkw : key_word name = Symbol sym) by (by rewrite Eid').
  apply wp_bind, wp_gets, wp_bind, wp_gets. pose proof Hc as [Hfv Hch Hin]. destruct (skip_syntactic_spec s (context_env c) Hs Hch) as (Hch' & Hpath' & Hsyn & Hhead).
  set (e := skip_syntactic s (context_env c)) in *. destruct (env_lambda (get_frame s (head_frame e))) as [l|] eqn:El.
  - assert (Hpl : path s (context_env c) = l :: path s (tail e)).
    { rewrite <- Hpath'. destruct e as [|f e']; [done|]. change (head_frame (f :: e')) with f in El. rewrite path_cons, El. done. }
    rewrite Hin, Hpl. cbn [head]. apply wp_bind, wp_modify, wp_bind, wp_modify, wp_ret.
    destruct (push_def_spec (head_frame e) l (key_word name) (Cons target body, c) s Hs El) as (Hs' & He' & Hl' & Hvar & Hdefs). set (s' := push_def _ _ _ _) in *.
    assert (Hc' : context_ok s' c) by (by eapply context_ext). assert (Hpc : path s' (context_env c) = path s (context_env c)) by (by apply context_path).
    split; [|split; [done|apply between_nil]]. split; [done|]. split; [done|]. intros i Hi. rewrite Hdefs by done. case_decide as Ei; [|by exists []].
    subst i. exists [(Cons target body, c)]. split; [done|]. split; [by rewrite Hpl|]. constructor; [|constructor].
    assert (Hdn : def_name (Cons target body) = name) by (by destruct target). split; cbn [fst snd].
    + unfold n. cbn. pose proof (form_size_pos k). lia.
    + change (plain target && plain body = true). by rewrite Htp, Hbody.
    + by exists target, v, r.
    + by rewrite Hdn.
    + done.
    + done.
    + intros l' p'. rewrite Hpc, Hpl. intros [= <- _]. by rewrite Hdn.
  - destruct (cell_define_spec s e (key_word name) SEXP_VOID Hs Hch') as (i & f & s1 & Ed & Ha1 & Hlt & Hk & Hval).
    assert (Hglob : path s (context_env c) = [] /\ toplevel_frame s e = Some (head_frame e)).
    { rewrite <- Hpath'. destruct e as [|g e']; [done|]. change (head_frame (g :: e')) with g in *. cbn [chain_ok toplevel_frame] in *. rewrite path_cons, El, Hsyn in *. cbn in *. by destruct Hch' as (_ & -> & _). }
    destruct Hglob as [Hpe Htop]. apply wp_bind. unfold run_or_crash, wp at 1. rewrite Ed. cbn [snd].
    pose proof Ha1 as (Hs1 & He1 & _). destruct (context_after _ _ _ Ha1 Hc) as [Hc1 Hp1].
    pose proof (cell_define_name s e (key_word name) SEXP_VOID i f s1 Hs Hch' Ed _ Htop) as Hname1. rewrite Hkw in Hname1.
    apply wp_bind. assert (Hv : wp (match target with Cons _ ps => lambda c (Cons VOID (Cons ps body)) depth | _ => an c v depth 0 end) s1 (post c n s1)).
    { destruct target as [w|a ps|w ls|].
      - eapply wp_mono; [apply Han; [done|done|by apply cons_plain in Hbody as [? _]|cbn in *; lia]|]. intros r1 s2 Hr. eapply (post_before c 0); [done|done| | |by apply growth_refl|exact Hr]; cbn in *; lia.
      - apply cons_plain in Htp as [_ Hps]. assert (Hpl' : plain (Cons VOID (Cons ps body)) = true) by (change (plain ps && plain body = true); by rewrite Hps, Hbody).
        eapply wp_mono; [apply Hlambda; [done|done|exact Hpl'|cbn in *; pose proof (form_size_pos a); lia]|]. intros r1 s2 Hr.
        eapply (post_before c 0); [done|done| | |by apply growth_refl|exact Hr]; cbn in *; pose proof (form_size_pos a); lia.
      - eapply wp_mono; [apply Han; [done|done|by apply cons_plain in Hbody as [? _]|cbn in *; lia]|]. intros r1 s2 Hr. eapply (post_before c 0); [done|done| | |by apply growth_refl|exact Hr]; cbn in *; lia.
      - done. }
    eapply wp_mono; [exact Hv|]. intros rv s2 Hrv. apply wp_bind, wp_gets. cbn [id].
    pose proof (post_before c 0 n n s s1 rv s2 Hs Hc ltac:(lia) ltac:(lia) (grows_after 0 c _ _ Ha1) Hrv) as Hpost.
    destruct rv as [t|er]; [|by apply wp_ret]. rewrite Hfv, Eid', plain_loc.
    destruct (grows_ok _ _ _ _ (proj1 Hpost) Hc) as (Hs2 & Hc2 & Hp2 & He2 & _).
    assert (Hname2 : has_name s2 (head_frame e) (Symbol sym)).
    { destruct Hrv as ((_ & He12 & _) & _). apply (ext_names _ _ He12); [|done]. pose proof (ext_frames _ _ He1). lia. }
    destruct (sexp_env_cell_loc1 s2 e (Symbol sym) false) as [[j g]|] eqn:Eloc.
    2: { exfalso. destruct e as [|g e']; [done|]. cbn [sexp_env_cell_loc1] in Eloc. change (head_frame (g :: e')) with g in Hname2. destruct Hname2 as (j & Hj & Hkj).
         unfold frame_cell in Eloc. destruct (find_renamed _ _ _); [done|]. destruct (find_binding s2 (Symbol sym) (bindings (get_frame s2 g))) eqn:Efb; [done|]. by eapply find_binding_None. }
    destruct (env_immutable _); [apply wp_ret; exact (proj1 Hpost)|]. apply wp_bind, wp_modify, wp_ret. cbn [fst fmap option_fmap option_map].
    change (key_word (Atom (Symbol sym))) with (Symbol sym).
    assert (Hq : quiet s2 (name_lambda (Symbol sym) t s2)) by (apply name_lambda_quiet; intros l b ->; by destruct Hpost as (_ & [] & _)).
    pose proof (post_tree_after c n 0 n s t s2 _ Hs Hc ltac:(lia) ltac:(lia) Hpost (grows_after 0 c _ _ (quiet_after _ _ Hs2 Hq))) as (Hg3 & Ht3 & Hb3).
    split; [done|]. split; [|done]. rewrite Hpe in *. destruct (loc1_spec s2 _ Hs2 _ _ _ Eloc) as (Hj & Hacc & _ & Hkey & Hloc).
    assert (Hce : chain_ok s2 e) by (by apply (chain_ext s)). assert (Hpe2 : path s2 e = []) by (rewrite (path_ext s s2); [by rewrite Hpath'|done|by apply chain_in]).
    assert (Hnl : forall l, cell_value (get_cell s2 j) <> BLambda l) by (intros l El'; destruct (Hloc l El') as (_ & p1 & p2 & Ep & _); rewrite Hpe2 in Ep; by destruct p1).
    assert (Hsame : forall i, get_cell (name_lambda (Symbol sym) t s2) i = get_cell s2 i) by (intros i'; by destruct t).
    split; [|split; [|done]].
    + split; [by destruct t|]. rewrite Hsame. destruct (local_of _) as [l|] eqn:Elo; [apply local_of_Some in Elo; by destruct (Hnl l)|].
      destruct Hkey as [Hkey|(r' & Hr' & Er')]; [by right|left]. exists r'. by destruct t.
    + intros l. rewrite Hsame. intros El'. by destruct (Hnl l).
Qed.
End forms.

(** ** The analyzer *)

Abbreviation loop := (analyze_loop procedurep exceptionp sexp_eval expand).
Abbreviation lambda := (analyze_lambda procedurep exceptionp sexp_eval expand).

(** [analyze], with the depth checked. *)
Definition enter (f : context -> form -> Z -> Z -> M res) (c : context) (x : form) (depth defok : Z) : M res :=
  if SEXP_MAX_ANALYZE_DEPTH <? depth + 1 then mret (compile_error "SEXP_MAX_ANALYZE_DEPTH exceeded" x) else f c x (depth + 1) defok.

Definition loop_ok (fuel : nat) : Prop := forall c x depth defok s, state_ok s -> context_ok s c -> plain x = true -> (2 * form_size x <= fuel)%nat ->
  wp (loop fuel c x depth defok) s (post c (form_size x) s).

Definition lambda_ok (fuel : nat) : Prop := forall c x depth s, state_ok s -> context_ok s c -> plain x = true -> (2 * form_size x <= S fuel)%nat ->
  wp (lambda fuel c x depth) s (post c (form_size x) s).

Lemma enter_ok fuel N : loop_ok fuel -> (2 * N <= fuel + 2)%nat -> analyzes N (enter (loop fuel)).
Proof.
  intros Hl HN c x depth defok s Hs Hc Hp Hx. unfold enter. case_match; [by apply growth_refl|]. apply Hl; [done..|lia].
Qed.

Lemma lambda_fuel_ok fuel N : lambda_ok fuel -> (2 * N <= fuel + 3)%nat -> analyzes_lambda N (lambda fuel).
Proof. intros Hl HN c x depth s Hs Hc Hp Hx. apply Hl; [done..|lia]. Qed.

Lemma tail_items x : sexp_listp x = true -> match x with Cons _ d => sexp_listp d = true | _ => nullp x = true end.
Proof. by destruct x. Qed.

Lemma listp_shape d : sexp_listp d = true -> pairp d || nullp d = true.
Proof. destruct d; [|done|done|done]. cbn. done. Qed.

(** More steps behind a result, which keep everything. *)
Lemma wp_warned (m : M unit) (r : res) c n s s1 : state_ok s -> context_ok s c -> post c n s r s1 ->
  (forall Q : unit -> state -> Prop, (forall s2, after s1 s2 -> Q tt s2) -> wp m s1 Q) -> wp (m;; mret r) s1 (post c n s).
Proof.
  intros Hs Hc Hr Hm. apply wp_bind, Hm. intros s2 Ha. apply wp_ret. destruct r as [t|e].
  - eapply (post_tree_after c n 0 n); [done|done|lia|lia|exact Hr|by apply grows_after].
  - eapply (growth_trans n 0); [done|done|lia|lia|exact Hr|by apply grows_after].
Qed.

Lemma warns m x (Q : unit -> state -> Prop) s : state_ok s -> (forall s2, after s s2 -> Q tt s2) -> wp (sexp_warn m x) s Q.
Proof. intros Hs H. apply wp_warn; auto. Qed.

Lemma after_refl s : state_ok s -> after s s.
Proof. intros Hs. split; [done|]. split; [reflexivity|done]. Qed.

Lemma post_warned c n s s1 r s2 : state_ok s -> context_ok s c -> after s s1 -> post c n s1 r s2 -> post c n s r s2.
Proof. intros Hs Hc Ha Hr. eapply (post_before c 0 n); [done|done|lia|lia|by apply grows_after|exact Hr]. Qed.

(** A form that is a pair. *)
Lemma pair_spec fuel c a d depth defok s : loop_ok fuel -> lambda_ok fuel -> state_ok s -> context_ok s c -> plain (Cons a d) = true ->
  (2 * form_size (Cons a d) <= S fuel)%nat -> wp (loop (S fuel) c (Cons a d) depth defok) s (post c (form_size (Cons a d)) s).
Proof.
  intros Hloop Hlam Hs Hc Hp Hfuel. set (x := Cons a d) in *. set (n := form_size x) in *.
  pose proof (enter_ok fuel n Hloop ltac:(lia)) as Han. pose proof (lambda_fuel_ok fuel n Hlam ltac:(lia)) as Hla.
  pose proof (proj1 (cons_plain _ _ Hp)) as Ha. pose proof (proj2 (cons_plain _ _ Hp)) as Hd. cbn [analyze_loop]. fold x.
  change (fun c x depth defok => if SEXP_MAX_ANALYZE_DEPTH <? depth + 1 then mret (compile_error "SEXP_MAX_ANALYZE_DEPTH exceeded" x) else loop fuel c x (depth + 1) defok) with (enter (loop fuel)).
  set (an := enter (loop fuel)) in *. unfold x at 1. cbv iota. fold x.
  apply wp_bind, wp_gets, wp_bind, wp_gets.
  assert (Happ : wp (analyze_app an c x depth) s (post c n s)) by (by eapply app_spec).
  assert (Hops : wp (r ← analyze_app an c x depth; match r with T _ => if has_pair a then mret tt else sexp_warn "invalid operator in application: " x | E _ => mret tt end;; mret r) s (post c n s)).
  { apply wp_bind. eapply wp_mono; [exact Happ|]. intros r s1 Hr. assert (Hs1 : state_ok s1) by (destruct r; by destruct Hr as [[] ?] || by destruct Hr).
    apply wp_warned; [done|done|done|]. intros Q HQ. destruct r; [destruct (has_pair a)|]; try (apply wp_ret, HQ; by apply after_refl). by apply warns. }
  destruct (sexp_idp a) eqn:Eid; cbn [fmap option_fmap option_map is_macro negb andb].
  2: { rewrite andb_true_r. destruct (sexp_listp x); cbn [negb]; [exact Hops|by apply growth_refl]. }
  destruct (plain_idp a Ha Eid) as [name Ea]. pose proof (no_macro s c a Hs Hc Ha) as Hnm.
  pose proof (fun b => bound_ok s c a b Hs Hc Ha) as Hbound. unfold sexp_env_ref in Hnm, Hbound.
  set (cell := sexp_env_cell s (context_fv c) (context_env c) a false) in *. set (b := (fun i => cell_value (get_cell s i)) <$> cell) in *.
  rewrite Hnm, andb_true_r. destruct (sexp_listp x) eqn:Els; cbn [negb]; [|by apply growth_refl].
  assert (Hld : sexp_listp d = true) by exact Els. destruct b as [[l|op|m|w op|v]|] eqn:Eb; try done.
  - assert (Hall : forall op', op = op' -> binds_syntax op' = true -> no_macros) by (intros op' <- Hop; exact (Hsafe op Hop (Hbound _ eq_refl))).
    destruct op.
    + apply wp_bind. assert (Hm : forall Q : unit -> state -> Prop, (forall s2, after s s2 -> Q tt s2) -> wp (if defok <? 0 then sexp_warn "out of order define: " x else mret tt) s Q).
      { intros Q HQ. destruct (defok <? 0); [by apply warns|]. apply wp_ret, HQ. by apply after_refl. }
      apply Hm. intros s1 Ha1. destruct (context_after _ _ _ Ha1 Hc) as [Hc1 _]. pose proof Ha1 as (Hs1 & _).
      destruct (defok =? 0); [by apply grows_after|]. eapply wp_mono; [eapply (define_spec n); [exact Han|exact Hla|done|done|done|done]|]. intros r s2. by apply post_warned.
    + apply wp_bind. eapply wp_mono; [eapply (set_spec n); [exact Han|done|done|done|done]|]. intros [r|y] s1 Hr; [|done]. by apply wp_ret.
    + apply Hlam; [done|done|done|lia].
    + by eapply (if_spec n).
    + eapply wp_mono; [eapply (seq_spec n); [exact Han|done|done|done|unfold n; cbn; lia|by apply listp_shape]|]. intros r s1 Hr.
      eapply (post_before c 0 (form_size d)); [done|done|lia|unfold n; cbn; lia|by apply growth_refl|exact Hr].
    + apply wp_ret. destruct d as [|y [w| | |]| |]; try (by apply growth_refl). destruct w; try (by apply growth_refl). split; [by apply growth_refl|]. split; [done|apply between_nil].
    + apply wp_ret. destruct d as [|y [w| | |]| |]; try (by apply growth_refl). destruct w; try (by apply growth_refl). split; [by apply growth_refl|]. split; [done|apply between_nil].
    + apply wp_bind. assert (Hm : forall Q : unit -> state -> Prop, (forall s2, after s s2 -> Q tt s2) -> wp (if defok <? 0 then sexp_warn "out of order define-syntax: " x else mret tt) s Q).
      { intros Q HQ. destruct (defok <? 0); [by apply warns|]. apply wp_ret, HQ. by apply after_refl. }
      apply Hm. intros s1 Ha1. destruct (context_after _ _ _ Ha1 Hc) as [Hc1 _]. pose proof Ha1 as (Hs1 & _).
      destruct (defok =? 0); [by apply grows_after|]. unfold analyze_define_syntax, x. cbv iota. apply wp_bind.
      eapply wp_mono; [apply bind_syntax_spec; [exact (Hall _ eq_refl eq_refl)|done|done|done|]|]. { change (plain d && true = true). by rewrite Hd. }
      intros r s2 Ha2. apply wp_ret. pose proof (after_trans _ _ _ Ha1 Ha2). destruct r; [by apply grows_after|]. split; [by apply grows_after|]. split; [done|apply between_nil].
    + eapply (let_syntax_spec n); [exact Han|exact (Hall _ eq_refl eq_refl)|done..].
    + eapply (let_syntax_spec n); [exact Han|exact (Hall _ eq_refl eq_refl)|done..].
  - apply wp_bind. set (few := Z.of_nat (length (items d)) <? op_num_args op). set (many := (op_num_args op <? Z.of_nat (length (items d))) && negb (Z.testbit (op_flags op) 0)).
    assert (Hf : wp (if few || many then sexp_warn (if few then "not enough args for opcode: " else "too many args for opcode: ") x;; r ← analyze_var_ref c a; mret (Some r) else mret None) s
      (fun f s' => after s s' /\ match f with None => True | Some (inl (m, i, _)) => ref_ok (defined s) s' (path s (context_env c)) m i | Some (inr _) => False end)).
    { destruct (few || many); [|apply wp_ret; split; [by apply after_refl|done]]. apply wp_bind. apply wp_warn; [done|]. intros s1 Ha1 E1 E2 E3.
      destruct (context_after _ _ _ Ha1 Hc) as [Hc1 Hp1]. pose proof Ha1 as (Hs1 & _). apply wp_bind. eapply wp_mono; [by apply var_ref_spec|]. cbn beta. intros r s2 [Ha2 Hr].
      apply wp_ret. split; [by eapply after_trans|]. destruct r as [[[m i] f]|e].
      { rewrite <- Hp1. destruct Ha1 as (_ & He1 & _). eapply ref_ok_less; [|exact (proj1 Hr)]. by apply defined_ext. }
      destruct Hr as (i & Hi & Hsyn). unfold b, cell in Eb. destruct Hc as [Hfv _ _]. rewrite Hfv in Eb. subst a. unfold sexp_env_cell in *. rewrite plain_loc in *.
      rewrite (loc1_same s s1) in Hi by done. rewrite Hi in Eb. cbn in Eb. injection Eb as Eb. unfold get_cell in *. rewrite E1, Eb in Hsyn. done. }
    eapply wp_mono; [exact Hf|]. cbn beta. intros f s1 [Ha1 Hfr]. destruct (context_after _ _ _ Ha1 Hc) as [Hc1 Hp1]. pose proof Ha1 as (Hs1 & _).
    apply wp_bind. eapply wp_mono; [eapply (list_spec n); [exact Han|done|done|done|unfold n; cbn; lia]|]. intros [ts|e] s2 Hr.
    + destruct Hr as [(Hg & Hts & Hb) _]. assert (Hgn : grows n c s s2) by (eapply (growth_trans 0 (form_size d)); [done|done|lia|unfold n; cbn; lia|by apply grows_after|done]).
      pose proof Ha1 as (_ & He1 & _). rewrite Hp1 in Hts. apply (scoped_all_less _ _ _ (defined_ext _ _ He1)) in Hts. assert (Hb' : between (length (lams s)) (length (lams s2)) (flat_map tree_lambdas ts)) by (eapply between_mono; [exact (ext_lams _ _ He1)|reflexivity|exact Hb]).
      destruct f as [[[[m i] f]|e]|]; [|done|]; apply wp_ret; (split; [done|]); (split; [|done]).
      * apply scoped_app. split; [|done]. destruct Hg as (_ & He2 & _). eapply ref_ok_ext; [exact He2| |exact Hfr]. rewrite <- Hp1. by apply path_bound.
      * done.
    + apply wp_ret. eapply (growth_trans 0 (form_size d)); [done|done|lia|unfold n; cbn; lia|by apply grows_after|done].
  - apply wp_bind. eapply wp_mono; [exact Happ|]. intros r s1 Hr. assert (Hs1 : state_ok s1) by (destruct r; by destruct Hr as [[] ?] || by destruct Hr).
    apply wp_warned; [done|done|done|]. intros Q HQ. destruct r as [t|e]; [apply wp_ret, HQ; by apply after_refl|]. apply wp_bind, warns; [done|]. intros s2 Ha2.
    pose proof Ha2 as (Hs2 & _). destruct (bool_decide (length (context_env c) = 1%nat)); [|by apply wp_ret, HQ]. apply warns; [done|]. intros s3 Ha3. apply HQ. by eapply after_trans.
Qed.

Lemma loop_lambda_ok fuel : loop_ok fuel /\ lambda_ok fuel.
Proof.
  induction fuel as [|fuel [IHl IHa]]; split.
  - intros c x depth defok s _ _ _ Hx. pose proof (form_size_pos x). lia.
  - intros c x depth s _ _ _ Hx. pose proof (form_size_pos x). lia.
  - intros c x depth defok s Hs Hc Hp Hx. destruct x as [w|a d|w ls|]; [|by apply pair_spec| |done].
    + cbn [analyze_loop]. destruct (sexp_idp (Atom w)) eqn:Eid.
      * apply wp_bind, wp_gets. pose proof (no_macro s c (Atom w) Hs Hc eq_refl) as Hnm.
        match goal with |- wp (match _ with Some _ => _ | None => ?m end) _ _ => assert (Hmain : wp m s (post c (form_size (Atom w)) s)) end; [|destruct (sexp_env_ref _ _ _ _) as [[]|]; done].
        apply wp_bind. eapply wp_mono; [by apply var_ref_spec|]. cbn beta. intros r s1 [Ha1 Hr]. apply wp_ret. destruct r as [[[m i] f]|e]; [|by apply grows_after].
        split; [by apply grows_after|]. split; [tauto|apply between_nil].
      * destruct w; try (by apply growth_refl); (split; [by apply growth_refl|]; split; [done|apply between_nil]).
    + split; [by apply growth_refl|]. split; [done|apply between_nil].
  - intros c x depth s Hs Hc Hp Hx. cbn [analyze_lambda].
    apply (lambda_spec (form_size x) (enter (loop fuel)) (lambda fuel)); [apply enter_ok; [done|lia]|apply lambda_fuel_ok; [done|lia]|done|done|done|done].
Qed.
End analysis.

(** ** The first environment *)

Lemma empty_ok : state_ok (State [] [] [] [] []).
Proof.
  assert (Hf : forall f, get_frame (State [] [] [] [] []) f = Frame [] [] None false false) by (intros; apply get_frame_out; cbn; lia).
  split.
  - intros f. rewrite Hf. split; cbn; [intros c []%not_elem_of_nil|intros r []%not_elem_of_nil|done].
  - intros f g c. rewrite Hf. intros []%not_elem_of_nil.
  - intros f g l. by rewrite Hf.
  - intros c l. rewrite get_cell_out by (cbn; lia). done.
  - intros f l n. by rewrite Hf.
Qed.

(** Core forms may be bound. *)
Lemma null_env_ok s : state_ok s -> (forall op, allows op) -> let '(e, s') := sexp_make_null_env_op s in
  state_ok s' /\ context_ok s' (Context e None []) /\ path s' e = [].
Proof.
  intros Hs Hall. unfold sexp_make_null_env_op, sexp_make_env_op. set (e := [length (frames s)]). set (s1 := new_frame _ s).
  assert (Hf : get_frame s1 (length (frames s)) = Frame [] [] None false false) by exact (total_app_r (frames s) _).
  assert (Hs1 : after s s1) by (apply quiet_after; [done|apply new_frame_quiet]). pose proof Hs1 as (Hok1 & _).
  assert (Hp : path s1 e = []) by (cbn; rewrite Hf; done).
  assert (Hc : context_ok s1 (Context e None [])).
  { split; [done| |by cbn [context_env]; rewrite Hp]. cbn. rewrite Hf. cbn. split; [|done]. rewrite length_app. simpl. lia. }
  assert (Hfold : forall cores s2, state_ok s2 -> context_ok s2 (Context e None []) -> after s2 (fold_left (define_core e) cores s2)).
  { induction cores as [|[op n] cores IH]; intros s2 H2 Hc2; [by apply after_refl|]. cbn [fold_left].
    assert (Ha : after s2 (define_core e s2 (op, n))) by (apply env_define_spec; [done|by apply Hc2|apply Hall]).
    eapply after_trans; [exact Ha|]. apply IH; [by destruct Ha|]. by apply (context_after s2). }
  pose proof (Hfold core_forms s1 Hok1 Hc) as Ha. destruct (context_after _ _ _ Ha Hc) as [Hc' Hp']. cbn [context_env] in Hp'. split_and!; [by destruct Ha|done|by rewrite Hp'].
Qed.

(** ** Entering the analyzer *)

Lemma sexp_analyze_ok procedurep exceptionp sexp_eval expand fuel c x s : syntax_safe procedurep sexp_eval -> state_ok s -> context_ok s c ->
  plain x = true -> (2 * form_size x <= fuel)%nat ->
  exists r s', sexp_analyze procedurep exceptionp sexp_eval expand fuel c x s = Done r s' /\ post c (form_size x) s r s'.
Proof.
  intros Hsafe Hs Hc Hp Hfuel. pose proof (proj1 (loop_lambda_ok procedurep exceptionp sexp_eval expand Hsafe fuel) c x 1 1 s Hs Hc Hp Hfuel) as H.
  unfold sexp_analyze, analyze. change (SEXP_MAX_ANALYZE_DEPTH <? 0 + 1) with false. cbv iota. unfold wp in H.
  change (0 + 1) with 1. destruct (analyze_loop _ _ _ _ _ _ _ _ _ _) as [r s'| |]; [|done..]. by exists r, s'.
Qed.
End scoping.
