(* ===== verification/Internal.v ===== *)
(** * Internal definitions

    What the definitions in front of the body of a lambda do: each makes a local
    variable of the lambda, is assigned in front of the body, in the order of the
    source, and is in scope in the values of all of them and in the rest of the
    body. *)
From S2P Require Import Prelude Heap Syntax Identifiers Analyze Analysis Scoping.
From stdpp Require Import base list option.
#[local] Open Scope Z_scope.

(** A definition with the keyword [kw], of a variable or of a procedure. *)
Inductive definition (kw : string) : form -> string -> Prop :=
| define_variable n v r : definition kw (Cons (Atom (Symbol kw)) (Cons (Atom (Symbol n)) (Cons v r))) n
| define_procedure n ps v r : definition kw (Cons (Atom (Symbol kw)) (Cons (Cons (Atom (Symbol n)) ps) (Cons v r))) n.

Section internal.
Context `{K : allowed}.

(** ** Lookups that stay the same *)

Lemma find_same {A} (f g : A -> bool) l : (forall x, x ∈ l -> f x = g x) -> find f l = find g l.
Proof.
  induction l as [|x l IH]; intros H; [done|]. cbn [find]. rewrite (H x) by set_solver. rewrite IH; [done|]. intros y Hy. apply H. set_solver.
Qed.

Lemma frame_cell_unchanged s s' f n : state_ok s -> unchanged s s' -> (f < length (frames s))%nat -> frame_cell s' f n = frame_cell s f n.
Proof.
  intros Hs (Hr & Hf & Hc) Hlt. unfold frame_cell, find_renamed, find_binding. rewrite Hr, Hf by done.
  rewrite (find_same (fun c => bool_decide (cell_key (get_cell s' c) = n)) (fun c => bool_decide (cell_key (get_cell s c) = n))); [done|].
  intros c Hin. destruct (frame_cells _ _ (ok_frames _ Hs f) c Hin) as [Hlt' _]. by rewrite Hc.
Qed.

Lemma loc1_unchanged s s' n e : state_ok s -> unchanged s s' -> Forall (fun f => (f < length (frames s))%nat) e ->
  sexp_env_cell_loc1 s' e n false = sexp_env_cell_loc1 s e n false.
Proof.
  intros Hs Hu. induction 1 as [|f e Hf _ IH]; [done|]. cbn [sexp_env_cell_loc1]. rewrite (frame_cell_unchanged s) by done. by rewrite IH.
Qed.

Lemma loc1_push s f key v n e : state_ok s -> (f < length (frames s))%nat -> key <> n ->
  sexp_env_cell_loc1 (sexp_env_push f key v s) e n false = sexp_env_cell_loc1 s e n false.
Proof.
  intros Hs Hf Hne. set (s' := sexp_env_push f key v s). induction e as [|g e IH]; [done|]. cbn [sexp_env_cell_loc1]. rewrite IH.
  assert (frame_cell s' g n = frame_cell s g n) as ->; [|done].
  assert (Hold : forall c, c ∈ bindings (get_frame s g) -> bool_decide (cell_key (get_cell s' c) = n) = bool_decide (cell_key (get_cell s c) = n)).
  { intros c Hc. destruct (frame_cells _ _ (ok_frames _ Hs g) c Hc) as [Hlt _]. unfold s'. by rewrite push_cell. }
  unfold frame_cell, find_renamed, find_binding. destruct (push_shape f key v s Hf g) as (_ & _ & Er). fold s' in Er. rewrite Er. change (renamed s') with (renamed s).
  assert (bindings (get_frame s' g) = if decide (g = f) then length (cells s) :: bindings (get_frame s g) else bindings (get_frame s g)) as ->.
  { unfold s'. rewrite push_frame by done. case_decide; [by subst|done]. }
  destruct (find _ (renames _)); [done|]. case_decide as Eg; [|by apply find_same]. cbn [find].
  assert (get_cell s' (length (cells s)) = Cell key v false) as -> by apply push_new. cbn [cell_key].
  rewrite bool_decide_false by done. by apply find_same.
Qed.

(** The keyword is bound to a core form. *)
Definition keyword (s : state) (e : env) (kw : string) (op : core_form) : Prop :=
  exists i f, sexp_env_cell_loc1 s e (Symbol kw) false = Some (i, f) /\ cell_value (get_cell s i) = BCore op.

Lemma keyword_ref s c kw op : context_ok s c -> sexp_env_ref s (context_fv c) (context_env c) (Atom (Symbol kw)) = Some (BCore op) <-> keyword s (context_env c) kw op.
Proof.
  intros [Hfv _ _]. unfold sexp_env_ref, sexp_env_cell, keyword. rewrite Hfv, plain_loc. destruct (sexp_env_cell_loc1 _ _ _ _) as [[i f]|]; cbn.
  - split; [intros [= H]; by exists i, f|]. intros (j & g & [= -> ->] & Hv). exact (f_equal Some Hv).
  - split; [done|]. by intros (j & g & ? & _).
Qed.

Lemma keyword_unchanged s s' e kw op : state_ok s -> unchanged s s' -> Forall (fun f => (f < length (frames s))%nat) e -> keyword s e kw op -> keyword s' e kw op.
Proof.
  intros Hs Hu He (i & f & Hi & Hv). exists i, f. rewrite (loc1_unchanged s) by done. split; [done|]. destruct (loc1_spec s _ Hs _ _ _ Hi) as (Hlt & _).
  destruct Hu as (_ & _ & ->); done.
Qed.

(** A lambda hides the keyword only by a parameter of this name. *)
Lemma keyword_entered c ps l s s1 c1 kw op : entered c ps l s s1 c1 -> state_ok s -> context_ok s c -> Symbol kw ∉ sexp_flatten_dot (sexp_make_lambda ps) ->
  keyword s (context_env c) kw op -> keyword s1 (context_env c1) kw op.
Proof.
  intros [(Hs1 & _) _ _ _ Hy Hu (f & -> & Hf & El & Er & Hb)] Hs Hc Hn Hk. pose proof (keyword_unchanged s s1 _ _ _ Hs Hu (chain_in _ _ (context_chain _ _ Hc)) Hk) as (i & g & Hi & Hv).
  exists i, g. cbn [sexp_env_cell_loc1]. destruct (frame_cell s1 f (Symbol kw)) as [j|] eqn:E; [|done]. exfalso.
  destruct (frame_cell_Some _ _ _ _ Hs1 E) as [_ [[Hkey Hin]|[_ Hnone]]]; [|congruence]. pose proof (ok_cells _ Hs1 j l (Hb j Hin)) as Hvar.
  rewrite Hkey, Hy in Hvar. unfold vars in Hvar. rewrite app_nil_r in Hvar. done.
Qed.

(** ** One definition *)

Lemma keyword_defined f l n d s kw e : state_ok s -> (f < length (frames s))%nat -> n <> kw -> keyword s e kw SEXP_CORE_DEFINE ->
  keyword (push_def l (Symbol n) d (sexp_env_push f (Symbol n) (BLambda l) s)) e kw SEXP_CORE_DEFINE.
Proof.
  intros Hs Hf Hne (i & g & Hi & Hv). set (s1 := sexp_env_push f (Symbol n) (BLambda l) s). exists i, g. rewrite (loc1_same s1) by done.
  unfold s1. rewrite loc1_push by (done || congruence). split; [done|]. destruct (loc1_spec s _ Hs _ _ _ Hi) as (Hlt & _).
  change (get_cell (push_def l (Symbol n) d (sexp_env_push f (Symbol n) (BLambda l) s)) i) with (get_cell (sexp_env_push f (Symbol n) (BLambda l) s) i). by rewrite push_cell.
Qed.

Variable procedurep : sexp -> option bool.
Variable exceptionp : sexp -> bool.
Variable sexp_eval : context -> form -> state -> binding * state.
Variable expand : sexp -> form -> env -> env -> state -> (form + sexp) * state.
Hypothesis Hsafe : syntax_safe procedurep sexp_eval.
#[local] Abbreviation loop := (analyze_loop procedurep exceptionp sexp_eval expand).
#[local] Abbreviation lambda := (analyze_lambda procedurep exceptionp sexp_eval expand).

(** The context is that of the body of the lambda [l], whose frame is [f]. *)
Definition body_of (s : state) (c : context) (l f : nat) : Prop :=
  context_lambda c = Some l /\ (exists e, context_env c = f :: e) /\ env_lambda (get_frame s f) = Some l /\ (f < length (frames s))%nat.

Lemma definition_form fuel c kw d n depth s l f : state_ok s -> context_ok s c -> body_of s c l f -> keyword s (context_env c) kw SEXP_CORE_DEFINE ->
  definition kw d n ->
  wp (enter (loop (S fuel)) c d depth 1) s (fun r s' => match r with
    | T t => t = TSelf VOID /\ exists d', def_name d' = Atom (Symbol n) /\
        s' = push_def l (Symbol n) (d', c) (sexp_env_push f (Symbol n) (BLambda l) s)
    | E _ => True end).
Proof.
  intros Hs Hc (Hl & (e & He) & El & Hf) Hk Hd. unfold enter. case_match; [done|].
  pose proof (proj2 (keyword_ref s c kw SEXP_CORE_DEFINE Hc) Hk) as Href. unfold sexp_env_ref in Href.
  destruct (frame_lambda _ _ (ok_frames _ Hs f) l El) as [_ Hsyn].
  assert (Hskip : skip_syntactic s (context_env c) = f :: e) by (rewrite He; cbn [skip_syntactic]; rewrite Hsyn; done).
  destruct Hd as [n v r|n ps v r]; cbn [analyze_loop]; change (sexp_idp (Atom (Symbol kw))) with true; cbv iota;
    (apply wp_bind, wp_gets, wp_bind, wp_gets; rewrite Href; cbn [is_macro negb]; rewrite andb_true_r; case_match; [done|]);
    change (1 <? 0) with false; change (1 =? 0) with false; cbv iota; apply wp_bind, wp_ret; unfold analyze_define;
    cbn [sexp_idp sexp_id_name sexp_symbolp negb]; rewrite ?Hskip; (apply wp_bind, wp_gets, wp_bind, wp_gets); rewrite Hskip; cbn [head_frame head default];
    change (id f) with f; rewrite El, Hl; (apply wp_bind, wp_modify, wp_bind, wp_modify, wp_ret); (split; [done|]); eexists; (split; [|reflexivity]); done.
Qed.
(** ** All of them *)

Lemma wp_and {A} (m : M A) s (P Q : A -> state -> Prop) : wp m s P -> wp m s Q -> wp m s (fun a s' => P a s' /\ Q a s').
Proof. unfold wp. by destruct (m s). Qed.

(** The definitions [ds] have been made: each has added its name to the variables
    of [l] and waits for the end of the body. *)
Record defined_by (c : context) (l : nat) (ns : list string) (s s1 : state) : Prop := DefinedBy {
  by_ok : state_ok s1 /\ context_ok s1 c;
  by_ext : ext s s1;
  by_names : forall n, n ∈ ns -> Symbol n ∈ defined s1 l;
  by_waiting : exists new, defs (get_lam s1 l) = new ++ defs (get_lam s l) /\ map defined_word new = rev (map Symbol ns)
}.

Lemma body_of_ext s s' c l f : ext s s' -> body_of s c l f -> body_of s' c l f.
Proof.
  intros He (H1 & H2 & H3 & H4). destruct (ext_frame _ _ He f H4) as [E _]. split_and!; [done|done|congruence|]. pose proof (ext_frames _ _ He). lia.
Qed.

Lemma definitions_spec N fuel kw c l p f es : analyzes N (enter (loop (S fuel))) -> forall ds ns s depth,
  Forall2 (definition kw) ds ns -> kw ∉ ns -> state_ok s -> context_ok s c -> path s (context_env c) = l :: p -> body_of s c l f ->
  keyword s (context_env c) kw SEXP_CORE_DEFINE -> plain (fold_right Cons es ds) = true -> (form_size (fold_right Cons es ds) <= N)%nat ->
  wp (analyze_list (enter (loop (S fuel))) c (fold_right Cons es ds) depth 1) s (fun r s' => match r with
    | inl ts => exists ts' s1, ts = replicate (length ds) (TSelf VOID) ++ ts' /\ defined_by c l ns s s1 /\ post_trees c (form_size es) s1 ts' s' /\
        length ts' = length (items es)
    | inr _ => True end).
Proof.
  intros Han ds. induction ds as [|d ds IH]; intros ns s depth Hds Hkw Hs Hc Hp Hb Hk Hpl HN.
  { inversion Hds; subst. eapply wp_mono; [by eapply list_spec|]. intros [ts|e] s' Hr; [|done]. destruct Hr as [Hr Hl]. exists ts, s. split; [done|].
    split; [|done]. split; [done|done|by intros n ?%elem_of_nil|by exists []]. }
  inversion Hds as [|? n ? ns' Hd Hds']; subst. apply not_elem_of_cons in Hkw as [Hne Hkw]. cbn [fold_right] in *. apply cons_plain in Hpl as [Hpd Hpl].
  cbn [form_size] in HN. assert (El : env_lambda (get_frame s f) = Some l) by apply Hb. assert (Hf : (f < length (frames s))%nat) by apply Hb.
  cbn [analyze_list]. apply wp_bind. eapply wp_mono; [apply wp_and; [by eapply definition_form|apply Han; [done..|lia]]|].
  intros [t|e] s1 [Hr Hpost]; [|by apply wp_ret]. destruct Hr as (-> & d' & Hd' & Es1). destruct (grows_ok _ _ _ _ (proj1 Hpost) Hc) as (Hs1 & Hc1 & Hp1 & He1 & _).
  apply wp_bind, wp_gets. cbn [nondefp]. rewrite andb_false_r. apply wp_bind. eapply wp_mono; [apply (IH ns'); [done|done|done|done|congruence|by apply (body_of_ext s)| |done|lia]|].
  { rewrite Es1. apply keyword_defined; done. }
  intros [ts|e] s2 Hr; apply wp_ret; [|done]. destruct Hr as (ts' & s3 & -> & [Hok He3 Hn3 (new & Ew & Em)] & Hts & Hlen). exists ts', s3. split; [done|]. split; [|done].
  destruct (push_def_spec f l (Symbol n) (d', c) s Hs El) as (_ & _ & _ & _ & Hdefs). rewrite <- Es1 in Hdefs.
  assert (Hl : (l < length (lams s))%nat) by (by destruct (frame_lambda _ _ (ok_frames _ Hs f) l El)).
  split; [done|by etrans| |].
  - intros m [-> |Hm]%elem_of_cons; [|by apply Hn3]. apply (defined_ext _ _ He3). rewrite Es1. unfold defined, push_def, get_lam at 1. cbn [lams set_lam].
    rewrite total_insert by done. rewrite decide_True by done. cbn. set_solver.
  - exists (new ++ [(d', c)]). rewrite Ew, Hdefs, decide_True, <- app_assoc by done. split; [done|]. rewrite map_app, Em. cbn [map rev]. unfold defined_word. cbn [fst]. by rewrite Hd'.
Qed.

Lemma seq_two an c d y z depth defok : analyze_seq an c (Cons d (Cons y z)) depth defok =
  (r ← analyze_list an c (Cons d (Cons y z)) depth defok; mret (match r with inl ts => T (TSeq ts) | inr e => E e end)).
Proof. reflexivity. Qed.

(** What the lambdas around are known to bind in the body of [l], whose
    definitions in front are those of [ns]. *)
Definition knows (s : state) (l : nat) (ns : list string) (l' : nat) : list sexp := if decide (l' = l) then map Symbol ns else defined s l'.

Lemma knows_less c l ns s s0 s1 : ext s s0 -> defined_by c l ns s0 s1 -> forall l', knows s l ns l' ⊆ defined s1 l'.
Proof.
  intros He [_ He1 Hn _] l'. unfold knows. case_decide as E; [|apply defined_ext; by etrans]. subst l'. intros x Hx. apply list_elem_of_fmap in Hx as (n & -> & Hin). by apply Hn.
Qed.

(** C36 (functional).  Internal definitions are visible in the body and in each
    other.  Take a lambda whose body begins with definitions of the names [ns],
    of variables or of procedures, and goes on after them, with a keyword that is
    bound to [define] around the lambda and is neither a parameter nor one of
    these names; source forms without syntactic closures, a state without macros
    and a context without free variables, as for [analysis_scoped].  If analysis
    gives a tree and no exception, it is a new lambda with these parameters, whose
    body is preceded by the assignments of its definitions: first those of [ns],
    in the order of the source, each to a local variable of this lambda with its
    name.  And in the values of all the definitions and in the rest of the body no
    reference of a name in [ns] goes past this lambda, to a variable of a lambda
    around it or to a global one of this name: a lambda is skipped only if the name
    is neither a parameter of it nor, for this lambda, in [ns] (global variables
    that an import has renamed keep their own name and may be called so). *)
Theorem internal_definitions fuel kw c k ps ds ns e es depth s t s' : state_ok s -> context_ok s c ->
  let x := Cons k (Cons ps (fold_right Cons (Cons e es) ds)) in
  plain x = true -> (2 * form_size x <= S fuel)%nat ->
  sexp_env_ref s (context_fv c) (context_env c) (Atom (Symbol kw)) = Some (BCore SEXP_CORE_DEFINE) ->
  Symbol kw ∉ sexp_flatten_dot (sexp_make_lambda ps) -> kw ∉ ns -> Forall2 (definition kw) ds ns -> ds <> [] ->
  lambda fuel c x depth s = Done (T t) s' ->
  let l := length (lams s) in
  exists ts more b, t = TLam l (add_defs (ts ++ more) b) /\ formals (get_lam s' l) = sexp_flatten_dot (sexp_make_lambda ps) /\
    Forall2 (defines_local s' l) (map Symbol ns) ts /\
    scoped_all (knows s l ns) s' (l :: path s (context_env c)) (ts ++ more) /\ scoped (knows s l ns) s' (l :: path s (context_env c)) b.
Proof using Hsafe.
  intros Hs Hc x Hpl Hfuel Href Hps Hkw Hds Hne Ht l. destruct ds as [|d ds]; [done|].
  set (body' := fold_right Cons (Cons e es) ds) in *.
  assert (Hx : x = Cons k (Cons ps (Cons d body'))) by done. assert (Hsz : (form_size (Cons d body') + 2 < form_size x)%nat).
  { rewrite Hx. cbn [form_size]. pose proof (form_size_pos k). pose proof (form_size_pos ps). pose proof (form_size_pos d). lia. }
  destruct fuel as [|[|fuel]]; [lia|cbn [form_size] in Hsz; pose proof (form_size_pos d); lia|].
  assert (Ht' : analyze_lambda_body (enter (loop (S fuel))) (lambda (S fuel)) c x depth s = Done (T t) s') by exact Ht. clear Ht. rename Ht' into Ht.
  destruct (loop_lambda_ok procedurep exceptionp sexp_eval expand Hsafe (S fuel)) as [Hloop Hlam].
  pose proof (enter_ok _ _ _ _ (S fuel) (form_size x) Hloop ltac:(lia)) as Han. pose proof (lambda_fuel_ok _ _ _ _ (S fuel) (form_size x) Hlam ltac:(lia)) as Hla.
  destruct (bad_params ps) eqn:Ebad; [rewrite Hx in Ht; unfold analyze_lambda_body in Ht; rewrite Ebad in Ht; discriminate|].
  destruct (enter_lambda (enter (loop (S fuel))) (lambda (S fuel)) c k ps d body' depth s Hs Hc Ebad) as (s3 & c' & Hent & E). fold l in Hent, E.
  rewrite Hx, E in Ht. clear E. rewrite Hx in Hpl. apply cons_plain in Hpl as [_ [_ Hbody]%cons_plain].
  pose proof (keyword_entered _ _ _ _ _ _ _ _ Hent Hs Hc Hps (proj1 (keyword_ref _ _ _ _ Hc) Href)) as Hk3.
  destruct Hent as [(Hs3 & He3 & _) Hc' Hp' [_ Hl3] Hy _ (f & Ee & Hf & El & _ & _)].
  assert (Hb : body_of s3 c' l f). { split; [by rewrite (context_inner _ _ Hc'), Hp'|]. split; [by eexists|]. done. }
  set (Q := fun (r : res) (s' : state) => forall t, r = T t -> exists ts more b, t = TLam l (add_defs (ts ++ more) b) /\ formals (get_lam s' l) = sexp_flatten_dot (sexp_make_lambda ps) /\
    Forall2 (defines_local s' l) (map Symbol ns) ts /\
    scoped_all (knows s l ns) s' (l :: path s (context_env c)) (ts ++ more) /\ scoped (knows s l ns) s' (l :: path s (context_env c)) b).
  match type of Ht with ?m s3 = _ => cut (wp m s3 Q); [unfold wp; rewrite Ht; intros H; by apply H|] end. clear Ht.
  assert (Hseq : exists y z, body' = Cons y z) by (unfold body'; destruct ds; cbn; eauto). destruct Hseq as (y & z & Hyz).
  apply wp_bind. rewrite Hyz, seq_two, <- Hyz. apply wp_bind.
  eapply wp_mono; [apply wp_and; [apply (definitions_spec (form_size x) fuel kw c' l (path s (context_env c)) f (Cons e es) Han (d :: ds) ns s3 depth)|
    apply (list_spec (form_size x) _ Han (Cons d body') c' depth 1 s3)]; try done; change (fold_right Cons (Cons e es) (d :: ds)) with (Cons d body'); try lia; try done|].
  intros [tl|er] s4 [Hr Hr']; apply wp_ret; [|apply wp_ret; by intros t0 [=]]. destruct Hr as (ts' & s5 & -> & Hby & (Hg4 & Hts & _) & _), Hr' as [(Hg34 & _) _].
  pose proof (knows_less c' l ns s s3 s5 He3 Hby) as Hknow. destruct Hby as [[Hs5 Hc5] He5 Hn5 (new & Ew & Em)].
  destruct (grows_ok _ _ _ _ Hg34 Hc') as (Hs4 & Hc4 & Hp4 & He34 & _), (grows_ok _ _ _ _ Hg4 Hc5) as (_ & _ & Hp5 & He45 & _).
  eapply wp_mono; [apply (finish_spec (form_size x) _ _ Han Hla (form_size (Cons d body')) c' l (path s (context_env c)) _ depth s3 s4 ps); try done; lia|].
  intros [t1|e1] s6 H6; [|by intros t0 [=]]. destruct H6 as (all & -> & (Hg6 & Hall & _) & Hnames). intros t0 [= <-].
  destruct (grows_ok _ _ _ _ Hg6 Hc4) as (_ & _ & Hp6 & He46 & _), Hg4 as (_ & _ & Hd4). destruct (Hd4 l) as (new4 & E4 & _); [pose proof (ext_lams _ _ He5); lia|].
  rewrite E4, Ew, Hy, !map_app, !rev_app_distr, Em, rev_involutive in Hnames. cbn [sexp_make_lambda defs map rev app] in Hnames.
  apply Forall2_app_inv_l in Hnames as (ts & more & Hts' & _ & ->). rewrite Hp4, Hp' in Hall. rewrite <- Hp5, Hp4, Hp' in Hts.
  assert (Hin : Forall (fun i => (i < length (lams s4))%nat) (l :: path s (context_env c))) by (rewrite <- Hp', <- Hp4; by apply path_bound).
  exists ts, more, (TSeq (replicate (length (d :: ds)) (TSelf VOID) ++ ts')). split_and!; [done| |done| |].
  - destruct (ext_lam s3 s6 ltac:(by etrans) l ltac:(lia)) as [-> _]. by rewrite Hy.
  - eapply scoped_all_less; [|exact Hall]. intros l'. etrans; [apply Hknow|]. by apply defined_ext.
  - apply scoped_seq. split; [done|]. apply scoped_all_app. split; [by induction (length (d :: ds))|].
    eapply scoped_all_less; [exact Hknow|]. by eapply scoped_all_ext.
Qed.
End internal.

(** ** The environment of core forms *)

(** Any value that is no procedure is what evaluation gives. *)
Definition forms (ls : list form) : form := fold_right Cons NULL ls.
Definition name (n : string) : form := Atom (Symbol n).
Definition one_form : form := Atom (Fixnum 1).

Definition no_procedure (w : sexp) : option bool := None.
Definition no_exception (w : sexp) : bool := false.
Definition eval_false (c : Syntax.context) (x : form) (s : state) : binding * state := (BValue SEXP_FALSE, s).
Definition same_form (proc : sexp) (x : form) (use def : Syntax.env) (s : state) : (form + sexp) * state := (inl x, s).

Definition first_state : state := (sexp_make_null_env_op (State [] [] [] [] [])).2.
Definition first_context : Syntax.context := Syntax.Context [0%nat] None [].

#[export] Instance all_allowed : allowed := fun _ => True.

Lemma first_ok : state_ok first_state /\ context_ok first_state first_context.
Proof. pose proof (null_env_ok _ empty_ok (fun _ => I)) as H. by destruct H as (H1 & H2 & _). Qed.

Lemma no_procedure_safe : syntax_safe no_procedure eval_false.
Proof. intros op _ _. split; [done|]. intros c x s Hs _ _. split; [by apply after_refl|done]. Qed.

Lemma done_inj {A} (a b : A) s s' : Done a s = Done b s' -> a = b /\ s = s'.
Proof. by intros [= -> ->]. Qed.

(** [(lambda (x) (define a (b)) (define (b) x) (f a b))] *)
Definition mutual_lambda : form :=
  forms [name "lambda"; forms [name "x"]; forms [name "define"; name "a"; forms [name "b"]]; forms [name "define"; forms [name "b"]; name "x"];
         forms [name "f"; name "a"; name "b"]].
#[local] Abbreviation analysis := (analyze_lambda no_procedure no_exception eval_false same_form 100 first_context mutual_lambda 0 first_state).
Definition mutual_state : state := match analysis with Done _ s => s | _ => first_state end.
Definition mutual_body : tree :=
  TSeq [TSet (Symbol "a") (Some 11%nat) (TApp (TRef (Symbol "b") (Some 12%nat)) []);
        TSet (Symbol "b") (Some 12%nat) (TLam 1 (TRef (Symbol "x") (Some 10%nat)));
        TSelf VOID; TSelf VOID; TApp (TRef (Symbol "f") (Some 13%nat)) [TRef (Symbol "a") (Some 11%nat); TRef (Symbol "b") (Some 12%nat)]].

Lemma mutual_analysis : analysis = Done (T (TLam 0 mutual_body)) mutual_state.
Proof. vm_compute. reflexivity. Qed.

(** The procedure of [a] refers to [b], which is defined after it. *)
Lemma internal_definitions_witness :
  analysis = Done (T (TLam 0 mutual_body)) mutual_state /\
  (exists ts more b, TLam 0 mutual_body = TLam 0 (add_defs (ts ++ more) b) /\ formals (get_lam mutual_state 0) = [Symbol "x"] /\
    Forall2 (defines_local mutual_state 0) [Symbol "a"; Symbol "b"] ts /\
    scoped_all (knows first_state 0 ["a"; "b"]) mutual_state [0%nat] (ts ++ more) /\ scoped (knows first_state 0 ["a"; "b"]) mutual_state [0%nat] b) /\
  locals (get_lam mutual_state 0) = [Symbol "b"; Symbol "a"].
Proof.
  split; [exact mutual_analysis|]. split; [|vm_compute; reflexivity].
  refine (internal_definitions no_procedure no_exception eval_false same_form no_procedure_safe 100 "define" first_context (name "lambda") (forms [name "x"])
    [forms [name "define"; name "a"; forms [name "b"]]; forms [name "define"; forms [name "b"]; name "x"]] ["a"; "b"]
    (forms [name "f"; name "a"; name "b"]) NULL 0 first_state (TLam 0 mutual_body) mutual_state (proj1 first_ok) (proj2 first_ok) _ _ _ _ _ _ _ _).
  - reflexivity.
  - vm_compute; lia.
  - vm_compute; reflexivity.
  - vm_compute. by intros [=]%list_elem_of_singleton.
  - by intros [[=]|[[=]|[]%not_elem_of_nil]%elem_of_cons]%elem_of_cons.
  - constructor; [apply define_variable|]. constructor; [apply define_procedure|]. constructor.
  - done.
  - exact mutual_analysis.
Defined.
