(* ===== verification/Frontend.v ===== *)
(** * From source to the compiler

    The trees of the analyzer as the trees that the compiler takes, and the proof
    that those of macro-free programs meet the conditions under which compiled
    code is correct, their size and the choice of operators apart. *)
From S2P Require Import Prelude Bignum Numbers Heap Syntax Identifiers Analyze Analysis Scoping Internal Ast Codegen Vm Semantics Code Compiler Scope Toplevel.
From stdpp Require Import base list option.
#[local] Open Scope Z_scope.

(** ** The same trees *)

Section freeze.
Context `{K : allowed}.
(** Where literal data and cells are in memory. *)
Variable place : form -> sexp.
Variable cell_at : nat -> sexp.
Variable s : state.

Definition lambda_number (l : nat) : positive := Pos.of_succ_nat l.

Definition freeze_lambda (l : nat) : lam_info :=
  let y := get_lam s l in LamInfo (lambda_number l) (params y) (rest y) (locals y) (sv y).

(** References of definitions always have a cell, by [analysis_scoped]. *)
Definition freeze_ref (n : sexp) (c : option nat) : ref :=
  match c with
  | Some c => Ref n (match cell_value (get_cell s c) with BLambda l => Within (freeze_lambda l) | _ => Global (cell_at c) end)
  | None => Ref n (Global SEXP_FALSE)
  end.

Fixpoint freeze (t : tree) : ast :=
  match t with
  | TLit v => Lit (place v)
  | TSelf (Atom w) => if sexp_pointerp w then Self w else Lit w
  | TSelf v => Self (place v)
  | TRef n c => RefE (freeze_ref n c)
  | TSet n c v => SetE (freeze_ref n c) (freeze v)
  | TCnd a b c => Cnd (freeze a) (freeze b) (freeze c)
  | TSeq ts => Seq (map freeze ts)
  | TLam l b => Lambda (freeze_lambda l) [] (freeze b)
  | TApp f ts => App (freeze f) (map freeze ts)
  | TOp w op ts => OpApp w op (map freeze ts)
  end.

Lemma lambda_ids_freeze t : lambda_ids (freeze t) ≡ₚ map lambda_number (tree_lambdas t).
Proof.
  assert (Hall : forall ts, Forall (fun t => lambda_ids (freeze t) ≡ₚ map lambda_number (tree_lambdas t)) ts ->
    flat_map lambda_ids (map freeze ts) ≡ₚ map lambda_number (flat_map tree_lambdas ts)).
  { induction 1 as [|t' ts Ht _ IH]; [done|]. cbn. by rewrite Ht, IH, map_app. }
  induction t as [v|v|n c|n c v IH|a b c IHa IHb IHc|ts IH|l b IH|f ts IHf IH|w o ts IH] using tree_ind'; cbn [freeze lambda_ids tree_lambdas map].
  - done.
  - destruct v as [w| | |]; [by destruct (sexp_pointerp w)|done..].
  - done.
  - done.
  - by rewrite IHa, IHb, IHc, !map_app.
  - by apply Hall.
  - by rewrite IH.
  - rewrite (Hall ts IH), IHf, map_app. apply Permutation_app_comm.
  - by apply Hall.
Qed.

Lemma lambda_number_inj l l' : lambda_number l = lambda_number l' -> l = l'.
Proof. unfold lambda_number. lia. Qed.

(** ** Free occurrences *)

Hypothesis Hs : state_ok s.
Variable k : nat -> list sexp.

Lemma hit_freeze n id m c p : ref_ok k s p m c -> hit n id (freeze_ref m (Some c)) = true ->
  exists l, l ∈ p /\ id = lambda_number l /\ n ∈ vars (get_lam s l).
Proof.
  intros [_ Hr]. unfold hit, freeze_ref. cbn [ref_name ref_where]. destruct (cell_value (get_cell s c)) as [l| | | |] eqn:Ev; rewrite ?andb_false_r; try done.
  intros [->%bool_decide_eq_true <-%bool_decide_eq_true]%andb_true_iff. cbn [local_of] in Hr. destruct Hr as [Hk (p1 & p2 & -> & _)].
  exists l. split; [set_solver|]. split; [done|]. rewrite <- Hk. by apply (ok_cells _ Hs).
Qed.

Lemma binds_freeze n l : n ∈ vars (get_lam s l) -> binds (freeze_lambda l) n (lambda_number l) = true.
Proof.
  intros Hn. unfold binds. cbn [lam_id lam_locals freeze_lambda]. rewrite bool_decide_true by done. cbn [andb]. apply bool_decide_eq_true.
  unfold vars, formals, sexp_flatten_dot in Hn. unfold flatten_dot. cbn. set_solver.
Qed.

Lemma existsb_scoped n id p ts : Forall (fun t => forall p, scoped k s p t -> occurs n id (freeze t) = true -> exists l, l ∈ p /\ id = lambda_number l /\ n ∈ vars (get_lam s l)) ts ->
  scoped_all k s p ts -> existsb (occurs n id) (map freeze ts) = true -> exists l, l ∈ p /\ id = lambda_number l /\ n ∈ vars (get_lam s l).
Proof.
  induction 1 as [|t ts Ht _ IH]; [done|]. intros [H1 H2] [Ho|Ho]%orb_true_iff; [by apply (Ht p)|by apply IH].
Qed.

Lemma occurs_freeze n id t : forall p, scoped k s p t -> occurs n id (freeze t) = true ->
  exists l, l ∈ p /\ id = lambda_number l /\ n ∈ vars (get_lam s l).
Proof.
  induction t as [v|v|m c|m c v IH|a b c IHa IHb IHc|ts IH|l b IH|f ts IHf IH|w o ts IH] using tree_ind'; intros p.
  - done.
  - destruct v as [w| | |]; cbn; [by destruct (sexp_pointerp w)|done..].
  - destruct c as [c|]; [|done]. apply hit_freeze.
  - destruct c as [c|]; [|done]. cbn [scoped freeze occurs]. intros (Hr & _ & Hv) [Ho|Ho]%orb_true_iff; [by eapply hit_freeze|by apply IH].
  - cbn [scoped freeze occurs]. intros (Ha & Hb & Hc) [[Ho|Ho]%orb_true_iff|Ho]%orb_true_iff; eauto.
  - rewrite scoped_seq. intros [_ Ha]. by apply existsb_scoped.
  - cbn [scoped freeze occurs]. intros [_ Hb] [Ho Hn]%andb_true_iff. destruct (IH _ Hb Ho) as (l' & [->|Hl]%elem_of_cons & -> & Hv); [|eauto].
    by rewrite binds_freeze in Hn.
  - rewrite scoped_app. cbn [freeze occurs]. intros [Hf Ha] [Ho|Ho]%orb_true_iff; [by apply IHf|by apply (existsb_scoped n id p ts)].
  - rewrite scoped_op. by apply existsb_scoped.
Qed.

(** ** The conditions of the compiler *)

(** Local variables inside of lambdas, assigned ones known, no empty sequence. *)
Fixpoint well_formed (inside : bool) (x : ast) : bool :=
  match x with
  | Lit _ | Self _ => true
  | RefE r => negb (within r) || inside
  | SetE r v => well_formed inside v &&
      match ref_where r with Global _ => true | Within loc => inside && memq (ref_name r) (lam_sv loc) end
  | Cnd t p f => well_formed inside t && well_formed inside p && well_formed inside f
  | Seq ls => negb (bool_decide (ls = [])) && forallb (well_formed inside) ls
  | Lambda i fv body => well_formed true body
  | App f args => well_formed inside f && forallb (well_formed inside) args
  | OpApp _ op args => forallb (well_formed inside) args
  end.

Lemma forallb_well_formed p ts : Forall (fun t => forall p, scoped k s p t -> well_formed (negb (bool_decide (p = []))) (freeze t) = true) ts ->
  scoped_all k s p ts -> forallb (well_formed (negb (bool_decide (p = [])))) (map freeze ts) = true.
Proof. induction 1 as [|t ts Ht _ IH]; [done|]. intros [H1 H2]. cbn. by rewrite (Ht p), IH. Qed.

Lemma innermost_inside (p : list nat) n l : innermost k s p n l -> negb (bool_decide (p = [])) = true.
Proof. intros (p1 & p2 & -> & _). by destruct p1. Qed.

Lemma well_formed_freeze t : forall p, scoped k s p t -> well_formed (negb (bool_decide (p = []))) (freeze t) = true.
Proof.
  induction t as [v|v|m c|m c v IH|a b c IHa IHb IHc|ts IH|l b IH|f ts IHf IH|w o ts IH] using tree_ind'; intros p.
  - done.
  - destruct v as [w| | |]; cbn; [by destruct (sexp_pointerp w)|done..].
  - destruct c as [c|]; [|done]. intros [_ Hr]. cbn [freeze well_formed freeze_ref within ref_where].
    destruct (cell_value (get_cell s c)) as [l| | | |]; try done. destruct Hr as [_ Hi]. by rewrite (innermost_inside _ _ _ Hi).
  - destruct c as [c|]; [|done]. cbn [scoped]. intros ([_ Hr] & Hsv & Hv). cbn [freeze well_formed freeze_ref ref_where ref_name]. rewrite (IH p Hv). cbn [andb].
    destruct (cell_value (get_cell s c)) as [l| | | |] eqn:Ev; try done. destruct Hr as [_ Hi]. rewrite (innermost_inside _ _ _ Hi). cbn [andb lam_sv freeze_lambda].
    apply bool_decide_eq_true. by apply Hsv.
  - cbn [scoped freeze well_formed]. intros (Ha & Hb & Hc). by rewrite IHa, IHb, IHc.
  - rewrite scoped_seq. intros [Hn Ha]. cbn [freeze well_formed]. rewrite forallb_well_formed by done. by destruct ts.
  - cbn [scoped freeze well_formed]. intros [_ Hb]. exact (IH (l :: p) Hb).
  - rewrite scoped_app. cbn [freeze well_formed]. intros [Hf Ha]. by rewrite IHf, forallb_well_formed.
  - rewrite scoped_op. cbn [freeze well_formed]. by apply forallb_well_formed.
Qed.
End freeze.

(** What [supported] asks of sizes and operators. *)
Fixpoint fits (x : ast) : bool :=
  match x with
  | Lit _ | Self _ | RefE _ => true
  | SetE _ v => fits v
  | Cnd t p f => fits t && fits p && fits f
  | Seq ls => forallb fits ls
  | Lambda i fv body => lambda_fits i fv body && fits body
  | App f args => fits f && forallb fits args
  | OpApp _ op args => bool_decide (is_Some (operator_code op (length args))) && forallb fits args
  end.

Definition fits_program (x : ast) : bool := (need x + 2 <=? 60) && (weight x <=? 960) && fits x.

Lemma no_captures fv : fv_list fv -> (forall n id, captures fv n id = false) -> fv = [].
Proof.
  intros [Hw _] Hc. destruct fv as [|r fv]; [done|]. apply Forall_cons_1 in Hw as [Hw _]. unfold within in Hw. destruct (ref_where r) as [|i] eqn:E; [done|].
  specialize (Hc (ref_name r) (lam_id i)). cbn in Hc. unfold hit in Hc. rewrite E in Hc. by rewrite !bool_decide_true in Hc.
Qed.

Definition free_inside (inside : bool) (x : ast) : Prop := inside = true \/ forall n id, occurs n id x = false.

Lemma supported_fits x : forall inside, Forall closure_ok (lambdas x) -> free_inside inside x -> fits x = true -> well_formed inside x = true -> supported inside x = true.
Proof.
  assert (Hall : forall inside ls, Forall (fun x => forall inside, Forall closure_ok (lambdas x) -> free_inside inside x -> fits x = true -> well_formed inside x = true -> supported inside x = true) ls ->
    Forall closure_ok (flat_map lambdas ls) -> (inside = true \/ forall n id, existsb (occurs n id) ls = false) -> forallb fits ls = true -> forallb (well_formed inside) ls = true ->
    forallb (supported inside) ls = true).
  { intros inside ls H. induction H as [|y ls Hx _ IH]; [done|]. cbn [flat_map forallb]. intros [C1 C2]%Forall_app Ho [F1 F2]%andb_true_iff [W1 W2]%andb_true_iff.
    rewrite Hx, IH; try done; (destruct Ho as [->|Ho]; [by left|right]; intros n id; specialize (Ho n id); cbn in Ho; by apply orb_false_iff in Ho as [? ?]). }
  induction x as [v|v|r|r v IH|t p f IHt IHp IHf|ls IH|i fv b IH|f args IHf IHargs|l op args IH] using ast_ind'; intros inside; cbn [lambdas fits well_formed supported].
  - done.
  - done.
  - done.
  - intros C Ho F [W1 W2]%andb_true_iff. rewrite W2, IH; try done. destruct Ho as [->|Ho]; [by left|right]. intros n id. specialize (Ho n id). cbn in Ho. by apply orb_false_iff in Ho as [? ?].
  - intros [C1 [C2 C3]%Forall_app]%Forall_app Ho [[F1 F2]%andb_true_iff F3]%andb_true_iff [[W1 W2]%andb_true_iff W3]%andb_true_iff.
    rewrite IHt, IHp, IHf; try done; (destruct Ho as [->|Ho]; [by left|right]; intros n id; specialize (Ho n id); cbn in Ho; apply orb_false_iff in Ho as [[? ?]%orb_false_iff ?]; done).
  - intros C Ho F [-> W]%andb_true_iff. cbn [andb]. by apply Hall.
  - intros C Ho [-> F]%andb_true_iff W. apply Forall_cons_1 in C as [[Hfv Hcap] C]. rewrite (IH true); [|done|by left|done|done]. rewrite !andb_true_r. apply andb_true_iff. split.
    + destruct Ho as [->|Ho]; [apply orb_true_r|]. rewrite (no_captures fv); [done|done|]. intros n id. by rewrite Hcap.
    + apply forallb_forall. intros r Hr. destruct Hfv as [Hw _]. rewrite list.Forall_forall in Hw. apply Hw. by apply list_elem_of_In.
  - intros [C1 C2]%Forall_app Ho [F1 F2]%andb_true_iff [W1 W2]%andb_true_iff.
    rewrite IHf, Hall; try done; (destruct Ho as [->|Ho]; [by left|right]; intros n id; specialize (Ho n id); cbn in Ho; by apply orb_false_iff in Ho as [? ?]).
  - intros C Ho [-> F]%andb_true_iff W. cbn [andb]. by apply Hall.
Qed.

Lemma free_list_length ls : forall fv, length (free_list ls fv).1 = length ls.
Proof.
  induction ls as [|x ls IH]; intros fv; [done|]. cbn [free_list]. destruct (sexp_free_vars x fv) as [x' fv1]. specialize (IH fv1).
  destruct (free_list ls fv1). cbn in *. by rewrite IH.
Qed.

(** The pass over free variables changes nothing of that. *)
Lemma well_formed_free_vars x : forall inside fv, well_formed inside (sexp_free_vars x fv).1 = well_formed inside x.
Proof.
  assert (Hall : forall inside ls, Forall (fun x => forall inside fv, well_formed inside (sexp_free_vars x fv).1 = well_formed inside x) ls ->
    forall fv, forallb (well_formed inside) (free_list ls fv).1 = forallb (well_formed inside) ls).
  { intros inside ls H. induction H as [|y ls Hx _ IH]; intros fv; [done|]. cbn [free_list forallb]. specialize (Hx inside fv). destruct (sexp_free_vars y fv) as [y' fv1].
    specialize (IH fv1). destruct (free_list ls fv1). cbn in *. by rewrite Hx, IH. }
  induction x as [v|v|r|r v IH|t p f IHt IHp IHf|ls IH|i fv0 b IH|f args IHf IHargs|l op args IH] using ast_ind'; intros inside fv.
  - done.
  - done.
  - done.
  - cbn [sexp_free_vars]. specialize (IH inside fv). destruct (sexp_free_vars v fv). cbn in *. by rewrite IH.
  - cbn [sexp_free_vars]. specialize (IHt inside fv). destruct (sexp_free_vars t fv) as [t' fv1]. specialize (IHp inside fv1). destruct (sexp_free_vars p fv1) as [p' fv2].
    specialize (IHf inside fv2). destruct (sexp_free_vars f fv2). cbn in *. by rewrite IHt, IHp, IHf.
  - rewrite free_vars_seq. pose proof (Hall inside ls IH fv) as H. pose proof (free_list_length ls fv) as Hl. destruct (free_list ls fv) as [ls' fv']. cbn in *. rewrite H. by destruct ls, ls'.
  - cbn [sexp_free_vars]. specialize (IH true []). destruct (sexp_free_vars b []). cbn in *. done.
  - rewrite free_vars_app. specialize (IHf inside fv). destruct (sexp_free_vars f fv) as [f' fv1]. pose proof (Hall inside args IHargs fv1) as H. destruct (free_list args fv1). cbn in *. by rewrite IHf, H.
  - rewrite free_vars_opapp. pose proof (Hall inside args IH fv) as H. destruct (free_list args fv). cbn in *. done.
Qed.

(** ** Programs *)

Section programs.
Context `{K : allowed}.
Variable procedurep : sexp -> option bool.
Variable exceptionp : sexp -> bool.
Variable sexp_eval : context -> form -> state -> binding * state.
Variable expand : sexp -> form -> Syntax.env -> Syntax.env -> state -> (form + sexp) * state.
Hypothesis Hsafe : syntax_safe procedurep sexp_eval.

(** C35 (invariant).  Take a source form without syntactic closures, a state whose
    frames, cells and lambdas are consistent and which has no macros, and a context
    of it without free variables; the keywords that bind syntax are allowed if what
    is bound with them is syntax and no procedure.  Analysis then ends with a tree
    or an exception, for every fuel from twice the size of the form: no null
    pointer is followed.  The state stays consistent and what was there stays
    bound.  In a tree every reference of a local variable goes to a lambda around
    it, and no lambda inside of this one has the name as a parameter or, if it is
    around the whole form, had it as an internal definition when the analysis
    began; nor does a reference of a global variable go past such a lambda, except
    for one that an import has renamed.  (A reference in front of an internal
    definition of its name goes to what is outside; that of the rest of a body is
    the subject of [Internal.internal_definitions].)  Local variables that are
    assigned are known to their lambdas; every lambda is a new one and occurs
    once. *)
Theorem analysis_scoped fuel c x s : state_ok s -> context_ok s c -> plain x = true -> (2 * form_size x <= fuel)%nat ->
  exists r s', sexp_analyze procedurep exceptionp sexp_eval expand fuel c x s = Done r s' /\
    state_ok s' /\ context_ok s' c /\ ext s s' /\ path s' (context_env c) = path s (context_env c) /\
    match r with
    | T t => scoped (defined s) s' (path s (context_env c)) t /\ Scoping.between (length (lams s)) (length (lams s')) (tree_lambdas t)
    | E _ => True
    end.
Proof using Hsafe.
  intros Hs Hc Hp Hfuel. destruct (sexp_analyze_ok procedurep exceptionp sexp_eval expand fuel c x s Hsafe Hs Hc Hp Hfuel) as (r & s' & Hr & Hpost).
  exists r, s'. split; [exact Hr|]. assert (Hg : grows (form_size x) c s s') by (destruct r; [by destruct Hpost|exact Hpost]).
  destruct (grows_ok _ _ _ _ Hg Hc) as (H1 & H2 & H3 & H4 & _). split_and!; try done. destruct r as [t|]; [|done]. by destruct Hpost as (_ & Ht & Hb).
Qed.

(** C37 (refinement).  What the analyzer makes of a program without macros is what
    the compiler takes.  The program is a form without syntactic closures, analyzed
    at the toplevel: in a context outside of all lambdas and without free
    variables, of a consistent state without macros, the keywords that bind syntax
    being allowed as in [analysis_scoped], with fuel for the form.  If the analysis
    gives a tree then, after the pass over free variables, the numbers of its
    lambdas differ; and if the tree keeps the limits of depth and size and the
    operators take their numbers of arguments ([fits_program]), it meets the
    conditions under which [Toplevel.compile_correct] holds: no local variable is
    free in it, each lambda has captured what its body refers to and knows its
    assigned variables, and no sequence is empty. *)
Theorem analysis_compiles place cell_at fuel e x s t s' : state_ok s -> context_ok s (Context e None []) -> plain x = true -> (2 * form_size x <= fuel)%nat ->
  sexp_analyze procedurep exceptionp sexp_eval expand fuel (Context e None []) x s = Done (T t) s' ->
  let x' := (sexp_free_vars (freeze place cell_at s' t) []).1 in
  NoDup (lambda_ids x') /\ (fits_program x' = true -> supported_program x' = true).
Proof using Hsafe.
  intros Hs Hc Hp Hfuel Ht. destruct (sexp_analyze_ok procedurep exceptionp sexp_eval expand fuel _ x s Hsafe Hs Hc Hp Hfuel) as (r & s1 & Hr & Hpost).
  rewrite Ht in Hr. injection Hr as <- <-. destruct Hpost as (Hg & Hsc & [_ Hnd]). destruct (grows_ok _ _ _ _ Hg Hc) as (Hs' & _).
  assert (Hpath : path s e = []) by (destruct Hc as [_ _ Hin]; change (None = head (path s e)) in Hin; by destruct (path s e)). cbn [context_env] in Hsc. rewrite Hpath in Hsc.
  set (y := freeze place cell_at s' t). destruct (all_analyzed y [] fv_list_nil) as [_ _ Hcl Hocc Hids]. cbn zeta. fold y in Hids |- *. split.
  - rewrite Hids. unfold y. rewrite lambda_ids_freeze. apply NoDup_fmap_2; [intros l l'; apply lambda_number_inj|exact Hnd].
  - intros [[Hn Hw]%andb_true_iff Hf]%andb_true_iff. unfold supported_program. rewrite Hn, Hw. cbn [andb].
    apply supported_fits; [exact Hcl| |exact Hf|].
    + right. intros n i. rewrite Hocc. apply not_true_is_false. intros Ho. destruct (occurs_freeze place cell_at s' Hs' _ n i t [] Hsc Ho) as (l & []%not_elem_of_nil & _).
    + rewrite well_formed_free_vars. exact (well_formed_freeze place cell_at s' _ t [] Hsc).
Qed.
End programs.

(** [(define (f x) (define y x) (set! x 1) (lambda () (if x y (f x))))] in the
    environment of core forms; any value that is no procedure is what evaluation
    gives. *)
Definition counter_program : form :=
  forms [name "define"; forms [name "f"; name "x"]; forms [name "define"; name "y"; name "x"]; forms [name "set!"; name "x"; one_form];
         forms [name "lambda"; NULL; forms [name "if"; name "x"; name "y"; forms [name "f"; name "x"]]]].

#[local] Abbreviation analysis := (sexp_analyze no_procedure no_exception eval_false same_form 100 first_context counter_program first_state).

Definition counter_body : tree :=
  TSeq [TSet (Symbol "y") (Some 12%nat) (TRef (Symbol "x") (Some 11%nat)); TSelf VOID;
        TSet (Symbol "x") (Some 11%nat) (TSelf one_form);
        TLam 1 (TCnd (TRef (Symbol "x") (Some 11%nat)) (TRef (Symbol "y") (Some 12%nat))
                  (TApp (TRef (Symbol "f") (Some 10%nat)) [TRef (Symbol "x") (Some 11%nat)]))].
Definition counter_tree : tree := TSet (Symbol "f") (Some 10%nat) (TLam 0 counter_body).
Definition counter_state : state := match analysis with Done _ s => s | _ => first_state end.

Lemma counter_analysis : analysis = Done (T counter_tree) counter_state.
Proof. vm_compute. reflexivity. Qed.

Lemma analysis_scoped_witness :
  analysis = Done (T counter_tree) counter_state /\ state_ok counter_state /\ scoped (defined first_state) counter_state [] counter_tree /\
  sv (get_lam counter_state 0) = [Symbol "y"; Symbol "x"] /\ locals (get_lam counter_state 0) = [Symbol "y"].
Proof.
  destruct (analysis_scoped no_procedure no_exception eval_false same_form no_procedure_safe 100 first_context counter_program first_state
    (proj1 first_ok) (proj2 first_ok) eq_refl ltac:(vm_compute; lia)) as (r & s' & Hr & Hs' & _ & _ & _ & Ht).
  rewrite counter_analysis in Hr. apply done_inj in Hr as [<- <-].
  split; [exact counter_analysis|]. split; [exact Hs'|]. split; [exact (proj1 Ht)|]. split; vm_compute; reflexivity.
Defined.

Definition compiled_counter : ast :=
  (sexp_free_vars (freeze (fun _ => SEXP_NULL) (fun c => Ptr (Pos.of_succ_nat c)) counter_state counter_tree) []).1.

Lemma analysis_compiles_witness :
  NoDup (lambda_ids compiled_counter) /\ lambda_ids compiled_counter = [1%positive; 2%positive] /\ supported_program compiled_counter = true.
Proof.
  destruct (analysis_compiles no_procedure no_exception eval_false same_form no_procedure_safe (fun _ => SEXP_NULL) (fun c => Ptr (Pos.of_succ_nat c)) 100 [0%nat] counter_program
    first_state counter_tree counter_state (proj1 first_ok) (proj2 first_ok) eq_refl ltac:(vm_compute; lia) counter_analysis) as [Hn Hsup].
  split; [exact Hn|]. split; [vm_compute; reflexivity|]. apply Hsup. vm_compute. reflexivity.
Defined.
