(* ===== verification/AnalyzeFaults.v ===== *)
(** * Faults of the analyzer (eval.c)

    Where analysis does not do what it means to. *)
From S2P Require Import Prelude Heap Syntax Identifiers Analyze Internal Frontend.
From stdpp Require Import base list option strings.
#[local] Open Scope Z_scope.

#[local] Abbreviation analyze_at := (analyze no_procedure no_exception eval_false same_form).
#[local] Abbreviation analyze_in := (sexp_analyze no_procedure no_exception eval_false same_form 100).

Definition lambda_of (body : list form) : form := forms (name "lambda" :: NULL :: body).
Definition define_y : form := forms [name "define"; name "y"; one_form].

Definition car_opcode : opcode := Opcode None None None false OPC_GETTER OP_CAR 1 0 false None.

(** A global frame with the keyword [define], the opcode [car], the variable [v]
    and a name for it. *)
Definition frozen (immutable : bool) : state :=
  State [Cell (Symbol "define") (BCore SEXP_CORE_DEFINE) false; Cell (Symbol "car") (BOpcode (Ptr 9) car_opcode) false; Cell (Symbol "v") (BValue (Fixnum 5)) false]
    [(Symbol "w", 2%nat)] [Frame [0; 1; 2]%nat [0%nat] None false immutable] [] [].

Definition car_tower (n : nat) : form := Nat.iter n (fun x => forms [name "car"; x]) one_form.
Definition call_tower (n : nat) : form := Nat.iter n (fun x => forms [name "g"; x]) one_form.
Definition car_trees (n : nat) : tree := Nat.iter n (fun t => TOp (Ptr 9) car_opcode [t]) (TSelf one_form).

Lemma gets_done {A B} (f : state -> A) (k : A -> M B) s a : f s = a -> (gets f ≫= k) s = k a s.
Proof. by intros <-. Qed.

Lemma done_bind {A B} (m : M A) (k : A -> M B) s a s' : m s = Done a s' -> (m ≫= k) s = k a s'.
Proof. unfold mbind, M_bind. by intros ->. Qed.

Lemma bind_trees {A B} (m : M A) (k : A -> M B) a s s' r : m s = Done a s' -> k a s' = r -> (m ≫= k) s = r.
Proof. unfold mbind, M_bind. by intros -> ->. Qed.

Lemma car_towers n : forall fuel depth, (n < fuel)%nat -> depth < SEXP_MAX_ANALYZE_DEPTH ->
  analyze_at fuel first_context (car_tower n) depth 0 (frozen false) = Done (T (car_trees n)) (frozen false).
Proof.
  induction n as [|n IH]; intros [|fuel] depth Hf Hd; try lia; unfold analyze; (assert ((SEXP_MAX_ANALYZE_DEPTH <? depth + 1) = false) as -> by (apply Z.ltb_ge; lia)).
  - reflexivity.
  - change (car_tower (S n)) with (Cons (name "car") (Cons (car_tower n) NULL)). change (car_trees (S n)) with (TOp (Ptr 9) car_opcode [car_trees n]).
    specialize (IH fuel 0 ltac:(lia) eq_refl). unfold analyze in IH. change (SEXP_MAX_ANALYZE_DEPTH <? 0 + 1) with false in IH. cbv iota in IH.
    set (x := car_tower n) in *. set (t := car_trees n) in *.
    cbn -[x t analyze_lambda Z.add SEXP_MAX_ANALYZE_DEPTH frozen].
    etransitivity; [apply gets_done; reflexivity|]. etransitivity; [apply gets_done; reflexivity|].
    cbn -[x t analyze_lambda Z.add SEXP_MAX_ANALYZE_DEPTH frozen].
    etransitivity; [by apply done_bind|]. apply (bind_trees _ _ (inl [t]) _ (frozen false)); [|reflexivity].
    etransitivity; [apply done_bind; exact IH|]. etransitivity; [apply gets_done; reflexivity|]. reflexivity.
Qed.

Definition depth_error (x : form) : res := compile_error "SEXP_MAX_ANALYZE_DEPTH exceeded" x.

(** What a form is analyzed to at the toplevel, with the definitions in the first
    lambda, and the cells, renamed bindings and exports afterwards. *)
Definition in_lambda (body : list form) : option (res * list sexp) :=
  match analyze_in first_context (lambda_of body) first_state with Done r s => Some (r, locals (get_lam s 0)) | _ => None end.

Definition result_at (fuel : nat) (x : form) (depth : Z) (s : state) : option res :=
  match analyze_at fuel first_context x depth 1 s with Done r _ => Some r | _ => None end.

Definition defining (x : form) (s : state) : option (res * list binding * list (sexp * nat) * list sexp) :=
  match analyze_in first_context x s with
  | Done r s => Some (r, map cell_value (cells s), renamed s, sexp_env_exports s [0%nat])
  | _ => None
  end.

(** C39 (error).  Where analysis does not do what it means to.  A definition as
    an argument is accepted, and becomes one of the lambda around, behind an
    argument that is an application.  A definition in an immutable environment is
    refused after the variable has lost its value, or its name if it is a renamed
    one, which is then exported as the false object.  What follows the value in a
    definition is dropped.  The limit of the depth does not hold for arguments of
    opcodes.  A closure behind the ten thousandth pair of a quoted list stays. *)
Theorem analyzer_faults :
  in_lambda [forms [name "g"; one_form; define_y]] = Some (compile_error "unexpected define" define_y, []) /\
  in_lambda [forms [name "g"; forms [name "g"]; define_y]] =
    Some (T (TLam 0 (TSeq [TSet (Symbol "y") (Some 11%nat) (TSelf one_form);
                           TApp (TRef (Symbol "g") (Some 10%nat)) [TApp (TRef (Symbol "g") (Some 10%nat)) []; TSelf VOID]])), [Symbol "y"]) /\
  defining (forms [name "define"; name "v"; one_form]) (frozen true) =
    Some (compile_error "immutable binding" (name "v"),
          [BCore SEXP_CORE_DEFINE; BOpcode (Ptr 9) car_opcode; BValue SEXP_VOID], [(Symbol "w", 2%nat)],
          [Symbol "v"; Symbol "car"; Symbol "define"; Symbol "w"]) /\
  defining (forms [name "define"; name "w"; one_form]) (frozen true) =
    Some (compile_error "immutable binding" (name "w"),
          [BCore SEXP_CORE_DEFINE; BOpcode (Ptr 9) car_opcode; BValue (Fixnum 5); BValue SEXP_VOID], [(SEXP_FALSE, 2%nat)],
          [Symbol "v"; Symbol "car"; Symbol "define"; Symbol "w"; SEXP_FALSE]) /\
  defining (forms [name "define"; name "v"; one_form; name "f"; NULL]) (frozen false) = defining (forms [name "define"; name "v"; one_form]) (frozen false) /\
  result_at 9 (call_tower 3) 8189 (frozen false) = Some (depth_error (name "g")) /\
  (forall n, analyze_at (S n) first_context (car_tower n) 8189 0 (frozen false) = Done (T (car_trees n)) (frozen false)) /\
  (forall k x, let ls := Nat.iter (SEXP_STRIP_SYNCLOS_BOUND + k) (Cons NULL) x in sexp_strip_synclos ls = ls).
Proof.
  do 6 (split; [vm_compute; reflexivity|]). split; [|exact strip_synclos_long].
  intros n. apply car_towers; [lia|done].
Qed.
